(* ===== verification/_CoqProject ===== *)
-Q . S2P
Prelude.v
Eff.v
JsMap.v
JsString.v
JsSearch.v
Truncate.v
OutputAccumulator.v
OutputAccumulatorSpec.v
OutputAccumulatorProps.v
Json.v
JsRegex.v
JsonParse.v
JsonlFile.v
JsonlReader.v
EventLog.v
EventLogSpec.v
RlmLedger.v
RlmLedgerSpec.v
RlmLedgerProps.v
EditDiff.v
EditDiffSpec.v
EditTool.v
FileMutationQueue.v
Messages.v
PrivateFraming.v
CommandJournal.v
CommandJournalSpec.v
Overflow.v
SlashCommands.v
TransformMessages.v
TransformMessagesSpec.v
EventStream.v
Semaphore.v
SessionAction.v
SessionActionSpec.v
SessionActionProps.v
SessionLease.v
SessionLeaseSpec.v
SessionLeaseProps.v
Goals.v
SessionEntry.v
SessionManager.v
GoalSession.v
SessionInvariant.v
SessionDurability.v
GoalSpec.v
GoalProps.v
SessionContext.v
AgentLoop.v
AgentLoopSpec.v
AgentLoopProps.v
Agent.v
AgentSpec.v
AgentProps.v
CronSchedule.v
CronScheduleSpec.v
Autonomous.v
AutonomousSpec.v
Continuation.v
CronStore.v
CronStoreSpec.v
CronStoreProps.v
CronScheduler.v
CronSchedulerSpec.v
SummaryPrompts.v
Compaction.v
Recovery.v
RecoverySpec.v
CompactionSpec.v
CompactionProps.v
StdinBuffer.v
StdinBufferSpec.v
SemanticEdges.v
SemanticEdgesSpec.v
SemanticLedgerSpec.v
