(* ===== verification/Prelude.v ===== *)
(** * A verification of the core of amide

    amide is a terminal coding agent.  This development models the part that
    decides what the model sees, what is executed and what is kept: the agent
    loop, the stateful agent around it, the session file, context compaction,
    the edits of files, the output of tools, the actions of a session and the
    lease on its file, goals and autonomous turns, scheduled jobs, the provenance
    of requests, the input of the terminal, and the pipes, the journal and the
    ledger of the daemon.  All paths below are under [packages/].

    ** The program and its parts

    A prompt enters [agent/src/agent.ts].  [Agent] keeps the transcript and the
    queues of steering and follow-up messages and starts a run of
    [agent/src/agent-loop.ts].  The loop asks the provider for an assistant
    message, executes the tool calls in it, appends the results and repeats
    until nothing is left to answer; every step is announced as an event.  The
    agent reduces the events into its observable state, and
    [coding-agent/src/core/agent-session.ts] writes the finished messages to
    the session through [coding-agent/src/core/session-manager.ts]: an
    append-only tree of entries in a JSONL file, with a leaf that marks the
    current branch.  The messages of the next request are computed from that
    branch ([buildSessionContext]), converted by [core/messages.ts] and fitted to
    the model of the request ([ai/src/providers/transform-messages.ts]).  The
    response is a stream of events ([ai/src/utils/event-stream.ts]).  When
    the context grows too large, [core/compaction/] chooses a cut point, has the
    older part summarized and records a compaction entry that replaces it.
    Tools shorten their output with [core/tools/truncate.ts] and gather what a
    process prints with [core/tools/output-accumulator.ts]; the edit tool
    ([core/tools/edit.ts], [edit-diff.ts]) replaces texts in files, one call per
    file at a time ([file-mutation-queue.ts]).

    What users, extensions and schedules want of a session waits as an action in
    one of two lanes ([core/session-action-store.ts]) until the session may take
    it up.  A session file is opened by one process at a time, the one that has
    its lease ([core/session-lease.ts]).

    A session can pursue a goal ([core/goals.ts]) and run unattended
    ([core/autonomous.ts]): when a run would end, a hook of the agent session
    gives the loop one more message, within a budget, limits and quality gates.
    Both are switched by slash commands ([core/slash-commands.ts]); the goal is
    recorded as entries of the session.

    When a run ends with an error, the agent session retries it, or compacts the
    context if it was too large, and continues ([core/agent-session.ts]); what
    the error means is read from its text ([ai/src/utils/overflow.ts],
    [core/auth-guidance.ts]).

    Prompts can be scheduled ([core/cron-jobs.ts]): jobs with a schedule are kept
    in a state file per session, a scheduler claims those that are due, hands
    them to their sessions one after the other, and records the results.

    A daemon runs the agents in worker processes.  It talks to them over pipes
    of framed messages ([coding-agent/src/modes/session-worker/private-framing.ts]) and
    keeps the receipts of the commands it forwards in an append-only journal
    ([command-recovery-journal.ts]), so that a command repeated after a crash
    is answered and not executed again.  Its clients exchange lines of JSON with
    it ([modes/rpc/jsonl.ts]).  What runs at once is bounded by semaphores
    ([utils/semaphore.ts]).  The spawned agents of a sessions
    directory and their parents are recorded in a ledger ([rlm-ledger.ts]), an
    instance of the append-only log [core/event-log.ts].

    Every agent records its requests to a model in a ledger of its own, from
    which the edges between requests are derived ([core/semantic-edges.ts]).
    What the user types is cut into keys and pastes by a buffer of the terminal
    library ([tui/src/stdin-buffer.ts]).

    ** Files

    - [Prelude]: notation, tactics and the lemmas on lists, integers and
      outcomes the other files share.
    - [JsMap], [JsString], [Json], [JsonParse]: what the source uses of its
      language.  Insertion-ordered [Map]; strings as lists of UTF-16 code units
      with [split], [join], [trim], UTF-8 encoding and decoding; JSON values
      over integers, [JSON.stringify] and [JSON.parse], which are inverse to
      each other.
    - [JsSearch]: prefixes, suffixes and first occurrences in strings.
    - [JsRegex]: regular expressions with a matcher by derivatives, proved equal
      to the relation of matching.
    - [JsonlFile]: files of JSON lines as bytes: what appends that tear in the
      middle leave, and what a reader that skips unreadable lines gets back.
    - [Eff]: the monad of the stateful classes (writes made before a [throw]
      stay) and its specification form [hoare].
    - [PrivateFraming]: [modes/session-worker/private-framing.ts]: encoder,
      incremental decoder and the channel that combines them.
    - [CommandJournal], [CommandJournalSpec]:
      [modes/daemon/command-recovery-journal.ts], the class with its file of
      bytes, and its theorems.
    - [EventLog], [EventLogSpec]: [core/event-log.ts] and its theorems, proved
      against the class [LineParser] of what a client promises of its parser.
    - [RlmLedger], [RlmLedgerSpec], [RlmLedgerProps]:
      [modes/daemon/rlm-ledger.ts] with [canonicalSessionPath] of
      [core/session-lease.ts]; its parser is an instance of [LineParser].
    - [SemanticEdges], [SemanticEdgesSpec], [SemanticLedgerSpec]:
      [core/semantic-edges.ts], the theorems about the derivation of edges, and
      those about the recorder and the bytes of its ledger.
    - [StdinBuffer], [StdinBufferSpec]: [tui/src/stdin-buffer.ts] and its
      theorems.
    - [Messages]: [ai/src/types.ts], [core/messages.ts], [core/usage.ts].
      One constructor per message role and content block.
    - [TransformMessages], [TransformMessagesSpec]:
      [ai/src/providers/transform-messages.ts] and its reference definition by
      turns.  [EventStream]: [ai/src/utils/event-stream.ts], [Semaphore]:
      [coding-agent/src/utils/semaphore.ts], each as a step relation.
      [JsonlReader]: [modes/rpc/jsonl.ts].
    - [Truncate]: [core/tools/truncate.ts].  [OutputAccumulator],
      [OutputAccumulatorSpec], [OutputAccumulatorProps]:
      [core/tools/output-accumulator.ts], what streaming decoding gives, and the
      invariant with the theorems.
    - [SessionAction], [SessionActionSpec], [SessionActionProps]:
      [core/session-action-store.ts] over a heap of action objects, its
      invariant, and the refinement of two queues.
    - [SessionLease], [SessionLeaseSpec], [SessionLeaseProps]:
      [core/session-lease.ts] over a machine of processes and directories, what
      its operations keep, and the system of processes.
    - [EditDiff], [EditDiffSpec], [EditTool]: [core/tools/edit-diff.ts] and the
      edit tool: matching, replacement, line endings and the displayed diff.
      [FileMutationQueue]: [core/tools/file-mutation-queue.ts], calls as a step
      relation.
    - [CronSchedule], [CronScheduleSpec]: the schedules of [core/cron-jobs.ts]
      and the search for the next run in local time.
    - [CronStore], [CronStoreSpec], [CronStoreProps]: [AgentCronJobStore], one
      definition per method, its invariant, and its operations as one step
      relation.  [CronScheduler], [CronSchedulerSpec]: [AgentCronScheduler], its
      steps interleaved with the operations of the store.
    - [SessionEntry]: the entry types, [generateId], the version migrations,
      [applyChildUsageAttributions] and [buildSessionContext] of
      [core/session-manager.ts], with the re-linking of [forkFrom].
    - [SessionManager]: the class [SessionManager], one definition per method
      that reads or writes its state; the record [SM] has its fields, and
      [World] adds the file system and the counters of the platform.
    - [SessionInvariant], [SessionDurability], [SessionContext]: the theorems
      about it.
    - [SlashCommands]: [core/slash-commands.ts].
    - [Goals]: [core/goals.ts] and the parser of [/goal].  [GoalSession]: the
      methods of [AgentSession] that keep the goal, over the session manager and
      an abstract rest of the class (the class [GoalHost]); [GoalSpec] and
      [GoalProps]: the invariant, the life of a goal and the theorems.
    - [Autonomous], [AutonomousSpec]: [core/autonomous.ts] over the class
      [Machine] of processes and files.
    - [Continuation]: the hook that puts goal and autonomous mode together, and
      [/autonomous].
    - [Overflow]: [ai/src/utils/overflow.ts], [core/auth-guidance.ts] and the
      predicates of [AgentSession] on failed messages.  [Recovery],
      [RecoverySpec]: the methods of [AgentSession] that retry, compact and
      continue, over a heap of messages and with the awaiting calls as steps, and
      the theorems.
    - [AgentLoop]: [agent/src/agent-loop.ts].  The record [Config] holds its
      outside as operations on an abstract world: the provider, tools, hooks,
      queues, the abort signal, the event sink and the scheduler.
    - [AgentLoopSpec], [AgentLoopProps]: the event protocol and the theorems,
      under the class [Env]: no listener rejects with an abort error, and a
      response announces its start at most once.
    - [Agent]: [agent/src/agent.ts]; [createLoopConfig] is a [Config] whose
      world is the agent's state and an external state, and an instance of
      [Env]; [AgentSpec] and [AgentProps]: its
      theorems.
    - [SummaryPrompts], [Compaction]: [core/compaction/utils.ts],
      [compaction.ts] and [branch-summarization.ts]; [CompactionSpec] and
      [CompactionProps]: the theorems.

    ** What is shown

    - Session structure.  From a new or loaded session, any sequence of
      operations with any write failures keeps one header, unique identifiers,
      an exact index, parents before children and an existing leaf.  Hence
      [getBranch] terminates and returns the path from the root, and
      [buildSessionContext] is the stated function of the branch: the last
      settings, and the summary, the kept and the later messages of the last
      compaction.
    - Durability.  Once the file of a session has been written, it loads to
      exactly the entries in memory after every append that returns, and after
      every failed append with rollback; such an append is all or nothing.
      Reopening the file gives the same session.  A plain append that fails
      breaks this, and a theorem exhibits the loss.
    - Files made from sessions.  A fork keeps every branch up to the entries it
      drops; a branched session does not, when it drops a label (theorem); the
      migration of a version-1 file gives one chain and is idempotent.
    - Agent loop.  For every provider, tool, hook, queue, schedule and abort:
      the events follow the protocol even when something throws; on return,
      the announced messages, the returned messages and the messages appended
      to the context are the same list; a batch of tool calls is answered in
      source order, completely unless aborted between sequential calls;
      in parallel mode under every interleaving.
    - Agent.  The observable state is the reduction of the event trace; a
      prompt extends the transcript by what the run announced and leaves the
      agent idle, also on failure; queues are first in, first out.
    - Compaction.  A cut never leaves a tool result first and respects the
      budget when any cut does; every message that leaves the context is given
      to a summary request; branch summaries collect exactly the entries the
      target branch does not share.  Two theorems exhibit cases the code
      mishandles.
    - Goals.  Under any commands, messages, requests of the kernel, failing
      writes and movements between branches the goal and the goals recorded in
      the session are well formed; a goal keeps its objective and its budget, its
      status only moves along the allowed ways, and its counts stop when its work
      is over.  A message counts once.  A goal that was set is read back from the
      reopened file.  Its objective cannot leave its element of the prompt.
    - Autonomous turns.  The continuations are bounded whatever happens between
      the calls; a refresh of the gates passes or stops at the first failing gate
      with its attempt counted; the output of a process is kept up to its bound
      exactly.  The continuation hook counts what it delivers, also when input
      that arrives meanwhile makes it take its message back.
    - Recovery.  Retries come in bursts of bounded length with doubling delays,
      each ended by one report; an overflow is answered by one compaction; a
      pending retry has something under way, with two exceptions, of which a
      theorem exhibits one: a retry that overflows the context stops the session.
    - Worker pipes.  The decoder gives the same frames for every way the
      stream is cut into chunks, and the channel delivers what was sent.
    - Requests.  What a provider is sent has no failed turn, every call in it is
      answered before the conversation goes on, and no part of it belongs to
      another model; a transcript in which calls and results match keeps them
      matching under any injective normalization of identifiers.
    - Streams.  An iteration receives every event once, in order, and ends.  The
      line reader reports the lines of the text, and records arrive whole,
      however a stream is cut.  A semaphore keeps its permits, is fair, and its
      calls end.
    - Input of the terminal.  However the input is cut into chunks, the keys,
      sequences and pastes of the whole text come out, if no timer fires between
      the chunks and the sequences before a paste are complete; nothing is held
      without a timer but a paste that goes on.  A theorem exhibits that an
      incomplete sequence before a paste is lost.
    - Semantic edges.  The ledger of a recorder reads as every event whose append
      returned, in order, whatever writes fail and however often the process
      starts again, and the next recorder remembers; one identifier goes out
      with one hash.  Ledgers that speak of different things can be folded in any
      order, and every edge goes back to the events that justify it.
    - Command journal.  Without faults the journal implements a map from command
      identity to receipt; after a crash at any byte of any write a new instance
      recovers every receipt whose write was complete.  A theorem exhibits how a
      torn line hides the receipt written after it.
    - Event log.  Whatever becomes of its writes, a log keeps what complete
      appends wrote, in order, and reads back as it.  Theorems exhibit that a
      record without its line feed is read and later removed, and that appends
      beyond the bounds make a log unreadable.
    - Ledger.  From the bytes of the file up, its operations refine operations on
      a map from children to edges, also when their writes stop in the middle; at
      most one live edge leads to a session; the seeding ends with a forest; the
      family shows roots and consistent edges once.  The theorems ask that an
      operation starts on a file that is [settled]: it does not end with a record
      that lacks only its line feed.
    - Edits.  The edit tool replaces exactly the matched texts and keeps the
      rest of the file, in whatever order the edits are listed; the displayed
      diff shows every changed line.  Calls for one file never overlap, keep
      their order, and all of them end.
    - Schedules.  The next run is the least later minute that matches, in a zone
      with a fixed offset; a theorem exhibits that it lies in the past in the
      hour that is repeated when clocks go back.
    - Scheduled jobs.  After any operations, failures and restarts the
      identifiers of jobs are unique and a job has at most one outstanding
      dispatch, in its own file.  A claim dispatches exactly the due jobs
      without one; a result counts once; recovery ends the interrupted
      dispatches and never repeats a once-job; cancelled and completed jobs stay
      so.  Under any interleaving no job runs twice at the same time, the tasks
      of a session do not overlap, and the lanes drain.  Theorems exhibit that
      one job without a computable next run blocks all claims, and that updates
      against an older clock are dropped.
    - Session actions.  Each lane of the store is, on the actions that wait, the
      queue its operations say; lifecycles only take legal transitions, outcomes
      stay, nothing that was accepted is forgotten before it is over.
    - Session leases.  At most one live process holds the lease of a session,
      whatever dies, fails or gets the pid of another; a lease in the way is
      refused when its owner may be alive, and taken over when it is not.
    - Output.  However output is cut into chunks, what is shown of it is what
      [truncateTail] shows of the whole text; memory is bounded and the file has
      every byte.  [truncateHead] and [truncateTail] return whole lines within both
      limits and report their sizes on every branch; the partial line of
      [truncateTail] starts at a code point.

    ** Modelling decisions

    Code outside the repository's own modules is a parameter: the provider, the
    tools and hooks ([Config], [complete]), identifiers, the clock, paths and git
    (the class [Platform] of [SessionManager]); the Unicode normalization and the
    differ of lines of the edit tool; time zones, the parser of dates, random
    identifiers and [path.resolve] of the scheduled jobs (the classes [Clock] and
    [Platform] of [CronStore]); paths, the clock and the hash of the ledger (the
    class [Platform] of [RlmLedger], with the laws of paths in [Paths]).  The file system of the session manager is a map from
    paths to the physical lines of JSONL files with a list of write faults; a
    line is the entry it parses to or [None].  The files of the daemon are
    bytes, and a failing write leaves any prefix of what it was given.  A state
    file of jobs is the state it parses to; it is replaced by a rename under a
    lock, so an access of it is one step.  So is an attempt for a lease under its
    guard lock; the calls into the file system inside it may fail one by one.
    The file of an accumulator is the list of the chunks written.  Code between two [await]s is one
    step.  Aliasing is explicit where it
    matters: [byId] holds indices into [fileEntries], and an update of an entry
    is an update at its index.

    Numbers of the modelled code are integers ([Z]): sizes, counts, token
    estimates, times.  The fractions of the compaction code are rationals.  Cost
    sums in floating point are not rounded.

    ** Fuel

    - [AgentLoop.runLoop] takes the number of turns it may run; the provider may
      ask for tools forever, so no bound exists in general.  More fuel never
      changes a run that ended ([AgentLoopProps.runLoop_fuel]), and a run
      without tool calls and queued messages needs one turn
      ([AgentLoopProps.runLoop_one_turn]).
    - A walk to the root ([walkBranch] and the walks of [buildSessionContext]) has as
      much fuel as the session has entries; parents are earlier entries, so
      [SessionInvariant.getBranch_spec] proves it enough.
    - The scans of strings and the search for a free identifier are bounded by
      the length of their input or by the source's own bound.
    - [run_all] of the parallel mode has as many steps as the state machines of
      the batch can take ([total_size]); [AgentLoopProps.parallel_every_schedule]
      proves that every call is finished then.
    - [JsonParse.parse] has twice the length of its input as fuel, [parse_fuel_enough]
      proves it enough; [PrivateFraming.push_loop] consumes at least one byte
      in each round, so the length of the buffer is enough ([push_loop_decode]).
    - [CronSchedule.cron_search] has a round for each minute of 366 days, and one
      more; [CronScheduleSpec.nextCronRunAfter_least] shows that it is enough in
      a zone with a fixed offset.  The loops of [EditDiff] over a text have its
      length.
    - [RlmLedger.seed_loop] takes one session from its queue in each round;
      [RlmLedgerProps.seed_forest] proves the number of roots and of sessions
      named by registries enough.
    - [StdinBuffer.process] calls itself on what follows a paste, which is
      shorter: [StdinBufferSpec.nothing_stuck] proves that it returns.  The loop
      over the lines of a semantic-edge ledger has the length of the text.
    - [resolveLegacySessionRlmDepth] follows the parents of session files; the
      source stops at a path already visited, and the fuel is the number of
      files plus two.

    ** Not modelled

    Terminal user interface but for the buffer of its input, providers and their wire formats, authentication,
    settings, extensions, the interpreter kernel, the daemon with its
    protocols, and the command line: they are glue around the parts above, are
    dominated by input and output, or call libraries.  Of the scheduled jobs, the
    text of the [/heartbeat] command and the display of a job.  Of the ledger, the
    fields of a row that are only displayed.  Of the agent session, everything but
    goals, the continuation hook and the recovery of failed runs, whose other
    calls are effects of its trace.  Of the leases, the text of the error.  Of
    a semantic-edge ledger, lines whose fields are not those of their type, which
    the source reads unchecked.  The errors of the stream of an accumulator's file. *)

From stdpp Require Export base list gmap strings option numbers pretty.
From Stdlib Require Export ZArith Lia Bool.
From Stdlib Require Import String Ascii.
From stdpp Require Import list.

#[export] Set Warnings "-clear-no-such-hyp,-register-all".

(** ** Notation scope of the development *)

Declare Scope amide_scope.
Delimit Scope amide_scope with amide.
#[global] Open Scope Z_scope.

(** ** JavaScript strings

    A JavaScript string is the sequence of its UTF-16 code units; [length],
    [slice] and [indexOf] of the source count code units. *)

Abbreviation jsstr := (list Z).

(** ASCII literals of the source as code units. *)
Definition js (s : string) : jsstr :=
  (λ c, Z.of_N (Ascii.N_of_ascii c)) <$> String.list_ascii_of_string s.

(** [String(n)] for an integer [n]. *)
Definition js_of_Z (z : Z) : jsstr := js (pretty z).

(** [Number.isSafeInteger], of an integer. *)
Definition isSafeInteger (v : Z) : bool := (- (2 ^ 53 - 1) <=? v) && (v <=? 2 ^ 53 - 1).

(** The newline code unit / byte. *)
Definition NL : Z := 10.

(** JavaScript truthiness of an optional string ([undefined] and [""] are
    falsy), the test behind [if (text)] and [a || b] in the source. *)
Definition truthy (o : option jsstr) : bool :=
  match o with Some (_ :: _) => true | _ => false end.

(** ** Fallible computations *)

(** [result E A]: a value, or a thrown error of type [E]. *)
Inductive result (E A : Type) : Type :=
| Ok (a : A)
| Throw (e : E).
Arguments Ok {E A} a.
Arguments Throw {E A} e.

#[export] Instance result_ret {E} : MRet (result E) := λ A a, Ok a.
#[export] Instance result_bind {E} : MBind (result E) :=
  λ A B f m, match m with Ok a => f a | Throw e => Throw e end.
#[export] Instance result_fmap {E} : FMap (result E) :=
  λ A B f m, match m with Ok a => Ok (f a) | Throw e => Throw e end.

#[export] Instance result_eq_dec {E A} `{EqDecision E, EqDecision A} :
  EqDecision (result E A).
Proof. solve_decision. Defined.

Lemma bind_Ok {E A B} (m : result E A) (k : A → result E B) (b : B) :
  (m ≫= k) = Ok b ↔ ∃ a, m = Ok a ∧ k a = Ok b.
Proof. destruct m as [a'|e']; cbn; split; [eauto| |done|]; [by intros (?&[= <-]&?)|by intros (?&?&?)]. Qed.

Lemma bind_Throw {E A B} (m : result E A) (k : A → result E B) (e : E) :
  (m ≫= k) = Throw e ↔ m = Throw e ∨ ∃ a, m = Ok a ∧ k a = Throw e.
Proof.
  destruct m as [a'|e']; cbn; split; [eauto| |by injection 1 as ->; left|].
  - by intros [?|(?&[= <-]&?)].
  - by intros [[= <-]|(?&?&?)].
Qed.

Lemma bind_assoc {E A B C} (m : result E A) (f : A → result E B)
    (g : B → result E C) :
  ((m ≫= f) ≫= g) = (m ≫= λ a, f a ≫= g).
Proof. by destruct m. Qed.

(** [inv_ok] takes a hypothesis saying that a chain of fallible steps returned
    and splits it into one equation per step. *)
Ltac inv_ok :=
  repeat match goal with
  | H : Ok _ = Ok _ |- _ => injection H as H
  | H : Throw _ = Throw _ |- _ => injection H as H
  | H : Ok _ = Throw _ |- _ => discriminate H
  | H : Throw _ = Ok _ |- _ => discriminate H
  | H : mret _ = Ok _ |- _ => cbv [mret result_ret] in H
  | H : (_ ≫= _) = Ok _ |- _ =>
      apply bind_Ok in H; destruct H as (? & ? & H); cbn beta in H
  end.

(** ** Lists *)

Section lists.
  Context {A B : Type}.
  Implicit Types (l k : list A) (f : A → bool).

  (** [Array.prototype.every] and [some] as booleans. *)
Lemma forallb_Forall f l : forallb f l = true ↔ Forall (λ x, f x = true) l.
  Proof.
    induction l as [|x l IH]; cbn; [naive_solver|].
    rewrite andb_true_iff, IH, Forall_cons. done.
  Qed.

Lemma existsb_Exists f l : existsb f l = true ↔ Exists (λ x, f x = true) l.
  Proof.
    induction l as [|x l IH]; cbn; [split; [done|by intros ?%Exists_nil]|].
    rewrite orb_true_iff, IH, Exists_cons. done.
  Qed.

Lemma forallb_negb_existsb f l : forallb (negb ∘ f) l = negb (existsb f l).
  Proof. induction l as [|x l IH]; cbn; [done|]. rewrite IH. by destruct (f x). Qed.

Lemma last_app_cons l x k : last (l ++ x :: k) = last (x :: k).
  Proof. induction l as [|y [|z l] IH]; cbn in *; done. Qed.

Lemma drop_lookup_cons l i x : l !! i = Some x → drop i l = x :: drop (S i) l.
  Proof. intros H. by apply drop_S. Qed.

Lemma Forall_take_drop_lookup (P : A → Prop) l i x :
    Forall P (take i l) → l !! i = Some x → P x → Forall P (take (S i) l).
  Proof. intros ? Hi ?. erewrite take_S_r by done. by apply Forall_app_2; [|constructor]. Qed.

  (** The last [length l2] elements of [l1 ++ l2], and the one before them. *)
Lemma drop_length_sub l l1 l2 : l = l1 ++ l2 → drop (length l - length l2) l = l2.
  Proof.
    intros ->. rewrite length_app. replace (_ - _)%nat with (length l1) by lia.
    by rewrite drop_app_length.
  Qed.

Lemma lookup_length_sub l l1 x l2 :
    l = l1 ++ x :: l2 → l !! (length l - S (length l2))%nat = Some x.
  Proof.
    intros ->. rewrite length_app. cbn [length].
    replace (_ - _)%nat with (length l1) by lia. by rewrite list_lookup_middle.
  Qed.
End lists.

(** Elements with distinct images. *)
Lemma NoDup_fmap_eq {A B} (f : A → B) l x y : NoDup (f <$> l) → x ∈ l → y ∈ l → f x = f y → x = y.
Proof.
  intros Hnd [i Hi]%list_elem_of_lookup [i' Hi']%list_elem_of_lookup Hf.
  assert (i = i') as ->; [|congruence].
  eapply NoDup_lookup; [exact Hnd|..]; rewrite list_lookup_fmap; [by rewrite Hi|by rewrite Hi'; cbn; rewrite Hf].
Qed.

Lemma filter_none {A} (P : A → Prop) `{∀ x, Decision (P x)} (l : list A) : (∀ x, x ∈ l → ¬ P x) → filter P l = [].
Proof.
  induction l as [|x l IH]; intros Hl; [done|]. rewrite filter_cons_False by (apply Hl; by left).
  apply IH. intros y Hy. apply Hl. by right.
Qed.

Lemma filter_all {A} (P : A → Prop) `{∀ x, Decision (P x)} (l : list A) : (∀ x, x ∈ l → P x) → filter P l = l.
Proof.
  induction l as [|x l IH]; intros Hl; [done|]. rewrite filter_cons_True by (apply Hl; by left).
  f_equal. apply IH. intros y Hy. apply Hl. by right.
Qed.

Lemma NoDup_fmap_filter {A B} (f : A → B) (P : A → Prop) `{∀ x, Decision (P x)} l :
  NoDup (f <$> l) → NoDup (f <$> filter P l).
Proof.
  induction l as [|x l IH]; [done|]. cbn [fmap list_fmap]. intros [Hx Hl]%NoDup_cons. rewrite filter_cons. case_decide; [|by apply IH].
  cbn [fmap list_fmap]. apply NoDup_cons. split; [|by apply IH]. intros (y&Hy&[_ Hin]%list_elem_of_filter)%list_elem_of_fmap.
  apply Hx. rewrite Hy. by apply list_elem_of_fmap_2.
Qed.

(** Fold-left over a list with a fallible step ([for (const x of xs) ...] in
    code that may throw). *)
Fixpoint foldM {E S A} (f : S → A → result E S) (s : S) (l : list A) : result E S :=
  match l with
  | [] => Ok s
  | x :: l => s' ← f s x; foldM f s' l
  end.

(** [mapM]: [Array.prototype.map] with a callback that may throw. *)
Fixpoint mapR {E A B} (f : A → result E B) (l : list A) : result E (list B) :=
  match l with
  | [] => Ok []
  | x :: l => y ← f x; ys ← mapR f l; Ok (y :: ys)
  end.

Lemma foldM_app {E S A} (f : S → A → result E S) s l k :
  foldM f s (l ++ k) = (foldM f s l ≫= λ s', foldM f s' k).
Proof. revert s; induction l as [|x l IH]; intros s; cbn; [done|]. by destruct (f s x); cbn. Qed.

Lemma foldM_ind {E S A} (P : S → Prop) (f : S → A → result E S) s l s' :
  P s → (∀ s x s', P s → f s x = Ok s' → P s') →
  foldM f s l = Ok s' → P s'.
Proof.
  intros Hs Hstep. revert s Hs.
  induction l as [|x l IH]; cbn; intros s Hs H; inv_ok; subst; eauto.
Qed.

Lemma mapR_Ok {E A B} (f : A → result E B) l ys :
  mapR f l = Ok ys ↔ Forall2 (λ x y, f x = Ok y) l ys.
Proof.
  revert ys; induction l as [|x l IH]; intros ys; cbn.
  - split; intros H; [inv_ok; by subst|by apply Forall2_nil_inv_l in H as ->].
  - rewrite Forall2_cons_iff_l || idtac. split.
    + intros H. inv_ok. subst. constructor; [done|]. by apply IH.
    + intros H. inversion H as [|? y ? ys' Hxy Hys]; subst.
      rewrite Hxy. cbn. apply IH in Hys. by rewrite Hys.
Qed.

(** ** Integers *)

Lemma Z_eqb_spec' (a b : Z) : reflect (a = b) (a =? b).
Proof. apply Z.eqb_spec. Qed.

(** ** Hint database

    [amide] collects the lemmas that discharge the routine side conditions. *)
Create HintDb amide.
Create Rewrite HintDb amide.
#[export] Hint Resolve Forall_nil_2 Forall_cons_2 Forall_app_2 : amide.
#[export] Hint Rewrite @length_app @fmap_app @bind_assoc : amide.
