(* ===== verification/Eff.v ===== *)
(** * State with exceptions

    The monad of the stateful classes: a method reads and writes the object's
    state and returns a value or throws.  As in the source, the writes made
    before a [throw] stay.  [hoare P m Q E] is the specification form: from a
    state in [P], [m] ends with a value in [Q] or an error in [E]. *)

From S2P Require Import Prelude.

Definition eff (S E A : Type) : Type := S → S * result E A.

Section eff.
Context {S E : Type}.

#[export] Instance eff_ret : MRet (eff S E) := λ A a s, (s, Ok a).
#[export] Instance eff_bind : MBind (eff S E) := λ A B f m s,
  match m s with (s', Ok a) => f a s' | (s', Throw e) => (s', Throw e) end.
#[export] Instance eff_fmap : FMap (eff S E) := λ A B f m s,
  match m s with (s', Ok a) => (s', Ok (f a)) | (s', Throw e) => (s', Throw e) end.

Definition eget : eff S E S := λ s, (s, Ok s).
Definition egets {A} (f : S → A) : eff S E A := λ s, (s, Ok (f s)).
Definition emodify (f : S → S) : eff S E unit := λ s, (f s, Ok tt).
Definition elift {A} (r : result E A) : eff S E A := λ s, (s, r).
Definition ethrow {A} (e : E) : eff S E A := λ s, (s, Throw e).
(** [try { m } catch (error) { h(error) }] *)
Definition ecatch {A} (m : eff S E A) (h : E → eff S E A) : eff S E A := λ s,
  match m s with (s', Ok a) => (s', Ok a) | (s', Throw e) => h e s' end.
Definition ewhen (b : bool) (m : eff S E unit) : eff S E unit := if b then m else mret tt.
End eff.

(** *** Running the first step of a method *)

Section run.
Context {S E A : Type}.

Lemma run_get (k : S → eff S E A) s : (eget ≫= k) s = k s s.
Proof. done. Qed.
Lemma run_gets {B} (f : S → B) (k : B → eff S E A) s : (egets f ≫= k) s = k (f s) s.
Proof. done. Qed.
Lemma run_modify (f : S → S) (k : unit → eff S E A) s : (emodify f ≫= k) s = k tt (f s).
Proof. done. Qed.
Lemma run_lift {B} (r : result E B) (k : B → eff S E A) s :
  (elift r ≫= k) s = match r with Ok b => k b s | Throw e => (s, Throw e) end.
Proof. by destruct r. Qed.
Lemma run_bind {B} (m : eff S E B) (k : B → eff S E A) s :
  (m ≫= k) s = match m s with (s', Ok b) => k b s' | (s', Throw e) => (s', Throw e) end.
Proof. done. Qed.
End run.

(** [for (const x of xs) ...] with a body that acts on the state. *)
Fixpoint efor {S E A} (l : list A) (f : A → eff S E unit) : eff S E unit :=
  match l with
  | [] => mret tt
  | x :: l => f x ;; efor l f
  end.

(** ** Specifications *)

Definition hoare {S E A} (P : S → Prop) (m : eff S E A) (Q : A → S → Prop) (X : E → S → Prop) : Prop :=
  ∀ s, P s → match m s with (s', Ok a) => Q a s' | (s', Throw e) => X e s' end.

(** [m] keeps [P], whether it returns or throws. *)
Definition keeps {S E A} (P : S → Prop) (m : eff S E A) : Prop :=
  hoare P m (λ _, P) (λ _, P).

Section hoare.
Context {S E : Type}.
Implicit Types (P R : S → Prop).

Lemma hoare_ret {A} (a : A) (Q : A → S → Prop) (X : E → S → Prop) : hoare (Q a) (mret a) Q X.
Proof. intros s Hs. exact Hs. Qed.

Lemma hoare_bind {A B} P (m : eff S E A) (f : A → eff S E B) Q Q' X :
  hoare P m Q X → (∀ a, hoare (Q a) (f a) Q' X) → hoare P (m ≫= f) Q' X.
Proof.
  intros Hm Hf s Hs. specialize (Hm s Hs). unfold mbind, eff_bind.
  destruct (m s) as [s' [a|e]]; [by apply Hf|done].
Qed.

Lemma hoare_conseq {A} P P' (m : eff S E A) (Q Q' : A → S → Prop) (X X' : E → S → Prop) :
  hoare P m Q X → (∀ s, P' s → P s) → (∀ a s, Q a s → Q' a s) → (∀ e s, X e s → X' e s) →
  hoare P' m Q' X'.
Proof.
  intros Hm HP HQ HX s Hs. specialize (Hm s (HP _ Hs)).
  destruct (m s) as [s' [a|e]]; auto.
Qed.

Lemma hoare_gets {A} (f : S → A) (Q : A → S → Prop) (X : E → S → Prop) :
  hoare (λ s, Q (f s) s) (egets f) Q X.
Proof. intros s Hs. exact Hs. Qed.

Lemma hoare_modify (f : S → S) (Q : unit → S → Prop) (X : E → S → Prop) :
  hoare (λ s, Q tt (f s)) (emodify f) Q X.
Proof. intros s Hs. exact Hs. Qed.

Lemma hoare_throw {A} e (Q : A → S → Prop) (X : E → S → Prop) : hoare (X e) (ethrow e) Q X.
Proof. intros s Hs. exact Hs. Qed.

Lemma hoare_catch {A} P (m : eff S E A) h Q (X Y : E → S → Prop) :
  hoare P m Q Y → (∀ e, hoare (Y e) (h e) Q X) → hoare P (ecatch m h) Q X.
Proof.
  intros Hm Hh s Hs. specialize (Hm s Hs). unfold ecatch.
  destruct (m s) as [s' [a|e]]; [done|by apply Hh].
Qed.

Lemma hoare_any {A} P (m : eff S E A) : hoare P m (λ _ _, True) (λ _ _, True).
Proof. intros s _. by destruct (m s) as [s' [a|e]]. Qed.

Lemma keeps_ret {A} P (a : A) : keeps (E:=E) P (mret a).
Proof. intros s Hs. exact Hs. Qed.
Lemma keeps_gets {A} P (f : S → A) : keeps (E:=E) P (egets f).
Proof. intros s Hs. exact Hs. Qed.
Lemma keeps_throw {A} P (e : E) : keeps (A:=A) P (ethrow e).
Proof. intros s Hs. exact Hs. Qed.
Lemma keeps_modify P (f : S → S) : (∀ s, P s → P (f s)) → keeps (E:=E) P (emodify f).
Proof. intros Hf s Hs. by apply Hf. Qed.
Lemma keeps_bind {A B} P (m : eff S E A) (f : A → eff S E B) :
  keeps P m → (∀ a, keeps P (f a)) → keeps P (m ≫= f).
Proof. intros Hm Hf. eapply hoare_bind; [apply Hm|]. intros a. apply Hf. Qed.
Lemma keeps_fmap {A B} P (m : eff S E A) (f : A → B) : keeps P m → keeps P (f <$> m).
Proof. intros Hm s Hs. specialize (Hm s Hs). unfold fmap, eff_fmap. by destruct (m s) as [s' [a|e]]. Qed.
Lemma keeps_catch {A} P (m : eff S E A) h :
  keeps P m → (∀ e, keeps P (h e)) → keeps P (ecatch m h).
Proof. intros Hm Hh. eapply hoare_catch; [apply Hm|]. intros e. apply Hh. Qed.
Lemma keeps_when P b (m : eff S E unit) : keeps P m → keeps P (ewhen b m).
Proof. destruct b; [done|]. intros _. apply keeps_ret. Qed.
Lemma keeps_for {A} P (l : list A) (f : A → eff S E unit) :
  (∀ x, keeps P (f x)) → keeps P (efor l f).
Proof. intros Hf. induction l; cbn; [apply keeps_ret|]. by apply keeps_bind. Qed.
End hoare.

#[export] Hint Resolve keeps_ret keeps_gets keeps_throw keeps_modify keeps_bind keeps_fmap
  keeps_catch keeps_when keeps_for : amide.
