(* ===== verification/JsMap.v ===== *)
(** * JavaScript's [Map]: an insertion-ordered association list

    [Map.prototype.set] overwrites in place when the key is present and
    appends otherwise; [delete] removes the entry; iteration follows insertion
    order.  The session manager, the recovery journal, the schedule store and
    the spawn ledger all iterate their maps, so the order is part of the model.
    [keys_NoDup] is the representation invariant; two maps with the same
    lookups are related by [jm_equiv], for which the operations are [Proper]. *)

From S2P Require Import Prelude.
From Stdlib Require Import Setoid Morphisms.

Section jsmap.
  Context {K V : Type} `{!EqDecision K}.
  Implicit Types (m : list (K * V)) (k : K) (v : V).

Fixpoint jm_get m k : option V :=
    match m with
    | [] => None
    | (k', v) :: m => if decide (k = k') then Some v else jm_get m k
    end.

Fixpoint jm_set m k v : list (K * V) :=
    match m with
    | [] => [(k, v)]
    | (k', v') :: m =>
        if decide (k = k') then (k', v) :: m else (k', v') :: jm_set m k v
    end.

Definition jm_delete m k : list (K * V) := filter (λ kv, kv.1 ≠ k) m.

Definition jm_has m k : bool := bool_decide (is_Some (jm_get m k)).

Definition jm_keys m : list K := m.*1.
Definition jm_values m : list V := m.*2.

Definition keys_NoDup m : Prop := NoDup (jm_keys m).

Lemma jm_get_set_eq m k v : jm_get (jm_set m k v) k = Some v.
  Proof.
    induction m as [|[k' v'] m IH]; cbn; [by rewrite decide_True|].
    case_decide; cbn; [by rewrite decide_True|by rewrite decide_False].
  Qed.

Lemma jm_get_set_ne m k k' v : k ≠ k' → jm_get (jm_set m k v) k' = jm_get m k'.
  Proof.
    intros Hne. induction m as [|[k2 v2] m IH]; cbn; [by rewrite decide_False|].
    destruct (decide (k = k2)) as [<-|]; cbn; [by rewrite !decide_False by done|].
    case_decide; done.
  Qed.

Lemma jm_get_set m k k' v :
    jm_get (jm_set m k v) k' = if decide (k = k') then Some v else jm_get m k'.
  Proof. case_decide; subst; [apply jm_get_set_eq|by apply jm_get_set_ne]. Qed.

Lemma jm_get_elem m k v : jm_get m k = Some v → (k, v) ∈ m.
  Proof.
    induction m as [|[k' v'] m IH]; cbn; [done|].
    case_decide; [intros [= ->]; subst; left|intros ?; right; auto].
  Qed.

Lemma jm_get_None m k : jm_get m k = None ↔ k ∉ jm_keys m.
  Proof.
    induction m as [|[k' v'] m IH]; cbn; [split; [by intros _ ?%elem_of_nil|done]|].
    rewrite not_elem_of_cons. case_decide; naive_solver.
  Qed.

Lemma jm_get_is_Some m k : is_Some (jm_get m k) ↔ k ∈ jm_keys m.
  Proof.
    destruct (jm_get m k) as [v|] eqn:E.
    - split; [intros _|by eauto]. apply jm_get_elem in E.
      apply list_elem_of_fmap. by exists (k, v).
    - apply jm_get_None in E. split; [by intros [? [=]]|done].
  Qed.

Lemma jm_has_spec m k : jm_has m k = true ↔ k ∈ jm_keys m.
  Proof. unfold jm_has. rewrite bool_decide_eq_true. apply jm_get_is_Some. Qed.

Lemma elem_jm_get m k v : keys_NoDup m → (k, v) ∈ m → jm_get m k = Some v.
  Proof.
    unfold keys_NoDup. induction m as [|[k' v'] m IH]; cbn; [by intros _ ?%elem_of_nil|].
    rewrite NoDup_cons, elem_of_cons. intros [Hk' HND] [[= -> ->]|Hin].
    - by rewrite decide_True.
    - rewrite decide_False; [auto|]. intros ->. apply Hk', list_elem_of_fmap.
      by exists (k', v).
  Qed.

Lemma jm_set_new m k v : k ∉ jm_keys m → jm_set m k v = m ++ [(k, v)].
  Proof.
    induction m as [|[k' v'] m IH]; cbn; [done|].
    rewrite not_elem_of_cons. intros [? ?]. rewrite decide_False by done.
    by rewrite IH.
  Qed.

Lemma jm_keys_set_old m k v : k ∈ jm_keys m → jm_keys (jm_set m k v) = jm_keys m.
  Proof.
    induction m as [|[k' v'] m IH]; cbn; [by intros ?%elem_of_nil|].
    intros [->|Hin]%elem_of_cons; [by rewrite decide_True|].
    case_decide; cbn; [done|]. f_equal. by apply IH.
  Qed.

Lemma jm_keys_set m k v k' : k' ∈ jm_keys (jm_set m k v) ↔ k' = k ∨ k' ∈ jm_keys m.
  Proof.
    rewrite <-!jm_get_is_Some, jm_get_set. case_decide; subst; [by naive_solver|].
    split; [by right|]. intros [->|?]; done.
  Qed.

Lemma jm_set_NoDup m k v : keys_NoDup m → keys_NoDup (jm_set m k v).
  Proof.
    intros HND. destruct (decide (k ∈ jm_keys m)) as [Hin|Hin].
    - unfold keys_NoDup. by rewrite jm_keys_set_old.
    - unfold keys_NoDup in *. rewrite jm_set_new by done. unfold jm_keys.
      rewrite fmap_app, NoDup_app. split; [done|]. split; [|apply NoDup_singleton].
      intros x Hx Hx2. cbn in Hx2. apply list_elem_of_singleton in Hx2 as ->. done.
  Qed.

Lemma jm_set_set m k v v' : jm_set (jm_set m k v) k v' = jm_set m k v'.
  Proof.
    induction m as [|[k' v2] m IH]; cbn; [by rewrite decide_True|].
    case_decide; cbn; [by rewrite decide_True|rewrite decide_False by done; by rewrite IH].
  Qed.

Lemma jm_get_delete m k k' :
    jm_get (jm_delete m k) k' = if decide (k = k') then None else jm_get m k'.
  Proof.
    unfold jm_delete. induction m as [|[k2 v2] m IH]; [by cbn; case_decide|].
    rewrite filter_cons. destruct (decide ((k2, v2).1 ≠ k)) as [Hne|Heq%dec_stable]; cbn in *.
    - rewrite IH. repeat case_decide; congruence.
    - subst. rewrite IH. repeat case_decide; congruence.
  Qed.

Lemma jm_delete_NoDup m k : keys_NoDup m → keys_NoDup (jm_delete m k).
  Proof.
    unfold keys_NoDup, jm_keys, jm_delete. induction m as [|[k' v'] m IH]; [done|].
    rewrite fmap_cons, NoDup_cons, filter_cons. intros [Hk HND].
    case_decide; [|auto]. rewrite fmap_cons. apply NoDup_cons. split; [|auto].
    intros Hin. apply Hk. apply list_elem_of_fmap in Hin as ([k2 v2]&Heq&Hin2).
    apply list_elem_of_filter in Hin2 as [_ Hin2]. apply list_elem_of_fmap. eauto.
  Qed.

Lemma jm_delete_absent m k : k ∉ jm_keys m → jm_delete m k = m.
  Proof.
    unfold jm_delete, jm_keys. induction m as [|[k' v'] m IH]; [done|].
    rewrite fmap_cons, not_elem_of_cons. intros [? ?].
    rewrite filter_cons_True by (cbn in *; congruence). f_equal. by apply IH.
  Qed.

  (** Deleting the entry that [jm_set] just appended undoes it. *)
Lemma jm_delete_set_new m k v : k ∉ jm_keys m → jm_delete (jm_set m k v) k = m.
  Proof.
    intros Hk. rewrite jm_set_new by done. unfold jm_delete. rewrite filter_app.
    rewrite (filter_cons_False _ _ []) by (cbn; tauto). cbn. rewrite app_nil_r.
    by apply jm_delete_absent.
  Qed.

Lemma jm_values_elem m v : v ∈ jm_values m ↔ ∃ k, (k, v) ∈ m.
  Proof.
    unfold jm_values. rewrite list_elem_of_fmap. split.
    - intros ([k v']&->&?). eauto.
    - intros [k ?]. by exists (k, v).
  Qed.

  (** Extensional equivalence: same lookups, whatever the insertion order. *)
Definition jm_equiv m1 m2 : Prop := ∀ k, jm_get m1 k = jm_get m2 k.

#[export] Instance jm_equiv_equivalence : Equivalence jm_equiv.
  Proof.
    split; [intros m k; done|intros m1 m2 H k; by rewrite H|].
    intros m1 m2 m3 H1 H2 k. by rewrite H1.
  Qed.

#[export] Instance jm_get_proper : Proper (jm_equiv ==> eq ==> eq) jm_get.
  Proof. intros m1 m2 H k _ <-. apply H. Qed.

#[export] Instance jm_has_proper : Proper (jm_equiv ==> eq ==> eq) jm_has.
  Proof. intros m1 m2 H k _ <-. unfold jm_has. by rewrite (H k). Qed.

#[export] Instance jm_set_proper :
    Proper (jm_equiv ==> eq ==> eq ==> jm_equiv) jm_set.
  Proof. intros m1 m2 H k _ <- v _ <- k'. rewrite !jm_get_set. by rewrite (H k'). Qed.

#[export] Instance jm_delete_proper : Proper (jm_equiv ==> eq ==> jm_equiv) jm_delete.
  Proof. intros m1 m2 H k _ <- k'. rewrite !jm_get_delete. by rewrite (H k'). Qed.

Lemma jm_set_comm m k1 k2 v1 v2 :
    k1 ≠ k2 → jm_equiv (jm_set (jm_set m k1 v1) k2 v2) (jm_set (jm_set m k2 v2) k1 v1).
  Proof. intros ? k. rewrite !jm_get_set. repeat case_decide; congruence. Qed.

Lemma jm_delete_set m k v : jm_equiv (jm_delete (jm_set m k v) k) (jm_delete m k).
  Proof. intros k'. rewrite !jm_get_delete, jm_get_set. by case_decide. Qed.

  (** [new Map(entries)]: later entries win. *)
Definition jm_of_list (l : list (K * V)) : list (K * V) :=
    foldl (λ m kv, jm_set m kv.1 kv.2) [] l.

Lemma jm_foldl_set_NoDup {A} (f : A → K) (g : A → V) (l : list A) m :
    keys_NoDup m → keys_NoDup (foldl (λ m a, jm_set m (f a) (g a)) m l).
  Proof. revert m. induction l; cbn; auto using jm_set_NoDup. Qed.

Lemma jm_foldl_set_get {A} (f : A → K) (g : A → V) (l : list A) m k :
    jm_get (foldl (λ m a, jm_set m (f a) (g a)) m l) k =
    match last (filter (λ a, f a = k) l) with
    | Some a => Some (g a)
    | None => jm_get m k
    end.
  Proof.
    revert m. induction l as [|a l IH]; intros m; [done|]. cbn [foldl].
    rewrite IH, filter_cons. clear IH. case_decide as Hfa; [|].
    - rewrite (last_cons a). destruct (last (filter _ l)); [done|].
      rewrite Hfa. by rewrite jm_get_set_eq.
    - destruct (last (filter _ l)); [done|]. by rewrite jm_get_set_ne.
  Qed.

Lemma jm_foldl_set_fresh {A} (f : A → K) (g : A → V) (l : list A) m :
    NoDup (f <$> l) → (∀ a, a ∈ l → f a ∉ jm_keys m) →
    foldl (λ m a, jm_set m (f a) (g a)) m l = m ++ ((λ a, (f a, g a)) <$> l).
  Proof.
    revert m. induction l as [|a l IH]; intros m HND Hfresh; cbn; [by rewrite app_nil_r|].
    cbn in HND. apply NoDup_cons in HND as [Ha HND].
    rewrite IH; [|done|].
    - rewrite jm_set_new by (apply Hfresh; left). by rewrite <-app_assoc.
    - intros b Hb. rewrite jm_keys_set. intros [Heq|Hin].
      + apply Ha. rewrite <-Heq. by apply list_elem_of_fmap_2.
      + apply (Hfresh b); [by right|done].
  Qed.
End jsmap.

Arguments keys_NoDup {_ _} _.
#[export] Hint Resolve jm_set_NoDup jm_delete_NoDup : amide.
