(* ===== verification/JsString.v ===== *)
(** * JavaScript strings and UTF-8

    Strings are sequences of UTF-16 code units.  This file models the parts of
    the language the tools rely on: [String.prototype.split] on one code unit,
    [Array.prototype.join], [trim], [Buffer.from(s, "utf-8")],
    [Buffer.byteLength] and the WHATWG UTF-8 decoder behind
    [Buffer.toString("utf-8")].  A lone surrogate encodes as U+FFFD, as Node
    does.  The main facts are [utf8_decode_encode] (decoding what was encoded
    gives the string back, lone surrogates replaced) and [skip_cont_drop] (the
    continuation-byte scan of [truncateStringToBytesFromEnd] lands on a code
    point boundary). *)

From S2P Require Import Prelude.

(** ** split and join *)

Fixpoint js_split (sep : Z) (s : jsstr) : list jsstr :=
  match s with
  | [] => [[]]
  | c :: s =>
      if c =? sep then [] :: js_split sep s
      else match js_split sep s with
           | l :: ls => (c :: l) :: ls
           | [] => [[c]]
           end
  end.

Fixpoint js_join (sep : jsstr) (ls : list jsstr) : jsstr :=
  match ls with
  | [] => []
  | [l] => l
  | l :: ls => l ++ sep ++ js_join sep ls
  end.

Lemma js_split_nonempty sep s : js_split sep s ≠ [].
Proof. destruct s as [|c s]; cbn; [done|]. case_match; [done|]. by destruct (js_split sep s). Qed.

Lemma js_join_cons sep l ls :
  ls ≠ [] → js_join sep (l :: ls) = l ++ sep ++ js_join sep ls.
Proof. by destruct ls. Qed.

Lemma js_join_split sep s : js_join [sep] (js_split sep s) = s.
Proof.
  induction s as [|c s IH]; [done|]. cbn [js_split].
  pose proof (js_split_nonempty sep s). destruct (Z.eqb_spec c sep) as [->|].
  - rewrite js_join_cons by done. cbn. by rewrite IH.
  - destruct (js_split sep s) as [|l [|l' ls]]; [done|cbn in *; by rewrite <-IH|].
    rewrite js_join_cons in * by done. rewrite <-IH. done.
Qed.

Lemma js_split_no_sep sep s : Forall (λ l, sep ∉ l) (js_split sep s).
Proof.
  induction s as [|c s IH]; cbn [js_split]; [constructor; [apply not_elem_of_nil|constructor]|].
  destruct (Z.eqb_spec c sep) as [->|Hne]; [constructor; [apply not_elem_of_nil|done]|].
  destruct (js_split sep s) as [|l ls]; [by repeat constructor; rewrite list_elem_of_singleton; congruence|].
  inversion IH; subst. constructor; [rewrite not_elem_of_cons|]; auto.
Qed.

Lemma js_split_app_sep sep l s : sep ∉ l → js_split sep (l ++ sep :: s) = l :: js_split sep s.
Proof.
  induction l as [|c l IH]; cbn; [by rewrite Z.eqb_refl|].
  rewrite not_elem_of_cons. intros [Hc Hl]. rewrite IH by done.
  by destruct (Z.eqb_spec c sep); [congruence|].
Qed.

Lemma js_split_app_NL a b : js_split NL (a ++ NL :: b) = js_split NL a ++ js_split NL b.
Proof.
  rewrite <-(js_join_split NL a) at 1. pose proof (js_split_no_sep NL a) as Hno.
  pose proof (js_split_nonempty NL a) as Hne.
  induction (js_split NL a) as [|l ls IH]; [done|]. apply Forall_cons in Hno as [Hl Hno].
  destruct ls as [|l' ls]; [by apply js_split_app_sep|].
  rewrite js_join_cons by done. rewrite <-!app_assoc. cbn [app].
  rewrite js_split_app_sep by done. cbn [app]. f_equal. by apply IH.
Qed.

Lemma js_split_single sep l : sep ∉ l → js_split sep l = [l].
Proof.
  induction l as [|c l IH]; cbn; [done|]. rewrite not_elem_of_cons. intros [Hc Hl].
  rewrite IH by done. by destruct (Z.eqb_spec c sep); [congruence|].
Qed.

Lemma js_split_join sep ls :
  ls ≠ [] → Forall (λ l, sep ∉ l) ls → js_split sep (js_join [sep] ls) = ls.
Proof.
  induction ls as [|l ls IH]; [done|]. intros _ Hall.
  inversion Hall as [|?? Hl Hls]; subst. destruct ls as [|l' ls].
  - by apply js_split_single.
  - rewrite js_join_cons by done. cbn [app]. rewrite js_split_app_sep by done.
    by rewrite IH.
Qed.

Lemma js_join_snoc sep ls l :
  js_join sep (ls ++ [l]) = if decide (ls = []) then l else js_join sep ls ++ sep ++ l.
Proof.
  case_decide as Hls; [by subst|]. induction ls as [|x ls IH]; [done|].
  destruct ls as [|y ls]; [done|]. cbn [app].
  rewrite (js_join_cons sep x (y :: ls)), (js_join_cons sep x (y :: ls ++ [l])) by done.
  cbn [app] in IH. rewrite IH by done. by rewrite <-!app_assoc.
Qed.

Lemma js_join_app sep ls1 ls2 :
  ls1 ≠ [] → ls2 ≠ [] → js_join sep (ls1 ++ ls2) = js_join sep ls1 ++ sep ++ js_join sep ls2.
Proof.
  intros H1 H2. induction ls1 as [|x ls IH]; [done|].
  destruct ls as [|y ls]; [cbn [app]; by rewrite js_join_cons|].
  cbn [app]. rewrite (js_join_cons sep x (y :: ls)), (js_join_cons sep x (y :: ls ++ ls2)) by done.
  cbn [app] in IH. rewrite IH by done. by rewrite <-!app_assoc.
Qed.

(** ** trim *)

(** WhiteSpace and LineTerminator of ECMA-262. *)
Definition js_space (c : Z) : bool :=
  ((9 <=? c) && (c <=? 13)) || (c =? 32) || (c =? 0xA0) || (c =? 0x1680) ||
  ((0x2000 <=? c) && (c <=? 0x200A)) || (c =? 0x2028) || (c =? 0x2029) ||
  (c =? 0x202F) || (c =? 0x205F) || (c =? 0x3000) || (c =? 0xFEFF).

Fixpoint trim_start (s : jsstr) : jsstr :=
  match s with
  | c :: s' => if js_space c then trim_start s' else s
  | [] => []
  end.

Definition trim (s : jsstr) : jsstr := reverse (trim_start (reverse (trim_start s))).

Lemma trim_start_idem s : trim_start (trim_start s) = trim_start s.
Proof. induction s as [|c s IH]; cbn; [done|]. destruct (js_space c) eqn:E; cbn; [done|by rewrite E]. Qed.

Lemma trim_start_suffix s : ∃ p, s = p ++ trim_start s ∧ Forall (λ c, js_space c = true) p.
Proof.
  induction s as [|c s (p&Hp&Hall)]; cbn; [by exists []|].
  destruct (js_space c) eqn:E; [|by exists []].
  exists (c :: p). split; [cbn; congruence|by constructor].
Qed.

(** A string whose first and last code units are not white space is its own trim. *)
Lemma trim_start_id s : (∀ c, head s = Some c → js_space c = false) → trim_start s = s.
Proof. destruct s as [|c s]; cbn; [done|]. intros H. by rewrite H. Qed.

Lemma trim_id s :
  (∀ c, head s = Some c → js_space c = false) →
  (∀ c, last s = Some c → js_space c = false) → trim s = s.
Proof.
  intros H1 H2. unfold trim. rewrite (trim_start_id s) by done.
  rewrite trim_start_id; [by rewrite reverse_involutive|].
  intros c Hc. apply H2. by rewrite <-head_reverse.
Qed.

Lemma trim_idem s : trim (trim s) = trim s.
Proof.
  assert (∀ t c, head (trim_start t) = Some c → js_space c = false) as Hhd.
  { intros t c. induction t as [|d t IH]; cbn; [done|].
    destruct (js_space d) eqn:E; [auto|]. cbn. by intros [= <-]. }
  apply trim_id; unfold trim.
  - intros c. rewrite head_reverse. intros Hl.
    destruct (trim_start_suffix (reverse (trim_start s))) as (p&Hp&_).
    destruct (trim_start (reverse (trim_start s))) as [|d t] eqn:E; [done|].
    apply (Hhd s). rewrite <-(reverse_involutive (trim_start s)), head_reverse, Hp.
    by rewrite last_app_cons.
  - intros c. rewrite last_reverse. apply Hhd.
Qed.

(** ** Scans *)

Definition is_digit (c : Z) : bool := (48 <=? c) && (c <=? 57).
Definition digits_value (s : jsstr) : Z := foldl (λ n c, 10 * n + (c - 48)) 0 s.

(** [split(/\s+/)] *)
Fixpoint split_ws (after_space : bool) (s : jsstr) : list jsstr :=
  match s with
  | [] => [[]]
  | c :: s =>
      if js_space c then if after_space then split_ws true s else [] :: split_ws true s
      else match split_ws false s with l :: ls => (c :: l) :: ls | [] => [[c]] end
  end.

(** The code units before the first white space, and from it on. *)
Fixpoint span_nonspace (s : jsstr) : jsstr * jsstr :=
  match s with
  | c :: s' => if js_space c then ([], s) else let '(w, r) := span_nonspace s' in (c :: w, r)
  | [] => ([], [])
  end.

(** A comparison of [toLowerCase()] with a word of ASCII letters other than [k]
    has the same result on this. *)
Definition lower (c : Z) : Z := if (65 <=? c) && (c <=? 90) then c + 32 else c.

(** [s.startsWith(p)], and [s] after [p]. *)
Fixpoint strip_prefix (p s : jsstr) : option jsstr :=
  match p, s with
  | [], s => Some s
  | c :: p, d :: s => if c =? d then strip_prefix p s else None
  | _ :: _, [] => None
  end.
Definition strip_suffix (p s : jsstr) : option jsstr := reverse <$> strip_prefix (reverse p) (reverse s).

Lemma strip_prefix_Some p s r : strip_prefix p s = Some r ↔ s = p ++ r.
Proof.
  revert s. induction p as [|c p IH]; intros s; cbn [strip_prefix app].
  - split; [by intros [= ->]|by intros ->].
  - destruct s as [|d s]; [done|]. destruct (Z.eqb_spec c d) as [->|Hne].
    + rewrite IH. split; [by intros ->|by intros [= ->]].
    + split; [done|]. by intros [= <-].
Qed.

Lemma span_nonspace_spec s w r : span_nonspace s = (w, r) →
  s = w ++ r ∧ Forall (λ c, js_space c = false) w ∧ (∀ c, head r = Some c → js_space c = true).
Proof.
  revert w. induction s as [|c s IH]; intros w; cbn [span_nonspace]; [by intros [= <- <-]|].
  destruct (js_space c) eqn:E; [by intros [= <- <-]; split_and!; [..|intros ? [= <-]]|].
  destruct (span_nonspace s) as [w' r'] eqn:E'. intros [= <- <-]. destruct (IH w' eq_refl) as (->&?&?).
  split_and!; [done|by constructor|done].
Qed.

Lemma span_nonspace_app w r : Forall (λ c, js_space c = false) w → (∀ c, head r = Some c → js_space c = true) →
  span_nonspace (w ++ r) = (w, r).
Proof.
  intros Hw Hr. induction Hw as [|c w Hc Hw IH]; cbn [app span_nonspace].
  - destruct r as [|c r]; [done|]. cbn. by rewrite (Hr c).
  - by rewrite Hc, IH.
Qed.

(** ** UTF-8 *)

Definition is_high (c : Z) : bool := (0xD800 <=? c) && (c <=? 0xDBFF).
Definition is_low (c : Z) : bool := (0xDC00 <=? c) && (c <=? 0xDFFF).

Definition surrogate_pair (hi lo : Z) : Z := 0x10000 + (hi - 0xD800) * 0x400 + (lo - 0xDC00).

(** Code points of a string; a lone surrogate reads as U+FFFD. *)
Fixpoint code_points (s : jsstr) : list Z :=
  match s with
  | [] => []
  | c :: s' =>
      if is_high c then
        match s' with
        | d :: s'' =>
            if is_low d then surrogate_pair c d :: code_points s''
            else 0xFFFD :: code_points s'
        | [] => [0xFFFD]
        end
      else (if is_low c then 0xFFFD else c) :: code_points s'
  end.

Definition units_of_cp (c : Z) : jsstr :=
  if c <? 0x10000 then [c]
  else [0xD800 + (c - 0x10000) / 0x400; 0xDC00 + (c - 0x10000) mod 0x400].

Definition of_code_points (cps : list Z) : jsstr := cps ≫= units_of_cp.

Definition utf8_of_cp (c : Z) : list Z :=
  if c <? 0x80 then [c]
  else if c <? 0x800 then [0xC0 + c / 64; 0x80 + c mod 64]
  else if c <? 0x10000 then [0xE0 + c / 4096; 0x80 + (c / 64) mod 64; 0x80 + c mod 64]
  else [0xF0 + c / 262144; 0x80 + (c / 4096) mod 64; 0x80 + (c / 64) mod 64; 0x80 + c mod 64].

Definition utf8_of_cps (cps : list Z) : list Z := cps ≫= utf8_of_cp.

(** [Buffer.from(s, "utf-8")] and [Buffer.byteLength(s, "utf-8")]. *)
Definition utf8_encode (s : jsstr) : list Z := utf8_of_cps (code_points s).
Definition byteLength (s : jsstr) : Z := Z.of_nat (length (utf8_encode s)).

#[global] Arguments byteLength : simpl never.
#[global] Arguments utf8_encode : simpl never.

Definition is_unit (c : Z) : Prop := 0 <= c < 0x10000.
Definition is_scalar (c : Z) : Prop := 0 <= c < 0xD800 ∨ 0xE000 <= c < 0x110000.

(** The WHATWG UTF-8 decoder: the bytes still needed, the code point so far and
    the range the next continuation byte must lie in. *)
Record dec_state := DecState { d_needed : nat; d_cp : Z; d_lower : Z; d_upper : Z }.

Definition dec_init : dec_state := DecState 0 0 0x80 0xBF.

Definition dec_start (b : Z) : dec_state * list Z :=
  if b <=? 0x7F then (dec_init, [b])
  else if (0xC2 <=? b) && (b <=? 0xDF) then (DecState 1 (b - 0xC0) 0x80 0xBF, [])
  else if (0xE0 <=? b) && (b <=? 0xEF) then
    (DecState 2 (b - 0xE0) (if b =? 0xE0 then 0xA0 else 0x80) (if b =? 0xED then 0x9F else 0xBF), [])
  else if (0xF0 <=? b) && (b <=? 0xF4) then
    (DecState 3 (b - 0xF0) (if b =? 0xF0 then 0x90 else 0x80) (if b =? 0xF4 then 0x8F else 0xBF), [])
  else (dec_init, [0xFFFD]).

Definition dec_byte (d : dec_state) (b : Z) : dec_state * list Z :=
  match d_needed d with
  | O => dec_start b
  | S n =>
      if (d_lower d <=? b) && (b <=? d_upper d) then
        let cp := d_cp d * 64 + (b - 0x80) in
        match n with
        | O => (dec_init, [cp])
        | S _ => (DecState n cp 0x80 0xBF, [])
        end
      else let '(d', out) := dec_start b in (d', 0xFFFD :: out)
  end.

Fixpoint dec_bytes (d : dec_state) (bs : list Z) : dec_state * list Z :=
  match bs with
  | [] => (d, [])
  | b :: bs =>
      let '(d1, o1) := dec_byte d b in
      let '(d2, o2) := dec_bytes d1 bs in (d2, o1 ++ o2)
  end.

Definition dec_flush (d : dec_state) : list Z :=
  match d_needed d with O => [] | S _ => [0xFFFD] end.

(** [buf.toString("utf-8")]. *)
Definition utf8_decode (bs : list Z) : jsstr :=
  let '(d, out) := dec_bytes dec_init bs in of_code_points (out ++ dec_flush d).

Lemma dec_bytes_app d bs1 bs2 :
  dec_bytes d (bs1 ++ bs2) =
  let '(d1, o1) := dec_bytes d bs1 in
  let '(d2, o2) := dec_bytes d1 bs2 in (d2, o1 ++ o2).
Proof.
  revert d. induction bs1 as [|b bs1 IH]; intros d; cbn [dec_bytes app].
  - by destruct (dec_bytes d bs2).
  - destruct (dec_byte d b) as [d1 o1]. rewrite IH.
    destruct (dec_bytes d1 bs1) as [d2 o2]. destruct (dec_bytes d2 bs2).
    by rewrite app_assoc.
Qed.

(** Decide the comparisons of a goal by [lia]. *)
Ltac zcmp :=
  repeat match goal with
  | |- context [?a <? ?b] =>
      first [rewrite (proj2 (Z.ltb_lt a b)) by lia | rewrite (proj2 (Z.ltb_ge a b)) by lia]
  | |- context [?a <=? ?b] =>
      first [rewrite (proj2 (Z.leb_le a b)) by lia | rewrite (proj2 (Z.leb_gt a b)) by lia]
  | |- context [?a =? ?b] =>
      first [rewrite (proj2 (Z.eqb_eq a b)) by lia | rewrite (proj2 (Z.eqb_neq a b)) by lia]
  end; cbn [andb orb negb].

Lemma dec_start_1 b : 0 <= b < 0x80 → dec_start b = (dec_init, [b]).
Proof. intros. unfold dec_start. by zcmp. Qed.

Lemma dec_bytes_cp c : is_scalar c → dec_bytes dec_init (utf8_of_cp c) = (dec_init, [c]).
Proof.
  intros Hc. unfold utf8_of_cp.
  destruct (Z.ltb_spec c 0x80) as [H1|H1].
  { unfold dec_bytes, dec_byte; cbn [d_needed dec_init]. rewrite dec_start_1; [done|].
    destruct Hc; lia. }
  destruct (Z.ltb_spec c 0x800) as [H2|H2].
  { cbn [dec_bytes dec_byte d_needed dec_init]. unfold dec_start.
    pose proof (Z.div_mod c 64). pose proof (Z.mod_pos_bound c 64).
    assert (2 <= c / 64 < 32) by lia. zcmp.
    unfold dec_byte. cbn [d_needed d_lower d_upper d_cp]. zcmp. cbn. do 3 f_equal; lia. }
  destruct (Z.ltb_spec c 0x10000) as [H3|H3].
  { pose proof (Z.div_mod c 4096). pose proof (Z.mod_pos_bound c 4096).
    pose proof (Z.div_mod c 64). pose proof (Z.mod_pos_bound c 64).
    pose proof (Z.div_mod (c / 64) 64). pose proof (Z.mod_pos_bound (c / 64) 64).
    pose proof (Z.div_div c 64 64) as Hdd. rewrite Hdd in * by lia. change (64*64) with 4096 in *.
    set (x := c / 4096) in *. set (y := (c / 64) mod 64) in *. set (z := c mod 64) in *.
    assert (c = x * 4096 + y * 64 + z) as Hxyz by lia.
    assert (0 <= x < 16 ∧ 0 <= y < 64 ∧ 0 <= z < 64) as (?&?&?) by lia.
    clearbody x y z. unfold dec_bytes at 1, dec_byte; cbn [d_needed dec_init].
    unfold dec_start at 1. zcmp. cbn [d_needed d_lower d_upper d_cp].
    assert (((if 0xE0 + x =? 0xE0 then 0xA0 else 0x80) <=? 0x80 + y) &&
            (0x80 + y <=? (if 0xE0 + x =? 0xED then 0x9F else 0xBF)) = true) as ->.
    { apply andb_true_iff; rewrite !Z.leb_le.
      destruct (Z.eqb_spec (0xE0 + x) 0xE0), (Z.eqb_spec (0xE0 + x) 0xED); destruct Hc; lia. }
    cbn [dec_byte dec_bytes d_needed d_lower d_upper d_cp]. zcmp. cbn. do 3 f_equal. lia. }
  assert (c < 0x110000) by (destruct Hc; lia).
  pose proof (Z.div_mod c 262144). pose proof (Z.mod_pos_bound c 262144).
  pose proof (Z.div_mod c 64). pose proof (Z.mod_pos_bound c 64).
  pose proof (Z.div_mod (c / 64) 64). pose proof (Z.mod_pos_bound (c / 64) 64).
  pose proof (Z.div_mod (c / 4096) 64). pose proof (Z.mod_pos_bound (c / 4096) 64).
  pose proof (Z.div_div c 64 64) as Hdd. rewrite Hdd in * by lia. change (64*64) with 4096 in *.
  pose proof (Z.div_div c 4096 64) as Hd2. rewrite Hd2 in * by lia. change (4096*64) with 262144 in *.
  set (w := c / 262144) in *. set (x := (c / 4096) mod 64) in *.
  set (y := (c / 64) mod 64) in *. set (z := c mod 64) in *.
  assert (c = w * 262144 + x * 4096 + y * 64 + z) as Hxyz by lia.
  assert (0 <= w < 5 ∧ 0 <= x < 64 ∧ 0 <= y < 64 ∧ 0 <= z < 64) as (?&?&?&?) by lia.
  clearbody w x y z. unfold dec_bytes at 1, dec_byte; cbn [d_needed dec_init].
  unfold dec_start at 1. zcmp. cbn [d_needed d_lower d_upper d_cp].
  assert (((if 0xF0 + w =? 0xF0 then 0x90 else 0x80) <=? 0x80 + x) &&
          (0x80 + x <=? (if 0xF0 + w =? 0xF4 then 0x8F else 0xBF)) = true) as ->.
  { apply andb_true_iff; rewrite !Z.leb_le.
    destruct (Z.eqb_spec (0xF0 + w) 0xF0), (Z.eqb_spec (0xF0 + w) 0xF4); lia. }
  cbn [dec_byte dec_bytes d_needed d_lower d_upper d_cp]. zcmp.
  cbn [dec_byte dec_bytes d_needed d_lower d_upper d_cp]. zcmp. cbn. do 3 f_equal. lia.
Qed.

Lemma dec_bytes_cps cps :
  Forall is_scalar cps → dec_bytes dec_init (utf8_of_cps cps) = (dec_init, cps).
Proof.
  induction 1 as [|c cps Hc Hcps IH]; [done|]. unfold utf8_of_cps in *. cbn [mbind list_bind].
  rewrite dec_bytes_app, dec_bytes_cp by done. by rewrite IH.
Qed.

Lemma utf8_decode_cps cps :
  Forall is_scalar cps → utf8_decode (utf8_of_cps cps) = of_code_points cps.
Proof.
  intros H. unfold utf8_decode. rewrite dec_bytes_cps by done. cbn. by rewrite app_nil_r.
Qed.

Lemma code_points_scalar s : Forall is_unit s → Forall is_scalar (code_points s).
Proof.
  intros Hs. remember (length s) as n eqn:Hn. revert s Hs Hn.
  induction (lt_wf n) as [n _ IH]. intros s Hs ->.
  destruct s as [|c s']; cbn [code_points]; [done|].
  apply Forall_cons in Hs as [Hc Hs']. unfold is_unit in *.
  assert (is_scalar 0xFFFD) by (unfold is_scalar; lia).
  assert (Forall is_scalar (code_points s')) by (eapply (IH (length s')); cbn; [lia|done|done]).
  destruct (is_high c) eqn:Hh.
  - destruct s' as [|d s'']; [by repeat constructor|].
    destruct (is_low d) eqn:Hl; [|by constructor]. apply Forall_cons in Hs' as [Hd Hs''].
    constructor; [|eapply (IH (length s'')); cbn; [lia|done|done]].
    unfold is_high, is_low in *. apply andb_true_iff in Hh, Hl. rewrite !Z.leb_le in *.
    unfold is_scalar, surrogate_pair. lia.
  - constructor; [|done]. destruct (is_low c) eqn:Hl; [done|].
    unfold is_high, is_low, is_scalar in *. apply andb_false_iff in Hh, Hl.
    rewrite !Z.leb_gt in *. lia.
Qed.

(** What Node does to a string on its way through UTF-8: lone surrogates
    become U+FFFD ([String.prototype.toWellFormed]). *)
Definition well_formed (s : jsstr) : jsstr := of_code_points (code_points s).

Lemma utf8_decode_encode s : Forall is_unit s → utf8_decode (utf8_encode s) = well_formed s.
Proof. intros. by apply utf8_decode_cps, code_points_scalar. Qed.

(** Strings without surrogates are unchanged. *)
Definition no_surrogate (c : Z) : bool := negb (is_high c) && negb (is_low c).

Lemma code_points_plain s : Forall (λ c, no_surrogate c = true) s → code_points s = s.
Proof.
  induction 1 as [|c s Hc Hs IH]; [done|]. cbn. unfold no_surrogate in Hc.
  apply andb_true_iff in Hc as [->%negb_true_iff ->%negb_true_iff]. by rewrite IH.
Qed.

Lemma code_points_app_plain a c b :
  no_surrogate c = true → code_points (a ++ c :: b) = code_points a ++ c :: code_points b.
Proof.
  intros Hc. unfold no_surrogate in Hc. apply andb_true_iff in Hc as [Hh%negb_true_iff Hl%negb_true_iff].
  remember (length a) as n eqn:Hn. revert a Hn. induction (lt_wf n) as [n _ IH].
  intros [|x a] ->; cbn [app code_points]; [by rewrite Hh, Hl|].
  destruct (is_high x); [|by rewrite (IH (length a)) by (cbn; lia)].
  destruct a as [|y a]; cbn [app]; [cbn; by rewrite Hl, Hh|].
  destruct (is_low y).
  - by rewrite (IH (length a)) by (cbn; lia).
  - change (y :: a ++ c :: b) with ((y :: a) ++ c :: b).
    by rewrite (IH (length (y :: a))) by (cbn; lia).
Qed.

Lemma utf8_of_cps_app a b : utf8_of_cps (a ++ b) = utf8_of_cps a ++ utf8_of_cps b.
Proof. apply bind_app. Qed.

Lemma utf8_encode_app_NL a b : utf8_encode (a ++ NL :: b) = utf8_encode a ++ NL :: utf8_encode b.
Proof.
  unfold utf8_encode. rewrite code_points_app_plain by done.
  by rewrite utf8_of_cps_app.
Qed.

Lemma byteLength_nonneg s : 0 <= byteLength s.
Proof. unfold byteLength. lia. Qed.

Lemma byteLength_nil : byteLength [] = 0.
Proof. done. Qed.

Lemma byteLength_app_NL a b : byteLength (a ++ NL :: b) = byteLength a + 1 + byteLength b.
Proof. unfold byteLength. rewrite utf8_encode_app_NL, length_app. cbn. lia. Qed.

Lemma byteLength_join_snoc ls l :
  byteLength (js_join [NL] (ls ++ [l])) =
  byteLength (js_join [NL] ls) + (if decide (ls = []) then 0 else 1) + byteLength l.
Proof.
  rewrite js_join_snoc. case_decide; [subst; cbn [js_join]; rewrite byteLength_nil; lia|].
  cbn [app]. by rewrite byteLength_app_NL.
Qed.

Lemma byteLength_join_cons l ls :
  byteLength (js_join [NL] (l :: ls)) =
  byteLength l + (if decide (ls = []) then 0 else 1) + byteLength (js_join [NL] ls).
Proof.
  case_decide; [subst; cbn [js_join]; rewrite byteLength_nil; lia|].
  rewrite js_join_cons by done. cbn [app]. by rewrite byteLength_app_NL.
Qed.

(** *** Code point boundaries in the byte sequence *)

(** [(b & 0xc0) === 0x80]. *)
Definition is_cont (b : Z) : bool := Z.land b 0xC0 =? 0x80.

Lemma land_C0 b : 0 <= b → Z.land b 0xC0 = 64 * ((b / 64) mod 4).
Proof.
  intros Hb. change 0xC0 with (Z.shiftl (Z.ones 2) 6).
  rewrite Z.mul_comm. change 64 with (2 ^ 6). change 4 with (2 ^ 2).
  rewrite <-Z.shiftr_div_pow2 by lia. rewrite <-Z.land_ones, <-Z.shiftl_mul_pow2 by lia.
  apply Z.bits_inj'. intros n Hn. rewrite Z.land_spec.
  destruct (Z.ltb_spec n 6) as [H|H].
  - rewrite !Z.shiftl_spec_low by lia. by rewrite andb_false_r.
  - rewrite !Z.shiftl_spec, Z.land_spec, Z.shiftr_spec by lia. do 2 f_equal. lia.
Qed.

Lemma is_cont_spec b : 0 <= b < 256 → is_cont b = (128 <=? b) && (b <? 192).
Proof.
  intros Hb. unfold is_cont. rewrite land_C0 by lia.
  assert (0 <= b / 64 < 4) as Hq by (split; [apply Z.div_pos; lia|apply Z.div_lt_upper_bound; lia]).
  rewrite (Z.mod_small (b / 64) 4) by lia. pose proof (Z.div_mod b 64). pose proof (Z.mod_pos_bound b 64).
  destruct (Z.leb_spec 128 b), (Z.ltb_spec b 192); cbn [andb];
    first [apply Z.eqb_eq; lia|apply Z.eqb_neq; lia].
Qed.

(** A code point is one non-continuation byte followed by continuation bytes. *)
Lemma utf8_of_cp_shape c : is_scalar c →
  ∃ b bs, utf8_of_cp c = b :: bs ∧ is_cont b = false ∧ Forall (λ b, is_cont b = true) bs ∧ (length bs <= 3)%nat.
Proof.
  intros Hc. assert (0 <= c < 0x110000) by (destruct Hc; lia). unfold utf8_of_cp.
  assert (∀ x, is_cont (0x80 + x mod 64) = true) as Hcont.
  { intros x. pose proof (Z.mod_pos_bound x 64). rewrite is_cont_spec by lia. by zcmp. }
  repeat case_match; rewrite ?Z.ltb_lt, ?Z.ltb_ge in *; eexists _, _; (split; [reflexivity|]);
    (split; [|by split; [repeat constructor; apply Hcont|cbn; lia]]).
  - rewrite is_cont_spec by lia. by zcmp.
  - assert (2 <= c / 64 < 32) by (split; [apply Z.div_le_lower_bound|apply Z.div_lt_upper_bound]; lia).
    rewrite is_cont_spec by lia. by zcmp.
  - assert (0 <= c / 4096 < 16) by (split; [apply Z.div_pos|apply Z.div_lt_upper_bound]; lia).
    rewrite is_cont_spec by lia. by zcmp.
  - assert (0 <= c / 262144 < 5) by (split; [apply Z.div_pos|apply Z.div_lt_upper_bound]; lia).
    rewrite is_cont_spec by lia. by zcmp.
Qed.

(** [while (start < buf.length && (buf[start] & 0xc0) === 0x80) start++], on
    the bytes that remain. *)
Fixpoint skip_cont (bs : list Z) : list Z :=
  match bs with
  | b :: bs' => if is_cont b then skip_cont bs' else bs
  | [] => []
  end.

Lemma skip_cont_all bs rest : Forall (λ b, is_cont b = true) bs → skip_cont (bs ++ rest) = skip_cont rest.
Proof. induction 1 as [|b bs Hb Hbs IH]; cbn; [done|]. by rewrite Hb. Qed.

Lemma skip_cont_cps cps : Forall is_scalar cps → skip_cont (utf8_of_cps cps) = utf8_of_cps cps.
Proof.
  destruct 1 as [|c cps Hc Hcps]; [done|].
  destruct (utf8_of_cp_shape c Hc) as (b&bs&Heq&Hb&_). unfold utf8_of_cps. cbn [mbind list_bind].
  rewrite Heq. cbn. by rewrite Hb.
Qed.

Lemma skip_cont_length bs : (length (skip_cont bs) <= length bs)%nat.
Proof. induction bs as [|b bs IH]; cbn; [done|]. case_match; cbn; lia. Qed.

(** Dropping [n] bytes and scanning forward leaves the encoding of a suffix of
    the code points, at most three bytes shorter. *)
Lemma skip_cont_drop n cps : Forall is_scalar cps →
  ∃ k, skip_cont (drop n (utf8_of_cps cps)) = utf8_of_cps (drop k cps) ∧
       (length (drop n (utf8_of_cps cps)) <= length (utf8_of_cps (drop k cps)) + 3)%nat.
Proof.
  intros Hcps. revert n. induction Hcps as [|c cps Hc Hcps IH]; intros n.
  { exists O. change (utf8_of_cps (drop 0 [])) with (@nil Z).
    change (utf8_of_cps []) with (@nil Z). rewrite drop_nil. cbn. split; [done|lia]. }
  destruct n as [|n].
  { exists O. rewrite !drop_0, skip_cont_cps by (by constructor). split; [done|lia]. }
  destruct (utf8_of_cp_shape c Hc) as (b&bs&Heq&Hb&Hbs&Hlen).
  change (utf8_of_cps (c :: cps)) with (utf8_of_cp c ++ utf8_of_cps cps). rewrite Heq. cbn [app drop].
  destruct (decide (n <= length bs)%nat) as [Hn|Hn].
  - exists 1%nat. rewrite drop_app_le by done. cbn [drop]. rewrite ?drop_0.
    rewrite skip_cont_all by (apply Forall_drop; done). rewrite skip_cont_cps by done.
    split; [done|]. rewrite length_app, length_drop. lia.
  - rewrite drop_app_ge by lia. destruct (IH (n - length bs)%nat) as (k&Hk&Hl).
    exists (S k). by cbn [drop].
Qed.

(** Reading back the code points of what [of_code_points] wrote. *)
Lemma code_points_of_code_points cps :
  Forall is_scalar cps → code_points (of_code_points cps) = cps.
Proof.
  induction 1 as [|c cps Hc Hcps IH]; [done|]. unfold of_code_points in *. cbn [mbind list_bind].
  unfold units_of_cp at 1. destruct (Z.ltb_spec c 0x10000) as [H|H]; cbn [app code_points].
  - unfold is_high, is_low. unfold is_scalar in Hc.
    destruct (Z.ltb_spec c 0xD800); zcmp; by rewrite IH.
  - assert (c < 0x110000) by (destruct Hc; lia).
    pose proof (Z.div_mod (c - 0x10000) 0x400). pose proof (Z.mod_pos_bound (c - 0x10000) 0x400).
    assert (0 <= (c - 0x10000) / 0x400 < 0x400)
      by (split; [apply Z.div_pos|apply Z.div_lt_upper_bound]; lia).
    unfold is_high, is_low. zcmp. f_equal; [unfold surrogate_pair; lia|done].
Qed.

Lemma byteLength_of_code_points cps :
  Forall is_scalar cps → byteLength (of_code_points cps) = Z.of_nat (length (utf8_of_cps cps)).
Proof. intros. unfold byteLength, utf8_encode. by rewrite code_points_of_code_points. Qed.

Lemma js_split_Forall (P : Z → Prop) sep s :
  Forall P s → Forall (Forall P) (js_split sep s).
Proof.
  induction 1 as [|c s Hc Hs IH]; cbn; [by repeat constructor|].
  destruct (c =? sep); [by constructor|].
  destruct (js_split sep s) as [|l ls]; [by repeat constructor|].
  inversion IH; subst. by repeat constructor.
Qed.

(** Boolean form of [Forall is_unit], for closed strings. *)
Definition unitsb (s : jsstr) : bool := forallb (λ c, (0 <=? c) && (c <? 0x10000)) s.

Lemma unitsb_spec s : unitsb s = true → Forall is_unit s.
Proof.
  unfold unitsb. rewrite forallb_Forall. intros H. eapply Forall_impl; [exact H|].
  intros c. cbn beta. rewrite andb_true_iff, Z.leb_le, Z.ltb_lt. done.
Qed.

Definition units (s : jsstr) : Prop := Forall is_unit s.

Lemma js_units (s : string) : unitsb (js s) = true → units (js s).
Proof. apply unitsb_spec. Qed.

(** ** Order *)

(** [a <= b] in the order of [Array.prototype.sort]: by code units. *)
Fixpoint js_leb (a b : jsstr) : bool :=
  match a, b with
  | [], _ => true
  | _ :: _, [] => false
  | x :: a, y :: b => (x <? y) || ((x =? y) && js_leb a b)
  end.
Definition js_le (a b : jsstr) : Prop := js_leb a b = true.
#[export] Instance js_le_dec : RelDecision js_le := λ a b, decide (js_leb a b = true).
