(* ===== verification/JsSearch.v ===== *)
(** * Searching in strings

    Prefixes, suffixes and the first occurrence of a text, as the string methods
    of the language find them, with the lemmas that place an occurrence in a
    text that grows at its end. *)

From S2P Require Import Prelude.
From S2P Require Import JsString.

Fixpoint is_prefix (p s : jsstr) : bool :=
  match p, s with
  | [], _ => true
  | c :: p, d :: s => (c =? d) && is_prefix p s
  | _ :: _, [] => false
  end.

(** [s.indexOf(p)]; [None] is [-1]. *)
Fixpoint index_of (p s : jsstr) : option nat :=
  if is_prefix p s then Some 0%nat else
  match s with
  | [] => None
  | _ :: s => S <$> index_of p s
  end.

(** [s.endsWith(p)] *)
Definition ends_with (p s : jsstr) : bool := is_prefix (reverse p) (reverse s).

Lemma is_prefix_spec p s : is_prefix p s = true ↔ ∃ t, s = p ++ t.
Proof.
  revert s. induction p as [|c p IH]; intros s; cbn; [by split; [exists s|]|].
  destruct s as [|d s]; [by split; [|intros [? ?]]|].
  rewrite andb_true_iff, Z.eqb_eq, IH. split; [intros [-> [t ->]]; by exists t|].
  intros [t [= -> ->]]. split; [done|by exists t].
Qed.

Lemma index_of_Some p s i : index_of p s = Some i → ∃ a b, s = a ++ p ++ b ∧ length a = i.
Proof.
  revert i. induction s as [|c s IH]; intros i; cbn.
  - destruct p; cbn; [|done]. intros [= <-]. by exists [], [].
  - destruct (is_prefix p (c :: s)) eqn:E.
    + intros [= <-]. apply is_prefix_spec in E as [t ->]. by exists [], t.
    + destruct (index_of p s) as [j|]; [|done]. intros [= <-].
      destruct (IH j eq_refl) as (a&b&->&<-). by exists (c :: a), b.
Qed.

Lemma index_of_prefix p s : is_prefix p s = true → index_of p s = Some 0%nat.
Proof. destruct s; cbn; by intros ->. Qed.

Lemma index_of_occurs p a b : is_Some (index_of p (a ++ p ++ b)).
Proof.
  induction a as [|c a IH]; cbn [app].
  - rewrite index_of_prefix; [done|]. apply is_prefix_spec. by exists b.
  - cbn [index_of]. case_match; [done|]. destruct IH as [i ->]. done.
Qed.

(** [includes p s]: [p] occurs in [s]. *)
Definition occurs (p s : jsstr) : Prop := ∃ a b, s = a ++ p ++ b.

Lemma index_of_is_Some p s : is_Some (index_of p s) ↔ occurs p s.
Proof.
  split; [intros [i (a&b&->&_)%index_of_Some]; by exists a, b|].
  intros (a&b&->). apply index_of_occurs.
Qed.

#[export] Instance occurs_dec p s : Decision (occurs p s).
Proof.
  destruct (index_of p s) as [i|] eqn:E; [left|right].
  - apply index_of_is_Some. by rewrite E.
  - rewrite <-index_of_is_Some, E. by intros [].
Defined.

(** ** The first occurrence *)

Lemma index_of_least p s i a b : index_of p s = Some i → s = a ++ p ++ b → (i <= length a)%nat.
Proof.
  revert i a. induction s as [|c s IH]; intros i a; cbn.
  - destruct a, p; try done. cbn. by intros [= <-].
  - destruct (is_prefix p (c :: s)) eqn:E; [intros [= <-]; lia|].
    destruct (index_of p s) as [j|] eqn:Ej; [|done]. intros [= <-] Hs. destruct a as [|d a].
    + cbn in Hs. assert (is_prefix p (c :: s) = true); [apply is_prefix_spec; by exists b|congruence].
    + injection Hs as -> ->. specialize (IH j a eq_refl eq_refl). cbn. lia.
Qed.

Lemma index_of_app p s t i : index_of p s = Some i → index_of p (s ++ t) = Some i.
Proof.
  intros Hi. pose proof (index_of_Some _ _ _ Hi) as (a&b&Hs&Hl).
  destruct (index_of_occurs p a (b ++ t)) as [j Hj].
  assert (s ++ t = a ++ p ++ b ++ t) as Ht by (by rewrite Hs, <-!(assoc_L _)).
  rewrite <-Ht in Hj. rewrite Hj. f_equal. pose proof (index_of_least _ _ _ _ _ Hj Ht).
  destruct (index_of_Some _ _ _ Hj) as (a'&b'&Hs'&<-). rewrite (assoc_L _) in Hs'.
  assert (length (a' ++ p) <= length s)%nat by (rewrite Hs, !length_app; lia).
  assert (∃ u, s = a' ++ p ++ u) as [u Hu].
  { apply app_eq_inv in Hs' as [(k&->&_)|(k&Hk&_)]; [exists k; by rewrite (assoc_L _)|].
    rewrite Hk, length_app in *. exists []. destruct k; [|cbn in *; lia]. by rewrite !app_nil_r in *. }
  pose proof (index_of_least _ _ _ _ _ Hi Hu). lia.
Qed.

Lemma index_of_None p s : index_of p s = None ↔ ¬ occurs p s.
Proof. rewrite <-index_of_is_Some. destruct (index_of p s); split; try done. by intros []; eauto. Qed.

Lemma occurs_app_l p s t : occurs p s → occurs p (s ++ t).
Proof. intros (a&b&->). exists a, (b ++ t). by rewrite <-!(assoc_L _). Qed.

Lemma occurs_app_r p s t : occurs p t → occurs p (s ++ t).
Proof. intros (a&b&->). exists (s ++ a), b. by rewrite <-!(assoc_L _). Qed.

Lemma index_of_skip p a s i : (length a <= i)%nat → index_of p (a ++ s) = Some i → index_of p s = Some (i - length a)%nat.
Proof.
  revert i. induction a as [|c a IH]; intros i; cbn; [by rewrite Nat.sub_0_r|].
  intros Hi. case_match; [intros [= <-]; lia|]. destruct (index_of p (a ++ s)) as [j|]; [|done].
  intros [= <-]. rewrite (IH j); [|lia|done]. f_equal.
Qed.

Lemma index_of_cut p s i : index_of p s = Some i → s = take i s ++ p ++ drop (i + length p) s.
Proof.
  intros (a&b&->&<-)%index_of_Some. rewrite take_app_length. f_equal.
  rewrite <-drop_drop, drop_app_length. by rewrite drop_app_length.
Qed.

(** A text whose first character is found nowhere else in it overlaps no other
    occurrence of itself. *)
Lemma index_of_first c q a b : c ∉ q → ¬ occurs (c :: q) a → index_of (c :: q) (a ++ (c :: q) ++ b) = Some (length a).
Proof.
  intros Hc Ha. induction a as [|d a IH].
  - apply index_of_prefix, is_prefix_spec. by exists b.
  - cbn [app index_of]. destruct (is_prefix (c :: q) (d :: a ++ (c :: q) ++ b)) eqn:E.
    + exfalso. apply is_prefix_spec in E as [t [= -> Ht]].
      apply app_eq_inv in Ht as [(k&->&_)|(k&->&Hk)]; [apply Ha; by exists [], k|].
      destruct k as [|x k]; [apply Ha; exists [], []; cbn; by rewrite !app_nil_r|]. injection Hk as <- _. set_solver.
    + change (c :: q ++ b) with ((c :: q) ++ b). rewrite IH, E; [done|]. intros Ho. apply Ha, (occurs_app_r _ [d]), Ho.
Qed.
