(* ===== verification/Truncate.v ===== *)
(** * Tool output truncation

    Models [packages/coding-agent/src/core/tools/truncate.ts]: head and tail
    truncation under independent line and byte limits, the UTF-8 safe cut of a
    single over-long line, [truncateLine] and [formatSize].  The theorems bound
    the output, say which lines it keeps, and that it keeps as many as fit. *)

From S2P Require Import Prelude JsString.

Definition DEFAULT_MAX_LINES : Z := 2000.
Definition DEFAULT_MAX_BYTES : Z := 50 * 1024.
Definition GREP_MAX_LINE_LENGTH : Z := 500.

Inductive limit := ByLines | ByBytes.
#[export] Instance limit_eq_dec : EqDecision limit.
Proof. solve_decision. Defined.

Record TruncationResult := MkTruncationResult {
  tr_content : jsstr;
  tr_truncated : bool;
  tr_truncatedBy : option limit;
  tr_totalLines : Z;
  tr_totalBytes : Z;
  tr_outputLines : Z;
  tr_outputBytes : Z;
  tr_lastLinePartial : bool;
  tr_firstLineExceedsLimit : bool;
  tr_maxLines : Z;
  tr_maxBytes : Z
}.

Record TruncationOptions := MkTruncationOptions {
  opt_maxLines : option Z;
  opt_maxBytes : option Z
}.

Definition opt_lines (o : TruncationOptions) : Z := default DEFAULT_MAX_LINES (opt_maxLines o).
Definition opt_bytes (o : TruncationOptions) : Z := default DEFAULT_MAX_BYTES (opt_maxBytes o).

(** [(x / 2^k).toFixed(1)]: the quotient is exact, ties round up. *)
Definition toFixed1 (num den : Z) : jsstr :=
  let n := (20 * num + den) / (2 * den) in
  js_of_Z (n / 10) ++ js "." ++ js_of_Z (n mod 10).

Definition formatSize (bytes : Z) : jsstr :=
  if bytes <? 1024 then js_of_Z bytes ++ js "B"
  else if bytes <? 1024 * 1024 then toFixed1 bytes 1024 ++ js "KB"
  else toFixed1 bytes (1024 * 1024) ++ js "MB".

(** The result both functions return when nothing has to be cut. *)
Definition untruncated (content : jsstr) (totalLines totalBytes maxLines maxBytes : Z) :=
  MkTruncationResult content false None totalLines totalBytes totalLines totalBytes
    false false maxLines maxBytes.

(** The [for] loop of [truncateHead]: [i] is the loop index. *)
Fixpoint head_loop (maxLines maxBytes : Z) (lines : list jsstr) (i : Z)
    (out : list jsstr) (bytes : Z) : list jsstr * Z * limit :=
  match lines with
  | [] => (out, bytes, ByLines)
  | line :: lines =>
      if i <? maxLines then
        let lineBytes := byteLength line + (if 0 <? i then 1 else 0) in
        if maxBytes <? bytes + lineBytes then (out, bytes, ByBytes)
        else head_loop maxLines maxBytes lines (i + 1) (out ++ [line]) (bytes + lineBytes)
      else (out, bytes, ByLines)
  end.

Definition truncateHead (content : jsstr) (options : TruncationOptions) : TruncationResult :=
  let maxLines := opt_lines options in
  let maxBytes := opt_bytes options in
  let totalBytes := byteLength content in
  let lines := js_split NL content in
  let totalLines := Z.of_nat (length lines) in
  if (totalLines <=? maxLines) && (totalBytes <=? maxBytes) then
    untruncated content totalLines totalBytes maxLines maxBytes
  else if maxBytes <? byteLength (default [] (head lines)) then
    MkTruncationResult [] true (Some ByBytes) totalLines totalBytes 0 0 false true maxLines maxBytes
  else
    let '(out, bytes, by1) := head_loop maxLines maxBytes lines 0 [] 0 in
    let truncatedBy :=
      if (maxLines <=? Z.of_nat (length out)) && (bytes <=? maxBytes) then ByLines else by1 in
    let outputContent := js_join [NL] out in
    MkTruncationResult outputContent true (Some truncatedBy) totalLines totalBytes
      (Z.of_nat (length out)) (byteLength outputContent) false false maxLines maxBytes.

Definition truncateStringToBytesFromEnd (str : jsstr) (maxBytes : Z) : jsstr :=
  let buf := utf8_encode str in
  if Z.of_nat (length buf) <=? maxBytes then str
  else utf8_decode (skip_cont (drop (Z.to_nat (Z.of_nat (length buf) - maxBytes)) buf)).

(** The [for] loop of [truncateTail], over the lines from last to first;
    [unshift] is a cons. *)
Fixpoint tail_loop (maxLines maxBytes : Z) (rlines : list jsstr)
    (out : list jsstr) (bytes : Z) : list jsstr * Z * limit * bool :=
  match rlines with
  | [] => (out, bytes, ByLines, false)
  | line :: rlines =>
      if Z.of_nat (length out) <? maxLines then
        let lineBytes := byteLength line + (if 0 <? Z.of_nat (length out) then 1 else 0) in
        if maxBytes <? bytes + lineBytes then
          match out with
          | [] =>
              let truncatedLine := truncateStringToBytesFromEnd line maxBytes in
              ([truncatedLine], byteLength truncatedLine, ByBytes, true)
          | _ => (out, bytes, ByBytes, false)
          end
        else tail_loop maxLines maxBytes rlines (line :: out) (bytes + lineBytes)
      else (out, bytes, ByLines, false)
  end.

Definition truncateTail (content : jsstr) (options : TruncationOptions) : TruncationResult :=
  let maxLines := opt_lines options in
  let maxBytes := opt_bytes options in
  let totalBytes := byteLength content in
  let lines := js_split NL content in
  let totalLines := Z.of_nat (length lines) in
  if (totalLines <=? maxLines) && (totalBytes <=? maxBytes) then
    untruncated content totalLines totalBytes maxLines maxBytes
  else
    let '(out, bytes, by1, lastLinePartial) := tail_loop maxLines maxBytes (reverse lines) [] 0 in
    let truncatedBy :=
      if (maxLines <=? Z.of_nat (length out)) && (bytes <=? maxBytes) then ByLines else by1 in
    let outputContent := js_join [NL] out in
    MkTruncationResult outputContent true (Some truncatedBy) totalLines totalBytes
      (Z.of_nat (length out)) (byteLength outputContent) lastLinePartial false maxLines maxBytes.

Definition truncateLine (line : jsstr) (maxChars : Z) : jsstr * bool :=
  if Z.of_nat (length line) <=? maxChars then (line, false)
  else (take (Z.to_nat maxChars) line ++ js "... [truncated]", true).

(** ** The loops *)

Section head.
  Context (maxLines maxBytes : Z).

  (** What the head loop guarantees: it returns a prefix of the lines that
      satisfies both limits, and stopped because the lines ran out, the line
      limit was reached, or one more line would exceed the byte limit. *)
Lemma head_loop_spec lines all i out bytes out' bytes' by' :
    0 <= maxLines → bytes <= maxBytes → i = Z.of_nat (length out) → i <= maxLines →
    all = out ++ lines → bytes = byteLength (js_join [NL] out) →
    head_loop maxLines maxBytes lines i out bytes = (out', bytes', by') →
    out' = take (length out') all ∧ bytes' = byteLength (js_join [NL] out') ∧
    bytes' <= maxBytes ∧ Z.of_nat (length out') <= maxLines ∧
    match by' with
    | ByLines => length out' = length all ∨ Z.of_nat (length out') = maxLines
    | ByBytes => Z.of_nat (length out') < maxLines ∧
        ∃ line, all !! length out' = Some line ∧
          maxBytes < byteLength (js_join [NL] (out' ++ [line]))
    end.
  Proof.
    intros Hml. revert i out bytes.
    induction lines as [|line lines IH]; intros i out bytes Hb Hi Hil Hall Hby; cbn [head_loop].
    { intros [= <- <- <-]. subst. rewrite app_nil_r, (take_ge out) by lia. repeat split; lia. }
    assert (byteLength line + (if 0 <? i then 1 else 0) + bytes =
            byteLength (js_join [NL] (out ++ [line]))) as Hnext.
    { rewrite byteLength_join_snoc, <-Hby. case_decide as Ho.
      - subst out. change (Z.of_nat (length [])) with 0 in Hi. rewrite Hi, Z.ltb_irrefl. lia.
      - destruct out; [done|]. rewrite (proj2 (Z.ltb_lt 0 i)) by (cbn in Hi; lia). lia. }
    destruct (Z.ltb_spec i maxLines) as [Hlt|Hge]; [destruct (Z.ltb_spec maxBytes
      (bytes + (byteLength line + (if 0 <? i then 1 else 0)))) as [Hx|Hx]|].
    - intros [= <- <- <-]. subst all. rewrite take_app_length. repeat split; try lia; try done.
      exists line. split; [by rewrite list_lookup_middle|lia].
    - apply IH; [lia|rewrite length_app; cbn; lia|lia|by rewrite <-app_assoc|lia].
    - intros [= <- <- <-]. subst all. rewrite take_app_length. repeat split; try lia; try done.
  Qed.

End head.

Lemma truncateEnd_spec str maxBytes :
  Forall is_unit str → 0 <= maxBytes < byteLength str →
  let t := truncateStringToBytesFromEnd str maxBytes in
  maxBytes - 3 <= byteLength t <= maxBytes ∧
  ∃ k, t = of_code_points (drop k (code_points str)).
Proof.
  intros Hu [H0 Hlt]. unfold truncateStringToBytesFromEnd. fold (byteLength str).
  destruct (Z.leb_spec (byteLength str) maxBytes) as [|_]; [lia|]. cbn zeta.
  pose proof (code_points_scalar str Hu) as Hs. unfold utf8_encode.
  destruct (skip_cont_drop (Z.to_nat (byteLength str - maxBytes)) (code_points str) Hs)
    as (k&Hk&Hlen).
  assert (Forall is_scalar (drop k (code_points str))) by by apply Forall_drop.
  pose proof (skip_cont_length
    (drop (Z.to_nat (byteLength str - maxBytes)) (utf8_of_cps (code_points str)))) as Hle.
  rewrite Hk in Hle |- *. rewrite utf8_decode_cps by done.
  rewrite byteLength_of_code_points by done. split; [|by eauto].
  rewrite length_drop in *. unfold byteLength, utf8_encode in *. lia.
Qed.

Section tail.
  Context (maxLines maxBytes : Z).

  (** The mirror image of [head_loop_spec] for the lines that precede [out],
      with the partial-line exception. *)
Lemma tail_loop_spec rlines all out bytes out' bytes' by' part :
    0 <= maxLines → 0 <= maxBytes → bytes <= maxBytes → Z.of_nat (length out) <= maxLines →
    all = reverse rlines ++ out → bytes = byteLength (js_join [NL] out) →
    Forall (Forall is_unit) rlines →
    tail_loop maxLines maxBytes rlines out bytes = (out', bytes', by', part) →
    bytes' = byteLength (js_join [NL] out') ∧ bytes' <= maxBytes ∧
    Z.of_nat (length out') <= maxLines ∧
    if part then
      by' = ByBytes ∧ ∃ line k, last all = Some line ∧ maxBytes < byteLength line ∧
        out' = [of_code_points (drop k (code_points line))] ∧ maxBytes - 3 <= bytes'
    else
      out' = drop (length all - length out') all ∧
      match by' with
      | ByLines => length out' = length all ∨ Z.of_nat (length out') = maxLines
      | ByBytes => Z.of_nat (length out') < maxLines ∧
          ∃ line, all !! (length all - S (length out'))%nat = Some line ∧
            maxBytes < byteLength (js_join [NL] (line :: out'))
      end.
  Proof.
    intros Hml Hmb. revert out bytes.
    induction rlines as [|line rlines IH]; intros out bytes Hb Hol Hall Hby Hun; cbn [tail_loop].
    { intros [= <- <- <- <-]. subst. change (reverse [] ++ out) with out.
      rewrite Nat.sub_diag, drop_0. repeat split; lia. }
    apply Forall_cons in Hun as [Hline Hun].
    rewrite reverse_cons, <-app_assoc in Hall. cbn [app] in Hall.
    assert (length all = length rlines + S (length out))%nat as Hlen
      by (subst all; rewrite length_app, length_reverse; done).
    assert (byteLength line + (if 0 <? Z.of_nat (length out) then 1 else 0) + bytes =
            byteLength (js_join [NL] (line :: out))) as Hnext.
    { rewrite byteLength_join_cons, <-Hby. case_decide as Ho; [by subst out|].
      destruct out; [done|]. rewrite (proj2 (Z.ltb_lt 0 _)) by (cbn; lia). lia. }
    destruct (Z.ltb_spec (Z.of_nat (length out)) maxLines) as [Hlt|Hge]; [destruct (Z.ltb_spec maxBytes
      (bytes + (byteLength line + (if 0 <? Z.of_nat (length out) then 1 else 0)))) as [Hx|Hx]|].
    - destruct out as [|o out]; intros [= <- <- <- <-].
      + cbn in *. assert (maxBytes < byteLength line) as Hxl by lia.
        destruct (truncateEnd_spec line maxBytes Hline) as ((?&?)&k&Hk); [lia|].
        repeat split; try lia. exists line, k. rewrite Hall, last_snoc, <-Hk. auto.
      + repeat split; try done; try lia.
        * symmetry. apply (drop_length_sub _ (reverse rlines ++ [line])). by rewrite <-app_assoc.
        * exists line. split; [by eapply lookup_length_sub|lia].
    - apply IH; [lia|cbn; lia|done|lia|done].
    - intros [= <- <- <- <-]. repeat split; try done; try lia.
      symmetry. apply (drop_length_sub _ (reverse rlines ++ [line])). by rewrite <-app_assoc.
  Qed.
End tail.

Lemma untruncated_lines content :
  js_join [NL] (take (length (js_split NL content)) (js_split NL content)) = content.
Proof. rewrite take_ge by lia. apply js_join_split. Qed.

(** ** Properties *)

(** [truncateHead] returns whole leading lines of its input within both
    limits, reports the byte length and line count of what it returns, and
    stops only when the next line would break the limit it names: on every
    branch the output is the first [outputLines] lines joined by newlines. *)
Theorem truncateHead_spec content options :
  0 <= opt_lines options → 0 <= opt_bytes options →
  let r := truncateHead content options in
  let lines := js_split NL content in
  tr_content r = js_join [NL] (take (Z.to_nat (tr_outputLines r)) lines) ∧
  0 <= tr_outputLines r <= opt_lines options ∧
  tr_outputBytes r = byteLength (tr_content r) ∧
  tr_outputBytes r <= opt_bytes options ∧
  match tr_truncatedBy r with
  | None => tr_truncated r = false ∧ tr_content r = content
  | Some ByLines => tr_truncated r = true ∧
      (tr_outputLines r = opt_lines options ∨ tr_content r = content)
  | Some ByBytes => tr_truncated r = true ∧ ∃ line,
      lines !! Z.to_nat (tr_outputLines r) = Some line ∧
      opt_bytes options <
        byteLength (js_join [NL] (take (Z.to_nat (tr_outputLines r)) lines ++ [line]))
  end.
Proof.
  intros HL HB. cbn zeta. unfold truncateHead.
  destruct (andb _ _) eqn:Hfit; [|destruct (Z.ltb_spec (opt_bytes options)
    (byteLength (default [] (head (js_split NL content))))) as [Hf|_]].
  - apply andb_true_iff in Hfit as [?%Z.leb_le ?%Z.leb_le]. cbn.
    rewrite Nat2Z.id, untruncated_lines. repeat split; lia.
  - cbn. repeat split; try lia. destruct (js_split NL content) as [|l ls] eqn:Hs.
    { by destruct (js_split_nonempty NL content). }
    exists l. cbn in *. done.
  - destruct (head_loop _ _ _ _ _ _) as [[out bytes] by1] eqn:Hloop.
    apply (head_loop_spec _ _ _ (js_split NL content)) in Hloop
      as (Hout&->&Hb&Hl&Hby); [|lia|lia|done|lia|done|done].
    cbn [tr_content tr_outputLines tr_outputBytes tr_truncatedBy tr_truncated].
    rewrite Nat2Z.id, <-Hout. repeat split; try lia.
    destruct (Z.leb_spec (opt_lines options) (Z.of_nat (length out))) as [Hge|Hlt].
    + rewrite (proj2 (Z.leb_le _ _) Hb). cbn. split; [done|]. left. lia.
    + cbn [andb]. destruct by1; split; try done.
      * destruct Hby as [Hby|]; [right|lia]. rewrite Hout, Hby. apply untruncated_lines.
      * destruct Hby as (_&line&?&?). eauto.
Qed.

Lemma truncateHead_spec_witness :
  let r := truncateHead (js "ab" ++ [NL] ++ js "cd" ++ [NL] ++ js "ef")
             (MkTruncationOptions None (Some 6)) in
  tr_outputBytes r = byteLength (tr_content r).
Proof.
  apply (truncateHead_spec (js "ab" ++ [NL] ++ js "cd" ++ [NL] ++ js "ef")
           (MkTruncationOptions None (Some 6))); vm_compute; discriminate.
Defined.

(** [truncateTail] returns whole trailing lines within both limits, except
    when the last line alone exceeds the byte limit: then it returns a suffix
    of that line cut at a code point boundary, at most three bytes short of the
    limit.  The reported sizes are those of the returned text. *)
Theorem truncateTail_spec content options :
  Forall is_unit content → 0 <= opt_lines options → 0 <= opt_bytes options →
  let r := truncateTail content options in
  let lines := js_split NL content in
  0 <= tr_outputLines r <= opt_lines options ∧
  tr_outputBytes r = byteLength (tr_content r) ∧
  tr_outputBytes r <= opt_bytes options ∧
  (if tr_lastLinePartial r then
     ∃ line k, last lines = Some line ∧ opt_bytes options < byteLength line ∧
       tr_content r = of_code_points (drop k (code_points line)) ∧
       opt_bytes options - 3 <= tr_outputBytes r
   else
     tr_content r = js_join [NL] (drop (length lines - Z.to_nat (tr_outputLines r)) lines)) ∧
  (tr_truncated r = false → tr_content r = content).
Proof.
  intros Hu HL HB. cbn zeta. unfold truncateTail.
  destruct (andb _ _) eqn:Hfit.
  - apply andb_true_iff in Hfit as [?%Z.leb_le ?%Z.leb_le]. cbn.
    rewrite Nat2Z.id, Nat.sub_diag, drop_0, js_join_split. repeat split; lia.
  - destruct (tail_loop _ _ _ _ _) as [[[out bytes] by1] part] eqn:Hloop.
    apply (tail_loop_spec _ _ _ (js_split NL content)) in Hloop as (->&Hb&Hl&Hcase);
      [|lia|lia|lia|cbn; lia|by rewrite reverse_involutive, app_nil_r|done
       |by apply Forall_reverse, js_split_Forall].
    cbn [tr_content tr_outputLines tr_outputBytes tr_truncated tr_lastLinePartial].
    rewrite Nat2Z.id. repeat split; try lia.
    destruct part; [|destruct Hcase as [Hout _]; by rewrite <-Hout].
    destruct Hcase as (_&line&k&Hlast&Hlt&->&?). exists line, k. auto.
Qed.

Lemma truncateTail_spec_witness :
  let r := truncateTail (js "abcdef") (MkTruncationOptions None (Some 4)) in
  tr_lastLinePartial r = true ∧ tr_outputBytes r <= 4.
Proof.
  split; [reflexivity|].
  refine (proj1 (proj2 (proj2 (truncateTail_spec (js "abcdef") (MkTruncationOptions None (Some 4))
    _ _ _)))); [apply unitsb_spec; reflexivity|vm_compute; discriminate..].
Defined.
