(* ===== verification/OutputAccumulator.v ===== *)
(** * Accumulation of tool output

    Models [core/tools/output-accumulator.ts]: the output of a running tool
    arrives in chunks of bytes; the class decodes them with a streaming decoder,
    keeps the end of the text for display and writes everything to a temporary
    file once the output is too long to be shown whole.

    The temporary file is the list of the chunks written to its stream; its
    path is a parameter (random in the code).  Errors of the stream are not
    modelled: the code does not look at them before [closeTempFile]. *)

From S2P Require Import Prelude.
From S2P Require Import JsString.
From S2P Require Import Truncate.

(** ** [TextDecoder]

    The decoder of the language: the bytes of an unfinished code point are kept
    between chunks, and a byte order mark at the start is dropped. *)

Record TextDecoder := MkDecoder { td_state : dec_state; td_bomSeen : bool }.

Definition newDecoder : TextDecoder := MkDecoder dec_init false.

Definition drop_bom (bomSeen : bool) (cps : list Z) : list Z :=
  if bomSeen then cps else match cps with c :: rest => if c =? 0xFEFF then rest else cps | [] => [] end.

Definition saw_bom (bomSeen : bool) (cps : list Z) : bool := bomSeen || negb (bool_decide (cps = [])).

(** [decode(data, { stream: true })] *)
Definition decode_stream (data : list Z) (d : TextDecoder) : TextDecoder * jsstr :=
  let '(st, out) := dec_bytes (td_state d) data in
  (MkDecoder st (saw_bom (td_bomSeen d) out), of_code_points (drop_bom (td_bomSeen d) out)).

(** [decode()] *)
Definition decode_end (d : TextDecoder) : TextDecoder * jsstr :=
  (newDecoder, of_code_points (drop_bom (td_bomSeen d) (dec_flush (td_state d)))).

(** ** State *)

Record OutputAccumulatorOptions := MkAccOptions {
  ao_maxLines : option Z; ao_maxBytes : option Z; ao_tempFilePrefix : option jsstr
}.

Record OutputSnapshot := MkSnapshot { sn_content : jsstr; sn_truncation : TruncationResult; sn_fullOutputPath : option jsstr }.

Record OutputAccumulator := MkAcc {
  maxLines : Z;
  maxBytes : Z;
  maxRollingBytes : Z;
  tempFilePrefix : jsstr;
  decoder : TextDecoder;
  rawChunks : list (list Z);
  tailText : jsstr;
  tailBytes : Z;
  tailStartsAtLineBoundary : bool;
  totalRawBytes : Z;
  totalDecodedBytes : Z;
  totalLines : Z;
  currentLineBytes : Z;
  finished : bool;
  tempFilePath : option jsstr;
  (** [tempFileStream !== undefined], and what was written to the file *)
  tempFileStream : bool;
  tempFile : list (list Z)
}.

Definition construct (options : OutputAccumulatorOptions) : OutputAccumulator :=
  let maxBytes := default DEFAULT_MAX_BYTES (ao_maxBytes options) in
  MkAcc (default DEFAULT_MAX_LINES (ao_maxLines options)) maxBytes (Z.max (maxBytes * 2) 1)
    (default (js "pi-output") (ao_tempFilePrefix options)) newDecoder [] [] 0 true 0 0 1 0 false None false [].

Definition with_decoder (d : TextDecoder) (raw : Z) (s : OutputAccumulator) : OutputAccumulator :=
  MkAcc (maxLines s) (maxBytes s) (maxRollingBytes s) (tempFilePrefix s) d (rawChunks s) (tailText s) (tailBytes s)
    (tailStartsAtLineBoundary s) raw (totalDecodedBytes s) (totalLines s) (currentLineBytes s) (finished s)
    (tempFilePath s) (tempFileStream s) (tempFile s).
Definition with_tail (text : jsstr) (bytes : Z) (boundary : bool) (s : OutputAccumulator) : OutputAccumulator :=
  MkAcc (maxLines s) (maxBytes s) (maxRollingBytes s) (tempFilePrefix s) (decoder s) (rawChunks s) text bytes
    boundary (totalRawBytes s) (totalDecodedBytes s) (totalLines s) (currentLineBytes s) (finished s)
    (tempFilePath s) (tempFileStream s) (tempFile s).
Definition with_counts (decoded lines current : Z) (s : OutputAccumulator) : OutputAccumulator :=
  MkAcc (maxLines s) (maxBytes s) (maxRollingBytes s) (tempFilePrefix s) (decoder s) (rawChunks s) (tailText s) (tailBytes s)
    (tailStartsAtLineBoundary s) (totalRawBytes s) decoded lines current (finished s)
    (tempFilePath s) (tempFileStream s) (tempFile s).
Definition with_file (raw : list (list Z)) (path : option jsstr) (stream : bool) (file : list (list Z)) (s : OutputAccumulator)
    : OutputAccumulator :=
  MkAcc (maxLines s) (maxBytes s) (maxRollingBytes s) (tempFilePrefix s) (decoder s) raw (tailText s) (tailBytes s)
    (tailStartsAtLineBoundary s) (totalRawBytes s) (totalDecodedBytes s) (totalLines s) (currentLineBytes s) (finished s)
    path stream file.
Definition with_finished (s : OutputAccumulator) : OutputAccumulator :=
  MkAcc (maxLines s) (maxBytes s) (maxRollingBytes s) (tempFilePrefix s) (decoder s) (rawChunks s) (tailText s) (tailBytes s)
    (tailStartsAtLineBoundary s) (totalRawBytes s) (totalDecodedBytes s) (totalLines s) (currentLineBytes s) true
    (tempFilePath s) (tempFileStream s) (tempFile s).

Section accumulator.
Context (defaultTempFilePath : jsstr → jsstr).

(** ** The tail *)

Definition trimTail (s : OutputAccumulator) : OutputAccumulator :=
  let buffer := utf8_encode (tailText s) in
  let len := Z.of_nat (length buffer) in
  if len <=? maxRollingBytes s then with_tail (tailText s) len (tailStartsAtLineBoundary s) s else
  (* from [len - maxRollingBytes] on, past continuation bytes *)
  let rest := skip_cont (drop (Z.to_nat (len - maxRollingBytes s)) buffer) in
  let start := (length buffer - length rest)%nat in
  let boundary := match start with O => tailStartsAtLineBoundary s | S i => bool_decide (buffer !! i = Some 0x0a) end in
  let text := utf8_decode rest in
  with_tail text (byteLength text) boundary s.

(** The loop over the newlines: their number and the index of the last. *)
Fixpoint scan_newlines (i : Z) (text : jsstr) (newlines lastNewline : Z) : Z * Z :=
  match text with
  | [] => (newlines, lastNewline)
  | c :: text => if c =? NL then scan_newlines (i + 1) text (newlines + 1) i else scan_newlines (i + 1) text newlines lastNewline
  end.

Definition appendDecodedText (text : jsstr) (s : OutputAccumulator) : OutputAccumulator :=
  match text with
  | [] => s
  | _ =>
      let bytes := byteLength text in
      let s1 := with_tail (tailText s ++ text) (tailBytes s + bytes) (tailStartsAtLineBoundary s) s in
      let s2 := if maxRollingBytes s1 * 2 <? tailBytes s1 then trimTail s1 else s1 in
      let '(newlines, lastNewline) := scan_newlines 0 text 0 (-1) in
      if newlines =? 0
      then with_counts (totalDecodedBytes s + bytes) (totalLines s) (currentLineBytes s + bytes) s2
      else with_counts (totalDecodedBytes s + bytes) (totalLines s + newlines)
             (byteLength (drop (Z.to_nat (lastNewline + 1)) text)) s2
  end.

(** The text after the first newline. *)
Fixpoint after_newline (text : jsstr) : option jsstr :=
  match text with
  | [] => None
  | c :: text => if c =? NL then Some text else after_newline text
  end.

Definition getSnapshotText (s : OutputAccumulator) : jsstr :=
  if tailStartsAtLineBoundary s then tailText s else default (tailText s) (after_newline (tailText s)).

(** ** The temporary file *)

Definition shouldUseTempFile (s : OutputAccumulator) : bool :=
  (maxBytes s <? totalRawBytes s) || (maxBytes s <? totalDecodedBytes s) || (maxLines s <? totalLines s).

Definition ensureTempFile (s : OutputAccumulator) : OutputAccumulator :=
  match tempFilePath s with
  | Some _ => s
  | None => with_file [] (Some (defaultTempFilePath (tempFilePrefix s))) true (rawChunks s) s
  end.

(** [tempFileStream?.write(data)] *)
Definition write_file (data : list Z) (s : OutputAccumulator) : OutputAccumulator :=
  if tempFileStream s then with_file (rawChunks s) (tempFilePath s) true (tempFile s ++ [data]) s else s.

(** ** Methods *)

Definition append (data : list Z) (s : OutputAccumulator) : result jsstr OutputAccumulator :=
  if finished s then Throw (js "Cannot append to a finished output accumulator") else
  let '(d, text) := decode_stream data (decoder s) in
  let s := appendDecodedText text (with_decoder d (totalRawBytes s + Z.of_nat (length data)) s) in
  Ok (if tempFileStream s || shouldUseTempFile s then write_file data (ensureTempFile s)
      else match data with
           | [] => s
           | _ => with_file (rawChunks s ++ [data]) (tempFilePath s) (tempFileStream s) (tempFile s) s
           end).

Definition finish (s : OutputAccumulator) : OutputAccumulator :=
  if finished s then s else
  let '(d, text) := decode_end (decoder s) in
  let s := appendDecodedText text (with_decoder d (totalRawBytes s) (with_finished s)) in
  if shouldUseTempFile s then ensureTempFile s else s.

Definition snapshot (persistIfTruncated : bool) (s : OutputAccumulator) : OutputAccumulator * OutputSnapshot :=
  let tailTruncation := truncateTail (getSnapshotText s) (MkTruncationOptions (Some (maxLines s)) (Some (maxBytes s))) in
  let truncated := (maxLines s <? totalLines s) || (maxBytes s <? totalDecodedBytes s) in
  let truncatedBy := if truncated
    then Some (default (if maxBytes s <? totalDecodedBytes s then ByBytes else ByLines) (tr_truncatedBy tailTruncation))
    else None in
  let truncation := MkTruncationResult (tr_content tailTruncation) truncated truncatedBy (totalLines s) (totalDecodedBytes s)
    (tr_outputLines tailTruncation) (tr_outputBytes tailTruncation) (tr_lastLinePartial tailTruncation)
    (tr_firstLineExceedsLimit tailTruncation) (maxLines s) (maxBytes s) in
  let s := if persistIfTruncated && truncated then ensureTempFile s else s in
  (s, MkSnapshot (tr_content truncation) truncation (tempFilePath s)).

(** The state once the stream has ended. *)
Definition closeTempFile (s : OutputAccumulator) : OutputAccumulator :=
  if tempFileStream s then with_file (rawChunks s) (tempFilePath s) false (tempFile s) s else s.

Definition getLastLineBytes (s : OutputAccumulator) : Z := currentLineBytes s.
End accumulator.
