(* ===== verification/OutputAccumulatorSpec.v ===== *)
(** * Accumulation of tool output: the theorems

    What the streaming decoder gives for a sequence of chunks, and when the end
    of a text is displayed like the text: the lemmas behind the theorems of
    [OutputAccumulatorProps]. *)

From S2P Require Import Prelude.
From S2P Require Import JsString.
From S2P Require Import Truncate.
From S2P Require Import OutputAccumulator.

(** ** What a decoder gives *)

(** Whatever bytes are still accepted complete a scalar value. *)
Fixpoint dec_ok (n : nat) (cp lower upper : Z) : Prop :=
  match n with
  | O => True
  | S m => ∀ b, lower <= b <= upper →
      match m with O => is_scalar (cp * 64 + (b - 0x80)) | S _ => dec_ok m (cp * 64 + (b - 0x80)) 0x80 0xBF end
  end.

Definition dec_state_ok (d : dec_state) : Prop := dec_ok (d_needed d) (d_cp d) (d_lower d) (d_upper d).

Lemma scalar_FFFD : is_scalar 0xFFFD.
Proof. unfold is_scalar. lia. Qed.

Lemma dec_start_ok b : 0 <= b → dec_state_ok (dec_start b).1 ∧ Forall is_scalar (dec_start b).2.
Proof.
  intros Hb. unfold dec_start. pose proof scalar_FFFD.
  destruct (Z.leb_spec b 0x7F); [split; [done|]; apply Forall_singleton; unfold is_scalar; lia|].
  destruct (Z.leb_spec 0xC2 b), (Z.leb_spec b 0xDF); cbn [andb];
    try (split; [|by constructor]; unfold dec_state_ok; cbn; intros; unfold is_scalar; lia);
    destruct (Z.leb_spec 0xE0 b), (Z.leb_spec b 0xEF); cbn [andb];
    try (split; [|by constructor]; unfold dec_state_ok; cbn; destruct (Z.eqb_spec b 0xE0), (Z.eqb_spec b 0xED);
      intros; unfold is_scalar; lia);
    destruct (Z.leb_spec 0xF0 b), (Z.leb_spec b 0xF4); cbn [andb];
    try (split; [|by constructor]; unfold dec_state_ok; cbn; destruct (Z.eqb_spec b 0xF0), (Z.eqb_spec b 0xF4);
      intros; unfold is_scalar; lia);
    (split; [done|by apply Forall_singleton]).
Qed.

Lemma dec_byte_ok d b : dec_state_ok d → 0 <= b → dec_state_ok (dec_byte d b).1 ∧ Forall is_scalar (dec_byte d b).2.
Proof.
  intros Hd Hb. unfold dec_byte. destruct d as [[|n] cp lo up]; cbn [d_needed d_cp d_lower d_upper]; [by apply dec_start_ok|].
  destruct (Z.leb_spec lo b), (Z.leb_spec b up); cbn [andb].
  1: { assert (lo <= b <= up) as Hr by lia. specialize (Hd b Hr). destruct n; (split; [done|]); [by apply Forall_singleton|constructor]. }
  all: pose proof (dec_start_ok b Hb) as [H1 H2]; destruct (dec_start b) as [d' out]; cbn in *; split; [done|];
    (constructor; [apply scalar_FFFD|done]).
Qed.

Lemma dec_bytes_ok bs d : dec_state_ok d → Forall (λ b, 0 <= b) bs →
  dec_state_ok (dec_bytes d bs).1 ∧ Forall is_scalar (dec_bytes d bs).2.
Proof.
  intros Hd Hb. revert d Hd. induction Hb as [|b bs Hb _ IH]; intros d Hd; cbn [dec_bytes]; [by split|].
  pose proof (dec_byte_ok d b Hd Hb) as [H1 H2]. destruct (dec_byte d b) as [d1 o1]. cbn [fst snd] in *.
  destruct (IH d1 H1) as [H3 H4]. destruct (dec_bytes d1 bs) as [d2 o2]. cbn [fst snd] in *.
  split; [done|]. by apply Forall_app.
Qed.

Lemma dec_flush_ok d : Forall is_scalar (dec_flush d).
Proof. unfold dec_flush. destruct (d_needed d); [constructor|]. apply Forall_singleton, scalar_FFFD. Qed.

(** The code points of a stream so far, [over] when it has ended. *)
Definition stream_cps (data : list Z) (over : bool) : list Z :=
  let '(d, out) := dec_bytes dec_init data in drop_bom false (out ++ if over then dec_flush d else []).

(** The text that the output is. *)
Definition stream_text (data : list Z) (over : bool) : jsstr := of_code_points (stream_cps data over).

(** [TextDecoder.decode] of everything at once is the decoding of the bytes
    without the byte order mark. *)
Lemma drop_bom_app b l1 l2 : drop_bom b (l1 ++ l2) = drop_bom b l1 ++ drop_bom (saw_bom b l1) l2.
Proof. destruct b, l1 as [|c l1]; try done. cbn. by destruct (c =? 0xFEFF). Qed.

Lemma drop_bom_ok b l : Forall is_scalar l → Forall is_scalar (drop_bom b l).
Proof. destruct b; [done|]. destruct 1 as [|c l Hc Hl]; [constructor|]. cbn. destruct (c =? _); [done|by constructor]. Qed.

Lemma stream_cps_ok data over : Forall (λ b, 0 <= b) data → Forall is_scalar (stream_cps data over).
Proof.
  intros Hd. unfold stream_cps. pose proof (dec_bytes_ok data dec_init I Hd) as [_ Ho].
  destruct (dec_bytes dec_init data) as [d out]. cbn [snd] in *. apply drop_bom_ok, Forall_app. split; [done|].
  destruct over; [apply dec_flush_ok|constructor].
Qed.

(** The state of the decoder after a stream, and what a further chunk adds. *)
Definition decoder_at (data : list Z) : TextDecoder :=
  MkDecoder (dec_bytes dec_init data).1 (saw_bom false (dec_bytes dec_init data).2).

Lemma saw_bom_app b l1 l2 : saw_bom (saw_bom b l1) l2 = saw_bom b (l1 ++ l2).
Proof. by destruct b, l1, l2. Qed.

Lemma decode_step data chunk : ∃ cps, decode_stream chunk (decoder_at data) = (decoder_at (data ++ chunk), of_code_points cps) ∧
  stream_cps (data ++ chunk) false = stream_cps data false ++ cps.
Proof.
  unfold decode_stream, decoder_at, stream_cps. rewrite dec_bytes_app. cbn [td_state td_bomSeen].
  destruct (dec_bytes dec_init data) as [d1 o1]. cbn [fst snd]. destruct (dec_bytes d1 chunk) as [d2 o2]. cbn [fst snd].
  eexists. split; [by rewrite saw_bom_app|]. by rewrite !app_nil_r, drop_bom_app.
Qed.

Lemma decode_last data : ∃ cps, (decode_end (decoder_at data)).2 = of_code_points cps ∧
  stream_cps data true = stream_cps data false ++ cps.
Proof.
  unfold decode_end, decoder_at, stream_cps. cbn [td_state td_bomSeen].
  destruct (dec_bytes dec_init data) as [d1 o1]. cbn [fst snd]. eexists. split; [done|]. by rewrite app_nil_r, drop_bom_app.
Qed.

(** ** Text and lines *)

Lemma of_code_points_app a b : of_code_points (a ++ b) = of_code_points a ++ of_code_points b.
Proof. apply bind_app. Qed.

Lemma units_of_cp_NL c : is_scalar c → NL ∈ units_of_cp c ↔ c = NL.
Proof.
  intros Hc. unfold units_of_cp. pose proof (Z.mod_pos_bound (c - 0x10000) 0x400).
  destruct (Z.ltb_spec c 0x10000); [rewrite list_elem_of_singleton; split; congruence|].
  assert (0 <= (c - 0x10000) / 0x400) by (apply Z.div_pos; unfold is_scalar in *; lia).
  unfold NL. rewrite elem_of_cons, list_elem_of_singleton. split; [intros [?|?]; lia|]. intros ->. lia.
Qed.

Lemma of_code_points_NL cps : Forall is_scalar cps → NL ∈ of_code_points cps ↔ NL ∈ cps.
Proof.
  induction 1 as [|c cps Hc _ IH]; [done|]. change (of_code_points (c :: cps)) with (units_of_cp c ++ of_code_points cps).
  rewrite elem_of_app, elem_of_cons, IH, units_of_cp_NL by done. split; intros [?|?]; auto.
Qed.

Lemma of_code_points_single_NL : of_code_points [NL] = [NL].
Proof. done. Qed.

Lemma of_code_points_units cps : Forall is_scalar cps → Forall is_unit (of_code_points cps).
Proof.
  induction 1 as [|c cps Hc _ IH]; [constructor|]. change (of_code_points (c :: cps)) with (units_of_cp c ++ of_code_points cps).
  apply Forall_app. split; [|done]. unfold units_of_cp, is_scalar, is_unit in *.
  pose proof (Z.mod_pos_bound (c - 0x10000) 0x400).
  destruct (Z.ltb_spec c 0x10000); [apply Forall_singleton; lia|].
  assert (0 <= (c - 0x10000) / 0x400 < 0x400) by (split; [apply Z.div_pos|apply Z.div_lt_upper_bound]; lia).
  repeat (apply Forall_cons; split); [lia|lia|constructor].
Qed.

(** Where the last newline is. *)
Lemma last_newline (s : jsstr) : NL ∈ s → ∃ a b, s = a ++ NL :: b ∧ NL ∉ b.
Proof.
  induction s as [|c s IH] using rev_ind; [by intros ?%not_elem_of_nil|].
  intros Hin. destruct (decide (c = NL)) as [->|Hc]; [exists s, []; by split; [|apply not_elem_of_nil]|].
  apply elem_of_app in Hin as [Hin|Hin%list_elem_of_singleton]; [|by subst].
  destruct (IH Hin) as (a&b&->&Hb). exists a, (b ++ [c]). split; [by rewrite <-app_assoc|].
  rewrite not_elem_of_app, list_elem_of_singleton. split; [done|]. by intros <-.
Qed.

Lemma js_split_app_plain (u s : list Z) : NL ∉ u →
  js_split NL (u ++ s) = match js_split NL s with l :: ls => (u ++ l) :: ls | [] => [] end.
Proof.
  induction u as [|c u IH]; [cbn [app]; by destruct (js_split NL s)|]. rewrite not_elem_of_cons. intros [Hc Hu].
  cbn [app js_split]. rewrite IH by done. rewrite (proj2 (Z.eqb_neq c NL)) by congruence. pose proof (js_split_nonempty NL s). by destruct (js_split NL s).
Qed.

Lemma split_cps cps : Forall is_scalar cps → js_split NL (of_code_points cps) = of_code_points <$> js_split NL cps.
Proof.
  induction 1 as [|c cps Hc Hcps IH]; [done|].
  change (of_code_points (c :: cps)) with (units_of_cp c ++ of_code_points cps). cbn [js_split].
  destruct (Z.eqb_spec c NL) as [->|Hne].
  - change (units_of_cp NL) with [NL]. cbn [app js_split]. by rewrite Z.eqb_refl, IH.
  - rewrite js_split_app_plain by (by rewrite units_of_cp_NL). rewrite IH. pose proof (js_split_nonempty NL cps). by destruct (js_split NL cps).
Qed.

(** The byte lengths of text made of code points. *)
Definition bytes_of (cps : list Z) : Z := Z.of_nat (length (utf8_of_cps cps)).

Lemma bytes_of_app a b : bytes_of (a ++ b) = bytes_of a + bytes_of b.
Proof. unfold bytes_of. rewrite utf8_of_cps_app, length_app. lia. Qed.

Lemma bytes_of_nonneg a : 0 <= bytes_of a.
Proof. unfold bytes_of. lia. Qed.

Lemma encode_cps cps : Forall is_scalar cps → utf8_encode (of_code_points cps) = utf8_of_cps cps.
Proof. intros Hc. unfold utf8_encode. by rewrite code_points_of_code_points. Qed.

(** ** The end of a long text *)

Section tail.
Context (ml mb : Z).

Definition fits (lines out : list jsstr) : Prop :=
  Z.of_nat (length lines + length out) <= ml ∧ byteLength (js_join [NL] (reverse lines ++ out)) <= mb.

Lemma join_longer ls out : byteLength (js_join [NL] out) <= byteLength (js_join [NL] (ls ++ out)).
Proof.
  induction ls as [|l ls IH]; [done|]. cbn [app]. rewrite byteLength_join_cons.
  pose proof (byteLength_nonneg l). case_decide; lia.
Qed.

Lemma join_next line out : byteLength (js_join [NL] (line :: out)) =
  byteLength (js_join [NL] out) + (byteLength line + (if 0 <? Z.of_nat (length out) then 1 else 0)).
Proof.
  rewrite byteLength_join_cons. case_decide as Ho; [subst out|].
  { change (js_join [NL] []) with (@nil Z). rewrite byteLength_nil.
    change (0 <? Z.of_nat (length (@nil jsstr))) with false. cbv iota. lia. }
  assert (0 < Z.of_nat (length out)) by (destruct out; [done|cbn [length]; lia]).
  rewrite (proj2 (Z.ltb_lt 0 (Z.of_nat (length out)))) by done. lia.
Qed.

(** Lines that fit are taken, and the loop goes on with the others; when they do
    not, the others do not matter. *)
Lemma tail_loop_fits lines more out : fits lines out →
  tail_loop ml mb (lines ++ more) out (byteLength (js_join [NL] out)) =
  tail_loop ml mb more (reverse lines ++ out) (byteLength (js_join [NL] (reverse lines ++ out))).
Proof.
  revert out. induction lines as [|l lines IH]; intros out [Hl Hb]; [done|].
  rewrite reverse_cons, <-app_assoc in *. cbn [app length] in *. cbn [tail_loop].
  rewrite (proj2 (Z.ltb_lt _ _)) by lia. cbv zeta. rewrite <-(join_next l out).
  pose proof (join_longer (reverse lines) (l :: out)). rewrite (proj2 (Z.ltb_ge _ _)) by lia.
  apply IH. split; [cbn [length]; lia|done].
Qed.

Lemma tail_loop_stops lines more out : byteLength (js_join [NL] out) <= mb → ¬ fits lines out → lines ≠ [] ∨ ml < Z.of_nat (length out) →
  tail_loop ml mb (lines ++ more) out (byteLength (js_join [NL] out)) = tail_loop ml mb lines out (byteLength (js_join [NL] out)).
Proof.
  revert out. induction lines as [|l lines IH]; intros out Hb Hf Hn.
  { destruct Hn as [|Hn]; [done|]. destruct more as [|m more]; cbn [app tail_loop]; [done|].
    by rewrite (proj2 (Z.ltb_ge _ _)) by lia. }
  cbn [app tail_loop]. destruct (Z.ltb_spec (Z.of_nat (length out)) ml) as [Hlt|Hge]; [|done]. cbv zeta.
  rewrite <-(join_next l out). destruct (Z.ltb_spec mb (byteLength (js_join [NL] (l :: out)))) as [Hx|Hx]; [done|].
  assert (¬ fits lines (l :: out)) as Hf'.
  { intros [H1 H2]. apply Hf. split; [cbn [length] in *; lia|]. rewrite reverse_cons, <-app_assoc. exact H2. }
  apply IH; [done|done|]. destruct lines as [|l' lines]; [|by left]. right.
  destruct (Z.ltb_spec ml (Z.of_nat (length (l :: out)))) as [|Hle]; [done|]. exfalso. apply Hf'. by split.
Qed.

Lemma fits_text (s : jsstr) : fits (reverse (js_split NL s)) [] ↔
  Z.of_nat (length (js_split NL s)) <= ml ∧ byteLength s <= mb.
Proof. unfold fits. by rewrite reverse_involutive, app_nil_r, js_join_split, length_reverse, Nat.add_0_r. Qed.

Lemma trunc_suffix a b : Forall is_scalar a → Forall is_scalar b → 0 <= mb < bytes_of b →
  truncateStringToBytesFromEnd (of_code_points (a ++ b)) mb = truncateStringToBytesFromEnd (of_code_points b) mb.
Proof.
  intros Ha Hb Hmb. unfold truncateStringToBytesFromEnd.
  rewrite !encode_cps by (by try apply Forall_app). unfold bytes_of in *.
  rewrite utf8_of_cps_app, length_app. rewrite !(proj2 (Z.leb_gt _ _)) by lia.
  f_equal. f_equal. rewrite drop_app_ge by lia. f_equal. lia.
Qed.
End tail.

(** Two results of a truncation that differ at most in the totals, which the
    accumulator reports itself, and in the limit that is named when exactly
    [ml] whole lines are shown. *)
Record same_end (ml : Z) (r r' : TruncationResult) : Prop := {
  se_content : tr_content r = tr_content r';
  se_lines : tr_outputLines r = tr_outputLines r';
  se_bytes : tr_outputBytes r = tr_outputBytes r';
  se_partial : tr_lastLinePartial r = tr_lastLinePartial r';
  se_first : tr_firstLineExceedsLimit r = tr_firstLineExceedsLimit r';
  se_by : default ByBytes (tr_truncatedBy r) = default ByBytes (tr_truncatedBy r') ∨
    (tr_outputLines r = ml ∧ tr_lastLinePartial r = false ∧ tr_truncatedBy r' = Some ByLines)
}.

Section ends.
Context (ml mb : Z).
#[local] Abbreviation opts := (MkTruncationOptions (Some ml) (Some mb)).

Lemma truncateTail_cut (s : jsstr) : ¬ fits ml mb (reverse (js_split NL s)) [] →
  truncateTail s opts =
  let '(out, bytes, by1, part) := tail_loop ml mb (reverse (js_split NL s)) [] 0 in
  MkTruncationResult (js_join [NL] out) true (Some (if (ml <=? Z.of_nat (length out)) && (bytes <=? mb) then ByLines else by1))
    (Z.of_nat (length (js_split NL s))) (byteLength s) (Z.of_nat (length out)) (byteLength (js_join [NL] out)) part false ml mb.
Proof.
  rewrite fits_text. intros Hf. unfold truncateTail. cbn [opt_lines opt_bytes opt_maxLines opt_maxBytes default].
  change (default DEFAULT_MAX_LINES (Some ml)) with ml. change (default DEFAULT_MAX_BYTES (Some mb)) with mb. cbv zeta.
  destruct (_ && _) eqn:E; [|done]. exfalso. apply Hf. by apply andb_true_iff in E as [?%Z.leb_le ?%Z.leb_le].
Qed.

Lemma truncateTail_whole (s : jsstr) : fits ml mb (reverse (js_split NL s)) [] →
  truncateTail s opts = untruncated s (Z.of_nat (length (js_split NL s))) (byteLength s) ml mb.
Proof.
  rewrite fits_text. intros [H1 H2]. unfold truncateTail. cbn [opt_lines opt_bytes opt_maxLines opt_maxBytes default].
  change (default DEFAULT_MAX_LINES (Some ml)) with ml. change (default DEFAULT_MAX_BYTES (Some mb)) with mb. cbv zeta.
  by rewrite !(proj2 (Z.leb_le _ _)) by done.
Qed.

Lemma same_end_refl r : same_end ml r r.
Proof. split; auto. Qed.

Lemma not_fits_longer (a b : jsstr) : mb < byteLength a → ¬ fits ml mb (reverse (js_split NL a)) [].
Proof. rewrite fits_text. lia. Qed.

(** The lines after a line break. *)
Lemma end_after_line (X S : jsstr) (line : jsstr) : 0 <= mb → mb < byteLength (X ++ NL :: S) → last (js_split NL X) = Some line →
  mb < byteLength S ∨ mb < byteLength line + 1 + byteLength S →
  same_end ml (truncateTail S opts) (truncateTail (X ++ NL :: S) opts).
Proof.
  intros Hmb HT Hlast Hlong. rewrite (truncateTail_cut (X ++ NL :: S)) by (by apply not_fits_longer).
  rewrite js_split_app_NL, reverse_app. set (ls := js_split NL S). assert (ls ≠ []) as Hls by apply js_split_nonempty.
  assert (js_join [NL] ls = S) as HS by apply js_join_split.
  assert (byteLength (js_join [NL] []) = 0) as H0 by done.
  destruct (decide (fits ml mb (reverse ls) [])) as [Hf|Hf].
  - rewrite truncateTail_whole by done. rewrite <-H0 at 1. rewrite tail_loop_fits by done.
    rewrite reverse_involutive, app_nil_r, HS.
    apply fits_text in Hf as [Hn Hb]. fold ls in Hn |- *.
    apply last_Some in Hlast as [l Hl]. rewrite Hl, reverse_snoc. cbn [tail_loop].
    assert (0 < Z.of_nat (length ls)) as Hpos by (destruct ls; [done|cbn [length]; lia]).
    destruct (Z.ltb_spec (Z.of_nat (length ls)) ml) as [Hlt|Hge].
    + cbv zeta. rewrite (proj2 (Z.ltb_lt 0 _)) by done. rewrite (proj2 (Z.ltb_lt mb _)) by lia.
      destruct ls as [|l0 ls0]; [done|]. rewrite (proj2 (Z.leb_gt _ _)) by done. cbn [andb].
      rewrite HS. by split; auto.
    + rewrite HS. split; try done. right. cbn [tr_outputLines tr_lastLinePartial tr_truncatedBy untruncated].
      split; [lia|]. split; [done|]. by rewrite !(proj2 (Z.leb_le _ _)) by (first [done | rewrite ?HS; lia]).
  - rewrite truncateTail_cut by done. fold ls. rewrite <-H0.
    rewrite (tail_loop_stops ml mb (reverse ls)); [|rewrite H0; done|done|].
    + rewrite H0. destruct (tail_loop _ _ _ _ _) as [[[out bytes] by1] part]. by split; auto.
    + left. intros E. apply Hls. rewrite <-(reverse_involutive ls), E. done.
Qed.

(** A part of a last line that is too long. *)
Lemma end_of_line (pre tl : list Z) : Forall is_scalar pre → Forall is_scalar tl → NL ∉ tl → 0 <= mb < bytes_of tl →
  same_end ml (truncateTail (of_code_points tl) opts) (truncateTail (of_code_points (pre ++ tl)) opts).
Proof.
  intros Hp Ht Hn Hmb.
  assert (∀ z, Forall is_scalar z → byteLength (of_code_points z) = bytes_of z) as Hlen by (intros; by apply byteLength_of_code_points).
  assert (Forall is_scalar (pre ++ tl)) as Hall by (by apply Forall_app). pose proof (bytes_of_nonneg pre).
  rewrite !truncateTail_cut; [|apply not_fits_longer; [exact []|]; rewrite Hlen, ?bytes_of_app by done; lia..].
  rewrite (js_split_single NL (of_code_points tl)) by (by rewrite of_code_points_NL).
  assert (∃ ls z, js_split NL (of_code_points (pre ++ tl)) = ls ++ [of_code_points (z ++ tl)] ∧ Forall is_scalar z) as (ls&z&->&Hz).
  { destruct (decide (NL ∈ pre)) as [Hin|Hin].
    - destruct (last_newline pre Hin) as (a&z&->&Hz).
      apply Forall_app in Hp as [Ha [_ Hzs]%Forall_cons].
      exists (js_split NL (of_code_points a)), z. split; [|done].
      rewrite <-app_assoc. cbn [app]. rewrite of_code_points_app.
      change (of_code_points (NL :: z ++ tl)) with (NL :: of_code_points (z ++ tl)).
      rewrite js_split_app_NL. f_equal. apply js_split_single. rewrite of_code_points_NL by (by apply Forall_app).
      by rewrite not_elem_of_app.
    - exists [], pre. split; [|done]. apply js_split_single. rewrite of_code_points_NL by done. by rewrite not_elem_of_app. }
  rewrite reverse_snoc. change (reverse [of_code_points tl]) with [of_code_points tl]. cbn [tail_loop].
  destruct (Z.ltb_spec (Z.of_nat (length (@nil jsstr))) ml) as [Hlt|Hge]; [|by split; auto]. cbv zeta.
  pose proof (bytes_of_nonneg z). change (0 <? Z.of_nat (length (@nil jsstr))) with false. cbv iota.
  rewrite !Hlen, bytes_of_app by (by try apply Forall_app). rewrite !(proj2 (Z.ltb_lt mb _)) by lia.
  rewrite trunc_suffix by done. by split; auto.
Qed.
End ends.
