(* ===== verification/OutputAccumulatorProps.v ===== *)
(** * Accumulation of tool output: the invariant and the theorems

    However the output is cut into chunks, what is displayed is what
    [truncateTail] gives for the whole text ([snapshot_is_truncateTail]); memory
    is bounded and the file has every byte ([full_output_kept]). *)

From S2P Require Import Prelude.
From S2P Require Import JsString.
From S2P Require Import Truncate.
From S2P Require Import OutputAccumulator.
From S2P Require Import OutputAccumulatorSpec.

(** ** Newlines *)

Definition newlines (cps : list Z) : Z := Z.of_nat (length (filter (λ c, c = NL) cps)).

Lemma newlines_app a b : newlines (a ++ b) = newlines a + newlines b.
Proof. unfold newlines. rewrite filter_app, length_app. lia. Qed.

Lemma newlines_plain (s : list Z) : NL ∉ s → newlines s = 0.
Proof. intros Hs. unfold newlines. rewrite filter_none; [done|]. by intros y Hy ->. Qed.

Lemma length_js_split (s : jsstr) : Z.of_nat (length (js_split NL s)) = 1 + newlines s.
Proof.
  unfold newlines. induction s as [|c s IH]; [done|]. cbn [js_split]. pose proof (js_split_nonempty NL s).
  rewrite filter_cons. destruct (Z.eqb_spec c NL) as [->|Hc].
  - rewrite decide_True by done. cbn [length]. lia.
  - rewrite decide_False by done. destruct (js_split NL s); [done|]. cbn [length] in *. lia.
Qed.

(** The text after the last newline. *)
Definition last_line (s : jsstr) : jsstr := default [] (last (js_split NL s)).

Lemma last_line_plain (s : jsstr) : NL ∉ s → last_line s = s.
Proof. intros Hs. unfold last_line. by rewrite js_split_single. Qed.

Lemma last_line_NL (a b : jsstr) : last_line (a ++ NL :: b) = last_line b.
Proof.
  unfold last_line. rewrite js_split_app_NL, last_app. pose proof (js_split_nonempty NL b).
  destruct (last (js_split NL b)) eqn:E; [done|]. by apply last_None in E.
Qed.

Lemma scan_plain i (s : jsstr) n l : NL ∉ s → scan_newlines i s n l = (n, l).
Proof.
  revert i. induction s as [|c s IH]; intros i; [done|]. rewrite not_elem_of_cons. intros [Hc Hs]. cbn [scan_newlines].
  rewrite (proj2 (Z.eqb_neq c NL)) by congruence. by apply IH.
Qed.

Lemma scan_last i (a b : jsstr) n l : NL ∉ b →
  scan_newlines i (a ++ NL :: b) n l = (n + newlines a + 1, i + Z.of_nat (length a)).
Proof.
  intros Hb. revert i n l. induction a as [|c a IH]; intros i n l; cbn [app scan_newlines].
  - rewrite Z.eqb_refl, scan_plain by done. unfold newlines. cbn. f_equal; lia.
  - unfold newlines. rewrite filter_cons. destruct (Z.eqb_spec c NL) as [->|Hc].
    + rewrite IH, decide_True by done. unfold newlines. cbn [length]. f_equal; lia.
    + rewrite IH, decide_False by done. unfold newlines. cbn [length]. f_equal; lia.
Qed.

Section cps.
Implicit Types cps a b : list Z.

Lemma last_line_cps cps : Forall is_scalar cps → last_line (of_code_points cps) = of_code_points (last_line cps).
Proof. intros Hc. unfold last_line. rewrite split_cps, fmap_last by done. by destruct (last _). Qed.

Lemma newlines_cps cps : Forall is_scalar cps → newlines (of_code_points cps) = newlines cps.
Proof.
  intros Hc. pose proof (length_js_split (of_code_points cps)) as H1. pose proof (length_js_split cps) as H2.
  rewrite split_cps, length_fmap in H1 by done. lia.
Qed.

Lemma last_line_app_plain a b : NL ∉ b → last_line (a ++ b) = last_line a ++ b.
Proof.
  intros Hb. destruct (decide (NL ∈ a)) as [Ha|Ha].
  - destruct (last_newline a Ha) as (x&y&->&Hy). rewrite <-app_assoc. cbn [app].
    rewrite !last_line_NL, !last_line_plain; [done|done|]. by rewrite not_elem_of_app.
  - rewrite !last_line_plain; [done|done|]. by rewrite not_elem_of_app.
Qed.

(** The last byte of a code point is a newline only if the code point is. *)
Lemma last_byte c : is_scalar c → ∃ (bs : list Z) (b : Z), utf8_of_cp c = bs ++ [b] ∧ (b = 0x0a ↔ c = NL).
Proof.
  intros Hc. unfold utf8_of_cp, NL. pose proof (Z.mod_pos_bound c 64).
  destruct (Z.ltb_spec c 0x80); [by exists [], c|].
  destruct (Z.ltb_spec c 0x800); [exists [0xC0 + c / 64], (0x80 + c mod 64); split; [done|lia]|].
  destruct (Z.ltb_spec c 0x10000).
  - exists [0xE0 + c / 4096; 0x80 + (c / 64) mod 64], (0x80 + c mod 64). split; [done|lia].
  - exists [0xF0 + c / 262144; 0x80 + (c / 4096) mod 64; 0x80 + (c / 64) mod 64], (0x80 + c mod 64). split; [done|lia].
Qed.

Lemma bytes_of_pos c : is_scalar c → 0 < bytes_of [c].
Proof.
  intros Hc. destruct (last_byte c Hc) as (bs&b&E&_). unfold bytes_of, utf8_of_cps. cbn [mbind list_bind].
  rewrite app_nil_r, E, length_app. cbn [length]. lia.
Qed.

Lemma ends_in_newline pre rest i : Forall is_scalar pre → length (utf8_of_cps pre) = S i →
  bool_decide ((utf8_of_cps pre ++ rest) !! i = Some 0x0a) = bool_decide (last pre = Some NL).
Proof.
  intros Hp Hi. destruct pre as [|c pre _] using rev_ind; [done|].
  apply Forall_app in Hp as [_ [Hc _]%Forall_cons]. rewrite last_snoc, utf8_of_cps_app in *.
  change (utf8_of_cps [c]) with (utf8_of_cp c ++ []) in *. rewrite app_nil_r in *.
  destruct (last_byte c Hc) as (bs&b&E&Hb). rewrite E in *. rewrite !length_app in Hi. cbn [length] in Hi.
  rewrite app_assoc, <-!app_assoc. cbn [app]. rewrite app_assoc, list_lookup_middle by (rewrite length_app; lia).
  apply bool_decide_ext. split; intros [= H]; f_equal; by apply Hb.
Qed.
End cps.

(** ** The tail *)

Lemma trim_spec s t : Forall is_scalar t → tailText s = of_code_points t → 0 < maxRollingBytes s < bytes_of t →
  ∃ p q, t = p ++ q ∧ p ≠ [] ∧ maxRollingBytes s - 3 <= bytes_of q <= maxRollingBytes s ∧
    trimTail s = with_tail (of_code_points q) (bytes_of q) (bool_decide (last p = Some NL)) s.
Proof.
  intros Ht Htext HM. unfold trimTail. rewrite Htext, encode_cps by done. cbv zeta. unfold bytes_of in HM.
  rewrite (proj2 (Z.leb_gt _ _)) by lia.
  set (n := Z.to_nat (Z.of_nat (length (utf8_of_cps t)) - maxRollingBytes s)).
  destruct (skip_cont_drop n t Ht) as (k&Hk&Hlen). pose proof (skip_cont_length (drop n (utf8_of_cps t))) as Hle.
  rewrite Hk in Hle |- *. exists (take k t), (drop k t).
  pose proof (take_drop k t) as Htd. set (p := take k t) in *. set (q := drop k t) in *.
  rewrite <-Htd in Ht. apply Forall_app in Ht as [Hp Hq]. rewrite length_drop in Hlen, Hle.
  rewrite utf8_decode_cps by done. rewrite byteLength_of_code_points by done. fold (bytes_of q).
  assert (length (utf8_of_cps t) = length (utf8_of_cps p) + length (utf8_of_cps q))%nat as Hsum
    by (by rewrite <-Htd, utf8_of_cps_app, length_app).
  destruct (length (utf8_of_cps p)) as [|i] eqn:Ei; [unfold n in *; lia|].
  split; [done|]. split; [by intros ->|]. split; [unfold bytes_of, n in *; lia|].
  replace (length (utf8_of_cps t) - length (utf8_of_cps q))%nat with (S i) by lia.
  rewrite <-Htd, utf8_of_cps_app. by rewrite ends_in_newline.
Qed.

(** What the kept tail is: the end of the text, enough of it, and whether it
    starts a line. *)
Record tail_ok (M : Z) (pre tl : list Z) (s : OutputAccumulator) : Prop := {
  tk_text : tailText s = of_code_points tl;
  tk_bytes : tailBytes s = bytes_of tl;
  tk_boundary : tailStartsAtLineBoundary s = bool_decide (pre = [] ∨ last pre = Some NL);
  tk_enough : pre ≠ [] → M - 3 <= bytes_of tl;
  tk_bounded : bytes_of tl <= 2 * M
}.

Lemma tail_grows s pre tl cps boundary : Forall is_scalar (tl ++ cps) → 0 < maxRollingBytes s →
  boundary = bool_decide (pre = [] ∨ last pre = Some NL) → (pre ≠ [] → maxRollingBytes s - 3 <= bytes_of tl) →
  let s1 := with_tail (of_code_points (tl ++ cps)) (bytes_of (tl ++ cps)) boundary s in
  ∃ pre' tl', pre ++ tl ++ cps = pre' ++ tl' ∧
    tail_ok (maxRollingBytes s) pre' tl' (if maxRollingBytes s1 * 2 <? tailBytes s1 then trimTail s1 else s1).
Proof.
  intros Hok HM Hb Hen s1. change (maxRollingBytes s1) with (maxRollingBytes s).
  change (tailBytes s1) with (bytes_of (tl ++ cps)). destruct (Z.ltb_spec (maxRollingBytes s * 2) (bytes_of (tl ++ cps))) as [Hlt|Hge].
  - destruct (trim_spec s1 (tl ++ cps)) as (p&q&Hpq&Hp&Hbq&->); [done|done|cbn; lia|]. change (maxRollingBytes s1) with (maxRollingBytes s) in Hbq.
    exists (pre ++ p), q. split; [by rewrite <-app_assoc, Hpq|]. split; try done; cbn [tailStartsAtLineBoundary with_tail]; [|lia..].
    apply bool_decide_ext. rewrite last_app. destruct (last p) eqn:E; [|by apply last_None in E].
    split; [by right|]. intros [[_ ?]%app_nil|?]; done.
  - exists pre, (tl ++ cps). split; [done|]. split; try done; [|lia]. intros Hp. rewrite bytes_of_app. pose proof (bytes_of_nonneg cps).
    specialize (Hen Hp). lia.
Qed.

(** ** The counts *)

Record text_ok (cps : list Z) (s : OutputAccumulator) : Prop := {
  tx_rolling : 0 < maxRollingBytes s;
  tx_tail : ∃ pre tl, cps = pre ++ tl ∧ tail_ok (maxRollingBytes s) pre tl s;
  tx_decoded : totalDecodedBytes s = bytes_of cps;
  tx_lines : totalLines s = 1 + newlines cps;
  tx_current : currentLineBytes s = bytes_of (last_line cps)
}.

(** What appending text leaves alone. *)
Definition rest_of (s : OutputAccumulator) :=
  (maxLines s, maxBytes s, maxRollingBytes s, decoder s, totalRawBytes s, finished s,
   (rawChunks s, tempFilePath s, tempFileStream s, tempFile s)).

Lemma rest_trimTail s : rest_of (trimTail s) = rest_of s.
Proof. unfold trimTail. cbv zeta. by destruct (_ <=? _). Qed.

Lemma rest_appendDecodedText text s : rest_of (appendDecodedText text s) = rest_of s.
Proof.
  unfold appendDecodedText. destruct text as [|c text]; [done|]. cbv zeta.
  destruct (scan_newlines 0 (c :: text) 0 (-1)) as [n l].
  match goal with |- context [if ?b then trimTail ?x else _] =>
    assert (rest_of (if b then trimTail x else x) = rest_of s) as H by (destruct b; [by rewrite rest_trimTail|done]) end.
  by destruct (n =? 0).
Qed.

Lemma of_code_points_nil cps : of_code_points cps = [] → cps = [].
Proof.
  destruct cps as [|c cps]; [done|]. change (of_code_points (c :: cps)) with (units_of_cp c ++ of_code_points cps).
  unfold units_of_cp. by destruct (c <? _).
Qed.

Lemma bytes_cps cps : Forall is_scalar cps → byteLength (of_code_points cps) = bytes_of cps.
Proof. intros Hc. by rewrite byteLength_of_code_points. Qed.

Lemma text_ok_counts cps s d l c : text_ok cps s → d = bytes_of cps → l = 1 + newlines cps → c = bytes_of (last_line cps) →
  text_ok cps (with_counts d l c s).
Proof. intros [H1 (pre&tl&Hp&[]) _ _ _] -> -> ->. split; try done. exists pre, tl. by split. Qed.

(** Appending text to the state that holds [cps]. *)
Lemma appendDecodedText_ok cps new s : Forall is_scalar (cps ++ new) → text_ok cps s →
  text_ok (cps ++ new) (appendDecodedText (of_code_points new) s).
Proof.
  intros Hok [HM (pre&tl&Hcps&[Ht Hb Hs He Hbd]) Hd Hl Hcu].
  assert (Forall is_scalar cps ∧ Forall is_scalar new) as [Hc Hn] by by apply Forall_app.
  unfold appendDecodedText. destruct (of_code_points new) as [|x xs] eqn:Etext.
  { apply of_code_points_nil in Etext as ->. rewrite app_nil_r. split; try done. exists pre, tl. by split. }
  rewrite <-Etext. clear Etext x xs. cbv zeta. rewrite Ht, Hb, <-of_code_points_app, bytes_cps, <-bytes_of_app by done.
  destruct (tail_grows s pre tl new (tailStartsAtLineBoundary s)) as (pre'&tl'&Hcps'&Htk); try done.
  { rewrite Hcps, <-app_assoc in Hok. by apply Forall_app in Hok as [_ ?]. }
  match type of Htk with context [if ?b then ?x else ?y] => set (s2 := if b then x else y) in * end. cbv zeta in *.
  assert (maxRollingBytes s2 = maxRollingBytes s) as HM2.
  { assert (rest_of s2 = rest_of s) as [=] by (unfold s2; destruct (_ <? _); [by rewrite rest_trimTail|done]). done. }
  assert (∀ d l c, d = bytes_of (cps ++ new) → l = 1 + newlines (cps ++ new) → c = bytes_of (last_line (cps ++ new)) →
    text_ok (cps ++ new) (with_counts d l c s2)) as Hdone.
  { intros d l c -> -> ->. split; cbn [with_counts maxRollingBytes totalDecodedBytes totalLines currentLineBytes]; [lia| |done..].
    exists pre', tl'. rewrite Hcps, <-app_assoc, HM2. split; [done|]. by destruct Htk. }
  destruct (decide (NL ∈ new)) as [Hin|Hin].
  - destruct (last_newline new Hin) as (a&b&->&Hb').
    apply Forall_app in Hn as Hn'. destruct Hn' as [Ha [_ Hbs]%Forall_cons].
    rewrite of_code_points_app. change (of_code_points (NL :: b)) with (NL :: of_code_points b).
    rewrite scan_last by (by rewrite of_code_points_NL). rewrite newlines_cps by done.
    assert (0 <= newlines a) by (unfold newlines; lia). rewrite (proj2 (Z.eqb_neq _ _)) by lia.
    apply Hdone; [by rewrite Hd, <-bytes_of_app|rewrite Hl, !newlines_app; change (newlines (NL :: b)) with (newlines ([NL] ++ b))|].
    + rewrite newlines_app. change (newlines [NL]) with 1. rewrite (newlines_plain b) by done. lia.
    + rewrite app_assoc, last_line_NL, last_line_plain by done. rewrite <-bytes_cps by done. f_equal.
      replace (Z.to_nat (0 + Z.of_nat (length (of_code_points a)) + 1)) with (length (of_code_points a) + 1)%nat by lia.
      rewrite <-drop_drop, drop_app_length. done.
  - rewrite scan_plain by (by rewrite of_code_points_NL). rewrite Z.eqb_refl.
    apply Hdone; [by rewrite Hd, <-bytes_of_app|rewrite Hl, newlines_app, (newlines_plain new) by done; lia|].
    rewrite Hcu, last_line_app_plain, bytes_of_app by done. lia.
Qed.

(** ** Every state of an accumulator *)

Section reachable.
Context (defaultTempFilePath : jsstr → jsstr).

(** Where the bytes are. *)
Record file_ok (data : list Z) (s : OutputAccumulator) : Prop := {
  fl_none : tempFilePath s = None → tempFileStream s = false ∧ tempFile s = [] ∧ concat (rawChunks s) = data;
  fl_some : tempFilePath s ≠ None → rawChunks s = [] ∧ concat (tempFile s) = data;
  fl_open : finished s = false → tempFilePath s ≠ None → tempFileStream s = true
}.

Lemma ensure_ok data s : file_ok data s → file_ok data (ensureTempFile defaultTempFilePath s) ∧
  tempFilePath (ensureTempFile defaultTempFilePath s) ≠ None.
Proof.
  intros [Hn Hs Ho]. unfold ensureTempFile. destruct (tempFilePath s) as [p|] eqn:E; [split; [split|]; by rewrite E|].
  destruct (Hn eq_refl) as (H1&H2&H3). split; [|done]. split; [done| |done]. intros _. by split.
Qed.

Lemma write_ok data chunk s : file_ok data s → finished s = false → tempFilePath s ≠ None → file_ok (data ++ chunk) (write_file chunk s).
Proof.
  intros [Hn Hs Ho] Hf Hp. unfold write_file. rewrite (Ho Hf Hp). split; [done| |done]. intros _.
  destruct (Hs Hp) as [H1 H2]. split; [done|]. cbn [tempFile with_file]. rewrite concat_app, H2. cbn. by rewrite app_nil_r.
Qed.

Lemma keep_ok data chunk s : file_ok data s → tempFileStream s = false → finished s = false → chunk ≠ [] →
  file_ok (data ++ chunk) (with_file (rawChunks s ++ [chunk]) (tempFilePath s) (tempFileStream s) (tempFile s) s).
Proof.
  intros [Hn Hs Ho] Hst Hf Hc. assert (tempFilePath s = None) as Hp.
  { destruct (tempFilePath s) eqn:E; [|done]. exfalso. by rewrite Ho in Hst. }
  destruct (Hn Hp) as (H1&H2&H3). split; cbn [with_file tempFilePath tempFileStream tempFile rawChunks]; rewrite Hp; try done.
  intros _. split; [done|]. split; [done|]. rewrite concat_app, H3. cbn. by rewrite app_nil_r.
Qed.

(** An accumulator that was given [data], [over] once it was finished.  The file
    is closed after the end of the output, as its one user does. *)
Inductive accumulates (options : OutputAccumulatorOptions) : list Z → bool → OutputAccumulator → Prop :=
  | acc_new : accumulates options [] false (construct options)
  | acc_append data over s chunk s' : accumulates options data over s → Forall (λ b, 0 <= b < 256) chunk → append defaultTempFilePath chunk s = Ok s' →
      accumulates options (data ++ chunk) over s'
  | acc_finish data over s : accumulates options data over s → accumulates options data true (finish defaultTempFilePath s)
  | acc_snapshot data over s persist : accumulates options data over s →
      accumulates options data over (snapshot defaultTempFilePath persist s).1
  | acc_close data s : accumulates options data true s → accumulates options data true (closeTempFile s).

Record acc_ok (ml mb : Z) (data : list Z) (over : bool) (s : OutputAccumulator) : Prop := {
  ak_limits : maxLines s = ml ∧ maxBytes s = mb ∧ maxRollingBytes s = Z.max (mb * 2) 1;
  ak_over : finished s = over;
  ak_decoder : over = false → decoder s = decoder_at data;
  ak_text : text_ok (stream_cps data over) s;
  ak_raw : totalRawBytes s = Z.of_nat (length data);
  ak_file : file_ok data s;
  ak_used : shouldUseTempFile s = true → tempFilePath s ≠ None
}.

Lemma text_ok_ext cps s s' : text_ok cps s →
  (maxRollingBytes s', tailText s', tailBytes s', tailStartsAtLineBoundary s', totalDecodedBytes s', totalLines s', currentLineBytes s') =
  (maxRollingBytes s, tailText s, tailBytes s, tailStartsAtLineBoundary s, totalDecodedBytes s, totalLines s, currentLineBytes s) →
  text_ok cps s'.
Proof.
  intros [H1 (pre&tl&Hp&[]) H3 H4 H5] [= E1 E2 E3 E4 E5 E6 E7].
  split; rewrite ?E1, ?E5, ?E6, ?E7; try done. exists pre, tl. split; [done|]. by split; rewrite ?E2, ?E3, ?E4.
Qed.

Lemma file_ok_ext data s s' : file_ok data s → (rawChunks s', tempFilePath s', tempFileStream s', tempFile s') =
  (rawChunks s, tempFilePath s, tempFileStream s, tempFile s) → (finished s' = false → finished s = false) → file_ok data s'.
Proof. intros [H1 H2 H3] [= E1 E2 E3 E4] Hf. split; rewrite ?E1, ?E2, ?E3, ?E4; auto. Qed.

(** The temporary file is no part of the text. *)
Lemma acc_ok_file ml mb data over s raw path stream file : acc_ok ml mb data over s →
  let s' := with_file raw path stream file s in file_ok data s' → (path = None → tempFilePath s = None) → acc_ok ml mb data over s'.
Proof. intros [H1 H2 H3 H4 H5 H6 H7] s' Hf Hp. split; try done; [by apply (text_ok_ext _ s)|]. intros Hu Hn. by apply H7, Hp. Qed.

Lemma acc_ok_ensure ml mb data over s : acc_ok ml mb data over s → acc_ok ml mb data over (ensureTempFile defaultTempFilePath s).
Proof.
  intros Hs. destruct (ensure_ok data s) as [Hf _]; [apply Hs|]. unfold ensureTempFile in *. destruct (tempFilePath s); [done|].
  by apply acc_ok_file.
Qed.

(** A state is its own with its own file. *)
Lemma ensure_is s : ∃ raw path stream file, ensureTempFile defaultTempFilePath s = with_file raw path stream file s.
Proof. unfold ensureTempFile. destruct (tempFilePath s) eqn:E; [|by eauto]. destruct s. by repeat eexists. Qed.

Lemma write_is chunk s : ∃ stream file, write_file chunk s = with_file (rawChunks s) (tempFilePath s) stream file s.
Proof. unfold write_file. destruct (tempFileStream s) eqn:E; [by eauto|]. destruct s. by repeat eexists. Qed.

(** Where [append] puts the chunk. *)
Definition store_chunk (chunk : list Z) (s : OutputAccumulator) : OutputAccumulator :=
  if tempFileStream s || shouldUseTempFile s then write_file chunk (ensureTempFile defaultTempFilePath s)
  else match chunk with
       | [] => s
       | _ => with_file (rawChunks s ++ [chunk]) (tempFilePath s) (tempFileStream s) (tempFile s) s
       end.

Lemma store_chunk_spec data chunk s : file_ok data s → finished s = false →
  file_ok (data ++ chunk) (store_chunk chunk s) ∧
  (∃ raw path stream file, store_chunk chunk s = with_file raw path stream file s) ∧
  (shouldUseTempFile s = true → tempFilePath (store_chunk chunk s) ≠ None).
Proof.
  intros Hf Hfin. unfold store_chunk. destruct (tempFileStream s || shouldUseTempFile s) eqn:E.
  - destruct (ensure_ok data s Hf) as [He Hp]. destruct (ensure_is s) as (raw&path&stream&file&Hs).
    split; [apply write_ok; [done| |done]; by rewrite Hs|].
    destruct (write_is chunk (ensureTempFile defaultTempFilePath s)) as (st&fi&Hw). rewrite Hw. split; [|by intros _].
    rewrite Hs. by repeat eexists.
  - apply orb_false_iff in E as [E1 E2]. rewrite E2. destruct chunk as [|b chunk].
    + rewrite app_nil_r. split; [done|]. split; [|done]. destruct s. by repeat eexists.
    + split; [by apply keep_ok|]. split; [|done]. by repeat eexists.
Qed.

(** After the text, the file is settled. *)
Lemma settle ml mb data over s1 s2 : maxLines s1 = ml ∧ maxBytes s1 = mb ∧ maxRollingBytes s1 = Z.max (mb * 2) 1 →
  finished s1 = over → (over = false → decoder s1 = decoder_at data) → text_ok (stream_cps data over) s1 →
  totalRawBytes s1 = Z.of_nat (length data) → (∃ raw path stream file, s2 = with_file raw path stream file s1) →
  file_ok data s2 → (shouldUseTempFile s1 = true → tempFilePath s2 ≠ None) → acc_ok ml mb data over s2.
Proof. intros Hl Ho Hd Ht Hr (raw&path&stream&file&->) Hf Hu. split; try done. by apply (text_ok_ext _ s1). Qed.

Lemma append_keeps ml mb data over s chunk s' : Forall (λ b, 0 <= b) (data ++ chunk) → acc_ok ml mb data over s →
  append defaultTempFilePath chunk s = Ok s' → acc_ok ml mb (data ++ chunk) over s'.
Proof.
  intros Hb [Hl Ho Hd Ht Hr Hf Hu] Ha. unfold append in Ha. destruct (finished s) eqn:Hfin; [done|]. subst over.
  destruct (decode_step data chunk) as (new&Hdec&Hcps). rewrite (Hd eq_refl), Hdec in Ha.
  set (s0 := with_decoder (decoder_at (data ++ chunk)) (totalRawBytes s + Z.of_nat (length chunk)) s) in *.
  assert (text_ok (stream_cps data false) s0) as Ht0 by by apply (text_ok_ext _ s).
  pose proof (stream_cps_ok _ false Hb) as Hok. rewrite Hcps in Hok.
  pose proof (appendDecodedText_ok _ _ _ Hok Ht0) as Ht1. rewrite <-Hcps in Ht1.
  pose proof (rest_appendDecodedText (of_code_points new) s0) as Hrest.
  set (s1 := appendDecodedText (of_code_points new) s0) in *. injection Hrest as R1 R2 R3 R4 R5 R6 R7 R8 R9 R10.
  destruct (store_chunk_spec data chunk s1) as (F1&(raw&path&stream&file&F2)&F3);
    [apply (file_ok_ext _ s); [done|by rewrite R7, R8, R9, R10|done]|by rewrite R6|].
  injection Ha as <-. fold (store_chunk chunk s1). apply (settle _ _ _ _ s1); rewrite ?R1, ?R2, ?R3, ?R4, ?R5, ?R6; try done.
  - rewrite length_app. cbn [s0 with_decoder totalRawBytes]. rewrite Hr. lia.
  - by repeat eexists.
Qed.

Lemma finish_keeps ml mb data over s : Forall (λ b, 0 <= b) data → acc_ok ml mb data over s →
  acc_ok ml mb data true (finish defaultTempFilePath s).
Proof.
  intros Hb Hs. unfold finish. destruct (finished s) eqn:Hfin.
  { assert (over = true) as -> by (rewrite <-(ak_over _ _ _ _ _ Hs); done). done. }
  destruct Hs as [Hl Ho Hd Ht Hr Hf Hu]. rewrite Hfin in Ho. subst over. destruct (decode_last data) as (new&Hdec&Hcps).
  rewrite (Hd eq_refl). destruct (decode_end (decoder_at data)) as [d text]. cbn [snd] in Hdec. subst text.
  set (s0 := with_decoder d (totalRawBytes s) (with_finished s)).
  assert (text_ok (stream_cps data false) s0) as Ht0 by by apply (text_ok_ext _ s).
  pose proof (stream_cps_ok _ true Hb) as Hok. rewrite Hcps in Hok.
  pose proof (appendDecodedText_ok _ _ _ Hok Ht0) as Ht1. rewrite <-Hcps in Ht1.
  pose proof (rest_appendDecodedText (of_code_points new) s0) as Hrest.
  set (s1 := appendDecodedText (of_code_points new) s0) in *. injection Hrest as R1 R2 R3 R4 R5 R6 R7 R8 R9 R10.
  assert (file_ok data s1) as F by (apply (file_ok_ext _ s); [done|by rewrite R7, R8, R9, R10|done]).
  destruct (ensure_ok data s1 F) as [F1 F2]. pose proof (ensure_is s1) as F3.
  apply (settle _ _ _ _ s1); rewrite ?R1, ?R2, ?R3, ?R5, ?R6; try done; destruct (shouldUseTempFile s1); try done.
  destruct s1. by repeat eexists.
Qed.

Lemma close_keeps ml mb data s : acc_ok ml mb data true s → acc_ok ml mb data true (closeTempFile s).
Proof.
  intros Hs. unfold closeTempFile. destruct (tempFileStream s) eqn:E; [|done]. apply acc_ok_file; [done| |done].
  destruct (ak_file _ _ _ _ _ Hs) as [Hn Hp Ho]. split; [|done|].
  - intros Hx. by destruct (Hn Hx) as [Hy _]; rewrite E in Hy.
  - intros Hx. pose proof (ak_over _ _ _ _ _ Hs). cbn in Hx. congruence.
Qed.

Definition opt_ml (options : OutputAccumulatorOptions) : Z := default DEFAULT_MAX_LINES (ao_maxLines options).
Definition opt_mb (options : OutputAccumulatorOptions) : Z := default DEFAULT_MAX_BYTES (ao_maxBytes options).

Lemma construct_ok options : 1 <= opt_ml options → 0 <= opt_mb options →
  acc_ok (opt_ml options) (opt_mb options) [] false (construct options).
Proof.
  intros Hl Hb. split; try done.
  - split; try done; change (maxRollingBytes (construct options)) with (Z.max (opt_mb options * 2) 1); [lia|].
    exists [], []. split; [done|]. split; try done. change (bytes_of []) with 0. lia.
  - intros Hu. change (shouldUseTempFile (construct options)) with
      ((opt_mb options <? 0) || (opt_mb options <? 0) || (opt_ml options <? 1)) in Hu. rewrite !(proj2 (Z.ltb_ge _ _)) in Hu by lia. done.
Qed.

Lemma accumulates_ok options data over s : 1 <= opt_ml options → 0 <= opt_mb options → accumulates options data over s →
  Forall (λ b, 0 <= b) data ∧ acc_ok (opt_ml options) (opt_mb options) data over s.
Proof.
  intros Hl Hb. induction 1 as [|data over s chunk s' _ [IH1 IH2] Hc Ha|data over s _ [IH1 IH2]|data over s persist _ [IH1 IH2]|data s _ [IH1 IH2]].
  - split; [constructor|by apply construct_ok].
  - assert (Forall (λ b, 0 <= b) (data ++ chunk)) as Hall.
    { apply Forall_app. split; [done|]. eapply Forall_impl; [exact Hc|]. cbn. lia. }
    split; [done|]. by eapply append_keeps.
  - split; [done|]. by eapply finish_keeps.
  - split; [done|]. cbn [snapshot fst]. destruct (persist && _); [by apply acc_ok_ensure|done].
  - split; [done|]. by apply close_keeps.
Qed.

(** ** What is displayed *)

Lemma after_newline_None (s : jsstr) : NL ∉ s → after_newline s = None.
Proof.
  induction s as [|c s IH]; [done|]. rewrite not_elem_of_cons. intros [Hc Hs]. cbn [after_newline].
  rewrite (proj2 (Z.eqb_neq c NL)) by congruence. by apply IH.
Qed.

Lemma after_newline_Some (a b : jsstr) : NL ∉ a → after_newline (a ++ NL :: b) = Some b.
Proof.
  induction a as [|c a IH]; [done|]. rewrite not_elem_of_cons. intros [Hc Ha]. cbn [app after_newline].
  rewrite (proj2 (Z.eqb_neq c NL)) by congruence. by apply IH.
Qed.

Lemma last_line_last (s : jsstr) : last (js_split NL s) = Some (last_line s).
Proof.
  unfold last_line. pose proof (js_split_nonempty NL s). destruct (last (js_split NL s)) eqn:E; [done|]. by apply last_None in E.
Qed.

Lemma end_of_text ml mb pre tl s : 4 <= mb → Forall is_scalar (pre ++ tl) → tail_ok (Z.max (mb * 2) 1) pre tl s →
  let opts := MkTruncationOptions (Some ml) (Some mb) in
  same_end ml (truncateTail (getSnapshotText s) opts) (truncateTail (of_code_points (pre ++ tl)) opts) ∧
  (pre ≠ [] → mb < bytes_of (pre ++ tl)) ∧ (pre = [] → getSnapshotText s = of_code_points tl).
Proof.
  intros Hmb Hok [Ht _ Hs He _] opts. unfold getSnapshotText. rewrite Hs, Ht. clear Ht Hs.
  assert (pre ≠ [] → mb < bytes_of tl) as Hlong by (intros Hp; specialize (He Hp); lia). pose proof (bytes_of_nonneg pre).
  split; [|split; [intros Hp; rewrite bytes_of_app; specialize (Hlong Hp); lia|intros ->; by rewrite bool_decide_true by auto]].
  apply Forall_app in Hok as [Hp Hq]. destruct (decide (pre = [])) as [->|Hpre].
  { rewrite bool_decide_true by auto. apply same_end_refl. }
  specialize (Hlong Hpre). case_bool_decide as Hb.
  - destruct Hb as [|[x Hx]%last_Some]; [done|]. subst pre. apply Forall_app in Hp as [Hx _].
    rewrite <-app_assoc. cbn [app]. rewrite of_code_points_app. change (of_code_points (NL :: tl)) with (NL :: of_code_points tl).
    apply (end_after_line ml mb _ _ (last_line (of_code_points x))); [lia| |apply last_line_last|left; by rewrite bytes_cps].
    rewrite byteLength_app_NL, (bytes_cps tl) by done. pose proof (byteLength_nonneg (of_code_points x)). lia.
  - destruct (decide (NL ∈ tl)) as [Hin|Hin].
    + apply list_elem_of_split_l in Hin as (z&b&->&Hz). apply Forall_app in Hq as [Hqz [_ Hqb]%Forall_cons].
      rewrite of_code_points_app. change (of_code_points (NL :: b)) with (NL :: of_code_points b).
      rewrite after_newline_Some by (by rewrite of_code_points_NL). change (default ?d (Some ?x)) with x.
      rewrite app_assoc, of_code_points_app. change (of_code_points (NL :: b)) with (NL :: of_code_points b).
      rewrite bytes_of_app in Hlong. change (NL :: b) with ([NL] ++ b) in Hlong. rewrite bytes_of_app in Hlong. change (bytes_of [NL]) with 1 in Hlong.
      apply (end_after_line ml mb _ _ (last_line (of_code_points (pre ++ z)))); [lia| |apply last_line_last|].
      * rewrite byteLength_app_NL, !bytes_cps, bytes_of_app by (by try apply Forall_app). lia.
      * right. rewrite last_line_cps, last_line_app_plain, of_code_points_app by (by try apply Forall_app).
        pose proof (js_split_Forall is_scalar NL pre Hp) as Hls. pose proof (last_line_last pre) as Hll.
        apply last_Some in Hll as [ls Hll]. rewrite Hll in Hls. apply Forall_app in Hls as [_ [Hl _]%Forall_cons].
        rewrite <-of_code_points_app, !bytes_cps, bytes_of_app by (by try apply Forall_app).
        pose proof (bytes_of_nonneg (last_line pre)). lia.
    + rewrite after_newline_None by (by rewrite of_code_points_NL). change (default ?d None) with d.
      by apply end_of_line; [..|lia].
Qed.

(** Chunks one after the other. *)
Definition feed (chunks : list (list Z)) (s : OutputAccumulator) : OutputAccumulator :=
  foldl (λ s c, match append defaultTempFilePath c s with Ok s' => s' | Throw _ => s end) s chunks.

Lemma feed_accumulates options chunks data s : 1 <= opt_ml options → 0 <= opt_mb options → accumulates options data false s →
  Forall (Forall (λ b, 0 <= b < 256)) chunks → accumulates options (data ++ concat chunks) false (feed chunks s).
Proof.
  intros Hl Hb Hs Hc. revert data s Hs. induction Hc as [|c chunks Hc _ IH]; intros data s Hs; cbn [concat]; [by rewrite app_nil_r|].
  rewrite app_assoc. unfold feed. cbn [foldl]. apply IH. destruct (append defaultTempFilePath c s) as [s'|e] eqn:E; [by eapply acc_append|].
  destruct (accumulates_ok options data false s Hl Hb Hs) as [_ Hok]. pose proof (ak_over _ _ _ _ _ Hok) as Hf.
  unfold append in E. rewrite Hf in E. by destruct (decode_stream c (decoder s)).
Qed.

(** A displayed result and the result of truncating the whole text: equal, but
    for the limit that is named when exactly [ml] whole lines are shown. *)
Record same_display (ml : Z) (r r' : TruncationResult) : Prop := {
  sd_content : tr_content r = tr_content r';
  sd_truncated : tr_truncated r = tr_truncated r';
  sd_total : tr_totalLines r = tr_totalLines r' ∧ tr_totalBytes r = tr_totalBytes r';
  sd_output : tr_outputLines r = tr_outputLines r' ∧ tr_outputBytes r = tr_outputBytes r';
  sd_partial : tr_lastLinePartial r = tr_lastLinePartial r' ∧ tr_firstLineExceedsLimit r = tr_firstLineExceedsLimit r';
  sd_limits : tr_maxLines r = tr_maxLines r' ∧ tr_maxBytes r = tr_maxBytes r';
  sd_by : tr_truncatedBy r = tr_truncatedBy r' ∨
    (tr_outputLines r = ml ∧ tr_lastLinePartial r = false ∧ tr_truncatedBy r' = Some ByLines)
}.

(** What [truncateTail] reports, whatever it shows. *)
Lemma truncateTail_report ml mb (s : jsstr) : let r := truncateTail s (MkTruncationOptions (Some ml) (Some mb)) in
  tr_truncated r = ((ml <? tr_totalLines r) || (mb <? tr_totalBytes r)) ∧
  tr_totalLines r = 1 + newlines s ∧ tr_totalBytes r = byteLength s ∧ tr_maxLines r = ml ∧ tr_maxBytes r = mb ∧
  (if tr_truncated r then ∃ by1, tr_truncatedBy r = Some by1 else tr_truncatedBy r = None).
Proof.
  intros r. subst r. rewrite <-length_js_split. destruct (decide (fits ml mb (reverse (js_split NL s)) [])) as [Hf|Hf].
  - rewrite truncateTail_whole by done. apply fits_text in Hf as [H1 H2]. cbn [untruncated tr_truncated tr_totalLines tr_totalBytes].
    by rewrite !(proj2 (Z.ltb_ge _ _)) by done.
  - rewrite truncateTail_cut by done. destruct (tail_loop _ _ _ _ _) as [[[out bytes] by1] part].
    cbn [tr_truncated tr_totalLines tr_totalBytes tr_maxLines tr_maxBytes tr_truncatedBy].
    split; [|by eauto 10]. symmetry. apply orb_true_iff. rewrite fits_text in Hf. rewrite !Z.ltb_lt. lia.
Qed.

(** C18: [equivalence] However the output is cut into chunks - inside characters,
    lines or the byte order mark - and whatever was dropped from memory since,
    the snapshot shows exactly what [truncateTail] shows of the whole decoded
    text: content, counts, flags and totals.  Only the limit that is named may
    differ, when exactly the permitted number of whole lines is shown.  At least
    four bytes must be permitted. *)
Theorem snapshot_is_truncateTail options data over s persist :
  1 <= opt_ml options → 4 <= opt_mb options → accumulates options data over s →
  let shown := (snapshot defaultTempFilePath persist s).2 in
  same_display (opt_ml options) (sn_truncation shown)
    (truncateTail (stream_text data over) (MkTruncationOptions (Some (opt_ml options)) (Some (opt_mb options)))) ∧
  sn_content shown = tr_content (sn_truncation shown).
Proof.
  intros Hl Hb Hs shown. split; [|done]. destruct (accumulates_ok options data over s) as [Hd Hok]; [done|lia|done|].
  destruct Hok as [(L1&L2&L3) _ _ [_ (pre&tl&Hcps&Htl) T1 T2 _] _ _ _]. rewrite L3 in Htl.
  pose proof (stream_cps_ok data over Hd) as Hsc. unfold stream_text.
  pose proof Hsc as Hsc'. rewrite Hcps in Hsc'.
  destruct (end_of_text (opt_ml options) (opt_mb options) pre tl s Hb Hsc' Htl) as ([E1 E2 E3 E4 E5 E6]&Hlong&Hwhole). rewrite <-Hcps in *.
  set (opts := MkTruncationOptions (Some (opt_ml options)) (Some (opt_mb options))) in *.
  pose proof (truncateTail_report (opt_ml options) (opt_mb options) (of_code_points (stream_cps data over))) as (R1&R2&R3&R4&R5&R6).
  fold opts in R1, R2, R3, R4, R5, R6. rewrite newlines_cps in R2 by done. rewrite bytes_cps in R3 by done.
  subst shown. cbn [snapshot snd sn_truncation]. rewrite L1, L2, T1, T2. fold opts.
  set (r := truncateTail (getSnapshotText s) opts) in *. set (r' := truncateTail (of_code_points (stream_cps data over)) opts) in *.
  split; cbn [tr_content tr_truncated tr_totalLines tr_totalBytes tr_outputLines tr_outputBytes tr_lastLinePartial
    tr_firstLineExceedsLimit tr_maxLines tr_maxBytes tr_truncatedBy]; try done.
  - by rewrite R1, R2, R3.
  - rewrite R2, R3 in R1. rewrite <-R1. destruct (tr_truncated r') eqn:Et; [|by rewrite R6; left].
    destruct R6 as [by1 R6]. destruct E6 as [E6|E6]; [|by right]. left. rewrite R6 in *. f_equal. cbn in E6. subst by1.
    destruct (decide (pre = [])) as [Hp|Hp].
    + subst pre. cbn [app] in Hcps. assert (r = r') as ->; [|by rewrite R6]. unfold r, r'. rewrite Hwhole by done. by rewrite Hcps.
    + rewrite (proj2 (Z.ltb_lt _ _)) by auto. done.
Qed.

(** [bounds] Memory is bounded whatever the length of the output: the text
    kept has at most twice the rolling limit (four times [maxBytes]), the chunks
    kept in memory at most [maxBytes] bytes.  Nothing is lost: the chunks in
    memory or the chunks in the file are all the bytes of the output, in order,
    and there is a file as soon as the output exceeds a limit - or, on request,
    when the snapshot is truncated. *)
Theorem full_output_kept options data over s : 1 <= opt_ml options → 0 <= opt_mb options → accumulates options data over s →
  byteLength (tailText s) <= 2 * Z.max (2 * opt_mb options) 1 ∧
  Z.of_nat (length (concat (rawChunks s))) <= opt_mb options ∧
  (match tempFilePath s with None => concat (rawChunks s) | Some _ => concat (tempFile s) end = data) ∧
  (opt_mb options < Z.of_nat (length data) ∨ opt_ml options < totalLines s ∨ opt_mb options < totalDecodedBytes s → tempFilePath s ≠ None) ∧
  (let '(s', shown) := snapshot defaultTempFilePath true s in
   tr_truncated (sn_truncation shown) = true → ∃ path, sn_fullOutputPath shown = Some path ∧ tempFilePath s' = Some path ∧
     concat (tempFile s') = data).
Proof.
  intros Hl Hb Hs. destruct (accumulates_ok options data over s Hl Hb Hs) as [Hd [(L1&L2&L3) _ _ [_ (pre&tl&Hcps&Htl) _ _ _] R F U]].
  pose proof (stream_cps_ok data over Hd) as Hsc. rewrite Hcps in Hsc. apply Forall_app in Hsc as [_ Htlok].
  destruct (ensure_ok data s F) as [FE PE]. destruct F as [F1 F2 F3]. unfold shouldUseTempFile in U. rewrite L1, L2, R in U.
  split; [|split; [|split; [|split]]].
  - destruct Htl as [-> _ _ _ Hx]. rewrite bytes_cps by done. rewrite L3 in Hx. lia.
  - destruct (tempFilePath s) as [p|] eqn:E; [destruct (F2 ltac:(done)) as [-> _]; cbn; lia|].
    destruct (F1 eq_refl) as (_&_&->). destruct (Z.leb_spec (Z.of_nat (length data)) (opt_mb options)) as [|Hgt]; [done|].
    exfalso. apply U; [|done]. by rewrite (proj2 (Z.ltb_lt _ _)) by done.
  - destruct (tempFilePath s) as [p|] eqn:E; [by apply F2|by apply F1].
  - intros Hx. apply U. rewrite !orb_true_iff, !Z.ltb_lt. tauto.
  - destruct (snapshot defaultTempFilePath true s) as [s' shown] eqn:E. injection E as Es' Eshown. subst shown. cbn [sn_truncation tr_truncated sn_fullOutputPath].
    intros Ht. rewrite Ht in Es'. cbn [andb] in Es'. rewrite Ht. cbn [andb]. subst s'.
    destruct (tempFilePath (ensureTempFile defaultTempFilePath s)) as [path|] eqn:Ep; [|done]. exists path. split; [done|]. split; [done|].
    apply (fl_some _ _ FE). by rewrite Ep.
Qed.
End reachable.

(** ** Witnesses *)

Section witness.
#[local] Abbreviation tmp := (λ prefix : jsstr, js "/tmp/" ++ prefix ++ js "-0.log").
#[local] Abbreviation small := (MkAccOptions (Some 3) (Some 8) None).

(** "ab", a newline and an e with an accent, cut inside the accented character;
    then thirty letters and "x", a newline, "yz". *)
Definition sample_chunks : list (list Z) :=
  [[97; 98; 10; 0xC3]; [0xA9; 10] ++ repeat 98 30; [120; 10; 121; 122]].

Definition sample_output : OutputAccumulator :=
  finish tmp (feed tmp sample_chunks (construct small)).

Lemma sample_accumulates : accumulates tmp small (concat sample_chunks) true sample_output.
Proof.
  apply (acc_finish _ _ _ false), (feed_accumulates _ _ _ []); [done|done|apply acc_new|].
  unfold sample_chunks. rewrite !Forall_cons, Forall_nil, Forall_app. cbn. repeat (split || constructor); lia.
Qed.

Lemma snapshot_is_truncateTail_witness :
  accumulates tmp small (concat sample_chunks) true sample_output ∧
  (tailStartsAtLineBoundary sample_output = false ∧ tr_truncated (sn_truncation (snapshot tmp false sample_output).2) = true) ∧
  tr_content (sn_truncation (snapshot tmp false sample_output).2) = js "yz" ∧
  same_display 3 (sn_truncation (snapshot tmp false sample_output).2)
    (truncateTail (stream_text (concat sample_chunks) true) (MkTruncationOptions (Some 3) (Some 8))).
Proof.
  split; [apply sample_accumulates|]. split; [split; vm_compute; reflexivity|]. split; [vm_compute; reflexivity|].
  refine (proj1 (snapshot_is_truncateTail tmp small (concat sample_chunks) true sample_output false _ _ sample_accumulates));
    vm_compute; discriminate.
Defined.

Lemma full_output_kept_witness :
  accumulates tmp small (concat sample_chunks) true sample_output ∧
  (tempFilePath sample_output = Some (js "/tmp/pi-output-0.log") ∧
   (match tempFilePath sample_output with None => concat (rawChunks sample_output) | Some _ => concat (tempFile sample_output) end =
    concat sample_chunks)).
Proof.
  split; [apply sample_accumulates|]. split; [vm_compute; reflexivity|].
  refine (proj1 (proj2 (proj2 (full_output_kept tmp small (concat sample_chunks) true sample_output _ _ sample_accumulates))));
    vm_compute; discriminate.
Defined.
End witness.
