(* ===== verification/Json.v ===== *)
(** * JSON values and [JSON.stringify]

    The records this program persists are JSON objects, one per line.  This
    file models the values (numbers restricted to integers, which is all the
    modelled code stores) and the serializer of the language.  The fact the
    line-oriented stores rely on is [stringify_no_NL]: the text of a value never
    contains a newline, so one record is one line. *)

From S2P Require Import Prelude JsString.

Set Warnings "-register-all".

Inductive json : Type :=
| JNull
| JBool (b : bool)
| JNum (z : Z)
| JStr (s : jsstr)
| JArr (l : list json)
| JObj (fields : list (jsstr * json)).

(** Induction with hypotheses for the elements of arrays and objects. *)
Section json_ind.
  Context (P : json → Prop).
  Context (Hnull : P JNull) (Hbool : ∀ b, P (JBool b)) (Hnum : ∀ z, P (JNum z))
    (Hstr : ∀ s, P (JStr s)) (Harr : ∀ l, Forall P l → P (JArr l))
    (Hobj : ∀ fs, Forall (λ kv, P kv.2) fs → P (JObj fs)).

Fixpoint json_ind' (j : json) : P j :=
    match j with
    | JNull => Hnull
    | JBool b => Hbool b
    | JNum z => Hnum z
    | JStr s => Hstr s
    | JArr l => Harr l ((fix go l : Forall P l :=
        match l with
        | [] => Forall_nil_2 _
        | x :: l => Forall_cons_2 _ _ _ (json_ind' x) (go l)
        end) l)
    | JObj fs => Hobj fs ((fix go l : Forall (λ kv : jsstr * json, P kv.2) l :=
        match l with
        | [] => Forall_nil_2 _
        | kv :: l => Forall_cons_2 _ _ _ (json_ind' kv.2) (go l)
        end) fs)
    end.
End json_ind.

Fixpoint json_eqb (a b : json) {struct a} : bool :=
  match a, b with
  | JNull, JNull => true
  | JBool x, JBool y => Bool.eqb x y
  | JNum x, JNum y => x =? y
  | JStr x, JStr y => bool_decide (x = y)
  | JArr x, JArr y =>
      (fix go x y := match x, y with
        | [], [] => true
        | a :: x, b :: y => json_eqb a b && go x y
        | _, _ => false
        end) x y
  | JObj x, JObj y =>
      (fix go x y := match x, y with
        | [], [] => true
        | a :: x, b :: y => bool_decide (a.1 = b.1) && json_eqb a.2 b.2 && go x y
        | _, _ => false
        end) x y
  | _, _ => false
  end.

Lemma json_eqb_eq a b : json_eqb a b = true ↔ a = b.
Proof.
  revert b. induction a as [|x|x|x|l IH|fs IH] using json_ind'; intros [|y|y|y|k|gs]; cbn; try done.
  - rewrite Bool.eqb_true_iff. naive_solver.
  - rewrite Z.eqb_eq. naive_solver.
  - rewrite bool_decide_eq_true. naive_solver.
  - revert k. induction IH as [|a l Ha Hl IH]; intros [|b k]; cbn; try done.
    rewrite andb_true_iff, Ha, IH. naive_solver.
  - revert gs. induction IH as [|[k a] l Ha Hl IH]; intros [|[k' b] gs]; cbn in *; try done.
    rewrite !andb_true_iff, Ha, IH, bool_decide_eq_true. naive_solver.
Qed.

#[export] Instance json_eq_dec : EqDecision json.
Proof.
  intros a b. destruct (json_eqb a b) eqn:E; [left|right].
  - by apply json_eqb_eq.
  - intros ->. by rewrite (proj2 (json_eqb_eq b b)) in E.
Defined.

(** ** JSON.stringify *)

Definition hex_digit (d : Z) : Z := if d <? 10 then 48 + d else 87 + d.

(** [\uXXXX] with lower-case hexadecimal digits. *)
Definition unicode_escape (c : Z) : jsstr :=
  js "\u" ++ [hex_digit (c / 4096); hex_digit ((c / 256) mod 16);
              hex_digit ((c / 16) mod 16); hex_digit (c mod 16)].

Definition quote_unit (c : Z) : jsstr :=
  if c =? 8 then js "\b" else if c =? 9 then js "\t" else if c =? 10 then js "\n"
  else if c =? 12 then js "\f" else if c =? 13 then js "\r"
  else if c =? 34 then [92; 34] else if c =? 92 then [92; 92]
  else if c <? 32 then unicode_escape c else [c].

Fixpoint quote_units (s : jsstr) : jsstr :=
  match s with
  | [] => []
  | c :: s' =>
      if is_high c then
        match s' with
        | d :: s'' =>
            if is_low d then c :: d :: quote_units s''
            else unicode_escape c ++ quote_units s'
        | [] => unicode_escape c
        end
      else if is_low c then unicode_escape c ++ quote_units s'
      else quote_unit c ++ quote_units s'
  end.

Definition quote (s : jsstr) : jsstr := [34] ++ quote_units s ++ [34].

Fixpoint stringify (j : json) : jsstr :=
  match j with
  | JNull => js "null"
  | JBool b => if b then js "true" else js "false"
  | JNum z => js_of_Z z
  | JStr s => quote s
  | JArr l => js "[" ++ js_join (js ",") ((fix go l := match l with
      | [] => []
      | x :: l => stringify x :: go l
      end) l) ++ js "]"
  | JObj fs => js "{" ++ js_join (js ",") ((fix go l := match l with
      | [] => []
      | (k, x) :: l => (quote k ++ js ":" ++ stringify x) :: go l
      end) fs) ++ js "}"
  end.

(** ** No newline in the text of a value *)

Definition plain (s : jsstr) : Prop := Forall (λ c, c ≠ NL) s.

Lemma plain_not_elem s : plain s ↔ NL ∉ s.
Proof.
  unfold plain. rewrite Forall_forall. split; [intros H Hin; by apply (H NL)|].
  intros H c Hc ->. done.
Qed.

Lemma plain_app a b : plain a → plain b → plain (a ++ b).
Proof. apply Forall_app_2. Qed.

Lemma plain_js (s : string) :
  forallb (λ c, negb (c =? NL)) (js s) = true → plain (js s).
Proof.
  rewrite forallb_Forall. intros H. eapply Forall_impl; [exact H|].
  intros c. cbn beta. by intros ?%negb_true_iff%Z.eqb_neq.
Qed.

Lemma plain_join sep ls : plain sep → Forall plain ls → plain (js_join sep ls).
Proof.
  intros Hsep. induction 1 as [|l ls Hl Hls IH]; [constructor|].
  destruct ls as [|l' ls]; [done|]. rewrite js_join_cons by done.
  auto using plain_app.
Qed.

Lemma hex_digit_plain d : 0 <= d < 16 → hex_digit d ≠ NL.
Proof. unfold hex_digit, NL. destruct (Z.ltb_spec d 10); lia. Qed.

Lemma unicode_escape_plain c : 0 <= c < 0x10000 → plain (unicode_escape c).
Proof.
  intros Hc. unfold unicode_escape. apply plain_app; [by apply plain_js|].
  assert (0 <= c / 4096 < 16) by (split; [apply Z.div_pos|apply Z.div_lt_upper_bound]; lia).
  pose proof (Z.mod_pos_bound (c / 256) 16). pose proof (Z.mod_pos_bound (c / 16) 16).
  pose proof (Z.mod_pos_bound c 16). repeat constructor; apply hex_digit_plain; lia.
Qed.

Lemma quote_unit_plain c : 0 <= c < 0x10000 → plain (quote_unit c).
Proof.
  intros Hc. unfold quote_unit.
  repeat match goal with |- context [if ?b then _ else _] =>
    let E := fresh in destruct b eqn:E; [first [by apply plain_js|by apply unicode_escape_plain
      |by repeat constructor; unfold NL; lia]|] end.
  repeat constructor. intros ->. unfold NL in *. done.
Qed.

Lemma quote_units_plain s : Forall is_unit s → plain (quote_units s).
Proof.
  remember (length s) as n eqn:Hn. revert s Hn. induction (lt_wf n) as [n _ IH].
  intros [|c s'] -> Hs; cbn [quote_units]; [constructor|].
  apply Forall_cons in Hs as [Hc Hs']. unfold is_unit in Hc.
  assert (plain (quote_units s')) by (eapply (IH (length s')); [cbn; lia|done|done]).
  destruct (is_high c) eqn:Hh.
  - destruct s' as [|d s'']; [by apply unicode_escape_plain|].
    destruct (is_low d) eqn:Hl; [|by apply plain_app; [apply unicode_escape_plain|]].
    apply Forall_cons in Hs' as [Hd Hs''].
    unfold is_high, is_low in *. apply andb_true_iff in Hh, Hl. rewrite !Z.leb_le in *.
    constructor; [unfold NL; lia|]. constructor; [unfold NL; lia|].
    eapply (IH (length s'')); [cbn; lia|done|done].
  - destruct (is_low c); apply plain_app; auto using unicode_escape_plain, quote_unit_plain.
Qed.

Lemma quote_plain s : Forall is_unit s → plain (quote s).
Proof.
  intros Hs. unfold quote. apply plain_app; [repeat constructor; unfold NL; lia|].
  apply plain_app; [by apply quote_units_plain|repeat constructor; unfold NL; lia].
Qed.

(** All the strings of a value are code unit sequences. *)
Fixpoint json_units (j : json) : Prop :=
  match j with
  | JStr s => Forall is_unit s
  | JArr l => (fix go l := match l with [] => True | x :: l => json_units x ∧ go l end) l
  | JObj fs => (fix go l := match l with
      | [] => True
      | (k, x) :: l => Forall is_unit k ∧ json_units x ∧ go l
      end) fs
  | _ => True
  end.

Lemma pretty_N_plain (n : N) : plain (js (pretty n)).
Proof.
  assert (∀ m s, plain (js s) → plain (js (pretty_N_go m s))) as Hgo.
  { intros m. induction (N.lt_wf_0 m) as [m _ IH]. intros s Hs.
    destruct (decide (0 < m)%N) as [Hm|Hm].
    - rewrite pretty_N_go_step by done. apply IH; [by apply N.div_lt|].
      unfold js in *. cbn. constructor; [|done].
      unfold pretty_N_char. repeat case_match; cbn; unfold NL; lia.
    - assert (m = 0%N) as -> by lia. by rewrite pretty_N_go_0. }
  unfold pretty, pretty_N. case_decide; [by apply plain_js|]. apply Hgo. constructor.
Qed.

Lemma js_of_Z_plain z : plain (js_of_Z z).
Proof.
  unfold js_of_Z, pretty, pretty_Z. destruct z as [|p|p]; [by apply plain_js|apply pretty_N_plain|].
  constructor; [done|apply (pretty_N_plain (Npos p))].
Qed.

Theorem stringify_no_NL j : json_units j → NL ∉ stringify j.
Proof.
  rewrite <-plain_not_elem. induction j as [|b|z|s|l IH|fs IH] using json_ind'; cbn [stringify json_units].
  - by intros _; apply plain_js.
  - intros _; destruct b; by apply plain_js.
  - intros _; apply js_of_Z_plain.
  - apply quote_plain.
  - intros Hl. apply plain_app; [by apply plain_js|]. apply plain_app; [|by apply plain_js].
    apply plain_join; [by apply plain_js|]. induction IH as [|x l Hx _ IHl]; [constructor|].
    destruct Hl as [Hxu Hl]. constructor; auto.
  - intros Hl. apply plain_app; [by apply plain_js|]. apply plain_app; [|by apply plain_js].
    apply plain_join; [by apply plain_js|]. induction IH as [|[k x] l Hx _ IHl]; [constructor|].
    destruct Hl as (Hk&Hxu&Hl). constructor; [|auto].
    apply plain_app; [by apply quote_plain|]. apply plain_app; [by apply plain_js|]. auto.
Qed.

Lemma stringify_nonempty j : stringify j ≠ [].
Proof.
  destruct j as [|b|z|s|l|fs]; cbn; try done; [by destruct b|].
  unfold js_of_Z. destruct z as [|p|p]; [done| |done].
  change (pretty (Z.pos p)) with (pretty (Npos p)).
  unfold pretty, pretty_N. rewrite decide_False by done.
  intros H. apply fmap_nil_inv in H.
  assert (∀ m s, (0 < m)%N ∨ s ≠ EmptyString →
    String.list_ascii_of_string (pretty_N_go m s) ≠ []) as Hgo; [|by eapply Hgo; [|exact H]; left].
  clear. intros m. induction (N.lt_wf_0 m) as [m _ IH]. intros s Hs.
  destruct (decide (0 < m)%N) as [Hm|Hm].
  - rewrite pretty_N_go_step by done. apply IH; [by apply N.div_lt|by right].
  - assert (m = 0%N) as -> by lia. rewrite pretty_N_go_0.
    destruct Hs as [|Hs]; [lia|]. by destruct s.
Qed.
