(* ===== verification/JsRegex.v ===== *)
(** * Regular expressions

    What the source uses of the regular expressions of its language, for
    [pattern.test(text)] with the flag [i] or on texts of one case: classes,
    sequences, alternatives, repetition, the anchors and word boundaries.

    A text is tested between two marks, [START] and [END], which no class of the
    source contains; [^] is the first mark, and a word boundary at the edge of a
    pattern is a character or mark that is no word character.  The matcher takes
    derivatives; [matches_spec] proves it equal to the relation [In_re]. *)

From S2P Require Import Prelude.
From S2P Require Import JsString.

Inductive re :=
  | Nul
  | Eps
  | Cls (p : Z → bool)
  | Seq (a b : re)
  | Alt (a b : re)
  | Star (a : re).

Inductive In_re : re → list Z → Prop :=
  | In_Eps : In_re Eps []
  | In_Cls p c : p c = true → In_re (Cls p) [c]
  | In_Seq a b s t : In_re a s → In_re b t → In_re (Seq a b) (s ++ t)
  | In_Alt_l a b s : In_re a s → In_re (Alt a b) s
  | In_Alt_r a b s : In_re b s → In_re (Alt a b) s
  | In_Star_nil a : In_re (Star a) []
  | In_Star_app a s t : In_re a s → In_re (Star a) t → In_re (Star a) (s ++ t).

(** ** The matcher *)

Fixpoint nullable (r : re) : bool :=
  match r with
  | Nul | Cls _ => false
  | Eps | Star _ => true
  | Seq a b => nullable a && nullable b
  | Alt a b => nullable a || nullable b
  end.

(** Sequences and alternatives without what never matches. *)
Definition seq' (a b : re) : re := match a, b with Nul, _ | _, Nul => Nul | Eps, r => r | _, _ => Seq a b end.
Definition alt' (a b : re) : re := match a, b with Nul, r | r, Nul => r | _, _ => Alt a b end.

Fixpoint deriv (c : Z) (r : re) : re :=
  match r with
  | Nul | Eps => Nul
  | Cls p => if p c then Eps else Nul
  | Seq a b => alt' (seq' (deriv c a) b) (if nullable a then deriv c b else Nul)
  | Alt a b => alt' (deriv c a) (deriv c b)
  | Star a => seq' (deriv c a) (Star a)
  end.

Fixpoint matches (r : re) (s : list Z) : bool :=
  match s with [] => nullable r | c :: s => matches (deriv c r) s end.

(** ** It is right *)

Lemma In_Nul s : ¬ In_re Nul s.
Proof. by inversion 1. Qed.

Lemma In_Seq_inv a b s : In_re (Seq a b) s ↔ ∃ s1 s2, s = s1 ++ s2 ∧ In_re a s1 ∧ In_re b s2.
Proof. split; [by inversion 1; subst; eauto|]. intros (?&?&->&?&?). by constructor. Qed.

Lemma In_Alt_inv a b s : In_re (Alt a b) s ↔ In_re a s ∨ In_re b s.
Proof. split; [by inversion 1; subst; auto|]. intros [?|?]; [by apply In_Alt_l|by apply In_Alt_r]. Qed.

Lemma In_Eps_inv s : In_re Eps s ↔ s = [].
Proof. split; [by inversion 1|]. intros ->. constructor. Qed.

Lemma In_Cls_inv p s : In_re (Cls p) s ↔ ∃ c, s = [c] ∧ p c = true.
Proof. split; [inversion 1; eauto|]. intros (?&->&?). by constructor. Qed.

Lemma nullable_spec r : nullable r = true ↔ In_re r [].
Proof.
  induction r as [| |p|a IHa b IHb|a IHa b IHb|a IHa]; cbn.
  - split; [done|by intros ?%In_Nul].
  - by rewrite In_Eps_inv.
  - rewrite In_Cls_inv. split; [done|by intros (?&?&_)].
  - rewrite andb_true_iff, IHa, IHb, In_Seq_inv. split.
    + intros [? ?]. by exists [], [].
    + by intros (s1&s2&[-> ->]%eq_sym%app_eq_nil&?&?).
  - by rewrite orb_true_iff, IHa, IHb, In_Alt_inv.
  - split; [constructor|done].
Qed.

Lemma In_Seq_Nul_l b s : ¬ In_re (Seq Nul b) s.
Proof. by intros (?&?&_&?%In_Nul&_)%In_Seq_inv. Qed.

Lemma In_Seq_Nul_r a s : ¬ In_re (Seq a Nul) s.
Proof. by intros (?&?&_&_&?%In_Nul)%In_Seq_inv. Qed.

Lemma In_Seq_Eps b s : In_re (Seq Eps b) s ↔ In_re b s.
Proof.
  rewrite In_Seq_inv. split; [by intros (?&?&->&->%In_Eps_inv&?)|]. intros ?. exists [], s. by rewrite In_Eps_inv.
Qed.

Lemma In_seq' a b s : In_re (seq' a b) s ↔ In_re (Seq a b) s.
Proof.
  pose proof (In_Seq_Nul_l b s). pose proof (In_Seq_Nul_r a s). pose proof (In_Seq_Eps b s). pose proof (In_Nul s).
  destruct a, b; cbn [seq']; tauto.
Qed.

Lemma In_alt' a b s : In_re (alt' a b) s ↔ In_re (Alt a b) s.
Proof.
  rewrite In_Alt_inv. pose proof (In_Nul s) as HN. unfold alt'.
  destruct a, b; rewrite ?In_Alt_inv; tauto.
Qed.

(** A non-empty text of a repetition begins with a non-empty text. *)
Lemma In_Star_cons a c s : In_re (Star a) (c :: s) ↔ ∃ s1 s2, s = s1 ++ s2 ∧ In_re a (c :: s1) ∧ In_re (Star a) s2.
Proof.
  split; [|by intros (s1&s2&->&?&?); apply (In_Star_app a (c :: s1))].
  remember (Star a) as r eqn:Er. remember (c :: s) as t eqn:Et. intros H. revert c s Et.
  induction H as [|p x Hp|a0 b0 s0 t0 Hs _ Ht _|a0 b0 s0 Hs _|a0 b0 s0 Hs _|a0|a0 s0 t0 Hs _ Ht IHt]; try done.
  injection Er as ->. intros c s Et. destruct s0 as [|c' s0]; [by apply IHt|].
  injection Et as -> <-. eauto.
Qed.

Lemma deriv_spec c r : ∀ s, In_re (deriv c r) s ↔ In_re r (c :: s).
Proof.
  induction r as [| |p|a IHa b IHb|a IHa b IHb|a IHa]; intros s; cbn.
  - split; by intros ?%In_Nul.
  - rewrite In_Eps_inv. split; [by intros ?%In_Nul|done].
  - rewrite In_Cls_inv. destruct (p c) eqn:Ep.
    + rewrite In_Eps_inv. split; [intros ->; eauto|]. by intros (?&[= <- ->]&_).
    + split; [by intros ?%In_Nul|]. intros (?&[= <- ->]&?). congruence.
  - rewrite In_alt', In_Alt_inv, In_seq', !In_Seq_inv. split.
    + intros [(s1&s2&->&?%IHa&?)|H]; [by exists (c :: s1), s2|]. destruct (nullable a) eqn:En; [|by apply In_Nul in H].
      apply IHb in H. exists [], (c :: s). split_and!; [done|by apply nullable_spec|done].
    + intros ([|c' s1]&s2&E&Ha&Hb); cbn in E.
      * subst s2. apply nullable_spec in Ha as ->. right. by apply IHb.
      * injection E as <- ->. left. exists s1, s2. split_and!; [done|by apply IHa|done].
  - by rewrite In_alt', !In_Alt_inv, IHa, IHb.
  - rewrite In_seq', In_Seq_inv, In_Star_cons. by setoid_rewrite IHa.
Qed.

Lemma matches_spec r s : matches r s = true ↔ In_re r s.
Proof.
  revert r. induction s as [|c s IH]; intros r; cbn; [apply nullable_spec|]. by rewrite IH, deriv_spec.
Qed.

(** ** Patterns *)

Definition START : Z := -1.
Definition END : Z := -2.

Definition opt (r : re) : re := Alt Eps r.
Definition plus (r : re) : re := Seq r (Star r).
Definition alts (l : list re) : re := foldr Alt Nul l.
Definition seqs (l : list re) : re := foldr Seq Eps l.

Definition chr (c : Z) : re := Cls (λ x, x =? c).
Definition lit (s : jsstr) : re := seqs (chr <$> s).
(** A class such as [[_ -]]. *)
Definition one_of (s : jsstr) : re := Cls (λ x, bool_decide (x ∈ s)).

Definition digit : re := Cls is_digit.
Definition white : re := Cls js_space.

(** [.]: no line terminator. *)
Definition dot : re := Cls (λ x, (0 <=? x) && negb (bool_decide (x ∈ ([10; 13; 0x2028; 0x2029] : list Z)))).

(** [\w], for texts of lower case and others. *)
Definition is_word (x : Z) : bool :=
  is_digit x || ((65 <=? x) && (x <=? 90)) || ((97 <=? x) && (x <=? 122)) || (x =? 95).

(** [\b] before or after a pattern whose edge is a word character. *)
Definition boundary : re := Cls (λ x, negb (is_word x)).

Definition anything : re := Star (Cls (λ _, true)).

(** A pattern anywhere in a marked text. *)
Definition found (r : re) (s : jsstr) : bool := matches (Seq anything (Seq r anything)) ([START] ++ s ++ [END]).

(** [pattern.test(text)] without and with the flag [i]; the pattern is written in
    lower case. *)
Definition test (r : re) (s : jsstr) : bool := found r s.
Definition test_i (r : re) (s : jsstr) : bool := found r (lower <$> s).

Lemma In_anything s : In_re anything s.
Proof. induction s as [|c s IH]; [constructor|]. apply (In_Star_app _ [c]); [by constructor|done]. Qed.

Lemma found_spec r s : found r s = true ↔ ∃ before m after, [START] ++ s ++ [END] = before ++ m ++ after ∧ In_re r m.
Proof.
  unfold found. rewrite matches_spec, In_Seq_inv. split.
  - intros (x&y&E&_&(m&z&->&?&_)%In_Seq_inv). eauto.
  - intros (x&m&z&E&Hm). exists x, (m ++ z). split_and!; [done|apply In_anything|].
    apply In_Seq_inv. exists m, z. split_and!; [done|done|apply In_anything].
Qed.

Lemma In_lit s t : In_re (lit s) t ↔ t = s.
Proof.
  unfold lit. revert t. induction s as [|c s IH]; intros t; cbn; [by rewrite In_Eps_inv|].
  rewrite In_Seq_inv. split.
  - intros (?&?&->&(x&->&?%Z.eqb_eq)%In_Cls_inv&->%IH). by subst.
  - intros ->. exists [c], s. split_and!; [done| |by apply IH]. constructor. apply Z.eqb_refl.
Qed.

Example test_word : test (seqs [boundary; lit (js "401"); boundary]) (js "status 401.") = true.
Proof. vm_compute. reflexivity. Qed.
Example test_word_no : test (seqs [boundary; lit (js "401"); boundary]) (js "x4011") = false.
Proof. vm_compute. reflexivity. Qed.
