(* ===== verification/JsonParse.v ===== *)
(** * [JSON.parse]

    The parser of the language for the JSON grammar: white space, literals,
    strings with their escapes, arrays and objects.  Numbers are integers as in
    [Json]; a number with a fraction or an exponent is not a value of the model
    and is not read.  A field given twice keeps its place and takes the last
    value; the language also moves fields whose names are array indices to the
    front, which the modelled records do not have.  Every parser returns the value and the text after it.

    [parse_stringify] is the round trip; [parse_prefix_object] says that no
    proper prefix of an object's text is a JSON text, which is what makes a torn
    write detectable. *)

From S2P Require Import Prelude.
From S2P Require Import JsMap.
From S2P Require Import JsString.
From S2P Require Import Json.

(** ** Tokens *)

Definition is_ws (c : Z) : bool := (c =? 32) || (c =? 9) || (c =? 10) || (c =? 13).

Fixpoint skip_ws (s : jsstr) : jsstr :=
  match s with
  | [] => []
  | c :: s' => if is_ws c then skip_ws s' else s
  end.

Definition is_dec (c : Z) : bool := (48 <=? c) && (c <=? 57).

Definition hex_val (c : Z) : option Z :=
  if is_dec c then Some (c - 48)
  else if (97 <=? c) && (c <=? 102) then Some (c - 87)
  else if (65 <=? c) && (c <=? 70) then Some (c - 55)
  else None.

(** The digits [a b c d] of [\uabcd]. *)
Definition hex4 (a b c d : Z) : option Z :=
  x ← hex_val a; y ← hex_val b; z ← hex_val c; w ← hex_val d;
  Some (((x * 16 + y) * 16 + z) * 16 + w).

(** The character after a backslash. *)
Definition unescape (c : Z) : option Z :=
  if (c =? 34) || (c =? 92) || (c =? 47) then Some c
  else if c =? 98 then Some 8
  else if c =? 102 then Some 12
  else if c =? 110 then Some 10
  else if c =? 114 then Some 13
  else if c =? 116 then Some 9
  else None.

(** The characters of a string after its opening quote. *)
Fixpoint parse_chars (s : jsstr) : option (jsstr * jsstr) :=
  match s with
  | [] => None
  | c :: s =>
      if c =? 34 then Some ([], s)
      else if c =? 92 then
        match s with
        | [] => None
        | e :: s =>
            if e =? 117 then
              match s with
              | a :: b :: c :: d :: s =>
                  u ← hex4 a b c d; p ← parse_chars s; Some (u :: p.1, p.2)
              | _ => None
              end
            else u ← unescape e; p ← parse_chars s; Some (u :: p.1, p.2)
        end
      else if c <? 32 then None
      else p ← parse_chars s; Some (c :: p.1, p.2)
  end.

Fixpoint digits (acc : Z) (s : jsstr) : Z * jsstr :=
  match s with
  | c :: s' => if is_dec c then digits (acc * 10 + (c - 48)) s' else (acc, s)
  | [] => (acc, [])
  end.

(** The next character continues a number with a fraction or an exponent. *)
Definition non_integer (s : jsstr) : bool :=
  match s with c :: _ => (c =? 46) || (c =? 101) || (c =? 69) | [] => false end.

Definition parse_nat (s : jsstr) : option (Z * jsstr) :=
  match s with
  | c :: s' =>
      if is_dec c then
        let r := if c =? 48 then (0, s') else digits 0 s in
        if non_integer r.2 then None else Some r
      else None
  | [] => None
  end.

Definition parse_number (s : jsstr) : option (json * jsstr) :=
  match s with
  | c :: s' =>
      if c =? 45 then p ← parse_nat s'; Some (JNum (- p.1), p.2)
      else p ← parse_nat s; Some (JNum p.1, p.2)
  | [] => None
  end.

(** [s] without the prefix [p]. *)
Fixpoint strip (p s : jsstr) : option jsstr :=
  match p, s with
  | [], _ => Some s
  | a :: p, b :: s => if a =? b then strip p s else None
  | _ :: _, [] => None
  end.

Definition parse_atom (s : jsstr) : option (json * jsstr) :=
  match strip (js "null") s with
  | Some r => Some (JNull, r)
  | None =>
      match strip (js "true") s with
      | Some r => Some (JBool true, r)
      | None =>
          match strip (js "false") s with
          | Some r => Some (JBool false, r)
          | None => parse_number s
          end
      end
  end.

(** ** Values *)

(** [c] after white space, and the text after it. *)
Definition expect (c : Z) (s : jsstr) : option jsstr :=
  match skip_ws s with d :: r => if d =? c then Some r else None | [] => None end.

Definition object_of (fields : list (jsstr * json)) : json :=
  JObj (foldl (λ m kv, jm_set m kv.1 kv.2) [] fields).

Fixpoint parse_value (fuel : nat) (s : jsstr) : option (json * jsstr) :=
  match fuel with
  | O => None
  | S fuel =>
      match skip_ws s with
      | [] => None
      | c :: s' =>
          if c =? 34 then p ← parse_chars s'; Some (JStr p.1, p.2)
          else if c =? 91 then
            match expect 93 s' with
            | Some r => Some (JArr [], r)
            | None => p ← parse_elements fuel s'; Some (JArr p.1, p.2)
            end
          else if c =? 123 then
            match expect 125 s' with
            | Some r => Some (JObj [], r)
            | None => p ← parse_members fuel s'; Some (object_of p.1, p.2)
            end
          else parse_atom (c :: s')
      end
  end
with parse_elements (fuel : nat) (s : jsstr) : option (list json * jsstr) :=
  match fuel with
  | O => None
  | S fuel =>
      p ← parse_value fuel s;
      match expect 44 p.2 with
      | Some r => q ← parse_elements fuel r; Some (p.1 :: q.1, q.2)
      | None => r ← expect 93 p.2; Some ([p.1], r)
      end
  end
with parse_members (fuel : nat) (s : jsstr) : option (list (jsstr * json) * jsstr) :=
  match fuel with
  | O => None
  | S fuel =>
      s ← expect 34 s;
      k ← parse_chars s;
      s ← expect 58 k.2;
      p ← parse_value fuel s;
      match expect 44 p.2 with
      | Some r => q ← parse_members fuel r; Some ((k.1, p.1) :: q.1, q.2)
      | None => r ← expect 125 p.2; Some ([(k.1, p.1)], r)
      end
  end.

(** A text of [n] units needs at most [2 n] nested calls. *)
Definition parse_fuel (s : jsstr) : nat := S (2 * length s).

Definition parse (s : jsstr) : option json :=
  p ← parse_value (parse_fuel s) s;
  match skip_ws p.2 with [] => Some p.1 | _ => None end.

(** ASCII text in which [']  stands for the quotation mark. *)
Local Definition quoted (s : string) : jsstr := (λ c, if c =? 39 then 34 else c) <$> js s.

Example parse_sample :
  parse (quoted "{ 'a' : [1, -20, null, true], 'b':{}, 'a': 'x\u0041\n' } ") =
  Some (JObj [(js "a", JStr [120; 65; 10]); (js "b", JObj [])]).
Proof. vm_compute. reflexivity. Qed.

Example parse_rejects :
  parse (js "{}}") = None ∧ parse (js "[1,]") = None ∧ parse (js "01") = None ∧ parse [] = None.
Proof. vm_compute. split_and!; reflexivity. Qed.

(** ** What is consumed *)

Lemma skip_ws_length s : (length (skip_ws s) <= length s)%nat.
Proof. induction s as [|c s IH]; cbn; [done|]. destruct (is_ws c); cbn; lia. Qed.

Lemma expect_length c s r : expect c s = Some r → (length r < length s)%nat.
Proof.
  unfold expect. pose proof (skip_ws_length s). destruct (skip_ws s) as [|d r']; [done|].
  case_match; intros [= ->]. cbn in *. lia.
Qed.

(** Opens the binds of a successful parse. *)
Ltac inv_parse :=
  repeat match goal with
  | H : mbind _ _ = Some _ |- _ => apply bind_Some in H as (?&?&?)
  | H : Some _ = Some _ |- _ => injection H as H; try subst
  | H : (_, _) = (_, _) |- _ => injection H as ? H; try subst
  | p : (_ * _)%type |- _ => destruct p; cbn [fst snd] in *
  | H : None = Some _ |- _ => discriminate H
  end; try subst.

Lemma parse_chars_length s v r : parse_chars s = Some (v, r) → (length r < length s)%nat.
Proof.
  remember (length s) as n eqn:Hn. revert s v r Hn.
  induction (lt_wf n) as [n _ IH]; intros [|c s] v r -> Hp; cbn in Hp; [done|].
  destruct (c =? 34); [injection Hp as _ <-; cbn; lia|]. destruct (c =? 92).
  - destruct s as [|e s]; [done|]. destruct (e =? 117).
    + destruct s as [|? [|? [|? [|? s]]]]; try done. inv_parse.
      specialize (IH (length s) ltac:(cbn; lia) _ _ _ eq_refl ltac:(eassumption)). cbn. lia.
    + inv_parse. specialize (IH (length s) ltac:(cbn; lia) _ _ _ eq_refl ltac:(eassumption)). cbn. lia.
  - destruct (c <? 32); [done|]. inv_parse.
    specialize (IH (length s) ltac:(cbn; lia) _ _ _ eq_refl ltac:(eassumption)). cbn. lia.
Qed.

Lemma digits_length s acc : (length (digits acc s).2 <= length s)%nat.
Proof. revert acc. induction s as [|c s IH]; intros acc; cbn; [done|]. destruct (is_dec c); cbn; [|lia]. specialize (IH (acc * 10 + (c - 48))). lia. Qed.

Lemma parse_nat_length s p : parse_nat s = Some p → (length p.2 < length s)%nat.
Proof.
  destruct s as [|c s]; [done|]. unfold parse_nat. destruct (is_dec c) eqn:Hd; [|done].
  assert (length (if c =? 48 then (0, s) else digits 0 (c :: s))%Z.2 < length (c :: s))%nat as Hl.
  { destruct (c =? 48); [cbn; lia|]. cbn [digits]. rewrite Hd. cbn [length].
    pose proof (digits_length s (0 * 10 + (c - 48))). lia. }
  cbv zeta. set (r := if c =? 48 then _ else _) in *. destruct (non_integer _); intros [= <-]. exact Hl.
Qed.

Lemma parse_number_length s p : parse_number s = Some p → (length p.2 < length s)%nat.
Proof.
  destruct s as [|c s]; [done|]. unfold parse_number. destruct (c =? 45); intros H;
    apply bind_Some in H as (q&Hq%parse_nat_length&[= <-]); cbn in *; lia.
Qed.

Lemma strip_Some p s r : strip p s = Some r ↔ s = p ++ r.
Proof.
  revert s. induction p as [|a p IH]; intros [|b s]; cbn; try naive_solver.
  destruct (Z.eqb_spec a b) as [->|Hab]; [rewrite IH; naive_solver|naive_solver].
Qed.

Lemma parse_atom_length s p : parse_atom s = Some p → (length p.2 < length s)%nat.
Proof.
  unfold parse_atom.
  repeat match goal with |- context [strip ?w s] =>
    let E := fresh "E" in destruct (strip w s) eqn:E; [apply strip_Some in E as ->; intros [= <-]; cbn; lia|] end.
  apply parse_number_length.
Qed.

Lemma parse_length n :
  (∀ s p, parse_value n s = Some p → (length p.2 < length s)%nat) ∧
  (∀ s p, parse_elements n s = Some p → (length p.2 < length s)%nat) ∧
  (∀ s p, parse_members n s = Some p → (length p.2 < length s)%nat).
Proof.
  induction n as [|n (IHv&IHe&IHm)]; [done|]. split_and!; intros s p; cbn.
  - pose proof (skip_ws_length s) as Hs. destruct (skip_ws s) as [|c s']; [done|]. cbn in Hs.
    destruct (c =? 34).
    { intros H. apply bind_Some in H as ([v r]&Hc%parse_chars_length&[= <-]). cbn. lia. }
    destruct (c =? 91).
    { destruct (expect 93 s') eqn:E; [intros [= <-]; apply expect_length in E; cbn; lia|].
      intros H. apply bind_Some in H as (q&Hq%IHe&[= <-]). cbn. lia. }
    destruct (c =? 123).
    { destruct (expect 125 s') eqn:E; [intros [= <-]; apply expect_length in E; cbn; lia|].
      intros H. apply bind_Some in H as (q&Hq%IHm&[= <-]). cbn. lia. }
    intros Ha%parse_atom_length. cbn in Ha. lia.
  - intros H. apply bind_Some in H as (q&Hq%IHv&H). destruct (expect 44 q.2) as [r|] eqn:E.
    + apply expect_length in E. apply bind_Some in H as (q'&Hq'%IHe&[= <-]). cbn. lia.
    + apply bind_Some in H as (r&Hr%expect_length&[= <-]). cbn. lia.
  - intros H. apply bind_Some in H as (s1&Hs1%expect_length&H).
    apply bind_Some in H as ([k s2]&Hs2%parse_chars_length&H). cbn in H.
    apply bind_Some in H as (s3&Hs3%expect_length&H).
    apply bind_Some in H as (q&Hq%IHv&H). destruct (expect 44 q.2) as [r|] eqn:E.
    + apply expect_length in E. apply bind_Some in H as (q'&Hq'%IHm&[= <-]). cbn. lia.
    + apply bind_Some in H as (r&Hr%expect_length&[= <-]). cbn. lia.
Qed.

(** ** The fuel suffices

    Two amounts of fuel above twice the length give the same answer, also when
    it is a refusal. *)

Lemma bind_ext {A B} (m : option A) (f g : A → option B) :
  (∀ x, m = Some x → f x = g x) → m ≫= f = m ≫= g.
Proof. destruct m; cbn; auto. Qed.

Lemma parse_fuel_enough n : ∀ m,
  (∀ s, (2 * length s < n)%nat → (2 * length s < m)%nat → parse_value n s = parse_value m s) ∧
  (∀ s, (2 * length s + 1 < n)%nat → (2 * length s + 1 < m)%nat →
    parse_elements n s = parse_elements m s) ∧
  (∀ s, (2 * length s + 1 < n)%nat → (2 * length s + 1 < m)%nat →
    parse_members n s = parse_members m s).
Proof.
  induction n as [|n IH]; [intros m; split_and!; intros; lia|].
  intros [|m]; [split_and!; intros; lia|]. destruct (IH m) as (IHv&IHe&IHm).
  split_and!; intros s Hn Hm; cbn.
  - pose proof (skip_ws_length s) as Hs. destruct (skip_ws s) as [|c s']; [done|]. cbn in Hs.
    destruct (c =? 34); [done|].
    destruct (c =? 91); [destruct (expect 93 s'); [done|by rewrite IHe by lia]|].
    destruct (c =? 123); [destruct (expect 125 s'); [done|by rewrite IHm by lia]|]. done.
  - rewrite IHv by lia. apply bind_ext. intros p Hp. apply (proj1 (parse_length m)) in Hp.
    destruct (expect 44 p.2) eqn:E; [|done]. apply expect_length in E. by rewrite IHe by lia.
  - apply bind_ext. intros s1 Hs1%expect_length. apply bind_ext. intros [k s2] Hs2%parse_chars_length.
    apply bind_ext. intros s3 Hs3%expect_length. cbn in Hs3. rewrite IHv by lia.
    apply bind_ext. intros p Hp. apply (proj1 (parse_length m)) in Hp.
    destruct (expect 44 p.2) eqn:E; [|done]. apply expect_length in E. by rewrite IHm by lia.
Qed.

Lemma parse_value_fuel n s :
  (2 * length s < n)%nat → parse_value n s = parse_value (parse_fuel s) s.
Proof. intros Hn. apply (parse_fuel_enough n (parse_fuel s)); [done|unfold parse_fuel; lia]. Qed.

(** ** Reading what was written: strings and numbers *)

Lemma hex_val_digit d : 0 <= d < 16 → hex_val (hex_digit d) = Some d.
Proof.
  intros Hd. assert (∃ n, (n < 16)%nat ∧ d = Z.of_nat n) as (n&Hn&->) by (exists (Z.to_nat d); lia).
  do 16 (destruct n as [|n]; [reflexivity|]). lia.
Qed.

Lemma hex4_escape c : 0 <= c < 0x10000 →
  hex4 (hex_digit (c / 4096)) (hex_digit ((c / 256) mod 16)) (hex_digit ((c / 16) mod 16))
    (hex_digit (c mod 16)) = Some c.
Proof.
  intros Hc. unfold hex4.
  rewrite !hex_val_digit by (try apply Z.mod_pos_bound; try split;
    try apply Z.div_pos; try apply Z.div_lt_upper_bound; lia).
  cbn [mbind option_bind]. f_equal.
  pose proof (Z.div_mod c 16 ltac:(lia)). pose proof (Z.div_mod (c / 16) 16 ltac:(lia)) as H1.
  pose proof (Z.div_mod (c / 256) 16 ltac:(lia)) as H2.
  rewrite Z.div_div in H1 by lia. rewrite Z.div_div in H2 by lia.
  change (16 * 16) with 256 in H1. change (256 * 16) with 4096 in H2. lia.
Qed.

Lemma parse_chars_escape c r : 0 <= c < 0x10000 →
  parse_chars (unicode_escape c ++ r) = p ← parse_chars r; Some (c :: p.1, p.2).
Proof.
  intros Hc. pose proof (hex4_escape c Hc) as E. unfold unicode_escape.
  change (js "\u") with [92; 117]. cbn [app parse_chars Z.eqb Pos.eqb]. by rewrite E.
Qed.

Lemma parse_chars_plain c r : 32 <= c → c ≠ 34 → c ≠ 92 →
  parse_chars (c :: r) = p ← parse_chars r; Some (c :: p.1, p.2).
Proof.
  intros Hc H34 H92. cbn [parse_chars]. rewrite (proj2 (Z.eqb_neq _ _) H34), (proj2 (Z.eqb_neq _ _) H92).
  by rewrite (proj2 (Z.ltb_ge _ _) Hc).
Qed.

Lemma parse_chars_unit c r : 0 <= c < 0x10000 →
  parse_chars (quote_unit c ++ r) = p ← parse_chars r; Some (c :: p.1, p.2).
Proof.
  intros Hc. unfold quote_unit.
  repeat match goal with |- context [if ?c =? ?k then _ else _] =>
    destruct (Z.eqb_spec c k) as [->|]; [reflexivity|] end.
  destruct (Z.ltb_spec c 32); [by apply parse_chars_escape|]. by apply parse_chars_plain.
Qed.

Lemma parse_chars_quote s r : Forall is_unit s →
  parse_chars (quote_units s ++ 34 :: r) = Some (s, r).
Proof.
  remember (length s) as n eqn:Hn. revert s Hn. induction (lt_wf n) as [n _ IH].
  intros [|c s'] -> Hs; cbn [quote_units]; [reflexivity|].
  apply Forall_cons in Hs as [Hc Hs']. unfold is_unit in Hc.
  pose proof (IH (length s') ltac:(cbn; lia) s' eq_refl Hs') as IHs.
  destruct (is_high c) eqn:Hh.
  - destruct s' as [|d s'']; [by rewrite parse_chars_escape|].
    destruct (is_low d) eqn:Hl; [|by rewrite <-app_assoc, parse_chars_escape, IHs].
    pose proof (Forall_inv Hs') as Hd. apply Forall_inv_tail in Hs'. unfold is_high, is_low in *.
    apply andb_true_iff in Hh, Hl. rewrite !Z.leb_le in *. rewrite <-!app_comm_cons.
    rewrite !parse_chars_plain by lia.
    by rewrite (IH (length s'') ltac:(cbn; lia) s'' eq_refl Hs').
  - destruct (is_low c); rewrite <-app_assoc; [rewrite parse_chars_escape by done|rewrite parse_chars_unit by done];
      by rewrite IHs.
Qed.

(** The text of a positive number: decimal digits, the first not zero. *)
Definition digit_value (a d : Z) : Z := a * 10 + (d - 48).

Lemma pretty_N_char_dec m : (m < 10)%N →
  Z.of_N (Ascii.N_of_ascii (pretty_N_char m)) = 48 + Z.of_N m.
Proof.
  intros Hm. assert (∃ n, (n < 10)%nat ∧ m = N.of_nat n) as (n&Hn&->) by (exists (N.to_nat m); lia).
  do 10 (destruct n as [|n]; [reflexivity|]). lia.
Qed.

Lemma pretty_N_go_digits n : ∀ s, ∃ ds, js (pretty_N_go n s) = ds ++ js s ∧
  Forall (λ c, is_dec c = true) ds ∧ foldl digit_value 0 ds = Z.of_N n ∧
  ((0 < n)%N → ∃ d ds', ds = d :: ds' ∧ d ≠ 48).
Proof.
  induction (N.lt_wf_0 n) as [n _ IH]. intros s. destruct (decide (0 < n)%N) as [Hn|Hn].
  2: { assert (n = 0%N) as -> by lia. exists []. rewrite pretty_N_go_0. by split_and!. }
  rewrite pretty_N_go_step by done.
  destruct (IH (n / 10)%N (N.div_lt n 10 Hn eq_refl) (String (pretty_N_char (n mod 10)) s))
    as (ds&Hds&Hdec&Hval&Hhead).
  pose proof (N.mod_lt n 10 ltac:(done)) as Hm. pose proof (N.div_mod n 10 ltac:(done)) as Hdm.
  set (q := (n / 10)%N) in *. set (m := (n mod 10)%N) in *. clearbody q m.
  exists (ds ++ [48 + Z.of_N m]). split_and!.
  - rewrite Hds, <-app_assoc. f_equal. unfold js. cbn. by rewrite pretty_N_char_dec.
  - apply Forall_app_2; [done|]. repeat constructor. unfold is_dec. apply andb_true_iff. rewrite !Z.leb_le. lia.
  - rewrite foldl_app, Hval. cbn [foldl]. unfold digit_value. lia.
  - intros _. destruct (decide (0 < q)%N) as [Hd|Hd].
    + destruct (Hhead Hd) as (d&ds'&->&Hne). by eexists _, _.
    + assert (q = 0%N) as Hz by lia. destruct ds as [|d ds].
      * eexists _, []. split; [done|]. lia.
      * exists d, (ds ++ [48 + Z.of_N m]). split; [done|]. intros ->.
        revert Hds. rewrite Hz, pretty_N_go_0. unfold js. cbn.
        rewrite pretty_N_char_dec by done. intros [= Hd48 _]. lia.
Qed.

(** What follows a number must not continue it. *)
Definition num_end (r : jsstr) : bool :=
  match r with c :: _ => negb (is_dec c) && negb (non_integer r) | [] => true end.

Lemma digits_read ds r a : Forall (λ c, is_dec c = true) ds → num_end r = true →
  digits a (ds ++ r) = (foldl digit_value a ds, r).
Proof.
  intros Hds Hr. revert a. induction Hds as [|d ds Hd _ IH]; intros a; cbn.
  - destruct r as [|c r]; [done|]. cbn in *. by apply andb_true_iff in Hr as [->%negb_true_iff _].
  - by rewrite Hd, IH.
Qed.

Lemma num_end_integer r : num_end r = true → non_integer r = false.
Proof. destruct r; [done|]. cbn [num_end]. by intros [_ ?%negb_true_iff]%andb_true_iff. Qed.

Lemma parse_nat_read (n : N) r : num_end r = true → parse_nat (js (pretty n) ++ r) = Some (Z.of_N n, r).
Proof.
  intros Hr. pose proof (num_end_integer r Hr) as Hi.
  unfold pretty, pretty_N. case_decide as Hn; [subst; change (parse_nat (js "0" ++ r)) with (if non_integer r then None else Some (0, r)); by rewrite Hi|].
  destruct (pretty_N_go_digits n EmptyString) as (ds&->&Hdec&Hval&Hhead).
  destruct Hhead as (d&ds'&->&Hd); [lia|]. change (js "") with (@nil Z). rewrite app_nil_r.
  unfold parse_nat. rewrite <-app_comm_cons. rewrite (Forall_inv Hdec).
  rewrite (proj2 (Z.eqb_neq _ _) Hd), app_comm_cons, digits_read by done. rewrite Hval. cbv zeta. cbn [snd]. by rewrite Hi.
Qed.

Lemma js_pretty_N_head (n : N) r : ∃ c s, js (pretty n) ++ r = c :: s ∧ is_dec c = true.
Proof.
  unfold pretty, pretty_N. case_decide as Hn; [by eexists _, _|].
  destruct (pretty_N_go_digits n EmptyString) as (ds&->&Hdec&Hval&Hhead).
  destruct Hhead as (d&ds'&->&Hd); [lia|]. eexists _, _. split; [done|]. by apply Forall_inv in Hdec.
Qed.

Lemma strip_head_ne p c s : hd 0 p ≠ c → p ≠ [] → strip p (c :: s) = None.
Proof. destruct p as [|a p]; [done|]. cbn. intros Hac%Z.eqb_neq _. by rewrite Hac. Qed.

Definition number_start (c : Z) : bool := (c =? 45) || is_dec c.

Lemma number_start_ne c : number_start c = true →
  c ≠ 110 ∧ c ≠ 116 ∧ c ≠ 102 ∧ c ≠ 34 ∧ c ≠ 91 ∧ c ≠ 123 ∧ is_ws c = false.
Proof. unfold number_start, is_dec, is_ws. lia. Qed.

Lemma parse_atom_number c s : number_start c = true → parse_atom (c :: s) = parse_number (c :: s).
Proof.
  intros (?&?&?&_)%number_start_ne. unfold parse_atom. by rewrite !strip_head_ne by done.
Qed.

Lemma js_of_Z_read z r : num_end r = true →
  ∃ c s, js_of_Z z ++ r = c :: s ∧ number_start c = true ∧ parse_number (c :: s) = Some (JNum z, r).
Proof.
  intros Hr. assert (∀ n : N, ∃ c s, js (pretty n) ++ r = c :: s ∧ number_start c = true ∧
    parse_number (c :: s) = Some (JNum (Z.of_N n), r)) as HN.
  { intros n; destruct (js_pretty_N_head n r) as (c&s&E&Hc). exists c, s. split; [done|].
    unfold number_start. rewrite Hc, orb_true_r. split; [done|]. unfold parse_number.
    assert ((c =? 45) = false) as -> by (unfold is_dec in Hc; lia).
    by rewrite <-E, parse_nat_read by done. }
  unfold js_of_Z, pretty, pretty_Z. destruct z as [|p|p].
  - exact (HN 0%N).
  - exact (HN (Npos p)).
  - pose proof (parse_nat_read (Npos p) r Hr) as Hp.
    eexists 45, (js (pretty (Npos p)) ++ r). split; [reflexivity|]. split; [done|]. cbn [parse_number Z.eqb Pos.eqb].
    by rewrite Hp.
Qed.

(** ** The round trip *)

(** The names of every object are pairwise distinct, as in any object of the
    language. *)
Fixpoint json_distinct (j : json) : Prop :=
  match j with
  | JArr l => (fix go l := match l with [] => True | x :: l => json_distinct x ∧ go l end) l
  | JObj fs => NoDup fs.*1 ∧ (fix go l := match l with
      | [] => True
      | (_, x) :: l => json_distinct x ∧ go l
      end) fs
  | _ => True
  end.

Definition json_ok (j : json) : Prop := json_units j ∧ json_distinct j.

Lemma json_ok_arr l : json_ok (JArr l) ↔ Forall json_ok l.
Proof.
  unfold json_ok. cbn. induction l as [|x l IH]; [split; [constructor|done]|].
  rewrite Forall_cons, <-IH. tauto.
Qed.

Lemma json_ok_obj fs : json_ok (JObj fs) ↔
  NoDup fs.*1 ∧ Forall (λ kv, Forall is_unit kv.1 ∧ json_ok kv.2) fs.
Proof.
  unfold json_ok. cbn. generalize (NoDup fs.*1). intros P.
  enough ((fix go l := match l with [] => True | (k, x) :: l => Forall is_unit k ∧ json_units x ∧ go l end) fs ∧
    (fix go l := match l with [] => True | (_, x) :: l => json_distinct x ∧ go l end) fs ↔
    Forall (λ kv, Forall is_unit kv.1 ∧ json_units kv.2 ∧ json_distinct kv.2) fs) by tauto.
  induction fs as [|[k x] fs IH]; [split; [constructor|done]|].
  rewrite Forall_cons, <-IH. cbn. tauto.
Qed.

Lemma stringify_arr l : stringify (JArr l) = 91 :: js_join [44] (stringify <$> l) ++ [93].
Proof.
  apply (f_equal (λ x, 91 :: js_join [44] x ++ [93])). induction l as [|x l IH]; cbn; by f_equal.
Qed.

Definition field_text (kv : jsstr * json) : jsstr := quote kv.1 ++ 58 :: stringify kv.2.

Lemma stringify_obj fs : stringify (JObj fs) = 123 :: js_join [44] (field_text <$> fs) ++ [125].
Proof.
  apply (f_equal (λ x, 123 :: js_join [44] x ++ [125])). induction fs as [|[k x] fs IH]; cbn; by f_equal.
Qed.

Lemma object_of_distinct fs : NoDup fs.*1 → object_of fs = JObj fs.
Proof.
  intros HND. unfold object_of. f_equal.
  assert (∀ m, NoDup (m ++ fs).*1 → foldl (λ m kv, jm_set m kv.1 kv.2) m fs = m ++ fs) as H.
  { clear HND. induction fs as [|[k v] fs IH]; intros m HND; cbn; [by rewrite app_nil_r|].
    rewrite jm_set_new, IH, <-app_assoc; [done|by rewrite <-app_assoc|].
    rewrite fmap_app in HND. apply NoDup_app in HND as (_&Hd&_). intros Hin. apply (Hd k Hin). cbn. left. }
  by apply (H []).
Qed.

(** A parser that succeeds with all large enough amounts of fuel. *)
Definition eventually (P : nat → Prop) : Prop := ∃ k, ∀ n, (k <= n)%nat → P n.

Lemma eventually_S (P : nat → Prop) : eventually (λ n, P (S n)) → eventually P.
Proof. intros [k Hk]. exists (S k). intros [|n] Hn; [lia|]. apply Hk. lia. Qed.

Lemma eventually_mono (P Q : nat → Prop) : (∀ n, P n → Q n) → eventually P → eventually Q.
Proof. intros HPQ [k Hk]. exists k. auto. Qed.

Lemma eventually_and (P Q : nat → Prop) : eventually P → eventually Q → eventually (λ n, P n ∧ Q n).
Proof. intros [k Hk] [m Hm]. exists (k + m)%nat. intros n Hn. split; [apply Hk|apply Hm]; lia. Qed.

Lemma eventually_always (P : nat → Prop) : (∀ n, P n) → eventually P.
Proof. intros HP. exists 0%nat. auto. Qed.

Definition reads (j : json) : Prop :=
  ∀ r, num_end r = true → eventually (λ n, parse_value n (stringify j ++ r) = Some (j, r)).

Lemma stringify_skip_ws j r : skip_ws (stringify j ++ r) = stringify j ++ r ∧
  ∃ c s, stringify j ++ r = c :: s ∧ c ≠ 93 ∧ c ≠ 125.
Proof.
  enough (∃ c s, stringify j ++ r = c :: s ∧ c ≠ 93 ∧ c ≠ 125 ∧ is_ws c = false) as (c&s&->&H93&H125&Hc).
  { cbn. rewrite Hc. split; [done|]. by exists c, s. }
  assert (∀ n : N, ∃ c s, js (pretty n) ++ r = c :: s ∧ c ≠ 93 ∧ c ≠ 125 ∧ is_ws c = false) as HN.
  { intros n. destruct (js_pretty_N_head n r) as (c&s&->&Hc). exists c, s.
    split; [done|]. unfold is_dec, is_ws in *. lia. }
  destruct j as [|[]|[|p|p]|s|l|fs]; try by (eexists _, _; split; [reflexivity|]).
  - exact (HN (Npos p)).
Qed.

Lemma expect_here c r : is_ws c = false → expect c (c :: r) = Some r.
Proof. intros Hc. unfold expect. cbn. by rewrite Hc, Z.eqb_refl. Qed.

Lemma expect_other c d r : is_ws d = false → d ≠ c → expect c (d :: r) = None.
Proof. intros Hd Hne. unfold expect. cbn. rewrite Hd. by apply Z.eqb_neq in Hne as ->. Qed.

(** The text of an array's elements or an object's fields up to its end. *)
Lemma read_elements l r : Forall reads l → l ≠ [] →
  eventually (λ n, parse_elements n (js_join [44] (stringify <$> l) ++ 93 :: r) = Some (l, r)).
Proof.
  intros Hl Hne. induction Hl as [|x l Hx Hl IH]; [done|]. apply eventually_S. clear Hne.
  destruct l as [|y l].
  - eapply eventually_mono; [|apply (Hx (93 :: r)); reflexivity]. intros n Hn. cbn [fmap list_fmap js_join parse_elements].
    rewrite Hn. cbn [mbind option_bind fst snd]. by rewrite expect_other, expect_here.
  - set (t := js_join [44] (stringify <$> y :: l) ++ 93 :: r) in *.
    eapply eventually_mono; [|apply eventually_and; [apply (Hx (44 :: t)); reflexivity|by apply IH]].
    intros n [Hn Ht]. rewrite fmap_cons, js_join_cons by done. rewrite <-!app_assoc.
    change ([44] ++ js_join [44] (stringify <$> y :: l) ++ 93 :: r) with (44 :: t).
    cbn [parse_elements]. rewrite Hn. cbn [mbind option_bind fst snd]. rewrite expect_here by done.
    by rewrite Ht.
Qed.

Lemma read_field (kv : jsstr * json) t n : Forall is_unit kv.1 →
  parse_members (S n) (field_text kv ++ t) =
    p ← parse_value n (stringify kv.2 ++ t);
    match expect 44 p.2 with
    | Some r => q ← parse_members n r; Some ((kv.1, p.1) :: q.1, q.2)
    | None => r ← expect 125 p.2; Some ([(kv.1, p.1)], r)
    end.
Proof.
  intros Hk. unfold field_text, quote. rewrite <-!app_assoc. cbn [app parse_members].
  rewrite expect_here by done. cbn [mbind option_bind].
  rewrite parse_chars_quote by done. cbn [mbind option_bind fst snd app]. by rewrite expect_here by done.
Qed.

Lemma read_members fs r : Forall (λ kv, Forall is_unit kv.1 ∧ reads kv.2) fs → fs ≠ [] →
  eventually (λ n, parse_members n (js_join [44] (field_text <$> fs) ++ 125 :: r) = Some (fs, r)).
Proof.
  intros Hl Hne. induction Hl as [|[k x] fs [Hk Hx] Hl IH]; [done|]. apply eventually_S. clear Hne.
  cbn in Hk, Hx. destruct fs as [|y fs].
  - eapply eventually_mono; [|apply (Hx (125 :: r)); reflexivity]. intros n Hn.
    cbn [fmap list_fmap js_join]. rewrite read_field by done. cbn [snd]. rewrite Hn.
    cbn [mbind option_bind fst snd]. by rewrite expect_other, expect_here.
  - set (t := js_join [44] (field_text <$> y :: fs) ++ 125 :: r) in *.
    eapply eventually_mono; [|apply eventually_and; [apply (Hx (44 :: t)); reflexivity|by apply IH]].
    intros n [Hn Ht]. rewrite fmap_cons, js_join_cons by done. rewrite <-!app_assoc.
    change ([44] ++ js_join [44] (field_text <$> y :: fs) ++ 125 :: r) with (44 :: t).
    rewrite read_field by done. cbn [snd]. rewrite Hn. cbn [mbind option_bind fst snd].
    rewrite expect_here by done. by rewrite Ht.
Qed.

Lemma expect_bracket j r : expect 93 (stringify j ++ r) = None.
Proof.
  unfold expect. destruct (stringify_skip_ws j r) as (->&c&s&->&Hc%Z.eqb_neq&_). by rewrite Hc.
Qed.

Lemma read_stringify j : json_ok j → reads j.
Proof.
  induction j as [|b|z|s|l IH|fs IH] using json_ind'; intros Hok r Hr; apply eventually_S.
  - apply eventually_always. intros n. reflexivity.
  - apply eventually_always. intros n. by destruct b.
  - apply eventually_always. intros n. destruct (js_of_Z_read z r Hr) as (c&s&E&Hc&Hp).
    cbn [stringify]. rewrite E. pose proof (number_start_ne c Hc) as (?&?&?&?%Z.eqb_neq&?%Z.eqb_neq&?%Z.eqb_neq&Hw).
    cbn. rewrite Hw. repeat match goal with H : (c =? _) = false |- _ => rewrite H; clear H end.
    by rewrite parse_atom_number.
  - apply eventually_always. intros n. cbn [stringify]. unfold quote. rewrite <-!app_assoc.
    cbn. by rewrite parse_chars_quote by apply Hok.
  - rewrite stringify_arr. destruct l as [|x l]; [by apply eventually_always|].
    apply json_ok_arr in Hok.
    eapply eventually_mono; [|apply (read_elements (x :: l) r); [|done]].
    2: { apply Forall_forall. intros y Hy. rewrite Forall_forall in IH, Hok. by apply IH, Hok. }
    intros n Hn. rewrite <-app_comm_cons, <-app_assoc. cbn [parse_value skip_ws].
    assert (expect 93 (js_join [44] (stringify <$> x :: l) ++ 93 :: r) = None) as E.
    { destruct l as [|y l]; [apply expect_bracket|]. rewrite fmap_cons, js_join_cons, <-app_assoc by done.
      apply expect_bracket. }
    cbn [app is_ws Z.eqb Pos.eqb orb]. by rewrite E, Hn.
  - rewrite stringify_obj. destruct fs as [|x fs]; [by apply eventually_always|].
    apply json_ok_obj in Hok as [HND Hok].
    eapply eventually_mono; [|apply (read_members (x :: fs) r); [|done]].
    2: { apply Forall_forall. intros y Hy. rewrite Forall_forall in IH, Hok. split; [by apply Hok|by apply IH, Hok]. }
    intros n Hn. rewrite <-app_comm_cons, <-app_assoc. cbn [parse_value skip_ws].
    assert (expect 125 (js_join [44] (field_text <$> x :: fs) ++ 125 :: r) = None) as E.
    { destruct fs as [|y fs]; [reflexivity|rewrite fmap_cons, js_join_cons by done; reflexivity]. }
    cbn [app is_ws Z.eqb Pos.eqb orb]. rewrite E, Hn. cbn [mbind option_bind fst snd].
    by rewrite object_of_distinct.
Qed.

(** [JSON.parse(JSON.stringify(j))] is [j]. *)
Theorem parse_stringify j : json_ok j → parse (stringify j) = Some j.
Proof.
  intros Hok. destruct (read_stringify j Hok [] eq_refl) as [k Hk]. rewrite app_nil_r in Hk. unfold parse.
  rewrite <-(parse_value_fuel (k + parse_fuel (stringify j))) by (unfold parse_fuel; lia).
  by rewrite Hk by lia.
Qed.

(** ** Prefixes *)

Lemma skip_ws_app s t : skip_ws s ≠ [] → skip_ws (s ++ t) = skip_ws s ++ t.
Proof. induction s as [|c s IH]; cbn; [done|]. by destruct (is_ws c). Qed.

Lemma expect_Some_ws c s r : expect c s = Some r → skip_ws s ≠ [].
Proof. unfold expect. by destruct (skip_ws s). Qed.

Lemma expect_app c s t : skip_ws s ≠ [] → expect c (s ++ t) = (λ r, r ++ t) <$> expect c s.
Proof.
  intros Hs. unfold expect. rewrite skip_ws_app by done. destruct (skip_ws s) as [|d r]; [done|].
  cbn. by destruct (d =? c).
Qed.

Lemma parse_chars_app s t p : parse_chars s = Some p → parse_chars (s ++ t) = Some (p.1, p.2 ++ t).
Proof.
  remember (length s) as n eqn:Hn. revert s p Hn.
  induction (lt_wf n) as [n _ IH]; intros [|c s] p -> Hp; cbn in Hp |- *; [done|].
  assert (∀ s' u, (length s' <= length s)%nat → (q ← parse_chars s'; Some (u :: q.1, q.2)) = Some p →
    (q ← parse_chars (s' ++ t); Some (u :: q.1, q.2)) = Some (p.1, p.2 ++ t)) as step.
  { intros s' u Hl H. apply bind_Some in H as (q&Hq&[= <-]).
    by rewrite (IH (length s') ltac:(cbn; lia) s' q eq_refl Hq). }
  destruct (c =? 34); [by injection Hp as <-|]. destruct (c =? 92).
  - destruct s as [|e s]; [done|]. cbn [app]. destruct (e =? 117).
    + destruct s as [|a [|b [|d [|f s]]]]; try done. cbn [app].
      destruct (hex4 a b d f); [|done]. cbn in Hp |- *. apply step; [cbn; lia|done].
    + destruct (unescape e); [|done]. cbn in Hp |- *. apply step; [cbn; lia|done].
  - destruct (c <? 32); [done|]. by apply step.
Qed.

Definition is_num (j : json) : bool := match j with JNum _ => true | _ => false end.

Lemma digits_ext s t a : (digits a s).2 ≠ [] → digits a (s ++ t) = ((digits a s).1, (digits a s).2 ++ t).
Proof. revert a. induction s as [|c s IH]; intros a; cbn; [done|]. destruct (is_dec c); auto. Qed.

Lemma parse_nat_app s t p : parse_nat s = Some p → p.2 ≠ [] → parse_nat (s ++ t) = Some (p.1, p.2 ++ t).
Proof.
  destruct s as [|c s]; [done|]. unfold parse_nat. rewrite <-app_comm_cons. destruct (is_dec c); [|done].
  cbv zeta. set (r := if c =? 48 then (0, s) else _). set (r' := if c =? 48 then (0, s ++ t) else _).
  assert (r.2 ≠ [] → r' = (r.1, r.2 ++ t)) as E.
  { subst r r'. destruct (c =? 48); [done|]. rewrite app_comm_cons. apply digits_ext. }
  clearbody r r'. destruct (non_integer r.2) eqn:Hi; [done|]. intros [= <-] Hne. rewrite E by done.
  cbn [fst snd]. destruct r.2 as [|d l]; [done|]. cbn in Hi |- *. by rewrite Hi.
Qed.

Lemma parse_number_app s t p : parse_number s = Some p → p.2 ≠ [] →
  parse_number (s ++ t) = Some (p.1, p.2 ++ t).
Proof.
  destruct s as [|c s]; [done|]. unfold parse_number. rewrite <-app_comm_cons.
  destruct (c =? 45); intros H Hne; apply bind_Some in H as (q&Hq&[= <-]).
  - by rewrite (parse_nat_app _ t _ Hq).
  - rewrite app_comm_cons. by rewrite (parse_nat_app _ t _ Hq).
Qed.

Lemma parse_number_start s p : parse_number s = Some p →
  ∃ c s', s = c :: s' ∧ number_start c = true ∧ is_num p.1 = true.
Proof.
  destruct s as [|c s]; [done|]. unfold parse_number, number_start. destruct (c =? 45) eqn:Hc.
  - intros (q&_&[= <-])%bind_Some. eexists _, _. split_and!; [done|by rewrite Hc|done].
  - intros (q&Hq&[= <-])%bind_Some. eexists _, _. rewrite Hc. split_and!; [done| |done].
    unfold parse_nat in Hq. by destruct (is_dec c).
Qed.

Lemma parse_atom_app s t p : parse_atom s = Some p → p.2 ≠ [] ∨ is_num p.1 = false →
  parse_atom (s ++ t) = Some (p.1, p.2 ++ t).
Proof.
  intros Hp Hend. revert Hp. unfold parse_atom.
  destruct (strip (js "null") s) eqn:E1; [apply strip_Some in E1 as ->; by intros [= <-]|].
  destruct (strip (js "true") s) eqn:E2; [apply strip_Some in E2 as ->; by intros [= <-]|].
  destruct (strip (js "false") s) eqn:E3; [apply strip_Some in E3 as ->; by intros [= <-]|].
  intros Hp. destruct (parse_number_start s p Hp) as (c&s'&->&Hc&Hnum).
  destruct Hend as [Hne|Hend]; [|congruence].
  change (parse_atom ((c :: s') ++ t) = Some (p.1, p.2 ++ t)). rewrite <-app_comm_cons, parse_atom_number by done.
  rewrite app_comm_cons. by apply parse_number_app.
Qed.

Lemma parse_app n t :
  (∀ s p, parse_value n s = Some p → p.2 ≠ [] ∨ is_num p.1 = false →
    parse_value n (s ++ t) = Some (p.1, p.2 ++ t)) ∧
  (∀ s p, parse_elements n s = Some p → skip_ws s ≠ [] ∧ parse_elements n (s ++ t) = Some (p.1, p.2 ++ t)) ∧
  (∀ s p, parse_members n s = Some p → skip_ws s ≠ [] ∧ parse_members n (s ++ t) = Some (p.1, p.2 ++ t)).
Proof.
  induction n as [|n (IHv&IHe&IHm)]; [done|].
  assert (∀ s p c d r, parse_value n s = Some p → expect c p.2 = Some r ∨ expect d p.2 = Some r →
    skip_ws s ≠ [] ∧ parse_value n (s ++ t) = Some (p.1, p.2 ++ t) ∧ skip_ws p.2 ≠ []) as value.
  { intros s p c d r Hp Hr. assert (skip_ws p.2 ≠ []) as Hw by (destruct Hr as [Hr|Hr]; by eapply expect_Some_ws).
    split_and!; [|apply IHv; [done|left; by destruct p.2]|done]. destruct n; [done|]. cbn in Hp. by destruct (skip_ws s). }
  split_and!; intros s p; cbn.
  - intros Hp Hend. destruct (skip_ws s) as [|c s'] eqn:Hs; [done|].
    rewrite skip_ws_app by (by rewrite Hs). rewrite Hs. cbn [app].
    destruct (c =? 34).
    { apply bind_Some in Hp as (q&Hq&[= <-]). by rewrite (parse_chars_app _ t _ Hq). }
    destruct (c =? 91).
    { destruct (expect 93 s') eqn:E.
      - rewrite expect_app, E by (by eapply expect_Some_ws). by injection Hp as <-.
      - apply bind_Some in Hp as (q&[Hw Hq]%IHe&[= <-]). rewrite expect_app, E by done. cbn. by rewrite Hq. }
    destruct (c =? 123).
    { destruct (expect 125 s') eqn:E.
      - rewrite expect_app, E by (by eapply expect_Some_ws). by injection Hp as <-.
      - apply bind_Some in Hp as (q&[Hw Hq]%IHm&[= <-]). rewrite expect_app, E by done. cbn. by rewrite Hq. }
    rewrite app_comm_cons. by apply parse_atom_app.
  - intros (q&Hq&Hp)%bind_Some. destruct (expect 44 q.2) as [r|] eqn:E.
    + destruct (value _ _ 44 44 r Hq) as (Hw&->&Hw2); [by left|]. split; [done|]. cbn.
      rewrite expect_app, E by done. cbn. apply bind_Some in Hp as (q'&[_ ->]%IHe&[= <-]). done.
    + apply bind_Some in Hp as (r&Hr&[= <-]).
      destruct (value _ _ 93 93 r Hq) as (Hw&->&Hw2); [by left|]. split; [done|]. cbn.
      rewrite !expect_app, E, Hr by done. done.
  - intros (s1&Hs1&Hp)%bind_Some. pose proof (expect_Some_ws _ _ _ Hs1) as Hw. split; [done|].
    rewrite expect_app, Hs1 by done. cbn. apply bind_Some in Hp as (k&Hk&Hp).
    rewrite (parse_chars_app _ t _ Hk). cbn. apply bind_Some in Hp as (s3&Hs3&Hp).
    rewrite expect_app, Hs3 by (by eapply expect_Some_ws). cbn.
    apply bind_Some in Hp as (q&Hq&Hp). destruct (expect 44 q.2) as [r|] eqn:E.
    + destruct (value _ _ 44 44 r Hq) as (_&->&Hw2); [by left|]. cbn.
      rewrite expect_app, E by done. cbn. apply bind_Some in Hp as (q'&[_ ->]%IHm&[= <-]). done.
    + apply bind_Some in Hp as (r&Hr&[= <-]).
      destruct (value _ _ 125 125 r Hq) as (_&->&Hw2); [by left|]. cbn.
      rewrite !expect_app, E, Hr by done. done.
Qed.

Lemma parse_value_mono n : ∀ m, (n <= m)%nat →
  (∀ s p, parse_value n s = Some p → parse_value m s = Some p) ∧
  (∀ s p, parse_elements n s = Some p → parse_elements m s = Some p) ∧
  (∀ s p, parse_members n s = Some p → parse_members m s = Some p).
Proof.
  induction n as [|n IH]; [done|]. intros [|m] Hm; [lia|]. destruct (IH m) as (IHv&IHe&IHm); [lia|].
  split_and!; intros s p; cbn.
  - destruct (skip_ws s) as [|c s']; [done|]. destruct (c =? 34); [done|].
    destruct (c =? 91); [destruct (expect 93 s'); [done|]|destruct (c =? 123); [destruct (expect 125 s'); [done|]|done]].
    + by intros (q&->%IHe&Hp)%bind_Some.
    + by intros (q&->%IHm&Hp)%bind_Some.
  - intros (q&->%IHv&Hp)%bind_Some. cbn. destruct (expect 44 q.2); [|done].
    by apply bind_Some in Hp as (q'&->%IHe&Hp).
  - intros (s1&->&Hp)%bind_Some. cbn. apply bind_Some in Hp as (k&->&Hp). cbn.
    apply bind_Some in Hp as (s3&->&Hp). cbn. apply bind_Some in Hp as (q&->%IHv&Hp). cbn.
    destruct (expect 44 q.2); [|done]. by apply bind_Some in Hp as (q'&->%IHm&Hp).
Qed.

(** No proper prefix of the text of an object is a JSON text. *)
Theorem parse_prefix_object fs p q :
  json_ok (JObj fs) → stringify (JObj fs) = p ++ q → q ≠ [] → parse p = None.
Proof.
  intros Hok E Hq. destruct (parse p) as [j|] eqn:Hp; [exfalso|done]. unfold parse in Hp.
  apply bind_Some in Hp as ([j' r]&Hp&Hr). cbn in Hr. destruct (skip_ws r) eqn:Hws; [|done].
  assert (is_num j' = false) as Hnum.
  { rewrite stringify_obj in E. destruct p as [|c p]; [done|]. injection E as <- _.
    cbn in Hp. by destruct (expect 125 p); [injection Hp as <- _|apply bind_Some in Hp as (?&_&[= <- _])]. }
  pose proof (proj1 (parse_app _ q) _ _ Hp (or_intror Hnum)) as Hpq. cbn [fst snd] in Hpq. rewrite <-E in Hpq.
  destruct (read_stringify _ Hok [] eq_refl) as [k Hk]. rewrite app_nil_r in Hk.
  specialize (Hk (k + parse_fuel p)%nat ltac:(lia)).
  rewrite (proj1 (parse_value_mono (parse_fuel p) (k + parse_fuel p) ltac:(lia)) _ _ Hpq) in Hk.
  injection Hk as _ Hnil. by apply app_nil in Hnil as [_ ?].
Qed.

(** ** The text of a value survives UTF-8 *)

(** Well-formed UTF-16. *)
Definition is_text (s : jsstr) : Prop := ∃ cps, Forall is_scalar cps ∧ s = of_code_points cps.

Lemma is_text_nil : is_text [].
Proof. by exists []. Qed.

Lemma is_text_app a b : is_text a → is_text b → is_text (a ++ b).
Proof.
  intros (x&Hx&->) (y&Hy&->). exists (x ++ y). split; [by apply Forall_app_2|].
  unfold of_code_points. by rewrite bind_app.
Qed.

Lemma is_text_cons c s : 0 <= c < 0xD800 ∨ 0xE000 <= c < 0x10000 → is_text s → is_text (c :: s).
Proof.
  intros Hc Hs. apply (is_text_app [c]); [|done]. exists [c].
  split; [apply Forall_singleton; unfold is_scalar; lia|]. unfold of_code_points. cbn.
  unfold units_of_cp. by destruct (Z.ltb_spec c 0x10000); [|lia].
Qed.

Lemma is_text_ascii s : Forall (λ c, 0 <= c < 128) s → is_text s.
Proof. induction 1; [apply is_text_nil|]. apply is_text_cons; [lia|done]. Qed.

Lemma is_text_join ls : Forall is_text ls → is_text (js_join [44] ls).
Proof.
  induction 1 as [|l ls Hl Hls IH]; [apply is_text_nil|]. destruct ls as [|k ls]; [done|].
  rewrite js_join_cons by done. apply is_text_app; [done|]. apply is_text_cons; [lia|done].
Qed.

Lemma utf8_text s : is_text s → utf8_decode (utf8_encode s) = s.
Proof.
  intros (cps&Hcps&->). unfold utf8_encode. rewrite code_points_of_code_points by done. by apply utf8_decode_cps.
Qed.

(** ASCII text, for literals and escapes. *)
Lemma is_text_asciib s : forallb (λ c, (0 <=? c) && (c <? 128)) s = true → is_text s.
Proof. intros Hs%forallb_Forall. apply is_text_ascii. eapply Forall_impl; [exact Hs|]. cbn. lia. Qed.

Ltac ascii := by apply is_text_asciib.

Lemma hex_digit_ascii d : 0 <= d < 16 → 0 <= hex_digit d < 128.
Proof. unfold hex_digit. destruct (Z.ltb_spec d 10); lia. Qed.

Lemma unicode_escape_text c : 0 <= c < 0x10000 → is_text (unicode_escape c).
Proof.
  intros Hc. assert (0 <= c / 4096 < 16) by (split; [apply Z.div_pos|apply Z.div_lt_upper_bound]; lia).
  apply is_text_ascii. unfold unicode_escape. change (js "\u") with [92; 117]. cbn [app].
  repeat (apply Forall_cons; split; [|]); try apply Forall_nil; try lia;
    apply hex_digit_ascii; first [done|by apply Z.mod_pos_bound].
Qed.

Lemma quote_unit_text c : 0 <= c < 0x10000 → is_high c = false → is_low c = false → is_text (quote_unit c).
Proof.
  intros Hc Hh Hl. unfold quote_unit.
  repeat match goal with |- context [if ?c =? ?k then _ else _] => destruct (c =? k); [ascii|] end.
  destruct (Z.ltb_spec c 32); [by apply unicode_escape_text|].
  apply is_text_cons; [|apply is_text_nil]. unfold is_high, is_low in *. lia.
Qed.

Lemma surrogates_text c d : is_high c = true → is_low d = true → is_text [c; d].
Proof.
  unfold is_high, is_low. intros [Hc1%Z.leb_le Hc2%Z.leb_le]%andb_true_iff [Hd1%Z.leb_le Hd2%Z.leb_le]%andb_true_iff.
  exists [surrogate_pair c d]. unfold surrogate_pair. split; [apply Forall_singleton; unfold is_scalar; lia|].
  unfold of_code_points. cbn [mbind list_bind]. rewrite app_nil_r. unfold units_of_cp.
  rewrite (proj2 (Z.ltb_ge _ _)) by lia.
  replace (0x10000 + (c - 0xD800) * 0x400 + (d - 0xDC00) - 0x10000) with ((c - 0xD800) * 0x400 + (d - 0xDC00)) by lia.
  rewrite Z.div_add_l, Z.div_small by lia.
  replace ((c - 0xD800) * 0x400 + (d - 0xDC00)) with ((d - 0xDC00) + (c - 0xD800) * 0x400) by lia.
  rewrite Z.mod_add, Z.mod_small by lia. f_equal; [lia|]. f_equal. lia.
Qed.

Lemma quote_units_text s : Forall is_unit s → is_text (quote_units s).
Proof.
  remember (length s) as n eqn:Hn. revert s Hn. induction (lt_wf n) as [n _ IH].
  intros [|c s'] -> Hs; cbn [quote_units]; [apply is_text_nil|].
  apply Forall_cons in Hs as [Hc Hs']. unfold is_unit in Hc.
  pose proof (IH (length s') ltac:(cbn; lia) s' eq_refl Hs') as IHs.
  destruct (is_high c) eqn:Hh.
  - destruct s' as [|d s'']; [by apply unicode_escape_text|].
    destruct (is_low d) eqn:Hl; [|apply is_text_app; [by apply unicode_escape_text|done]].
    apply (is_text_app [c; d]); [by apply surrogates_text|].
    apply (IH (length s'') ltac:(cbn; lia) s'' eq_refl), (Forall_inv_tail Hs').
  - destruct (is_low c) eqn:Hl; apply is_text_app; auto using unicode_escape_text, quote_unit_text.
Qed.

Lemma quote_text s : Forall is_unit s → is_text (quote s).
Proof.
  intros Hs. unfold quote. repeat apply is_text_app; [ascii|by apply quote_units_text|ascii].
Qed.

Lemma digits_text (n : N) : is_text (js (pretty n)).
Proof.
  apply is_text_ascii. unfold pretty, pretty_N. case_decide; [apply Forall_singleton; vm_compute; split; congruence|].
  destruct (pretty_N_go_digits n EmptyString) as (ds&->&Hdec&_). change (js "") with (@nil Z). rewrite app_nil_r.
  eapply Forall_impl; [exact Hdec|]. intros c. unfold is_dec. lia.
Qed.

Lemma stringify_text j : json_units j → is_text (stringify j).
Proof.
  induction j as [|b|z|s|l IH|fs IH] using json_ind'; intros Hj.
  - ascii.
  - destruct b; ascii.
  - cbn. unfold js_of_Z. destruct z as [|p|p]; [apply (digits_text 0)|apply (digits_text (Npos p))|].
    apply (is_text_cons 45); [lia|apply (digits_text (Npos p))].
  - by apply quote_text.
  - rewrite stringify_arr. apply is_text_cons; [lia|]. apply is_text_app; [|ascii]. apply is_text_join.
    induction IH as [|x l Hx _ IHl]; constructor; [by apply Hx, Hj|by apply IHl, Hj].
  - rewrite stringify_obj. apply is_text_cons; [lia|]. apply is_text_app; [|ascii]. apply is_text_join.
    induction IH as [|[k x] fs Hx _ IHl]; constructor; [|by apply IHl, Hj].
    destruct Hj as (Hk&Hju&_). unfold field_text. apply is_text_app; [by apply quote_text|].
    apply is_text_cons; [lia|by apply Hx].
Qed.

Lemma utf8_stringify j : json_units j → utf8_decode (utf8_encode (stringify j)) = stringify j.
Proof. intros. by apply utf8_text, stringify_text. Qed.

#[global] Arguments parse : simpl never.
#[global] Arguments stringify : simpl never.
