(* ===== verification/JsonlFile.v ===== *)
(** * Files of JSON lines

    The journals and logs of the program are files of JSON objects, one per
    line.  A file is its bytes; a write that was cut short leaves a prefix of
    the bytes.  This file has the facts the stores share: a file of whole
    records splits into their texts, and a torn record is one line that is not
    JSON, wherever in its bytes it was cut ([torn_line]). *)

From S2P Require Import Prelude.
From S2P Require Import JsMap.
From S2P Require Import JsString.
From S2P Require Import Json.
From S2P Require Import JsonParse.

(** The text and the bytes of a record. *)
Definition line_text (r : json) : jsstr := stringify r ++ [NL].
Definition line_bytes (r : json) : list Z := utf8_encode (line_text r).
Definition log_bytes (rs : list json) : list Z := rs ≫= line_bytes.

(** A record a store writes: an object. *)
Definition record_ok (r : json) : Prop := json_ok r ∧ ∃ fs, r = JObj fs.

(** ** The fields of a parsed record *)

(** [value.name]; [None] is [undefined].  A property of [null] throws. *)
Definition prop (value : json) (name : string) : result jsstr (option json) :=
  match value with
  | JNull => Throw (js "Cannot read properties of null")
  | JObj fields => Ok (jm_get fields (js name))
  | _ => Ok None
  end.

Definition is_str (v : option json) : bool := match v with Some (JStr _) => true | _ => false end.

(** ** Decoding at a boundary *)

Lemma utf8_decode_app s q : is_text s → utf8_decode (utf8_encode s ++ q) = s ++ utf8_decode q.
Proof.
  intros (cps&Hcps&->). unfold utf8_encode, utf8_decode. rewrite code_points_of_code_points by done.
  rewrite dec_bytes_app, dec_bytes_cps by done. destruct (dec_bytes dec_init q) as [d o].
  unfold of_code_points. by rewrite <-app_assoc, bind_app.
Qed.

Lemma code_points_app a b : is_text a → code_points (a ++ b) = code_points a ++ code_points b.
Proof.
  intros (cps&Hcps&->). rewrite code_points_of_code_points by done.
  induction Hcps as [|c cps Hc Hcps IH]; [done|]. unfold of_code_points in *. cbn [mbind list_bind].
  rewrite <-app_assoc, <-app_comm_cons, <-IH.
  unfold units_of_cp. destruct (Z.ltb_spec c 0x10000) as [H|H]; cbn [app code_points].
  - assert (is_high c = false ∧ is_low c = false) as [-> ->]; [|done].
    unfold is_high, is_low, is_scalar in *. lia.
  - assert (c < 0x110000) by (destruct Hc; lia).
    pose proof (Z.div_mod (c - 0x10000) 0x400). pose proof (Z.mod_pos_bound (c - 0x10000) 0x400).
    assert (0 <= (c - 0x10000) / 0x400 < 0x400)
      by (split; [apply Z.div_pos|apply Z.div_lt_upper_bound]; lia).
    unfold is_high, is_low. zcmp. f_equal. unfold surrogate_pair. lia.
Qed.

Lemma utf8_encode_app a b : is_text a → utf8_encode (a ++ b) = utf8_encode a ++ utf8_encode b.
Proof. intros Ha. unfold utf8_encode. by rewrite code_points_app, utf8_of_cps_app. Qed.

(** A decoder that has produced nothing is inside a code point. *)
Lemma dec_byte_silent d b d' : dec_byte d b = (d', []) → d_needed d' ≠ 0%nat.
Proof.
  unfold dec_byte. destruct d as [n cp lo up]. cbn.
  assert (∀ e, dec_start b = (e, []) → d_needed e ≠ 0%nat) as Hs.
  { intros e. unfold dec_start. repeat (case_match; try done); by intros [= <-]. }
  destruct n as [|n]; [apply Hs|]. destruct (_ && _); [destruct n; [done|by intros [= <-]]|].
  by destruct (dec_start b).
Qed.

Lemma dec_bytes_silent bs : ∀ d d', bs ≠ [] → dec_bytes d bs = (d', []) → d_needed d' ≠ 0%nat.
Proof.
  induction bs as [|b bs IH]; [done|]. intros d d' _. cbn. destruct (dec_byte d b) as [d1 o1] eqn:E1.
  destruct (dec_bytes d1 bs) as [d2 o2] eqn:E2. intros [= <- [-> ->]%app_nil].
  destruct bs as [|b' bs]; [injection E2 as <-; by eapply dec_byte_silent|]. by eapply IH.
Qed.

Lemma partial_code_point c q t : is_scalar c → utf8_of_cp c = q ++ t → q ≠ [] → t ≠ [] →
  ∃ d, dec_bytes dec_init q = (d, []) ∧ dec_flush d = [0xFFFD].
Proof.
  intros Hc E Hq Ht. pose proof (dec_bytes_cp c Hc) as Hd. rewrite E, dec_bytes_app in Hd.
  destruct (dec_bytes dec_init q) as [d1 o1] eqn:E1. destruct (dec_bytes d1 t) as [d2 o2] eqn:E2.
  injection Hd as -> Ho.
  destruct o2 as [|x o2]; [by destruct (dec_bytes_silent t d1 dec_init Ht E2)|].
  destruct o1 as [|y o1]; [|by destruct o1]. exists d1. split; [done|].
  pose proof (dec_bytes_silent q _ _ Hq E1). unfold dec_flush. by destruct (d_needed d1).
Qed.

(** A byte prefix of a text ends after a code point or inside one. *)
Lemma bytes_prefix cps : ∀ q t, utf8_of_cps cps = q ++ t → ∃ i,
  (q = utf8_of_cps (take i cps) ∧ t = utf8_of_cps (drop i cps)) ∨
  ∃ c a b, cps !! i = Some c ∧ utf8_of_cp c = a ++ b ∧ a ≠ [] ∧ b ≠ [] ∧ q = utf8_of_cps (take i cps) ++ a.
Proof.
  induction cps as [|c cps IH]; intros q t E.
  - symmetry in E. apply app_nil in E as [-> ->]. exists 0%nat. by left.
  - change (utf8_of_cps (c :: cps)) with (utf8_of_cp c ++ utf8_of_cps cps) in *.
    apply app_eq_inv in E as [(k&Ek&Ht)|(k&->&Ht)].
    + destruct (decide (q = [])) as [->|Hq]; [exists 0%nat; left; split; [done|]; cbn in Ek; by subst|].
      destruct (decide (k = [])) as [->|Hk].
      * exists 1%nat. left. rewrite app_nil_r in Ek. cbn in Ht. subst. cbn. by rewrite app_nil_r.
      * exists 0%nat. right. exists c, q, k. by split_and!.
    + destruct (IH _ _ Ht) as (i&[[-> ->]|(c'&a&b&Hi&Hab&Ha&Hb&->)]); exists (S i).
      * by left.
      * right. exists c', a, b. split_and!; try done. cbn. by rewrite <-app_assoc.
Qed.

(** A byte prefix of a text decodes to a prefix of the text, and U+FFFD when
    the cut is inside a code point. *)
Lemma torn_decode s q t : is_text s → utf8_encode s = q ++ t →
  ∃ p r, s = p ++ r ∧
    (utf8_decode q = p ∧ (t ≠ [] → r ≠ []) ∨ utf8_decode q = p ++ [0xFFFD] ∧ r ≠ []).
Proof.
  intros (cps&Hcps&->). unfold utf8_encode. rewrite code_points_of_code_points by done.
  intros (i&Hi)%bytes_prefix. exists (of_code_points (take i cps)), (of_code_points (drop i cps)).
  split; [unfold of_code_points; by rewrite <-bind_app, take_drop|].
  assert (Forall is_scalar (take i cps)) as Hti by by apply Forall_take.
  assert (∀ l, l ≠ [] → of_code_points l ≠ []) as Hne.
  { intros [|x l]; [done|]. intros _. unfold of_code_points. cbn. unfold units_of_cp. by case_match. }
  destruct Hi as [[-> ->]|(c&a&b&Hci&Hab&Ha&Hb&->)].
  - left. split; [by apply utf8_decode_cps|]. intros Ht. apply Hne. intros E. apply Ht. by rewrite E.
  - right. split.
    + unfold utf8_decode. rewrite dec_bytes_app, dec_bytes_cps by done.
      destruct (partial_code_point c a b) as (d&->&->); [exact (Forall_lookup_1 _ _ _ _ Hcps Hci)|done..|].
      unfold of_code_points. cbn. by rewrite app_nil_r, bind_app.
    + apply Hne. intros E. apply (f_equal length) in E. rewrite length_drop in E.
      apply lookup_lt_Some in Hci. cbn in E. lia.
Qed.

(** ** A torn record is not JSON *)

(** What a parser leaves is a suffix of its input. *)
Lemma skip_ws_suffix s : ∃ a, s = a ++ skip_ws s.
Proof.
  induction s as [|c s [a IH]]; [by exists []|]. cbn. destruct (is_ws c); [|by exists []].
  exists (c :: a). cbn. by f_equal.
Qed.

Lemma expect_suffix c s r : expect c s = Some r → ∃ a, s = a ++ c :: r.
Proof.
  unfold expect. destruct (skip_ws_suffix s) as [a Ha]. destruct (skip_ws s) as [|d r']; [done|].
  destruct (Z.eqb_spec d c) as [->|]; intros [= ->]. by exists a.
Qed.

Lemma digits_suffix s : ∀ n, ∃ a, s = a ++ (digits n s).2.
Proof.
  induction s as [|c s IH]; intros n; cbn; [by exists []|]. destruct (is_dec c); [|by exists []].
  destruct (IH (n * 10 + (c - 48))) as [a Ha]. exists (c :: a). cbn. by f_equal.
Qed.

Lemma parse_nat_suffix s p : parse_nat s = Some p → ∃ a, s = a ++ p.2.
Proof.
  destruct s as [|c s]; [done|]. unfold parse_nat. destruct (is_dec c); [|done]. cbv zeta.
  set (r := if c =? 48 then (0, s) else digits 0 (c :: s)).
  assert (∃ a, c :: s = a ++ r.2) as Ha by (subst r; destruct (c =? 48); [by exists [c]|apply digits_suffix]).
  clearbody r. destruct (non_integer r.2); [done|]. by intros [= <-].
Qed.

Lemma parse_number_suffix s p : parse_number s = Some p → ∃ a, s = a ++ p.2.
Proof.
  destruct s as [|c s]; [done|]. unfold parse_number. destruct (c =? 45); intros (q&[a Ha]%parse_nat_suffix&[= <-])%bind_Some.
  - exists (c :: a). cbn. by f_equal.
  - by exists a.
Qed.

Lemma parse_atom_suffix s p : parse_atom s = Some p → ∃ a, s = a ++ p.2.
Proof.
  unfold parse_atom.
  repeat match goal with |- context [strip ?w s] =>
    let E := fresh "E" in destruct (strip w s) eqn:E; [apply strip_Some in E as ->; intros [= <-]; by eexists|] end.
  apply parse_number_suffix.
Qed.

Lemma parse_chars_suffix s : ∀ p, parse_chars s = Some p → ∃ a, s = a ++ p.2.
Proof.
  remember (length s) as n eqn:Hn. revert s Hn.
  induction (lt_wf n) as [n _ IH]; intros [|c s] -> p Hp; cbn in Hp; [done|].
  assert (∀ pre s' u, s = pre ++ s' → (q ← parse_chars s'; Some (u :: q.1, q.2)) = Some p → ∃ a, c :: s = a ++ p.2) as step.
  { intros pre s' u -> (q&Hq&[= <-])%bind_Some.
    destruct (IH (length s') ltac:(cbn; rewrite length_app; lia) s' eq_refl q Hq) as [a Ha].
    exists (c :: pre ++ a). cbn. rewrite <-app_assoc. by do 2 f_equal. }
  destruct (c =? 34); [injection Hp as <-; by exists [c]|]. destruct (c =? 92).
  - destruct s as [|e s]; [done|]. destruct (e =? 117).
    + destruct s as [|a1 [|a2 [|a3 [|a4 s]]]]; try done. destruct (hex4 a1 a2 a3 a4); [|done].
      by apply (step [e; a1; a2; a3; a4] _ _ eq_refl Hp).
    + destruct (unescape e); [|done]. by apply (step [e] _ _ eq_refl Hp).
  - destruct (c <? 32); [done|]. by apply (step [] _ _ eq_refl Hp).
Qed.

(** Suffixes compose. *)
Ltac suffixes :=
  repeat match goal with H : ∃ _, _ = _ ++ _ |- _ => destruct H as [? ->] end;
  eexists; rewrite ?app_comm_cons, ?app_assoc; reflexivity.

Lemma parse_suffix n :
  (∀ s p, parse_value n s = Some p → ∃ a, s = a ++ p.2) ∧
  (∀ s p, parse_elements n s = Some p → ∃ a, s = a ++ p.2) ∧
  (∀ s p, parse_members n s = Some p → ∃ a, s = a ++ 125 :: p.2).
Proof.
  induction n as [|n (IHv&IHe&IHm)]; [done|]. split_and!; intros s p; cbn.
  - destruct (skip_ws_suffix s) as [w Hw]. destruct (skip_ws s) as [|c s']; [done|]. rewrite Hw. clear Hw.
    assert (∀ k, s' = k ++ p.2 → ∃ a, w ++ c :: s' = a ++ p.2) as step by (intros k ->; suffixes).
    destruct (c =? 34); [intros (q&[a Ha]%parse_chars_suffix&[= <-])%bind_Some; by eapply step|].
    destruct (c =? 91).
    { destruct (expect 93 s') eqn:E.
      - intros [= <-]. apply expect_suffix in E as [a Ha]. eapply (step (a ++ [93])). by rewrite <-app_assoc.
      - intros (q&[a Ha]%IHe&[= <-])%bind_Some. by eapply step. }
    destruct (c =? 123).
    { destruct (expect 125 s') eqn:E.
      - intros [= <-]. apply expect_suffix in E as [a Ha]. eapply (step (a ++ [125])). by rewrite <-app_assoc.
      - intros (q&[a Ha]%IHm&[= <-])%bind_Some. eapply (step (a ++ [125])). by rewrite <-app_assoc. }
    intros [a Ha]%parse_atom_suffix. exists (w ++ a). by rewrite Ha, app_assoc.
  - intros (q&[a ->]%IHv&Hp)%bind_Some. destruct (expect 44 q.2) as [r|] eqn:E.
    + apply expect_suffix in E as [b ->]. apply bind_Some in Hp as (q'&[d ->]%IHe&[= <-]). suffixes.
    + apply bind_Some in Hp as (r&[b ->]%expect_suffix&[= <-]). cbn. exists (a ++ b ++ [93]). by rewrite <-!app_assoc.
  - intros (s1&[a1 ->]%expect_suffix&Hp)%bind_Some. apply bind_Some in Hp as (k&[a2 ->]%parse_chars_suffix&Hp).
    apply bind_Some in Hp as (s3&[a3 ->]%expect_suffix&Hp). apply bind_Some in Hp as (q&[a4 ->]%IHv&Hp).
    destruct (expect 44 q.2) as [r|] eqn:E.
    + apply expect_suffix in E as [b ->]. apply bind_Some in Hp as (q'&[d ->]%IHm&[= <-]). suffixes.
    + apply bind_Some in Hp as (r&[b ->]%expect_suffix&[= <-]). suffixes.
Qed.

(** A JSON text that starts with a brace ends with one, white space apart. *)
Lemma parse_brace c s j : parse (123 :: s ++ [c]) = Some j → is_ws c = true ∨ c = 125.
Proof.
  unfold parse. intros ([j' r]&Hp&Hr)%bind_Some. cbn [fst snd] in Hr.
  assert (∃ a, 123 :: s ++ [c] = a ++ 125 :: r) as [a Ha].
  { change (parse_fuel _) with (S (2 * length (123 :: s ++ [c]))) in Hp. cbn [parse_value skip_ws is_ws Z.eqb Pos.eqb orb] in Hp.
    destruct (expect 125 (s ++ [c])) eqn:E.
    - injection Hp as _ <-. apply expect_suffix in E as [a ->]. by exists (123 :: a).
    - apply bind_Some in Hp as (q&Hq&[= _ <-]). apply parse_suffix in Hq as [a ->]. by exists (123 :: a). }
  destruct r as [|x r _] using rev_ind.
  - right. apply (f_equal last) in Ha. rewrite app_comm_cons, !last_snoc in Ha. by injection Ha.
  - left. rewrite !app_comm_cons, app_assoc in Ha. apply app_inj_tail in Ha as [_ ->].
    destruct (skip_ws (r ++ [x])) eqn:Hw; [|done]. clear -Hw. induction r as [|d r IH]; cbn in Hw.
    + by destruct (is_ws x).
    + destruct (is_ws d); [auto|done].
Qed.

(** A record whose bytes were cut anywhere before the end is one line, and not
    JSON. *)
Theorem torn_line r q t : record_ok r → utf8_encode (stringify r) = q ++ t → t ≠ [] →
  (NL ∉ utf8_decode q) ∧ parse (utf8_decode q) = None.
Proof.
  intros [Hok (fs&->)] E Ht. pose proof (stringify_text _ (proj1 Hok)) as Htext.
  destruct (torn_decode _ q t Htext E) as (p&k&Es&Hq).
  assert (NL ∉ p) as Hp.
  { intros Hin. eapply (stringify_no_NL (JObj fs)); [apply Hok|]. rewrite Es. apply elem_of_app. by left. }
  destruct Hq as [[-> Hk]|[-> Hk]]; [split; [done|]; eapply (parse_prefix_object fs); eauto|].
  split; [rewrite elem_of_app, list_elem_of_singleton; intros [|]; [done|discriminate]|].
  destruct (parse (p ++ [65533])) as [j|] eqn:Hj; [exfalso|done].
  destruct p as [|c p]; [by vm_compute in Hj|].
  assert (c = 123) as -> by (rewrite stringify_obj in Es; by injection Es).
  rewrite <-app_comm_cons in Hj. by apply parse_brace in Hj as [|].
Qed.

(** ** Whole files

    A file of whole lines: a record, or an empty line (what a store writes when
    it rewrites a file without records). *)

Definition entry_bytes (l : option json) : list Z :=
  match l with Some r => line_bytes r | None => [NL] end.
Definition lines_bytes (ls : list (option json)) : list Z := ls ≫= entry_bytes.
Definition lines_ok (ls : list (option json)) : Prop := Forall (λ l, ∀ r, l = Some r → record_ok r) ls.

Definition entry_text (l : option json) : jsstr := match l with Some r => stringify r | None => [] end.

(** The lines of a text that are JSON; the empty ones are skipped. *)
Definition read_lines (contents : jsstr) : list json :=
  omap (λ line, if bool_decide (line = []) then None else parse line) (js_split NL contents).

Lemma line_bytes_eq r : record_ok r → line_bytes r = utf8_encode (stringify r) ++ [NL].
Proof.
  intros [[Hu _] _]. unfold line_bytes, line_text. by rewrite utf8_encode_app by by apply stringify_text.
Qed.

Lemma entry_text_plain l : (∀ r, l = Some r → record_ok r) → NL ∉ entry_text l.
Proof.
  intros Hl. destruct l as [r|]; [|apply not_elem_of_nil]. apply stringify_no_NL, (Hl r eq_refl).
Qed.

Lemma decode_entry l q : (∀ r, l = Some r → record_ok r) →
  utf8_decode (entry_bytes l ++ q) = entry_text l ++ NL :: utf8_decode q.
Proof.
  intros Hl. destruct l as [r|]; cbn [entry_bytes entry_text].
  - unfold line_bytes. rewrite utf8_decode_app.
    + unfold line_text. by rewrite <-app_assoc.
    + apply is_text_app; [apply stringify_text, (Hl r eq_refl)|by apply is_text_asciib].
  - apply (utf8_decode_app [NL]). by apply is_text_asciib.
Qed.

Lemma split_lines ls q : lines_ok ls →
  js_split NL (utf8_decode (lines_bytes ls ++ q)) = (entry_text <$> ls) ++ js_split NL (utf8_decode q).
Proof.
  induction 1 as [|l ls Hl Hls IH]; [done|]. unfold lines_bytes in *. cbn [mbind list_bind].
  rewrite <-app_assoc, decode_entry by done. rewrite js_split_app_sep by by apply entry_text_plain.
  by rewrite IH.
Qed.

Lemma read_lines_app ls q : lines_ok ls →
  read_lines (utf8_decode (lines_bytes ls ++ q)) = omap id ls ++ read_lines (utf8_decode q).
Proof.
  intros Hls. unfold read_lines. rewrite split_lines by done. rewrite omap_app. f_equal.
  induction Hls as [|l ls Hl Hls IH]; [done|]. cbn. destruct l as [r|]; cbn; [|done].
  rewrite bool_decide_false by apply stringify_nonempty.
  rewrite parse_stringify by apply (Hl r eq_refl). by rewrite IH.
Qed.

Lemma read_lines_clean ls : lines_ok ls → read_lines (utf8_decode (lines_bytes ls)) = omap id ls.
Proof. intros Hls. rewrite <-(app_nil_r (lines_bytes ls)), read_lines_app by done. by rewrite app_nil_r. Qed.

(** A torn last record is skipped, unless only its newline is missing. *)
Lemma read_lines_torn r q t : record_ok r → line_bytes r = q ++ t → t ≠ [] →
  read_lines (utf8_decode q) = [] ∨ q = utf8_encode (stringify r) ∧ read_lines (utf8_decode q) = [r].
Proof.
  intros Hr E Ht. rewrite line_bytes_eq in E by done.
  destruct t as [|x t _] using rev_ind; [done|]. rewrite app_assoc in E. apply app_inj_tail in E as [E <-].
  unfold read_lines. destruct (decide (t = [])) as [->|Htn].
  - right. rewrite app_nil_r in E. split; [done|]. subst q. rewrite utf8_stringify by apply Hr.
    rewrite js_split_single by apply stringify_no_NL, Hr. cbn.
    rewrite bool_decide_false by apply stringify_nonempty. by rewrite parse_stringify by apply Hr.
  - left. destruct (torn_line r q t Hr E Htn) as [Hnl Hp]. rewrite js_split_single by done. cbn.
    rewrite Hp. by case_bool_decide.
Qed.

Lemma lines_bytes_app a b : lines_bytes (a ++ b) = lines_bytes a ++ lines_bytes b.
Proof. apply bind_app. Qed.

Lemma lines_ok_app a b : lines_ok a → lines_ok b → lines_ok (a ++ b).
Proof. apply Forall_app_2. Qed.
