(* ===== verification/JsonlReader.v ===== *)
(** * Lines of JSON on a stream

    Models [coding-agent/src/modes/rpc/jsonl.ts]: the reader of the connections
    of the daemon and of the RPC mode.  It is given the stream in chunks and
    calls back for every line, or once for a line beyond the bound.

    The callbacks are the list of events.  The decoder of bytes
    ([StringDecoder]) is a parameter: the lines are those of the texts it
    gives. *)

From S2P Require Import Prelude.
From S2P Require Import JsString.
From S2P Require Import Json.
From S2P Require Import JsonParse.

Definition serializeJsonLine (value : json) : jsstr := stringify value ++ [NL].

(** [onLine(line)] and [onLineOverflow(prefix)] *)
Inductive Event := OnLine (line : jsstr) | OnLineOverflow (prefix : jsstr).

Definition CR : Z := 13.

Record Reader := MkReader { pending : list jsstr; pendingLength : Z; discardingOverflow : bool }.

Definition newReader : Reader := MkReader [] 0 false.

Definition lenZ (s : jsstr) : Z := Z.of_nat (length s).

(** [line.endsWith("\r") ? line.slice(0, -1) : line] *)
Definition strip_CR (line : jsstr) : jsstr := if bool_decide (last line = Some CR) then removelast line else line.

Definition emitLine (line : jsstr) : Event := OnLine (strip_CR line).

(** [options.maxLineLength] *)
Section reader.
Context (maxLineLength : option Z).

Definition appendPending (segment : jsstr) (s : Reader) : Reader * list Event :=
  if discardingOverflow s || (lenZ segment =? 0) then (s, []) else
  match maxLineLength with
  | Some max =>
      if max <? pendingLength s + lenZ segment then
        let remaining := Z.max 0 (max - pendingLength s) in
        let pending' := if 0 <? remaining then pending s ++ [take (Z.to_nat remaining) segment] else pending s in
        (MkReader [] 0 true, [OnLineOverflow (concat pending')])
      else (MkReader (pending s ++ [segment]) (pendingLength s + lenZ segment) false, [])
  | None => (MkReader (pending s ++ [segment]) (pendingLength s + lenZ segment) false, [])
  end.

(** A line ends. *)
Definition emitFrom (segment : jsstr) (s : Reader) : Reader * list Event :=
  if discardingOverflow s then (newReader, []) else
  let '(s, events) := appendPending segment s in
  if discardingOverflow s then (MkReader (pending s) (pendingLength s) false, events)
  else (newReader, events ++ [emitLine (concat (pending s))]).

(** The loop over the newlines of a text, the segments between them. *)
Fixpoint segments_loop (segments : list jsstr) (s : Reader) : Reader * list Event :=
  match segments with
  | [] => (s, [])
  | [rest] => if 0 <? lenZ rest then appendPending rest s else (s, [])
  | segment :: segments =>
      let '(s, e1) := emitFrom segment s in
      let '(s, e2) := segments_loop segments s in (s, e1 ++ e2)
  end.

(** [onData], of the text that the decoder gives. *)
Definition onData (text : jsstr) (s : Reader) : Reader * list Event := segments_loop (js_split NL text) s.

(** [onEnd], of the text that the decoder had left. *)
Definition onEnd (tail : jsstr) (s : Reader) : Reader * list Event :=
  let '(s, events) := if 0 <? lenZ tail then appendPending tail s else (s, []) in
  let last := if negb (discardingOverflow s) && negb (bool_decide (pending s = [])) then [emitLine (concat (pending s))] else [] in
  (newReader, events ++ last).

(** A whole stream: the events of its chunks and of its end. *)
Fixpoint read_texts (texts : list jsstr) (s : Reader) : Reader * list Event :=
  match texts with
  | [] => (s, [])
  | text :: texts =>
      let '(s, e1) := onData text s in
      let '(s, e2) := read_texts texts s in (s, e1 ++ e2)
  end.

Definition read_stream (texts : list jsstr) (tail : jsstr) : list Event :=
  let '(s, e1) := read_texts texts newReader in e1 ++ (onEnd tail s).2.

(** ** The lines of a text *)

(** Is a line beyond the bound? *)
Definition over (line : jsstr) : bool := match maxLineLength with Some max => max <? lenZ line | None => false end.

Definition overflow (line : jsstr) : Event :=
  OnLineOverflow (take (Z.to_nat (match maxLineLength with Some max => max | None => 0 end)) line).

Definition line_event (line : jsstr) : Event := if over line then overflow line else emitLine line.

(** What a reader is to report of a text: each line that a newline ends, and the
    rest if there is any. *)
Definition lines_of (text : jsstr) : list Event :=
  (line_event <$> removelast (js_split NL text)) ++
  match last (js_split NL text) with Some ((_ :: _) as rest) => [line_event rest] | _ => [] end.

(** ** Proofs *)

Hypothesis max_nonneg : ∀ max, maxLineLength = Some max → 0 <= max.

(** The reader has read [cur] of the current line; an overlong one has been
    reported. *)
Record reads_line (cur : jsstr) (s : Reader) : Prop := {
  rl_discarding : discardingOverflow s = over cur;
  rl_pending : over cur = false → concat (pending s) = cur ∧ pendingLength s = lenZ cur ∧ (pending s = [] ↔ cur = []);
  rl_over : over cur = true → pending s = [] ∧ pendingLength s = 0
}.

Lemma lenZ_app a b : lenZ (a ++ b) = lenZ a + lenZ b.
Proof. unfold lenZ. rewrite length_app. lia. Qed.

Lemma over_app a b : over a = true → over (a ++ b) = true.
Proof. unfold over. destruct maxLineLength as [max|]; [|done]. rewrite !Z.ltb_lt, lenZ_app. unfold lenZ. lia. Qed.

Lemma over_nil : over [] = false.
Proof. unfold over. destruct maxLineLength as [max|]; [|done]. apply Z.ltb_ge. by apply max_nonneg. Qed.

Lemma new_reads : reads_line [] newReader.
Proof. split; [by rewrite over_nil|done|by rewrite over_nil]. Qed.

(** An event for the overflow that happens between two parts of a line. *)
Definition overflow_between (cur cur' : jsstr) : list Event := if negb (over cur) && over cur' then [overflow cur'] else [].

Lemma overflow_longer a b : over a = true → overflow (a ++ b) = overflow a.
Proof.
  unfold over, overflow. destruct maxLineLength as [max|] eqn:E; [|done]. rewrite Z.ltb_lt. intros H. f_equal.
  apply take_app_le. unfold lenZ in H. lia.
Qed.

Lemma append_spec cur seg s : reads_line cur s →
  reads_line (cur ++ seg) (appendPending seg s).1 ∧ (appendPending seg s).2 = overflow_between cur (cur ++ seg).
Proof.
  intros [Hd Hp Ho]. unfold appendPending, overflow_between. rewrite Hd. destruct (over cur) eqn:Eo; cbn [orb negb andb].
  { split; [|done]. split; rewrite ?over_app by done; [done|done|exact Ho]. }
  destruct (Hp eq_refl) as (Hc&Hl&Hn). destruct (Z.eqb_spec (lenZ seg) 0) as [Hz|Hz].
  { assert (seg = []) as -> by (destruct seg; [done|unfold lenZ in Hz; cbn [length] in Hz; lia]). rewrite app_nil_r, Eo. split; [|done].
    split; rewrite ?Eo; auto. }
  assert (seg ≠ []) as Hseg by (intros ->; done).
  assert (over (cur ++ seg) = match maxLineLength with Some max => max <? pendingLength s + lenZ seg | None => false end) as Hov.
  { unfold over. destruct maxLineLength; [|done]. by rewrite lenZ_app, Hl. }
  assert (over (cur ++ seg) = false → reads_line (cur ++ seg) (MkReader (pending s ++ [seg]) (pendingLength s + lenZ seg) false)) as Hfit.
  { intros E. split; cbn [discardingOverflow pending pendingLength]; rewrite ?E; try done. intros _. split; [|split].
    - rewrite concat_app, Hc. cbn. by rewrite app_nil_r.
    - by rewrite lenZ_app, Hl.
    - split; [by intros [_ ?]%app_nil|]. by intros [_ ?]%app_nil. }
  destruct maxLineLength as [max|] eqn:Em; [|rewrite Hov; split; [by apply Hfit|done]].
  destruct (Z.ltb_spec max (pendingLength s + lenZ seg)) as [Hlt|Hge]; [|rewrite Hov; split; [by apply Hfit|done]].
  rewrite Hov. cbn [fst snd]. split; [split; rewrite ?Hov; done|]. unfold overflow. rewrite Em. do 2 f_equal.
  unfold over in Eo. rewrite Em in Eo. apply Z.ltb_ge in Eo. rewrite take_app_ge by (unfold lenZ in Eo; lia).
  rewrite Hl. replace (Z.to_nat max - length cur)%nat with (Z.to_nat (max - lenZ cur)) by (unfold lenZ; lia).
  destruct (Z.ltb_spec 0 (Z.max 0 (max - lenZ cur))).
  - rewrite concat_app, Hc. cbn. rewrite app_nil_r. do 3 f_equal. lia.
  - rewrite Hc. replace (Z.to_nat (max - lenZ cur)) with 0%nat by lia. by rewrite take_0, app_nil_r.
Qed.

Lemma emit_spec cur seg s : reads_line cur s →
  (emitFrom seg s).1 = newReader ∧
  (emitFrom seg s).2 = if over cur then [] else [line_event (cur ++ seg)].
Proof.
  intros Hr. pose proof (append_spec cur seg s Hr) as [Hr' He]. destruct Hr as [Hd _ _]. unfold emitFrom. rewrite Hd.
  destruct (over cur) eqn:Eo; [done|]. destruct (appendPending seg s) as [s' events]. cbn [fst snd] in *. subst events.
  destruct Hr' as [Hd' Hp' Ho']. unfold overflow_between. rewrite Eo, Hd'. cbn [negb andb]. unfold line_event.
  destruct (over (cur ++ seg)) eqn:Eo'; cbn [fst snd].
  - destruct (Ho' eq_refl) as [-> ->]. done.
  - destruct (Hp' eq_refl) as (->&_). done.
Qed.

(** The events up to the line that is not over yet. *)
Definition so_far (text : jsstr) : list Event :=
  (line_event <$> removelast (js_split NL text)) ++
  match last (js_split NL text) with Some rest => if over rest then [overflow rest] else [] | None => [] end.

Lemma so_far_split (pieces : list jsstr) rest text : js_split NL text = pieces ++ [rest] →
  so_far text = (line_event <$> pieces) ++ (if over rest then [overflow rest] else []).
Proof. intros E. unfold so_far. by rewrite E, removelast_last, last_snoc. Qed.

Lemma segments_spec segs cur s : segs ≠ [] → reads_line cur s →
  let '(s', events) := segments_loop segs s in
  ∃ rest pieces, (match segs with seg :: segs => (cur ++ seg) :: segs | [] => [] end) = pieces ++ [rest] ∧ reads_line rest s' ∧
    (if over cur then [overflow cur] else []) ++ events = (line_event <$> pieces) ++ (if over rest then [overflow rest] else []).
Proof.
  revert cur s. induction segs as [|seg segs IH]; intros cur s Hne Hr; [done|]. destruct segs as [|seg2 segs].
  - cbn [segments_loop]. assert (∀ s' events, reads_line (cur ++ seg) s' → events = overflow_between cur (cur ++ seg) →
      ∃ rest pieces, [cur ++ seg] = pieces ++ [rest] ∧ reads_line rest s' ∧
        (if over cur then [overflow cur] else []) ++ events = (line_event <$> pieces) ++ (if over rest then [overflow rest] else [])) as Hdone.
    { intros s' events Hr' ->. exists (cur ++ seg), []. split; [done|]. split; [done|]. cbn [fmap list_fmap app]. unfold overflow_between.
      destruct (over cur) eqn:E; cbn [negb andb app]; [by rewrite over_app, overflow_longer by done|done]. }
    destruct (Z.ltb_spec 0 (lenZ seg)) as [Hl|Hl].
    + pose proof (append_spec cur seg s Hr) as [H1 H2]. destruct (appendPending seg s) as [s' events]. by apply Hdone.
    + assert (seg = []) as -> by (destruct seg; [done|unfold lenZ in Hl; cbn [length] in Hl; lia]). rewrite app_nil_r in *.
      apply Hdone; [done|]. unfold overflow_between. by destruct (over cur).
  - change (segments_loop (seg :: seg2 :: segs) s) with
      (let '(s, e1) := emitFrom seg s in let '(s, e2) := segments_loop (seg2 :: segs) s in (s, e1 ++ e2)).
    pose proof (emit_spec cur seg s Hr) as [H1 H2]. destruct (emitFrom seg s) as [s1 e1]. cbn [fst snd] in *. subst s1.
    specialize (IH [] newReader ltac:(done) new_reads). destruct (segments_loop (seg2 :: segs) newReader) as [s' e2].
    destruct IH as (rest&pieces&Hp&Hr'&He). rewrite over_nil in He. cbn [app] in Hp, He. exists rest, ((cur ++ seg) :: pieces).
    split; [by rewrite Hp|]. split; [done|]. subst e1 e2. cbn [fmap list_fmap app].
    destruct (over cur) eqn:E; cbn [app]; [|done].
    assert (line_event (cur ++ seg) = overflow cur) as ->; [|done]. unfold line_event. by rewrite over_app, overflow_longer by done.
Qed.

Lemma js_split_join_pieces (a b : jsstr) (pieces : list jsstr) (rest : jsstr) : js_split NL a = pieces ++ [rest] →
  js_split NL (a ++ b) = pieces ++ (match js_split NL b with seg :: segs => (rest ++ seg) :: segs | [] => [] end).
Proof.
  intros Ha. pose proof (js_split_no_sep NL a) as Hno. rewrite Ha in Hno.
  assert (a = js_join [NL] (pieces ++ [rest])) as -> by (by rewrite <-Ha, js_join_split). clear Ha.
  induction pieces as [|p pieces IH].
  - cbn [app js_join] in *. apply Forall_cons in Hno as [Hr _]. revert Hr. induction rest as [|c rest IHr]; intros Hr.
    + cbn [app]. pose proof (js_split_nonempty NL b). by destruct (js_split NL b).
    + rewrite not_elem_of_cons in Hr. cbn [app js_split]. rewrite (proj2 (Z.eqb_neq c NL)) by (intros ->; by destruct Hr).
      rewrite IHr by apply Hr. pose proof (js_split_nonempty NL b). by destruct (js_split NL b).
  - cbn [app] in *. apply Forall_cons in Hno as [Hp Hno]. rewrite js_join_cons by (by destruct pieces). rewrite <-!app_assoc. cbn [app].
    rewrite js_split_app_sep by done. f_equal. by apply IH.
Qed.

(** After some text the reader reads its last line and has reported the rest. *)
Definition has_read (text : jsstr) (s : Reader) (events : list Event) : Prop :=
  ∃ pieces rest, js_split NL text = pieces ++ [rest] ∧ reads_line rest s ∧
    events = (line_event <$> pieces) ++ (if over rest then [overflow rest] else []).

Lemma data_spec text chunk s events : has_read text s events →
  has_read (text ++ chunk) (onData chunk s).1 (events ++ (onData chunk s).2).
Proof.
  intros (pieces&rest&Ht&Hr&->). unfold onData. pose proof (segments_spec (js_split NL chunk) rest s (js_split_nonempty NL chunk) Hr) as H.
  destruct (segments_loop (js_split NL chunk) s) as [s' e]. destruct H as (rest'&pieces'&Hp&Hr'&He). cbn [fst snd].
  exists (pieces ++ pieces'), rest'. split; [by rewrite (js_split_join_pieces text chunk pieces rest Ht), Hp, app_assoc|]. split; [done|].
  by rewrite <-app_assoc, He, fmap_app, app_assoc.
Qed.

Lemma texts_spec texts text s events : has_read text s events →
  has_read (text ++ concat texts) (read_texts texts s).1 (events ++ (read_texts texts s).2).
Proof.
  revert text s events. induction texts as [|t texts IH]; intros text s events Hh; cbn [read_texts concat]; [by rewrite !app_nil_r|].
  pose proof (data_spec text t s events Hh) as H1. destruct (onData t s) as [s1 e1]. cbn [fst snd] in H1.
  pose proof (IH _ _ _ H1) as H2. destruct (read_texts texts s1) as [s2 e2]. cbn [fst snd] in *. by rewrite <-!app_assoc in H2.
Qed.

Lemma end_spec text tail s events : NL ∉ tail → has_read text s events → events ++ (onEnd tail s).2 = lines_of (text ++ tail).
Proof.
  intros Htail (pieces&rest&Ht&Hr&->). pose proof (js_split_join_pieces text tail pieces rest Ht) as Hj.
  rewrite (js_split_single NL tail) in Hj by done. unfold lines_of. rewrite Hj, removelast_last, last_snoc.
  unfold onEnd. assert (∃ s' e, (if 0 <? lenZ tail then appendPending tail s else (s, [])) = (s', e) ∧
    reads_line (rest ++ tail) s' ∧ e = overflow_between rest (rest ++ tail)) as (s'&e&->&Hr'&->).
  { destruct (Z.ltb_spec 0 (lenZ tail)) as [Hl|Hl].
    - pose proof (append_spec rest tail s Hr) as [H1 H2]. destruct (appendPending tail s) as [s' e]. by exists s', e.
    - assert (tail = []) as -> by (destruct tail; [done|unfold lenZ in Hl; cbn [length] in Hl; lia]). rewrite app_nil_r.
      exists s, []. split; [done|]. split; [done|]. unfold overflow_between. by destruct (over rest). }
  cbn [snd]. rewrite <-!app_assoc. f_equal. destruct Hr' as [Hd Hp _]. rewrite Hd. unfold overflow_between.
  destruct (over (rest ++ tail)) eqn:Eo; cbn [negb andb].
  - rewrite app_nil_r. assert (rest ++ tail ≠ []) as Hne by (intros E; rewrite E, over_nil in Eo; done).
    destruct (over rest) eqn:Er; cbn [negb andb app].
    + rewrite <-(overflow_longer rest tail) by done. unfold line_event. destruct (rest ++ tail); [done|]. by rewrite Eo.
    + unfold line_event. destruct (rest ++ tail); [done|]. by rewrite Eo.
  - assert (over rest = false) as -> by (destruct (over rest) eqn:Er; [by rewrite over_app in Eo|done]). cbn [negb andb app].
    destruct (Hp eq_refl) as (Hc&_&Hn). rewrite Hc. unfold line_event. destruct (rest ++ tail) as [|c l] eqn:E.
    + by rewrite bool_decide_true by (by apply Hn).
    + rewrite bool_decide_false by (intros ?%Hn; done). cbn [negb]. by rewrite Eo.
Qed.

Lemma read_stream_lines texts tail : NL ∉ tail → read_stream texts tail = lines_of (concat texts ++ tail).
Proof.
  intros Htail. unfold read_stream. assert (has_read [] newReader []) as H0.
  { exists [], []. split; [done|]. split; [apply new_reads|]. by rewrite over_nil. }
  pose proof (texts_spec texts [] newReader [] H0) as H. destruct (read_texts texts newReader) as [s e]. cbn [fst snd app] in H.
  by apply end_spec.
Qed.
End reader.

(** C28: [equivalence] However the text of a stream is cut into chunks, the
    callbacks are those of the whole text, in order: each line that a line feed
    ends, without a carriage return before it, and the rest if there is any; a
    line beyond the bound is reported once, by its beginning, and the next line
    is read as usual. *)
Theorem lines_of_chunks max texts tail : (∀ m, max = Some m → 0 <= m) → NL ∉ tail →
  read_stream max texts tail = lines_of max (concat texts ++ tail).
Proof. intros Hm. by apply read_stream_lines. Qed.

(** ** Records *)

Lemma object_line fs : last (stringify (JObj fs)) = Some 125.
Proof. rewrite stringify_obj. by rewrite app_comm_cons, last_snoc. Qed.

Lemma strip_object fs : strip_CR (stringify (JObj fs)) = stringify (JObj fs).
Proof. unfold strip_CR. rewrite object_line. by rewrite bool_decide_false. Qed.

Lemma split_records (records : list (list (jsstr * json))) : Forall (λ fs, json_ok (JObj fs)) records →
  js_split NL (concat ((λ fs, serializeJsonLine (JObj fs)) <$> records)) = ((λ fs, stringify (JObj fs)) <$> records) ++ [[]].
Proof.
  induction 1 as [|fs records Hok _ IH]; [done|]. cbn [fmap list_fmap concat]. unfold serializeJsonLine at 1.
  rewrite <-app_assoc. cbn [app]. rewrite js_split_app_sep by (apply stringify_no_NL, Hok). by rewrite IH.
Qed.

(** [roundtrip] Records written by [serializeJsonLine] to a stream that is cut
    anywhere arrive one by one, each as the line that parses to the record,
    when none is longer than the bound. *)
Theorem records_arrive max (records : list (list (jsstr * json))) texts : (∀ m, max = Some m → 0 <= m) →
  Forall (λ fs, json_ok (JObj fs) ∧ over max (stringify (JObj fs)) = false) records →
  concat texts = concat ((λ fs, serializeJsonLine (JObj fs)) <$> records) →
  read_stream max texts [] = (λ fs, OnLine (stringify (JObj fs))) <$> records ∧
  Forall (λ fs, parse (stringify (JObj fs)) = Some (JObj fs)) records.
Proof.
  intros Hm Hr Ht. split; [|eapply Forall_impl; [exact Hr|]; intros fs [H _]; by apply parse_stringify].
  rewrite read_stream_lines by (try done; apply not_elem_of_nil). rewrite app_nil_r, Ht. unfold lines_of.
  rewrite split_records by (eapply Forall_impl; [exact Hr|]; by intros fs [H _]). rewrite removelast_last, last_snoc, app_nil_r.
  rewrite <-list_fmap_compose. apply list_fmap_ext. intros i fs Hfs. cbn [compose]. unfold line_event.
  rewrite Forall_forall in Hr. destruct (Hr fs) as [_ ->]; [by eapply list_elem_of_lookup_2|]. unfold emitLine. by rewrite strip_object.
Qed.

(** ** Witnesses *)

Lemma lines_of_chunks_witness :
  read_stream (Some 5) [js "ab" ++ [CR]; [NL] ++ js "longlo"; js "ng" ++ [NL]; js "x"] [] =
    [OnLine (js "ab"); OnLineOverflow (js "longl"); OnLine (js "x")] ∧
  read_stream (Some 5) [js "ab" ++ [CR]; [NL] ++ js "longlo"; js "ng" ++ [NL]; js "x"] [] =
    lines_of (Some 5) (concat [js "ab" ++ [CR]; [NL] ++ js "longlo"; js "ng" ++ [NL]; js "x"] ++ []).
Proof.
  split; [vm_compute; reflexivity|]. apply (lines_of_chunks (Some 5)).
  - intros m [= <-]. lia.
  - apply not_elem_of_nil.
Defined.

Definition sample_records : list (list (jsstr * json)) := [[(js "a", JNum 1)]; [(js "b", JStr [13; 10])]].
Definition sample_texts : list jsstr :=
  [js "{"; [34] ++ js "a" ++ [34] ++ js ":1"; js "}" ++ [NL] ++ js "{"; [34] ++ js "b" ++ [34] ++ js ":" ++ [34; 92; 114; 92; 110; 34; 125; 10]].

Lemma records_arrive_witness :
  read_stream (Some 100) sample_texts [] = (λ fs, OnLine (stringify (JObj fs))) <$> sample_records ∧
  Forall (λ fs, parse (stringify (JObj fs)) = Some (JObj fs)) sample_records.
Proof.
  apply (records_arrive (Some 100) sample_records sample_texts).
  - intros m [= <-]. lia.
  - unfold sample_records. repeat (apply Forall_cons; split); [..|apply Forall_nil; exact I]; (split; [|vm_compute; reflexivity]);
      (split; [cbn; repeat split; repeat constructor; unfold is_unit; lia|cbn; repeat split; repeat constructor; set_solver]).
  - vm_compute. reflexivity.
Defined.
