(* ===== verification/EventLog.v ===== *)
(** * Append-only event logs

    Models [packages/coding-agent/src/core/event-log.ts].  The file is absent or
    its bytes.  An append may stop after any number of bytes, by a crash, an
    error, or a short write that is not noticed; a repair may fail.  Other
    writers of the same file are not modelled. *)

From S2P Require Import Prelude.
From S2P Require Import JsString.
From S2P Require Import Json.
From S2P Require Import JsonParse.
From S2P Require Import JsonlFile.

Record EventLogOptions := MkOptions { maxBytes : option Z; maxRecords : option Z }.

(** What becomes of the write: all of it, or the first [n] bytes, after which it
    returns or throws. *)
Inductive write_outcome := Complete | Short (n : nat) | Failed (n : nat).

Section log.
Context (path : jsstr) (options : EventLogOptions).

Definition tooLarge (bound size : Z) : jsstr :=
  js "event log " ++ path ++ js " exceeds " ++ js_of_Z bound ++ js " bytes (" ++ js_of_Z size ++ js "); refusing to read".
Definition tooMany (bound : Z) : jsstr :=
  js "event log " ++ path ++ js " exceeds " ++ js_of_Z bound ++ js " records; refusing to read".

(** The check of the size. *)
Definition check_size (bytes : list Z) : result jsstr unit :=
  let size := Z.of_nat (length bytes) in
  match maxBytes options with
  | Some bound => if bound <? size then Throw (tooLarge bound size) else Ok tt
  | None => Ok tt
  end.

Definition readAllSync (bytes : list Z) : result jsstr (list Z) := check_size bytes;; Ok bytes.

Definition serializeLine (event : json) : jsstr := stringify event ++ [NL].

(** ** Replay *)

(** The lines from [index]; only the last can be torn. *)
Fixpoint replay_loop {T} (parse : jsstr → Z → result jsstr (option T)) (endsWithNewline : bool) (index recordCount : Z)
    (rawLines : list jsstr) : result jsstr (list T) :=
  match rawLines with
  | [] => Ok []
  | raw :: rest =>
      let line := trim raw in
      if bool_decide (line = []) then replay_loop parse endsWithNewline (index + 1) recordCount rest else
      match match maxRecords options with Some bound => if bound <? recordCount + 1 then Some bound else None | None => None end with
      | Some bound => Throw (tooMany bound)
      | None =>
          match parse line index with
          | Ok event =>
              events ← replay_loop parse endsWithNewline (index + 1) (recordCount + 1) rest;
              Ok (match event with Some e => e :: events | None => events end)
          | Throw error =>
              if bool_decide (rest = []) && negb endsWithNewline
              then replay_loop parse endsWithNewline (index + 1) (recordCount + 1) rest
              else Throw error
          end
      end
  end.

Definition replaySync {T} (parse : jsstr → Z → result jsstr (option T)) (file : option (list Z)) : result jsstr (list T) :=
  match file with
  | None => Ok []
  | Some bytes =>
      buffer ← readAllSync bytes;
      let contents := utf8_decode buffer in
      replay_loop parse (bool_decide (last contents = Some NL)) 0 0 (js_split NL contents)
  end.

(** ** Appending *)

(** The bytes up to and including the last line feed. *)
Fixpoint drop_tail (reversed : list Z) : list Z :=
  match reversed with
  | [] => []
  | b :: bs => if b =? NL then reversed else drop_tail bs
  end.
Definition whole_lines (bytes : list Z) : list Z := reverse (drop_tail (reverse bytes)).

(** [repairs]: no error occurs in the part whose errors are caught. *)
Definition repairTailSync (repairs : bool) (bytes : list Z) : result jsstr (list Z) :=
  if bool_decide (bytes = []) then Ok bytes else
  check_size bytes;;
  Ok (if bool_decide (last bytes = Some NL) || negb repairs then bytes else whole_lines bytes).

Definition write_bytes (w : write_outcome) (bytes payload : list Z) : list Z * result jsstr unit :=
  match w with
  | Complete => (bytes ++ payload, Ok tt)
  | Short n => (bytes ++ take n payload, Ok tt)
  | Failed n => (bytes ++ take n payload, Throw (js "write failed"))
  end.

Definition appendSync (events onCreate : list json) (repairs : bool) (w : write_outcome) (file : option (list Z))
    : option (list Z) * result jsstr unit :=
  let lines := serializeLine <$> events in
  match (match file with Some bytes => repairTailSync repairs bytes | None => Ok [] end) with
  | Throw error => (file, Throw error)
  | Ok bytes =>
      let leadLines := match file with Some _ => [] | None => serializeLine <$> onCreate end in
      let payload := utf8_encode (concat (leadLines ++ lines)) in
      let r := write_bytes w bytes payload in
      (Some r.1, r.2)
  end.
End log.
