(* ===== verification/EventLogSpec.v ===== *)
(** * What an event log guarantees

    A log is the bytes of its records and a torn record ([LogInv]).  Every
    append whose repair works keeps that shape, whatever part of its bytes it
    wrote ([append_step]): the records before it stay, and the new ones follow,
    all of them when the write was complete ([log_durable]).  Reading such a log
    gives what the parser of the client makes of its records ([replay_log]). *)

From S2P Require Import Prelude.
From S2P Require Import JsString.
From S2P Require Import Json.
From S2P Require Import JsonParse.
From S2P Require Import JsonlFile.
From S2P Require Import EventLog.

(** ** Line feeds in bytes *)

Lemma NL_utf8_of_cp c : is_scalar c → NL ∈ utf8_of_cp c → c = NL.
Proof.
  intros Hc. assert (0 <= c < 0x110000) by (destruct Hc; lia). unfold utf8_of_cp, NL.
  pose proof (Z.mod_pos_bound c 64). pose proof (Z.mod_pos_bound (c / 64) 64).
  pose proof (Z.mod_pos_bound (c / 4096) 64).
  assert (0 <= c / 64 ∧ 0 <= c / 4096 ∧ 0 <= c / 262144) by (split_and!; apply Z.div_pos; lia).
  destruct (c <? 0x80); [by intros ->%list_elem_of_singleton|].
  repeat case_match; rewrite ?elem_of_cons, ?elem_of_nil; lia.
Qed.

Lemma NL_utf8_encode s : is_text s → NL ∉ s → NL ∉ utf8_encode s.
Proof.
  intros (cps&Hcps&->). unfold utf8_encode. rewrite code_points_of_code_points by done.
  intros Hs (c&Hin&Hc)%list_elem_of_bind. apply Hs. unfold of_code_points. apply list_elem_of_bind. exists c.
  split; [|done]. rewrite Forall_forall in Hcps. rewrite (NL_utf8_of_cp c (Hcps c Hc) Hin). by apply list_elem_of_singleton.
Qed.

Lemma NL_record r : record_ok r → NL ∉ utf8_encode (stringify r).
Proof. intros [[Hu _] _]. apply NL_utf8_encode; [by apply stringify_text|by apply stringify_no_NL]. Qed.

(** ** The shape of a log

    The records are those a client writes, all of them records a store may
    write. *)

Section shape.
Context (accepted : json → Prop) (accepted_ok : ∀ r, accepted r → record_ok r).

(** What a cut write leaves after the last line feed. *)
Definition torn (tail : list Z) : Prop :=
  tail = [] ∨ ∃ r t, accepted r ∧ utf8_encode (stringify r) = tail ++ t.

Definition LogInv (records : list json) (file : option (list Z)) : Prop :=
  Forall accepted records ∧
  match file with
  | None => records = []
  | Some bytes => ∃ tail, torn tail ∧ bytes = log_bytes records ++ tail
  end.

Lemma accepted_all rs : Forall accepted rs → Forall record_ok rs.
Proof using accepted_ok. intros Hrs. eapply Forall_impl; [done|apply accepted_ok]. Qed.

Lemma log_bytes_cons r rs : log_bytes (r :: rs) = line_bytes r ++ log_bytes rs.
Proof. reflexivity. Qed.

Lemma log_bytes_app a b : log_bytes (a ++ b) = log_bytes a ++ log_bytes b.
Proof. apply bind_app. Qed.

Lemma torn_NL tail : torn tail → NL ∉ tail.
Proof.
  intros [->|(r&t&Hr&E)]; [apply not_elem_of_nil|]. intros Hin. apply (NL_record r (accepted_ok r Hr)). rewrite E.
  apply elem_of_app. by left.
Qed.

(** The bytes of whole records, cut anywhere, are whole records and a torn one. *)
Lemma cut_log rs : Forall accepted rs → ∀ n, ∃ k tail, (k <= length rs)%nat ∧ torn tail ∧
  take n (log_bytes rs) = log_bytes (take k rs) ++ tail.
Proof.
  induction 1 as [|r rs Hr Hrs IH]; intros n; [|pose proof (accepted_ok r Hr) as Hok].
  { exists 0%nat, []. split_and!; [done|by left|]. by destruct n. }
  rewrite log_bytes_cons, line_bytes_eq by done. set (u := utf8_encode (stringify r)).
  destruct (decide (n <= length u)%nat) as [Hn|Hn].
  - exists 0%nat, (take n u). split_and!; [lia| |].
    + right. exists r, (drop n u). split; [done|]. by rewrite take_drop.
    + rewrite <-app_assoc, take_app_le by done. reflexivity.
  - destruct (IH (n - S (length u))%nat) as (k&tail&Hk&Ht&E). exists (S k), tail.
    split_and!; [cbn; lia|done|]. cbn [take]. rewrite log_bytes_cons, line_bytes_eq by done. fold u.
    rewrite take_app_ge by (rewrite length_app; cbn; lia). rewrite <-(app_assoc _ (log_bytes _)), <-E.
    rewrite length_app. cbn [length]. by replace (length u + 1)%nat with (S (length u)) by lia.
Qed.

Lemma encode_lines rs : Forall record_ok rs → utf8_encode (concat (serializeLine <$> rs)) = log_bytes rs.
Proof.
  induction 1 as [|r rs Hr Hrs IH]; [reflexivity|]. cbn [fmap list_fmap concat].
  rewrite utf8_encode_app, IH; [reflexivity|].
  apply is_text_app; [apply stringify_text, Hr|by apply is_text_asciib].
Qed.

(** ** Repair *)

Lemma drop_tail_NL a b : NL ∉ a → drop_tail (a ++ NL :: b) = NL :: b.
Proof.
  induction a as [|x a IH]; [done|]. rewrite not_elem_of_cons. intros [Hx Ha]. cbn.
  destruct (Z.eqb_spec x NL); [congruence|auto].
Qed.

Lemma drop_tail_none a : NL ∉ a → drop_tail a = [].
Proof.
  induction a as [|x a IH]; [done|]. rewrite not_elem_of_cons. intros [Hx Ha]. cbn.
  destruct (Z.eqb_spec x NL); [congruence|auto].
Qed.

Lemma log_bytes_last rs : Forall record_ok rs → rs ≠ [] → ∃ b, log_bytes rs = b ++ [NL].
Proof.
  intros Hrs. destruct rs as [|r rs _] using rev_ind; [done|]. intros _.
  apply Forall_app in Hrs as [_ Hr]. apply Forall_cons in Hr as [Hr _]. rewrite log_bytes_app, log_bytes_cons, line_bytes_eq by done.
  eexists. rewrite !app_assoc. cbn [log_bytes mbind list_bind]. by rewrite app_nil_r.
Qed.

Lemma whole_lines_log rs tail : Forall accepted rs → torn tail → whole_lines (log_bytes rs ++ tail) = log_bytes rs.
Proof.
  intros Hrs%accepted_all Ht%torn_NL. unfold whole_lines. rewrite reverse_app.
  assert (NL ∉ reverse tail) by by rewrite elem_of_reverse.
  destruct (decide (rs = [])) as [->|Hne]; [cbn [log_bytes mbind list_bind reverse]; by rewrite app_nil_r, drop_tail_none|].
  destruct (log_bytes_last rs Hrs Hne) as [b ->]. rewrite reverse_snoc, drop_tail_NL by done.
  by rewrite reverse_cons, reverse_involutive.
Qed.

(** ** Appending *)

Section append.
Context (path : jsstr) (options : EventLogOptions).

(** The log can be read: its size is within the bound. *)
Definition small (file : option (list Z)) : Prop :=
  match file, maxBytes options with Some bytes, Some bound => Z.of_nat (length bytes) <= bound | _, _ => True end.

(** The records an append writes. *)
Definition new_records (file : option (list Z)) (onCreate events : list json) : list json :=
  match file with Some _ => [] | None => onCreate end ++ events.

Lemma check_size_ok bytes : small (Some bytes) → check_size path options bytes = Ok tt.
Proof. unfold small, check_size. destruct (maxBytes options) as [bound|]; [|done]. intros. by zcmp. Qed.

Lemma repair_log rs bytes : LogInv rs (Some bytes) → small (Some bytes) →
  repairTailSync path options true bytes = Ok (log_bytes rs).
Proof using accepted_ok.
  intros [Hrs (tail&Ht&->)] Hs. unfold repairTailSync. rewrite check_size_ok by done. cbn [mbind result_bind].
  case_bool_decide as E; [by apply app_nil in E as [-> ->]|]. f_equal. rewrite orb_false_r.
  case_bool_decide as El; [|by apply whole_lines_log]. destruct tail as [|x tail _] using rev_ind; [by rewrite app_nil_r|].
  rewrite app_assoc, last_snoc in El. injection El as ->. destruct (torn_NL _ Ht). set_solver.
Qed.

(** Every append keeps the records before it, and adds the first of its own;
    a complete one adds all of them. *)
Lemma append_step rs file events onCreate w :
  LogInv rs file → small file → Forall accepted events → Forall accepted onCreate →
  ∃ k, let new := new_records file onCreate events in
    let r := appendSync path options events onCreate true w file in
    LogInv (rs ++ take k new) r.1 ∧
    (w = Complete → k = length new ∧ r = (Some (log_bytes (rs ++ new)), Ok tt)).
Proof using accepted_ok.
  intros Hinv Hs He Hc. unfold appendSync. cbv zeta. set (lead := match file with Some _ => _ | None => serializeLine <$> onCreate end).
  assert (lead ++ (serializeLine <$> events) = serializeLine <$> new_records file onCreate events) as ->.
  { subst lead. unfold new_records. rewrite fmap_app. by destruct file. }
  assert (Forall accepted (new_records file onCreate events)) as Hnew.
  { unfold new_records. apply Forall_app_2; [by destruct file|done]. }
  assert (match file with Some bytes => repairTailSync path options true bytes | None => Ok [] end = Ok (log_bytes rs)) as ->.
  { destruct file as [bytes|]; [by apply repair_log|]. destruct Hinv as [_ ->]. reflexivity. }
  rewrite encode_lines by by apply accepted_all. set (new := new_records _ _ _) in *. clearbody new lead.
  assert (∀ n, ∃ k, LogInv (rs ++ take k new) (Some (log_bytes rs ++ take n (log_bytes new)))) as Hcut.
  { intros n. destruct (cut_log new Hnew n) as (k&tail&_&Ht&->). exists k. split.
    - apply Forall_app_2; [apply Hinv|by apply Forall_take].
    - exists tail. by rewrite log_bytes_app, app_assoc. }
  destruct w as [|n|n]; [|by destruct (Hcut n) as [k Hk]; exists k..].
  exists (length new). rewrite firstn_all. cbn [write_bytes fst snd]. rewrite <-log_bytes_app. split; [|done].
  split; [by apply Forall_app_2; [apply Hinv|]|]. exists []. split; [by left|by rewrite app_nil_r].
Qed.

(** *** Sequences of appends *)

Context (bound_pos : match maxBytes options with Some bound => 0 <= bound | None => True end).

(** An append; a failed one does not stop the next. *)
Record append_op := MkAppend { ap_events : list json; ap_onCreate : list json; ap_outcome : write_outcome }.

Definition append_run (op : append_op) (file : option (list Z)) : option (list Z) * result jsstr unit :=
  appendSync path options (ap_events op) (ap_onCreate op) true (ap_outcome op) file.

Fixpoint append_all (ops : list append_op) (file : option (list Z)) : option (list Z) * list (result jsstr unit) :=
  match ops with
  | [] => (file, [])
  | op :: ops =>
      let r := append_run op file in
      let rs := append_all ops r.1 in
      (rs.1, r.2 :: rs.2)
  end.

Definition op_ok (op : append_op) : Prop := Forall accepted (ap_events op) ∧ Forall accepted (ap_onCreate op).

(** What an append wrote: the first of its records; all its events when the
    write was complete. *)
Definition wrote (op : append_op) (res : result jsstr unit) (written : list json) : Prop :=
  (∃ lead, lead ∈ [[]; ap_onCreate op] ∧ written `prefix_of` lead ++ ap_events op) ∧
  (ap_outcome op = Complete → res = Ok tt → ap_events op `suffix_of` written).

(** A log that is too large is left as it is. *)
Lemma append_refused op file : ¬ small file → ∃ e, append_run op file = (file, Throw e).
Proof using bound_pos.
  unfold small, append_run, appendSync, repairTailSync, check_size. destruct file as [bytes|]; [|done].
  destruct (maxBytes options) as [bound|]; [|done]. intros H.
  rewrite bool_decide_false by (intros ->; cbn in H; lia).
  destruct (Z.ltb_spec bound (Z.of_nat (length bytes))); [|lia]. by eexists.
Qed.

Lemma append_run_wrote rs file op : LogInv rs file → op_ok op →
  ∃ written, wrote op (append_run op file).2 written ∧ LogInv (rs ++ written) (append_run op file).1.
Proof using accepted_ok bound_pos.
  intros Hinv [He Hc]. assert (small file ∨ ¬ small file) as [Hs|Hs].
  { unfold small. destruct file as [b|], (maxBytes options) as [m|]; [lia|tauto..]. }
  - destruct (append_step rs file _ _ (ap_outcome op) Hinv Hs He Hc) as (k&Hk&Hw).
    exists (take k (new_records file (ap_onCreate op) (ap_events op))). split; [|done]. split.
    + exists (match file with Some _ => [] | None => ap_onCreate op end). split; [|apply prefix_take].
      destruct file; set_solver.
    + intros Hcomplete _. destruct (Hw Hcomplete) as [-> _]. rewrite firstn_all. by eexists.
  - destruct (append_refused op file Hs) as [e ->]. exists []. rewrite app_nil_r. split; [|done].
    split; [|done]. exists []. split; [set_solver|apply prefix_nil].
Qed.

Lemma append_all_wrote ops : Forall op_ok ops → ∀ rs file, LogInv rs file →
  ∃ ws, Forall3 wrote ops (append_all ops file).2 ws ∧ LogInv (rs ++ concat ws) (append_all ops file).1.
Proof using accepted_ok bound_pos.
  induction 1 as [|op ops Hop Hops IH]; intros rs file Hinv.
  { exists []. split; [constructor|by rewrite app_nil_r]. }
  destruct (append_run_wrote rs file op Hinv Hop) as (w&Hw&Hi). destruct (IH _ _ Hi) as (ws&Hws&Hinv').
  exists (w :: ws). split; [by constructor|]. cbn [concat]. by rewrite app_assoc.
Qed.
End append.
End shape.

(** ** Reading

    What a client promises of the function that parses its lines: a record it
    wrote is what [view] makes of it, and a line that is not JSON is rejected. *)

Class LineParser {T} (accepted : json → Prop) (parse_line : jsstr → Z → result jsstr (option T)) (view : json → option T) := {
  accepted_record r : accepted r → record_ok r;
  parse_accepted r i : accepted r → parse_line (stringify r) i = Ok (view r);
  parse_malformed line i : parse line = None → ∃ e, parse_line line i = Throw e
}.

Lemma trim_start_nil s : trim_start s = [] ↔ Forall (λ c, js_space c = true) s.
Proof.
  induction s as [|c s IH]; cbn; [done|]. rewrite Forall_cons. destruct (js_space c); [naive_solver|].
  split; [done|]. by intros [].
Qed.

(** A text that starts with a brace: only its end is trimmed. *)
Lemma trim_brace s : ∃ p, trim (123 :: s) = 123 :: p ∧ p `prefix_of` s.
Proof.
  unfold trim. cbn [trim_start]. change (js_space 123) with false. cbn iota. rewrite reverse_cons.
  destruct (trim_start_suffix (reverse s ++ [123])) as (p&E&Hp).
  destruct (trim_start (reverse s ++ [123])) as [|x t _] eqn:Et using rev_ind.
  { apply trim_start_nil, Forall_app in Et as [_ Et%Forall_inv]. done. }
  rewrite app_assoc in E. apply app_inj_tail in E as [E <-]. exists (reverse t). rewrite reverse_snoc. split; [done|].
  exists (reverse p). by rewrite <-reverse_app, <-E, reverse_involutive.
Qed.

Lemma trim_record r : record_ok r → trim (stringify r) = stringify r.
Proof.
  intros [_ (fs&->)]. rewrite stringify_obj. apply trim_id; [by intros c [= <-]|].
  intros c. rewrite app_comm_cons, last_snoc. by intros [= <-].
Qed.

(** The end of a record, trimmed, is not JSON either. *)
Lemma torn_trim r q t : record_ok r → utf8_encode (stringify r) = q ++ t → q ≠ [] → t ≠ [] →
  trim (utf8_decode q) ≠ [] ∧ parse (trim (utf8_decode q)) = None.
Proof.
  intros Hr E Hq Ht. destruct (torn_line r q t Hr E Ht) as [_ Hnone]. destruct Hr as [Hok (fs&->)].
  pose proof (stringify_text _ (proj1 Hok)) as Htext. destruct (torn_decode _ q t Htext E) as (p&k&Es&Hd).
  assert (∃ s, utf8_decode q = 123 :: s) as [s Hs].
  { rewrite stringify_obj in E. change (123 :: ?x) with ([123] ++ x) in E.
    rewrite utf8_encode_app in E by by apply is_text_asciib. destruct q as [|b q]; [done|]. injection E as <- _.
    exists (utf8_decode q). by apply (utf8_decode_app [123]), is_text_asciib. }
  destruct Hd as [[Hd Hk]|[Hd _]].
  - rewrite Hs. destruct (trim_brace s) as (p'&->&[k' ->]). split; [done|].
    apply (parse_prefix_object fs _ (k' ++ k)); [done| |by intros [_ ->]%app_nil; destruct Hk].
    rewrite Es, <-Hd, Hs. cbn. by rewrite <-app_assoc.
  - rewrite trim_id; [by rewrite Hnone, Hs|..].
    + intros c. rewrite Hs. by intros [= <-].
    + intros c. rewrite Hd, last_snoc. by intros [= <-].
Qed.

(** What a log reads as: the records, and the one whose bytes are all there
    but its line feed, if its append was cut just there. *)
Section replay.
Context {T : Type} (accepted : json → Prop) (parse_line : jsstr → Z → result jsstr (option T)) (view : json → option T).
Context `{LP : !LineParser accepted parse_line view}.
Context (path : jsstr) (options : EventLogOptions).

Definition few (n : nat) : Prop := match maxRecords options with Some bound => Z.of_nat n <= bound | None => True end.
#[local] Instance few_dec n : Decision (few n).
Proof. unfold few. destruct (maxRecords options); apply _. Defined.

Lemma replay_records rs rest ends i n :
  Forall accepted rs → match maxRecords options with Some bound => n + Z.of_nat (length rs) <= bound | None => True end →
  rest ≠ [] →
  replay_loop path options parse_line ends i n ((stringify <$> rs) ++ rest) =
  events ← replay_loop path options parse_line ends (i + Z.of_nat (length rs)) (n + Z.of_nat (length rs)) rest;
  Ok (omap view rs ++ events).
Proof using LP.
  intros Hrs. revert i n. induction Hrs as [|r rs Hr Hrs IH]; intros i n Hb Hrest.
  { cbn. rewrite !Z.add_0_r. by destruct (replay_loop _ _ _ _ _ _ rest). }
  cbn [fmap list_fmap app replay_loop]. cbv zeta. rewrite trim_record by by apply accepted_record.
  rewrite bool_decide_false by apply stringify_nonempty. cbn [length] in Hb.
  replace (match maxRecords options with Some bound => if bound <? n + 1 then Some bound else None | None => None end)
    with (@None Z) by (destruct (maxRecords options); [by zcmp|done]).
  rewrite parse_accepted by done. change (fmap stringify rs) with (stringify <$> rs).
  rewrite IH by (try (destruct (maxRecords options); [lia|]); done). cbn [length].
  replace (i + 1 + Z.of_nat (length rs)) with (i + Z.of_nat (S (length rs))) by lia.
  replace (n + 1 + Z.of_nat (length rs)) with (n + Z.of_nat (S (length rs))) by lia.
  destruct (replay_loop _ _ _ _ _ _ rest); cbn; [|done]. by destruct (view r).
Qed.

Lemma split_log rs tail : Forall accepted rs →
  js_split NL (utf8_decode (log_bytes rs ++ tail)) = (stringify <$> rs) ++ js_split NL (utf8_decode tail).
Proof using LP.
  intros Hrs. assert (lines_ok (Some <$> rs)) as Hok.
  { unfold lines_ok. rewrite Forall_fmap. eapply Forall_impl; [done|]. intros r Hr r' [= <-]. by apply accepted_record. }
  assert (lines_bytes (Some <$> rs) = log_bytes rs) as El.
  { unfold lines_bytes, log_bytes. clear. induction rs as [|r rs IH]; [done|]. cbn. by f_equal. }
  pose proof (split_lines _ tail Hok) as E. rewrite El in E. rewrite E. f_equal. clear. induction rs; cbn; by f_equal.
Qed.

Lemma torn_decoded tail : torn accepted tail → tail ≠ [] →
  (NL ∉ utf8_decode tail) ∧ utf8_decode tail ≠ [].
Proof using LP.
  intros [->|(r&t&Hr&E)] Hne; [done|]. pose proof (accepted_record r Hr) as Hok. destruct (decide (t = [])) as [->|Ht].
  - rewrite app_nil_r in E. rewrite <-E, utf8_stringify by apply Hok.
    split; [apply stringify_no_NL, Hok|apply stringify_nonempty].
  - split; [by eapply torn_line|]. destruct (torn_trim r tail t Hok E Hne Ht) as [Htrim _]. by intros Ed; rewrite Ed in Htrim.
Qed.

Lemma torn_trimmed tail : torn accepted tail → tail ≠ [] → trim (utf8_decode tail) ≠ [].
Proof using LP.
  intros [->|(r&t&Hr&E)] Hne; [done|]. pose proof (accepted_record r Hr) as Hok. destruct (decide (t = [])) as [->|Ht].
  - rewrite app_nil_r in E. rewrite <-E, utf8_stringify by apply Hok. rewrite trim_record by done. apply stringify_nonempty.
  - by apply (torn_trim r tail t Hok E Hne Ht).
Qed.

Lemma replay_tail tail ends i n : torn accepted tail → (tail ≠ [] → ends = false) →
  match maxRecords options with Some bound => n + (if decide (tail = []) then 0 else 1) <= bound | None => True end →
  ∃ final, (final = [] ∨ ∃ r, accepted r ∧ tail = utf8_encode (stringify r) ∧ final = [r]) ∧
    replay_loop path options parse_line ends i n (js_split NL (utf8_decode tail)) = Ok (omap view final).
Proof using LP.
  intros Htorn Hends Hb. destruct (decide (tail = [])) as [->|Hne].
  { exists []. split; [by left|reflexivity]. }
  destruct Htorn as [->|(r&t&Hr&E)]; [done|]. pose proof (accepted_record r Hr) as Hok.
  assert ((NL ∉ utf8_decode tail) ∧ ∃ final, (final = [] ∨ final = [r] ∧ t = []) ∧ trim (utf8_decode tail) ≠ [] ∧
    match parse_line (trim (utf8_decode tail)) i with
    | Ok e => omap view final = option_list e | Throw _ => final = [] end) as (Hnl&final&Hf&Htrim&Hp).
  { destruct (decide (t = [])) as [->|Ht].
    - rewrite app_nil_r in E. rewrite <-E, utf8_stringify by apply Hok. split; [apply stringify_no_NL, Hok|].
      exists [r]. split; [by right|]. rewrite trim_record by done. split; [apply stringify_nonempty|].
      rewrite parse_accepted by done. cbn. by destruct (view r).
    - destruct (torn_trim r tail t Hok E Hne Ht) as [Htrim Hp]. split; [by eapply torn_line|]. exists [].
      split; [by left|]. split; [done|]. by destruct (parse_malformed _ i Hp) as [e ->]. }
  exists final. split. { destruct Hf as [|[-> ->]]; [by left|right]. exists r. by rewrite app_nil_r in E. }
  rewrite js_split_single by done. cbn [replay_loop]. cbv zeta. rewrite bool_decide_false by done.
  replace (match maxRecords options with Some bound => if bound <? n + 1 then Some bound else None | None => None end)
    with (@None Z) by (destruct (maxRecords options); [by zcmp|done]).
  rewrite Hends by done. destruct (parse_line _ i) as [e|e]; cbn.
  - rewrite Hp. by destruct e.
  - by rewrite Hp.
Qed.

Lemma decode_log rs tail : Forall accepted rs →
  utf8_decode (log_bytes rs ++ tail) = concat (serializeLine <$> rs) ++ utf8_decode tail.
Proof using LP.
  intros Hrs. rewrite <-encode_lines by (eapply accepted_all; [apply accepted_record|done]).
  apply utf8_decode_app. induction Hrs as [|r rs Hr Hrs IH]; [apply is_text_nil|].
  cbn. apply is_text_app; [|done]. apply is_text_app; [|by apply is_text_asciib].
  apply stringify_text. apply (accepted_record r Hr).
Qed.

(** Only a log without a torn record ends with a line feed. *)
Lemma decode_ends rs tail : Forall accepted rs → torn accepted tail → tail ≠ [] →
  bool_decide (last (utf8_decode (log_bytes rs ++ tail)) = Some NL) = false.
Proof using LP.
  intros Hrs Ht Hne. apply bool_decide_false. rewrite decode_log by done.
  destruct (torn_decoded tail Ht Hne) as [Hnl Hd]. destruct (utf8_decode tail) as [|c s _] using rev_ind; [done|].
  rewrite app_assoc, last_snoc. intros [= ->]. set_solver.
Qed.

Lemma replay_log rs tail : Forall accepted rs → torn accepted tail → small options (Some (log_bytes rs ++ tail)) →
  few (length rs + (if decide (tail = []) then 0 else 1)) →
  ∃ final, (final = [] ∨ ∃ r, accepted r ∧ tail = utf8_encode (stringify r) ∧ final = [r]) ∧
    replaySync path options parse_line (Some (log_bytes rs ++ tail)) = Ok (omap view (rs ++ final)).
Proof using LP.
  intros Hrs Ht Hs Hf. unfold replaySync, readAllSync. rewrite check_size_ok by done. cbn [mbind result_bind]. cbv zeta.
  rewrite split_log by done. unfold few in Hf.
  set (ends := bool_decide _). destruct (replay_tail tail ends (0 + Z.of_nat (length rs)) (0 + Z.of_nat (length rs)) Ht)
    as (final&Hfinal&E).
  - intros Hne. by apply decode_ends.
  - destruct (maxRecords options); [|done]. case_decide; lia.
  - exists final. split; [done|]. rewrite replay_records; [|done| |apply js_split_nonempty].
    + rewrite E. cbn [mbind result_bind]. by rewrite omap_app.
    + destruct (maxRecords options); [|done]. case_decide; lia.
Qed.

(** More records than the bound. *)
Lemma replay_many rs rest ends bound : Forall accepted rs → maxRecords options = Some bound → ∀ i n,
  n <= bound → bound < n + Z.of_nat (length rs) →
  replay_loop path options parse_line ends i n ((stringify <$> rs) ++ rest) = Throw (tooMany path bound).
Proof using LP.
  intros Hrs Hb. induction Hrs as [|r rs Hr Hrs IH]; intros i n Hn Hlt; [cbn in Hlt; lia|].
  cbn [fmap list_fmap app replay_loop]. cbv zeta. rewrite trim_record by by apply accepted_record.
  rewrite bool_decide_false by apply stringify_nonempty. rewrite Hb. cbn [length] in Hlt.
  destruct (Z.ltb_spec bound (n + 1)); [done|]. rewrite parse_accepted by done.
  change (fmap stringify rs) with (stringify <$> rs). by rewrite IH by lia.
Qed.

Lemma replay_refused rs file : LogInv accepted rs file →
  ¬ small options file ∨ ¬ few (length rs) → 0 <= default 0 (maxRecords options) →
  ∃ e, replaySync path options parse_line file = Throw e.
Proof using LP.
  intros [Hrs Hfile] Hbad Hpos. destruct file as [bytes|].
  - destruct Hfile as (tail&Ht&->). unfold replaySync, readAllSync, check_size.
    unfold small in Hbad. set (bytes := log_bytes rs ++ tail) in *. destruct (maxBytes options) as [bound|] eqn:Em.
    1: destruct (Z.ltb_spec bound (Z.of_nat (length bytes))); [by eexists|].
    all: cbn [mbind result_bind]; cbv zeta; subst bytes; rewrite split_log by done;
      unfold few in Hbad; destruct (maxRecords options) as [m|] eqn:Er; [|exfalso; destruct Hbad as [Hbad|Hbad]; by apply Hbad];
      cbn in Hpos; eexists; apply (replay_many rs _ _ m); [done..|lia|].
    all: destruct Hbad as [Hbad|Hbad]; [exfalso; by apply Hbad|]; lia.
  - subst rs. exfalso. unfold few in Hbad. cbn in Hbad. destruct (maxRecords options); cbn in *; destruct Hbad as [[]|Hbad]; try done; lia.
Qed.

(** The file does not end with a record that lacks only its line feed. *)
Definition settled (file : option (list Z)) : Prop :=
  ∀ rs r, Forall accepted rs → accepted r → file ≠ Some (log_bytes rs ++ utf8_encode (stringify r)).

(** Whole lines are settled. *)
Lemma settled_lines rs : Forall accepted rs → settled (Some (log_bytes rs)).
Proof using LP.
  intros Hrs qs r Hqs Hr [= E]. pose proof (accepted_record r Hr) as Hok.
  destruct (decide (rs = [])) as [->|Hne].
  - symmetry in E. apply app_nil in E as [_ E]. apply (stringify_nonempty r).
    rewrite <-utf8_stringify by apply Hok. by rewrite E.
  - destruct (log_bytes_last rs) as [b Hb]; [by eapply accepted_all; [apply accepted_record|]|done|].
    apply (NL_record r Hok). destruct (utf8_encode (stringify r)) as [|x s _] eqn:Es using rev_ind.
    { exfalso. apply (stringify_nonempty r). rewrite <-utf8_stringify by apply Hok. by rewrite Es. }
    rewrite Hb, app_assoc in E. apply app_inj_tail in E as [_ <-]. set_solver.
Qed.

(** A torn line beyond the bound of the records. *)
Lemma replay_torn_many rs tail bound : Forall accepted rs → torn accepted tail → tail ≠ [] →
  maxRecords options = Some bound → Z.of_nat (length rs) = bound →
  small options (Some (log_bytes rs ++ tail)) →
  replaySync path options parse_line (Some (log_bytes rs ++ tail)) = Throw (tooMany path bound).
Proof using LP.
  intros Hrs Ht Hne Hb Hlen Hs. unfold replaySync, readAllSync. rewrite check_size_ok by done. cbn [mbind result_bind]. cbv zeta.
  rewrite split_log, replay_records by (try rewrite Hb; try lia; try done; apply js_split_nonempty).
  destruct (torn_decoded tail Ht Hne) as [Hnl _]. rewrite js_split_single by done. cbn [replay_loop]. cbv zeta.
  rewrite bool_decide_false; [|by apply torn_trimmed]. rewrite Hb. destruct (Z.ltb_spec bound (0 + Z.of_nat (length rs) + 1)); [done|lia].
Qed.

(** A settled log that can be read at all reads as its records. *)
Lemma replay_settled rs file es : LogInv accepted rs file → settled file → 0 <= default 0 (maxRecords options) →
  replaySync path options parse_line file = Ok es → es = omap view rs.
Proof using LP.
  intros Hinv Hset Hpos E. pose proof Hinv as [Hrs Hfile].
  assert (small options file ∧ few (length rs)) as [Hs Hf].
  { assert (¬ (¬ small options file ∨ ¬ few (length rs))) as Hn.
    { intros Hbad. destruct (replay_refused rs file Hinv Hbad Hpos) as [e He]. congruence. }
    unfold small, few in *. destruct file, (maxBytes options), (maxRecords options); split; try done; lia. }
  destruct file as [bytes|]; [|subst rs; by injection E as <-]. destruct Hfile as (tail&Ht&->).
  destruct (decide (few (length rs + (if decide (tail = []) then 0 else 1)))) as [Hf'|Hf'].
  - destruct (replay_log rs tail Hrs Ht Hs Hf') as (final&[->|(r&Hr&->&->)]&E').
    + rewrite E' in E. injection E as <-. by rewrite app_nil_r.
    + by destruct (Hset rs r).
  - unfold few in *. destruct (maxRecords options) as [bound|] eqn:Hb; [|done]. case_decide as Hne; [lia|].
    rewrite (replay_torn_many rs tail bound) in E by (done || lia). done.
Qed.

(** ** The guarantees *)

Context (bound_pos : match maxBytes options with Some bound => 0 <= bound | None => True end).

(** C23: Whatever becomes of the writes of a sequence of appends — complete, cut
    short by a crash, an error or a short write — the log holds, in their order,
    the first records of each append, all its events when its write was
    complete; no record is lost or invented by a later append and its repair.
    While it is within its bounds it reads as what the client's parser makes of
    these records, and at most one more, which is whole but for its line
    feed. *)
Theorem log_durable ops :
  Forall (op_ok accepted) ops →
  let r := append_all path options ops None in
  ∃ ws, Forall3 wrote ops r.2 ws ∧
    (small options r.1 → few (S (length (concat ws))) →
     ∃ final, (final = [] ∨ ∃ t, accepted t ∧ r.1 = Some (log_bytes (concat ws) ++ utf8_encode (stringify t)) ∧ final = [t]) ∧
       replaySync path options parse_line r.1 = Ok (omap view (concat ws ++ final))).
Proof using LP bound_pos.
  intros Hops. cbv zeta.
  destruct (append_all_wrote accepted accepted_record path options bound_pos ops Hops [] None) as (ws&Hws&Hinv).
  { split; [constructor|done]. }
  exists ws. split; [done|]. intros Hs Hf. cbn [app] in Hinv. destruct Hinv as [Hrs Hfile].
  destruct (append_all _ _ _ _).1 as [bytes|]; [destruct Hfile as (tail&Ht&->)|].
  - destruct (replay_log (concat ws) tail Hrs Ht Hs) as (final&Hfinal&E).
    + unfold few in *. destruct (maxRecords options); [|done]. case_decide; lia.
    + exists final. split; [|done]. destruct Hfinal as [->|(t&Ht'&->&->)]; [by left|right]. by exists t.
  - exists []. split; [by left|]. by rewrite Hfile.
Qed.

(** An append does not check the bounds of the log it leaves.  Once one has
    passed them — the bytes, or the records — every reading from then on throws,
    whatever is appended later. *)
Theorem append_past_bounds rs file op ops :
  LogInv accepted rs file → small options file → 0 <= default 0 (maxRecords options) →
  Forall (op_ok accepted) (op :: ops) → ap_outcome op = Complete →
  let r := append_run path options op file in
  ¬ small options r.1 ∨ ¬ few (length (rs ++ new_records file (ap_onCreate op) (ap_events op))) →
  r.2 = Ok tt ∧ ∃ e, replaySync path options parse_line (append_all path options ops r.1).1 = Throw e.
Proof using LP bound_pos.
  intros Hinv Hs Hpos [[He Hc] Hops]%Forall_cons Hw. cbv zeta. unfold append_run.
  destruct (append_step accepted accepted_record path options rs file _ _ (ap_outcome op) Hinv Hs He Hc) as (k&Hk&Hall).
  destruct (Hall Hw) as [-> Er]. rewrite Er in *. rewrite firstn_all in Hk. cbn [fst snd] in *. set (new := rs ++ _) in *.
  intros Hbad. split; [done|]. set (file' := Some (log_bytes new)) in *. clearbody new file'. clear Er Hall.
  destruct Hbad as [Hbad|Hbad].
  - assert ((append_all path options ops file').1 = file') as ->; [|by eapply replay_refused; [|left|]].
    clear -Hbad bound_pos. induction ops as [|o ops IH]; [done|]. cbn.
    by destruct (append_refused path options bound_pos o file' Hbad) as [e ->].
  - destruct (append_all_wrote accepted accepted_record path options bound_pos ops Hops new file' Hk) as (ws&_&Hinv').
    eapply replay_refused; [done| |done]. right. unfold few in *. destruct (maxRecords options); [|tauto].
    rewrite length_app. lia.
Qed.

Lemma replay_unterminated rs r : Forall accepted rs → accepted r →
  small options (Some (log_bytes rs ++ utf8_encode (stringify r))) → few (S (length rs)) →
  replaySync path options parse_line (Some (log_bytes rs ++ utf8_encode (stringify r))) = Ok (omap view (rs ++ [r])).
Proof using LP.
  intros Hrs Hr Hs Hf. pose proof (accepted_record r Hr) as Hok. unfold few in Hf.
  assert (maxRecords options = None ∨ ∃ bound, maxRecords options = Some bound ∧ Z.of_nat (S (length rs)) <= bound) as Hb
    by (destruct (maxRecords options); eauto).
  unfold replaySync, readAllSync. rewrite check_size_ok by done. cbn [mbind result_bind]. cbv zeta.
  rewrite split_log by done. rewrite replay_records; [|done| |apply js_split_nonempty].
  - rewrite utf8_stringify by apply Hok. rewrite js_split_single by apply stringify_no_NL, Hok. cbn [replay_loop]. cbv zeta.
    rewrite trim_record by done. rewrite bool_decide_false by apply stringify_nonempty. rewrite parse_accepted by done.
    destruct Hb as [->|(bound&->&Hb)].
    + cbn. rewrite omap_app. cbn. by destruct (view r).
    + destruct (Z.ltb_spec bound (0 + Z.of_nat (length rs) + 1)); [lia|]. cbn. rewrite omap_app. cbn. by destruct (view r).
  - destruct Hb as [->|(bound&->&Hb)]; [done|lia].
Qed.

(** A record that lacks only its line feed, because its append stopped just
    there, is read like the others, and the repair of the next append removes
    it: what was read is gone. *)
Theorem unterminated_record_dropped rs r r2 :
  Forall accepted rs → accepted r → accepted r2 →
  small options (Some (log_bytes rs ++ line_bytes r)) → small options (Some (log_bytes rs ++ line_bytes r2)) →
  few (S (length rs)) →
  let file1 := (appendSync path options [r] [] true (Failed (length (utf8_encode (stringify r)))) (Some (log_bytes rs))).1 in
  let file2 := (appendSync path options [r2] [] true Complete file1).1 in
  replaySync path options parse_line file1 = Ok (omap view (rs ++ [r])) ∧
  replaySync path options parse_line file2 = Ok (omap view (rs ++ [r2])).
Proof using LP bound_pos.
  intros Hrs Hr Hr2 Hs1 Hs2 Hf. cbv zeta. pose proof (accepted_record r Hr) as Hok. rewrite line_bytes_eq in Hs1 by done.
  assert (∀ a b, small options (Some (a ++ b)) → small options (Some a)) as Hmono.
  { intros a b. unfold small. destruct (maxBytes options); [|done]. rewrite length_app. lia. }
  assert (LogInv accepted rs (Some (log_bytes rs))) as Hinv.
  { split; [done|]. exists []. split; [by left|by rewrite app_nil_r]. }
  assert ((appendSync path options [r] [] true (Failed (length (utf8_encode (stringify r)))) (Some (log_bytes rs))).1 =
    Some (log_bytes rs ++ utf8_encode (stringify r))) as ->.
  { unfold appendSync. rewrite (repair_log accepted accepted_record path options rs) by eauto. cbn [write_bytes fst app].
    change (serializeLine <$> [r]) with ([serializeLine r]). cbn [concat]. rewrite app_nil_r.
    change (utf8_encode (serializeLine r)) with (line_bytes r). rewrite line_bytes_eq by done. by rewrite take_app_length. }
  split.
  - apply replay_unterminated; try done. rewrite app_assoc in Hs1. by apply Hmono in Hs1.
  - assert (LogInv accepted rs (Some (log_bytes rs ++ utf8_encode (stringify r)))) as Hinv1.
    { split; [done|]. eexists. split; [right; exists r, []; by rewrite app_nil_r|done]. }
    assert (small options (Some (log_bytes rs ++ utf8_encode (stringify r)))) as Hs1'
      by (rewrite app_assoc in Hs1; by apply Hmono in Hs1).
    destruct (append_step accepted accepted_record path options rs _ [r2] [] Complete Hinv1 Hs1') as (k&_&Hall);
      [by apply Forall_singleton|constructor|].
    destruct (Hall eq_refl) as [_ ->]. cbn [fst new_records app]. rewrite log_bytes_app.
    destruct (replay_log (rs ++ [r2]) []) as (final&Hfinal&E).
    + by apply Forall_app_2; [|apply Forall_singleton].
    + by left.
    + rewrite app_nil_r, log_bytes_app. unfold log_bytes at 2. cbn. by rewrite app_nil_r.
    + rewrite decide_True by done. rewrite length_app. cbn. unfold few in *. destruct (maxRecords options); [lia|done].
    + rewrite app_nil_r, log_bytes_app in E. rewrite E. destruct Hfinal as [->|(x&Hx&Habs&_)]; [by rewrite app_nil_r|].
      exfalso. apply (stringify_nonempty x). rewrite <-utf8_stringify by apply (accepted_record x Hx). by rewrite <-Habs.
Qed.
End replay.
