(* ===== verification/RlmLedger.v ===== *)
(** * The ledger of spawned agents

    Models [packages/coding-agent/src/modes/daemon/rlm-ledger.ts] and
    [canonicalSessionPath] of [core/session-lease.ts]: the records, their
    parser, the edges they stand for, the operations of [RlmSpawnLedger], its
    seeding from the older registries, and the family of a sessions directory.

    Paths, the clock and the hash are the class [Platform].  A directory listing
    and the existence of files are arguments of the operations that read them.
    The operations of an instance are queued: each is one step.  The fields of a
    row that are only displayed are not modelled. *)

From stdpp Require Import sorting.
From S2P Require Import Prelude.
From S2P Require Import JsMap.
From S2P Require Import JsString.
From S2P Require Import Json.
From S2P Require Import JsonParse.
From S2P Require Import JsonlFile.
From S2P Require Import Eff.
From S2P Require Import EventLog.

Class Platform := {
  now : nat → jsstr;                       (* [new Date().toISOString()] at a tick *)
  resolve : jsstr → jsstr;
  realpathSync : jsstr → option jsstr;     (* [None]: it throws *)
  dirname : jsstr → jsstr;
  basename : jsstr → jsstr;
  join : list jsstr → jsstr;
  sha256_hex : jsstr → jsstr
}.

(** ** Records *)

Definition RLM_LEDGER_DIR : jsstr := js "rlm-ledger".
Definition RLM_LEDGER_MAX_BYTES : Z := 32 * 1024 * 1024.
Definition RLM_LEDGER_MAX_RECORDS : Z := 100000.

Inductive RlmLedgerDeleteReason := DUser | DParentTeardown | DRevoked | DGc.
#[export] Instance RlmLedgerDeleteReason_eq_dec : EqDecision RlmLedgerDeleteReason.
Proof. solve_decision. Defined.

Definition reason_str (r : RlmLedgerDeleteReason) : jsstr :=
  match r with
  | DUser => js "user" | DParentTeardown => js "parent-teardown" | DRevoked => js "revoked" | DGc => js "gc"
  end.

Inductive RlmLedgerRecord :=
| Meta (at_ sessionsDir : jsstr)
| Spawn (at_ childId parent child : jsstr) (depth : Z) (name : jsstr)
| Rename (at_ childId child name : jsstr)
| Delete (at_ childId child : jsstr) (reason : RlmLedgerDeleteReason).

Definition fields (op at_ : jsstr) (fs : list (jsstr * json)) : json :=
  JObj ([(js "v", JNum 1); (js "op", JStr op); (js "at", JStr at_)] ++ fs).

Definition record_json (r : RlmLedgerRecord) : json :=
  match r with
  | Meta t dir => fields (js "meta") t [(js "sessionsDir", JStr dir)]
  | Spawn t childId parent child depth name => fields (js "spawn") t
      [(js "childId", JStr childId); (js "parent", JStr parent); (js "child", JStr child);
       (js "depth", JNum depth); (js "name", JStr name)]
  | Rename t childId child name => fields (js "rename") t
      [(js "childId", JStr childId); (js "child", JStr child); (js "name", JStr name)]
  | Delete t childId child reason => fields (js "delete") t
      [(js "childId", JStr childId); (js "child", JStr child); (js "reason", JStr (reason_str reason))]
  end.

Definition isDeleteReason (value : option json) : option RlmLedgerDeleteReason :=
  match value with
  | Some (JStr s) =>
      if bool_decide (s = js "user") then Some DUser
      else if bool_decide (s = js "parent-teardown") then Some DParentTeardown
      else if bool_decide (s = js "revoked") then Some DRevoked
      else if bool_decide (s = js "gc") then Some DGc
      else None
  | _ => None
  end.

Definition malformed {A} (index : Z) (what : jsstr) : result jsstr A :=
  Throw (js "Malformed RLM ledger line " ++ js_of_Z (index + 1) ++ js ": " ++ what).

Definition parseLedgerLine (line : jsstr) (index : Z) : result jsstr (option RlmLedgerRecord) :=
  match parse line with
  | None => malformed index (js "not JSON")
  | Some record =>
      v ← prop record "v"; at_ ← prop record "at";
      op ← prop record "op"; sessionsDir ← prop record "sessionsDir";
      childId ← prop record "childId"; parent ← prop record "parent"; child ← prop record "child";
      depth ← prop record "depth"; name ← prop record "name"; reason ← prop record "reason";
      match bool_decide (v = Some (JNum 1)), at_ with
      | true, Some (JStr at_) =>
          if bool_decide (op = Some (JStr (js "meta"))) then
            match sessionsDir with
            | Some (JStr dir) => Ok (Some (Meta at_ dir))
            | _ => malformed index (js "meta without sessionsDir")
            end
          else if bool_decide (op = Some (JStr (js "spawn"))) then
            match childId, parent, child, name, depth with
            | Some (JStr childId), Some (JStr parent), Some (JStr child), Some (JStr name), Some (JNum depth) =>
                if negb (isSafeInteger depth) || (depth <? 1) then malformed index (js "invalid spawn record")
                else Ok (Some (Spawn at_ childId parent child depth name))
            | _, _, _, _, _ => malformed index (js "invalid spawn record")
            end
          else if bool_decide (op = Some (JStr (js "rename"))) then
            match childId, child, name with
            | Some (JStr childId), Some (JStr child), Some (JStr name) => Ok (Some (Rename at_ childId child name))
            | _, _, _ => malformed index (js "invalid rename record")
            end
          else if bool_decide (op = Some (JStr (js "delete"))) then
            match childId, child, isDeleteReason reason with
            | Some (JStr childId), Some (JStr child), Some reason => Ok (Some (Delete at_ childId child reason))
            | _, _, _ => malformed index (js "invalid delete record")
            end
          else Ok None
      | _, _ => malformed index (js "missing v/at")
      end
  end.

Record RlmLedgerEdge := MkEdge {
  e_childId : jsstr; e_parent : jsstr; e_child : jsstr; e_depth : Z; e_name : jsstr;
  e_deleted : option RlmLedgerDeleteReason
}.
#[export] Instance RlmLedgerEdge_eq_dec : EqDecision RlmLedgerEdge.
Proof. solve_decision. Defined.

(** The entry of an older registry, as far as the seeding reads it. *)
Inductive registry_status := Running | Completed | Deleted.
Record RlmLedgerSeedRegistryEntry := MkSeedEntry {
  s_childId : jsstr; s_sessionName : jsstr; s_sessionFile : jsstr; s_rlmDepth : option Z; s_status : registry_status
}.

Definition registry_entry (entry : json) : result jsstr (option RlmLedgerSeedRegistryEntry) :=
  type ← prop entry "type"; childId ← prop entry "childId"; sessionName ← prop entry "sessionName";
  sessionFile ← prop entry "sessionFile"; status ← prop entry "status"; rlmDepth ← prop entry "rlmDepth";
  Ok match bool_decide (type = Some (JStr (js "rlm_subagent"))), childId, sessionName, sessionFile with
     | true, Some (JStr childId), Some (JStr sessionName), Some (JStr sessionFile) =>
         st ← (if bool_decide (status = Some (JStr (js "running"))) then Some Running
               else if bool_decide (status = Some (JStr (js "completed"))) then Some Completed
               else if bool_decide (status = Some (JStr (js "deleted"))) then Some Deleted else None);
         match rlmDepth with
         | None => Some (MkSeedEntry childId sessionName sessionFile None st)
         | Some (JNum d) => if negb (isSafeInteger d) || (d <? 0) then None
                            else Some (MkSeedEntry childId sessionName sessionFile (Some d) st)
         | Some _ => None
         end
     | _, _, _, _ => None
     end.

(** A line that is not JSON, or whose fields cannot be read, is ignored. *)
Definition registry_line (latest : list (jsstr * RlmLedgerSeedRegistryEntry)) (line : jsstr)
    : list (jsstr * RlmLedgerSeedRegistryEntry) :=
  match parse (trim line) with
  | Some entry =>
      match registry_entry entry with
      | Ok (Some e) => jm_set latest (s_childId e) e
      | _ => latest
      end
  | None => latest
  end.

(** The carriage return that ends a line is trimmed with it.  [None]: the file
    cannot be read. *)
Definition readLegacyRlmSubagentRegistry (contents : option jsstr) : list RlmLedgerSeedRegistryEntry :=
  match contents with
  | None => []
  | Some contents => jm_values (foldl registry_line [] (js_split NL contents))
  end.

(** [createRlmLedgerRegistrySeedSource]: the first line of a session file, the
    path of its artifacts, and the contents of files are arguments. *)
Definition readRegistryForSessionFile (firstLine : jsstr → option jsstr) (artifact : jsstr → jsstr → jsstr)
    (readFile : jsstr → option jsstr) (sessionFile : jsstr) : list RlmLedgerSeedRegistryEntry :=
  match line ← firstLine sessionFile; parse line with
  | Some header =>
      match prop header "id" with
      | Ok (Some (JStr ((_ :: _) as headerId))) => readLegacyRlmSubagentRegistry (readFile (artifact sessionFile headerId))
      | _ => []
      end
  | None => []
  end.

(** ** Paths *)

Section ledger.
Context `{Platform}.

Definition canonicalSessionPath (sessionPath : jsstr) : jsstr :=
  let resolvedPath := resolve sessionPath in
  match realpathSync resolvedPath with
  | Some p => p
  | None =>
      match realpathSync (dirname resolvedPath) with
      | Some d => join [d; basename resolvedPath]
      | None => resolvedPath
      end
  end.

(** [canonicalizeDirPath] *)
Definition canonicalizeDirPath (dir : jsstr) : jsstr :=
  let resolved := resolve dir in default resolved (realpathSync resolved).

Definition rlmLedgerPath (agentDir sessionsDir : jsstr) : jsstr :=
  let canonical := canonicalizeDirPath sessionsDir in
  let hash := take 16 (sha256_hex canonical) in
  join [agentDir; RLM_LEDGER_DIR; hash ++ js ".jsonl"].

Definition edgeKey (childId child : jsstr) : jsstr := childId ++ [0] ++ canonicalSessionPath child.

(** ** Replay *)

(** The edges of the records, in the order of the map. *)
Definition apply_record (edges : list (jsstr * RlmLedgerEdge)) (record : RlmLedgerRecord) : list (jsstr * RlmLedgerEdge) :=
  match record with
  | Meta _ _ => edges
  | Spawn _ childId parent child depth name =>
      jm_set edges (edgeKey childId child) (MkEdge childId parent child depth name None)
  | Rename _ childId child name =>
      let key := edgeKey childId child in
      match jm_get edges key with
      | Some e => jm_set edges key (MkEdge (e_childId e) (e_parent e) (e_child e) (e_depth e) name (e_deleted e))
      | None => edges
      end
  | Delete _ childId child reason =>
      let key := edgeKey childId child in
      match jm_get edges key with
      | Some e => jm_set edges key (MkEdge (e_childId e) (e_parent e) (e_child e) (e_depth e) (e_name e) (Some reason))
      | None => edges
      end
  end.

Definition ledger_options : EventLogOptions := MkOptions (Some RLM_LEDGER_MAX_BYTES) (Some RLM_LEDGER_MAX_RECORDS).

Definition replay_edges (path : jsstr) (file : option (list Z)) : result jsstr (list (jsstr * RlmLedgerEdge)) :=
  records ← replaySync path ledger_options parseLedgerLine file;
  Ok (foldl apply_record [] records).

(** ** State

    The file, the clock, and what becomes of the writes to come: whether the
    repair before one works, and how much of it is written. *)

Record RlmSpawnLedger := MkLedger {
  lg_file : option (list Z);
  lg_ticks : nat;
  lg_writes : list (bool * write_outcome);
  seedAttempted : bool
}.

#[local] Abbreviation L := (eff RlmSpawnLedger jsstr).

Definition set_file (f : option (list Z)) (s : RlmSpawnLedger) : RlmSpawnLedger :=
  MkLedger f (lg_ticks s) (lg_writes s) (seedAttempted s).

Definition nowIso : L jsstr := λ s,
  (MkLedger (lg_file s) (S (lg_ticks s)) (lg_writes s) (seedAttempted s), Ok (now (lg_ticks s))).

Definition next_write : L (bool * write_outcome) := λ s,
  (MkLedger (lg_file s) (lg_ticks s) (tail (lg_writes s)) (seedAttempted s), Ok (default (true, Complete) (head (lg_writes s)))).

Section operations.
Context (path canonicalSessionsDir : jsstr).

Definition replay : L (list (jsstr * RlmLedgerEdge)) :=
  file ← egets lg_file;
  elift (replay_edges path file).

Definition appendRecord (record : RlmLedgerRecord) : L unit :=
  file ← egets lg_file;
  onCreate ← match file with
             | Some _ => mret []
             | None => t ← nowIso; mret [record_json (Meta t canonicalSessionsDir)]
             end;
  w ← next_write;
  let r := appendSync path ledger_options [record_json record] onCreate w.1 w.2 file in
  emodify (set_file r.1);; elift r.2.

(** ** Operations *)

Definition live (edges : list (jsstr * RlmLedgerEdge)) : list RlmLedgerEdge :=
  filter (λ e, e_deleted e = None) (jm_values edges).

Definition child_path (e : RlmLedgerEdge) : jsstr := canonicalSessionPath (e_child e).
Definition parent_path (e : RlmLedgerEdge) : jsstr := canonicalSessionPath (e_parent e).

Record SpawnInput := MkSpawn {
  in_childId : jsstr; in_parent : jsstr; in_child : jsstr; in_depth : Z; in_name : jsstr
}.

Definition invalid_spawn (i : SpawnInput) : bool :=
  bool_decide (in_childId i = []) || bool_decide (in_parent i = []) || bool_decide (in_child i = []) ||
  negb (isSafeInteger (in_depth i)) || (in_depth i <? 1).

Definition appendSpawnUnlocked (i : SpawnInput) : L unit :=
  if invalid_spawn i then
    ethrow (js "RLM ledger: invalid spawn for " ++
            (if bool_decide (in_childId i = []) then js "<missing childId>" else in_childId i) ++
            js " (depth " ++ js_of_Z (in_depth i) ++ js ")")
  else
    let childPath := canonicalSessionPath (in_child i) in
    edges ← replay;
    match head (filter (λ e, child_path e = childPath ∧ e_childId e ≠ in_childId i) (live edges)) with
    | Some e => ethrow (js "RLM ledger: duplicate child session path " ++ childPath ++ js " (already " ++ e_childId e ++ js ")")
    | None =>
        t ← nowIso;
        appendRecord (Spawn t (in_childId i) (canonicalSessionPath (in_parent i)) childPath (in_depth i) (in_name i))
    end.

Definition appendRename (childId child name : jsstr) : L unit :=
  t ← nowIso;
  appendRecord (Rename t childId (canonicalSessionPath child) name).

Definition appendRenameByChildPath (child name : jsstr) : L unit :=
  let target := canonicalSessionPath child in
  edges ← replay;
  efor (filter (λ e, child_path e = target) (live edges)) (λ e,
    t ← nowIso;
    appendRecord (Rename t (e_childId e) target name)).

Definition appendDelete (childId child : jsstr) (reason : RlmLedgerDeleteReason) : L unit :=
  t ← nowIso;
  appendRecord (Delete t childId (canonicalSessionPath child) reason).

Definition edges (includeDeleted : bool) : L (list RlmLedgerEdge) :=
  e ← replay;
  mret (if includeDeleted then jm_values e else live e).

(** An edge whose files both exist. *)
Definition alive (isFile : jsstr → bool) (e : RlmLedgerEdge) : bool := isFile (child_path e) && isFile (parent_path e).

Definition liveEdgesUnlocked (isFile : jsstr → bool) : L (list RlmLedgerEdge) :=
  e ← replay;
  mret (filter (λ e, alive isFile e = true) (live e)).

(** ** The family of a sessions directory

    A row as [sessionRow] is called. *)

Record SessionRow := MkRow { row_path : jsstr; row_depth : Z; row_parent : option jsstr; row_name : option jsstr }.
#[export] Instance SessionRow_eq_dec : EqDecision SessionRow.
Proof. solve_decision. Defined.

Definition jsonl : jsstr := js ".jsonl".
Definition endsWith (s suffix : jsstr) : bool := bool_decide (drop (length s - length suffix) s = suffix).

(** The session files of the directory, sorted; [None]: it cannot be read. *)
Definition session_files (readdir : option (list jsstr)) : list jsstr :=
  merge_sort js_le (filter (λ name, endsWith name jsonl = true) (default [] readdir)).

Definition root_paths (byChild : list (jsstr * RlmLedgerEdge)) (readdir : option (list jsstr)) : list jsstr :=
  filter (λ path, jm_has byChild path = false)
    ((λ entry, canonicalSessionPath (join [canonicalSessionsDir; entry])) <$> session_files readdir).

(** An edge that does not contradict the depth of its parent. *)
Definition depth_ok (depthByPath : list (jsstr * Z)) (e : RlmLedgerEdge) : bool :=
  match jm_get depthByPath (parent_path e) with
  | Some parentDepth => e_depth e =? parentDepth + 1
  | None => true
  end.

Definition family_rows (isFile : jsstr → bool) (readdir : option (list jsstr)) (edges : list RlmLedgerEdge) : list SessionRow :=
  let alive := filter (λ e, alive isFile e = true) edges in
  let byChild := foldl (λ m e, jm_set m (child_path e) e) [] alive in
  let rootPaths := root_paths byChild readdir in
  let depthByPath := foldl (λ m e, jm_set m (child_path e) (e_depth e)) [] alive in
  let consistent := filter (λ e, depth_ok depthByPath e = true) alive in
  ((λ path, MkRow path 0 None None) <$> rootPaths) ++
  ((λ e, MkRow (child_path e) (e_depth e) (Some (parent_path e)) (Some (e_name e))) <$> consistent).

Definition familyUnlocked (isFile : jsstr → bool) (readdir : option (list jsstr)) : L (list SessionRow) :=
  e ← replay;
  mret (family_rows isFile readdir (live e)).

Definition siblings (isFile : jsstr → bool) (readdir : option (list jsstr)) (sessionPath : jsstr) : L (list SessionRow) :=
  let target := canonicalSessionPath sessionPath in
  family ← familyUnlocked isFile readdir;
  e ← replay;
  let parentByChild := foldl (λ m e, jm_set m (child_path e) (parent_path e)) [] (live e) in
  let is_target := λ row, canonicalSessionPath (row_path row) = target in
  mret match jm_get parentByChild target with
       | Some parent =>
           let rows := filter (λ row, jm_get parentByChild (canonicalSessionPath (row_path row)) = Some parent) family in
           if bool_decide (Exists is_target rows) then rows
           else if isFile target then [MkRow target 0 None None] else rows
       | None =>
           let roots := filter (λ row, row_depth row = 0) family in
           if bool_decide (Exists is_target roots) then roots
           else if isFile target then [MkRow target 0 None None] else []
       end.

(** ** Seeding

    [registry] is the source of the older registries; [writes] says that the
    temporary file is written. *)

Record SeedState := MkSeed {
  sd_queue : list (jsstr * Z);
  sd_visited : list jsstr;
  sd_records : list RlmLedgerRecord;
  sd_ticks : nat
}.

Definition seed_depth (entry : RlmLedgerSeedRegistryEntry) (depth : Z) : Z :=
  match s_rlmDepth entry with
  | Some d => if 1 <=? d then d else depth + 1
  | None => depth + 1
  end.

Definition seed_entry (sessionFile : jsstr) (depth : Z) (s : SeedState) (entry : RlmLedgerSeedRegistryEntry) : SeedState :=
  match s_status entry with
  | Deleted => s
  | _ =>
      let childPath := canonicalSessionPath (s_sessionFile entry) in
      if bool_decide (childPath ∈ sd_visited s) then s else
      let visited := childPath :: sd_visited s in
      let childDepth := seed_depth entry depth in
      if bool_decide (s_childId entry = []) then MkSeed (sd_queue s) visited (sd_records s) (sd_ticks s)
      else MkSeed (sd_queue s ++ [(s_sessionFile entry, childDepth)]) visited
             (sd_records s ++ [Spawn (now (sd_ticks s)) (s_childId entry) (canonicalSessionPath sessionFile) childPath
                                 childDepth (s_sessionName entry)])
             (S (sd_ticks s))
  end.

(** [None]: the fuel does not suffice. *)
Fixpoint seed_loop (registry : jsstr → list RlmLedgerSeedRegistryEntry) (fuel : nat) (s : SeedState) : option SeedState :=
  match sd_queue s with
  | [] => Some s
  | (sessionFile, depth) :: queue =>
      match fuel with
      | O => None
      | S fuel => seed_loop registry fuel
                    (foldl (seed_entry sessionFile depth) (MkSeed queue (sd_visited s) (sd_records s) (sd_ticks s)) (registry sessionFile))
      end
  end.

Definition seed_start (readdir : list jsstr) (ticks : nat) : SeedState :=
  let roots := (λ name, join [canonicalSessionsDir; name]) <$> session_files (Some readdir) in
  MkSeed ((λ p, (p, 0)) <$> roots) (canonicalSessionPath <$> roots) [] ticks.

Definition seed_payload (meta_at : jsstr) (records : list RlmLedgerRecord) : jsstr :=
  concat (serializeLine <$> (record_json <$> Meta meta_at canonicalSessionsDir :: records)).

Definition seed_fits (records : list RlmLedgerRecord) (payload : jsstr) : bool :=
  negb ((RLM_LEDGER_MAX_RECORDS <? Z.of_nat (length records) + 1) || (RLM_LEDGER_MAX_BYTES <? byteLength payload)).

(** [link] does not replace a file; [links]: the file system has it. *)
Definition publishSeedFile (links : bool) (temp : list Z) (file : option (list Z)) : option (list Z) :=
  match file with Some _ => file | None => if links then Some temp else None end.

Definition seed (source : option (jsstr → list RlmLedgerSeedRegistryEntry)) (readdir : option (list jsstr))
    (fuel : nat) (writes links : bool) (s : RlmSpawnLedger) : RlmSpawnLedger :=
  match source, lg_file s, readdir with
  | Some registry, None, Some names =>
      match seed_loop registry fuel (seed_start names (lg_ticks s)) with
      | None => s
      | Some st =>
          let s := MkLedger (lg_file s) (sd_ticks st) (lg_writes s) (seedAttempted s) in
          match sd_records st with
          | [] => s
          | records =>
              let s' := MkLedger (lg_file s) (S (lg_ticks s)) (lg_writes s) (seedAttempted s) in
              let payload := seed_payload (now (lg_ticks s)) records in
              if negb (seed_fits records payload) || negb writes then s'
              else set_file (publishSeedFile links (utf8_encode payload) (lg_file s')) s'
          end
      end
  | _, _, _ => s
  end.

(** The first operation seeds the ledger. *)
Definition enqueue {A} (source : option (jsstr → list RlmLedgerSeedRegistryEntry)) (readdir : option (list jsstr))
    (fuel : nat) (writes links : bool) (fn : L A) : L A := λ s,
  if seedAttempted s then fn s
  else fn (seed source readdir fuel writes links (MkLedger (lg_file s) (lg_ticks s) (lg_writes s) true)).

(** ** Clients *)

(** The descendants added to a list of saved sessions: their paths, parents and
    depths.  [info] is the working directory of a readable session. *)
Fixpoint passive_rows (info : jsstr → option jsstr) (cwd : option jsstr) (seen : list jsstr) (es : list RlmLedgerEdge)
    : list (jsstr * jsstr * Z) :=
  match es with
  | [] => []
  | e :: es =>
      let childPath := child_path e in
      if bool_decide (childPath ∈ seen) then passive_rows info cwd seen es else
      let rest := passive_rows info cwd (childPath :: seen) es in
      match info childPath with
      | None => rest
      | Some infoCwd =>
          match cwd with
          | Some c => if bool_decide (infoCwd = []) || negb (bool_decide (resolve infoCwd = resolve c)) then rest
                      else (childPath, e_parent e, e_depth e) :: rest
          | None => (childPath, e_parent e, e_depth e) :: rest
          end
      end
  end.

Definition withPassiveRlmDescendantInfos (info : jsstr → option jsstr) (cwd : option jsstr) (isFile : jsstr → bool)
    (savedSessions : list jsstr) : L (list (jsstr * jsstr * Z)) :=
  ecatch (es ← liveEdgesUnlocked isFile; mret (passive_rows info cwd (canonicalSessionPath <$> savedSessions) es))
    (λ _, mret []).

(** What the transcript says: its parent and its depth; and the runtime kind of
    the summary the caller knows. *)
Inductive runtimeKind := TopLevel | Subagent.

Definition positivelyTopLevel (info : option (option jsstr * option Z)) (summary : option (option runtimeKind)) : bool :=
  let knownChild :=
    match summary with Some (Some Subagent) => true | _ => false end ||
    match info with Some (Some _, _) => true | _ => false end ||
    match info with Some (_, Some d) => 0 <? d | _ => false end in
  negb knownChild && (match summary with Some _ => true | None => false end || match info with Some _ => true | None => false end).

Definition tombstoneSavedSessionDelete (sessionPath : jsstr) (info : option (option jsstr * option Z))
    (summary : option (option runtimeKind)) : L (option RlmLedgerEdge) :=
  let deletedPath := canonicalSessionPath sessionPath in
  if positivelyTopLevel info summary then mret None else
  es ← edges false;
  let matching := filter (λ e, child_path e = deletedPath) es in
  efor matching (λ e, appendDelete (e_childId e) sessionPath DUser);;
  mret (head matching).
End operations.
End ledger.
