(* ===== verification/RlmLedgerSpec.v ===== *)
(** * What the ledger of spawned agents guarantees

    The records of the ledger are what its parser accepts ([ledger_parser], an
    instance of [LineParser]).  The file stands for a map from children to
    edges; every operation changes it as specified or not at all, wherever its
    write stops; at most one live edge leads to a session. *)

From stdpp Require Import gmap.
From S2P Require Import Prelude.
From S2P Require Import JsMap.
From S2P Require Import JsString.
From S2P Require Import Json.
From S2P Require Import JsonParse.
From S2P Require Import JsonlFile.
From S2P Require Import Eff.
From S2P Require Import EventLog.
From S2P Require Import EventLogSpec.
From S2P Require Import RlmLedger.

(** ** Records and their lines *)

Definition wf_record (r : RlmLedgerRecord) : Prop :=
  match r with
  | Meta t dir => units t ∧ units dir
  | Spawn t childId parent child depth name =>
      units t ∧ units childId ∧ units parent ∧ units child ∧ units name ∧ 1 <= depth ∧ isSafeInteger depth = true
  | Rename t childId child name => units t ∧ units childId ∧ units child ∧ units name
  | Delete t childId child _ => units t ∧ units childId ∧ units child
  end.

Definition ledger_record (j : json) : Prop := ∃ r, wf_record r ∧ j = record_json r.

(** The names of a record are distinct and its strings are strings. *)
Ltac fields_ok :=
  split; [apply json_ok_obj; split;
    [apply (bool_decide_unpack (NoDup _)); vm_compute; exact I|
     repeat (apply Forall_cons; split; [split; [by apply unitsb_spec|]|]); try apply Forall_nil;
     try done; split; cbn; try done; try by apply unitsb_spec]
    |by eexists].

Lemma record_json_ok r : wf_record r → record_ok (record_json r).
Proof.
  destruct r as [t dir|t i p c d n|t i c n|t i c []]; cbn [wf_record]; intros;
    destruct_and?; unfold record_json, fields; cbn [app]; fields_ok.
Qed.

Lemma parse_record_json r i : wf_record r → parseLedgerLine (stringify (record_json r)) i = Ok (Some r).
Proof.
  intros Hr. unfold parseLedgerLine. rewrite parse_stringify by apply record_json_ok, Hr.
  destruct r as [t dir|t c p ch d n|t c ch n|t c ch []]; try reflexivity.
  destruct Hr as (_&_&_&_&_&Hd&Hs).
  transitivity (if negb (isSafeInteger d) || (d <? 1) then malformed i (js "invalid spawn record")
                else Ok (Some (Spawn t c p ch d n))); [reflexivity|]. rewrite Hs. by zcmp.
Qed.

Definition ledger_view (j : json) : option RlmLedgerRecord :=
  match parseLedgerLine (stringify j) 0 with Ok v => v | Throw _ => None end.

Lemma ledger_view_record r : wf_record r → ledger_view (record_json r) = Some r.
Proof. intros Hr. unfold ledger_view. by rewrite parse_record_json. Qed.

#[export] Instance ledger_parser : LineParser ledger_record parseLedgerLine ledger_view.
Proof.
  split.
  - intros j (r&Hr&->). by apply record_json_ok.
  - intros j i (r&Hr&->). by rewrite parse_record_json, ledger_view_record.
  - intros line i E. unfold parseLedgerLine. rewrite E. by eexists.
Qed.

Lemma ledger_view_records rs : Forall wf_record rs → omap ledger_view (record_json <$> rs) = rs.
Proof. induction 1 as [|r rs Hr Hrs IH]; [done|]. cbn. rewrite ledger_view_record by done. by f_equal. Qed.

(** ** The types of parsed records *)

(** The field of an object. *)
Definition has (j : json) (name : string) (v : json) : Prop := ∃ fs, j = JObj fs ∧ jm_get fs (js name) = Some v.

(** The values of a line and the record they are, as its type says. *)
Inductive typed (j : json) : RlmLedgerRecord → Prop :=
| TMeta t dir : has j "v" (JNum 1) → has j "op" (JStr (js "meta")) → has j "at" (JStr t) →
    has j "sessionsDir" (JStr dir) → typed j (Meta t dir)
| TSpawn t i p c d n : has j "v" (JNum 1) → has j "op" (JStr (js "spawn")) → has j "at" (JStr t) →
    has j "childId" (JStr i) → has j "parent" (JStr p) → has j "child" (JStr c) → has j "depth" (JNum d) →
    has j "name" (JStr n) → 1 <= d <= 2 ^ 53 - 1 → typed j (Spawn t i p c d n)
| TRename t i c n : has j "v" (JNum 1) → has j "op" (JStr (js "rename")) → has j "at" (JStr t) →
    has j "childId" (JStr i) → has j "child" (JStr c) → has j "name" (JStr n) → typed j (Rename t i c n)
| TDelete t i c r : has j "v" (JNum 1) → has j "op" (JStr (js "delete")) → has j "at" (JStr t) →
    has j "childId" (JStr i) → has j "child" (JStr c) → has j "reason" (JStr (reason_str r)) → typed j (Delete t i c r).

Lemma isDeleteReason_spec o r : isDeleteReason o = Some r ↔ o = Some (JStr (reason_str r)).
Proof.
  split.
  - unfold isDeleteReason. destruct o as [[]|]; try done. repeat case_bool_decide; subst; by intros [= <-].
  - intros ->. by destruct r.
Qed.

(** The field the parser looks at has the type it asks for. *)
Ltac field_step :=
  match goal with E : match jm_get ?fs ?k with _ => _ end = Ok _ |- _ =>
    destruct (jm_get fs k) as [[]|] eqn:?; try done
  end.

(** A line is accepted as a record exactly when it is a JSON object with the
    fields of the record's type: version 1, strings where the type has strings,
    a depth that is a positive safe integer, and one of the four reasons. *)
Theorem parse_typed line i r :
  parseLedgerLine line i = Ok (Some r) ↔ ∃ j, parse line = Some j ∧ typed j r.
Proof.
  unfold parseLedgerLine. destruct (parse line) as [j|]; [|split; [done|by intros (j&?&_)]].
  split.
  - intros E. exists j. split; [done|]. destruct j as [|b|z|s|l|fs]; try done. cbn [prop mbind result_bind] in E.
    case_bool_decide as Hv; [|done]. destruct (jm_get fs (js "at")) as [[| | |t| |]|] eqn:Ht; try done.
    assert (∀ name v, jm_get fs (js name) = Some v → has (JObj fs) name v) as Hhas by (intros; by exists fs).
    case_bool_decide; [|case_bool_decide; [|case_bool_decide; [|case_bool_decide; [|done]]]].
    + field_step. injection E as <-. by apply TMeta; apply Hhas.
    + do 5 field_step. destruct (isSafeInteger _) eqn:Hs; [|done]. destruct (Z.ltb_spec z 1); [done|]. injection E as <-.
      unfold isSafeInteger in Hs. apply TSpawn; try by apply Hhas. lia.
    + do 3 field_step. injection E as <-. by apply TRename; apply Hhas.
    + do 2 field_step. destruct (isDeleteReason _) as [x|] eqn:Hr; [|done]. apply isDeleteReason_spec in Hr. injection E as <-.
      by apply TDelete; apply Hhas.
  - intros (j'&[= <-]&Ht).
    destruct Ht; repeat match goal with H : has j _ _ |- _ => destruct H as (?&?&?) end; simplify_eq;
      cbn [prop mbind result_bind]; repeat match goal with H : jm_get _ _ = _ |- _ => rewrite H; clear H end.
    + reflexivity.
    + transitivity (if negb (isSafeInteger d) || (d <? 1) then malformed i (js "invalid spawn record")
                    else Ok (Some (Spawn t i0 p c d n))); [reflexivity|]. unfold isSafeInteger. by zcmp.
    + reflexivity.
    + by destruct r.
Qed.

(** ** Paths

    What the ledger relies on: a resolved path stays as it is, so does a real
    path, and a file that does not exist is named by its real directory. *)

Class Paths `{Platform} := {
  resolve_resolve p : resolve (resolve p) = resolve p;
  realpath_real p q : realpathSync p = Some q → resolve q = q ∧ realpathSync q = Some q;
  missing_file p d : realpathSync (resolve p) = None → realpathSync (dirname (resolve p)) = Some d →
    let j := join [d; basename (resolve p)] in
    resolve j = j ∧ realpathSync j = None ∧ dirname j = d ∧ basename j = basename (resolve p);
  missing_units p d : realpathSync (dirname (resolve p)) = Some d → units (join [d; basename (resolve p)]);
  resolve_units p : units p → units (resolve p);
  realpath_units p q : realpathSync p = Some q → units q;
  now_units n : units (now n)
}.

Section ledger.
Context `{Paths}.

Lemma canonical_idem p : canonicalSessionPath (canonicalSessionPath p) = canonicalSessionPath p.
Proof.
  unfold canonicalSessionPath. cbv zeta. destruct (realpathSync (resolve p)) as [q|] eqn:Eq.
  { apply realpath_real in Eq as [-> ->]. done. }
  destruct (realpathSync (dirname (resolve p))) as [d|] eqn:Ed.
  - destruct (missing_file p d Eq Ed) as (-> & -> & -> & ->). apply realpath_real in Ed as [_ ->]. done.
  - by rewrite resolve_resolve, Eq, Ed.
Qed.

Lemma canonical_units p : units p → units (canonicalSessionPath p).
Proof.
  intros Hp. unfold canonicalSessionPath. cbv zeta. destruct (realpathSync (resolve p)) as [q|] eqn:Eq.
  { by eapply realpath_units. }
  destruct (realpathSync (dirname (resolve p))) as [d|] eqn:Ed; [by apply missing_units|by apply resolve_units].
Qed.

Definition canonical (p : jsstr) : Prop := canonicalSessionPath p = p.

(** ** The map the ledger stands for

    From a child's identifier and the path of its session to its edge.  The
    identifiers contain no NUL. *)

Definition good_id (i : jsstr) : Prop := 0 ∉ i.

Lemma edgeKey_inj i c i' c' : good_id i → good_id i' → canonical c → canonical c' →
  edgeKey i c = edgeKey i' c' → i = i' ∧ c = c'.
Proof.
  unfold edgeKey, canonical. intros Hi Hi' -> ->. cbn [app]. intros E.
  assert (js_split 0 (i ++ 0 :: c) = js_split 0 (i' ++ 0 :: c')) as Es by by rewrite E.
  rewrite !js_split_app_sep in Es by done. injection Es as -> _. split; [done|]. apply app_inv_head in E. by injection E.
Qed.

Abbreviation family := (gmap (jsstr * jsstr) RlmLedgerEdge).

Definition edge_ok (e : RlmLedgerEdge) : Prop :=
  good_id (e_childId e) ∧ canonical (e_child e) ∧ canonical (e_parent e) ∧ 1 <= e_depth e ∧ units (e_childId e).

(** What a record does to the map. *)
Definition spec_record (r : RlmLedgerRecord) (fam : family) : family :=
  match r with
  | Meta _ _ => fam
  | Spawn _ i p c d n => <[(i, c) := MkEdge i p c d n None]> fam
  | Rename _ i c n =>
      alter (λ e, MkEdge (e_childId e) (e_parent e) (e_child e) (e_depth e) n (e_deleted e)) (i, c) fam
  | Delete _ i c reason =>
      alter (λ e, MkEdge (e_childId e) (e_parent e) (e_child e) (e_depth e) (e_name e) (Some reason)) (i, c) fam
  end.

Definition record_fits (r : RlmLedgerRecord) : Prop :=
  match r with
  | Meta _ _ => True
  | Spawn _ i p c _ _ => good_id i ∧ canonical p ∧ canonical c
  | Rename _ i c _ | Delete _ i c _ => good_id i ∧ canonical c
  end.

(** The entries of the list are those of the map. *)
Definition stands_for (es : list (jsstr * RlmLedgerEdge)) (fam : family) : Prop :=
  keys_NoDup es ∧
  (∀ i c e, fam !! (i, c) = Some e → edge_ok e ∧ e_childId e = i ∧ e_child e = c) ∧
  (∀ i c, good_id i → canonical c → jm_get es (edgeKey i c) = fam !! (i, c)) ∧
  (∀ k e, jm_get es k = Some e → k = edgeKey (e_childId e) (e_child e) ∧ edge_ok e).

Lemma stands_for_nil : stands_for [] ∅.
Proof. split_and!; [apply NoDup_nil_2|intros ???; by rewrite lookup_empty|done..]. Qed.

(** An update of one entry. *)
Lemma stands_for_set es fam i c e :
  stands_for es fam → edge_ok e → e_childId e = i → e_child e = c →
  stands_for (jm_set es (edgeKey i c) e) (<[(i, c) := e]> fam).
Proof.
  intros (Hnd&Hfam&Hget&Hes) He Hi Hc. assert (good_id i ∧ canonical c) as [Hgi Hcc] by (destruct He; naive_solver).
  split_and!.
  - by apply jm_set_NoDup.
  - intros i' c' e' [[[= <- <-] <-]|[_ ?]]%lookup_insert_Some; [done|by apply Hfam].
  - intros i' c' Hi' Hc'. rewrite jm_get_set. destruct (decide ((i, c) = (i', c'))) as [[= <- <-]|Hne].
    + by rewrite decide_True, lookup_insert_eq by done.
    + rewrite decide_False, lookup_insert_ne by (done || by intros [-> ->]%edgeKey_inj). by apply Hget.
  - intros k e'. rewrite jm_get_set. case_decide as Hk; [intros [= <-]; by rewrite Hi, Hc|apply Hes].
Qed.

Lemma stands_for_alter es fam i c f :
  stands_for es fam → good_id i → canonical c →
  (∀ e, edge_ok e → edge_ok (f e) ∧ e_childId (f e) = e_childId e ∧ e_child (f e) = e_child e) →
  stands_for (match jm_get es (edgeKey i c) with Some e => jm_set es (edgeKey i c) (f e) | None => es end)
    (alter f (i, c) fam).
Proof.
  intros Hst Hi Hc Hf. pose proof Hst as (Hnd&Hfam&Hget&Hes). rewrite (Hget i c Hi Hc).
  destruct (fam !! (i, c)) as [e|] eqn:E.
  - destruct (Hfam _ _ _ E) as (He&Hei&Hec). destruct (Hf e He) as (Hfe&Hfi&Hfc).
    assert (alter f (i, c) fam = <[(i, c) := f e]> fam) as ->.
    { apply map_eq. intros k. destruct (decide ((i, c) = k)) as [<-|]; by simplify_map_eq. }
    apply stands_for_set; congruence.
  - assert (alter f (i, c) fam = fam) as ->; [|done].
    apply map_eq. intros k. destruct (decide ((i, c) = k)) as [<-|]; by simplify_map_eq.
Qed.

Lemma apply_record_spec es fam r : stands_for es fam → wf_record r → record_fits r →
  stands_for (apply_record es r) (spec_record r fam).
Proof.
  intros Hst Hwf Hfits. destruct r as [t d|t i p c d n|t i c n|t i c reason]; cbn [apply_record spec_record]; [done|..].
  - destruct Hfits as (?&?&?). apply stands_for_set; [done| |done..]. cbn in Hwf. by destruct_and?.
  - destruct Hfits as [Hi Hc]. apply (stands_for_alter es fam i c _ Hst Hi Hc). done.
  - destruct Hfits as [Hi Hc]. apply (stands_for_alter es fam i c _ Hst Hi Hc). done.
Qed.

Definition spec_records (rs : list RlmLedgerRecord) (fam : family) : family := foldl (λ f r, spec_record r f) fam rs.

Lemma apply_records_spec rs : Forall (λ r, wf_record r ∧ record_fits r) rs → ∀ es fam, stands_for es fam →
  stands_for (foldl apply_record es rs) (spec_records rs fam).
Proof.
  induction 1 as [|r rs [Hwf Hfits] Hrs IH]; intros es fam Hst; [done|]. cbn. apply IH. by apply apply_record_spec.
Qed.

(** ** The file *)

Section store.
Context (path dir : jsstr) (dir_units : units dir).

Definition edges_of (recs : list RlmLedgerRecord) : list (jsstr * RlmLedgerEdge) := foldl apply_record [] recs.

Lemma edges_of_app a b : edges_of (a ++ b) = foldl apply_record (edges_of a) b.
Proof. apply foldl_app. Qed.

Definition good_record (r : RlmLedgerRecord) : Prop := wf_record r ∧ record_fits r.

(** The file holds these records, and perhaps a torn one. *)
Definition holds (recs : list RlmLedgerRecord) (file : option (list Z)) : Prop :=
  Forall good_record recs ∧ LogInv ledger_record (record_json <$> recs) file.

Lemma good_wf rs : Forall good_record rs → Forall wf_record rs.
Proof. intros Hrs. eapply Forall_impl; [done|by intros r []]. Qed.

Lemma good_accepted rs : Forall good_record rs → Forall ledger_record (record_json <$> rs).
Proof. intros Hrs. rewrite Forall_fmap. eapply Forall_impl; [done|]. intros r [Hr _]. by exists r. Qed.

Lemma holds_nil : holds [] None.
Proof. split; [constructor|]. split; [constructor|done]. Qed.

(** Reading a settled file. *)
Lemma replay_holds recs file es : holds recs file → settled ledger_record file →
  replay_edges path file = Ok es → es = edges_of recs.
Proof.
  intros [Hrecs Hinv] Hset. unfold replay_edges.
  destruct (replaySync path ledger_options parseLedgerLine file) as [rs|e] eqn:E; [|done]. intros [= <-].
  assert (0 <= default 0 (maxRecords ledger_options)) as Hpos by (cbn; unfold RLM_LEDGER_MAX_RECORDS; lia).
  rewrite (replay_settled ledger_record parseLedgerLine ledger_view path ledger_options _ file rs Hinv Hset Hpos E).
  by rewrite ledger_view_records by by apply good_wf.
Qed.

(** The repairs of the appends to come work. *)
Definition repairing (s : RlmSpawnLedger) : Prop := Forall (λ w, w.1 = true) (lg_writes s).

Definition next_outcome (s : RlmSpawnLedger) : write_outcome := (default (true, Complete) (head (lg_writes s))).2.

Lemma prefix_records written (rs : list RlmLedgerRecord) : written `prefix_of` record_json <$> rs →
  ∃ new, new `prefix_of` rs ∧ written = record_json <$> new.
Proof.
  intros [k E]. exists (take (length written) rs). split; [apply prefix_take|].
  by rewrite fmap_take, E, take_app_length.
Qed.

Definition is_meta (r : RlmLedgerRecord) : Prop := match r with Meta _ _ => True | _ => False end.

Lemma metas_edges ms : Forall is_meta ms → ∀ es, foldl apply_record es ms = es.
Proof. induction 1 as [|[] ms Hm Hms IH]; intros es; try done. apply IH. Qed.

Lemma prefix_snoc_cases (new l : list RlmLedgerRecord) r : new `prefix_of` l ++ [r] → new `prefix_of` l ∨ new = l ++ [r].
Proof.
  intros [k E]. destruct k as [|x k _] using rev_ind; [right; by rewrite app_nil_r in E|left].
  rewrite app_assoc in E. apply app_inj_tail in E as [-> _]. by eexists.
Qed.

(** An append of a record: it is in the file, or nothing but the description of
    the ledger is. *)
Lemma appendRecord_holds s recs r :
  holds recs (lg_file s) → good_record r → repairing s →
  let res := appendRecord path dir r s in
  ∃ new, holds (recs ++ new) (lg_file res.1) ∧
    (edges_of (recs ++ new) = edges_of recs ∨ edges_of (recs ++ new) = apply_record (edges_of recs) r) ∧
    (next_outcome s = Complete → res.2 = Ok tt → edges_of (recs ++ new) = apply_record (edges_of recs) r) ∧
    repairing res.1.
Proof using All.
  intros [Hrecs Hinv] Hr Hrep. cbv zeta.
  set (metas := match lg_file s with Some _ => [] | None => [Meta (now (lg_ticks s)) dir] end).
  set (o := next_outcome s).
  set (op := MkAppend [record_json r] (record_json <$> metas) o).
  assert (Forall good_record metas) as Hmetas.
  { subst metas. destruct (lg_file s); [constructor|]. apply Forall_singleton. split; [split; [apply now_units|done]|done]. }
  assert (appendRecord path dir r s =
    (MkLedger (append_run path ledger_options op (lg_file s)).1 (match lg_file s with Some _ => lg_ticks s | None => S (lg_ticks s) end)
       (tail (lg_writes s)) (seedAttempted s), (append_run path ledger_options op (lg_file s)).2)) as ->.
  { assert ((default (true, Complete) (head (lg_writes s))).1 = true) as Hw.
    { destruct Hrep; done. }
    unfold appendRecord, append_run, op, o, next_outcome, metas, egets, elift, emodify, mbind, eff_bind, next_write, nowIso.
    destruct s as [[bytes|] tk [|[b v] ws] sa]; cbn in Hw; subst; reflexivity. }
  destruct (append_run_wrote ledger_record accepted_record path ledger_options ltac:(done) _ _ op Hinv)
    as (written&[(lead&Hlead&Hpre) Hsuf]&Hinv').
  { split; [apply (good_accepted [r])|apply good_accepted]; [by apply Forall_singleton|done]. }
  assert (∃ lead', lead' ∈ [[]; metas] ∧ written `prefix_of` record_json <$> (lead' ++ [r])) as (lead'&Hl'&Hpre').
  { cbn in Hpre. apply elem_of_cons in Hlead as [->| ->%list_elem_of_singleton]; [exists []|exists metas];
      (split; [set_solver|]); by rewrite ?fmap_app. }
  destruct (prefix_records _ _ Hpre') as (new&Hnew&->). exists new. rewrite <-fmap_app in Hinv'.
  assert (Forall good_record (lead' ++ [r])) as Hall.
  { apply Forall_app_2; [|by apply Forall_singleton]. apply elem_of_cons in Hl' as [->| ->%list_elem_of_singleton]; [constructor|done]. }
  assert (Forall is_meta metas) as Hmeta by (subst metas; destruct (lg_file s); by repeat constructor).
  assert (Forall is_meta lead') as Hl by (apply elem_of_cons in Hl' as [->| ->%list_elem_of_singleton]; [constructor|done]).
  assert (Forall good_record new) as Hnew'.
  { destruct Hnew as [k E]. rewrite E in Hall. by apply Forall_app in Hall as [? _]. }
  assert (edges_of (recs ++ new) = edges_of recs ∧ Forall is_meta new ∨
          edges_of (recs ++ new) = apply_record (edges_of recs) r) as Heff.
  { rewrite edges_of_app. apply prefix_snoc_cases in Hnew as [[k E]| ->].
    - left. rewrite E in Hl. apply Forall_app in Hl as [Hl _]. by rewrite (metas_edges new Hl).
    - right. rewrite foldl_app, (metas_edges lead' Hl). reflexivity. }
  cbn [lg_file lg_writes fst snd]. split_and!.
  - split; [|done]. by apply Forall_app_2.
  - destruct Heff as [[E _]| ->]; [by left|by right].
  - intros Ho Hres. destruct Heff as [[E Hm]| ->]; [|done]. rewrite E.
    specialize (Hsuf Ho Hres). destruct Hsuf as [k Ek].
    assert (record_json r ∈ record_json <$> new) as (m&Em&Hin)%list_elem_of_fmap by (rewrite Ek; set_solver).
    rewrite Forall_forall in Hm. specialize (Hm m Hin). rewrite Forall_forall in Hnew'.
    pose proof (f_equal ledger_view Em) as Ev. rewrite !ledger_view_record in Ev by (apply Hr || by apply Hnew').
    injection Ev as ->. by destruct m.
  - unfold repairing in *. cbn. by destruct Hrep.
Qed.

(** ** Operations *)

Definition Rep (fam : family) (file : option (list Z)) : Prop :=
  ∃ recs, holds recs file ∧ stands_for (edges_of recs) fam.

Inductive ledger_op :=
| OSpawn (i : SpawnInput)
| ORename (childId child name : jsstr)
| ORenamePath (child name : jsstr)
| ODelete (childId child : jsstr) (reason : RlmLedgerDeleteReason).

Definition run_op (op : ledger_op) : eff RlmSpawnLedger jsstr unit :=
  match op with
  | OSpawn i => appendSpawnUnlocked path dir i
  | ORename i c n => appendRename path dir i c n
  | ORenamePath c n => appendRenameByChildPath path dir c n
  | ODelete i c r => appendDelete path dir i c r
  end.

Definition op_wf (op : ledger_op) : Prop :=
  match op with
  | OSpawn i => units (in_childId i) ∧ good_id (in_childId i) ∧ units (in_parent i) ∧ units (in_child i) ∧ units (in_name i)
  | ORename i c n => units i ∧ good_id i ∧ units c ∧ units n
  | ORenamePath c n => units c ∧ units n
  | ODelete i c _ => units i ∧ good_id i ∧ units c
  end.

(** A live edge to the session that belongs to another child. *)
Definition conflict (fam : family) (childId child : jsstr) : Prop :=
  ∃ i e, fam !! (i, child) = Some e ∧ e_deleted e = None ∧ i ≠ childId.

Definition with_name (n : jsstr) (e : RlmLedgerEdge) : RlmLedgerEdge :=
  MkEdge (e_childId e) (e_parent e) (e_child e) (e_depth e) n (e_deleted e).
Definition with_deleted (r : RlmLedgerDeleteReason) (e : RlmLedgerEdge) : RlmLedgerEdge :=
  MkEdge (e_childId e) (e_parent e) (e_child e) (e_depth e) (e_name e) (Some r).

(** What an operation does to the map. *)
Inductive spec_op (fam : family) : ledger_op → family → Prop :=
| SSpawn i : invalid_spawn i = false → ¬ conflict fam (in_childId i) (canonicalSessionPath (in_child i)) →
    spec_op fam (OSpawn i)
      (<[(in_childId i, canonicalSessionPath (in_child i)) :=
           MkEdge (in_childId i) (canonicalSessionPath (in_parent i)) (canonicalSessionPath (in_child i))
             (in_depth i) (in_name i) None]> fam)
| SRename i c n : spec_op fam (ORename i c n) (alter (with_name n) (i, canonicalSessionPath c) fam)
| SRenamePath c n : spec_op fam (ORenamePath c n)
    ((λ e, if decide (e_deleted e = None ∧ e_child e = canonicalSessionPath c) then with_name n e else e) <$> fam)
| SDelete i c r : spec_op fam (ODelete i c r) (alter (with_deleted r) (i, canonicalSessionPath c) fam).

(** Some of an operation: every edge is that of before or that of after. *)
Definition between (fam fam' after : family) : Prop := ∀ k, fam' !! k = fam !! k ∨ fam' !! k = after !! k.

(** Nothing, or an operation that is allowed, as far as it came. *)
Definition outcome (fam : family) (op : ledger_op) (fam' : family) : Prop :=
  fam' = fam ∨ ∃ after, spec_op fam op after ∧ between fam fam' after.

Lemma nowIso_file s : lg_file (nowIso s).1 = lg_file s ∧ lg_writes (nowIso s).1 = lg_writes s.
Proof. done. Qed.

Lemma next_complete s : Forall (λ w, w.2 = Complete) (lg_writes s) → next_outcome (nowIso s).1 = Complete.
Proof. unfold next_outcome. change (lg_writes (nowIso s).1) with (lg_writes s). by intros []. Qed.

(** One record. *)
Lemma append_rep s fam r : Rep fam (lg_file s) → good_record r → repairing s →
  let res := appendRecord path dir r s in
  ∃ fam', Rep fam' (lg_file res.1) ∧ repairing res.1 ∧ (fam' = fam ∨ fam' = spec_record r fam) ∧
    (next_outcome s = Complete → res.2 = Ok tt → fam' = spec_record r fam).
Proof using All.
  intros (recs&Hholds&Hst) Hr Hrep. cbv zeta.
  destruct (appendRecord_holds s recs r Hholds Hr Hrep) as (new&Hnew&Heff&Hdone&Hrep').
  pose proof (apply_record_spec _ _ r Hst (proj1 Hr) (proj2 Hr)) as Hst'.
  destruct (decide (edges_of (recs ++ new) = apply_record (edges_of recs) r)) as [E|Hne].
  - exists (spec_record r fam). split_and!; [|done|by right|done]. exists (recs ++ new). by rewrite E.
  - destruct Heff as [E|]; [|done]. exists fam. split_and!; [|done|by left|].
    + exists (recs ++ new). by rewrite E.
    + intros Ho Hres. by destruct Hne; apply Hdone.
Qed.

Lemma live_spec es fam : stands_for es fam → ∀ e,
  e ∈ live es ↔ fam !! (e_childId e, e_child e) = Some e ∧ e_deleted e = None.
Proof.
  intros (Hnd&Hfam&Hget&Hes) e. unfold live. rewrite list_elem_of_filter, jm_values_elem. split.
  - intros [Hd (k&Hin)]. split; [|done]. pose proof (elem_jm_get _ _ _ Hnd Hin) as Hg.
    destruct (Hes k e Hg) as [-> He]. by rewrite <-Hget by apply He.
  - intros [Hf Hd]. split; [done|]. destruct (Hfam _ _ _ Hf) as (He&_&_).
    exists (edgeKey (e_childId e) (e_child e)). apply jm_get_elem. rewrite Hget by apply He. done.
Qed.

Lemma live_canonical es fam e : stands_for es fam → e ∈ live es → edge_ok e ∧ child_path e = e_child e.
Proof. intros Hst Hin. destruct (proj1 (live_spec es fam Hst e) Hin) as [Hf _]. destruct Hst as (_&Hfam&_). destruct (Hfam _ _ _ Hf) as (He&_&_). split; [done|apply He]. Qed.

(** Several appends that change edges in the same way, as far as they came. *)
Definition altered (f : RlmLedgerEdge → RlmLedgerEdge) (ks : list (jsstr * jsstr)) (fam : family) : family :=
  foldl (λ fam k, alter f k fam) fam ks.

Lemma altered_lookup f ks : (∀ e, f (f e) = f e) → ∀ fam k, altered f ks fam !! k =
  if bool_decide (k ∈ ks) then f <$> fam !! k else fam !! k.
Proof.
  intros Hf. induction ks as [|k' ks IH]; intros fam k; [done|].
  change (altered f (k' :: ks) fam) with (altered f ks (alter f k' fam)). rewrite IH.
  assert (∀ o : option RlmLedgerEdge, f <$> (f <$> o) = f <$> o) as Hidem by (intros []; cbn; by rewrite ?Hf).
  destruct (decide (k' = k)) as [<-|Hne].
  - rewrite lookup_alter_eq, Hidem, (bool_decide_true (k' ∈ k' :: ks)) by set_solver. by case_bool_decide.
  - rewrite lookup_alter_ne by done. do 2 case_bool_decide; set_solver.
Qed.

(** A loop of appends. *)
Section loop.
Context (f : RlmLedgerEdge → RlmLedgerEdge) (mk : jsstr → RlmLedgerEdge → RlmLedgerRecord) (target : jsstr).

Definition append_loop (l : list RlmLedgerEdge) : eff RlmSpawnLedger jsstr unit :=
  efor l (λ e, t ← nowIso; appendRecord path dir (mk t e)).

Definition keys (l : list RlmLedgerEdge) : list (jsstr * jsstr) := (λ e, (e_childId e, target)) <$> l.

Lemma append_loop_spec l :
  Forall (λ e, ∀ t, units t → good_record (mk t e) ∧ ∀ fam, spec_record (mk t e) fam = alter f (e_childId e, target) fam) l →
  ∀ s fam, Rep fam (lg_file s) → repairing s → let res := append_loop l s in
  ∃ ks fam', Rep fam' (lg_file res.1) ∧ repairing res.1 ∧ ks `sublist_of` keys l ∧ fam' = altered f ks fam ∧
    (Forall (λ w, w.2 = Complete) (lg_writes s) → res.2 = Ok tt → ks = keys l).
Proof using All.
  induction 1 as [|e l He Hl IH]; intros s fam Hrep Hw; cbv zeta.
  { exists [], fam. by split_and!. }
  set (r := mk (now (lg_ticks s)) e). destruct (He (now (lg_ticks s)) (now_units _)) as [Hr Hspec]. fold r in Hr, Hspec.
  destruct (append_rep (nowIso s).1 fam r Hrep Hr Hw) as (fam1&Hrep1&Hw1&Heff&Hdone). rewrite (Hspec fam) in Heff, Hdone.
  set (res1 := appendRecord path dir r (nowIso s).1) in *.
  assert (append_loop (e :: l) s = match res1 with (s1, Ok _) => append_loop l s1 | (s1, Throw x) => (s1, Throw x) end)
    as -> by reflexivity.
  assert (lg_writes res1.1 = tail (lg_writes s)) as Htail.
  { subst res1. by destruct s as [[b|] tk ws sa]. }
  destruct res1 as [s1 [[]|x]]; cbn [fst snd] in *.
  - destruct (IH s1 fam1 Hrep1 Hw1) as (ks&fam'&HR&HW&Hks&->&Hall).
    destruct (decide (fam1 = alter f (e_childId e, target) fam)) as [E|Hne].
    + exists ((e_childId e, target) :: ks), (altered f ks fam1). split_and!; [done..|by apply (sublist_skip _ _ _ Hks)|by rewrite E|].
      intros Hcomp Hres. unfold keys. cbn. f_equal. apply Hall; [|done]. rewrite Htail. by destruct Hcomp.
    + destruct Heff as [->|]; [|done]. exists ks, (altered f ks fam). split_and!; [done..|by apply (sublist_cons _ _ _ Hks)|done|].
      intros Hcomp Hres. destruct Hne. apply Hdone; [|done]. by apply next_complete.
  - destruct (decide (fam1 = alter f (e_childId e, target) fam)) as [E|Hne].
    + exists [(e_childId e, target)], fam1. split_and!; [done..| |done|done]. cbn. constructor. apply sublist_nil_l.
    + destruct Heff as [->|]; [|done]. exists [], fam. split_and!; [done..|apply sublist_nil_l|done|done].
Qed.
End loop.

(** Reading, in an operation: it throws, or it gives the edges of the map. *)
Lemma replay_rep s fam : Rep fam (lg_file s) → settled ledger_record (lg_file s) →
  (∃ e, replay path s = (s, Throw e)) ∨ ∃ es, replay path s = (s, Ok es) ∧ stands_for es fam.
Proof.
  intros (recs&Hh&Hst) Hset. unfold replay, egets, elift, mbind, eff_bind.
  destruct (replay_edges path (lg_file s)) as [es|e] eqn:E; [right|left; by exists e].
  exists es. split; [done|]. by rewrite (replay_holds recs _ es Hh Hset E).
Qed.

Definition op_result (op : ledger_op) (fam : family) (s : RlmSpawnLedger) (res : RlmSpawnLedger * result jsstr unit) : Prop :=
  ∃ fam', Rep fam' (lg_file res.1) ∧ repairing res.1 ∧ outcome fam op fam' ∧
    (Forall (λ w, w.2 = Complete) (lg_writes s) → res.2 = Ok tt → spec_op fam op fam').

Lemma result_throw op fam s e : Rep fam (lg_file s) → repairing s → op_result op fam s (s, Throw e).
Proof. intros. exists fam. split_and!; [done..|by left|done]. Qed.

(** An operation that appends one record. *)
Lemma result_append op fam s r : Rep fam (lg_file s) → repairing s → good_record r → spec_op fam op (spec_record r fam) →
  op_result op fam s (appendRecord path dir r (nowIso s).1).
Proof using All.
  intros Hrep Hw Hr Hspec. destruct (append_rep (nowIso s).1 fam r Hrep Hr Hw) as (fam'&?&?&Heff&Hdone).
  exists fam'. split_and!; [done..| |].
  - destruct Heff as [->| ->]; [by left|right]. exists (spec_record r fam). split; [done|]. by right.
  - intros Hc Hres. rewrite Hdone; [done|by apply next_complete|done].
Qed.

Lemma spawn_result i fam s : Rep fam (lg_file s) → settled ledger_record (lg_file s) → repairing s → op_wf (OSpawn i) →
  op_result (OSpawn i) fam s (run_op (OSpawn i) s).
Proof using All.
  intros Hrep Hset Hw (Hu&Hg&Hup&Huc&Hn). cbn [run_op]. unfold appendSpawnUnlocked. cbv zeta.
  destruct (invalid_spawn i) eqn:Hinv; [by apply result_throw|].
  unfold mbind at 1, eff_bind at 1. destruct (replay_rep s fam Hrep Hset) as [[e ->]|(es&->&Hst)]; [by apply result_throw|].
  destruct (head (filter _ _)) as [e|] eqn:Ehead; [by apply result_throw|].
  pose proof Hinv as Hok. unfold invalid_spawn in Hinv. rewrite !orb_false_iff, negb_false_iff in Hinv. destruct Hinv as [[[[_ _] _] Hs] Hd].
  apply Z.ltb_ge in Hd. apply (result_append (OSpawn i) fam s (Spawn (now (lg_ticks s)) (in_childId i)
    (canonicalSessionPath (in_parent i)) (canonicalSessionPath (in_child i)) (in_depth i) (in_name i))); [done..| |].
  - split; [split_and!; try done; by (apply now_units || apply canonical_units)|].
    split_and!; [done|apply canonical_idem..].
  - apply SSpawn; [done|]. intros (j&e&Hj&Hlive&Hne). destruct Hst as (Hnd&Hfam&Hst').
    destruct (Hfam _ _ _ Hj) as (He&<-&Hec).
    assert (e ∈ live es) as Hin.
    { apply (live_spec es fam); [done|]. by rewrite Hec. }
    apply head_None in Ehead. assert (e ∈ @nil RlmLedgerEdge) as []%elem_of_nil. rewrite <-Ehead.
    apply list_elem_of_filter. split; [|done]. split; [|done]. unfold child_path. rewrite Hec. apply canonical_idem.
Qed.

(** ** Loops over the live edges to a session *)

(** The map with [f] done to the live edges to a session. *)
Definition at_path (f : RlmLedgerEdge → RlmLedgerEdge) (target : jsstr) (fam : family) : family :=
  (λ e, if decide (e_deleted e = None ∧ e_child e = target) then f e else e) <$> fam.

Definition to_path (target : jsstr) (es : list (jsstr * RlmLedgerEdge)) : list RlmLedgerEdge :=
  filter (λ e, child_path e = target) (live es).

Lemma to_path_spec es fam target e : stands_for es fam →
  e ∈ to_path target es ↔ fam !! (e_childId e, target) = Some e ∧ e_deleted e = None ∧ e_child e = target.
Proof.
  intros Hst. unfold to_path. rewrite list_elem_of_filter. split.
  - intros [Hp Hl]. destruct (live_canonical es fam e Hst Hl) as [_ Hc]. rewrite Hc in Hp. subst target.
    destruct (proj1 (live_spec es fam Hst e) Hl). done.
  - intros (Hf&Hd&<-). assert (e ∈ live es) as Hl by by apply (live_spec es fam Hst).
    split; [|done]. by destruct (live_canonical es fam e Hst Hl).
Qed.

Lemma altered_at_path f es fam target : (∀ e, f (f e) = f e) → stands_for es fam →
  altered f (keys target (to_path target es)) fam = at_path f target fam.
Proof.
  intros Hf Hst. apply map_eq. intros [i c]. unfold at_path. rewrite (altered_lookup f _ Hf), lookup_fmap.
  destruct (fam !! (i, c)) as [e|] eqn:Ee; [|by case_bool_decide]. cbn. pose proof Hst as (_&Hfam&_).
  destruct (Hfam _ _ _ Ee) as (He&Hi&Hec). case_bool_decide as Hin; cbn; f_equal.
  - apply list_elem_of_fmap in Hin as (e'&[= -> ->]&(Hf'&Hd&Hc)%(to_path_spec es fam target e' Hst)).
    rewrite Ee in Hf'. injection Hf' as <-. by rewrite decide_True.
  - rewrite decide_False; [done|]. intros [Hd Ht]. apply Hin. apply list_elem_of_fmap. exists e. split; [congruence|].
    apply (to_path_spec es fam target e Hst). split_and!; [|done..]. congruence.
Qed.

(** A loop over these edges: each is that of before or that of after. *)
Lemma path_loop_spec f mk target es fam s :
  (∀ e, f (f e) = f e) → Rep fam (lg_file s) → stands_for es fam → repairing s →
  (∀ e t, units (e_childId e) → good_id (e_childId e) → units t →
    good_record (mk t e) ∧ ∀ fam, spec_record (mk t e) fam = alter f (e_childId e, target) fam) →
  let res := append_loop mk (to_path target es) s in
  ∃ fam', Rep fam' (lg_file res.1) ∧ repairing res.1 ∧ between fam fam' (at_path f target fam) ∧
    (Forall (λ w, w.2 = Complete) (lg_writes s) → res.2 = Ok tt → fam' = at_path f target fam).
Proof using All.
  intros Hf Hrep Hst Hw Hmk. cbv zeta.
  destruct (append_loop_spec f mk target (to_path target es)) with (s := s) (fam := fam)
    as (ks&fam'&?&?&Hks&->&Hall); [|done..|].
  { apply Forall_forall. intros e [_ Hin]%list_elem_of_filter t Ht.
    destruct (live_canonical es fam e Hst Hin) as [He _]. apply Hmk; [apply He..|done]. }
  exists (altered f ks fam). split_and!; [done..| |].
  - intros k. unfold at_path. rewrite (altered_lookup f ks Hf), lookup_fmap. case_bool_decide as Hk; [right|by left].
    assert (k ∈ keys target (to_path target es)) as Hk' by (eapply elem_of_submseteq; [exact Hk|by apply sublist_submseteq]).
    apply list_elem_of_fmap in Hk' as (e&->&(Hf'&Hd&Hc)%(to_path_spec es fam target e Hst)).
    rewrite Hf'. cbn. by rewrite decide_True.
  - intros Hcomp Hres. rewrite (Hall Hcomp Hres). by apply altered_at_path with (es := es).
Qed.

Lemma rename_path_result c n fam s : Rep fam (lg_file s) → settled ledger_record (lg_file s) → repairing s →
  op_wf (ORenamePath c n) → op_result (ORenamePath c n) fam s (run_op (ORenamePath c n) s).
Proof using All.
  intros Hrep Hset Hw [Hu Hn]. cbn [run_op]. unfold appendRenameByChildPath. cbv zeta. set (target := canonicalSessionPath c).
  unfold mbind at 1, eff_bind at 1. destruct (replay_rep s fam Hrep Hset) as [[e ->]|(es&->&Hst)]; [by apply result_throw|].
  destruct (path_loop_spec (with_name n) (λ t e, Rename t (e_childId e) target n) target es fam s) as (fam'&?&?&Hb&Hall); try done.
  { intros e t ? ? ?. split; [|done]. split; [split_and!; try done; by apply canonical_units|]. split; [done|apply canonical_idem]. }
  exists fam'. split_and!; [done..| |].
  - right. eexists. split; [apply SRenamePath|exact Hb].
  - intros Hcomp Hres. rewrite (Hall Hcomp Hres). apply SRenamePath.
Qed.

Lemma run_op_result op fam s :
  Rep fam (lg_file s) → settled ledger_record (lg_file s) → repairing s → op_wf op →
  op_result op fam s (run_op op s).
Proof using All.
  intros Hrep Hset Hw Hop. destruct op as [i|i c n|c n|i c r].
  - by apply spawn_result.
  - destruct Hop as (?&?&?&?). apply (result_append _ _ _ (Rename (now (lg_ticks s)) i (canonicalSessionPath c) n)); [done..| |].
    + split; [split_and!; try done; by (apply now_units || apply canonical_units)|]. split; [done|apply canonical_idem].
    + apply SRename.
  - by apply rename_path_result.
  - destruct Hop as (?&?&?). apply (result_append _ _ _ (Delete (now (lg_ticks s)) i (canonicalSessionPath c) r)); [done..| |].
    + split; [split_and!; try done; by (apply now_units || apply canonical_units)|]. split; [done|apply canonical_idem].
    + apply SDelete.
Qed.

(** C22: The ledger refines a map from children to edges.  Whatever becomes of
    its writes, an operation on a settled file leaves the edges of before, or
    those its specification gives as far as its appends came; when it returns
    and its writes were complete, exactly those of the specification. *)
Theorem ledger_refines op fam s :
  Rep fam (lg_file s) → settled ledger_record (lg_file s) → repairing s → op_wf op →
  op_result op fam s (run_op op s).
Proof using All. apply run_op_result. Qed.

(** ** The deletion of a saved session *)

(** After the deletion of a saved session that is not known to be a
    top-level one has returned, its records completely written, no live edge
    leads to the session, and the other edges are as they were; if it stopped
    before, every edge is that of before or marked as deleted. *)
Theorem tombstone_clears sessionPath info summary fam s :
  Rep fam (lg_file s) → settled ledger_record (lg_file s) → repairing s → units sessionPath →
  positivelyTopLevel info summary = false →
  let target := canonicalSessionPath sessionPath in
  let res := tombstoneSavedSessionDelete path dir sessionPath info summary s in
  ∃ fam', Rep fam' (lg_file res.1) ∧ between fam fam' (at_path (with_deleted DUser) target fam) ∧
    (Forall (λ w, w.2 = Complete) (lg_writes s) → ∀ e, res.2 = Ok e →
      fam' = at_path (with_deleted DUser) target fam ∧
      (∀ k x, fam' !! k = Some x → e_deleted x = None → e_child x ≠ target)).
Proof using All.
  intros Hrep Hset Hw Hu Htop. cbv zeta. set (target := canonicalSessionPath sessionPath).
  assert (tombstoneSavedSessionDelete path dir sessionPath info summary s =
    match replay path s with
    | (s1, Ok es) =>
        match append_loop (λ t e, Delete t (e_childId e) target DUser) (to_path target es) s1 with
        | (s2, Ok _) => (s2, Ok (head (to_path target es)))
        | (s2, Throw x) => (s2, Throw x)
        end
    | (s1, Throw x) => (s1, Throw x)
    end) as ->.
  { unfold tombstoneSavedSessionDelete, edges. rewrite Htop. unfold mbind, eff_bind. by destruct (replay path s) as [s1 [es|x]]. }
  destruct (replay_rep s fam Hrep Hset) as [[e ->]|(es&->&Hst)].
  { exists fam. split_and!; [done|by intros k; left|done]. }
  destruct (path_loop_spec (with_deleted DUser) (λ t e, Delete t (e_childId e) target DUser) target es fam s)
    as (fam'&Hrep'&_&Hb&Hall); try done.
  { intros e t ? ? ?. split; [|done]. split; [split_and!; try done; by apply canonical_units|]. split; [done|apply canonical_idem]. }
  exists fam'. destruct (append_loop _ _ s) as [s' [[]|x]]; cbn [fst snd] in *; (split_and!; [done..|]); [|done].
  intros Hcomp e _. rewrite (Hall Hcomp eq_refl). split; [done|]. intros k x (y&<-&_)%lookup_fmap_Some.
  case_decide as Hy; [done|]. intros Hd Ht. by apply Hy.
Qed.

(** ** One live edge to a session *)

Definition unique_live (fam : family) : Prop := ∀ i j c e e',
  fam !! (i, c) = Some e → fam !! (j, c) = Some e' → e_deleted e = None → e_deleted e' = None → i = j.

(** No edge comes to life. *)
Definition no_new_live (fam fam' : family) : Prop := ∀ k e', fam' !! k = Some e' → e_deleted e' = None →
  ∃ e, fam !! k = Some e ∧ e_deleted e = None.

Lemma no_new_live_unique fam fam' : no_new_live fam fam' → unique_live fam → unique_live fam'.
Proof.
  intros Hn Hu i j c e e' Hi Hj Hd Hd'. destruct (Hn _ _ Hi Hd) as (?&?&?). destruct (Hn _ _ Hj Hd') as (?&?&?). by eapply Hu.
Qed.

Lemma alter_no_new_live f fam k : (∀ e, e_deleted (f e) = None → e_deleted e = None) → no_new_live fam (alter f k fam).
Proof.
  intros Hf k' e' [(<-&e&->&->)|[_ E]]%lookup_alter_Some Hd; [eauto|by exists e'].
Qed.

Lemma between_no_new_live fam fam' after : between fam fam' after → no_new_live fam after → no_new_live fam fam'.
Proof. intros Hb Hn k e' Hk Hd. destruct (Hb k) as [E|E]; rewrite E in Hk; [by exists e'|by apply (Hn k e')]. Qed.

Lemma outcome_unique fam op fam' : outcome fam op fam' → unique_live fam → unique_live fam'.
Proof.
  intros [->|(after&Hspec&Hb)] Hu; [done|]. destruct Hspec as [i Hinv Hno|i c n|c n|i c r].
  - intros a b c e e' Ha Hbb Hd Hd'. unfold between in Hb.
    set (c0 := canonicalSessionPath (in_child i)) in *.
    assert (∀ a e, fam' !! (a, c) = Some e → e_deleted e = None → fam !! (a, c) = Some e ∨ a = in_childId i ∧ c = c0) as Hcase.
    { intros x ex Hx _. destruct (Hb (x, c)) as [E|E]; rewrite E in Hx; [by left|].
      apply lookup_insert_Some in Hx as [[[= <- <-] _]|[_ ?]]; [by right|by left]. }
    destruct (Hcase _ _ Ha Hd) as [Ha'|[-> ->]], (Hcase _ _ Hbb Hd') as [Hb'|[-> Hc]]; [by eapply Hu| | |done].
    + subst c. destruct (decide (a = in_childId i)); [done|]. destruct Hno. by exists a, e.
    + destruct (decide (b = in_childId i)); [done|]. destruct Hno. by exists b, e'.
  - eapply no_new_live_unique; [|done]. eapply between_no_new_live; [done|]. by apply alter_no_new_live.
  - eapply no_new_live_unique; [|done]. eapply between_no_new_live; [done|]. intros k e' (e&<-&Hk)%lookup_fmap_Some Hd.
    exists e. split; [done|]. by case_decide.
  - eapply no_new_live_unique; [|done]. eapply between_no_new_live; [done|]. by apply alter_no_new_live.
Qed.
End store.
End ledger.
