(* ===== verification/RlmLedgerProps.v ===== *)
(** * Seeding, reachable ledgers and the family

    The seeding ends and gives a forest ([seed_forest]); every ledger that is
    reached by seeding and operations stands for a map with at most one live
    edge to a session ([ledger_reachable]); the rows of a family agree with it
    ([family_consistent]). *)

From stdpp Require Import gmap sorting.
From S2P Require Import Prelude.
From S2P Require Import JsMap.
From S2P Require Import JsString.
From S2P Require Import Json.
From S2P Require Import JsonParse.
From S2P Require Import JsonlFile.
From S2P Require Import Eff.
From S2P Require Import EventLog.
From S2P Require Import EventLogSpec.
From S2P Require Import RlmLedger.
From S2P Require Import RlmLedgerSpec.

Section seeding.
Context `{Paths} (path dir : jsstr) (dir_units : units dir).
Context (registry : jsstr → list RlmLedgerSeedRegistryEntry).

(** ** Seeding *)

Definition spawn_child (r : RlmLedgerRecord) : jsstr := match r with Spawn _ _ _ c _ _ => c | _ => [] end.
Definition spawn_parent (r : RlmLedgerRecord) : jsstr := match r with Spawn _ _ p _ _ _ => p | _ => [] end.
Definition spawn_depth (r : RlmLedgerRecord) : Z := match r with Spawn _ _ _ _ d _ => d | _ => 0 end.

(** The entries are strings, and name their children without NUL. *)
Definition entry_wf (e : RlmLedgerSeedRegistryEntry) : Prop :=
  units (s_childId e) ∧ good_id (s_childId e) ∧ units (s_sessionName e) ∧ units (s_sessionFile e).

Definition seed_good (r : RlmLedgerRecord) : Prop :=
  match r with
  | Spawn t i p c d n => units t ∧ units i ∧ units p ∧ units c ∧ units n ∧ 1 <= d ∧ good_id i ∧ canonical p ∧ canonical c
  | _ => False
  end.

(** Every record has a parent that is a root or the child of an earlier one. *)
Definition forest (roots : list jsstr) (rs : list RlmLedgerRecord) : Prop :=
  ∀ a r b, rs = a ++ r :: b → spawn_parent r ∈ roots ++ (spawn_child <$> a).

Record SeedInv (roots : list jsstr) (s : SeedState) : Prop := {
  si_good : Forall seed_good (sd_records s);
  si_visited : ∀ p, p ∈ roots ++ (spawn_child <$> sd_records s) → p ∈ sd_visited s;
  si_distinct : NoDup (spawn_child <$> sd_records s);
  si_fresh : ∀ p, p ∈ spawn_child <$> sd_records s → p ∉ roots;
  si_forest : forest roots (sd_records s);
  si_queue : Forall (λ q, units q.1 ∧ 0 <= q.2 ∧ canonicalSessionPath q.1 ∈ roots ++ (spawn_child <$> sd_records s)) (sd_queue s)
}.

Lemma forest_snoc roots rs r : forest roots rs → spawn_parent r ∈ roots ++ (spawn_child <$> rs) → forest roots (rs ++ [r]).
Proof.
  intros Hf Hr a x b E. destruct b as [|y b _] using rev_ind.
  - apply app_inj_tail in E as [-> ->]. done.
  - rewrite app_comm_cons, app_assoc in E. apply app_inj_tail in E as [E _]. by eapply Hf.
Qed.

Lemma seed_depth_pos e d : 0 <= d → 1 <= seed_depth e d.
Proof. unfold seed_depth. destruct (s_rlmDepth e) as [x|]; [|lia]. destruct (Z.leb_spec 1 x); lia. Qed.

Lemma seed_push_inv roots s r sf d ticks : SeedInv roots s → seed_good r → spawn_child r = canonicalSessionPath sf →
  spawn_child r ∉ sd_visited s → spawn_parent r ∈ roots ++ (spawn_child <$> sd_records s) → units sf → 0 <= d →
  SeedInv roots (MkSeed (sd_queue s ++ [(sf, d)]) (spawn_child r :: sd_visited s) (sd_records s ++ [r]) ticks).
Proof.
  intros [Hgood Hvis Hdist Hfresh Hforest Hqueue] Hr Hc Hv Hp Hu Hd.
  split; cbn [sd_records sd_queue sd_visited]; rewrite ?fmap_app; cbn [fmap list_fmap].
  - apply Forall_app_2; [done|by apply Forall_singleton].
  - intros p. rewrite app_assoc, elem_of_app, list_elem_of_singleton, elem_of_cons. intros [Hin| ->]; [right|by left]. by apply Hvis.
  - apply NoDup_app. split_and!; [done| |apply NoDup_singleton]. intros p Hin ->%list_elem_of_singleton.
    apply Hv, Hvis. rewrite elem_of_app. by right.
  - intros p. rewrite elem_of_app, list_elem_of_singleton. intros [Hin| ->]; [by apply Hfresh|]. intros Hin.
    apply Hv, Hvis. rewrite elem_of_app. by left.
  - by apply forest_snoc.
  - apply Forall_app_2.
    + eapply Forall_impl; [done|]. intros q (?&?&?). split_and!; [done..|]. set_solver.
    + apply Forall_singleton. cbn. split_and!; [done..|]. rewrite <-Hc. set_solver.
Qed.

Lemma seed_entry_inv roots f d s e : SeedInv roots s → entry_wf e → units f → 0 <= d →
  canonicalSessionPath f ∈ roots ++ (spawn_child <$> sd_records s) →
  SeedInv roots (seed_entry f d s e) ∧ sd_records s `prefix_of` sd_records (seed_entry f d s e).
Proof.
  intros Hinv (Hi&Hg&Hn&Hf) Hu Hd Hp. unfold seed_entry.
  pose proof (seed_depth_pos e d Hd). set (c := canonicalSessionPath (s_sessionFile e)).
  set (r := Spawn (now (sd_ticks s)) (s_childId e) (canonicalSessionPath f) c (seed_depth e d) (s_sessionName e)).
  assert (seed_good r) as Hr.
  { split_and!; try done; by (apply now_units || apply canonical_units || apply canonical_idem). }
  destruct (s_status e); [..|done]; (case_bool_decide as Hv; [done|]); cbv zeta;
    (case_bool_decide; cbn [sd_records]; (split; [|first [done|by eexists]])).
  1,3: destruct Hinv; split; try done; cbn; intros q Hq; apply elem_of_cons; right; auto.
  all: apply (seed_push_inv roots s r); [done..|lia].
Qed.

Lemma seed_entries_inv roots f d es : ∀ s, SeedInv roots s → Forall entry_wf es → units f → 0 <= d →
  canonicalSessionPath f ∈ roots ++ (spawn_child <$> sd_records s) →
  SeedInv roots (foldl (seed_entry f d) s es).
Proof.
  induction es as [|e es IH]; intros s Hinv Hes Hu Hd Hp; [done|]. apply Forall_cons in Hes as [He Hes].
  destruct (seed_entry_inv roots f d s e Hinv He Hu Hd Hp) as [Hinv' [k Ek]]. apply IH; try done.
  rewrite Ek, fmap_app. set_solver.
Qed.

Lemma seed_loop_inv roots fuel : (∀ f, Forall entry_wf (registry f)) → ∀ s st, SeedInv roots s →
  seed_loop registry fuel s = Some st → SeedInv roots st.
Proof.
  intros Hreg. induction fuel as [|fuel IH]; intros s st Hinv; cbn; destruct (sd_queue s) as [|[f d] q] eqn:Eq;
    [by intros [= <-]|done|by intros [= <-]|].
  pose proof (si_queue _ _ Hinv) as Hq. rewrite Eq in Hq. apply Forall_cons in Hq as [(Hu&Hd&Hp) Hq].
  apply IH. apply seed_entries_inv; [|done..]. destruct Hinv. by split.
Qed.

(** Every round takes a session from the queue, and adds the children that are
    visited for the first time. *)
Definition unvisited (U : list jsstr) (s : SeedState) : nat := length (filter (λ p, p ∉ sd_visited s) U).

Lemma filter_shorter (U V : list jsstr) c : c ∈ U → c ∉ V →
  (length (filter (λ p, p ∉ c :: V) U) < length (filter (λ p, p ∉ V) U))%nat.
Proof.
  intros Hin Hv. induction U as [|x U IH]; [by apply elem_of_nil in Hin|].
  assert (length (filter (λ p, p ∉ c :: V) U) <= length (filter (λ p, p ∉ V) U))%nat as Hle.
  { clear. induction U as [|y U IH]; [done|]. rewrite !filter_cons. repeat case_decide; cbn; try lia. set_solver. }
  rewrite !filter_cons. apply elem_of_cons in Hin as [->|Hin].
  - rewrite decide_False by set_solver. rewrite decide_True by done. cbn. lia.
  - specialize (IH Hin). repeat case_decide; cbn; try lia. set_solver.
Qed.

Lemma seed_entry_measure U f d s e : (canonicalSessionPath (s_sessionFile e) ∈ U) →
  (length (sd_queue (seed_entry f d s e)) + unvisited U (seed_entry f d s e) <= length (sd_queue s) + unvisited U s)%nat.
Proof.
  intros HU. unfold seed_entry, unvisited. destruct (s_status e); [..|done].
  all: case_bool_decide as Hv; [done|]; cbv zeta; pose proof (filter_shorter U (sd_visited s) _ HU Hv).
  all: case_bool_decide; cbn [sd_queue sd_visited]; rewrite ?length_app; cbn [length]; lia.
Qed.

Lemma seed_loop_ends U fuel : (∀ f, Forall (λ e, canonicalSessionPath (s_sessionFile e) ∈ U) (registry f)) →
  ∀ s, (length (sd_queue s) + unvisited U s <= fuel)%nat → is_Some (seed_loop registry fuel s).
Proof.
  intros HU. induction fuel as [|fuel IH]; intros s Hf; cbn; destruct (sd_queue s) as [|[f d] q] eqn:Eq; try done.
  { cbn in Hf. lia. }
  apply IH. cbn in Hf.
  assert (∀ es s, Forall (λ e, canonicalSessionPath (s_sessionFile e) ∈ U) es →
    length (sd_queue (foldl (seed_entry f d) s es)) + unvisited U (foldl (seed_entry f d) s es) <=
    length (sd_queue s) + unvisited U s)%nat as Hfold.
  { clear IH Hf Eq. induction es as [|e es IH]; intros s1 Hes; [done|]. apply Forall_cons in Hes as [He Hes]. cbn.
    etrans; [by apply IH|]. by apply seed_entry_measure. }
  etrans; [apply Hfold, HU|]. unfold unvisited in *. cbn. lia.
Qed.

Definition seed_roots (names : list jsstr) : list jsstr :=
  canonicalSessionPath <$> ((λ name, join [dir; name]) <$> session_files (Some names)).

Lemma seed_start_inv names ticks : Forall (λ n, units (join [dir; n])) names →
  SeedInv (seed_roots names) (seed_start dir names ticks).
Proof.
  intros Hn. split; cbn [seed_start sd_records sd_visited sd_queue fmap list_fmap]; try constructor.
  - intros p. by rewrite app_nil_r.
  - intros p []%elem_of_nil.
  - intros a r b E. by destruct a.
  - rewrite app_nil_r. apply Forall_fmap, Forall_fmap, Forall_forall. intros n Hin. cbn. split_and!; [|lia|].
    + rewrite Forall_forall in Hn. apply Hn. unfold session_files in Hin. rewrite merge_sort_Permutation in Hin.
      by apply list_elem_of_filter in Hin as [_ Hin].
    + apply list_elem_of_fmap. eexists. split; [reflexivity|]. apply list_elem_of_fmap. by exists n.
Qed.

(** The seeding ends, with fuel for the roots and the sessions any registry
    names.  It gives a forest: every child is new, is no root, and has a root or
    an earlier child as its parent. *)
Theorem seed_forest names ticks U fuel :
  (∀ f, Forall entry_wf (registry f)) →
  (∀ f, Forall (λ e, canonicalSessionPath (s_sessionFile e) ∈ U) (registry f)) →
  Forall (λ n, units (join [dir; n])) names →
  (length (session_files (Some names)) + length U <= fuel)%nat →
  ∃ st, seed_loop registry fuel (seed_start dir names ticks) = Some st ∧
    NoDup (spawn_child <$> sd_records st) ∧
    (∀ c, c ∈ spawn_child <$> sd_records st → c ∉ seed_roots names) ∧
    forest (seed_roots names) (sd_records st).
Proof using All.
  intros Hwf HU Hn Hfuel. destruct (seed_loop_ends U fuel HU (seed_start dir names ticks)) as [st Hst].
  { etrans; [|exact Hfuel]. cbn. rewrite !length_fmap. unfold unvisited. rewrite <-Nat.add_le_mono_l.
    apply length_filter. }
  exists st. split; [done|]. destruct (seed_loop_inv _ _ Hwf _ _ (seed_start_inv names ticks Hn) Hst). done.
Qed.

(** The map of a seeded ledger. *)
Lemma seed_family rs : Forall (λ r, seed_good r ∧ isSafeInteger (spawn_depth r) = true) rs → NoDup (spawn_child <$> rs) →
  Forall good_record rs ∧ unique_live (spec_records rs ∅) ∧
  ∀ i c e, spec_records rs ∅ !! (i, c) = Some e → c ∈ spawn_child <$> rs.
Proof.
  intros Hrs. induction rs as [|r rs IH] using rev_ind; intros Hnd.
  { split_and!; [constructor|by intros ?????|by intros ???]. }
  rewrite fmap_app in Hnd. apply NoDup_app in Hnd as (Hnd&Hnew&_). apply Forall_app in Hrs as [Hrs Hr].
  destruct (IH Hrs Hnd) as (Hgood&Hu&Hin). apply Forall_singleton in Hr as [Hr Hs].
  destruct r as [|t i p c d n| |]; try done. cbn in Hr. destruct_and?.
  assert (∀ j e, spec_records rs ∅ !! (j, c) ≠ Some e) as Hno.
  { intros j e E. apply (Hnew c (Hin _ _ _ E)). cbn. set_solver. }
  unfold spec_records in *. rewrite foldl_app. cbn [foldl spec_record]. split_and!.
  - apply Forall_app_2; [done|]. apply Forall_singleton. by split.
  - intros a b c' e e' [[Ea _]|[_ Ha]]%lookup_insert_Some [[Eb _]|[_ Hb]]%lookup_insert_Some Hd Hd'; simplify_eq;
      [done|by apply Hno in Hb|by apply Hno in Ha|by eapply Hu].
  - intros a c' e [[[= <- <-] _]|[_ Ha]]%lookup_insert_Some; rewrite fmap_app; cbn; [set_solver|].
    rewrite elem_of_app. left. by eapply Hin.
Qed.

Lemma seeded_file meta_at rs : units meta_at → Forall good_record rs →
  Rep (spec_records rs ∅) (Some (utf8_encode (seed_payload dir meta_at rs))).
Proof using All.
  intros Hm Hrs. set (m := Meta meta_at dir). assert (Forall good_record (m :: rs)) as Hall.
  { constructor; [by split|done]. }
  exists (m :: rs). split.
  - split; [done|]. split; [by apply good_accepted|]. exists []. split; [by left|]. rewrite app_nil_r.
    unfold seed_payload. rewrite encode_lines; [done|].
    apply (accepted_all ledger_record); [apply accepted_record|by apply good_accepted].
  - apply (apply_records_spec (m :: rs) Hall [] ∅). apply stands_for_nil.
Qed.

(** ** Reachable ledgers

    The state before an operation runs: the first one seeds. *)
Definition prepared (readdir : option (list jsstr)) (fuel : nat) (writes links : bool) (s : RlmSpawnLedger) : RlmSpawnLedger :=
  if seedAttempted s then s
  else seed dir (Some registry) readdir fuel writes links (MkLedger (lg_file s) (lg_ticks s) (lg_writes s) true).

Lemma enqueue_prepared {A} readdir fuel writes links (fn : eff RlmSpawnLedger jsstr A) s :
  enqueue dir (Some registry) readdir fuel writes links fn s = fn (prepared readdir fuel writes links s).
Proof. unfold enqueue, prepared. by destruct (seedAttempted s). Qed.

(** The directory and its seed are proper: names are strings, and depths are
    safe integers. *)
Definition seedable (readdir : option (list jsstr)) (fuel : nat) : Prop :=
  ∀ names, readdir = Some names → Forall (λ n, units (join [dir; n])) names ∧
    ∀ ticks st, seed_loop registry fuel (seed_start dir names ticks) = Some st →
      Forall (λ r, isSafeInteger (spawn_depth r) = true) (sd_records st).

Inductive reachable : RlmSpawnLedger → Prop :=
| reach_new ticks writes : Forall (λ w, w.1 = true) writes → reachable (MkLedger None ticks writes false)
| reach_op s op readdir fuel writes links :
    reachable s → op_wf op → seedable readdir fuel → settled ledger_record (lg_file (prepared readdir fuel writes links s)) →
    reachable (enqueue dir (Some registry) readdir fuel writes links (run_op path dir op) s).1.

Definition tree_ledger (s : RlmSpawnLedger) : Prop := repairing s ∧ ∃ fam, Rep fam (lg_file s) ∧ unique_live fam.

Lemma prepared_tree readdir fuel writes links s : (∀ f, Forall entry_wf (registry f)) → seedable readdir fuel →
  tree_ledger s → tree_ledger (prepared readdir fuel writes links s).
Proof using All.
  intros Hwf Hseed [Hrep Hfam]. unfold prepared. destruct (seedAttempted s); [done|]. unfold seed. cbn [lg_file lg_ticks].
  destruct (lg_file s) as [b|] eqn:Ef; [by split|]. destruct readdir as [names|]; [|by split].
  destruct (Hseed names eq_refl) as [Hn Hsafe].
  destruct (seed_loop registry fuel (seed_start dir names (lg_ticks s))) as [st|] eqn:Est; [|by split].
  destruct (sd_records st) as [|r rs] eqn:Er; [by split|]. destruct (_ || _); [by split|].
  split; [done|]. cbn. destruct links; [|done].
  pose proof (seed_loop_inv _ _ Hwf _ _ (seed_start_inv names (lg_ticks s) Hn) Est) as Hinv.
  pose proof (Hsafe _ _ Est) as Hs. rewrite Er in Hs.
  assert (Forall (λ r, seed_good r ∧ isSafeInteger (spawn_depth r) = true) (r :: rs)) as Hall.
  { rewrite <-Er in *. apply Forall_and. split; [apply (si_good _ _ Hinv)|done]. }
  destruct (seed_family (r :: rs) Hall) as (Hgood&Hu&_). { rewrite <-Er. apply (si_distinct _ _ Hinv). }
  exists (spec_records (r :: rs) ∅). split; [|done]. apply seeded_file; [apply now_units|done].
Qed.

(** Every ledger reached by seeding and operations, whatever becomes of
    their writes, stands for a map from children to edges in which no two live
    edges lead to the same session. *)
Theorem ledger_reachable s : (∀ f, Forall entry_wf (registry f)) → reachable s → tree_ledger s.
Proof using All.
  intros Hwf. induction 1 as [ticks writes Hw|s op readdir fuel writes links _ IH Hop Hseed Hset].
  - split; [done|]. exists ∅. split; [|by intros ?????]. exists []. split; [apply holds_nil|apply stands_for_nil].
  - rewrite enqueue_prepared. destruct (prepared_tree readdir fuel writes links s Hwf Hseed IH) as [Hrep (fam&Hfam&Hu)].
    destruct (run_op_result path dir dir_units op fam _ Hfam Hset Hrep Hop) as (fam'&?&?&Ho&_).
    split; [done|]. exists fam'. split; [done|]. by apply (outcome_unique fam op).
Qed.
End seeding.

(** ** The family of a directory *)

Section families.
Context `{Paths} (dir : jsstr).

Lemma live_distinct es fam : stands_for es fam → unique_live fam → NoDup (child_path <$> live es).
Proof.
  intros Hst Hu. pose proof Hst as (Hnd&Hfam&Hget&Hes).
  set (key := λ e, edgeKey (e_childId e) (e_child e)).
  assert (key <$> jm_values es = jm_keys es) as Hkeys.
  { assert (∀ k e, (k, e) ∈ es → k = key e) as Hk.
    { intros k e Hin. by apply (Hes k e), elem_jm_get. }
    clear -Hk. induction es as [|[k e] es IH]; [done|]. cbn. f_equal; [symmetry; apply Hk; set_solver|].
    apply IH. intros. apply Hk. set_solver. }
  assert (NoDup (live es)) as Hlive.
  { apply NoDup_filter, (NoDup_fmap_1 key). by rewrite Hkeys. }
  apply NoDup_fmap_2_strong; [|done]. intros x y Hx Hy E.
  destruct (live_canonical es fam x Hst Hx) as [_ Ex]. destruct (live_canonical es fam y Hst Hy) as [_ Ey].
  destruct (proj1 (live_spec es fam Hst x) Hx) as [Fx Dx]. destruct (proj1 (live_spec es fam Hst y) Hy) as [Fy Dy].
  assert (e_child x = e_child y) as Ec by congruence. rewrite Ec in Fx.
  assert (e_childId x = e_childId y) as Ei by by eapply Hu. rewrite Ei in Fx. congruence.
Qed.

(** The row of an edge. *)
Definition edge_row (e : RlmLedgerEdge) : SessionRow :=
  MkRow (child_path e) (e_depth e) (Some (parent_path e)) (Some (e_name e)).

(** No live edge contradicts its depth. *)
Definition consistent (isFile : jsstr → bool) (es : list RlmLedgerEdge) (e : RlmLedgerEdge) : Prop :=
  ∀ e', e' ∈ es → alive isFile e' = true → child_path e' = parent_path e → e_depth e = e_depth e' + 1.

Definition listed (readdir : option (list jsstr)) : list jsstr :=
  (λ entry, canonicalSessionPath (join [dir; entry])) <$> session_files readdir.

Lemma jm_get_paths {V} (g : RlmLedgerEdge → V) l p : NoDup (child_path <$> l) → ∀ v,
  jm_get (foldl (λ m e, jm_set m (child_path e) (g e)) [] l) p = Some v ↔ ∃ e, e ∈ l ∧ child_path e = p ∧ v = g e.
Proof.
  intros Hnd v. rewrite jm_foldl_set_fresh by (done || intros ? _; apply not_elem_of_nil). cbn [app].
  assert (keys_NoDup ((λ e, (child_path e, g e)) <$> l)) as Hk.
  { unfold keys_NoDup, jm_keys. by rewrite <-list_fmap_compose. }
  split.
  - intros (e&[= -> ->]&Hin)%jm_get_elem%list_elem_of_fmap. by exists e.
  - intros (e&Hin&<-&->). apply elem_jm_get; [done|]. apply list_elem_of_fmap. by exists e.
Qed.

(** The family of a ledger with at most one live edge to a session has one
    row per session: a session file of the directory that is no child, at depth
    0; or a live edge whose files exist.  Such an edge has its row unless its
    depth is not one more than that of its parent. *)
Theorem family_consistent isFile readdir es fam :
  stands_for es fam → unique_live fam → NoDup (listed readdir) →
  let rows := family_rows dir isFile readdir (live es) in
  NoDup (row_path <$> rows) ∧
  (∀ e, e ∈ live es → alive isFile e = true → edge_row e ∈ rows ↔ consistent isFile (live es) e) ∧
  (∀ r, r ∈ rows →
    (r = MkRow (row_path r) 0 None None ∧ row_path r ∈ listed readdir ∧
     ∀ e, e ∈ live es → alive isFile e = true → child_path e ≠ row_path r) ∨
    ∃ e, e ∈ live es ∧ alive isFile e = true ∧ r = edge_row e).
Proof.
  intros Hst Hu Hlist. cbv zeta. pose proof (live_distinct es fam Hst Hu) as Hnd. revert Hnd. generalize (live es). intros l Hnd.
  unfold family_rows. set (al := filter (λ e, alive isFile e = true) l).
  assert (NoDup (child_path <$> al)) as Hal.
  { by apply NoDup_fmap_filter. }
  assert (∀ e, depth_ok (foldl (λ m e, jm_set m (child_path e) (e_depth e)) [] al) e = true ↔ consistent isFile l e) as Hok.
  { intros e. unfold depth_ok, consistent. destruct (jm_get _ (parent_path e)) as [d|] eqn:Eg.
    - apply (jm_get_paths e_depth al _ Hal) in Eg as (e'&[Ha Hin]%list_elem_of_filter&Hp&->). rewrite Z.eqb_eq. split.
      + intros Hd e2 Hin2 Ha2 Hp2. assert (e2 = e') as ->; [|done].
        apply (NoDup_fmap_eq child_path l); [done..|congruence].
      + intros Hall. by apply Hall.
    - split; [|done]. intros _ e' Hin Ha Hp. exfalso.
      assert (jm_get (foldl (λ m e, jm_set m (child_path e) (e_depth e)) [] al) (parent_path e) = Some (e_depth e')) as E.
      { apply (jm_get_paths e_depth al _ Hal). exists e'. split; [by apply list_elem_of_filter|done]. }
      congruence. }
  set (byChild := foldl (λ m e, jm_set m (child_path e) e) [] al).
  assert (∀ p, p ∈ root_paths dir byChild readdir ↔ p ∈ listed readdir ∧ p ∉ child_path <$> al) as Hroot.
  { intros p. unfold root_paths. fold (listed readdir). rewrite list_elem_of_filter.
    assert (jm_has byChild p = false ↔ p ∉ child_path <$> al) as ->; [|tauto].
    rewrite <-not_true_iff_false. unfold jm_has. rewrite bool_decide_eq_true. apply not_iff_compat. unfold is_Some. split.
    - intros (e&(e'&Hin&<-&->)%(jm_get_paths id al p Hal)). by apply list_elem_of_fmap_2.
    - intros (e&->&Hin)%list_elem_of_fmap. exists e. apply (jm_get_paths id al _ Hal). by exists e. }
  set (ok := filter (λ e, depth_ok _ e = true) al).
  assert (∀ e, e ∈ ok ↔ e ∈ l ∧ alive isFile e = true ∧ consistent isFile l e) as Hin.
  { intros e. subst ok al. rewrite !list_elem_of_filter, Hok. tauto. }
  split_and!.
  - rewrite fmap_app, <-!list_fmap_compose. apply NoDup_app. split_and!.
    + rewrite list_fmap_id. unfold root_paths. by apply NoDup_filter.
    + intros p Hp (e&->&He)%list_elem_of_fmap. rewrite list_fmap_id in Hp. apply Hroot in Hp as [_ Hn]. apply Hn.
      apply list_elem_of_fmap_2. by apply list_elem_of_filter in He as [_ He].
    + by apply NoDup_fmap_filter.
  - intros e He Ha. split.
    + intros [(p&[= <-]&_)%list_elem_of_fmap|(e'&E&Hin')%list_elem_of_fmap]%elem_of_app. apply Hin in Hin' as (He'&_&Hc).
      assert (e = e') as ->; [|done]. apply (NoDup_fmap_eq child_path l); [done..|]. by injection E.
    + intros Hc. apply elem_of_app. right. apply list_elem_of_fmap. exists e. split; [done|]. by apply Hin.
  - intros r [(p&->&Hp)%list_elem_of_fmap|(e&->&He)%list_elem_of_fmap]%elem_of_app.
    + left. apply Hroot in Hp as [Hl Hn]. split_and!; [done..|]. cbn. intros e He Ha Ec. apply Hn. rewrite <-Ec.
      apply list_elem_of_fmap_2. by apply list_elem_of_filter.
    + right. apply Hin in He as (He&Ha&_). by exists e.
Qed.
End families.

(** ** Witnesses

    A file system in which every path is its own real path. *)

#[local] Instance plain_platform : Platform := {
  now n := js "2026-01-01T00:00:00.000Z";
  resolve p := p;
  realpathSync p := if unitsb p then Some p else None;
  dirname p := p;
  basename p := p;
  join ps := concat ps;
  sha256_hex p := p
}.

Lemma plain_real p q : realpathSync p = Some q → q = p ∧ units p.
Proof.
  cbn [realpathSync plain_platform]. destruct (unitsb p) eqn:E; [|done]. intros [= <-]. split; [done|by apply unitsb_spec].
Qed.

#[local] Instance plain_paths : Paths.
Proof.
  split; cbn [resolve dirname basename join now plain_platform].
  - done.
  - intros p q Hq. by destruct (plain_real p q Hq) as [-> _].
  - intros p d E1 E2. by rewrite E1 in E2.
  - intros p d Hd. destruct (plain_real p d Hd) as [-> Hp]. cbn [concat]. rewrite app_nil_r. by apply Forall_app_2.
  - done.
  - intros p q Hq. by destruct (plain_real p q Hq) as [-> Hp].
  - intros n. by apply unitsb_spec.
Qed.

Definition a_spawn : SpawnInput := MkSpawn (js "child-1") (js "/s/root.jsonl") (js "/s/a.jsonl") 1 (js "worker").
Definition a_record : RlmLedgerRecord := Spawn (js "t") (js "child-1") (js "/s/root.jsonl") (js "/s/a.jsonl") 1 (js "worker").
Definition a_delete : RlmLedgerRecord := Delete (js "t") (js "child-1") (js "/s/a.jsonl") DUser.
Definition a_rename : RlmLedgerRecord := Rename (js "t") (js "child-2") (js "/s/b.jsonl") (js "other").

Lemma js_good (s : string) : forallb (λ c, negb (c =? 0)) (js s) = true → good_id (js s).
Proof.
  intros Hf%forallb_Forall Hin. rewrite Forall_forall in Hf. by specialize (Hf 0 Hin).
Qed.

Lemma a_record_ok : ledger_record (record_json a_record).
Proof. exists a_record. split; [|done]. repeat split; try (by apply js_units); done. Qed.
Lemma a_delete_ok : ledger_record (record_json a_delete).
Proof. exists a_delete. split; [|done]. repeat split; by apply js_units. Qed.
Lemma a_rename_ok : ledger_record (record_json a_rename).
Proof. exists a_rename. split; [|done]. repeat split; by apply js_units. Qed.

Lemma settled_none : settled ledger_record None.
Proof. done. Qed.

Lemma a_spawn_wf : op_wf (OSpawn a_spawn).
Proof. repeat split; by (apply js_units || apply js_good). Qed.

Lemma log_durable_witness :
  let ops := [MkAppend [record_json a_record] [] (Short 3); MkAppend [record_json a_record] [] Complete] in
  let r := append_all (js "log") ledger_options ops None in
  ∃ ws, Forall3 wrote ops r.2 ws ∧
    (small ledger_options r.1 → few ledger_options (S (length (concat ws))) →
     ∃ final, (final = [] ∨ ∃ t, ledger_record t ∧ r.1 = Some (log_bytes (concat ws) ++ utf8_encode (stringify t)) ∧ final = [t]) ∧
       replaySync (js "log") ledger_options parseLedgerLine r.1 = Ok (omap ledger_view (concat ws ++ final))).
Proof.
  apply (log_durable ledger_record parseLedgerLine ledger_view (js "log") ledger_options); [done|].
  repeat constructor; apply a_record_ok.
Defined.

Lemma append_past_bounds_witness :
  let options := MkOptions None (Some 0) in
  let op := MkAppend [record_json a_record] [] Complete in
  let r := append_run (js "log") options op None in
  r.2 = Ok tt ∧ ∃ e, replaySync (js "log") options parseLedgerLine (append_all (js "log") options [op] r.1).1 = Throw e.
Proof.
  apply (append_past_bounds ledger_record parseLedgerLine ledger_view (js "log") (MkOptions None (Some 0)) I []); try done.
  - repeat constructor; apply a_record_ok.
  - right. cbn. lia.
Defined.

(** A deletion that was read is forgotten by the next append. *)
Lemma unterminated_record_dropped_witness :
  let options := MkOptions None None in
  let rs := [record_json a_record] in
  let file1 := (appendSync (js "log") options [record_json a_delete] [] true
    (Failed (length (utf8_encode (stringify (record_json a_delete))))) (Some (log_bytes rs))).1 in
  let file2 := (appendSync (js "log") options [record_json a_rename] [] true Complete file1).1 in
  replaySync (js "log") options parseLedgerLine file1 = Ok (omap ledger_view (rs ++ [record_json a_delete])) ∧
  replaySync (js "log") options parseLedgerLine file2 = Ok (omap ledger_view (rs ++ [record_json a_rename])).
Proof.
  apply (unterminated_record_dropped ledger_record parseLedgerLine ledger_view (js "log") (MkOptions None None) I); try done.
  - constructor; [apply a_record_ok|constructor].
  - apply a_delete_ok.
  - apply a_rename_ok.
Defined.

Lemma rep_empty : Rep ∅ None.
Proof. exists []. split; [apply holds_nil|apply stands_for_nil]. Qed.

Lemma dir_ok : units (js "/s/").
Proof. by apply js_units. Qed.

Definition empty_ledger : RlmSpawnLedger := MkLedger None 0 [(true, Short 7)] false.

Lemma ledger_refines_witness :
  op_result (OSpawn a_spawn) ∅ empty_ledger (run_op (js "log") (js "/s/") (OSpawn a_spawn) empty_ledger).
Proof.
  apply (ledger_refines (js "log") (js "/s/") dir_ok).
  - apply rep_empty.
  - apply settled_none.
  - by repeat constructor.
  - apply a_spawn_wf.
Defined.

Lemma a_record_good : good_record a_record.
Proof. split; [repeat split; try (by apply js_units); done|]. split; [by apply js_good|done]. Qed.

Definition one_edge : gmap (jsstr * jsstr) RlmLedgerEdge := spec_record a_record ∅.

Lemma one_edge_stands : stands_for (apply_record [] a_record) one_edge.
Proof. apply apply_record_spec; [apply stands_for_nil|apply a_record_good..]. Qed.

Lemma one_edge_unique : unique_live one_edge.
Proof.
  unfold one_edge, a_record. cbn [spec_record]. intros i j c e e' [[Ei _]|[_ Hi]]%lookup_insert_Some [[Ej _]|[_ Hj]]%lookup_insert_Some _ _;
    rewrite ?lookup_empty in *; congruence.
Qed.

Lemma tombstone_clears_witness :
  let s := MkLedger (Some (log_bytes [record_json a_record])) 0 [] true in
  let target := canonicalSessionPath (js "/s/a.jsonl") in
  let res := tombstoneSavedSessionDelete (js "log") (js "/s/") (js "/s/a.jsonl") None None s in
  ∃ fam', Rep fam' (lg_file res.1) ∧ between one_edge fam' (at_path (with_deleted DUser) target one_edge) ∧
    (Forall (λ w, w.2 = Complete) (lg_writes s) → ∀ e, res.2 = Ok e →
      fam' = at_path (with_deleted DUser) target one_edge ∧
      (∀ k x, fam' !! k = Some x → e_deleted x = None → e_child x ≠ target)).
Proof.
  apply (tombstone_clears (js "log") (js "/s/") dir_ok).
  - exists [a_record]. split; [|apply one_edge_stands]. split; [constructor; [apply a_record_good|constructor]|].
    split; [constructor; [apply a_record_ok|constructor]|]. exists []. split; [by left|by rewrite app_nil_r].
  - apply (settled_lines ledger_record parseLedgerLine ledger_view [record_json a_record]). repeat constructor. apply a_record_ok.
  - constructor.
  - by apply js_units.
  - done.
Defined.

Lemma family_consistent_witness :
  let es := apply_record [] a_record in
  let rows := family_rows (js "/s/") (λ _, true) None (live es) in
  NoDup (row_path <$> rows) ∧
  (∀ e, e ∈ live es → alive (λ _, true) e = true → edge_row e ∈ rows ↔ consistent (λ _, true) (live es) e) ∧
  (∀ r, r ∈ rows →
    (r = MkRow (row_path r) 0 None None ∧ row_path r ∈ listed (js "/s/") None ∧
     ∀ e, e ∈ live es → alive (λ _, true) e = true → child_path e ≠ row_path r) ∨
    ∃ e, e ∈ live es ∧ alive (λ _, true) e = true ∧ r = edge_row e).
Proof.
  apply (family_consistent (js "/s/") (λ _, true) None _ one_edge).
  - apply one_edge_stands.
  - apply one_edge_unique.
  - constructor.
Defined.

(** A registry that names the same child for every session, itself included. *)
Definition a_registry (f : jsstr) : list RlmLedgerSeedRegistryEntry :=
  [MkSeedEntry (js "child-1") (js "worker") (js "/s/a/b.jsonl") None Completed].

Lemma a_registry_wf f : Forall entry_wf (a_registry f).
Proof. apply Forall_singleton. repeat split; by (apply js_units || apply js_good). Qed.

Lemma seed_forest_witness :
  ∃ st, seed_loop a_registry 2 (seed_start (js "/s/") [js "root.jsonl"] 0) = Some st ∧
    NoDup (spawn_child <$> sd_records st) ∧
    (∀ c, c ∈ spawn_child <$> sd_records st → c ∉ seed_roots (js "/s/") [js "root.jsonl"]) ∧
    forest (seed_roots (js "/s/") [js "root.jsonl"]) (sd_records st).
Proof.
  apply (seed_forest (js "log") (js "/s/") dir_ok a_registry [js "root.jsonl"] 0 [canonicalSessionPath (js "/s/a/b.jsonl")] 2).
  - apply a_registry_wf.
  - intros f. apply Forall_singleton. apply list_elem_of_singleton. reflexivity.
  - apply Forall_singleton. by apply (js_units "/s/root.jsonl").
  - assert (session_files (Some [js "root.jsonl"]) = [js "root.jsonl"]) as -> by by vm_compute. cbn [length]. lia.
Defined.

Lemma ledger_reachable_witness :
  tree_ledger (enqueue (js "/s/") (Some a_registry) None 0 true true (run_op (js "log") (js "/s/") (OSpawn a_spawn)) empty_ledger).1.
Proof.
  apply (ledger_reachable (js "log") (js "/s/") dir_ok a_registry).
  - apply a_registry_wf.
  - apply (reach_op (js "log") (js "/s/") a_registry empty_ledger (OSpawn a_spawn) None 0 true true).
    + apply reach_new. by repeat constructor.
    + apply a_spawn_wf.
    + intros names [=].
    + apply settled_none.
Defined.
