(* ===== verification/EditDiff.v ===== *)
(** * The edit tool: matching and replacing text

    Models [packages/coding-agent/src/core/tools/edit-diff.ts] and the part of
    [tools/edit.ts] that turns the content of a file into its new content.  The
    compatibility decomposition of Unicode ([String.prototype.normalize]) is
    the class [Unicode]: its tables are data of the platform. *)

From S2P Require Import Prelude.
From S2P Require Import JsMap.
From S2P Require Import JsString.
From S2P Require Import JsSearch.
From S2P Require Import Json.
From S2P Require Import JsonParse.

(** ** Strings of the language library *)

Definition CR : Z := 13.

Definition indexOf (p s : jsstr) : Z := match index_of p s with Some i => Z.of_nat i | None => -1 end.

(** [s.split(sep)] for a non-empty separator. *)
Fixpoint split_loop (fuel : nat) (sep s : jsstr) : list jsstr :=
  match fuel with
  | O => [s]
  | S fuel =>
      match index_of sep s with
      | None => [s]
      | Some i => take i s :: split_loop fuel sep (drop (i + length sep) s)
      end
  end.

(** An empty separator splits into code units. *)
Definition split_on (sep s : jsstr) : list jsstr :=
  if bool_decide (sep = []) then (λ c, [c]) <$> s else split_loop (S (length s)) sep s.

Definition trimEnd (s : jsstr) : jsstr := reverse (trim_start (reverse s)).

(** Unicode data of the platform.  Text below U+0080 is its own NFKC form. *)
Class Unicode := {
  nfkc : jsstr → jsstr;
  nfkc_ascii s : Forall (λ c, 0 <= c < 128) s → nfkc s = s
}.

(** ** Line endings *)

Inductive LineEnding := CRLF | LF.

Definition detectLineEnding (content : jsstr) : LineEnding :=
  let crlfIdx := indexOf [CR; NL] content in
  let lfIdx := indexOf [NL] content in
  if lfIdx =? -1 then LF else if crlfIdx =? -1 then LF else
  if crlfIdx <? lfIdx then CRLF else LF.

Fixpoint replace_crlf (s : jsstr) : jsstr :=
  match s with
  | c :: ((d :: s') as t) => if (c =? CR) && (d =? NL) then NL :: replace_crlf s' else c :: replace_crlf t
  | s => s
  end.

Definition normalizeToLF (text : jsstr) : jsstr :=
  (λ c, if c =? CR then NL else c) <$> replace_crlf text.

Definition restoreLineEndings (text : jsstr) (ending : LineEnding) : jsstr :=
  match ending with
  | CRLF => text ≫= λ c, if c =? NL then [CR; NL] else [c]
  | LF => text
  end.

Definition BOM : Z := 0xFEFF.

Definition stripBom (content : jsstr) : jsstr * jsstr :=
  match content with
  | c :: s => if c =? BOM then ([BOM], s) else ([], content)
  | [] => ([], content)
  end.

(** ** Matching *)

Definition ascii_quote (c : Z) : Z :=
  if (0x2018 <=? c) && (c <=? 0x201B) then 39 else c.
Definition ascii_dquote (c : Z) : Z :=
  if (0x201C <=? c) && (c <=? 0x201F) then 34 else c.
Definition ascii_dash (c : Z) : Z :=
  if ((0x2010 <=? c) && (c <=? 0x2015)) || (c =? 0x2212) then 45 else c.
Definition ascii_space (c : Z) : Z :=
  if (c =? 0xA0) || ((0x2002 <=? c) && (c <=? 0x200A)) || (c =? 0x202F) || (c =? 0x205F) || (c =? 0x3000)
  then 32 else c.

Record FuzzyMatchResult := MkFuzzy {
  found : bool;
  index : Z;
  matchLength : Z;
  usedFuzzyMatch : bool;
  contentForReplacement : jsstr
}.

Record Edit := MkEdit { oldText : jsstr; newText : jsstr }.
#[export] Instance Edit_eq_dec : EqDecision Edit.
Proof. solve_decision. Defined.

Record MatchedEdit := MkMatched {
  me_editIndex : Z;
  me_matchIndex : Z;
  me_matchLength : Z;
  me_newText : jsstr
}.

Record AppliedEditsResult := MkApplied { baseContent : jsstr; newContent : jsstr }.
#[export] Instance AppliedEditsResult_eq_dec : EqDecision AppliedEditsResult.
Proof. solve_decision. Defined.

(** ** Errors *)

Definition lenZ {A} (l : list A) : Z := Z.of_nat (length l).

Definition edit_ref (editIndex : Z) : jsstr := js "edits[" ++ js_of_Z editIndex ++ js "]".

Definition getNotFoundError (path : jsstr) (editIndex totalEdits : Z) : jsstr :=
  if totalEdits =? 1 then
    js "Could not find the exact text in " ++ path ++
    js ". The old text must match exactly including all whitespace and newlines."
  else
    js "Could not find " ++ edit_ref editIndex ++ js " in " ++ path ++
    js ". The oldText must match exactly including all whitespace and newlines.".

Definition getDuplicateError (path : jsstr) (editIndex totalEdits occurrences : Z) : jsstr :=
  if totalEdits =? 1 then
    js "Found " ++ js_of_Z occurrences ++ js " occurrences of the text in " ++ path ++
    js ". The text must be unique. Please provide more context to make it unique."
  else
    js "Found " ++ js_of_Z occurrences ++ js " occurrences of " ++ edit_ref editIndex ++ js " in " ++ path ++
    js ". Each oldText must be unique. Please provide more context to make it unique.".

Definition getEmptyOldTextError (path : jsstr) (editIndex totalEdits : Z) : jsstr :=
  if totalEdits =? 1 then js "oldText must not be empty in " ++ path ++ js "."
  else edit_ref editIndex ++ js ".oldText must not be empty in " ++ path ++ js ".".

Definition getNoChangeError (path : jsstr) (totalEdits : Z) : jsstr :=
  if totalEdits =? 1 then
    js "No changes made to " ++ path ++ js ". The replacement produced identical content. " ++
    js "This might indicate an issue with special characters or the text not existing as expected."
  else js "No changes made to " ++ path ++ js ". The replacements produced identical content.".

Definition overlapError (path : jsstr) (previous current : MatchedEdit) : jsstr :=
  edit_ref (me_editIndex previous) ++ js " and " ++ edit_ref (me_editIndex current) ++ js " overlap in " ++
  path ++ js ". Merge them into one edit or target disjoint regions.".

(** ** Applying edits *)

Section edits.
Context `{Unicode}.

Definition normalizeForFuzzyMatch (text : jsstr) : jsstr :=
  ascii_space <$> (ascii_dash <$> (ascii_dquote <$> (ascii_quote <$>
    js_join [NL] (trimEnd <$> js_split NL (nfkc text))))).

Definition fuzzyFindText (content oldText : jsstr) : FuzzyMatchResult :=
  let exactIndex := indexOf oldText content in
  if negb (exactIndex =? -1) then MkFuzzy true exactIndex (lenZ oldText) false content else
  let fuzzyContent := normalizeForFuzzyMatch content in
  let fuzzyOldText := normalizeForFuzzyMatch oldText in
  let fuzzyIndex := indexOf fuzzyOldText fuzzyContent in
  if fuzzyIndex =? -1 then MkFuzzy false (-1) 0 false content
  else MkFuzzy true fuzzyIndex (lenZ fuzzyOldText) true fuzzyContent.

Definition countOccurrences (content oldText : jsstr) : Z :=
  lenZ (split_on (normalizeForFuzzyMatch oldText) (normalizeForFuzzyMatch content)) - 1.

Definition normalize_edit (e : Edit) : Edit := MkEdit (normalizeToLF (oldText e)) (normalizeToLF (newText e)).

(** The first loop: an empty [oldText] is refused. *)
Fixpoint check_empty (path : jsstr) (total i : Z) (edits : list Edit) : result jsstr unit :=
  match edits with
  | [] => Ok tt
  | e :: edits =>
      if bool_decide (oldText e = []) then Throw (getEmptyOldTextError path i total)
      else check_empty path total (i + 1) edits
  end.

(** The second loop: the position of every edit in [baseContent]. *)
Fixpoint match_edits (path baseContent : jsstr) (total i : Z) (edits : list Edit)
    : result jsstr (list MatchedEdit) :=
  match edits with
  | [] => Ok []
  | e :: edits =>
      let matchResult := fuzzyFindText baseContent (oldText e) in
      if negb (found matchResult) then Throw (getNotFoundError path i total) else
      let occurrences := countOccurrences baseContent (oldText e) in
      if 1 <? occurrences then Throw (getDuplicateError path i total occurrences) else
      rest ← match_edits path baseContent total (i + 1) edits;
      Ok (MkMatched i (index matchResult) (matchLength matchResult) (newText e) :: rest)
  end.

(** [matchedEdits.sort]: stable, by [matchIndex]. *)
Fixpoint insert_match (m : MatchedEdit) (ms : list MatchedEdit) : list MatchedEdit :=
  match ms with
  | [] => [m]
  | m' :: ms' => if me_matchIndex m <=? me_matchIndex m' then m :: ms else m' :: insert_match m ms'
  end.
Definition sort_matches (ms : list MatchedEdit) : list MatchedEdit := foldr insert_match [] ms.

(** The third loop compares neighbours. *)
Fixpoint check_overlap (path : jsstr) (ms : list MatchedEdit) : result jsstr unit :=
  match ms with
  | previous :: ((current :: _) as rest) =>
      if me_matchIndex current <? me_matchIndex previous + me_matchLength previous
      then Throw (overlapError path previous current) else check_overlap path rest
  | _ => Ok tt
  end.

Definition splice (m : MatchedEdit) (content : jsstr) : jsstr :=
  take (Z.to_nat (me_matchIndex m)) content ++ me_newText m ++
  drop (Z.to_nat (me_matchIndex m + me_matchLength m)) content.

(** The last loop runs from the last match to the first. *)
Definition apply_matches (ms : list MatchedEdit) (content : jsstr) : jsstr := foldr splice content ms.

Definition base_content (normalizedContent : jsstr) (normalizedEdits : list Edit) : jsstr :=
  let initialMatches := (λ e, fuzzyFindText normalizedContent (oldText e)) <$> normalizedEdits in
  if existsb usedFuzzyMatch initialMatches then normalizeForFuzzyMatch normalizedContent else normalizedContent.

Definition applyEditsToNormalizedContent (normalizedContent : jsstr) (edits : list Edit) (path : jsstr)
    : result jsstr AppliedEditsResult :=
  let normalizedEdits := normalize_edit <$> edits in
  let total := lenZ normalizedEdits in
  check_empty path total 0 normalizedEdits;;
  let base := base_content normalizedContent normalizedEdits in
  matched ← match_edits path base total 0 normalizedEdits;
  let sorted := sort_matches matched in
  check_overlap path sorted;;
  let new := apply_matches sorted base in
  if bool_decide (base = new) then Throw (getNoChangeError path total) else Ok (MkApplied base new).
End edits.

(** ** The displayed diff

    [Diff.diffLines] is the [diff] package's; its result is the list of parts. *)

Record DiffPart := MkPart { value : jsstr; added : bool; removed : bool }.

Record DiffState := MkDiffState {
  output : list jsstr;
  oldLineNum : Z;
  newLineNum : Z;
  lastWasChange : bool;
  firstChangedLine : option Z
}.

Record EditDiffResult := MkDiffResult { diff : jsstr; dr_firstChangedLine : option Z }.
#[export] Instance EditDiffResult_eq_dec : EqDecision EditDiffResult.
Proof. solve_decision. Defined.

(** [part.value.split("\n")] without a last empty line. *)
Definition raw_lines (value : jsstr) : list jsstr :=
  let raw := js_split NL value in
  if bool_decide (last raw = Some []) then removelast raw else raw.

Definition padStart (s : jsstr) (targetLength : Z) : jsstr :=
  replicate (Z.to_nat (targetLength - lenZ s)) 32 ++ s.

Definition numbered (sign : string) (width lineNum : Z) (line : jsstr) : jsstr :=
  js sign ++ padStart (js_of_Z lineNum) width ++ js " " ++ line.

Definition emit_added (width : Z) (st : DiffState) (line : jsstr) : DiffState :=
  MkDiffState (output st ++ [numbered "+" width (newLineNum st) line])
    (oldLineNum st) (newLineNum st + 1) (lastWasChange st) (firstChangedLine st).
Definition emit_removed (width : Z) (st : DiffState) (line : jsstr) : DiffState :=
  MkDiffState (output st ++ [numbered "-" width (oldLineNum st) line])
    (oldLineNum st + 1) (newLineNum st) (lastWasChange st) (firstChangedLine st).
Definition emit_context (width : Z) (st : DiffState) (line : jsstr) : DiffState :=
  MkDiffState (output st ++ [numbered " " width (oldLineNum st) line])
    (oldLineNum st + 1) (newLineNum st + 1) (lastWasChange st) (firstChangedLine st).
(** The ellipsis for [skippedLines] lines that are not shown. *)
Definition emit_skip (width skippedLines : Z) (st : DiffState) : DiffState :=
  MkDiffState (output st ++ [js " " ++ padStart [] width ++ js " ..."])
    (oldLineNum st + skippedLines) (newLineNum st + skippedLines) (lastWasChange st) (firstChangedLine st).

Definition mark_change (st : DiffState) : DiffState :=
  MkDiffState (output st) (oldLineNum st) (newLineNum st) (lastWasChange st)
    (match firstChangedLine st with None => Some (newLineNum st) | l => l end).
Definition set_lastWasChange (b : bool) (st : DiffState) : DiffState :=
  MkDiffState (output st) (oldLineNum st) (newLineNum st) b (firstChangedLine st).
Definition skip_silently (n : Z) (st : DiffState) : DiffState :=
  MkDiffState (output st) (oldLineNum st + n) (newLineNum st + n) (lastWasChange st) (firstChangedLine st).

Definition emit_changes (width : Z) (part : DiffPart) (raw : list jsstr) (st : DiffState) : DiffState :=
  set_lastWasChange true
    (foldl (if added part then emit_added width else emit_removed width) (mark_change st) raw).

Definition emit_unchanged (contextLines : nat) (width : Z) (nextPartIsChange : bool) (raw : list jsstr)
    (st : DiffState) : DiffState :=
  let hasLeadingChange := lastWasChange st in
  let hasTrailingChange := nextPartIsChange in
  let show := foldl (emit_context width) in
  set_lastWasChange false
    (if hasLeadingChange && hasTrailingChange then
       if (length raw <=? contextLines * 2)%nat then show st raw
       else
         let leadingLines := take contextLines raw in
         let trailingLines := drop (length raw - contextLines) raw in
         let skippedLines := lenZ raw - lenZ leadingLines - lenZ trailingLines in
         show (emit_skip width skippedLines (show st leadingLines)) trailingLines
     else if hasLeadingChange then
       let shownLines := take contextLines raw in
       let skippedLines := lenZ raw - lenZ shownLines in
       let st := show st shownLines in
       if 0 <? skippedLines then emit_skip width skippedLines st else st
     else if hasTrailingChange then
       let skippedLines := Z.max 0 (lenZ raw - Z.of_nat contextLines) in
       let st := if 0 <? skippedLines then emit_skip width skippedLines st else st in
       show st (drop (Z.to_nat skippedLines) raw)
     else skip_silently (lenZ raw) st).

Definition is_change (part : DiffPart) : bool := added part || removed part.

Fixpoint diff_loop (contextLines : nat) (width : Z) (parts : list DiffPart) (st : DiffState) : DiffState :=
  match parts with
  | [] => st
  | part :: rest =>
      let raw := raw_lines (value part) in
      let nextPartIsChange := match rest with next :: _ => is_change next | [] => false end in
      diff_loop contextLines width rest
        (if is_change part then emit_changes width part raw st
         else emit_unchanged contextLines width nextPartIsChange raw st)
  end.

Section diff.
Context (diffLines : jsstr → jsstr → list DiffPart).

Definition generateDiffString (oldContent newContent : jsstr) (contextLines : nat) (startLine : Z)
    : EditDiffResult :=
  let parts := diffLines oldContent newContent in
  let oldLines := js_split NL oldContent in
  let newLines := js_split NL newContent in
  let maxLineNum := startLine - 1 + Z.max (lenZ oldLines) (lenZ newLines) in
  let lineNumWidth := lenZ (js_of_Z maxLineNum) in
  let st := diff_loop contextLines lineNumWidth parts (MkDiffState [] startLine startLine false None) in
  MkDiffResult (js_join [NL] (output st)) (firstChangedLine st).

(** ** The tool

    [access], [readFile] and [writeFile] of the operations the tool runs on one
    file; a write gives the bytes it leaves.  [abortAt] is the number of the
    check before which the signal fires. *)

Record EditOperations := MkEditOperations {
  op_access : result jsstr unit;
  op_readFile : result jsstr (list Z);
  op_writeFile : list Z → list Z * result jsstr unit
}.

Definition aborted (abortAt : option nat) (check : nat) : bool :=
  match abortAt with Some n => (n <=? check)%nat | None => false end.

Definition operation_aborted : jsstr := js "Operation aborted".

Context `{Unicode}.

(** A rejection after the abort has rejected the promise is lost. *)
Definition reject (abortAt : option nat) (check : nat) (error : jsstr) : result jsstr (jsstr * EditDiffResult) :=
  Throw (if aborted abortAt check then operation_aborted else error).

Definition validateEditInput (edits : list Edit) : result jsstr (list Edit) :=
  if bool_decide (edits = [])
  then Throw (js "Edit tool input is invalid. edits must contain at least one replacement.") else Ok edits.

(** The arguments of a call as models send them: [edits] as a JSON text, or
    [oldText] and [newText] beside it. *)
Definition prepareEditArguments (input : json) : json :=
  match input with
  | JObj args =>
      let args := match jm_get args (js "edits") with
        | Some (JStr s) =>
            match parse s with Some (JArr l) => jm_set args (js "edits") (JArr l) | _ => args end
        | _ => args
        end in
      match jm_get args (js "oldText"), jm_get args (js "newText") with
      | Some (JStr o), Some (JStr n) =>
          let edits := match jm_get args (js "edits") with Some (JArr l) => l | _ => [] end ++
            [JObj [(js "oldText", JStr o); (js "newText", JStr n)]] in
          JObj (jm_set (jm_delete (jm_delete args (js "oldText")) (js "newText")) (js "edits") (JArr edits))
      | _, _ => JObj args
      end
  | _ => input
  end.

(** The bytes the tool leaves in the file ([None]: it does not write), and
    what its promise settles to. *)
Definition execute (ops : EditOperations) (abortAt : option nat) (path : jsstr) (edits : list Edit)
    : option (list Z) * result jsstr (jsstr * EditDiffResult) :=
  match validateEditInput edits with Throw error => (None, Throw error) | Ok edits =>
  if aborted abortAt 0 then (None, Throw operation_aborted) else
  match op_access ops with
  | Throw error => (None, reject abortAt 1 (js "Could not edit file: " ++ path ++ js ". " ++ error ++ js "."))
  | Ok _ =>
      if aborted abortAt 1 then (None, Throw operation_aborted) else
      match op_readFile ops with
      | Throw error => (None, reject abortAt 2 error)
      | Ok buffer =>
          if aborted abortAt 2 then (None, Throw operation_aborted) else
          let '(bom, content) := stripBom (utf8_decode buffer) in
          let originalEnding := detectLineEnding content in
          match applyEditsToNormalizedContent (normalizeToLF content) edits path with
          | Throw error => (None, reject abortAt 2 error)
          | Ok r =>
              if aborted abortAt 3 then (None, Throw operation_aborted) else
              let finalContent := bom ++ restoreLineEndings (newContent r) originalEnding in
              let '(bytes, written) := op_writeFile ops (utf8_encode finalContent) in
              (Some bytes,
               match written with
               | Throw error => reject abortAt 4 error
               | Ok _ =>
                   if aborted abortAt 4 then Throw operation_aborted else
                   Ok (js "Successfully replaced " ++ js_of_Z (lenZ edits) ++ js " block(s) in " ++ path ++ js ".",
                       generateDiffString (baseContent r) (newContent r) 4 1)
               end)
          end
      end
  end
  end.

(** The preview of a call that has not run; an error is the text it shows. *)
Definition computeEditsDiff (ops : EditOperations) (path : jsstr) (edits : list Edit) : result jsstr EditDiffResult :=
  match op_access ops with
  | Throw error => Throw (js "Could not edit file: " ++ path ++ js ". " ++ error ++ js ".")
  | Ok _ =>
      rawContent ← utf8_decode <$> op_readFile ops;
      let content := (stripBom rawContent).2 in
      r ← applyEditsToNormalizedContent (normalizeToLF content) edits path;
      Ok (generateDiffString (baseContent r) (newContent r) 4 1)
  end.
End diff.
