(* ===== verification/EditDiffSpec.v ===== *)
(** * Theorems about the edit tool

    Applied edits are a replacement of disjoint ranges ([replaced]): every old
    text gives way to its new text and the rest of the file stays as it is,
    line endings and byte order mark included; the order of the edits does not
    matter. *)

From Stdlib Require Import Sorting.Sorted.
From stdpp Require Import sorting.
From S2P Require Import Prelude.
From S2P Require Import JsString.
From S2P Require Import JsSearch.
From S2P Require Import EditDiff.

(** ** Searching *)

Lemma indexOf_found p s : indexOf p s ≠ -1 → ∃ a b, s = a ++ p ++ b ∧ indexOf p s = lenZ a.
Proof.
  unfold indexOf, lenZ. destruct (index_of p s) as [i|] eqn:E; [|done]. intros _.
  apply index_of_Some in E as (a&b&->&<-). by exists a, b.
Qed.

Lemma indexOf_absent p s : indexOf p s = -1 ↔ ¬ occurs p s.
Proof.
  rewrite <-index_of_is_Some. unfold indexOf. destruct (index_of p s) as [i|].
  - split; [lia|]. intros []. eauto.
  - split; [by intros _ []|done].
Qed.

Lemma indexOf_nonneg p s : occurs p s → 0 <= indexOf p s.
Proof. intros Ho. destruct (indexOf_found p s) as (a&b&_&->); [|unfold lenZ; lia]. by rewrite indexOf_absent; intros []. Qed.

(** ** Replacements

    [replaced rs old new]: [old] is a sequence of the old texts of [rs] with
    gaps, and [new] is the same gaps with the new texts. *)

Inductive replaced : list (jsstr * jsstr) → jsstr → jsstr → Prop :=
| replaced_end t : replaced [] t t
| replaced_cons gap o n rs old new :
    replaced rs old new → replaced ((o, n) :: rs) (gap ++ o ++ old) (gap ++ n ++ new).

Lemma replaced_bind (f : Z → jsstr) rs old new : replaced rs old new →
  replaced (prod_map (mbind f) (mbind f) <$> rs) (old ≫= f) (new ≫= f).
Proof.
  induction 1 as [t|gap o n rs old new H IH]; cbn; [constructor|].
  rewrite !bind_app. by constructor.
Qed.

Lemma replaced_prefix p rs old new : replaced rs old new → replaced rs (p ++ old) (p ++ new).
Proof.
  destruct 1 as [t|gap o n rs old new H]; [constructor|].
  rewrite !(app_assoc p gap). by constructor.
Qed.

(** ** Applying sorted, disjoint matches *)

Section apply.
Context (base : jsstr).

(** A match that lies in [base]. *)
Definition in_base (m : MatchedEdit) : Prop :=
  0 <= me_matchIndex m ∧ 0 <= me_matchLength m ∧ me_matchIndex m + me_matchLength m <= lenZ base.

Fixpoint disjoint_from (k : Z) (ms : list MatchedEdit) : Prop :=
  match ms with
  | [] => True
  | m :: ms => k <= me_matchIndex m ∧ disjoint_from (me_matchIndex m + me_matchLength m) ms
  end.

Definition matched_text (m : MatchedEdit) : jsstr :=
  take (Z.to_nat (me_matchLength m)) (drop (Z.to_nat (me_matchIndex m)) base).
Definition replacement (m : MatchedEdit) : jsstr * jsstr := (matched_text m, me_newText m).

Lemma apply_matches_replaced ms : ∀ k, 0 <= k <= lenZ base → Forall in_base ms → disjoint_from k ms →
  ∃ new, apply_matches ms base = take (Z.to_nat k) base ++ new ∧
    replaced (replacement <$> ms) (drop (Z.to_nat k) base) new.
Proof.
  induction ms as [|m ms IH]; intros k Hk Hin Hd; cbn [apply_matches foldr].
  { exists (drop (Z.to_nat k) base). split; [by rewrite take_drop|constructor]. }
  apply Forall_cons in Hin as [(Hi&Hl&Hb) Hin]. destruct Hd as [Hki Hd].
  unfold lenZ in *.
  destruct (IH (me_matchIndex m + me_matchLength m)) as (new&E&Hr); [lia|done..|].
  unfold apply_matches in E. rewrite E. clear E IH.
  exists (take (Z.to_nat (me_matchIndex m) - Z.to_nat k) (drop (Z.to_nat k) base) ++ me_newText m ++ new).
  split.
  - unfold splice. rewrite take_app_le by (rewrite length_take; lia).
    rewrite take_take, Nat.min_l by lia.
    rewrite drop_app_ge by (rewrite length_take; lia).
    rewrite length_take, Nat.min_l by lia.
    rewrite Nat.sub_diag, drop_0, (app_assoc (take (Z.to_nat k) base)), take_take_drop.
    do 2 f_equal. lia.
  - cbn [fmap list_fmap]. unfold replacement at 1.
    set (gap := take _ (drop (Z.to_nat k) base)).
    assert (drop (Z.to_nat k) base =
      gap ++ matched_text m ++ drop (Z.to_nat (me_matchIndex m + me_matchLength m)) base) as ->; [|by constructor].
    unfold matched_text. rewrite Z2Nat.inj_add, <-drop_drop by lia. rewrite (take_drop (Z.to_nat (me_matchLength m))).
    unfold gap.
    replace (drop (Z.to_nat (me_matchIndex m)) base) with
      (drop (Z.to_nat (me_matchIndex m) - Z.to_nat k) (drop (Z.to_nat k) base)); [by rewrite take_drop|].
    rewrite drop_drop. f_equal. lia.
Qed.
End apply.

(** ** Sorting *)

Definition le_index (m m' : MatchedEdit) : Prop := me_matchIndex m <= me_matchIndex m'.

Lemma insert_match_perm m ms : insert_match m ms ≡ₚ m :: ms.
Proof.
  induction ms as [|m' ms IH]; cbn; [done|]. case_match; [done|]. rewrite IH. constructor.
Qed.

Lemma sort_matches_perm ms : sort_matches ms ≡ₚ ms.
Proof.
  induction ms as [|m ms IH]; [done|]. unfold sort_matches in *. cbn. by rewrite insert_match_perm, IH.
Qed.

Lemma insert_match_sorted m ms : StronglySorted le_index ms → StronglySorted le_index (insert_match m ms).
Proof.
  induction 1 as [|m' ms Hs IH Hall]; cbn; [by repeat constructor|].
  destruct (Z.leb_spec (me_matchIndex m) (me_matchIndex m')) as [Hle|Hlt].
  - constructor; [by constructor|]. constructor; [done|].
    eapply Forall_impl; [done|]. unfold le_index. intros x Hx. lia.
  - constructor; [done|]. rewrite insert_match_perm. constructor; [unfold le_index; lia|done].
Qed.

Lemma sort_matches_sorted ms : StronglySorted le_index (sort_matches ms).
Proof. induction ms; [constructor|]. by apply insert_match_sorted. Qed.

Lemma check_overlap_disjoint path ms : Forall (λ m, 0 <= me_matchIndex m) ms →
  check_overlap path ms = Ok () ↔ disjoint_from 0 ms.
Proof.
  intros Hpos. destruct ms as [|m ms]; [done|]. inversion_clear Hpos as [|?? Hm _].
  cbn [disjoint_from]. transitivity (disjoint_from (me_matchIndex m + me_matchLength m) ms); [|naive_solver].
  clear Hm. revert m. induction ms as [|m' ms IH]; intros m; [done|].
  cbn [check_overlap disjoint_from].
  destruct (Z.ltb_spec (me_matchIndex m') (me_matchIndex m + me_matchLength m)); [naive_solver lia|].
  split; [intros ?; split; [lia|]; by apply (IH m')|]. intros [_ ?]. by apply (IH m').
Qed.

Lemma disjoint_from_le k k' ms : k' <= k → disjoint_from k ms → disjoint_from k' ms.
Proof. destruct ms; cbn; [done|]. naive_solver lia. Qed.

(** ** Matching all edits *)

Section matching.
Context `{Unicode}.

(** The text of [base] that stands for [old]: itself, or its normalized form. *)
Definition found_text (base old : jsstr) : jsstr :=
  if decide (occurs old base) then old else normalizeForFuzzyMatch old.

Lemma fuzzyFindText_eq content old :
  fuzzyFindText content old =
    if decide (occurs old content) then MkFuzzy true (indexOf old content) (lenZ old) false content
    else if decide (occurs (normalizeForFuzzyMatch old) (normalizeForFuzzyMatch content))
      then MkFuzzy true (indexOf (normalizeForFuzzyMatch old) (normalizeForFuzzyMatch content))
             (lenZ (normalizeForFuzzyMatch old)) true (normalizeForFuzzyMatch content)
      else MkFuzzy false (-1) 0 false content.
Proof.
  unfold fuzzyFindText. destruct (decide (occurs old content)) as [Ho|Hn].
  - destruct (Z.eqb_spec (indexOf old content) (-1)) as [E|E]; [|done].
    by apply indexOf_absent in E.
  - rewrite (proj2 (indexOf_absent _ _) Hn). cbn.
    destruct (decide (occurs _ _)) as [Ho'|Hn'].
    + destruct (Z.eqb_spec (indexOf (normalizeForFuzzyMatch old) (normalizeForFuzzyMatch content)) (-1)) as [E|E];
        [|done]. by apply indexOf_absent in E.
    + by rewrite (proj2 (indexOf_absent _ _) Hn').
Qed.

(** What [match_edits] does with one edit, apart from its number. *)
Definition edit_matches (base : jsstr) (e : Edit) : Prop :=
  found (fuzzyFindText base (oldText e)) = true ∧ countOccurrences base (oldText e) <= 1.
Definition match_of (base : jsstr) (e : Edit) (i : Z) : MatchedEdit :=
  let r := fuzzyFindText base (oldText e) in MkMatched i (index r) (matchLength r) (newText e).

Lemma match_edits_Ok path base total es : ∀ i ms, match_edits path base total i es = Ok ms ↔
  Forall (edit_matches base) es ∧ ms = imap (λ j e, match_of base e (i + Z.of_nat j)) es.
Proof.
  induction es as [|e es IH]; intros i ms; cbn [match_edits imap].
  { split; [by intros [= <-]|by intros [_ ->]]. }
  rewrite Forall_cons. unfold edit_matches at 1.
  destruct (found _); cbn [negb]; [|naive_solver].
  destruct (Z.ltb_spec 1 (countOccurrences base (oldText e))) as [Hlt|Hle]; [split; [done|]; intros [[[_ ?] _] _]; lia|].
  assert (∀ es', imap (λ j e, match_of base e (i + 1 + Z.of_nat j)) es' =
                 imap ((λ j e, match_of base e (i + Z.of_nat j)) ∘ S) es') as Hs.
  { intros es'. apply imap_ext. intros j x _. cbn. unfold match_of. f_equal. lia. }
  replace (i + Z.of_nat 0) with i by lia. rewrite <-Hs. split.
  - intros (rest&[Hall ->]%IH&[= <-])%bind_Ok. done.
  - intros [[_ Hall] ->]. rewrite (proj2 (IH _ _) (conj Hall eq_refl)). done.
Qed.

(** A match lies in the base, when the base is stable under normalization. *)
Lemma match_in_base base e i :
  (usedFuzzyMatch (fuzzyFindText base (oldText e)) = true → normalizeForFuzzyMatch base = base) →
  edit_matches base e →
  in_base base (match_of base e i) ∧ matched_text base (match_of base e i) = found_text base (oldText e).
Proof.
  intros Hst [Hf _]. unfold match_of, found_text, in_base, matched_text. rewrite fuzzyFindText_eq in *.
  assert (∀ o, occurs o base → (0 <= indexOf o base ∧ 0 <= lenZ o ∧ indexOf o base + lenZ o <= lenZ base) ∧
      take (Z.to_nat (lenZ o)) (drop (Z.to_nat (indexOf o base)) base) = o) as Hocc.
  { intros o Ho. destruct (indexOf_found o base) as (a&b&Eb&Ei); [by rewrite indexOf_absent; intros []|].
    rewrite Ei. split.
    - unfold lenZ. rewrite Eb, !length_app. lia.
    - unfold lenZ. rewrite !Nat2Z.id, Eb, drop_app_length, take_app_length. done. }
  destruct (decide (occurs (oldText e) base)) as [Ho|Hn]; cbn in *; [by apply Hocc|].
  destruct (decide (occurs _ _)) as [Ho'|]; cbn in *; [|done].
  rewrite (Hst eq_refl) in Ho' |- *. by apply Hocc.
Qed.

Lemma check_empty_Ok path total es : ∀ i, check_empty path total i es = Ok () ↔ Forall (λ e, oldText e ≠ []) es.
Proof.
  induction es as [|e es IH]; intros i; cbn [check_empty]; [by rewrite Forall_nil|].
  rewrite Forall_cons. case_bool_decide; [naive_solver|]. rewrite IH. naive_solver.
Qed.

Definition sorted_matches (base : jsstr) (es : list Edit) : list MatchedEdit :=
  sort_matches (imap (λ j e, match_of base e (0 + Z.of_nat j)) es).

(** The edits succeed exactly when every old text is non-empty, is found, is
    found once, no two ranges overlap and the text changes. *)
Lemma applyEdits_Ok content edits path r :
  let es := normalize_edit <$> edits in
  let base := base_content content es in
  let new := apply_matches (sorted_matches base es) base in
  applyEditsToNormalizedContent content edits path = Ok r ↔
  Forall (λ e, oldText e ≠ []) es ∧ Forall (edit_matches base) es ∧
  check_overlap path (sorted_matches base es) = Ok () ∧ base ≠ new ∧ r = MkApplied base new.
Proof.
  intros es base new. unfold applyEditsToNormalizedContent. fold es. fold base. split.
  - intros ([]&He%check_empty_Ok&(ms&[Hm ->]%match_edits_Ok&([]&Hc&Hr)%bind_Ok)%bind_Ok)%bind_Ok.
    change (sort_matches _) with (sorted_matches base es) in *.
    case_bool_decide; [done|]. injection Hr as <-. done.
  - intros (He&Hm&Hc&Hne&->).
    rewrite (proj2 (check_empty_Ok path (lenZ es) es 0) He). cbn [mbind result_bind].
    rewrite (proj2 (match_edits_Ok path base (lenZ es) es 0 _) (conj Hm eq_refl)). cbn [mbind result_bind].
    change (sort_matches _) with (sorted_matches base es). rewrite Hc. cbn [mbind result_bind].
    by rewrite bool_decide_false.
Qed.

(** An old text that occurs only in the normalized form. *)
Definition needs_fuzzy (content old : jsstr) : Prop :=
  ¬ occurs old content ∧ occurs (normalizeForFuzzyMatch old) (normalizeForFuzzyMatch content).

Lemma usedFuzzy_spec content old : usedFuzzyMatch (fuzzyFindText content old) = true ↔ needs_fuzzy content old.
Proof.
  unfold needs_fuzzy. rewrite fuzzyFindText_eq. destruct (decide (occurs old content)); [naive_solver|].
  destruct (decide _); naive_solver.
Qed.

#[export] Instance needs_fuzzy_dec content old : Decision (needs_fuzzy content old).
Proof. unfold needs_fuzzy. apply _. Defined.

Lemma base_content_eq content es : base_content content es =
  if decide (Exists (λ e, needs_fuzzy content (oldText e)) es)
  then normalizeForFuzzyMatch content else content.
Proof.
  unfold base_content. destruct (decide _) as [He|Hn]; destruct (existsb _ _) eqn:E; try done; exfalso.
  - apply not_true_iff_false in E. apply E, existsb_Exists, Exists_fmap.
    eapply Exists_impl; [exact He|]. intros e. apply usedFuzzy_spec.
  - apply Hn. apply existsb_Exists, Exists_fmap in E.
    eapply Exists_impl; [exact E|]. intros e. apply usedFuzzy_spec.
Qed.

(** Content whose normalized form is stable, as every ASCII text is. *)
Definition fuzzy_stable (content : jsstr) : Prop :=
  normalizeForFuzzyMatch (normalizeForFuzzyMatch content) = normalizeForFuzzyMatch content.

Lemma base_stable content es e :
  (Exists (λ e, needs_fuzzy content (oldText e)) es → fuzzy_stable content) → e ∈ es →
  usedFuzzyMatch (fuzzyFindText (base_content content es) (oldText e)) = true →
  normalizeForFuzzyMatch (base_content content es) = base_content content es.
Proof.
  intros Hst He. rewrite base_content_eq. destruct (decide _) as [Hx|Hn]; [by intros _; apply Hst|].
  intros Hu%usedFuzzy_spec. exfalso. apply Hn, Exists_exists. by exists e.
Qed.

Lemma imap_pair {A B C} (f : nat → A → B) (g : B → C) (h : A → C) (l : list A) :
  (∀ j x, x ∈ l → g (f j x) = h x) → g <$> imap f l = h <$> l.
Proof.
  revert f. induction l as [|x l IH]; intros f Hf; [done|]. cbn [imap fmap list_fmap].
  rewrite Hf by set_solver. f_equal. apply IH. intros j y Hy. apply Hf. set_solver.
Qed.

Lemma matches_replacements content edits es base :
  (Exists (λ e, needs_fuzzy content (oldText e)) es → fuzzy_stable content) →
  es = normalize_edit <$> edits → base = base_content content es → Forall (edit_matches base) es →
  Forall (in_base base) (sorted_matches base es) ∧
  replacement base <$> sorted_matches base es ≡ₚ (λ e, (found_text base (oldText e), newText e)) <$> es.
Proof.
  intros Hst -> -> Hm. set (es := normalize_edit <$> edits) in *. set (base := base_content content es) in *.
  assert (∀ j e, e ∈ es → in_base base (match_of base e (0 + Z.of_nat j)) ∧
    matched_text base (match_of base e (0 + Z.of_nat j)) = found_text base (oldText e)) as Hin.
  { intros j e He. apply match_in_base; [by apply base_stable|]. by eapply Forall_forall in Hm. }
  unfold sorted_matches. split.
  - rewrite sort_matches_perm. apply Forall_forall. intros m (j&e&->&He)%elem_of_lookup_imap_1.
    apply Hin. by eapply list_elem_of_lookup_2.
  - rewrite sort_matches_perm. erewrite imap_pair; [done|]. intros j e He. cbn. unfold replacement.
    by rewrite (proj2 (Hin j e He)).
Qed.

(** Edits that are accepted replace disjoint ranges and nothing else: the
    content they were matched against (the file's own text, or its normalized
    form if some old text occurs only there) is a sequence of gaps and of the
    texts found, each edit's exactly once, and the new content is the same
    gaps with the new texts; it differs from the old one. *)
Theorem applyEdits_replaces content edits path base new :
  let es := normalize_edit <$> edits in
  (Exists (λ e, needs_fuzzy content (oldText e)) es → fuzzy_stable content) →
  applyEditsToNormalizedContent content edits path = Ok (MkApplied base new) →
  base = (if decide (Exists (λ e, needs_fuzzy content (oldText e)) es)
          then normalizeForFuzzyMatch content else content) ∧
  base ≠ new ∧
  ∃ rs, rs ≡ₚ (λ e, (found_text base (oldText e), newText e)) <$> es ∧ replaced rs base new.
Proof.
  intros es Hst (He&Hm&Hc&Hne&[= -> ->])%applyEdits_Ok. fold es in He, Hm, Hc, Hne |- *.
  split; [apply base_content_eq|]. split; [done|].
  destruct (matches_replacements content edits es _ Hst eq_refl eq_refl Hm) as [Hin Hp].
  eexists. split; [exact Hp|]. apply check_overlap_disjoint in Hc; [|eapply Forall_impl; [done|]; by intros m [? _]].
  destruct (apply_matches_replaced (base_content content es) _ 0 ltac:(unfold lenZ; lia) Hin Hc) as (new&E&Hr).
  rewrite E. exact Hr.
Qed.

(** ** The order of the edits *)

(** A match without the number of its edit. *)
Definition place (m : MatchedEdit) : Z * Z * jsstr := (me_matchIndex m, me_matchLength m, me_newText m).
Definition le_place (p q : Z * Z * jsstr) : Prop := p.1.1 <= q.1.1.

Lemma apply_matches_place base ms : ∀ ms', place <$> ms = place <$> ms' →
  apply_matches ms base = apply_matches ms' base.
Proof.
  unfold apply_matches. induction ms as [|m ms IH]; intros [|m' ms'] E; try done.
  injection E as Ei El En E. cbn. rewrite (IH ms' E). unfold splice. by rewrite Ei, El, En.
Qed.

Lemma disjoint_from_place ms : ∀ k ms', place <$> ms = place <$> ms' → disjoint_from k ms → disjoint_from k ms'.
Proof.
  induction ms as [|m ms IH]; intros k [|m' ms'] E; try done.
  injection E as Ei El En E. cbn. rewrite Ei, El. intros [? ?]. split; [done|]. by apply IH.
Qed.

Lemma place_sorted ms : StronglySorted le_index ms → StronglySorted le_place (place <$> ms).
Proof. induction 1 as [|m ms Hs IH Hall]; cbn; constructor; [done|]. by apply Forall_fmap. Qed.

(** Disjoint non-empty ranges start at different positions. *)
Lemma disjoint_from_lt k ms m : disjoint_from k ms → Forall (λ m, 0 < me_matchLength m) ms → m ∈ ms →
  k <= me_matchIndex m.
Proof.
  revert k. induction ms as [|m' ms IH]; intros k; [set_solver|]. cbn.
  intros [? Hd] [Hm' Hpos]%Forall_cons [->|Hin]%elem_of_cons; [done|].
  specialize (IH _ Hd Hpos Hin). lia.
Qed.

Lemma disjoint_places_unique ms : ∀ k, disjoint_from k ms → Forall (λ m, 0 < me_matchLength m) ms →
  ∀ p q, p ∈ place <$> ms → q ∈ place <$> ms → p.1.1 = q.1.1 → p = q.
Proof.
  induction ms as [|m ms IH]; intros k Hd Hpos p q Hp Hq; [by apply not_elem_of_nil in Hp|].
  destruct Hd as [_ Hd]. apply Forall_cons in Hpos as [Hm Hpos].
  assert (∀ r, r ∈ place <$> ms → me_matchIndex m < r.1.1) as Hlt.
  { intros r (m'&->&Hin)%list_elem_of_fmap. pose proof (disjoint_from_lt _ _ _ Hd Hpos Hin). cbn. lia. }
  apply elem_of_cons in Hp as [->|Hp], Hq as [->|Hq]; [done|..|by eapply IH].
  - intros E. specialize (Hlt q Hq). cbn in E. lia.
  - intros E. specialize (Hlt p Hp). cbn in E. lia.
Qed.

Lemma sorted_places_unique ms ms' : disjoint_from 0 ms → Forall (λ m, 0 < me_matchLength m) ms →
  StronglySorted le_index ms → StronglySorted le_index ms' → place <$> ms ≡ₚ place <$> ms' →
  place <$> ms = place <$> ms'.
Proof.
  intros Hd Hpos Hs Hs' Hp. apply (StronglySorted_unique_strong le_place); [|by apply place_sorted..|done].
  intros x1 x2 H1 H2 H12 H21. unfold le_place in *. rewrite <-Hp in H2.
  eapply disjoint_places_unique; [exact Hd|done..|lia].
Qed.

(** The texts the matcher looks for are not empty. *)
Definition visible (e : Edit) : Prop := normalizeForFuzzyMatch (normalizeToLF (oldText e)) ≠ [].

Lemma matchLength_pos base e i : visible e → oldText (normalize_edit e) ≠ [] →
  edit_matches base (normalize_edit e) → 0 < me_matchLength (match_of base (normalize_edit e) i).
Proof.
  unfold visible, edit_matches, match_of. rewrite !fuzzyFindText_eq. cbn. intros Hv Hne [Hf _].
  destruct (decide _); cbn in *; [|destruct (decide _); [|done]]; cbn.
  all: unfold lenZ; match goal with |- 0 < Z.of_nat (length ?l) => by destruct l end.
Qed.

Lemma matched_places base es :
  place <$> sorted_matches base es ≡ₚ (λ e, place (match_of base e 0)) <$> es.
Proof. unfold sorted_matches. rewrite sort_matches_perm. by erewrite imap_pair. Qed.

Lemma sorted_matches_Forall (P : MatchedEdit → Prop) base es :
  (∀ j e, e ∈ es → P (match_of base e (0 + Z.of_nat j))) → Forall P (sorted_matches base es).
Proof.
  intros HP. unfold sorted_matches. rewrite sort_matches_perm. apply Forall_forall.
  intros m (j&e&->&Hin)%elem_of_lookup_imap_1. apply HP. by eapply list_elem_of_lookup_2.
Qed.

Lemma sorted_indices base es : Forall (edit_matches base) es →
  Forall (λ m, 0 <= me_matchIndex m) (sorted_matches base es).
Proof.
  intros Hm. apply sorted_matches_Forall. intros j e Hin. eapply Forall_forall in Hm as [Hf _]; [|done].
  unfold match_of. revert Hf. rewrite fuzzyFindText_eq. cbn.
  destruct (decide _); cbn; [by intros _; apply indexOf_nonneg|].
  destruct (decide _); cbn; [by intros _; apply indexOf_nonneg|done].
Qed.

(** The order in which the edits are listed does not matter: any
    permutation of accepted edits is accepted and gives the same content. *)
Theorem edits_order content edits edits' path r :
  edits ≡ₚ edits' → Forall visible edits →
  applyEditsToNormalizedContent content edits path = Ok r →
  applyEditsToNormalizedContent content edits' path = Ok r.
Proof.
  intros Hp Hv (He&Hm&Hc&Hne&->)%applyEdits_Ok.
  assert (normalize_edit <$> edits ≡ₚ normalize_edit <$> edits') as Hpn by by rewrite Hp.
  assert (base_content content (normalize_edit <$> edits) = base_content content (normalize_edit <$> edits')) as Hb.
  { rewrite !base_content_eq. destruct (decide _) as [Hx|Hx], (decide _) as [Hy|Hy]; try done;
      rewrite Hpn in Hx; done. }
  rewrite Hb in *. set (base := base_content content (normalize_edit <$> edits')) in *.
  assert (Forall (λ m, 0 < me_matchLength m) (sorted_matches base (normalize_edit <$> edits))) as Hpos.
  { apply sorted_matches_Forall. intros j e' (e&->&Hin)%list_elem_of_fmap.
    rewrite Forall_fmap in He, Hm. rewrite Forall_forall in He, Hm, Hv.
    apply matchLength_pos; [by apply Hv|by apply (He e)|by apply (Hm e)]. }
  assert (Forall (edit_matches base) (normalize_edit <$> edits')) as Hm' by by rewrite <-Hpn.
  apply check_overlap_disjoint in Hc; [|by apply sorted_indices].
  assert (place <$> sorted_matches base (normalize_edit <$> edits) =
          place <$> sorted_matches base (normalize_edit <$> edits')) as Heq.
  { apply sorted_places_unique; [done..|apply sort_matches_sorted|apply sort_matches_sorted|].
    by rewrite !matched_places, Hpn. }
  rewrite (apply_matches_place _ _ _ Heq) in Hne |- *.
  apply applyEdits_Ok. fold base. split_and!; [by rewrite <-Hpn|done| |done..].
  apply check_overlap_disjoint; [by apply sorted_indices|]. by eapply disjoint_from_place.
Qed.

(** ** Blank and repeated texts *)

(** A text that normalizes to nothing, such as a run of spaces, is refused
    as a duplicate even when it occurs exactly once: splitting by an empty
    separator counts code units. *)
Theorem blank_text_rejected content old new path :
  normalizeToLF old ≠ [] → normalizeForFuzzyMatch (normalizeToLF old) = [] →
  occurs (normalizeToLF old) content → 2 < lenZ (normalizeForFuzzyMatch content) →
  applyEditsToNormalizedContent content [MkEdit old new] path =
    Throw (getDuplicateError path 0 1 (lenZ (normalizeForFuzzyMatch content) - 1)).
Proof.
  intros Hne HN Ho Hlen. unfold applyEditsToNormalizedContent.
  change (normalize_edit <$> [MkEdit old new]) with [MkEdit (normalizeToLF old) (normalizeToLF new)].
  rewrite base_content_eq. destruct (decide _) as [Hx|_].
  { apply Exists_cons in Hx as [[Hn _]|Hx%Exists_nil]; [by cbn in Hn|done]. }
  cbn [check_empty oldText]. rewrite bool_decide_false by done. cbn [mbind result_bind match_edits oldText].
  rewrite fuzzyFindText_eq. destruct (decide _); [|done]. cbn [found negb].
  unfold countOccurrences. cbn [oldText]. rewrite HN. unfold split_on. rewrite bool_decide_true by done.
  unfold lenZ in *. rewrite length_fmap. destruct (Z.ltb_spec 1 (Z.of_nat (length (normalizeForFuzzyMatch content)) - 1)); [done|lia].
Qed.

(** ** Line endings *)

Lemma replace_crlf_cons c s : c ≠ CR → replace_crlf (c :: s) = c :: replace_crlf s.
Proof. intros Hc. destruct s as [|d s]; cbn; [done|]. by destruct (Z.eqb_spec c CR). Qed.

Lemma normalize_no_CR s : CR ∉ normalizeToLF s.
Proof.
  unfold normalizeToLF. intros (c&E&_)%list_elem_of_fmap. unfold CR, NL in *.
  destruct (Z.eqb_spec c 13); [done|congruence].
Qed.

(** Restored line endings normalize to the text they came from. *)
Lemma normalize_restore t ending : CR ∉ t → normalizeToLF (restoreLineEndings t ending) = t.
Proof.
  intros Ht. unfold normalizeToLF.
  assert (replace_crlf (restoreLineEndings t ending) = t) as ->.
  - induction t as [|c t IH]; [by destruct ending|]. apply not_elem_of_cons in Ht as [Hc Ht].
    specialize (IH Ht). destruct ending; cbn [restoreLineEndings mbind list_bind] in *; [|by rewrite replace_crlf_cons, IH].
    destruct (Z.eqb_spec c NL) as [->|Hn]; [by cbn; f_equal|].
    cbn [app]. by rewrite replace_crlf_cons, IH.
  - rewrite <-(list_fmap_id t) at 2. apply list_fmap_ext. intros i c Hc. cbn.
    destruct (Z.eqb_spec c CR) as [->|]; [|done]. by apply list_elem_of_lookup_2 in Hc.
Qed.

Lemma restore_replaced ending rs old new : replaced rs old new →
  replaced (prod_map (λ s, restoreLineEndings s ending) (λ s, restoreLineEndings s ending) <$> rs)
    (restoreLineEndings old ending) (restoreLineEndings new ending).
Proof.
  intros Hr. destruct ending; [by apply replaced_bind|].
  replace (prod_map _ _ <$> rs) with rs; [done|]. clear Hr. induction rs as [|[o n] rs IH]; [done|].
  cbn [fmap list_fmap]. by f_equal.
Qed.

Lemma replaced_no_CR rs old new : replaced rs old new → CR ∉ old → Forall (λ p, CR ∉ p.2) rs → CR ∉ new.
Proof.
  induction 1 as [t|gap o n rs old new Hr IH]; [done|]. rewrite !elem_of_app, Forall_cons. cbn. naive_solver.
Qed.

(** ** The file *)

(** The new content of a file with the content [rawContent]. *)
Definition edit_content (rawContent : jsstr) (edits : list Edit) (path : jsstr) : result jsstr jsstr :=
  let '(bom, content) := stripBom rawContent in
  r ← applyEditsToNormalizedContent (normalizeToLF content) edits path;
  Ok (bom ++ restoreLineEndings (newContent r) (detectLineEnding content)).

(** All line breaks of the content are those of the first. *)
Definition consistent (content : jsstr) : Prop :=
  restoreLineEndings (normalizeToLF content) (detectLineEnding content) = content.

(** A text of an edit with the line endings of the content. *)
Definition in_file (content text : jsstr) : jsstr :=
  restoreLineEndings (normalizeToLF text) (detectLineEnding content).

Lemma normalizeToLF_idem text : normalizeToLF (normalizeToLF text) = normalizeToLF text.
Proof. apply (normalize_restore (normalizeToLF text) LF), normalize_no_CR. Qed.

(** In a file with consistent line endings, edits whose old texts occur as
    given replace disjoint ranges of the file itself: the byte order mark, the
    line endings and all text outside the ranges stay, and the new text takes
    the line endings of the file. *)
Theorem edit_preserves_rest raw bom content edits path out :
  stripBom raw = (bom, content) → consistent content →
  Forall (λ e, occurs (normalizeToLF (oldText e)) (normalizeToLF content)) edits →
  edit_content raw edits path = Ok out →
  raw ≠ out ∧
  ∃ rs, rs ≡ₚ (λ e, (in_file content (oldText e), in_file content (newText e))) <$> edits ∧
    replaced rs raw out.
Proof.
  intros Hbom Hcons Hocc. unfold edit_content. rewrite Hbom. intros ([base new]&Ha&[= <-])%bind_Ok.
  assert (¬ Exists (λ e, needs_fuzzy (normalizeToLF content) (oldText e)) (normalize_edit <$> edits)) as Hnf.
  { rewrite Exists_fmap. intros (e&Hin&Hf&_)%Exists_exists. rewrite Forall_forall in Hocc. apply Hf, (Hocc e Hin). }
  apply applyEdits_replaces in Ha as (Hbase&Hne&rs&Hp&Hr); [|by intros ?].
  rewrite decide_False in Hbase by done. subst base. cbn [newContent].
  assert (raw = bom ++ restoreLineEndings (normalizeToLF content) (detectLineEnding content)) as Hraw.
  { rewrite Hcons. unfold stripBom in Hbom. destruct raw as [|c s]; [by injection Hbom as <- <-|].
    destruct (Z.eqb_spec c BOM) as [->|]; by injection Hbom as <- <-. }
  assert (CR ∉ new) as Hcr.
  { eapply replaced_no_CR; [done|apply normalize_no_CR|]. rewrite Hp. rewrite !Forall_fmap.
    apply Forall_true. intros e. cbn. apply normalize_no_CR. }
  split.
  - rewrite Hraw. intros [_ E]%app_inj_1; [|done]. apply (f_equal normalizeToLF) in E.
    rewrite !normalize_restore in E by (done || apply normalize_no_CR). done.
  - eexists. split; [|rewrite Hraw at 1; by apply replaced_prefix, restore_replaced].
    rewrite Hp, <-!list_fmap_compose. apply Permutation_refl', list_fmap_ext. intros i e He. cbn.
    unfold found_text, in_file. rewrite decide_True; [done|].
    exact (Forall_lookup_1 _ _ _ _ Hocc He).
Qed.
End matching.

(** ** Instances and samples *)

(** A platform whose data has nothing to decompose. *)
Definition plain_unicode : Unicode := {| nfkc := λ s, s; nfkc_ascii := λ s _, eq_refl |}.

(** A file with curly quotes, and an edit written with straight ones. *)
Definition quoted_file : jsstr := js "say " ++ [0x2018] ++ js "hi" ++ [0x2019] ++ js " now" ++ [NL] ++ js "end" ++ [NL].
Definition quoted_edits : list Edit :=
  [MkEdit (js "end") (js "stop"); MkEdit (js "'hi'") (js "'ho'")].

Lemma applyEdits_replaces_witness :
  ∃ base new, base ≠ new ∧ ∃ rs, rs ≡ₚ (λ e, (@found_text plain_unicode base (oldText e), newText e)) <$> (normalize_edit <$> quoted_edits) ∧
    replaced rs base new.
Proof.
  eexists (js "say 'hi' now" ++ [NL] ++ js "end" ++ [NL]), (js "say 'ho' now" ++ [NL] ++ js "stop" ++ [NL]).
  apply (@applyEdits_replaces plain_unicode quoted_file quoted_edits (js "f")).
  - intros _. unfold fuzzy_stable. by vm_compute.
  - by vm_compute.
Defined.

Lemma edits_order_witness :
  @applyEditsToNormalizedContent plain_unicode quoted_file (reverse quoted_edits) (js "f") =
  Ok (MkApplied (js "say 'hi' now" ++ [NL] ++ js "end" ++ [NL]) (js "say 'ho' now" ++ [NL] ++ js "stop" ++ [NL])).
Proof.
  apply (@edits_order plain_unicode quoted_file quoted_edits).
  - by rewrite reverse_Permutation.
  - repeat (apply Forall_cons_2; [unfold visible; by vm_compute|]). constructor.
  - by vm_compute.
Defined.

Lemma blank_text_rejected_witness :
  @applyEditsToNormalizedContent plain_unicode (js "a  b") [MkEdit (js "  ") (js " ")] (js "f") =
  Throw (js "Found 3 occurrences of the text in f. The text must be unique. Please provide more context to make it unique.").
Proof.
  apply (@blank_text_rejected plain_unicode (js "a  b") (js "  ") (js " ") (js "f")); try by vm_compute.
  exists (js "a"), (js "b"). done.
Defined.

(** Occurrences that overlap are counted once: the edit is accepted although its
    text occurs twice. *)
Lemma overlapping_occurrences_accepted :
  let content := js "}" ++ [NL] ++ js "}" ++ [NL] ++ js "}" in
  let old := js "}" ++ [NL] ++ js "}" in
  content = old ++ [NL] ++ js "}" ∧ content = js "}" ++ [NL] ++ old ∧
  @applyEditsToNormalizedContent plain_unicode content [MkEdit old (js "x")] (js "f") =
    Ok (MkApplied content (js "x" ++ [NL] ++ js "}")).
Proof. split_and!; by vm_compute. Qed.

(** The first line break decides for the file: the second line, which no edit
    touches, changes its ending. *)
Lemma mixed_endings_rewritten :
  @edit_content plain_unicode (js "a" ++ [CR; NL] ++ js "b" ++ [NL] ++ js "c") [MkEdit (js "c") (js "d")] (js "f") =
    Ok (js "a" ++ [CR; NL] ++ js "b" ++ [CR; NL] ++ js "d").
Proof. by vm_compute. Qed.
