(* ===== verification/EditTool.v ===== *)
(** * Theorems about the edit tool: what is written and what is shown

    [execute] on the bytes of a file, and the numbered lines of the displayed
    diff, for every line differ that returns the two texts in parts. *)

From S2P Require Import Prelude.
From S2P Require Import JsString.
From S2P Require Import JsSearch.
From S2P Require Import Json.
From S2P Require Import JsonParse.
From S2P Require Import JsonlFile.
From S2P Require Import EditDiff.
From S2P Require Import EditDiffSpec.

(** ** Text below U+0080 is stable *)

Section stable.
Context `{Unicode}.

Lemma ascii_maps s : Forall (λ c, 0 <= c < 128) s →
  ascii_space <$> (ascii_dash <$> (ascii_dquote <$> (ascii_quote <$> s))) = s.
Proof.
  induction 1 as [|c s Hc _ IH]; [done|]. cbn [fmap list_fmap]. rewrite IH. f_equal.
  assert (ascii_quote c = c) as -> by (unfold ascii_quote; by zcmp).
  assert (ascii_dquote c = c) as -> by (unfold ascii_dquote; by zcmp).
  assert (ascii_dash c = c) as -> by (unfold ascii_dash; by zcmp).
  unfold ascii_space. by zcmp.
Qed.

Lemma trim_start_Forall (P : Z → Prop) s : Forall P s → Forall P (trim_start s).
Proof. induction 1 as [|c s Hc Hs IH]; cbn; [constructor|]. case_match; [done|by constructor]. Qed.

Lemma trimEnd_Forall (P : Z → Prop) s : Forall P s → Forall P (trimEnd s).
Proof. intros Hs. unfold trimEnd. rewrite Forall_reverse. apply trim_start_Forall. by rewrite Forall_reverse. Qed.

Lemma trimEnd_idem s : trimEnd (trimEnd s) = trimEnd s.
Proof. unfold trimEnd. by rewrite reverse_involutive, trim_start_idem. Qed.

Lemma js_join_Forall (P : Z → Prop) sep ls : Forall P sep → Forall (Forall P) ls → Forall P (js_join sep ls).
Proof.
  intros Hsep. induction 1 as [|l ls Hl Hls IH]; [constructor|].
  destruct ls as [|l' ls]; [done|]. rewrite js_join_cons by done. by apply Forall_app_2, Forall_app_2.
Qed.

Lemma normalize_ascii s : Forall (λ c, 0 <= c < 128) s →
  normalizeForFuzzyMatch s = js_join [NL] (trimEnd <$> js_split NL s) ∧
  Forall (λ c, 0 <= c < 128) (js_join [NL] (trimEnd <$> js_split NL s)).
Proof.
  intros Hs. assert (Forall (λ c, 0 <= c < 128) (js_join [NL] (trimEnd <$> js_split NL s))) as Hj.
  { apply js_join_Forall; [by apply Forall_singleton|]. apply Forall_fmap.
    eapply Forall_impl; [by apply js_split_Forall|]. intros l. apply trimEnd_Forall. }
  split; [|done]. unfold normalizeForFuzzyMatch. by rewrite nfkc_ascii, ascii_maps.
Qed.

(** Normalizing twice is normalizing once. *)
Lemma ascii_fuzzy_stable s : Forall (λ c, 0 <= c < 128) s → fuzzy_stable s.
Proof.
  intros Hs. unfold fuzzy_stable. destruct (normalize_ascii s Hs) as [-> Hj].
  rewrite (proj1 (normalize_ascii _ Hj)). rewrite js_split_join.
  - rewrite <-list_fmap_compose. f_equal. apply list_fmap_ext. intros i l _. apply trimEnd_idem.
  - intros E%fmap_nil_inv. by apply js_split_nonempty in E.
  - apply Forall_fmap. eapply Forall_impl; [apply js_split_no_sep|]. intros l Hl Hin.
    cbn in Hin. unfold trimEnd in Hin. rewrite elem_of_reverse in Hin.
    destruct (trim_start_suffix (reverse l)) as (p&Hp&_). apply Hl.
    rewrite <-elem_of_reverse, Hp, elem_of_app. by right.
Qed.
End stable.

(** ** The bytes a run leaves *)

Section tool.
Context (diffLines : jsstr → jsstr → list DiffPart) `{Unicode}.

Lemma stripBom_eq raw bom content : stripBom raw = (bom, content) → raw = bom ++ content.
Proof.
  unfold stripBom. destruct raw as [|c s]; [by intros [= <- <-]|].
  destruct (Z.eqb_spec c BOM) as [->|]; by intros [= <- <-].
Qed.

(** The branches of [execute]. *)
Lemma execute_cases ops abortAt path edits buffer :
  op_readFile ops = Ok buffer →
  match execute diffLines ops abortAt path edits with
  | (None, Ok _) => False
  | (None, Throw _) => abortAt = None → op_access ops = Ok () →
      edits = [] ∨ ∃ error, edit_content (utf8_decode buffer) edits path = Throw error
  | (Some bytes, res) => ∃ out w, edit_content (utf8_decode buffer) edits path = Ok out ∧
      op_writeFile ops (utf8_encode out) = (bytes, w) ∧
      (abortAt = None → w = Ok () → ∃ d, res = Ok d)
  end.
Proof.
  intros Hread. unfold execute, edit_content, validateEditInput, reject. rewrite Hread.
  case_bool_decide as Hnil; [by left|].
  destruct (aborted abortAt 0) eqn:A0; [by intros ->|].
  destruct (op_access ops); [|done].
  destruct (aborted abortAt 1) eqn:A1; [by intros ->|].
  destruct (aborted abortAt 2) eqn:A2; [by intros ->|].
  destruct (stripBom _) as [bom content].
  destruct (applyEditsToNormalizedContent _ _ _) as [r|error]; cbn; [|by right; eauto].
  destruct (aborted abortAt 3) eqn:A3; [by intros ->|].
  destruct (op_writeFile ops _) as [bytes w] eqn:Hw. eexists _, w. split_and!; [done|exact Hw|].
  intros -> ->. cbn. eauto.
Qed.

End tool.

(** ** The displayed diff

    A line of the display: a numbered line or an ellipsis. *)

Inductive diff_item :=
| Removed (lineNum : Z) (line : jsstr)
| Added (lineNum : Z) (line : jsstr)
| Unchanged (oldNum newNum : Z) (line : jsstr)
| Ellipsis.

Definition render_item (width : Z) (it : diff_item) : jsstr :=
  match it with
  | Removed n l => numbered "-" width n l
  | Added n l => numbered "+" width n l
  | Unchanged n _ l => numbered " " width n l
  | Ellipsis => js " " ++ padStart [] width ++ js " ..."
  end.

Definition is_line (it : diff_item) : Prop := it ≠ Ellipsis.
Definition is_changed (it : diff_item) : Prop := match it with Removed _ _ | Added _ _ => True | _ => False end.
#[export] Instance is_line_dec it : Decision (is_line it).
Proof. destruct it; [left|left|left|right]; unfold is_line; naive_solver. Defined.
#[export] Instance is_changed_dec it : Decision (is_changed it).
Proof. destruct it; apply _. Defined.

Definition number (f : Z → jsstr → diff_item) (k : Z) (ls : list jsstr) : list diff_item :=
  imap (λ i l, f (k + Z.of_nat i) l) ls.

Definition number2 (o n : Z) (ls : list jsstr) : list diff_item :=
  imap (λ i l, Unchanged (o + Z.of_nat i) (n + Z.of_nat i) l) ls.

(** The complete diff: every line of both texts with its number. *)
Fixpoint full_diff (o n : Z) (parts : list DiffPart) : list diff_item :=
  match parts with
  | [] => []
  | p :: parts =>
      let raw := raw_lines (value p) in
      if added p then number Added n raw ++ full_diff o (n + lenZ raw) parts
      else if removed p then number Removed o raw ++ full_diff (o + lenZ raw) n parts
      else number2 o n raw ++ full_diff (o + lenZ raw) (n + lenZ raw) parts
  end.

Lemma number_cons f k l ls : number f k (l :: ls) = f k l :: number f (k + 1) ls.
Proof.
  unfold number. cbn. replace (k + Z.of_nat 0) with k by lia. f_equal.
  apply imap_ext. intros i x _. cbn. f_equal. lia.
Qed.

Lemma number2_cons o n l ls : number2 o n (l :: ls) = Unchanged o n l :: number2 (o + 1) (n + 1) ls.
Proof.
  unfold number2. cbn. replace (o + Z.of_nat 0) with o by lia. replace (n + Z.of_nat 0) with n by lia. f_equal.
  apply imap_ext. intros i x _. cbn. f_equal; lia.
Qed.

Lemma number2_app o n a b : number2 o n (a ++ b) = number2 o n a ++ number2 (o + lenZ a) (n + lenZ a) b.
Proof.
  unfold number2. rewrite imap_app. f_equal. apply imap_ext. intros i l _. cbn. unfold lenZ. f_equal; lia.
Qed.

Lemma lenZ_cons {A} (x : A) l : lenZ (x :: l) = lenZ l + 1.
Proof. unfold lenZ. cbn. lia. Qed.

Section display.
Context (width : Z).

(** [st] with more output and later line numbers. *)
Definition advance (st : DiffState) (items : list diff_item) (o n : Z) : DiffState :=
  MkDiffState (output st ++ (render_item width <$> items)) (oldLineNum st + o) (newLineNum st + n)
    (lastWasChange st) (firstChangedLine st).

Lemma advance_nil st : advance st [] 0 0 = st.
Proof. destruct st. unfold advance. cbn. by rewrite app_nil_r, !Z.add_0_r. Qed.

Lemma advance_advance st i1 o1 n1 i2 o2 n2 :
  advance (advance st i1 o1 n1) i2 o2 n2 = advance st (i1 ++ i2) (o1 + o2) (n1 + n2).
Proof. unfold advance. cbn. by rewrite fmap_app, app_assoc, !Z.add_assoc. Qed.

Ltac advance_step H :=
  cbn [foldl]; rewrite H; unfold advance, emit_added, emit_removed, emit_context; cbn [output oldLineNum newLineNum lastWasChange firstChangedLine];
  rewrite ?number_cons, ?number2_cons, lenZ_cons; cbn [fmap list_fmap]; rewrite <-app_assoc; cbn [app];
  f_equal; lia.

Lemma emit_added_all raw : ∀ st, foldl (emit_added width) st raw =
  advance st (number Added (newLineNum st) raw) 0 (lenZ raw).
Proof. induction raw as [|l raw IH]; intros st; [by rewrite advance_nil|]. advance_step IH. Qed.

Lemma emit_removed_all raw : ∀ st, foldl (emit_removed width) st raw =
  advance st (number Removed (oldLineNum st) raw) (lenZ raw) 0.
Proof. induction raw as [|l raw IH]; intros st; [by rewrite advance_nil|]. advance_step IH. Qed.

Lemma emit_context_all raw : ∀ st, foldl (emit_context width) st raw =
  advance st (number2 (oldLineNum st) (newLineNum st) raw) (lenZ raw) (lenZ raw).
Proof. induction raw as [|l raw IH]; intros st; [by rewrite advance_nil|]. advance_step IH. Qed.

Lemma emit_skip_eq k st : emit_skip width k st = advance st [Ellipsis] k k.
Proof. done. Qed.

(** A run of unchanged lines [a ++ b ++ c] of which [b] is not shown. *)
Definition around (o n : Z) (a b c : list jsstr) : list diff_item :=
  number2 o n a ++ (if 0 <? lenZ b then [Ellipsis] else []) ++
  number2 (o + lenZ a + lenZ b) (n + lenZ a + lenZ b) c.

Lemma filter_line_number2 o n ls : filter is_line (number2 o n ls) = number2 o n ls.
Proof.
  revert o n. induction ls as [|l ls IH]; intros o n; [done|].
  rewrite number2_cons, filter_cons_True by done. by rewrite IH.
Qed.

Lemma filter_changed_number2 o n ls : filter is_changed (number2 o n ls) = [].
Proof.
  revert o n. induction ls as [|l ls IH]; intros o n; [done|].
  rewrite number2_cons, filter_cons_False by by intros []. by rewrite IH.
Qed.

Lemma around_spec o n a b c :
  filter is_line (around o n a b c) `sublist_of` number2 o n (a ++ b ++ c) ∧
  filter is_changed (around o n a b c) = [].
Proof.
  unfold around. rewrite !filter_app, !filter_line_number2, !filter_changed_number2. split.
  - rewrite !number2_app. apply sublist_app; [done|]. apply sublist_app; [|done].
    case_match; [|apply sublist_nil_l]. rewrite filter_cons_False; [apply sublist_nil_l|].
    unfold is_line. naive_solver.
  - case_match; [|done]. rewrite filter_cons_False; [done|]. by intros [].
Qed.

Lemma skip_and_show st a b c :
  foldl (emit_context width)
    (let st := foldl (emit_context width) st a in if 0 <? lenZ b then emit_skip width (lenZ b) st else st) c =
  advance st (around (oldLineNum st) (newLineNum st) a b c) (lenZ (a ++ b ++ c)) (lenZ (a ++ b ++ c)).
Proof.
  cbv zeta. rewrite !emit_context_all. unfold around.
  assert (lenZ (a ++ b ++ c) = lenZ a + lenZ b + lenZ c) as Hl by (unfold lenZ; rewrite !length_app; lia).
  destruct (Z.ltb_spec 0 (lenZ b)) as [Hb|Hb].
  - rewrite emit_skip_eq, !advance_advance, Hl, !Z.add_assoc. cbn. by rewrite !Z.add_assoc.
  - assert (lenZ b = 0) as Hz by (unfold lenZ in *; lia).
    rewrite advance_advance, Hl, Hz, !Z.add_0_r. by cbn.
Qed.

Lemma emit_unchanged_spec contextLines next raw st : ∃ items,
  emit_unchanged contextLines width next raw st =
    set_lastWasChange false (advance st items (lenZ raw) (lenZ raw)) ∧
  filter is_line items `sublist_of` number2 (oldLineNum st) (newLineNum st) raw ∧
  filter is_changed items = [].
Proof.
  assert (∀ a b c st', raw = a ++ b ++ c →
    st' = foldl (emit_context width)
      (let st := foldl (emit_context width) st a in if 0 <? lenZ b then emit_skip width (lenZ b) st else st) c →
    ∃ items, set_lastWasChange false st' = set_lastWasChange false (advance st items (lenZ raw) (lenZ raw)) ∧
      filter is_line items `sublist_of` number2 (oldLineNum st) (newLineNum st) raw ∧
      filter is_changed items = []) as Hgen.
  { intros a b c st' -> ->. rewrite skip_and_show. eexists. split; [done|]. apply around_spec. }
  unfold emit_unchanged. destruct (lastWasChange st), next; cbn [andb].
  - destruct (Nat.leb_spec (length raw) (contextLines * 2)) as [Hs|Hs].
    + by apply (Hgen raw [] []); [rewrite app_nil_r|].
    + set (b := take (length raw - 2 * contextLines) (drop contextLines raw)).
      assert (lenZ raw - lenZ (take contextLines raw) - lenZ (drop (length raw - contextLines) raw) = lenZ b ∧
        0 < lenZ b) as [-> Hb].
      { unfold b, lenZ. rewrite !length_take, !length_drop. lia. }
      apply (Hgen (take contextLines raw) b (drop (length raw - contextLines) raw)).
      * replace (length raw - contextLines)%nat with (contextLines + (length raw - 2 * contextLines))%nat by lia.
        unfold b. by rewrite <-drop_drop, take_drop, take_drop.
      * cbv zeta. by rewrite (proj2 (Z.ltb_lt _ _) Hb).
  - replace (lenZ raw - lenZ (take contextLines raw)) with (lenZ (drop contextLines raw))
      by (unfold lenZ; rewrite length_take, length_drop; lia).
    apply (Hgen (take contextLines raw) (drop contextLines raw) []); [by rewrite app_nil_r, take_drop|done].
  - set (k := Z.max 0 (lenZ raw - Z.of_nat contextLines)).
    assert (lenZ (take (Z.to_nat k) raw) = k) as Hk by (unfold k, lenZ; rewrite length_take; lia).
    apply (Hgen [] (take (Z.to_nat k) raw) (drop (Z.to_nat k) raw)); [cbn; by rewrite take_drop|].
    cbv zeta. cbn [foldl]. by rewrite Hk.
  - exists []. split_and!; [|apply sublist_nil_l|done]. unfold skip_silently, advance. cbn.
    by rewrite app_nil_r.
Qed.

Lemma emit_changes_spec part raw st : is_change part = true → ∃ items,
  items = (if added part then number Added (newLineNum st) raw else number Removed (oldLineNum st) raw) ∧
  emit_changes width part raw st =
    set_lastWasChange true (advance (mark_change st) items
      (if added part then 0 else lenZ raw) (if added part then lenZ raw else 0)) ∧
  filter is_line items = items ∧ filter is_changed items = items.
Proof.
  intros Hc. eexists. split; [done|]. unfold emit_changes.
  assert (∀ f, (∀ k l, is_line (f k l) ∧ is_changed (f k l)) → ∀ k, filter is_line (number f k raw) = number f k raw ∧
    filter is_changed (number f k raw) = number f k raw) as Hf.
  { intros f Hf. induction raw as [|l raw IH]; intros k; [done|]. rewrite number_cons.
    destruct (Hf k l). rewrite !filter_cons_True by done. by destruct (IH (k + 1)) as [-> ->]. }
  destruct (added part); [rewrite emit_added_all|rewrite emit_removed_all];
    (split; [done|]; apply Hf; intros; split; [by intros [=]|done]).
Qed.
End display.

(** The number, in the new text, of the first line of a change. *)
Fixpoint first_change (n : Z) (parts : list DiffPart) : option Z :=
  match parts with
  | [] => None
  | p :: parts => if is_change p then Some n else first_change (n + lenZ (raw_lines (value p))) parts
  end.

Lemma diff_loop_spec contextLines width parts : ∀ st, ∃ items,
  let st' := diff_loop contextLines width parts st in
  output st' = output st ++ (render_item width <$> items) ∧
  filter is_line items `sublist_of` full_diff (oldLineNum st) (newLineNum st) parts ∧
  filter is_changed items = filter is_changed (full_diff (oldLineNum st) (newLineNum st) parts) ∧
  firstChangedLine st' = match firstChangedLine st with Some l => Some l | None => first_change (newLineNum st) parts end.
Proof.
  induction parts as [|p parts IH]; intros st; cbn [diff_loop full_diff first_change].
  { exists []. cbn. rewrite app_nil_r. split_and!; try done. by destruct (firstChangedLine st). }
  cbv zeta. destruct (is_change p) eqn:Hc.
  - destruct (emit_changes_spec width p (raw_lines (value p)) st Hc) as (i1&Hi&->&Hl1&Hc1).
    edestruct IH as (i2&Ho&Hl2&Hc2&Hf). exists (i1 ++ i2). rewrite Ho. cbn in Hl2, Hc2, Hf |- *.
    rewrite fmap_app, app_assoc, !filter_app, Hl1, Hc1, Hf. subst i1.
    unfold is_change in Hc. destruct (added p); cbn in Hc.
    + rewrite filter_app, Hc1. rewrite Z.add_0_r in *. split_and!; [done|by apply sublist_app|by rewrite Hc2|].
      by destruct (firstChangedLine st).
    + rewrite Hc, filter_app, Hc1. rewrite Z.add_0_r in *. split_and!; [done|by apply sublist_app|by rewrite Hc2|].
      by destruct (firstChangedLine st).
  - unfold is_change in Hc. apply orb_false_iff in Hc as [-> ->].
    edestruct (emit_unchanged_spec width contextLines) as (i1&->&Hl1&Hc1).
    edestruct IH as (i2&Ho&Hl2&Hc2&Hf). exists (i1 ++ i2). rewrite Ho. cbn in Hl2, Hc2, Hf |- *.
    rewrite fmap_app, app_assoc, !filter_app, Hc1, filter_changed_number2, Hf.
    split_and!; [done|by apply sublist_app|by rewrite Hc2|done].
Qed.

(** ** The sides of the complete diff *)

Definition old_line (it : diff_item) : option (Z * jsstr) :=
  match it with Removed n l | Unchanged n _ l => Some (n, l) | _ => None end.
Definition new_line (it : diff_item) : option (Z * jsstr) :=
  match it with Added n l | Unchanged _ n l => Some (n, l) | _ => None end.

(** The lines of a text with their numbers. *)
Definition lines_from (k : Z) (ls : list jsstr) : list (Z * jsstr) := imap (λ i l, (k + Z.of_nat i, l)) ls.

Definition texts (keep : DiffPart → bool) (parts : list DiffPart) : list jsstr :=
  value <$> filter (λ p, keep p = true) parts.
Definition in_old (p : DiffPart) : bool := negb (added p).
Definition in_new (p : DiffPart) : bool := negb (removed p).

Lemma lines_from_app k a b : lines_from k (a ++ b) = lines_from k a ++ lines_from (k + lenZ a) b.
Proof.
  unfold lines_from. rewrite imap_app. f_equal. apply imap_ext. intros i l _. cbn. unfold lenZ. f_equal; lia.
Qed.

Lemma omap_imap_some {A B C} (f : nat → A → B) (g : B → option C) (h : nat → A → C) (l : list A) :
  (∀ i x, g (f i x) = Some (h i x)) → omap g (imap f l) = imap h l.
Proof.
  revert f h. induction l as [|x l IH]; intros f h E; [done|]. cbn. rewrite E. f_equal.
  apply (IH (f ∘ S) (h ∘ S)). intros; apply E.
Qed.

Lemma omap_imap_none {A B C} (f : nat → A → B) (g : B → option C) (l : list A) :
  (∀ i x, g (f i x) = None) → omap g (imap f l) = [].
Proof.
  revert f. induction l as [|x l IH]; intros f E; [done|]. cbn. rewrite E. apply (IH (f ∘ S)). intros; apply E.
Qed.

Lemma old_number_added k ls : omap old_line (number Added k ls) = [].
Proof. by apply omap_imap_none. Qed.
Lemma old_number_removed k ls : omap old_line (number Removed k ls) = lines_from k ls.
Proof. by apply omap_imap_some. Qed.
Lemma old_number_unchanged o n ls : omap old_line (number2 o n ls) = lines_from o ls.
Proof. by apply omap_imap_some. Qed.
Lemma new_number_added k ls : omap new_line (number Added k ls) = lines_from k ls.
Proof. by apply omap_imap_some. Qed.
Lemma new_number_removed k ls : omap new_line (number Removed k ls) = [].
Proof. by apply omap_imap_none. Qed.
Lemma new_number_unchanged o n ls : omap new_line (number2 o n ls) = lines_from n ls.
Proof. by apply omap_imap_some. Qed.

Lemma full_diff_sides parts : Forall (λ p, added p && removed p = false) parts → ∀ o n,
  omap old_line (full_diff o n parts) = lines_from o (texts in_old parts ≫= raw_lines) ∧
  omap new_line (full_diff o n parts) = lines_from n (texts in_new parts ≫= raw_lines).
Proof.
  unfold texts, in_old, in_new.
  induction 1 as [|p parts Hp Hparts IH]; intros o n; [done|]. cbn [full_diff]. cbv zeta.
  destruct (added p) eqn:Ha, (removed p) eqn:Hr; try done; rewrite !omap_app.
  - rewrite filter_cons_False, filter_cons_True by by rewrite ?Ha, ?Hr. cbn [fmap list_fmap mbind list_bind].
    rewrite old_number_added, new_number_added, lines_from_app. by destruct (IH o (n + lenZ (raw_lines (value p)))) as [-> ->].
  - rewrite filter_cons_True, filter_cons_False by by rewrite ?Ha, ?Hr. cbn [fmap list_fmap mbind list_bind].
    rewrite old_number_removed, new_number_removed, lines_from_app. by destruct (IH (o + lenZ (raw_lines (value p))) n) as [-> ->].
  - rewrite !filter_cons_True by by rewrite ?Ha, ?Hr. cbn [fmap list_fmap mbind list_bind].
    rewrite old_number_unchanged, new_number_unchanged, !lines_from_app.
    by destruct (IH (o + lenZ (raw_lines (value p))) (n + lenZ (raw_lines (value p)))) as [-> ->].
Qed.

(** ** Lines of a text in parts *)

Lemma raw_lines_NL a b : raw_lines (a ++ NL :: b) = js_split NL a ++ raw_lines b.
Proof.
  unfold raw_lines. rewrite js_split_app_NL.
  pose proof (js_split_nonempty NL b) as Hb. destruct (js_split NL b) as [|l ls]; [done|].
  rewrite last_app_cons. case_bool_decide; [|done]. by rewrite removelast_app.
Qed.

Lemma raw_lines_concat vs : Forall (λ v, last v = Some NL) (removelast vs) →
  vs ≫= raw_lines = raw_lines (mjoin vs).
Proof.
  induction vs as [|v vs IH]; intros H; [done|]. destruct vs as [|v' vs].
  { cbn. by rewrite !app_nil_r. }
  change (removelast (v :: v' :: vs)) with (v :: removelast (v' :: vs)) in H.
  apply Forall_cons in H as [[v0 ->]%last_Some H]. specialize (IH H).
  change (mjoin ((v0 ++ [NL]) :: v' :: vs)) with ((v0 ++ [NL]) ++ mjoin (v' :: vs)).
  rewrite <-app_assoc. cbn [app]. rewrite raw_lines_NL, <-IH. cbn [mbind list_bind]. f_equal.
  rewrite (raw_lines_NL v0 []). unfold raw_lines. cbn. by rewrite app_nil_r.
Qed.

(** What [Diff.diffLines] returns: parts in order that are old, new or common
    text, made of whole lines. *)
Record diff_of (old new : jsstr) (parts : list DiffPart) : Prop := {
  do_kind : Forall (λ p, added p && removed p = false) parts;
  do_old : mjoin (texts in_old parts) = old;
  do_new : mjoin (texts in_new parts) = new;
  do_old_lines : Forall (λ v, last v = Some NL) (removelast (texts in_old parts));
  do_new_lines : Forall (λ v, last v = Some NL) (removelast (texts in_new parts))
}.

(** The displayed diff is a part of the complete diff, in order: each shown
    line carries the number it has in the old text (removed and unchanged
    lines) or in the new text (added lines), every changed line is shown, and
    the complete diff has all lines of both texts.  The line the editor jumps
    to is the number, in the new text, of the first change. *)
Theorem generateDiff_lines (diffLines : jsstr → jsstr → list DiffPart) old new contextLines startLine :
  diff_of old new (diffLines old new) →
  let r := generateDiffString diffLines old new contextLines startLine in
  ∃ width shown full,
    diff r = js_join [NL] (render_item width <$> shown) ∧
    filter is_line shown `sublist_of` full ∧ filter is_changed shown = filter is_changed full ∧
    omap old_line full = lines_from startLine (raw_lines old) ∧
    omap new_line full = lines_from startLine (raw_lines new) ∧
    dr_firstChangedLine r = first_change startLine (diffLines old new).
Proof.
  intros Hd. unfold generateDiffString. cbv zeta. cbn [diff dr_firstChangedLine].
  set (width := lenZ _).
  destruct (diff_loop_spec contextLines width (diffLines old new)
    (MkDiffState [] startLine startLine false None)) as (shown&Ho&Hl&Hc&Hf).
  destruct (full_diff_sides _ (do_kind _ _ _ Hd) startLine startLine) as [Hold Hnew].
  exists width, shown, (full_diff startLine startLine (diffLines old new)). cbn in Ho, Hl, Hc, Hf.
  rewrite Ho, Hf, Hold, Hnew, !raw_lines_concat by apply Hd.
  by rewrite (do_old _ _ _ Hd), (do_new _ _ _ Hd).
Qed.

(** ** Samples *)

(** The differ that replaces everything. *)
Definition replace_all (old new : jsstr) : list DiffPart := [MkPart old false true; MkPart new true false].

Lemma replace_all_diff old new : diff_of old new (replace_all old new).
Proof. constructor; cbn; try apply app_nil_r; repeat constructor. Qed.

Lemma generateDiff_lines_witness :
  let old := js "a" ++ [NL] ++ js "b" in
  let new := js "a" ++ [NL] ++ js "c" in
  let r := generateDiffString replace_all old new 4 1 in
  ∃ width shown full,
    diff r = js_join [NL] (render_item width <$> shown) ∧
    filter is_line shown `sublist_of` full ∧ filter is_changed shown = filter is_changed full ∧
    omap old_line full = lines_from 1 [js "a"; js "b"] ∧
    omap new_line full = lines_from 1 [js "a"; js "c"] ∧ dr_firstChangedLine r = Some 1.
Proof. apply (generateDiff_lines replace_all (js "a" ++ [NL] ++ js "b") (js "a" ++ [NL] ++ js "c") 4 1), replace_all_diff. Defined.

(** A file with a byte order mark and CRLF line breaks. *)
Definition crlf_content : jsstr := js "one" ++ [CR; NL] ++ js "two" ++ [CR; NL].
Definition crlf_ops : EditOperations :=
  MkEditOperations (Ok ()) (Ok (utf8_encode (BOM :: crlf_content))) (λ bytes, (bytes, Ok ())).

Definition crlf_edits : list Edit := [MkEdit (js "two") (js "2" ++ [NL] ++ js "3")].

Definition crlf_result : jsstr := BOM :: js "one" ++ [CR; NL] ++ js "2" ++ [CR; NL] ++ js "3" ++ [CR; NL].

