(* ===== verification/FileMutationQueue.v ===== *)
(** * The queue of file mutations

    Models [packages/coding-agent/src/core/tools/file-mutation-queue.ts]: every
    call waits for the promise chain its key had when it was made.  A call is a
    little state machine; [enter], [start] and [finish] are its steps, in any
    interleaving.  Paths are resolved by parameters. *)

From S2P Require Import Prelude.

Inductive CallStatus := Waiting | Running | Released.
#[export] Instance CallStatus_eq_dec : EqDecision CallStatus.
Proof. solve_decision. Defined.

(** A call of [withFileMutationQueue]: its key, and the call whose chained queue
    is its [currentQueue] ([None]: a resolved promise). *)
Record Call := MkCall { c_key : jsstr; c_currentQueue : option nat; c_status : CallStatus }.

(** [q_queues] is [fileMutationQueues]: a chained queue is named by its call. *)
Record Queues := MkQueues { q_calls : list Call; q_queues : gmap jsstr nat }.

Definition init : Queues := MkQueues [] ∅.

(** [realpathSync.native(resolve(filePath))], or the resolved path when the file
    does not exist. *)
Definition getMutationQueueKey (resolve : jsstr → jsstr) (realpath : jsstr → option jsstr) (filePath : jsstr) : jsstr :=
  let resolvedPath := resolve filePath in default resolvedPath (realpath resolvedPath).

(** Is the chained queue of a call resolved?  It follows its current queue and
    the release of the call. *)
Fixpoint chained_resolved (fuel : nat) (s : Queues) (i : nat) : bool :=
  match fuel, q_calls s !! i with
  | S fuel, Some c =>
      bool_decide (c_status c = Released) &&
      match c_currentQueue c with None => true | Some j => chained_resolved fuel s j end
  | _, _ => false
  end.

Definition current_resolved (s : Queues) (c : Call) : bool :=
  match c_currentQueue c with None => true | Some j => chained_resolved (length (q_calls s)) s j end.

(** The synchronous part of a call. *)
Definition enter (key : jsstr) (s : Queues) : Queues :=
  MkQueues (q_calls s ++ [MkCall key (q_queues s !! key) Waiting])
    (<[key := length (q_calls s)]> (q_queues s)).

Definition set_status (st : CallStatus) (c : Call) : Call := MkCall (c_key c) (c_currentQueue c) st.

(** [await currentQueue] is over: [fn] begins. *)
Definition start (i : nat) (s : Queues) : option Queues :=
  c ← q_calls s !! i;
  if bool_decide (c_status c = Waiting) && current_resolved s c
  then Some (MkQueues (<[i := set_status Running c]> (q_calls s)) (q_queues s)) else None.

(** [fn] has returned or thrown: the [finally] block. *)
Definition finish (i : nat) (s : Queues) : option Queues :=
  c ← q_calls s !! i;
  if bool_decide (c_status c = Running)
  then Some (MkQueues (<[i := set_status Released c]> (q_calls s))
         (if bool_decide (q_queues s !! c_key c = Some i) then delete (c_key c) (q_queues s) else q_queues s))
  else None.

(** A step of a call that has been made. *)
Inductive advance : Queues → Queues → Prop :=
| advance_start i s s' : start i s = Some s' → advance s s'
| advance_finish i s s' : finish i s = Some s' → advance s s'.

Inductive reachable : Queues → Prop :=
| reachable_init : reachable init
| reachable_enter key s : reachable s → reachable (enter key s)
| reachable_advance s s' : reachable s → advance s s' → reachable s'.

(** ** Invariant *)

(** All calls before [i] with the key [k] have been released. *)
Definition released_before (s : Queues) (i : nat) (k : jsstr) : Prop :=
  ∀ j c, (j < i)%nat → q_calls s !! j = Some c → c_key c = k → c_status c = Released.

(** The last call with the key [k] before [i] is [o]. *)
Definition last_before (s : Queues) (i : nat) (k : jsstr) (o : option nat) : Prop :=
  match o with
  | None => released_before s i k
  | Some j => (j < i)%nat ∧ (∃ c, q_calls s !! j = Some c ∧ c_key c = k) ∧
      ∀ j' c, (j < j' < i)%nat → q_calls s !! j' = Some c → c_key c ≠ k
  end.

Record Inv (s : Queues) : Prop := {
  inv_link i c : q_calls s !! i = Some c → last_before s i (c_key c) (c_currentQueue c);
  inv_tail k : last_before s (length (q_calls s)) k (q_queues s !! k);
  inv_order i c : q_calls s !! i = Some c → c_status c ≠ Waiting → released_before s i (c_key c);
  inv_live k i : q_queues s !! k = Some i → ∃ c, q_calls s !! i = Some c ∧ c_key c = k ∧ c_status c ≠ Released
}.

(** A chain is resolved when all its calls are released. *)
Lemma last_before_released s i k j c : last_before s i k (Some j) → q_calls s !! j = Some c →
  released_before s i k ↔ c_status c = Released ∧ released_before s j k.
Proof.
  intros (Hji&(c'&Hc'&Hk)&Hlast) Hc. simplify_eq. split.
  - intros Hr. split; [by apply (Hr j c')|]. intros j' d Hj' Hd. apply (Hr j'); [lia|done].
  - intros [Hs Hr] j' d Hj' Hd Hdk. destruct (decide (j' = j)) as [->|Hne]; [by simplify_eq|].
    destruct (decide (j' < j)%nat); [by apply (Hr j' d)|]. exfalso. by apply (Hlast j' d); [lia|..].
Qed.

Lemma chained_resolved_spec s : Inv s → ∀ fuel i c, q_calls s !! i = Some c → (i < fuel)%nat →
  chained_resolved fuel s i = true ↔ c_status c = Released ∧ released_before s i (c_key c).
Proof.
  intros HI. induction fuel as [|fuel IH]; intros i c Hc Hf; [lia|]. cbn. rewrite Hc.
  rewrite andb_true_iff, bool_decide_eq_true. apply and_iff_compat_l.
  pose proof (inv_link s HI i c Hc) as Hl. destruct (c_currentQueue c) as [j|]; [|done].
  destruct Hl as (Hji&(d&Hd&Hk)&Hlast). rewrite (IH j d Hd) by lia.
  rewrite <-Hk in Hlast |- *. symmetry. by apply last_before_released; [split_and!; eauto|].
Qed.

Lemma current_resolved_spec s i c : Inv s → q_calls s !! i = Some c →
  current_resolved s c = true ↔ released_before s i (c_key c).
Proof.
  intros HI Hc. unfold current_resolved. pose proof (inv_link s HI i c Hc) as Hl.
  destruct (c_currentQueue c) as [j|]; [|done]. destruct Hl as (Hji&(d&Hd&Hk)&Hlast).
  rewrite (chained_resolved_spec s HI _ j d Hd) by by eapply lookup_lt_Some.
  rewrite <-Hk in Hlast |- *. symmetry. by apply last_before_released; [split_and!; eauto|].
Qed.

(** ** The steps keep it *)

Lemma released_before_app s i k c : (i <= length (q_calls s))%nat →
  ∀ q, released_before (MkQueues (q_calls s ++ [c]) q) i k ↔ released_before s i k.
Proof.
  intros Hi q. split; intros Hr j d Hj Hd; (apply (Hr j d); [done|]).
  - cbn. rewrite lookup_app_l by lia. done.
  - cbn in Hd. rewrite lookup_app_l in Hd by lia. done.
Qed.

Lemma enter_Inv key s : Inv s → Inv (enter key s).
Proof.
  intros HI. unfold enter. set (n := length (q_calls s)). set (c0 := MkCall key (q_queues s !! key) Waiting).
  assert (∀ i k o, (i <= n)%nat → last_before s i k o →
    last_before (MkQueues (q_calls s ++ [c0]) (<[key:=n]> (q_queues s))) i k o) as Hold.
  { intros i k [j|] Hi; cbn; [|by apply released_before_app].
    intros (Hji&(c&Hc&Hk)&Hlast). split_and!; [done|exists c; split; [by apply lookup_app_l_Some|done]|].
    intros j' d Hj'. rewrite lookup_app_l by (fold n; lia). by apply Hlast. }
  constructor; cbn.
  - intros i c [Hc|[Hn Hc]]%lookup_app_Some.
    + apply Hold; [apply lookup_lt_Some in Hc; lia|]. by apply inv_link.
    + apply list_lookup_singleton_Some in Hc as [Hi <-]. cbn.
      assert (i = n) as -> by (unfold n; lia). apply Hold; [lia|]. by apply (inv_tail s HI).
  - intros k. rewrite length_app. cbn. fold n. destruct (decide (k = key)) as [->|Hne].
    + rewrite lookup_insert_eq. split_and!; [lia|exists c0; split; [|done]|intros; lia].
      by apply list_lookup_middle.
    + rewrite lookup_insert_ne by done. pose proof (inv_tail s HI k) as Ht. fold n in Ht.
      apply (Hold n) in Ht; [|lia]. destruct (q_queues s !! k) as [j|]; cbn in *.
      * destruct Ht as (?&?&Hlast). split_and!; [lia|done|]. intros j' d Hj' Hd.
        destruct (decide (j' = n)) as [->|]; [|apply (Hlast j'); [lia|done]].
        cbn in Hd. rewrite list_lookup_middle in Hd by done. injection Hd as <-. by cbn.
      * intros j d Hj Hd Hk. destruct (decide (j = n)) as [->|]; [|apply (Ht j d); [lia|done..]].
        cbn in Hd. rewrite list_lookup_middle in Hd by done. injection Hd as <-. by cbn in Hk.
  - intros i c [Hc|[Hn Hc]]%lookup_app_Some Hs.
    + apply released_before_app; [apply lookup_lt_Some in Hc; lia|]. by apply inv_order.
    + apply list_lookup_singleton_Some in Hc as [_ <-]. by cbn in Hs.
  - intros k i. fold n. destruct (decide (k = key)) as [->|Hne].
    + rewrite lookup_insert_eq. intros [= <-]. exists c0. split_and!; [by apply list_lookup_middle|done..].
    + rewrite lookup_insert_ne by done. intros (c&Hc&?)%(inv_live s HI). exists c. split; [|done].
      by apply lookup_app_l_Some.
Qed.

(** Changing the status of a call. *)
Section status.
Context (s : Queues) (i0 : nat) (c0 : Call) (st : CallStatus) (q : gmap jsstr nat).
Context (HI : Inv s) (Hc0 : q_calls s !! i0 = Some c0).
Let s' := MkQueues (<[i0 := set_status st c0]> (q_calls s)) q.

Lemma lookup_status j d : q_calls s' !! j = Some d → ∃ d0, q_calls s !! j = Some d0 ∧
  c_key d = c_key d0 ∧ c_currentQueue d = c_currentQueue d0 ∧ (j ≠ i0 → d = d0) ∧ (j = i0 → c_status d = st).
Proof.
  cbn. destruct (decide (j = i0)) as [->|Hne].
  - rewrite list_lookup_insert_eq by by eapply lookup_lt_Some. intros [= <-]. exists c0. by split_and!.
  - rewrite list_lookup_insert_ne by done. intros Hd. exists d. by split_and!.
Qed.

Lemma released_status i k : c_status c0 ≠ Released → released_before s i k → released_before s' i k.
Proof.
  intros Hs Hr j d Hj Hd Hk. destruct (lookup_status j d Hd) as (d0&Hd0&Hk'&_&Hne&_).
  destruct (decide (j = i0)) as [->|]; [|rewrite (Hne n); apply (Hr j d0); congruence].
  exfalso. simplify_eq. by apply Hs, (Hr i0 c0).
Qed.

Lemma last_status i k o : c_status c0 ≠ Released → last_before s i k o → last_before s' i k o.
Proof.
  intros Hs. destruct o as [j|]; cbn [last_before]; [|by apply released_status].
  intros (Hji&(c&Hc&Hk)&Hlast). split_and!; [done| |].
  - destruct (decide (j = i0)) as [->|]; cbn.
    + rewrite list_lookup_insert_eq by by eapply lookup_lt_Some. simplify_eq. eauto.
    + rewrite list_lookup_insert_ne by done. eauto.
  - intros j' d Hj' (d0&Hd0&->&_)%lookup_status. by apply (Hlast j' d0).
Qed.

Lemma status_Inv : c_status c0 ≠ Released → released_before s i0 (c_key c0) →
  (∀ k, last_before s (length (q_calls s)) k (q_queues s !! k) → last_before s' (length (q_calls s)) k (q !! k)) →
  (∀ k i, q !! k = Some i → q_queues s !! k = Some i ∧ (st = Released → i ≠ i0)) →
  Inv s'.
Proof.
  intros Hs Hr Hq Hlive. constructor.
  - intros i c (d0&Hd0&->&->&_)%lookup_status. apply last_status; [done|]. by apply inv_link.
  - intros k. cbn [q_calls q_queues s']. rewrite length_insert. apply Hq, inv_tail, HI.
  - intros i c (d0&Hd0&->&_&Hne&_)%lookup_status Hw. apply released_status; [done|].
    destruct (decide (i = i0)) as [->|Hi]; [by simplify_eq|]. rewrite (Hne Hi) in Hw. by apply inv_order.
  - intros k i [(c&Hc&Hk&Hl)%(inv_live s HI) Hst]%Hlive. cbn. destruct (decide (i = i0)) as [->|Hi].
    + rewrite list_lookup_insert_eq by by eapply lookup_lt_Some. simplify_eq. eexists. split_and!; [done..|].
      cbn. intros E. by apply Hst.
    + rewrite list_lookup_insert_ne by done. eauto.
Qed.
End status.

Lemma start_Inv i s s' : Inv s → start i s = Some s' → Inv s'.
Proof.
  intros HI (c&Hc&H)%bind_Some. destruct (bool_decide _ && _) eqn:E; [|done]. injection H as <-.
  apply andb_true_iff in E as [Hw%bool_decide_eq_true Hr%(current_resolved_spec s i)]; [|done..].
  apply status_Inv; [done..|by rewrite Hw|done| |done]. intros k Hl. apply last_status; [done|by rewrite Hw|done].
Qed.

Lemma finish_Inv i s s' : Inv s → finish i s = Some s' → Inv s'.
Proof.
  intros HI (c&Hc&H)%bind_Some. case_bool_decide as Hrun; [|done]. injection H as <-.
  assert (released_before s i (c_key c)) as Hr by by eapply inv_order; [..|rewrite Hrun].
  assert (c_status c ≠ Released) as Hs by by rewrite Hrun.
  apply status_Inv; [done..| |].
  2:{ intros k j. case_bool_decide as Hq.
      - rewrite lookup_delete_Some. intros [Hne Hk]. split; [done|]. intros _ ->.
        apply (inv_live s HI) in Hk as (c'&Hc'&Hk&_). congruence.
      - intros Hk. split; [done|]. intros _ ->.
        destruct (inv_live s HI _ _ Hk) as (c'&Hc'&Hk'&_). congruence. }
  intros k Hl. case_bool_decide as Hq; [|by apply last_status].
  destruct (decide (k = c_key c)) as [->|Hne]; [|by rewrite lookup_delete_ne by done; apply last_status].
  rewrite lookup_delete_eq. rewrite Hq in Hl. destruct Hl as (_&_&Hlast). intros j d Hj Hd Hk.
  destruct (lookup_status s i c Released _ Hc j d Hd) as (d0&Hd0&Hk0&_&Hne&Heq).
  destruct (decide (j = i)) as [->|Hji]; [by apply Heq|]. rewrite (Hne Hji) in *.
  destruct (decide (j < i)%nat); [by apply (Hr j d0)|]. exfalso. apply (Hlast j d0); [lia|done..].
Qed.

Lemma init_Inv : Inv init.
Proof. by constructor; cbn; [|intros k; rewrite lookup_empty| |intros k i; rewrite lookup_empty]. Qed.

Lemma reachable_Inv s : reachable s → Inv s.
Proof.
  induction 1 as [|key s _ IH|s s' _ IH Ha]; [apply init_Inv|by apply enter_Inv|].
  destruct Ha; eauto using start_Inv, finish_Inv.
Qed.

(** ** What the queue promises *)

(** Two calls never run at the same time on the same file, and the calls of
    one file run in the order they were made: a call that has begun finds
    every earlier call with its key released.  Nothing else holds a call up: it
    may begin as soon as these are released, whatever runs on other files. *)
Theorem mutations_exclusive s i c :
  reachable s → q_calls s !! i = Some c →
  (c_status c ≠ Waiting → released_before s i (c_key c)) ∧
  (∀ j d, q_calls s !! j = Some d → c_key d = c_key c → c_status c = Running → c_status d = Running → i = j) ∧
  (c_status c = Waiting → is_Some (start i s) ↔ released_before s i (c_key c)).
Proof.
  intros HI%reachable_Inv Hc. split_and!; [by apply inv_order| |].
  - intros j d Hd Hk Hrc Hrd. destruct (Nat.lt_trichotomy i j) as [Hlt|[->|Hlt]]; [|done|]; exfalso.
    + pose proof (inv_order s HI j d Hd ltac:(by rewrite Hrd) i c Hlt Hc ltac:(done)). congruence.
    + pose proof (inv_order s HI i c Hc ltac:(by rewrite Hrc) j d Hlt Hd ltac:(done)). congruence.
  - intros Hw. unfold start. rewrite Hc. cbn. rewrite bool_decide_true by done. cbn.
    rewrite <-(current_resolved_spec s i c HI Hc). destruct (current_resolved s c); split; try done; by intros [].
Qed.

(** The steps a call still has to make. *)
Definition remaining (c : Call) : nat :=
  match c_status c with Waiting => 2 | Running => 1 | Released => 0 end.
Definition work (s : Queues) : nat := sum_list (remaining <$> q_calls s).

Lemma sum_list_insert (l : list nat) i x y : l !! i = Some x → (sum_list (<[i := y]> l) + x = sum_list l + y)%nat.
Proof.
  revert i. induction l as [|z l IH]; intros [|i]; cbn; [done..|intros [= ->]; lia|]. intros H. rewrite <-!Nat.add_assoc. f_equal. exact (IH _ H).
Qed.

Lemma status_work s i c st q : q_calls s !! i = Some c → (remaining (set_status st c) < remaining c)%nat →
  (work (MkQueues (<[i := set_status st c]> (q_calls s)) q) < work s)%nat.
Proof.
  intros Hc Hlt. unfold work. cbn. rewrite list_fmap_insert.
  pose proof (sum_list_insert (remaining <$> q_calls s) i (remaining c) (remaining (set_status st c))) as Hsum.
  rewrite list_lookup_fmap, Hc in Hsum. specialize (Hsum eq_refl). lia.
Qed.

Lemma advance_work s s' : advance s s' → (work s' < work s)%nat.
Proof.
  intros [i ? s1 H|i ? s1 H]; apply bind_Some in H as (c&Hc&H).
  - destruct (bool_decide _ && _) eqn:E; [|done]. injection H as <-.
    apply andb_true_iff in E as [Hs%bool_decide_eq_true _]. apply status_work; [done|]. unfold remaining. rewrite Hs. cbn. lia.
  - case_bool_decide as Hs; [|done]. injection H as <-. apply status_work; [done|]. unfold remaining. rewrite Hs. cbn. lia.
Qed.

(** A call that is not released: it or a predecessor can go on. *)
Lemma can_advance s : Inv s → ∀ i c, q_calls s !! i = Some c → c_status c ≠ Released → ∃ s', advance s s'.
Proof.
  intros HI i. induction i as [i IH] using lt_wf_ind. intros c Hc Hs.
  destruct (c_status c) eqn:E; [| |done].
  - destruct (decide (current_resolved s c = true)) as [Hr|Hr].
    + eexists. apply (advance_start i). unfold start. rewrite Hc. cbn. by rewrite bool_decide_true, Hr.
    + rewrite (current_resolved_spec s i c HI Hc) in Hr.
      assert (∃ j d, (j < i)%nat ∧ q_calls s !! j = Some d ∧ c_status d ≠ Released) as (j&d&Hj&Hd&Hds); [|by eapply IH].
      destruct (decide (Forall (λ d, c_status d = Released) (take i (q_calls s)))) as [Hall|Hn].
      * exfalso. apply Hr. intros j d Hj Hd _. rewrite Forall_lookup in Hall. apply (Hall j).
        by rewrite lookup_take_lt.
      * apply not_Forall_Exists in Hn; [|apply _]. apply Exists_exists in Hn as (d&Hin&Hd).
        apply list_elem_of_lookup in Hin as [j Hj]. apply lookup_take_Some in Hj as [Hj Hlt]. eauto.
  - eexists. apply (advance_finish i). unfold finish. rewrite Hc. cbn. by rewrite bool_decide_true.
Qed.

(** Every schedule of the calls that were made ends, after at most two steps
    per call, and only when all of them have run and been released; the table
    of queues is then empty. *)
Theorem mutations_complete s n s' :
  reachable s → nsteps advance n s s' →
  (n <= 2 * length (q_calls s))%nat ∧
  ((∀ t, ¬ advance s' t) → (∀ i c, q_calls s' !! i = Some c → c_status c = Released) ∧ q_queues s' = ∅).
Proof.
  intros Hr Hn. assert (reachable s') as Hr' by (induction Hn; eauto using reachable). split.
  - assert (n + work s' <= work s)%nat as Hw.
    { clear Hr Hr'. induction Hn as [|n s1 s2 s3 Ha _ IH]; [done|]. apply advance_work in Ha. lia. }
    assert (work s <= 2 * length (q_calls s))%nat; [|lia]. unfold work. clear.
    induction (q_calls s) as [|c l IH]; cbn; [lia|]. unfold remaining at 1. destruct (c_status c); lia.
  - intros Hstuck. apply reachable_Inv in Hr'.
    assert (∀ i c, q_calls s' !! i = Some c → c_status c = Released) as Hall.
    { intros i c Hc. destruct (decide (c_status c = Released)) as [|Hs]; [done|].
      destruct (can_advance s' Hr' i c Hc Hs) as [t Ht]. by apply Hstuck in Ht. }
    split; [done|]. apply map_eq. intros k. rewrite lookup_empty. destruct (q_queues s' !! k) as [i|] eqn:Hk; [|done].
    apply (inv_live s' Hr') in Hk as (c&Hc&_&Hs). by apply Hall in Hc.
Qed.

(** ** A sample: two calls on one file, the first running *)

Definition one_running : Queues := default init (start 0 (enter (js "f") (enter (js "f") init))).

Lemma one_running_reachable : reachable one_running.
Proof. eapply reachable_advance; [apply reachable_enter, reachable_enter, reachable_init|]. by apply (advance_start 0). Qed.

Lemma mutations_exclusive_witness :
  ∃ c, q_calls one_running !! 1%nat = Some c ∧ (is_Some (start 1 one_running) ↔ released_before one_running 1 (js "f")).
Proof.
  eexists. split; [done|].
  by apply (mutations_exclusive one_running 1 (MkCall (js "f") (Some 0%nat) Waiting) one_running_reachable).
Defined.

Lemma mutations_complete_witness :
  ∃ s, nsteps advance 1 one_running s ∧ (1 <= 2 * length (q_calls one_running))%nat.
Proof.
  assert (∃ s, nsteps advance 1 one_running s) as [s Hs].
  { eexists. apply nsteps_once. by apply (advance_finish 0). }
  exists s. split; [done|]. apply (mutations_complete one_running 1 s one_running_reachable Hs).
Defined.
