(* ===== verification/Messages.v ===== *)
(** * Messages and usage

    The conversation data every other component passes around:
    [packages/ai/src/types.ts] (content blocks, usage, the LLM messages),
    [packages/coding-agent/src/core/messages.ts] (the agent's own message kinds
    and their conversion for the model) and [core/usage.ts].

    Timestamps are milliseconds.  Token counts and cost amounts are integers;
    the floating-point rounding of cost sums is not modelled.  Fields the
    modelled code only carries along are kept as JSON values. *)

From S2P Require Import Prelude JsString Json.

(** ** Usage *)

Record Cost := MkCost {
  cost_input : Z; cost_output : Z; cost_cacheRead : Z; cost_cacheWrite : Z; cost_total : Z
}.

Record Usage := MkUsage {
  input : Z; output : Z; cacheRead : Z; cacheWrite : Z; totalTokens : Z; cost : Cost
}.

#[export] Instance Cost_eq_dec : EqDecision Cost.
Proof. solve_decision. Defined.
#[export] Instance Usage_eq_dec : EqDecision Usage.
Proof. solve_decision. Defined.

Record SessionUsageSummary := MkSessionUsageSummary {
  su_inputTokens : Z; su_outputTokens : Z; su_cost : Z
}.

Definition sessionUsageSummaryFrom (usage : Usage) : option SessionUsageSummary :=
  let inputTokens := input usage + cacheRead usage + cacheWrite usage in
  if (inputTokens =? 0) && (output usage =? 0) && (cost_total (cost usage) =? 0) then None
  else Some (MkSessionUsageSummary inputTokens (output usage) (cost_total (cost usage))).

Definition emptyUsage : Usage := MkUsage 0 0 0 0 0 (MkCost 0 0 0 0 0).

Definition addAssistantUsage (total usage : Usage) : Usage :=
  MkUsage (input total + input usage) (output total + output usage)
    (cacheRead total + cacheRead usage) (cacheWrite total + cacheWrite usage)
    (totalTokens total + totalTokens usage)
    (MkCost (cost_input (cost total) + cost_input (cost usage))
            (cost_output (cost total) + cost_output (cost usage))
            (cost_cacheRead (cost total) + cost_cacheRead (cost usage))
            (cost_cacheWrite (cost total) + cost_cacheWrite (cost usage))
            (cost_total (cost total) + cost_total (cost usage))).

Definition subtractAssistantUsage (total usage : Usage) : Usage :=
  MkUsage (Z.max 0 (input total - input usage)) (Z.max 0 (output total - output usage))
    (Z.max 0 (cacheRead total - cacheRead usage)) (Z.max 0 (cacheWrite total - cacheWrite usage))
    (Z.max 0 (totalTokens total - totalTokens usage))
    (MkCost (Z.max 0 (cost_input (cost total) - cost_input (cost usage)))
            (Z.max 0 (cost_output (cost total) - cost_output (cost usage)))
            (Z.max 0 (cost_cacheRead (cost total) - cost_cacheRead (cost usage)))
            (Z.max 0 (cost_cacheWrite (cost total) - cost_cacheWrite (cost usage)))
            (Z.max 0 (cost_total (cost total) - cost_total (cost usage)))).

Definition cloneUsage (usage : Usage) : Usage :=
  MkUsage (input usage) (output usage) (cacheRead usage) (cacheWrite usage) (totalTokens usage)
    (MkCost (cost_input (cost usage)) (cost_output (cost usage)) (cost_cacheRead (cost usage))
            (cost_cacheWrite (cost usage)) (cost_total (cost usage))).

Definition usage_nonneg (u : Usage) : Prop :=
  0 <= input u ∧ 0 <= output u ∧ 0 <= cacheRead u ∧ 0 <= cacheWrite u ∧ 0 <= totalTokens u ∧
  0 <= cost_input (cost u) ∧ 0 <= cost_output (cost u) ∧ 0 <= cost_cacheRead (cost u) ∧
  0 <= cost_cacheWrite (cost u) ∧ 0 <= cost_total (cost u).

Lemma cloneUsage_id u : cloneUsage u = u.
Proof. by destruct u as [????? []]. Qed.

(** ** Content blocks and messages *)

Inductive block :=
| TextBlock (text : jsstr)
| ThinkingBlock (thinking : jsstr)
| ImageBlock (data mimeType : jsstr)
| ToolCallBlock (id name : jsstr) (arguments : json).

#[export] Instance block_eq_dec : EqDecision block.
Proof. solve_decision. Defined.

(** [string | (TextContent | ImageContent)[]] *)
Inductive msg_content := CText (s : jsstr) | CBlocks (l : list block).
#[export] Instance msg_content_eq_dec : EqDecision msg_content.
Proof. solve_decision. Defined.

Inductive StopReason := SrStop | SrLength | SrToolUse | SrError | SrAborted.
#[export] Instance StopReason_eq_dec : EqDecision StopReason.
Proof. solve_decision. Defined.

Record UserMessage := MkUserMessage { um_content : msg_content; um_timestamp : Z }.

Record AssistantMessage := MkAssistantMessage {
  am_content : list block;
  am_api : jsstr;
  am_provider : jsstr;
  am_model : jsstr;
  am_usage : option Usage;
  am_stopReason : StopReason;
  am_errorMessage : option jsstr;
  am_diagnostics : option json;
  am_timestamp : Z
}.

Record ToolResultMessage := MkToolResultMessage {
  tm_toolCallId : jsstr;
  tm_toolName : jsstr;
  tm_content : list block;
  tm_details : option json;
  tm_isError : bool;
  tm_timestamp : Z
}.

Record BashExecutionMessage := MkBashExecutionMessage {
  bm_command : jsstr;
  bm_output : jsstr;
  bm_exitCode : option Z;
  bm_cancelled : bool;
  bm_truncated : bool;
  bm_fullOutputPath : option jsstr;
  bm_timestamp : Z;
  bm_excludeFromContext : bool
}.

Record CustomMessage := MkCustomMessage {
  cm_customType : jsstr;
  cm_content : msg_content;
  cm_display : bool;
  cm_details : option json;
  cm_timestamp : Z
}.

Record BranchSummaryMessage := MkBranchSummaryMessage {
  bs_summary : jsstr; bs_fromId : jsstr; bs_timestamp : Z
}.

Record CompactionSummaryMessage := MkCompactionSummaryMessage {
  cs_summary : jsstr;
  cs_tokensBefore : Z;
  cs_retainedMessageCount : option Z;
  cs_customInstructions : option jsstr;
  cs_timestamp : Z
}.

Inductive AgentMessage :=
| MUser (m : UserMessage)
| MAssistant (m : AssistantMessage)
| MToolResult (m : ToolResultMessage)
| MBashExecution (m : BashExecutionMessage)
| MCustom (m : CustomMessage)
| MBranchSummary (m : BranchSummaryMessage)
| MCompactionSummary (m : CompactionSummaryMessage)
(** The role [hookMessage] of version-2 session files; no current type has it
    and the migration renames it to [custom]. *)
| MHookMessage (m : CustomMessage).

#[export] Instance UserMessage_eq_dec : EqDecision UserMessage.
Proof. solve_decision. Defined.
#[export] Instance AssistantMessage_eq_dec : EqDecision AssistantMessage.
Proof. solve_decision. Defined.
#[export] Instance ToolResultMessage_eq_dec : EqDecision ToolResultMessage.
Proof. solve_decision. Defined.
#[export] Instance BashExecutionMessage_eq_dec : EqDecision BashExecutionMessage.
Proof. solve_decision. Defined.
#[export] Instance CustomMessage_eq_dec : EqDecision CustomMessage.
Proof. solve_decision. Defined.
#[export] Instance BranchSummaryMessage_eq_dec : EqDecision BranchSummaryMessage.
Proof. solve_decision. Defined.
#[export] Instance CompactionSummaryMessage_eq_dec : EqDecision CompactionSummaryMessage.
Proof. solve_decision. Defined.
#[export] Instance AgentMessage_eq_dec : EqDecision AgentMessage.
Proof. solve_decision. Defined.

(** The [role] discriminant. *)
Inductive Role :=
| RUser | RAssistant | RToolResult | RBashExecution | RCustom | RBranchSummary | RCompactionSummary
| RHookMessage.
#[export] Instance Role_eq_dec : EqDecision Role.
Proof. solve_decision. Defined.

Definition role (m : AgentMessage) : Role :=
  match m with
  | MUser _ => RUser | MAssistant _ => RAssistant | MToolResult _ => RToolResult
  | MBashExecution _ => RBashExecution | MCustom _ => RCustom
  | MBranchSummary _ => RBranchSummary | MCompactionSummary _ => RCompactionSummary
  | MHookMessage _ => RHookMessage
  end.

Definition is_assistant (m : AgentMessage) : bool :=
  match m with MAssistant _ => true | _ => false end.

Definition is_toolCall (b : block) : bool :=
  match b with ToolCallBlock _ _ _ => true | _ => false end.

Definition is_text (b : block) : bool :=
  match b with TextBlock _ => true | _ => false end.

(** The text of the text blocks, in order. *)
Definition text_parts (l : list block) : list jsstr :=
  omap (λ b, match b with TextBlock t => Some t | _ => None end) l.

(** ** Conversion for the model *)

Definition COMPACTION_SUMMARY_PREFIX : jsstr :=
  js "The conversation history before this point was compacted into the following summary:"
  ++ [NL; NL] ++ js "<summary>" ++ [NL].
Definition COMPACTION_SUMMARY_SUFFIX : jsstr := [NL] ++ js "</summary>".
Definition BRANCH_SUMMARY_PREFIX : jsstr :=
  js "The following is a summary of a branch that this conversation came back from:"
  ++ [NL; NL] ++ js "<summary>" ++ [NL].
Definition BRANCH_SUMMARY_SUFFIX : jsstr := js "</summary>".

Definition SESSION_SLASH_COMMAND_CUSTOM_TYPE := js "session_slash_command".
Definition SESSION_SLASH_COMMAND_RESULT_CUSTOM_TYPE := js "session_slash_command_result".
Definition COMPACTION_OUTCOME_CUSTOM_TYPE := js "compaction_outcome".
Definition REFINEMENT_OUTCOME_CUSTOM_TYPE := js "refinement_outcome".

Definition BACKTICK : Z := 96.

(** The loop over [matchAll(/`+/g)]: the longest run so far and the run that
    ends here. *)
Fixpoint longest_run (s : jsstr) (longest cur : nat) : nat :=
  match s with
  | [] => longest `max` cur
  | c :: s => if c =? BACKTICK then longest_run s longest (S cur)
              else longest_run s (longest `max` cur) 0
  end.

Definition longestBacktickRun (s : jsstr) : nat := longest_run s 0 0.

Definition bash_fence (out : jsstr) : jsstr :=
  replicate (3 `max` (longestBacktickRun out + 1)) BACKTICK.

Definition bashOutputToText (msg : BashExecutionMessage) : jsstr :=
  let text :=
    match bm_output msg with
    | [] => js "(no output)"
    | out => bash_fence out ++ [NL] ++ out ++ [NL] ++ bash_fence out
    end in
  let text :=
    if bm_cancelled msg then text ++ [NL; NL] ++ js "(command cancelled)"
    else match bm_exitCode msg with
         | Some code =>
             if code =? 0 then text
             else text ++ [NL; NL] ++ js "Command exited with code " ++ js_of_Z code
         | None => text
         end in
  if bm_truncated msg then
    text ++ (if truthy (bm_fullOutputPath msg)
             then [NL; NL] ++ js "[Output truncated. Full output: "
                  ++ default [] (bm_fullOutputPath msg) ++ js "]"
             else [NL; NL] ++ js "[Output truncated.]")
  else text.

Definition bashExecutionToText (msg : BashExecutionMessage) : jsstr :=
  js "Ran `" ++ bm_command msg ++ js "`" ++ [NL] ++ bashOutputToText msg.

Definition createBranchSummaryMessage (summary fromId : jsstr) (timestamp : Z) : AgentMessage :=
  MBranchSummary (MkBranchSummaryMessage summary fromId timestamp).

Definition createCompactionSummaryMessage (summary : jsstr) (tokensBefore timestamp : Z)
    (customInstructions : option jsstr) (retainedMessageCount : option Z) : AgentMessage :=
  MCompactionSummary
    (MkCompactionSummaryMessage summary tokensBefore retainedMessageCount customInstructions timestamp).

Definition createCustomMessage (customType : jsstr) (content : msg_content) (display : bool)
    (details : option json) (timestamp : Z) : AgentMessage :=
  MCustom (MkCustomMessage customType content display details timestamp).

(** One element of [convertToLlm]; [None] is [undefined]. *)
Definition convertMessage (m : AgentMessage) : option AgentMessage :=
  match m with
  | MBashExecution m =>
      if bm_excludeFromContext m then None
      else Some (MUser (MkUserMessage (CBlocks [TextBlock (bashExecutionToText m)]) (bm_timestamp m)))
  | MCustom m =>
      if bool_decide (cm_customType m = SESSION_SLASH_COMMAND_CUSTOM_TYPE)
         || bool_decide (cm_customType m = SESSION_SLASH_COMMAND_RESULT_CUSTOM_TYPE)
         || bool_decide (cm_customType m = COMPACTION_OUTCOME_CUSTOM_TYPE)
         || bool_decide (cm_customType m = REFINEMENT_OUTCOME_CUSTOM_TYPE)
      then None
      else
        let content := match cm_content m with CText s => [TextBlock s] | CBlocks l => l end in
        Some (MUser (MkUserMessage (CBlocks content) (cm_timestamp m)))
  | MBranchSummary m =>
      Some (MUser (MkUserMessage
        (CBlocks [TextBlock (BRANCH_SUMMARY_PREFIX ++ bs_summary m ++ BRANCH_SUMMARY_SUFFIX)])
        (bs_timestamp m)))
  | MCompactionSummary m =>
      Some (MUser (MkUserMessage
        (CBlocks [TextBlock (COMPACTION_SUMMARY_PREFIX ++ cs_summary m ++ COMPACTION_SUMMARY_SUFFIX)])
        (cs_timestamp m)))
  | MUser _ | MAssistant _ | MToolResult _ => Some m
  | MHookMessage _ => None
  end.

Definition convertToLlm (messages : list AgentMessage) : list AgentMessage :=
  omap convertMessage messages.

(** The messages a provider accepts. *)
Definition is_llm_message (m : AgentMessage) : bool :=
  match m with MUser _ | MAssistant _ | MToolResult _ => true | _ => false end.

Lemma convertMessage_llm m m' : convertMessage m = Some m' → is_llm_message m' = true.
Proof. destruct m; cbn; repeat case_match; intros [= <-]; done. Qed.

(** ** The bash fence *)

Lemma longest_run_ge s longest cur :
  (longest <= longest_run s longest cur)%nat ∧ (cur <= longest_run s longest cur)%nat.
Proof.
  revert longest cur. induction s as [|c s IH]; intros longest cur; cbn; [lia|].
  destruct (c =? BACKTICK).
  - destruct (IH longest (S cur)). lia.
  - destruct (IH (longest `max` cur)%nat O). lia.
Qed.

Lemma longest_run_app a b longest cur :
  ∃ longest' cur', longest_run (a ++ b) longest cur = longest_run b longest' cur'.
Proof.
  revert longest cur. induction a as [|c a IH]; intros longest cur; cbn; [eauto|].
  destruct (c =? BACKTICK); apply IH.
Qed.

Lemma longest_run_replicate n s longest cur :
  longest_run (replicate n BACKTICK ++ s) longest cur = longest_run s longest (cur + n).
Proof.
  revert cur. induction n as [|n IH]; intros cur; cbn.
  - by rewrite Nat.add_0_r.
  - rewrite IH. f_equal. lia.
Qed.

(** The fence around command output is longer than any backtick run inside
    it, so the output never contains the fence and cannot end the code block
    early. *)
Theorem bash_fence_not_in_output out a b : out ≠ a ++ bash_fence out ++ b.
Proof.
  intros Heq. unfold bash_fence in Heq. set (n := longestBacktickRun out) in *.
  assert (n = longestBacktickRun (a ++ replicate (3 `max` (n + 1)) BACKTICK ++ b)) as Hn
    by (unfold n at 1; by f_equal).
  unfold longestBacktickRun in Hn. destruct (longest_run_app a
    (replicate (3 `max` (n + 1)) BACKTICK ++ b) 0 0) as (l&c&Hl).
  rewrite Hl, longest_run_replicate in Hn.
  destruct (longest_run_ge b l (c + 3 `max` (n + 1))%nat). lia.
Qed.

(** [convertToLlm] yields only user, assistant and tool-result messages and
    keeps those three kinds unchanged, in order: filtering its input to the LLM
    kinds gives a subsequence of its output. *)
Theorem convertToLlm_llm messages :
  Forall (λ m, is_llm_message m = true) (convertToLlm messages) ∧
  filter (λ m, is_llm_message m = true) messages `sublist_of` convertToLlm messages.
Proof.
  unfold convertToLlm. induction messages as [|m ms [IH1 IH2]]; [split; constructor|].
  cbn [omap list_omap]. rewrite filter_cons.
  destruct (convertMessage m) as [m'|] eqn:Hm.
  - split; [constructor; [by eapply convertMessage_llm|done]|].
    case_decide as Hd; [|by constructor].
    destruct m; cbn in Hd; try done; cbn in Hm; injection Hm as <-; by constructor.
  - split; [done|]. rewrite decide_False; [done|]. by destruct m.
Qed.
