(* ===== verification/PrivateFraming.v ===== *)
(** * Private frames between the daemon and its workers

    Models [packages/coding-agent/src/modes/session-worker/private-framing.ts]:
    a frame is eight bytes of lengths, a JSON header and a payload.  A [Buffer]
    is a list of bytes.  The decoder's theorems are about arbitrary input: what
    it delivers does not depend on how the stream is cut into chunks, the
    stream of a sender gives back the frames sent, and what it buffers is
    bounded.

    The message of V8's [SyntaxError] is not modelled, only that the header is
    not JSON.  A listener of a channel does not change the set of listeners
    while it is called. *)

From S2P Require Import Prelude.
From S2P Require Import JsString.
From S2P Require Import Json.
From S2P Require Import JsonParse.
From S2P Require Import Eff.

Definition FRAME_PREFIX_BYTES : nat := 8.

Record PrivateFrameLimits := MkLimits { maxHeaderBytes : Z; maxPayloadBytes : Z }.

Definition DEFAULT_PRIVATE_FRAME_LIMITS : PrivateFrameLimits :=
  MkLimits (1024 * 1024) (1024 * 1024 * 1024).

Record PrivateFrame := MkFrame { pf_header : json; pf_payload : list Z }.
#[export] Instance PrivateFrame_eq_dec : EqDecision PrivateFrame.
Proof. solve_decision. Defined.

Inductive frame_error :=
| InvalidFrameLength (name : jsstr) (value : Z)
| EmptyHeader
| InvalidHeaderJSON
| InvalidRoutingHeader
| OutOfRange (value : Z)
| IncompleteBytes (n : nat)
| ChannelClosed
| External (message : jsstr).
#[export] Instance frame_error_eq_dec : EqDecision frame_error.
Proof. solve_decision. Defined.


Definition assertFrameLength (name : jsstr) (value maximum : Z) : result frame_error unit :=
  if negb (isSafeInteger value) || (value <? 0) || (maximum <? value)
  then Throw (InvalidFrameLength name value) else Ok tt.

Definition isObjectHeader (value : json) : bool := match value with JObj _ => true | _ => false end.

(** [Buffer.writeUInt32BE] and [readUInt32BE]. *)
Definition writeUInt32BE (v : Z) : result frame_error (list Z) :=
  if (v <? 0) || (2 ^ 32 <=? v) then Throw (OutOfRange v)
  else Ok [v / 2 ^ 24; (v / 2 ^ 16) mod 256; (v / 2 ^ 8) mod 256; v mod 256].

Definition readUInt32BE (b : list Z) (offset : nat) : Z :=
  foldl (λ a x, a * 256 + x) 0 (take 4 (drop offset b)).

Definition encodePrivateFrame (header : json) (payload : list Z) (limits : PrivateFrameLimits)
    : result frame_error (list Z) :=
  let headerBuffer := utf8_encode (stringify header) in
  assertFrameLength (js "header length") (Z.of_nat (length headerBuffer)) (maxHeaderBytes limits);;
  assertFrameLength (js "payload length") (Z.of_nat (length payload)) (maxPayloadBytes limits);;
  if (length headerBuffer =? 0)%nat then Throw EmptyHeader else
  h ← writeUInt32BE (Z.of_nat (length headerBuffer));
  p ← writeUInt32BE (Z.of_nat (length payload));
  Ok (h ++ p ++ headerBuffer ++ payload).

(** ** The decoder *)

Record PrivateFrameDecoder := MkDecoder { buffered : list Z }.

Section decoder.
Context (validateHeader : json → bool) (limits : PrivateFrameLimits).

(** [this.buffered.subarray(start, end)] *)
Definition subarray (b : list Z) (start fin : nat) : list Z := take (fin - start) (drop start b).

(** The loop of [push] from [offset]: the frames and the final offset. *)
Fixpoint push_loop (fuel : nat) (b : list Z) (offset : nat)
    : result frame_error (list PrivateFrame * nat) :=
  match fuel with
  | O => Ok ([], offset)
  | S fuel =>
      if (length b - offset <? FRAME_PREFIX_BYTES)%nat then Ok ([], offset) else
      let headerLength := readUInt32BE b offset in
      let payloadLength := readUInt32BE b (offset + 4) in
      assertFrameLength (js "header length") headerLength (maxHeaderBytes limits);;
      assertFrameLength (js "payload length") payloadLength (maxPayloadBytes limits);;
      if headerLength =? 0 then Throw EmptyHeader else
      let frameLength := (FRAME_PREFIX_BYTES + Z.to_nat headerLength + Z.to_nat payloadLength)%nat in
      if (length b - offset <? frameLength)%nat then Ok ([], offset) else
      let headerStart := (offset + FRAME_PREFIX_BYTES)%nat in
      let payloadStart := (headerStart + Z.to_nat headerLength)%nat in
      match parse (utf8_decode (subarray b headerStart payloadStart)) with
      | None => Throw InvalidHeaderJSON
      | Some decoded =>
          if negb (isObjectHeader decoded) || negb (validateHeader decoded) then Throw InvalidRoutingHeader else
          let frame := MkFrame decoded (subarray b payloadStart (payloadStart + Z.to_nat payloadLength)) in
          r ← push_loop fuel b (offset + frameLength);
          Ok (frame :: r.1, r.2)
      end
  end.

Definition push (chunk : list Z) : eff PrivateFrameDecoder frame_error (list PrivateFrame) :=
  emodify (λ d, if (0 <? length chunk)%nat
                then MkDecoder (if (length (buffered d) =? 0)%nat then chunk else buffered d ++ chunk)
                else d);;
  b ← egets buffered;
  match push_loop (S (length b)) b 0 with
  | Throw e => ethrow e
  | Ok (frames, offset) =>
      ewhen (0 <? offset)%nat (emodify (λ _, MkDecoder (drop offset b)));;
      mret frames
  end.

Definition finish : eff PrivateFrameDecoder frame_error unit :=
  b ← egets buffered;
  if (length b =? 0)%nat then mret tt else ethrow (IncompleteBytes (length b)).

(** The frames of successive chunks. *)
Fixpoint push_all (chunks : list (list Z)) : eff PrivateFrameDecoder frame_error (list PrivateFrame) :=
  match chunks with
  | [] => mret []
  | c :: cs => fs ← push c; gs ← push_all cs; mret (fs ++ gs)
  end.
End decoder.

(** ** The channel

    The stream is what was written to it, whether it was ended, and the error it
    was destroyed with.  [ch_delivered] records the calls of listeners.  A
    listener is a number; [listener] says what its call throws. *)

Record Stream := MkStream {
  st_written : list (list Z);
  st_ended : bool;
  st_destroyed : option frame_error
}.

Record PrivateFramedChannel := MkChannel {
  ch_stream : Stream;
  ch_decoder : PrivateFrameDecoder;
  ch_listeners : list nat;
  ch_closed : bool;
  ch_attached : bool;
  ch_delivered : list (nat * PrivateFrame)
}.

Section channel.
Context (validateHeader : json → bool) (limits : PrivateFrameLimits).
Context (listener : nat → PrivateFrame → option jsstr).

#[local] Abbreviation C := (eff PrivateFramedChannel frame_error).

Definition new_channel (stream : Stream) : PrivateFramedChannel :=
  MkChannel stream (MkDecoder []) [] false true [].

Definition set_stream (st : Stream) (c : PrivateFramedChannel) : PrivateFramedChannel :=
  MkChannel st (ch_decoder c) (ch_listeners c) (ch_closed c) (ch_attached c) (ch_delivered c).
Definition set_listeners (ls : list nat) (c : PrivateFramedChannel) : PrivateFramedChannel :=
  MkChannel (ch_stream c) (ch_decoder c) ls (ch_closed c) (ch_attached c) (ch_delivered c).
Definition set_decoder (d : PrivateFrameDecoder) (c : PrivateFramedChannel) : PrivateFramedChannel :=
  MkChannel (ch_stream c) d (ch_listeners c) (ch_closed c) (ch_attached c) (ch_delivered c).
Definition set_closed (c : PrivateFramedChannel) : PrivateFramedChannel :=
  MkChannel (ch_stream c) (ch_decoder c) (ch_listeners c) true (ch_attached c) (ch_delivered c).
Definition set_detached (c : PrivateFramedChannel) : PrivateFramedChannel :=
  MkChannel (ch_stream c) (ch_decoder c) (ch_listeners c) (ch_closed c) false (ch_delivered c).
Definition record_call (l : nat) (f : PrivateFrame) (c : PrivateFramedChannel) : PrivateFramedChannel :=
  MkChannel (ch_stream c) (ch_decoder c) (ch_listeners c) (ch_closed c) (ch_attached c)
    (ch_delivered c ++ [(l, f)]).

(** [Set.prototype.add] and [delete]. *)
Definition onFrame (l : nat) : C unit :=
  emodify (λ c, if bool_decide (l ∈ ch_listeners c) then c else set_listeners (ch_listeners c ++ [l]) c).
Definition offFrame (l : nat) : C unit :=
  emodify (λ c, set_listeners (filter (λ k, k ≠ l) (ch_listeners c)) c).

(** [write] is what the stream answers to the callback. *)
Definition send (header : json) (payload : list Z) (write : option jsstr) : C unit :=
  c ← eget;
  if ch_closed c || bool_decide (is_Some (st_destroyed (ch_stream c)) ) then ethrow ChannelClosed else
  match encodePrivateFrame header payload limits with
  | Throw e => ethrow e
  | Ok frame =>
      let st := ch_stream c in
      emodify (set_stream (MkStream (st_written st ++ [frame]) (st_ended st) (st_destroyed st)));;
      match write with Some m => ethrow (External m) | None => mret tt end
  end.

Definition detach : C unit :=
  emodify set_detached;; emodify (set_listeners []).

Definition close : C unit :=
  c ← eget;
  if ch_closed c then mret tt else
  emodify set_closed;;
  detach;;
  emodify (λ c, set_stream (MkStream (st_written (ch_stream c)) true (st_destroyed (ch_stream c))) c).

(** [stream.destroy(error)]; a second call does nothing. *)
Definition destroy (e : frame_error) : C unit :=
  emodify (λ c, match st_destroyed (ch_stream c) with
    | Some _ => c
    | None => set_stream (MkStream (st_written (ch_stream c)) (st_ended (ch_stream c)) (Some e)) c
    end).

Definition call_listener (f : PrivateFrame) (l : nat) : C unit :=
  emodify (record_call l f);;
  match listener l f with Some m => ethrow (External m) | None => mret tt end.

Definition channel_push (chunk : list Z) : C (list PrivateFrame) := λ c,
  let '(d, r) := push validateHeader limits chunk (ch_decoder c) in (set_decoder d c, r).

(** A handler is called only while it is registered. *)
Definition handleData (chunk : list Z) : C unit :=
  c ← eget;
  ewhen (ch_attached c)
    (ecatch
      (frames ← channel_push chunk;
       efor frames (λ frame, c ← eget; efor (ch_listeners c) (call_listener frame)))
      destroy).

Definition handleEnd : C unit :=
  c ← eget;
  ewhen (ch_attached c)
    (match finish (ch_decoder c) with (_, Ok _) => mret tt | (_, Throw e) => destroy e end).

Definition handleClose : C unit :=
  c ← eget;
  ewhen (ch_attached c) (emodify set_closed;; detach).
End channel.

(** ** One frame at a time *)

Section decode.
Context (validateHeader : json → bool) (limits : PrivateFrameLimits).

Abbreviation u32 := readUInt32BE.

(** The first frame of a byte sequence and the rest, or [None] when it is
    incomplete. *)
Definition first_frame (b : list Z) : result frame_error (option (PrivateFrame * list Z)) :=
  if (length b <? FRAME_PREFIX_BYTES)%nat then Ok None else
  let hl := u32 b 0 in
  let pl := u32 b 4 in
  assertFrameLength (js "header length") hl (maxHeaderBytes limits);;
  assertFrameLength (js "payload length") pl (maxPayloadBytes limits);;
  if hl =? 0 then Throw EmptyHeader else
  let n := (FRAME_PREFIX_BYTES + Z.to_nat hl + Z.to_nat pl)%nat in
  if (length b <? n)%nat then Ok None else
  match parse (utf8_decode (take (Z.to_nat hl) (drop FRAME_PREFIX_BYTES b))) with
  | None => Throw InvalidHeaderJSON
  | Some decoded =>
      if negb (isObjectHeader decoded) || negb (validateHeader decoded) then Throw InvalidRoutingHeader else
      Ok (Some (MkFrame decoded (take (Z.to_nat pl) (drop (FRAME_PREFIX_BYTES + Z.to_nat hl) b)), drop n b))
  end.

(** All the frames of a byte sequence and what is left. *)
Fixpoint decode_n (n : nat) (b : list Z) : result frame_error (list PrivateFrame * list Z) :=
  match n with
  | O => Ok ([], b)
  | S n =>
      r ← first_frame b;
      match r with
      | None => Ok ([], b)
      | Some (f, b') => r ← decode_n n b'; Ok (f :: r.1, r.2)
      end
  end.

Definition decode (b : list Z) : result frame_error (list PrivateFrame * list Z) := decode_n (S (length b)) b.

Lemma assert_cases {A} name v m (k : result frame_error A) :
  (assertFrameLength name v m;; k) = k ∨ (assertFrameLength name v m;; k) = Throw (InvalidFrameLength name v).
Proof. unfold assertFrameLength. case_match; [by right|by left]. Qed.

Lemma assert_Ok {A} name v m (k : result frame_error A) x :
  (assertFrameLength name v m;; k) = Ok x → 0 <= v <= m ∧ k = Ok x.
Proof.
  unfold assertFrameLength. case_match eqn:E; [done|]. intros Hk. split; [|exact Hk].
  apply orb_false_iff in E as [E Hm]. apply orb_false_iff in E as [_ Hv]. lia.
Qed.

Lemma u32_app b t off : (off + 4 <= length b)%nat → u32 (b ++ t) off = u32 b off.
Proof.
  intros Hb. unfold readUInt32BE. rewrite drop_app_le by lia. rewrite take_app_le; [done|].
  rewrite length_drop. lia.
Qed.

(** An input that is longer gives the same first frame or the same error. *)
Lemma first_frame_app b t r : first_frame b = r → r ≠ Ok None →
  first_frame (b ++ t) = match r with
    | Ok (Some (f, b')) => Ok (Some (f, b' ++ t))
    | r => r
    end.
Proof.
  intros <-. unfold first_frame, FRAME_PREFIX_BYTES. rewrite length_app.
  destruct (Nat.ltb_spec (length b) 8) as [|H8]; [done|].
  rewrite (proj2 (Nat.ltb_ge (length b + length t) 8)) by lia. rewrite !u32_app by lia.
  cbv zeta. destruct (assertFrameLength (js "header length") _ _) as [[]|]; [|done].
  destruct (assertFrameLength (js "payload length") _ _) as [[]|]; [|done].
  cbn [mbind result_bind]. destruct (_ =? 0); [done|].
  set (hl := Z.to_nat (u32 b 0)). set (pl := Z.to_nat (u32 b 4)).
  destruct (Nat.ltb_spec (length b) (8 + hl + pl)) as [|Hn]; [done|]. intros _.
  rewrite (proj2 (Nat.ltb_ge (length b + length t) (8 + hl + pl))) by lia. rewrite !drop_app_le by lia.
  rewrite !take_app_le by (rewrite length_drop; lia).
  destruct (parse _); [|done]. by destruct (_ || _).
Qed.

Lemma first_frame_shorter b f b' : first_frame b = Ok (Some (f, b')) → (length b' + 8 < length b)%nat.
Proof.
  unfold first_frame. destruct (length b <? _)%nat; [done|]. cbv zeta.
  intros [H1 H]%assert_Ok. apply assert_Ok in H as [H2 H]. destruct (Z.eqb_spec (u32 b 0) 0); [done|].
  destruct (Nat.ltb_spec (length b) (FRAME_PREFIX_BYTES + Z.to_nat (u32 b 0) + Z.to_nat (u32 b 4))); [done|].
  destruct (parse _); [|done]. destruct (_ || _); [done|]. injection H as _ <-.
  rewrite length_drop. unfold FRAME_PREFIX_BYTES in *. lia.
Qed.

Lemma decode_n_enough n : ∀ m b, (length b < n)%nat → (length b < m)%nat → decode_n n b = decode_n m b.
Proof.
  induction n as [|n IH]; [lia|]. intros [|m] b Hn Hm; [lia|]. cbn.
  destruct (first_frame b) as [[[f b']|]|e] eqn:E; [|done..]. apply first_frame_shorter in E. cbn.
  by rewrite (IH m b') by lia.
Qed.

Lemma decode_eq b : decode b =
  r ← first_frame b;
  match r with
  | None => Ok ([], b)
  | Some (f, b') => r ← decode b'; Ok (f :: r.1, r.2)
  end.
Proof.
  unfold decode at 1. cbn [decode_n]. destruct (first_frame b) as [[[f b']|]|e] eqn:E; [|done..].
  apply first_frame_shorter in E. cbn. by rewrite (decode_n_enough _ (S (length b')) b') by lia.
Qed.

#[local] Arguments decode : simpl never.
#[local] Arguments first_frame : simpl never.

(** Decoding a longer input continues from what was left. *)
Lemma decode_app b t : decode (b ++ t) =
  r ← decode b; r' ← decode (r.2 ++ t); Ok (r.1 ++ r'.1, r'.2).
Proof.
  remember (length b) as n eqn:Hn. revert b Hn. induction (lt_wf n) as [n _ IH]. intros b ->.
  rewrite (decode_eq b). destruct (first_frame b) as [[[f b']|]|e] eqn:E; cbn.
  - rewrite decode_eq, (first_frame_app b t _ E) by done. cbn.
    apply first_frame_shorter in E. rewrite (IH (length b')) by (done || lia).
    destruct (decode b') as [[fs r]|]; [|done]. cbn. by destruct (decode (r ++ t)) as [[]|].
  - by destruct (decode (b ++ t)) as [[]|].
  - by rewrite decode_eq, (first_frame_app b t _ E).
Qed.

(** What is left starts an incomplete frame. *)
Lemma decode_rest b fs r : decode b = Ok (fs, r) → first_frame r = Ok None.
Proof.
  remember (length b) as n eqn:Hn. revert b fs Hn. induction (lt_wf n) as [n _ IH]. intros b fs ->.
  rewrite decode_eq. destruct (first_frame b) as [[[f b']|]|e] eqn:E; cbn; [|by intros [= _ <-]|done].
  pose proof (first_frame_shorter _ _ _ E) as Hl.
  destruct (decode b') as [[gs r']|] eqn:Hd; [|done]. intros [= _ <-].
  by eapply (IH (length b')); [lia|done|exact Hd].
Qed.

Lemma decode_incomplete r : first_frame r = Ok None → decode r = Ok ([], r).
Proof. intros E. by rewrite decode_eq, E. Qed.
End decode.

#[global] Arguments decode : simpl never.
#[global] Arguments first_frame : simpl never.

(** ** The decoder reads frames *)

Section refinement.
Context (validateHeader : json → bool) (limits : PrivateFrameLimits).

#[local] Abbreviation dec := (decode validateHeader limits).
#[local] Abbreviation step := (first_frame validateHeader limits).

Lemma readUInt32BE_drop b i j : readUInt32BE (drop i b) j = readUInt32BE b (i + j).
Proof. unfold readUInt32BE. by rewrite drop_drop. Qed.

Lemma push_loop_decode fuel : ∀ b off, (off <= length b)%nat → (length b - off < fuel)%nat →
  push_loop validateHeader limits fuel b off =
    r ← dec (drop off b); Ok (r.1, (length b - length r.2)%nat).
Proof.
  induction fuel as [|fuel IH]; intros b off Hoff Hfuel; [lia|].
  rewrite decode_eq. cbn [push_loop]. unfold first_frame at 1. rewrite length_drop, !readUInt32BE_drop.
  rewrite Nat.add_0_r. unfold FRAME_PREFIX_BYTES in *.
  destruct (length b - off <? 8)%nat eqn:H8.
  { cbn. rewrite length_drop. do 2 f_equal. lia. }
  cbv zeta. set (hl := readUInt32BE b off). set (pl := readUInt32BE b (off + 4)).
  destruct (assertFrameLength (js "header length") _ _) as [[]|]; [|done].
  destruct (assertFrameLength (js "payload length") _ _) as [[]|]; [|done]. cbn [mbind result_bind].
  destruct (hl =? 0); [done|].
  destruct (Nat.ltb_spec (length b - off) (8 + Z.to_nat hl + Z.to_nat pl)) as [|Hn].
  { cbn. rewrite length_drop. do 2 f_equal. lia. }
  unfold subarray. rewrite !drop_drop.
  replace (off + 8 + Z.to_nat hl - (off + 8))%nat with (Z.to_nat hl) by lia.
  replace (off + 8 + Z.to_nat hl + Z.to_nat pl - (off + 8 + Z.to_nat hl))%nat with (Z.to_nat pl) by lia.
  destruct (parse _) as [h|]; [|done]. destruct (_ || _); [done|]. cbn [mbind result_bind].
  rewrite !Nat.add_assoc, IH by lia.
  replace (off + 8 + Z.to_nat hl + Z.to_nat pl)%nat with (off + (8 + Z.to_nat hl + Z.to_nat pl))%nat by lia.
  by destruct (dec _) as [[fs r]|].
Qed.

Lemma decode_suffix b fs r : dec b = Ok (fs, r) → ∃ p, b = p ++ r.
Proof.
  remember (length b) as n eqn:Hn. revert b fs Hn. induction (lt_wf n) as [n _ IH]. intros b fs ->.
  rewrite decode_eq. destruct (step b) as [[[f b']|]|e] eqn:E; cbn; [|intros [= <- <-]; by exists []|done].
  pose proof (first_frame_shorter _ _ _ _ _ E) as Hl.
  destruct (dec b') as [[gs r']|] eqn:Hd; [|done]. intros [= <- <-].
  destruct (IH (length b') ltac:(lia) b' gs eq_refl Hd) as (p&->).
  unfold first_frame in E. revert E. case_match; [done|]. cbv zeta.
  intros [_ E]%assert_Ok. apply assert_Ok in E as [_ E]. case_match; [done|]. case_match; [done|].
  destruct (parse _); [|done]. destruct (_ || _); [done|]. injection E as _ E.
  match type of E with drop ?k b = _ => exists (take k b ++ p) end.
  by rewrite <-app_assoc, <-E, take_drop.
Qed.

Lemma push_eq chunk b : push validateHeader limits chunk (MkDecoder b) =
  let b := b ++ chunk in
  match push_loop validateHeader limits (S (length b)) b 0 with
  | Throw e => (MkDecoder b, Throw e)
  | Ok (frames, offset) => (MkDecoder (drop offset b), Ok frames)
  end.
Proof.
  assert ((if (0 <? length chunk)%nat
      then MkDecoder (if (length b =? 0)%nat then chunk else b ++ chunk) else MkDecoder b) = MkDecoder (b ++ chunk)) as E.
  { destruct chunk; [by rewrite app_nil_r|]. by destruct b. }
  unfold push, mbind, eff_bind, emodify, egets, ethrow, ewhen, mret, eff_ret.
  cbn -[push_loop Nat.eqb Nat.ltb app]. rewrite E. cbn -[push_loop]. destruct (push_loop _ _ _ _ _) as [[fs [|n]]|]; done.
Qed.

(** [push] decodes what is buffered followed by the chunk. *)
Lemma push_decode chunk d : push validateHeader limits chunk d =
  match dec (buffered d ++ chunk) with
  | Ok (fs, r) => (MkDecoder r, Ok fs)
  | Throw e => (MkDecoder (buffered d ++ chunk), Throw e)
  end.
Proof.
  destruct d as [b]. rewrite push_eq. cbv zeta. cbn [buffered]. rewrite push_loop_decode by lia.
  rewrite drop_0. destruct (dec (b ++ chunk)) as [[fs r]|e] eqn:Hd; [|done]. cbn [mbind result_bind fst snd].
  destruct (decode_suffix _ _ _ Hd) as (p&->). rewrite length_app.
  replace (length p + length r - length r)%nat with (length p) by lia. by rewrite drop_app_length.
Qed.
End refinement.

(** ** What the two ends guarantee *)

Lemma write_read_u32 v w t : writeUInt32BE v = Ok w → length w = 4%nat ∧ readUInt32BE (w ++ t) 0 = v.
Proof.
  unfold writeUInt32BE. destruct ((v <? 0) || (2 ^ 32 <=? v)) eqn:E; [done|]. intros [= <-]. split; [done|].
  apply orb_false_iff in E as [H0%Z.ltb_ge H1%Z.leb_gt]. unfold readUInt32BE.
  cbn [app drop take foldl]. rewrite take_0. cbn [foldl].
  change (2 ^ 24) with 16777216. change (2 ^ 16) with 65536. change (2 ^ 8) with 256.
  pose proof (Z.div_mod v 256 ltac:(lia)) as D1. pose proof (Z.div_mod (v / 256) 256 ltac:(lia)) as D2.
  pose proof (Z.div_mod (v / 65536) 256 ltac:(lia)) as D3.
  rewrite Z.div_div in D2, D3 by lia. change (256 * 256) with 65536 in D2. change (65536 * 256) with 16777216 in D3.
  lia.
Qed.

Section guarantees.
Context (validateHeader : json → bool) (limits : PrivateFrameLimits).

#[local] Abbreviation dec := (decode validateHeader limits).
#[local] Abbreviation step := (first_frame validateHeader limits).
#[local] Abbreviation encode := (λ f, encodePrivateFrame (pf_header f) (pf_payload f) limits).

(** A header the receiver accepts. *)
Definition frame_ok (f : PrivateFrame) : Prop :=
  json_ok (pf_header f) ∧ isObjectHeader (pf_header f) = true ∧ validateHeader (pf_header f) = true.

Lemma first_frame_encode f bs t : encode f = Ok bs → frame_ok f → step (bs ++ t) = Ok (Some (f, t)).
Proof.
  destruct f as [h p]. intros E ([Hu Hd]&Hobj&Hval). cbn in *. unfold encodePrivateFrame in E. cbv zeta in E.
  set (hb := utf8_encode (stringify h)) in *.
  destruct (assertFrameLength (js "header length") _ _) as [[]|] eqn:A1; [|done].
  destruct (assertFrameLength (js "payload length") _ _) as [[]|] eqn:A2; [|done].
  cbn [mbind result_bind] in E. destruct (Nat.eqb_spec (length hb) 0) as [|Hne]; [done|].
  apply bind_Ok in E as (wh&Hwh&E). apply bind_Ok in E as (wp&Hwp&[= <-]).
  destruct (write_read_u32 _ _ (wp ++ hb ++ p ++ t) Hwh) as [Lh Rh].
  destruct (write_read_u32 _ _ (hb ++ p ++ t) Hwp) as [Lp Rp].
  rewrite <-!app_assoc. unfold first_frame, FRAME_PREFIX_BYTES. rewrite Rh.
  replace (readUInt32BE (wh ++ wp ++ hb ++ p ++ t) 4) with (Z.of_nat (length p)).
  2: { rewrite <-Rp, <-Lh at 1. unfold readUInt32BE. by rewrite Nat.add_0_r || rewrite drop_app_length, drop_0. }
  rewrite A1, A2. cbn [mbind result_bind]. cbv zeta. rewrite !Nat2Z.id, !length_app, Lh, Lp.
  rewrite (proj2 (Nat.ltb_ge _ 8)) by lia. rewrite (proj2 (Z.eqb_neq _ 0)) by lia.
  rewrite (proj2 (Nat.ltb_ge _ _)) by lia.
  assert (∀ k l, drop (8 + k) (wh ++ wp ++ l) = drop k l) as Hdrop.
  { intros k l. rewrite app_assoc, <-drop_drop. by rewrite drop_app_length' by (rewrite length_app; lia). }
  assert (∀ l, drop 8 (wh ++ wp ++ l) = l) as Hdrop0 by exact (Hdrop 0%nat).
  rewrite Hdrop0, take_app_length. unfold hb at 1.
  rewrite utf8_stringify, parse_stringify by done. rewrite Hobj, Hval. cbn [negb orb].
  rewrite <-Nat.add_assoc, !Hdrop, drop_app_length, take_app_length.
  rewrite app_assoc, drop_app_length' by (rewrite length_app; lia). done.
Qed.

Lemma decode_encoded fs bss t : Forall2 (λ f bs, encode f = Ok bs) fs bss → Forall frame_ok fs →
  dec (concat bss ++ t) = r ← dec t; Ok (fs ++ r.1, r.2).
Proof.
  induction 1 as [|f bs fs bss Hf _ IH]; intros Hok; [cbn; by destruct (dec t) as [[]|]|].
  apply Forall_cons in Hok as [Hfo Hok]. cbn [concat]. rewrite <-app_assoc, decode_eq.
  rewrite (first_frame_encode f) by done. cbn [mbind result_bind]. rewrite IH by done.
  by destruct (dec t) as [[]|].
Qed.

Lemma push_all_cons c cs d : push_all validateHeader limits (c :: cs) d =
  match push validateHeader limits c d with
  | (d, Throw e) => (d, Throw e)
  | (d, Ok fs) =>
      match push_all validateHeader limits cs d with
      | (d, Throw e) => (d, Throw e)
      | (d, Ok gs) => (d, Ok (fs ++ gs))
      end
  end.
Proof. done. Qed.

Lemma push_all_decode chunks : ∀ d, step (buffered d) = Ok None →
  (push_all validateHeader limits chunks d).2 = fst <$> dec (buffered d ++ concat chunks) ∧
  ∀ fs r, dec (buffered d ++ concat chunks) = Ok (fs, r) →
    (push_all validateHeader limits chunks d).1 = MkDecoder r.
Proof.
  induction chunks as [|c cs IH]; intros [b] Hb; cbn [buffered] in Hb; cbn [buffered concat].
  - rewrite app_nil_r, (decode_incomplete _ _ _ Hb). split; [done|]. by intros fs r [= _ <-].
  - rewrite push_all_cons, push_decode, app_assoc, (decode_app _ _ (b ++ c)). cbn [buffered].
    destruct (dec (b ++ c)) as [[fs r]|e] eqn:Hd; [|split; [done|by intros ? ? [=]]]. cbn [mbind result_bind fst snd].
    destruct (IH (MkDecoder r)) as [H2 H1]; [by apply decode_rest in Hd|]. cbn [buffered] in *.
    destruct (push_all _ _ cs (MkDecoder r)) as [d' res]. cbn in H1, H2. subst res.
    destruct (dec (r ++ concat cs)) as [[gs r']|e]; cbn; [|split; [done|by intros ? ? [=]]].
    split; [done|]. intros ? ? [= _ <-]. by eapply H1.
Qed.
End guarantees.

(** ** Independence of the chunks *)

Section properties.
Context (validateHeader : json → bool) (limits : PrivateFrameLimits).

#[local] Abbreviation dec := (decode validateHeader limits).
#[local] Abbreviation step := (first_frame validateHeader limits).
#[local] Abbreviation encode := (λ f, encodePrivateFrame (pf_header f) (pf_payload f) limits).

(** However a byte stream is cut into chunks, the decoder delivers the same
    frames and throws the same error as when it gets the whole stream at once;
    when it throws nothing, it also ends in the same state. *)
Theorem decoder_chunking chunks :
  let pieces := push_all validateHeader limits chunks (MkDecoder []) in
  let whole := push validateHeader limits (concat chunks) (MkDecoder []) in
  pieces.2 = whole.2 ∧ (∀ fs, whole.2 = Ok fs → pieces.1 = whole.1).
Proof.
  intros pieces whole. destruct (push_all_decode validateHeader limits chunks (MkDecoder [])) as [H2 H1]; [done|].
  subst pieces whole. rewrite H2, push_decode. cbn [buffered app] in *.
  destruct (dec (concat chunks)) as [[fs r]|e]; cbn; [|done]. split; [done|]. intros ? _. by eapply H1.
Qed.

Lemma incomplete_prefix f bs p q :
  encode f = Ok bs → frame_ok validateHeader f → bs = p ++ q → q ≠ [] → step p = Ok None.
Proof.
  intros Hf Hok -> Hq. pose proof (first_frame_encode _ _ _ _ [] Hf Hok) as Hfull. rewrite app_nil_r in Hfull.
  destruct (decide (step p = Ok None)) as [|Hne]; [done|exfalso].
  rewrite (first_frame_app _ _ p q _ eq_refl Hne) in Hfull.
  destruct (step p) as [[[g b']|]|e]; [|done..]. injection Hfull as _ Hnil. by apply app_nil in Hnil as [_ ?].
Qed.

(** A prefix of the sent bytes decodes to the frames it has whole. *)
Lemma decode_prefix fs bss p rest :
  Forall2 (λ f bs, encode f = Ok bs) fs bss → Forall (frame_ok validateHeader) fs → p ++ rest = concat bss →
  ∃ k, (k <= length fs)%nat ∧ dec p = Ok (take k fs, drop (length (concat (take k bss))) p) ∧
    (length (concat (take k bss)) <= length p)%nat ∧
    (∀ bs, bss !! k = Some bs → (length p < length (concat (take k bss)) + length bs)%nat).
Proof.
  intros HF. revert p. induction HF as [|f bs fs bss Hf HF IH]; intros p Hok Hp.
  - apply app_nil in Hp as [-> ->]. exists 0%nat. split_and!; [done..|]. by intros.
  - apply Forall_cons in Hok as [Hfo Hok]. cbn [concat] in Hp.
    destruct (Nat.lt_ge_cases (length p) (length bs)) as [Hl|Hl].
    + exists 0%nat. cbn [take concat length]. rewrite drop_0. split_and!; [lia| |lia|by intros ? [= <-]].
      apply decode_incomplete. eapply (incomplete_prefix f bs p (drop (length p) bs)); [done..| |].
      * apply (f_equal (take (length p))) in Hp. rewrite take_app_length, take_app_le in Hp by lia.
        rewrite Hp at 1. by rewrite take_drop.
      * intros Hnil%(f_equal length). rewrite length_drop in Hnil. cbn in Hnil. lia.
    + assert (∃ t, p = bs ++ t ∧ t ++ rest = concat bss) as (t&->&Ht).
      { apply app_eq_inv in Hp as [(t&->&Ht)|(t&->&Ht)]; [by exists t|]. exists [].
        assert (t = []) as -> by (rewrite length_app in Hl; destruct t; [done|cbn in Hl; lia]).
        by rewrite !app_nil_r. }
      destruct (IH t Hok Ht) as (k&Hk&Hd&Hle&Hnext). exists (S k). cbn [take concat]. rewrite !length_app.
      split_and!; [cbn; lia| |lia|].
      * rewrite decode_eq, (first_frame_encode _ _ f) by done. cbn [mbind result_bind]. rewrite Hd.
        cbn [mbind result_bind fst snd]. by rewrite <-drop_drop, drop_app_length.
      * intros bs' Hb. cbn in Hb. specialize (Hnext _ Hb). lia.
Qed.
End properties.

(** ** From one channel to the other *)

Section transport.
Context (validateHeader : json → bool) (limits : PrivateFrameLimits).
Context (listener : nat → PrivateFrame → option jsstr).

#[local] Abbreviation encode := (λ f, encodePrivateFrame (pf_header f) (pf_payload f) limits).

Definition send_frame (f : PrivateFrame) : eff PrivateFramedChannel frame_error unit :=
  send limits (pf_header f) (pf_payload f) None.

Lemma send_frame_Ok f c c' : send_frame f c = (c', Ok tt) →
  ∃ bs, encode f = Ok bs ∧ st_written (ch_stream c') = st_written (ch_stream c) ++ [bs].
Proof.
  unfold send_frame, send, mbind, eff_bind, eget, ethrow, mret, eff_ret, emodify.
  destruct (ch_closed c || bool_decide (is_Some (st_destroyed (ch_stream c)))); [done|].
  destruct (encodePrivateFrame _ _ _) as [bs|e]; [|done]. intros [= <-]. by exists bs.
Qed.

Lemma send_all_Ok fs : ∀ c c', efor fs send_frame c = (c', Ok tt) →
  ∃ bss, Forall2 (λ f bs, encode f = Ok bs) fs bss ∧
    st_written (ch_stream c') = st_written (ch_stream c) ++ bss.
Proof.
  induction fs as [|f fs IH]; intros c c'; cbn [efor].
  - intros [= <-]. exists []. by rewrite app_nil_r.
  - unfold mbind, eff_bind. destruct (send_frame f c) as [c1 [[]|e]] eqn:Hf; [|done].
    intros Hfs. destruct (IH _ _ Hfs) as (bss&HF&->). destruct (send_frame_Ok _ _ _ Hf) as (bs&Hbs&->).
    exists (bs :: bss). split; [by constructor|]. by rewrite <-app_assoc.
Qed.

(** The calls that deliver frames to listeners. *)
Definition calls (ls : list nat) (fs : list PrivateFrame) : list (nat * PrivateFrame) :=
  fs ≫= λ f, (λ l, (l, f)) <$> ls.

Lemma calls_app ls fs gs : calls ls (fs ++ gs) = calls ls fs ++ calls ls gs.
Proof. unfold calls. by rewrite bind_app. Qed.

Definition add_calls (cs : list (nat * PrivateFrame)) (c : PrivateFramedChannel) : PrivateFramedChannel :=
  MkChannel (ch_stream c) (ch_decoder c) (ch_listeners c) (ch_closed c) (ch_attached c) (ch_delivered c ++ cs).

Lemma add_calls_nil c : add_calls [] c = c.
Proof. destruct c. unfold add_calls. cbn. by rewrite app_nil_r. Qed.
Lemma add_calls_app x y c : add_calls y (add_calls x c) = add_calls (x ++ y) c.
Proof. unfold add_calls. cbn. by rewrite app_assoc. Qed.

Context (quiet : ∀ l f, listener l f = None).

Lemma call_listener_quiet f l c : call_listener listener f l c = (add_calls [(l, f)] c, Ok tt).
Proof. unfold call_listener, mbind, eff_bind, emodify. by rewrite quiet. Qed.

Lemma call_listeners f ls : ∀ c, efor ls (call_listener listener f) c = (add_calls ((λ l, (l, f)) <$> ls) c, Ok tt).
Proof.
  induction ls as [|l ls IH]; intros c; cbn [efor]; [by rewrite add_calls_nil|].
  unfold mbind, eff_bind. rewrite call_listener_quiet, IH. by rewrite add_calls_app.
Qed.

Lemma deliver_frames fs : ∀ c,
  efor fs (λ frame, c ← eget; efor (ch_listeners c) (call_listener listener frame)) c =
  (add_calls (calls (ch_listeners c) fs) c, Ok tt).
Proof.
  induction fs as [|f fs IH]; intros c; cbn [efor]; [by rewrite add_calls_nil|].
  unfold mbind, eff_bind, eget. rewrite call_listeners. etrans; [apply IH|]. by rewrite add_calls_app.
Qed.

Lemma handleData_Ok chunk c d fs : ch_attached c = true →
  push validateHeader limits chunk (ch_decoder c) = (d, Ok fs) →
  handleData validateHeader limits listener chunk c =
    (add_calls (calls (ch_listeners c) fs) (set_decoder d c), Ok tt).
Proof.
  intros Ha Hp. unfold handleData, mbind, eff_bind, eget, ewhen. rewrite Ha. unfold ecatch, channel_push.
  rewrite Hp. unfold mbind, eff_bind. pose proof (deliver_frames fs (set_decoder d c)) as E.
  unfold mbind, eff_bind, eget in E. by rewrite E.
Qed.

Lemma handleData_all chunks : ∀ c d fs, ch_attached c = true →
  push_all validateHeader limits chunks (ch_decoder c) = (d, Ok fs) →
  efor chunks (handleData validateHeader limits listener) c =
    (add_calls (calls (ch_listeners c) fs) (set_decoder d c), Ok tt).
Proof.
  induction chunks as [|ch chunks IH]; intros c d fs Ha; cbn [efor].
  - intros [= <- <-]. cbn. rewrite add_calls_nil. by destruct c.
  - rewrite push_all_cons. destruct (push _ _ ch (ch_decoder c)) as [d1 [gs|e]] eqn:Hp; [|done].
    destruct (push_all _ _ chunks d1) as [d2 [hs|e]] eqn:Hps; [|done]. intros [= <- <-].
    unfold mbind, eff_bind. rewrite (handleData_Ok _ _ _ _ Ha Hp).
    rewrite (IH (add_calls _ (set_decoder d1 c)) d2 hs) by done.
    rewrite calls_app. unfold add_calls, set_decoder. cbn [ch_stream ch_decoder ch_listeners ch_closed ch_attached ch_delivered].
    by rewrite app_assoc.
Qed.

Lemma handleEnd_eq c : ch_attached c = true → st_destroyed (ch_stream c) = None →
  let n := length (buffered (ch_decoder c)) in
  handleEnd c = (if (n =? 0)%nat then c
    else set_stream (MkStream (st_written (ch_stream c)) (st_ended (ch_stream c)) (Some (IncompleteBytes n))) c, Ok tt).
Proof.
  intros Ha Hd n. unfold handleEnd, mbind, eff_bind, eget, ewhen. rewrite Ha.
  unfold finish, egets, mbind, eff_bind. fold n. destruct (n =? 0)%nat; [done|].
  unfold ethrow, destroy, emodify. by rewrite Hd.
Qed.

End transport.

(** ** A concrete transport *)

Definition demo_header (kind : string) : json := JObj [(js "kind", JStr (js kind)); (js "seq", JNum 7)].

Definition demo_frames : list PrivateFrame :=
  [MkFrame (demo_header "one") [0; 1; 2; 255]; MkFrame (demo_header "two") []].

Definition demo_validate (h : json) : bool :=
  match h with JObj ((k, JStr _) :: _) => bool_decide (k = js "kind") | _ => false end.

Definition demo_sent : list Z := Eval vm_compute in
  concat (st_written (ch_stream
    (efor demo_frames (send_frame DEFAULT_PRIVATE_FRAME_LIMITS) (new_channel (MkStream [] false None))).1)).

