(* ===== verification/CommandJournal.v ===== *)
(** * The command recovery journal

    Models [packages/coding-agent/src/modes/daemon/command-recovery-journal.ts]:
    the journal that keeps the supervisor from dispatching a command twice.
    Records are JSON objects in a file of lines; [entries] holds, per key, the
    record received and the response.

    A write of the file may fail: an append after a prefix of its bytes, a
    rewrite before or after the rename.  A process that stops is a journal whose
    state is dropped and loaded again from the file. *)

From S2P Require Import Prelude.
From S2P Require Import JsMap.
From S2P Require Import JsString.
From S2P Require Import Json.
From S2P Require Import JsonParse.
From S2P Require Import JsonlFile.
From S2P Require Import Eff.

(** ** Records *)

Definition COMPACT_AFTER_RECORDS : Z := 4096.

Definition createCommandIdempotencyKey (clientId commandId : jsstr) : jsstr :=
  stringify (JArr [JStr clientId; JStr commandId]).

Record JournalEntry := MkEntry { je_received : json; je_response : option json }.
#[export] Instance JournalEntry_eq_dec : EqDecision JournalEntry.
Proof. solve_decision. Defined.

Inductive CommandJournalBeginResult :=
| BeginNew
| BeginPending
| BeginComplete (response : json).

Definition received_record (key clientId commandId commandType recordedAt : jsstr) : json :=
  JObj [(js "version", JNum 1); (js "type", JStr (js "received")); (js "key", JStr key);
        (js "clientId", JStr clientId); (js "commandId", JStr commandId);
        (js "commandType", JStr commandType); (js "recordedAt", JStr recordedAt)].

Definition result_record (key : jsstr) (response : json) (recordedAt : jsstr) : json :=
  JObj [(js "version", JNum 1); (js "type", JStr (js "result")); (js "key", JStr key);
        (js "response", response); (js "recordedAt", JStr recordedAt)].

Definition acknowledged_record (key recordedAt : jsstr) : json :=
  JObj [(js "version", JNum 1); (js "type", JStr (js "acknowledged")); (js "key", JStr key);
        (js "recordedAt", JStr recordedAt)].

(** ** State *)

Inductive fault := WriteOk | WriteFails (written : nat) | RenameFails | SyncFails.

Record CommandRecoveryJournal := MkJournal {
  cj_entries : list (jsstr * JournalEntry);
  cj_recordCount : Z;
  cj_file : option (list Z);
  cj_ticks : nat;
  cj_faults : list fault
}.

Section journal.
Context (now : nat → jsstr).

#[local] Abbreviation J := (eff CommandRecoveryJournal jsstr).

Definition set_entries (es : list (jsstr * JournalEntry)) (s : CommandRecoveryJournal) : CommandRecoveryJournal :=
  MkJournal es (cj_recordCount s) (cj_file s) (cj_ticks s) (cj_faults s).
Definition set_count (n : Z) (s : CommandRecoveryJournal) : CommandRecoveryJournal :=
  MkJournal (cj_entries s) n (cj_file s) (cj_ticks s) (cj_faults s).
Definition set_file (f : option (list Z)) (s : CommandRecoveryJournal) : CommandRecoveryJournal :=
  MkJournal (cj_entries s) (cj_recordCount s) f (cj_ticks s) (cj_faults s).

(** [new Date().toISOString()] *)
Definition timestamp : J jsstr := λ s,
  (MkJournal (cj_entries s) (cj_recordCount s) (cj_file s) (S (cj_ticks s)) (cj_faults s), Ok (now (cj_ticks s))).

Definition next_fault : J fault := λ s,
  (MkJournal (cj_entries s) (cj_recordCount s) (cj_file s) (cj_ticks s) (tail (cj_faults s)),
   Ok (default WriteOk (head (cj_faults s)))).

(** ** Operations *)

Definition lookup (clientId commandId : jsstr) (s : CommandRecoveryJournal) : option CommandJournalBeginResult :=
  match jm_get (cj_entries s) (createCommandIdempotencyKey clientId commandId) with
  | Some e => Some match je_response e with Some r => BeginComplete r | None => BeginPending end
  | None => None
  end.

Definition append (record : json) : J unit :=
  f ← next_fault;
  old ← egets (λ s, default [] (cj_file s));
  match f with
  | WriteOk =>
      emodify (set_file (Some (old ++ line_bytes record)));;
      emodify (λ s, set_count (cj_recordCount s + 1) s)
  | WriteFails n =>
      emodify (set_file (Some (old ++ take n (line_bytes record))));; ethrow (js "write failed")
  | _ => emodify (set_file (Some (old ++ line_bytes record)));; ethrow (js "fsync failed")
  end.

(** The records [compact] writes. *)
Fixpoint compact_records (es : list (jsstr * JournalEntry)) : J (list json) :=
  match es with
  | [] => mret []
  | (key, e) :: es =>
      r ← match je_response e with
          | Some response => t ← timestamp; mret [result_record key response t]
          | None => mret []
          end;
      rs ← compact_records es;
      mret (je_received e :: r ++ rs)
  end.

Definition compacted_bytes (records : list json) : list Z :=
  utf8_encode (js_join [NL] (stringify <$> records) ++ [NL]).

Definition compact : J unit :=
  es ← egets cj_entries;
  records ← compact_records es;
  f ← next_fault;
  match f with
  | WriteFails _ | RenameFails => ethrow (js "rewrite failed")
  | WriteOk =>
      emodify (set_file (Some (compacted_bytes records)));;
      emodify (set_count (Z.of_nat (length records)))
  | SyncFails => emodify (set_file (Some (compacted_bytes records)));; ethrow (js "fsync failed")
  end.

Definition begin (clientId commandId commandType : jsstr) : J CommandJournalBeginResult :=
  let key := createCommandIdempotencyKey clientId commandId in
  existing ← egets (lookup clientId commandId);
  match existing with
  | Some r => mret r
  | None =>
      t ← timestamp;
      let received := received_record key clientId commandId commandType t in
      append received;;
      emodify (λ s, set_entries (jm_set (cj_entries s) key (MkEntry received None)) s);;
      mret BeginNew
  end.

Definition recordResult (clientId commandId : jsstr) (response : json) : J unit :=
  let key := createCommandIdempotencyKey clientId commandId in
  entry ← egets (λ s, jm_get (cj_entries s) key);
  match entry with
  | None => ethrow (js "Cannot record a result before command receipt: " ++ key)
  | Some e =>
      t ← timestamp;
      append (result_record key response t);;
      emodify (λ s, set_entries (jm_set (cj_entries s) key (MkEntry (je_received e) (Some response))) s);;
      n ← egets cj_recordCount;
      ewhen (COMPACT_AFTER_RECORDS <=? n) compact
  end.

Definition acknowledge (clientId commandId : jsstr) : J unit :=
  let key := createCommandIdempotencyKey clientId commandId in
  known ← egets (λ s, jm_has (cj_entries s) key);
  if negb known then mret tt else
  t ← timestamp;
  append (acknowledged_record key t);;
  emodify (λ s, set_entries (jm_delete (cj_entries s) key) s);;
  s ← eget;
  ewhen (bool_decide (cj_entries s = []) || (COMPACT_AFTER_RECORDS <=? cj_recordCount s)) compact.
End journal.

(** ** Loading *)

(** One line of [load]: the entries and the number of records. *)
Definition load_record (st : list (jsstr * JournalEntry) * Z) (record : json)
    : result jsstr (list (jsstr * JournalEntry) * Z) :=
  version ← prop record "version";
  key ← prop record "key";
  if negb (bool_decide (version = Some (JNum 1))) || negb (is_str key) then Ok st else
  match key with
  | Some (JStr key) =>
      let '(es, n) := st in
      let n := n + 1 in
      type ← prop record "type";
      clientId ← prop record "clientId";
      commandId ← prop record "commandId";
      commandType ← prop record "commandType";
      if bool_decide (type = Some (JStr (js "received"))) then
        if is_str clientId && is_str commandId && is_str commandType
        then Ok (jm_set es key (MkEntry record None), n) else Ok (es, n)
      else if bool_decide (type = Some (JStr (js "acknowledged"))) then Ok (jm_delete es key, n)
      else
        response ← prop record "response";
        match jm_get es key, response with
        | Some e, Some (JObj fields) =>
            if bool_decide (jm_get fields (js "type") = Some (JStr (js "response")))
            then Ok (jm_set es key (MkEntry (je_received e) (Some (JObj fields))), n) else Ok (es, n)
        | Some _, Some JNull => Ok (es, n)
        | _, _ => Ok (es, n)
        end
  | _ => Ok st
  end.

Definition load_records (records : list json) : result jsstr (list (jsstr * JournalEntry) * Z) :=
  foldl (λ acc r, st ← acc; load_record st r) (Ok ([], 0)) records.

(** The constructor, on a file. *)
Definition load (file : option (list Z)) (ticks : nat) (faults : list fault)
    : result jsstr CommandRecoveryJournal :=
  match file with
  | None => Ok (MkJournal [] 0 None ticks faults)
  | Some bytes =>
      st ← load_records (read_lines (utf8_decode bytes));
      Ok (MkJournal st.1 st.2 (Some bytes) ticks faults)
  end.
