(* ===== verification/CommandJournalSpec.v ===== *)
(** * What the command journal guarantees

    The journal refines a map from commands to their state, whatever restarts
    happen in between; a failed write at the end of a run leaves the journal of
    before or after the failed operation; a torn line that is not at the end of
    the file, however, hides the record that follows it. *)

From stdpp Require Import gmap.
From S2P Require Import Prelude.
From S2P Require Import JsMap.
From S2P Require Import JsString.
From S2P Require Import Json.
From S2P Require Import JsonParse.
From S2P Require Import JsonlFile.
From S2P Require Import Eff.
From S2P Require Import CommandJournal.

(** ** Keys and records *)

Lemma key_inj c m c' m' : units c → units m → units c' → units m' →
  createCommandIdempotencyKey c m = createCommandIdempotencyKey c' m' → c = c' ∧ m = m'.
Proof.
  intros Hc Hm Hc' Hm' E. unfold createCommandIdempotencyKey in E.
  apply (f_equal parse) in E. rewrite !parse_stringify in E; [by injection E| |];
    by apply json_ok_arr; repeat constructor.
Qed.

Lemma key_units c m : units c → units m → units (createCommandIdempotencyKey c m).
Proof.
  intros Hc Hm. assert (is_text (createCommandIdempotencyKey c m)) as (cps&Hcps&->)
    by (apply stringify_text; repeat split; done).
  unfold units, of_code_points. induction Hcps as [|x cps Hx _ IH]; [constructor|]. cbn.
  apply Forall_app_2; [|done]. unfold units_of_cp, is_scalar, is_unit in *.
  destruct (Z.ltb_spec x 0x10000); repeat constructor; try lia;
    pose proof (Z.mod_pos_bound (x - 0x10000) 0x400); try lia;
    assert (0 <= (x - 0x10000) / 0x400 < 0x400)
      by (split; [apply Z.div_pos|apply Z.div_lt_upper_bound]; lia); lia.
Qed.

(** A response the supervisor records. *)
Definition response_ok (r : json) : Prop :=
  json_ok r ∧ ∃ fs, r = JObj fs ∧ jm_get fs (js "type") = Some (JStr (js "response")).

(** The records the journal writes are objects with distinct names. *)
Ltac record_tac :=
  split; [apply json_ok_obj; split;
    [apply (bool_decide_unpack (NoDup _)); vm_compute; exact I|
     repeat (apply Forall_cons; split; [split; [by apply unitsb_spec|]|]); try apply Forall_nil;
     try done; split; cbn; try done; try by apply unitsb_spec]
    |by eexists].

Lemma received_ok key c m t ts : units key → units c → units m → units t → units ts →
  record_ok (received_record key c m t ts).
Proof. intros. record_tac. Qed.

Lemma result_ok key r ts : units key → response_ok r → units ts → record_ok (result_record key r ts).
Proof. intros ? [[? ?] _] ?. record_tac. Qed.

Lemma acknowledged_ok key ts : units key → units ts → record_ok (acknowledged_record key ts).
Proof. intros. record_tac. Qed.

Lemma load_received es n key c m t ts :
  load_record (es, n) (received_record key c m t ts) =
  Ok (jm_set es key (MkEntry (received_record key c m t ts) None), n + 1).
Proof. reflexivity. Qed.

Lemma load_acknowledged es n key ts :
  load_record (es, n) (acknowledged_record key ts) = Ok (jm_delete es key, n + 1).
Proof. reflexivity. Qed.

Lemma load_result es n key r ts e : response_ok r → jm_get es key = Some e →
  load_record (es, n) (result_record key r ts) =
  Ok (jm_set es key (MkEntry (je_received e) (Some r)), n + 1).
Proof.
  intros [_ (fs&->&Ht)] He. unfold load_record.
  change (prop (result_record key (JObj fs) ts) "version") with (Ok (E:=jsstr) (Some (JNum 1))).
  change (prop (result_record key (JObj fs) ts) "key") with (Ok (E:=jsstr) (Some (JStr key))).
  change (prop (result_record key (JObj fs) ts) "type") with (Ok (E:=jsstr) (Some (JStr (js "result")))).
  change (prop (result_record key (JObj fs) ts) "clientId") with (Ok (E:=jsstr) (None : option json)).
  change (prop (result_record key (JObj fs) ts) "commandId") with (Ok (E:=jsstr) (None : option json)).
  change (prop (result_record key (JObj fs) ts) "commandType") with (Ok (E:=jsstr) (None : option json)).
  change (prop (result_record key (JObj fs) ts) "response") with (Ok (E:=jsstr) (Some (JObj fs))).
  cbn [mbind result_bind is_str negb orb]. rewrite He.
  rewrite (bool_decide_true (jm_get fs _ = _)) by done. reflexivity.
Qed.

(** ** The file and the entries agree *)

Definition ROk (st : list (jsstr * JournalEntry) * Z) : result jsstr (list (jsstr * JournalEntry) * Z) := Ok st.

Definition replay_from (st : list (jsstr * JournalEntry) * Z) (rs : list json) :=
  foldl (λ acc r, st ← acc; load_record st r) (ROk st) rs.

Lemma load_throw rs e : foldl (λ acc r, st ← acc; load_record st r) (Throw e) rs = Throw e.
Proof. by induction rs. Qed.

Lemma replay_app st a b : replay_from st (a ++ b) = st ← replay_from st a; replay_from st b.
Proof.
  unfold replay_from, ROk. rewrite foldl_app. destruct (foldl _ (Ok st) a) as [st'|e]; cbn; [done|].
  apply load_throw.
Qed.

Lemma replay_cons st r rs : replay_from st (r :: rs) = st ← load_record st r; replay_from st rs.
Proof.
  unfold replay_from, ROk. cbn. destruct (load_record st r); [done|]. apply load_throw.
Qed.

(** An entry of a command: what its receipt and its response say. *)
Definition entry_ok (ke : jsstr * JournalEntry) : Prop :=
  ∃ c m t ts, units c ∧ units m ∧ units t ∧ units ts ∧ ke.1 = createCommandIdempotencyKey c m ∧
    je_received ke.2 = received_record ke.1 c m t ts ∧ ∀ r, je_response ke.2 = Some r → response_ok r.

Record agrees (s : CommandRecoveryJournal) : Prop := Agrees {
  ag_lines : ∃ ls, lines_ok ls ∧ default [] (cj_file s) = lines_bytes ls ∧
    replay_from ([], 0) (omap id ls) = Ok (cj_entries s, cj_recordCount s);
  ag_keys : NoDup (cj_entries s).*1;
  ag_entries : Forall entry_ok (cj_entries s)
}.

Lemma agrees_load s ticks faults : agrees s →
  ∃ s', load (cj_file s) ticks faults = Ok s' ∧ cj_entries s' = cj_entries s ∧
    cj_recordCount s' = cj_recordCount s ∧ cj_file s' = cj_file s ∧ cj_ticks s' = ticks ∧ cj_faults s' = faults.
Proof.
  intros [(ls&Hls&Hf&Hr) _ _]. unfold load. destruct (cj_file s) as [bytes|]; cbn in Hf.
  - subst bytes. rewrite read_lines_clean by done. unfold replay_from, ROk in Hr. unfold load_records.
    rewrite Hr. by eexists.
  - destruct ls as [|l ls].
    + injection Hr as <- <-. by eexists.
    + symmetry in Hf. unfold lines_bytes in Hf. cbn in Hf. apply app_nil in Hf as [Hf _].
      destruct l as [r|]; [|done]. exfalso. cbn in Hf. apply Forall_inv in Hls.
      rewrite line_bytes_eq in Hf by by apply Hls. by apply app_nil in Hf as [_ ?].
Qed.

(** Appending a record to the file. *)
Lemma lines_snoc ls r : lines_bytes ls ++ line_bytes r = lines_bytes (ls ++ [Some r]).
Proof. rewrite lines_bytes_app. unfold lines_bytes at 3. cbn. by rewrite app_nil_r. Qed.

Lemma agrees_append s r es n ticks faults : agrees s → record_ok r →
  load_record (cj_entries s, cj_recordCount s) r = Ok (es, n) → NoDup es.*1 → Forall entry_ok es →
  agrees (MkJournal es n (Some (default [] (cj_file s) ++ line_bytes r)) ticks faults).
Proof.
  intros [(ls&Hls&Hf&Hr) _ _] Hok Hload HND Hes. split; [|done..]. exists (ls ++ [Some r]).
  split_and!.
  - apply lines_ok_app; [done|]. apply Forall_singleton. by intros ? [= <-].
  - cbn. by rewrite Hf, lines_snoc.
  - rewrite omap_app, replay_app, Hr. cbn [mbind result_bind omap list_omap id]. rewrite replay_cons, Hload. done.
Qed.

(** Entries survive updates. *)
Lemma entries_set es k e : NoDup es.*1 → Forall entry_ok es → entry_ok (k, e) →
  NoDup (jm_set es k e).*1 ∧ Forall entry_ok (jm_set es k e).
Proof.
  intros HND Hes He. pose proof (jm_set_NoDup es k e HND) as HND'. split; [exact HND'|].
  rewrite Forall_forall in Hes |- *. intros [k' e'] Hin.
  apply (elem_jm_get _ _ _ HND') in Hin. rewrite jm_get_set in Hin. case_decide; simplify_eq; [done|].
  apply Hes. by apply jm_get_elem.
Qed.

Lemma entries_delete es k : NoDup es.*1 → Forall entry_ok es →
  NoDup (jm_delete es k).*1 ∧ Forall entry_ok (jm_delete es k).
Proof.
  intros HND Hes. split; [by apply (jm_delete_NoDup es)|]. unfold jm_delete.
  rewrite Forall_forall in Hes |- *. intros x [_ Hx]%list_elem_of_filter. by apply Hes.
Qed.

(** ** Compaction *)

Section journal.
Context (now : nat → jsstr) (now_units : ∀ n, units (now n)).

#[local] Abbreviation J := (eff CommandRecoveryJournal jsstr).

Definition with_ticks (n : nat) (s : CommandRecoveryJournal) : CommandRecoveryJournal :=
  MkJournal (cj_entries s) (cj_recordCount s) (cj_file s) n (cj_faults s).

(** What [compact] writes for one entry replays to that entry. *)
Definition entry_records (key : jsstr) (e : JournalEntry) (ts : jsstr) : list json :=
  je_received e :: match je_response e with Some r => [result_record key r ts] | None => [] end.

Lemma entry_records_ok key e ts : entry_ok (key, e) → units ts → Forall record_ok (entry_records key e ts).
Proof.
  intros (c&m&t&ts'&Hc&Hm&Ht&Hts&Hk&Hrec&Hresp) Hts'. cbn in *. unfold entry_records.
  assert (units key) by (rewrite Hk; by apply key_units).
  constructor; [rewrite Hrec; by apply received_ok|]. destruct (je_response e); [|constructor].
  apply Forall_singleton, result_ok; auto.
Qed.

Lemma replay_entry acc n key e ts : entry_ok (key, e) → key ∉ acc.*1 →
  replay_from (acc, n) (entry_records key e ts) =
    Ok (acc ++ [(key, e)], n + Z.of_nat (length (entry_records key e ts))).
Proof.
  intros (c&m&t&ts'&Hc&Hm&Ht&Hts&Hk&Hrec&Hresp) Hnew. cbn [fst snd] in *. unfold entry_records.
  rewrite replay_cons, Hrec, load_received. cbn [mbind result_bind].
  destruct e as [rec [r|]]; cbn [je_received je_response] in *; subst rec.
  - rewrite replay_cons, (load_result _ _ _ _ _ (MkEntry (received_record key c m t ts') None))
      by (by apply Hresp || apply jm_get_set_eq). cbn [mbind result_bind je_received].
    rewrite jm_set_set, jm_set_new by done. unfold replay_from, ROk. cbn. do 2 f_equal. lia.
  - rewrite jm_set_new by done. done.
Qed.

(** The records of a list of entries replay to the entries. *)
Lemma compact_records_spec es : ∀ s, Forall entry_ok es →
  ∃ rs n, compact_records now es s = (with_ticks n s, Ok rs) ∧ Forall record_ok rs ∧
    (es = [] ↔ rs = []) ∧
    ∀ acc k, NoDup (acc ++ es).*1 →
      replay_from (acc, k) rs = Ok (acc ++ es, k + Z.of_nat (length rs)).
Proof.
  induction es as [|[key e] es IH]; intros s Hes.
  - exists [], (cj_ticks s). split_and!; [by destruct s|done|done|]. intros acc k _.
    rewrite app_nil_r. unfold replay_from, ROk. cbn. do 2 f_equal. lia.
  - apply Forall_cons in Hes as [He Hes]. set (ts := now (cj_ticks s)).
    set (s1 := match je_response e with Some _ => with_ticks (S (cj_ticks s)) s | None => s end).
    destruct (IH s1 Hes) as (rs&n&E&Hrs&_&Hreplay).
    exists (entry_records key e ts ++ rs), n. split_and!.
    + cbn [compact_records]. unfold mbind, eff_bind, entry_records. subst s1. destruct (je_response e).
      * unfold timestamp. cbn [mret eff_ret]. unfold mret, eff_ret.
        change (MkJournal _ _ _ (S (cj_ticks s)) _) with (with_ticks (S (cj_ticks s)) s). by rewrite E.
      * unfold mret, eff_ret. by rewrite E.
    + apply Forall_app_2; [apply entry_records_ok; [done|apply now_units]|done].
    + by split.
    + intros acc k HND. rewrite replay_app, replay_entry; [|done|].
      * cbn [mbind result_bind]. rewrite Hreplay by by rewrite <-app_assoc.
        rewrite <-app_assoc, length_app. do 2 f_equal. lia.
      * rewrite fmap_app in HND. apply NoDup_app in HND as (_&Hd&_). intros Hin. apply (Hd _ Hin). left.
Qed.

Lemma compacted_lines rs : Forall record_ok rs → ∃ ls, lines_ok ls ∧ compacted_bytes rs = lines_bytes ls ∧
  omap id ls = rs.
Proof.
  intros Hrs. destruct rs as [|r rs].
  { exists [None]. split_and!; [by apply Forall_singleton|done|done]. }
  exists (Some <$> (r :: rs)). split_and!.
  - apply Forall_fmap, (Forall_impl _ _ _ Hrs). intros r' Hr ? [= <-]. done.
  - unfold compacted_bytes, lines_bytes. revert r Hrs. induction rs as [|r' rs IH]; intros r Hrs.
    + cbn. by rewrite app_nil_r.
    + pose proof (Forall_inv Hrs) as [[Hr _] _]. apply Forall_inv_tail in Hrs.
      rewrite fmap_cons, js_join_cons by done. rewrite <-!app_assoc.
      rewrite app_assoc, utf8_encode_app.
      * rewrite (IH r') by done. reflexivity.
      * apply is_text_app; [by apply stringify_text|by apply is_text_asciib].
  - clear. induction (r :: rs) as [|x l IH]; [done|]. cbn. by f_equal.
Qed.
(** ** What an operation leaves behind

    A file recovers to one of two lists of entries. *)
Definition recovers (file : option (list Z)) (old new : list (jsstr * JournalEntry)) : Prop :=
  ∃ es n, load_records (read_lines (utf8_decode (default [] file))) = Ok (es, n) ∧ (es = old ∨ es = new).

Lemma agrees_recovers s old : agrees s → recovers (cj_file s) old (cj_entries s).
Proof.
  intros [(ls&Hls&Hf&Hr) _ _]. exists (cj_entries s), (cj_recordCount s). rewrite Hf.
  rewrite read_lines_clean by done. split; [exact Hr|by right].
Qed.

(** An operation that takes the entries of [s] to [new], or fails. *)
Definition commits {A} (s : CommandRecoveryJournal) (new : list (jsstr * JournalEntry))
    (res : CommandRecoveryJournal * result jsstr A) : Prop :=
  match res with
  | (s', Ok _) => agrees s' ∧ cj_entries s' = new ∧ (cj_faults s = [] → cj_faults s' = [])
  | (s', Throw _) => recovers (cj_file s') (cj_entries s) new ∧ cj_faults s ≠ []
  end.

Lemma commit_append s r g : agrees s → record_ok r →
  let es := g (cj_entries s) in
  load_record (cj_entries s, cj_recordCount s) r = Ok (es, cj_recordCount s + 1) →
  NoDup es.*1 → Forall entry_ok es →
  commits s es ((append r;; emodify (λ s, set_entries (g (cj_entries s)) s)) s).
Proof.
  intros Hag Hr es Hload HND Hes. unfold append, next_fault, egets, emodify, ethrow, mbind, eff_bind.
  pose proof Hag as [(ls&Hls&Hf&Hrep) _ _].
  assert (agrees (MkJournal es (cj_recordCount s + 1) (Some (default [] (cj_file s) ++ line_bytes r))
    (cj_ticks s) (tail (cj_faults s)))) as Hnew by (by apply agrees_append).
  assert (recovers (Some (default [] (cj_file s) ++ line_bytes r)) (cj_entries s) es) as Hrec
    by apply (agrees_recovers _ _ Hnew).
  destruct (cj_faults s) as [|f fs] eqn:Hfaults; cbn [head default from_option tail].
  { cbn. rewrite Hfaults. split_and!; [exact Hnew|done|done]. }
  unfold id. destruct f as [|k| |]; cbn; rewrite ?Hfaults; split_and!; try done.
  destruct (decide (length (line_bytes r) <= k)%nat) as [Hk|Hk]; [by rewrite take_ge|].
  change (from_option _ [] (cj_file s)) with (default [] (cj_file s)). rewrite Hf.
  unfold recovers. change (default [] (Some ?x)) with x. rewrite read_lines_app by done.
  assert (line_bytes r = take k (line_bytes r) ++ drop k (line_bytes r)) as E by by rewrite take_drop.
  unfold load_records. change (foldl _ _ ?l) with (replay_from ([], 0) l). rewrite replay_app, Hrep.
  cbn [mbind result_bind].
  destruct (read_lines_torn r _ _ Hr E) as [->|[_ ->]].
  - intros Hd%(f_equal length). rewrite length_drop in Hd. cbn in Hd. lia.
  - exists (cj_entries s), (cj_recordCount s). split; [done|by left].
  - exists es, (cj_recordCount s + 1). rewrite replay_cons, Hload. split; [done|by right].
Qed.

Lemma commit_compact s old : agrees s → commits (MkJournal old (cj_recordCount s) (cj_file s) (cj_ticks s) (cj_faults s))
  (cj_entries s) (compact now s).
Proof.
  intros Hag. unfold compact, egets, emodify, ethrow, mbind, eff_bind.
  destruct (compact_records_spec (cj_entries s) s (ag_entries s Hag)) as (rs&n&->&Hrs&_&Hrep).
  destruct (compacted_lines rs Hrs) as (ls&Hls&Hbytes&Hid).
  assert (agrees (MkJournal (cj_entries s) (Z.of_nat (length rs)) (Some (compacted_bytes rs)) n
    (tail (cj_faults s)))) as Hnew.
  { split; [|apply Hag..]. exists ls. split_and!; [done|done|]. rewrite Hid.
    rewrite (Hrep [] 0) by apply Hag. done. }
  unfold next_fault. cbn [cj_faults with_ticks].
  destruct (cj_faults s) as [|f fs] eqn:Hfaults; cbn [head default from_option tail].
  { split_and!; [exact Hnew|done|done]. }
  pose proof (agrees_recovers _ old Hag). pose proof (agrees_recovers _ old Hnew).
  unfold id. destruct f; cbn; rewrite ?Hfaults; split_and!; try done.
Qed.
(** Running two operations that commit one after the other. *)
Lemma commits_then {A B} s mid new res (k : A → J B) :
  commits s mid res →
  (∀ s' a, res = (s', Ok a) → agrees s' → cj_entries s' = mid →
     commits (MkJournal (cj_entries s) (cj_recordCount s') (cj_file s') (cj_ticks s') (cj_faults s')) new (k a s')) →
  mid = new →
  commits s new (match res with (s', Ok a) => k a s' | (s', Throw e) => (s', Throw e) end).
Proof.
  destruct res as [s' [a|e]]; cbn; intros Hres Hk ->; [|done]. destruct Hres as (Hag&He&Hf).
  specialize (Hk s' a eq_refl Hag He). destruct (k a s') as [s2 [b|e]]; cbn in *.
  - destruct Hk as (?&?&Hf2). split_and!; [done|done|]. auto.
  - destruct Hk as [Hr Hf2]. split; [done|]. intros E. auto.
Qed.

Lemma commits_ret {A B} s new (res : CommandRecoveryJournal * result jsstr A) (b : B) :
  commits s new res →
  commits s new (match res with (s', Ok _) => (s', Ok b) | (s', Throw e) => (s', Throw e) end).
Proof. by destruct res as [s' [a|e]]. Qed.

Inductive op :=
| OpBegin (clientId commandId commandType : jsstr)
| OpResult (clientId commandId : jsstr) (response : json)
| OpAcknowledge (clientId commandId : jsstr)
| OpRestart.

Definition op_ok (o : op) : Prop :=
  match o with
  | OpBegin c m t => units c ∧ units m ∧ units t
  | OpResult c m r => units c ∧ units m ∧ response_ok r
  | OpAcknowledge c m => units c ∧ units m
  | OpRestart => True
  end.

(** The process stops and a new one opens the file. *)
Definition restart : J unit := λ s,
  match load (cj_file s) (cj_ticks s) (cj_faults s) with
  | Ok s' => (s', Ok tt)
  | Throw e => (s, Throw e)
  end.

Definition step (o : op) : J (option CommandJournalBeginResult) :=
  match o with
  | OpBegin c m t => Some <$> begin now c m t
  | OpResult c m r => recordResult now c m r;; mret None
  | OpAcknowledge c m => acknowledge now c m;; mret None
  | OpRestart => restart;; mret None
  end.

(** The specification: per command, nothing, pending, or its response. *)
Abbreviation commands := (gmap (jsstr * jsstr) (option json)).

Definition spec_step (o : op) (A : commands) : commands * result jsstr (option CommandJournalBeginResult) :=
  match o with
  | OpBegin c m _ =>
      match A !! (c, m) with
      | Some (Some r) => (A, Ok (Some (BeginComplete r)))
      | Some None => (A, Ok (Some BeginPending))
      | None => (<[(c, m) := None]> A, Ok (Some BeginNew))
      end
  | OpResult c m r =>
      match A !! (c, m) with
      | Some _ => (<[(c, m) := Some r]> A, Ok None)
      | None => (A, Throw (js "Cannot record a result before command receipt: " ++ createCommandIdempotencyKey c m))
      end
  | OpAcknowledge c m => (delete (c, m) A, Ok None)
  | OpRestart => (A, Ok None)
  end.

Definition represents (es : list (jsstr * JournalEntry)) (A : commands) : Prop :=
  ∀ c m, units c → units m → je_response <$> jm_get es (createCommandIdempotencyKey c m) = A !! (c, m).

Lemma represents_set es A c m e : represents es A → units c → units m →
  represents (jm_set es (createCommandIdempotencyKey c m) e) (<[(c, m) := je_response e]> A).
Proof.
  intros HR Hc Hm c' m' Hc' Hm'. rewrite jm_get_set. case_decide as Hk.
  - apply key_inj in Hk as [-> ->]; [|done..]. by rewrite lookup_insert_eq.
  - rewrite lookup_insert_ne by (intros [= -> ->]; done). by apply HR.
Qed.

Lemma represents_delete es A c m : represents es A → units c → units m →
  represents (jm_delete es (createCommandIdempotencyKey c m)) (delete (c, m) A).
Proof.
  intros HR Hc Hm c' m' Hc' Hm'. rewrite jm_get_delete. case_decide as Hk.
  - apply key_inj in Hk as [-> ->]; [|done..]. by rewrite lookup_delete_eq.
  - rewrite lookup_delete_ne by (intros [= -> ->]; done). by apply HR.
Qed.
Lemma agrees_ticks n s : agrees s → agrees (with_ticks n s).
Proof. intros [Hl Hk He]. by split. Qed.

Lemma append_then {B} r g (k : J B) s :
  (append r;; emodify (λ s, set_entries (g (cj_entries s)) s);; k) s =
  match (append r;; emodify (λ s, set_entries (g (cj_entries s)) s)) s with
  | (s', Ok _) => k s'
  | (s', Throw e) => (s', Throw e)
  end.
Proof. unfold mbind, eff_bind. by destruct (append r s) as [s' [[]|]]. Qed.

(** The three operations, when they write. *)
Lemma commit_begin s c m t : agrees s → units c → units m → units t →
  let key := createCommandIdempotencyKey c m in
  jm_get (cj_entries s) key = None →
  ∃ e, je_response e = None ∧ commits s (jm_set (cj_entries s) key e) (begin now c m t s) ∧
    (∀ s' v, begin now c m t s = (s', Ok v) → v = BeginNew).
Proof.
  intros Hag Hc Hm Ht key Hnone. set (ts := now (cj_ticks s)). set (rec := received_record key c m t ts).
  assert (units key) as Hkey by by apply key_units.
  exists (MkEntry rec None). split; [done|].
  assert (begin now c m t s = match (append rec;;
      emodify (λ s, set_entries (jm_set (cj_entries s) key (MkEntry rec None)) s)) (with_ticks (S (cj_ticks s)) s) with
    | (s', Ok _) => (s', Ok BeginNew) | (s', Throw e) => (s', Throw e) end) as ->.
  { unfold begin. fold key. unfold mbind at 1, eff_bind at 1, egets. unfold lookup. fold key. rewrite Hnone.
    unfold mbind at 1, eff_bind at 1, timestamp.
    exact (append_then rec (λ es, jm_set es key (MkEntry rec None)) (mret BeginNew) (with_ticks (S (cj_ticks s)) s)). }
  split.
  - apply commits_ret.
    apply (commit_append (with_ticks (S (cj_ticks s)) s) rec (λ es, jm_set es key (MkEntry rec None))).
    + by apply agrees_ticks.
    + by apply received_ok; try apply now_units.
    + apply load_received.
    + apply entries_set; [apply Hag..|]. exists c, m, t, ts. split_and!; try done; apply now_units.
    + apply entries_set; [apply Hag..|]. exists c, m, t, ts. split_and!; try done; apply now_units.
  - intros s' v. destruct ((append rec;; _) _) as [s2 [[]|]]; [by intros [= _ <-]|done].
Qed.
(** A write followed by a compaction under a condition. *)
Definition write_compact (r : json) (g : list (jsstr * JournalEntry) → list (jsstr * JournalEntry))
    (cond : CommandRecoveryJournal → bool) : J unit :=
  append r;;
  emodify (λ s, set_entries (g (cj_entries s)) s);;
  b ← egets cond; ewhen b (compact now).

Lemma commit_write_compact s r g cond : agrees s → record_ok r →
  let es := g (cj_entries s) in
  load_record (cj_entries s, cj_recordCount s) r = Ok (es, cj_recordCount s + 1) →
  NoDup es.*1 → Forall entry_ok es → commits s es (write_compact r g cond s).
Proof.
  intros Hag Hr es Hload HND Hes. unfold write_compact.
  rewrite (append_then r g (b ← egets cond; ewhen b (compact now)) s).
  eapply commits_then; [by apply commit_append| |done].
  intros s' [] _ Hag' He. unfold egets, ewhen, mbind, eff_bind. destruct (cond s').
  - pose proof (commit_compact s' (cj_entries s) Hag') as Hcc. rewrite He in Hcc. exact Hcc.
  - by split_and!.
Qed.

Lemma recordResult_eq s c m r e :
  let key := createCommandIdempotencyKey c m in
  jm_get (cj_entries s) key = Some e →
  recordResult now c m r s =
    write_compact (result_record key r (now (cj_ticks s)))
      (λ es, jm_set es key (MkEntry (je_received e) (Some r)))
      (λ s, COMPACT_AFTER_RECORDS <=? cj_recordCount s) (with_ticks (S (cj_ticks s)) s).
Proof.
  intros key He. unfold recordResult. fold key. unfold mbind at 1, eff_bind at 1, egets at 1. rewrite He. reflexivity.
Qed.

Lemma acknowledge_eq s c m :
  let key := createCommandIdempotencyKey c m in
  jm_has (cj_entries s) key = true →
  acknowledge now c m s =
    write_compact (acknowledged_record key (now (cj_ticks s))) (λ es, jm_delete es key)
      (λ s, bool_decide (cj_entries s = []) || (COMPACT_AFTER_RECORDS <=? cj_recordCount s))
      (with_ticks (S (cj_ticks s)) s).
Proof.
  intros key He. unfold acknowledge. fold key. unfold mbind at 1, eff_bind at 1, egets at 1. rewrite He. reflexivity.
Qed.

Lemma commit_result s c m r e : agrees s → units c → units m → response_ok r →
  let key := createCommandIdempotencyKey c m in
  jm_get (cj_entries s) key = Some e →
  commits s (jm_set (cj_entries s) key (MkEntry (je_received e) (Some r))) (recordResult now c m r s).
Proof.
  intros Hag Hc Hm Hr key He. rewrite (recordResult_eq _ _ _ _ _ He). fold key.
  assert (units key) by by apply key_units.
  assert (entry_ok (key, MkEntry (je_received e) (Some r))) as Heok.
  { pose proof (ag_entries s Hag) as Hes. rewrite Forall_forall in Hes.
    destruct (Hes _ (jm_get_elem _ _ _ He)) as (c'&m'&t&ts&?&?&?&?&?&?&_).
    exists c', m', t, ts. split_and!; try done. by intros ? [= <-]. }
  apply (commit_write_compact (with_ticks (S (cj_ticks s)) s)).
  - by apply agrees_ticks.
  - apply result_ok; [done|done|apply now_units].
  - by apply load_result.
  - by apply entries_set; [apply Hag..|].
  - by apply entries_set; [apply Hag..|].
Qed.

Lemma commit_acknowledge s c m : agrees s → units c → units m →
  let key := createCommandIdempotencyKey c m in
  jm_has (cj_entries s) key = true →
  commits s (jm_delete (cj_entries s) key) (acknowledge now c m s).
Proof.
  intros Hag Hc Hm key He. rewrite acknowledge_eq by done. fold key.
  assert (units key) by by apply key_units.
  apply (commit_write_compact (with_ticks (S (cj_ticks s)) s)).
  - by apply agrees_ticks.
  - apply acknowledged_ok; [done|apply now_units].
  - apply load_acknowledged.
  - by apply entries_delete; apply Hag.
  - by apply entries_delete; apply Hag.
Qed.

(** ** Refinement *)

(** What one operation does, against the specification. *)
Definition refines_step (s : CommandRecoveryJournal) (A : commands) (o : op)
    (res : CommandRecoveryJournal * result jsstr (option CommandJournalBeginResult)) : Prop :=
  let '(A', r) := spec_step o A in
  match res with
  | (s', Ok v) => r = Ok v ∧ agrees s' ∧ represents (cj_entries s') A' ∧ (cj_faults s = [] → cj_faults s' = [])
  | (s', Throw e) =>
      (r = Throw e ∧ s' = s ∧ A' = A) ∨
      (cj_faults s ≠ [] ∧ ∃ es n, load_records (read_lines (utf8_decode (default [] (cj_file s')))) = Ok (es, n) ∧
        (represents es A ∨ represents es A'))
  end.

Lemma commits_refines s A o new (v : option CommandJournalBeginResult) A' res :
  spec_step o A = (A', Ok v) → commits s new res → represents (cj_entries s) A → represents new A' →
  (∀ s' w, res = (s', Ok w) → w = v) → refines_step s A o res.
Proof.
  intros Hspec Hc HR HR' Hv. unfold refines_step. rewrite Hspec. destruct res as [s' [w|e]]; cbn in Hc.
  - destruct Hc as (?&->&?). rewrite (Hv s' w eq_refl). by split_and!.
  - right. destruct Hc as ((es&n&Hl&[->| ->])&Hf); (split; [done|]); eexists _, _; (split; [exact Hl|]); auto.
Qed.
Lemma represents_get es A c m : represents es A → units c → units m →
  match jm_get es (createCommandIdempotencyKey c m) with
  | Some e => A !! (c, m) = Some (je_response e)
  | None => A !! (c, m) = None
  end.
Proof. intros HR Hc Hm. rewrite <-(HR c m Hc Hm). by destruct (jm_get _ _). Qed.

Lemma step_refines s A o : agrees s → op_ok o → represents (cj_entries s) A →
  refines_step s A o (step o s).
Proof.
  intros Hag Hok HR. destruct o as [c m t|c m r|c m|]; cbn [op_ok] in Hok.
  - destruct Hok as (Hc&Hm&Ht). pose proof (represents_get _ _ c m HR Hc Hm) as HA.
    unfold step, fmap, eff_fmap. destruct (jm_get (cj_entries s) (createCommandIdempotencyKey c m)) as [e|] eqn:He.
    + unfold begin, egets, lookup, mbind, eff_bind. rewrite He. unfold refines_step, spec_step. rewrite HA.
      destruct (je_response e); by split_and!.
    + destruct (commit_begin s c m t Hag Hc Hm Ht He) as (e&Hr&Hcom&Hv).
      apply (commits_refines s A (OpBegin c m t) (jm_set (cj_entries s) (createCommandIdempotencyKey c m) e)
        (Some BeginNew) (<[(c, m) := None]> A)); [cbn; by rewrite HA| |done| |].
      * destruct (begin now c m t s) as [s' [v|x]]; exact Hcom.
      * rewrite <-Hr. by apply represents_set.
      * intros s' w. destruct (begin now c m t s) as [s2 [v|x]] eqn:Hb; [|done].
        intros [= <- <-]. by rewrite (Hv s2 v).
  - destruct Hok as (Hc&Hm&Hr). pose proof (represents_get _ _ c m HR Hc Hm) as HA.
    unfold step, mbind at 1, eff_bind at 1.
    destruct (jm_get (cj_entries s) (createCommandIdempotencyKey c m)) as [e|] eqn:He.
    + pose proof (commit_result s c m r e Hag Hc Hm Hr He) as Hcom.
      eapply (commits_refines s A (OpResult c m r) _ None (<[(c, m) := Some r]> A)); [cbn; by rewrite HA| |done| |].
      * destruct (recordResult now c m r s) as [s' [[]|x]]; exact Hcom.
      * by apply (represents_set _ _ _ _ (MkEntry (je_received e) (Some r))).
      * intros s' w. by destruct (recordResult now c m r s) as [s2 [[]|x]]; [intros [= _ <-]|].
    + unfold recordResult, mbind, eff_bind, egets. rewrite He. unfold refines_step, spec_step. rewrite HA. by left.
  - destruct Hok as (Hc&Hm). pose proof (represents_get _ _ c m HR Hc Hm) as HA.
    unfold step, mbind at 1, eff_bind at 1.
    destruct (jm_has (cj_entries s) (createCommandIdempotencyKey c m)) eqn:Hhas.
    + pose proof (commit_acknowledge s c m Hag Hc Hm Hhas) as Hcom.
      eapply (commits_refines s A (OpAcknowledge c m) _ None (delete (c, m) A)); [done| |done| |].
      * destruct (acknowledge now c m s) as [s' [[]|x]]; exact Hcom.
      * by apply represents_delete.
      * intros s' w. by destruct (acknowledge now c m s) as [s2 [[]|x]]; [intros [= _ <-]|].
    + unfold acknowledge, mbind, eff_bind, egets. rewrite Hhas. unfold refines_step, spec_step. cbn [negb].
      assert (jm_get (cj_entries s) (createCommandIdempotencyKey c m) = None) as Hn.
      { apply eq_None_not_Some. unfold jm_has in Hhas. by apply bool_decide_eq_false in Hhas. }
      rewrite Hn in HA. split_and!; [done|done| |done]. by rewrite delete_id.
  - unfold step, mbind, eff_bind, restart, refines_step, spec_step.
    destruct (agrees_load s (cj_ticks s) (cj_faults s) Hag) as (s'&->&He&Hn&Hf&_&Hfl).
    split_and!; [done| |by rewrite He|by rewrite Hfl].
    destruct Hag as [Hl Hk Hes]. split; rewrite ?He, ?Hf, ?Hn; done.
Qed.

(** Operations one after the other; what each returned. *)
Fixpoint run (ops : list op) (s : CommandRecoveryJournal)
    : CommandRecoveryJournal * list (result jsstr (option CommandJournalBeginResult)) :=
  match ops with
  | [] => (s, [])
  | o :: ops => let '(s, r) := step o s in let '(s, rs) := run ops s in (s, r :: rs)
  end.

Fixpoint spec_run (ops : list op) (A : commands)
    : commands * list (result jsstr (option CommandJournalBeginResult)) :=
  match ops with
  | [] => (A, [])
  | o :: ops => let '(A, r) := spec_step o A in let '(A, rs) := spec_run ops A in (A, r :: rs)
  end.

Definition empty_journal : CommandRecoveryJournal := MkJournal [] 0 None 0 [].

Lemma empty_agrees : agrees empty_journal.
Proof. split; [exists []; split_and!; [constructor|done|done]|constructor|constructor]. Qed.

Lemma run_refines ops : ∀ s A, agrees s → cj_faults s = [] → Forall op_ok ops → represents (cj_entries s) A →
  (run ops s).2 = (spec_run ops A).2 ∧ agrees (run ops s).1 ∧ represents (cj_entries (run ops s).1) (spec_run ops A).1 ∧
  cj_faults (run ops s).1 = [].
Proof.
  induction ops as [|o ops IH]; intros s A Hag Hf Hok HR; [by split_and!|].
  apply Forall_cons in Hok as [Ho Hok]. pose proof (step_refines s A o Hag Ho HR) as Hstep.
  unfold refines_step in Hstep. cbn [run spec_run]. destruct (spec_step o A) as [A' r].
  destruct (step o s) as [s' [v|e]].
  - destruct Hstep as (->&Hag'&HR'&Hf'). specialize (IH s' A' Hag' (Hf' Hf) Hok HR').
    destruct (run ops s') as [s2 rs]. destruct (spec_run ops A') as [A2 rs']. cbn in *.
    destruct IH as (->&?&?&?). by split_and!.
  - destruct Hstep as [(->&->&->)|[Hne _]]; [|done].
    specialize (IH s A Hag Hf Hok HR). destruct (run ops s) as [s2 rs]. destruct (spec_run ops A) as [A2 rs'].
    cbn in *. destruct IH as (->&?&?&?). by split_and!.
Qed.
End journal.

(** ** Properties *)

(** What [lookup] says of a command of the specification. *)
Definition status (st : option (option json)) : option CommandJournalBeginResult :=
  match st with
  | Some (Some r) => Some (BeginComplete r)
  | Some None => Some BeginPending
  | None => None
  end.

Lemma represents_lookup s A c m : represents (cj_entries s) A → units c → units m →
  lookup c m s = status (A !! (c, m)).
Proof.
  intros HR Hc Hm. rewrite <-(HR c m Hc Hm). unfold lookup, status.
  destruct (jm_get _ _) as [e|]; [|done]. cbn. by destruct (je_response e).
Qed.

Section properties.
Context (now : nat → jsstr) (now_units : ∀ n, units (now n)).

(** C38: the journal is a map from commands to their state, kept through
    restarts: whatever operations and restarts are run while writes succeed,
    every operation returns what the map says, and afterwards the journal
    answers for every command as the map does. *)
Theorem journal_refines ops : Forall op_ok ops →
  (run now ops empty_journal).2 = (spec_run ops ∅).2 ∧
  ∀ c m, units c → units m →
    lookup c m (run now ops empty_journal).1 = status ((spec_run ops ∅).1 !! (c, m)).
Proof.
  intros Hok. destruct (run_refines now now_units ops empty_journal ∅ empty_agrees eq_refl Hok) as (H2&_&HR&_).
  { by intros c m _ _. }
  split; [exact H2|]. intros c m. by apply represents_lookup.
Qed.

(** C39: when the write of the last operation fails anywhere (after any prefix of
    an appended record, before or after the rename of a rewrite), a new process
    opens the file, and its journal is the one of before or the one of after
    that operation. *)
Theorem journal_survives_crash ops o faults : Forall op_ok ops → op_ok o →
  let s := (run now ops empty_journal).1 in
  let crashed := (step now o (MkJournal (cj_entries s) (cj_recordCount s) (cj_file s) (cj_ticks s) faults)).1 in
  ∃ s', load (cj_file crashed) (cj_ticks crashed) [] = Ok s' ∧
    ((∀ c m, units c → units m → lookup c m s' = status ((spec_run ops ∅).1 !! (c, m))) ∨
     (∀ c m, units c → units m → lookup c m s' = status ((spec_step o (spec_run ops ∅).1).1 !! (c, m)))).
Proof.
  intros Hok Ho s crashed.
  destruct (run_refines now now_units ops empty_journal ∅ empty_agrees eq_refl Hok) as (_&Hag&HR&_);
    [by intros c m _ _|]. fold s in Hag, HR. set (A := (spec_run ops ∅).1) in *.
  set (s0 := MkJournal _ _ _ _ faults) in *. assert (agrees s0) as Hag0 by (destruct Hag; by split).
  pose proof (step_refines now now_units s0 A o Hag0 Ho HR) as Hstep.
  unfold refines_step in Hstep. destruct (spec_step o A) as [A' r]. cbn [fst]. subst crashed.
  assert (∀ s' B, represents (cj_entries s') B → ∀ c m, units c → units m → lookup c m s' = status (B !! (c, m)))
    as Hlook by (intros s' B HB c m; by apply represents_lookup).
  destruct (step now o s0) as [s1 [v|e]]; cbn [fst] in *.
  - destruct Hstep as (_&Hag1&HR1&_). destruct (agrees_load s1 (cj_ticks s1) [] Hag1) as (s'&->&He&_).
    exists s'. split; [done|]. right. apply Hlook. by rewrite He.
  - destruct Hstep as [(_&->&->)|(_&es&n&Hl&Hes)].
    + destruct (agrees_load s0 (cj_ticks s0) [] Hag0) as (s'&->&He&_).
      exists s'. split; [done|]. left. apply Hlook. by rewrite He.
    + unfold load. destruct (cj_file s1) as [bytes|].
      * change (default [] (Some bytes)) with bytes in Hl. rewrite Hl.
        eexists. split; [done|]. destruct Hes; [left|right]; by apply Hlook.
      * injection Hl as <- <-. eexists. split; [done|]. destruct Hes; [left|right]; by apply Hlook.
Qed.
End properties.

Definition demo_now (n : nat) : jsstr := js "2026-01-01T00:00:00.000Z".

Lemma demo_now_units n : units (demo_now n).
Proof. by apply unitsb_spec. Qed.

Definition demo_response : json := JObj [(js "type", JStr (js "response")); (js "ok", JBool true)].

Lemma demo_response_ok : response_ok demo_response.
Proof.
  split; [|by eexists]. apply json_ok_obj. split.
  - apply (bool_decide_unpack (NoDup _)). vm_compute. exact I.
  - repeat (apply Forall_cons; split; [split; [by apply unitsb_spec|split; cbn; try done; by apply unitsb_spec]|]).
    by apply Forall_nil.
Qed.

Definition demo_ops : list op :=
  [OpBegin (js "c") (js "1") (js "prompt"); OpResult (js "c") (js "1") demo_response; OpRestart;
   OpBegin (js "c") (js "1") (js "prompt"); OpAcknowledge (js "c") (js "1")].

Lemma demo_ops_ok : Forall op_ok demo_ops.
Proof.
  repeat (apply Forall_cons; split; [cbn; repeat split; by apply unitsb_spec || apply demo_response_ok|]).
  by apply Forall_nil.
Qed.

Lemma journal_refines_witness :
  (run demo_now demo_ops empty_journal).2 =
    [Ok (Some BeginNew); Ok None; Ok None; Ok (Some (BeginComplete demo_response)); Ok None].
Proof.
  rewrite (proj1 (journal_refines demo_now demo_now_units demo_ops demo_ops_ok)). reflexivity.
Defined.

Lemma journal_survives_crash_witness :
  let crashed := (step demo_now (OpBegin (js "c") (js "2") (js "prompt"))
    (MkJournal [] 0 (cj_file (run demo_now demo_ops empty_journal).1) 3 [WriteFails 30])).1 in
  ∃ s', load (cj_file crashed) (cj_ticks crashed) [] = Ok s'.
Proof.
  destruct (journal_survives_crash demo_now demo_now_units demo_ops (OpBegin (js "c") (js "2") (js "prompt")) [WriteFails 30])
    as (s'&Hs&_).
  - exact demo_ops_ok.
  - repeat split; by apply unitsb_spec.
  - exists s'. rewrite <-Hs. vm_compute. reflexivity.
Defined.

(** An append does not repair the torn line before it.  A process stops
    while it writes the receipt of command 1; the next process receives command
    2 as new, so it is dispatched, and its receipt is glued to the torn line;
    after another restart command 2 is new again and dispatched a second time,
    although its receipt was written and synced before the first dispatch. *)
Theorem torn_receipt_hides_the_next :
  let begin2 := OpBegin (js "c") (js "2") (js "prompt") in
  let torn := (step demo_now (OpBegin (js "c") (js "1") (js "prompt")) (MkJournal [] 0 None 0 [WriteFails 30])).1 in
  (run demo_now [OpRestart; begin2; OpRestart; begin2] torn).2 =
    [Ok None; Ok (Some BeginNew); Ok None; Ok (Some BeginNew)].
Proof. vm_compute. reflexivity. Qed.
