(* ===== verification/Overflow.v ===== *)
(** * Errors of providers

    Models what the source reads out of the error of an assistant message:
    whether the context was too large ([ai/src/utils/overflow.ts]), whether the
    credentials were refused ([coding-agent/src/core/auth-guidance.ts]) and
    whether another attempt may help (the predicates of [AgentSession] in
    [coding-agent/src/core/agent-session.ts]).

    The diagnostics of a message are JSON. *)

From S2P Require Import Prelude.
From S2P Require Import JsMap.
From S2P Require Import JsString.
From S2P Require Import Json.
From S2P Require Import JsRegex.
From S2P Require Import Messages.

(** ** [overflow.ts] *)

Definition digits : re := plus digit.

Definition OVERFLOW_PATTERNS : list re := [
  lit (js "prompt is too long");
  lit (js "request_too_large");
  lit (js "input is too long for requested model");
  lit (js "exceeds the context window");
  seqs [lit (js "input token count"); Star dot; lit (js "exceeds the maximum")];
  seqs [lit (js "maximum prompt length is "); digits];
  lit (js "reduce the length of the messages");
  seqs [lit (js "maximum context length is "); digits; lit (js " tokens")];
  seqs [lit (js "exceeds the limit of "); digits];
  lit (js "exceeds the available context size");
  lit (js "greater than the context length");
  lit (js "context window exceeds limit");
  lit (js "exceeded model token limit");
  seqs [lit (js "too large for model with "); digits; lit (js " maximum context length")];
  lit (js "model_context_window_exceeded");
  seqs [lit (js "prompt too long; exceeded "); opt (lit (js "max ")); lit (js "context length")];
  seqs [lit (js "context"); one_of (js "_ "); lit (js "length"); one_of (js "_ "); lit (js "exceeded")];
  lit (js "too many tokens");
  lit (js "token limit exceeded");
  seqs [chr START; lit (js "4"); alts [lit (js "00"); lit (js "13")]; Star white; opt (lit (js "status code"));
        Star white; lit (js "(no body)")]
].

Definition NON_OVERFLOW_PATTERNS : list re := [
  seqs [chr START; alts [lit (js "throttling error"); lit (js "service unavailable")]; lit (js ":")];
  lit (js "rate limit");
  lit (js "too many requests")
].

(** [message.errorMessage] of a message that stopped with an error. *)
Definition error_of (message : AssistantMessage) : option jsstr :=
  match am_stopReason message, am_errorMessage message with SrError, Some ((_ :: _) as e) => Some e | _, _ => None end.

(** [message.usage]; every message of a provider has one. *)
Definition usage_of (message : AssistantMessage) : Usage := default emptyUsage (am_usage message).

Definition error_overflow (errorMessage : jsstr) : bool :=
  negb (existsb (λ p, test_i p errorMessage) NON_OVERFLOW_PATTERNS) && existsb (λ p, test_i p errorMessage) OVERFLOW_PATTERNS.

(** A [contextWindow] of 0 is none; 0.99 of it is compared without rounding. *)
Definition isContextOverflow (message : AssistantMessage) (contextWindow : Z) : bool :=
  let inputTokens := input (usage_of message) + cacheRead (usage_of message) in
  match error_of message with Some e => error_overflow e | None => false end ||
  (negb (contextWindow =? 0) && bool_decide (am_stopReason message = SrStop) && (contextWindow <? inputTokens)) ||
  (negb (contextWindow =? 0) && bool_decide (am_stopReason message = SrLength) && (output (usage_of message) =? 0) &&
   (contextWindow * 99 <=? inputTokens * 100)).

(** ** [auth-guidance.ts] *)

Definition LOGIN_RECOVERY_MESSAGE : jsstr := js "Run /login to update credentials.".

Definition status_401_403 : re := seqs [boundary; alts [lit (js "401"); lit (js "403")]; boundary].

Definition isLikelyAuthenticationError (message : jsstr) : bool :=
  test_i status_401_403 message ||
  test_i (alts [lit (js "unauthorized"); lit (js "forbidden");
    seqs [lit (js "invalid"); opt (one_of (js "_ -")); lit (js "api"); opt (one_of (js "_ -")); lit (js "key")];
    seqs [lit (js "api key"); Star dot; lit (js "invalid")]]) message ||
  test_i (alts (lit <$> [js "authentication failed"; js "invalid authentication"; js "missing authentication"])) message ||
  test_i (alts [seqs [alts [lit (js "expired"); lit (js "invalid")]; lit (js " token")];
    lit (js "token expired"); lit (js "access denied"); lit (js "permission denied")]) message.

Definition addLoginGuidanceToAuthError (message : jsstr) : jsstr :=
  if test (seqs [lit (js "/login"); boundary]) message then message else message ++ [NL; NL] ++ LOGIN_RECOVERY_MESSAGE.

(** ** [AgentSession]: the failure of a message *)

(** [value?.[key]] of an object. *)
Definition field (value : json) (key : string) : option json :=
  match value with JObj fields => jm_get fields (js key) | _ => None end.

Definition diagnostics_of (message : AssistantMessage) : list json :=
  match am_diagnostics message with Some (JArr l) => l | _ => [] end.

Definition of_type (type : string) (diagnostic : json) : bool :=
  bool_decide (field diagnostic "type" = Some (JStr (js type))).

Definition _isFauxProviderQueueExhausted (message : AssistantMessage) : bool :=
  bool_decide (am_provider message = js "faux") && bool_decide (am_errorMessage message = Some (js "No more faux responses queued")).

Definition _isAgentLifecycleFailure (message : AssistantMessage) : bool :=
  existsb (of_type "agent_lifecycle_failure") (diagnostics_of message).

(** The details are an object or an array. *)
Definition _getProviderStreamFailureDetails (message : AssistantMessage) : option json :=
  match find (of_type "provider_stream_failure") (diagnostics_of message) with
  | Some failure =>
      match field failure "details" with
      | Some ((JObj _ | JArr _) as details) => Some details
      | _ => None
      end
  | None => None
  end.

Definition _getProviderStreamFailureKind (message : AssistantMessage) : option jsstr :=
  details ← _getProviderStreamFailureDetails message;
  match field details "kind" with Some (JStr kind) => Some kind | _ => None end.

Definition _isStructuredPermanentProviderFailure (message : AssistantMessage) : bool :=
  match _getProviderStreamFailureKind message with
  | Some kind => bool_decide (kind ∈ [js "auth"; js "invalid_request"; js "refusal"])
  | None => false
  end.

(** [Number(text)] when it is an integer, for texts of decimal digits. *)
Definition js_Number (text : jsstr) : option Z :=
  let digits := trim text in if forallb is_digit digits then Some (digits_value digits) else None.

Definition _getProviderStreamFailureAuthStatus (message : AssistantMessage) : option Z :=
  details ← _getProviderStreamFailureDetails message;
  if negb (bool_decide (field details "kind" = Some (JStr (js "auth")))) then None else
  match field details "status" with
  | Some (JNum status) => Some status
  | Some (JStr status) => js_Number status
  | _ => None
  end.

Definition _isConcreteProviderAuthFailure (message : AssistantMessage) : bool :=
  match error_of message with
  | None => false
  | Some errorMessage =>
      bool_decide (_getProviderStreamFailureAuthStatus message ∈ ([Some 401; Some 403] : list (option Z))) ||
      (test status_401_403 errorMessage && test_i (seqs [boundary; lit (js "status code"); boundary]) errorMessage) ||
      (test status_401_403 errorMessage &&
       test_i (alts [lit (js "auth"); seqs [lit (js "unauthori"); one_of (js "sz"); lit (js "ed")]; lit (js "forbidden");
                     seqs [lit (js "api"); opt dot; lit (js "key")]; lit (js "token"); lit (js "credential")]) errorMessage)
  end.

(** ** Facts and examples *)

Lemma error_of_Some message e : error_of message = Some e ↔ am_stopReason message = SrError ∧ am_errorMessage message = Some e ∧ e ≠ [].
Proof.
  unfold error_of. destruct (am_stopReason message); try (split; [done|by intros [? _]]).
  destruct (am_errorMessage message) as [[|c s]|]; (split; [intros ?; by simplify_eq|by intros (_&?&?); simplify_eq]).
Qed.

Lemma error_overflow_spec e : error_overflow e = true ↔
  (∃ p before m after, p ∈ OVERFLOW_PATTERNS ∧ [START] ++ (lower <$> e) ++ [END] = before ++ m ++ after ∧ In_re p m) ∧
  (∀ p before m after, p ∈ NON_OVERFLOW_PATTERNS → [START] ++ (lower <$> e) ++ [END] = before ++ m ++ after → ¬ In_re p m).
Proof.
  unfold error_overflow, test_i. rewrite andb_true_iff, negb_true_iff, <-not_true_iff_false, !existsb_exists.
  setoid_rewrite found_spec. setoid_rewrite <-list_elem_of_In. split.
  - intros [Hn (p&Hp&b&m&a&E&Hm)]. split; [by exists p, b, m, a|]. intros q b' m' a' Hq E' Hm'. apply Hn. by exists q; split; [|exists b', m', a'].
  - intros [(p&b&m&a&Hp&E&Hm) Hn]. split; [|by exists p; split; [|exists b, m, a]]. intros (q&Hq&b'&m'&a'&E'&Hm'). by eapply Hn.
Qed.

Example overflow_anthropic : error_overflow (js "prompt is too long: 213462 tokens > 200000 maximum") = true.
Proof. vm_compute. reflexivity. Qed.
Example overflow_google : error_overflow (js "The input token count (1196265) exceeds the maximum number of tokens allowed (1048575)") = true.
Proof. vm_compute. reflexivity. Qed.
Example overflow_xai : error_overflow (js "This model's maximum prompt length is 131072 but the request contains 537812 tokens") = true.
Proof. vm_compute. reflexivity. Qed.
Example overflow_openrouter : error_overflow (js "This endpoint's maximum context length is 4096 tokens.") = true.
Proof. vm_compute. reflexivity. Qed.
Example overflow_cerebras : error_overflow (js "413 status code (no body)") = true.
Proof. vm_compute. reflexivity. Qed.
Example overflow_mistral : error_overflow (js "Prompt contains 9 tokens ... too large for model with 8 maximum context length") = true.
Proof. vm_compute. reflexivity. Qed.
Example overflow_throttled : error_overflow (js "Throttling error: Too many tokens, please wait before trying again.") = false.
Proof. vm_compute. reflexivity. Qed.
Example overflow_other : error_overflow (js "500 internal error") = false.
Proof. vm_compute. reflexivity. Qed.
Example guidance_added : addLoginGuidanceToAuthError (js "401 Unauthorized") = js "401 Unauthorized" ++ [NL; NL] ++ LOGIN_RECOVERY_MESSAGE.
Proof. vm_compute. reflexivity. Qed.
Example guidance_once : addLoginGuidanceToAuthError (js "Please /login again") = js "Please /login again".
Proof. vm_compute. reflexivity. Qed.
Example likely_auth : isLikelyAuthenticationError (js "Invalid API-Key provided") = true.
Proof. vm_compute. reflexivity. Qed.
