(* ===== verification/TransformMessages.v ===== *)
(** * What a provider is sent

    Models [ai/src/providers/transform-messages.ts] over the message types of
    [ai/src/types.ts], with the signatures and flags that [Messages] leaves out:
    before a request the transcript is fitted to the model of the request.
    Images become text for models that do not see them, thinking and signatures
    of other models are dropped or become text, identifiers of tool calls are
    normalized, failed turns are left out and every tool call gets a result.

    Fields that the code only copies are one JSON value ([am_rest], [tr_rest]). *)

From S2P Require Import Prelude.
From S2P Require Import JsMap.
From S2P Require Import JsString.
From S2P Require Import Json.

Record ToolCall := MkToolCall { tc_id : jsstr; tc_name : jsstr; tc_arguments : json; tc_thoughtSignature : option jsstr }.

Inductive Block :=
  | Text (text : jsstr) (textSignature : option jsstr)
  | Thinking (thinking : jsstr) (thinkingSignature : option jsstr) (redacted : bool)
  | Image (data mimeType : jsstr)
  | Call (toolCall : ToolCall).

Inductive StopReason := Stop | Length_ | ToolUse | Error_ | Aborted.

Record AssistantMessage := MkAssistant {
  am_content : list Block; am_api : jsstr; am_provider : jsstr; am_model : jsstr; am_stopReason : StopReason; am_rest : json
}.

Record ToolResultMessage := MkResult {
  tr_toolCallId : jsstr; tr_toolName : jsstr; tr_content : list Block; tr_isError : bool; tr_timestamp : Z; tr_rest : json
}.

(** [string | (TextContent | ImageContent)[]] *)
Inductive UserContent := UText (s : jsstr) | UBlocks (l : list Block).

Inductive Message :=
  | User (content : UserContent) (timestamp : Z)
  | Assistant (m : AssistantMessage)
  | ToolResult (m : ToolResultMessage).

#[export] Instance ToolCall_eq_dec : EqDecision ToolCall.
Proof. solve_decision. Defined.
#[export] Instance Block_eq_dec : EqDecision Block.
Proof. solve_decision. Defined.
#[export] Instance StopReason_eq_dec : EqDecision StopReason.
Proof. solve_decision. Defined.

Record Model := MkModel { mo_id : jsstr; mo_api : jsstr; mo_provider : jsstr; mo_image : bool }.

Definition NON_VISION_USER_IMAGE_PLACEHOLDER : jsstr := js "(image omitted: model does not support images)".
Definition NON_VISION_TOOL_IMAGE_PLACEHOLDER : jsstr := js "(tool image omitted: model does not support images)".

(** ** Images *)

(** The loop, with [previousWasPlaceholder]. *)
Fixpoint replace_images (placeholder : jsstr) (previousWasPlaceholder : bool) (content : list Block) : list Block :=
  match content with
  | [] => []
  | Image _ _ :: content =>
      (if previousWasPlaceholder then [] else [Text placeholder None]) ++ replace_images placeholder true content
  | Text text sig :: content => Text text sig :: replace_images placeholder (bool_decide (text = placeholder)) content
  | block :: content => block :: replace_images placeholder false content
  end.

Definition replaceImagesWithPlaceholder (content : list Block) (placeholder : jsstr) : list Block :=
  replace_images placeholder false content.

Definition downgrade (msg : Message) : Message :=
  match msg with
  | User (UBlocks content) t => User (UBlocks (replaceImagesWithPlaceholder content NON_VISION_USER_IMAGE_PLACEHOLDER)) t
  | ToolResult m => ToolResult (MkResult (tr_toolCallId m) (tr_toolName m)
      (replaceImagesWithPlaceholder (tr_content m) NON_VISION_TOOL_IMAGE_PLACEHOLDER) (tr_isError m) (tr_timestamp m) (tr_rest m))
  | _ => msg
  end.

Definition downgradeUnsupportedImages (messages : list Message) (model : Model) : list Message :=
  if mo_image model then messages else downgrade <$> messages.

(** ** One message *)

Section transform.
Context (model : Model) (now : Z).
(** [normalizeToolCallId], if the provider has one. *)
Context (normalizeToolCallId : option (jsstr → AssistantMessage → jsstr)).

Definition isSameModel (m : AssistantMessage) : bool :=
  bool_decide (am_provider m = mo_provider model) && bool_decide (am_api m = mo_api model) && bool_decide (am_model m = mo_id model).

Definition IdMap := list (jsstr * jsstr).

Definition transform_thinking (same : bool) (thinking : jsstr) (sig : option jsstr) (redacted : bool) : list Block :=
  if redacted then if same then [Thinking thinking sig redacted] else []
  else if same && truthy sig then [Thinking thinking sig redacted]
  else if bool_decide (thinking = []) || bool_decide (trim thinking = []) then []
  else if same then [Thinking thinking sig redacted]
  else [Text thinking None].

Definition transform_call (same : bool) (m : AssistantMessage) (toolCall : ToolCall) (ids : IdMap) : IdMap * ToolCall :=
  let normalized := if negb same && truthy (tc_thoughtSignature toolCall)
    then MkToolCall (tc_id toolCall) (tc_name toolCall) (tc_arguments toolCall) None else toolCall in
  match normalizeToolCallId with
  | Some normalize =>
      if negb same then
        let normalizedId := normalize (tc_id toolCall) m in
        if bool_decide (normalizedId = tc_id toolCall) then (ids, normalized)
        else (jm_set ids (tc_id toolCall) normalizedId,
              MkToolCall normalizedId (tc_name normalized) (tc_arguments normalized) (tc_thoughtSignature normalized))
      else (ids, normalized)
  | None => (ids, normalized)
  end.

Definition transform_block (same : bool) (m : AssistantMessage) (block : Block) (ids : IdMap) : IdMap * list Block :=
  match block with
  | Thinking thinking sig redacted => (ids, transform_thinking same thinking sig redacted)
  | Text text sig => (ids, [if same then Text text sig else Text text None])
  | Call toolCall => let '(ids, toolCall) := transform_call same m toolCall ids in (ids, [Call toolCall])
  | Image _ _ => (ids, [block])
  end.

(** [assistantMsg.content.flatMap(...)] *)
Fixpoint transform_content (same : bool) (m : AssistantMessage) (content : list Block) (ids : IdMap) : IdMap * list Block :=
  match content with
  | [] => (ids, [])
  | block :: content =>
      let '(ids, bs) := transform_block same m block ids in
      let '(ids, rest) := transform_content same m content ids in
      (ids, bs ++ rest)
  end.

Definition with_content (m : AssistantMessage) (content : list Block) : AssistantMessage :=
  MkAssistant content (am_api m) (am_provider m) (am_model m) (am_stopReason m) (am_rest m).

Definition with_callId (m : ToolResultMessage) (id : jsstr) : ToolResultMessage :=
  MkResult id (tr_toolName m) (tr_content m) (tr_isError m) (tr_timestamp m) (tr_rest m).

Definition transform_message (msg : Message) (ids : IdMap) : IdMap * Message :=
  match msg with
  | User _ _ => (ids, msg)
  | ToolResult m =>
      (ids, match jm_get ids (tr_toolCallId m) with
            | Some ((_ :: _) as normalizedId) =>
                if bool_decide (normalizedId = tr_toolCallId m) then msg else ToolResult (with_callId m normalizedId)
            | _ => msg
            end)
  | Assistant m =>
      let '(ids, content) := transform_content (isSameModel m) m (am_content m) ids in
      (ids, Assistant (with_content m content))
  end.

(** [imageAwareMessages.map(...)], with [toolCallIdMap]. *)
Fixpoint transform_all (messages : list Message) (ids : IdMap) : list Message :=
  match messages with
  | [] => []
  | msg :: messages => let '(ids, msg) := transform_message msg ids in msg :: transform_all messages ids
  end.

(** ** Results for every call *)

Definition toolCalls (m : AssistantMessage) : list ToolCall :=
  omap (λ b, match b with Call tc => Some tc | _ => None end) (am_content m).

Definition syntheticResult (tc : ToolCall) : Message :=
  ToolResult (MkResult (tc_id tc) (tc_name tc) [Text (js "No result provided") None] true now JNull).

(** [pendingToolCalls], [existingToolResultIds] and [result]. *)
Record Pass := MkPass { p_pending : list ToolCall; p_existing : list jsstr; p_result : list Message }.

Definition insertSyntheticToolResults (s : Pass) : Pass :=
  match p_pending s with
  | [] => s
  | pending => MkPass [] [] (p_result s ++ (syntheticResult <$> filter (λ tc, tc_id tc ∉ p_existing s) pending))
  end.

Definition failed (m : AssistantMessage) : bool :=
  bool_decide (am_stopReason m = Error_) || bool_decide (am_stopReason m = Aborted).

Definition push_result (msg : Message) (s : Pass) : Pass := MkPass (p_pending s) (p_existing s) (p_result s ++ [msg]).

Definition pass_message (s : Pass) (msg : Message) : Pass :=
  match msg with
  | Assistant m =>
      let s := insertSyntheticToolResults s in
      if failed m then s else
      let s := match toolCalls m with [] => s | calls => MkPass calls [] (p_result s) end in
      push_result msg s
  | ToolResult m => push_result msg (MkPass (p_pending s) (tr_toolCallId m :: p_existing s) (p_result s))
  | User _ _ => push_result msg (insertSyntheticToolResults s)
  end.

Definition transformMessages (messages : list Message) : list Message :=
  let transformed := transform_all (downgradeUnsupportedImages messages model) [] in
  p_result (insertSyntheticToolResults (foldl pass_message (MkPass [] [] []) transformed)).
End transform.
