(* ===== verification/TransformMessagesSpec.v ===== *)
(** * What a provider is sent: the theorems

    The second pass is the completion of groups ([transform_fits]): an assistant
    message that did not fail, its results, and a result for every call that has
    none.  Hence every call is answered ([calls_answered]).  A transcript whose
    calls are answered stays as it is, up to the change of each message, and
    results keep belonging to their calls when identifiers change
    ([paired_stays_paired]).  Nothing that the model does not take is sent
    ([fits_model]). *)

From S2P Require Import Prelude.
From S2P Require Import JsMap.
From S2P Require Import JsString.
From S2P Require Import Json.
From S2P Require Import TransformMessages.

Section spec.
Context (model : Model) (now : Z) (normalizeToolCallId : option (jsstr → AssistantMessage → jsstr)).

#[local] Abbreviation transform := (transformMessages model now normalizeToolCallId).
#[local] Abbreviation synthetic := (syntheticResult now).

(** ** Groups *)

(** The results a list starts with, and each other message with the results that
    come before the next one. *)
Fixpoint groups (l : list Message) : list ToolResultMessage * list (Message * list ToolResultMessage) :=
  match l with
  | [] => ([], [])
  | msg :: l =>
      let '(rs, gs) := groups l in
      match msg with ToolResult r => (r :: rs, gs) | _ => ([], (msg, rs) :: gs) end
  end.

Definition missing (calls : list ToolCall) (answered : list jsstr) : list Message :=
  synthetic <$> filter (λ tc, tc_id tc ∉ answered) calls.

Definition complete_group (g : Message * list ToolResultMessage) : list Message :=
  let rs := ToolResult <$> g.2 in
  match g.1 with
  | Assistant m => if failed m then rs else g.1 :: rs ++ missing (toolCalls m) (tr_toolCallId <$> g.2)
  | _ => g.1 :: rs
  end.

Definition fit (l : list Message) : list Message :=
  let '(rs, gs) := groups l in (ToolResult <$> rs) ++ gs ≫= complete_group.

Lemma missing_ext calls a b : (∀ x, x ∈ a ↔ x ∈ b) → missing calls a = missing calls b.
Proof. intros H. unfold missing. f_equal. apply list_filter_iff. intros tc. by rewrite H. Qed.

Lemma missing_nil a : missing [] a = [].
Proof. done. Qed.

Lemma insert_result s : p_result (insertSyntheticToolResults now s) = p_result s ++ missing (p_pending s) (p_existing s).
Proof. unfold insertSyntheticToolResults, missing. destruct (p_pending s); [by rewrite app_nil_r|done]. Qed.

Lemma insert_pending s : p_pending (insertSyntheticToolResults now s) = [].
Proof. unfold insertSyntheticToolResults. by destruct (p_pending s) eqn:E. Qed.

(** The pass from any state. *)
Lemma pass_groups l s : p_result (insertSyntheticToolResults now (foldl (pass_message now) s l)) =
  p_result s ++ (ToolResult <$> (groups l).1) ++ missing (p_pending s) ((tr_toolCallId <$> (groups l).1) ++ p_existing s) ++
  ((groups l).2 ≫= complete_group).
Proof.
  revert s. induction l as [|msg l IH]; intros s; cbn [foldl groups].
  { cbn [fst snd fmap list_fmap mbind list_bind app]. by rewrite insert_result, app_nil_r. }
  rewrite IH. destruct (groups l) as [rs gs]. cbn [fst snd].
  destruct msg as [c t|m|r]; cbn [pass_message push_result p_result p_pending p_existing fst snd fmap list_fmap mbind list_bind app].
  - rewrite insert_result, insert_pending. rewrite !missing_nil. by rewrite <-!app_assoc.
  - unfold complete_group at 2. cbn [fst snd]. destruct (failed m).
    + rewrite insert_result, insert_pending. rewrite !missing_nil. by rewrite <-!app_assoc.
    + destruct (toolCalls m) as [|tc calls] eqn:E; cbn [push_result p_result p_pending p_existing].
      * rewrite insert_result, insert_pending. rewrite !missing_nil, app_nil_r. by rewrite <-!app_assoc.
      * rewrite insert_result, app_nil_r. rewrite <-!app_assoc. cbn [app]. by rewrite <-!app_assoc.
  - rewrite <-app_assoc. cbn [app]. do 3 f_equal. f_equal. apply missing_ext. intros x.
    rewrite !elem_of_app, !elem_of_cons, elem_of_app. tauto.
Qed.

Definition transformed (messages : list Message) : list Message :=
  transform_all model normalizeToolCallId (downgradeUnsupportedImages messages model) [].

Lemma transform_is_fit messages : transform messages = fit (transformed messages).
Proof.
  unfold transformMessages, fit. fold (transformed messages). rewrite pass_groups. destruct (groups (transformed messages)) as [rs gs].
  cbn [p_result p_pending fst snd app]. done.
Qed.

(** C25: [equivalence] The pass with its pending calls, seen results and late
    insertions computes the completion of groups: the results up to the next
    message stay, failed and aborted assistant messages go, and each other
    assistant message is followed by its results and then by one error result
    for each call that has none among them, in the order of the calls. *)
Theorem transform_fits messages : transform messages = fit (transformed messages).
Proof. apply transform_is_fit. Qed.

(** ** Every call is answered *)

Definition is_result (msg : Message) : bool := match msg with ToolResult _ => true | _ => false end.

(** The results right after a message. *)
Definition following_results (l : list Message) : list ToolResultMessage := (groups l).1.

Lemma groups_app_results rs l : groups ((ToolResult <$> rs) ++ l) = (rs ++ (groups l).1, (groups l).2).
Proof. induction rs as [|r rs IH]; cbn [fmap list_fmap app groups]; [by destruct (groups l)|]. by rewrite IH. Qed.

Definition synthetic_results (calls : list ToolCall) (answered : list jsstr) : list ToolResultMessage :=
  (λ tc, MkResult (tc_id tc) (tc_name tc) [Text (js "No result provided") None] true now JNull) <$> filter (λ tc, tc_id tc ∉ answered) calls.

Lemma missing_results calls answered : missing calls answered = ToolResult <$> synthetic_results calls answered.
Proof. unfold missing, synthetic_results. by rewrite <-list_fmap_compose. Qed.

(** The groups of the completion. *)
Definition completed (g : Message * list ToolResultMessage) : Message * list ToolResultMessage :=
  match g.1 with
  | Assistant m => (g.1, g.2 ++ synthetic_results (toolCalls m) (tr_toolCallId <$> g.2))
  | _ => g
  end.

Definition kept (msg : Message) : bool := match msg with Assistant m => negb (failed m) | _ => true end.

(** What is after a position of the completion. *)
Lemma fit_groups gs m rs : (m, rs) ∈ (groups (gs ≫= complete_group)).2 → Forall (λ g, is_result g.1 = false) gs →
  kept m = true ∧ ∃ rs' extra, (m, rs') ∈ gs ∧ rs = (completed (m, rs')).2 ++ extra.
Proof.
  induction gs as [|[x xs] gs IH]; [by intros ?%not_elem_of_nil|]. intros Hin [Hx Hgs]%Forall_cons. cbn [fst] in Hx.
  cbn [mbind list_bind] in Hin. change (mbind complete_group gs) with (gs ≫= complete_group) in Hin.
  assert ((m, rs) ∈ (groups (gs ≫= complete_group)).2 →
    kept m = true ∧ ∃ rs' extra, (m, rs') ∈ (x, xs) :: gs ∧ rs = (completed (m, rs')).2 ++ extra) as Hrest.
  { intros H. destruct (IH H Hgs) as (Hk&rs'&extra&?&?). split; [done|]. exists rs', extra. split; [by right|done]. }
  unfold complete_group in Hin at 1. cbn [fst snd] in Hin. destruct x as [c t|a|r]; [| |done].
  - cbn [app groups] in Hin. rewrite groups_app_results in Hin. cbn [snd] in Hin.
    apply elem_of_cons in Hin as [[= -> ->]|Hin]; [|by apply Hrest]. split; [done|]. exists xs, (groups (gs ≫= complete_group)).1.
    split; [by left|done].
  - destruct (failed a) eqn:Ef; [rewrite groups_app_results in Hin; by apply Hrest|].
    rewrite missing_results, <-fmap_app in Hin. cbn [app groups] in Hin. rewrite groups_app_results in Hin. cbn [snd] in Hin.
    apply elem_of_cons in Hin as [[= -> ->]|Hin]; [|by apply Hrest]. split; [unfold kept; by rewrite Ef|].
    exists xs, (groups (gs ≫= complete_group)).1. split; [by left|done].
Qed.

Lemma groups_heads l : Forall (λ g, is_result g.1 = false) (groups l).2.
Proof. induction l as [|msg l IH]; [constructor|]. cbn [groups]. destruct (groups l) as [rs gs]. destruct msg; [by constructor..|done]. Qed.

Lemma groups_position pre msg post : is_result msg = false → (msg, following_results post) ∈ (groups (pre ++ msg :: post)).2.
Proof.
  intros Hm. unfold following_results. induction pre as [|x pre IH]; cbn [app groups].
  - destruct (groups post) as [rs gs]. destruct msg; [by left..|done].
  - destruct (groups (pre ++ msg :: post)) as [rs gs]. destruct x; [by right..|done].
Qed.

(** C24: [safety] Whatever the transcript and the model: every assistant message
    that is sent has neither failed nor been aborted, and each of its tool calls
    has a result among the results that follow it directly, before the next
    user or assistant message. *)
Theorem calls_answered messages pre m post : transform messages = pre ++ Assistant m :: post →
  failed m = false ∧ ∀ tc, tc ∈ toolCalls m → ∃ r, r ∈ following_results post ∧ tr_toolCallId r = tc_id tc.
Proof.
  intros Heq. pose proof (groups_position pre (Assistant m) post eq_refl) as Hin. rewrite <-Heq, transform_is_fit in Hin.
  unfold fit in Hin. pose proof (groups_heads (transformed messages)) as Hh. destruct (groups (transformed messages)) as [rs0 gs].
  rewrite groups_app_results in Hin. cbn [snd] in *.
  destruct (fit_groups gs (Assistant m) (following_results post) Hin Hh) as (Hk&rs&extra&_&->). cbn [completed fst snd].
  split; [by apply negb_true_iff|]. intros tc Htc. destruct (decide (tc_id tc ∈ tr_toolCallId <$> rs)) as [H|H].
  - apply list_elem_of_fmap in H as (r&Hr&Hin'). exists r. split; [by rewrite !elem_of_app; auto|done].
  - exists (MkResult (tc_id tc) (tc_name tc) [Text (js "No result provided") None] true now JNull). split; [|done].
    rewrite !elem_of_app. left; right. unfold synthetic_results. apply list_elem_of_fmap. exists tc. split; [done|].
    by apply list_elem_of_filter.
Qed.

(** ** Answered transcripts *)

(** Every assistant message that did not fail is followed by one result for each
    of its calls, in their order; nothing else has results. *)
Inductive paired : list Message → Prop :=
  | paired_nil : paired []
  | paired_user c t l : paired l → paired (User c t :: l)
  | paired_failed m l : failed m = true → paired l → paired (Assistant m :: l)
  | paired_turn m rs l : failed m = false → tr_toolCallId <$> rs = tc_id <$> toolCalls m → paired l →
      paired (Assistant m :: (ToolResult <$> rs) ++ l).

Lemma missing_none calls ids : (∀ tc, tc ∈ calls → tc_id tc ∈ ids) → missing calls ids = [].
Proof. intros H. unfold missing. rewrite filter_none; [done|]. intros tc Htc Hn. by apply Hn, H. Qed.

Lemma groups_head_nil msg l : is_result msg = false → (groups (msg :: l)).1 = [].
Proof. intros Hm. cbn [groups]. destruct (groups l). by destruct msg. Qed.

Lemma paired_no_orphans l : paired l → (groups l).1 = [].
Proof. destruct 1; [done|by apply groups_head_nil..]. Qed.

Lemma fit_paired l : paired l → fit l = filter kept l.
Proof.
  intros Hl. unfold fit. rewrite (surjective_pairing (groups l)), paired_no_orphans by done. cbn [fmap list_fmap app].
  induction Hl as [|c t l Hl IH|m l Hf Hl IH|m rs l Hf Hids Hl IH]; [done|..].
  - cbn [groups]. rewrite (surjective_pairing (groups l)), paired_no_orphans by done. cbn [snd mbind list_bind].
    rewrite filter_cons_True by done. cbn [complete_group fst snd fmap list_fmap app]. f_equal. exact IH.
  - cbn [groups]. rewrite (surjective_pairing (groups l)), paired_no_orphans by done. cbn [snd mbind list_bind].
    rewrite filter_cons_False by (cbn [kept]; rewrite Hf; intros []). unfold complete_group at 1. cbn [fst snd]. rewrite Hf. exact IH.
  - cbn [groups]. rewrite groups_app_results, paired_no_orphans, app_nil_r by done. cbn [snd mbind list_bind].
    rewrite filter_cons_True by (cbn [kept]; by rewrite Hf). unfold complete_group at 1. cbn [fst snd]. rewrite Hf.
    rewrite missing_none, app_nil_r by (intros tc Htc; rewrite Hids; by apply list_elem_of_fmap_2). cbn [app]. f_equal.
    rewrite filter_app. f_equal; [|exact IH]. symmetry. clear. induction rs as [|r rs IH]; [done|]. cbn [fmap list_fmap].
    rewrite filter_cons_True by done. by f_equal.
Qed.

(** The identifier that a result of a call with this identifier gets. *)
Definition renamed (ids : IdMap) (x : jsstr) : jsstr := match jm_get ids x with Some ((_ :: _) as y) => y | _ => x end.

Lemma transform_result r ids : transform_message model normalizeToolCallId (ToolResult r) ids =
  (ids, ToolResult (with_callId r (renamed ids (tr_toolCallId r)))).
Proof.
  cbn [transform_message]. unfold renamed. destruct (jm_get ids (tr_toolCallId r)) as [[|c y]|]; [by destruct r| |by destruct r].
  case_bool_decide as E; [|done]. rewrite E. by destruct r.
Qed.

Definition call_ids (m : AssistantMessage) : list jsstr := tc_id <$> toolCalls m.

Section pairing.
Hypothesis normalize_nonempty : ∀ normalize, normalizeToolCallId = Some normalize → ∀ id m, normalize id m ≠ [].

Lemma transform_call_id same m tc ids : jm_get ids (tc_id tc) = None →
  let '(ids', tc') := transform_call normalizeToolCallId same m tc ids in
  tc_id tc' = renamed ids' (tc_id tc) ∧ ∀ x, x ≠ tc_id tc → jm_get ids' x = jm_get ids x.
Proof.
  intros Hn. unfold transform_call, renamed. destruct normalizeToolCallId as [normalize|] eqn:E; [destruct same; cbn [negb andb]|].
  - by rewrite Hn.
  - case_bool_decide as Hid; [rewrite Hn; split; [by destruct (truthy _)|done]|]. rewrite jm_get_set_eq. split.
    + pose proof (normalize_nonempty normalize eq_refl (tc_id tc) m). by destruct (normalize (tc_id tc) m).
    + intros x Hx. by apply jm_get_set_ne.
  - rewrite Hn. split; [by destruct (negb same && _)|done].
Qed.

Definition block_calls (l : list Block) : list ToolCall := omap (λ b, match b with Call tc => Some tc | _ => None end) l.

Lemma block_calls_app a b : block_calls (a ++ b) = block_calls a ++ block_calls b.
Proof. apply omap_app. Qed.

Lemma thinking_no_calls same t s r : block_calls (transform_thinking same t s r) = [].
Proof. unfold transform_thinking. by repeat case_match. Qed.

Lemma transform_content_ids same m content ids : NoDup (tc_id <$> block_calls content) →
  (∀ x, x ∈ tc_id <$> block_calls content → jm_get ids x = None) →
  let '(ids', content') := transform_content normalizeToolCallId same m content ids in
  tc_id <$> block_calls content' = renamed ids' <$> (tc_id <$> block_calls content) ∧
  ∀ x, x ∉ tc_id <$> block_calls content → jm_get ids' x = jm_get ids x.
Proof.
  revert ids. induction content as [|b content IH]; intros ids Hnd Hfresh; [by split|]. cbn [transform_content].
  destruct b as [t s|t s r|d mt|tc]; cbn [transform_block].
  1-3: specialize (IH ids Hnd Hfresh); destruct (transform_content normalizeToolCallId same m content ids) as [ids' content'];
    rewrite block_calls_app; destruct IH as [IH1 IH2]; split; [|done].
  - destruct same; exact IH1.
  - rewrite thinking_no_calls. exact IH1.
  - exact IH1.
  - change (block_calls (Call tc :: content)) with (tc :: block_calls content) in *. cbn [fmap list_fmap] in *.
    apply NoDup_cons in Hnd as [Hnin Hnd]. pose proof (transform_call_id same m tc ids (Hfresh _ ltac:(by left))) as Hc.
    destruct (transform_call normalizeToolCallId same m tc ids) as [ids1 tc']. destruct Hc as [Hc1 Hc2].
    assert (∀ x, x ∈ tc_id <$> block_calls content → jm_get ids1 x = None) as Hfresh1.
    { intros x Hx. rewrite Hc2; [apply Hfresh; by right|]. intros ->. done. }
    specialize (IH ids1 Hnd Hfresh1). destruct (transform_content normalizeToolCallId same m content ids1) as [ids' content'].
    destruct IH as [IH1 IH2]. rewrite block_calls_app. change (block_calls [Call tc']) with [tc']. cbn [app fmap list_fmap]. split.
    + f_equal; [|exact IH1]. rewrite Hc1. unfold renamed. by rewrite IH2.
    + intros x Hx. rewrite not_elem_of_cons in Hx. rewrite IH2 by apply Hx. apply Hc2, Hx.
Qed.

Definition all_call_ids (l : list Message) : list jsstr :=
  l ≫= λ msg, match msg with Assistant m => call_ids m | _ => [] end.

Lemma all_call_ids_results rs l : all_call_ids ((ToolResult <$> rs) ++ l) = all_call_ids l.
Proof. induction rs as [|r rs IH]; [done|]. cbn [fmap list_fmap app]. unfold all_call_ids in *. cbn [mbind list_bind app]. exact IH. Qed.

Lemma transform_all_results rs l ids : transform_all model normalizeToolCallId ((ToolResult <$> rs) ++ l) ids =
  (ToolResult <$> ((λ r, with_callId r (renamed ids (tr_toolCallId r))) <$> rs)) ++ transform_all model normalizeToolCallId l ids.
Proof. induction rs as [|r rs IH]; [done|]. cbn [fmap list_fmap app transform_all]. rewrite transform_result. by f_equal. Qed.

(** One assistant message of a transcript whose call identifiers are new. *)
Lemma transform_turn m ids : NoDup (call_ids m) → (∀ x, x ∈ call_ids m → jm_get ids x = None) → ∃ ids' m',
  transform_message model normalizeToolCallId (Assistant m) ids = (ids', Assistant m') ∧ failed m' = failed m ∧
  call_ids m' = renamed ids' <$> call_ids m ∧ ∀ x, x ∉ call_ids m → jm_get ids' x = jm_get ids x.
Proof.
  intros Hnd Hfresh. cbn [transform_message]. pose proof (transform_content_ids (isSameModel model m) m (am_content m) ids Hnd Hfresh) as H.
  destruct (transform_content normalizeToolCallId (isSameModel model m) m (am_content m) ids) as [ids' content'].
  destruct H as [H1 H2]. by exists ids', (with_content m content').
Qed.

Lemma transform_all_paired l ids : paired l → NoDup (all_call_ids l) → (∀ x, x ∈ all_call_ids l → jm_get ids x = None) →
  paired (transform_all model normalizeToolCallId l ids).
Proof.
  intros Hl. revert ids. induction Hl as [|c t l Hl IH|m l Hf Hl IH|m rs l Hf Hids Hl IH]; intros ids Hnd Hfresh; [constructor|..].
  - cbn [transform_all transform_message]. constructor. by apply IH.
  - change (all_call_ids (Assistant m :: l)) with (call_ids m ++ all_call_ids l) in *.
    apply NoDup_app in Hnd as (Hnd1&Hdis&Hnd2).
    destruct (transform_turn m ids Hnd1) as (ids'&m'&E&Hf'&_&Hids'); [intros x Hx; apply Hfresh, elem_of_app; by left|].
    cbn [transform_all]. rewrite E. apply paired_failed; [congruence|]. apply IH; [done|]. intros x Hx.
    rewrite Hids'; [apply Hfresh, elem_of_app; by right|]. intros Hm. by apply (Hdis x).
  - change (all_call_ids (Assistant m :: (ToolResult <$> rs) ++ l)) with (call_ids m ++ all_call_ids ((ToolResult <$> rs) ++ l)) in *.
    rewrite all_call_ids_results in *. apply NoDup_app in Hnd as (Hnd1&Hdis&Hnd2).
    destruct (transform_turn m ids Hnd1) as (ids'&m'&E&Hf'&Hc&Hids'); [intros x Hx; apply Hfresh, elem_of_app; by left|].
    cbn [transform_all]. rewrite E, transform_all_results. apply paired_turn; [congruence| |].
    + rewrite <-!list_fmap_compose. fold (call_ids m'). rewrite Hc. unfold call_ids. rewrite <-Hids, <-!list_fmap_compose.
      by apply list_fmap_ext.
    + apply IH; [done|]. intros x Hx. rewrite Hids'; [apply Hfresh, elem_of_app; by right|]. intros Hm. by apply (Hdis x).
Qed.

Lemma downgrade_paired l : paired l → paired (downgradeUnsupportedImages l model).
Proof.
  unfold downgradeUnsupportedImages. destruct (mo_image model); [done|].
  induction 1 as [|[s|c] t l Hl IH|m l Hf Hl IH|m rs l Hf Hids Hl IH]; cbn [fmap list_fmap downgrade]; [by constructor..|].
  rewrite fmap_app, <-list_fmap_compose.
  replace (downgrade ∘ ToolResult <$> rs) with (ToolResult <$> ((λ r, MkResult (tr_toolCallId r) (tr_toolName r)
    (replaceImagesWithPlaceholder (tr_content r) NON_VISION_TOOL_IMAGE_PLACEHOLDER) (tr_isError r) (tr_timestamp r) (tr_rest r)) <$> rs))
    by (by rewrite <-list_fmap_compose).
  apply paired_turn; [done| |done]. rewrite <-Hids, <-list_fmap_compose. by apply list_fmap_ext.
Qed.

Lemma downgrade_ids l : all_call_ids (downgradeUnsupportedImages l model) = all_call_ids l.
Proof.
  unfold downgradeUnsupportedImages, all_call_ids. destruct (mo_image model); [done|]. induction l as [|msg l IH]; [done|].
  cbn [fmap list_fmap mbind list_bind]. rewrite <-IH. by destruct msg as [[|]| |].
Qed.

Lemma kept_paired l : paired l → paired (filter kept l).
Proof.
  induction 1 as [|c t l Hl IH|m l Hf Hl IH|m rs l Hf Hids Hl IH]; [constructor|..].
  - rewrite filter_cons_True by done. by constructor.
  - by rewrite filter_cons_False by (cbn [kept]; rewrite Hf; intros []).
  - rewrite filter_cons_True by (cbn [kept]; by rewrite Hf). rewrite filter_app.
    rewrite filter_all; [by apply paired_turn|]. intros x (r&->&_)%list_elem_of_fmap. done.
Qed.

(** [functional] A transcript as the agent loop leaves it - every call of an
    assistant message that did not fail answered right after it, in order, and
    identifiers used once - is sent without any added result, also when another
    model made its calls and their identifiers are normalized: what is sent is
    the messages one by one, without the failed ones, and every result still
    carries the identifier of its call. *)
Theorem paired_stays_paired messages : paired messages → NoDup (all_call_ids messages) →
  transform messages = filter kept (transformed messages) ∧ paired (transform messages).
Proof.
  intros Hp Hnd. assert (paired (transformed messages)) as Ht.
  { apply transform_all_paired; [by apply downgrade_paired|by rewrite downgrade_ids|done]. }
  rewrite transform_is_fit, fit_paired by done. split; [done|by apply kept_paired].
Qed.

End pairing.

(** ** What the model takes *)

(** Blocks that a user message or a result may have. *)
Definition seen_block (b : Block) : bool := match b with Image _ _ => mo_image model | _ => true end.

(** Blocks of a message that another model made: text and calls without the
    signatures of that model. *)
Definition plain_block (b : Block) : bool :=
  match b with
  | Text _ None => true
  | Call tc => negb (truthy (tc_thoughtSignature tc))
  | Text _ (Some _) | Thinking _ _ _ => false
  | Image _ _ => true
  end.

Definition fits_model_message (msg : Message) : bool :=
  match msg with
  | User (UBlocks c) _ => forallb seen_block c
  | User (UText _) _ => true
  | ToolResult r => forallb seen_block (tr_content r)
  | Assistant m => isSameModel model m || forallb plain_block (am_content m)
  end.

Lemma replaced_seen placeholder b l : mo_image model = false → forallb seen_block (replace_images placeholder b l) = true.
Proof.
  intros Hm. revert b. induction l as [|x l IH]; intros b; [done|]. destruct x; cbn [replace_images forallb seen_block]; try by rewrite IH.
  rewrite forallb_app, IH. by destruct b.
Qed.

Lemma downgraded_seen l : Forall (λ msg, match msg with Assistant _ => True | _ => fits_model_message msg = true end)
  (downgradeUnsupportedImages l model).
Proof.
  unfold downgradeUnsupportedImages. destruct (mo_image model) eqn:E; apply Forall_forall; intros msg Hin.
  - assert (∀ l, forallb seen_block l = true) as Hall.
    { intros bs. apply forallb_forall. intros b _. unfold seen_block. rewrite E. by destruct b. }
    destruct msg as [[s|c] t|m|r]; cbn [fits_model_message]; auto.
  - apply list_elem_of_fmap in Hin as (x&->&_). destruct x as [[s|c] t|m|r]; cbn [downgrade fits_model_message tr_content]; try done;
      by apply replaced_seen.
Qed.

Lemma foreign_plain m content ids : forallb plain_block (transform_content normalizeToolCallId false m content ids).2 = true.
Proof.
  revert ids. induction content as [|b content IH]; intros ids; [done|]. cbn [transform_content].
  destruct (transform_block normalizeToolCallId false m b ids) as [ids1 bs] eqn:E1. specialize (IH ids1).
  destruct (transform_content normalizeToolCallId false m content ids1) as [ids2 rest]. cbn [snd] in *. rewrite forallb_app, IH, andb_true_r.
  destruct b as [t s|t s r|d mt|tc]; cbn [transform_block] in E1; try (injection E1 as _ <-; done).
  - injection E1 as _ <-. unfold transform_thinking. destruct r; [done|]. cbn [andb]. by destruct (_ || _).
  - unfold transform_call in E1. destruct normalizeToolCallId as [normalize|]; cbn [negb andb] in E1;
      [destruct (bool_decide _)|]; injection E1 as _ <-; cbn [forallb plain_block tc_thoughtSignature];
      by destruct (truthy (tc_thoughtSignature tc)) eqn:Et; cbn [tc_thoughtSignature]; rewrite ?Et.
Qed.

Lemma transform_all_fits l ids : Forall (λ msg, match msg with Assistant _ => True | _ => fits_model_message msg = true end) l →
  Forall (λ msg, fits_model_message msg = true) (transform_all model normalizeToolCallId l ids).
Proof.
  intros Hl. revert ids. induction Hl as [|msg l Hm _ IH]; intros ids; [constructor|]. cbn [transform_all].
  destruct msg as [c t|m|r].
  - cbn [transform_message]. by constructor.
  - cbn [transform_message]. pose proof (foreign_plain m (am_content m) ids) as Hf.
    destruct (isSameModel model m) eqn:Es.
    + destruct (transform_content normalizeToolCallId true m (am_content m) ids) as [ids' content']. constructor; [|done].
      cbn [fits_model_message]. unfold isSameModel in *. cbn [with_content am_provider am_api am_model]. by rewrite Es.
    + destruct (transform_content normalizeToolCallId false m (am_content m) ids) as [ids' content']. constructor; [|done].
      cbn [fits_model_message with_content am_content]. cbn [snd] in Hf. by rewrite Hf, orb_true_r.
  - rewrite transform_result. by constructor.
Qed.

Lemma groups_parts (P : Message → Prop) l : Forall P l → Forall P (ToolResult <$> (groups l).1) ∧
  Forall (λ g, P g.1 ∧ Forall P (ToolResult <$> g.2)) (groups l).2.
Proof.
  induction 1 as [|msg l Hm Hl [IH1 IH2]]; [by split|]. cbn [groups]. destruct (groups l) as [rs gs]. cbn [fst snd] in *.
  destruct msg; cbn [fst snd fmap list_fmap]; (split; [by constructor|]); first [exact IH2 | by constructor].
Qed.

(** C26: [type] What is sent is what the model takes: no images for a model that
    does not see them, and of messages that another model made no thinking and
    no signatures of text or calls. *)
Theorem fits_model messages : forallb fits_model_message (transform messages) = true.
Proof.
  apply forallb_Forall. rewrite transform_is_fit. unfold fit. pose proof (transform_all_fits _ [] (downgraded_seen messages)) as H. fold (transformed messages) in H.
  apply groups_parts in H as [H1 H2]. destruct (groups (transformed messages)) as [rs gs]. cbn [fst snd] in *.
  apply Forall_app. split; [done|]. apply Forall_bind. eapply Forall_impl; [exact H2|]. intros [msg xs] [Hm Hx]. cbn [fst snd] in *.
  unfold compose, complete_group. cbn [fst snd]. destruct msg as [c t|m|r]; [by constructor| |by constructor].
  destruct (failed m); [exact Hx|]. constructor; [done|]. apply Forall_app. split; [done|]. unfold missing.
  apply Forall_fmap, Forall_forall. by intros tc _.
Qed.
End spec.

(** ** Witnesses *)

Section witness.
#[local] Abbreviation model_ := (MkModel (js "m") (js "api") (js "p") false).
#[local] Abbreviation normalize_ := (Some (λ (id : jsstr) (_ : AssistantMessage), js "n" ++ filter (λ c, c ≠ 124) id)).
#[local] Abbreviation call_ := (λ id : string, Call (MkToolCall (js id) (js "read") (JObj []) (Some (js "sig")))).
#[local] Abbreviation result_ := (λ id : jsstr, MkResult id (js "read") [Image (js "AA") (js "image/png")] false 3 JNull).

Definition other_model : AssistantMessage :=
  MkAssistant [Thinking (js "hm") (Some (js "s")) false; Text (js "ok") (Some (js "t")); call_ "c|1"; call_ "c|2"]
    (js "other") (js "p") (js "m") ToolUse JNull.
Definition gave_up : AssistantMessage := MkAssistant [call_ "z"] (js "api") (js "p") (js "m") Error_ JNull.
Definition answered_sample : list Message :=
  [User (UText (js "hi")) 1; Assistant other_model] ++ (ToolResult <$> [result_ (js "c|1"); result_ (js "c|2")]) ++
  [Assistant gave_up; User (UText (js "again")) 2].

Lemma answered_sample_paired : paired answered_sample.
Proof.
  apply paired_user. apply (paired_turn other_model [result_ (js "c|1"); result_ (js "c|2")]); [done|done|].
  by apply paired_failed, paired_user, paired_nil.
Qed.

Lemma paired_stays_paired_witness :
  (paired answered_sample ∧ tr_toolCallId <$> (groups (transformMessages model_ 9 normalize_ answered_sample)).2.*2 !!! 1%nat =
     [js "nc1"; js "nc2"]) ∧
  transformMessages model_ 9 normalize_ answered_sample = filter kept (transformed model_ normalize_ answered_sample) ∧
  paired (transformMessages model_ 9 normalize_ answered_sample).
Proof.
  split; [split; [apply answered_sample_paired|vm_compute; reflexivity]|].
  apply (paired_stays_paired model_ 9 normalize_).
  - intros normalize [= <-] id m. by destruct id.
  - apply answered_sample_paired.
  - apply (bool_decide_unpack _). vm_compute. exact I.
Defined.

(** The second call has no result when the user goes on. *)
Definition open_sample : list Message :=
  [Assistant other_model; ToolResult (result_ (js "c|1")); User (UText (js "stop")) 2].
Definition sent_turn : AssistantMessage :=
  MkAssistant [Text (js "hm") None; Text (js "ok") None; Call (MkToolCall (js "nc1") (js "read") (JObj []) None);
    Call (MkToolCall (js "nc2") (js "read") (JObj []) None)] (js "other") (js "p") (js "m") ToolUse JNull.
Definition after_turn : list Message :=
  [ToolResult (MkResult (js "nc1") (js "read") [Text NON_VISION_TOOL_IMAGE_PLACEHOLDER None] false 3 JNull);
   syntheticResult 9 (MkToolCall (js "nc2") (js "read") (JObj []) None); User (UText (js "stop")) 2].

Lemma calls_answered_witness :
  transformMessages model_ 9 normalize_ open_sample = [] ++ Assistant sent_turn :: after_turn ∧
  (failed sent_turn = false ∧ ∀ tc, tc ∈ toolCalls sent_turn → ∃ r, r ∈ following_results after_turn ∧ tr_toolCallId r = tc_id tc).
Proof.
  assert (transformMessages model_ 9 normalize_ open_sample = [] ++ Assistant sent_turn :: after_turn) as H by (vm_compute; reflexivity).
  split; [exact H|]. exact (calls_answered model_ 9 normalize_ open_sample [] sent_turn after_turn H).
Defined.
End witness.
