(* ===== verification/EventStream.v ===== *)
(** * Event streams

    Models [ai/src/utils/event-stream.ts]: the provider pushes events, the agent
    loop iterates over them.  A push, the end and each resumption of an iterating
    generator are steps, in any interleaving; [accepted] are the events that were
    pushed while the stream was open.  With one iteration, which is how streams
    are used, every accepted event is received once and in order, and the
    iteration ends ([single_iteration]). *)

From S2P Require Import Prelude.

Section stream.
Context {T R : Type} (isComplete : T → bool) (extractResult : T → R).

(** An iteration: it runs up to its next [await]; a promise is pending; or it
    was resolved, with a value or with the end, and the generator will resume. *)
Inductive Iteration := Ready | Pending | Resolved (value : option T) | Returned.

Record Iter := MkIter { it_state : Iteration; it_received : list T }.

Record EventStream := MkStream {
  queue : list T;
  (** the iterations whose promise is in [waiting], first to last *)
  waiting : list nat;
  done : bool;
  finalResult : option R;
  iters : list Iter
}.

Definition newStream : EventStream := MkStream [] [] false None [].

(** A promise resolves once. *)
Definition resolveFinalResult (result : R) (s : EventStream) : EventStream :=
  MkStream (queue s) (waiting s) (done s) (Some (default result (finalResult s))) (iters s).

Definition set_iter (i : nat) (st : Iteration) (s : EventStream) : EventStream :=
  MkStream (queue s) (waiting s) (done s) (finalResult s) (alter (λ it, MkIter st (it_received it)) i (iters s)).

Definition push (event : T) (s : EventStream) : EventStream :=
  if done s then s else
  let s := if isComplete event
    then resolveFinalResult (extractResult event) (MkStream (queue s) (waiting s) true (finalResult s) (iters s)) else s in
  match waiting s with
  | waiter :: rest => set_iter waiter (Resolved (Some event)) (MkStream (queue s) rest (done s) (finalResult s) (iters s))
  | [] => MkStream (queue s ++ [event]) [] (done s) (finalResult s) (iters s)
  end.

(** [end(result)]; every waiter is told. *)
Definition end_ (result : option R) (s : EventStream) : EventStream :=
  let s := MkStream (queue s) (waiting s) true (finalResult s) (iters s) in
  let s := match result with Some r => resolveFinalResult r s | None => s end in
  foldl (λ s waiter, set_iter waiter (Resolved None) s) (MkStream (queue s) [] (done s) (finalResult s) (iters s)) (waiting s).

(** [stream[Symbol.asyncIterator]()] *)
Definition iterate (s : EventStream) : EventStream :=
  MkStream (queue s) (waiting s) (done s) (finalResult s) (iters s ++ [MkIter Ready []]).

(** The generator of the iteration [i] goes on: the body of the loop, or what is
    after its [await]. *)
Definition resume (i : nat) (s : EventStream) : option EventStream :=
  it ← iters s !! i;
  let upd st got := <[i := MkIter st (it_received it ++ got)]> (iters s) in
  match it_state it with
  | Ready =>
      match queue s with
      | e :: queue => Some (MkStream queue (waiting s) (done s) (finalResult s) (upd Ready [e]))
      | [] =>
          if done s then Some (MkStream [] (waiting s) true (finalResult s) (upd Returned []))
          else Some (MkStream [] (waiting s ++ [i]) false (finalResult s) (upd Pending []))
      end
  | Resolved (Some e) => Some (MkStream (queue s) (waiting s) (done s) (finalResult s) (upd Ready [e]))
  | Resolved None => Some (MkStream (queue s) (waiting s) (done s) (finalResult s) (upd Returned []))
  | Pending | Returned => None
  end.

(** ** One iteration *)

(** The stream after some pushes, of which it accepted these. *)
Inductive used : list T → EventStream → Prop :=
  | used_new : used [] (iterate newStream)
  | used_push accepted s e : used accepted s → used (if done s then accepted else accepted ++ [e]) (push e s)
  | used_end accepted s r : used accepted s → used accepted (end_ r s)
  | used_resume accepted s s' : used accepted s → resume 0 s = Some s' → used accepted s'.

Definition in_flight (st : Iteration) : list T := match st with Resolved (Some e) => [e] | _ => [] end.

(** The first of the accepted events that completes. *)
Definition completing (accepted : list T) : option T := head (filter (λ e, isComplete e = true) accepted).

Record stream_ok (accepted : list T) (s : EventStream) (it : Iter) : Prop := {
  so_iter : iters s = [it];
  so_events : it_received it ++ in_flight (it_state it) ++ queue s = accepted;
  so_waiting : waiting s = match it_state it with Pending => [0%nat] | _ => [] end;
  so_pending : it_state it = Pending → queue s = [] ∧ done s = false;
  so_over : it_state it = Resolved None ∨ it_state it = Returned → queue s = [] ∧ done s = true;
  so_unresolved : done s = false → finalResult s = None;
  so_result : ∀ e, completing accepted = Some e → done s = true ∧ finalResult s = Some (extractResult e)
}.

Lemma completing_app a e : completing (a ++ [e]) = match completing a with Some x => Some x | None => if isComplete e then Some e else None end.
Proof.
  unfold completing. rewrite filter_app, head_app. destruct (filter _ a) as [|x l]; [|done]. cbn [head].
  rewrite filter_cons. destruct (isComplete e); [by rewrite decide_True|by rewrite decide_False].
Qed.

Lemma ok_new : stream_ok [] (iterate newStream) (MkIter Ready []).
Proof. by split; try done; cbn; intros [?|?]. Qed.

(** The completing event of the stream is the one that closes it. *)
Lemma push_result accepted s it e : stream_ok accepted s it → done s = false → ∀ x, completing (accepted ++ [e]) = Some x →
  isComplete e = true ∧ x = e.
Proof.
  intros Hok Hd x. rewrite completing_app. destruct (completing accepted) as [y|] eqn:E.
  - destruct (so_result _ _ _ Hok y E) as [? _]. congruence.
  - destruct (isComplete e) eqn:Ec; [by intros [= ->]|done].
Qed.

Lemma ok_push accepted s it e : stream_ok accepted s it → ∃ it', stream_ok (if done s then accepted else accepted ++ [e]) (push e s) it'.
Proof.
  intros Hok. unfold push. destruct (done s) eqn:Hd; [by exists it|]. pose proof (push_result accepted s it e Hok Hd) as Hres.
  destruct Hok as [Hi He Hw Hp Ho Hu Hr].
  set (s1 := if isComplete e then _ else s).
  assert (queue s1 = queue s ∧ waiting s1 = waiting s ∧ iters s1 = iters s) as (Q&W&I) by (unfold s1; by destruct (isComplete e)).
  assert (∀ x, completing (accepted ++ [e]) = Some x → done s1 = true ∧ finalResult s1 = Some (extractResult x)) as Hr1.
  { intros x Hx. destruct (Hres x Hx) as [Hc ->]. unfold s1. rewrite Hc. cbn [resolveFinalResult done finalResult]. by rewrite (Hu Hd). }
  assert (done s1 = false → finalResult s1 = None) as Hu1 by (unfold s1; destruct (isComplete e); [done|exact Hu]).
  rewrite W, Hw. destruct (it_state it) as [| |v|] eqn:Est.
  2: { destruct (Hp eq_refl) as [Hq _]. exists (MkIter (Resolved (Some e)) (it_received it)). cbn [set_iter]. rewrite I, Hi, Q, Hq.
    split; cbn [iters queue waiting done finalResult it_state it_received in_flight]; try done; [|by intros [?|?]].
    rewrite <-He, Hq. cbn [in_flight app]. by rewrite app_nil_r. }
  all: exists it; rewrite I, Q; split; cbn [iters queue waiting done finalResult]; rewrite ?Est; try done;
    try (rewrite <-He; by rewrite <-!app_assoc).
  all: intros H; destruct (Ho H) as [_ Hdone]; congruence.
Qed.

Lemma ok_end accepted s it r : stream_ok accepted s it → ∃ it', stream_ok accepted (end_ r s) it'.
Proof.
  intros [Hi He Hw Hp Ho Hu Hr]. unfold end_.
  assert (∀ x, completing accepted = Some x → finalResult s = Some (extractResult x)) as Hr' by (intros x Hx; by apply Hr).
  set (s1 := match r with Some r => _ | None => _ end).
  assert (queue s1 = queue s ∧ waiting s1 = waiting s ∧ iters s1 = iters s ∧ done s1 = true) as (Q&W&I&D) by (unfold s1; by destruct r).
  assert (∀ x, completing accepted = Some x → done s1 = true ∧ finalResult s1 = Some (extractResult x)) as Hr1.
  { intros x Hx. split; [done|]. unfold s1. destruct r; cbn [resolveFinalResult finalResult]; rewrite (Hr' x Hx); done. }
  rewrite W, Hw. destruct (it_state it) as [| |v|] eqn:Est; cbn [foldl].
  2: { destruct (Hp eq_refl) as [Hq _]. exists (MkIter (Resolved None) (it_received it)). cbn [set_iter]. rewrite I, Hi, Q, Hq, D.
    split; cbn [iters queue waiting done finalResult it_state it_received in_flight]; try done.
    all: cbn [set_iter queue done finalResult]; first [by rewrite <-He, Hq | intros x Hx; split; [done|by apply Hr1]]. }
  all: exists it; rewrite I, Q, D; split; cbn [iters queue waiting done finalResult]; rewrite ?Est; try done;
    try (intros H; destruct (Ho H); by split); try (intros x Hx; split; [done|by apply Hr1]).
Qed.

(** The fields of the invariant after a step of the iteration. *)
Ltac step_fields :=
  split; cbn in *; try done;
  first [ by intros [?|?] | match goal with H : waiting _ = _ |- _ => by rewrite H end | by simplify_list_eq; rewrite ?app_nil_r | by (etrans; [|eassumption]); rewrite ?app_nil_r, <-?app_assoc
        | congruence | idtac ].

Lemma ok_resume accepted s it s' : stream_ok accepted s it → resume 0 s = Some s' → ∃ it', stream_ok accepted s' it'.
Proof.
  intros [Hi He Hw Hp Ho Hu Hr] Hs. unfold resume in Hs. rewrite Hi in Hs. cbn in Hs. destruct (it_state it) as [| |[e|]|] eqn:Est; try done.
  - destruct (queue s) as [|e q] eqn:Eq; [destruct (done s) eqn:Ed|]; injection Hs as <-.
    + exists (MkIter Returned (it_received it ++ [])). step_fields.
    + exists (MkIter Pending (it_received it ++ [])). step_fields.
    + exists (MkIter Ready (it_received it ++ [e])). step_fields.
  - injection Hs as <-. exists (MkIter Ready (it_received it ++ [e])). step_fields.
  - injection Hs as <-. destruct (Ho (or_introl eq_refl)) as [Hq Hd]. exists (MkIter Returned (it_received it ++ [])). step_fields.
Qed.

Lemma used_ok accepted s : used accepted s → ∃ it, stream_ok accepted s it.
Proof.
  induction 1 as [|a s e _ [it IH]|a s r _ [it IH]|a s s' _ [it IH] Hs].
  - exists (MkIter Ready []). apply ok_new.
  - by eapply ok_push.
  - by eapply ok_end.
  - by eapply ok_resume.
Qed.

(** Steps left until the iteration returns, once the stream is closed. *)
Definition todo (it : Iter) (s : EventStream) : nat :=
  2 * length (queue s) + match it_state it with Ready => 1 | Resolved (Some _) => 2 | Resolved None => 1 | _ => 0 end.

Lemma resume_progress accepted s it : stream_ok accepted s it → done s = true → it_state it ≠ Returned →
  ∃ s' it', resume 0 s = Some s' ∧ stream_ok accepted s' it' ∧ done s' = true ∧ (todo it' s' < todo it s)%nat.
Proof.
  intros Hok Hd Hst. pose proof Hok as [Hi He Hw Hp Ho Hu Hr]. unfold todo. destruct (it_state it) as [| |[e|]|] eqn:Est; [| | | |done].
  2: { destruct (Hp eq_refl). congruence. }
  all: assert (∃ s', resume 0 s = Some s') as [s' Hs] by (unfold resume; rewrite Hi; cbn; rewrite Est, ?Hd; first [by eexists | destruct (queue s); by eexists]).
  all: destruct (ok_resume accepted s it s' Hok Hs) as [it' Hok']; exists s', it'; split; [done|]; split; [done|];
    pose proof (so_iter _ _ _ Hok') as Hi'; unfold resume in Hs; rewrite Hi in Hs; cbn in Hs; rewrite Est in Hs.
  - destruct (queue s) as [|e q]; [rewrite Hd in Hs|]; injection Hs as <-; cbn in *; injection Hi' as <-; cbn; (split; [done|lia]).
  - injection Hs as <-. cbn in *. injection Hi' as <-. cbn. split; [done|lia].
  - injection Hs as <-. cbn in *. injection Hi' as <-. cbn. split; [done|lia].
Qed.

(** A closed stream is read to its end. *)
Lemma drains n accepted s it : stream_ok accepted s it → done s = true → (todo it s <= n)%nat →
  ∃ s', rtc (λ s s', resume 0 s = Some s') s s' ∧ stream_ok accepted s' (MkIter Returned accepted).
Proof.
  revert s it. induction n as [|n IH]; intros s it Hok Hd Hn.
  all: destruct (it_state it) eqn:Est; try (destruct (resume_progress accepted s it Hok Hd) as (s1&it1&Hs&Hok1&Hd1&Hlt); [by rewrite Est|]).
  all: try lia.
  all: try (destruct (IH s1 it1 Hok1 Hd1) as (s2&H1&H2); [lia|]; exists s2; split; [by eapply rtc_l|done]).
  all: exists s; split; [apply rtc_refl|]; pose proof Hok as [Hi He Hw Hp Ho Hu Hr];
    destruct (Ho (or_intror Est)) as [Hq _]; rewrite Est, Hq in He; cbn in He; rewrite !app_nil_r in He;
    destruct it as [st got]; cbn in *; by subst.
Qed.

(** C27: [liveness] One iteration of a stream receives every event that was pushed
    while the stream was open exactly once and in order, however pushes, the end
    and the resumptions of the generator interleave: what it has received, what
    it was woken with and what is queued are always the accepted events.  It
    returns only when the stream is closed and everything was received; once the
    stream is closed it returns by its own steps.  The result is that of the
    event that completed the stream. *)
Theorem single_iteration accepted s : used accepted s → ∃ it, iters s = [it] ∧
  it_received it ++ in_flight (it_state it) ++ queue s = accepted ∧
  (it_state it = Returned → done s = true ∧ it_received it = accepted) ∧
  (it_state it = Pending → done s = false ∧ it_received it = accepted) ∧
  (∀ e, completing accepted = Some e → finalResult s = Some (extractResult e)) ∧
  (done s = true → ∃ s', rtc (λ s s', resume 0 s = Some s') s s' ∧ iters s' = [MkIter Returned accepted]).
Proof.
  intros Hs. destruct (used_ok accepted s Hs) as [it Hok]. exists it. pose proof Hok as [Hi He Hw Hp Ho Hu Hr].
  split; [done|]. split; [done|]. split; [|split; [|split]].
  - intros Hst. destruct (Ho (or_intror Hst)) as [Hq Hd]. rewrite Hst, Hq in He. cbn in He. rewrite !app_nil_r in He. by split.
  - intros Hst. destruct (Hp Hst) as [Hq Hd]. rewrite Hst, Hq in He. cbn in He. rewrite !app_nil_r in He. by split.
  - intros e Hc. by apply Hr.
  - intros Hd. destruct (drains (todo it s) accepted s it Hok Hd (le_n _)) as (s'&H1&H2). exists s'. split; [done|]. apply H2.
Qed.
End stream.

(** ** The stream of an assistant message *)

Section assistant.
Context {M E : Type}.

(** [type: "done"], [type: "error"] and the others. *)
Inductive AssistantMessageEvent := EvDone (message : M) | EvError (error : M) | EvOther (event : E).

Definition assistant_isComplete (event : AssistantMessageEvent) : bool :=
  match event with EvDone _ | EvError _ => true | EvOther _ => false end.

(** [None]: throws. *)
Definition assistant_extractResult (event : AssistantMessageEvent) : option M :=
  match event with EvDone message => Some message | EvError error => Some error | EvOther _ => None end.

(** It is only asked for the result of a completing event. *)
Lemma extract_total e : assistant_isComplete e = true → is_Some (assistant_extractResult e).
Proof. destruct e; [by eexists..|done]. Qed.
End assistant.

(** ** Witness *)

Section witness.
#[local] Abbreviation complete_ := (λ e : Z, e =? 2).
#[local] Abbreviation extract_ := (λ e : Z, js_of_Z e).

(** Waiting before the first event; a completing event; one too many. *)
Definition sample_waiting : EventStream := default newStream (resume 0 (iterate (T:=Z) (R:=jsstr) newStream)).
Definition sample_woken : EventStream := push complete_ extract_ 1 sample_waiting.
Definition sample_closed : EventStream := push complete_ extract_ 2 sample_woken.
Definition sample_stream : EventStream := push complete_ extract_ 3 sample_closed.

Lemma single_iteration_witness :
  used complete_ extract_ [1; 2] sample_stream ∧
  ∃ it, iters sample_stream = [it] ∧ it_state it = Resolved (Some 1) ∧ finalResult sample_stream = Some (js_of_Z 2) ∧
    ∃ s', rtc (λ s s', resume 0 s = Some s') sample_stream s' ∧ iters s' = [MkIter Returned [1; 2]].
Proof.
  assert (used complete_ extract_ [1; 2] sample_stream) as Hs.
  { assert (used complete_ extract_ [] sample_waiting) as H0
      by (apply (used_resume complete_ extract_ [] (iterate newStream)); [apply used_new|vm_compute; reflexivity]).
    exact (used_push complete_ extract_ [1; 2] sample_closed 3 (used_push complete_ extract_ [1] sample_woken 2
      (used_push complete_ extract_ [] sample_waiting 1 H0))). }
  split; [exact Hs|].
  destruct (single_iteration complete_ extract_ [1; 2] sample_stream Hs) as (it&H1&_&_&_&H2&H3).
  exists it. split; [exact H1|]. split; [|split; [|apply H3; vm_compute; reflexivity]].
  - vm_compute in H1. injection H1 as <-. reflexivity.
  - apply (H2 2). vm_compute. reflexivity.
Defined.
End witness.
