(* ===== verification/Semaphore.v ===== *)
(** * Semaphores

    Models [coding-agent/src/utils/semaphore.ts], which bounds how much runs at
    once.  A call of [run] is a little state machine; a call, an abort, the
    continuation after a granted permit and the end of [fn] are steps, in any
    interleaving. *)

From stdpp Require Import sorting.
From S2P Require Import Prelude.

(** A call of [run]: its promise of a permit is pending, resolved or rejected;
    [fn] runs; it is over. *)
Inductive RunState := Queued | Granted | Rejected | Running | Over.
#[export] Instance RunState_eq_dec : EqDecision RunState.
Proof. solve_decision. Defined.

Record Semaphore := MkSemaphore { available : Z; waiters : list nat; runs : list RunState }.

(** The constructor; [None]: throws. *)
Definition construct (permits : Z) : option Semaphore := if permits <? 1 then None else Some (MkSemaphore permits [] []).

Definition queueLength (s : Semaphore) : Z := Z.of_nat (length (waiters s)).

(** A call, up to its first [await]; [aborted]: its signal is aborted already. *)
Definition call (aborted : bool) (s : Semaphore) : Semaphore :=
  let i := length (runs s) in
  if aborted then MkSemaphore (available s) (waiters s) (runs s ++ [Rejected])
  else if 0 <? available s then MkSemaphore (available s - 1) (waiters s) (runs s ++ [Granted])
  else MkSemaphore (available s) (waiters s ++ [i]) (runs s ++ [Queued]).

(** [onAbort]; once a permit is granted the listener is gone. *)
Definition abort (i : nat) (s : Semaphore) : Semaphore :=
  match runs s !! i with
  | Some Queued => MkSemaphore (available s) (filter (λ j, j ≠ i) (waiters s)) (<[i := Rejected]> (runs s))
  | _ => s
  end.

Definition release (s : Semaphore) : Semaphore :=
  match waiters s with
  | next :: rest => MkSemaphore (available s) rest (<[next := Granted]> (runs s))
  | [] => MkSemaphore (available s + 1) [] (runs s)
  end.

(** [await fn()] begins. *)
Definition start (i : nat) (s : Semaphore) : option Semaphore :=
  match runs s !! i with Some Granted => Some (MkSemaphore (available s) (waiters s) (<[i := Running]> (runs s))) | _ => None end.

(** [fn] has returned or thrown: the [finally] block. *)
Definition finish (i : nat) (s : Semaphore) : option Semaphore :=
  match runs s !! i with
  | Some Running => Some (release (MkSemaphore (available s) (waiters s) (<[i := Over]> (runs s))))
  | _ => None
  end.

Inductive advance : Semaphore → Semaphore → Prop :=
  | advance_start i s s' : start i s = Some s' → advance s s'
  | advance_finish i s s' : finish i s = Some s' → advance s s'.

Inductive reachable (permits : Z) : Semaphore → Prop :=
  | reachable_construct s : construct permits = Some s → reachable permits s
  | reachable_call aborted s : reachable permits s → reachable permits (call aborted s)
  | reachable_abort i s : reachable permits s → reachable permits (abort i s)
  | reachable_advance s s' : reachable permits s → advance s s' → reachable permits s'.

(** ** The invariant *)

Definition holds (st : RunState) : bool := match st with Granted | Running => true | _ => false end.
Definition holders (l : list RunState) : Z := Z.of_nat (length (filter (λ st, holds st = true) l)).

Record Inv (permits : Z) (s : Semaphore) : Prop := {
  inv_available : 0 <= available s;
  inv_permits : available s + holders (runs s) = permits;
  inv_busy : waiters s ≠ [] → available s = 0;
  (** the queue is the calls that wait, in the order they were made *)
  inv_queue : ∀ i, i ∈ waiters s ↔ runs s !! i = Some Queued;
  inv_order : StronglySorted lt (waiters s)
}.

Lemma holders_app a b : holders (a ++ b) = holders a + holders b.
Proof. unfold holders. rewrite filter_app, length_app. lia. Qed.

Lemma holders_snoc l st : holders (l ++ [st]) = holders l + (if holds st then 1 else 0).
Proof. rewrite holders_app. by destruct st. Qed.

Lemma holders_cons st l : holders (st :: l) = (if holds st then 1 else 0) + holders l.
Proof. unfold holders. rewrite filter_cons. destruct (holds st); cbn [decide]; [rewrite decide_True by done|rewrite decide_False by done]; cbn; lia. Qed.

Lemma holders_insert l i st st' : l !! i = Some st →
  holders (<[i := st']> l) = holders l - (if holds st then 1 else 0) + (if holds st' then 1 else 0).
Proof.
  revert i. induction l as [|x l IH]; intros [|i] Hi; [done..| |].
  - injection Hi as ->. change (<[0%nat := st']> (st :: l)) with (st' :: l). rewrite !holders_cons. lia.
  - change (<[S i := st']> (x :: l)) with (x :: <[i := st']> l). rewrite !holders_cons. pose proof (IH i Hi). lia.
Qed.

(** ** Every step keeps it *)

Lemma sorted_snoc (l : list nat) n : StronglySorted lt l → (∀ i, i ∈ l → (i < n)%nat) → StronglySorted lt (l ++ [n]).
Proof.
  intros Hs Hl. induction Hs as [|x l Hs IH Hx]; cbn; [by repeat constructor|]. constructor.
  - apply IH. intros i Hi. apply Hl. by right.
  - apply Forall_app. split; [done|]. constructor; [apply Hl; by left|done].
Qed.

Lemma sorted_filter (P : nat → Prop) `{∀ i, Decision (P i)} (l : list nat) : StronglySorted lt l → StronglySorted lt (filter P l).
Proof.
  induction 1 as [|x l Hs IH Hx]; [constructor|]. rewrite filter_cons. case_decide; [|done]. constructor; [done|].
  apply Forall_forall. intros i Hi%list_elem_of_filter. rewrite Forall_forall in Hx. apply Hx, Hi.
Qed.

Lemma sorted_NoDup (l : list nat) : StronglySorted lt l → NoDup l.
Proof.
  induction 1 as [|x l Hs IH Hx]; constructor; [|done]. intros Hi. rewrite Forall_forall in Hx. specialize (Hx x Hi). lia.
Qed.

Section steps.
Context (permits : Z).

Lemma Inv_lt s i : Inv permits s → i ∈ waiters s → (i < length (runs s))%nat.
Proof. intros HI Hi. apply (inv_queue _ _ HI) in Hi. by eapply lookup_lt_Some. Qed.

Lemma Inv_construct s : construct permits = Some s → Inv permits s ∧ 0 < permits.
Proof.
  unfold construct. destruct (permits <? 1) eqn:E; [done|]. intros [= <-]. split; [|lia].
  constructor; cbn; [lia|unfold holders; cbn; lia|done| |constructor].
  intros i. rewrite lookup_nil. split; [by intros ?%elem_of_nil|done].
Qed.

(** A new call; [st] is how it begins. *)
Lemma queue_new s st : Inv permits s → st ≠ Queued →
  ∀ i, i ∈ waiters s ↔ (runs s ++ [st]) !! i = Some Queued.
Proof.
  intros HI Hst i. rewrite (inv_queue _ _ HI), lookup_app. destruct (runs s !! i) eqn:E; [done|].
  split; [done|]. intros [_ Hq]%list_lookup_singleton_Some. by subst.
Qed.

Lemma Inv_call aborted s : Inv permits s → Inv permits (call aborted s).
Proof.
  intros HI. pose proof HI as [H1 H2 H3 H4 H5]. unfold call. destruct aborted; [|destruct (0 <? available s) eqn:E].
  - constructor; cbn; [done|rewrite holders_snoc; cbn; lia|done|by apply queue_new|done].
  - constructor; cbn; [lia|rewrite holders_snoc; cbn; lia| |by apply queue_new|done].
    intros Hw. specialize (H3 Hw). lia.
  - constructor; cbn; [done|rewrite holders_snoc; cbn; lia|intros _; lia| |].
    + intros i. rewrite elem_of_app, list_elem_of_singleton, H4, lookup_app. destruct (runs s !! i) eqn:Ei.
      * split; [intros [H|H]; [done|subst i]|by left].
           apply lookup_lt_Some in Ei. lia.
      * apply lookup_ge_None in Ei. split.
        -- intros [H|H]; [done|subst i]. by rewrite Nat.sub_diag.
        -- intros [Hi _]%list_lookup_singleton_Some. right. lia.
    + apply sorted_snoc; [done|]. intros i. by apply Inv_lt.
Qed.

(** A call changes its state and neither waits before nor after, or no longer waits. *)
Lemma queue_insert s i st st' (ws : list nat) : Inv permits s → runs s !! i = Some st → st' ≠ Queued →
  (∀ j, j ∈ ws ↔ j ∈ waiters s ∧ j ≠ i) →
  ∀ j, j ∈ ws ↔ <[i := st']> (runs s) !! j = Some Queued.
Proof.
  intros HI Hi Hst Hw j. rewrite Hw, (inv_queue _ _ HI). destruct (decide (j = i)) as [->|Hne].
  - rewrite list_lookup_insert_eq by by eapply lookup_lt_Some. split; [by intros []|congruence].
  - rewrite list_lookup_insert_ne by done. tauto.
Qed.

Lemma not_queued s i st : Inv permits s → runs s !! i = Some st → st ≠ Queued →
  ∀ j, j ∈ waiters s ↔ j ∈ waiters s ∧ j ≠ i.
Proof.
  intros HI Hi Hst j. split; [|tauto]. intros Hj. split; [done|]. intros ->.
  apply (inv_queue _ _ HI) in Hj. congruence.
Qed.

Lemma Inv_abort i s : Inv permits s → Inv permits (abort i s).
Proof.
  intros HI. pose proof HI as [H1 H2 H3 H4 H5]. unfold abort. destruct (runs s !! i) as [[]|] eqn:Hi; try done.
  constructor; cbn; [done|rewrite (holders_insert _ _ Queued) by done; cbn; lia| | |by apply sorted_filter].
  - intros Hw. apply H3. intros He. apply Hw. by rewrite He.
  - eapply queue_insert; try done. intros j. rewrite list_elem_of_filter. tauto.
Qed.

Lemma Inv_start i s s' : Inv permits s → start i s = Some s' → Inv permits s'.
Proof.
  intros HI Hs. pose proof HI as [H1 H2 H3 H4 H5]. unfold start in Hs. destruct (runs s !! i) as [[]|] eqn:Hi; try done.
  injection Hs as <-. constructor; cbn; [done|rewrite (holders_insert _ _ Granted) by done; cbn; lia|done| |done].
  eapply queue_insert; [done..|]. by eapply not_queued.
Qed.

Lemma Inv_finish i s s' : Inv permits s → finish i s = Some s' → Inv permits s'.
Proof.
  intros HI Hs. pose proof HI as [H1 H2 H3 H4 H5]. unfold finish in Hs. destruct (runs s !! i) as [[]|] eqn:Hi; try done.
  injection Hs as <-. unfold release. cbn.
  assert (Hq : ∀ j, j ∈ waiters s ↔ <[i := Over]> (runs s) !! j = Some Queued).
  { eapply queue_insert; [done..|]. by eapply not_queued. }
  destruct (waiters s) as [|next rest] eqn:Hw.
  - constructor; cbn; [lia|rewrite (holders_insert _ _ Running) by done; cbn; lia|done|done|constructor].
  - assert (<[i := Over]> (runs s) !! next = Some Queued) as Hn by (apply Hq; by left).
    apply sorted_NoDup in H5 as Hnd. apply NoDup_cons in Hnd as [Hnr _]. inversion H5; subst.
    constructor; cbn; [done| |intros _; by apply H3| |done].
    + rewrite (holders_insert _ _ Queued) by done. rewrite (holders_insert _ _ Running) by done. cbn. lia.
    + intros j. destruct (decide (j = next)) as [->|Hne].
      * rewrite list_lookup_insert_eq by by eapply lookup_lt_Some. split; [done|congruence].
      * rewrite list_lookup_insert_ne by done. rewrite <-Hq, elem_of_cons. tauto.
Qed.

Lemma reachable_permits s : reachable permits s → Inv permits s ∧ 0 < permits.
Proof.
  induction 1 as [s Hs|b s _ [IH ?]|i s _ [IH ?]|s s' _ [IH ?] Ha].
  - by apply Inv_construct.
  - split; [by apply Inv_call|done].
  - split; [by apply Inv_abort|done].
  - split; [|done]. destruct Ha; [by eapply Inv_start|by eapply Inv_finish].
Qed.

(** ** Fairness and progress *)

Lemma sorted_head x (l : list nat) j : StronglySorted lt (x :: l) → j ∈ x :: l → (x <= j)%nat.
Proof. inversion 1 as [|?? _ Hx]; subst. rewrite Forall_forall in Hx. intros [->|Hj]%elem_of_cons; [done|]. apply Hx in Hj. lia. Qed.

(** A permit that is given away goes to the call that has waited longest. *)
Lemma grant_first s s' i j : Inv permits s → advance s s' → runs s !! i = Some Queued → runs s' !! i = Some Granted →
  runs s !! j = Some Queued → (i <= j)%nat.
Proof.
  intros HI Ha Hi Hi' Hj; destruct Ha as [k s0 s1 Hs|k s0 s1 Hs]; unfold start, finish in Hs; destruct (runs s0 !! k) as [[]|] eqn:Hk; try done; injection Hs as <-.
  - cbn in Hi'. destruct (decide (i = k)) as [->|]; [congruence|]. rewrite list_lookup_insert_ne in Hi' by done. congruence.
  - assert (i ≠ k) as Hik by congruence. unfold release in Hi'. cbn in Hi'. apply (inv_queue _ _ HI) in Hj.
    destruct (waiters s0) as [|next rest] eqn:Hw; cbn in Hi'; [by apply elem_of_nil in Hj|].
    destruct (decide (i = next)) as [->|Hin].
    + eapply sorted_head; [|exact Hj]. rewrite <-Hw. apply (inv_order _ _ HI).
    + rewrite !list_lookup_insert_ne in Hi' by done. congruence.
Qed.

(** Steps left. *)
Definition weight (st : RunState) : nat := match st with Queued => 3 | Granted => 2 | Running => 1 | Rejected | Over => 0 end.
Definition left (s : Semaphore) : nat := sum_list_with weight (runs s).

Lemma weight_insert (l : list RunState) i st st' : l !! i = Some st →
  (sum_list_with weight (<[i := st']> l) + weight st = sum_list_with weight l + weight st')%nat.
Proof.
  revert i. induction l as [|x l IH]; intros [|i] Hi; [done..| |].
  - injection Hi as ->. change (<[0%nat := st']> (st :: l)) with (st' :: l). cbn. lia.
  - change (<[S i := st']> (x :: l)) with (x :: <[i := st']> l). pose proof (IH i Hi). cbn. lia.
Qed.

Lemma advance_left s s' : Inv permits s → advance s s' → (left s' < left s)%nat.
Proof.
  intros HI Ha; destruct Ha as [k s0 s1 Hs|k s0 s1 Hs]; unfold start, finish in Hs; destruct (runs s0 !! k) as [[]|] eqn:Hk; try done; injection Hs as <-; unfold left.
  - pose proof (weight_insert _ _ _ Running Hk) as Hw. cbn in *. lia.
  - pose proof (weight_insert _ _ _ Over Hk) as Hw. unfold release. cbn. destruct (waiters s0) as [|next rest] eqn:Hwt; cbn in *; [lia|].
    assert (next ≠ k) as Hnk. { intros ->. assert (runs s0 !! k = Some Queued) by (apply (inv_queue _ _ HI); rewrite Hwt; by left). congruence. }
    assert (<[k := Over]> (runs s0) !! next = Some Queued) as Hn.
    { rewrite list_lookup_insert_ne by done. apply (inv_queue _ _ HI). rewrite Hwt. by left. }
    pose proof (weight_insert _ _ _ Granted Hn). cbn in *. lia.
Qed.

(** Nothing holds a permit when nothing can advance. *)
Lemma stuck_over s : Inv permits s → 0 < permits → (∀ s', ¬ advance s s') →
  waiters s = [] ∧ available s = permits ∧ Forall (λ st, st = Over ∨ st = Rejected) (runs s).
Proof.
  intros HI Hp Hst. pose proof HI as [H1 H2 H3 H4 H5].
  assert (Hh : ∀ i st, runs s !! i = Some st → holds st = false).
  { intros i st Hi. destruct st; try done.
    - destruct (Hst (MkSemaphore (available s) (waiters s) (<[i := Running]> (runs s)))). apply (advance_start i). unfold start. by rewrite Hi.
    - destruct (Hst (release (MkSemaphore (available s) (waiters s) (<[i := Over]> (runs s))))). apply (advance_finish i). unfold finish. by rewrite Hi. }
  assert (holders (runs s) = 0) as H0.
  { unfold holders. rewrite filter_none; [done|]. intros st [i Hi]%list_elem_of_lookup. by rewrite (Hh i st Hi). }
  assert (waiters s = []) as Hw by (destruct (waiters s); [done|]; specialize (H3 ltac:(done)); lia).
  split; [done|]. split; [lia|]. apply Forall_forall. intros st [i Hi]%list_elem_of_lookup. pose proof (Hh i st Hi).
  destruct st; try done; [|by right|by left]. apply H4 in Hi. rewrite Hw in Hi. by apply elem_of_nil in Hi.
Qed.

Lemma drains_from n s : reachable permits s → (left s <= n)%nat → Acc (λ s' s, advance s s') s.
Proof.
  revert s. induction n as [|n IH]; intros s Hr Hn; constructor; intros s' Ha;
    pose proof (advance_left _ _ (proj1 (reachable_permits _ Hr)) Ha); [lia|]. apply IH; [by eapply reachable_advance|lia].
Qed.

(** C34: [liveness] However calls, aborts, continuations and the ends of the guarded
    functions interleave: permits are neither lost nor made up, so at most
    [permits] functions run at once; a call waits only while every permit is
    held; a permit that is given back goes to the call that has waited longest.
    Once no calls are made, every schedule ends, and only with every call over
    or aborted and every permit back. *)
Theorem semaphore_fair s : reachable permits s →
  available s + holders (runs s) = permits ∧ 0 <= available s ∧
  (waiters s ≠ [] → holders (runs s) = permits) ∧
  (∀ s' i j, advance s s' → runs s !! i = Some Queued → runs s' !! i = Some Granted → runs s !! j = Some Queued → (i <= j)%nat) ∧
  Acc (λ s' s, advance s s') s ∧
  ((∀ s', ¬ advance s s') → waiters s = [] ∧ available s = permits ∧ Forall (λ st, st = Over ∨ st = Rejected) (runs s)).
Proof.
  intros Hr. destruct (reachable_permits s Hr) as [HI Hp]. split; [apply HI|]. split; [apply HI|]. split; [|split; [|split]].
  - intros Hw%(inv_busy _ _ HI). pose proof (inv_permits _ _ HI). lia.
  - intros s' i j. by apply grant_first.
  - by eapply drains_from.
  - by apply stuck_over.
Qed.
End steps.

(** One permit: the first call runs, the second gives up, the third waits. *)
Definition sample_called : Semaphore := call false (call false (call false (MkSemaphore 1 [] []))).
Definition sample_semaphore : Semaphore := abort 1 (default sample_called (start 0 sample_called)).

Lemma semaphore_fair_witness :
  reachable 1 sample_semaphore ∧ runs sample_semaphore = [Running; Rejected; Queued] ∧ waiters sample_semaphore = [2%nat] ∧
  holders (runs sample_semaphore) = 1.
Proof.
  assert (reachable 1 sample_semaphore) as Hr.
  { apply reachable_abort. apply (reachable_advance _ sample_called); [|apply (advance_start 0); reflexivity].
    do 3 apply reachable_call. by apply reachable_construct. }
  split; [exact Hr|]. split; [reflexivity|]. split; [reflexivity|].
  exact (proj1 (proj2 (proj2 (semaphore_fair 1 sample_semaphore Hr))) ltac:(discriminate)).
Defined.
