(* ===== verification/SessionAction.v ===== *)
(** * Actions of a session

    Models [core/session-action-store.ts]: the inputs that a session has
    accepted and not finished (prompts and session commands), their lifecycle,
    the two lanes they wait in, and the tickets through which whoever sent them
    learns what became of them.

    An action is an object that the store, the agent session and the pump share
    and change in place, so the state has a heap: an action is a number, and
    the store keeps lists of numbers.  Only numbers of objects that were made
    are ever used; [!!!] gives some action for the others.  Messages are
    compared by identity and are numbers as well. *)

From S2P Require Import Prelude.
From S2P Require Import Eff.
From S2P Require Import JsMap.
From S2P Require Import SlashCommands.

(** ** Data *)

Inductive DeliveryPolicy := NextTurnBoundary | WhenRunIdle.
Inductive WakePolicy := WakeImmediate | OnLowerBoundary | ExternalResume.
Inductive QueuedMessageLane := LaneSteering | LaneFollowUp.

#[export] Instance DeliveryPolicy_eq_dec : EqDecision DeliveryPolicy.
Proof. solve_decision. Defined.
#[export] Instance WakePolicy_eq_dec : EqDecision WakePolicy.
Proof. solve_decision. Defined.

Definition queuedMessageLaneDeliveryPolicy (lane : QueuedMessageLane) : DeliveryPolicy :=
  match lane with LaneSteering => NextTurnBoundary | LaneFollowUp => WhenRunIdle end.

Inductive RecordRole := RolePrimary | RolePrefix | RoleNextTurn.
#[export] Instance RecordRole_eq_dec : EqDecision RecordRole.
Proof. solve_decision. Defined.

Record DeliveryRecord := MkRecord {
  dr_id : jsstr;
  dr_role : RecordRole;
  dr_message : nat;
  dr_started : bool;
  dr_durable : bool;
  dr_ownerActionId : jsstr
}.

Inductive SessionActionPayload :=
| PTurn (records : list DeliveryRecord) (text : jsstr) (preview : option jsstr)
| PCommand (command : SessionSlashCommand) (text : jsstr).

Inductive Execution := AgentTurn | SessionCommandExecution.

(** The states; [preparation] of a preparing action is not read here. *)
Inductive ActionLifecycle :=
| Queued | Selected | Preparing | Committing
| Running (execution : Execution)
| Completed | Failed (error : jsstr) | Cancelled.

(** [lifecycle.state] *)
Inductive StateName := NQueued | NSelected | NPreparing | NCommitting | NRunning | NCompleted | NFailed | NCancelled.
#[export] Instance StateName_eq_dec : EqDecision StateName.
Proof. solve_decision. Defined.

Definition state_name (l : ActionLifecycle) : StateName :=
  match l with
  | Queued => NQueued | Selected => NSelected | Preparing => NPreparing | Committing => NCommitting
  | Running _ => NRunning | Completed => NCompleted | Failed _ => NFailed | Cancelled => NCancelled
  end.

Definition name_text (n : StateName) : jsstr :=
  match n with
  | NQueued => js "queued" | NSelected => js "selected" | NPreparing => js "preparing"
  | NCommitting => js "committing" | NRunning => js "running" | NCompleted => js "completed"
  | NFailed => js "failed" | NCancelled => js "cancelled"
  end.

Record SessionAction := MkAction {
  a_id : jsstr;
  a_source : jsstr;
  a_delivery : DeliveryPolicy;
  a_wake : WakePolicy;
  a_payload : SessionActionPayload;
  a_lifecycle : ActionLifecycle;
  a_queueKey : option jsstr;
  a_agentMessageId : option jsstr;
  a_suppress : bool
}.

#[export] Instance SessionAction_inhabited : Inhabited SessionAction :=
  populate (MkAction [] [] WhenRunIdle WakeImmediate (PTurn [] [] None) Cancelled None None false).

Definition with_lifecycle (l : ActionLifecycle) (a : SessionAction) : SessionAction :=
  MkAction (a_id a) (a_source a) (a_delivery a) (a_wake a) (a_payload a) l (a_queueKey a) (a_agentMessageId a) (a_suppress a).
Definition with_delivery (d : DeliveryPolicy) (a : SessionAction) : SessionAction :=
  MkAction (a_id a) (a_source a) d (a_wake a) (a_payload a) (a_lifecycle a) (a_queueKey a) (a_agentMessageId a) (a_suppress a).

(** [action.lifecycle.state] *)
Definition state (a : SessionAction) : StateName := state_name (a_lifecycle a).
Definition in_state (n : StateName) (a : SessionAction) : bool := bool_decide (state a = n).

(** ** Lifecycle *)

Definition TERMINAL_STATES : list StateName := [NCompleted; NFailed; NCancelled].
Definition ACTIVE_STATES : list StateName := [NSelected; NPreparing; NCommitting; NRunning].
Definition CLEARABLE_STATES : list StateName := [NQueued; NSelected; NPreparing].

Definition isClearable (a : SessionAction) : bool := bool_decide (state a ∈ CLEARABLE_STATES).
Definition is_terminal (a : SessionAction) : bool := bool_decide (state a ∈ TERMINAL_STATES).

Definition LEGAL_TRANSITIONS (n : StateName) : list StateName :=
  match n with
  | NQueued => [NSelected; NFailed; NCancelled]
  | NSelected => [NQueued; NPreparing; NRunning; NFailed; NCancelled]
  | NPreparing => [NQueued; NCommitting; NFailed; NCancelled]
  | NCommitting => [NQueued; NRunning; NFailed; NCancelled]
  | NRunning => [NCompleted; NFailed; NCancelled]
  | NCompleted | NFailed | NCancelled => []
  end.

Record RollbackProof := MkProof { dispatchSettled : bool; transcript : list nat }.

Definition primaryRecords (a : SessionAction) : list DeliveryRecord :=
  match a_payload a with
  | PTurn records _ _ => filter (λ r, dr_role r = RolePrimary) records
  | PCommand _ _ => []
  end.

Definition illegalTransition (previous next : StateName) : jsstr :=
  js "Illegal session action lifecycle transition: " ++ name_text previous ++ js " -> " ++ name_text next.
Definition unsettledRollback : jsstr :=
  js "Committing session action rollback requires a settled dispatch and transcript proof".
Definition durableRollback : jsstr :=
  js "Cannot roll back a session action whose primary message is durable in the transcript".

(** The action after the transition. *)
Definition transitionSessionAction (a : SessionAction) (next : ActionLifecycle) (rollbackProof : option RollbackProof)
    : result jsstr SessionAction :=
  let previous := state a in
  if negb (bool_decide (state_name next ∈ LEGAL_TRANSITIONS previous))
  then Throw (illegalTransition previous (state_name next)) else
  if bool_decide (previous = NCommitting) && bool_decide (state_name next = NQueued) then
    match rollbackProof with
    | Some proof =>
        if negb (dispatchSettled proof) then Throw unsettledRollback else
        if existsb (λ r, bool_decide (dr_message r ∈ transcript proof)) (primaryRecords a) then Throw durableRollback
        else Ok (with_lifecycle next a)
    | None => Throw unsettledRollback
    end
  else Ok (with_lifecycle next a).

(** ** Tickets *)

Inductive AdmissionDisposition := StartsWhenAdmitted | AdmissionQueued.
Inductive SubmissionOutcome :=
| Accepted (actionId : jsstr) (disposition : AdmissionDisposition)
| Coalesced (existingActionId : jsstr)
| HandledWithoutTurn
| ExtensionCommand.
Inductive DeliveryOutcome := Delivered | NotApplicable.

(** A promise with the functions that settle it: the first one wins. *)
Inductive Deferred (A : Type) := Unsettled | Resolved (value : A) | Rejected (error : jsstr).
Arguments Unsettled {A}. Arguments Resolved {A}. Arguments Rejected {A}.

Definition settle {A} (value : A) (d : Deferred A) : Deferred A * bool :=
  match d with Unsettled => (Resolved value, true) | _ => (d, false) end.
Definition reject {A} (error : jsstr) (d : Deferred A) : Deferred A * bool :=
  match d with Unsettled => (Rejected error, true) | _ => (d, false) end.

Record ActionTicketController := MkTicket {
  t_id : jsstr;
  t_accepted : Deferred SubmissionOutcome;
  t_delivered : Deferred DeliveryOutcome;
  t_completed : Deferred unit
}.

Definition newTicket (id : jsstr) : ActionTicketController := MkTicket id Unsettled Unsettled Unsettled.

Inductive Settlement :=
| SettleAccepted (outcome : SubmissionOutcome)
| SettleDelivered (outcome : DeliveryOutcome)
| RejectDelivered (error : jsstr)
| SettleCompleted (error : option jsstr).

(** The methods of the controller, and whether they settled the promise. *)
Definition settle_ticket (m : Settlement) (t : ActionTicketController) : ActionTicketController * bool :=
  match m with
  | SettleAccepted o => let '(d, b) := settle o (t_accepted t) in (MkTicket (t_id t) d (t_delivered t) (t_completed t), b)
  | SettleDelivered o => let '(d, b) := settle o (t_delivered t) in (MkTicket (t_id t) (t_accepted t) d (t_completed t), b)
  | RejectDelivered e => let '(d, b) := reject e (t_delivered t) in (MkTicket (t_id t) (t_accepted t) d (t_completed t), b)
  | SettleCompleted None => let '(d, b) := settle tt (t_completed t) in (MkTicket (t_id t) (t_accepted t) (t_delivered t) d, b)
  | SettleCompleted (Some e) => let '(d, b) := reject e (t_completed t) in (MkTicket (t_id t) (t_accepted t) (t_delivered t) d, b)
  end.

(** ** The store *)

Record ActionStore := MkStore {
  heap : gmap nat SessionAction;
  nextTurnBoundary : list nat;
  whenRunIdle : list nat;
  tickets : list (jsstr * ActionTicketController)
}.

Definition newStore : ActionStore := MkStore ∅ [] [] [].

Definition act (s : ActionStore) (r : nat) : SessionAction := heap s !!! r.

Definition list_of (policy : DeliveryPolicy) (s : ActionStore) : list nat :=
  match policy with NextTurnBoundary => nextTurnBoundary s | WhenRunIdle => whenRunIdle s end.

Definition set_action (r : nat) (a : SessionAction) (s : ActionStore) : ActionStore :=
  MkStore (<[r := a]> (heap s)) (nextTurnBoundary s) (whenRunIdle s) (tickets s).
Definition set_list (policy : DeliveryPolicy) (l : list nat) (s : ActionStore) : ActionStore :=
  match policy with
  | NextTurnBoundary => MkStore (heap s) l (whenRunIdle s) (tickets s)
  | WhenRunIdle => MkStore (heap s) (nextTurnBoundary s) l (tickets s)
  end.
Definition set_tickets (t : list (jsstr * ActionTicketController)) (s : ActionStore) : ActionStore :=
  MkStore (heap s) (nextTurnBoundary s) (whenRunIdle s) t.

#[local] Abbreviation M := (eff ActionStore jsstr).

(** [transitionSessionAction] on the object. *)
Definition transition (r : nat) (next : ActionLifecycle) (rollbackProof : option RollbackProof) : M unit :=
  s ← eget;
  a ← elift (transitionSessionAction (act s r) next rollbackProof);
  emodify (set_action r a).

Definition is_queued (s : ActionStore) (r : nat) : bool := in_state NQueued (act s r).

Definition actions (policy : option DeliveryPolicy) (s : ActionStore) : list nat :=
  match policy with Some p => list_of p s | None => nextTurnBoundary s ++ whenRunIdle s end.

Definition queuedActions (policy : option DeliveryPolicy) (s : ActionStore) : list nat :=
  filter (λ r, is_queued s r) (actions policy s).
Definition clearableActions (policy : option DeliveryPolicy) (s : ActionStore) : list nat :=
  filter (λ r, isClearable (act s r)) (actions policy s).
Definition snapshotActions (s : ActionStore) : list nat := queuedActions None s.
Definition unfinishedActions (policy : option DeliveryPolicy) (s : ActionStore) : list nat :=
  filter (λ r, negb (is_terminal (act s r))) (actions policy s).
Definition activeActions (policy : option DeliveryPolicy) (s : ActionStore) : list nat :=
  filter (λ r, bool_decide (state (act s r) ∈ ACTIVE_STATES)) (actions policy s).
Definition ownedActions (s : ActionStore) : list nat := actions None s.

Definition payload_text (p : SessionActionPayload) : jsstr :=
  match p with PTurn _ text _ | PCommand _ text => text end.
Definition action_preview (a : SessionAction) : jsstr :=
  match a_payload a with PTurn _ text preview => default text preview | PCommand _ text => text end.
Definition queuePreview (policy : DeliveryPolicy) (s : ActionStore) : list jsstr :=
  (λ r, action_preview (act s r)) <$> queuedActions (Some policy) s.

Definition carries (message : nat) (a : SessionAction) : bool :=
  match a_payload a with
  | PTurn records _ _ => existsb (λ d, bool_decide (dr_message d = message)) records
  | PCommand _ _ => false
  end.

Definition actionsForMessage (message : nat) (s : ActionStore) : list nat :=
  filter (λ r, carries message (act s r)) (actions None s).

Definition duplicateId (id : jsstr) : jsstr := js "Duplicate session action id: " ++ id.
Definition notOwned (id : jsstr) : jsstr := js "Session action " ++ id ++ js " is not owned by this store".

Definition assertNewAction (r : nat) : M unit :=
  s ← eget;
  if negb (is_queued s r) then ethrow (js "Only queued session actions can be enqueued") else
  if jm_has (tickets s) (a_id (act s r)) then ethrow (duplicateId (a_id (act s r))) else mret tt.

Definition make_ticket (r : nat) : M unit :=
  emodify (λ s, set_tickets (jm_set (tickets s) (a_id (act s r)) (newTicket (a_id (act s r)))) s).

Definition enqueue (r : nat) : M unit :=
  assertNewAction r;;
  emodify (λ s, let p := a_delivery (act s r) in set_list p (list_of p s ++ [r]) s);;
  make_ticket r.

(** [list.splice(i, 0, x)] and [list.splice(i, 1)] *)
Definition splice_in (i : nat) (x : nat) (l : list nat) : list nat := take i l ++ x :: drop i l.
Definition splice_out (i : nat) (l : list nat) : list nat := take i l ++ drop (S i) l.

(** [list.findIndex(...)] and [list.indexOf(...)]; [None] is [-1]. *)
Definition findIndex (P : nat → bool) (l : list nat) : option nat := fst <$> list_find P l.
Definition indexOf (r : nat) (l : list nat) : option nat := fst <$> list_find (r =.) l.

Definition enqueueFront (r : nat) : M unit :=
  assertNewAction r;;
  emodify (λ s,
    let p := a_delivery (act s r) in
    let list := list_of p s in
    let firstQueued := findIndex (is_queued s) list in
    set_list p (splice_in (default (length list) firstQueued) r list) s);;
  make_ticket r.

Definition selectFirst : M (option nat) :=
  s ← eget;
  let action := match find (is_queued s) (nextTurnBoundary s) with
    | Some r => Some r
    | None => find (is_queued s) (whenRunIdle s)
    end in
  match action with
  | Some r => transition r Selected None;; mret (Some r)
  | None => mret None
  end.

(** [candidates] defaults to the clearable actions. *)
Definition remove (predicate : nat → SessionAction → bool) (candidates : option (list nat)) : M (list nat) :=
  s ← eget;
  let removed := filter (λ r, predicate r (act s r)) (default (clearableActions None s) candidates) in
  efor removed (λ r, transition r Cancelled None);;
  mret removed.

Definition rollback (r : nat) (proof : option RollbackProof) : M unit := transition r Queued proof.

Definition swapQueued (left right : nat) : M unit :=
  s ← eget;
  if negb (is_queued s left) || negb (is_queued s right) ||
     negb (bool_decide (a_delivery (act s left) = a_delivery (act s right)))
  then ethrow (js "Only queued actions in the same lane can be swapped") else
  let p := a_delivery (act s left) in
  let list := list_of p s in
  match indexOf left list, indexOf right list with
  | Some leftIndex, Some rightIndex => emodify (set_list p (<[rightIndex := left]> (<[leftIndex := right]> list)))
  | _, _ => ethrow (js "Queued action is not owned by this store")
  end.

Definition moveQueued (r : nat) (delivery : DeliveryPolicy) (index : Z) : M unit :=
  s ← eget;
  if negb (is_queued s r) then ethrow (js "Only queued actions can be moved") else
  let from := a_delivery (act s r) in
  match indexOf r (list_of from s) with
  | None => ethrow (notOwned (a_id (act s r)))
  | Some sourceIndex =>
      emodify (set_list from (splice_out sourceIndex (list_of from s)));;
      emodify (set_action r (with_delivery delivery (act s r)));;
      emodify (λ s,
        let target := list_of delivery s in
        let queued := filter (λ x, is_queued s x) target in
        let before := queued !! Z.to_nat (Z.max 0 (Z.min index (Z.of_nat (length queued)))) in
        set_list delivery (splice_in (default (length target) (before ≫= λ b, indexOf b target)) r target) s)
  end.

Definition ticketFor (r : nat) : M ActionTicketController :=
  s ← eget;
  match jm_get (tickets s) (a_id (act s r)) with
  | Some t => mret t
  | None => ethrow (notOwned (a_id (act s r)))
  end.

(** A method of the ticket of an action; whether it settled a promise. *)
Definition settle_for (r : nat) (m : Settlement) : M bool :=
  t ← ticketFor r;
  let '(t', b) := settle_ticket m t in
  emodify (λ s, set_tickets (jm_set (tickets s) (a_id (act s r)) t') s);;
  mret b.

Definition releaseTerminal (r : nat) : M unit :=
  s ← eget;
  if negb (is_terminal (act s r))
  then ethrow (js "Cannot release nonterminal session action " ++ a_id (act s r)) else
  let p := a_delivery (act s r) in
  ewhen (bool_decide (is_Some (indexOf r (list_of p s))))
    (emodify (set_list p (splice_out (default 0%nat (indexOf r (list_of p s))) (list_of p s))));;
  emodify (λ s', set_tickets (jm_delete (tickets s') (a_id (act s r))) s').

(** ** When work may start and sessions may be evicted *)

Record RuntimeActivity := MkActivity {
  lowerAgentRun : bool; compaction : bool; retry : bool; bash : bool; refinementApply : bool;
  branchMutation : bool; schedulerPauseCount : Z; ra_disposing : bool
}.

Definition canSelectSessionAction (activity : RuntimeActivity) : bool :=
  negb (lowerAgentRun activity) && negb (compaction activity) && negb (retry activity) && negb (bash activity) &&
  negb (refinementApply activity) && negb (branchMutation activity) && (schedulerPauseCount activity =? 0) &&
  negb (ra_disposing activity).

(** [None] is ["off"]; the activity [None] is not a number. *)
Record SessionEvictionSnapshot := MkEviction {
  isSessionActive : bool; attachedClients : Z; hasRegisteredCronJob : bool; lastActivityAt : option Z
}.
Record SessionPassivationSnapshot := MkPassivation {
  ps_session : SessionEvictionSnapshot; hasParent : bool; hasNonPassiveDescendants : bool; isHydrating : bool
}.
Inductive WorkerLifecycle := WStarting | WReady | WRecovering | WStopping | WFailed.
#[export] Instance WorkerLifecycle_eq_dec : EqDecision WorkerLifecycle.
Proof. solve_decision. Defined.
Record WorkerEvictionSnapshot := MkWorker {
  wk_lifecycle : WorkerLifecycle; isConnected : bool; isStopping : bool; hasOwnerClient : bool;
  isPreparingUpdateRestart : bool; hasWakeBlindSchedule : bool; sessions : list SessionEvictionSnapshot
}.

Definition isIdleEvictionThresholdMet (session : SessionEvictionSnapshot) (idleEvictionMinutes : option Z) (now : Z) : bool :=
  match idleEvictionMinutes with
  | None => false
  | Some minutes =>
      if minutes <=? 0 then false else
      negb (isSessionActive session) && (attachedClients session =? 0) && negb (hasRegisteredCronJob session) &&
      match lastActivityAt session with Some t => minutes * 60000 <=? now - t | None => false end
  end.

Definition canPassivateSession (session : SessionPassivationSnapshot) (idleEvictionMinutes : option Z) (now : Z) : bool :=
  hasParent session && negb (hasNonPassiveDescendants session) && negb (isHydrating session) &&
  isIdleEvictionThresholdMet (ps_session session) idleEvictionMinutes now.

Definition canEvictWorker (worker : WorkerEvictionSnapshot) (idleEvictionMinutes : option Z) (now : Z) : bool :=
  if negb (bool_decide (wk_lifecycle worker = WReady)) || negb (isConnected worker) || isStopping worker ||
     hasOwnerClient worker || isPreparingUpdateRestart worker || hasWakeBlindSchedule worker ||
     bool_decide (length (sessions worker) = 0%nat)
  then false else forallb (λ session, isIdleEvictionThresholdMet session idleEvictionMinutes now) (sessions worker).
