(* ===== verification/SessionActionSpec.v ===== *)
(** * Actions of a session: the invariant

    What each operation of [SessionAction] does to the lists and the tickets,
    the invariant [Inv] of the store, and the relation [evolves] between two
    states in the life of the actions.  Every step keeps both. *)

From S2P Require Import Prelude.
From S2P Require Import Eff.
From S2P Require Import JsMap.
From S2P Require Import SlashCommands.
From S2P Require Import SessionAction.

(** ** Lists *)

Section lists.
Context {A : Type} `{EqDecision A}.
Implicit Types (l : list A) (P : A → Prop).

Lemma filter_agree P P' `{!∀ x, Decision (P x)} `{!∀ x, Decision (P' x)} l :
  (∀ x, x ∈ l → P x ↔ P' x) → filter P l = filter P' l.
Proof.
  induction l as [|x l IH]; intros Hl; [done|]. rewrite !filter_cons.
  rewrite (IH (λ y Hy, Hl y (list_elem_of_further _ _ _ Hy))). pose proof (Hl x (list_elem_of_here _ _)).
  repeat case_decide; tauto.
Qed.

Lemma filter_fmap_keep P `{!∀ x, Decision (P x)} (f : A → A) l : (∀ x, P (f x) ↔ P x) → filter P (f <$> l) = f <$> filter P l.
Proof.
  intros Hf. induction l as [|x l IH]; [done|]. rewrite fmap_cons, !filter_cons, IH. pose proof (Hf x).
  by repeat case_decide; try tauto.
Qed.

Lemma filter_remove P P' `{!∀ x, Decision (P x)} `{!∀ x, Decision (P' x)} r l :
  (∀ x, x ∈ l → P' x ↔ P x ∧ x ≠ r) → filter P' l = filter (λ x, x ≠ r) (filter P l).
Proof.
  intros Hl. rewrite list_filter_filter. apply filter_agree. intros x Hx. rewrite (Hl x Hx). tauto.
Qed.

(** The place of the [k]th element of a filtered list. *)
Lemma filter_split P `{!∀ x, Decision (P x)} l j b k : NoDup l → list_find (b =.) l = Some (j, b) →
  filter P l !! k = Some b → filter P (take j l) = take k (filter P l) ∧ filter P (drop j l) = drop k (filter P l).
Proof.
  intros Hnd Hj Hk. apply list_find_Some in Hj as (Hj&_&_).
  assert (Hl : filter P l = filter P (take j l) ++ filter P (drop j l)) by (by rewrite <-filter_app, take_drop).
  assert (P b) as Hb by (by apply list_elem_of_lookup_2, list_elem_of_filter in Hk as []).
  rewrite (drop_S _ b j) in Hl |- * by done. rewrite (filter_cons_True P b) in Hl |- * by done.
  assert (k = length (filter P (take j l))) as ->.
  { apply (NoDup_filter P) in Hnd. rewrite Hl in Hk, Hnd. eapply NoDup_lookup; [exact Hnd|exact Hk|].
    by rewrite lookup_app_r, Nat.sub_diag by done. }
  rewrite Hl. by rewrite take_app_length, drop_app_length.
Qed.
End lists.

(** ** The invariant *)

Record Inv (s : ActionStore) : Prop := {
  inv_nodup : NoDup (ownedActions s);
  inv_lane : ∀ p r, r ∈ list_of p s → a_delivery (act s r) = p;
  inv_alloc : ∀ r, r ∈ ownedActions s → r ∈ dom (heap s);
  inv_ids : ∀ r1 r2, r1 ∈ dom (heap s) → r2 ∈ dom (heap s) → a_id (act s r1) = a_id (act s r2) → r1 = r2;
  inv_keys : keys_NoDup (tickets s);
  inv_tickets : ∀ id, id ∈ jm_keys (tickets s) ↔ ∃ r, r ∈ ownedActions s ∧ a_id (act s r) = id;
  inv_ticket_id : ∀ id t, jm_get (tickets s) id = Some t → t_id t = id
}.

Lemma act_set r a s x : act (set_action r a s) x = if decide (x = r) then a else act s x.
Proof.
  unfold act, set_action. cbn. case_decide as E; [subst; apply lookup_total_insert_eq|by apply lookup_total_insert_ne].
Qed.
Lemma act_set_eq r a s : act (set_action r a s) r = a.
Proof. rewrite act_set. by rewrite decide_True. Qed.
Lemma act_set_ne r a s x : x ≠ r → act (set_action r a s) x = act s x.
Proof. intros Hx. rewrite act_set. by rewrite decide_False. Qed.

Lemma act_set_list p l s x : act (set_list p l s) x = act s x.
Proof. by destruct p. Qed.
Lemma heap_set_list p l s : heap (set_list p l s) = heap s.
Proof. by destruct p. Qed.
Lemma tickets_set_list p l s : tickets (set_list p l s) = tickets s.
Proof. by destruct p. Qed.
Lemma list_set_list p p' l s : list_of p (set_list p' l s) = if decide (p = p') then l else list_of p s.
Proof. by destruct p, p'. Qed.

Lemma owned_list r s : r ∈ ownedActions s ↔ ∃ p, r ∈ list_of p s.
Proof.
  unfold ownedActions, actions. rewrite elem_of_app. split.
  - intros [?|?]; [by exists NextTurnBoundary|by exists WhenRunIdle].
  - intros [[] ?]; auto.
Qed.

Lemma owned_lane r s : Inv s → r ∈ ownedActions s → r ∈ list_of (a_delivery (act s r)) s.
Proof. intros Hi [p Hp]%owned_list. by rewrite (inv_lane _ Hi p). Qed.

Lemma nodup_lane p s : Inv s → NoDup (list_of p s).
Proof. intros Hi. destruct p; by pose proof (inv_nodup _ Hi) as (H1&_&H2)%NoDup_app. Qed.

Lemma lane_only p r s : Inv s → r ∈ list_of p s → ∀ p', r ∈ list_of p' s → p' = p.
Proof. intros Hi H1 p' H2. by rewrite <-(inv_lane _ Hi p r H1), <-(inv_lane _ Hi p' r H2). Qed.

(** The identifiers of distinct objects differ, so each owned action has its own ticket. *)
Lemma ticket_of r s : Inv s → r ∈ ownedActions s → a_id (act s r) ∈ jm_keys (tickets s).
Proof. intros Hi Hr. apply (inv_tickets _ Hi). by exists r. Qed.

Lemma not_owned_ticket r s : Inv s → r ∈ dom (heap s) → jm_has (tickets s) (a_id (act s r)) = false ↔ r ∉ ownedActions s.
Proof.
  intros Hi Hd. rewrite <-not_true_iff_false, jm_has_spec, (inv_tickets _ Hi). split.
  - intros Hn Hr. apply Hn. by exists r.
  - intros Hr (x&Hx&E). apply Hr. apply (inv_ids _ Hi) in E; [by subst| |done]. by apply (inv_alloc _ Hi).
Qed.

(** ** What the operations do *)

Implicit Types (s : ActionStore) (r : nat).

Definition added (r : nat) (f : list nat → list nat) (s : ActionStore) : ActionStore :=
  let p := a_delivery (act s r) in
  set_tickets (jm_set (tickets s) (a_id (act s r)) (newTicket (a_id (act s r)))) (set_list p (f (list_of p s)) s).

Definition front (s : ActionStore) (r : nat) (l : list nat) : list nat :=
  splice_in (default (length l) (findIndex (is_queued s) l)) r l.

Lemma assert_run r s : is_queued s r = true → jm_has (tickets s) (a_id (act s r)) = false →
  assertNewAction r s = (s, Ok tt).
Proof. intros Hq Ht. unfold assertNewAction. rewrite run_get, Hq, Ht. done. Qed.

Lemma assert_fails r s : is_queued s r = false ∨ jm_has (tickets s) (a_id (act s r)) = true →
  ∃ e, assertNewAction r s = (s, Throw e).
Proof.
  intros Hf. unfold assertNewAction. rewrite run_get.
  destruct (is_queued s r); cbn [negb]; [|by eexists]. destruct Hf as [Hf|Hf]; [done|]. rewrite Hf. by eexists.
Qed.

Lemma make_ticket_run r p l s :
  make_ticket r (set_list p l s) = (set_tickets (jm_set (tickets s) (a_id (act s r)) (newTicket (a_id (act s r)))) (set_list p l s), Ok tt).
Proof. unfold make_ticket, emodify. by rewrite act_set_list, tickets_set_list. Qed.

Definition can_add (s : ActionStore) (r : nat) : bool := is_queued s r && negb (jm_has (tickets s) (a_id (act s r))).

Lemma enqueue_run r s : ∃ e, enqueue r s = if can_add s r then (added r (λ l, l ++ [r]) s, Ok tt) else (s, Throw e).
Proof.
  unfold enqueue. rewrite run_bind. unfold can_add. destruct (is_queued s r) eqn:Hq, (jm_has _ _) eqn:Ht; cbn [andb negb].
  2:{ exists []. rewrite assert_run by done. rewrite run_modify. cbv zeta. by apply make_ticket_run. }
  all: destruct (assert_fails r s) as [e ->]; [by auto|by exists e].
Qed.

Lemma enqueueFront_run r s : ∃ e, enqueueFront r s = if can_add s r then (added r (front s r) s, Ok tt) else (s, Throw e).
Proof.
  unfold enqueueFront. rewrite run_bind. unfold can_add. destruct (is_queued s r) eqn:Hq, (jm_has _ _) eqn:Ht; cbn [andb negb].
  2:{ exists []. rewrite assert_run by done. rewrite run_modify. cbv zeta. by apply make_ticket_run. }
  all: destruct (assert_fails r s) as [e ->]; [by auto|by exists e].
Qed.

Lemma transition_run r next proof s : transition r next proof s =
  match transitionSessionAction (act s r) next proof with
  | Ok a => (set_action r a s, Ok tt)
  | Throw e => (s, Throw e)
  end.
Proof. unfold transition. rewrite run_get, run_lift. by destruct (transitionSessionAction _ _ _). Qed.

Lemma transition_ok a next proof a' : transitionSessionAction a next proof = Ok a' →
  a' = with_lifecycle next a ∧ state_name next ∈ LEGAL_TRANSITIONS (state a).
Proof.
  unfold transitionSessionAction. case_bool_decide as Hl; cbn [negb]; [|done].
  repeat case_match; intros [= <-]; by split.
Qed.

Lemma transition_cancel a : transitionSessionAction a Cancelled None =
  if is_terminal a then Throw (illegalTransition (state a) NCancelled) else Ok (with_lifecycle Cancelled a).
Proof. unfold transitionSessionAction, is_terminal. by destruct (state a). Qed.

Lemma clearable_open a : isClearable a = true → is_terminal a = false.
Proof. unfold isClearable, is_terminal. by destruct (state a). Qed.

(** *** The invariant is kept *)

(** A change that keeps the identifiers and the owned actions. *)
Lemma inv_change s s' : Inv s → dom (heap s') = dom (heap s) →
  (∀ x, x ∈ dom (heap s) → a_id (act s' x) = a_id (act s x)) → ownedActions s' ≡ₚ ownedActions s →
  (∀ p x, x ∈ list_of p s' → a_delivery (act s' x) = p) → tickets s' = tickets s → Inv s'.
Proof.
  intros Hi Hd Hid Ho Hl Ht. split.
  - rewrite Ho. apply Hi.
  - exact Hl.
  - intros x. rewrite Ho, Hd. apply Hi.
  - intros x y. rewrite Hd. intros Hx Hy. rewrite !Hid by done. by apply Hi.
  - rewrite Ht. apply Hi.
  - intros id. rewrite Ht, (inv_tickets _ Hi). apply exist_proper. intros x. rewrite Ho.
    split; intros [Hx <-]; (split; [done|]); [|symmetry]; by apply Hid, Hi.
  - rewrite Ht. apply Hi.
Qed.

Lemma dom_set_action r a s : r ∈ dom (heap s) → dom (heap (set_action r a s)) = dom (heap s).
Proof. intros Hr. unfold set_action. cbn. rewrite dom_insert_L. set_solver. Qed.

Lemma inv_set_action r a s : Inv s → r ∈ dom (heap s) → a_id a = a_id (act s r) → a_delivery a = a_delivery (act s r) →
  Inv (set_action r a s).
Proof.
  intros Hi Hr Hid Hdel. apply (inv_change s); try done.
  - by apply dom_set_action.
  - intros x _. rewrite act_set. case_decide; by subst.
  - intros p x Hx. assert (x ∈ list_of p s) as Hx' by (by destruct p). rewrite act_set.
    case_decide; [subst; rewrite Hdel|]; by apply Hi.
Qed.

Lemma inv_transition r next proof s : Inv s → r ∈ dom (heap s) → Inv (transition r next proof s).1.
Proof.
  intros Hi Hr. rewrite transition_run. destruct (transitionSessionAction _ _ _) as [a|e] eqn:E; [|done].
  apply transition_ok in E as [-> _]. by apply inv_set_action.
Qed.

Lemma owned_set_list p l s : ownedActions (set_list p l s) =
  (if decide (p = NextTurnBoundary) then l else nextTurnBoundary s) ++ (if decide (p = WhenRunIdle) then l else whenRunIdle s).
Proof. by destruct p. Qed.

Lemma owned_perm p l s : l ≡ₚ list_of p s → ownedActions (set_list p l s) ≡ₚ ownedActions s.
Proof. intros Hl. destruct p; cbn; unfold ownedActions, actions; cbn; by rewrite Hl. Qed.

Lemma inv_perm p l s : Inv s → l ≡ₚ list_of p s → Inv (set_list p l s).
Proof.
  intros Hi Hl. apply (inv_change s); [done|by rewrite heap_set_list|by intros; rewrite act_set_list|by apply owned_perm| |by apply tickets_set_list].
  intros p' x. rewrite list_set_list, act_set_list. case_decide; [subst; rewrite Hl|]; apply Hi.
Qed.

Lemma owned_added r f s : f (list_of (a_delivery (act s r)) s) ≡ₚ r :: list_of (a_delivery (act s r)) s →
  ownedActions (added r f s) ≡ₚ r :: ownedActions s.
Proof.
  intros Hf. unfold added. set (p := a_delivery (act s r)) in *. unfold ownedActions, actions.
  destruct p; cbn in *; rewrite Hf; [done|]. by rewrite <-Permutation_middle.
Qed.

Lemma act_added r f s x : act (added r f s) x = act s x.
Proof. unfold added. by destruct (a_delivery _). Qed.

Lemma heap_added r f s : heap (added r f s) = heap s.
Proof. unfold added. by destruct (a_delivery _). Qed.

Lemma list_added r f s p : list_of p (added r f s) =
  if decide (p = a_delivery (act s r)) then f (list_of p s) else list_of p s.
Proof. unfold added. by destruct p, (a_delivery (act s r)). Qed.

Lemma tickets_added r f s : tickets (added r f s) = jm_set (tickets s) (a_id (act s r)) (newTicket (a_id (act s r))).
Proof. unfold added. by destruct (a_delivery _). Qed.

Lemma inv_added r f s : Inv s → r ∈ dom (heap s) → can_add s r = true →
  f (list_of (a_delivery (act s r)) s) ≡ₚ r :: list_of (a_delivery (act s r)) s → Inv (added r f s).
Proof.
  intros Hi Hr [_ Ht%negb_true_iff]%andb_true_iff Hf. pose proof (owned_added r f s Hf) as Ho.
  apply (not_owned_ticket r s Hi Hr) in Ht as Hn. split.
  - rewrite Ho. apply NoDup_cons. split; [done|apply Hi].
  - intros p x. rewrite act_added, list_added. case_decide as E; [|apply Hi]. subst. rewrite Hf, elem_of_cons.
    intros [->|Hx]; [done|by apply Hi].
  - intros x. rewrite Ho, heap_added, elem_of_cons. intros [->|Hx]; [done|by apply Hi].
  - intros x y. rewrite heap_added, !act_added. apply Hi.
  - rewrite tickets_added. apply jm_set_NoDup, Hi.
  - intros id. rewrite tickets_added, jm_keys_set, (inv_tickets _ Hi). setoid_rewrite Ho. setoid_rewrite act_added.
    setoid_rewrite elem_of_cons. split.
    + intros [->|(x&Hx&<-)]; [exists r; by split; [left|]|exists x; by split; [right|]].
    + intros (x&[->|Hx]&<-); [by left|right; by exists x].
  - intros id t. rewrite tickets_added, jm_get_set. case_decide; [by intros [= <-]|apply Hi].
Qed.

Lemma splice_in_perm i r (l : list nat) : splice_in i r l ≡ₚ r :: l.
Proof. unfold splice_in. by rewrite <-Permutation_middle, take_drop. Qed.

Lemma indexOf_Some r l i : indexOf r l = Some i → l !! i = Some r.
Proof.
  unfold indexOf. destruct (list_find _ l) as [[j x]|] eqn:E; [|done]. intros [= <-].
  by apply list_find_Some in E as (?&->&_).
Qed.
Lemma indexOf_None r l : indexOf r l = None → r ∉ l.
Proof.
  unfold indexOf. destruct (list_find _ l) as [[j x]|] eqn:E; [done|]. intros _ Hr.
  apply list_find_None in E. rewrite Forall_forall in E. by apply (E r).
Qed.
Lemma splice_out_perm i r (l : list nat) : l !! i = Some r → r :: splice_out i l ≡ₚ l.
Proof. intros Hi. unfold splice_out. rewrite Permutation_middle. by rewrite take_drop_middle. Qed.
Lemma splice_out_filter i r (l : list nat) : NoDup l → l !! i = Some r → splice_out i l = filter (λ x, x ≠ r) l.
Proof.
  intros Hnd Hi. unfold splice_out. rewrite <-(take_drop_middle l i r Hi) at 3. rewrite <-(take_drop_middle l i r Hi) in Hnd.
  apply NoDup_app in Hnd as (_&Hd&[Hn _]%NoDup_cons).
  rewrite filter_app, filter_cons_False by tauto. f_equal; symmetry; apply filter_all.
  - intros x Hx ->. apply (Hd r Hx). left.
  - intros x Hx ->. done.
Qed.

Definition without (r : nat) (s : ActionStore) : ActionStore :=
  let p := a_delivery (act s r) in set_list p (filter (λ x, x ≠ r) (list_of p s)) s.

Lemma list_without r s p : Inv s → list_of p (without r s) = filter (λ x, x ≠ r) (list_of p s).
Proof.
  intros Hi. unfold without. rewrite list_set_list. case_decide as E; [by subst|]. symmetry. apply filter_all.
  intros x Hx ->. apply E. symmetry. by apply Hi.
Qed.

(** Where a moved action goes: the place, in the lane without it, of the waiting
    action with the given index. *)
Definition place (index : Z) (s : ActionStore) (target : list nat) : nat :=
  let queued := filter (λ x, is_queued s x) target in
  default (length target)
    ((queued !! Z.to_nat (Z.max 0 (Z.min index (Z.of_nat (length queued))))) ≫= λ b, indexOf b target).

Definition moved (r : nat) (delivery : DeliveryPolicy) (index : Z) (s : ActionStore) : ActionStore :=
  let s1 := set_action r (with_delivery delivery (act s r)) (without r s) in
  set_list delivery (splice_in (place index s1 (list_of delivery s1)) r (list_of delivery s1)) s1.

Lemma move_run r delivery index s : Inv s → ∃ e, moveQueued r delivery index s =
  if is_queued s r && bool_decide (r ∈ ownedActions s) then (moved r delivery index s, Ok tt) else (s, Throw e).
Proof.
  intros Hi. unfold moveQueued. rewrite run_get. destruct (is_queued s r) eqn:Hq; cbn [negb andb]; [|by eexists].
  cbv zeta. destruct (indexOf r (list_of (a_delivery (act s r)) s)) as [j|] eqn:Ej.
  - exists []. apply indexOf_Some in Ej. rewrite bool_decide_true by (apply owned_list; eexists; by eapply list_elem_of_lookup_2).
    rewrite !run_modify. unfold emodify, moved, without.
    by rewrite (splice_out_filter j r) by (by try apply nodup_lane).
  - rewrite bool_decide_false; [by eexists|]. intros Hr. by apply (indexOf_None r _ Ej), owned_lane.
Qed.

Lemma owned_filter r s : Inv s → r ∈ ownedActions s → r :: filter (λ x, x ≠ r) (ownedActions s) ≡ₚ ownedActions s.
Proof.
  intros Hi Hr. apply list_elem_of_lookup in Hr as [j Hj].
  rewrite <-(splice_out_filter j r) by (try done; apply Hi). by apply splice_out_perm.
Qed.

Lemma owned_eq s : ownedActions s = list_of NextTurnBoundary s ++ list_of WhenRunIdle s.
Proof. done. Qed.

Lemma owned_without r s : Inv s → ownedActions (without r s) = filter (λ x, x ≠ r) (ownedActions s).
Proof. intros Hi. by rewrite !owned_eq, filter_app, !list_without. Qed.

Lemma list_moved r delivery index s p : Inv s → list_of p (moved r delivery index s) =
  if decide (p = delivery)
  then splice_in (place index (set_action r (with_delivery delivery (act s r)) (without r s)) (list_of p (without r s))) r
         (list_of p (without r s))
  else list_of p (without r s).
Proof. intros Hi. unfold moved. rewrite list_set_list. case_decide; [subst|]; by destruct delivery + destruct p. Qed.

Lemma act_moved r delivery index s x : act (moved r delivery index s) x =
  if decide (x = r) then with_delivery delivery (act s r) else act s x.
Proof. unfold moved, without. by rewrite act_set_list, act_set, act_set_list. Qed.

Lemma inv_moved r delivery index s : Inv s → r ∈ ownedActions s → Inv (moved r delivery index s).
Proof.
  intros Hi Hr. apply (inv_change s); [done|..].
  - unfold moved, without. rewrite heap_set_list. unfold set_action. cbn. rewrite heap_set_list, dom_insert_L.
    pose proof (inv_alloc _ Hi r Hr). set_solver.
  - intros x _. rewrite act_moved. case_decide; by subst.
  - rewrite <-(owned_filter r s Hi Hr), <-(owned_without r s Hi), !owned_eq, !list_moved by done.
    destruct delivery; repeat case_decide; try done; rewrite splice_in_perm; [done|].
    by rewrite <-Permutation_middle.
  - intros p x. rewrite list_moved, act_moved by done. rewrite !list_without by done.
    repeat case_decide; subst; try done; rewrite ?splice_in_perm, ?elem_of_cons, ?list_elem_of_filter;
      intros; naive_solver eauto using inv_lane.
  - unfold moved, without. by rewrite tickets_set_list; cbn; rewrite tickets_set_list.
Qed.

Definition released (r : nat) (s : ActionStore) : ActionStore :=
  set_tickets (jm_delete (tickets s) (a_id (act s r))) (without r s).

Lemma release_run r s : Inv s → ∃ e, releaseTerminal r s =
  if is_terminal (act s r) then (released r s, Ok tt) else (s, Throw e).
Proof.
  intros Hi. unfold releaseTerminal. rewrite run_get. destruct (is_terminal (act s r)); cbn [negb]; [|by eexists].
  exists []. cbv zeta. unfold released. set (p := a_delivery (act s r)).
  destruct (indexOf r (list_of p s)) as [j|] eqn:Ej; cbn [ewhen].
  - rewrite bool_decide_true by done. cbn [ewhen default]. rewrite run_modify. unfold emodify, without. fold p.
    apply indexOf_Some in Ej. by rewrite (splice_out_filter j r), tickets_set_list by (by try apply nodup_lane).
  - rewrite bool_decide_false by (by intros []). unfold without. fold p.
    assert (filter (λ x, x ≠ r) (list_of p s) = list_of p s) as ->.
    { apply filter_all. intros x Hx ->. by apply (indexOf_None r _ Ej). }
    unfold mbind, eff_bind, ewhen, mret, eff_ret, emodify. destruct s, p; done.
Qed.

Lemma inv_released r s : Inv s → r ∈ dom (heap s) → Inv (released r s).
Proof.
  intros Hi Hr. pose proof (owned_without r s Hi) as Ho.
  assert (∀ x, act (released r s) x = act s x) as Ha by (intros; unfold released, without; cbn; apply act_set_list).
  assert (heap (released r s) = heap s) as Hh by (unfold released, without; cbn; apply heap_set_list).
  assert (ownedActions (released r s) = ownedActions (without r s)) as E by (unfold released, without; by destruct (a_delivery _)).
  split.
  - rewrite E, Ho. apply NoDup_filter, Hi.
  - intros p x Hx. rewrite Ha. assert (x ∈ list_of p (without r s)) as Hx' by (destruct p; exact Hx).
    rewrite list_without in Hx' by done. apply list_elem_of_filter in Hx' as [_ Hx']. by apply Hi.
  - intros x. rewrite E, Ho, Hh, list_elem_of_filter. intros [_ Hx]. by apply Hi.
  - intros x y. rewrite Hh, !Ha. apply Hi.
  - apply jm_delete_NoDup, Hi.
  - intros id. rewrite <-jm_get_is_Some.
    change (tickets (released r s)) with (jm_delete (tickets s) (a_id (act s r))). rewrite jm_get_delete.
    rewrite E, Ho. setoid_rewrite Ha. setoid_rewrite list_elem_of_filter. case_decide as Hid.
    + split; [by intros []|]. intros (x&[Hx Hin]&Hx'). exfalso. apply Hx. apply (inv_ids _ Hi); [by apply Hi|done|]. congruence.
    + rewrite jm_get_is_Some, (inv_tickets _ Hi). split.
      * intros (x&Hx&<-). exists x. split; [|done]. split; [|done]. by intros ->.
      * intros (x&[_ Hx]&<-). by exists x.
  - intros id t. cbn. rewrite jm_get_delete. case_decide; [done|]. apply Hi.
Qed.

(** *** Swapping and removing *)

Definition swap (a b x : nat) : nat := if decide (x = a) then b else if decide (x = b) then a else x.

Lemma swap_insert a b i j (l : list nat) : NoDup l → l !! i = Some a → l !! j = Some b →
  <[j := a]> (<[i := b]> l) = swap a b <$> l.
Proof.
  intros Hnd Hi Hj. apply list_eq. intros k. rewrite list_lookup_fmap.
  assert (∀ n x, l !! n = Some x → (n < length l)%nat) as Hlt by (intros; by eapply lookup_lt_Some).
  destruct (decide (k = j)) as [->|Hkj].
  - rewrite list_lookup_insert_eq by (rewrite length_insert; eauto). rewrite Hj. cbn. unfold swap. repeat case_decide; congruence.
  - rewrite list_lookup_insert_ne by done. destruct (decide (k = i)) as [->|Hki].
    + rewrite list_lookup_insert_eq by eauto. rewrite Hi. cbn. unfold swap. by rewrite decide_True.
    + rewrite list_lookup_insert_ne by done. destruct (l !! k) as [x|] eqn:Hk; [|done]. cbn. unfold swap.
      repeat case_decide; subst; [..|done]; exfalso; [apply Hki|apply Hkj]; by eapply NoDup_lookup.
Qed.

Lemma swap_inj a b : Inj (=) (=) (swap a b).
Proof. intros x y. unfold swap. repeat case_decide; congruence. Qed.

Lemma swap_perm a b (l : list nat) : NoDup l → a ∈ l → b ∈ l → swap a b <$> l ≡ₚ l.
Proof.
  intros Hnd Ha Hb. apply NoDup_Permutation; [apply NoDup_fmap_2; [apply swap_inj|done]|done|].
  assert (∀ x, x ∈ l → swap a b x ∈ l) as Hin by (intros x Hx; unfold swap; by repeat case_decide).
  intros x. rewrite list_elem_of_fmap. split; [intros (y&->&Hy); auto|]. intros Hx. exists (swap a b x). split; [|auto].
  unfold swap. repeat case_decide; congruence.
Qed.

Definition swapped (a b : nat) (s : ActionStore) : ActionStore :=
  let p := a_delivery (act s a) in set_list p (swap a b <$> list_of p s) s.

Definition can_swap (s : ActionStore) (a b : nat) : bool :=
  is_queued s a && is_queued s b && bool_decide (a_delivery (act s a) = a_delivery (act s b)) &&
  bool_decide (a ∈ ownedActions s) && bool_decide (b ∈ ownedActions s).

Lemma indexOf_is_Some r l : r ∈ l → ∃ i, indexOf r l = Some i.
Proof. intros Hr. destruct (indexOf r l) as [i|] eqn:E; [by exists i|]. by apply indexOf_None in E. Qed.

Lemma swap_run a b s : Inv s → ∃ e, swapQueued a b s = if can_swap s a b then (swapped a b s, Ok tt) else (s, Throw e).
Proof.
  intros Hi. unfold swapQueued, can_swap. rewrite run_get.
  destruct (is_queued s a), (is_queued s b); cbn [negb orb andb]; try by eexists.
  case_bool_decide as Hp; cbn [negb andb]; [|by eexists]. cbv zeta.
  destruct (decide (a ∈ ownedActions s)) as [Ha|Ha].
  2:{ rewrite (bool_decide_false (a ∈ _)) by done. cbn [andb]. destruct (indexOf a _) eqn:E; [|by eexists].
      exfalso. apply Ha, owned_list. eexists. eapply list_elem_of_lookup_2. by eapply indexOf_Some. }
  rewrite (bool_decide_true (a ∈ _)) by done. cbn [andb]. pose proof (owned_lane a s Hi Ha) as HA.
  destruct (indexOf_is_Some a _ HA) as [i Hx]. rewrite Hx.
  destruct (decide (b ∈ ownedActions s)) as [Hb|Hb].
  - rewrite bool_decide_true by done. pose proof (owned_lane b s Hi Hb) as HB. rewrite <-Hp in HB.
    destruct (indexOf_is_Some b _ HB) as [j Hy]. rewrite Hy. exists []. unfold emodify, swapped.
    by rewrite (swap_insert a b) by (try (by apply nodup_lane); by apply indexOf_Some).
  - rewrite bool_decide_false by done. destruct (indexOf b _) eqn:E; [|by eexists].
    exfalso. apply Hb, owned_list. eexists. eapply list_elem_of_lookup_2. by eapply indexOf_Some.
Qed.

Lemma can_swap_spec s a b : can_swap s a b = true → is_queued s a = true ∧ is_queued s b = true ∧
  a_delivery (act s a) = a_delivery (act s b) ∧ a ∈ ownedActions s ∧ b ∈ ownedActions s.
Proof. unfold can_swap. rewrite !andb_true_iff, !bool_decide_eq_true. tauto. Qed.

Lemma inv_swapped a b s : Inv s → can_swap s a b = true → Inv (swapped a b s).
Proof.
  intros Hi (_&_&Hp&Ha&Hb)%can_swap_spec. apply inv_perm; [done|].
  apply swap_perm; [by apply nodup_lane|by apply owned_lane|]. rewrite Hp. by apply owned_lane.
Qed.

(** A change of the heap alone. *)
Definition same_lists (s s' : ActionStore) : Prop :=
  nextTurnBoundary s' = nextTurnBoundary s ∧ whenRunIdle s' = whenRunIdle s ∧ tickets s' = tickets s.

Lemma same_lists_of s s' p : same_lists s s' → list_of p s' = list_of p s.
Proof. intros (?&?&?). by destruct p. Qed.

(** Cancelling distinct actions that are not over never throws. *)
Lemma cancel_all l s : NoDup l → (∀ x, x ∈ l → is_terminal (act s x) = false) →
  ∃ s', efor l (λ r, transition r Cancelled None) s = (s', Ok tt) ∧ same_lists s s' ∧
    ∀ x, act s' x = if decide (x ∈ l) then with_lifecycle Cancelled (act s x) else act s x.
Proof.
  revert s. induction l as [|r l IH]; intros s Hnd Hc.
  { exists s. split_and!; [done..|]. intros x. by rewrite decide_False by apply not_elem_of_nil. }
  apply NoDup_cons in Hnd as [Hr Hnd]. cbn [efor]. rewrite run_bind, transition_run, transition_cancel, Hc by left.
  destruct (IH (set_action r (with_lifecycle Cancelled (act s r)) s)) as (s'&E&Hs&Hx); [done| |].
  { intros x Hx. rewrite act_set_ne; [apply Hc; by right|]. by intros ->. }
  exists s'. split_and!; [exact E|exact Hs|]. intros x. rewrite Hx, act_set.
  destruct (decide (x ∈ l)) as [Hl|Hl].
  - rewrite (decide_True (P := x ∈ r :: l)) by (by right). by rewrite decide_False by (by intros ->).
  - case_decide as Exr; [subst; by rewrite decide_True by left|].
    rewrite decide_False; [done|]. rewrite elem_of_cons. tauto.
Qed.

Definition to_remove (predicate : nat → SessionAction → bool) (s : ActionStore) : list nat :=
  filter (λ r, predicate r (act s r)) (clearableActions None s).

Lemma remove_run predicate s : Inv s → ∃ s', remove predicate None s = (s', Ok (to_remove predicate s)) ∧ same_lists s s' ∧
  ∀ x, act s' x = if decide (x ∈ to_remove predicate s) then with_lifecycle Cancelled (act s x) else act s x.
Proof.
  intros Hi. unfold remove. rewrite run_get. cbn [default]. fold (to_remove predicate s). rewrite run_bind.
  destruct (cancel_all (to_remove predicate s) s) as (s'&E&Hs&Hx).
  - unfold to_remove. apply NoDup_filter, NoDup_filter, Hi.
  - intros x [_ [Hx _]%list_elem_of_filter]%list_elem_of_filter. by apply clearable_open, Is_true_true.
  - cbv zeta. change (filter _ (default _ _)) with (to_remove predicate s). rewrite E. by exists s'.
Qed.

(** ** Steps *)

Inductive store_op :=
| OpEnqueue (r : nat)
| OpEnqueueFront (r : nat)
| OpSelect
| OpRemove (predicate : nat → SessionAction → bool) (candidates : option (list nat))
| OpSwap (a b : nat)
| OpMove (r : nat) (delivery : DeliveryPolicy) (index : Z)
| OpTransition (r : nat) (next : ActionLifecycle) (proof : option RollbackProof)
| OpSettle (r : nat) (m : Settlement)
| OpRelease (r : nat).

(** The actions an operation returns. *)
Definition run_op (o : store_op) : eff ActionStore jsstr (list nat) :=
  match o with
  | OpEnqueue r => enqueue r;; mret []
  | OpEnqueueFront r => enqueueFront r;; mret []
  | OpSelect => o ← selectFirst; mret (option_list o)
  | OpRemove predicate candidates => remove predicate candidates
  | OpSwap a b => swapQueued a b;; mret []
  | OpMove r delivery index => moveQueued r delivery index;; mret []
  | OpTransition r next proof => transition r next proof;; mret []
  | OpSettle r m => settle_for r m;; mret []
  | OpRelease r => releaseTerminal r;; mret []
  end.

(** The objects an operation is given exist. *)
Definition mentions (o : store_op) : list nat :=
  match o with
  | OpEnqueue r | OpEnqueueFront r | OpMove r _ _ | OpTransition r _ _ | OpSettle r _ | OpRelease r => [r]
  | OpSelect => []
  | OpRemove _ candidates => default [] candidates
  | OpSwap a b => [a; b]
  end.
Definition valid (o : store_op) (s : ActionStore) : Prop := ∀ r, r ∈ mentions o → r ∈ dom (heap s).

(** Besides its operations, a store sees new actions, each with an identifier of
    its own, and changes of the fields it does not keep (the payload, the wake
    policy, the keys). *)
Inductive store_step : ActionStore → ActionStore → Prop :=
| step_new r a s : r ∉ dom (heap s) → (∀ x, x ∈ dom (heap s) → a_id (act s x) ≠ a_id a) → store_step s (set_action r a s)
| step_edit r a s : r ∈ dom (heap s) → a_id a = a_id (act s r) → a_delivery a = a_delivery (act s r) →
    a_lifecycle a = a_lifecycle (act s r) → store_step s (set_action r a s)
| step_op o s : valid o s → store_step s (run_op o s).1.

Lemma find_filter (P : nat → bool) l : find P l = head (filter (λ x, P x) l).
Proof.
  induction l as [|x l IH]; [done|]. cbn [find]. destruct (P x) eqn:E.
  - by rewrite filter_cons_True by (by rewrite E).
  - by rewrite filter_cons_False by (rewrite E; intros []).
Qed.

Definition queue (p : DeliveryPolicy) (s : ActionStore) : list nat := queuedActions (Some p) s.

Definition first_queued (s : ActionStore) : option nat :=
  match queue NextTurnBoundary s with x :: _ => Some x | [] => head (queue WhenRunIdle s) end.

Lemma queue_elem p r s : r ∈ queue p s ↔ is_queued s r = true ∧ r ∈ list_of p s.
Proof. unfold queue, queuedActions. rewrite list_elem_of_filter, Is_true_true. done. Qed.

Lemma queued_state s r : is_queued s r = true ↔ state (act s r) = NQueued.
Proof. unfold is_queued, in_state. apply bool_decide_eq_true. Qed.

Lemma select_ok s r : is_queued s r = true →
  transitionSessionAction (act s r) Selected None = Ok (with_lifecycle Selected (act s r)).
Proof.
  intros Hq%queued_state. unfold transitionSessionAction. rewrite Hq. done.
Qed.

Lemma selectFirst_run s : selectFirst s =
  match first_queued s with
  | Some r => (set_action r (with_lifecycle Selected (act s r)) s, Ok (Some r))
  | None => (s, Ok None)
  end.
Proof.
  unfold selectFirst. rewrite run_get. cbv zeta. rewrite !find_filter.
  change (filter (λ x, is_queued s x) (nextTurnBoundary s)) with (queue NextTurnBoundary s).
  change (filter (λ x, is_queued s x) (whenRunIdle s)) with (queue WhenRunIdle s).
  assert (match head (queue NextTurnBoundary s) with Some r => Some r | None => head (queue WhenRunIdle s) end = first_queued s) as ->.
  { unfold first_queued. by destruct (queue NextTurnBoundary s). }
  destruct (first_queued s) as [r|] eqn:E; [|done].
  rewrite run_bind, transition_run, select_ok; [done|].
  unfold first_queued in E. destruct (queue NextTurnBoundary s) as [|x l] eqn:El.
  - apply (queue_elem WhenRunIdle). by apply head_Some_elem_of.
  - injection E as <-. apply (queue_elem NextTurnBoundary). rewrite El. left.
Qed.

Lemma first_queued_elem s r : first_queued s = Some r → ∃ p, r ∈ queue p s.
Proof.
  unfold first_queued. destruct (queue NextTurnBoundary s) as [|x l] eqn:E.
  - intros Hr. exists WhenRunIdle. by apply head_Some_elem_of.
  - intros [= <-]. exists NextTurnBoundary. rewrite E. left.
Qed.

Lemma queue_owned p r s : r ∈ queue p s → r ∈ ownedActions s.
Proof. intros [_ Hr]%queue_elem. apply owned_list. eauto. Qed.

(** *** Tickets *)

Definition settled (r : nat) (t : ActionTicketController) (s : ActionStore) : ActionStore :=
  set_tickets (jm_set (tickets s) (a_id (act s r)) t) s.

Lemma settle_run r m s : ∃ e, settle_for r m s =
  match jm_get (tickets s) (a_id (act s r)) with
  | Some t => (settled r (settle_ticket m t).1 s, Ok (settle_ticket m t).2)
  | None => (s, Throw e)
  end.
Proof.
  eexists. unfold settle_for. rewrite run_bind. unfold ticketFor. rewrite run_get.
  destruct (jm_get _ _) as [t|]; [|done]. cbn [mret eff_ret]. by destruct (settle_ticket m t).
Qed.

Lemma settle_id m t : t_id (settle_ticket m t).1 = t_id t.
Proof. destruct m as [| | |[]]; cbn; unfold settle, reject; by case_match. Qed.

Lemma inv_settled r t0 t s : Inv s → jm_get (tickets s) (a_id (act s r)) = Some t0 → t_id t = t_id t0 → Inv (settled r t s).
Proof.
  intros Hi Ht Hid. assert (a_id (act s r) ∈ jm_keys (tickets s)) as Hk by (apply jm_get_is_Some; by rewrite Ht).
  destruct Hi as [H1 H2 H3 H4 H5 H6 H7]. split; try done.
  - apply jm_set_NoDup, H5.
  - intros id. change (tickets (settled r t s)) with (jm_set (tickets s) (a_id (act s r)) t).
    rewrite jm_keys_set. change (id = a_id (act s r) ∨ id ∈ jm_keys (tickets s) ↔ ∃ x, x ∈ ownedActions s ∧ a_id (act s x) = id).
    rewrite <-(H6 id). split; [|auto]. by intros [->|?].
  - intros id x. change (tickets (settled r t s)) with (jm_set (tickets s) (a_id (act s r)) t). rewrite jm_get_set. case_decide; [|apply H7]. intros [= <-]. subst. rewrite Hid. by apply H7.
Qed.

(** ** The life of an action *)

Definition legal (a b : StateName) : Prop := b ∈ LEGAL_TRANSITIONS a.

(** A promise that is settled stays as it is. *)
Definition stays {A} (d d' : Deferred A) : Prop := d = Unsettled ∨ d' = d.

Definition ticket_stays (t t' : ActionTicketController) : Prop :=
  stays (t_accepted t) (t_accepted t') ∧ stays (t_delivered t) (t_delivered t') ∧ stays (t_completed t) (t_completed t').

Definition ticket_kept (r : nat) (s s' : ActionStore) : Prop := ∀ t, jm_get (tickets s) (a_id (act s r)) = Some t →
  ∃ t', jm_get (tickets s') (a_id (act s' r)) = Some t' ∧ ticket_stays t t'.

(** The history of the objects between two states.  An action takes legal
    transitions and a terminal one keeps its outcome; an owned one stays owned,
    with the promises of its ticket, or is over; one that is over and was let
    go does not come back. *)
Record evolves (s s' : ActionStore) : Prop := {
  ev_alloc : dom (heap s) ⊆ dom (heap s');
  ev_id : ∀ r, r ∈ dom (heap s) → a_id (act s' r) = a_id (act s r);
  ev_legal : ∀ r, r ∈ dom (heap s) → rtc legal (state (act s r)) (state (act s' r));
  ev_over : ∀ r, r ∈ dom (heap s) → is_terminal (act s r) = true → a_lifecycle (act s' r) = a_lifecycle (act s r);
  ev_owned : ∀ r, r ∈ ownedActions s →
    (r ∈ ownedActions s' ∧ ticket_kept r s s') ∨ ((r ∉ ownedActions s') ∧ is_terminal (act s' r) = true);
  ev_gone : ∀ r, r ∈ dom (heap s) → is_terminal (act s r) = true → (r ∉ ownedActions s) → r ∉ ownedActions s'
}.

Lemma stays_refl {A} (d : Deferred A) : stays d d.
Proof. by right. Qed.
Lemma stays_trans {A} (d1 d2 d3 : Deferred A) : stays d1 d2 → stays d2 d3 → stays d1 d3.
Proof. unfold stays. intros [E|E]; subst; auto. Qed.

Lemma ticket_stays_refl t : ticket_stays t t.
Proof. split_and!; apply stays_refl. Qed.

Lemma ticket_kept_trans r s1 s2 s3 : ticket_kept r s1 s2 → ticket_kept r s2 s3 → ticket_kept r s1 s3.
Proof.
  intros H12 H23 t Ht. destruct (H12 t Ht) as (t2&Ht2&?&?&?). destruct (H23 t2 Ht2) as (t3&Ht3&?&?&?).
  exists t3. split; [done|]. split_and!; by eapply stays_trans.
Qed.

Lemma terminal_same a b : a_lifecycle b = a_lifecycle a → is_terminal a = true → is_terminal b = true.
Proof. unfold is_terminal, state. by intros ->. Qed.

Lemma store_evolves_trans s1 s2 s3 : Inv s1 → Inv s2 → evolves s1 s2 → evolves s2 s3 → evolves s1 s3.
Proof.
  intros I1 I2 [A1 A2 A3 A4 A5 A6] [B1 B2 B3 B4 B5 B6].
  assert (∀ r, r ∈ dom (heap s1) → r ∈ dom (heap s2)) as Hd by set_solver.
  split.
  - set_solver.
  - intros r Hr. rewrite B2 by auto. auto.
  - intros r Hr. etrans; eauto.
  - intros r Hr Ht. rewrite B4 by (eauto using terminal_same). auto.
  - intros r Hr. pose proof (inv_alloc _ I1 r Hr) as Hd1. destruct (A5 r Hr) as [[H2 T2]|[H2 T2]].
    + destruct (B5 r H2) as [[H3 T3]|?]; [|by right]. left. split; [done|]. by eapply ticket_kept_trans.
    + right. split; [by apply B6; auto|]. apply (terminal_same (act s2 r)); [|done]. apply B4; auto.
  - intros r Hr Ht Ho. apply B6; [auto..|]. { by apply (terminal_same (act s1 r)); auto. } auto.
Qed.

(** A change that keeps the owned actions and the tickets. *)
Lemma evolves_change s s' : Inv s → dom (heap s) ⊆ dom (heap s') →
  (∀ r, r ∈ dom (heap s) → a_id (act s' r) = a_id (act s r) ∧
    (a_lifecycle (act s' r) = a_lifecycle (act s r) ∨ legal (state (act s r)) (state (act s' r)))) →
  (∀ r, r ∈ ownedActions s' ↔ r ∈ ownedActions s) → tickets s' = tickets s → evolves s s'.
Proof.
  intros Hi Hd Hr Ho Ht.
  split; [done|..].
  - intros r Hd'. by apply Hr.
  - intros r Hd'. destruct (Hr r Hd') as [_ [E|E]]; [unfold state; by rewrite E|by apply rtc_once].
  - intros r Hd' Htm. destruct (Hr r Hd') as [_ [E|E]]; [done|]. exfalso. unfold is_terminal in Htm.
    apply bool_decide_eq_true in Htm. unfold legal in E. destruct (state (act s r)); cbn in *; set_solver.
  - intros r Hin. left. split; [by apply Ho|]. intros t Hg. exists t. split; [|apply ticket_stays_refl].
    rewrite Ht. destruct (Hr r (inv_alloc _ Hi r Hin)) as [-> _]. done.
  - intros r Hd' _. by rewrite Ho.
Qed.

Lemma store_evolves_refl s : Inv s → evolves s s.
Proof. intros Hi. by apply evolves_change; auto. Qed.

Lemma evolves_set_action r a s : Inv s → r ∈ dom (heap s) → a_id a = a_id (act s r) →
  a_lifecycle a = a_lifecycle (act s r) ∨ legal (state (act s r)) (state a) → evolves s (set_action r a s).
Proof.
  intros Hi Hr Hid Hl. apply evolves_change; [done|..|done|done].
  - by rewrite dom_set_action.
  - intros x Hx. rewrite act_set. case_decide; [subst|]; auto.
Qed.

Lemma evolves_transition r next proof s : Inv s → r ∈ dom (heap s) → evolves s (transition r next proof s).1.
Proof.
  intros Hi Hr. rewrite transition_run. destruct (transitionSessionAction _ _ _) as [a|e] eqn:E; [|by apply store_evolves_refl].
  apply transition_ok in E as [-> Hl]. apply evolves_set_action; auto.
Qed.

Lemma evolves_added r f s : Inv s → r ∈ dom (heap s) → can_add s r = true →
  f (list_of (a_delivery (act s r)) s) ≡ₚ r :: list_of (a_delivery (act s r)) s → evolves s (added r f s).
Proof.
  intros Hi Hr [Hq%queued_state Ht%negb_true_iff]%andb_true_iff Hf. pose proof (owned_added r f s Hf) as Ho.
  apply (not_owned_ticket r s Hi Hr) in Ht as Hn.
  split; [by rewrite heap_added|intros x; by rewrite act_added|intros x; by rewrite act_added|intros x; by rewrite act_added|..].
  - intros x Hx. left. rewrite Ho. split; [by right|]. intros t Hg. exists t. split; [|apply ticket_stays_refl].
    rewrite tickets_added, act_added, jm_get_set_ne; [done|]. intros E.
    apply Hn. apply (inv_ids _ Hi) in E; [by subst|done|by apply Hi].
  - intros x Hd Htm Hx. rewrite Ho, not_elem_of_cons. split; [|done]. intros ->.
    unfold is_terminal in Htm. rewrite Hq in Htm. done.
Qed.

Lemma evolves_released r s : Inv s → r ∈ dom (heap s) → is_terminal (act s r) = true → evolves s (released r s).
Proof.
  intros Hi Hr Htm. assert (∀ x, act (released r s) x = act s x) as Ha by (intros; unfold released, without; cbn; apply act_set_list).
  assert (heap (released r s) = heap s) as Hh by (unfold released, without; cbn; apply heap_set_list).
  assert (∀ x, x ∈ ownedActions (released r s) ↔ x ≠ r ∧ x ∈ ownedActions s) as Ho.
  { intros x. change (ownedActions (released r s)) with (ownedActions (without r s)).
    by rewrite owned_without, list_elem_of_filter. }
  split; [by rewrite Hh|intros x; by rewrite Ha|intros x; by rewrite Ha|intros x; by rewrite Ha|..].
  - intros x Hx. rewrite Ho, Ha. destruct (decide (x = r)) as [->|Hne]; [right; split; [by intros []|done]|].
    left. split; [done|]. intros t Hg. exists t. split; [|apply ticket_stays_refl].
    change (tickets (released r s)) with (jm_delete (tickets s) (a_id (act s r))). rewrite Ha, jm_get_delete.
    rewrite decide_False; [done|]. intros E. apply Hne. symmetry. apply (inv_ids _ Hi); [done|by apply Hi|done].
  - intros x _ _ Hx. rewrite Ho. tauto.
Qed.

Lemma settle_stays m t : ticket_stays t (settle_ticket m t).1.
Proof. destruct m as [| | |[]]; cbn; unfold settle, reject; repeat case_match; simplify_eq; split_and!; cbn; unfold stays; auto. Qed.

Lemma evolves_settled r m t s : Inv s → r ∈ dom (heap s) → jm_get (tickets s) (a_id (act s r)) = Some t →
  evolves s (settled r (settle_ticket m t).1 s).
Proof.
  intros Hi Hr Ht. split; try done. intros x Hx. left. split; [done|]. intros u Hu.
  change (tickets (settled r (settle_ticket m t).1 s)) with (jm_set (tickets s) (a_id (act s r)) (settle_ticket m t).1).
  change (act (settled r (settle_ticket m t).1 s) x) with (act s x). rewrite jm_get_set. case_decide as E.
  - exists (settle_ticket m t).1. split; [done|]. rewrite <-E in Hu. rewrite Ht in Hu. injection Hu as <-. apply settle_stays.
  - exists u. split; [done|apply ticket_stays_refl].
Qed.

Lemma cancel_keeps l s : Inv s → (∀ x, x ∈ l → x ∈ dom (heap s)) →
  Inv (efor l (λ r, transition r Cancelled None) s).1 ∧ evolves s (efor l (λ r, transition r Cancelled None) s).1.
Proof.
  revert s. induction l as [|r l IH]; intros s Hi Hl; [by split; [|apply store_evolves_refl]|].
  cbn [efor]. rewrite run_bind. assert (r ∈ dom (heap s)) as Hr by (apply Hl; left).
  pose proof (inv_transition r Cancelled None s Hi Hr) as H1. pose proof (evolves_transition r Cancelled None s Hi Hr) as H2.
  destruct (transition r Cancelled None s) as [s1 [[]|e]]; cbn [fst] in *; [|by split].
  destruct (IH s1) as [H3 H4]; [done| |by split; [|by apply (store_evolves_trans s s1)]].
  intros x Hx. apply (ev_alloc _ _ H2), Hl. by right.
Qed.

Definition fst_of {A} (x : ActionStore * result jsstr A) : ActionStore := x.1.

(** The state after an operation is the one after its only step. *)
Lemma run_ret {A B} (m : eff ActionStore jsstr A) (b : A → B) s : ((m ≫= λ a, mret (b a)) s).1 = (m s).1.
Proof. rewrite run_bind. by destruct (m s) as [s' [a|e]]. Qed.

Lemma perm_snoc (r : nat) l : l ++ [r] ≡ₚ r :: l.
Proof. by rewrite <-Permutation_cons_append. Qed.

Lemma op_keeps o s : Inv s → valid o s → Inv (run_op o s).1 ∧ evolves s (run_op o s).1.
Proof.
  intros Hi Hv. assert (∀ r, r ∈ mentions o → r ∈ dom (heap s)) as Hd by done.
  assert (Inv s ∧ evolves s s) as Hid by (by split; [|apply store_evolves_refl]).
  destruct o as [r|r| |predicate candidates|a b|r p i|r next proof|r m|r]; cbn [run_op mentions] in *; rewrite ?run_ret.
  - destruct (enqueue_run r s) as [e ->]. destruct (can_add s r) eqn:E; [|done].
    assert (r ∈ dom (heap s)) by (apply Hd; left). split; [apply inv_added|apply evolves_added]; auto using perm_snoc.
  - destruct (enqueueFront_run r s) as [e ->]. destruct (can_add s r) eqn:E; [|done].
    assert (r ∈ dom (heap s)) by (apply Hd; left). split; [apply inv_added|apply evolves_added]; auto; apply splice_in_perm.
  - rewrite selectFirst_run. destruct (first_queued s) as [r|] eqn:E; [|done]. cbn [fst].
    apply first_queued_elem in E as [p Hp]. pose proof (inv_alloc _ Hi r (queue_owned _ _ _ Hp)) as Hr.
    apply queue_elem in Hp as [Hq%queued_state _].
    split; [by apply inv_set_action|]. apply evolves_set_action; try done. right. rewrite Hq. left.
  - unfold remove. rewrite run_get, run_ret. apply cancel_keeps; [done|]. intros x [_ Hx]%list_elem_of_filter.
    destruct candidates as [l|]; cbn in Hx; [by apply Hv|]. apply list_elem_of_filter in Hx as [_ Hx]. by apply Hi.
  - destruct (swap_run a b s Hi) as [e ->]. destruct (can_swap s a b) eqn:E; [|done]. cbn [fst].
    pose proof (inv_swapped a b s Hi E) as Hs. split; [done|].
    apply can_swap_spec in E as (_&_&Hp&Ha&Hb). unfold swapped. apply evolves_change; [done|by rewrite heap_set_list| | |apply tickets_set_list].
    + intros x _. rewrite act_set_list. auto.
    + intros x. rewrite owned_perm; [done|]. apply swap_perm; [by apply nodup_lane|by apply owned_lane|].
      rewrite Hp. by apply owned_lane.
  - destruct (move_run r p i s Hi) as [e ->]. destruct (is_queued s r && _) eqn:E; [|done]. cbn [fst].
    apply andb_true_iff in E as [_ Hr%bool_decide_eq_true]. pose proof (inv_moved r p i s Hi Hr) as Hm. split; [done|].
    apply evolves_change; [done|..].
    + unfold moved, without. rewrite heap_set_list. cbn. rewrite heap_set_list, dom_insert_L. set_solver.
    + intros x _. rewrite act_moved. case_decide; [subst|]; auto.
    + intros x. rewrite <-(owned_filter r s Hi Hr), <-owned_without by done. rewrite !owned_list, elem_of_cons, owned_list.
      setoid_rewrite list_moved; [|done]. split.
      * intros [q Hq]. case_decide; [|by eauto]. rewrite splice_in_perm, elem_of_cons in Hq. naive_solver.
      * intros [->|[q Hq]]; [exists p|exists q]; case_decide; try done; rewrite splice_in_perm; [by left|by right].
    + unfold moved, without. rewrite tickets_set_list. cbn. apply tickets_set_list.
  - assert (r ∈ dom (heap s)) by (apply Hd; left). split; [by apply inv_transition|by apply evolves_transition].
  - destruct (settle_run r m s) as [e ->]. destruct (jm_get _ _) as [t|] eqn:E; [|done]. cbn [fst].
    assert (r ∈ dom (heap s)) by (apply Hd; left).
    split; [by eapply inv_settled; [|done|apply settle_id]|by apply evolves_settled].
  - destruct (release_run r s Hi) as [e ->]. destruct (is_terminal (act s r)) eqn:E; [|done]. cbn [fst].
    assert (r ∈ dom (heap s)) by (apply Hd; left). split; [by apply inv_released|by apply evolves_released].
Qed.

Lemma step_keeps s s' : store_step s s' → Inv s → Inv s' ∧ evolves s s'.
Proof.
  destruct 1 as [r a s Hr Hid|r a s Hr Hid Hdel Hl|o s Hv]; intros Hi; [| |by apply op_keeps].
  - assert (∀ x, x ∈ dom (heap s) → act (set_action r a s) x = act s x) as Ha by (intros x Hx; apply act_set_ne; by intros ->).
    assert (evolves s (set_action r a s)) as He.
    { apply evolves_change; try done.
      - cbn. rewrite dom_insert. set_solver.
      - intros x Hx. rewrite Ha by done. auto. }
    split; [|done]. destruct Hi as [H1 H2 H3 H4 H5 H6 H7]. split; try done.
    + intros p x Hx. rewrite Ha by (apply H3, owned_list; eauto). by apply H2.
    + intros x Hx. cbn. rewrite dom_insert. apply elem_of_union_r. by apply H3.
    + intros x y. cbn. rewrite dom_insert. intros [->%elem_of_singleton|Hx]%elem_of_union [->%elem_of_singleton|Hy]%elem_of_union;
        rewrite ?act_set_eq, ?Ha by done; [done|intros E; by destruct (Hid y)|intros E; by destruct (Hid x)|by apply H4].
    + intros id. rewrite (H6 id). apply exist_proper. intros x. split; intros [Hx <-]; (split; [done|]);
        [symmetry|]; rewrite Ha; [done|by apply H3|done|by apply H3].
  - split; [by apply inv_set_action|]. apply evolves_set_action; auto.
Qed.

Lemma steps_keep s s' : rtc store_step s s' → Inv s → Inv s' ∧ evolves s s'.
Proof.
  induction 1 as [s|s1 s2 s3 H12 _ IH]; intros Hi; [by split; [|apply store_evolves_refl]|].
  destruct (step_keeps _ _ H12 Hi) as [I2 E2]. destruct (IH I2) as [I3 E3]. split; [done|]. by apply (store_evolves_trans s1 s2).
Qed.

Lemma new_inv : Inv newStore.
Proof.
  assert (∀ r, r ∉ ownedActions newStore) as Hn by (intros r; apply not_elem_of_nil).
  split.
  - apply NoDup_nil_2.
  - intros [] r Hr; by apply not_elem_of_nil in Hr.
  - intros r Hr. by apply Hn in Hr.
  - intros x y. cbn. by intros ?%not_elem_of_empty.
  - apply NoDup_nil_2.
  - intros id. split; [by intros ?%not_elem_of_nil|]. intros (x&Hx&_). by apply Hn in Hx.
  - done.
Qed.
