(* ===== verification/SessionActionProps.v ===== *)
(** * Actions of a session: the theorems

    The two lanes as queues: for every operation the list operation that it is
    on the actions that wait ([queue_refines]); the invariant of the reachable
    states ([actions_reachable]) and the life of an action ([action_life]). *)

From S2P Require Import Prelude.
From S2P Require Import Eff.
From S2P Require Import JsMap.
From S2P Require Import SessionAction.
From S2P Require Import SessionActionSpec.

Implicit Types (s : ActionStore) (r : nat).

(** ** The lanes as queues *)

Record Queues := MkQueues { q_turn : list nat; q_idle : list nat }.

Definition queues (s : ActionStore) : Queues := MkQueues (queue NextTurnBoundary s) (queue WhenRunIdle s).
Definition lane (p : DeliveryPolicy) (q : Queues) : list nat := match p with NextTurnBoundary => q_turn q | WhenRunIdle => q_idle q end.
Definition on_lane (p : DeliveryPolicy) (f : list nat → list nat) (q : Queues) : Queues :=
  match p with NextTurnBoundary => MkQueues (f (q_turn q)) (q_idle q) | WhenRunIdle => MkQueues (q_turn q) (f (q_idle q)) end.
Definition on_both (f : list nat → list nat) (q : Queues) : Queues := MkQueues (f (q_turn q)) (f (q_idle q)).

(** An index of [moveQueued] within a list. *)
Definition clamp (i : Z) (n : nat) : nat := Z.to_nat (Z.max 0 (Z.min i (Z.of_nat n))).

(** What an operation that returns [out] does to the waiting actions. *)
Definition op_effect (o : store_op) (s : ActionStore) (out : list nat) (q q' : Queues) : Prop :=
  match o with
  | OpEnqueue r => q' = on_lane (a_delivery (act s r)) (λ l, l ++ [r]) q
  | OpEnqueueFront r => q' = on_lane (a_delivery (act s r)) (cons r) q
  | OpSelect =>
      match q_turn q, q_idle q with
      | x :: l, _ => out = [x] ∧ q' = MkQueues l (q_idle q)
      | [], x :: l => out = [x] ∧ q' = MkQueues [] l
      | [], [] => out = [] ∧ q' = q
      end
  | OpRemove predicate None => q' = on_both (filter (λ x, predicate x (act s x) = false)) q
  | OpRemove predicate (Some _) => q' = on_both (filter (λ x, x ∉ out)) q
  | OpSwap a b => q' = on_lane (a_delivery (act s a)) (fmap (swap a b)) q
  | OpMove r p i => q' = on_lane p (λ l, splice_in (clamp i (length l)) r l) (on_both (filter (λ x, x ≠ r)) q)
  | OpTransition r next _ =>
      if decide (state_name next = NQueued) then
        if decide (r ∈ ownedActions s) then
          ∃ l1 l2, lane (a_delivery (act s r)) q = l1 ++ l2 ∧ q' = on_lane (a_delivery (act s r)) (λ _, l1 ++ r :: l2) q
        else q' = q
      else q' = on_both (filter (λ x, x ≠ r)) q
  | OpSettle _ _ | OpRelease _ => q' = q
  end.

(** When an operation returns. *)
Definition op_accepted (o : store_op) (s : ActionStore) : Prop :=
  match o with
  | OpEnqueue r | OpEnqueueFront r => state (act s r) = NQueued ∧ r ∉ ownedActions s
  | OpSelect | OpRemove _ None => True
  | OpRemove predicate (Some l) =>
      NoDup (filter (λ r, predicate r (act s r)) l) ∧
      ∀ r, r ∈ l → predicate r (act s r) = true → is_terminal (act s r) = false
  | OpSwap a b => state (act s a) = NQueued ∧ state (act s b) = NQueued ∧ a_delivery (act s a) = a_delivery (act s b) ∧
      a ∈ ownedActions s ∧ b ∈ ownedActions s
  | OpMove r _ _ => state (act s r) = NQueued ∧ r ∈ ownedActions s
  | OpTransition r next proof =>
      legal (state (act s r)) (state_name next) ∧
      (state (act s r) = NCommitting → state_name next = NQueued → ∃ p, proof = Some p ∧ dispatchSettled p = true ∧
         ∀ d, d ∈ primaryRecords (act s r) → dr_message d ∉ transcript p)
  | OpSettle r _ => r ∈ ownedActions s
  | OpRelease r => is_terminal (act s r) = true
  end.

Lemma queues_of s s' (f : DeliveryPolicy → list nat → list nat) : (∀ p, queue p s' = f p (queue p s)) →
  queues s' = MkQueues (f NextTurnBoundary (q_turn (queues s))) (f WhenRunIdle (q_idle (queues s))).
Proof. intros Hf. unfold queues. by rewrite !Hf. Qed.

Lemma on_lane_of p0 f s s' : (∀ p, queue p s' = if decide (p = p0) then f (queue p s) else queue p s) →
  queues s' = on_lane p0 f (queues s).
Proof. intros Hf. unfold queues. rewrite !Hf. destruct p0; cbn; by repeat case_decide. Qed.

(** The waiting actions when the states of the actions are as before. *)
Lemma queue_same s s' p : (∀ x, is_queued s' x = is_queued s x) → queue p s' = filter (λ x, is_queued s x) (list_of p s').
Proof. intros Hq. unfold queue, queuedActions. cbn. apply filter_agree. intros x _. by rewrite Hq. Qed.

Lemma queue_eq p s : queue p s = filter (λ x, is_queued s x) (list_of p s).
Proof. done. Qed.

Lemma queued_act s s' x : act s' x = act s x → is_queued s' x = is_queued s x.
Proof. unfold is_queued. by intros ->. Qed.

Lemma queue_added r f s p : queue p (added r f s) =
  if decide (p = a_delivery (act s r)) then filter (λ x, is_queued s x) (f (list_of p s)) else queue p s.
Proof.
  rewrite (queue_same s) by (intros; by apply queued_act, act_added). rewrite list_added. by case_decide.
Qed.

Lemma front_filter s r l : is_queued s r = true →
  filter (λ x, is_queued s x) (front s r l) = r :: filter (λ x, is_queued s x) l.
Proof.
  intros Hr. unfold front, splice_in, findIndex. rewrite filter_app.
  assert (Is_true (is_queued s r)) as Hr' by (by rewrite Hr). rewrite filter_cons_True by done.
  destruct (list_find _ l) as [[i x]|] eqn:E; cbn.
  - apply list_find_Some in E as (Hi&_&Hb). rewrite filter_none.
    + cbn. f_equal. rewrite <-(take_drop i l) at 2. rewrite filter_app, (filter_none _ (take i l)); [done|].
      intros y [j Hj]%list_elem_of_lookup. apply lookup_take_Some in Hj as [Hj Hlt]. by eapply Hb.
    + intros y [j Hj]%list_elem_of_lookup. apply lookup_take_Some in Hj as [Hj Hlt]. by eapply Hb.
  - apply list_find_None in E. rewrite Forall_forall in E.
    rewrite firstn_all, drop_all, (filter_none _ l) by (intros y Hy; by apply E). done.
Qed.

Lemma queue_single r a s p : Inv s → queue p (set_action r a s) =
  if decide (state a = NQueued) then filter (λ x, is_queued s x ∨ x = r) (list_of p s) else filter (λ x, x ≠ r) (queue p s).
Proof.
  intros Hi. rewrite queue_eq. change (list_of p (set_action r a s)) with (list_of p s).
  assert (∀ x, is_queued (set_action r a s) x = if decide (x = r) then bool_decide (state a = NQueued) else is_queued s x) as Hq.
  { intros x. unfold is_queued. rewrite act_set. by case_decide. }
  case_decide as Ha.
  - apply filter_agree. intros x _. rewrite Hq. case_decide as E; [|naive_solver]. rewrite bool_decide_true by done. naive_solver.
  - apply filter_remove. intros x _. rewrite Hq. case_decide as E; [|naive_solver]. rewrite bool_decide_false by done. naive_solver.
Qed.

Lemma queue_nodup p s : Inv s → NoDup (queue p s).
Proof. intros Hi. by apply NoDup_filter, nodup_lane. Qed.

Lemma queue_lane p p' r s : Inv s → r ∈ queue p s → r ∈ queue p' s → p' = p.
Proof. intros Hi [_ H1]%queue_elem [_ H2]%queue_elem. by apply (lane_only p r s). Qed.

Lemma filter_head (r : nat) (l : list nat) : NoDup (r :: l) → filter (λ x, x ≠ r) (r :: l) = l.
Proof.
  intros [Hr _]%NoDup_cons. rewrite filter_cons_False by tauto. apply filter_all. by intros x Hx ->.
Qed.

Lemma filter_other (r : nat) (l : list nat) : r ∉ l → filter (λ x, x ≠ r) l = l.
Proof. intros Hr. apply filter_all. by intros x Hx ->. Qed.

Lemma selectFirst_effect s : Inv s →
  match selectFirst s with
  | (s', Ok o) => op_effect OpSelect s (option_list o) (queues s) (queues s')
  | (_, Throw _) => False
  end.
Proof.
  intros Hi. rewrite selectFirst_run. unfold first_queued, op_effect. cbn [q_turn q_idle queues].
  destruct (queue NextTurnBoundary s) as [|r l] eqn:E1.
  - destruct (queue WhenRunIdle s) as [|r l] eqn:E2; cbn [head option_list].
    + split; [done|]. unfold queues. by rewrite E1, E2.
    + split; [done|]. unfold queues. rewrite !queue_single, !decide_False, E1, E2 by done.
      rewrite filter_head; [done|]. rewrite <-E2. by apply queue_nodup.
  - cbn [option_list]. split; [done|]. unfold queues. rewrite !queue_single, !decide_False, E1 by done.
    rewrite filter_head by (rewrite <-E1; by apply queue_nodup).
    rewrite filter_other; [done|]. intros Hr. assert (r ∈ queue NextTurnBoundary s) as Hr' by (rewrite E1; left).
    by pose proof (queue_lane _ _ _ _ Hi Hr' Hr).
Qed.

Lemma remove_effect predicate s : Inv s →
  match remove predicate None s with
  | (s', Ok out) => op_effect (OpRemove predicate None) s out (queues s) (queues s')
  | (_, Throw _) => False
  end.
Proof.
  intros Hi. destruct (remove_run predicate s Hi) as (s'&->&Hs&Hx). cbn [op_effect].
  apply (queues_of s s' (λ _, filter (λ x, predicate x (act s x) = false))). intros p.
  rewrite !queue_eq, list_filter_filter, (same_lists_of s s') by done. apply filter_agree. intros x Hin.
  assert (is_queued s' x = is_queued s x && negb (predicate x (act s x))) as ->; [|destruct (is_queued s x), (predicate _ _); naive_solver].
  unfold is_queued at 1. rewrite Hx. unfold to_remove. case_decide as Hr.
  - apply list_elem_of_filter in Hr as [Hp%Is_true_true _]. by rewrite Hp, andb_false_r.
  - fold (is_queued s x). destruct (is_queued s x) eqn:Hq; [|done]. destruct (predicate x (act s x)) eqn:Hp; [|done].
    exfalso. apply Hr, list_elem_of_filter. rewrite Hp. split; [done|].
    apply list_elem_of_filter. split; [|apply owned_list; by exists p].
    apply queued_state in Hq. unfold isClearable. rewrite Hq. done.
Qed.

Lemma place_split i r s L : NoDup L →
  let Q := filter (λ x, is_queued s x) L in
  filter (λ x, is_queued s x) (take (place i s L) L) = take (clamp i (length Q)) Q ∧
  filter (λ x, is_queued s x) (drop (place i s L) L) = drop (clamp i (length Q)) Q.
Proof.
  intros Hnd Q. unfold place. fold Q. change (Z.to_nat _) with (clamp i (length Q)).
  destruct (Q !! clamp i (length Q)) as [b|] eqn:Eb; cbn [mbind option_bind].
  - destruct (indexOf_is_Some b L) as [j Hj].
    { apply list_elem_of_lookup_2 in Eb. by apply list_elem_of_filter in Eb as []. }
    rewrite Hj. cbn [default]. unfold indexOf in Hj. destruct (list_find _ L) as [[j' x]|] eqn:E; [|done]. injection Hj as ->.
    pose proof E as E'. apply list_find_Some in E' as (_&<-&_). by apply (filter_split _ L j b).
  - apply lookup_ge_None in Eb. cbn [default]. rewrite firstn_all, drop_all. fold Q.
    by rewrite take_ge, drop_ge by done.
Qed.

Lemma move_effect r p i s : Inv s → is_queued s r = true → r ∈ ownedActions s →
  op_effect (OpMove r p i) s [] (queues s) (queues (moved r p i s)).
Proof.
  intros Hi Hq Hr. cbn [op_effect].
  assert (∀ x, is_queued (moved r p i s) x = is_queued s x) as Hsame.
  { intros x. unfold is_queued. rewrite act_moved. case_decide; by subst. }
  assert (∀ p', queue p' (moved r p i s) = if decide (p' = p)
    then splice_in (clamp i (length (filter (λ x, x ≠ r) (queue p' s)))) r (filter (λ x, x ≠ r) (queue p' s))
    else filter (λ x, x ≠ r) (queue p' s)) as Hp.
  { intros p'. rewrite (queue_same s _ p' Hsame), list_moved by done.
    assert (filter (λ x, is_queued s x) (list_of p' (without r s)) = filter (λ x, x ≠ r) (queue p' s)) as HQ.
    { rewrite list_without, queue_eq, !list_filter_filter by done. apply filter_agree. tauto. }
    case_decide as E; [|done]. subst p'. unfold splice_in at 1. rewrite filter_app.
    rewrite filter_cons_True by (by rewrite Hq). set (s1 := set_action r _ _). rewrite <-HQ.
    assert (∀ x, is_queued s1 x = is_queued s x) as Hs1.
    { intros x. unfold is_queued, s1. rewrite act_set. unfold without. rewrite act_set_list. case_decide; by subst. }
    assert (∀ L : list nat, filter (λ x, is_queued s1 x) L = filter (λ x, is_queued s x) L) as HL.
    { intros L. apply filter_agree. intros x _. by rewrite Hs1. }
    destruct (place_split i r s1 (list_of p (without r s))) as [H1 H2].
    { rewrite list_without by done. by apply NoDup_filter, nodup_lane. }
    rewrite !HL in H1, H2. by rewrite H1, H2. }
  change (queues (moved r p i s)) with (MkQueues (queue NextTurnBoundary (moved r p i s)) (queue WhenRunIdle (moved r p i s))).
  rewrite !Hp. by destruct p; repeat case_decide.
Qed.

Lemma transition_effect r next proof s : Inv s → r ∈ dom (heap s) → legal (state (act s r)) (state_name next) →
  op_effect (OpTransition r next proof) s [] (queues s) (queues (set_action r (with_lifecycle next (act s r)) s)).
Proof.
  intros Hi Hr Hl. cbn [op_effect]. case_decide as Hn.
  - assert (is_queued s r = false) as Hq.
    { apply not_true_is_false. rewrite queued_state. intros E. rewrite Hn, E in Hl. unfold legal in Hl. cbn in Hl. set_solver. }
    assert (∀ p, queue p (set_action r (with_lifecycle next (act s r)) s) =
      filter (λ x, is_queued s x ∨ x = r) (list_of p s)) as Hp by (intros p; rewrite queue_single by done; by rewrite decide_True).
    assert (∀ l : list nat, r ∉ l → filter (λ x, is_queued s x ∨ x = r) l = filter (λ x, is_queued s x) l) as Hout.
    { intros l Hrl. apply filter_agree. intros x Hx. split; [|auto]. intros [?|E]; [done|by subst]. }
    case_decide as Ho.
    + set (p0 := a_delivery (act s r)). pose proof (owned_lane r s Hi Ho) as Hin. fold p0 in Hin.
      apply list_elem_of_split in Hin as (A&B&HAB). pose proof (nodup_lane p0 s Hi) as Hnd. rewrite HAB in Hnd.
      apply NoDup_app in Hnd as (_&HA&[HB _]%NoDup_cons).
      assert (r ∉ A) as HrA by (intros HrA; apply (HA r HrA); left).
      exists (filter (λ x, is_queued s x) A), (filter (λ x, is_queued s x) B). split.
      * assert (lane p0 (queues s) = queue p0 s) as -> by (by destruct p0).
        rewrite queue_eq, HAB, filter_app, filter_cons_False by (rewrite Hq; intros []). done.
      * apply on_lane_of. intros p. rewrite Hp. case_decide as E.
        -- subst p. rewrite HAB, filter_app, filter_cons_True by (by right). by rewrite !Hout.
        -- apply Hout. intros Hrp. apply E. unfold p0. symmetry. by apply Hi.
    + unfold queues. rewrite !Hp, !Hout; [done|..]; intros Hin; apply Ho, owned_list; eauto.
  - apply (queues_of s _ (λ _, filter (λ x, x ≠ r))). intros p. rewrite queue_single by done. by rewrite decide_False.
Qed.

(** Whereas an action that is over, or named twice, cannot be cancelled. *)
Lemma cancel_ok l s s' u : efor l (λ r, transition r Cancelled None) s = (s', Ok u) →
  NoDup l ∧ ∀ x, x ∈ l → is_terminal (act s x) = false.
Proof.
  revert s. induction l as [|r l IH]; intros s; [split; [apply NoDup_nil_2|by intros x ?%not_elem_of_nil]|].
  cbn [efor]. rewrite run_bind, transition_run, transition_cancel. destruct (is_terminal (act s r)) eqn:Ht; [done|].
  intros [Hnd Hl]%IH.
  assert (r ∉ l) as Hr by (intros Hr; specialize (Hl r Hr); by rewrite act_set_eq in Hl).
  split; [by apply NoDup_cons|]. intros x [->|Hx]%elem_of_cons; [done|]. specialize (Hl x Hx).
  rewrite act_set_ne in Hl; [done|]. by intros ->.
Qed.

Lemma cancelled_queue (l : list nat) s s' p : same_lists s s' →
  (∀ x, act s' x = if decide (x ∈ l) then with_lifecycle Cancelled (act s x) else act s x) →
  queue p s' = filter (λ x, x ∉ l) (queue p s).
Proof.
  intros Hs Hx. rewrite !queue_eq, list_filter_filter, (same_lists_of s s') by done. apply filter_agree. intros x _.
  unfold is_queued at 1. rewrite Hx. case_decide; [naive_solver|]. change (in_state NQueued (act s x)) with (is_queued s x). tauto.
Qed.

Lemma transition_accepted a next proof : (∃ a', transitionSessionAction a next proof = Ok a') ↔
  legal (state a) (state_name next) ∧ (state a = NCommitting → state_name next = NQueued →
    ∃ p, proof = Some p ∧ dispatchSettled p = true ∧ ∀ d, d ∈ primaryRecords a → dr_message d ∉ transcript p).
Proof.
  unfold transitionSessionAction, legal. case_bool_decide as Hl; cbn [negb]; [|by split; [intros [? [=]]|intros []]].
  destruct (decide (state a = NCommitting)) as [H1|H1], (decide (state_name next = NQueued)) as [H2|H2];
    rewrite ?(bool_decide_true (state a = _)), ?(bool_decide_false (state a = _)), ?(bool_decide_true (state_name next = _)),
      ?(bool_decide_false (state_name next = _)) by done; cbn [andb]; try by split; [|by eexists].
  destruct proof as [p|]; [|split; [by intros [? [=]]|intros [_ Hp]; by destruct (Hp H1 H2) as (?&[=]&_)]].
  destruct (dispatchSettled p) eqn:Hd; cbn [negb];
    [|split; [by intros [? [=]]|intros [_ Hp]; destruct (Hp H1 H2) as (?&[= <-]&?&_); congruence]].
  destruct (existsb _ _) eqn:He; (split; [intros [a' E]|]).
  - done.
  - intros [_ Hp]. destruct (Hp H1 H2) as (?&[= <-]&_&Hn). apply existsb_exists in He as (d&Hd'&Hm%bool_decide_eq_true).
    exfalso. apply (Hn d); [by apply list_elem_of_In|done].
  - split; [done|]. intros _ _. exists p. split_and!; [done..|]. intros d Hd' Hm.
    assert (existsb (λ x, bool_decide (dr_message x ∈ transcript p)) (primaryRecords a) = true); [|congruence].
    apply existsb_exists. exists d. split; [by apply list_elem_of_In|by apply bool_decide_eq_true].
  - intros _. by eexists.
Qed.

(** ** Theorems *)

(** In every reachable state of the store - whatever operations were called,
    also ones that throw, on whatever actions, while others change the fields
    that the store does not keep - each owned action is in exactly one place of
    one lane, the lane of its delivery policy; each owned action has exactly one
    ticket, under its identifier; and distinct actions have distinct
    identifiers. *)
Theorem actions_reachable s : rtc store_step newStore s → Inv s.
Proof. intros Hs. apply (steps_keep newStore); [done|apply new_inv]. Qed.

(** C16: the life of an action.  Between any two states of the store its lifecycle
    has only taken legal transitions and an outcome, once reached, stays; what
    the store took it keeps until it is over, so no input is lost or forgotten
    half-way; an action that is over and let go never comes back; and the
    promises of its ticket are settled at most once. *)
Theorem action_life s s' : Inv s → rtc store_step s s' → evolves s s'.
Proof. intros Hi Hs. by apply steps_keep. Qed.

(** An operation that returns exactly when a boolean holds. *)
Ltac decided := split; [first [done|by intros (?&?&[=])]|first [done|by intros _; do 2 eexists]].

Lemma accept_run o s : Inv s → valid o s → (∃ s' out, run_op o s = (s', Ok out)) ↔ op_accepted o s.
Proof.
  intros Hi Hv. assert (∀ r, r ∈ mentions o → r ∈ dom (heap s)) as Hd by done.
  destruct o as [r|r| |predicate [l|]|a b|r p i|r next proof|r m|r]; cbn [run_op mentions op_accepted] in *; rewrite ?run_bind.
  1, 2: assert (can_add s r = true ↔ state (act s r) = NQueued ∧ r ∉ ownedActions s) as Hadd
    by (unfold can_add; rewrite andb_true_iff, queued_state, negb_true_iff, not_owned_ticket; [done|done|apply Hd; left]).
  - destruct (enqueue_run r s) as [e ->]. rewrite <-Hadd. destruct (can_add s r); decided.
  - destruct (enqueueFront_run r s) as [e ->]. rewrite <-Hadd. destruct (can_add s r); decided.
  - rewrite selectFirst_run. split; [done|]. intros _. by destruct (first_queued s); do 2 eexists.
  - unfold remove. rewrite run_get. cbv zeta. change (default (clearableActions None s) (Some l)) with l. rewrite run_bind. split.
    + destruct (efor _ _ s) as [s1 [u|e]] eqn:E; [|by intros (?&?&[=])]. intros _. apply cancel_ok in E as [Hnd Ho].
      split; [done|]. intros r Hr Hp. apply Ho, list_elem_of_filter. by rewrite Hp.
    + intros [Hnd Ho]. destruct (cancel_all _ s Hnd) as (s1&->&_); [|by do 2 eexists].
      intros x [Hp%Is_true_true Hx]%list_elem_of_filter. by apply Ho.
  - destruct (remove_run predicate s Hi) as (s'&->&_). decided.
  - destruct (swap_run a b s Hi) as [e ->]. rewrite <-!queued_state.
    assert (can_swap s a b = true ↔ is_queued s a = true ∧ is_queued s b = true ∧
      a_delivery (act s a) = a_delivery (act s b) ∧ a ∈ ownedActions s ∧ b ∈ ownedActions s) as <-.
    { unfold can_swap. rewrite !andb_true_iff, !bool_decide_eq_true. tauto. }
    destruct (can_swap s a b); decided.
  - destruct (move_run r p i s Hi) as [e ->]. rewrite <-queued_state, <-(bool_decide_eq_true (r ∈ _)), <-andb_true_iff.
    destruct (is_queued s r && _); decided.
  - rewrite <-transition_accepted, transition_run.
    destruct (transitionSessionAction _ _ _) as [a'|e]; (split; [first [by intros (?&?&[=])|by eexists]|first [by intros [? [=]]|by do 2 eexists]]).
  - destruct (settle_run r m s) as [e ->]. split.
    + destruct (jm_get _ _) as [t|] eqn:E; [|by intros (?&?&[=])]. intros _. apply dec_stable. intros Hn.
      apply (not_owned_ticket r s Hi) in Hn; [|apply Hd; left]. unfold jm_has in Hn. rewrite E in Hn. done.
    + intros Hr. apply (ticket_of r s Hi), jm_get_is_Some in Hr as [t ->]. by do 2 eexists.
  - destruct (release_run r s Hi) as [e ->]. destruct (is_terminal _); decided.
Qed.

Lemma refused_run o s s' e : Inv s → run_op o s = (s', Throw e) → match o with OpRemove _ (Some _) => True | _ => s' = s end.
Proof.
  intros Hi. destruct o as [r|r| |predicate [l|]|a b|r p i|r next proof|r m|r]; cbn [run_op]; rewrite ?run_bind; try done.
  - destruct (enqueue_run r s) as [e' ->]. destruct (can_add s r); [done|]. by intros [= <- _].
  - destruct (enqueueFront_run r s) as [e' ->]. destruct (can_add s r); [done|]. by intros [= <- _].
  - rewrite selectFirst_run. by destruct (first_queued s).
  - by destruct (remove_run predicate s Hi) as (s1&->&_).
  - destruct (swap_run a b s Hi) as [e' ->]. destruct (can_swap s a b); [done|]. by intros [= <- _].
  - destruct (move_run r p i s Hi) as [e' ->]. destruct (is_queued s r && _); [done|]. by intros [= <- _].
  - rewrite transition_run. destruct (transitionSessionAction _ _ _); [done|]. by intros [= <- _].
  - destruct (settle_run r m s) as [e' ->]. destruct (jm_get _ _); [done|]. by intros [= <- _].
  - destruct (release_run r s Hi) as [e' ->]. destruct (is_terminal _); [done|]. by intros [= <- _].
Qed.

Lemma effect_run o s s' out : Inv s → valid o s → run_op o s = (s', Ok out) → op_effect o s out (queues s) (queues s').
Proof.
  intros Hi Hv. assert (∀ r, r ∈ mentions o → r ∈ dom (heap s)) as Hd by done.
  destruct o as [r|r| |predicate [l|]|a b|r p i|r next proof|r m|r]; cbn [run_op mentions] in *; rewrite ?run_bind.
  - destruct (enqueue_run r s) as [e ->]. destruct (can_add s r) eqn:E; [|done]. intros [= <- <-].
    apply andb_true_iff in E as [Hq _]. apply on_lane_of. intros p. rewrite queue_added. case_decide; [|done].
    by rewrite filter_app, (filter_cons_True _ r []) by (by rewrite Hq).
  - destruct (enqueueFront_run r s) as [e ->]. destruct (can_add s r) eqn:E; [|done]. intros [= <- <-].
    apply andb_true_iff in E as [Hq _]. apply on_lane_of. intros p. rewrite queue_added. case_decide; [|done].
    by rewrite front_filter.
  - pose proof (selectFirst_effect s Hi) as He. destruct (selectFirst s) as [s1 [x|e]]; [|done]. by intros [= <- <-].
  - unfold remove. rewrite run_get. cbv zeta. change (default (clearableActions None s) (Some l)) with l. rewrite run_bind.
    set (L := filter _ l). destruct (efor L _ s) as [s1 [u|e]] eqn:E; [|done]. intros [= <- <-].
    destruct (cancel_ok _ _ _ _ E) as [Hnd Ho]. destruct (cancel_all L s Hnd Ho) as (s2&E2&Hs&Hx).
    rewrite E in E2. injection E2 as <- _. cbn [op_effect]. apply (queues_of s s1 (λ _, filter (λ x, x ∉ L))).
    intros p. by apply cancelled_queue.
  - pose proof (remove_effect predicate s Hi) as He. destruct (remove predicate None s) as [s1 [x|e]]; [|done].
    by intros [= <- <-].
  - destruct (swap_run a b s Hi) as [e ->]. destruct (can_swap s a b) eqn:E; [|done]. intros [= <- <-].
    apply can_swap_spec in E as (Ha&Hb&_). apply on_lane_of. intros p. unfold swapped.
    rewrite (queue_same s) by (intros; by apply queued_act, act_set_list). rewrite list_set_list. case_decide as E; [subst p|done].
    rewrite queue_eq. apply filter_fmap_keep. intros x. unfold swap. repeat case_decide; subst; rewrite ?Ha, ?Hb; done.
  - destruct (move_run r p i s Hi) as [e ->]. destruct (is_queued s r && _) eqn:E; [|done]. intros [= <- <-].
    apply andb_true_iff in E as [Hq Hr%bool_decide_eq_true]. by apply move_effect.
  - rewrite transition_run. destruct (transitionSessionAction _ _ _) as [a'|e] eqn:E; [|done]. intros [= <- <-].
    apply transition_ok in E as [-> Hl]. by apply (transition_effect r next proof); [|apply Hd; left|].
  - destruct (settle_run r m s) as [e ->]. destruct (jm_get _ _); [|done]. by intros [= <- <-].
  - destruct (release_run r s Hi) as [e ->]. destruct (is_terminal _) eqn:Ht; [|done]. intros [= <- <-]. cbn [op_effect].
    change (queues (released r s)) with (queues (without r s)).
    unfold queues. f_equal; rewrite !queue_eq, list_without by done; rewrite (list_filter_filter (λ x, is_queued _ x));
      apply filter_agree; intros x _; (rewrite (queued_act s (without r s) x) by (unfold without; apply act_set_list));
      (split; [by intros []|]); (intros Hx; split; [done|]); intros ->; apply Is_true_true, queued_state in Hx;
      unfold is_terminal in Ht; by rewrite Hx in Ht.
Qed.

(** C15: the two lanes refine two queues.  Every operation of the store is, on
    the actions that wait in each lane and in their order, the list operation
    that its name says: enqueueing appends or puts in front, a selection takes
    the head of the turn boundary lane and of the other only when that is empty,
    a removal filters, a swap exchanges two, a move takes the action out and
    inserts it at the clamped index of either lane, a rollback puts an action
    back between the waiting ones, and any other transition takes it out.  The
    operations return exactly when their condition holds (no error else), and
    one that throws changes nothing, unless it cancels explicitly given actions. *)
Theorem queue_refines o s : Inv s → valid o s →
  (op_accepted o s → ∃ s' out, run_op o s = (s', Ok out) ∧ op_effect o s out (queues s) (queues s')) ∧
  (¬ op_accepted o s → ∃ s' e, run_op o s = (s', Throw e) ∧ match o with OpRemove _ (Some _) => True | _ => s' = s end).
Proof.
  intros Hi Hv. pose proof (accept_run o s Hi Hv) as Ha. split.
  - intros (s'&out&E)%Ha. exists s', out. split; [done|]. by apply effect_run.
  - intros Hn. destruct (run_op o s) as [s' [out|e]] eqn:E; [exfalso; apply Hn, Ha; by eexists _, _|].
    exists s', e. split; [done|]. by eapply refused_run.
Qed.

(** ** Examples *)

Definition demo_action (n : Z) (p : DeliveryPolicy) : SessionAction :=
  MkAction (js_of_Z n) (js "user") p WakeImmediate
    (PTurn [MkRecord (js "r") RolePrimary (Z.to_nat n) false false (js_of_Z n)] (js "text") None) Queued None None false.

Definition demo_objects : ActionStore :=
  set_action 2 (demo_action 2 WhenRunIdle) (set_action 1 (demo_action 1 WhenRunIdle)
    (set_action 0 (demo_action 0 NextTurnBoundary) newStore)).

Definition validb (o : store_op) (s : ActionStore) : bool := forallb (λ r, bool_decide (is_Some (heap s !! r))) (mentions o).

Lemma validb_valid o s : validb o s = true → valid o s.
Proof.
  unfold validb. rewrite forallb_forall. intros Hv r Hr. apply elem_of_dom. apply (bool_decide_eq_true_1 _ (Hv r (proj1 (list_elem_of_In _ _) Hr))).
Qed.

(** The operations of a list, one after the other, as long as their objects exist. *)
Fixpoint run_ops (ops : list store_op) (s : ActionStore) : option ActionStore :=
  match ops with
  | [] => Some s
  | o :: ops => if validb o s then run_ops ops (run_op o s).1 else None
  end.

Lemma run_ops_steps ops s s' : run_ops ops s = Some s' → rtc store_step s s'.
Proof.
  revert s. induction ops as [|o ops IH]; intros s; cbn; [by intros [= ->]|].
  destruct (validb o s) eqn:E; [|done]. intros Hr. eapply rtc_l; [by apply step_op, validb_valid|by apply IH].
Qed.

Definition is_new (r : nat) (a : SessionAction) (s : ActionStore) : bool :=
  bool_decide (heap s !! r = None) && forallb (λ x, negb (bool_decide (a_id x.2 = a_id a))) (map_to_list (heap s)).

Lemma new_step r a s : is_new r a s = true → store_step s (set_action r a s).
Proof.
  intros [Hr%bool_decide_eq_true Ha]%andb_true_iff. rewrite forallb_forall in Ha. apply step_new; [by apply not_elem_of_dom|].
  intros x [b Hb]%elem_of_dom E. unfold act in E. rewrite (lookup_total_correct _ _ _ Hb) in E.
  assert ((x, b) ∈ map_to_list (heap s)) as Hin by (by apply elem_of_map_to_list).
  specialize (Ha _ (proj1 (list_elem_of_In _ _) Hin)). cbn in Ha. by rewrite bool_decide_true in Ha.
Qed.

Lemma demo_objects_steps : rtc store_step newStore demo_objects.
Proof. unfold demo_objects. do 3 (eapply rtc_r; [|apply new_step; by vm_compute]). apply rtc_refl. Qed.

Definition demo_ops : list store_op :=
  [OpEnqueue 0; OpEnqueue 1; OpEnqueueFront 2; OpSelect; OpTransition 0 Preparing None; OpMove 1 NextTurnBoundary 0;
   OpTransition 0 Queued None; OpSettle 2 (SettleAccepted HandledWithoutTurn); OpRemove (λ r _, bool_decide (r = 2%nat)) None;
   OpRelease 2].

Definition demo_store : ActionStore := default newStore (run_ops demo_ops demo_objects).

Lemma demo_steps : rtc store_step demo_objects demo_store.
Proof. apply (run_ops_steps demo_ops). by vm_compute. Qed.

Lemma actions_reachable_witness : Inv demo_store.
Proof.
  apply (actions_reachable demo_store). exact (transitivity demo_objects_steps demo_steps).
Defined.

Lemma demo_inv : Inv demo_objects.
Proof. apply (steps_keep newStore); [apply demo_objects_steps|apply new_inv]. Qed.

Lemma demo_store_inv : Inv demo_store.
Proof. apply (steps_keep demo_objects); [apply demo_steps|apply demo_inv]. Qed.

Lemma action_life_witness : evolves demo_objects demo_store ∧ state (act demo_store 2) = NCancelled.
Proof. split; [exact (action_life demo_objects demo_store demo_inv demo_steps)|by vm_compute]. Defined.

Lemma queue_refines_witness :
  queues demo_store = MkQueues [0%nat; 1%nat] [] ∧
  ∃ s' out, run_op (OpMove 1 WhenRunIdle 7) demo_store = (s', Ok out) ∧
    op_effect (OpMove 1 WhenRunIdle 7) demo_store out (queues demo_store) (queues s').
Proof.
  split; [by vm_compute|]. apply (queue_refines (OpMove 1 WhenRunIdle 7) demo_store demo_store_inv).
  - apply validb_valid. by vm_compute.
  - split; [by vm_compute|]. by vm_compute; left + (right; left).
Defined.
