(* ===== verification/SessionLease.v ===== *)
(** * Session leases

    Models [core/session-lease.ts]: a session file is opened by one process at a
    time.  The lease of a session is a directory whose [owner.json] names the
    process; directories appear and disappear by [rename], and a guard lock
    makes each attempt a critical section.

    The state of the machine is [World]: the live processes with what the
    operating system says about them, the directories, the start time each
    process has read of itself.  Every call into the file system may fail:
    [w_faults] holds the outcome of the next calls ([None], or no entry: it
    works).  [owner.json] is the value [JSON.parse] gives for its text. *)

From S2P Require Import Prelude.
From S2P Require Import Eff.
From S2P Require Import JsMap.
From S2P Require Import JsString.
From S2P Require Import Json.
From S2P Require Import JsonlFile.

Definition SESSION_LEASES_ENABLED_ENV : jsstr := js "AMIDE_INTERNAL_SESSION_LEASES".
Definition SESSION_LEASE_OWNER_ID_ENV : jsstr := js "AMIDE_INTERNAL_SESSION_LEASE_OWNER_ID".

(** [activeSessionId] and [processStartId] are whatever the file has. *)
Record SessionLeaseOwner := MkOwner {
  o_token : jsstr;
  o_pid : Z;
  o_processStartId : option json;
  o_activeSessionId : option json;
  o_sessionPath : jsstr;
  o_createdAt : jsstr
}.

Inductive LeaseError :=
  | SessionAlreadyActiveError (sessionPath : jsstr) (activeSessionId : option json)
  | OsError (code : jsstr)
  | LeaseError_ (message : jsstr).

Record SessionLease := MkLease { l_sessionPath : jsstr; l_directory : jsstr; l_token : jsstr; l_released : bool }.

(** ** The machine *)

(** A live process: the text of [/proc/<pid>/stat], what [ps] and PowerShell
    print for it ([None]: the call fails), whether signalling it is refused. *)
Record OsProcess := MkProcess { op_stat : option jsstr; op_ps : option jsstr; op_powershell : option jsstr; op_eperm : bool }.

Inductive OwnerFile := NoOwnerFile | Unparsable | OwnerJson (value : json).

Record World := MkWorld {
  w_processes : gmap Z OsProcess;
  w_dirs : gmap jsstr OwnerFile;
  (** [currentProcessStartId] of the processes that have read it *)
  w_currentStart : gmap Z (option jsstr);
  w_faults : list (option jsstr);
  (** how many [randomUUID()]s were made *)
  w_uuids : nat
}.

Definition with_dirs (f : gmap jsstr OwnerFile → gmap jsstr OwnerFile) (w : World) : World :=
  MkWorld (w_processes w) (f (w_dirs w)) (w_currentStart w) (w_faults w) (w_uuids w).

Abbreviation leaseM := (eff World LeaseError).

(** The next call into the file system. *)
Definition os_call : leaseM unit := λ w,
  match w_faults w with
  | [] => (w, Ok tt)
  | f :: fs => (MkWorld (w_processes w) (w_dirs w) (w_currentStart w) fs (w_uuids w),
                match f with Some code => Throw (OsError code) | None => Ok tt end)
  end.

Definition mkdirSync (path : jsstr) : leaseM unit :=
  os_call ;;
  w ← eget;
  match w_dirs w !! path with
  | Some _ => ethrow (OsError (js "EEXIST"))
  | None => emodify (with_dirs <[path := NoOwnerFile]>)
  end.

(** [writeFileSync(join(path, "owner.json"), ...)] *)
Definition writeOwner (path : jsstr) (value : json) : leaseM unit :=
  os_call ;; emodify (with_dirs <[path := OwnerJson value]>).

(** [renameSync] of directories: an existing target must be empty. *)
Definition renameSync (source target : jsstr) : leaseM unit :=
  os_call ;;
  w ← eget;
  match w_dirs w !! source, w_dirs w !! target with
  | None, _ => ethrow (OsError (js "ENOENT"))
  | Some _, Some (Unparsable | OwnerJson _) => ethrow (OsError (js "ENOTEMPTY"))
  | Some content, _ => emodify (with_dirs (λ dirs, <[target := content]> (delete source dirs)))
  end.

(** [rmSync(path, { recursive: true, force: true })] *)
Definition rmSync (path : jsstr) : leaseM unit := os_call ;; emodify (with_dirs (delete path)).

(** ** Who is alive *)

Section lease.
(** [node:path], [node:fs] and [node:crypto]; the platform; signals to process groups. *)
Context (resolve dirname basename : jsstr → jsstr) (realpath : jsstr → option jsstr) (join : list jsstr → jsstr).
Context (sha256_hex : jsstr → jsstr) (uuid : nat → jsstr) (win32 : bool) (group_kill : Z → option jsstr).

Definition leasesEnabled (environment : gmap jsstr jsstr) : bool :=
  match environment !! SESSION_LEASES_ENABLED_ENV with
  | Some value =>
      let value := lower <$> value in
      bool_decide (value = js "1") || bool_decide (value = js "true") || bool_decide (value = js "yes")
  | None => false
  end.

Definition leaseDirectory (agentDir sessionPath : jsstr) : jsstr :=
  let key := sha256_hex sessionPath in join [agentDir; js "session-leases"; key ++ js ".lock"].

Definition canonicalSessionPath (sessionPath : jsstr) : jsstr :=
  let resolvedPath := resolve sessionPath in
  match realpath resolvedPath with
  | Some path => path
  | None => match realpath (dirname resolvedPath) with
            | Some dir => join [dir; basename resolvedPath]
            | None => resolvedPath
            end
  end.

Definition parse_owner (parsed : json) : result jsstr (option SessionLeaseOwner) :=
  version ← prop parsed "version"; token ← prop parsed "token"; pid ← prop parsed "pid";
  sessionPath ← prop parsed "sessionPath"; createdAt ← prop parsed "createdAt";
  processStartId ← prop parsed "processStartId"; activeSessionId ← prop parsed "activeSessionId";
  Ok match bool_decide (version = Some (JNum 1)), token, pid, sessionPath, createdAt with
     | true, Some (JStr token), Some (JNum pid), Some (JStr sessionPath), Some (JStr createdAt) =>
         Some (MkOwner token pid processStartId activeSessionId sessionPath createdAt)
     | _, _, _, _, _ => None
     end.

(** The [try] covers reading and parsing: whatever fails, there is no owner. *)
Definition readLeaseOwner (directory : jsstr) (w : World) : option SessionLeaseOwner :=
  match w_dirs w !! directory with
  | Some (OwnerJson value) => match parse_owner value with Ok owner => owner | Throw _ => None end
  | _ => None
  end.

(** [process.kill(pid, 0)]: the code of its error. *)
Definition kill0 (pid : Z) (w : World) : option jsstr :=
  if pid <=? 0 then group_kill pid
  else match w_processes w !! pid with
       | Some p => if op_eperm p then Some (js "EPERM") else None
       | None => Some (js "ESRCH")
       end.

Definition isProcessAlive (pid : Z) (w : World) : bool :=
  match kill0 pid w with None => true | Some code => bool_decide (code = js "EPERM") end.

(** [query] is the output of the command for this process, [None] if it fails. *)
Definition getWindowsProcessStartId (pid : Z) (query : Z → option jsstr) : option jsstr :=
  if pid <=? 0 then None else
  match query pid with
  | Some out => let startTicks := trim out in
      if negb (bool_decide (startTicks = [])) && forallb is_digit startTicks then Some (js "win:" ++ startTicks) else None
  | None => None
  end.

Definition getPsProcessStartId (pid : Z) (query : Z → option jsstr) : option jsstr :=
  if pid <=? 0 then None else
  match query pid with
  | Some out => let startTime := trim out in if bool_decide (startTime = []) then None else Some (js "ps:" ++ startTime)
  | None => None
  end.

(** [stat.lastIndexOf(c)], from index [i] on. *)
Fixpoint last_index_of (c : Z) (i last : Z) (s : jsstr) : Z :=
  match s with
  | [] => last
  | d :: s => last_index_of c (i + 1) (if d =? c then i else last) s
  end.

Definition stat_startTime (stat : jsstr) : option jsstr :=
  let commandEnd := last_index_of 41 0 (-1) stat in
  js_split 32 (drop (Z.to_nat (commandEnd + 2)) stat) !! 19%nat.

Definition getProcessStartId (pid : Z) (w : World) : option jsstr :=
  let query f := λ pid, w_processes w !! pid ≫= f in
  if pid <=? 0 then None
  else if win32 then getWindowsProcessStartId pid (query op_powershell)
  else
    match query op_stat pid with
    | Some stat =>
        match stat_startTime stat with
        | Some ((_ :: _) as startTime) => Some (js "proc:" ++ startTime)
        | _ => getPsProcessStartId pid (query op_ps)
        end
    | None => getPsProcessStartId pid (query op_ps)
    end.

(** Of the process [self] that runs the code. *)
Definition getCurrentProcessStartId (self : Z) : leaseM (option jsstr) :=
  w ← eget;
  match w_currentStart w !! self with
  | Some id => mret id
  | None =>
      let id := getProcessStartId self w in
      emodify (λ w, MkWorld (w_processes w) (w_dirs w) (<[self := id]> (w_currentStart w)) (w_faults w) (w_uuids w)) ;;
      mret id
  end.

Definition json_truthy (value : option json) : bool :=
  match value with
  | None | Some JNull | Some (JBool false) | Some (JStr []) => false
  | Some (JNum z) => negb (z =? 0)
  | Some _ => true
  end.

Definition isLeaseOwnerAlive (owner : SessionLeaseOwner) (w : World) : bool :=
  if negb (isProcessAlive (o_pid owner) w) then false
  else if negb (json_truthy (o_processStartId owner)) then true
  else match getProcessStartId (o_pid owner) w with
       | None => true
       | Some currentStartId => bool_decide (o_processStartId owner = Some (JStr currentStartId))
       end.

(** ** The guard *)

(** What [lockSync] does at each attempt ([None]: it locks), whether the lock is
    found compromised before and after the action, and the error of unlocking. *)
Record GuardScript := MkGuard {
  g_lock : nat → option jsstr; g_before : bool; g_after : bool; g_unlock : option jsstr
}.

(** The attempts from [attempt] on, [n] of them. *)
Fixpoint lock_loop (guard : GuardScript) (directory : jsstr) (n attempt : nat) : result LeaseError unit :=
  match n with
  | O => Throw (LeaseError_ (js "Could not coordinate session lease: " ++ directory))
  | S n =>
      match g_lock guard attempt with
      | None => Ok tt
      | Some code =>
          if negb (bool_decide (code = js "ELOCKED")) then Throw (OsError code)
          else if (attempt =? 99)%nat then Throw (LeaseError_ (js "Could not coordinate session lease: " ++ directory))
          else lock_loop guard directory n (S attempt)
      end
  end.

Definition assertGuardHeld (compromised : bool) (directory : jsstr) : leaseM unit :=
  if compromised then ethrow (LeaseError_ (js "Session lease guard was compromised: " ++ directory)) else mret tt.

(** [try { ... } finally { ... }]: an error of unlocking replaces the result. *)
Definition finally_unlock {T} (guard : GuardScript) (body : leaseM T) : leaseM T := λ w,
  let '(w', r) := body w in
  if g_before guard || g_after guard then (w', r)
  else match g_unlock guard with Some code => (w', Throw (OsError code)) | None => (w', r) end.

(** A critical section: the actions of other processes on this directory come
    before or after. *)
Definition withLeaseGuard {T} (guard : GuardScript) (directory : jsstr) (action : leaseM T) : leaseM T :=
  elift (lock_loop guard directory 100 0) ;;
  finally_unlock guard (
    assertGuardHeld (g_before guard) directory ;;
    result ← action;
    assertGuardHeld (g_before guard || g_after guard) directory ;;
    mret result).

(** ** Acquiring *)

Definition randomUUID : leaseM jsstr := λ w,
  (MkWorld (w_processes w) (w_dirs w) (w_currentStart w) (w_faults w) (S (w_uuids w)), Ok (uuid (w_uuids w))).

Definition stalePath (directory : jsstr) (self : Z) (token : jsstr) : jsstr :=
  directory ++ js ".stale-" ++ js_of_Z self ++ js "-" ++ token.

Definition reclaimStaleLease (directory : jsstr) (self : Z) : leaseM bool :=
  token ← randomUUID;
  let stale := stalePath directory self token in
  moved ← ecatch (renameSync directory stale ;; mret (Ok (E:=bool) tt))
    (λ error, mret (match error with
                    | OsError code => if bool_decide (code = js "ENOENT") then Throw true else Throw false
                    | _ => Throw false
                    end));
  match moved with
  | Throw result => mret result
  | Ok _ => rmSync stale ;; mret true
  end.

Definition candidateDirectory (directory : jsstr) (self : Z) (token : jsstr) : jsstr :=
  directory ++ js ".candidate-" ++ js_of_Z self ++ js "-" ++ token.

Definition opt_field (k : string) (v : option json) : list (jsstr * json) :=
  match v with Some v => [(js k, v)] | None => [] end.

Definition owner_json (owner : SessionLeaseOwner) : json :=
  JObj ([(js "version", JNum 1); (js "token", JStr (o_token owner)); (js "pid", JNum (o_pid owner))] ++
        opt_field "processStartId" (o_processStartId owner) ++ opt_field "activeSessionId" (o_activeSessionId owner) ++
        [(js "sessionPath", JStr (o_sessionPath owner)); (js "createdAt", JStr (o_createdAt owner))]).

Section acquire.
Context (self : Z) (environment : gmap jsstr jsstr) (now : jsstr).

(** What is known of the owner in the way. *)
Definition owner_in_the_way (directory : jsstr) (w : World) : option SessionLeaseOwner :=
  match readLeaseOwner directory w with
  | Some owner => if isLeaseOwnerAlive owner w then Some owner else None
  | None => None
  end.

(** One turn of the loop: the lease, or [None] to try again. *)
Definition acquire_attempt (canonicalPath directory : jsstr) : leaseM (option SessionLease) :=
  token ← randomUUID;
  let candidate := candidateDirectory directory self token in
  start ← getCurrentProcessStartId self;
  let owner := MkOwner token self (JStr <$> start) (JStr <$> environment !! SESSION_LEASE_OWNER_ID_ENV) canonicalPath now in
  mkdirSync candidate ;;
  writeOwner candidate (owner_json owner) ;;
  ecatch (renameSync candidate directory ;; mret (Some (MkLease canonicalPath directory token false)))
    (λ error,
       rmSync candidate ;;
       match error with
       | OsError code =>
           if negb (bool_decide (code = js "EEXIST")) && negb (bool_decide (code = js "ENOTEMPTY")) then ethrow error else
           w ← eget;
           match owner_in_the_way directory w with
           | Some owner => ethrow (SessionAlreadyActiveError canonicalPath (o_activeSessionId owner))
           | None => reclaimStaleLease directory self ;; mret None
           end
       | _ => ethrow error
       end).

Fixpoint acquire_loop (n : nat) (canonicalPath directory : jsstr) : leaseM SessionLease :=
  match n with
  | O =>
      w ← eget;
      match owner_in_the_way directory w with
      | Some owner => ethrow (SessionAlreadyActiveError canonicalPath (o_activeSessionId owner))
      | None => ethrow (LeaseError_ (js "Could not acquire session lease: " ++ canonicalPath))
      end
  | S n =>
      lease ← acquire_attempt canonicalPath directory;
      match lease with
      | Some lease => mret lease
      | None => acquire_loop n canonicalPath directory
      end
  end.

Definition acquireSessionLease (guard : GuardScript) (sessionPath : option jsstr) (agentDir : jsstr) : leaseM (option SessionLease) :=
  match sessionPath with
  | Some ((_ :: _) as sessionPath) =>
      if negb (leasesEnabled environment) then mret None else
      let canonicalPath := canonicalSessionPath sessionPath in
      os_call ;;
      let directory := leaseDirectory agentDir canonicalPath in
      lease ← withLeaseGuard guard directory (acquire_loop 3 canonicalPath directory);
      mret (Some lease)
  | _ => mret None
  end.
End acquire.

(** ** Releasing *)

(** The lease afterwards; errors are swallowed. *)
Definition release (guard : GuardScript) (lease : SessionLease) : leaseM SessionLease :=
  if l_released lease then mret lease else
  let lease' := MkLease (l_sessionPath lease) (l_directory lease) (l_token lease) true in
  ecatch (withLeaseGuard guard (l_directory lease)
            (w ← eget;
             match readLeaseOwner (l_directory lease) w with
             | Some owner => if bool_decide (o_token owner = l_token lease) then rmSync (l_directory lease) else mret tt
             | None => mret tt
             end) ;; mret tt)
    (λ _, mret tt) ;;
  mret lease'.
End lease.
