(* ===== verification/SessionLeaseSpec.v ===== *)
(** * Session leases: what the operations keep

    Directories with the owner file of a live process are not touched by anyone
    who acquires: the lemmas are Hoare triples about [Safe], the state in which
    a given set of owner files is on disk. *)

From S2P Require Import Prelude.
From S2P Require Import Eff.
From S2P Require Import JsMap.
From S2P Require Import JsString.
From S2P Require Import Json.
From S2P Require Import JsonlFile.
From S2P Require Import SessionLease.

(** ** Owner files *)

Lemma parse_owner_json o : parse_owner (owner_json o) = Ok (Some o).
Proof. destruct o as [token pid [start|] [active|] path created]; vm_compute; reflexivity. Qed.

#[export] Instance owner_json_inj : Inj (=) (=) owner_json.
Proof. intros o o' E. pose proof (parse_owner_json o) as H. rewrite E, parse_owner_json in H. congruence. Qed.

Lemma readLeaseOwner_json d o w : w_dirs w !! d = Some (OwnerJson (owner_json o)) → readLeaseOwner d w = Some o.
Proof. intros E. unfold readLeaseOwner. by rewrite E, parse_owner_json. Qed.

(** ** Sections *)

Section hoare.
Context {T : Type} (P : World → Prop).

Lemma hoare_get {E A} (f : World → eff World E A) Q X : (∀ w, P w → hoare (λ w', w' = w) (f w) Q X) → hoare P (eget ≫= f) Q X.
Proof. intros Hf w Hw. apply (Hf w Hw w eq_refl). Qed.

Lemma hoare_weaken {E A} (m : eff World E A) P' Q X : hoare P' m Q X → (∀ w, P w → P' w) → hoare P m Q X.
Proof. intros Hm HP w Hw. apply Hm, HP, Hw. Qed.

Lemma hoare_withLeaseGuard guard d (action : eff World LeaseError T) Q :
  hoare P action (λ a w, Q a w ∧ P w) (λ _, P) →
  hoare P (withLeaseGuard guard d action) (λ a w, Q a w ∧ P w) (λ _, P).
Proof.
  intros Ha w Hw. unfold withLeaseGuard. rewrite run_lift. destruct (lock_loop guard d 100 0) as [[]|]; [|done].
  unfold finally_unlock. rewrite run_bind. unfold assertGuardHeld at 1. destruct (g_before guard); cbn [orb]; [done|].
  specialize (Ha w Hw). cbn. unfold mbind, eff_bind. destruct (action w) as [w' [a|e]].
  - unfold assertGuardHeld. destruct (g_after guard); cbn; [by apply Ha|]. destruct (g_unlock guard); [by apply Ha|done].
  - destruct (g_after guard), (g_unlock guard); done.
Qed.
End hoare.

Section spec.
Context (resolve dirname basename : jsstr → jsstr) (realpath : jsstr → option jsstr) (join : list jsstr → jsstr).
Context (sha256_hex : jsstr → jsstr) (uuid : nat → jsstr) (win32 : bool) (group_kill : Z → option jsstr).

#[local] Abbreviation startId := (getProcessStartId win32).

(** What is known of a process depends on the processes alone. *)
Lemma startId_processes pid w w' : w_processes w = w_processes w' → startId pid w = startId pid w'.
Proof. intros E. unfold getProcessStartId. by rewrite E. Qed.

(** The owner file of a live process. *)
Record live_owner (procs : gmap Z OsProcess) (o : SessionLeaseOwner) : Prop := {
  lo_pid : 0 < o_pid o;
  lo_live : is_Some (procs !! o_pid o);
  lo_start : ∀ w, w_processes w = procs → o_processStartId o = JStr <$> startId (o_pid o) w
}.

Lemma live_owner_alive procs o w : w_processes w = procs → live_owner procs o → isLeaseOwnerAlive win32 group_kill o w = true.
Proof.
  intros Hw [Hp [p Hl] Hs]. unfold isLeaseOwnerAlive, isProcessAlive, kill0.
  rewrite (proj2 (Z.leb_gt _ _)) by done. rewrite Hw, Hl. assert (match (if op_eperm p then Some (js "EPERM") else None) with
    None => true | Some code => bool_decide (code = js "EPERM") end = true) as -> by (destruct (op_eperm p); [by rewrite bool_decide_true|done]).
  cbn [negb]. rewrite (Hs w Hw). destruct (startId (o_pid o) w) as [[|c s]|]; [done| |done].
  cbn [fmap option_fmap option_map json_truthy negb]. by rewrite bool_decide_true.
Qed.

Definition cache_ok (w : World) : Prop :=
  ∀ pid id, w_currentStart w !! pid = Some id → is_Some (w_processes w !! pid) → id = startId pid w.

(** [prot d o]: the directory [d] belongs to [o]. *)
Section safe.
Context (prot : jsstr → SessionLeaseOwner → Prop) (procs : gmap Z OsProcess) (n : nat).
Hypothesis prot_live : ∀ d o, prot d o → live_owner procs o.

Record Safe (w : World) : Prop := {
  sf_processes : w_processes w = procs;
  sf_cache : cache_ok w;
  sf_uuids : (n <= w_uuids w)%nat;
  sf_dirs : ∀ d o, prot d o → w_dirs w !! d = Some (OwnerJson (owner_json o))
}.

Lemma Safe_ext w w' : Safe w → w_processes w' = w_processes w → w_currentStart w' = w_currentStart w →
  (w_uuids w <= w_uuids w')%nat → (∀ d o, prot d o → w_dirs w' !! d = w_dirs w !! d) → Safe w'.
Proof.
  intros [H1 H2 H3 H4] E1 E2 E3 E4. split; [congruence| |lia|].
  - intros pid id. rewrite E1, E2. intros Hid Hp. rewrite (H2 pid id Hid Hp). by apply startId_processes.
  - intros d o Hd. rewrite (E4 d o Hd). by apply H4.
Qed.

Lemma os_call_safe : keeps Safe os_call.
Proof.
  intros w Hw. unfold os_call. destruct (w_faults w) as [|[code|] fs]; [done|..]; by apply (Safe_ext w).
Qed.

Definition free (d : jsstr) : Prop := ∀ o, ¬ prot d o.

Lemma with_dirs_safe f w : Safe w → (∀ d o, prot d o → f (w_dirs w) !! d = w_dirs w !! d) → Safe (with_dirs f w).
Proof. intros Hw Hf. by apply (Safe_ext w). Qed.

Lemma insert_safe d c w : Safe w → free d → Safe (with_dirs <[d := c]> w).
Proof. intros Hw Hd. apply with_dirs_safe; [done|]. intros d' o Hp. apply lookup_insert_ne. intros ->. by apply (Hd o). Qed.

Lemma delete_safe d w : Safe w → free d → Safe (with_dirs (delete d) w).
Proof. intros Hw Hd. apply with_dirs_safe; [done|]. intros d' o Hp. apply lookup_delete_ne. intros ->. by apply (Hd o). Qed.

Lemma mkdir_safe p : hoare Safe (mkdirSync p) (λ _ w, free p ∧ Safe w) (λ _, Safe).
Proof.
  eapply hoare_bind; [apply os_call_safe|intros []]. apply hoare_get. intros w Hw w' ->. destruct (w_dirs w !! p) eqn:E; [done|].
  assert (free p) as Hp. { intros o Ho. apply (sf_dirs w Hw) in Ho. congruence. }
  split; [done|]. by apply insert_safe.
Qed.

Lemma write_safe p v : free p → hoare Safe (writeOwner p v) (λ _ w, w_dirs w !! p = Some (OwnerJson v) ∧ Safe w) (λ _, Safe).
Proof.
  intros Hp. eapply hoare_bind; [apply os_call_safe|intros []]. intros w Hw. cbn. split; [by rewrite lookup_insert_eq|by apply insert_safe].
Qed.

Lemma rm_safe p : free p → keeps Safe (rmSync p).
Proof. intros Hp. eapply hoare_bind; [apply os_call_safe|intros []]. intros w Hw. by apply delete_safe. Qed.

Lemma os_call_dirs p c : hoare (λ w, w_dirs w !! p = Some c ∧ Safe w) os_call (λ _ w, w_dirs w !! p = Some c ∧ Safe w) (λ _, Safe).
Proof.
  intros w [Hp Hw]. pose proof (os_call_safe w Hw) as H. unfold os_call in *. by destruct (w_faults w) as [|[code|] fs].
Qed.

(** A rename never replaces an owner file. *)
Lemma rename_safe source target c : free source →
  hoare (λ w, w_dirs w !! source = Some c ∧ Safe w) (renameSync source target)
    (λ _ w, free target ∧ w_dirs w !! target = Some c ∧ Safe w) (λ _, Safe).
Proof.
  intros Hs. eapply hoare_bind; [apply os_call_dirs|intros []]. apply hoare_get. intros w [E Hw] w' ->. rewrite E.
  assert ((∀ v, w_dirs w !! target ≠ Some (OwnerJson v)) →
    free target ∧ Safe (with_dirs (λ dirs, <[target := c]> (delete source dirs)) w)) as Hdone.
  { intros Ht. assert (free target) as Hf by (intros o Ho; by apply (Ht (owner_json o)), (sf_dirs w Hw)).
    split; [done|].
    exact (insert_safe target c _ (delete_safe source w Hw Hs) Hf). }
  destruct (w_dirs w !! target) as [[| |v]|] eqn:Et; [|done..|];
    (destruct Hdone as [H1 H2]; [done|]; split; [done|]; split; [cbn; by rewrite lookup_insert_eq|done]).
Qed.

(** Moving away a directory that nobody holds. *)
Lemma rename_away source target : free source →
  hoare Safe (renameSync source target) (λ _ w, free target ∧ Safe w) (λ _, Safe).
Proof.
  intros Hs w Hw. destruct (w_dirs w !! source) as [c|] eqn:E.
  - pose proof (rename_safe source target c Hs w (conj E Hw)) as H. destruct (renameSync source target w) as [w' [[]|e]]; [|done].
    by destruct H as (H1&_&H2).
  - unfold renameSync. rewrite run_bind. pose proof (os_call_safe w Hw) as H.
    assert (∀ r w', os_call w = (w', r) → w_dirs w' = w_dirs w) as Hd.
    { intros r w'. unfold os_call. destruct (w_faults w) as [|? fs]; by intros [= <- _]. }
    destruct (os_call w) as [w' [[]|e]]; [|done]. rewrite run_get, (Hd _ _ eq_refl), E. exact H.
Qed.

Lemma randomUUID_safe : hoare Safe (randomUUID uuid) (λ t w, (∃ k, t = uuid k ∧ (n <= k < w_uuids w)%nat) ∧ Safe w) (λ _, Safe).
Proof.
  intros w Hw. cbn. split; [exists (w_uuids w); split; [done|]; pose proof (sf_uuids w Hw); cbn; lia|].
  apply (Safe_ext w); try done. cbn. lia.
Qed.

Lemma reclaim_safe d self : free d → keeps Safe (reclaimStaleLease uuid d self).
Proof.
  intros Hd. eapply hoare_bind with (Q := λ _, Safe);
    [eapply hoare_conseq; [apply randomUUID_safe|done|by intros t w [_ ?]|done]|intros t]. cbv zeta.
  eapply hoare_bind with (Q := λ r w, (∀ u, r = Ok u → free (stalePath d self t)) ∧ Safe w).
  - eapply hoare_catch with (Y := λ _, Safe).
    + eapply hoare_bind; [by apply rename_away|]. intros _ w [H1 H2]. by split.
    + intros e w Hw. cbn. split; [|done]. intros u. destruct e; [done| |done]. by case_bool_decide.
  - intros [u|b] w [Hf Hw]; [|done]. revert w Hw. change (keeps Safe (rmSync (stalePath d self t) ;; mret true)).
    apply keeps_bind; [|intros; apply keeps_ret]. by apply rm_safe, (Hf u).
Qed.
End safe.

(** ** Acquiring *)

Section acquire.
Context (prot : jsstr → SessionLeaseOwner → Prop) (procs : gmap Z OsProcess).
Hypothesis prot_live : ∀ d o, prot d o → live_owner procs o.
Context (self : Z) (environment : gmap jsstr jsstr) (now : jsstr).
Hypothesis self_pid : 0 < self.
Hypothesis self_live : is_Some (procs !! self).

#[local] Abbreviation S_ := (Safe prot procs).

Lemma Safe_mono n m w : (n <= m)%nat → S_ m w → S_ n w.
Proof. intros Hn [H1 H2 H3 H4]. split; try done. lia. Qed.

Lemma uuid_safe n : hoare (S_ n) (randomUUID uuid) (λ t w, ∃ k, t = uuid k ∧ (n <= k)%nat ∧ S_ (S k) w) (λ _, S_ n).
Proof.
  intros w Hw. cbn. exists (w_uuids w). split; [done|]. split; [apply (sf_uuids _ _ _ w Hw)|].
  destruct Hw as [H1 H2 H3 H4]. by split.
Qed.

Lemma current_start_safe n :
  hoare (S_ n) (getCurrentProcessStartId win32 self) (λ id w, (∀ w', w_processes w' = procs → id = startId self w') ∧ S_ n w) (λ _, S_ n).
Proof.
  apply hoare_get. intros w Hw w' ->. assert (∀ w', w_processes w' = procs → startId self w = startId self w') as Hst.
  { intros w' Hw'. apply startId_processes. by rewrite Hw', (sf_processes _ _ _ w Hw). }
  destruct (w_currentStart w !! self) as [id|] eqn:E.
  - split; [|done]. intros w' Hw'. rewrite (sf_cache _ _ _ w Hw self id E); [by apply Hst|]. by rewrite (sf_processes _ _ _ w Hw).
  - cbn. split; [done|]. destruct Hw as [H1 H2 H3 H4]. split; try done. intros pid id. cbn [w_currentStart w_processes].
    intros Hid Hp. rewrite (startId_processes pid _ w) by done. apply lookup_insert_Some in Hid as [[<- <-]|[_ Hid]]; [done|by apply H2].
Qed.

Lemma in_the_way_free n d w : S_ n w → owner_in_the_way win32 group_kill d w = None → free prot d.
Proof.
  intros Hw Hn o Ho. unfold owner_in_the_way in Hn. rewrite (readLeaseOwner_json d o w) in Hn by (by apply (sf_dirs _ _ _ w Hw)).
  by rewrite (live_owner_alive procs) in Hn; [| apply (sf_processes _ _ _ w Hw)|apply (prot_live d)].
Qed.

(** A new lease. *)
Definition granted (n : nat) (canonicalPath d : jsstr) (l : SessionLease) (w : World) : Prop :=
  l_sessionPath l = canonicalPath ∧ l_directory l = d ∧ l_released l = false ∧ free prot d ∧
  (∃ k, l_token l = uuid k ∧ (n <= k < w_uuids w)%nat) ∧
  ∃ o, w_dirs w !! d = Some (OwnerJson (owner_json o)) ∧ o_token o = l_token l ∧ o_pid o = self ∧ live_owner procs o.

#[local] Abbreviation attempt := (acquire_attempt uuid win32 group_kill self environment now).
#[local] Abbreviation loop := (acquire_loop uuid win32 group_kill self environment now).

Lemma acquire_attempt_safe n canonicalPath d : hoare (S_ n) (attempt canonicalPath d)
  (λ r w, match r with Some l => granted n canonicalPath d l w | None => True end ∧ S_ n w) (λ _, S_ n).
Proof.
  eapply hoare_bind; [apply uuid_safe|]. intros token w (k&->&Hk&Hw). cbv zeta. revert w Hw.
  assert (∀ w, S_ (S k) w → S_ n w) as Hmono by (intros w; apply Safe_mono; lia).
  match goal with |- ∀ w, _ → match ?m w with _ => _ end => apply (hoare_conseq (S_ (S k)) (S_ (S k)) m
    (λ r w, match r with Some l => granted n canonicalPath d l w | None => True end ∧ S_ (S k) w) _ (λ _, S_ (S k)));
    [|done|intros r w [? ?]; auto|auto] end.
  eapply hoare_bind; [apply current_start_safe|]. intros start w [Hstart Hw]. revert w Hw.
  set (c := candidateDirectory d self (uuid k)).
  set (o := MkOwner (uuid k) self (JStr <$> start) (JStr <$> environment !! SESSION_LEASE_OWNER_ID_ENV) canonicalPath now).
  match goal with |- ∀ w, _ → match ?m w with _ => _ end => change (hoare (S_ (S k)) m
    (λ r w, match r with Some l => granted n canonicalPath d l w | None => True end ∧ S_ (S k) w) (λ _, S_ (S k))) end.
  assert (live_owner procs o) as Ho by (split; [done|done|]; intros w' Hw'; exact (f_equal (fmap JStr) (Hstart w' Hw'))).
  eapply hoare_bind; [apply mkdir_safe|]. intros [] w [Hc Hw]. revert w Hw.
  match goal with |- ∀ w, _ → match ?m w with _ => _ end => change (hoare (S_ (S k)) m
    (λ r w, match r with Some l => granted n canonicalPath d l w | None => True end ∧ S_ (S k) w) (λ _, S_ (S k))) end.
  eapply hoare_bind; [by apply write_safe|]. intros [].
  eapply hoare_catch with (Y := λ _, S_ (S k)).
  - eapply hoare_bind; [by apply rename_safe|]. intros [] w (Hd&Hdir&Hw). cbn. split; [|done].
    split_and!; try done; [exists k; split; [done|]; pose proof (sf_uuids _ _ _ w Hw); lia|by exists o].
  - intros e. eapply hoare_bind; [by apply rm_safe|]. intros [].
    destruct e; try (intros w Hw; exact Hw). destruct (_ && _); [intros w Hw; exact Hw|].
    apply hoare_get. intros w Hw w' ->. destruct (owner_in_the_way win32 group_kill d w) eqn:Eo; [done|].
    pose proof (reclaim_safe prot procs (S k) d self (in_the_way_free _ _ _ Hw Eo) w Hw) as H. rewrite run_bind.
    by destruct (reclaimStaleLease uuid d self w) as [w' [b|e]].
Qed.

Lemma acquire_loop_safe n turns canonicalPath d : hoare (S_ n) (loop turns canonicalPath d)
  (λ l w, granted n canonicalPath d l w ∧ S_ n w) (λ _, S_ n).
Proof.
  induction turns as [|turns IH]; cbn [acquire_loop].
  - apply hoare_get. intros w Hw w' ->. by destruct (owner_in_the_way win32 group_kill d w).
  - eapply hoare_bind; [apply acquire_attempt_safe|]. intros [l|] w [H1 H2]; [done|by apply IH].
Qed.

Lemma acquireSessionLease_safe n guard sessionPath agentDir :
  hoare (S_ n) (acquireSessionLease resolve dirname basename realpath join sha256_hex uuid win32 group_kill self environment now
    guard sessionPath agentDir)
  (λ r w, match r with
          | Some l => ∃ p, sessionPath = Some p ∧
              let canonicalPath := canonicalSessionPath resolve dirname basename realpath join p in
              granted n canonicalPath (leaseDirectory join sha256_hex agentDir canonicalPath) l w
          | None => True
          end ∧ S_ n w) (λ _, S_ n).
Proof.
  unfold acquireSessionLease. destruct sessionPath as [[|c p]|]; [intros w Hw; by split|..|intros w Hw; by split].
  destruct (negb (leasesEnabled environment)); [intros w Hw; by split|]. eapply hoare_bind; [apply os_call_safe|]. intros [].
  eapply hoare_bind; [apply hoare_withLeaseGuard, acquire_loop_safe|]. intros l w [H1 H2]. cbn. split; [|done]. by exists (c :: p).
Qed.
End acquire.

(** ** Releasing *)

Lemma release_safe prot procs n guard l : (∀ o, ¬ prot (l_directory l) o) →
  hoare (Safe prot procs n) (release guard l)
    (λ l' w, l' = MkLease (l_sessionPath l) (l_directory l) (l_token l) true ∧ Safe prot procs n w) (λ _, Safe prot procs n).
Proof.
  intros Hf. unfold release. destruct (l_released l) eqn:E; [intros w Hw; cbn; split; [by destruct l; cbn in *; subst|done]|].
  eapply hoare_bind with (Q := λ _, Safe prot procs n); [|intros [] w Hw; by split].
  eapply hoare_catch with (Y := λ _, Safe prot procs n); [|intros e w Hw; exact Hw].
  eapply hoare_bind with (Q := λ _ w, True ∧ Safe prot procs n w); [|intros [] w [_ Hw]; exact Hw].
  apply (hoare_withLeaseGuard (Safe prot procs n) guard (l_directory l) _ (λ _ _, True)).
  apply hoare_get. intros w Hw w' ->. destruct (readLeaseOwner (l_directory l) w) as [o|]; [|by split].
  case_bool_decide as Et; [|by split]. pose proof (rm_safe prot procs n (l_directory l) Hf w Hw) as H.
  by destruct (rmSync (l_directory l) w) as [w' [[]|e]].
Qed.
End spec.
