(* ===== verification/SessionLeaseProps.v ===== *)
(** * Session leases: the theorems

    The system of processes that acquire and release leases, start, and die
    without cleaning up.  A session file is leased to one process at a time
    ([lease_exclusive]); the lease of a dead process does not stay in the way
    ([stale_lease_reclaimed]) and that of a live one is refused
    ([live_lease_refused]). *)

From S2P Require Import Prelude.
From S2P Require Import Eff.
From S2P Require Import JsMap.
From S2P Require Import JsString.
From S2P Require Import Json.
From S2P Require Import JsonlFile.
From S2P Require Import SessionLease.
From S2P Require Import SessionLeaseSpec.

Section system.
Context (resolve dirname basename : jsstr → jsstr) (realpath : jsstr → option jsstr) (join : list jsstr → jsstr).
Context (sha256_hex : jsstr → jsstr) (uuid : nat → jsstr) (win32 : bool) (group_kill : Z → option jsstr).

#[local] Abbreviation acquireLease := (acquireSessionLease resolve dirname basename realpath join sha256_hex uuid win32 group_kill).
#[local] Abbreviation startId := (getProcessStartId win32).
#[local] Abbreviation live := (live_owner win32).

(** The machine and the leases that live processes were given. *)
Record Sys := MkSys { sys_world : World; sys_leases : list (Z * SessionLease) }.

Definition set_processes (f : gmap Z OsProcess → gmap Z OsProcess) (g : gmap Z (option jsstr) → gmap Z (option jsstr)) (w : World) : World :=
  MkWorld (f (w_processes w)) (w_dirs w) (g (w_currentStart w)) (w_faults w) (w_uuids w).

Inductive sys_step : Sys → Sys → Prop :=
  | st_acquire self p environment now guard path agentDir w w' r ls :
      w_processes w !! self = Some p → acquireLease self environment now guard path agentDir w = (w', r) →
      sys_step (MkSys w ls) (MkSys w' (ls ++ match r with Ok (Some l) => [(self, l)] | _ => [] end))
  | st_release i self l guard w w' l' ls :
      ls !! i = Some (self, l) → release guard l w = (w', Ok l') → sys_step (MkSys w ls) (MkSys w' (<[i := (self, l')]> ls))
  | st_exit pid w ls :
      sys_step (MkSys w ls) (MkSys (set_processes (delete pid) (delete pid) w) (filter (λ x, x.1 ≠ pid) ls))
  | st_start pid p w ls : 0 < pid → w_processes w !! pid = None →
      sys_step (MkSys w ls) (MkSys (set_processes <[pid := p]> (delete pid) w) ls)
  | st_faults fs w ls :
      sys_step (MkSys w ls) (MkSys (MkWorld (w_processes w) (w_dirs w) (w_currentStart w) fs (w_uuids w)) ls).

(** Nobody has a lease yet; whatever is on disk. *)
Definition initial (s : Sys) : Prop :=
  sys_leases s = [] ∧ w_currentStart (sys_world s) = ∅ ∧ ∀ pid, is_Some (w_processes (sys_world s) !! pid) → 0 < pid.

(** ** The invariant *)

(** The owner file of a lease. *)
Definition owner_of (w : World) (pid : Z) (l : SessionLease) (o : SessionLeaseOwner) : Prop :=
  w_dirs w !! l_directory l = Some (OwnerJson (owner_json o)) ∧ o_token o = l_token l ∧ o_pid o = pid ∧ live (w_processes w) o.

Record Inv (s : Sys) : Prop := {
  inv_pids : ∀ pid, is_Some (w_processes (sys_world s) !! pid) → 0 < pid;
  inv_cache : cache_ok win32 (sys_world s);
  inv_alive : ∀ x, x ∈ sys_leases s → is_Some (w_processes (sys_world s) !! x.1);
  inv_tokens : ∀ x, x ∈ sys_leases s → ∃ k, l_token x.2 = uuid k ∧ (k < w_uuids (sys_world s))%nat;
  inv_unique : NoDup ((λ x : Z * SessionLease, l_token x.2) <$> sys_leases s);
  inv_held : ∀ pid l, (pid, l) ∈ sys_leases s → l_released l = false → ∃ o, owner_of (sys_world s) pid l o
}.

(** What has to stay while one lease, if any, is given up. *)
Definition others (s : Sys) (P : SessionLease → Prop) (d : jsstr) (o : SessionLeaseOwner) : Prop :=
  ∃ pid l, (pid, l) ∈ sys_leases s ∧ l_released l = false ∧ P l ∧ l_directory l = d ∧ owner_of (sys_world s) pid l o.

Lemma others_live s P d o : others s P d o → live (w_processes (sys_world s)) o.
Proof. by intros (pid&l&_&_&_&_&_&_&_&H). Qed.

Lemma others_safe s P : Inv s → Safe win32 (others s P) (w_processes (sys_world s)) (w_uuids (sys_world s)) (sys_world s).
Proof. intros Hi. split; [done|apply Hi|done|]. by intros d o (pid&l&_&_&_&<-&H&_). Qed.

Lemma token_inj s x y : Inv s → x ∈ sys_leases s → y ∈ sys_leases s → l_token x.2 = l_token y.2 → x = y.
Proof. intros Hi. apply (NoDup_fmap_eq (λ x : Z * SessionLease, l_token x.2)), Hi. Qed.

(** One owner file, one lease. *)
Lemma same_directory s pid l pid' l' : Inv s → (pid, l) ∈ sys_leases s → (pid', l') ∈ sys_leases s →
  l_released l = false → l_released l' = false → l_directory l = l_directory l' → pid = pid' ∧ l = l'.
Proof.
  intros Hi Hl Hl' Hr Hr' Hd. destruct (inv_held s Hi pid l Hl Hr) as (o&Ho&Ht&_).
  destruct (inv_held s Hi pid' l' Hl' Hr') as (o'&Ho'&Ht'&_). rewrite Hd, Ho' in Ho.
  assert (o' = o) as -> by (apply (inj owner_json); congruence).
  assert ((pid, l) = (pid', l')) as [= -> ->]; [|done]. apply (token_inj s); [done..|]. cbn [snd]. congruence.
Qed.

(** The leases that stay after an operation. *)
Lemma held_after s P w' n pid l : Safe win32 (others s P) (w_processes (sys_world s)) n w' → Inv s →
  (pid, l) ∈ sys_leases s → l_released l = false → P l → ∃ o, owner_of w' pid l o.
Proof.
  intros [H1 H2 H3 H4] Hi Hl Hr HP. destruct (inv_held s Hi pid l Hl Hr) as (o&Ho). exists o.
  split; [apply (H4 _ o); by exists pid, l|]. rewrite H1. apply Ho.
Qed.

Hypothesis uuid_inj : Inj (=) (=) uuid.

Lemma inv_acquire self p environment now guard path agentDir w w' r ls :
  Inv (MkSys w ls) → w_processes w !! self = Some p → acquireLease self environment now guard path agentDir w = (w', r) →
  Inv (MkSys w' (ls ++ match r with Ok (Some l) => [(self, l)] | _ => [] end)).
Proof.
  intros Hi Hp Hr. set (s := MkSys w ls) in *.
  assert (is_Some (w_processes w !! self)) as Hself by (by rewrite Hp). pose proof (inv_pids s Hi self Hself) as Hpos.
  pose proof (acquireSessionLease_safe resolve dirname basename realpath join sha256_hex uuid win32 group_kill (others s (λ _, True))
    (w_processes w) (others_live s _) self environment now Hpos Hself (w_uuids w) guard path agentDir w (others_safe s _ Hi)) as H.
  rewrite Hr in H.
  assert (Safe win32 (others s (λ _, True)) (w_processes w) (w_uuids w) w') as Hs by (destruct r as [[l|]|e]; [apply H|apply H|done]).
  assert (∀ ls', (∀ x, x ∈ ls' → ∃ k, l_token x.2 = uuid k ∧ (w_uuids w <= k < w_uuids w')%nat) → NoDup ((λ x : Z * SessionLease, l_token x.2) <$> ls') →
    (∀ x, x ∈ ls' → x.1 = self) → (∀ pid l, (pid, l) ∈ ls' → l_released l = false → ∃ o, owner_of w' pid l o) → Inv (MkSys w' (ls ++ ls'))) as Hdone.
  { intros ls' Htok Hnd Hself' Hheld. split; cbn [sys_world sys_leases].
    - rewrite (sf_processes _ _ _ _ _ Hs). apply Hi.
    - apply Hs.
    - intros x [Hx|Hx]%elem_of_app; rewrite (sf_processes _ _ _ _ _ Hs); [by apply (inv_alive s Hi)|by rewrite (Hself' x Hx)].
    - intros x [Hx|Hx]%elem_of_app.
      + destruct (inv_tokens s Hi x Hx) as (k&?&Hk). exists k. split; [done|]. pose proof (sf_uuids _ _ _ _ _ Hs). cbn in Hk. lia.
      + destruct (Htok x Hx) as (k&?&Hk). exists k. split; [done|lia].
    - rewrite fmap_app. apply NoDup_app. split; [apply Hi|]. split; [|done].
      intros t (x&->&Hx)%list_elem_of_fmap (y&Hxy&Hy)%list_elem_of_fmap.
      destruct (inv_tokens s Hi x Hx) as (k&Hk&Hlt). destruct (Htok y Hy) as (k'&Hk'&Hge).
      rewrite Hk, Hk' in Hxy. apply (inj uuid) in Hxy. cbn in Hlt. lia.
    - intros pid l [Hl|Hl]%elem_of_app Hrel; [by apply (held_after s (λ _, True) w' (w_uuids w))|by apply Hheld]. }
  destruct r as [[l|]|e]; [|apply Hdone; [by intros x ?%not_elem_of_nil|constructor|by intros x ?%not_elem_of_nil|by intros pid l ?%not_elem_of_nil]..].
  destruct H as [(path'&_&Hp'&Hd&Hrel&_&Htok&o&Ho) _]. apply Hdone.
  - intros x ->%list_elem_of_singleton. exact Htok.
  - apply NoDup_singleton.
  - by intros x ->%list_elem_of_singleton.
  - intros pid l' [= -> ->]%list_elem_of_singleton _. exists o. unfold owner_of. rewrite Hd, (sf_processes _ _ _ _ _ Hs). exact Ho.
Qed.

Lemma inv_release i self l guard w w' l' ls : Inv (MkSys w ls) → ls !! i = Some (self, l) → release guard l w = (w', Ok l') →
  Inv (MkSys w' (<[i := (self, l')]> ls)).
Proof.
  intros Hi Hl Hr. set (s := MkSys w ls) in *. assert ((self, l) ∈ ls) as Hin by (by eapply list_elem_of_lookup_2).
  destruct (l_released l) eqn:Erel.
  { unfold release in Hr. rewrite Erel in Hr. injection Hr as <- <-. by rewrite list_insert_id. }
  set (P := λ l0, l_token l0 ≠ l_token l).
  assert (∀ o, ¬ others s P (l_directory l) o) as Hfree.
  { intros o (pid&l0&Hl0&Hr0&HP&Hd&_). apply HP. destruct (same_directory s pid l0 self l) as [_ ->]; done. }
  pose proof (release_safe win32 (others s P) (w_processes w) (w_uuids w) guard l Hfree w (others_safe s P Hi)) as H.
  rewrite Hr in H. destruct H as [-> Hs].
  assert (∀ x, x ∈ <[i:=(self, MkLease (l_sessionPath l) (l_directory l) (l_token l) true)]> ls →
    x = (self, MkLease (l_sessionPath l) (l_directory l) (l_token l) true) ∨ (x ∈ ls ∧ l_token x.2 ≠ l_token l)) as Hins.
  { intros x (j&Hj)%list_elem_of_lookup. apply list_lookup_insert_Some in Hj as [(_&->&_)|[Hne Hj]]; [by left|]. right.
    split; [by eapply list_elem_of_lookup_2|]. intros Ht. apply Hne. eapply (NoDup_lookup ((λ x : Z * SessionLease, l_token x.2) <$> ls)); [apply Hi|..];
      rewrite list_lookup_fmap; [by rewrite Hl|]. by rewrite Hj; cbn; rewrite Ht. }
  split; cbn [sys_world sys_leases].
  - rewrite (sf_processes _ _ _ _ _ Hs). apply Hi.
  - apply Hs.
  - intros x Hx. rewrite (sf_processes _ _ _ _ _ Hs). destruct (Hins x Hx) as [->|[Hy _]]; [by apply (inv_alive s Hi (self, l))|by apply (inv_alive s Hi)].
  - intros x Hx. pose proof (sf_uuids _ _ _ _ _ Hs). assert (∃ y, y ∈ ls ∧ l_token y.2 = l_token x.2) as (y&Hy&<-).
    { destruct (Hins x Hx) as [->|[? _]]; [by exists (self, l)|by exists x]. }
    destruct (inv_tokens s Hi y Hy) as (k&?&Hk). exists k. split; [done|]. cbn in Hk. lia.
  - rewrite list_fmap_insert. cbn [snd l_token]. rewrite list_insert_id; [apply Hi|]. by rewrite list_lookup_fmap, Hl.
  - intros pid l0 Hl0 Hr0. destruct (Hins _ Hl0) as [[= -> ->]|[Hl1 Hne]]; [done|]. by eapply (held_after s P).
Qed.

(** What the system says of a process is about that process. *)
Lemma startId_local pid w w' : w_processes w !! pid = w_processes w' !! pid → startId pid w = startId pid w'.
Proof.
  intros E. unfold getProcessStartId, getWindowsProcessStartId, getPsProcessStartId. cbv zeta. by rewrite E.
Qed.

Lemma live_local procs procs' o : procs !! o_pid o = procs' !! o_pid o → live procs o → live procs' o.
Proof.
  intros E [H1 H2 H3]. split; [done|by rewrite <-E|]. intros w Hw.
  rewrite (H3 (set_processes (λ _, procs) id w)) by done. f_equal. apply startId_local. by rewrite Hw.
Qed.

(** Processes come and go; those with leases stay as they are. *)
Lemma inv_processes f pid w ls ls' : Inv (MkSys w ls) → (∀ q, q ≠ pid → f (w_processes w) !! q = w_processes w !! q) →
  (is_Some (f (w_processes w) !! pid) → 0 < pid) → sublist ls' ls → (∀ x, x ∈ ls' → x.1 ≠ pid) →
  Inv (MkSys (set_processes f (delete pid) w) ls').
Proof.
  intros Hi Hf Hpos Hsub Hne. assert (∀ x, x ∈ ls' → x ∈ ls) as Hin by (intros x Hx; by eapply elem_of_sublist).
  split; cbn [sys_world sys_leases set_processes w_processes w_uuids].
  - intros q Hq. destruct (decide (q = pid)) as [->|Hqp]; [by apply Hpos|]. apply (inv_pids _ Hi). cbn. by rewrite <-Hf.
  - intros q id. cbn [set_processes w_currentStart w_processes]. intros Hid Hq. apply lookup_delete_Some in Hid as [Hqp Hid].
    rewrite Hf in Hq by done. rewrite (inv_cache _ Hi q id Hid Hq). apply startId_local. cbn. by rewrite Hf.
  - intros x Hx. rewrite Hf by by apply Hne. by apply (inv_alive _ Hi x), Hin.
  - intros x Hx. by apply (inv_tokens _ Hi x), Hin.
  - eapply sublist_NoDup; [apply Hi|by apply fmap_sublist].
  - intros q l Hl Hr. destruct (inv_held _ Hi q l (Hin _ Hl) Hr) as (o&Hd&Ht&Hp&Hlive). exists o. split; [done|]. split; [done|]. split; [done|].
    eapply live_local; [|exact Hlive]. cbn. rewrite Hp, Hf; [done|]. exact (Hne _ Hl).
Qed.

Lemma inv_step s s' : sys_step s s' → Inv s → Inv s'.
Proof.
  destruct 1 as [self p env now guard path agentDir w w' r ls Hp Hr|i self l guard w w' l' ls Hl Hr|pid w ls|pid p w ls Hpos Hp|fs w ls]; intros Hi.
  - by eapply inv_acquire.
  - by eapply inv_release.
  - apply (inv_processes _ _ _ ls); [done|intros q Hq; by rewrite lookup_delete_ne|rewrite lookup_delete_eq; by intros [? ?]|apply sublist_filter|].
    by intros x [? _]%list_elem_of_filter.
  - apply (inv_processes _ _ _ ls); [done|intros q Hq; by rewrite lookup_insert_ne|done|done|].
    intros x Hx Hq. destruct (inv_alive _ Hi x Hx) as [? Hx']. cbn in Hx'. congruence.
  - destruct Hi as [H1 H2 H3 H4 H5 H6]. by split. 
Qed.

Lemma inv_initial s : initial s → Inv s.
Proof.
  intros (Hl&Hc&Hp). split; [done| |rewrite Hl..]; try by intros ? ?%not_elem_of_nil.
  - intros pid id. by rewrite Hc, lookup_empty.
  - constructor.
  - by intros pid l ?%not_elem_of_nil.
Qed.

Lemma inv_reachable s0 s : initial s0 → rtc sys_step s0 s → Inv s.
Proof. intros H0 Hs. apply inv_initial in H0. induction Hs as [|s1 s2 s3 H12 _ IH]; [done|]. by apply IH, (inv_step s1). Qed.

End system.

(** ** Without failures *)

Section progress.
Context (resolve dirname basename : jsstr → jsstr) (realpath : jsstr → option jsstr) (join : list jsstr → jsstr).
Context (sha256_hex : jsstr → jsstr) (uuid : nat → jsstr) (win32 : bool) (group_kill : Z → option jsstr).
Context (self : Z) (environment : gmap jsstr jsstr) (now : jsstr).

#[local] Abbreviation in_the_way := (owner_in_the_way win32 group_kill).
#[local] Abbreviation attempt := (acquire_attempt uuid win32 group_kill self environment now).
#[local] Abbreviation loop := (acquire_loop uuid win32 group_kill self environment now).

(** Every call works, and the names with identifiers not made yet are new. *)
Record calm (d : jsstr) (w : World) : Prop := {
  cm_faults : w_faults w = [];
  cm_candidate : ∀ k, (w_uuids w <= k)%nat → w_dirs w !! candidateDirectory d self (uuid k) = None;
  cm_stale : ∀ k, (w_uuids w <= k)%nat → w_dirs w !! stalePath d self (uuid k) = None
}.

Lemma run_os_call {A} (k : eff World LeaseError A) w : w_faults w = [] → (os_call ;; k) w = k w.
Proof. intros E. rewrite run_bind. unfold os_call. by rewrite E. Qed.

Lemma run_mkdir {A} p (k : unit → eff World LeaseError A) w : w_faults w = [] → w_dirs w !! p = None →
  (mkdirSync p ≫= k) w = k tt (with_dirs <[p := NoOwnerFile]> w).
Proof. intros E H. rewrite run_bind. unfold mkdirSync. by rewrite run_os_call, run_get, H by done. Qed.

Lemma run_write {A} p v (k : unit → eff World LeaseError A) w : w_faults w = [] →
  (writeOwner p v ≫= k) w = k tt (with_dirs <[p := OwnerJson v]> w).
Proof. intros E. rewrite run_bind. unfold writeOwner. by rewrite run_os_call by done. Qed.

Lemma run_rm p w : w_faults w = [] → rmSync p w = (with_dirs (delete p) w, Ok tt).
Proof. intros E. unfold rmSync. by rewrite run_os_call by done. Qed.

Definition occupied (d : jsstr) (w : World) : bool :=
  match w_dirs w !! d with None | Some NoOwnerFile => false | _ => true end.

Lemma run_rename s t c w : w_faults w = [] → w_dirs w !! s = Some c →
  renameSync s t w = if occupied t w then (w, Throw (OsError (js "ENOTEMPTY")))
                     else (with_dirs (λ dirs, <[t := c]> (delete s dirs)) w, Ok tt).
Proof.
  intros E H. unfold renameSync, occupied. rewrite run_os_call, run_get, H by done. by destruct (w_dirs w !! t) as [[| |v]|].
Qed.

Lemma suffix_ne (d a : jsstr) : a ≠ [] → d ++ a ≠ d.
Proof. intros Ha E. apply (f_equal length) in E. rewrite length_app in E. destruct a; [done|cbn in E; lia]. Qed.

Lemma candidate_ne d t : candidateDirectory d self t ≠ d.
Proof. by apply suffix_ne. Qed.

Lemma stale_ne d t : stalePath d self t ≠ d.
Proof. by apply suffix_ne. Qed.

(** The state in which the candidate is in place. *)
Definition prepared (canonicalPath d : jsstr) (w w1 : World) (o : SessionLeaseOwner) : Prop :=
  w_processes w1 = w_processes w ∧ w_faults w1 = [] ∧ w_uuids w1 = S (w_uuids w) ∧
  w_dirs w1 = <[candidateDirectory d self (uuid (w_uuids w)) := OwnerJson (owner_json o)]> (w_dirs w) ∧
  o_token o = uuid (w_uuids w) ∧ o_pid o = self ∧ o_sessionPath o = canonicalPath.

Lemma run_prepare canonicalPath d w : calm d w → ∃ w1 o, prepared canonicalPath d w w1 o ∧
  attempt canonicalPath d w =
  let candidate := candidateDirectory d self (uuid (w_uuids w)) in
  ecatch (renameSync candidate d ;; mret (Some (MkLease canonicalPath d (uuid (w_uuids w)) false)))
    (λ error,
       rmSync candidate ;;
       match error with
       | OsError code =>
           if negb (bool_decide (code = js "EEXIST")) && negb (bool_decide (code = js "ENOTEMPTY")) then ethrow error else
           w ← eget;
           match in_the_way d w with
           | Some owner => ethrow (SessionAlreadyActiveError canonicalPath (o_activeSessionId owner))
           | None => reclaimStaleLease uuid d self ;; mret None
           end
       | _ => ethrow error
       end) w1.
Proof.
  intros [Hf Hc _]. unfold acquire_attempt. rewrite run_bind. cbn [randomUUID]. cbv zeta.
  set (w0 := MkWorld _ _ _ _ _). rewrite run_bind.
  assert (∃ id cs, getCurrentProcessStartId win32 self w0 = (MkWorld (w_processes w) (w_dirs w) cs (w_faults w) (S (w_uuids w)), Ok id)) as (id&cs&->).
  { unfold getCurrentProcessStartId. rewrite run_get. destruct (w_currentStart w0 !! self); by repeat eexists. }
  rewrite run_mkdir by (try done; by apply Hc). rewrite run_write by done.
  eexists _, (MkOwner (uuid (w_uuids w)) self (JStr <$> id) (JStr <$> environment !! SESSION_LEASE_OWNER_ID_ENV) canonicalPath now).
  split; [|reflexivity]. split_and!; try done. cbn [with_dirs w_dirs]. by rewrite insert_insert_eq.
Qed.

Lemma in_the_way_dirs d w w' : w_processes w' = w_processes w → w_dirs w' !! d = w_dirs w !! d → in_the_way d w' = in_the_way d w.
Proof.
  intros Hp Hd. unfold owner_in_the_way, readLeaseOwner. rewrite Hd. destruct (w_dirs w !! d) as [[| |v]|]; try done.
  destruct (parse_owner v) as [[o|]|]; try done. unfold isLeaseOwnerAlive, isProcessAlive, kill0. rewrite Hp.
  by rewrite (startId_processes win32 (o_pid o) w' w).
Qed.

(** A free directory is taken at once. *)
Lemma attempt_free canonicalPath d w : calm d w → occupied d w = false → ∃ w' o,
  attempt canonicalPath d w = (w', Ok (Some (MkLease canonicalPath d (uuid (w_uuids w)) false))) ∧
  readLeaseOwner d w' = Some o ∧ o_pid o = self ∧ o_token o = uuid (w_uuids w) ∧ w_faults w' = [].
Proof.
  intros Hc Ho. destruct (run_prepare canonicalPath d w Hc) as (w1&o&(Hp&Hf&Hu&Hd&Ht&Hpid&_)&->). cbv zeta.
  set (c := candidateDirectory d self (uuid (w_uuids w))) in *. unfold ecatch. rewrite run_bind.
  rewrite (run_rename c d (OwnerJson (owner_json o)) w1) by (try done; by rewrite Hd, lookup_insert_eq).
  assert (occupied d w1 = false) as ->.
  { unfold occupied. rewrite Hd, lookup_insert_ne by apply candidate_ne. exact Ho. }
  eexists _, o. split; [reflexivity|]. split; [|done]. apply readLeaseOwner_json. cbn. by rewrite lookup_insert_eq.
Qed.

(** One that is not is given up, or emptied when nobody alive owns it. *)
Lemma attempt_occupied canonicalPath d w : calm d w → occupied d w = true → ∃ w',
  w_processes w' = w_processes w ∧
  match in_the_way d w with
  | Some o => attempt canonicalPath d w = (w', Throw (SessionAlreadyActiveError canonicalPath (o_activeSessionId o))) ∧ w_dirs w' = w_dirs w
  | None => attempt canonicalPath d w = (w', Ok None) ∧ calm d w' ∧ occupied d w' = false
  end.
Proof.
  intros Hc Ho. destruct (run_prepare canonicalPath d w Hc) as (w1&o&(Hp&Hf&Hu&Hd&Ht&Hpid&_)&->). cbv zeta.
  destruct Hc as [_ Hcand Hstale]. pose proof (Hcand (w_uuids w) (le_n _)) as Hfresh.
  set (c := candidateDirectory d self (uuid (w_uuids w))) in *. unfold ecatch. rewrite run_bind.
  rewrite (run_rename c d (OwnerJson (owner_json o)) w1) by (try done; by rewrite Hd, lookup_insert_eq).
  assert (occupied d w1 = true) as -> by (unfold occupied; rewrite Hd, lookup_insert_ne by apply candidate_ne; exact Ho).
  rewrite run_bind, run_rm by done. rewrite bool_decide_false, bool_decide_true by done. cbn [negb andb]. rewrite run_get.
  set (w2 := with_dirs (delete c) w1).
  assert (w_dirs w2 = w_dirs w) as Hd2 by (cbn; by rewrite Hd, delete_insert_id).
  rewrite (in_the_way_dirs d w w2) by (try done; by rewrite Hd2).
  destruct (in_the_way d w) as [x|]; [by exists w2|]. rewrite run_bind. unfold reclaimStaleLease.
  rewrite run_bind. cbn [randomUUID]. cbv zeta. set (w3 := MkWorld _ _ _ _ _). rewrite run_bind. unfold ecatch. rewrite run_bind.
  assert (∃ f, w_dirs w !! d = Some f) as [f Ef] by (unfold occupied in Ho; destruct (w_dirs w !! d); [by eexists|done]).
  set (st := stalePath d self (uuid (w_uuids w2))).
  assert (w_dirs w !! st = None) as Hst by (apply Hstale; cbn; lia).
  assert (w_dirs w3 = w_dirs w) as Hd3 by exact Hd2.
  rewrite (run_rename d st f w3) by (try done; by rewrite Hd3).
  assert (occupied st w3 = false) as -> by (unfold occupied; by rewrite Hd3, Hst). cbn [mret eff_ret]. rewrite run_bind, run_rm by done.
  eexists. split; [|split; [reflexivity|]]; [done|].
  assert (∀ x, w_dirs w !! x = None → delete st (<[st := f]> (delete d (w_dirs w))) !! x = None) as Hnone.
  { intros x Hx. destruct (decide (x = st)) as [->|]; [by rewrite lookup_delete_eq|]. rewrite lookup_delete_ne, lookup_insert_ne by done.
    destruct (decide (x = d)) as [->|]; [by rewrite lookup_delete_eq|]. by rewrite lookup_delete_ne. }
  split; [split|]; cbn [with_dirs w_dirs w_faults w_uuids]; rewrite ?Hd3; try done.
  - intros k Hk. apply Hnone, Hcand. cbn in Hk. lia.
  - intros k Hk. apply Hnone, Hstale. cbn in Hk. lia.
  - unfold occupied. cbn [with_dirs w_dirs]. rewrite Hd3, lookup_delete_ne, lookup_insert_ne by apply stale_ne. by rewrite lookup_delete_eq.
Qed.

(** The guard is had within the hundred attempts and kept. *)
Definition guard_ok (guard : GuardScript) : Prop :=
  (∃ k, (k < 100)%nat ∧ g_lock guard k = None ∧ ∀ j, (j < k)%nat → g_lock guard j = Some (js "ELOCKED")) ∧
  g_before guard = false ∧ g_after guard = false ∧ g_unlock guard = None.

Lemma lock_loop_ok guard d k n a : g_lock guard k = None → (∀ j, (a <= j < k)%nat → g_lock guard j = Some (js "ELOCKED")) →
  (a <= k < a + n)%nat → (k < 100)%nat → lock_loop guard d n a = Ok tt.
Proof.
  intros Hk. revert a. induction n as [|n IH]; intros a Hj Hr H100; [lia|]. cbn [lock_loop].
  destruct (decide (a = k)) as [->|Hne]; [by rewrite Hk|]. rewrite Hj by lia. rewrite bool_decide_true by done. cbn [negb].
  rewrite (proj2 (Nat.eqb_neq a 99)) by lia. apply IH; [intros j ?; apply Hj; lia|lia|done].
Qed.

Lemma run_guarded {T} guard d (action : eff World LeaseError T) w : guard_ok guard → withLeaseGuard guard d action w = action w.
Proof.
  intros [(k&Hk&Hn&Hj) (Hb&Ha&Hu)]. unfold withLeaseGuard. rewrite run_lift.
  assert (lock_loop guard d 100 0 = Ok tt) as -> by (apply (lock_loop_ok guard d k); [done|intros j ?; apply Hj; lia|lia|done]).
  unfold finally_unlock, assertGuardHeld. rewrite Hb, Ha, Hu. cbn. unfold mbind, eff_bind, mret, eff_ret. by destruct (action w) as [w' [x|e]].
Qed.

Definition wanted (path : jsstr) : Prop := path ≠ [] ∧ leasesEnabled environment = true.

Lemma run_acquire guard path agentDir w : wanted path → guard_ok guard → w_faults w = [] →
  let canonicalPath := canonicalSessionPath resolve dirname basename realpath join path in
  acquireSessionLease resolve dirname basename realpath join sha256_hex uuid win32 group_kill self environment now guard (Some path) agentDir w =
  match loop 3 canonicalPath (leaseDirectory join sha256_hex agentDir canonicalPath) w with
  | (w', Ok l) => (w', Ok (Some l))
  | (w', Throw e) => (w', Throw e)
  end.
Proof.
  intros [Hp He] Hg Hf. cbv zeta. unfold acquireSessionLease. destruct path as [|c path]; [done|]. rewrite He. cbn [negb].
  rewrite run_os_call by done. rewrite run_bind, run_guarded by done. by destruct (loop _ _ _ w) as [w' [l|e]].
Qed.

(** Nobody alive is known to own the lease: there is none, its owner file is
    unreadable, its process is gone, or another process now has the pid. *)
Definition abandoned (d : jsstr) (w : World) : Prop :=
  readLeaseOwner d w = None ∨
  ∃ o, readLeaseOwner d w = Some o ∧ 0 < o_pid o ∧
    (w_processes w !! o_pid o = None ∨
     ∃ s s', o_processStartId o = Some (JStr s) ∧ s ≠ [] ∧ getProcessStartId win32 (o_pid o) w = Some s' ∧ s ≠ s').

Lemma abandoned_free d w : abandoned d w → in_the_way d w = None.
Proof.
  unfold owner_in_the_way. intros [->|(o&->&Hp&H)]; [done|]. unfold isLeaseOwnerAlive, isProcessAlive, kill0.
  rewrite (proj2 (Z.leb_gt _ _)) by done. destruct H as [->|(s&s'&Hs&Hne&Hs'&Hd)].
  - by rewrite bool_decide_false by done.
  - destruct (negb _); [done|]. rewrite Hs, Hs'. destruct s as [|c s]; [done|]. cbn [json_truthy negb].
    rewrite bool_decide_false; [done|]. by intros [=].
Qed.

(** [liveness] The lease of a process that died, or whose pid another process
    has since, does not stay in the way, nor does a directory whose owner file
    is missing or unreadable: when the calls of the file system work and the
    guard is had within its hundred attempts, the lease is acquired, and its
    owner file names the process that acquired it. *)
Theorem stale_lease_reclaimed guard path agentDir w : wanted path → guard_ok guard →
  let canonicalPath := canonicalSessionPath resolve dirname basename realpath join path in
  let d := leaseDirectory join sha256_hex agentDir canonicalPath in
  calm d w → abandoned d w →
  ∃ w' l o,
    acquireSessionLease resolve dirname basename realpath join sha256_hex uuid win32 group_kill self environment now guard (Some path) agentDir w =
      (w', Ok (Some l)) ∧
    l_sessionPath l = canonicalPath ∧ l_directory l = d ∧ l_released l = false ∧
    readLeaseOwner d w' = Some o ∧ o_pid o = self ∧ o_token o = l_token l.
Proof.
  intros Hw Hg cp d Hc Ha. apply abandoned_free in Ha. pose proof (cm_faults _ _ Hc) as Hf.
  rewrite (run_acquire guard path agentDir w Hw Hg Hf). fold cp d. destruct (occupied d w) eqn:Ho.
  - destruct (attempt_occupied cp d w Hc Ho) as (w1&_&H). rewrite Ha in H. destruct H as (H1&Hc1&Ho1).
    destruct (attempt_free cp d w1 Hc1 Ho1) as (w2&o&H2&H3&H4&H5&_). cbn [acquire_loop]. rewrite run_bind, H1, run_bind, H2.
    by eexists w2, _, o.
  - destruct (attempt_free cp d w Hc Ho) as (w2&o&H2&H3&H4&H5&_). cbn [acquire_loop]. rewrite run_bind, H2. by eexists w2, _, o.
Qed.

(** [error] While the process named by the owner file may be alive - it can be
    signalled, or signalling it is refused, and its start time is unknown or the
    recorded one - acquiring throws the error that names the other session, and
    no directory is changed. *)
Theorem live_lease_refused guard path agentDir w o : wanted path → guard_ok guard →
  let canonicalPath := canonicalSessionPath resolve dirname basename realpath join path in
  let d := leaseDirectory join sha256_hex agentDir canonicalPath in
  calm d w → readLeaseOwner d w = Some o → isLeaseOwnerAlive win32 group_kill o w = true →
  ∃ w',
    acquireSessionLease resolve dirname basename realpath join sha256_hex uuid win32 group_kill self environment now guard (Some path) agentDir w =
      (w', Throw (SessionAlreadyActiveError canonicalPath (o_activeSessionId o))) ∧
    w_dirs w' = w_dirs w ∧ w_processes w' = w_processes w.
Proof.
  intros Hw Hg cp d Hc Ho Hl. rewrite (run_acquire guard path agentDir w Hw Hg (cm_faults _ _ Hc)). fold cp d.
  assert (occupied d w = true) as Hocc by (unfold occupied, readLeaseOwner in *; by destruct (w_dirs w !! d) as [[| |v]|]).
  destruct (attempt_occupied cp d w Hc Hocc) as (w1&Hp&H). unfold owner_in_the_way in H. rewrite Ho, Hl in H. destruct H as [H1 H2].
  exists w1. cbn [acquire_loop]. rewrite run_bind, H1. done.
Qed.

(** Only the process that holds a lease gives it up: releasing removes the
    directory if it is still that lease's own, once, and nothing else. *)
Lemma release_own guard l w : guard_ok guard → w_faults w = [] →
  release guard l w =
  (if negb (l_released l) && match readLeaseOwner (l_directory l) w with Some o => bool_decide (o_token o = l_token l) | None => false end
   then with_dirs (delete (l_directory l)) w else w,
   Ok (MkLease (l_sessionPath l) (l_directory l) (l_token l) true)).
Proof.
  intros Hg Hf. unfold release. destruct (l_released l) eqn:E; [cbn; by destruct l; cbn in *; subst|].
  unfold ecatch. rewrite run_bind. rewrite run_bind, run_guarded, run_get by done. cbn [negb andb].
  destruct (readLeaseOwner (l_directory l) w) as [o|]; [|done]. case_bool_decide; [|done]. by rewrite run_rm.
Qed.
End progress.

(** ** Start times *)

Lemma last_index_plain c i last (s : jsstr) : c ∉ s → last_index_of c i last s = last.
Proof.
  revert i. induction s as [|d s IH]; intros i; [done|]. rewrite not_elem_of_cons. intros [Hd Hs]. cbn [last_index_of].
  rewrite (proj2 (Z.eqb_neq d c)) by congruence. by apply IH.
Qed.

Lemma last_index_app c i last (a b : jsstr) : c ∉ b → last_index_of c i last (a ++ c :: b) = i + Z.of_nat (length a).
Proof.
  intros Hb. revert i last. induction a as [|d a IH]; intros i last; cbn [app last_index_of length].
  - rewrite Z.eqb_refl, last_index_plain by done. lia.
  - rewrite IH. lia.
Qed.

(** The start time is the twentieth field after the name of the command,
    whatever blanks and parentheses the name has. *)
Lemma stat_startTime_spec (before command : jsstr) (fields : list jsstr) : fields ≠ [] →
  Forall (λ f, (32 ∉ f) ∧ (41 ∉ f)) fields →
  stat_startTime (before ++ [40] ++ command ++ [41; 32] ++ js_join [32] fields) = fields !! 19%nat.
Proof.
  intros Hne Hf. unfold stat_startTime.
  assert (41 ∉ js_join [32] fields) as Hp.
  { clear Hne. induction Hf as [|f fs [_ Hf] Hfs IH]; [by apply not_elem_of_nil|]. destruct fs as [|g fs]; [done|].
    rewrite js_join_cons, !not_elem_of_app by done. split; [done|]. split; [|done]. by intros ?%list_elem_of_singleton. }
  replace (before ++ [40] ++ command ++ [41; 32] ++ js_join [32] fields) with
    ((before ++ [40] ++ command) ++ 41 :: ([32] ++ js_join [32] fields)) by (by rewrite <-!app_assoc).
  set (a := before ++ [40] ++ command).
  rewrite last_index_app by (rewrite not_elem_of_app; split; [by intros ?%list_elem_of_singleton|done]).
  replace (Z.to_nat (0 + Z.of_nat (length a) + 2)) with (length a + 2)%nat by lia.
  rewrite <-drop_drop, drop_app_length. cbn [drop app]. f_equal. apply js_split_join; [done|].
  eapply Forall_impl; [exact Hf|]. by intros f [? _].
Qed.

(** ** Witnesses *)

Section witness.
#[local] Abbreviation path_ := (λ p : jsstr, p).
#[local] Abbreviation join_ := (js_join (js "/")).
#[local] Abbreviation key_ := (λ p : jsstr, js "key" ++ p).
#[local] Abbreviation uuid_ := (λ k : nat, repeat 117 k).
#[local] Abbreviation kill_ := (λ _ : Z, @None jsstr).

Definition on : gmap jsstr jsstr := {[SESSION_LEASES_ENABLED_ENV := js "Yes"; SESSION_LEASE_OWNER_ID_ENV := js "a1"]}.
Definition sample_stat (t : string) : option jsstr :=
  Some (js "11 (my (odd) app) S 1 2 3 4 5 6 7 8 9 10 11 12 13 14 15 16 17 18 " ++ js t ++ js " 20").
Definition machine : World :=
  MkWorld {[11 := MkProcess (sample_stat "700") None None false; 12 := MkProcess None (Some (js " Mon ")) None true]} ∅ ∅ [] 0.
Definition quick : GuardScript := MkGuard (λ k, if (k =? 3)%nat then None else Some (js "ELOCKED")) false false None.

#[local] Abbreviation acquire_ := (λ self, acquireSessionLease path_ path_ path_ Some join_ key_ uuid_ false kill_ self on (js "t") quick
  (Some (js "s.jsonl")) (js "agent")).
#[local] Abbreviation step_ := (sys_step path_ path_ path_ Some join_ key_ uuid_ false kill_).

(** The system after the process [self] has asked for the session. *)
Definition asked (self : Z) (s : Sys) : Sys :=
  MkSys (acquire_ self (sys_world s)).1
    (sys_leases s ++ match (acquire_ self (sys_world s)).2 with Ok (Some l) => [(self, l)] | _ => [] end).

Definition the_lease : SessionLease := MkLease (js "s.jsonl") (js "agent/session-leases/keys.jsonl.lock") [] false.


(** Only the owner file of an earlier lease of the process 11 is there. *)
Definition old_owner : SessionLeaseOwner :=
  MkOwner (js "tok") 11 (Some (JStr (js "proc:700"))) (Some (JStr (js "a0"))) (js "s.jsonl") (js "t").
Definition with_old (processes : gmap Z OsProcess) : World :=
  MkWorld processes {[l_directory the_lease := OwnerJson (owner_json old_owner)]} ∅ [] 0.

Lemma calm_old processes self : calm uuid_ self (l_directory the_lease) (with_old processes).
Proof.
  split; [done|..]; intros k _; unfold with_old; cbn [w_dirs]; apply lookup_singleton_ne; intros E; symmetry in E.
  - by apply candidate_ne in E.
  - by apply stale_ne in E.
Qed.

Lemma quick_ok : guard_ok quick.
Proof.
  split; [|done]. exists 3%nat. split; [lia|]. split; [done|]. intros j Hj. unfold quick. cbn [g_lock].
  by rewrite (proj2 (Nat.eqb_neq j 3)) by lia.
Qed.

Lemma on_wanted : wanted on (js "s.jsonl").
Proof. by split; vm_compute. Qed.

Lemma stale_lease_reclaimed_witness : let w := with_old {[11 := MkProcess (sample_stat "701") None None false]} in
  abandoned false (l_directory the_lease) w ∧
  ∃ w' l o, acquire_ 12 w = (w', Ok (Some l)) ∧ readLeaseOwner (l_directory the_lease) w' = Some o ∧ o_pid o = 12 ∧ o_token o = l_token l.
Proof.
  intros w. assert (abandoned false (l_directory the_lease) w) as Ha.
  { right. exists old_owner. split; [vm_compute; reflexivity|]. split; [done|]. right. exists (js "proc:700"), (js "proc:701").
    split; [done|]. split; [done|]. split; [vm_compute; reflexivity|done]. }
  split; [done|].
  destruct (stale_lease_reclaimed path_ path_ path_ Some join_ key_ uuid_ false kill_ 12 on (js "t") quick (js "s.jsonl") (js "agent") w
    on_wanted quick_ok (calm_old _ 12) Ha) as (w'&l&o&H1&_&_&_&H2&H3&H4).
  exists w', l, o. split; [exact H1|]. split; [exact H2|]. by split.
Defined.

Lemma live_lease_refused_witness : let w := with_old {[11 := MkProcess (sample_stat "700") None None true]} in
  isLeaseOwnerAlive false kill_ old_owner w = true ∧
  ∃ w', acquire_ 12 w = (w', Throw (SessionAlreadyActiveError (js "s.jsonl") (Some (JStr (js "a0"))))) ∧ w_dirs w' = w_dirs w.
Proof.
  intros w. assert (isLeaseOwnerAlive false kill_ old_owner w = true) as Hl by (vm_compute; reflexivity). split; [done|].
  destruct (live_lease_refused path_ path_ path_ Some join_ key_ uuid_ false kill_ 12 on (js "t") quick (js "s.jsonl") (js "agent") w old_owner
    on_wanted quick_ok (calm_old _ 12) ltac:(vm_compute; reflexivity) Hl) as (w'&H1&H2&_).
  exists w'. split; [exact H1|exact H2].
Defined.
End witness.
