(* ===== verification/SessionEntry.v ===== *)
(** * Session entries, migrations and the model context

    Models the data of [core/session-manager.ts] (lines 68-215) and its
    functions that do not touch the manager's state: [generateId], the
    version migrations, [applyChildUsageAttributions], [finalizeLoadedEntries],
    [getLatestCompactionEntry], [buildSessionContext] and the re-linking of
    [SessionManager.forkFrom].

    Timestamps are milliseconds (the source stores the ISO string of one).  An
    identifier that a version-1 file lacks reads as the empty string.  The
    source mutates entry objects in place; here an entry is addressed by its
    index in the list that owns it, and a mutation is an update of that index. *)

From S2P Require Import Prelude.
From S2P Require Import JsMap.
From S2P Require Import JsString.
From S2P Require Import Json.
From S2P Require Import Messages.

(** ** Data *)

Definition CURRENT_SESSION_VERSION : Z := 3.

Record GitContext := MkGitContext {
  gc_repoUrl : option jsstr; gc_commit : option jsstr; gc_branch : option jsstr
}.
#[export] Instance GitContext_eq_dec : EqDecision GitContext.
Proof. solve_decision. Defined.

Definition gitContextsEqual (a b : GitContext) : bool :=
  bool_decide (gc_repoUrl a = gc_repoUrl b) && bool_decide (gc_commit a = gc_commit b)
  && bool_decide (gc_branch a = gc_branch b).

(** [sh_id] is [None] when the file's value is not a string. *)
Record SessionHeader := MkSessionHeader {
  sh_version : option Z;
  sh_id : option jsstr;
  sh_timestamp : Z;
  sh_cwd : jsstr;
  sh_parentSession : option jsstr;
  sh_rlmDepth : option Z;
  sh_git : option GitContext
}.
#[export] Instance SessionHeader_eq_dec : EqDecision SessionHeader.
Proof. solve_decision. Defined.

(** [ce_firstKeptEntryIndex] exists in version-1 files only. *)
Record CompactionEntry := MkCompactionEntry {
  ce_summary : jsstr;
  ce_firstKeptEntryId : jsstr;
  ce_tokensBefore : Z;
  ce_details : option json;
  ce_fromHook : option bool;
  ce_customInstructions : option jsstr;
  ce_usage : option Usage;
  ce_firstKeptEntryIndex : option Z
}.
#[export] Instance CompactionEntry_eq_dec : EqDecision CompactionEntry.
Proof. solve_decision. Defined.

Inductive UsageOrigin := OSpawnTask | OAgentMessage | ODirectUser.
#[export] Instance UsageOrigin_eq_dec : EqDecision UsageOrigin.
Proof. solve_decision. Defined.

Inductive AgentTaskState := NeedsInput | Completed.
#[export] Instance AgentTaskState_eq_dec : EqDecision AgentTaskState.
Proof. solve_decision. Defined.

Record AgentStatus := MkAgentStatus {
  as_summary : jsstr; as_taskState : option AgentTaskState; as_basedOnMessageCount : Z
}.
#[export] Instance AgentStatus_eq_dec : EqDecision AgentStatus.
Proof. solve_decision. Defined.

(** The union [SessionEntry] by its [type] field, with the fields each kind
    adds to [SessionEntryBase]. *)
Inductive EntryBody :=
| BMessage (message : AgentMessage)
| BThinkingLevelChange (thinkingLevel : jsstr)
| BServiceTierChange (serviceTier : option jsstr)
| BModelChange (provider modelId : jsstr)
| BCompaction (c : CompactionEntry)
| BBranchSummary (fromId summary : jsstr) (details : option json) (fromHook : option bool)
    (usage : option Usage)
| BCustom (customType : jsstr) (data : option json)
| BChildUsageAttributed (targetId : jsstr) (childUsage aggregateUsage : Usage)
    (origin : option UsageOrigin)
| BCustomMessage (customType : jsstr) (content : msg_content) (details : option json)
    (display : bool)
| BLabel (targetId : jsstr) (label : option jsstr)
| BSessionInfo (name : option jsstr)
| BSessionState (status : jsstr)
| BAgentStatus (status : AgentStatus)
| BGitState (git : GitContext).
#[export] Instance EntryBody_eq_dec : EqDecision EntryBody.
Proof. solve_decision. Defined.

Record SessionEntry := MkSessionEntry {
  e_id : jsstr; e_parentId : option jsstr; e_timestamp : Z; e_body : EntryBody
}.
#[export] Instance SessionEntry_eq_dec : EqDecision SessionEntry.
Proof. solve_decision. Defined.

Inductive FileEntry := FHeader (h : SessionHeader) | FEntry (e : SessionEntry).
#[export] Instance FileEntry_eq_dec : EqDecision FileEntry.
Proof. solve_decision. Defined.

Definition file_entry (f : FileEntry) : option SessionEntry :=
  match f with FHeader _ => None | FEntry e => Some e end.

(** [fileEntries.filter((e) => e.type !== "session")] *)
Definition session_entries (l : list FileEntry) : list SessionEntry := omap file_entry l.

(** [entries.find((e) => e.type === "session")] *)
Definition find_header (l : list FileEntry) : option SessionHeader :=
  head (omap (λ f, match f with FHeader h => Some h | FEntry _ => None end) l).

Definition is_assistant_entry (f : FileEntry) : bool :=
  match f with FEntry (MkSessionEntry _ _ _ (BMessage (MAssistant _))) => true | _ => false end.

Definition is_label (e : SessionEntry) : bool :=
  match e_body e with BLabel _ _ => true | _ => false end.
Definition is_git_state (e : SessionEntry) : bool :=
  match e_body e with BGitState _ => true | _ => false end.
Definition is_compaction (e : SessionEntry) : bool :=
  match e_body e with BCompaction _ => true | _ => false end.

Definition set_parentId (p : option jsstr) (e : SessionEntry) : SessionEntry :=
  MkSessionEntry (e_id e) p (e_timestamp e) (e_body e).
Definition set_version (v : Z) (h : SessionHeader) : SessionHeader :=
  MkSessionHeader (Some v) (sh_id h) (sh_timestamp h) (sh_cwd h) (sh_parentSession h)
    (sh_rlmDepth h) (sh_git h).

(** [target.message.usage = usage] on an assistant message entry. *)
Definition set_entry_usage (u : Usage) (f : FileEntry) : FileEntry :=
  match f with
  | FEntry (MkSessionEntry id p t (BMessage (MAssistant m))) =>
      FEntry (MkSessionEntry id p t (BMessage (MAssistant
        (MkAssistantMessage (am_content m) (am_api m) (am_provider m) (am_model m) (Some u)
           (am_stopReason m) (am_errorMessage m) (am_diagnostics m) (am_timestamp m)))))
  | _ => f
  end.

(** ** Identifiers

    [uuid n] is the value of the [n]-th call of [randomUUID]; the counter is
    the number of calls made so far. *)

Section generateId.
Context (uuid : nat → jsstr).

Fixpoint generateId_loop (tries : nat) (has : jsstr → bool) (n : nat) : jsstr * nat :=
  match tries with
  | O => (uuid n, S n)
  | S tries =>
      let id := take 8 (uuid n) in
      if has id then generateId_loop tries has (S n) else (id, S n)
  end.

Definition generateId (has : jsstr → bool) (n : nat) : jsstr * nat := generateId_loop 100 has n.

(** *** Migrations *)

(** [generateId(ids)] with the set [ids] of [migrateV1ToV2], which the source
    creates empty and never adds to. *)
Definition resolve_first_kept (entries : list FileEntry) (c : CompactionEntry) : CompactionEntry :=
  match ce_firstKeptEntryIndex c with
  | None => c
  | Some i =>
      let kept :=
        match (if i <? 0 then None else entries !! Z.to_nat i) with
        | Some (FEntry t) => e_id t
        | _ => ce_firstKeptEntryId c
        end in
      MkCompactionEntry (ce_summary c) kept (ce_tokensBefore c) (ce_details c) (ce_fromHook c)
        (ce_customInstructions c) (ce_usage c) None
  end.

Fixpoint migrateV1ToV2_loop (done rest : list FileEntry) (prevId : option jsstr) (n : nat)
    : list FileEntry * nat :=
  match rest with
  | [] => (done, n)
  | FHeader h :: rest => migrateV1ToV2_loop (done ++ [FHeader (set_version 2 h)]) rest prevId n
  | FEntry e :: rest =>
      let '(id, n) := generateId (λ _, false) n in
      let e1 := MkSessionEntry id prevId (e_timestamp e) (e_body e) in
      let e2 :=
        match e_body e with
        | BCompaction c =>
            MkSessionEntry id prevId (e_timestamp e)
              (BCompaction (resolve_first_kept (done ++ FEntry e1 :: rest) c))
        | _ => e1
        end in
      migrateV1ToV2_loop (done ++ [FEntry e2]) rest (Some id) n
  end.

Definition migrateV1ToV2 (entries : list FileEntry) (n : nat) : list FileEntry * nat :=
  migrateV1ToV2_loop [] entries None n.

Definition migrateV2ToV3 (entries : list FileEntry) : list FileEntry :=
  (λ f, match f with
        | FHeader h => FHeader (set_version 3 h)
        | FEntry (MkSessionEntry id p t (BMessage (MHookMessage m))) =>
            FEntry (MkSessionEntry id p t (BMessage (MCustom m)))
        | FEntry e => FEntry e
        end) <$> entries.

(** The migrated entries, whether anything changed, and the uuid counter. *)
Definition migrateToCurrentVersion (entries : list FileEntry) (n : nat)
    : list FileEntry * bool * nat :=
  let version :=
    match find_header entries with Some h => default 1 (sh_version h) | None => 1 end in
  if CURRENT_SESSION_VERSION <=? version then (entries, false, n)
  else
    let '(entries, n) := if version <? 2 then migrateV1ToV2 entries n else (entries, n) in
    let entries := if version <? 3 then migrateV2ToV3 entries else entries in
    (entries, true, n).
End generateId.

(** ** Usage attributions *)

(** The map [assistantEntriesById], with indices for the entry references. *)
Fixpoint assistantEntriesById (i : nat) (entries : list FileEntry) (m : list (jsstr * nat))
    : list (jsstr * nat) :=
  match entries with
  | [] => m
  | f :: rest =>
      let m :=
        match f with
        | FEntry e => if is_assistant_entry f then jm_set m (e_id e) i else m
        | FHeader _ => m
        end in
      assistantEntriesById (S i) rest m
  end.

Definition apply_attribution (index : list (jsstr * nat)) (acc : list FileEntry) (f : FileEntry)
    : list FileEntry :=
  match f with
  | FEntry (MkSessionEntry _ _ _ (BChildUsageAttributed targetId _ aggregateUsage _)) =>
      match jm_get index targetId with
      | Some i => alter (set_entry_usage (cloneUsage aggregateUsage)) i acc
      | None => acc
      end
  | _ => acc
  end.

Definition applyChildUsageAttributions (entries : list FileEntry) : list FileEntry :=
  foldl (apply_attribution (assistantEntriesById 0 entries [])) entries entries.

(** The result is [[]] for a list without a valid header in front. *)
Definition finalizeLoadedEntries (entries : list FileEntry) : list FileEntry :=
  match entries with
  | FHeader h :: _ =>
      if bool_decide (is_Some (sh_id h)) then applyChildUsageAttributions entries else []
  | _ => []
  end.

(** ** Context *)

Definition getLatestCompactionEntry (entries : list SessionEntry) : option SessionEntry :=
  last (filter (λ e, is_compaction e = true) entries).

Record SessionContext := MkSessionContext {
  sc_messages : list AgentMessage;
  sc_thinkingLevel : jsstr;
  sc_serviceTier : option jsstr;
  sc_model : option (jsstr * jsstr)
}.
#[export] Instance SessionContext_eq_dec : EqDecision SessionContext.
Proof. solve_decision. Defined.

Definition empty_context : SessionContext :=
  MkSessionContext [] (js "off") (Some (js "default")) None.

(** [current.parentId ? byId.get(current.parentId) : undefined] *)
Definition parent_entry (byId : jsstr → option SessionEntry) (e : SessionEntry)
    : option SessionEntry :=
  match e_parentId e with
  | Some ((_ :: _) as p) => byId p
  | _ => None
  end.

(** [while (current) { path.push(current); current = ... }]: the entries from
    [current] up to its root, or [None] when [fuel] steps do not reach one. *)
Fixpoint walk (byId : jsstr → option SessionEntry) (fuel : nat) (current : option SessionEntry)
    : option (list SessionEntry) :=
  match current with
  | None => Some []
  | Some e =>
      match fuel with
      | O => None
      | S fuel => cons e <$> walk byId fuel (parent_entry byId e)
      end
  end.

(** The loop over [path] that collects the settings. *)
Definition context_settings (acc : jsstr * option jsstr * option (jsstr * jsstr)) (e : SessionEntry)
    : jsstr * option jsstr * option (jsstr * jsstr) :=
  let '(thinkingLevel, serviceTier, model) := acc in
  match e_body e with
  | BThinkingLevelChange l => (l, serviceTier, model)
  | BServiceTierChange t => (thinkingLevel, t, model)
  | BModelChange p m => (thinkingLevel, serviceTier, Some (p, m))
  | BMessage (MAssistant m) => (thinkingLevel, serviceTier, Some (am_provider m, am_model m))
  | _ => acc
  end.

(** The inner function [appendMessage]: what it pushes. *)
Definition entry_messages (e : SessionEntry) : list AgentMessage :=
  match e_body e with
  | BMessage m => [m]
  | BCustomMessage customType content details display =>
      [createCustomMessage customType content display details (e_timestamp e)]
  | BBranchSummary fromId summary _ _ _ =>
      match summary with
      | [] => []
      | _ => [createBranchSummaryMessage summary fromId (e_timestamp e)]
      end
  | _ => []
  end.

(** The loop with [foundFirstKept]. *)
Fixpoint retained_messages (firstKeptEntryId : jsstr) (found : bool) (l : list SessionEntry)
    : list AgentMessage :=
  match l with
  | [] => []
  | e :: l =>
      let found := found || bool_decide (e_id e = firstKeptEntryId) in
      (if found then entry_messages e else []) ++ retained_messages firstKeptEntryId found l
  end.

Fixpoint find_index {A} (f : A → bool) (l : list A) : option nat :=
  match l with
  | [] => None
  | x :: l => if f x then Some O else S <$> find_index f l
  end.

Definition context_messages (path : list SessionEntry) : list AgentMessage :=
  match getLatestCompactionEntry path with
  | Some e =>
      match e_body e with
      | BCompaction c =>
          let compactionIdx :=
            default O (find_index (λ e', is_compaction e' && bool_decide (e_id e' = e_id e)) path) in
          let retainedMessages :=
            retained_messages (ce_firstKeptEntryId c) false (take compactionIdx path) in
          [createCompactionSummaryMessage (ce_summary c) (ce_tokensBefore c) (e_timestamp e)
             (ce_customInstructions c) (Some (Z.of_nat (length retainedMessages)))]
          ++ retainedMessages ++ (drop (S compactionIdx) path ≫= entry_messages)
      | _ => []
      end
  | None => path ≫= entry_messages
  end.

Definition context_of_path (path : list SessionEntry) : SessionContext :=
  let '(thinkingLevel, serviceTier, model) :=
    foldl context_settings (js "off", Some (js "default"), None) path in
  MkSessionContext (context_messages path) thinkingLevel serviceTier model.

(** The map built when no [byId] is passed. *)
Definition entry_map (entries : list FileEntry) : jsstr → option SessionEntry :=
  jm_get (jm_of_list ((λ e, (e_id e, e)) <$> session_entries entries)).

(** [buildSessionContext(entries, leafId, byId)].  [leafId] is [None] for
    [undefined], [Some None] for [null].  The result is [None] when the walk to
    the root does not end within [fuel] steps. *)
Definition buildSessionContext (fuel : nat) (entries : list FileEntry)
    (leafId : option (option jsstr)) (byId : option (jsstr → option SessionEntry))
    : option SessionContext :=
  let byId := default (entry_map entries) byId in
  match leafId with
  | Some None => Some empty_context
  | _ =>
      let leaf :=
        match leafId with
        | Some (Some ((_ :: _) as id)) => byId id
        | _ => None
        end in
      let leaf := match leaf with Some e => Some e | None => last entries ≫= file_entry end in
      match leaf with
      | None => Some empty_context
      | Some e => context_of_path ∘ reverse <$> walk byId fuel (Some e)
      end
  end.

#[global] Arguments generateId : simpl never.
#[global] Arguments migrateToCurrentVersion : simpl never.
