(* ===== verification/SessionManager.v ===== *)
(** * The session manager

    Models the class [SessionManager] of [core/session-manager.ts]: its fields,
    the session file it writes and every operation that changes either.

    The file system holds, per path, the physical lines of a JSONL file: each
    line is the entry it parses to, or [None] when it does not parse; the last
    line may lack its newline.  A write consults a list of faults, so that an
    append can fail cleanly, leave a torn line, or leave the whole line without
    its newline; a rewrite goes through a temporary file and fails without
    touching the target.  [byId] holds, per id, the index of the entry in
    [fileEntries]: both structures of the source share the entry objects, and
    [appendChildUsageAttribution] mutates one of them. *)

From S2P Require Import Prelude.
From S2P Require Import JsMap.
From S2P Require Import JsString.
From S2P Require Import Json.
From S2P Require Import Messages.
From S2P Require Import Eff.
From S2P Require Import SessionEntry.

(** ** Files *)

Record file := MkFile {
  f_lines : list (option FileEntry);
  f_tail : option (option FileEntry)
}.
#[export] Instance file_eq_dec : EqDecision file.
Proof. solve_decision. Defined.

Inductive fault := NoFault | FailClean | FailTorn | FailUnterminated.

(** [parseEntriesFromBuffer]: the lines that parse. *)
Definition parseEntriesFromBuffer (f : file) : list FileEntry :=
  omap id (f_lines f ++ match f_tail f with Some l => [l] | None => [] end).

Definition empty_file : file := MkFile [] None.

(** A whole line and its newline, appended. *)
Definition append_line (f : file) (e : FileEntry) : file :=
  match f_tail f with
  | None => MkFile (f_lines f ++ [Some e]) None
  | Some _ => MkFile (f_lines f ++ [None]) None
  end.

(** An append that stopped before the newline. *)
Definition append_partial (f : file) (l : option FileEntry) : file :=
  match f_tail f with
  | None => MkFile (f_lines f) (Some l)
  | Some _ => MkFile (f_lines f) (Some None)
  end.

(** The content [_rewriteFile] writes. *)
Definition file_of_entries (l : list FileEntry) : file :=
  match l with
  | [] => MkFile [None] None
  | _ => MkFile (Some <$> l) None
  end.

(** [readFirstLineSync] and [JSON.parse]; [None] when either throws or the line
    is empty. *)
Definition first_line (f : file) : option FileEntry :=
  match f_lines f with
  | l :: _ => l
  | [] => match f_tail f with Some l => l | None => None end
  end.

(** ** The platform

    What the class uses from Node: identifiers and the clock by the number of
    earlier calls, path functions, the environment, and git. *)

Class Platform := {
  randomUUID : nat → jsstr;
  uuidv7 : nat → jsstr;
  now : nat → Z;
  git_context : jsstr → nat → option GitContext;
  path_resolve : jsstr → jsstr;
  path_resolve2 : jsstr → jsstr → jsstr;
  path_join : jsstr → jsstr → jsstr;
  path_dirname : jsstr → jsstr;
  env_RLM_DEPTH : option jsstr
}.

(** ** State *)

Record World := MkWorld {
  w_disk : list (jsstr * file);
  w_uuids : nat;
  w_uuid7s : nat;
  w_ticks : nat;
  w_faults : list fault
}.

(** The private fields.  [sm_notified] counts the calls of the persist
    listeners, whose own errors the source swallows. *)
Record SM := MkSM {
  sm_sessionId : jsstr;
  sm_sessionFile : option jsstr;
  sm_sessionDir : jsstr;
  sm_cwd : jsstr;
  sm_persist : bool;
  sm_flushed : bool;
  sm_fileEntries : list FileEntry;
  sm_byId : list (jsstr * nat);
  sm_labelsById : list (jsstr * jsstr);
  sm_labelTimestampsById : list (jsstr * Z);
  sm_leafId : option jsstr;
  sm_notified : nat;
  sm_world : World
}.

Definition set_sessionId x s := MkSM x (sm_sessionFile s) (sm_sessionDir s) (sm_cwd s) (sm_persist s)
  (sm_flushed s) (sm_fileEntries s) (sm_byId s) (sm_labelsById s) (sm_labelTimestampsById s)
  (sm_leafId s) (sm_notified s) (sm_world s).
Definition set_sessionFile x s := MkSM (sm_sessionId s) x (sm_sessionDir s) (sm_cwd s) (sm_persist s)
  (sm_flushed s) (sm_fileEntries s) (sm_byId s) (sm_labelsById s) (sm_labelTimestampsById s)
  (sm_leafId s) (sm_notified s) (sm_world s).
Definition set_location dir id file s := MkSM id file dir (sm_cwd s) true
  (sm_flushed s) (sm_fileEntries s) (sm_byId s) (sm_labelsById s) (sm_labelTimestampsById s)
  (sm_leafId s) (sm_notified s) (sm_world s).
Definition set_flushed x s := MkSM (sm_sessionId s) (sm_sessionFile s) (sm_sessionDir s) (sm_cwd s)
  (sm_persist s) x (sm_fileEntries s) (sm_byId s) (sm_labelsById s) (sm_labelTimestampsById s)
  (sm_leafId s) (sm_notified s) (sm_world s).
Definition set_fileEntries x s := MkSM (sm_sessionId s) (sm_sessionFile s) (sm_sessionDir s) (sm_cwd s)
  (sm_persist s) (sm_flushed s) x (sm_byId s) (sm_labelsById s) (sm_labelTimestampsById s)
  (sm_leafId s) (sm_notified s) (sm_world s).
Definition set_index byId leaf s := MkSM (sm_sessionId s) (sm_sessionFile s) (sm_sessionDir s) (sm_cwd s)
  (sm_persist s) (sm_flushed s) (sm_fileEntries s) byId (sm_labelsById s) (sm_labelTimestampsById s)
  leaf (sm_notified s) (sm_world s).
Definition set_leafId leaf s := set_index (sm_byId s) leaf s.
Definition set_labels ls ts s := MkSM (sm_sessionId s) (sm_sessionFile s) (sm_sessionDir s) (sm_cwd s)
  (sm_persist s) (sm_flushed s) (sm_fileEntries s) (sm_byId s) ls ts
  (sm_leafId s) (sm_notified s) (sm_world s).
Definition set_world w s := MkSM (sm_sessionId s) (sm_sessionFile s) (sm_sessionDir s) (sm_cwd s)
  (sm_persist s) (sm_flushed s) (sm_fileEntries s) (sm_byId s) (sm_labelsById s)
  (sm_labelTimestampsById s) (sm_leafId s) (sm_notified s) w.
Definition set_disk d s := set_world (let w := sm_world s in
  MkWorld d (w_uuids w) (w_uuid7s w) (w_ticks w) (w_faults w)) s.
Definition notify s := MkSM (sm_sessionId s) (sm_sessionFile s) (sm_sessionDir s) (sm_cwd s)
  (sm_persist s) (sm_flushed s) (sm_fileEntries s) (sm_byId s) (sm_labelsById s)
  (sm_labelTimestampsById s) (sm_leafId s) (S (sm_notified s)) (sm_world s).

Definition sm_disk (s : SM) : list (jsstr * file) := w_disk (sm_world s).

Inductive sm_error :=
| EntryNotFound (id : jsstr)
| AssistantNotFound (id : jsstr)
| WriteFailed
| SessionFileExists (path : jsstr)
| NoUniqueSessionFile
| InvalidRlmDepth
| EmptySource (path : jsstr).
#[export] Instance sm_error_eq_dec : EqDecision sm_error.
Proof. solve_decision. Defined.

Abbreviation M := (eff SM sm_error).

(** ** Child depth of a session

    [resolveSessionRlmDepth] and its helpers. *)

Definition MAX_SAFE_INTEGER : Z := 2 ^ 53 - 1.

Definition isValidRlmDepth (value : option Z) : bool :=
  match value with Some v => (0 <=? v) && (v <=? MAX_SAFE_INTEGER) | None => false end.

(** [split(/[\\/]+/)]: a run of separators counts once. *)
Fixpoint path_segments (s : jsstr) (after_sep : bool) : list jsstr :=
  match s with
  | [] => [[]]
  | c :: s =>
      if (c =? 47) || (c =? 92)
      then if after_sep then path_segments s true else [] :: path_segments s true
      else match path_segments s false with
           | seg :: segs => (c :: seg) :: segs
           | [] => [[c]]
           end
  end.

Definition is_hex (c : Z) : bool := ((48 <=? c) && (c <=? 57)) || ((97 <=? c) && (c <=? 102)).

(** [/^sub-[0-9a-f]{8}$/] *)
Definition is_child_segment (seg : jsstr) : bool :=
  bool_decide (take 4 seg = js "sub-") && (length seg =? 12)%nat && forallb is_hex (drop 4 seg).

Fixpoint count_while {A} (f : A → bool) (l : list A) : Z :=
  match l with
  | [] => 0
  | x :: l => if f x then 1 + count_while f l else 0
  end.

Definition deriveChildRlmDepth (parentHeader : option FileEntry) : option Z :=
  match parentHeader with
  | Some (FHeader h) =>
      if isValidRlmDepth (sh_rlmDepth h) && (default 0 (sh_rlmDepth h) <? MAX_SAFE_INTEGER)
      then (λ d, d + 1) <$> sh_rlmDepth h else None
  | _ => None
  end.

Section ops.
Context `{Platform}.

Definition legacyChildDepthFromPath (sessionPath : jsstr) : Z :=
  count_while is_child_segment (reverse (path_segments (path_dirname sessionPath) false)).

Definition readSessionHeader (disk : list (jsstr * file)) (path : jsstr) : option FileEntry :=
  jm_get disk path ≫= first_line.

(** [None] when [fuel] runs out, [Some None] for [undefined]. *)
Fixpoint resolveLegacySessionRlmDepth (fuel : nat) (disk : list (jsstr * file))
    (header : SessionHeader) (sessionPath : jsstr) (visitedPaths : list jsstr)
    : option (option Z) :=
  match fuel with
  | O => None
  | S fuel =>
      if isValidRlmDepth (sh_rlmDepth header) then Some (sh_rlmDepth header)
      else if negb (truthy (sh_parentSession header)) then Some (Some 0)
      else
        let resolvedSessionPath := path_resolve sessionPath in
        if bool_decide (resolvedSessionPath ∈ visitedPaths) then Some None
        else
          let pathDepth := legacyChildDepthFromPath sessionPath in
          let parentSessionPath :=
            path_resolve2 (path_dirname sessionPath) (default [] (sh_parentSession header)) in
          match readSessionHeader disk parentSessionPath with
          | Some (FHeader parentHeader) =>
              match resolveLegacySessionRlmDepth fuel disk parentHeader parentSessionPath
                      (resolvedSessionPath :: visitedPaths) with
              | None => None
              | Some (Some parentDepth) =>
                  Some (Some (if 0 <? pathDepth then parentDepth + 1 else parentDepth))
              | Some None => Some (Some pathDepth)
              end
          | Some (FEntry _) => Some (Some (if 0 <? pathDepth then 0 + 1 else 0))
          | None => Some (Some pathDepth)
          end
  end.

Definition rlm_fuel (disk : list (jsstr * file)) : nat := S (S (length disk)).

Definition resolveSessionRlmDepth (disk : list (jsstr * file)) (header : SessionHeader)
    (sessionPath : jsstr) : Z :=
  match resolveLegacySessionRlmDepth (rlm_fuel disk) disk header sessionPath [] with
  | Some (Some d) => d
  | _ => legacyChildDepthFromPath sessionPath
  end.

Definition rootRlmDepthFromEnv : M (option Z) :=
  match env_RLM_DEPTH with
  | None | Some [] => mret (Some 0)
  | Some value =>
      let parsed := foldl (λ n c, n * 10 + (c - 48)) 0 value in
      if forallb is_digit value && isValidRlmDepth (Some parsed) then mret (Some parsed)
      else ethrow InvalidRlmDepth
  end.

(** ** Platform calls *)

Definition existsSync (path : jsstr) (s : SM) : bool := jm_has (sm_disk s) path.

Definition now_ms : M Z := λ s,
  let w := sm_world s in
  (set_world (MkWorld (w_disk w) (w_uuids w) (w_uuid7s w) (S (w_ticks w)) (w_faults w)) s,
   Ok (now (w_ticks w))).

Definition generate_id (has : jsstr → bool) : M jsstr := λ s,
  let w := sm_world s in
  let '(id, n) := generateId randomUUID has (w_uuids w) in
  (set_world (MkWorld (w_disk w) n (w_uuid7s w) (w_ticks w) (w_faults w)) s, Ok id).

(** [generateId(this.byId)] *)
Definition generate_entry_id : M jsstr :=
  byId ← egets sm_byId; generate_id (jm_has byId).

Definition createSessionId : M jsstr := λ s,
  let w := sm_world s in
  (set_world (MkWorld (w_disk w) (w_uuids w) (S (w_uuid7s w)) (w_ticks w) (w_faults w)) s,
   Ok (uuidv7 (w_uuid7s w))).

Definition captureGitContext (cwd : jsstr) : M (option GitContext) := λ s,
  (s, Ok (git_context cwd (w_ticks (sm_world s)))).

(** The outcome of the next write. *)
Definition take_fault : M fault := λ s,
  let w := sm_world s in
  match w_faults w with
  | [] => (s, Ok NoFault)
  | x :: rest => (set_world (MkWorld (w_disk w) (w_uuids w) (w_uuid7s w) (w_ticks w) rest) s, Ok x)
  end.

Definition getSessionFilePath (sessionDir sessionId : jsstr) : jsstr :=
  path_join sessionDir (sessionId ++ js ".jsonl").

Fixpoint createUniqueSessionFileTarget_loop (tries : nat) (sessionDir : jsstr) : M (jsstr * jsstr) :=
  match tries with
  | O => ethrow NoUniqueSessionFile
  | S tries =>
      sessionId ← createSessionId;
      let sessionFile := getSessionFilePath sessionDir sessionId in
      exists_ ← egets (existsSync sessionFile);
      if exists_ : bool then createUniqueSessionFileTarget_loop tries sessionDir
      else mret (sessionId, sessionFile)
  end.

Definition createUniqueSessionFileTarget (sessionDir : jsstr) : M (jsstr * jsstr) :=
  createUniqueSessionFileTarget_loop 100 sessionDir.

(** [appendFileSync(path, JSON.stringify(entry) + newline)] *)
Definition appendFileSync (path : jsstr) (e : FileEntry) : M unit :=
  x ← take_fault;
  s ← eget;
  let f := default empty_file (jm_get (sm_disk s) path) in
  match x with
  | NoFault => emodify (set_disk (jm_set (sm_disk s) path (append_line f e)))
  | FailClean => ethrow WriteFailed
  | FailTorn =>
      emodify (set_disk (jm_set (sm_disk s) path (append_partial f None)));; ethrow WriteFailed
  | FailUnterminated =>
      emodify (set_disk (jm_set (sm_disk s) path (append_partial f (Some e))));; ethrow WriteFailed
  end.

(** ** Persistence *)

Definition _notifyPersistListeners : M unit :=
  file ← egets sm_sessionFile;
  ewhen (truthy file) (emodify notify).

(** Writes a temporary file and renames it over the target. *)
Definition _rewriteFile : M unit :=
  s ← eget;
  match sm_persist s, sm_sessionFile s with
  | true, Some ((_ :: _) as path) =>
      x ← take_fault;
      match x with
      | NoFault =>
          emodify (λ s, set_disk (jm_set (sm_disk s) path (file_of_entries (sm_fileEntries s))) s);;
          _notifyPersistListeners
      | _ => ethrow WriteFailed
      end
  | _, _ => mret tt
  end.

Definition flushNow : M unit :=
  s ← eget;
  match sm_persist s, sm_sessionFile s with
  | true, Some ((_ :: _) as path) =>
      if sm_flushed s && existsSync path s then mret tt
      else _rewriteFile;; emodify (set_flushed true)
  | _, _ => mret tt
  end.

Definition persists_without_assistant (e : SessionEntry) : bool :=
  match e_body e with BSessionState _ | BSessionInfo _ => true | _ => false end.

Definition _persist (entry : SessionEntry) : M unit :=
  s ← eget;
  match sm_persist s, sm_sessionFile s with
  | true, Some ((_ :: _) as path) =>
      let hasAssistant := existsb is_assistant_entry (sm_fileEntries s) in
      if negb hasAssistant && negb (persists_without_assistant entry)
      then emodify (set_flushed false)
      else if negb (sm_flushed s) || negb (existsSync path s)
           then _rewriteFile;; emodify (set_flushed true)
           else appendFileSync path (FEntry entry);; _notifyPersistListeners
  | _, _ => mret tt
  end.

(** The first three statements of [_appendEntry]. *)
Definition push_entry (entry : SessionEntry) (s : SM) : SM :=
  set_index (jm_set (sm_byId s) (e_id entry) (length (sm_fileEntries s))) (Some (e_id entry))
    (set_fileEntries (sm_fileEntries s ++ [FEntry entry]) s).

Definition _appendEntry (entry : SessionEntry) : M unit :=
  emodify (push_entry entry);; _persist entry.

(** The entry literal and [_appendEntry] shared by the append methods: a fresh
    id, the leaf as the parent, the current time. *)
Definition append_body (body : EntryBody) : M SessionEntry :=
  id ← generate_entry_id;
  parentId ← egets sm_leafId;
  timestamp ← now_ms;
  let entry := MkSessionEntry id parentId timestamp body in
  _appendEntry entry;; mret entry.

(** ** Append operations *)

Definition appendMessage (message : AgentMessage) : M jsstr :=
  e_id <$> append_body (BMessage message).
Definition appendThinkingLevelChange (thinkingLevel : jsstr) : M jsstr :=
  e_id <$> append_body (BThinkingLevelChange thinkingLevel).
Definition appendServiceTierChange (serviceTier : option jsstr) : M jsstr :=
  e_id <$> append_body (BServiceTierChange serviceTier).
Definition appendModelChange (provider modelId : jsstr) : M jsstr :=
  e_id <$> append_body (BModelChange provider modelId).
Definition appendCompaction (summary firstKeptEntryId : jsstr) (tokensBefore : Z)
    (details : option json) (fromHook : option bool) (customInstructions : option jsstr)
    (usage : option Usage) : M jsstr :=
  e_id <$> append_body (BCompaction (MkCompactionEntry summary firstKeptEntryId tokensBefore details
    fromHook customInstructions usage None)).
Definition appendCustomEntry (customType : jsstr) (data : option json) : M jsstr :=
  e_id <$> append_body (BCustom customType data).
Definition appendSessionInfo (name : jsstr) : M jsstr :=
  e_id <$> append_body (BSessionInfo (Some (trim name))).
Definition appendSessionState (status : jsstr) : M jsstr :=
  e_id <$> append_body (BSessionState status).
Definition appendAgentStatus (status : AgentStatus) : M jsstr :=
  e_id <$> append_body (BAgentStatus
    (MkAgentStatus (as_summary status) (as_taskState status) (as_basedOnMessageCount status))).
Definition appendGitState (git : GitContext) : M jsstr :=
  e_id <$> append_body (BGitState git).
Definition appendCustomMessageEntry (customType : jsstr) (content : msg_content) (display : bool)
    (details : option json) : M jsstr :=
  e_id <$> append_body (BCustomMessage customType content details display).

(** [this.byId.get(id)]: the object the index points at. *)
Definition getEntry (s : SM) (id : jsstr) : option SessionEntry :=
  jm_get (sm_byId s) id ≫= λ i, sm_fileEntries s !! i ≫= file_entry.

(** [target.message.usage = usage] mutates the entry both [fileEntries] and
    [byId] refer to. *)
Definition mutate_usage (id : jsstr) (usage : Usage) (s : SM) : SM :=
  match jm_get (sm_byId s) id with
  | Some i => set_fileEntries (alter (set_entry_usage usage) i (sm_fileEntries s)) s
  | None => s
  end.

Definition appendChildUsageAttribution (targetId : jsstr) (childUsage aggregateUsage : Usage)
    (origin : option UsageOrigin) : M jsstr :=
  target ← egets (λ s, getEntry s targetId);
  match target with
  | Some (MkSessionEntry _ _ _ (BMessage (MAssistant _))) =>
      emodify (mutate_usage targetId (cloneUsage aggregateUsage));;
      e_id <$> append_body (BChildUsageAttributed targetId (cloneUsage childUsage)
                              (cloneUsage aggregateUsage) origin)
  | _ => ethrow (AssistantNotFound targetId)
  end.

Definition set_label (targetId : jsstr) (label : option jsstr) (timestamp : Z)
    (ls : list (jsstr * jsstr)) (ts : list (jsstr * Z)) : list (jsstr * jsstr) * list (jsstr * Z) :=
  match label with
  | Some ((_ :: _) as l) => (jm_set ls targetId l, jm_set ts targetId timestamp)
  | _ => (jm_delete ls targetId, jm_delete ts targetId)
  end.

Definition appendLabelChange (targetId : jsstr) (label : option jsstr) : M jsstr :=
  known ← egets (λ s, jm_has (sm_byId s) targetId);
  if negb known then ethrow (EntryNotFound targetId)
  else
    entry ← append_body (BLabel targetId label);
    emodify (λ s,
      let '(ls, ts) := set_label targetId label (e_timestamp entry)
                         (sm_labelsById s) (sm_labelTimestampsById s) in
      set_labels ls ts s);;
    mret (e_id entry).

(** The mutations in the [catch] block of [_appendEntryWithRollback]. *)
Definition undo_append (previousLeafId : option jsstr) (s : SM) : SM :=
  match sm_leafId s with
  | Some leafId =>
      set_flushed false
        (set_index (jm_delete (sm_byId s) leafId) previousLeafId
           (set_fileEntries (take (pred (length (sm_fileEntries s))) (sm_fileEntries s)) s))
  | None => s
  end.

Definition rollback_catch (previousLeafId : option jsstr) (error : sm_error) : M jsstr :=
  leafId ← egets sm_leafId;
  (if bool_decide (leafId ≠ None ∧ leafId ≠ previousLeafId)
   then emodify (undo_append previousLeafId);;
        ecatch flushNow (λ _, emodify (set_flushed false))
   else mret tt);;
  ethrow error.

Definition _appendEntryWithRollback (append : M jsstr) : M jsstr :=
  previousLeafId ← egets sm_leafId;
  ecatch (entryId ← append; flushNow;; mret entryId) (rollback_catch previousLeafId).

Definition appendCustomEntryWithRollback (customType : jsstr) (data : option json) : M jsstr :=
  _appendEntryWithRollback (appendCustomEntry customType data).
Definition appendCustomMessageEntryWithRollback (customType : jsstr) (content : msg_content)
    (display : bool) (details : option json) : M jsstr :=
  _appendEntryWithRollback (appendCustomMessageEntry customType content display details).

(** ** Queries *)

Definition normalizeSessionStateStatus (value : jsstr) : option jsstr :=
  if bool_decide (value = js "active") || bool_decide (value = js "archived")
     || bool_decide (value = js "crash") then Some value
  else if bool_decide (value = js "hidden") || bool_decide (value = js "sleep")
  then Some (js "archived") else None.

Definition getHeader (s : SM) : option SessionHeader := find_header (sm_fileEntries s).
Definition getEntries (s : SM) : list SessionEntry := session_entries (sm_fileEntries s).
Definition getLeafEntry (s : SM) : option SessionEntry :=
  match sm_leafId s with Some ((_ :: _) as id) => getEntry s id | _ => None end.
Definition getLabel (s : SM) (id : jsstr) : option jsstr := jm_get (sm_labelsById s) id.

(** The search from the last entry backwards; the first [session_info] ends it. *)
Definition getSessionName (s : SM) : option jsstr :=
  match last (omap (λ e, match e_body e with BSessionInfo n => Some n | _ => None end)
               (getEntries s)) with
  | Some name => let t := trim <$> name in if truthy t then t else None
  | None => None
  end.

Definition getSessionState (s : SM) : option jsstr :=
  last (omap (λ e, match e_body e with
                   | BSessionState st => normalizeSessionStateStatus st
                   | _ => None end) (getEntries s)).

Definition is_content_entry (e : SessionEntry) : bool :=
  match e_body e with
  | BMessage _ | BCustomMessage _ _ _ _ | BCustom _ _ | BModelChange _ _ | BThinkingLevelChange _
  | BServiceTierChange _ | BSessionInfo _ | BLabel _ _ | BCompaction _ | BBranchSummary _ _ _ _ _ => true
  | _ => false
  end.

Definition skip_kind (f : EntryBody → bool) (l : list SessionEntry) : list SessionEntry :=
  match l with e :: l' => if f (e_body e) then l' else l | [] => [] end.

Definition hasUserContent (s : SM) : bool :=
  let l := filter (λ e, is_content_entry e = true) (getEntries s) in
  let l := skip_kind (λ b, match b with BModelChange _ _ => true | _ => false end) l in
  let l := skip_kind (λ b, match b with BThinkingLevelChange _ => true | _ => false end) l in
  let l := skip_kind (λ b, match b with BServiceTierChange _ => true | _ => false end) l in
  match l with [] => false | _ => true end.

(** Enough steps for any walk: one per entry of the file. *)
Definition walk_fuel (s : SM) : nat := length (sm_fileEntries s).

(** The entries from [startId] to its root. *)
Definition walk_from (s : SM) (startId : option jsstr) : option (list SessionEntry) :=
  walk (getEntry s) (walk_fuel s)
    (match startId with Some ((_ :: _) as id) => getEntry s id | _ => None end).

Definition getBranch (s : SM) (fromId : option jsstr) : option (list SessionEntry) :=
  reverse <$> walk_from s (match fromId with Some id => Some id | None => sm_leafId s end).

Definition getActiveGitContext (s : SM) : option (option GitContext) :=
  l ← walk_from s (sm_leafId s);
  Some (match head (omap (λ e, match e_body e with BGitState g => Some g | _ => None end) l) with
        | Some g => Some g
        | None => match sm_fileEntries s with FHeader h :: _ => sh_git h | _ => None end
        end).

Definition getLatestAgentStatus (s : SM) : option (option AgentStatus) :=
  l ← walk_from s (sm_leafId s);
  Some (head (omap (λ e, match e_body e with BAgentStatus a => Some a | _ => None end) l)).

Definition getChildren (s : SM) (parentId : jsstr) : list SessionEntry :=
  filter (λ e, e_parentId e = Some parentId)
    (omap (λ kv, sm_fileEntries s !! kv.2 ≫= file_entry) (sm_byId s)).

Definition buildSessionContext_method (s : SM) : option SessionContext :=
  buildSessionContext (walk_fuel s) (sm_fileEntries s) (Some (sm_leafId s)) (Some (getEntry s)).

Definition recordGitStateIfChanged : M (option jsstr) :=
  s ← eget;
  if negb (sm_persist s) then mret None
  else
    git ← captureGitContext (sm_cwd s);
    match git with
    | None => mret None
    | Some git =>
        let last := match getActiveGitContext s with Some g => g | None => None end in
        let same := match last with Some l => gitContextsEqual l git | None => false end in
        if same then mret None else Some <$> appendGitState git
    end.

(** ** Moving the leaf *)

Definition branch (branchFromId : jsstr) : M unit :=
  known ← egets (λ s, jm_has (sm_byId s) branchFromId);
  if negb known then ethrow (EntryNotFound branchFromId)
  else emodify (set_leafId (Some branchFromId)).

Definition resetLeaf : M unit := emodify (set_leafId None).

(** The literal's [parentId: branchFromId] is the leaf just set. *)
Definition branchWithSummary (branchFromId : option jsstr) (summary : jsstr) (details : option json)
    (fromHook : option bool) (usage : option Usage) : M jsstr :=
  known ← egets (λ s, match branchFromId with
                      | Some id => jm_has (sm_byId s) id
                      | None => true end);
  if negb known then ethrow (EntryNotFound (default [] branchFromId))
  else
    emodify (set_leafId branchFromId);;
    e_id <$> append_body (BBranchSummary (default (js "root") branchFromId) summary details fromHook usage).

(** ** Loading and creating sessions *)

Definition index_entry (acc : list (jsstr * nat) * list (jsstr * jsstr) * list (jsstr * Z) * option jsstr)
    (fi : nat * FileEntry) :=
  let '(byId, ls, ts, leaf) := acc in
  match fi.2 with
  | FHeader _ => acc
  | FEntry e =>
      let '(ls, ts) :=
        match e_body e with
        | BLabel targetId label => set_label targetId label (e_timestamp e) ls ts
        | _ => (ls, ts)
        end in
      (jm_set byId (e_id e) fi.1, ls, ts, Some (e_id e))
  end.

Definition index_entries (l : list FileEntry) :=
  foldl index_entry ([], [], [], None) (imap pair l).

Definition _buildIndex : M unit :=
  emodify (λ s,
    let '(byId, ls, ts, leaf) := index_entries (sm_fileEntries s) in
    set_labels ls ts (set_index byId leaf s)).

Record NewSessionOptions := MkNewSessionOptions {
  no_id : option jsstr;
  no_parentSession : option jsstr;
  (** [Some None]: the key is present with value [undefined]. *)
  no_rlmDepth : option (option Z)
}.

Definition newSession (options : option NewSessionOptions) : M (option jsstr) :=
  let opt_id := options ≫= no_id in
  let opt_parent := options ≫= no_parentSession in
  let opt_depth := options ≫= no_rlmDepth in
  sessionId ← match opt_id with Some id => mret id | None => createSessionId end;
  s ← eget;
  let parentHeader :=
    match opt_parent, opt_depth with
    | Some ((_ :: _) as p), None => readSessionHeader (sm_disk s) p
    | _, _ => None
    end in
  target ←
    (if sm_persist s then
       match opt_id with
       | Some ((_ :: _) as id) =>
           let sessionFile := getSessionFilePath (sm_sessionDir s) id in
           if existsSync sessionFile s then ethrow (SessionFileExists sessionFile)
           else mret (id, Some sessionFile)
       | _ =>
           t ← createUniqueSessionFileTarget (sm_sessionDir s);
           mret (t.1, Some t.2)
       end
     else mret (sessionId, None));
  emodify (set_sessionId target.1);;
  timestamp ← now_ms;
  git ← (if sm_persist s then captureGitContext (sm_cwd s) else mret None);
  rlmDepth ←
    match opt_depth with
    | Some d => mret d
    | None => if truthy opt_parent then mret (deriveChildRlmDepth parentHeader)
              else rootRlmDepthFromEnv
    end;
  let header := MkSessionHeader (Some CURRENT_SESSION_VERSION) (Some target.1) timestamp (sm_cwd s)
                  opt_parent rlmDepth git in
  emodify (λ s, set_flushed false (set_labels [] [] (set_index [] None (set_fileEntries [FHeader header] s))));;
  ewhen (sm_persist s) (emodify (set_sessionFile target.2));;
  egets sm_sessionFile.

Definition loadEntriesFromFile (disk : list (jsstr * file)) (path : jsstr) : list FileEntry :=
  match jm_get disk path with
  | None => []
  | Some f => finalizeLoadedEntries (parseEntriesFromBuffer f)
  end.

(** A mutation of the object [entries.find((e) => e.type === "session")]. *)
Fixpoint update_header (g : SessionHeader → SessionHeader) (l : list FileEntry) : list FileEntry :=
  match l with
  | [] => []
  | FHeader h :: l => FHeader (g h) :: l
  | f :: l => f :: update_header g l
  end.

Definition set_rlmDepth (d : option Z) (h : SessionHeader) : SessionHeader :=
  MkSessionHeader (sh_version h) (sh_id h) (sh_timestamp h) (sh_cwd h) (sh_parentSession h) d (sh_git h).

Definition migrate_entries (entries : list FileEntry) : M (list FileEntry * bool) := λ s,
  let w := sm_world s in
  let '(entries, changed, n) := migrateToCurrentVersion randomUUID entries (w_uuids w) in
  (set_world (MkWorld (w_disk w) n (w_uuid7s w) (w_ticks w) (w_faults w)) s, Ok (entries, changed)).

Definition setSessionFile (sessionFile : jsstr) (preloadedEntries : option (list FileEntry)) : M unit :=
  let path := path_resolve sessionFile in
  emodify (set_sessionFile (Some path));;
  s ← eget;
  if existsSync path s then
    emodify (set_fileEntries (default (loadEntriesFromFile (sm_disk s) path) preloadedEntries));;
    entries ← egets sm_fileEntries;
    match entries with
    | [] =>
        newSession None;;
        emodify (set_sessionFile (Some path));;
        _rewriteFile;;
        emodify (set_flushed true)
    | _ =>
        let header := find_header entries in
        sessionId ← match header ≫= sh_id with Some id => mret id | None => createSessionId end;
        emodify (set_sessionId sessionId);;
        migration ← migrate_entries entries;
        emodify (set_fileEntries migration.1);;
        legacyDepth ←
          match header with
          | Some h =>
              if truthy (sh_parentSession h) && negb (isValidRlmDepth (sh_rlmDepth h)) then
                emodify (λ s, set_fileEntries
                  (update_header (set_rlmDepth (Some (resolveSessionRlmDepth (sm_disk s) h path)))
                     (sm_fileEntries s)) s);;
                mret true
              else mret false
          | None => mret false
          end;
        ewhen (migration.2 || legacyDepth) _rewriteFile;;
        _buildIndex;;
        emodify (set_flushed true)
    end
  else
    newSession None;;
    emodify (set_sessionFile (Some path)).

Definition header_or_empty (h : option SessionHeader) : SessionHeader :=
  default (MkSessionHeader None None 0 [] None None None) h.

Definition materializeSessionFile (sessionDir : jsstr) : M (option jsstr) :=
  s ← eget;
  if truthy (sm_sessionFile s) then mret (sm_sessionFile s)
  else
    let previousHeader := getHeader s in
    target ← createUniqueSessionFileTarget sessionDir;
    emodify (set_location sessionDir target.1 (Some target.2));;
    timestamp ← now_ms;
    git ← captureGitContext (sm_cwd s);
    let header := MkSessionHeader (Some CURRENT_SESSION_VERSION) (Some target.1) timestamp (sm_cwd s)
                    (previousHeader ≫= sh_parentSession)
                    (Some (resolveSessionRlmDepth (sm_disk s) (header_or_empty previousHeader) target.2))
                    git in
    emodify (λ s, set_fileEntries (FHeader header :: (FEntry <$> getEntries s)) s);;
    _rewriteFile;;
    emodify (set_flushed true);;
    egets sm_sessionFile.

(** ** Branching into a new session *)

(** The loop over [labelsToWrite]: one label entry per label, each the child of
    the one before. *)
Fixpoint label_entries (labels : list (jsstr * jsstr * Z)) (ids : list jsstr) (parentId : option jsstr)
    : M (list SessionEntry) :=
  match labels with
  | [] => mret []
  | (targetId, label, timestamp) :: rest =>
      id ← generate_id (λ id, bool_decide (id ∈ ids));
      l ← label_entries rest (id :: ids) (Some id);
      mret (MkSessionEntry id parentId timestamp (BLabel targetId (Some label)) :: l)
  end.

Definition labelsToWrite (s : SM) (pathEntryIds : list jsstr) : list (jsstr * jsstr * Z) :=
  omap (λ kv, if bool_decide (kv.1 ∈ pathEntryIds)
              then Some (kv.1, kv.2, default 0 (jm_get (sm_labelTimestampsById s) kv.1))
              else None) (sm_labelsById s).

(** [x || null] on an id. *)
Definition nonempty_id (o : option jsstr) : option jsstr := if truthy o then o else None.

Definition createBranchedSession (leafId : jsstr) : M (option jsstr) :=
  s ← eget;
  match getBranch s (Some leafId) with
  | None | Some [] => ethrow (EntryNotFound leafId)
  | Some path =>
      let pathWithoutLabels := filter (λ e, is_label e = false) path in
      target ←
        (if sm_persist s
         then (λ t, (t.1, Some t.2)) <$> createUniqueSessionFileTarget (sm_sessionDir s)
         else (λ id, (id, None)) <$> createSessionId);
      timestamp ← now_ms;
      git ← (if sm_persist s then captureGitContext (sm_cwd s) else mret None);
      let header := MkSessionHeader (Some CURRENT_SESSION_VERSION) (Some target.1) timestamp (sm_cwd s)
            (if sm_persist s then sm_sessionFile s else None)
            (Some (resolveSessionRlmDepth (sm_disk s) (header_or_empty (getHeader s))
                     (match sm_sessionFile s with Some f => f | None => default [] target.2 end)))
            git in
      let pathEntryIds := e_id <$> pathWithoutLabels in
      let labels := labelsToWrite s pathEntryIds in
      labelEntries ← label_entries labels pathEntryIds (nonempty_id (e_id <$> last pathWithoutLabels));
      emodify (λ s, set_sessionId target.1
        (set_fileEntries (FHeader header :: (FEntry <$> pathWithoutLabels ++ labelEntries)) s));;
      if sm_persist s then
        emodify (set_sessionFile target.2);;
        _buildIndex;;
        hasAssistant ← egets (λ s, existsb is_assistant_entry (sm_fileEntries s));
        (if hasAssistant : bool then _rewriteFile;; emodify (set_flushed true)
         else emodify (set_flushed false));;
        mret target.2
      else
        _buildIndex;; mret None
  end.

(** ** Forking *)

(** [droppedParent] *)
Definition dropped_parents (entries : list FileEntry) : list (jsstr * option jsstr) :=
  foldl (λ m e, if is_git_state e then jm_set m (e_id e) (e_parentId e) else m) []
    (session_entries entries).

(** [liveParent]; the loop makes at most [fuel] steps. *)
Fixpoint liveParent (fuel : nat) (dropped : list (jsstr * option jsstr)) (pid : option jsstr)
    : option jsstr :=
  match pid with
  | Some id =>
      match jm_get dropped id, fuel with
      | Some next, S fuel => liveParent fuel dropped next
      | _, _ => pid
      end
  | None => None
  end.

Definition fork_entries (entries : list FileEntry) : list SessionEntry :=
  let dropped := dropped_parents entries in
  (λ e, set_parentId (liveParent (S (length dropped)) dropped (e_parentId e)) e)
    <$> filter (λ e, is_git_state e = false) (session_entries entries).

(** The state before the constructor's body. *)
Definition blank (cwd sessionDir : jsstr) (persist : bool) (w : World) : SM :=
  MkSM [] None sessionDir cwd persist false [] [] [] [] None 0 w.

Definition construct (cwd sessionDir : jsstr) (sessionFile : option jsstr) (persist : bool)
    (preloadedEntries : option (list FileEntry)) : M unit :=
  emodify (λ s, blank cwd sessionDir persist (sm_world s));;
  match sessionFile with
  | Some ((_ :: _) as f) => setSessionFile f preloadedEntries
  | _ => newSession None;; mret tt
  end.

Definition create (cwd sessionDir : jsstr) : M unit := construct cwd sessionDir None true None.
Definition inMemory (cwd sessionDir : jsstr) : M unit := construct cwd sessionDir None false None.

(** [open]; [process_cwd] is [process.cwd()] and [parentDir] is
    [resolve(path, "..")]. *)
Definition open (path : jsstr) (sessionDir cwdOverride : option jsstr) (process_cwd parentDir : jsstr)
    : M unit :=
  s ← eget;
  let cwd :=
    match cwdOverride with
    | Some c => Some c
    | None =>
        match readSessionHeader (sm_disk s) path with
        | Some (FHeader (MkSessionHeader _ (Some _) _ c _ _ _)) => Some c
        | _ => sh_cwd <$> find_header (loadEntriesFromFile (sm_disk s) path)
        end
    end in
  construct (default process_cwd cwd) (default parentDir sessionDir) (Some path) true None.

Definition forkFrom (sourcePath targetCwd sessionDir : jsstr) : M unit :=
  s ← eget;
  let sourceEntries := loadEntriesFromFile (sm_disk s) sourcePath in
  match find_header sourceEntries with
  | None => ethrow (EmptySource sourcePath)
  | Some sourceHeader =>
      migration ← migrate_entries sourceEntries;
      target ← createUniqueSessionFileTarget sessionDir;
      timestamp ← now_ms;
      git ← captureGitContext targetCwd;
      let newHeader := MkSessionHeader (Some CURRENT_SESSION_VERSION) (Some target.1) timestamp targetCwd
            (Some sourcePath) (Some (resolveSessionRlmDepth (sm_disk s) sourceHeader sourcePath)) git in
      appendFileSync target.2 (FHeader newHeader);;
      efor (fork_entries migration.1) (λ e, appendFileSync target.2 (FEntry e));;
      construct targetCwd sessionDir (Some target.2) true None
  end.
End ops.

#[global] Arguments _persist : simpl never.
#[global] Arguments _rewriteFile : simpl never.
#[global] Arguments flushNow : simpl never.
#[global] Arguments append_body : simpl never.
#[global] Arguments createUniqueSessionFileTarget : simpl never.
#[global] Arguments index_entries : simpl never.
