(* ===== verification/GoalSession.v ===== *)
(** * Goals of a session

    Models the methods of [AgentSession] ([core/agent-session.ts]) that keep the
    goal of a session: starting, pausing, resuming, finishing and clearing it,
    the accounting of usage, the continuation prompts and the requests of the
    kernel.  The state is the part of the class these methods read and write;
    [gs_session] is the session manager, in which every change of the goal is
    recorded.

    The rest of the class is an abstract world with the operations of
    [GoalHost].  A listener of [goal_update] does not call back into these
    methods.  Nothing else is assumed of the world: the theorems hold for any.

    Assistant messages are told apart by object identity
    ([_goalAccountedAssistantMessages] is a set of objects), so a message comes
    with a number that stands for the object. *)

From S2P Require Import Prelude.
From S2P Require Import Eff.
From S2P Require Import JsMap.
From S2P Require Import JsString.
From S2P Require Import Json.
From S2P Require Import Messages.
From S2P Require Import SlashCommands.
From S2P Require Import Goals.
From S2P Require Import SessionEntry.
From S2P Require Import SessionManager.

(** ** The rest of the agent session *)

Class GoalHost (W : Type) := {
  (** [_includeGoals], set by the constructor *)
  includeGoals : bool;
  (** [_toolRegistry.get("ipython")] *)
  hasIpythonTool : W → bool;
  getActiveToolNames : W → list jsstr;
  setActiveToolsByName : list jsstr → W → W * result jsstr unit;
  (** [_emit({ type: "goal_update", goal })], which does not throw *)
  emitGoalUpdate : GoalState → W → W;
  (** [agent.removeQueuedMessages] for goal contexts *)
  removeQueuedGoalMessages : W → W;
  (** [_cancelSessionActions] for goal contexts, and the messages it puts back
      in front of [_pendingNextTurnMessages] *)
  cancelGoalContextActions : W → W * list AgentMessage;
  emitQueueUpdate : W → W;
  (** [_admitSessionInput] of a prepared turn with the options [resumeIfIdle],
      [front] and [wake]; the number stands for the message *)
  admitSessionInput : CustomMessage → bool → bool → bool → W → W * result jsstr nat;
  (** [_queuePreparedPrompt("steer", ...)] *)
  queuePreparedPrompt : CustomMessage → W → W * result jsstr unit;
  (** an admitted message whose action is not delivered yet *)
  undelivered : nat → W → bool;
  (** [_cancelSessionActions] for one message: whether an action was cancelled,
      and the messages it puts back *)
  cancelMessage : nat → W → W * (bool * list AgentMessage);
  hasUnsettledRlmQuiescenceWork : W → bool;
  disposing : W → bool;
  (** [_sessionInputAdmissionPauses.size > 0 || _sessionInputPumpSuspended] *)
  admissionPaused : W → bool;
  isStreaming : W → bool;
  validateCanStartAgentRun : W → W * result jsstr unit;
  (** [error.message] of an error of the session manager *)
  sm_message : sm_error → jsstr
}.

(** ** State *)

Record GoalSession (W : Type) := MkGoalSession {
  gs_goal : GoalState;
  gs_startedAt : option Z;
  gs_awaits : bool;
  gs_accounted : list nat;
  gs_abort : bool;
  gs_threshold : option nat;
  gs_pending : list AgentMessage;
  gs_session : SM;
  gs_host : W
}.
Arguments MkGoalSession {W}.
Arguments gs_goal {W}. Arguments gs_startedAt {W}. Arguments gs_awaits {W}. Arguments gs_accounted {W}.
Arguments gs_abort {W}. Arguments gs_threshold {W}. Arguments gs_pending {W}. Arguments gs_session {W}.
Arguments gs_host {W}.

Section methods.
Context {W : Type} `{GoalHost W} `{Platform}.

#[local] Abbreviation GS := (GoalSession W).
#[local] Abbreviation G := (eff GS jsstr).

Definition set_goal (g : GoalState) (s : GS) : GS := MkGoalSession g (gs_startedAt s) (gs_awaits s) (gs_accounted s)
  (gs_abort s) (gs_threshold s) (gs_pending s) (gs_session s) (gs_host s).
Definition set_startedAt (t : option Z) (s : GS) : GS := MkGoalSession (gs_goal s) t (gs_awaits s) (gs_accounted s)
  (gs_abort s) (gs_threshold s) (gs_pending s) (gs_session s) (gs_host s).
Definition set_awaits (b : bool) (s : GS) : GS := MkGoalSession (gs_goal s) (gs_startedAt s) b (gs_accounted s)
  (gs_abort s) (gs_threshold s) (gs_pending s) (gs_session s) (gs_host s).
Definition set_accounted (l : list nat) (s : GS) : GS := MkGoalSession (gs_goal s) (gs_startedAt s) (gs_awaits s) l
  (gs_abort s) (gs_threshold s) (gs_pending s) (gs_session s) (gs_host s).
Definition set_abort (b : bool) (s : GS) : GS := MkGoalSession (gs_goal s) (gs_startedAt s) (gs_awaits s)
  (gs_accounted s) b (gs_threshold s) (gs_pending s) (gs_session s) (gs_host s).
Definition set_threshold (o : option nat) (s : GS) : GS := MkGoalSession (gs_goal s) (gs_startedAt s) (gs_awaits s)
  (gs_accounted s) (gs_abort s) o (gs_pending s) (gs_session s) (gs_host s).
Definition set_pending (l : list AgentMessage) (s : GS) : GS := MkGoalSession (gs_goal s) (gs_startedAt s)
  (gs_awaits s) (gs_accounted s) (gs_abort s) (gs_threshold s) l (gs_session s) (gs_host s).
Definition set_session (m : SM) (s : GS) : GS := MkGoalSession (gs_goal s) (gs_startedAt s) (gs_awaits s)
  (gs_accounted s) (gs_abort s) (gs_threshold s) (gs_pending s) m (gs_host s).
Definition set_host (w : W) (s : GS) : GS := MkGoalSession (gs_goal s) (gs_startedAt s) (gs_awaits s)
  (gs_accounted s) (gs_abort s) (gs_threshold s) (gs_pending s) (gs_session s) w.

(** A call of the session manager, and one of the rest of the class. *)
Definition in_session {A} (m : M A) : G A := λ s,
  let '(sm, r) := m (gs_session s) in
  (set_session sm s, match r with Ok a => Ok a | Throw e => Throw (sm_message e) end).
Definition in_host {A} (f : W → W * result jsstr A) : G A := λ s,
  let '(w, r) := f (gs_host s) in (set_host w s, r).
Definition host_do (f : W → W) : G unit := emodify (λ s, set_host (f (gs_host s)) s).

(** [Date.now()] and [randomUUID()] *)
Definition date_now : G Z := in_session now_ms.
Definition random_uuid : M jsstr := λ s,
  let w := sm_world s in
  (set_world (MkWorld (w_disk w) (S (w_uuids w)) (w_uuid7s w) (w_ticks w) (w_faults w)) s,
   Ok (randomUUID (w_uuids w))).

(** [!this._goalState.objective] is the negation of this. *)
Definition has_objective (g : GoalState) : bool := truthy (objective g).

(** ** Loading and recording *)

(** [this.sessionManager.getBranch()]; [SessionInvariant.getBranch_spec] shows
    that the walk ends. *)
Definition branch_entries (m : SM) : list SessionEntry := default [] (getBranch m None).

Definition goal_entry (e : SessionEntry) : option GoalState :=
  match e_body e with
  | BCustom customType data =>
      if bool_decide (customType = GOAL_STATE_CUSTOM_TYPE) && isPersistedGoalState data
      then Some (normalizeGoalState (goal_of_json data)) else None
  | _ => None
  end.

(** The loop runs from the end of the branch. *)
Definition goal_of_branch (l : list SessionEntry) : GoalState := default emptyGoalState (last (omap goal_entry l)).

Definition _loadPersistedGoalState (s : GS) : GoalState := goal_of_branch (branch_entries (gs_session s)).

Definition _isBranchSeedable (m : SM) : bool :=
  forallb (λ e, match e_body e with
    | BModelChange _ _ | BThinkingLevelChange _ | BServiceTierChange _ => true
    | _ => false
    end) (branch_entries m).

Definition _persistGoalState (g : GoalState) : G unit :=
  in_session (appendCustomEntry GOAL_STATE_CUSTOM_TYPE (Some (goal_json g)));;
  in_session flushNow.

(** ** Wall clock *)

(** The seconds since the accounting started, when the goal is active and more
    than none have passed. *)
Definition elapsed_seconds (s : GS) (now : Z) : option Z :=
  match gs_startedAt s with
  | Some t =>
      if bool_decide (status (gs_goal s) = GActive) && negb (t =? 0) then
        let elapsed := (now - t) / 1000 in if elapsed <=? 0 then None else Some elapsed
      else None
  | None => None
  end.

Definition _goalWithCurrentWallClock (s : GS) (now : Z) : GoalState :=
  match elapsed_seconds s now with
  | Some elapsed => with_timeUsed (timeUsedSeconds (gs_goal s) + elapsed) (gs_goal s)
  | None => gs_goal s
  end.

Definition _goalWithAccountedWallClock : G GoalState :=
  now ← date_now;
  s ← eget;
  ewhen (bool_decide (is_Some (elapsed_seconds s now))) (emodify (set_startedAt (Some now)));;
  mret (_goalWithCurrentWallClock s now).

(** The getter [goalState]. *)
Definition goalState : G GoalState := now ← date_now; egets (λ s, _goalWithCurrentWallClock s now).

Definition _emitGoalUpdate : G unit := g ← goalState; host_do (emitGoalUpdate g).

Definition _reloadGoalStateFromBranch : G unit :=
  emodify (λ s, set_goal (_loadPersistedGoalState s) s);;
  g ← egets gs_goal;
  (if bool_decide (status g = GActive)
   then now ← date_now; emodify (set_startedAt (Some now))
   else emodify (set_startedAt None));;
  _emitGoalUpdate.

(** The option [persist] is never given. *)
Definition _setGoalState (next : GoalState) : G unit :=
  now ← date_now;
  let normalized := normalizeGoalState (with_updatedAt now next) in
  emodify (set_goal normalized);;
  (if bool_decide (status normalized = GActive) then
     startedAt ← egets gs_startedAt;
     match startedAt with
     | Some _ => mret tt
     | None => now ← date_now; emodify (set_startedAt (Some now))
     end
   else emodify (set_startedAt None));;
  _persistGoalState normalized;;
  _emitGoalUpdate.

(** ** Starting and ending *)

Definition is_goal_context (m : AgentMessage) : bool :=
  match m with MCustom m => bool_decide (cm_customType m = GOAL_CONTEXT_CUSTOM_TYPE) | _ => false end.

Definition _clearQueuedGoalContexts : G unit :=
  emodify (set_awaits false);;
  emodify (λ s, set_pending (filter (λ m, is_goal_context m = false) (gs_pending s)) s);;
  host_do removeQueuedGoalMessages;;
  emodify (λ s, let '(w, restored) := cancelGoalContextActions (gs_host s) in
    set_pending (restored ++ gs_pending s) (set_host w s));;
  host_do emitQueueUpdate.

Definition _startGoal (objectiveText : jsstr) (tokenBudget : option Z) : G GoalState :=
  objective ← elift (validateGoalObjective objectiveText);
  budget ← elift (validateGoalBudget tokenBudget);
  now ← date_now;
  goalId ← in_session random_uuid;
  let goal := MkGoal true GActive (Some goalId) (Some objective) budget 0 0 0 (Some now) (Some now) None None in
  emodify (set_startedAt (Some now));;
  emodify (set_awaits false);;
  _setGoalState goal;;
  egets gs_goal.

Definition _clearGoal : G unit := _clearQueuedGoalContexts;; _setGoalState emptyGoalState.

Definition _pauseGoal (reason : jsstr) : G unit :=
  _clearQueuedGoalContexts;;
  g ← egets gs_goal;
  if negb (bool_decide (status g = GActive)) then _emitGoalUpdate else
  goal ← _goalWithAccountedWallClock;
  _setGoalState (with_status false GPaused (Some reason) None goal).

Definition _finishGoalWithError (errorMessage : jsstr) : G unit :=
  g ← egets gs_goal;
  if negb (has_objective g) || negb (bool_decide (status g = GActive)) then mret tt else
  goal ← _goalWithAccountedWallClock;
  _setGoalState (with_status false GError (Some errorMessage) (Some errorMessage) goal).

(** [a || b] on an optional string *)
Definition or_else (a : option jsstr) (b : jsstr) : jsstr := match a with Some ((_ :: _) as x) => x | _ => b end.

Definition _finishGoalForTerminalAssistantMessage (message : AssistantMessage) : G unit :=
  g ← egets gs_goal;
  if negb (bool_decide (status g = GActive)) then mret tt else
  match am_stopReason message with
  | SrAborted => emodify (set_abort false)
  | SrError =>
      abort ← egets gs_abort;
      if (abort : bool) then emodify (set_abort false)
      else _finishGoalWithError (or_else (am_errorMessage message) (js "Assistant response failed"))
  | _ => mret tt
  end.

Definition is_terminal (message : AssistantMessage) : bool :=
  bool_decide (am_stopReason message = SrError) || bool_decide (am_stopReason message = SrAborted).

Definition _stopGoalContinuationForTerminalMessage (message : AssistantMessage) : G bool :=
  if negb (is_terminal message) then mret false else
  ecatch (_finishGoalForTerminalAssistantMessage message) (λ _, mret tt);;
  mret true.

(** ** The context messages *)

(** [new Set(names)] as the list of its elements *)
Definition js_set (names : list jsstr) : list jsstr :=
  foldl (λ acc x, if bool_decide (x ∈ acc) then acc else acc ++ [x]) [] names.

(** [context] is the list of the tools of the context of a run, by name; the
    result is the list after the call. *)
Definition _ensureGoalRuntimeActive (context : option (list jsstr)) : G (option (list jsstr)) :=
  if negb includeGoals then ethrow (js "Goals are disabled. Enable goals before using /goal.") else
  s ← eget;
  if negb (hasIpythonTool (gs_host s)) then
    ethrow (js "Goals require the ipython tool, which is not available in this session.") else
  let activeToolNames := js_set (getActiveToolNames (gs_host s)) in
  (if bool_decide (js "ipython" ∈ activeToolNames) then mret tt
   else in_host (setActiveToolsByName (activeToolNames ++ [js "ipython"])));;
  mret ((λ tools, if bool_decide (js "ipython" ∈ tools) then tools else tools ++ [js "ipython"]) <$> context).

(** [Date.now()] is only read when the goal has an objective. *)
Definition context_message (kind : GoalContextKind) (images : list block) : G CustomMessage :=
  g ← egets gs_goal;
  now ← (if has_objective g then date_now else (mret 0 : G Z));
  elift (createGoalContextMessage g kind images now).

Definition _runOrQueueGoalContext (kind : GoalContextKind) (images : list block) : G unit :=
  g ← egets gs_goal;
  if negb (has_objective g) then mret tt else
  _ensureGoalRuntimeActive None;;
  message ← context_message kind images;
  in_host (admitSessionInput message true true false);;
  mret tt.

Definition exhausted (g : GoalState) : bool :=
  match tokenBudget g with Some b => b <=? tokensUsed g | None => false end.

Definition _resumeGoal : G unit :=
  g ← egets gs_goal;
  if negb (has_objective g) then _emitGoalUpdate else
  if negb (bool_decide (status g = GPaused)) && negb (bool_decide (status g = GBudgetLimited)) then _emitGoalUpdate else
  let nextStatus := if exhausted g then GBudgetLimited else GActive in
  _setGoalState (with_status (bool_decide (nextStatus = GActive)) nextStatus
    (if exhausted g then Some (js "Goal token budget already reached") else None) None g);;
  if bool_decide (nextStatus = GActive) then _runOrQueueGoalContext Continuation [] else mret tt.

(** The continuation counted by a prompt to go on. *)
Definition count_continuation (g : GoalState) : GoalState := with_continuations (continuationsUsed g + 1) None None g.

Definition _maybeResumeGoalContinuationAfterRlmWork : G unit :=
  s ← eget;
  if negb (gs_awaits s) then mret tt else
  if disposing (gs_host s) || hasUnsettledRlmQuiescenceWork (gs_host s) then mret tt else
  if negb (bool_decide (status (gs_goal s) = GActive)) || negb (has_objective (gs_goal s)) then
    emodify (set_awaits false) else
  if admissionPaused (gs_host s) then mret tt else
  let goalBeforeResume := gs_goal s in
  ecatch (
    _ensureGoalRuntimeActive None;;
    g ← egets gs_goal;
    _setGoalState (count_continuation g);;
    message ← context_message Continuation [];
    in_host (admitSessionInput message true false true);;
    emodify (set_awaits false))
  (λ _, _setGoalState goalBeforeResume).

(** ** Accounting *)

(** Whether the budget was reached by this message.  [message.usage] of a
    message without one throws. *)
Definition _accountGoalUsageForAssistantMessage (ref : nat) (message : AssistantMessage) : G bool :=
  s ← eget;
  if negb (has_objective (gs_goal s)) then mret false else
  if is_terminal message then mret false else
  if bool_decide (ref ∈ gs_accounted s) then mret false else
  if negb (bool_decide (status (gs_goal s) = GActive)) then mret false else
  emodify (set_accounted (ref :: gs_accounted s));;
  tokenDelta ← elift (match am_usage message with
    | Some usage => Ok (goalTokenDeltaForUsage usage)
    | None => Throw (js "Cannot read properties of undefined (reading 'input')")
    end);
  goal ← _goalWithAccountedWallClock;
  let nextGoal := with_tokensUsed (tokensUsed goal + tokenDelta) goal in
  match tokenBudget nextGoal with
  | Some budget =>
      if budget <=? tokensUsed nextGoal then
        _setGoalState (with_status false GBudgetLimited
          (Some (js "Reached " ++ js_of_Z budget ++ js " token goal budget")) None nextGoal);;
        mret true
      else _setGoalState nextGoal;; mret false
  | None => _setGoalState nextGoal;; mret false
  end.

(** The part of [_handleAgentEvent] and of [_shouldStopAfterTurn] that accounts
    a message and steers the run when the budget is reached. *)
Definition account_and_steer (ref : nat) (message : AssistantMessage) : G unit :=
  reached ← _accountGoalUsageForAssistantMessage ref message;
  if (reached : bool) then
    m ← context_message BudgetLimit [];
    in_host (queuePreparedPrompt m)
  else mret tt.

(** The goal's part of [_shouldStopAfterTurn]: whether it stops the run. *)
Definition _shouldStopAfterTurn (ref : nat) (message : AssistantMessage) : G bool :=
  stop ← _stopGoalContinuationForTerminalMessage message;
  if (stop : bool) then mret true else
  ecatch (account_and_steer ref message) (λ _, mret tt);; mret false.

(** ** Commands and requests *)

Definition _handleGoalSlashCommand (text : jsstr) (images : list block) : G bool :=
  command ← elift (_parseGoalSlashCommand text);
  match command with
  | None => mret false
  | Some CmdStatus => _emitGoalUpdate;; mret true
  | Some CmdClear => _clearGoal;; mret true
  | Some CmdPause => _pauseGoal (js "Paused by user");; mret true
  | Some CmdResume => _resumeGoal;; mret true
  | Some (CmdStart objective tokenBudget) =>
      s ← eget;
      let previousWasActive := bool_decide (status (gs_goal s) = GActive) in
      (if isStreaming (gs_host s) then mret tt else in_host validateCanStartAgentRun);;
      _ensureGoalRuntimeActive None;;
      _clearQueuedGoalContexts;;
      _startGoal objective tokenBudget;;
      _runOrQueueGoalContext (if previousWasActive then ObjectiveUpdated else Continuation) images;;
      mret true
  end.

Definition _createGoalFromHost (objective : jsstr) (tokenBudget : option Z) : G GoalState :=
  g ← egets gs_goal;
  match status g with
  | GActive => ethrow (js "cannot create a new goal because this thread already has an active goal; run `await goal.complete()` when it is achieved, or ask the user to clear it with /goal clear")
  | GPaused => ethrow (js "cannot create a new goal because a paused goal exists; ask the user to resume it with /goal resume or clear it with /goal clear")
  | GBudgetLimited => ethrow (js "cannot create a new goal because a budget-limited goal exists; ask the user to resume it with /goal resume or clear it with /goal clear")
  | _ => _startGoal objective tokenBudget
  end.

Definition _completeGoalFromHost : G GoalState :=
  g ← egets gs_goal;
  if negb (has_objective g) || bool_decide (status g = GIdle) then
    ethrow (js "cannot complete goal because this thread has no goal") else
  goal ← _goalWithAccountedWallClock;
  _clearQueuedGoalContexts;;
  _setGoalState (with_status false GComplete (Some (js "Goal achieved")) None goal);;
  egets gs_goal.

Definition handleGoalHostRequest (type : jsstr) (payload : list (jsstr * json)) : G GoalHostResponse :=
  if negb includeGoals then ethrow (js "goals are disabled in this session") else
  if bool_decide (type = js "goal.get") then g ← goalState; mret (goalHostResponse g false) else
  if bool_decide (type = js "goal.create") then
    match jm_get payload (js "objective"), jm_get payload (js "token_budget") with
    | Some (JStr objective), None => g ← _createGoalFromHost objective None; mret (goalHostResponse g false)
    | Some (JStr objective), Some (JNum b) =>
        g ← _createGoalFromHost objective (Some b); mret (goalHostResponse g false)
    | Some (JStr _), Some _ => ethrow (js "goal.create token_budget must be an integer when provided")
    | _, _ => ethrow (js "goal.create objective must be a string")
    end else
  if bool_decide (type = js "goal.complete") then g ← _completeGoalFromHost; mret (goalHostResponse g true) else
  ethrow (js "unknown goal request type " ++ [34] ++ type ++ [34]).

(** ** Continuations *)

(** The messages with which the run goes on, and the tools of its context.
    [aborted] is [signal?.aborted]. *)
Definition _getGoalContinuationMessages (message : AssistantMessage) (tools : list jsstr) (aborted : W → bool)
    : G (list CustomMessage * list jsstr) :=
  stop ← _stopGoalContinuationForTerminalMessage message;
  if (stop : bool) then mret ([], tools) else
  s ← eget;
  if aborted (gs_host s) || negb (bool_decide (status (gs_goal s) = GActive)) || negb (has_objective (gs_goal s))
  then mret ([], tools) else
  if hasUnsettledRlmQuiescenceWork (gs_host s) then emodify (set_awaits true);; mret ([], tools) else
  emodify (set_awaits false);;
  ecatch (
    tools' ← _ensureGoalRuntimeActive (Some tools);
    g ← egets gs_goal;
    _setGoalState (count_continuation g);;
    m ← context_message Continuation [];
    mret ([m], default tools tools'))
  (λ error, ecatch (_finishGoalWithError error) (λ _, mret tt);; mret ([], tools)).

Definition _queueGoalContinuationForThresholdCompaction (message : AssistantMessage) : G bool :=
  s ← eget;
  if is_terminal message then mret false else
  if negb (bool_decide (status (gs_goal s) = GActive)) || negb (has_objective (gs_goal s)) then mret false else
  if match gs_threshold s with Some queued => undelivered queued (gs_host s) | None => false end then mret true else
  ecatch (
    _ensureGoalRuntimeActive None;;
    g ← egets gs_goal;
    _setGoalState (count_continuation g);;
    goalMessage ← context_message Continuation [];
    ref ← in_host (admitSessionInput goalMessage false false true);
    emodify (set_threshold (Some ref));;
    mret true)
  (λ _, mret false).

Definition _clearQueuedGoalContinuationAfterCancelledThresholdCompaction (queued : option nat) : G unit :=
  match queued with
  | None => mret tt
  | Some ref =>
      s ← eget;
      let '(w, (cancelled, restored)) := cancelMessage ref (gs_host s) in
      emodify (λ s, set_pending (restored ++ gs_pending s) (set_host w s));;
      emodify (set_threshold None);;
      if negb cancelled then mret tt else
      g ← egets gs_goal;
      _setGoalState (with_continuations (continuationsUsed g - 1) (lastReason g) (lastError g) g);;
      host_do emitQueueUpdate
  end.

(** [abort] and [abortForUpdateRestart], before and after the wait for the
    agent. *)
Definition abort_begin : G unit := emodify (λ s, set_abort (bool_decide (status (gs_goal s) = GActive)) s).
Definition abort_end : G unit := emodify (set_abort false).

(** ** The constructor's part *)

Definition seed_goal (rlmDepth : Z) (initialGoal : option (jsstr * option Z)) : G unit :=
  emodify (λ s, set_goal (_loadPersistedGoalState s) s);;
  s ← eget;
  match initialGoal with
  | Some (objective, tokenBudget) =>
      if (rlmDepth =? 0) && _isBranchSeedable (gs_session s) then
        _startGoal objective tokenBudget;;
        m ← context_message Continuation [];
        emodify (λ s, set_pending (gs_pending s ++ [MCustom m]) s)
      else mret tt
  | None => mret tt
  end;;
  g ← egets gs_goal;
  if bool_decide (status g = GActive) then now ← date_now; emodify (set_startedAt (Some now)) else mret tt.
End methods.
