(* ===== verification/SessionInvariant.v ===== *)
(** * The session manager's invariant

    [WF]: one header, in front; unique non-empty entry ids; [byId] is exactly
    the index of [fileEntries]; every parent is an earlier entry; the leaf
    exists.  Every operation of the class keeps it, also when a write fails.
    From it follow the termination of every walk to the root and the shape of
    branches and contexts. *)

From S2P Require Import Prelude.
From S2P Require Import JsMap.
From S2P Require Import JsString.
From S2P Require Import Json.
From S2P Require Import Messages.
From S2P Require Import Eff.
From S2P Require Import SessionEntry.
From S2P Require Import SessionManager.

(** ** Entry lists *)

Definition entry_ids (l : list FileEntry) : list jsstr := e_id <$> session_entries l.

#[global] Arguments entry_ids : simpl never.
#[global] Arguments session_entries : simpl never.

(** The entry at index [i] has id [id]. *)
Definition entry_at (l : list FileEntry) (i : nat) (id : jsstr) : Prop :=
  ∃ e, l !! i = Some (FEntry e) ∧ e_id e = id.

Definition header_first (l : list FileEntry) : Prop :=
  ∃ h rest, l = FHeader h :: (FEntry <$> rest) ∧ is_Some (sh_id h).

(** Every parent is the id of an entry before its child. *)
Definition parents_before (l : list FileEntry) : Prop :=
  ∀ i e p, l !! i = Some (FEntry e) → e_parentId e = Some p → ∃ j, (j < i)%nat ∧ entry_at l j p.

Lemma session_entries_app l k : session_entries (l ++ k) = session_entries l ++ session_entries k.
Proof. unfold session_entries. apply omap_app. Qed.

Lemma entry_ids_app l k : entry_ids (l ++ k) = entry_ids l ++ entry_ids k.
Proof. unfold entry_ids. by rewrite session_entries_app, fmap_app. Qed.

Lemma session_entries_FEntry l : session_entries (FEntry <$> l) = l.
Proof. induction l as [|e l IH]; [done|]. unfold session_entries in *. cbn. by rewrite IH. Qed.

Lemma entry_at_elem l id : (∃ i, entry_at l i id) ↔ id ∈ entry_ids l.
Proof.
  unfold entry_ids, session_entries. rewrite list_elem_of_fmap. split.
  - intros (i&e&Hi&<-). exists e. split; [done|].
    apply list_elem_of_omap. exists (FEntry e). split; [|done]. by eapply list_elem_of_lookup_2.
  - intros (e&->&([h|e']&Hin&[= ->])%list_elem_of_omap).
    apply list_elem_of_lookup in Hin as [i Hi]. exists i, e. done.
Qed.

Lemma entry_at_ids l i id : entry_at l i id → id ∈ entry_ids l.
Proof. intros ?. apply entry_at_elem. eauto. Qed.

Lemma entry_at_inj l i j id : NoDup (entry_ids l) → entry_at l i id → entry_at l j id → i = j.
Proof.
  revert i j. unfold entry_ids. induction l as [|f l IH]; intros i j HND (e&Hi&He) (e'&Hj&He'); [done|].
  destruct i as [|i], j as [|j]; cbn in *; [done| | |].
  - injection Hi as ->. cbn in HND. apply NoDup_cons in HND as [Hn _]. exfalso. apply Hn.
    rewrite He, <-He'. apply list_elem_of_fmap. exists e'. split; [done|].
    apply list_elem_of_omap. exists (FEntry e'). split; [by eapply list_elem_of_lookup_2|done].
  - injection Hj as ->. cbn in HND. apply NoDup_cons in HND as [Hn _]. exfalso. apply Hn.
    rewrite He', <-He. apply list_elem_of_fmap. exists e. split; [done|].
    apply list_elem_of_omap. exists (FEntry e). split; [by eapply list_elem_of_lookup_2|done].
  - f_equal. apply IH; [|by exists e|by exists e'].
    destruct f; cbn in HND; [done|]. by apply NoDup_cons in HND as [_ ?].
Qed.

Lemma entry_at_app l k i id : entry_at l i id → entry_at (l ++ k) i id.
Proof. intros (e&Hi&He). exists e. split; [|done]. by apply lookup_app_l_Some. Qed.

Lemma entry_at_length l i id : entry_at l i id → (i < length l)%nat.
Proof. intros (e&Hi&_). by eapply lookup_lt_Some. Qed.

Lemma entry_at_snoc l e i id :
  entry_at (l ++ [FEntry e]) i id ↔ entry_at l i id ∨ (i = length l ∧ id = e_id e).
Proof.
  split.
  - intros (e'&Hi&He). apply lookup_app_Some in Hi as [Hi|[Hle Hi]]; [left; by exists e'|].
    apply list_lookup_singleton_Some in Hi as [Hz [= ->]]. right. split; [lia|done].
  - intros [H|[-> ->]]; [by apply entry_at_app|]. exists e. split; [|done].
    rewrite lookup_app_r, Nat.sub_diag by lia. done.
Qed.

(** ** The invariant *)

Record wf_entries (l : list FileEntry) (byId : list (jsstr * nat)) : Prop := {
  wf_header : header_first l;
  wf_NoDup : NoDup (entry_ids l);
  wf_nonempty : Forall (λ id, id ≠ []) (entry_ids l);
  wf_byId : ∀ id i, jm_get byId id = Some i ↔ entry_at l i id;
  wf_parents : parents_before l
}.

Record WF (s : SM) : Prop := {
  wf_store : wf_entries (sm_fileEntries s) (sm_byId s);
  wf_leaf : ∀ id, sm_leafId s = Some id → id ∈ entry_ids (sm_fileEntries s)
}.

(** What identifiers of [crypto.randomUUID] promise. *)
Class UuidLaws `{Platform} := {
  uuid_length : ∀ n, length (randomUUID n) = 36%nat;
  uuid_inj : ∀ n m, randomUUID n = randomUUID m → n = m
}.

(** No identifier still to be generated is an id of the list. *)
Definition fresh_ids `{Platform} (n : nat) (ids : list jsstr) : Prop :=
  ∀ m, (n <= m)%nat → randomUUID m ∉ ids.

Definition inv `{Platform} (s : SM) : Prop :=
  WF s ∧ fresh_ids (w_uuids (sm_world s)) (entry_ids (sm_fileEntries s)).

Section invariant.
Context `{UuidLaws}.

(** *** Generated ids *)

Lemma generateId_loop_spec tries has n id n' :
  generateId_loop randomUUID tries has n = (id, n') →
  (n < n')%nat ∧ (
  (∃ m, (n <= m < n')%nat ∧ id = take 8 (randomUUID m) ∧ has id = false) ∨
    id = randomUUID (pred n')).
Proof.
  revert n. induction tries as [|tries IH]; cbn; intros n.
  - intros [= <- <-]. split; [lia|]. right. done.
  - destruct (has (take 8 (randomUUID n))) eqn:E; [|intros [= <- <-]; split; [lia|left; exists n; split_and!; [lia|lia|done|done]]].
    intros [? [(m&?&?&?)|?]]%IH; (split; [lia|]); [left; exists m; split_and!; [lia|lia|done|done]|by right].
Qed.

Lemma generateId_fresh has n id n' ids :
  generateId randomUUID has n = (id, n') →
  (∀ x, has x = false → x ∉ ids) → fresh_ids n ids →
  (id ∉ ids) ∧ id ≠ [] ∧ (n < n')%nat ∧ fresh_ids n' (ids ++ [id]).
Proof.
  intros Hg Hhas Hfresh. apply generateId_loop_spec in Hg as [Hlt Hid].
  assert (Hlen : ∀ m, length (take 8 (randomUUID m)) = 8%nat).
  { intros m. rewrite length_take, uuid_length. done. }
  assert ((id ∉ ids) ∧ id ≠ [] ∧ (∀ m, (n' <= m)%nat → randomUUID m ≠ id)) as (?&?&Hnew).
  { destruct Hid as [(m&Hm&->&Hf)| ->]; split_and!.
    - by apply Hhas.
    - intros E. specialize (Hlen m). by rewrite E in Hlen.
    - intros m' _ E. specialize (Hlen m). rewrite <-E, uuid_length in Hlen. done.
    - apply Hfresh. lia.
    - intros E. pose proof (uuid_length (pred n')) as Hl. by rewrite E in Hl.
    - intros m' Hm' E%uuid_inj. lia. }
  split_and!; [done..|]. intros m Hm. rewrite not_elem_of_app, list_elem_of_singleton. split.
  - apply Hfresh. lia.
  - by apply Hnew.
Qed.

(** *** Appending an entry *)

Lemma wf_entries_keys l byId id : wf_entries l byId → jm_has byId id = false → id ∉ entry_ids l.
Proof.
  intros [] Hh [i Hi]%entry_at_elem. apply wf_byId0 in Hi.
  unfold jm_has in Hh. rewrite Hi in Hh. by apply bool_decide_eq_false in Hh as [].
Qed.

Lemma wf_entries_has l byId id : wf_entries l byId → jm_has byId id = true → id ∈ entry_ids l.
Proof.
  intros [] Hh. unfold jm_has in Hh. apply bool_decide_eq_true in Hh as [i Hi].
  apply entry_at_elem. exists i. by apply wf_byId0.
Qed.

Lemma wf_entries_snoc l byId e :
  wf_entries l byId → e_id e ∉ entry_ids l → e_id e ≠ [] →
  (∀ p, e_parentId e = Some p → p ∈ entry_ids l) →
  wf_entries (l ++ [FEntry e]) (jm_set byId (e_id e) (length l)).
Proof.
  intros [(h&rest&Hl&Hh) HND Hne Hby Hpar] Hnew Hnz Hp. split.
  - exists h, (rest ++ [e]). split; [|done]. by rewrite Hl, fmap_app.
  - rewrite entry_ids_app. apply NoDup_app. split_and!; [done| |apply NoDup_singleton].
    intros x Hx ->%list_elem_of_singleton. done.
  - rewrite entry_ids_app. apply Forall_app. split; [done|]. by constructor.
  - intros id i. rewrite jm_get_set, entry_at_snoc. case_decide as Hd.
    + subst. split; [intros [= <-]; by right|]. intros [Hat|[-> _]]; [|done].
      destruct Hnew. by eapply entry_at_ids.
    + rewrite Hby. split; [by left|]. intros [?|[_ ?]]; [done|]. by subst.
  - intros i x p Hi Hxp. apply lookup_app_Some in Hi as [Hi|[Hle Hi]].
    + destruct (Hpar i x p Hi Hxp) as (j&?&?). exists j. split; [done|]. by apply entry_at_app.
    + apply list_lookup_singleton_Some in Hi as [Hz [= ->]].
      apply Hp, entry_at_elem in Hxp as [j Hj]. exists j. split; [|by apply entry_at_app].
      apply entry_at_length in Hj. lia.
Qed.

(** *** What a write leaves alone

    [same_mem s s']: the two states differ at most in [flushed], the listener
    count, the disk and the faults. *)

Definition mem (s : SM) :=
  (sm_sessionId s, sm_sessionFile s, sm_sessionDir s, sm_cwd s, sm_persist s, sm_fileEntries s,
   sm_byId s, sm_labelsById s, sm_labelTimestampsById s, sm_leafId s,
   (w_uuids (sm_world s), w_uuid7s (sm_world s), w_ticks (sm_world s))).

Definition same_mem (s s' : SM) : Prop := mem s = mem s'.

#[export] Instance same_mem_equiv : Equivalence same_mem.
Proof. split; repeat intros ?; unfold same_mem in *; congruence. Qed.

Lemma same_mem_leaf s s' : same_mem s s' → sm_leafId s = sm_leafId s'.
Proof. by intros [=]. Qed.
Lemma same_mem_entries s s' : same_mem s s' → sm_fileEntries s = sm_fileEntries s'.
Proof. by intros [=]. Qed.

#[export] Instance inv_proper : Proper (same_mem ==> iff) inv.
Proof.
  assert (∀ s s', same_mem s s' → inv s → inv s') as Himp.
  { unfold inv. intros s s' [= _ _ _ _ _ Hfe Hid _ _ Hle Hu _ _] [[Hs Hl] Hf].
    rewrite Hfe, Hid in Hs. rewrite Hfe, Hle in Hl. rewrite Hfe, Hu in Hf. by split. }
  intros s s' Hs. split; apply Himp; [done|by symmetry].
Qed.

(** [silent m]: whatever happens, [m] leaves the memory alone. *)
Definition silent {A} (m : M A) : Prop := ∀ s, same_mem s (m s).1.

Lemma silent_ret {A} (a : A) : silent (mret a).
Proof. done. Qed.
Lemma silent_throw {A} e : silent (ethrow (A:=A) e).
Proof. done. Qed.
Lemma silent_get : silent eget.
Proof. done. Qed.
Lemma silent_gets {A} (f : SM → A) : silent (egets f).
Proof. done. Qed.
Lemma silent_modify f : (∀ s, same_mem s (f s)) → silent (emodify f).
Proof. intros Hf s. apply Hf. Qed.
Lemma silent_bind {A B} (m : M A) (f : A → M B) :
  silent m → (∀ a, silent (f a)) → silent (m ≫= f).
Proof.
  intros Hm Hf s. specialize (Hm s). unfold mbind, eff_bind.
  destruct (m s) as [s' [a|e]]; [|done]. cbn in *. etrans; [exact Hm|]. apply Hf.
Qed.
Lemma silent_when b m : silent m → silent (ewhen b m).
Proof. by destruct b. Qed.
Lemma silent_disk d s : same_mem s (set_disk d s).
Proof. done. Qed.
Lemma silent_take_fault : silent take_fault.
Proof. intros s. unfold take_fault. by destruct (w_faults _). Qed.
Lemma silent_for {A} (l : list A) f : (∀ x, silent (f x)) → silent (efor l f).
Proof. intros Hf. induction l; cbn; [apply silent_ret|]. by apply silent_bind. Qed.
Lemma silent_catch {A} (m : M A) h : silent m → (∀ e, silent (h e)) → silent (ecatch m h).
Proof.
  intros Hm Hh s. specialize (Hm s). unfold ecatch. destruct (m s) as [s' [a|e]]; [done|].
  cbn in *. etrans; [exact Hm|]. apply Hh.
Qed.

Hint Resolve silent_ret silent_throw silent_get silent_gets silent_bind silent_when silent_disk
  silent_take_fault silent_for silent_catch : amide.

(** Splits a command of the store into its primitive writes. *)
Ltac silent_tac :=
  repeat first
    [ apply silent_bind; [|intros ?] | apply silent_when | apply silent_catch; [|intros ?]
    | apply silent_ret | apply silent_throw | apply silent_get | apply silent_gets
    | apply silent_take_fault | (apply silent_modify; intros ?; reflexivity) | case_match ].

Lemma silent_rewriteFile : silent _rewriteFile.
Proof. unfold _rewriteFile, _notifyPersistListeners. silent_tac. Qed.
Lemma silent_appendFileSync path e : silent (appendFileSync path e).
Proof. unfold appendFileSync. silent_tac. Qed.
Lemma silent_flushNow : silent flushNow.
Proof. unfold flushNow. silent_tac; apply silent_rewriteFile. Qed.
Lemma silent_persist e : silent (_persist e).
Proof.
  unfold _persist, _notifyPersistListeners.
  silent_tac; first [apply silent_rewriteFile|apply silent_appendFileSync].
Qed.

Lemma keeps_silent {A} (P : SM → Prop) `{!Proper (same_mem ==> iff) P} (m : M A) :
  silent m → keeps P m.
Proof.
  intros Hm s Hs. specialize (Hm s). destruct (m s) as [s' [a|e]]; cbn in Hm; by rewrite <-Hm.
Qed.

(** *** Appending *)

(** The entry [append_body] builds, and the state after the ids and the clock
    were read. *)
Definition new_entry (body : EntryBody) (s : SM) : SessionEntry :=
  MkSessionEntry (generateId randomUUID (jm_has (sm_byId s)) (w_uuids (sm_world s))).1
    (sm_leafId s) (now (w_ticks (sm_world s))) body.

Definition after_new_entry (s : SM) : SM :=
  let w := sm_world s in
  set_world (MkWorld (w_disk w) (generateId randomUUID (jm_has (sm_byId s)) (w_uuids w)).2
               (w_uuid7s w) (S (w_ticks w)) (w_faults w)) s.

Lemma append_body_eq body s :
  append_body body s =
  let e := new_entry body s in
  match _persist e (push_entry e (after_new_entry s)) with
  | (s', Ok _) => (s', Ok e)
  | (s', Throw x) => (s', Throw x)
  end.
Proof.
  unfold append_body, generate_entry_id, generate_id, new_entry, after_new_entry, mbind, eff_bind, egets, _appendEntry, emodify, now_ms.
  cbn. destruct (generateId randomUUID (jm_has (sm_byId s)) (w_uuids (sm_world s))) as [id n]. cbn.
  reflexivity.
Qed.

(** The memory after [append_body], returned or thrown. *)
Lemma append_body_mem body s :
  same_mem (push_entry (new_entry body s) (after_new_entry s)) (append_body body s).1.
Proof.
  rewrite append_body_eq. cbn zeta.
  pose proof (silent_persist (new_entry body s) (push_entry (new_entry body s) (after_new_entry s))) as Hp.
  destruct (_persist _ _) as [s' [[]|x]]; exact Hp.
Qed.

Lemma new_entry_fresh body s : inv s →
  (e_id (new_entry body s) ∉ entry_ids (sm_fileEntries s)) ∧ e_id (new_entry body s) ≠ [] ∧
  fresh_ids (w_uuids (sm_world (after_new_entry s)))
    (entry_ids (sm_fileEntries s) ++ [e_id (new_entry body s)]).
Proof.
  intros [[Hs _] Hf]. unfold new_entry, after_new_entry. cbn.
  destruct (generateId randomUUID (jm_has (sm_byId s)) (w_uuids (sm_world s))) as [id n] eqn:E. cbn.
  eapply generateId_fresh in E as (?&?&?&?); [split_and!; done| |exact Hf].
  intros x. by apply wf_entries_keys.
Qed.

Lemma push_entry_inv body s : inv s → inv (push_entry (new_entry body s) (after_new_entry s)).
Proof.
  intros Hinv. destruct (new_entry_fresh body s Hinv) as (Hnew&Hnz&Hf).
  destruct Hinv as [[Hs Hl] _]. split; [split|]; cbn.
  - apply wf_entries_snoc; [done..|]. cbn. exact Hl.
  - intros id [= <-]. rewrite entry_ids_app, elem_of_app. right. by left.
  - rewrite entry_ids_app. exact Hf.
Qed.

Lemma keeps_append_body body : keeps inv (append_body body).
Proof.
  intros s Hs. pose proof (append_body_mem body s) as Hm.
  apply (push_entry_inv body) in Hs. rewrite Hm in Hs. by destruct (append_body body s) as [s' [a|e]].
Qed.

(** *** Rolling an append back *)

Lemma wf_byId_keys l byId id : wf_entries l byId → id ∉ entry_ids l → id ∉ jm_keys byId.
Proof.
  intros [] Hid Hk. apply jm_get_is_Some in Hk as [i Hi]. apply wf_byId0, entry_at_ids in Hi. done.
Qed.

Lemma after_new_entry_inv s : inv s → inv (after_new_entry s).
Proof.
  intros Hinv. destruct (new_entry_fresh (BSessionInfo None) s Hinv) as (_&_&Hf).
  destruct Hinv as [[Hs Hl] _]. split; [by split|]. intros m Hm Hin.
  apply (Hf m Hm). apply elem_of_app. by left.
Qed.

Lemma undo_push body s s1 : inv s →
  same_mem (push_entry (new_entry body s) (after_new_entry s)) s1 →
  same_mem (after_new_entry s) (undo_append (sm_leafId s) s1).
Proof.
  intros Hinv Hmem. destruct (new_entry_fresh body s Hinv) as (Hnew&_&_).
  destruct Hinv as [[Hs _] _].
  injection Hmem as E1 E2 E3 E4 E5 E6 E7 E8 E9 E10 E11 E12 E13.
  unfold undo_append. rewrite <-E10. unfold same_mem, mem. cbn.
  rewrite <-E6, <-E7, <-E1, <-E2, <-E3, <-E4, <-E5, <-E8, <-E9, <-E11, <-E12, <-E13.
  rewrite jm_delete_set_new by (by eapply wf_byId_keys). rewrite length_app.
  replace (pred _) with (length (sm_fileEntries s)) by (cbn; lia).
  by rewrite take_app_length.
Qed.

Lemma new_leaf_differs body s : inv s → Some (e_id (new_entry body s)) ≠ sm_leafId s.
Proof.
  intros Hinv E. destruct (new_entry_fresh body s Hinv) as (Hnew&_&_).
  destruct Hinv as [[_ Hl] _]. apply Hnew, Hl. by symmetry.
Qed.

(** The memory after [_appendEntryWithRollback]: the appended entry, or the
    memory before the call up to the generator and the clock. *)
Lemma rollback_mem body s : inv s →
  match _appendEntryWithRollback (e_id <$> append_body body) s with
  | (s', Ok id) => same_mem (push_entry (new_entry body s) (after_new_entry s)) s' ∧ id = e_id (new_entry body s)
  | (s', Throw _) => same_mem (after_new_entry s) s'
  end.
Proof.
  intros Hinv. pose proof (append_body_mem body s) as Hm.
  assert (∀ s1 x, same_mem (push_entry (new_entry body s) (after_new_entry s)) s1 →
    match rollback_catch (sm_leafId s) x s1 with
    | (_, Ok _) => False
    | (s', Throw _) => same_mem (after_new_entry s) s'
    end) as Hcatch.
  { intros s1 x Hs1. pose proof (undo_push body s s1 Hinv Hs1) as Hu.
    assert (sm_leafId s1 = Some (e_id (new_entry body s))) as El.
    { apply same_mem_leaf in Hs1. by rewrite <-Hs1. }
    unfold rollback_catch. unfold mbind at 1, eff_bind at 1, egets at 1. rewrite El.
    rewrite bool_decide_true by (split; [done|by apply new_leaf_differs]).
    pose proof (silent_flushNow (undo_append (sm_leafId s) s1)) as Hf.
    unfold mbind, eff_bind, emodify, ecatch. cbn.
    destruct (flushNow _) as [s2 [[]|y]]; cbn in *; (etrans; [exact Hu|exact Hf]). }
  unfold _appendEntryWithRollback. unfold mbind at 1, eff_bind at 1, egets at 1.
  unfold ecatch at 1. unfold mbind at 1, eff_bind at 1, fmap, eff_fmap.
  pose proof (append_body_eq body s) as Heq. cbn zeta in Heq.
  destruct (append_body body s) as [s1 [e|x]]; cbn in Hm;
    [|specialize (Hcatch s1 x Hm); by destruct (rollback_catch _ _ _) as [? [?|?]]].
  unfold mbind at 1, eff_bind at 1. pose proof (silent_flushNow s1) as Hf.
  destruct (flushNow s1) as [s2 [[]|x]]; cbn in Hf.
  - cbn. split; [by rewrite <-Hf|]. destruct (_persist _ _) as [? [?|?]]; [|done].
    by injection Heq as _ ->.
  - specialize (Hcatch s2 x ltac:(by etrans; [exact Hm|exact Hf])).
    cbn. by destruct (rollback_catch _ _ _) as [? [?|?]].
Qed.

Lemma keeps_rollback body : keeps inv (_appendEntryWithRollback (e_id <$> append_body body)).
Proof.
  intros s Hs. pose proof (rollback_mem body s Hs) as Hm.
  destruct (_appendEntryWithRollback _ _) as [s' [id|x]].
  - destruct Hm as [<- _]. by apply push_entry_inv.
  - rewrite <-Hm. by apply after_new_entry_inv.
Qed.

(** *** Mutations that keep ids and parents *)

(** What the invariant reads of a file entry. *)
Definition skel (f : FileEntry) : option (jsstr * option jsstr) :=
  match f with FHeader _ => None | FEntry e => Some (e_id e, e_parentId e) end.

Lemma skel_lookup (l l' : list FileEntry) i e : skel <$> l = skel <$> l' → l !! i = Some (FEntry e) →
  ∃ e', l' !! i = Some (FEntry e') ∧ e_id e' = e_id e ∧ e_parentId e' = e_parentId e.
Proof.
  intros Hsk Hi. assert ((skel <$> l) !! i = Some (Some (e_id e, e_parentId e))) as H1.
  { by rewrite list_lookup_fmap, Hi. }
  rewrite Hsk, list_lookup_fmap in H1. apply fmap_Some in H1 as ([h|e']&He'&E); [done|].
  injection E as ? ?. by exists e'.
Qed.

Lemma skel_entry_at (l l' : list FileEntry) i id : skel <$> l = skel <$> l' → entry_at l i id ↔ entry_at l' i id.
Proof.
  intros Hsk. split; intros (e&Hi&<-).
  - destruct (skel_lookup l l' i e Hsk Hi) as (e'&?&?&_). by exists e'.
  - destruct (skel_lookup l' l i e (eq_sym Hsk) Hi) as (e'&?&?&_). by exists e'.
Qed.

Lemma skel_entry_ids (l l' : list FileEntry) : skel <$> l = skel <$> l' → entry_ids l = entry_ids l'.
Proof.
  revert l'. unfold entry_ids, session_entries. induction l as [|f l IH]; intros [|f' l'] Hsk; [done..|].
  injection Hsk as Hf Hl. apply IH in Hl. destruct f, f'; cbn in *; [done..|]. injection Hf as ? ?. by f_equal.
Qed.

Lemma wf_entries_skel (l l' : list FileEntry) byId :
  skel <$> l = skel <$> l' → header_first l' → wf_entries l byId → wf_entries l' byId.
Proof.
  intros Hsk Hh [_ HND Hne Hby Hpar]. split; [done| | | |].
  - by rewrite <-(skel_entry_ids l l').
  - by rewrite <-(skel_entry_ids l l').
  - intros id i. by rewrite Hby, (skel_entry_at l l').
  - intros i e p Hi Hp. destruct (skel_lookup l' l i e (eq_sym Hsk) Hi) as (e'&Hi'&_&Hp').
    destruct (Hpar i e' p Hi') as (j&?&?); [congruence|]. exists j. split; [done|].
    by rewrite <-(skel_entry_at l l').
Qed.

Lemma skel_set_entry_usage u f : skel (set_entry_usage u f) = skel f.
Proof. by destruct f as [|[? ? ? [[] | | | | | | | | | | | | |]]]. Qed.

Lemma skel_alter_usage u i (l : list FileEntry) : skel <$> alter (set_entry_usage u) i l = skel <$> l.
Proof.
  apply list_eq. intros j. rewrite !list_lookup_fmap, list_lookup_alter.
  destruct (decide (i = j)) as [->|]; [|done].
  destruct (l !! j); cbn; [by rewrite skel_set_entry_usage|done].
Qed.

Lemma header_first_alter_usage u i l :
  header_first l → header_first (alter (set_entry_usage u) i l).
Proof.
  intros (h&rest&->&Hh). destruct i as [|i]; [by exists h, rest|].
  exists h. cbn. exists ((λ f, default (MkSessionEntry [] None 0 (BSessionInfo None)) (file_entry f))
                         <$> alter (set_entry_usage u) i (FEntry <$> rest)). split; [|done]. f_equal.
  clear Hh. revert i. induction rest as [|e rest IH]; intros [|i]; cbn; [done..| |].
  - f_equal; [by destruct e as [? ? ? [[]| | | | | | | | | | | | |]]|].
    clear IH. induction rest; cbn; congruence.
  - by f_equal.
Qed.

Lemma keeps_mutate_usage id u s : inv s → inv (mutate_usage id u s).
Proof.
  intros [[Hs Hl] Hf]. unfold mutate_usage. destruct (jm_get _ _) as [i|]; [|done].
  assert (Hids : entry_ids (alter (set_entry_usage u) i (sm_fileEntries s)) = entry_ids (sm_fileEntries s)).
  { apply skel_entry_ids, skel_alter_usage. }
  split; [split|]; cbn; rewrite ?Hids; [|done..].
  apply (wf_entries_skel (sm_fileEntries s)); [by rewrite skel_alter_usage| |exact Hs].
  by apply header_first_alter_usage, Hs.
Qed.

(** *** The remaining operations *)

Lemma inv_frame s s' :
  sm_fileEntries s' = sm_fileEntries s → sm_byId s' = sm_byId s → sm_leafId s' = sm_leafId s →
  w_uuids (sm_world s') = w_uuids (sm_world s) → inv s → inv s'.
Proof.
  intros Hf Hb Hl Hu [[Hs Hle] Hfr]. unfold inv.
  split; [split|]; rewrite ?Hf, ?Hb, ?Hl, ?Hu; done.
Qed.

Lemma keeps_unique_target dir : keeps inv (createUniqueSessionFileTarget dir).
Proof.
  unfold createUniqueSessionFileTarget. generalize 100%nat. intros n.
  induction n as [|n IH]; cbn; [apply keeps_throw|].
  apply keeps_bind; [by intros s ?; apply (inv_frame s)|]. intros id.
  apply keeps_bind; [apply keeps_gets|]. intros []; [done|apply keeps_ret].
Qed.

Lemma wf_entries_header h : is_Some (sh_id h) → wf_entries [FHeader h] [].
Proof.
  intros Hh. split.
  - by exists h, [].
  - constructor.
  - constructor.
  - intros id i. split; [done|]. intros (e&Hi&_). by destruct i as [|[]].
  - intros i e p Hi. by destruct i as [|[]].
Qed.

Lemma keeps_get : keeps (E:=sm_error) inv eget.
Proof. intros s Hs. exact Hs. Qed.

Lemma keeps_now : keeps inv now_ms.
Proof. intros s Hs. by apply (inv_frame s). Qed.

Lemma keeps_createSessionId : keeps inv createSessionId.
Proof. intros s Hs. by apply (inv_frame s). Qed.

Lemma keeps_git cwd : keeps inv (captureGitContext cwd).
Proof. intros s Hs. exact Hs. Qed.

(** [keeps_tac] walks through a method whose writes are silent, change fields
    the invariant does not read, or are covered by a lemma named here; it stops
    at the other writes. *)
Ltac keeps_step :=
  lazymatch goal with
  | |- keeps _ (_ ≫= _) => apply keeps_bind; [|intros ?]
  | |- keeps _ (mret _) => apply keeps_ret
  | |- keeps _ (_ <$> _) => apply keeps_fmap
  | |- keeps _ (egets _) => apply keeps_gets
  | |- keeps _ eget => apply keeps_get
  | |- keeps _ (ethrow _) => apply keeps_throw
  | |- keeps _ (ewhen _ _) => apply keeps_when
  | |- keeps _ (append_body _) => apply keeps_append_body
  | |- keeps _ (createUniqueSessionFileTarget _) => apply keeps_unique_target
  | |- keeps _ now_ms => apply keeps_now
  | |- keeps _ createSessionId => apply keeps_createSessionId
  | |- keeps _ (captureGitContext _) => apply keeps_git
  | |- keeps _ (emodify _) =>
      apply keeps_modify; let s := fresh in let H := fresh in
      intros s H; apply (inv_frame s); [reflexivity..|exact H]
  | |- keeps _ (match ?x with _ => _ end) => destruct x
  | |- keeps _ (let _ := _ in _) => cbn zeta
  end.
Ltac keeps_tac := repeat keeps_step.

Lemma keeps_rootRlmDepth : keeps inv rootRlmDepthFromEnv.
Proof. unfold rootRlmDepthFromEnv. keeps_tac. Qed.

Lemma keeps_newSession options : keeps inv (newSession options).
Proof.
  unfold newSession. cbn zeta.
  repeat (keeps_step || apply keeps_rootRlmDepth).
  apply keeps_modify. intros s [_ Hf]. split; [split|]; cbn.
  - by apply wf_entries_header.
  - done.
  - intros m _. apply not_elem_of_nil.
Qed.

Lemma keeps_branch id : keeps inv (branch id).
Proof.
  intros s Hs. unfold branch, mbind, eff_bind, egets.
  destruct (jm_has (sm_byId s) id) eqn:E; cbn; [|done].
  destruct Hs as [[Hs Hl] Hf]. split; [split|]; cbn; [done| |done].
  intros ? [= <-]. by eapply wf_entries_has.
Qed.

Lemma keeps_resetLeaf : keeps inv resetLeaf.
Proof. apply keeps_modify. intros s [[Hs Hl] Hf]. split; [split|]; cbn; done. Qed.

Lemma keeps_branchWithSummary from summary details hook usage :
  keeps inv (branchWithSummary from summary details hook usage).
Proof.
  intros s Hs. unfold branchWithSummary, mbind, eff_bind, egets, emodify.
  destruct from as [id|]; cbn.
  - destruct (jm_has (sm_byId s) id) eqn:E; cbn; [|done].
    apply (keeps_fmap inv _ _ (keeps_append_body _)).
    pose proof (keeps_branch id s Hs) as Hb.
    unfold branch, mbind, eff_bind, egets in Hb. by rewrite E in Hb.
  - apply (keeps_fmap inv _ _ (keeps_append_body _)). by apply (keeps_resetLeaf s Hs).
Qed.

Lemma keeps_label id label : keeps inv (appendLabelChange id label).
Proof.
  unfold appendLabelChange. keeps_tac. apply keeps_modify. intros s Hs.
  destruct (set_label _ _ _ _ _) as [ls ts]. by apply (inv_frame s).
Qed.

Lemma keeps_attribution id c a o : keeps inv (appendChildUsageAttribution id c a o).
Proof. unfold appendChildUsageAttribution. keeps_tac. apply keeps_modify, keeps_mutate_usage. Qed.

Lemma keeps_recordGit : keeps inv recordGitStateIfChanged.
Proof.
  unfold recordGitStateIfChanged. apply keeps_bind; [apply keeps_get|]. intros s0.
  destruct (negb _); [apply keeps_ret|]. apply keeps_bind; [apply keeps_git|]. intros ?. keeps_tac.
  all: unfold appendGitState; keeps_tac.
Qed.

Lemma keeps_materialize dir : keeps inv (materializeSessionFile dir).
Proof.
  unfold materializeSessionFile. apply keeps_bind; [apply keeps_get|]. intros s0.
  destruct (truthy _); [apply keeps_ret|]. cbn zeta.
  apply keeps_bind; [apply keeps_unique_target|]. intros t.
  apply keeps_bind; [keeps_tac|]. intros _.
  apply keeps_bind; [apply keeps_now|]. intros ts.
  apply keeps_bind; [apply keeps_git|]. intros git.
  apply keeps_bind; [|intros _; apply keeps_bind; [apply (keeps_silent inv), silent_rewriteFile|intros _; keeps_tac]].
  apply keeps_modify. intros s [[Hs Hl] Hf].
  match goal with |- inv (set_fileEntries ?l s) => assert (Hsk : skel <$> sm_fileEntries s = skel <$> l) end.
  { unfold getEntries. destruct (wf_header _ _ Hs) as (h&rest&->&_). unfold session_entries. cbn. f_equal.
    fold (session_entries (FEntry <$> rest)). by rewrite session_entries_FEntry. }
  pose proof (skel_entry_ids _ _ Hsk) as Hids. cbn in Hids.
  split; [split|]; cbn; rewrite <-?Hids; [|done..].
  eapply wf_entries_skel; [exact Hsk| |exact Hs]. by eexists _, _.
Qed.

(** ** Reachable states *)

(** The public operations on an open session. *)
Inductive sm_op :=
| OpMessage (m : AgentMessage)
| OpThinkingLevel (l : jsstr)
| OpServiceTier (t : option jsstr)
| OpModel (provider modelId : jsstr)
| OpCompaction (summary firstKept : jsstr) (tokensBefore : Z) (details : option json)
    (fromHook : option bool) (instructions : option jsstr) (usage : option Usage)
| OpCustom (customType : jsstr) (data : option json)
| OpCustomWithRollback (customType : jsstr) (data : option json)
| OpAttribution (targetId : jsstr) (child aggregate : Usage) (origin : option UsageOrigin)
| OpSessionInfo (name : jsstr)
| OpSessionState (status : jsstr)
| OpAgentStatus (st : AgentStatus)
| OpRecordGit
| OpCustomMessage (customType : jsstr) (content : msg_content) (display : bool) (details : option json)
| OpCustomMessageWithRollback (customType : jsstr) (content : msg_content) (display : bool)
    (details : option json)
| OpLabel (targetId : jsstr) (label : option jsstr)
| OpBranch (id : jsstr)
| OpResetLeaf
| OpBranchWithSummary (from : option jsstr) (summary : jsstr) (details : option json)
    (fromHook : option bool) (usage : option Usage)
| OpFlush
| OpNewSession (options : option NewSessionOptions)
| OpMaterialize (dir : jsstr).

Definition run_op (o : sm_op) : M unit :=
  match o with
  | OpMessage m => appendMessage m;; mret tt
  | OpThinkingLevel l => appendThinkingLevelChange l;; mret tt
  | OpServiceTier t => appendServiceTierChange t;; mret tt
  | OpModel p m => appendModelChange p m;; mret tt
  | OpCompaction a b c d e f g => appendCompaction a b c d e f g;; mret tt
  | OpCustom a b => appendCustomEntry a b;; mret tt
  | OpCustomWithRollback a b => appendCustomEntryWithRollback a b;; mret tt
  | OpAttribution a b c d => appendChildUsageAttribution a b c d;; mret tt
  | OpSessionInfo a => appendSessionInfo a;; mret tt
  | OpSessionState a => appendSessionState a;; mret tt
  | OpAgentStatus a => appendAgentStatus a;; mret tt
  | OpRecordGit => recordGitStateIfChanged;; mret tt
  | OpCustomMessage a b c d => appendCustomMessageEntry a b c d;; mret tt
  | OpCustomMessageWithRollback a b c d => appendCustomMessageEntryWithRollback a b c d;; mret tt
  | OpLabel a b => appendLabelChange a b;; mret tt
  | OpBranch a => branch a
  | OpResetLeaf => resetLeaf
  | OpBranchWithSummary a b c d e => branchWithSummary a b c d e;; mret tt
  | OpFlush => flushNow
  | OpNewSession a => newSession a;; mret tt
  | OpMaterialize a => materializeSessionFile a;; mret tt
  end.

(** A caller that goes on after an operation threw. *)
Definition run_ops (ops : list sm_op) (s : SM) : SM := foldl (λ s o, (run_op o s).1) s ops.

Lemma keeps_run_op o : keeps inv (run_op o).
Proof.
  destruct o; cbn [run_op];
    first [ apply keeps_branch | apply keeps_resetLeaf
          | apply (keeps_silent inv), silent_flushNow
          | apply keeps_bind; [|intros ?; apply keeps_ret] ];
    first [ apply keeps_fmap, keeps_append_body | apply keeps_rollback | apply keeps_attribution
          | apply keeps_recordGit | apply keeps_label | apply keeps_branchWithSummary
          | apply keeps_newSession | apply keeps_materialize ].
Qed.

Lemma inv_run_op o s : inv s → inv (run_op o s).1.
Proof. intros Hs. pose proof (keeps_run_op o s Hs) as Hk. by destruct (run_op o s) as [s' [a|e]]. Qed.

Lemma inv_run_ops ops s : inv s → inv (run_ops ops s).
Proof. revert s. induction ops as [|o ops IH]; cbn; [done|]. intros s Hs. by apply IH, inv_run_op. Qed.

(** ** Walks to the root *)

Lemma getEntry_spec s id e : inv s →
  getEntry s id = Some e ↔ ∃ i, sm_fileEntries s !! i = Some (FEntry e) ∧ e_id e = id.
Proof.
  intros [[[] _] _]. unfold getEntry. split.
  - intros (i&Hi&Hl)%bind_Some. apply bind_Some in Hl as ([h|e']&Hl&[= ->]).
    exists i. split; [done|]. apply wf_byId0 in Hi as (e2&Hi&<-). congruence.
  - intros (i&Hi&Hid). assert (jm_get (sm_byId s) id = Some i) as ->.
    { apply wf_byId0. by exists e. }
    cbn. by rewrite Hi.
Qed.

(** A root-to-leaf path: the first entry is a root, each other entry's parent
    is the entry before it. *)
Definition chain (path : list SessionEntry) : Prop :=
  ∀ i e, path !! i = Some e →
    match i with
    | O => e_parentId e = None
    | S j => ∃ e', path !! j = Some e' ∧ e_parentId e = Some (e_id e')
    end.

Lemma chain_snoc path e e' :
  chain path → last path = Some e → e_parentId e' = Some (e_id e) → chain (path ++ [e']).
Proof.
  intros Hc Hl Hp i x Hi. apply lookup_app_Some in Hi as [Hi|[Hle Hi]].
  - specialize (Hc i x Hi). destruct i as [|i]; [done|]. destruct Hc as (y&Hy&?).
    exists y. split; [|done]. by apply lookup_app_l_Some.
  - apply list_lookup_singleton_Some in Hi as [Hz <-]. rewrite last_lookup in Hl.
    assert (i = length path) as -> by lia. destruct path as [|y path]; [done|]. cbn in *.
    exists e. split; [|done]. rewrite app_comm_cons. by apply lookup_app_l_Some.
Qed.

Lemma walk_spec s e i fuel : inv s → sm_fileEntries s !! i = Some (FEntry e) → (i < fuel)%nat →
  ∃ up, walk (getEntry s) fuel (Some e) = Some (e :: up) ∧ chain (reverse (e :: up)) ∧
    NoDup (e_id <$> e :: up) ∧ ∀ x, x ∈ up → ∃ j, (j < i)%nat ∧ sm_fileEntries s !! j = Some (FEntry x).
Proof.
  intros Hs. revert e fuel. induction i as [i IH] using lt_wf_ind. intros e [|fuel] Hi Hlt; [lia|]. cbn [walk].
  destruct (e_parentId e) as [p|] eqn:Hp.
  - destruct (wf_parents _ _ (wf_store _ (proj1 Hs)) i e p Hi Hp) as (j&Hj&e'&He'&<-).
    assert (parent_entry (getEntry s) e = Some e') as Hpar.
    { unfold parent_entry. rewrite Hp. pose proof (wf_nonempty _ _ (wf_store _ (proj1 Hs))) as Hne.
      rewrite Forall_forall in Hne. assert (e_id e' ≠ []) as Hz.
      { apply Hne. eapply entry_at_ids. by exists e'. }
      destruct (e_id e') as [|c l] eqn:E; [done|]. apply getEntry_spec; [done|]. by exists j. }
    rewrite Hpar. destruct (IH j Hj e' fuel He' ltac:(lia)) as (up&->&Hc&HND&Hup).
    assert (Hall : ∀ x, x ∈ e' :: up → ∃ k, (k < i)%nat ∧ sm_fileEntries s !! k = Some (FEntry x)).
    { intros x [->|Hx]%elem_of_cons; [by exists j|]. destruct (Hup x Hx) as (k&?&?). exists k. split; [lia|done]. }
    exists (e' :: up). split_and!; [done| | |exact Hall].
    + rewrite reverse_cons. eapply chain_snoc; [exact Hc| |exact Hp]. by rewrite reverse_cons, last_snoc.
    + rewrite fmap_cons. apply NoDup_cons. split; [|exact HND]. intros Hin.
      apply list_elem_of_fmap in Hin as (x&Hid&Hx). destruct (Hall x Hx) as (k&Hk&Hkx).
      assert (i = k); [|lia]. apply (entry_at_inj (sm_fileEntries s) _ _ (e_id e)); [apply Hs|by exists e|by exists x].
  - unfold parent_entry. rewrite Hp. exists []. split_and!; [by destruct fuel|..].
    + intros [|[]] x Hx; [|done..]. by injection Hx as <-.
    + apply NoDup_singleton.
    + by intros x ?%elem_of_nil.
Qed.

Lemma entry_is_at l id : id ∈ entry_ids l → ∃ i e, l !! i = Some (FEntry e) ∧ e_id e = id.
Proof. intros [i (e&?&?)]%entry_at_elem. eauto. Qed.

Lemma branch_of_entry s e i : inv s → sm_fileEntries s !! i = Some (FEntry e) →
  ∃ path, getBranch s (Some (e_id e)) = Some path ∧ last path = Some e ∧ chain path ∧
    Forall (λ x, FEntry x ∈ sm_fileEntries s) path ∧ NoDup (e_id <$> path).
Proof.
  intros Hs Hi. assert (Hlt : (i < walk_fuel s)%nat) by (by eapply lookup_lt_Some).
  destruct (walk_spec s e i (walk_fuel s) Hs Hi Hlt) as (up&Hw&Hc&HND&Hup).
  exists (reverse (e :: up)). split_and!.
  - unfold getBranch, walk_from. assert (getEntry s (e_id e) = Some e) as Hge.
    { apply getEntry_spec; [done|]. by exists i. }
    pose proof (wf_nonempty _ _ (wf_store _ (proj1 Hs))) as Hne. rewrite Forall_forall in Hne.
    assert (e_id e ≠ []) by (apply Hne; eapply entry_at_ids; by exists e).
    destruct (e_id e) eqn:E; [done|]. rewrite Hge, Hw. done.
  - by rewrite reverse_cons, last_snoc.
  - done.
  - apply Forall_forall. intros x Hx. rewrite elem_of_reverse in Hx. apply elem_of_cons in Hx as [->|Hx].
    + by eapply list_elem_of_lookup_2.
    + destruct (Hup x Hx) as (j&_&Hj). by eapply list_elem_of_lookup_2.
  - rewrite fmap_reverse, reverse_Permutation. exact HND.
Qed.

(** From any state whatever, a [newSession] that returns leaves the invariant. *)
Lemma newSession_inv options : hoare (λ _, True) (newSession options) (λ _, inv) (λ _ _, True).
Proof.
  unfold newSession. cbn zeta.
  do 7 (eapply hoare_bind; [apply hoare_any|intros ?]).
  apply (hoare_bind _ _ _ (λ _, inv)); [|intros ?].
  - apply (hoare_conseq _ _ _ _ _ _ _ (hoare_modify _ (λ _, inv) (λ _ _, True))); [|done..].
    intros s _. split; [split|]; cbn; [by apply wf_entries_header|done|]. intros m _. apply not_elem_of_nil.
  - eapply hoare_conseq; [apply (keeps_bind inv); [|intros ?]|done..]; keeps_tac.
Qed.
End invariant.

(** ** A concrete platform for the examples *)

#[export] Instance demo_platform : Platform := {|
  randomUUID n := replicate 36 (Z.of_nat n);
  uuidv7 n := replicate 36 (Z.of_nat n);
  now n := Z.of_nat n;
  git_context _ _ := None;
  path_resolve p := p;
  path_resolve2 _ p := p;
  path_join d f := d ++ js "/" ++ f;
  path_dirname p := p;
  env_RLM_DEPTH := None
|}.

#[export] Instance demo_uuid_laws : UuidLaws.
Proof.
  split; [intros n; apply length_replicate|].
  intros n m E. assert (head (replicate 36 (Z.of_nat n)) = head (replicate 36 (Z.of_nat m))) as [= ?].
  { unfold randomUUID, demo_platform in E. by rewrite E. }
  lia.
Defined.

Definition demo_world (faults : list fault) : World := MkWorld [] 0 0 0 faults.
Definition demo_start (faults : list fault) : SM :=
  (create (js "/cwd") (js "/d") (blank [] [] false (demo_world faults))).1.
Definition demo_user (t : jsstr) : AgentMessage := MUser (MkUserMessage (CText t) 1).
Definition demo_assistant (t : jsstr) : AgentMessage :=
  MAssistant (MkAssistantMessage [TextBlock t] (js "api") (js "p") (js "m") (Some emptyUsage)
    SrStop None None 2).

(** ** Properties *)



(** [getBranch] terminates on every reachable session; for the id of a
    stored entry it returns the path of stored entries from a root to that entry
    in which each entry is the parent of the next, and without an argument the
    path to the current leaf. *)
Theorem getBranch_spec `{UuidLaws} s : inv s →
  (∀ e, FEntry e ∈ sm_fileEntries s →
    ∃ path, getBranch s (Some (e_id e)) = Some path ∧ last path = Some e ∧ chain path ∧
      Forall (λ x, FEntry x ∈ sm_fileEntries s) path) ∧
  (∃ path, getBranch s None = Some path ∧ chain path ∧ e_id <$> last path = sm_leafId s).
Proof.
  intros Hs. split.
  - intros e Hin. apply list_elem_of_lookup in Hin as [i Hi].
    destruct (branch_of_entry s e i Hs Hi) as (path&?&?&?&?&_). by exists path.
  - destruct (sm_leafId s) as [id|] eqn:El.
    + assert (Hid : id ∈ entry_ids (sm_fileEntries s)) by (by apply (wf_leaf _ (proj1 Hs))).
      apply entry_is_at in Hid as (i&e&Hi&<-).
      destruct (branch_of_entry s e i Hs Hi) as (path&Hb&Hl&Hc&_). exists path.
      unfold getBranch in *. rewrite El. split_and!; [done..|]. by rewrite Hl.
    + exists []. unfold getBranch, walk_from. rewrite El. split_and!; [by destruct (walk_fuel s)|by intros []|done].
Qed.

Lemma getBranch_spec_witness :
  let s := run_ops [OpMessage (demo_user (js "a")); OpMessage (demo_user (js "b"));
                    OpBranch (replicate 8 0); OpMessage (demo_user (js "c"))] (demo_start []) in
  ∃ path, getBranch s None = Some path ∧ chain path ∧ e_id <$> last path = sm_leafId s.
Proof.
  intros s. refine (proj2 (getBranch_spec s _)). apply inv_run_ops. unfold demo_start.
  split; [split|]; cbn; [by apply wf_entries_header|done|intros m _; apply not_elem_of_nil].
Defined.
