(* ===== verification/SessionDurability.v ===== *)
(** * What the session file holds

    Usage attributions are applied to assistant messages in memory when they
    are appended, and again when a file is loaded.  [Dur] says that the file of
    a flushed session loads to exactly the entries in memory; it is kept by
    every append whose writes succeed, and by the rollback appends whatever
    fails.  Opening the file again then gives the same session. *)

From S2P Require Import Prelude.
From S2P Require Import JsMap.
From S2P Require Import JsString.
From S2P Require Import Json.
From S2P Require Import Messages.
From S2P Require Import Eff.
From S2P Require Import SessionEntry.
From S2P Require Import SessionManager.
From S2P Require Import SessionInvariant.

(** ** Usage attributions as a map over the entries *)

Definition attribution (f : FileEntry) : option (jsstr * Usage) :=
  match f with
  | FEntry (MkSessionEntry _ _ _ (BChildUsageAttributed t _ u _)) => Some (t, u)
  | _ => None
  end.

Definition updates (l : list FileEntry) : list (jsstr * Usage) := omap attribution l.

(** One attribution, seen from one entry. *)
Definition upd (f : FileEntry) (tu : jsstr * Usage) : FileEntry :=
  match f with
  | FEntry e => if bool_decide (e_id e = tu.1) then set_entry_usage tu.2 f else f
  | FHeader _ => f
  end.

Definition apply_updates (ups : list (jsstr * Usage)) (f : FileEntry) : FileEntry := foldl upd f ups.

#[global] Arguments upd : simpl never.
#[global] Arguments updates : simpl never.

Definition shape (f : FileEntry) : option (jsstr * option jsstr) * bool := (skel f, is_assistant_entry f).

Lemma set_entry_usage_other u f : is_assistant_entry f = false → set_entry_usage u f = f.
Proof. by destruct f as [|[? ? ? [[] | | | | | | | | | | | | |]]]. Qed.

Lemma is_assistant_set_usage u f : is_assistant_entry (set_entry_usage u f) = is_assistant_entry f.
Proof. by destruct f as [|[? ? ? [[] | | | | | | | | | | | | |]]]. Qed.

Lemma set_entry_usage_twice u v f : set_entry_usage u (set_entry_usage v f) = set_entry_usage u f.
Proof. by destruct f as [|[? ? ? [[] | | | | | | | | | | | | |]]]. Qed.

Lemma attribution_set_usage u f : attribution (set_entry_usage u f) = attribution f.
Proof. by destruct f as [|[? ? ? [[] | | | | | | | | | | | | |]]]. Qed.

Lemma shape_upd f tu : shape (upd f tu) = shape f.
Proof.
  unfold upd, shape. destruct f as [h|e]; [done|]. case_match; [|done].
  by rewrite skel_set_entry_usage, is_assistant_set_usage.
Qed.

Lemma attribution_upd f tu : attribution (upd f tu) = attribution f.
Proof. unfold upd. destruct f as [h|e]; [done|]. case_match; [|done]. apply attribution_set_usage. Qed.

Lemma shape_apply ups f : shape (apply_updates ups f) = shape f.
Proof. unfold apply_updates. revert f. induction ups; intros f; cbn; [done|]. by rewrite IHups, shape_upd. Qed.

Lemma attribution_apply ups f : attribution (apply_updates ups f) = attribution f.
Proof. unfold apply_updates. revert f. induction ups; intros f; cbn; [done|]. by rewrite IHups, attribution_upd. Qed.

Lemma updates_app l k : updates (l ++ k) = updates l ++ updates k.
Proof. apply omap_app. Qed.

Lemma updates_apply ups l : updates (apply_updates ups <$> l) = updates l.
Proof.
  induction l as [|f l IH]; [done|]. unfold updates in *. cbn. rewrite attribution_apply.
  by rewrite <-IH.
Qed.

Lemma shape_skel (l k : list FileEntry) : shape <$> l = shape <$> k → skel <$> l = skel <$> k.
Proof.
  intros E. assert (fst <$> (shape <$> l) = fst <$> (shape <$> k)) as E2 by (by rewrite E).
  by rewrite <-!list_fmap_compose in E2.
Qed.

Lemma shape_lookup (l k : list FileEntry) i f : shape <$> l = shape <$> k → l !! i = Some f →
  ∃ f', k !! i = Some f' ∧ shape f' = shape f.
Proof.
  intros E Hi. assert ((shape <$> l) !! i = Some (shape f)) as H1 by (by rewrite list_lookup_fmap, Hi).
  rewrite E, list_lookup_fmap in H1. apply fmap_Some in H1 as (f'&?&?). eauto.
Qed.

Lemma shape_entry f e : shape f = shape (FEntry e) →
  ∃ e', f = FEntry e' ∧ e_id e' = e_id e ∧ is_assistant_entry (FEntry e') = is_assistant_entry (FEntry e).
Proof.
  intros E. pose proof (f_equal fst E) as E1. pose proof (f_equal snd E) as E2.
  destruct f as [h|e']; [done|]. exists e'. split; [done|]. cbn in E1. injection E1 as ->. done.
Qed.

(** *** The index of assistant entries *)

Definition assistant_at (l : list FileEntry) (i : nat) (t : jsstr) : Prop :=
  ∃ e, l !! i = Some (FEntry e) ∧ e_id e = t ∧ is_assistant_entry (FEntry e) = true.

Lemma index_absent k l m t :
  (∀ i, ¬ assistant_at l i t) → jm_get (assistantEntriesById k l m) t = jm_get m t.
Proof.
  revert k m. induction l as [|f l IH]; intros k m Hno; [done|]. cbn [assistantEntriesById].
  rewrite IH by (intros i Hi; by apply (Hno (S i))).
  destruct f as [h|e]; [done|]. destruct (is_assistant_entry (FEntry e)) eqn:Ea; [|done].
  apply jm_get_set_ne. intros <-. apply (Hno 0%nat). by exists e.
Qed.

Lemma index_sound k l m t j : jm_get (assistantEntriesById k l m) t = Some j →
  (∃ i, j = (k + i)%nat ∧ assistant_at l i t) ∨ jm_get m t = Some j.
Proof.
  revert k m. induction l as [|f l IH]; intros k m; [by right|]. cbn [assistantEntriesById].
  intros [(i&->&Hi)|Hm]%IH; [left; exists (S i); split; [lia|exact Hi]|].
  destruct f as [h|e]; [by right|]. destruct (is_assistant_entry (FEntry e)) eqn:Ea; [|by right].
  rewrite jm_get_set in Hm. case_decide; [|by right]. left. exists 0%nat. split; [simplify_eq; lia|]. by exists e.
Qed.

Lemma assistant_entry_at l i t : assistant_at l i t → entry_at l i t.
Proof. intros (e&?&?&_). by exists e. Qed.

Lemma NoDup_tail f l : NoDup (entry_ids (f :: l)) → NoDup (entry_ids l).
Proof.
  change (f :: l) with ([f] ++ l). rewrite entry_ids_app. by intros (_&_&?)%NoDup_app.
Qed.

Lemma index_complete k l m i t : NoDup (entry_ids l) → assistant_at l i t →
  jm_get (assistantEntriesById k l m) t = Some (k + i)%nat.
Proof.
  revert k m i. induction l as [|f l IH]; intros k m i HND Hat; [by destruct Hat as (?&?&_)|].
  cbn [assistantEntriesById]. destruct i as [|i].
  - rewrite index_absent.
    + destruct Hat as (e&[= ->]&<-&->). rewrite jm_get_set_eq. f_equal. lia.
    + intros i Hi. assert (0%nat = S i) as [=].
      apply (entry_at_inj (f :: l) _ _ t HND); [by apply assistant_entry_at|].
      by apply (assistant_entry_at (f :: l) (S i)).
  - rewrite (IH _ _ i); [f_equal; lia|by eapply NoDup_tail|exact Hat].
Qed.

Lemma apply_attribution_spec l acc f : NoDup (entry_ids l) → shape <$> acc = shape <$> l →
  apply_attribution (assistantEntriesById 0 l []) acc f =
  match attribution f with Some tu => (λ g, upd g tu) <$> acc | None => acc end.
Proof.
  intros HND Hsh. destruct f as [h|[xi xp xt b]]; [done|]. destruct b; try done. cbn.
  assert (HNDa : NoDup (entry_ids acc)) by (by rewrite (skel_entry_ids acc l) by (by apply shape_skel)).
  assert (Hmv : ∀ j e, acc !! j = Some (FEntry e) → is_assistant_entry (FEntry e) = true →
                assistant_at l j (e_id e)).
  { intros j e Hj Ha. destruct (shape_lookup _ _ _ _ Hsh Hj) as (f'&Hl&Es).
    apply shape_entry in Es as (e'&->&E1&E2). exists e'. by rewrite E2, E1. }
  apply list_eq. intros j. rewrite cloneUsage_id.
  destruct (jm_get _ targetId) as [i|] eqn:Ei.
  - apply index_sound in Ei as [(i'&->&Hat)|[=]]. cbn.
    rewrite list_lookup_fmap, list_lookup_alter. destruct (decide (i' = j)) as [->|Hne].
    + destruct Hat as (e&Hl&Ht&_). destruct (shape_lookup _ _ _ _ (eq_sym Hsh) Hl) as (f'&Ha&Es).
      apply shape_entry in Es as (e'&->&E1&_). rewrite Ha. unfold upd. cbn.
      by rewrite bool_decide_true by congruence.
    + destruct (acc !! j) as [g|] eqn:Ej; [|done]. cbn. f_equal. unfold upd. destruct g as [h|e]; [done|].
      cbn [fst snd]. case_bool_decide as Hid; [|done]. destruct (is_assistant_entry (FEntry e)) eqn:Ea.
      * destruct Hne. eapply (entry_at_inj l); [exact HND|by apply assistant_entry_at|].
        rewrite <-Hid. by apply assistant_entry_at, Hmv.
      * by rewrite set_entry_usage_other.
  - rewrite list_lookup_fmap. destruct (acc !! j) as [g|] eqn:Ej; [|done]. cbn. f_equal. unfold upd.
    destruct g as [h|e]; [done|]. cbn [fst snd]. case_bool_decide as Hid; [|done].
    destruct (is_assistant_entry (FEntry e)) eqn:Ea; [|by rewrite set_entry_usage_other].
    rewrite <-Hid, (index_complete 0 l [] j (e_id e) HND) in Ei; [done|]. by apply Hmv.
Qed.

Lemma applyChildUsageAttributions_map l : NoDup (entry_ids l) →
  applyChildUsageAttributions l = apply_updates (updates l) <$> l.
Proof.
  intros HND. unfold applyChildUsageAttributions.
  assert (∀ k acc, shape <$> acc = shape <$> l →
    foldl (apply_attribution (assistantEntriesById 0 l [])) acc k = apply_updates (updates k) <$> acc) as Hgen.
  { induction k as [|f k IH]; intros acc Hsh; cbn.
    - unfold apply_updates, updates. cbn. by rewrite list_fmap_id.
    - rewrite (apply_attribution_spec l) by done. unfold updates. cbn. fold (updates k).
      destruct (attribution f) as [tu|] eqn:Ef; [|by apply IH].
      rewrite IH.
      + rewrite <-list_fmap_compose. apply list_fmap_ext. intros i g _. done.
      + rewrite <-list_fmap_compose, <-Hsh. apply list_fmap_ext. intros i g _. apply shape_upd. }
  by apply Hgen.
Qed.

Lemma shape_applyCUA l : shape <$> applyChildUsageAttributions l = shape <$> l.
Proof.
  unfold applyChildUsageAttributions.
  assert (∀ idx k acc, shape <$> acc = shape <$> l → shape <$> foldl (apply_attribution idx) acc k = shape <$> l) as Hg.
  { intros idx. induction k as [|f k IH]; intros acc Hacc; cbn; [done|]. apply IH.
    destruct f as [h|[xi xp xt b]]; [done|]. destruct b; try done. cbn.
    destruct (jm_get idx targetId) as [i|]; [|done]. rewrite <-Hacc. apply list_eq. intros j.
    rewrite !list_lookup_fmap, list_lookup_alter. destruct (decide (i = j)) as [->|]; [|done].
    destruct (acc !! j); [|done]. cbn. f_equal. unfold shape.
    by rewrite skel_set_entry_usage, is_assistant_set_usage. }
  by apply Hg.
Qed.

Lemma entry_ids_applyCUA l : entry_ids (applyChildUsageAttributions l) = entry_ids l.
Proof. apply skel_entry_ids, shape_skel, shape_applyCUA. Qed.

(** ** Pointwise lemmas *)

Lemma apply_updates_app ups ups' f : apply_updates (ups ++ ups') f = apply_updates ups' (apply_updates ups f).
Proof. apply foldl_app. Qed.

Lemma upd_other e tu : e_id e ≠ tu.1 → upd (FEntry e) tu = FEntry e.
Proof. intros. unfold upd. by rewrite bool_decide_false. Qed.

Lemma apply_updates_other ups e : (∀ t u, (t, u) ∈ ups → e_id e ≠ t) → apply_updates ups (FEntry e) = FEntry e.
Proof.
  unfold apply_updates. induction ups as [|[t u] ups IH]; intros Hno; cbn; [done|].
  rewrite upd_other by (cbn; apply (Hno t u); by left). apply IH. intros t' u' Hin. apply (Hno t' u'). by right.
Qed.

Lemma attribution_not_assistant f tu : attribution f = Some tu → is_assistant_entry f = false.
Proof. by destruct f as [|[? ? ? [[] | | | | | | | | | | | | |]]]. Qed.

Lemma upd_not_assistant f tu : is_assistant_entry f = false → upd f tu = f.
Proof. intros Ha. unfold upd. destruct f; [done|]. case_match; [|done]. by apply set_entry_usage_other. Qed.

(** What one appended entry does to the entries before it. *)
Definition attributed (e : SessionEntry) (l : list FileEntry) : list FileEntry :=
  match attribution (FEntry e) with Some tu => (λ g, upd g tu) <$> l | None => l end.

Lemma updates_one f : updates [f] = match attribution f with Some tu => [tu] | None => [] end.
Proof. unfold updates. cbn. by destruct (attribution f). Qed.

Lemma applyCUA_snoc D e :
  NoDup (entry_ids (D ++ [FEntry e])) → (∀ t u, (t, u) ∈ updates D → e_id e ≠ t) →
  applyChildUsageAttributions (D ++ [FEntry e]) = attributed e (applyChildUsageAttributions D) ++ [FEntry e].
Proof.
  intros HND Hno. assert (HND' : NoDup (entry_ids D)).
  { rewrite entry_ids_app in HND. by apply NoDup_app in HND as (?&_&_). }
  rewrite !applyChildUsageAttributions_map by done. rewrite fmap_app, updates_app. f_equal.
  - rewrite updates_one. unfold attributed. destruct (attribution (FEntry e)) as [tu|].
    + rewrite <-list_fmap_compose. apply list_fmap_ext. intros i g _. by rewrite apply_updates_app.
    + apply list_fmap_ext. intros i g _. by rewrite app_nil_r.
  - match goal with |- ?f <$> [?x] = _ => change (f <$> [x]) with [f x] end.
    rewrite apply_updates_app, apply_updates_other by done. rewrite updates_one.
    destruct (attribution (FEntry e)) as [tu|] eqn:Ea; [|done]. unfold apply_updates. cbn.
    by rewrite upd_not_assistant by (by eapply attribution_not_assistant).
Qed.

Lemma upd_upd g t u v : upd (upd g (t, v)) (t, u) = upd g (t, u).
Proof.
  unfold upd. destruct g as [h|e]; [done|]. cbn [fst snd]. case_bool_decide as Hid.
  - destruct (set_entry_usage v (FEntry e)) as [h|e'] eqn:E.
    + pose proof (skel_set_entry_usage v (FEntry e)) as Hs. by rewrite E in Hs.
    + pose proof (skel_set_entry_usage v (FEntry e)) as Hs. rewrite E in Hs. injection Hs as Hi _.
      rewrite bool_decide_true by congruence. rewrite <-E. apply set_entry_usage_twice.
  - by rewrite bool_decide_false.
Qed.

(** A later attribution of the same entry hides the earlier ones. *)
Lemma apply_then_upd ups g t u :
  apply_updates ups g = g → upd (apply_updates ups (upd g (t, u))) (t, u) = upd g (t, u).
Proof.
  intros Hfix. destruct g as [h|e].
  { assert (∀ ups, apply_updates ups (FHeader h) = FHeader h) as Hh by (by intros l; induction l).
    unfold upd at 2. by rewrite Hh. }
  destruct (decide (e_id e = t)) as [Heq|Hne].
  - assert (∀ ups f, upd (apply_updates ups (upd f (t, u))) (t, u) = upd (apply_updates ups f) (t, u)) as Hg.
    { clear. intros ups. induction ups as [|[t' u'] ups IH]; intros f; [apply upd_upd|].
      unfold apply_updates in *. cbn. destruct (decide (t = t')) as [<-|Hne].
      - by rewrite upd_upd.
      - assert (upd (upd f (t, u)) (t', u') = upd (upd f (t', u')) (t, u)) as ->; [|apply IH].
        unfold upd at 1 3. pose proof (shape_upd f (t, u)) as H1. pose proof (shape_upd f (t', u')) as H2.
        destruct f as [h|e]; [done|].
        apply shape_entry in H1 as (e1&E1&I1&_). apply shape_entry in H2 as (e2&E2&I2&_).
        rewrite E1, E2. cbn [fst snd]. rewrite I1, I2, <-E1, <-E2. unfold upd. cbn [fst snd].
        repeat case_bool_decide; congruence. }
    rewrite Hg, Hfix. done.
  - assert (upd (FEntry e) (t, u) = FEntry e) as Hu by (by apply upd_other).
    by rewrite Hu, Hfix, Hu.
Qed.

(** *** Appending keeps the applied form *)

Lemma attributed_shape e l : shape <$> attributed e l = shape <$> l.
Proof.
  unfold attributed. destruct (attribution _) as [tu|]; [|done].
  rewrite <-list_fmap_compose. apply list_fmap_ext. intros i g _. apply shape_upd.
Qed.

Lemma updates_attributed e l : updates (attributed e l) = updates l.
Proof.
  unfold attributed. destruct (attribution _) as [tu|]; [|done].
  pose proof (updates_apply [tu] l) as Hu. exact Hu.
Qed.

Lemma applied_snoc l e :
  applyChildUsageAttributions l = l → NoDup (entry_ids (l ++ [FEntry e])) →
  (∀ t u, (t, u) ∈ updates l → e_id e ≠ t) →
  applyChildUsageAttributions (attributed e l ++ [FEntry e]) = attributed e l ++ [FEntry e].
Proof.
  intros Hfix HND Hno. rewrite entry_ids_app in HND.
  assert (Hids : entry_ids (attributed e l) = entry_ids l) by (apply skel_entry_ids, shape_skel, attributed_shape).
  rewrite applyCUA_snoc; [|by rewrite entry_ids_app, Hids|by rewrite updates_attributed]. f_equal.
  pose proof HND as (HND'&_&_)%NoDup_app.
  rewrite applyChildUsageAttributions_map by (by rewrite Hids). rewrite updates_attributed.
  rewrite applyChildUsageAttributions_map in Hfix by done.
  unfold attributed. destruct (attribution (FEntry e)) as [[t u]|] eqn:Ea; [|done].
  rewrite <-!list_fmap_compose. apply list_fmap_ext. intros i g Hi. cbn. apply apply_then_upd.
  assert ((apply_updates (updates l) <$> l) !! i = Some g) as Hg by (by rewrite Hfix).
  rewrite list_lookup_fmap, Hi in Hg. by injection Hg.
Qed.

(** ** The session file and the memory *)

(** The file of a flushed session consists of whole lines that load to the
    entries in memory. *)
Definition disk_ok (s : SM) : Prop :=
  ∀ path, sm_persist s = true → sm_sessionFile s = Some path → path ≠ [] → sm_flushed s = true →
    ∃ D, jm_get (sm_disk s) path = Some (MkFile (Some <$> D) None) ∧
      applyChildUsageAttributions D = sm_fileEntries s.

Record Dur (s : SM) : Prop := {
  dur_applied : applyChildUsageAttributions (sm_fileEntries s) = sm_fileEntries s;
  dur_targets : ∀ t u, (t, u) ∈ updates (sm_fileEntries s) → t ∈ entry_ids (sm_fileEntries s);
  dur_disk : disk_ok s
}.

Lemma parse_whole (D : list FileEntry) : parseEntriesFromBuffer (MkFile (Some <$> D) None) = D.
Proof.
  unfold parseEntriesFromBuffer. cbn. rewrite app_nil_r. induction D as [|f D IH]; [done|]. cbn. by rewrite IH.
Qed.

Lemma append_whole (D : list FileEntry) f : append_line (MkFile (Some <$> D) None) f = MkFile (Some <$> D ++ [f]) None.
Proof. unfold append_line. cbn. by rewrite fmap_app. Qed.

Lemma file_of_entries_whole f (l : list FileEntry) : file_of_entries (f :: l) = MkFile (Some <$> f :: l) None.
Proof. done. Qed.

Section durability.
Context `{UuidLaws}.

(** Loading a flushed session's file gives the entries in memory. *)
Lemma load_disk_ok s path :
  WF s → Dur s → sm_persist s = true → sm_sessionFile s = Some path → path ≠ [] → sm_flushed s = true →
  loadEntriesFromFile (sm_disk s) path = sm_fileEntries s.
Proof.
  intros [[Hh _ _ _ _] _] [_ _ Hd] Hp Hf Hne Hfl. destruct (Hd path Hp Hf Hne Hfl) as (D&HD&Happ).
  unfold loadEntriesFromFile. rewrite HD, parse_whole. destruct Hh as (h&rest&Hl&Hid).
  pose proof (shape_applyCUA D) as Hsh. rewrite Happ, Hl in Hsh.
  destruct D as [|[h'|e'] D]; [done| |done]. cbn.
  assert (h' = h) as ->.
  { unfold applyChildUsageAttributions in Happ.
    assert (∀ idx k acc, head acc = Some (FHeader h') → (∀ t i, jm_get idx t = Some i → (0 < i)%nat) →
      head (foldl (apply_attribution idx) acc k) = Some (FHeader h')) as Hhead.
    { intros idx. induction k as [|f k IH]; intros acc Hacc Hidx; [done|]. cbn. apply IH; [|done].
      destruct f as [|[xi xp xt b]]; [done|]. destruct b; try done. cbn.
      destruct (jm_get idx targetId) as [i|] eqn:Ei; [|done]. apply Hidx in Ei.
      destruct acc as [|a acc], i as [|i]; [done|done|lia|done]. }
    assert (head (sm_fileEntries s) = Some (FHeader h')) as Hhd.
    { rewrite <-Happ. apply Hhead; [done|]. intros t i [(j&->&(e&Hj&_))|[=]]%index_sound.
      destruct j; [done|lia]. }
    rewrite Hl in Hhd. by injection Hhd as ->. }
  by rewrite bool_decide_true.
Qed.

(** *** Writes *)

Lemma rewriteFile_Ok s s' : _rewriteFile s = (s', Ok tt) →
  same_mem s s' ∧ sm_flushed s' = sm_flushed s ∧
  ∀ path, sm_persist s = true → sm_sessionFile s = Some path → path ≠ [] →
    jm_get (sm_disk s') path = Some (file_of_entries (sm_fileEntries s)).
Proof.
  intros E. pose proof (silent_rewriteFile s) as Hm. rewrite E in Hm. cbn in Hm. split; [done|].
  unfold _rewriteFile, mbind, eff_bind, eget in E. cbn in E.
  destruct (sm_persist s) eqn:Ep; [|injection E as <-; split; [done|intros path [=]]].
  destruct (sm_sessionFile s) as [[|c p]|] eqn:Ef;
    [injection E as <-; by split; [done|intros path _ [= <-]]| |injection E as <-; by split].
  unfold take_fault in E. destruct (w_faults (sm_world s)) as [|x rest].
  - unfold emodify, _notifyPersistListeners, mbind, eff_bind, egets, ewhen in E. cbn in E. rewrite Ef in E. cbn in E.
    injection E as <-. split; [done|]. intros path _ [= <-] _. cbn. apply jm_get_set_eq.
  - destruct x; try done.
    unfold emodify, _notifyPersistListeners, mbind, eff_bind, egets, ewhen in E. cbn in E. rewrite Ef in E. cbn in E.
    injection E as <-. split; [done|]. intros path _ [= <-] _. cbn. apply jm_get_set_eq.
Qed.

Lemma notify_eq s : ∃ s', _notifyPersistListeners s = (s', Ok tt) ∧ same_mem s s' ∧
  sm_flushed s' = sm_flushed s ∧ sm_disk s' = sm_disk s ∧ w_faults (sm_world s') = w_faults (sm_world s).
Proof.
  unfold _notifyPersistListeners, mbind, eff_bind, egets, ewhen, emodify. cbn.
  destruct (truthy (sm_sessionFile s)); cbn; by eexists.
Qed.

Lemma appendFileSync_Ok path f s s' : appendFileSync path f s = (s', Ok tt) →
  same_mem s s' ∧ sm_flushed s' = sm_flushed s ∧
  jm_get (sm_disk s') path = Some (append_line (default empty_file (jm_get (sm_disk s) path)) f).
Proof.
  intros E. pose proof (silent_appendFileSync path f s) as Hm. rewrite E in Hm. cbn in Hm. split; [done|].
  unfold appendFileSync, mbind, eff_bind, eget, take_fault, emodify, ethrow in E. cbn in E.
  destruct (w_faults (sm_world s)) as [|x rest].
  - injection E as <-. split; [done|]. cbn. apply jm_get_set_eq.
  - destruct x; try done. injection E as <-. split; [done|]. cbn. apply jm_get_set_eq.
Qed.

(** The mode in which an append goes to the file at once. *)
Definition writes_now (e : SessionEntry) (s : SM) : bool :=
  existsb is_assistant_entry (sm_fileEntries s) || persists_without_assistant e.

Lemma persist_Ok e s s' l :
  sm_fileEntries s = l ++ [FEntry e] →
  (∀ path, sm_persist s = true → sm_sessionFile s = Some path → path ≠ [] → sm_flushed s = true →
    ∃ D, jm_get (sm_disk s) path = Some (MkFile (Some <$> D) None) ∧
      applyChildUsageAttributions (D ++ [FEntry e]) = sm_fileEntries s) →
  applyChildUsageAttributions (sm_fileEntries s) = sm_fileEntries s →
  _persist e s = (s', Ok tt) →
  disk_ok s' ∧ (sm_persist s = true → truthy (sm_sessionFile s) = true → writes_now e s = true → sm_flushed s' = true).
Proof.
  intros Hl Hpre Happ E. pose proof (silent_persist e s) as Hm. rewrite E in Hm. cbn in Hm.
  pose proof (same_mem_entries _ _ Hm) as Hfe.
  assert (Hproj : sm_persist s = sm_persist s' ∧ sm_sessionFile s = sm_sessionFile s').
  { by injection Hm. }
  destruct Hproj as [Hp Hsf]. unfold disk_ok. rewrite <-Hp, <-Hsf, <-Hfe.
  unfold _persist, mbind at 1, eff_bind at 1, eget in E. cbn iota in E.
  destruct (sm_persist s) eqn:Ep; [|split; [by intros path [=]|done]].
  destruct (sm_sessionFile s) as [[|c p]|] eqn:Ef; [split; [by intros path _ [= <-]|done]| |split; [by intros path|done]].
  unfold writes_now. destruct (negb _ && negb _) eqn:Ew.
  { injection E as <-. split; [done|]. rewrite andb_true_iff, !negb_true_iff in Ew.
    destruct Ew as [-> ->]. done. }
  destruct (negb (sm_flushed s) || negb (existsSync (c :: p) s)) eqn:Er.
  - unfold mbind, eff_bind in E. destruct (_rewriteFile s) as [s1 [[]|x]] eqn:Erw; [|done].
    injection E as <-. apply rewriteFile_Ok in Erw as (_&_&Hd). split; [|done].
    intros path _ [= <-] _ _. exists (sm_fileEntries s). split; [|done].
    etrans; [by apply (Hd (c :: p))|]. rewrite Hl. by destruct l.
  - rewrite orb_false_iff, !negb_false_iff in Er. destruct Er as [Hfl _].
    unfold mbind, eff_bind in E. destruct (appendFileSync _ _ _) as [s1 [[]|x]] eqn:Ea; [|done].
    destruct (notify_eq s1) as (s2&Hn&_&Hn2&Hn3&_). rewrite Hn in E. injection E as <-.
    apply appendFileSync_Ok in Ea as (_&Hf1&Hd). split; [|by rewrite Hn2, Hf1].
    intros path _ [= <-] _ _. destruct (Hpre (c :: p)) as (D&HD&HDa); [done..|].
    exists (D ++ [FEntry e]). split; [|done]. rewrite Hn3, Hd, HD. cbn [default]. by rewrite <-append_whole.
Qed.

(** The state before [append_body], with the attribution the caller has already
    made to the message in memory. *)
Definition pre_attributed (e : SessionEntry) (s : SM) : SM := set_fileEntries (attributed e (sm_fileEntries s)) s.

Lemma append_body_dur body s s' e :
  inv s → Dur s →
  (∀ t u, attribution (FEntry (MkSessionEntry [] None 0 body)) = Some (t, u) → t ∈ entry_ids (sm_fileEntries s)) →
  let e0 := MkSessionEntry [] None 0 body in
  append_body body (pre_attributed e0 s) = (s', Ok e) →
  Dur s' ∧ sm_fileEntries s' = attributed e0 (sm_fileEntries s) ++ [FEntry e] ∧ e_body e = body ∧
  (sm_persist s = true → truthy (sm_sessionFile s) = true → writes_now e s' = true → sm_flushed s' = true).
Proof.
  intros Hinv HD Hatt e0 E. rewrite append_body_eq in E. cbn zeta in E.
  set (s1 := pre_attributed e0 s) in *. set (en := new_entry body s1) in *.
  assert (Hen : e_id en = e_id (new_entry body s)) by done.
  destruct (new_entry_fresh body s Hinv) as (Hfresh&_&_). rewrite <-Hen in Hfresh.
  destruct Hinv as [[Hs _] _]. destruct HD as [Happ Htgt Hdisk].
  assert (Hids : entry_ids (attributed e0 (sm_fileEntries s)) = entry_ids (sm_fileEntries s))
    by (apply skel_entry_ids, shape_skel, attributed_shape).
  assert (HND : NoDup (entry_ids (sm_fileEntries s ++ [FEntry en]))).
  { rewrite entry_ids_app. apply NoDup_app. split_and!; [apply Hs| |apply NoDup_singleton].
    by intros x Hx ->%list_elem_of_singleton. }
  assert (Hno : ∀ t u, (t, u) ∈ updates (sm_fileEntries s) → e_id en ≠ t).
  { intros t u Hin <-. by apply Hfresh, (Htgt _ u). }
  assert (Hat_eq : ∀ l, attributed en l = attributed e0 l) by done.
  destruct (_persist en (push_entry en (after_new_entry s1))) as [s2 [[]|x]] eqn:Ep; [|done].
  injection E as <- <-. pose proof (silent_persist en (push_entry en (after_new_entry s1))) as Hm.
  rewrite Ep in Hm. cbn [fst] in Hm. pose proof (same_mem_entries _ _ Hm) as Hfe. cbn in Hfe.
  assert (Happ' : applyChildUsageAttributions (attributed e0 (sm_fileEntries s) ++ [FEntry en])
                  = attributed e0 (sm_fileEntries s) ++ [FEntry en]).
  { rewrite <-Hat_eq. by apply applied_snoc. }
  eapply (persist_Ok en _ _ (attributed e0 (sm_fileEntries s))) in Ep as [Hd Hfl]; [|done| |exact Happ'].
  - split_and!; [split|done|done|].
    + by rewrite <-Hfe.
    + rewrite <-Hfe. intros t u. rewrite updates_app, <-(Hat_eq (sm_fileEntries s)), updates_attributed.
      rewrite entry_ids_app, (Hat_eq (sm_fileEntries s)), Hids, updates_one.
      intros [Hin|Hin]%elem_of_app; apply elem_of_app; left; [by apply (Htgt t u)|].
      apply (Hatt t u). fold e0. change (attribution (FEntry en)) with (attribution (FEntry e0)) in Hin.
      destruct (attribution (FEntry e0)) as [tu|]; [|by apply elem_of_nil in Hin].
      by apply list_elem_of_singleton in Hin as <-.
    + exact Hd.
    + intros Hp Ht Hw. apply Hfl; [done..|]. unfold writes_now in *. by rewrite <-Hfe in Hw.
  - cbn. intros path Hp Hf Hne Hflu. destruct (Hdisk path Hp Hf Hne Hflu) as (D&HDk&HDa).
    exists D. split; [done|].
    pose proof (entry_ids_applyCUA D) as HidD. rewrite HDa in HidD.
    rewrite applyCUA_snoc, HDa; [done|by rewrite entry_ids_app, <-HidD, <-entry_ids_app|].
    intros t u Hin. apply (Hno t u). rewrite <-HDa. rewrite applyChildUsageAttributions_map.
    + by rewrite updates_apply.
    + rewrite <-HidD. rewrite entry_ids_app in HND. by apply NoDup_app in HND as (?&_).
Qed.

(** *** The operations keep file and memory together *)

Lemma Dur_frame s s' :
  sm_fileEntries s' = sm_fileEntries s → sm_persist s' = sm_persist s → sm_sessionFile s' = sm_sessionFile s →
  sm_flushed s' = sm_flushed s → sm_disk s' = sm_disk s → Dur s → Dur s'.
Proof.
  intros Hf Hp Hs Hfl Hd [Ha Ht Hdk]. split; [by rewrite Hf|by rewrite Hf|].
  unfold disk_ok in *. by rewrite Hf, Hp, Hs, Hfl, Hd.
Qed.

Lemma Dur_unflushed s s' :
  sm_fileEntries s' = sm_fileEntries s → sm_flushed s' = false → Dur s → Dur s'.
Proof.
  intros Hf Hfl [Ha Ht _]. split; [by rewrite Hf|by rewrite Hf|]. intros path _ _ _ E. congruence.
Qed.

Lemma rewriteFile_Throw s s' x : _rewriteFile s = (s', Throw x) →
  same_mem s s' ∧ sm_flushed s' = sm_flushed s ∧ sm_disk s' = sm_disk s.
Proof.
  intros E. pose proof (silent_rewriteFile s) as Hm. rewrite E in Hm. split; [done|].
  unfold _rewriteFile, mbind, eff_bind, eget in E. cbn in E.
  destruct (sm_persist s); [|done]. destruct (sm_sessionFile s) as [[|c p]|] eqn:Ef; [done| |done].
  unfold take_fault in E. destruct (w_faults (sm_world s)) as [|y rest]; [|destruct y].
  1,2: unfold emodify, _notifyPersistListeners, mbind, eff_bind, egets, ewhen in E; cbn in E; by rewrite Ef in E.
  all: by injection E as <- <-.
Qed.

Lemma flushNow_dur s : inv s → Dur s →
  Dur (flushNow s).1 ∧
  ((flushNow s).2 = Ok tt → sm_persist s = true → truthy (sm_sessionFile s) = true →
   sm_flushed (flushNow s).1 = true).
Proof.
  intros Hinv HD. unfold flushNow, mbind, eff_bind, eget.
  destruct (sm_persist s) eqn:Ep; [|by split].
  destruct (sm_sessionFile s) as [[|c p]|] eqn:Ef; [by split| |by split].
  destruct (sm_flushed s && existsSync (c :: p) s) eqn:E.
  { apply andb_true_iff in E as [Hfl _]. by split. }
  destruct (_rewriteFile s) as [s1 [[]|x]] eqn:Er; cbn.
  - apply rewriteFile_Ok in Er as (Hm&_&Hd). split; [|done].
    assert (sm_sessionFile s1 = Some (c :: p)) as Hf1 by (injection Hm; congruence).
    apply same_mem_entries in Hm. destruct HD as [Ha Ht _].
    split; cbn; rewrite <-?Hm; [done|done|]. intros path _ Hpa _ _. cbn in Hpa. rewrite Hf1 in Hpa.
    injection Hpa as <-. exists (sm_fileEntries s). split; [|by rewrite Ha]. etrans; [by apply Hd|].
    destruct (wf_header _ _ (wf_store _ (proj1 Hinv))) as (h&rest&->&_). done.
  - apply rewriteFile_Throw in Er as (Hm&Hfl&Hd). split; [|done].
    assert (sm_persist s1 = sm_persist s ∧ sm_sessionFile s1 = sm_sessionFile s) as [Hp1 Hf1]
      by (injection Hm; intros; split; congruence).
    apply same_mem_entries in Hm. by apply (Dur_frame s).
Qed.

(** A body that attributes no usage. *)
Definition no_attribution (b : EntryBody) : bool :=
  match b with BChildUsageAttributed _ _ _ _ => false | _ => true end.

Lemma append_dur body s s' e : no_attribution body = true → inv s → Dur s →
  append_body body s = (s', Ok e) →
  Dur s' ∧ sm_fileEntries s' = sm_fileEntries s ++ [FEntry e] ∧ e_body e = body ∧
  (sm_persist s = true → truthy (sm_sessionFile s) = true → writes_now e s' = true → sm_flushed s' = true).
Proof.
  intros Hb Hi HD E.
  assert (Hnone : attribution (FEntry (MkSessionEntry [] None 0 body)) = None) by (by destruct body).
  assert (Hpre : pre_attributed (MkSessionEntry [] None 0 body) s = s).
  { unfold pre_attributed, attributed. rewrite Hnone. by destruct s. }
  rewrite <-Hpre in E. apply append_body_dur in E; [|done..|by rewrite Hnone].
  unfold attributed in E. by rewrite Hnone in E.
Qed.

Lemma mutate_usage_attributed t c u o s e0 :
  inv s → getEntry s t = Some e0 → is_assistant_entry (FEntry e0) = true →
  mutate_usage t u s = pre_attributed (MkSessionEntry [] None 0 (BChildUsageAttributed t c u o)) s.
Proof.
  intros Hinv Hge Ha. unfold mutate_usage, pre_attributed, attributed. cbn [attribution e_body].
  apply getEntry_spec in Hge as (i&Hi&Hid); [|done]. destruct Hinv as [[Hs _] _].
  assert (jm_get (sm_byId s) t = Some i) as -> by (apply (wf_byId _ _ Hs); by exists e0).
  f_equal. pose proof (apply_attribution_spec (sm_fileEntries s) (sm_fileEntries s)
    (FEntry (MkSessionEntry [] None 0 (BChildUsageAttributed t c u o))) (wf_NoDup _ _ Hs) eq_refl) as Hsp.
  cbn in Hsp. rewrite (index_complete 0 _ _ i t (wf_NoDup _ _ Hs)), cloneUsage_id in Hsp; [done|].
  by exists e0.
Qed.

Lemma attribution_op_dur t c u o s s' id : inv s → Dur s →
  appendChildUsageAttribution t c u o s = (s', Ok id) → Dur s'.
Proof.
  intros Hi HD E. unfold appendChildUsageAttribution in E.
  unfold mbind at 1, eff_bind at 1, egets in E. cbn iota in E.
  destruct (getEntry s t) as [e0|] eqn:Hge; [|done].
  destruct (is_assistant_entry (FEntry e0)) eqn:Ha; [|by destruct e0 as [? ? ? [[]| | | | | | | | | | | | |]]].
  assert (E' : (emodify (mutate_usage t (cloneUsage u));;
    e_id <$> append_body (BChildUsageAttributed t (cloneUsage c) (cloneUsage u) o)) s = (s', Ok id)).
  { by destruct e0 as [? ? ? [[]| | | | | | | | | | | | |]]. }
  clear E. rewrite !cloneUsage_id in E'. unfold mbind, eff_bind, emodify in E'. cbn in E'.
  rewrite (mutate_usage_attributed t c u o s e0) in E' by done.
  unfold fmap, eff_fmap in E'. destruct (append_body _ _) as [s1 [e|x]] eqn:Ea; [|done].
  injection E' as <- _. apply append_body_dur in Ea; [by destruct Ea|done..|].
  intros t' u' [= <- <-]. apply getEntry_spec in Hge as (i&?&?); [|done].
  eapply entry_at_ids. by exists e0.
Qed.

(** An append with rollback keeps file and memory together whatever fails. *)
Lemma rollback_dur body s : no_attribution body = true → inv s → Dur s →
  Dur (_appendEntryWithRollback (e_id <$> append_body body) s).1.
Proof.
  intros Hb Hi HD. pose proof (append_body_mem body s) as Hm.
  assert (Hcatch : ∀ s1 x, same_mem (push_entry (new_entry body s) (after_new_entry s)) s1 →
    Dur (rollback_catch (sm_leafId s) x s1).1).
  { intros s1 x Hs1. pose proof (undo_push body s s1 Hi Hs1) as Hu.
    assert (El : sm_leafId s1 = Some (e_id (new_entry body s))).
    { apply same_mem_leaf in Hs1. by rewrite <-Hs1. }
    unfold rollback_catch. unfold mbind at 1, eff_bind at 1, egets at 1. rewrite El.
    rewrite bool_decide_true by (split; [done|by apply new_leaf_differs]).
    set (s2 := undo_append (sm_leafId s) s1) in *.
    assert (HD2 : Dur s2).
    { apply (Dur_unflushed s); [|by unfold s2, undo_append; rewrite El|done].
      apply same_mem_entries in Hu. by rewrite <-Hu. }
    assert (Hi2 : inv s2) by (rewrite <-Hu; by apply after_new_entry_inv).
    destruct (flushNow_dur s2 Hi2 HD2) as [HDf _].
    unfold mbind, eff_bind, emodify, ecatch. cbn. fold s2.
    destruct (flushNow s2) as [s3 [[]|y]]; cbn in *; [done|]. by apply (Dur_unflushed s3). }
  unfold _appendEntryWithRollback. unfold mbind at 1, eff_bind at 1, egets at 1.
  unfold ecatch at 1. unfold mbind at 1, eff_bind at 1, fmap, eff_fmap.
  destruct (append_body body s) as [s1 [e|x]] eqn:Ea; cbn in Hm; [|by apply Hcatch].
  apply append_dur in Ea as (HD1&_); [|done..].
  assert (Hi1 : inv s1) by (rewrite <-Hm; by apply push_entry_inv).
  destruct (flushNow_dur s1 Hi1 HD1) as [HDf _]. unfold mbind at 1, eff_bind at 1.
  pose proof (silent_flushNow s1) as Hsil.
  destruct (flushNow s1) as [s2 [[]|x]]; cbn in *; [done|].
  apply Hcatch. by etrans; [exact Hm|exact Hsil].
Qed.

(** *** Sequences of operations on one session *)

Definition is_rollback_op (o : sm_op) : bool :=
  match o with OpCustomWithRollback _ _ | OpCustomMessageWithRollback _ _ _ _ => true | _ => false end.

(** Operations that stay in the session they started in. *)
Definition in_session (o : sm_op) : bool :=
  match o with OpNewSession _ | OpMaterialize _ => false | _ => true end.

(** The steps of a caller that stops at the first plain operation that throws;
    the rollback operations may throw. *)
Inductive session_steps : SM → list sm_op → SM → Prop :=
| steps_nil s : session_steps s [] s
| steps_cons s o ops s1 r s2 :
    in_session o = true → run_op o s = (s1, r) → (r = Ok tt ∨ is_rollback_op o = true) →
    session_steps s1 ops s2 → session_steps s (o :: ops) s2.

Lemma discard_Ok {A} (m : M A) s s' : (m;; mret tt) s = (s', Ok tt) → ∃ a, m s = (s', Ok a).
Proof.
  unfold mbind, eff_bind. destruct (m s) as [s1 [a|x]]; [|done]. intros [= <-]. by eexists.
Qed.

Lemma discard_fst {A} (m : M A) s : ((m;; mret tt) s).1 = (m s).1.
Proof. unfold mbind, eff_bind. by destruct (m s) as [s1 [a|x]]. Qed.

Lemma fmap_append_dur body s s' id : no_attribution body = true → inv s → Dur s →
  (e_id <$> append_body body) s = (s', Ok id) → Dur s'.
Proof.
  intros Hb Hi HD E. unfold fmap, eff_fmap in E.
  destruct (append_body body s) as [s1 [e|x]] eqn:Ea; [|done]. injection E as <- _.
  by apply append_dur in Ea as [? _].
Qed.

Lemma label_dur t l s s' id : inv s → Dur s → appendLabelChange t l s = (s', Ok id) → Dur s'.
Proof.
  intros Hi HD E. unfold appendLabelChange, mbind, eff_bind, egets, emodify, ethrow in E.
  destruct (negb _); [done|]. destruct (append_body _ _) as [s1 [e|x]] eqn:Ea; [|done].
  apply append_dur in Ea as [HD1 _]; [|done..]. injection E as <- _.
  by destruct (set_label _ _ _ _ _); apply (Dur_frame s1).
Qed.

Lemma branchWithSummary_dur f t d h u s s' id : inv s → Dur s →
  branchWithSummary f t d h u s = (s', Ok id) → Dur s'.
Proof.
  intros Hi HD E. unfold branchWithSummary, mbind, eff_bind, egets, emodify, ethrow in E.
  destruct (negb _) eqn:Hk; [done|]. eapply fmap_append_dur in E; [exact E|done| |by apply (Dur_frame s)].
  destruct f as [id'|]; [|by apply (keeps_resetLeaf s Hi)].
  apply negb_false_iff in Hk. pose proof (keeps_branch id' s Hi) as Hb.
  unfold branch, mbind, eff_bind, egets in Hb. by rewrite Hk in Hb.
Qed.

Lemma recordGit_dur s s' o : inv s → Dur s → recordGitStateIfChanged s = (s', Ok o) → Dur s'.
Proof.
  intros Hi HD E. unfold recordGitStateIfChanged, mbind, eff_bind, eget, captureGitContext in E.
  destruct (negb _); [by injection E as <- _|].
  destruct (git_context _ _) as [g|]; [|by injection E as <- _].
  destruct (match _ with Some _ => _ | None => false end); [by injection E as <- _|].
  unfold fmap at 1, eff_fmap at 1 in E. destruct (appendGitState g s) as [s1 [id|x]] eqn:Ea; [|done].
  injection E as <- _. by eapply fmap_append_dur in Ea.
Qed.

Lemma run_op_dur o s s' r : inv s → Dur s → in_session o = true →
  run_op o s = (s', r) → r = Ok tt ∨ is_rollback_op o = true → Dur s'.
Proof.
  intros Hi HD Hin E Hr.
  destruct (is_rollback_op o) eqn:Erb.
  { destruct o; try done; cbn [run_op] in E; apply (f_equal fst) in E;
      rewrite discard_fst in E; cbn in E; rewrite <-E; by apply rollback_dur. }
  destruct Hr as [->|]; [|done].
  destruct o; try done; cbn [run_op] in E;
    try (apply discard_Ok in E as [a E]);
    try (by eapply fmap_append_dur in E);
    try (by eapply attribution_op_dur in E);
    try (by eapply label_dur in E);
    try (by eapply branchWithSummary_dur in E);
    try (by eapply recordGit_dur in E).
  - unfold branch, mbind, eff_bind, egets, emodify, ethrow in E. destruct (negb _); [done|].
    injection E as <-. by apply (Dur_frame s).
  - injection E as <-. by apply (Dur_frame s).
  - pose proof (flushNow_dur s Hi HD) as [Hf _]. by rewrite E in Hf.
Qed.

Lemma session_steps_dur s ops s' : session_steps s ops s' → inv s → Dur s → inv s' ∧ Dur s'.
Proof.
  induction 1 as [s|s o ops s1 r s2 Hin Hrun Hr _ IH]; [done|]. intros Hi HD. apply IH.
  - pose proof (inv_run_op o s Hi) as H1. by rewrite Hrun in H1.
  - by eapply run_op_dur.
Qed.

Lemma newSession_dur options :
  hoare (λ _, True) (newSession options) (λ _ s, inv s ∧ Dur s) (λ _ _, True).
Proof.
  intros s _. pose proof (newSession_inv options s I) as Hinv.
  assert (hoare (λ _, True) (newSession options) (λ _ s, Dur s ∧ sm_flushed s = false) (λ _ _, True)) as HD.
  { unfold newSession. cbn zeta. do 7 (eapply hoare_bind; [apply hoare_any|intros ?]).
    apply (hoare_bind _ _ _ (λ _ s, Dur s ∧ sm_flushed s = false)); [|intros ?].
    - apply (hoare_conseq _ _ _ _ _ _ _ (hoare_modify _ (λ _ s, Dur s ∧ sm_flushed s = false) (λ _ _, True))); [|done..].
      intros s1 _. split; [|done]. split; [done|intros t u Hin; by apply elem_of_nil in Hin|by intros path].
    - apply (hoare_bind _ _ _ (λ _ s, Dur s ∧ sm_flushed s = false)); [|intros ?].
      + destruct (sm_persist _); cbn [ewhen]; [|by intros s1 Hs1].
        apply (hoare_conseq _ _ _ _ _ _ _ (hoare_modify _ (λ _ s, Dur s ∧ sm_flushed s = false) (λ _ _, True))); [|done..].
        intros s1 [HD Hf]. split; [|done]. by apply (Dur_unflushed s1).
      + by intros s1 Hs1. }
  specialize (HD s I). destruct (newSession options s) as [s' [a|e]]; [|done]. by destruct HD.
Qed.

(** *** Opening the file again *)

Lemma index_entries_snoc l f : index_entries (l ++ [f]) = index_entry (index_entries l) (length l, f).
Proof. unfold index_entries. rewrite imap_app, foldl_app. cbn. by rewrite Nat.add_0_r. Qed.

Lemma index_entry_FEntry byId ls ts leaf i e : ∃ ls' ts',
  index_entry (byId, ls, ts, leaf) (i, FEntry e) = (jm_set byId (e_id e) i, ls', ts', Some (e_id e)).
Proof.
  unfold index_entry. cbn. destruct (e_body e); try by eexists _, _.
  destruct (set_label _ _ _ _ _). by eexists _, _.
Qed.

(** [_buildIndex] of a list of entries with the invariant's properties gives
    the exact index and the last entry as the leaf. *)
Lemma index_entries_wf h rest :
  is_Some (sh_id h) → NoDup (entry_ids (FHeader h :: (FEntry <$> rest))) →
  Forall (λ id, id ≠ []) (entry_ids (FHeader h :: (FEntry <$> rest))) →
  parents_before (FHeader h :: (FEntry <$> rest)) →
  ∃ byId ls ts, index_entries (FHeader h :: (FEntry <$> rest)) = (byId, ls, ts, e_id <$> last rest) ∧
    wf_entries (FHeader h :: (FEntry <$> rest)) byId.
Proof.
  intros Hh. induction rest as [|e rest IH] using rev_ind; intros HND Hne Hpar.
  - eexists _, _, _. split; [done|]. by apply wf_entries_header.
  - rewrite fmap_app in *. cbn [fmap list_fmap] in *. rewrite app_comm_cons in *.
    rewrite entry_ids_app in HND, Hne. pose proof HND as (HND1&Hdis&_)%NoDup_app.
    apply Forall_app in Hne as [Hne1 Hne2].
    destruct IH as (byId&ls&ts&Hidx&Hwf); [done|done| |].
    { intros i x p Hi Hp. destruct (Hpar i x p) as (j&Hj&y&Hy&?); [by apply lookup_app_l_Some|done|].
      exists j. split; [done|]. exists y. split; [|done]. rewrite lookup_app_l in Hy; [done|].
      apply lookup_lt_Some in Hi. lia. }
    rewrite index_entries_snoc, Hidx, last_snoc.
    destruct (index_entry_FEntry byId ls ts (e_id <$> last rest) (length (FHeader h :: (FEntry <$> rest))) e)
      as (ls'&ts'&->).
    eexists _, ls', ts'. split; [done|]. apply wf_entries_snoc; [done| | |].
    + intros Hin. apply (Hdis _ Hin). by left.
    + by apply Forall_inv in Hne2.
    + intros p Hp. destruct (Hpar (length (FHeader h :: (FEntry <$> rest))) e p) as (j&Hj&y&Hy&Hid).
      * by rewrite lookup_app_r, Nat.sub_diag by lia.
      * done.
      * apply (entry_at_ids _ j). exists y. split; [|done]. by rewrite lookup_app_l in Hy.
Qed.
End durability.

(** ** Properties *)

(** C1: in a session created by [create], after any steps of which only the
    rollback appends may have failed, a session marked flushed has a file that
    loads to exactly the entries in memory, usage attributions included. *)
Theorem session_file_in_sync `{UuidLaws} cwd dir persist pre s0 s ops s' path :
  construct cwd dir None persist pre s0 = (s, Ok tt) → session_steps s ops s' →
  sm_persist s' = true → sm_sessionFile s' = Some path → path ≠ [] → sm_flushed s' = true →
  loadEntriesFromFile (sm_disk s') path = sm_fileEntries s'.
Proof.
  intros Hc Hst. unfold construct, emodify, mbind, eff_bind in Hc.
  pose proof (newSession_dur None (blank cwd dir persist (sm_world s0)) I) as Hn.
  destruct (newSession _ _) as [s1 [f|e]]; [|done]. injection Hc as <-. destruct Hn as [Hi HD].
  eapply session_steps_dur in Hst as [Hi' HD']; [|done..]. apply load_disk_ok; [apply Hi'|done].
Qed.

(** Once the session holds an assistant message, an append that returns has
    put its entry on disk: the file loads to the entries in memory, whose last
    one is the appended entry.  Session names and states reach the disk even
    before the first assistant message. *)
Theorem append_reaches_disk `{UuidLaws} body s s' e path :
  inv s → Dur s → no_attribution body = true →
  sm_persist s = true → sm_sessionFile s = Some path → path ≠ [] →
  append_body body s = (s', Ok e) → writes_now e s' = true →
  loadEntriesFromFile (sm_disk s') path = sm_fileEntries s ++ [FEntry e] ∧ e_body e = body ∧
  sm_leafId s' = Some (e_id e).
Proof.
  intros Hi HD Hb Hp Hf Hne E Hw. pose proof (append_body_mem body s) as Hm. rewrite E in Hm. cbn [fst] in Hm.
  pose proof (keeps_append_body body s Hi) as Hi'. rewrite E in Hi'.
  pose proof (append_body_eq body s) as Heq. rewrite E in Heq. cbn zeta in Heq.
  pose proof E as E2. apply append_dur in E2 as (HD'&Hl&Hbody&Hfl); [|done..].
  assert (Hproj : sm_persist s' = true ∧ sm_sessionFile s' = Some path).
  { injection Hm. intros. split; congruence. }
  destruct Hproj as [Hp' Hf']. split_and!; [|done|].
  - rewrite <-Hl. apply load_disk_ok; [apply Hi'|done..|]. apply Hfl; [done| |done].
    rewrite Hf. by destruct path.
  - rewrite <-(same_mem_leaf _ _ Hm). destruct (_persist _ _) as [? [?|?]]; [|done].
    by injection Heq as _ ->.
Qed.


Lemma getEntry_same s s' id : WF s → WF s' → sm_fileEntries s' = sm_fileEntries s → getEntry s' id = getEntry s id.
Proof.
  intros [Hs _] [Hs' _] Hf. unfold getEntry. rewrite Hf in *.
  assert (jm_get (sm_byId s') id = jm_get (sm_byId s) id) as ->; [|done].
  apply option_eq. intros i. by rewrite (wf_byId _ _ Hs'), (wf_byId _ _ Hs).
Qed.

(** C8: opening the file of a flushed session of the current version gives a
    session with the same entries, the same entry behind every id, the file's
    session id, and the last entry as its leaf; the file is not touched. *)
Theorem reopen_session `{UuidLaws} s s1 path h :
  inv s → Dur s → sm_persist s = true → sm_sessionFile s = Some path → path ≠ [] → sm_flushed s = true →
  path_resolve path = path → sm_disk s1 = sm_disk s → find_header (sm_fileEntries s) = Some h →
  sh_version h = Some CURRENT_SESSION_VERSION →
  truthy (sh_parentSession h) && negb (isValidRlmDepth (sh_rlmDepth h)) = false →
  ∃ s', setSessionFile path None s1 = (s', Ok tt) ∧
    sm_fileEntries s' = sm_fileEntries s ∧ WF s' ∧ (∀ id, getEntry s' id = getEntry s id) ∧
    Some (sm_sessionId s') = sh_id h ∧ sm_leafId s' = e_id <$> last (getEntries s) ∧
    sm_disk s' = sm_disk s ∧ sm_flushed s' = true.
Proof.
  intros Hi HD Hp Hf Hne Hfl Hres Hdisk Hh Hv Hlegacy.
  pose proof (load_disk_ok s path (proj1 Hi) HD Hp Hf Hne Hfl) as Hload.
  assert (Hex : existsSync path (set_sessionFile (Some path) s1) = true).
  { unfold existsSync. change (sm_disk (set_sessionFile _ s1)) with (sm_disk s1). rewrite Hdisk.
    destruct (dur_disk _ HD path Hp Hf Hne Hfl) as (D&HDk&_). unfold jm_has. rewrite HDk.
    by apply bool_decide_true. }
  pose proof Hi as [[Hs Hl] _]. destruct (wf_header _ _ Hs) as (h0&rest&Hfe&Hid).
  rewrite Hfe in Hh. injection Hh as ->. destruct Hid as [sid Hsid].
  destruct (index_entries_wf h rest) as (byId&ls&ts&Hidx&Hwf);
    [by rewrite Hsid|by rewrite <-Hfe; apply Hs..|].
  unfold setSessionFile. rewrite Hres. unfold mbind, eff_bind, emodify, eget, egets. cbn iota beta.
  rewrite Hex. change (sm_disk (set_sessionFile _ s1)) with (sm_disk s1). rewrite Hdisk.
  cbn [default]. rewrite Hload, Hfe. cbn [sm_fileEntries set_fileEntries find_header head omap list_omap].
  cbn. rewrite Hsid. cbn. unfold migrate_entries, migrateToCurrentVersion. cbn. rewrite Hv. cbn.
  rewrite Hlegacy. cbn. unfold _buildIndex, emodify. cbn. rewrite Hidx. cbn.
  eexists. split; [reflexivity|].
  assert (HWF : ∀ s', sm_fileEntries s' = FHeader h :: (FEntry <$> rest) → sm_byId s' = byId →
    sm_leafId s' = e_id <$> last rest → WF s').
  { intros s' E1 E2 E3. split; rewrite E1; [by rewrite E2|]. intros id. rewrite E3. intros Hlast.
    destruct (last rest) as [e|] eqn:El; [|done]. injection Hlast as <-.
    unfold entry_ids, session_entries. cbn. fold (session_entries (FEntry <$> rest)).
    rewrite session_entries_FEntry. apply list_elem_of_fmap. exists e. split; [done|].
    rewrite last_lookup in El. by eapply list_elem_of_lookup_2. }
  split_and!; [done|by apply HWF| |done| |exact Hdisk|done].
  - intros id. apply getEntry_same; [apply Hi|by apply HWF|by rewrite Hfe].
  - unfold getEntries. rewrite Hfe. unfold session_entries. cbn. fold (session_entries (FEntry <$> rest)).
    by rewrite session_entries_FEntry.
Qed.

(** *** Concrete sessions *)

Definition demo_ops : list sm_op :=
  [OpMessage (demo_user (js "hi")); OpMessage (demo_assistant (js "yo"));
   OpAttribution (take 8 (randomUUID 1)) emptyUsage emptyUsage None; OpSessionInfo (js " n ")].

Definition demo_path : jsstr := path_join (js "/d") (uuidv7 1 ++ js ".jsonl").

Lemma demo_start_inv faults : inv (demo_start faults) ∧ Dur (demo_start faults).
Proof.
  pose proof (newSession_dur None (blank (js "/cwd") (js "/d") true (demo_world faults)) I) as Hn.
  exact Hn.
Qed.

(** Decides whether each step of a sequence returned. *)
Fixpoint stepsb (s : SM) (ops : list sm_op) : bool :=
  match ops with
  | [] => true
  | o :: ops =>
      in_session o && (match (run_op o s).2 with Ok _ => true | Throw _ => is_rollback_op o end)
      && stepsb (run_op o s).1 ops
  end.

Lemma stepsb_steps s ops : stepsb s ops = true → session_steps s ops (run_ops ops s).
Proof.
  revert s. induction ops as [|o ops IH]; intros s; cbn; [constructor|].
  rewrite !andb_true_iff. intros [[Hin Hr] Hs]. destruct (run_op o s) as [s1 r] eqn:E. cbn in *.
  eapply steps_cons; [done|done| |by apply IH]. destruct r as [[]|x]; [by left|by right].
Qed.

Lemma session_file_in_sync_witness :
  loadEntriesFromFile (sm_disk (run_ops demo_ops (demo_start []))) demo_path =
  sm_fileEntries (run_ops demo_ops (demo_start [])).
Proof.
  apply (session_file_in_sync (js "/cwd") (js "/d") true None (blank [] [] false (demo_world []))
           (demo_start []) demo_ops).
  - vm_compute. reflexivity.
  - apply stepsb_steps. vm_compute. reflexivity.
  - vm_compute. reflexivity.
  - vm_compute. reflexivity.
  - discriminate.
  - vm_compute. reflexivity.
Defined.

(** The session after [demo_ops], evaluated. *)
Definition demo_session : SM := Eval vm_compute in run_ops demo_ops (demo_start []).

Lemma demo_session_inv : inv demo_session ∧ Dur demo_session.
Proof.
  assert (demo_session = run_ops demo_ops (demo_start [])) as -> by (vm_compute; reflexivity).
  eapply session_steps_dur; [apply stepsb_steps; vm_compute; reflexivity|apply demo_start_inv..].
Qed.

Lemma append_reaches_disk_witness :
  let r := append_body (BMessage (demo_user (js "next"))) demo_session in
  let e := new_entry (BMessage (demo_user (js "next"))) demo_session in
  loadEntriesFromFile (sm_disk r.1) demo_path = sm_fileEntries demo_session ++ [FEntry e] ∧
  e_body e = BMessage (demo_user (js "next")) ∧ sm_leafId r.1 = Some (e_id e).
Proof.
  destruct demo_session_inv as [Hi HD].
  apply (append_reaches_disk (BMessage (demo_user (js "next"))) demo_session _
           (new_entry (BMessage (demo_user (js "next"))) demo_session) demo_path Hi HD eq_refl);
    [vm_compute; reflexivity|vm_compute; reflexivity|discriminate|vm_compute; reflexivity|vm_compute; reflexivity].
Defined.


Lemma reopen_session_witness :
  ∃ s', setSessionFile demo_path None (blank [] [] true (sm_world demo_session)) = (s', Ok tt) ∧
    sm_fileEntries s' = sm_fileEntries demo_session.
Proof.
  destruct demo_session_inv as [Hi HD].
  destruct (reopen_session demo_session (blank [] [] true (sm_world demo_session)) demo_path
    (MkSessionHeader (Some 3) (Some (uuidv7 1)) 0 (js "/cwd") None (Some 0) None) Hi HD) as (s'&?&?&_);
    [reflexivity|vm_compute; reflexivity|discriminate|reflexivity|reflexivity
    |reflexivity|vm_compute; reflexivity|reflexivity|reflexivity|by exists s'].
Defined.

(** A plain append whose write fails leaves its entry in memory and the
    session flushed, so the next append writes a child whose parent the file
    lacks: here memory shows a branch of four entries, and the reopened session
    shows one. *)
Theorem failed_append_loses_history :
  let s := run_ops [OpMessage (demo_user (js "hi")); OpMessage (demo_assistant (js "yo"));
                    OpMessage (demo_user (js "lost")); OpMessage (demo_assistant (js "last"))]
             (demo_start [NoFault; FailClean; NoFault]) in
  let s' := (setSessionFile demo_path None (blank [] [] true (sm_world s))).1 in
  length <$> getBranch s None = Some 4%nat ∧ length <$> getBranch s' None = Some 1%nat.
Proof. vm_compute. split; reflexivity. Qed.
