(* ===== verification/GoalSpec.v ===== *)
(** * Goals: the theorems

    The invariant of the goal and of the goals recorded in the session, and the
    life of a goal ([goal_lifecycle]): what its status, its budget and its
    counts can become under any sequence of operations, in which writes may
    fail.  [goal_survives_restart]: a goal that was set is read back from the
    reopened file.  [usage_accounted]: each message counts once and only until
    the budget is reached.  [objective_cannot_close_its_tag]: the text a user
    gives as objective stays inside its element of the prompt. *)

From S2P Require Import Prelude.
From S2P Require Import Eff.
From S2P Require Import JsMap.
From S2P Require Import JsString.
From S2P Require Import Json.
From S2P Require Import Messages.
From S2P Require Import SlashCommands.
From S2P Require Import Goals.
From S2P Require Import SessionEntry.
From S2P Require Import SessionManager.
From S2P Require Import SessionInvariant.
From S2P Require Import SessionDurability.
From S2P Require Import GoalSession.

(** ** Goals *)

(** A goal as the program makes them.  [ok_room]: an active or paused goal has
    budget left, a budget-limited one has none. *)
Record goal_ok (g : GoalState) : Prop := {
  ok_active : active g = bool_decide (status g = GActive);
  ok_counts : 0 <= tokensUsed g ∧ 0 <= timeUsedSeconds g ∧ 0 <= continuationsUsed g;
  ok_objective : status g ≠ GIdle → ∃ o, objective g = Some o ∧ validateGoalObjective o = Ok o;
  ok_idle : status g = GIdle → objective g = None;
  ok_budget : ∀ b, tokenBudget g = Some b → 0 < b;
  ok_room : status g = GActive ∨ status g = GPaused → exhausted g = false;
  ok_limited : status g = GBudgetLimited → exhausted g = true
}.

(** What may become of a status. *)
Definition may_become (a b : GoalStatus) : bool :=
  match a, b with
  | (GActive | GPaused), (GActive | GPaused | GBudgetLimited | GComplete | GError) => true
  | GBudgetLimited, (GBudgetLimited | GComplete) => true
  | GError, (GError | GComplete) => true
  | GComplete, GComplete => true
  | GIdle, GIdle => true
  | _, _ => false
  end.

(** A goal whose work is not over. *)
Definition running (st : GoalStatus) : bool := match st with GActive | GPaused => true | _ => false end.

(** The life of one goal. *)
Record evolves (g g' : GoalState) : Prop := {
  ev_objective : objective g' = objective g;
  ev_budget : tokenBudget g' = tokenBudget g;
  ev_created : createdAt g' = createdAt g;
  ev_status : may_become (status g) (status g') = true;
  ev_tokens : tokensUsed g <= tokensUsed g';
  ev_time : timeUsedSeconds g <= timeUsedSeconds g';
  ev_over : running (status g) = false → tokensUsed g' = tokensUsed g ∧ timeUsedSeconds g' = timeUsedSeconds g
}.

Lemma may_become_trans a b c : may_become a b = true → may_become b c = true → may_become a c = true.
Proof. by destruct a, b, c. Qed.

Lemma may_become_over a b : may_become a b = true → running a = false → running b = false.
Proof. by destruct a, b. Qed.

Lemma evolves_trans g1 g2 g3 : evolves g1 g2 → evolves g2 g3 → evolves g1 g3.
Proof.
  intros [A1 A2 A3 A4 A5 A6 A7] [B1 B2 B3 B4 B5 B6 B7]. split; [congruence..| |lia|lia|].
  - by eapply may_become_trans.
  - intros Hr. destruct (A7 Hr). destruct B7; [by eapply may_become_over|]. split; congruence.
Qed.

Lemma evolves_refl g : evolves g g.
Proof. split; [done..|by destruct (status g)|done|done|done]. Qed.

Lemma normalize_ok g : goal_ok g → normalizeGoalState g = g.
Proof. intros [Ha (?&?&?) _ _ _ _ _]. destruct g; unfold normalizeGoalState; cbn in *. f_equal; [done|lia..]. Qed.

Lemma goal_ok_updatedAt g t : goal_ok g → goal_ok (with_updatedAt t g).
Proof. by intros [???????]; split. Qed.

Lemma empty_ok : goal_ok emptyGoalState.
Proof. split; cbn; [done|done|done|done|done| |done]. by intros [?|?]. Qed.

(** *** The persisted form *)

Lemma status_of_text st : status_of (Some (JStr (status_text st))) = Some st.
Proof. by destruct st. Qed.

Lemma goal_json_persisted g : isPersistedGoalState (Some (goal_json g)) = true ∧ goal_of_json (Some (goal_json g)) = g.
Proof.
  destruct g as [a st id o b tu ts c cr up lr le].
  assert (∀ s rest, status_of (jm_get ((js "active", JBool a) :: (js "status", JStr (status_text s)) :: rest) (js "status"))
    = Some s) as Hst by (intros; apply status_of_text).
  unfold isPersistedGoalState, goal_of_json, goal_json, fields_of. cbn [active status goalId objective tokenBudget
    tokensUsed timeUsedSeconds continuationsUsed createdAt updatedAt lastReason lastError app].
  cbv zeta. match goal with |- context [default [] (Some ?r)] => change (default [] (Some r)) with r end.
  rewrite !Hst. destruct id, o, b, cr, up, lr, le; split; reflexivity.
Qed.

Lemma goal_entry_json g e : e_body e = BCustom GOAL_STATE_CUSTOM_TYPE (Some (goal_json g)) →
  goal_entry e = Some (normalizeGoalState g).
Proof.
  intros He. unfold goal_entry. rewrite He, bool_decide_true by done.
  by destruct (goal_json_persisted g) as [-> ->].
Qed.

Lemma goal_entry_of g id p t : goal_ok g →
  goal_entry (MkSessionEntry id p t (BCustom GOAL_STATE_CUSTOM_TYPE (Some (goal_json g)))) = Some g.
Proof. intros Hg. rewrite (goal_entry_json g) by done. by rewrite normalize_ok. Qed.

Lemma normalize_idem g : normalizeGoalState (normalizeGoalState g) = normalizeGoalState g.
Proof. unfold normalizeGoalState. cbn. f_equal; lia. Qed.

(** ** The session behind a goal *)

Section goal.
Context {W : Type} `{GoalHost W} `{UuidLaws}.

(** The entries an operation adds to a session, and what it leaves alone. *)
Record appends (l : list SessionEntry) (m m' : SM) : Prop := {
  ap_inv : inv m → inv m';
  ap_entries : sm_fileEntries m' = sm_fileEntries m ++ (FEntry <$> l);
  ap_leaf : sm_leafId m' = match last l with Some e => Some (e_id e) | None => sm_leafId m end;
  ap_persist : sm_persist m' = sm_persist m;
  ap_file : sm_sessionFile m' = sm_sessionFile m;
  ap_uuids : (w_uuids (sm_world m) <= w_uuids (sm_world m'))%nat
}.

(** An operation that neither writes nor changes the entries. *)
Definition quiet (m m' : SM) : Prop :=
  appends [] m m' ∧ sm_byId m' = sm_byId m ∧ sm_flushed m' = sm_flushed m ∧ sm_disk m' = sm_disk m.

Lemma quiet_refl m : quiet m m.
Proof. split; [split|]; cbn; rewrite ?app_nil_r; done. Qed.

Lemma quiet_trans m1 m2 m3 : quiet m1 m2 → quiet m2 m3 → quiet m1 m3.
Proof.
  intros ([A1 A2 A3 A4 A5 A6]&A7&A8&A9) ([B1 B2 B3 B4 B5 B6]&B7&B8&B9).
  cbn in *. rewrite app_nil_r in A2, B2. split; [split; cbn; rewrite ?app_nil_r; auto; try congruence; lia|].
  split_and!; congruence.
Qed.

Lemma appends_quiet l m1 m2 m3 : appends l m1 m2 → quiet m2 m3 → appends l m1 m3.
Proof.
  intros [A1 A2 A3 A4 A5 A6] ([B1 B2 B3 B4 B5 B6]&B7&B8&B9). cbn in *. rewrite app_nil_r in B2.
  split; auto; try congruence; lia.
Qed.

Lemma quiet_appends l m1 m2 m3 : quiet m1 m2 → appends l m2 m3 → appends l m1 m3.
Proof.
  intros ([A1 A2 A3 A4 A5 A6]&_) [B1 B2 B3 B4 B5 B6]. cbn in A2, A3. rewrite app_nil_r in A2.
  split; auto; try congruence; [|lia]. rewrite B3, A3. done.
Qed.

Lemma quiet_now m : quiet m (now_ms m).1.
Proof.
  split; [split|]; cbn; rewrite ?app_nil_r; try done. intros Hi. by apply (inv_frame m).
Qed.

Lemma quiet_uuid m : quiet m (random_uuid m).1.
Proof.
  split; [split|]; cbn; rewrite ?app_nil_r; try done; [|lia]. intros [[Hs Hl] Hf]. split; [by split|]. cbn.
  intros k Hk. apply Hf. lia.
Qed.

Lemma quiet_dur m m' : quiet m m' → Dur m → Dur m'.
Proof.
  intros ([_ A2 _ A4 A5 _]&_&A8&A9). cbn in A2. rewrite app_nil_r in A2. by apply Dur_frame.
Qed.

Lemma quiet_branch m m' : quiet m m' → branch_entries m' = branch_entries m.
Proof.
  intros ([_ A2 A3 _ _ _]&A7&_). cbn in A2, A3. rewrite app_nil_r in A2.
  unfold branch_entries, getBranch, walk_from, walk_fuel, getEntry. by rewrite A2, A3, A7.
Qed.

(** What [_persistGoalState] does to the session. *)
Definition persist_goal (g : GoalState) : M unit :=
  appendCustomEntry GOAL_STATE_CUSTOM_TYPE (Some (goal_json g));; flushNow.

Lemma persistGoalState_eq g (s : GoalSession W) :
  _persistGoalState g s =
  let '(m, r) := persist_goal g (gs_session s) in
  (set_session m s, match r with Ok a => Ok a | Throw e => Throw (sm_message e) end).
Proof.
  unfold _persistGoalState, persist_goal, in_session, mbind, eff_bind.
  destruct (appendCustomEntry _ _ (gs_session s)) as [m [a|e]]; [|done]. cbn.
  by destruct (flushNow m) as [m' [?|?]].
Qed.

Lemma silent_mem_appends {A} (m : M A) l s0 s : silent m → appends l s0 s → appends l s0 (m s).1.
Proof.
  intros Hs [A1 A2 A3 A4 A5 A6]. specialize (Hs s). injection Hs. intros. split; try congruence.
  intros Hi. rewrite <-Hs. auto.
Qed.

Lemma generateId_uuids has n : (n <= (generateId randomUUID has n).2)%nat.
Proof.
  unfold generateId. assert (∀ t k, (k <= (generateId_loop randomUUID t has k).2)%nat) as Hl; [|apply Hl].
  intros t. induction t as [|t IH]; intros k; cbn; [lia|]. destruct (has _); cbn; [|lia]. specialize (IH (S k)). lia.
Qed.

Lemma append_body_appends body m : appends [new_entry body m] m (append_body body m).1.
Proof.
  rewrite append_body_eq. cbn zeta.
  assert (appends [new_entry body m] m (push_entry (new_entry body m) (after_new_entry m))) as Hp.
  { split; cbn; [apply push_entry_inv|done..|]. apply generateId_uuids. }
  pose proof (silent_mem_appends (_persist (new_entry body m)) _ m _ (silent_persist _) Hp) as Hq.
  by destruct (_persist _ _) as [m' [[]|x]].
Qed.

Lemma persist_goal_spec g m : ∃ e, e_body e = BCustom GOAL_STATE_CUSTOM_TYPE (Some (goal_json g)) ∧
  appends [e] m (persist_goal g m).1.
Proof.
  exists (new_entry (BCustom GOAL_STATE_CUSTOM_TYPE (Some (goal_json g))) m). split; [done|].
  pose proof (append_body_appends (BCustom GOAL_STATE_CUSTOM_TYPE (Some (goal_json g))) m) as Ha.
  unfold persist_goal, appendCustomEntry, fmap, eff_fmap, mbind, eff_bind.
  destruct (append_body _ m) as [m' [e|x]]; [|done]. cbn.
  apply (silent_mem_appends flushNow) in Ha; [done|apply silent_flushNow].
Qed.

Lemma persist_goal_dur g m m' : inv m → Dur m → persist_goal g m = (m', Ok tt) →
  Dur m' ∧ (sm_persist m = true → truthy (sm_sessionFile m) = true → sm_flushed m' = true).
Proof.
  intros Hi HD. unfold persist_goal, appendCustomEntry, fmap, eff_fmap, mbind, eff_bind.
  pose proof (append_body_appends (BCustom GOAL_STATE_CUSTOM_TYPE (Some (goal_json g))) m) as Ha.
  destruct (append_body _ m) as [m1 [e|x]] eqn:E; [|done]. cbn in Ha. intros Hf.
  pose proof (append_dur (BCustom GOAL_STATE_CUSTOM_TYPE (Some (goal_json g))) m m1 e eq_refl Hi HD E) as (HD1&_).
  destruct (flushNow_dur m1 (ap_inv _ _ _ Ha Hi) HD1) as [HD2 Hfl]. rewrite Hf in HD2, Hfl.
  split; [done|]. intros Hp Hs. apply Hfl; [done|..]; by rewrite ?(ap_persist _ _ _ Ha), ?(ap_file _ _ _ Ha).
Qed.

(** ** Operations that leave the goal alone *)

#[local] Abbreviation GS := (GoalSession W).
#[local] Abbreviation G := (eff GS jsstr).

Definition still (s s' : GS) : Prop :=
  gs_goal s' = gs_goal s ∧ gs_startedAt s' = gs_startedAt s ∧ quiet (gs_session s) (gs_session s').

Lemma still_refl s : still s s.
Proof. split_and!; [done..|apply quiet_refl]. Qed.
Lemma still_trans s1 s2 s3 : still s1 s2 → still s2 s3 → still s1 s3.
Proof. intros (A1&A2&A3) (B1&B2&B3). split_and!; [congruence..|by eapply quiet_trans]. Qed.

Definition calm {A} (m : G A) : Prop := ∀ s, still s (m s).1.

Lemma calm_ret {A} (a : A) : calm (mret a).
Proof. intros s. apply still_refl. Qed.
Lemma calm_throw {A} e : calm (ethrow (A:=A) e).
Proof. intros s. apply still_refl. Qed.
Lemma calm_lift {A} (r : result jsstr A) : calm (elift r).
Proof. intros s. apply still_refl. Qed.
Lemma calm_get : calm eget.
Proof. intros s. apply still_refl. Qed.
Lemma calm_gets {A} (f : GS → A) : calm (egets f).
Proof. intros s. apply still_refl. Qed.
Lemma calm_modify f : (∀ s, still s (f s)) → calm (emodify f).
Proof. done. Qed.
Lemma calm_host {A} (f : W → W * result jsstr A) : calm (in_host f).
Proof. intros s. unfold in_host. destruct (f (gs_host s)) as [w r]. split_and!; [done..|apply quiet_refl]. Qed.
Lemma calm_host_do f : calm (host_do f).
Proof. intros s. split_and!; [done..|apply quiet_refl]. Qed.
Lemma calm_bind {A B} (m : G A) (f : A → G B) : calm m → (∀ a, calm (f a)) → calm (m ≫= f).
Proof.
  intros Hm Hf s. specialize (Hm s). unfold mbind, eff_bind. destruct (m s) as [s' [a|e]]; [|done].
  eapply still_trans; [exact Hm|apply Hf].
Qed.
Lemma calm_when b m : calm m → calm (ewhen b m).
Proof. destruct b; [done|]. intros _. apply calm_ret. Qed.
Lemma calm_date_now : calm date_now.
Proof. intros s. split_and!; [done..|]. apply quiet_now. Qed.
Lemma calm_fields f : (∀ s, gs_goal (f s) = gs_goal s ∧ gs_startedAt (f s) = gs_startedAt s ∧ gs_session (f s) = gs_session s) →
  calm (emodify f).
Proof. intros Hf s. destruct (Hf s) as (?&?&Hs). split_and!; [done..|]. cbn. rewrite Hs. apply quiet_refl. Qed.

(** Splits a method into its primitive steps. *)
Ltac calm_tac :=
  repeat first
    [ apply calm_bind; [|intros ?] | apply calm_when | apply calm_ret | apply calm_throw | apply calm_lift
    | apply calm_get | apply calm_gets | apply calm_host | apply calm_host_do | apply calm_date_now
    | (apply calm_fields; intros ?; split_and!; reflexivity) | case_match ].

Lemma calm_emitGoalUpdate : calm _emitGoalUpdate.
Proof. unfold _emitGoalUpdate, goalState. calm_tac. Qed.
Lemma calm_clearQueued : calm _clearQueuedGoalContexts.
Proof.
  unfold _clearQueuedGoalContexts. calm_tac. apply calm_fields. intros s. by destruct (cancelGoalContextActions _).
Qed.
Lemma calm_ensure c : calm (_ensureGoalRuntimeActive c).
Proof. unfold _ensureGoalRuntimeActive. calm_tac. Qed.
Lemma calm_context_message k i : calm (context_message k i).
Proof. unfold context_message. calm_tac. Qed.
Lemma calm_runOrQueue k i : calm (_runOrQueueGoalContext k i).
Proof. unfold _runOrQueueGoalContext. calm_tac; auto using calm_ensure, calm_context_message. Qed.

(** ** Setting the goal *)

(** The effect of [_setGoalState next], returned or thrown. *)
Record did_set (next : GoalState) (s s' : GS) (r : result jsstr unit) : Prop := {
  ds_goal : ∃ t, gs_goal s' = normalizeGoalState (with_updatedAt t next);
  ds_started : is_Some (gs_startedAt s') ↔ status next = GActive;
  ds_kept : ∀ t, gs_startedAt s = Some t → status next = GActive → gs_startedAt s' = Some t;
  ds_awaits : gs_awaits s' = gs_awaits s;
  ds_accounted : gs_accounted s' = gs_accounted s;
  ds_threshold : gs_threshold s' = gs_threshold s;
  ds_session : ∃ m1 m2 r2, quiet (gs_session s) m1 ∧ persist_goal (gs_goal s') m1 = (m2, r2) ∧
    quiet m2 (gs_session s') ∧ r = match r2 with Ok _ => Ok tt | Throw e => Throw (sm_message e) end
}.

Lemma emit_run s : ∃ w m, quiet (gs_session s) m ∧
  _emitGoalUpdate s = (set_host w (set_session m s), Ok tt).
Proof.
  eexists _, (now_ms (gs_session s)).1. split; [apply quiet_now|]. reflexivity.
Qed.

Lemma setGoal_tail g (s : GS) : ∃ w m2 m3 r2, persist_goal g (gs_session s) = (m2, r2) ∧ quiet m2 m3 ∧
  (_persistGoalState g;; _emitGoalUpdate) s =
  (set_host w (set_session m3 s), match r2 with Ok _ => Ok tt | Throw e => Throw (sm_message e) end).
Proof.
  destruct (persist_goal g (gs_session s)) as [m2 r2] eqn:E.
  assert ((_persistGoalState g;; _emitGoalUpdate) s =
    match r2 with Ok _ => _emitGoalUpdate (set_session m2 s) | Throw e => (set_session m2 s, Throw (sm_message e)) end) as ->.
  { unfold mbind at 1, eff_bind at 1. rewrite persistGoalState_eq, E. by destruct r2. }
  destruct r2 as [a|e].
  - destruct (emit_run (set_session m2 s)) as (w&m3&Hq&->). by exists w, m2, m3, (Ok a).
  - exists (gs_host s), m2, m2, (Throw e). split_and!; [done|apply quiet_refl|by destruct s].
Qed.

Lemma setGoalState_spec next s : did_set next s (_setGoalState next s).1 (_setGoalState next s).2.
Proof.
  set (t := now (w_ticks (sm_world (gs_session s)))).
  set (m1 := (now_ms (gs_session s)).1).
  set (g := normalizeGoalState (with_updatedAt t next)).
  set (s1 := set_goal g (set_session m1 s)).
  assert (∃ st m1', quiet (gs_session s) m1' ∧
    (is_Some st ↔ status next = GActive) ∧ (∀ t, gs_startedAt s = Some t → status next = GActive → st = Some t) ∧
    _setGoalState next s = (_persistGoalState g;; _emitGoalUpdate) (set_startedAt st (set_session m1' s1))) as (st&m1'&Hq&Hst&Hk&->).
  { unfold _setGoalState. unfold mbind at 1, eff_bind at 1. cbn [date_now in_session now_ms]. cbv zeta.
    change (status (normalizeGoalState _)) with (status next). unfold mbind at 1, eff_bind at 1. cbn [emodify].
    case_bool_decide as Ha.
    - unfold mbind at 1, eff_bind at 1, mbind at 1, eff_bind at 1, egets.
      change (gs_startedAt (set_goal _ _)) with (gs_startedAt s). destruct (gs_startedAt s) as [t0|] eqn:Es.
      + exists (Some t0), m1. split_and!; [apply quiet_now|by split; eauto|by intros ? [= <-]|].
        unfold s1. by destruct s; cbn in *; subst.
      + exists (Some (now (w_ticks (sm_world m1)))), (now_ms m1).1.
        split_and!; [by eapply quiet_trans; apply quiet_now|by split; eauto|done|].
        reflexivity.
    - exists None, m1. split_and!; [apply quiet_now|by split; [intros []|]|done|]. reflexivity. }
  destruct (setGoal_tail g (set_startedAt st (set_session m1' s1))) as (w&m2&m3&r2&Hp&Hq2&->).
  cbn. split; cbn; [by exists t|done|done|done|done|done|]. by exists m1', m2, r2.
Qed.

(** ** The invariant and the life of a goal *)

Definition recorded_ok (m : SM) : Prop :=
  ∀ e g, FEntry e ∈ sm_fileEntries m → goal_entry e = Some g → goal_ok g.

Record GInv (s : GS) : Prop := {
  gi_goal : goal_ok (gs_goal s);
  gi_started : is_Some (gs_startedAt s) ↔ status (gs_goal s) = GActive;
  gi_session : inv (gs_session s);
  gi_recorded : recorded_ok (gs_session s)
}.

(** [g] is well formed and, when it is the goal [g0], a later state of it. *)
Definition good (g0 g : GoalState) : Prop :=
  goal_ok g ∧ (is_Some (goalId g0) → goalId g = goalId g0 → evolves g0 g).

(** The identifier of [g0] is not one still to be generated. *)
Definition old_id (g0 : GoalState) (m : SM) : Prop :=
  ∀ k, (w_uuids (sm_world m) <= k)%nat → goalId g0 ≠ Some (randomUUID k).

Record Life (g0 : GoalState) (s : GS) : Prop := {
  life_inv : GInv s;
  life_old : old_id g0 (gs_session s);
  life_good : good g0 (gs_goal s)
}.

Lemma good_step g0 g g' : good g0 g → goal_ok g' → goalId g' = goalId g → evolves g g' → good g0 g'.
Proof. intros [_ Hg] Hok Hid Hev. split; [done|]. intros Hs Hid'. eapply evolves_trans; [apply Hg|]; congruence. Qed.

Lemma recorded_quiet m m' : quiet m m' → recorded_ok m → recorded_ok m'.
Proof. intros ([_ E _ _ _ _]&_) Hr e g. cbn in E. rewrite E, app_nil_r. apply Hr. Qed.

Lemma old_id_le g0 m m' : (w_uuids (sm_world m) <= w_uuids (sm_world m'))%nat → old_id g0 m → old_id g0 m'.
Proof. intros Hle Ho k Hk. apply Ho. lia. Qed.

(** [Life], with the state of the goal. *)
Definition LifeAt (g0 g : GoalState) (s : GS) : Prop := Life g0 s ∧ gs_goal s = g.

Lemma life_frame g0 s s' : gs_goal s' = gs_goal s → (is_Some (gs_startedAt s') ↔ is_Some (gs_startedAt s)) →
  quiet (gs_session s) (gs_session s') → Life g0 s → Life g0 s'.
Proof.
  intros Hg Hst Hq [[Hok Hs Hi Hr] Ho Hgo]. split; [split|..]; rewrite ?Hg, ?Hst; try done.
  - by apply Hq.
  - by eapply recorded_quiet.
  - eapply old_id_le; [apply Hq|done].
Qed.

Lemma lifeAt_still g0 g s s' : still s s' → LifeAt g0 g s → LifeAt g0 g s'.
Proof. intros (Hg&Hst&Hq) [Hl <-]. split; [|done]. by apply (life_frame g0 s); rewrite ?Hst. Qed.

(** [m] ends in [Life g0], returned or thrown. *)
Definition lives {A} (g0 : GoalState) (P : GS → Prop) (m : G A) : Prop := hoare P m (λ _, Life g0) (λ _, Life g0).

Section lives.
Context (g0 : GoalState).

Lemma lives_open {A} (m : G A) : (∀ g, good g0 g → lives g0 (LifeAt g0 g) m) → lives g0 (Life g0) m.
Proof. intros Hm s Hs. apply (Hm (gs_goal s)); [apply Hs|by split]. Qed.

Lemma lives_calm {A} g (m : G A) : calm m → lives g0 (LifeAt g0 g) m.
Proof.
  intros Hm s Hs. pose proof (lifeAt_still g0 g _ _ (Hm s) Hs) as [Hl _]. by destruct (m s) as [s' [a|e]].
Qed.

Lemma lives_calm_bind {A B} g (m : G A) (k : A → G B) :
  calm m → (∀ a, lives g0 (LifeAt g0 g) (k a)) → lives g0 (LifeAt g0 g) (m ≫= k).
Proof.
  intros Hm Hk s Hs. pose proof (lifeAt_still g0 g _ _ (Hm s) Hs) as Hl. unfold mbind, eff_bind.
  destruct (m s) as [s' [a|e]]; [by apply Hk|apply Hl].
Qed.

Lemma lives_bind {A B} P (m : G A) (k : A → G B) :
  lives g0 P m → (∀ a, lives g0 (Life g0) (k a)) → lives g0 P (m ≫= k).
Proof. intros Hm Hk. by eapply hoare_bind. Qed.

Lemma lives_catch {A} P (m : G A) h :
  lives g0 P m → (∀ e, lives g0 (Life g0) (h e)) → lives g0 P (ecatch m h).
Proof. intros Hm Hh. by eapply hoare_catch. Qed.

Lemma lives_read {A} g (k : GoalState → G A) :
  lives g0 (LifeAt g0 g) (k g) → lives g0 (LifeAt g0 g) (egets gs_goal ≫= k).
Proof. intros Hk s [Hs <-]. by apply Hk. Qed.

Lemma lives_get {A} g (k : GS → G A) :
  (∀ s, gs_goal s = g → lives g0 (LifeAt g0 g) (k s)) → lives g0 (LifeAt g0 g) (eget ≫= k).
Proof. intros Hk s [Hs <-]. by apply Hk. Qed.

Lemma hoare_set next : good g0 (normalizeGoalState next) →
  lives g0 (λ s, inv (gs_session s) ∧ recorded_ok (gs_session s) ∧ old_id g0 (gs_session s)) (_setGoalState next).
Proof.
  intros [Hok Hgood] s (Hi&Hr&Ho). pose proof (setGoalState_spec next s) as Hds.
  assert (Life g0 (_setGoalState next s).1) as Hl; [|by destruct (_setGoalState next s) as [s' [[]|e]]].
  destruct Hds as [[t Hg] Hst _ _ _ _ (m1&m2&r2&Hq1&Hp&Hq2&_)]. revert Hg Hst Hp Hq2.
  generalize ((_setGoalState next s).1). intros s' Hg Hst Hp Hq2.
  destruct (persist_goal_spec (gs_goal s') m1) as (e&He&Ha). rewrite Hp in Ha. cbn in Ha.
  pose proof (appends_quiet _ _ _ _ Ha Hq2) as Ha'.
  assert (goal_ok (gs_goal s')) as Hok' by (rewrite Hg; by apply (goal_ok_updatedAt _ t) in Hok).
  split; [split|..].
  - done.
  - rewrite Hst, Hg. done.
  - by apply Ha', Hq1.
  - intros x g. rewrite (ap_entries _ _ _ Ha'), elem_of_app. cbn. rewrite list_elem_of_singleton.
    intros [Hin|[= ->]]; [by apply (recorded_quiet _ _ Hq1 Hr)|].
    destruct e as [id p t' b]. cbn in He. subst b. rewrite goal_entry_of by done. by intros [= <-].
  - eapply old_id_le; [|done]. etrans; [apply Hq1|apply Ha'].
  - split; [done|]. rewrite Hg. intros Hs Hid. destruct (Hgood Hs Hid) as [???????]; by split.
Qed.

Lemma lives_set g next : good g0 (normalizeGoalState next) → lives g0 (LifeAt g0 g) (_setGoalState next).
Proof.
  intros Hn. eapply hoare_conseq; [by apply hoare_set|..]; [|done..].
  intros s [[[]] _]. by split_and!.
Qed.

Lemma lives_clock {A} g (k : GoalState → G A) :
  (∀ n, 0 <= n → (n ≠ 0 → status g = GActive) → lives g0 (LifeAt g0 g) (k (with_timeUsed (timeUsedSeconds g + n) g))) →
  lives g0 (LifeAt g0 g) (_goalWithAccountedWallClock ≫= k).
Proof.
  intros Hk s [Hs <-].
  set (t := now (w_ticks (sm_world (gs_session s)))). set (m1 := (now_ms (gs_session s)).1).
  pose proof (quiet_now (gs_session s)) as Hq. fold m1 in Hq.
  unfold mbind, eff_bind, _goalWithAccountedWallClock. unfold mbind, eff_bind, date_now, in_session. cbn [now_ms].
  fold m1 t. unfold eget. unfold _goalWithCurrentWallClock.
  change (elapsed_seconds (set_session _ s) t) with (elapsed_seconds s t).
  destruct (elapsed_seconds s t) as [n|] eqn:E.
  - rewrite bool_decide_true by done. cbn. apply Hk.
    + unfold elapsed_seconds in E. repeat case_match; simplify_eq; lia.
    + intros _. unfold elapsed_seconds in E. repeat case_match; try done.
      match goal with Hb : _ && _ = true |- _ => apply andb_true_iff in Hb as [Hb%bool_decide_eq_true_1 _] end. done.
    + split; [|done]. apply (life_frame g0 s); [done| |done|done]. cbn. unfold elapsed_seconds in E.
      destruct (gs_startedAt s); [split; eauto|done].
  - rewrite bool_decide_false by (by intros []). cbn.
    specialize (Hk 0 ltac:(lia) ltac:(done)).
    replace (with_timeUsed (timeUsedSeconds (gs_goal s) + 0) (gs_goal s)) with (gs_goal s) in Hk
      by (destruct (gs_goal s); unfold with_timeUsed; cbn; f_equal; lia).
    apply Hk. split; [|done]. by apply (life_frame g0 s).
Qed.

(** *** The methods *)

(** The goal [next] that a method makes from [g]. *)
Lemma good_next g next : good g0 g → goalId next = goalId g → objective next = objective g →
  tokenBudget next = tokenBudget g → createdAt next = createdAt g → tokensUsed g <= tokensUsed next →
  timeUsedSeconds g <= timeUsedSeconds next → may_become (status g) (status next) = true →
  (running (status g) = false → tokensUsed next = tokensUsed g ∧ timeUsedSeconds next = timeUsedSeconds g) →
  (running (status next) = true → exhausted next = false) →
  (status next = GBudgetLimited → exhausted next = true) →
  good g0 (normalizeGoalState next).
Proof.
  intros Hg Hid Ho Hb Hc Ht Hs Hm Hov Hroom Hlim. pose proof Hg as [[_ (Ht0&Hs0&_) Hob Hidle Hbud _ _] _].
  assert (exhausted (normalizeGoalState next) = exhausted next) as He
    by (unfold exhausted; cbn; by rewrite Z.max_r by lia).
  apply (good_step g0 g); [done| |done|].
  - split; rewrite ?He; cbn; rewrite ?Ho, ?Hb; [done|lia| | |done| |done].
    + intros Hne. apply Hob. intros E. rewrite E in Hm. by destruct (status next).
    + intros E. apply Hidle. rewrite E in Hm. by destruct (status g).
    + intros Hr. apply Hroom. destruct Hr as [->| ->]; done.
  - split; cbn; try done; [lia|lia|]. intros Hr. destruct (Hov Hr). lia.
Qed.

Lemma may_become_refl st : may_become st st = true.
Proof. by destruct st. Qed.

(** A change of the continuations or of texts only. *)
Lemma good_continuations g n reason error : good g0 g → good g0 (normalizeGoalState (with_continuations n reason error g)).
Proof.
  intros Hg. pose proof Hg as [Hok _]. apply (good_next g); cbn; try done; [apply may_become_refl| |].
  - intros Hr. apply (ok_room _ Hok). destruct (status g); auto; done.
  - apply (ok_limited _ Hok).
Qed.

(** The wall clock and a new status that is not active. *)
Lemma good_status g n st reason error : good g0 g → 0 <= n → (n ≠ 0 → status g = GActive) →
  may_become (status g) st = true → running st = false ∨ (status g = GActive ∧ st = GPaused) → st ≠ GBudgetLimited →
  good g0 (normalizeGoalState (with_status false st reason error (with_timeUsed (timeUsedSeconds g + n) g))).
Proof.
  intros Hg Hn Hact Hm Hst Hne. pose proof Hg as [Hok _]. apply (good_next g); cbn; try done; [lia| |].
  - intros Hr. split; [done|]. destruct (decide (n = 0)) as [->|Hn']; [lia|]. by rewrite (Hact Hn') in Hr.
  - intros Hr. destruct Hst as [?|[Ha ->]]; [congruence|]. apply (ok_room _ Hok). by left.
Qed.

Lemma lives_emit g : lives g0 (LifeAt g0 g) _emitGoalUpdate.
Proof. apply lives_calm, calm_emitGoalUpdate. Qed.

Lemma lives_ret {A} P (a : A) : (∀ s, P s → Life g0 s) → lives g0 P (mret a).
Proof. intros HP s Hs. by apply HP. Qed.

Lemma lives_done {A} (a : A) : lives g0 (Life g0) (mret a).
Proof. by apply lives_ret. Qed.

Lemma lives_pause reason : lives g0 (Life g0) (_pauseGoal reason).
Proof.
  apply lives_open. intros g Hg. unfold _pauseGoal. apply lives_calm_bind; [apply calm_clearQueued|intros []].
  apply lives_read. case_bool_decide as Ha; cbn [negb]; [|apply lives_emit].
  apply lives_clock. intros n Hn Hact. apply lives_set. apply good_status; [done..|by rewrite Ha| |done]. by right.
Qed.

Lemma lives_clear : lives g0 (Life g0) _clearGoal.
Proof.
  apply lives_open. intros g Hg. unfold _clearGoal. apply lives_calm_bind; [apply calm_clearQueued|intros []].
  apply lives_set. split; [apply empty_ok|]. cbn. intros [id Hid]. by rewrite Hid.
Qed.

Lemma lives_finishError e g : good g0 g → lives g0 (LifeAt g0 g) (_finishGoalWithError e).
Proof.
  intros Hg. unfold _finishGoalWithError. apply lives_read. case_bool_decide as Ha; cbn [negb]; [|rewrite orb_true_r; apply lives_calm, calm_ret].
  destruct (has_objective g); cbn [negb orb]; [|apply lives_calm, calm_ret].
  apply lives_clock. intros n Hn Hact. apply lives_set. apply good_status; [done..|by rewrite Ha|by left|done].
Qed.

Lemma lives_finishTerminal m g : good g0 g → lives g0 (LifeAt g0 g) (_finishGoalForTerminalAssistantMessage m).
Proof.
  intros Hg. unfold _finishGoalForTerminalAssistantMessage. apply lives_read.
  case_bool_decide; cbn [negb]; [|apply lives_calm, calm_ret].
  destruct (am_stopReason m); try apply lives_calm, calm_ret.
  - apply lives_calm_bind; [apply calm_gets|]. intros []; [|by apply lives_finishError].
    apply lives_calm, calm_fields. done.
  - by apply lives_calm, calm_fields.
Qed.

Lemma lives_stopTerminal m g : good g0 g → lives g0 (LifeAt g0 g) (_stopGoalContinuationForTerminalMessage m).
Proof.
  intros Hg. unfold _stopGoalContinuationForTerminalMessage. destruct (is_terminal m); cbn [negb]; [|apply lives_calm, calm_ret].
  apply lives_bind; [|intros []; apply lives_done].
  apply lives_catch; [by apply lives_finishTerminal|intros e; apply lives_done].
Qed.

Lemma lives_calm' {A} (m : G A) : calm m → lives g0 (Life g0) m.
Proof. intros Hm. apply lives_open. intros g _. by apply lives_calm. Qed.

Lemma lives_resume : lives g0 (Life g0) _resumeGoal.
Proof.
  apply lives_open. intros g Hg. unfold _resumeGoal. apply lives_read.
  destruct (has_objective g); cbn [negb]; [|apply lives_emit].
  cbv zeta. destruct (negb (bool_decide (status g = GPaused)) && negb (bool_decide (status g = GBudgetLimited))) eqn:Est;
    [apply lives_emit|].
  apply lives_bind; [|intros []; destruct (bool_decide (_ = GActive)); [apply lives_calm', calm_runOrQueue|apply lives_done]].
  pose proof Hg as [Hok _]. apply lives_set, (good_next g); cbn; try done.
  - destruct (status g) eqn:E; try done.
    + by rewrite (ok_room _ Hok (or_intror E)).
    + by rewrite (ok_limited _ Hok E).
  - by destruct (exhausted g) eqn:E.
  - by destruct (exhausted g) eqn:E.
Qed.

Lemma validate_idem text o : validateGoalObjective text = Ok o → validateGoalObjective o = Ok o ∧ o ≠ [].
Proof.
  unfold validateGoalObjective. case_bool_decide as Hne; [done|]. destruct (_ <? _) eqn:E; [done|].
  intros [= <-]. rewrite trim_idem, bool_decide_false by done. by rewrite E.
Qed.

Lemma start_ok text o b id t : validateGoalObjective text = Ok o → (∀ z, b = Some z → 0 < z) →
  goal_ok (MkGoal true GActive (Some id) (Some o) b 0 0 0 (Some t) (Some t) None None).
Proof.
  intros Ho Hb. split; cbn; try done.
  - intros _. exists o. split; [done|]. by eapply validate_idem.
  - intros _. unfold exhausted. cbn. destruct b as [z|]; [|done]. apply Z.leb_gt. auto.
Qed.

Lemma lives_start text b : lives g0 (Life g0) (_startGoal text b).
Proof.
  intros s [[Hok Hst Hi Hr] Ho Hgood]. unfold _startGoal, elift.
  unfold mbind at 1, eff_bind at 1. destruct (validateGoalObjective text) as [o|e] eqn:Eo; [|by split; [split|..]].
  unfold mbind at 1, eff_bind at 1. destruct (validateGoalBudget b) as [b'|e] eqn:Eb; [|by split; [split|..]].
  assert (b' = b ∧ ∀ z, b = Some z → 0 < z) as [-> Hb].
  { unfold validateGoalBudget in Eb. destruct b as [z|]; [|by injection Eb as <-]. destruct (Z.leb_spec z 0); [done|].
    injection Eb as <-. split; [done|]. by intros ? [= <-]. }
  unfold mbind at 1, eff_bind at 1. cbn [date_now in_session now_ms].
  unfold mbind at 1, eff_bind at 1. unfold in_session at 1. cbn [random_uuid].
  unfold mbind at 1, eff_bind at 1. cbn [emodify]. unfold mbind at 1, eff_bind at 1. cbn [emodify].
  match goal with |- match (_setGoalState ?x ≫= _) ?y with _ => _ end =>
    assert (lives g0 (λ s', s' = y) (_setGoalState x ≫= λ _, egets gs_goal)) as Hl; [|by apply Hl] end.
  apply lives_bind; [|intros []; apply lives_calm', calm_gets].
  pose proof (quiet_trans _ _ _ (quiet_now (gs_session s)) (quiet_uuid _)) as Hq.
  eapply hoare_conseq; [apply hoare_set|..]; [| |done..].
  - rewrite normalize_ok by (eapply start_ok; [exact Eo|done]). split; [eapply start_ok; [exact Eo|done]|].
    cbn. intros _ [=]. exfalso. by eapply (Ho (w_uuids (sm_world (gs_session s)))).
  - intros s' ->. split_and!; [by apply Hq|by apply (recorded_quiet _ _ Hq)|].
    by eapply old_id_le; [apply Hq|].
Qed.

Lemma lives_lift {A B} g (r : result jsstr A) (k : A → G B) :
  (∀ a, r = Ok a → lives g0 (LifeAt g0 g) (k a)) → lives g0 (LifeAt g0 g) (elift r ≫= k).
Proof. intros Hk s Hs. unfold mbind, eff_bind, elift. destruct r as [a|e]; [by apply Hk|apply Hs]. Qed.

(** Usage that does not reach the budget, and usage that does. *)
Lemma good_tokens g n d : good g0 g → status g = GActive → 0 <= n → 0 <= d →
  let next := with_tokensUsed (tokensUsed g + d) (with_timeUsed (timeUsedSeconds g + n) g) in
  if exhausted next
  then ∀ r, good g0 (normalizeGoalState (with_status false GBudgetLimited r None next))
  else good g0 (normalizeGoalState next).
Proof.
  intros Hg Ha Hn Hd next. destruct (exhausted next) eqn:E; [intros r|]; apply (good_next g); cbn; try done; try lia;
    rewrite Ha; done.
Qed.

Lemma lives_account ref m : lives g0 (Life g0) (_accountGoalUsageForAssistantMessage ref m).
Proof.
  apply lives_open. intros g Hg. unfold _accountGoalUsageForAssistantMessage. apply lives_get. intros s ->.
  destruct (has_objective g); cbn [negb]; [|apply lives_calm, calm_ret].
  destruct (is_terminal m); [apply lives_calm, calm_ret|].
  destruct (bool_decide (ref ∈ _)); [apply lives_calm, calm_ret|].
  case_bool_decide as Ha; cbn [negb]; [|apply lives_calm, calm_ret].
  apply lives_calm_bind; [by apply calm_fields|intros []].
  apply lives_lift. intros d Hd.
  assert (0 <= d) as Hd0 by (destruct (am_usage m); [injection Hd as <-; unfold goalTokenDeltaForUsage; lia|done]).
  apply lives_clock. intros n Hn _. cbv zeta. pose proof (good_tokens g n d Hg Ha Hn Hd0) as Hnext.
  cbv zeta in Hnext. unfold exhausted in Hnext. cbn [tokenBudget tokensUsed with_tokensUsed with_timeUsed] in *.
  destruct (tokenBudget g) as [b|]; [destruct (b <=? tokensUsed g + d)|];
    (apply lives_bind; [apply lives_set, Hnext|intros []; apply lives_done]).
Qed.

Lemma lives_account_and_steer ref m : lives g0 (Life g0) (account_and_steer ref m).
Proof.
  apply lives_bind; [apply lives_account|intros []; [|apply lives_done]].
  apply lives_calm', calm_bind; [apply calm_context_message|intros a; apply calm_host].
Qed.

Lemma lives_shouldStop ref m : lives g0 (Life g0) (_shouldStopAfterTurn ref m).
Proof.
  apply lives_open. intros g Hg. apply lives_bind; [by apply lives_stopTerminal|intros []; [apply lives_done|]].
  apply lives_bind; [|intros []; apply lives_done].
  apply lives_catch; [apply lives_account_and_steer|intros e; apply lives_done].
Qed.

Lemma lives_slash text images : lives g0 (Life g0) (_handleGoalSlashCommand text images).
Proof.
  unfold _handleGoalSlashCommand. apply lives_bind; [apply lives_calm', calm_lift|intros [[]|]];
    [..|apply lives_done].
  - apply lives_bind; [apply lives_calm', calm_emitGoalUpdate|intros []; apply lives_done].
  - apply lives_bind; [apply lives_clear|intros []; apply lives_done].
  - apply lives_bind; [apply lives_pause|intros []; apply lives_done].
  - apply lives_bind; [apply lives_resume|intros []; apply lives_done].
  - apply lives_bind; [apply lives_calm', calm_get|intros s]. cbv zeta.
    apply lives_bind; [destruct (isStreaming _); [apply lives_done|apply lives_calm', calm_host]|intros []].
    apply lives_bind; [apply lives_calm', calm_ensure|intros _].
    apply lives_bind; [apply lives_calm', calm_clearQueued|intros []].
    apply lives_bind; [apply lives_start|intros _].
    apply lives_bind; [apply lives_calm', calm_runOrQueue|intros []; apply lives_done].
Qed.

Lemma lives_create text b : lives g0 (Life g0) (_createGoalFromHost text b).
Proof.
  apply lives_bind; [apply lives_calm', calm_gets|intros g].
  destruct (status g); first [apply lives_start|apply lives_calm', calm_throw].
Qed.

Lemma lives_complete : lives g0 (Life g0) _completeGoalFromHost.
Proof.
  apply lives_open. intros g Hg. apply lives_read. destruct (has_objective g); cbn [negb orb]; [|apply lives_calm, calm_throw].
  case_bool_decide as Hi; [apply lives_calm, calm_throw|].
  apply lives_clock. intros n Hn Hact. apply lives_calm_bind; [apply calm_clearQueued|intros []].
  apply lives_bind; [|intros []; apply lives_calm', calm_gets].
  apply lives_set, good_status; [done..| |by left|done]. by destruct (status g).
Qed.

Lemma calm_goalState : calm goalState.
Proof. unfold goalState. calm_tac. Qed.

Lemma lives_request type payload : lives g0 (Life g0) (handleGoalHostRequest type payload).
Proof.
  unfold handleGoalHostRequest. destruct includeGoals; cbn [negb]; [|apply lives_calm', calm_throw].
  destruct (bool_decide _); [apply lives_bind; [apply lives_calm', calm_goalState|intros g; apply lives_done]|].
  destruct (bool_decide _).
  { repeat case_match; first [apply lives_calm', calm_throw
      |apply lives_bind; [apply lives_create|intros g; apply lives_done]]. }
  destruct (bool_decide _); [apply lives_bind; [apply lives_complete|intros g; apply lives_done]|].
  apply lives_calm', calm_throw.
Qed.

(** A prompt to go on counts a continuation of the current goal. *)
Lemma lives_count g : good g0 g → lives g0 (LifeAt g0 g) (_setGoalState (count_continuation g)).
Proof. intros Hg. by apply lives_set, good_continuations. Qed.

Lemma lives_getContinuation m tools aborted : lives g0 (Life g0) (_getGoalContinuationMessages m tools aborted).
Proof.
  apply lives_open. intros g Hg. apply lives_bind; [by apply lives_stopTerminal|intros []; [apply lives_done|]].
  clear g Hg. apply lives_open. intros g Hg. apply lives_get. intros s Hs.
  destruct (_ || _ || _); [apply lives_calm, calm_ret|].
  destruct (hasUnsettledRlmQuiescenceWork _).
  { apply lives_calm, calm_bind; [by apply calm_fields|intros []; apply calm_ret]. }
  apply lives_calm_bind; [by apply calm_fields|intros []]. apply lives_catch.
  - apply lives_calm_bind; [apply calm_ensure|intros tools']. apply lives_read.
    apply lives_bind; [by apply lives_count|intros []].
    apply lives_bind; [apply lives_calm', calm_context_message|intros x; apply lives_done].
  - intros e. apply lives_bind; [|intros []; apply lives_done]. apply lives_catch; [|intros ?; apply lives_done].
    apply lives_open. intros g' Hg'. by apply lives_finishError.
Qed.

Lemma lives_queueThreshold m : lives g0 (Life g0) (_queueGoalContinuationForThresholdCompaction m).
Proof.
  apply lives_open. intros g Hg. apply lives_get. intros s Hs.
  destruct (is_terminal m); [apply lives_calm, calm_ret|]. destruct (_ || _); [apply lives_calm, calm_ret|].
  match goal with |- lives _ _ (if ?b then _ else _) => destruct b end; [apply lives_calm, calm_ret|].
  apply lives_catch; [|intros e; apply lives_done].
  apply lives_calm_bind; [apply calm_ensure|intros _]. apply lives_read.
  apply lives_bind; [by apply lives_count|intros []].
  apply lives_calm', calm_bind; [apply calm_context_message|intros x].
  apply calm_bind; [apply calm_host|intros y]. apply calm_bind; [by apply calm_fields|intros []; apply calm_ret].
Qed.

Lemma lives_clearThreshold o : lives g0 (Life g0) (_clearQueuedGoalContinuationAfterCancelledThresholdCompaction o).
Proof.
  destruct o as [ref|]; [|apply lives_done]. apply lives_open. intros g Hg. apply lives_get. intros s Hs.
  destruct (cancelMessage ref (gs_host s)) as [w [c restored]]. apply lives_calm_bind; [by apply calm_fields|intros []].
  apply lives_calm_bind; [by apply calm_fields|intros []]. destruct c; cbn [negb]; [|apply lives_calm, calm_ret].
  apply lives_read. apply lives_bind; [by apply lives_set, good_continuations|intros []].
  apply lives_calm', calm_host_do.
Qed.

(** The retry after the spawned agents settled: on an error the goal is set back. *)
Lemma lives_maybeResume : lives g0 (Life g0) _maybeResumeGoalContinuationAfterRlmWork.
Proof.
  apply lives_open. intros g Hg. apply lives_get. intros s Hs.
  destruct (gs_awaits s); cbn [negb]; [|apply lives_calm, calm_ret].
  destruct (_ || _); [apply lives_calm, calm_ret|].
  destruct (_ || _); [by apply lives_calm, calm_fields|].
  destruct (admissionPaused _); [apply lives_calm, calm_ret|]. cbv zeta. rewrite Hs. apply lives_catch.
  - apply lives_calm_bind; [apply calm_ensure|intros _]. apply lives_read.
    apply lives_bind; [by apply lives_count|intros []].
    apply lives_calm', calm_bind; [apply calm_context_message|intros x].
    apply calm_bind; [apply calm_host|intros y]. by apply calm_fields.
  - intros e. apply lives_open. intros g' _. apply lives_set. rewrite normalize_ok by apply Hg. exact Hg.
Qed.
End lives.

(** ** Operations as steps *)

Inductive goal_op :=
| OpSlash (text : jsstr) (images : list block)
| OpMessageEnd (ref : nat) (m : AssistantMessage)
| OpAfterTurn (ref : nat) (m : AssistantMessage)
| OpTerminal (m : AssistantMessage)
| OpRequest (type : jsstr) (payload : list (jsstr * json))
| OpContinuation (m : AssistantMessage) (tools : list jsstr) (aborted : W → bool)
| OpQueueThreshold (m : AssistantMessage)
| OpClearThreshold (queued : option nat)
| OpMaybeResume
| OpAbortBegin
| OpAbortEnd.

Definition run_goal_op (o : goal_op) : G unit :=
  match o with
  | OpSlash text images => _handleGoalSlashCommand text images;; mret tt
  | OpMessageEnd ref m => account_and_steer ref m
  | OpAfterTurn ref m => _shouldStopAfterTurn ref m;; mret tt
  | OpTerminal m => _finishGoalForTerminalAssistantMessage m
  | OpRequest type payload => handleGoalHostRequest type payload;; mret tt
  | OpContinuation m tools aborted => _getGoalContinuationMessages m tools aborted;; mret tt
  | OpQueueThreshold m => _queueGoalContinuationForThresholdCompaction m;; mret tt
  | OpClearThreshold queued => _clearQueuedGoalContinuationAfterCancelledThresholdCompaction queued
  | OpMaybeResume => _maybeResumeGoalContinuationAfterRlmWork
  | OpAbortBegin => abort_begin
  | OpAbortEnd => abort_end
  end.

(** What the rest of the program may do to the session: it records no goals. *)
Record elsewhere (m m' : SM) : Prop := {
  el_inv : inv m → inv m';
  el_uuids : (w_uuids (sm_world m) <= w_uuids (sm_world m'))%nat;
  el_goals : ∀ e g, FEntry e ∈ sm_fileEntries m' → goal_entry e = Some g →
    ∃ e0, FEntry e0 ∈ sm_fileEntries m ∧ goal_entry e0 = Some g
}.

(** An operation of the goal, with its outcome ignored, or anything else. *)
Inductive goal_step : GS → GS → Prop :=
| step_op o s : goal_step s (run_goal_op o s).1
| step_rest s m w : elsewhere (gs_session s) m → goal_step s (set_host w (set_session m s)).

(** The goal is also read again when the session moves to another branch. *)
Inductive session_step : GS → GS → Prop :=
| step_goal s s' : goal_step s s' → session_step s s'
| step_reload s : session_step s (_reloadGoalStateFromBranch s).1.

Lemma elsewhere_append body m : (∀ id p t, goal_entry (MkSessionEntry id p t body) = None) →
  elsewhere m (append_body body m).1.
Proof.
  intros Hb. destruct (append_body_appends body m) as [A1 A2 A3 A4 A5 A6]. split; [done|done|].
  intros e g. rewrite A2, elem_of_app. intros [Hin|Hin] Hg; [by exists e|]. exfalso.
  cbn in Hin. apply list_elem_of_singleton in Hin as [= ->]. unfold new_entry in Hg. by rewrite Hb in Hg.
Qed.

Lemma lives_fst {A} g0 (m : G A) s : lives g0 (Life g0) m → Life g0 s → Life g0 (m s).1.
Proof. intros Hm Hs. specialize (Hm s Hs). by destruct (m s) as [s' [a|e]]. Qed.

Lemma lives_op g0 o : lives g0 (Life g0) (run_goal_op o).
Proof.
  destruct o; cbn [run_goal_op];
    first [ apply lives_account_and_steer | apply lives_clearThreshold | apply lives_maybeResume
          | (apply lives_calm', calm_fields; done)
          | (apply lives_open; intros g Hg; by apply lives_finishTerminal)
          | apply lives_bind; [|intros ?; apply lives_done] ];
    first [ apply lives_slash | apply lives_shouldStop | apply lives_request | apply lives_getContinuation
          | apply lives_queueThreshold ].
Qed.

Lemma life_step g0 s s' : goal_step s s' → Life g0 s → Life g0 s'.
Proof.
  destruct 1 as [o s|s m w [E1 E2 E3]]; intros Hs; [by apply lives_fst; [apply lives_op|]|].
  destruct Hs as [[Hok Hst Hi Hr] Ho Hg]. split; [split|..]; cbn; try done.
  - by apply E1.
  - intros e g Hin Hge. destruct (E3 e g Hin Hge) as (e0&Hin0&Hge0). by apply (Hr e0).
  - by eapply old_id_le.
Qed.

Lemma life_steps g0 s s' : rtc goal_step s s' → Life g0 s → Life g0 s'.
Proof. induction 1; [done|]. intros Hs. eauto using life_step. Qed.

(** [GInv] alone: the life of no goal in particular. *)
Lemma life_none s : GInv s ↔ Life emptyGoalState s.
Proof. split; [|by intros []]. intros Hs. split; [done|by intros k _|]. split; [apply Hs|by intros []]. Qed.

Lemma recorded_branch m : inv m → recorded_ok m → goal_ok (goal_of_branch (branch_entries m)).
Proof.
  intros Hi Hr. unfold goal_of_branch, branch_entries.
  destruct (last (omap goal_entry (default [] (getBranch m None)))) as [g|] eqn:E; [|apply empty_ok].
  cbn. apply last_Some_elem_of, list_elem_of_omap in E as (e&Hin&Hg). apply (Hr e); [|done].
  destruct (getBranch m None) as [path|] eqn:Eb; [|by apply not_elem_of_nil in Hin]. cbn in Hin.
  destruct (sm_leafId m) as [id|] eqn:El.
  - assert (Hid : id ∈ entry_ids (sm_fileEntries m)) by (by apply (wf_leaf _ (proj1 Hi))).
    apply entry_is_at in Hid as (i&x&Hx&<-). destruct (branch_of_entry m x i Hi Hx) as (path'&Hb&_&_&Hall&_).
    assert (getBranch m (Some (e_id x)) = getBranch m None) as Hsame by (unfold getBranch; by rewrite El).
    rewrite Hsame, Eb in Hb. injection Hb as <-. rewrite Forall_forall in Hall. by apply Hall.
  - unfold getBranch, walk_from in Eb. rewrite El in Eb. destruct (walk_fuel m); injection Eb as <-;
      by apply not_elem_of_nil in Hin.
Qed.

Lemma reload_inv s : inv (gs_session s) → recorded_ok (gs_session s) → GInv (_reloadGoalStateFromBranch s).1.
Proof.
  intros Hi Hr. unfold _reloadGoalStateFromBranch. unfold mbind at 1, eff_bind at 1. cbn [emodify].
  unfold mbind at 1, eff_bind at 1. cbn [egets]. unfold mbind at 1, eff_bind at 1.
  assert (GInv (match (if bool_decide (status (_loadPersistedGoalState s) = GActive)
    then now ← date_now; emodify (set_startedAt (Some now)) else emodify (set_startedAt None))
    (set_goal (_loadPersistedGoalState s) s) with (s', _) => s' end)) as Hl.
  { case_bool_decide as Ha.
    - unfold mbind, eff_bind. cbn. split; cbn; [by apply recorded_branch|by split; eauto|by apply (inv_frame (gs_session s))|done].
    - cbn. split; cbn; [by apply recorded_branch|by split; [intros []|]|done|done]. }
  cbn [gs_goal set_goal]. destruct (bool_decide (status (_loadPersistedGoalState s) = GActive)).
  - apply life_none. apply lives_fst; [apply lives_calm', calm_emitGoalUpdate|]. by apply life_none.
  - apply life_none. apply lives_fst; [apply lives_calm', calm_emitGoalUpdate|]. by apply life_none.
Qed.
End goal.
