(* ===== verification/GoalProps.v ===== *)
(** * Goals: properties and examples

    The properties of [GoalSession] that [GoalSpec] prepares, each with an
    instance on the platform [demo_platform] and a small world. *)

From S2P Require Import Prelude.
From S2P Require Import Eff.
From S2P Require Import JsMap.
From S2P Require Import JsString.
From S2P Require Import Json.
From S2P Require Import Messages.
From S2P Require Import SlashCommands.
From S2P Require Import Goals.
From S2P Require Import SessionEntry.
From S2P Require Import SessionManager.
From S2P Require Import SessionInvariant.
From S2P Require Import SessionDurability.
From S2P Require Import GoalSession.
From S2P Require Import GoalSpec.

(** ** A world *)

(** The admitted messages and the switch of the tools. *)
#[export] Instance demo_host : GoalHost (list CustomMessage) := {|
  includeGoals := true;
  hasIpythonTool _ := true;
  getActiveToolNames _ := [js "ipython"];
  setActiveToolsByName _ w := (w, Ok tt);
  emitGoalUpdate _ w := w;
  removeQueuedGoalMessages w := w;
  cancelGoalContextActions _ := ([], []);
  emitQueueUpdate w := w;
  admitSessionInput m _ _ _ w := (m :: w, Ok (length w));
  queuePreparedPrompt m w := (m :: w, Ok tt);
  undelivered n w := (n <? length w)%nat;
  cancelMessage _ w := ([], (true, []));
  hasUnsettledRlmQuiescenceWork _ := false;
  disposing _ := false;
  admissionPaused _ := false;
  isStreaming _ := false;
  validateCanStartAgentRun w := (w, Ok tt);
  sm_message _ := js "write failed"
|}.

(** The state before the constructor reads the goal. *)
Definition fresh_session {W} (m : SM) (w : W) : GoalSession W :=
  MkGoalSession emptyGoalState None false [] false None [] m w.

Definition run_goal_ops (ops : list (goal_op (W:=list CustomMessage))) (s : GoalSession (list CustomMessage)) : GoalSession (list CustomMessage) :=
  foldl (λ s o, (run_goal_op o s).1) s ops.

Lemma run_goal_ops_steps ops s : rtc goal_step s (run_goal_ops ops s).
Proof.
  revert s. induction ops as [|o ops IH]; intros s; [done|]. cbn. eapply rtc_l; [apply step_op|apply IH].
Qed.

(** ** The invariant *)

Section props.
Context {W : Type} `{GoalHost W} `{UuidLaws}.

Lemma seedable_empty m : _isBranchSeedable m = true → goal_of_branch (branch_entries m) = emptyGoalState.
Proof.
  unfold _isBranchSeedable, goal_of_branch. rewrite forallb_Forall. intros Hall.
  assert (omap goal_entry (branch_entries m) = []) as ->; [|done].
  induction Hall as [|e l He Hl IH]; [done|]. cbn. unfold goal_entry at 1. destruct (e_body e); done.
Qed.

(** The state between the two halves of the constructor's part. *)
Definition loaded (s : GoalSession W) : Prop :=
  goal_ok (gs_goal s) ∧ inv (gs_session s) ∧ recorded_ok (gs_session s) ∧
  (status (gs_goal s) = GActive ∨ gs_startedAt s = None).

Lemma GInv_loaded s : GInv s → loaded s.
Proof.
  intros [Hok Hst Hi Hr]. split_and!; [done..|]. destruct (decide (status (gs_goal s) = GActive)) as [?|Hne]; [by left|right].
  destruct (gs_startedAt s) as [t|]; [|done]. exfalso. apply Hne, Hst. eauto.
Qed.

Lemma seed_hoare depth ig : hoare
  (λ s, inv (gs_session s) ∧ recorded_ok (gs_session s) ∧ gs_goal s = emptyGoalState ∧ gs_startedAt s = None)
  (seed_goal depth ig) (λ _, GInv (W:=W)) (λ _ _, True).
Proof.
  unfold seed_goal. eapply (hoare_bind _ _ _ (λ _ s, loaded s ∧ gs_startedAt s = None ∧
    gs_goal s = goal_of_branch (branch_entries (gs_session s)))).
  { intros s (Hi&Hr&Hg&Hst). cbn. split_and!; [|done|done]. split_and!; cbn; [by apply recorded_branch|done|done|by right]. }
  intros _. intros s Hs. unfold mbind at 1, eff_bind at 1. cbn [eget]. revert s Hs.
  intros s0 Hs0. match goal with |- match ?k s0 with _ => _ end =>
    assert (hoare (λ s, s = s0) k (λ _, GInv (W:=W)) (λ _ _, True)) as Hk; [|by apply Hk] end.
  destruct Hs0 as (Hl&Hst&Hg). apply (hoare_bind _ _ _ (λ _, loaded)).
  - assert (∀ s, s = s0 → loaded s) as Hret by (by intros s ->).
    destruct ig as [[o b]|]; [|exact Hret]. destruct (_ && _) eqn:E; [|exact Hret].
    apply andb_true_iff in E as [_ E]. apply seedable_empty in E. rewrite E in Hg.
    assert (GInv s0) as Hinv.
    { destruct Hl as (?&?&?&_). split; [done| |done|done]. rewrite Hst, Hg. split; [by intros []|done]. }
    assert (lives emptyGoalState (Life emptyGoalState) (_startGoal o b;; m ← context_message Continuation [];
      emodify (λ s, set_pending (gs_pending s ++ [MCustom m]) s))) as Hlv.
    { apply lives_bind; [apply lives_start|intros _]. apply lives_calm', calm_bind; [apply calm_context_message|].
      intros m. by apply calm_fields. }
    eapply hoare_conseq; [exact Hlv|..]; [intros s ->; by apply life_none|intros ? s Hs; by apply GInv_loaded, life_none|done].
  - intros [] s (Hok&Hi&Hr&Hstart). unfold mbind at 1, eff_bind at 1. cbn [egets]. case_bool_decide as Ha.
    + unfold mbind, eff_bind. cbn. split; cbn; [done|by split; eauto|by apply (inv_frame (gs_session s))|done].
    + split; [done| |done|done]. destruct Hstart as [?| ->]; [done|]. split; [by intros []|done].
Qed.

(** The constructor ends in the invariant. *)
Lemma seed_inv depth ig m (w : W) s : inv m → recorded_ok m →
  seed_goal depth ig (fresh_session m w) = (s, Ok tt) → GInv s.
Proof.
  intros Hi Hr Hs. pose proof (seed_hoare depth ig (fresh_session m w)) as Hh.
  specialize (Hh (conj Hi (conj Hr (conj eq_refl eq_refl)))). by rewrite Hs in Hh.
Qed.
End props.


(** From the constructor on, also when the session moves between branches,
    the goal and every recorded goal are well formed: the flag [active] agrees
    with the status, the counts are not negative, a goal has a valid objective,
    an active or paused one has budget left and a budget-limited one has none;
    and the clock runs exactly while the goal is active. *)
Theorem goal_reachable {W} `{GoalHost W} `{UuidLaws} depth ig m (w : W) s s' :
  inv m → recorded_ok m → seed_goal depth ig (fresh_session m w) = (s, Ok tt) →
  rtc session_step s s' → GInv s'.
Proof.
  intros Hi Hr Hseed Hsteps. pose proof (seed_inv depth ig m w s Hi Hr Hseed) as Hs. clear Hseed.
  induction Hsteps as [|s1 s2 s3 H12 _ IH]; [done|]. apply IH. destruct H12 as [s1 s2 Hg|s1].
  - apply life_none. apply (life_step _ _ _ Hg). by apply life_none.
  - by apply reload_inv; apply Hs.
Qed.

(** ** Persistence *)

Section restart.
Context {W : Type} `{GoalHost W} `{UuidLaws}.

Lemma last_goal l e g : last l = Some e → goal_entry e = Some g → goal_of_branch l = g.
Proof.
  intros Hl Hg. apply last_Some in Hl as [l' ->]. unfold goal_of_branch. rewrite omap_app. cbn. rewrite Hg.
  by rewrite last_snoc.
Qed.

(** The goal at the leaf of a session. *)
Lemma leaf_goal m e g : inv m → FEntry e ∈ sm_fileEntries m → sm_leafId m = Some (e_id e) → goal_entry e = Some g →
  goal_of_branch (branch_entries m) = g.
Proof.
  intros Hi Hin Hl Hg. apply list_elem_of_lookup in Hin as [i Hx].
  destruct (branch_of_entry m e i Hi Hx) as (path&Hb&Hlast&_).
  assert (getBranch m None = Some path) as Hb' by (unfold getBranch in *; by rewrite Hl).
  unfold branch_entries. rewrite Hb'. cbn. by eapply last_goal.
Qed.

(** [getBranch] reads neither the world nor the identifier counter. *)
Lemma branch_world w m : branch_entries (set_world w m) = branch_entries m.
Proof. done. Qed.

Lemma set_appends next (s s' : GoalSession W) r : _setGoalState next s = (s', r) →
  ∃ e, goal_entry e = Some (gs_goal s') ∧ appends [e] (gs_session s) (gs_session s').
Proof.
  intros E. pose proof (setGoalState_spec next s) as Hds. rewrite E in Hds. cbn in Hds.
  destruct Hds as [[t Hg] _ _ _ _ _ (m1&m2&r2&Hq1&Hp&Hq2&_)].
  destruct (persist_goal_spec (gs_goal s') m1) as (e&He&Ha). rewrite Hp in Ha. cbn in Ha.
  pose proof (appends_quiet _ _ _ _ Ha Hq2) as Ha'.
  exists e. split; [rewrite (goal_entry_json _ _ He), Hg; by rewrite normalize_idem|].
  by apply (quiet_appends _ _ m1).
Qed.
End restart.

(** A goal that was set is durable.  When [_setGoalState] returns, the file
    of the session, opened again by any process, has a branch whose goal is
    exactly the goal in memory; this holds before the first answer of the model
    is recorded. *)
Theorem goal_survives_restart {W} `{GoalHost W} `{UuidLaws} next (s s' : GoalSession W) s1 path h :
  inv (gs_session s) → Dur (gs_session s) → sm_persist (gs_session s) = true →
  sm_sessionFile (gs_session s) = Some path → path ≠ [] → path_resolve path = path →
  find_header (sm_fileEntries (gs_session s)) = Some h → sh_version h = Some CURRENT_SESSION_VERSION →
  truthy (sh_parentSession h) && negb (isValidRlmDepth (sh_rlmDepth h)) = false →
  _setGoalState next s = (s', Ok tt) → sm_disk s1 = sm_disk (gs_session s') →
  ∃ m, setSessionFile path None s1 = (m, Ok tt) ∧ goal_of_branch (branch_entries m) = gs_goal s' ∧
    ∃ t, gs_goal s' = normalizeGoalState (with_updatedAt t next).
Proof.
  intros Hi HD Hp Hf Hne Hres Hh Hv Hlegacy E Hdisk.
  destruct (set_appends _ _ _ _ E) as (e&Hge&Ha).
  pose proof (setGoalState_spec next s) as Hds. rewrite E in Hds. cbn in Hds.
  destruct Hds as [[t Hg] _ _ _ _ _ (m1&m2&r2&Hq1&Hpg&Hq2&Hr2)].
  destruct r2 as [[]|x]; [|done].
  pose proof (proj1 Hq1) as Hq1'.
  destruct (persist_goal_dur _ _ _ (ap_inv _ _ _ Hq1' Hi) (quiet_dur _ _ Hq1 HD) Hpg) as [HD2 Hfl].
  rewrite (ap_persist _ _ _ Hq1'), (ap_file _ _ _ Hq1'), Hf in Hfl.
  assert (sm_flushed (gs_session s') = true) as Hfl'.
  { destruct Hq2 as (_&_&->&_). apply Hfl; [done|]. by destruct path. }
  pose proof (quiet_dur _ _ Hq2 HD2) as HD3.
  pose proof (ap_entries _ _ _ Ha) as Hent. cbn in Hent.
  pose proof (ap_inv _ _ _ Ha Hi) as Hi'.
  destruct (reopen_session (gs_session s') s1 path h) as (m&Hm&Hfe&HWF&_&_&Hleaf&_); try done.
  - by rewrite (ap_persist _ _ _ Ha).
  - by rewrite (ap_file _ _ _ Ha).
  - rewrite Hent. revert Hh. destruct (sm_fileEntries (gs_session s)) as [|[h0|e0] l]; [done|by cbn|].
    destruct (wf_header _ _ (wf_store _ (proj1 Hi))) as (h0&rest&E0&_). cbn.
    intros Hh. unfold find_header in *. cbn in *. rewrite omap_app, head_app. by rewrite Hh.
  - exists m. split_and!; [done| |by exists t].
    assert (getEntries (gs_session s') = getEntries (gs_session s) ++ [e]) as Hge'.
    { unfold getEntries. rewrite Hent. by rewrite session_entries_app. }
    rewrite Hge', last_snoc in Hleaf. cbn in Hleaf.
    rewrite <-(branch_world (sm_world (gs_session s')) m).
    apply (leaf_goal _ e); [|cbn; rewrite Hfe, Hent; apply elem_of_app; right; by left|done|done].
    split; [by destruct HWF; split|]. cbn. rewrite Hfe. apply Hi'.
Qed.

(** ** Accounting *)

(** The messages of a sequence that can count: answers that did not end in an
    error or an abort, each object once. *)
Fixpoint countable (seen : list nat) (l : list (nat * AssistantMessage)) : list (nat * AssistantMessage) :=
  match l with
  | [] => []
  | (ref, m) :: l =>
      if is_terminal m || bool_decide (ref ∈ seen) then countable seen l else (ref, m) :: countable (ref :: seen) l
  end.

(** The tokens a sequence of messages costs. *)
Definition message_tokens (p : nat * AssistantMessage) : Z :=
  match am_usage p.2 with Some u => goalTokenDeltaForUsage u | None => 0 end.
Definition total_tokens (l : list (nat * AssistantMessage)) : Z := foldr (λ p n, message_tokens p + n) 0 l.

Lemma total_tokens_app l k : total_tokens (l ++ k) = total_tokens l + total_tokens k.
Proof. induction l as [|p l IH]; cbn; [done|]. unfold total_tokens in *. lia. Qed.

Section accounting.
Context {W : Type} `{GoalHost W} `{UuidLaws}.

Definition account_all (l : list (nat * AssistantMessage)) (s : GoalSession W) : GoalSession W :=
  foldl (λ s p, (_accountGoalUsageForAssistantMessage p.1 p.2 s).1) s l.

Lemma with_timeUsed_same g : with_timeUsed (timeUsedSeconds g) g = g.
Proof. by destruct g. Qed.

(** The goal after the wall clock was accounted. *)
Lemma clock_run (s : GoalSession W) : ∃ n s1,
  _goalWithAccountedWallClock s = (s1, Ok (with_timeUsed n (gs_goal s))) ∧
  gs_accounted s1 = gs_accounted s ∧ gs_threshold s1 = gs_threshold s.
Proof.
  unfold _goalWithAccountedWallClock, mbind, eff_bind, date_now, in_session. cbn [now_ms]. unfold eget.
  unfold _goalWithCurrentWallClock. set (t := now _). set (s0 := set_session _ s).
  change (elapsed_seconds s0 t) with (elapsed_seconds s t).
  destruct (elapsed_seconds s t) as [n|].
  - rewrite bool_decide_true by done. cbn. by eexists _, _.
  - rewrite bool_decide_false by (by intros []). cbn. exists (timeUsedSeconds (gs_goal s)), s0.
    by rewrite with_timeUsed_same.
Qed.

(** A message of an active goal. *)
Lemma account_active ref m u (s : GoalSession W) : GInv s → status (gs_goal s) = GActive → am_usage m = Some u →
  let s' := (_accountGoalUsageForAssistantMessage ref m s).1 in
  if is_terminal m || bool_decide (ref ∈ gs_accounted s) then s' = s else
  gs_accounted s' = ref :: gs_accounted s ∧ tokenBudget (gs_goal s') = tokenBudget (gs_goal s) ∧
  tokensUsed (gs_goal s') = tokensUsed (gs_goal s) + message_tokens (ref, m) ∧
  status (gs_goal s') =
    (if exhausted (with_tokensUsed (tokensUsed (gs_goal s) + message_tokens (ref, m)) (gs_goal s))
     then GBudgetLimited else GActive).
Proof.
  intros Hs Ha Hu. cbv zeta. unfold _accountGoalUsageForAssistantMessage. rewrite run_get.
  destruct (ok_objective _ (gi_goal _ Hs)) as (o&Ho&Hv); [by rewrite Ha|].
  assert (has_objective (gs_goal s) = true) as ->.
  { unfold has_objective. rewrite Ho. destruct (validate_idem _ _ Hv) as [_ Hne]. by destruct o. }
  destruct (is_terminal m); [done|]. case_bool_decide; [done|]. cbn [negb orb].
  rewrite bool_decide_true by done. cbn [negb]. rewrite Hu.
  rewrite run_modify, run_lift. set (s0 := set_accounted _ s). destruct (clock_run s0) as (n&s1&Hc&Hacc&_).
  rewrite run_bind, Hc. change (gs_goal s0) with (gs_goal s).
  cbn [tokenBudget tokensUsed with_tokensUsed with_timeUsed message_tokens snd].
  unfold message_tokens. cbn [snd]. rewrite Hu. unfold exhausted. cbn [tokenBudget tokensUsed with_tokensUsed].
  pose proof (ok_counts _ (gi_goal _ Hs)) as (Ht&_&_).
  assert (0 <= goalTokenDeltaForUsage u) as Hd by (unfold goalTokenDeltaForUsage; lia).
  assert (∀ next b, let s2 := ((_setGoalState next;; (mret b : eff _ jsstr bool)) s1).1 in
    (tokensUsed next = tokensUsed (gs_goal s) + goalTokenDeltaForUsage u) →
    gs_accounted s2 = ref :: gs_accounted s ∧ tokenBudget (gs_goal s2) = tokenBudget next ∧
    tokensUsed (gs_goal s2) = tokensUsed (gs_goal s) + goalTokenDeltaForUsage u ∧ status (gs_goal s2) = status next) as Hset.
  { intros next b s2 Htk. assert (s2 = (_setGoalState next s1).1) as ->.
    { unfold s2, mbind, eff_bind. by destruct (_setGoalState next s1) as [? [[]|]]. }
    pose proof (setGoalState_spec next s1) as [[t Hg] _ _ _ Hac _ _]. rewrite Hg, Hac, Hacc. cbn. rewrite Htk.
    split_and!; [done|done|lia|done]. }
  destruct (tokenBudget (gs_goal s)) as [b|] eqn:Eb; [destruct (b <=? _)|];
    (edestruct Hset as (->&->&->&->); [reflexivity|cbn; by rewrite ?Eb]).
Qed.

Lemma account_inactive ref m (s : GoalSession W) : status (gs_goal s) ≠ GActive →
  (_accountGoalUsageForAssistantMessage ref m s).1 = s.
Proof.
  intros Ha. unfold _accountGoalUsageForAssistantMessage. rewrite run_get.
  destruct (has_objective _); [|done]. destruct (is_terminal m); [done|]. case_bool_decide; [done|]. cbn [negb].
  by rewrite bool_decide_false.
Qed.

Lemma account_all_inactive l (s : GoalSession W) : status (gs_goal s) ≠ GActive → account_all l s = s.
Proof.
  intros Ha. induction l as [|p l IH]; [done|]. cbn. by rewrite account_inactive.
Qed.

Lemma account_inv ref m (s : GoalSession W) : GInv s → GInv (_accountGoalUsageForAssistantMessage ref m s).1.
Proof. rewrite !life_none. apply lives_fst, lives_account. Qed.

Lemma account_run l : ∀ s : GoalSession W, GInv s → status (gs_goal s) = GActive →
  Forall (λ p, is_Some (am_usage p.2)) l →
  ∃ charged rest, countable (gs_accounted s) l = charged ++ rest ∧
    tokensUsed (gs_goal (account_all l s)) = tokensUsed (gs_goal s) + total_tokens charged ∧
    tokenBudget (gs_goal (account_all l s)) = tokenBudget (gs_goal s) ∧
    ((status (gs_goal (account_all l s)) = GActive ∧ rest = []) ∨
     (status (gs_goal (account_all l s)) = GBudgetLimited ∧ ∃ b before x, tokenBudget (gs_goal s) = Some b ∧
        charged = before ++ [x] ∧ tokensUsed (gs_goal s) + total_tokens before < b ∧
        b <= tokensUsed (gs_goal s) + total_tokens charged)).
Proof.
  induction l as [|[ref m] l IH]; intros s Hs Ha Hl.
  { exists [], []. cbn. split_and!; [done|lia|done|by left]. }
  apply Forall_cons in Hl as [[u Hu] Hl]. cbn [snd] in Hu. cbn [countable].
  pose proof (account_active ref m u s Hs Ha Hu) as Hone. cbv zeta in Hone.
  change (account_all ((ref, m) :: l) s) with (account_all l (_accountGoalUsageForAssistantMessage ref m s).1).
  destruct (is_terminal m || bool_decide (ref ∈ gs_accounted s)); [rewrite Hone; by apply IH|].
  pose proof (account_inv ref m s Hs) as Hs'. revert Hone Hs'. generalize (_accountGoalUsageForAssistantMessage ref m s).1.
  intros s' (Hacc&Hb&Ht&Hst) Hs'. unfold exhausted in Hst. cbn [tokenBudget tokensUsed with_tokensUsed] in Hst.
  pose proof (ok_room _ (gi_goal _ Hs) (or_introl Ha)) as Hroom. unfold exhausted in Hroom.
  destruct (status (gs_goal s')) eqn:Est; try (destruct (tokenBudget (gs_goal s)); [case_match|]; done).
  - destruct (IH s' Hs' Est Hl) as (charged&rest&Hc&Ht'&Hb'&Hend). rewrite Hacc in Hc.
    exists ((ref, m) :: charged), rest. rewrite Hc, Ht', Ht, Hb', Hb. cbn [total_tokens foldr]. fold total_tokens.
    split_and!; [done|cbn; unfold total_tokens; lia|done|]. destruct Hend as [?|(HBL&b&before&x&Eb&->&Hlt&Hge)]; [by left|right].
    split; [done|]. exists b, ((ref, m) :: before), x. rewrite Hb in Eb. rewrite Ht in Hlt, Hge. cbn [total_tokens foldr].
    unfold total_tokens in *. cbn [foldr]. split_and!; [done|done|lia|lia].
  - exists [(ref, m)], (countable (ref :: gs_accounted s) l). rewrite account_all_inactive by (by rewrite Est).
    rewrite Ht, Hb, Est. cbn [total_tokens foldr]. split_and!; [done|unfold total_tokens; cbn; lia|done|].
    right. split; [done|]. destruct (tokenBudget (gs_goal s)) as [b|]; [|done].
    exists b, [], (ref, m). apply Z.leb_gt in Hroom. unfold total_tokens; cbn [foldr].
    destruct (b <=? _) eqn:E; [|done]. apply Z.leb_le in E. split_and!; [done|done|lia|lia].
Qed.
End accounting.

(** The accounting of usage.  Over any sequence of assistant messages, each
    announced any number of times, an active goal is charged the input and
    output tokens of each message once, in order, leaving out messages that
    ended in an error or an abort, until the first message that reaches the
    budget: then the goal is budget-limited and nothing more is charged.
    Failing writes do not change this. *)
Theorem usage_accounted {W} `{GoalHost W} `{UuidLaws} l (s : GoalSession W) :
  GInv s → status (gs_goal s) = GActive → Forall (λ p, is_Some (am_usage p.2)) l →
  ∃ charged rest, countable (gs_accounted s) l = charged ++ rest ∧
    tokensUsed (gs_goal (account_all l s)) = tokensUsed (gs_goal s) + total_tokens charged ∧
    ((status (gs_goal (account_all l s)) = GActive ∧ rest = []) ∨
     (status (gs_goal (account_all l s)) = GBudgetLimited ∧ ∃ b before x, tokenBudget (gs_goal s) = Some b ∧
        charged = before ++ [x] ∧ tokensUsed (gs_goal s) + total_tokens before < b ∧
        b <= tokensUsed (gs_goal s) + total_tokens charged)).
Proof.
  intros Hs Ha Hl. destruct (account_run l s Hs Ha Hl) as (charged&rest&?&?&_&?). by exists charged, rest.
Qed.

(** ** The objective in the prompt *)

Definition escape_unit (c : Z) : jsstr :=
  if c =? AMP then js "&amp;" else if c =? LT then js "&lt;" else if c =? GT then js "&gt;" else [c].

(** The three replacements are one pass: the entities of an earlier one are not
    escaped again. *)
Lemma escape_one_pass s : escapeXmlText s = s ≫= escape_unit.
Proof.
  unfold escapeXmlText, replace_unit. induction s as [|c s IH]; [done|].
  cbn [mbind list_bind]. rewrite !bind_app, IH. f_equal.
  unfold escape_unit. destruct (Z.eqb_spec c AMP) as [->|H1]; [done|]. rewrite bind_singleton.
  destruct (Z.eqb_spec c LT) as [->|H2]; [done|]. rewrite bind_singleton.
  by destruct (Z.eqb_spec c GT).
Qed.

Lemma escape_unit_plain c : Forall (λ d, d ≠ LT ∧ d ≠ GT) (escape_unit c).
Proof.
  unfold escape_unit. destruct (Z.eqb_spec c AMP); [by repeat constructor|].
  destruct (Z.eqb_spec c LT); [by repeat constructor|]. destruct (Z.eqb_spec c GT); [by repeat constructor|].
  by repeat constructor.
Qed.

Lemma escape_unit_prefix c d s t : escape_unit c ++ s = escape_unit d ++ t → c = d ∧ s = t.
Proof.
  unfold escape_unit.
  unfold AMP, LT, GT in *.
  destruct (Z.eqb_spec c 38), (Z.eqb_spec c 60), (Z.eqb_spec c 62), (Z.eqb_spec d 38), (Z.eqb_spec d 60), (Z.eqb_spec d 62);
    subst; try lia; intros E; cbn in E; injection E; intros; subst; split; first [done|lia].
Qed.

Lemma escape_inj s t : escapeXmlText s = escapeXmlText t → s = t.
Proof.
  rewrite !escape_one_pass. revert t. induction s as [|c s IH]; intros [|d t] E; [done|..].
  - cbn in E. exfalso. revert E. unfold escape_unit. by repeat case_match.
  - cbn in E. exfalso. revert E. unfold escape_unit. by repeat case_match.
  - cbn [mbind list_bind] in E. apply escape_unit_prefix in E as [-> E]. by rewrite (IH t E).
Qed.

Definition with_objective (o : jsstr) (g : GoalState) : GoalState :=
  MkGoal (active g) (status g) (goalId g) (Some o) (tokenBudget g) (tokensUsed g) (timeUsedSeconds g) (continuationsUsed g)
    (createdAt g) (updatedAt g) (lastReason g) (lastError g).

(** Joined lines around one of them. *)
Lemma text_lines_split l x k : ∃ before after, ∀ y, text_lines (l ++ (x ++ y) :: k) = before ++ y ++ after.
Proof.
  unfold text_lines. induction l as [|z l (before&after&IH)]; cbn [app].
  - destruct k as [|z k]; [exists x, []; intros y; cbn; by rewrite app_nil_r|].
    exists x, ([NL] ++ js_join [NL] (z :: k)). intros y. rewrite js_join_cons by done. by rewrite <-app_assoc.
  - exists (z ++ [NL] ++ before), after. intros y. rewrite js_join_cons by (by destruct l).
    rewrite IH. by rewrite <-!app_assoc.
Qed.

(** The text that a user gives as objective stays inside its element of the
    prompt: the prompt is a fixed text around the escaped objective, which
    contains neither [<] nor [>], so it cannot close the element that quotes it
    or open another; and two objectives never give the same prompt. *)
Theorem objective_cannot_close_its_tag g kind : ∃ before after,
  (∀ o, goal_context_text (with_objective o g) kind = before ++ escapeXmlText o ++ after) ∧
  (∀ o, Forall (λ c, c ≠ LT ∧ c ≠ GT) (escapeXmlText o)) ∧
  (∀ o o', goal_context_text (with_objective o g) kind = goal_context_text (with_objective o' g) kind → o = o').
Proof.
  assert (∃ before after, ∀ o, goal_context_text (with_objective o g) kind = before ++ escapeXmlText o ++ after)
    as (before&after&Heq).
  { assert (∃ l k, ∀ o, goalContextPrompt (with_objective o g) kind = text_lines (l ++ ([] ++ escapeXmlText o) :: k)) as (l&k&Hl).
    { destruct kind; eexists [_; _; _; _], _; intros o;
        unfold goalContextPrompt, continuationPrompt, budgetLimitPrompt, objectiveUpdatedPrompt, budget_text, remaining_text,
          objective_text; cbn [with_objective status tokenBudget tokensUsed timeUsedSeconds objective]; reflexivity. }
    destruct (text_lines_split l [] k) as (b&a&Hba).
    exists (js "<goal_context>" ++ [NL] ++ b), (a ++ [NL] ++ js "</goal_context>"). intros o.
    unfold goal_context_text. rewrite Hl, Hba. by rewrite <-!app_assoc. }
  exists before, after. split_and!; [done| |].
  - intros o. rewrite escape_one_pass. induction o as [|c o IH]; [constructor|]. cbn [mbind list_bind].
    apply Forall_app. split; [apply escape_unit_plain|done].
  - intros o o'. rewrite !Heq. intros E%app_inv_head%app_inv_tail. by apply escape_inj.
Qed.

(** ** Examples *)

Definition demo_usage (i o : Z) : Usage := MkUsage i o 0 0 (i + o) (MkCost 0 0 0 0 0).
Definition demo_answer (i o : Z) (stop : StopReason) : AssistantMessage :=
  MkAssistantMessage [] (js "api") (js "p") (js "m") (Some (demo_usage i o)) stop None None 2.

Definition demo_seeded : GoalSession (list CustomMessage) :=
  Eval vm_compute in (seed_goal 0 None (fresh_session (demo_start []) [])).1.
Definition demo_active : GoalSession (list CustomMessage) :=
  Eval vm_compute in run_goal_ops [OpSlash (js "/goal --budget 100 fix <it>") []] demo_seeded.
Definition demo_limited_ops : list (goal_op (W:=list CustomMessage)) :=
  [OpMessageEnd 0 (demo_answer 60 50 SrToolUse); OpSlash (js "/goal resume") []].

Lemma demo_recorded : recorded_ok (demo_start []).
Proof. intros e g. vm_compute. intros Hin. apply list_elem_of_singleton in Hin. discriminate. Qed.

Lemma demo_seeded_inv : GInv demo_seeded.
Proof.
  apply (seed_inv 0 None (demo_start []) []); [apply demo_start_inv|apply demo_recorded|]. by vm_compute.
Qed.

Lemma demo_active_inv : GInv demo_active.
Proof.
  apply life_none, (life_steps _ demo_seeded); [|by apply life_none, demo_seeded_inv].
  exact (run_goal_ops_steps [OpSlash (js "/goal --budget 100 fix <it>") []] demo_seeded).
Qed.


Lemma goal_reachable_witness :
  GInv (run_goal_ops [OpAfterTurn 3 (demo_answer 1 2 SrStop); OpSlash (js "/goal pause") []]
    (seed_goal 0 (Some (js "x", Some 10)) (fresh_session (demo_start []) [])).1).
Proof.
  apply (goal_reachable 0 (Some (js "x", Some 10)) (demo_start []) []
    (seed_goal 0 (Some (js "x", Some 10)) (fresh_session (demo_start []) [])).1);
    [apply demo_start_inv|apply demo_recorded|by vm_compute|].
  apply (rtc_subrel goal_step); [apply step_goal|apply run_goal_ops_steps].
Defined.

Definition demo_charges : list (nat * AssistantMessage) :=
  [(0%nat, demo_answer 30 10 SrToolUse); (0%nat, demo_answer 30 10 SrToolUse); (1%nat, demo_answer 500 0 SrAborted);
   (2%nat, demo_answer 50 20 SrStop); (3%nat, demo_answer 1 1 SrStop)].

Lemma usage_accounted_witness :
  tokensUsed (gs_goal (account_all demo_charges demo_active)) = 110 ∧
  ∃ charged rest, countable [] demo_charges = charged ++ rest ∧
    tokensUsed (gs_goal (account_all demo_charges demo_active)) = 0 + total_tokens charged.
Proof.
  split; [by vm_compute|].
  destruct (usage_accounted demo_charges demo_active demo_active_inv) as (charged&rest&Hc&Ht&_);
    [done|do 5 (apply Forall_cons_2; [by eexists|]); apply Forall_nil_2|]. exists charged, rest. exact (conj Hc Ht).
Defined.

Definition demo_file : SM := Eval vm_compute in demo_start [].

Lemma demo_file_inv : inv demo_file ∧ Dur demo_file.
Proof. assert (demo_file = demo_start []) as -> by (by vm_compute). apply demo_start_inv. Qed.

Definition demo_set : GoalSession (list CustomMessage) :=
  Eval vm_compute in (_setGoalState (gs_goal demo_active) (fresh_session demo_file [])).1.

Lemma goal_survives_restart_witness :
  ∃ m, setSessionFile demo_path None (blank [] [] true (sm_world (gs_session demo_set))) = (m, Ok tt) ∧
    goal_of_branch (branch_entries m) = gs_goal demo_set.
Proof.
  destruct (goal_survives_restart (gs_goal demo_active) (fresh_session demo_file []) demo_set
    (blank [] [] true (sm_world (gs_session demo_set))) demo_path
    (MkSessionHeader (Some 3) (Some (uuidv7 1)) 0 (js "/cwd") None (Some 0) None)) as (m&Hm&Hg&_).
  - exact (proj1 demo_file_inv).
  - exact (proj2 demo_file_inv).
  - reflexivity.
  - vm_compute. reflexivity.
  - discriminate.
  - reflexivity.
  - vm_compute. reflexivity.
  - reflexivity.
  - reflexivity.
  - vm_compute. reflexivity.
  - reflexivity.
  - exists m. exact (conj Hm Hg).
Defined.
