(* ===== verification/SessionContext.v ===== *)
(** * The model context of a session, migrations, forks

    The specification of [buildSessionContext] on every reachable session; what
    the version migration makes of an old file; what forking and branching into
    a new session keep. *)

From S2P Require Import Prelude.
From S2P Require Import JsMap.
From S2P Require Import JsString.
From S2P Require Import Json.
From S2P Require Import Messages.
From S2P Require Import Eff.
From S2P Require Import SessionEntry.
From S2P Require Import SessionManager.
From S2P Require Import SessionInvariant.

(** ** Specification of the context *)

(** The part of a list from the first element that satisfies [f]. *)
Fixpoint drop_until {A} (f : A → bool) (l : list A) : list A :=
  match l with
  | [] => []
  | x :: l' => if f x then l else drop_until f l'
  end.

Lemma retained_messages_found k l : retained_messages k true l = l ≫= entry_messages.
Proof. induction l as [|e l IH]; cbn; [done|]. by rewrite IH. Qed.

Lemma retained_messages_spec k l :
  retained_messages k false l = drop_until (λ e, bool_decide (e_id e = k)) l ≫= entry_messages.
Proof.
  induction l as [|e l IH]; [done|]. cbn. destruct (bool_decide (e_id e = k)); cbn; [|exact IH].
  by rewrite retained_messages_found.
Qed.

Definition no_compaction (l : list SessionEntry) : Prop := Forall (λ e, is_compaction e = false) l.

Lemma filter_no_compaction l : no_compaction l → filter (λ e, is_compaction e = true) l = [].
Proof.
  induction 1 as [|e l He _ IH]; [done|]. rewrite filter_cons_False by (by rewrite He). exact IH.
Qed.

Lemma latest_compaction pre e post : is_compaction e = true → no_compaction post →
  getLatestCompactionEntry (pre ++ e :: post) = Some e.
Proof.
  intros He Hp. unfold getLatestCompactionEntry. rewrite filter_app, filter_cons_True by done.
  rewrite (filter_no_compaction post) by done. by rewrite last_app_cons.
Qed.

Lemma find_index_unique (pre post : list SessionEntry) e :
  is_compaction e = true → NoDup (e_id <$> pre ++ e :: post) →
  find_index (λ e', is_compaction e' && bool_decide (e_id e' = e_id e)) (pre ++ e :: post) = Some (length pre).
Proof.
  intros He. induction pre as [|x pre IH]; cbn; intros HND.
  - by rewrite He, bool_decide_true.
  - apply NoDup_cons in HND as [Hx HND]. rewrite bool_decide_false, andb_false_r.
    + by rewrite IH.
    + intros E. apply Hx. rewrite E. apply list_elem_of_fmap. exists e. split; [done|].
      apply elem_of_app. right. by left.
Qed.

(** The messages of a path whose last compaction is [e]: its summary, then the
    kept messages from [firstKeptEntryId] on, then everything after it. *)
Lemma context_messages_compacted pre e c post :
  e_body e = BCompaction c → no_compaction post → NoDup (e_id <$> pre ++ e :: post) →
  let retained := drop_until (λ x, bool_decide (e_id x = ce_firstKeptEntryId c)) pre ≫= entry_messages in
  context_messages (pre ++ e :: post) =
    createCompactionSummaryMessage (ce_summary c) (ce_tokensBefore c) (e_timestamp e)
      (ce_customInstructions c) (Some (Z.of_nat (length retained)))
    :: retained ++ (post ≫= entry_messages).
Proof.
  intros He Hp HND retained. assert (Hc : is_compaction e = true) by (unfold is_compaction; by rewrite He).
  unfold context_messages. rewrite latest_compaction, He by done. rewrite find_index_unique by done.
  change (default 0%nat (Some (length pre))) with (length pre). rewrite take_app_length.
  replace (S (length pre)) with (length (pre ++ [e])) by (rewrite length_app; cbn; lia).
  replace (pre ++ e :: post) with ((pre ++ [e]) ++ post) by (by rewrite <-app_assoc).
  by rewrite drop_app_length, retained_messages_spec.
Qed.

Lemma context_messages_plain path : no_compaction path → context_messages path = path ≫= entry_messages.
Proof.
  intros Hp. unfold context_messages, getLatestCompactionEntry. by rewrite filter_no_compaction.
Qed.

(** The last setting of each kind wins. *)
Definition thinking_of (e : SessionEntry) : option jsstr :=
  match e_body e with BThinkingLevelChange l => Some l | _ => None end.
Definition tier_of (e : SessionEntry) : option (option jsstr) :=
  match e_body e with BServiceTierChange t => Some t | _ => None end.
Definition model_of (e : SessionEntry) : option (jsstr * jsstr) :=
  match e_body e with
  | BModelChange p m => Some (p, m)
  | BMessage (MAssistant m) => Some (am_provider m, am_model m)
  | _ => None
  end.

Lemma context_settings_spec path :
  foldl context_settings (js "off", Some (js "default"), None) path =
  (default (js "off") (last (omap thinking_of path)),
   default (Some (js "default")) (last (omap tier_of path)),
   last (omap model_of path)).
Proof.
  induction path as [|e path IH] using rev_ind; [done|]. rewrite foldl_app, IH. cbn [foldl].
  rewrite !omap_app. cbn [omap list_omap]. unfold context_settings, thinking_of, tier_of, model_of.
  destruct (e_body e) as [[]| | | | | | | | | | | | |]; cbn [omap list_omap]; rewrite ?app_nil_r, ?last_snoc; done.
Qed.

Section context.
Context `{UuidLaws}.

Lemma leaf_branch s : inv s → ∃ path, getBranch s None = Some path ∧ NoDup (e_id <$> path) ∧
  buildSessionContext_method s = Some (context_of_path path).
Proof.
  intros Hs. unfold buildSessionContext_method, buildSessionContext, getBranch, walk_from.
  destruct (sm_leafId s) as [id|] eqn:El.
  - assert (Hid : id ∈ entry_ids (sm_fileEntries s)) by (by apply (wf_leaf _ (proj1 Hs))).
    apply entry_is_at in Hid as (i&e&Hi&<-).
    destruct (branch_of_entry s e i Hs Hi) as (path&Hb&_&_&_&HND). exists path.
    unfold getBranch, walk_from in Hb. assert (Hge : getEntry s (e_id e) = Some e).
    { apply getEntry_spec; [done|]. by exists i. }
    destruct (e_id e) as [|c l] eqn:Ee.
    { pose proof (wf_nonempty _ _ (wf_store _ (proj1 Hs))) as Hne. rewrite Forall_forall in Hne.
      exfalso. by apply (Hne (e_id e)); [apply (entry_at_ids _ i); exists e|]. }
    rewrite Hge in Hb |- *. split_and!; [done|done|]. unfold from_option, id. rewrite Hge.
    destruct (walk (getEntry s) _ _) as [up|]; [|done]. injection Hb as <-. done.
  - exists []. split_and!; [by destruct (walk_fuel s)|constructor|done].
Qed.
End context.

(** C4: on every reachable session the context is built (the walk ends) from
    the branch to the leaf: the settings are the last ones on the branch; the
    messages are those of the branch or, when it was compacted, the last
    compaction's summary, the messages kept before it from [firstKeptEntryId]
    on (their number recorded in the summary) and those after it. *)
Theorem buildSessionContext_spec `{UuidLaws} s : inv s →
  ∃ path ctx, getBranch s None = Some path ∧ buildSessionContext_method s = Some ctx ∧
    sc_thinkingLevel ctx = default (js "off") (last (omap thinking_of path)) ∧
    sc_serviceTier ctx = default (Some (js "default")) (last (omap tier_of path)) ∧
    sc_model ctx = last (omap model_of path) ∧
    (no_compaction path → sc_messages ctx = path ≫= entry_messages) ∧
    (∀ pre e c post, path = pre ++ e :: post → e_body e = BCompaction c → no_compaction post →
      let retained := drop_until (λ x, bool_decide (e_id x = ce_firstKeptEntryId c)) pre ≫= entry_messages in
      sc_messages ctx =
        createCompactionSummaryMessage (ce_summary c) (ce_tokensBefore c) (e_timestamp e)
          (ce_customInstructions c) (Some (Z.of_nat (length retained)))
        :: retained ++ (post ≫= entry_messages)).
Proof.
  intros Hs. destruct (leaf_branch s Hs) as (path&Hb&HND&Hctx).
  exists path, (context_of_path path). unfold context_of_path. rewrite context_settings_spec.
  split_and!; [done| |done..| |].
  - rewrite Hctx. unfold context_of_path. by rewrite context_settings_spec.
  - cbn. apply context_messages_plain.
  - cbn. intros pre e c post -> He Hp. by apply context_messages_compacted.
Qed.

Lemma buildSessionContext_spec_witness :
  let s := run_ops [OpMessage (demo_user (js "a")); OpMessage (demo_user (js "b"));
                    OpCompaction (js "sum") (replicate 8 1) 7 None None None None;
                    OpMessage (demo_user (js "c")); OpThinkingLevel (js "high")] (demo_start []) in
  ∃ ctx, buildSessionContext_method s = Some ctx.
Proof.
  intros s. assert (Hs : inv s).
  { apply inv_run_ops. split; [split|]; cbn; [by apply wf_entries_header|done|intros m _; apply not_elem_of_nil]. }
  destruct (buildSessionContext_spec s Hs) as (path&ctx&_&Hctx&_). by exists ctx.
Defined.

(** ** Migration of version-1 files *)

Section migration.
Context (uuid : nat → jsstr).

Definition v1_id (n k : nat) : jsstr := take 8 (uuid (n + k)).

(** The parent a version-1 entry gets: the entry before it. *)
Definition v1_parent (n k : nat) (prev : option jsstr) : option jsstr :=
  match k with O => prev | S j => Some (v1_id n j) end.

(** What the first migration makes of entry number [k] of the list. *)
Definition v1_migrated (base n k : nat) (prev : option jsstr) (e e' : SessionEntry) : Prop :=
  e_id e' = v1_id n k ∧ e_parentId e' = v1_parent n k prev ∧ e_timestamp e' = e_timestamp e ∧
  match e_body e with
  | BCompaction c => ∃ c', e_body e' = BCompaction c' ∧ ce_summary c' = ce_summary c ∧
      ce_tokensBefore c' = ce_tokensBefore c ∧
      ∀ i, ce_firstKeptEntryIndex c = Some (Z.of_nat (base + i)) → (i <= k)%nat →
        ce_firstKeptEntryId c' = v1_id n i
  | b => e_body e' = b
  end.

Lemma generateId_unchecked n : generateId uuid (λ _, false) n = (take 8 (uuid n), S n).
Proof. done. Qed.

Lemma v1_id_shift n k : v1_id (S n) k = v1_id n (S k).
Proof. unfold v1_id. do 2 f_equal. lia. Qed.

(** [pre] are the entries already migrated; the ids of [pre] continue those of
    the rest. *)
Lemma migrateV1ToV2_loop_spec h rest : ∀ pre n,
  (∀ i, (i < length pre)%nat → e_id <$> pre !! i = Some (v1_id n i)) →
  ∃ out, migrateV1ToV2_loop uuid (FHeader h :: (FEntry <$> pre)) (FEntry <$> rest)
           (v1_parent n (length pre) None) (n + length pre)
         = (FHeader h :: (FEntry <$> pre ++ out), (n + length pre + length rest)%nat) ∧
    length out = length rest ∧
    ∀ k e, rest !! k = Some e → ∃ e', out !! k = Some e' ∧ v1_migrated 1 n (length pre + k) None e e'.
Proof.
  induction rest as [|e rest IH]; intros pre n Hpre.
  { exists []. rewrite app_nil_r, Nat.add_0_r. split_and!; [done|done|]. by intros k e. }
  rewrite fmap_cons. cbn [migrateV1ToV2_loop]. rewrite generateId_unchecked.
  set (id := take 8 (uuid (n + length pre))). set (prev := v1_parent n (length pre) None).
  set (e1 := MkSessionEntry id prev (e_timestamp e) (e_body e)).
  set (e2 := match e_body e with BCompaction c => _ | _ => e1 end).
  assert (He2 : e_id e2 = id ∧ e_parentId e2 = prev ∧ e_timestamp e2 = e_timestamp e)
    by (unfold e2; by destruct (e_body e)).
  destruct He2 as (Hid&Hprev&Hts).
  assert (Hmig : v1_migrated 1 n (length pre) None e e2).
  { unfold v1_migrated. split_and!; [by rewrite Hid|by rewrite Hprev|done|].
    unfold e2. destruct (e_body e) as [| | | |c| | | | | | | | |] eqn:Eb; try done.
    eexists. split; [done|]. unfold resolve_first_kept.
    destruct (ce_firstKeptEntryIndex c) as [z|]; [|done]. cbn. split_and!; [done..|].
    intros i [= ->] Hi. rewrite (proj2 (Z.ltb_ge _ _)) by lia. rewrite Nat2Z.id.
    change (1 + i)%nat with (S i). cbn [app]. rewrite lookup_cons.
    destruct (decide (i = length pre)) as [->|Hne].
    - rewrite lookup_app_r by (by rewrite length_fmap). rewrite length_fmap, Nat.sub_diag. done.
    - rewrite lookup_app_l by (rewrite length_fmap; lia). rewrite list_lookup_fmap.
      specialize (Hpre i ltac:(lia)). destruct (pre !! i) as [t|]; [|done]. cbn in *. by injection Hpre. }
  replace ((FHeader h :: (FEntry <$> pre)) ++ [FEntry e2]) with (FHeader h :: (FEntry <$> pre ++ [e2]))
    by (by rewrite fmap_app).
  destruct (IH (pre ++ [e2]) n) as (out&Hout&Hlen&Hall).
  { intros i Hi. rewrite length_app in Hi. cbn in Hi. destruct (decide (i = length pre)) as [->|Hne].
    - rewrite lookup_app_r, Nat.sub_diag by lia. cbn. by rewrite Hid.
    - rewrite lookup_app_l by lia. apply Hpre. lia. }
  rewrite length_app in Hout, Hall. cbn [length] in Hout, Hall.
  exists (e2 :: out). rewrite <-app_assoc in Hout. split_and!.
  - replace (S (n + length pre)) with (n + (length pre + 1))%nat by lia.
    replace (Some id) with (v1_parent n (length pre + 1) None)
      by (rewrite Nat.add_1_r; done).
    rewrite Hout. f_equal. cbn. lia.
  - cbn. by rewrite Hlen.
  - intros [|k] x Hx; cbn in *; [exists e2; injection Hx as <-; by rewrite Nat.add_0_r|].
    destruct (Hall k x Hx) as (x'&?&?). exists x'. split; [done|].
    by replace (length pre + S k)%nat with (length pre + 1 + k)%nat by lia.
Qed.
End migration.

(** What the second migration makes of an entry. *)
Definition v2_migrated (e : SessionEntry) : SessionEntry :=
  match e_body e with
  | BMessage (MHookMessage m) => MkSessionEntry (e_id e) (e_parentId e) (e_timestamp e) (BMessage (MCustom m))
  | _ => e
  end.

Lemma migrateV2ToV3_entries l : migrateV2ToV3 (FEntry <$> l) = FEntry <$> (v2_migrated <$> l).
Proof.
  induction l as [|e l IH]; [done|]. unfold migrateV2ToV3 in *. rewrite !fmap_cons, IH. f_equal.
  unfold v2_migrated. by destruct e as [? ? ? [[]| | | | | | | | | | | | |]].
Qed.

(** Migrating a version-1 file (no ids, no parents) gives a version-3 file
    with the same entries in order as one chain: each entry's parent is the one
    before it; a compaction that named its first kept entry by index now names
    that entry's id; a second migration changes nothing. *)
Theorem migrate_v1_chain uuid h rest n :
  default 1 (sh_version h) < 2 →
  ∃ out, migrateToCurrentVersion uuid (FHeader h :: (FEntry <$> rest)) n
         = (FHeader (set_version 3 h) :: (FEntry <$> out), true, (n + length rest)%nat) ∧
    length out = length rest ∧
    (∀ k e, rest !! k = Some e → ∃ e1 e', out !! k = Some e' ∧ e' = v2_migrated e1 ∧
      v1_migrated uuid 1 n k None e e1) ∧
    (∀ m, migrateToCurrentVersion uuid (FHeader (set_version 3 h) :: (FEntry <$> out)) m
          = (FHeader (set_version 3 h) :: (FEntry <$> out), false, m)).
Proof.
  intros Hv. destruct (migrateV1ToV2_loop_spec uuid (set_version 2 h) rest [] n) as (out&Hout&Hlen&Hall);
    [intros i Hi; cbn in Hi; lia|].
  exists (v2_migrated <$> out). split_and!.
  - unfold migrateToCurrentVersion. cbn [find_header head omap list_omap].
    change (default 1 (head [h] ≫= sh_version)) with (default 1 (sh_version h)).
    unfold CURRENT_SESSION_VERSION. rewrite (proj2 (Z.leb_gt _ _)) by lia.
    rewrite (proj2 (Z.ltb_lt _ _)) by lia. unfold migrateV1ToV2. cbn [migrateV1ToV2_loop app].
    cbn in Hout. rewrite Nat.add_0_r in Hout. rewrite Hout.
    rewrite (proj2 (Z.ltb_lt _ 3)) by lia.
    change (migrateV2ToV3 (FHeader (set_version 2 h) :: (FEntry <$> out)))
      with (FHeader (set_version 3 h) :: migrateV2ToV3 (FEntry <$> out)).
    by rewrite migrateV2ToV3_entries.
  - by rewrite length_fmap.
  - intros k e Hk. destruct (Hall k e Hk) as (e1&He1&Hm). exists e1, (v2_migrated e1).
    split_and!; [|done|exact Hm]. by rewrite list_lookup_fmap, He1.
  - intros m. done.
Qed.

Lemma migrate_v1_chain_witness :
  let h := MkSessionHeader None (Some (js "s")) 0 (js "/cwd") None None None in
  let rest := [MkSessionEntry [] None 1 (BMessage (demo_user (js "a")));
               MkSessionEntry [] None 2 (BCompaction (MkCompactionEntry (js "sum") [] 5 None None None None (Some 1)))] in
  ∃ out, migrateToCurrentVersion randomUUID (FHeader h :: (FEntry <$> rest)) 0
         = (FHeader (set_version 3 h) :: (FEntry <$> out), true, 2%nat).
Proof.
  intros h rest. destruct (migrate_v1_chain randomUUID h rest 0 ltac:(reflexivity)) as (out&Hout&_).
  exists out. exact Hout.
Defined.

(** The set of used ids that [migrateV1ToV2] passes to [generateId] stays
    empty, so two entries can get the same id even though all uuids differ: the
    collision check of [generateId] has no effect in the migration. *)
Theorem migration_may_duplicate_ids :
  ∃ uuid : nat → jsstr, (∀ n m, uuid n = uuid m → n = m) ∧
  ∃ entries, NoDup entries ∧ ¬ NoDup (entry_ids (migrateV1ToV2 uuid entries 0).1).
Proof.
  exists (λ n, js "aaaaaaaa" ++ [Z.of_nat n]). split.
  { intros n m E. apply app_inv_head in E. injection E. lia. }
  exists [FEntry (MkSessionEntry [] None 1 (BSessionInfo None)); FEntry (MkSessionEntry [] None 2 (BSessionInfo None))].
  split; [apply NoDup_cons; split; [by intros ?%list_elem_of_singleton|apply NoDup_singleton]|].
  intros HND. vm_compute in HND. apply NoDup_cons in HND as [Hn _]. apply Hn. by left.
Qed.

(** ** Forks *)

(** The link of an entry of the fork. *)
Definition relink (dropped : list (jsstr * option jsstr)) (e : SessionEntry) : SessionEntry :=
  set_parentId (liveParent (S (length dropped)) dropped (e_parentId e)) e.

Definition live (path : list SessionEntry) : list SessionEntry := filter (λ e, is_git_state e = false) path.
Definition dead (path : list SessionEntry) : list SessionEntry := filter (λ e, is_git_state e = true) path.

Definition dropped_step (m : list (jsstr * option jsstr)) (e : SessionEntry) :=
  if is_git_state e then jm_set m (e_id e) (e_parentId e) else m.

Lemma dropped_parents_get l e : NoDup (entry_ids l) → e ∈ session_entries l →
  jm_get (dropped_parents l) (e_id e) = if is_git_state e then Some (e_parentId e) else None.
Proof.
  unfold dropped_parents, entry_ids. change (λ m e, if is_git_state e then _ else m) with dropped_step.
  generalize (session_entries l). clear l. intros l.
  induction l as [|x l IH] using rev_ind; [by intros _ ?%elem_of_nil|].
  rewrite fmap_app, foldl_app. intros HND [Hin|Hin]%elem_of_app.
  - pose proof HND as (HND'&Hdis&_)%NoDup_app. cbn. unfold dropped_step at 1.
    destruct (is_git_state x); [|by apply IH]. rewrite jm_get_set_ne; [by apply IH|].
    intros E. apply (Hdis (e_id e)); [apply list_elem_of_fmap; by exists e|]. rewrite <-E. by left.
  - apply list_elem_of_singleton in Hin as ->. cbn. unfold dropped_step at 1.
    destruct (is_git_state x); [by rewrite jm_get_set_eq|].
    assert (∀ m, jm_get m (e_id x) = None → jm_get (foldl dropped_step m l) (e_id x) = None) as Hg.
    { apply NoDup_app in HND as (_&Hdis&_). clear IH. induction l as [|y l IH]; [done|]. intros m Hm. cbn.
      apply IH; [|].
      - intros z Hz. apply Hdis. by right.
      - unfold dropped_step. destruct (is_git_state y); [|done]. rewrite jm_get_set_ne; [done|].
        intros E. apply (Hdis (e_id y)); [by left|]. rewrite E. by left. }
    by apply Hg.
Qed.

Lemma chain_snoc_iff path e : chain (path ++ [e]) ↔ chain path ∧ e_parentId e = e_id <$> last path.
Proof.
  split.
  - intros Hc. split.
    + intros i x Hi. pose proof (Hc i x ltac:(by apply lookup_app_l_Some)) as Hx.
      destruct i as [|i]; [done|]. destruct Hx as (y&Hy&?). exists y. split; [|done].
      rewrite lookup_app_l in Hy; [done|]. apply lookup_lt_Some in Hi. lia.
    + pose proof (Hc (length path) e ltac:(by rewrite lookup_app_r, Nat.sub_diag by lia)) as Hx.
      rewrite last_lookup. destruct path as [|y path]; [exact Hx|]. cbn in Hx. destruct Hx as (z&Hz&->).
      cbn [length pred]. rewrite app_comm_cons, lookup_app_l in Hz by (cbn; lia). by rewrite Hz.
  - intros [Hc Hp]. destruct (last path) as [x|] eqn:El; [by eapply chain_snoc|].
    apply last_None in El as ->. intros [|i] x Hi; [|done]. by injection Hi as <-.
Qed.

(** Following dropped parents from the end of a path leads to its last live
    entry. *)
Lemma liveParent_path l path fuel :
  NoDup (entry_ids l) → chain path → Forall (λ e, e ∈ session_entries l) path →
  (length (dead path) <= fuel)%nat →
  liveParent fuel (dropped_parents l) (e_id <$> last path) = e_id <$> last (live path).
Proof.
  intros HND. revert fuel. induction path as [|e path IH] using rev_ind; intros fuel Hc Hall Hf.
  { by destruct fuel. }
  apply Forall_app in Hall as [Hall [He _]%Forall_cons].
  apply chain_snoc_iff in Hc as [Hc' Hpar].
  unfold live, dead in *. rewrite !filter_app in *. rewrite last_snoc.
  pose proof (dropped_parents_get l e HND He) as Hd. rewrite filter_cons in Hf |- *. 
  destruct (is_git_state e) eqn:Eg.
  - rewrite decide_False by done. rewrite decide_True in Hf by done.
    rewrite length_app in Hf. cbn in Hf. destruct fuel as [|fuel]; [lia|]. cbn. rewrite Hd.
    rewrite app_nil_r, Hpar. apply IH; [done..|]. lia.
  - rewrite decide_True by done. rewrite filter_nil, last_snoc. cbn. destruct fuel; cbn; by rewrite Hd.
Qed.

Lemma dropped_bound l path : NoDup (entry_ids l) → NoDup (e_id <$> path) →
  Forall (λ e, e ∈ session_entries l) path → (length (dead path) <= length (dropped_parents l))%nat.
Proof.
  intros HND HNDp Hall. rewrite <-(length_fmap e_id (dead path)), <-(length_fmap fst (dropped_parents l)).
  apply submseteq_length, NoDup_submseteq.
  - unfold dead. clear Hall. induction path as [|x path IH]; [constructor|].
    rewrite fmap_cons in HNDp. apply NoDup_cons in HNDp as [Hx HNDp]. rewrite filter_cons.
    case_decide; [|by apply IH]. rewrite fmap_cons. apply NoDup_cons. split; [|by apply IH].
    intros Hin. apply Hx. apply list_elem_of_fmap in Hin as (y&->&Hy).
    apply list_elem_of_filter in Hy as [_ Hy]. apply list_elem_of_fmap. by exists y.
  - intros id Hin. apply list_elem_of_fmap in Hin as (e&->&He).
    apply list_elem_of_filter in He as [Hg He]. rewrite Forall_forall in Hall.
    apply jm_get_is_Some. rewrite dropped_parents_get by auto. rewrite Hg. by eexists.
Qed.

(** A fork copies every entry except the git states, in order and with
    only its parent link changed, and keeps every branch: the live entries of a
    root-to-leaf path of the source form a root-to-leaf path of the fork. *)
Theorem fork_keeps_branches l path :
  NoDup (entry_ids l) → chain path → NoDup (e_id <$> path) → Forall (λ e, e ∈ session_entries l) path →
  let d := dropped_parents l in
  fork_entries l = relink d <$> live (session_entries l) ∧ chain (relink d <$> live path).
Proof.
  intros HND Hc HNDp Hall d. split; [done|].
  pose proof (dropped_bound l path HND HNDp Hall) as Hb. clear HNDp.
  induction path as [|e path IH] using rev_ind; [by intros i x|].
  pose proof Hc as [Hc' Hp]%chain_snoc_iff. pose proof Hall as [Hall' _]%Forall_app.
  unfold live, dead in *. rewrite !filter_app in *. rewrite length_app in Hb.
  specialize (IH Hc' Hall' ltac:(lia)). rewrite filter_cons, filter_nil.
  case_decide as Hg; [|by rewrite app_nil_r]. rewrite fmap_app.
  change (relink d <$> [e]) with [relink d e]. apply chain_snoc_iff. split; [exact IH|].
  change (e_parentId (relink d e)) with (liveParent (S (length d)) (dropped_parents l) (e_parentId e)). rewrite Hp.
  rewrite (liveParent_path l path) by (done || (unfold dead, d; lia)). unfold live.
  rewrite fmap_last. match goal with |- _ <$> ?x = _ => destruct x end; reflexivity.
Qed.

Lemma fork_keeps_branches_witness :
  let g := MkSessionEntry (js "g") (Some (js "a")) 2 (BGitState (MkGitContext None None None)) in
  let a := MkSessionEntry (js "a") None 1 (BMessage (demo_user (js "hi"))) in
  let b := MkSessionEntry (js "b") (Some (js "g")) 3 (BMessage (demo_user (js "yo"))) in
  let l := FEntry <$> [a; g; b] in
  chain (relink (dropped_parents l) <$> live [a; g; b]).
Proof.
  intros g a b l. refine (proj2 (fork_keeps_branches l [a; g; b] _ _ _ _)).
  - apply (bool_decide_unpack (NoDup _)). vm_compute. exact I.
  - intros [|[|[|i]]] x Hx; [injection Hx as <-..|done]; [done|by exists a|by exists g].
  - apply (bool_decide_unpack (NoDup _)). vm_compute. exact I.
  - apply Forall_forall. intros x Hx. unfold l, session_entries. cbn. exact Hx.
Defined.

(** ** Branching into a new session *)

(** [createBranchedSession] leaves out the label entries of the branch
    without re-linking their children.  Here a label lies between two messages:
    the branch of four entries (three messages) becomes, in the new session, a
    branch that starts after the label, and the model context keeps one message
    of the three. *)
Theorem branched_session_loses_history :
  let s := run_ops [OpMessage (demo_user (js "one")); OpMessage (demo_assistant (js "two"));
                    OpLabel (replicate 8 0) (Some (js "mark")); OpMessage (demo_user (js "three"))]
             (demo_start []) in
  let s' := (createBranchedSession (default [] (sm_leafId s)) s).1 in
  length <$> getBranch s None = Some 4%nat ∧
  (length ∘ sc_messages) <$> buildSessionContext_method s = Some 3%nat ∧
  (length ∘ sc_messages) <$> buildSessionContext_method s' = Some 1%nat.
Proof. vm_compute. split_and!; reflexivity. Qed.

(** ** The spawn depth of a session *)

Section depth.
Context `{Platform}.

Definition depth_ok (d : option Z) : Prop := ∀ v, d = Some v → 0 ≤ v.

Lemma count_while_nonneg {A} (f : A → bool) l : 0 ≤ count_while f l.
Proof. induction l as [|x l IH]; cbn; [done|]. destruct (f x); lia. Qed.

Lemma legacyChildDepth_nonneg path : 0 ≤ legacyChildDepthFromPath path.
Proof. apply count_while_nonneg. Qed.

Lemma valid_depth_ok d : isValidRlmDepth d = true → depth_ok d.
Proof. intros Hv v ->. cbn in Hv. apply andb_true_iff in Hv as [Hv _]. lia. Qed.

Context (path_resolve_idem : ∀ d p, path_resolve (path_resolve2 d p) = path_resolve2 d p).

(** Every path visited but the first is a file of the disk, and none is visited
    twice; so the walk visits at most one path more than there are files. *)
Lemma resolveLegacy_terminates disk first fuel : ∀ header sessionPath visited,
  NoDup visited → visited ⊆ first :: jm_keys disk →
  path_resolve sessionPath ∈ first :: jm_keys disk →
  (rlm_fuel disk <= fuel + length visited)%nat →
  ∃ d, resolveLegacySessionRlmDepth fuel disk header sessionPath visited = Some d ∧ depth_ok d.
Proof.
  induction fuel as [|fuel IH]; intros header path visited HND Hsub Hin Hfuel; cbn [resolveLegacySessionRlmDepth].
  - exfalso. pose proof (submseteq_length _ _ (NoDup_submseteq _ _ HND Hsub)) as Hl.
    unfold rlm_fuel in Hfuel. cbn in Hl. unfold jm_keys in Hl. rewrite length_fmap in Hl. lia.
  - destruct (isValidRlmDepth _) eqn:Hv; [by eexists; split; [|apply valid_depth_ok]|].
    destruct (truthy _); cbn [negb]; [|by exists (Some 0); split; [|intros ? [= <-]]].
    case_bool_decide as Hvis; [by exists None|]. cbv zeta.
    pose proof (legacyChildDepth_nonneg path) as Hpd. set (pd := legacyChildDepthFromPath path) in *.
    destruct (readSessionHeader _ _) as [[parent|e]|] eqn:Hread.
    + destruct (IH parent (path_resolve2 (path_dirname path) (default [] (sh_parentSession header)))
                  (path_resolve path :: visited)) as (d&->&Hd).
      * by constructor.
      * intros x [->|Hx]%elem_of_cons; [done|by apply Hsub].
      * rewrite path_resolve_idem. apply elem_of_cons. right. apply jm_get_is_Some.
        unfold readSessionHeader in Hread. by apply bind_Some in Hread as (f&->&_).
      * cbn [length]. lia.
      * destruct d as [d|]; (eexists; split; [done|]); intros ? [= <-]; [|done].
        specialize (Hd d eq_refl). case_match; lia.
    + eexists; split; [done|]. intros ? [= <-]. case_match; lia.
    + eexists; split; [done|]. by intros ? [= <-].
Qed.

(** The spawn depth of a session is always found: following the parents of
    session files ends, whatever the files say of each other, even in a cycle;
    and the depth is not negative. *)
Theorem rlm_depth_terminates disk header sessionPath :
  (∃ d, resolveLegacySessionRlmDepth (rlm_fuel disk) disk header sessionPath [] = Some d) ∧
  0 ≤ resolveSessionRlmDepth disk header sessionPath.
Proof.
  destruct (resolveLegacy_terminates disk (path_resolve sessionPath) (rlm_fuel disk) header sessionPath [])
    as (d&Hd&Hok); [apply NoDup_nil_2|by intros x Hx%elem_of_nil|by apply elem_of_cons; left|cbn [length]; lia|].
  split; [by exists d|]. unfold resolveSessionRlmDepth. rewrite Hd.
  destruct d as [d|]; [by apply Hok|apply legacyChildDepth_nonneg].
Qed.
End depth.

(** Two session files, each the parent of the other. *)
Definition cyclic_disk : list (jsstr * file) :=
  let h parent := MkSessionHeader (Some 3) (Some (js "s")) 0 [] (Some (js parent)) None None in
  [(js "/a", MkFile [Some (FHeader (h "/b"))] None); (js "/b", MkFile [Some (FHeader (h "/a"))] None)].

Lemma rlm_depth_terminates_witness :
  let h := MkSessionHeader (Some 3) (Some (js "s")) 0 [] (Some (js "/b")) None None in
  (∃ d, resolveLegacySessionRlmDepth (rlm_fuel cyclic_disk) cyclic_disk h (js "/a") [] = Some d) ∧
  0 ≤ resolveSessionRlmDepth cyclic_disk h (js "/a").
Proof. intros h. apply rlm_depth_terminates. reflexivity. Defined.
