(* ===== verification/AgentLoop.v ===== *)
(** * The agent loop

    Models [packages/agent/src/agent-loop.ts]: the turn loop, the streaming of
    one assistant response, the preparation and execution of tool calls in
    both modes.

    Everything outside the file (the provider, tools, hooks, queues, event
    listeners, the abort signal) is an operation on an abstract world [W].  An
    awaited operation settles, or loses the race against the abort signal
    ([raceWithAbort]).  In parallel mode the tool runs are small state machines
    advanced one step at a time in an order the world chooses, so that every
    interleaving of their events is a run of the model.

    A partial assistant message is the value carried by the last streaming
    event.  An event sink that rejects while a tool runs in parallel ends the
    batch at once; what the other tools emit afterwards is not modelled. *)

From S2P Require Import Prelude.
From S2P Require Import Json.
From S2P Require Import Messages.
From S2P Require Import Eff.

(** ** Data *)

(** [err_abort] is [isAbortError(error)]. *)
Record lerr := MkErr { err_message : jsstr; err_abort : bool }.

Definition ABORT_ERROR_MESSAGE : jsstr := js "Request was aborted".
Definition createAbortError : lerr := MkErr ABORT_ERROR_MESSAGE true.
Definition EMPTY_USAGE : Usage := MkUsage 0 0 0 0 0 (MkCost 0 0 0 0 0).

(** The three ways a race against the abort signal can end. *)
Inductive outcome (A : Type) := Resolved (a : A) | Rejected (e : lerr) | AbortedFirst.
Arguments Resolved {A} a.
Arguments Rejected {A} e.
Arguments AbortedFirst {A}.

Record AgentToolResult := MkToolResult {
  tr_content : list block; tr_details : option json; tr_terminate : option bool
}.

Record ToolCall := MkToolCall { tc_id : jsstr; tc_name : jsstr; tc_arguments : json }.

(** The tool calls among the content blocks, in order. *)
Definition tool_calls (content : list block) : list ToolCall :=
  omap (λ b, match b with ToolCallBlock id name args => Some (MkToolCall id name args) | _ => None end)
    content.

Record BeforeToolCallResult := MkBefore { bt_block : bool; bt_reason : option jsstr }.

Record AfterToolCallResult := MkAfter {
  at_content : option (list block);
  at_details : option json;
  at_isError : option bool;
  at_terminate : option bool
}.

Inductive AgentEvent :=
| AgentStart
| AgentEnd (messages : list AgentMessage)
| TurnStart
| TurnEnd (message : AssistantMessage) (toolResults : list ToolResultMessage)
| MessageStart (message : AgentMessage)
| MessageUpdate (message : AssistantMessage)
| MessageEnd (message : AgentMessage)
| ToolExecutionStart (toolCallId toolName : jsstr) (args : json)
| ToolExecutionUpdate (toolCallId toolName : jsstr) (args : json) (partialResult : AgentToolResult)
| ToolExecutionEnd (toolCallId toolName : jsstr) (result : AgentToolResult) (isError : bool).

(** Events of the provider's stream; [SUpdate] stands for the nine delta kinds,
    which the loop treats alike. *)
Inductive StreamEvent :=
| SStart (partial : AssistantMessage)
| SUpdate (partial : AssistantMessage)
| SDone (message : AssistantMessage)
| SError (error : AssistantMessage).

(** What the post-turn hooks are given. *)
Record TurnInfo := MkTurnInfo {
  ti_message : AssistantMessage;
  ti_toolResults : list ToolResultMessage;
  ti_context : list AgentMessage;
  ti_newMessages : list AgentMessage
}.

Section config.
Context (W : Type).

Definition Call (A : Type) : Type := W → outcome A * W.

(** The response object: the events its iterator yields and [result()]. *)
Record Response := MkResponse {
  r_events : list StreamEvent;
  r_result : Call AssistantMessage
}.

(** [execute] gives the partial results the tool publishes and how it settles. *)
Record AgentTool := MkTool {
  t_name : jsstr;
  t_sequential : bool;
  t_prepareArguments : option (json → result lerr json);
  t_validate : json → result lerr json;
  t_execute : jsstr → json → W → (list AgentToolResult * outcome AgentToolResult) * W
}.

Record Config := MkConfig {
  c_model_api : jsstr;
  c_model_provider : jsstr;
  c_model_id : jsstr;
  c_sequential : bool;
  c_systemPrompt : W → jsstr;
  c_tools : list AgentTool;
  c_transformContext : option (list AgentMessage → Call (list AgentMessage));
  c_convertToLlm : list AgentMessage → Call (list AgentMessage);
  c_getApiKey : option (Call (option jsstr));
  c_apiKey : option jsstr;
  c_stream : jsstr → list AgentMessage → option jsstr → Call Response;
  c_next : Call unit;
  c_getSteeringMessages : option (Call (list AgentMessage));
  c_getFollowUpMessages : option (Call (list AgentMessage));
  c_getContinuationMessages : option (TurnInfo → Call (list AgentMessage));
  c_shouldStopAfterTurn : option (TurnInfo → Call bool);
  c_shouldStopBeforeTurn : option (W → result lerr bool * W);
  c_beforeToolCall : option (ToolCall → json → list AgentMessage → Call (option BeforeToolCallResult));
  c_afterToolCall : option (ToolCall → json → AgentToolResult → bool → list AgentMessage →
                            Call (option AfterToolCallResult));
  (** [signal?.aborted] *)
  c_aborted : W → bool;
  (** the event sink: its awaited result *)
  c_emit : AgentEvent → W → result lerr unit * W;
  c_now : W → Z;
  (** which of the running tools goes on next *)
  c_pick : W → nat
}.
End config.

Arguments r_events {W} r.
Arguments r_result {W} r.
Arguments MkResponse {W} _ _.
Arguments MkTool {W} _ _ _ _ _.
Arguments t_name {W} a.
Arguments t_sequential {W} a.
Arguments t_prepareArguments {W} a.
Arguments t_validate {W} a.
Arguments t_execute {W} a.

(** The state of a run.  [st_partial] is the local variable [partialMessage] of
    [streamAssistantResponse]; [addedPartial] is true exactly when it is set. *)
Record St (W : Type) := MkSt {
  st_messages : list AgentMessage;
  st_new : list AgentMessage;
  st_partial : option AssistantMessage;
  st_trace : list AgentEvent;
  st_world : W
}.
Arguments MkSt {W} _ _ _ _ _.
Arguments st_messages {W} s.
Arguments st_new {W} s.
Arguments st_partial {W} s.
Arguments st_trace {W} s.
Arguments st_world {W} s.

Section loop.
Context {W : Type} (config : Config W).

Abbreviation L := (eff (St W) lerr).

Definition set_messages (m : list AgentMessage) (s : St W) : St W :=
  MkSt m (st_new s) (st_partial s) (st_trace s) (st_world s).
Definition push_message (m : AgentMessage) (s : St W) : St W := set_messages (st_messages s ++ [m]) s.
(** [context.messages[context.messages.length - 1] = m] *)
Definition set_last_message (m : AgentMessage) (s : St W) : St W :=
  set_messages (take (pred (length (st_messages s))) (st_messages s) ++ [m]) s.
Definition push_new (m : AgentMessage) (s : St W) : St W :=
  MkSt (st_messages s) (st_new s ++ [m]) (st_partial s) (st_trace s) (st_world s).
Definition set_partial (p : option AssistantMessage) (s : St W) : St W :=
  MkSt (st_messages s) (st_new s) p (st_trace s) (st_world s).
Definition set_w (w : W) (s : St W) : St W :=
  MkSt (st_messages s) (st_new s) (st_partial s) (st_trace s) w.
Definition log (e : AgentEvent) (w : W) (s : St W) : St W :=
  MkSt (st_messages s) (st_new s) (st_partial s) (st_trace s ++ [e]) w.

Definition aborted (s : St W) : bool := c_aborted _ config (st_world s).

Definition emit (e : AgentEvent) : L unit := λ s,
  let '(r, w) := c_emit _ config e (st_world s) in (log e w s, r).

Definition throwIfAborted : L unit := λ s,
  if aborted s then (s, Throw createAbortError) else (s, Ok tt).

(** [raceWithAbort(operation, signal)]: the operation has been started when
    the signal is looked at. *)
Definition race {A} (op : Call W A) : L A := λ s,
  let '(o, w) := op (st_world s) in
  (set_w w s,
   if aborted s then Throw createAbortError
   else match o with
        | Resolved a => Ok a
        | Rejected e => Throw e
        | AbortedFirst => Throw createAbortError
        end).

(** [None]: status [aborted]. *)
Definition settlePostTurn {A} (m : L A) : L (option A) :=
  ecatch (Some <$> m) (λ e, λ s, if aborted s && err_abort e then (s, Ok None) else (s, Throw e)).

Definition pollMessagesUnlessAborted (poll : option (Call W (list AgentMessage))) : L (list AgentMessage) :=
  λ s, match poll with
       | None => (s, Ok [])
       | Some poll => if aborted s then (s, Ok []) else race poll s
       end.

(** ** Streaming one response *)

Definition cloneAssistantContent (content : list block) : list block := content.

Definition createAbortedAssistantMessage (partial : option AssistantMessage) (now : Z) : AssistantMessage :=
  match partial with
  | Some p =>
      MkAssistantMessage (cloneAssistantContent (am_content p)) (am_api p) (am_provider p) (am_model p)
        (Some (default EMPTY_USAGE (am_usage p))) SrAborted (Some ABORT_ERROR_MESSAGE) None now
  | None =>
      MkAssistantMessage [TextBlock []] (c_model_api _ config) (c_model_provider _ config) (c_model_id _ config)
        (Some EMPTY_USAGE) SrAborted (Some ABORT_ERROR_MESSAGE) None now
  end.

(** Stores the final message in the context and announces it. *)
Definition finish_message (m : AssistantMessage) : L AssistantMessage :=
  p ← egets st_partial;
  match p with
  | Some _ => emodify (set_last_message (MAssistant m))
  | None => emodify (push_message (MAssistant m));; emit (MessageStart (MAssistant m))
  end;;
  emit (MessageEnd (MAssistant m));;
  mret m.

Definition finishAbortedMessage : L AssistantMessage :=
  s ← eget;
  finish_message (createAbortedAssistantMessage (st_partial s) (c_now _ config (st_world s))).

(** [await response.result()] after a terminal event: an abort keeps the
    event's own message. *)
Definition terminal_result (r : Response W) (m : AssistantMessage) : L AssistantMessage :=
  ecatch (race (r_result r))
    (λ e, λ s, if negb (aborted s) || negb (err_abort e) then (s, Throw e) else (s, Ok m)).

(** The iteration over the response. *)
Fixpoint consume (r : Response W) (events : list StreamEvent) : L AssistantMessage :=
  race (c_next _ config);;
  match events with
  | [] => m ← race (r_result r); finish_message m
  | SStart p :: events =>
      emodify (set_partial (Some p));;
      emodify (push_message (MAssistant p));;
      emit (MessageStart (MAssistant p));;
      consume r events
  | SUpdate p :: events =>
      cur ← egets st_partial;
      match cur with
      | Some _ =>
          emodify (set_partial (Some p));;
          emodify (set_last_message (MAssistant p));;
          emit (MessageUpdate p)
      | None => mret tt
      end;;
      consume r events
  | SDone m :: _ | SError m :: _ => m ← terminal_result r m; finish_message m
  end.

Definition stream_try : L AssistantMessage :=
  throwIfAborted;;
  messages ← egets st_messages;
  messages ← match c_transformContext _ config with
             | Some f => race (f messages)
             | None => mret messages
             end;
  llmMessages ← race (c_convertToLlm _ config messages);
  key ← match c_getApiKey _ config with
        | Some f => race f
        | None => mret None
        end;
  s ← eget;
  let key := if truthy key then key else c_apiKey _ config in
  response ← race (c_stream _ config (c_systemPrompt _ config (st_world s)) llmMessages key);
  consume response (r_events response).

Definition streamAssistantResponse : L AssistantMessage :=
  emodify (set_partial None);;
  ecatch stream_try
    (λ e, λ s, if aborted s && err_abort e then finishAbortedMessage s else (s, Throw e)).

(** ** Tool calls *)

Definition createErrorToolResult (message : jsstr) : AgentToolResult :=
  MkToolResult [TextBlock message] (Some (JObj [])) None.

Record FinalizedToolCall := MkFinalized {
  fc_toolCall : ToolCall; fc_result : AgentToolResult; fc_isError : bool
}.

Record PreparedToolCall := MkPrepared {
  pc_toolCall : ToolCall; pc_tool : AgentTool W; pc_args : json
}.

Inductive preparation :=
| Prepared (p : PreparedToolCall)
| Immediate (result : AgentToolResult) (isError : bool).

Definition find_tool (name : jsstr) : option (AgentTool W) :=
  head (filter (λ t, t_name t = name) (c_tools _ config)).

Definition shouldTerminateToolBatch (finalizedCalls : list FinalizedToolCall) : bool :=
  negb (length finalizedCalls =? 0)%nat
  && forallb (λ f, bool_decide (tr_terminate (fc_result f) = Some true)) finalizedCalls.

(** A synchronous computation that may throw. *)
Definition lift {A} (r : result lerr A) : L A := λ s, (s, r).

Definition prepareToolCallArguments (tool : AgentTool W) (toolCall : ToolCall) : result lerr json :=
  match t_prepareArguments tool with
  | None => Ok (tc_arguments toolCall)
  | Some f => f (tc_arguments toolCall)
  end.

Definition prepareToolCall (toolCall : ToolCall) : L preparation :=
  match find_tool (tc_name toolCall) with
  | None =>
      mret (Immediate (createErrorToolResult (js "Tool " ++ tc_name toolCall ++ js " not found")) true)
  | Some tool =>
      ecatch
        (prepared ← lift (prepareToolCallArguments tool toolCall);
         validatedArgs ← lift (t_validate tool prepared);
         messages ← egets st_messages;
         before ← match c_beforeToolCall _ config with
                  | Some f => race (f toolCall validatedArgs messages)
                  | None => mret None
                  end;
         match before with
         | Some (MkBefore true reason) =>
             mret (Immediate (createErrorToolResult
               (match reason with Some ((_ :: _) as r) => r | _ => js "Tool execution was blocked" end)) true)
         | _ => mret (Prepared (MkPrepared toolCall tool validatedArgs))
         end)
        (λ e, mret (Immediate (createErrorToolResult (err_message e)) true))
  end.

(** The stages of one prepared call: not started; running, with the partial
    results still to publish, the way it settles and the first rejection of an
    update event; executed; finalized; announced. *)
Inductive task :=
| TStart (p : PreparedToolCall)
| TRunning (p : PreparedToolCall) (updates : list AgentToolResult) (out : outcome AgentToolResult)
    (emitError : option lerr)
| TExecuted (p : PreparedToolCall) (result : AgentToolResult) (isError : bool)
| TFinalized (f : FinalizedToolCall)
| TDone (f : FinalizedToolCall).

(** The [catch] block of [executePreparedToolCall]. *)
Definition execution_error (e : lerr) (s : St W) : AgentToolResult :=
  createErrorToolResult (if aborted s then js "Tool execution aborted" else err_message e).

(** The update callback: dropped once the run is aborted; the rejection of its
    event is kept for later. *)
Definition publish_update (p : PreparedToolCall) (u : AgentToolResult) (emitError : option lerr)
    : L (option lerr) := λ s,
  if aborted s then (s, Ok emitError)
  else
    match emit (ToolExecutionUpdate (tc_id (pc_toolCall p)) (tc_name (pc_toolCall p))
                  (tc_arguments (pc_toolCall p)) u) s with
    | (s', Ok _) => (s', Ok emitError)
    | (s', Throw e) => (s', Ok (match emitError with Some e0 => Some e0 | None => Some e end))
    end.

(** [executePreparedToolCall] after the last update. *)
Definition settle_execution (out : outcome AgentToolResult) (emitError : option lerr) (s : St W)
    : AgentToolResult * bool :=
  match out with
  | Resolved r =>
      match emitError with
      | Some e => if aborted s then (r, false) else (execution_error e s, true)
      | None => (r, false)
      end
  | Rejected e => (execution_error e s, true)
  | AbortedFirst => (execution_error createAbortError s, true)
  end.

(** [finalizeExecutedToolCall] *)
Definition finalizeExecutedToolCall (p : PreparedToolCall) (result : AgentToolResult) (isError : bool)
    : L FinalizedToolCall :=
  match c_afterToolCall _ config with
  | None => mret (MkFinalized (pc_toolCall p) result isError)
  | Some f =>
      ecatch
        (messages ← egets st_messages;
         afterResult ← race (f (pc_toolCall p) (pc_args p) result isError messages);
         mret match afterResult with
              | Some a =>
                  MkFinalized (pc_toolCall p)
                    (MkToolResult (default (tr_content result) (at_content a))
                       (match at_details a with Some JNull | None => tr_details result | Some d => Some d end)
                       (match at_terminate a with Some b => Some b | None => tr_terminate result end))
                    (default isError (at_isError a))
              | None => MkFinalized (pc_toolCall p) result isError
              end)
        (λ e, mret (MkFinalized (pc_toolCall p) (createErrorToolResult (err_message e)) true))
  end.

Definition emitToolExecutionEnd (f : FinalizedToolCall) : L unit :=
  emit (ToolExecutionEnd (tc_id (fc_toolCall f)) (tc_name (fc_toolCall f)) (fc_result f) (fc_isError f)).

(** One step of a call between two points where others may run. *)
Definition task_step (t : task) : L task :=
  match t with
  | TStart p => λ s,
      if aborted s then (s, Ok (TExecuted p (execution_error createAbortError s) true))
      else
        let '((updates, out), w) := t_execute (pc_tool p) (tc_id (pc_toolCall p)) (pc_args p) (st_world s) in
        (set_w w s, Ok (TRunning p updates out None))
  | TRunning p (u :: updates) out emitError =>
      emitError ← publish_update p u emitError;
      mret (TRunning p updates out emitError)
  | TRunning p [] out emitError => λ s,
      let '(r, isError) := settle_execution out emitError s in (s, Ok (TExecuted p r isError))
  | TExecuted p r isError => f ← finalizeExecutedToolCall p r isError; mret (TFinalized f)
  | TFinalized f => emitToolExecutionEnd f;; mret (TDone f)
  | TDone f => mret (TDone f)
  end.

(** The steps a started call still needs. *)
Definition task_size (t : task) : nat :=
  match t with
  | TStart _ => 0
  | TRunning _ updates _ _ => S (S (S (length updates)))
  | TExecuted _ _ _ => 2
  | TFinalized _ => 1
  | TDone _ => 0
  end.

(** Runs one call alone: [task_size] steps after the start. *)
Fixpoint run_steps (n : nat) (t : task) : L task :=
  match n with
  | O => mret t
  | S n => t ← task_step t; run_steps n t
  end.

Definition run_task (t : task) : L task :=
  t ← task_step t; run_steps (task_size t) t.

Definition finalized_of (t : task) : option FinalizedToolCall :=
  match t with TDone f => Some f | _ => None end.

Definition createToolResultMessage (f : FinalizedToolCall) (now : Z) : ToolResultMessage :=
  MkToolResultMessage (tc_id (fc_toolCall f)) (tc_name (fc_toolCall f)) (tr_content (fc_result f))
    (tr_details (fc_result f)) (fc_isError f) now.

Definition emitToolResultMessage (m : ToolResultMessage) : L unit :=
  emit (MessageStart (MToolResult m));; emit (MessageEnd (MToolResult m)).

(** The result message of a finalized call, announced. *)
Definition announce_result (f : FinalizedToolCall) : L ToolResultMessage :=
  now ← egets (λ s, c_now _ config (st_world s));
  let m := createToolResultMessage f now in
  emitToolResultMessage m;; mret m.

Definition emitToolExecutionStart (tc : ToolCall) : L unit :=
  emit (ToolExecutionStart (tc_id tc) (tc_name tc) (tc_arguments tc)).

Fixpoint executeToolCallsSequential (toolCalls : list ToolCall)
    : L (list FinalizedToolCall * list ToolResultMessage) :=
  match toolCalls with
  | [] => mret ([], [])
  | tc :: rest =>
      stop ← egets aborted;
      if stop : bool then mret ([], [])
      else
        emitToolExecutionStart tc;;
        preparation ← prepareToolCall tc;
        finalized ←
          match preparation with
          | Immediate r isError =>
              emitToolExecutionEnd (MkFinalized tc r isError);; mret (Some (MkFinalized tc r isError))
          | Prepared p => finalized_of <$> run_task (TStart p)
          end;
        match finalized with
        | None => mret ([], [])
        | Some f =>
            m ← announce_result f;
            stop ← egets aborted;
            if stop : bool then mret ([f], [m])
            else
              rs ← executeToolCallsSequential rest;
              mret (f :: rs.1, m :: rs.2)
        end
  end.

(** The preflight loop of [executeToolCallsParallel]. *)
Fixpoint preflight (toolCalls : list ToolCall) : L (list task) :=
  match toolCalls with
  | [] => mret []
  | tc :: rest =>
      emitToolExecutionStart tc;;
      preparation ← prepareToolCall tc;
      t ← match preparation with
          | Immediate r isError =>
              emitToolExecutionEnd (MkFinalized tc r isError);; mret (TDone (MkFinalized tc r isError))
          | Prepared p => mret (TStart p)
          end;
      ts ← preflight rest;
      mret (t :: ts)
  end.

(** [finalizedCalls.map((entry) => entry())]: every call is started, in order. *)
Fixpoint start_all (ts : list task) : L (list task) :=
  match ts with
  | [] => mret []
  | t :: ts => t ← task_step t; ts ← start_all ts; mret (t :: ts)
  end.

Definition unfinished (ts : list task) : list nat :=
  omap (λ it, match it.2 with TDone _ => None | _ => Some it.1 end) (imap pair ts).

(** [Promise.all]: until every call is finished, one of the unfinished ones
    makes a step. *)
Fixpoint run_all (fuel : nat) (ts : list task) : L (list task) :=
  match unfinished ts, fuel with
  | [], _ | _, O => mret ts
  | (i0 :: _) as todo, S fuel =>
      k ← egets (λ s, c_pick _ config (st_world s));
      let i := default i0 (todo !! (k mod length todo)%nat) in
      match ts !! i with
      | Some t => t' ← task_step t; run_all fuel (<[i := t']> ts)
      | None => mret ts
      end
  end.

Definition total_size (ts : list task) : nat := sum_list_with task_size ts.

Fixpoint announce_all (fs : list FinalizedToolCall) : L (list ToolResultMessage) :=
  match fs with
  | [] => mret []
  | f :: fs => m ← announce_result f; ms ← announce_all fs; mret (m :: ms)
  end.

Definition executeToolCallsParallel (toolCalls : list ToolCall)
    : L (list FinalizedToolCall * list ToolResultMessage) :=
  ts ← preflight toolCalls;
  ts ← start_all ts;
  ts ← run_all (total_size ts) ts;
  let ordered := omap finalized_of ts in
  ms ← announce_all ordered;
  mret (ordered, ms).

Definition executeToolCalls (toolCalls : list ToolCall) : L (list ToolResultMessage * bool) :=
  let hasSequentialToolCall :=
    existsb (λ tc, match find_tool (tc_name tc) with Some t => t_sequential t | None => false end) toolCalls in
  rs ← (if c_sequential _ config || hasSequentialToolCall
        then executeToolCallsSequential toolCalls
        else executeToolCallsParallel toolCalls);
  mret (rs.2, shouldTerminateToolBatch rs.1).

(** ** The turn loop *)

Definition out_of_fuel : lerr := MkErr (js "model: out of fuel") false.

Definition end_agent : L unit :=
  msgs ← egets st_new; emit (AgentEnd msgs).

Definition call_shouldStopBeforeTurn : L bool :=
  match c_shouldStopBeforeTurn _ config with
  | None => mret false
  | Some f => λ s, let '(r, w) := f (st_world s) in (set_w w s, r)
  end.

(** [shouldStopBeforeTurn()] inside the loop, where a turn has completed. *)
Definition shouldStopBeforeTurn (firstTurn : bool) : L bool :=
  if firstTurn then mret false else call_shouldStopBeforeTurn.

Fixpoint inject (pending : list AgentMessage) : L unit :=
  match pending with
  | [] => mret tt
  | m :: rest =>
      emit (MessageStart m);; emit (MessageEnd m);;
      emodify (push_message m);; emodify (push_new m);;
      inject rest
  end.

Definition push_results (rs : list ToolResultMessage) : L unit :=
  efor rs (λ r, emodify (push_message (MToolResult r));; emodify (push_new (MToolResult r))).

(** How an iteration of the inner loop ends. *)
Inductive turn_end :=
| Stopped
| NextTurn (hasMoreToolCalls : bool) (pending : list AgentMessage) (lastTurn : TurnInfo).

(** The body of the inner loop. *)
Definition run_turn (firstTurn : bool) (pending : list AgentMessage) : L turn_end :=
  throwIfAborted;;
  ewhen (negb firstTurn) (emit TurnStart);;
  inject pending;;
  message ← streamAssistantResponse;
  emodify (push_new (MAssistant message));;
  if bool_decide (am_stopReason message = SrError) || bool_decide (am_stopReason message = SrAborted) then
    emit (TurnEnd message []);; end_agent;; mret Stopped
  else
    let toolCalls := tool_calls (am_content message) in
    batch ← match toolCalls with
            | [] => mret ([], true)
            | _ => executeToolCalls toolCalls
            end;
    push_results batch.1;;
    emit (TurnEnd message batch.1);;
    stop ← egets aborted;
    if stop : bool then end_agent;; mret Stopped
    else
      info ← egets (λ s, MkTurnInfo message batch.1 (st_messages s) (st_new s));
      shouldStop ← settlePostTurn
        (match c_shouldStopAfterTurn _ config with
         | Some f => race (f info)
         | None => race (λ w, (Resolved false, w))
         end);
      match shouldStop with
      | None => end_agent;; mret Stopped
      | Some b =>
          b ← (if b : bool then mret true else shouldStopBeforeTurn false);
          if b : bool then end_agent;; mret Stopped
          else
            steering ← settlePostTurn (pollMessagesUnlessAborted (c_getSteeringMessages _ config));
            match steering with
            | None => end_agent;; mret Stopped
            | Some pending =>
                b ← match pending with [] => shouldStopBeforeTurn false | _ => mret false end;
                if b : bool then end_agent;; mret Stopped
                else mret (NextTurn (negb batch.2) pending info)
            end
      end.

(** What follows the inner loop: follow-up messages, then continuation
    messages; [None] when the agent ends. *)
Definition poll_more (lastTurn : TurnInfo) : L (option (list AgentMessage)) :=
  b ← shouldStopBeforeTurn false;
  if b : bool then end_agent;; mret None
  else
    followUp ← settlePostTurn (pollMessagesUnlessAborted (c_getFollowUpMessages _ config));
    match followUp with
    | None => end_agent;; mret None
    | Some ((_ :: _) as pending) => mret (Some pending)
    | Some [] =>
        b ← shouldStopBeforeTurn false;
        if b : bool then end_agent;; mret None
        else
          continuation ← settlePostTurn
            (match c_getContinuationMessages _ config with
             | Some f => race (f lastTurn)
             | None => race (λ w, (Resolved [], w))
             end);
          match continuation with
          | Some ((_ :: _) as pending) => mret (Some pending)
          | _ => end_agent;; mret None
          end
    end.

(** The nested loops.  An iteration of the outer loop starts with
    [throwIfAborted] and an iteration of the inner loop, which has
    [hasMoreToolCalls] set. *)
Fixpoint runLoop_from (fuel : nat) (firstTurn : bool) (pending : list AgentMessage) : L unit :=
  match fuel with
  | O => ethrow out_of_fuel
  | S fuel =>
      r ← run_turn firstTurn pending;
      match r with
      | Stopped => mret tt
      | NextTurn hasMoreToolCalls pending lastTurn =>
          if hasMoreToolCalls || negb (bool_decide (pending = [])) then runLoop_from fuel false pending
          else
            more ← poll_more lastTurn;
            match more with
            | None => mret tt
            | Some pending => throwIfAborted;; runLoop_from fuel false pending
            end
      end
  end.

Definition runLoop (fuel : nat) : L unit :=
  pending ← pollMessagesUnlessAborted (c_getSteeringMessages _ config);
  throwIfAborted;;
  runLoop_from fuel true pending.

Definition announce_prompts (prompts : list AgentMessage) : L unit :=
  efor prompts (λ p, emit (MessageStart p);; emit (MessageEnd p)).

(** The state a run starts in, for a context with [messages]. *)
Definition start_state (messages : list AgentMessage) (w : W) : St W := MkSt messages [] None [] w.

Definition runAgentLoop (fuel : nat) (prompts : list AgentMessage) : L (list AgentMessage) :=
  emodify (λ s, MkSt (st_messages s ++ prompts) prompts (st_partial s) (st_trace s) (st_world s));;
  emit AgentStart;; emit TurnStart;;
  announce_prompts prompts;;
  runLoop fuel;;
  egets st_new.

Definition no_messages : lerr := MkErr (js "Cannot continue: no messages in context") false.
Definition from_assistant : lerr := MkErr (js "Cannot continue from message role: assistant") false.

Definition runAgentLoopContinue (fuel : nat) : L (list AgentMessage) :=
  messages ← egets st_messages;
  match last messages with
  | None => ethrow no_messages
  | Some (MAssistant _) => ethrow from_assistant
  | Some _ =>
      emodify (λ s, MkSt (st_messages s) [] (st_partial s) (st_trace s) (st_world s));;
      emit AgentStart;; emit TurnStart;;
      runLoop fuel;;
      egets st_new
  end.
End loop.
