(* ===== verification/AgentLoopSpec.v ===== *)
(** * What a run of the agent loop guarantees

    The event protocol as an automaton, the agreement between the emitted
    messages, the messages returned and the context, and the results of a batch
    of tool calls.  The theorems hold for every world: every provider, tool,
    hook, queue and schedule, under the two laws of [Env]. *)

From S2P Require Import Prelude.
From S2P Require Import Json.
From S2P Require Import Messages.
From S2P Require Import Eff.
From S2P Require Import AgentLoop.

(** ** The event protocol *)

Inductive pstate :=
| PIdle
| PRun
| PTurn (running : list jsstr)
| PMessage (r : Role)
| PEnd.
#[export] Instance pstate_eq_dec : EqDecision pstate.
Proof. solve_decision. Defined.

Fixpoint remove1 (x : jsstr) (l : list jsstr) : list jsstr :=
  match l with
  | [] => []
  | y :: l => if decide (x = y) then l else y :: remove1 x l
  end.

(** The calls a message asks for and the calls a list of results answers. *)
Definition requests (m : AssistantMessage) : list (jsstr * jsstr) :=
  (λ c, (tc_id c, tc_name c)) <$> tool_calls (am_content m).
Definition answers (rs : list ToolResultMessage) : list (jsstr * jsstr) :=
  (λ r, (tm_toolCallId r, tm_toolName r)) <$> rs.

(** The event a client may see in each state: messages do not nest and do not
    overlap tool executions; a turn ends when all its tools have ended, with
    results that answer the message's calls in order; nothing follows the end
    of the agent. *)
Definition proto_step (p : pstate) (e : AgentEvent) : option pstate :=
  match p, e with
  | PIdle, AgentStart => Some PRun
  | PRun, TurnStart => Some (PTurn [])
  | PRun, AgentEnd _ => Some PEnd
  | PTurn [], MessageStart m => Some (PMessage (role m))
  | PMessage RAssistant, MessageUpdate _ => Some (PMessage RAssistant)
  | PMessage r, MessageEnd m => if decide (role m = r) then Some (PTurn []) else None
  | PTurn ids, ToolExecutionStart id _ _ => Some (PTurn (id :: ids))
  | PTurn ids, ToolExecutionUpdate id _ _ _ => if decide (id ∈ ids) then Some (PTurn ids) else None
  | PTurn ids, ToolExecutionEnd id _ _ _ => if decide (id ∈ ids) then Some (PTurn (remove1 id ids)) else None
  | PTurn [], TurnEnd m rs => if decide (answers rs `prefix_of` requests m) then Some PRun else None
  | _, _ => None
  end.

Definition proto (tr : list AgentEvent) : option pstate :=
  foldl (λ p e, p ≫= λ p, proto_step p e) (Some PIdle) tr.

Lemma proto_snoc tr e : proto (tr ++ [e]) = (proto tr ≫= λ p, proto_step p e).
Proof. unfold proto. by rewrite foldl_app. Qed.

(** The messages whose end was announced. *)
Definition ended (e : AgentEvent) : list AgentMessage :=
  match e with MessageEnd m => [m] | _ => [] end.
Definition message_ends (tr : list AgentEvent) : list AgentMessage := tr ≫= ended.

#[global] Arguments proto : simpl never.
#[global] Arguments message_ends : simpl never.

Lemma message_ends_snoc tr e : message_ends (tr ++ [e]) = message_ends tr ++ ended e.
Proof. unfold message_ends. rewrite bind_app. cbn. by rewrite app_nil_r. Qed.

Lemma remove1_perm x l k : l ≡ₚ x :: k → x ∈ l ∧ remove1 x l ≡ₚ k.
Proof.
  intros Hp. assert (Hx : x ∈ l) by (rewrite Hp; by left). split; [done|].
  assert (l ≡ₚ x :: remove1 x l) as Hr.
  { clear Hp. induction l as [|y l IH]; [by apply elem_of_nil in Hx|]. cbn.
    destruct (decide (x = y)) as [->|Hne]; [done|]. apply elem_of_cons in Hx as [?|Hx]; [done|].
    rewrite (IH Hx) at 1. constructor. }
  rewrite Hr in Hp. by apply Permutation_cons_inv in Hp.
Qed.

(** ** The laws of the environment

    The event sink never rejects with an abort error, and a provider's stream
    announces the start of its message at most once. *)

Definition is_start (e : StreamEvent) : bool := match e with SStart _ => true | _ => false end.

Fixpoint one_start (l : list StreamEvent) : bool :=
  match l with
  | [] => true
  | e :: l => if is_start e then forallb (negb ∘ is_start) l else one_start l
  end.

Class Env {W} (config : Config W) : Prop := {
  env_emit : ∀ e w err w', c_emit _ config e w = (Throw err, w') → err_abort err = false;
  env_stream : ∀ sp ms key w r w', c_stream _ config sp ms key w = (Resolved r, w') →
    one_start (r_events r) = true
}.

(** ** Stable predicates

    A predicate kept by the few updates the loop is made of is kept by the
    loop.  [R] relates the world before and after one operation of the
    environment; [moves] says so of every operation of the configuration. *)

Section moves.
Context {W : Type} (config : Config W) (R : relation W).

Definition good {A} (op : Call W A) : Prop := ∀ w, R w (op w).2.

Record moves : Prop := Moves {
  mv_transform : ∀ f ms, c_transformContext _ config = Some f → good (f ms);
  mv_convert : ∀ ms, good (c_convertToLlm _ config ms);
  mv_apiKey : ∀ f, c_getApiKey _ config = Some f → good f;
  mv_stream : ∀ sp ms key, good (c_stream _ config sp ms key);
  mv_result : ∀ sp ms key w r w', c_stream _ config sp ms key w = (Resolved r, w') → good (r_result r);
  mv_next : good (c_next _ config);
  mv_steering : ∀ f, c_getSteeringMessages _ config = Some f → good f;
  mv_followUp : ∀ f, c_getFollowUpMessages _ config = Some f → good f;
  mv_continuation : ∀ f i, c_getContinuationMessages _ config = Some f → good (f i);
  mv_after : ∀ f i, c_shouldStopAfterTurn _ config = Some f → good (f i);
  mv_before : ∀ f w, c_shouldStopBeforeTurn _ config = Some f → R w (f w).2;
  mv_beforeTool : ∀ f tc args ms, c_beforeToolCall _ config = Some f → good (f tc args ms);
  mv_afterTool : ∀ f tc args r b ms, c_afterToolCall _ config = Some f → good (f tc args r b ms);
  mv_tool : ∀ t id args w, t ∈ c_tools _ config → R w (t_execute t id args w).2;
  mv_here : ∀ w, R w w
}.
End moves.

Section stable.
Context {W : Type} (config : Config W) (R : relation W) (HR : moves config R).

Record stable (P : St W → Prop) : Prop := Stable {
  stable_emit : ∀ s e r w, c_emit _ config e (st_world s) = (r, w) → P s → P (log e w s);
  stable_world : ∀ s w, R (st_world s) w → P s → P (set_w w s);
  stable_messages : ∀ s m, P s → P (set_messages m s);
  stable_partial : ∀ s p, P s → P (set_partial p s);
  stable_push : ∀ s m, P s → P (push_new m s)
}.

Context (P : St W → Prop) (HP : stable P).

Abbreviation K m := (keeps (E:=lerr) P m).

Lemma K_emit e : K (emit config e).
Proof.
  intros s Hs. unfold emit. destruct (c_emit _ config e _) as [[[]|err] w] eqn:E; by eapply stable_emit.
Qed.
Lemma K_race {A} (op : Call W A) : good R op → K (race config op).
Proof.
  intros Hop s Hs. unfold race. specialize (Hop (st_world s)). destruct (op _) as [o w].
  destruct (aborted _ _); [by apply HP|]. destruct o; by apply HP.
Qed.
Lemma K_here {A} (m : eff (St W) lerr A) : (∀ s, (m s).1 = s) → K m.
Proof. intros Hm s Hs. specialize (Hm s). destruct (m s) as [s' [a|e]]; cbn in Hm; by subst. Qed.
Lemma K_throwIfAborted : K (throwIfAborted config).
Proof. apply K_here. intros s. unfold throwIfAborted. by destruct (aborted _ _). Qed.

Lemma good_pure {A} (o : outcome A) : good R (λ w, (o, w)).
Proof. intros w. by apply HR. Qed.

(** The operations of the configuration. *)
Ltac good_op :=
  first [ assumption | apply good_pure | by eapply mv_transform | by eapply mv_convert | by eapply mv_apiKey
        | by eapply mv_stream | by eapply mv_next | by eapply mv_steering | by eapply mv_followUp
        | by eapply mv_continuation | by eapply mv_after | by eapply mv_beforeTool | by eapply mv_afterTool ].

(** One step through the structure of an operation. *)
Ltac kstep :=
  first
    [ assumption
    | apply K_emit | apply K_race; good_op | apply K_throwIfAborted
    | apply keeps_ret | apply keeps_gets | apply keeps_throw | apply keeps_when
    | apply keeps_modify; intros ? ?; by apply HP
    | match goal with |- keeps _ (fmap _ _) => apply keeps_fmap end
    | apply keeps_for; intros ?
    | apply keeps_bind; [|intros ?]
    | match goal with |- keeps _ (if ?b then _ else _) => destruct b end
    | match goal with |- keeps _ (match ?x with _ => _ end) => destruct x eqn:? end
    | progress cbn zeta ].
Ltac kauto := repeat kstep; eauto 1.

Lemma K_catch {A} (m : eff (St W) lerr A) h :
  K m → (∀ e, K (h e)) → K (ecatch m h).
Proof. by apply keeps_catch. Qed.

Lemma K_settle {A} (m : eff (St W) lerr A) : K m → K (settlePostTurn config m).
Proof.
  intros Hm. apply keeps_catch; [by apply keeps_fmap|]. intros e. apply K_here. intros s.
  by destruct (_ && _).
Qed.

Lemma K_poll p : (∀ f, p = Some f → good R f) → K (pollMessagesUnlessAborted config p).
Proof.
  intros Hp s Hs. unfold pollMessagesUnlessAborted. destruct p; [|done].
  destruct (aborted _ _); [done|]. by apply K_race; [apply Hp|].
Qed.

Lemma K_finish m : K (finish_message config m).
Proof. unfold finish_message. kauto. Qed.

Lemma K_finishAborted : K (finishAbortedMessage config).
Proof. unfold finishAbortedMessage. apply keeps_bind; [by apply K_here|]. intros ?. apply K_finish. Qed.

Lemma K_terminal r m : good R (r_result r) → K (terminal_result config r m).
Proof. intros Hr. apply keeps_catch; [by apply K_race|]. intros e. apply K_here. intros s. by destruct (_ || _). Qed.

Lemma K_consume r events : good R (r_result r) → K (consume config r events).
Proof.
  intros Hr. induction events as [|e events IH]; cbn [consume].
  - repeat (apply keeps_bind; [apply K_race; good_op|intros ?]). apply K_finish.
  - apply keeps_bind; [apply K_race; good_op|]. intros ?. destruct e; kauto.
    all: first [by apply K_terminal | apply K_finish].
Qed.

Lemma K_response sp ms key :
  K (response ← race config (c_stream _ config sp ms key); consume config response (r_events response)).
Proof.
  intros s Hs. pose proof (K_race (c_stream _ config sp ms key) ltac:(good_op) s Hs) as Hk.
  unfold mbind, eff_bind, race in *. destruct (c_stream _ config sp ms key (st_world s)) as [[r|e|] w] eqn:E;
    destruct (aborted config s); try exact Hk.
  apply (K_consume r (r_events r)); [by eapply mv_result|exact Hk].
Qed.

Lemma K_stream : K (streamAssistantResponse config).
Proof.
  unfold streamAssistantResponse. apply keeps_bind; [kauto|]. intros ?. apply keeps_catch.
  - unfold stream_try. repeat first [apply K_response | kstep].
  - intros e s Hs. destruct (_ && _); [by apply K_finishAborted|done].
Qed.

(** A call that still has to be started belongs to a tool of the agent. *)
Definition ok_task (t : task (W:=W)) : Prop :=
  match t with TStart p => pc_tool p ∈ c_tools _ config | _ => True end.

Lemma find_tool_elem name tool : find_tool config name = Some tool → tool ∈ c_tools _ config.
Proof.
  unfold find_tool. intros H%head_Some. destruct H as [l Hl].
  assert (tool ∈ filter (λ t, t_name t = name) (c_tools _ config)) as He by (rewrite Hl; by left).
  by apply list_elem_of_filter in He as [_ ?].
Qed.

Lemma K_prepare tc :
  hoare P (prepareToolCall config tc)
    (λ p s, P s ∧ match p with Prepared pc => ok_task (TStart pc) | Immediate _ _ => True end) (λ _, P).
Proof.
  unfold prepareToolCall. destruct (find_tool config (tc_name tc)) as [tool|] eqn:Ht; [|by intros s Hs].
  apply find_tool_elem in Ht. eapply (hoare_catch _ _ _ _ _ (λ _, P)); [|by intros e s Hs].
  apply (hoare_bind _ _ _ (λ _, P)); [intros s Hs; by destruct (prepareToolCallArguments tool tc)|].
  intros prepared. apply (hoare_bind _ _ _ (λ _, P)); [intros s Hs; by destruct (t_validate tool prepared)|].
  intros args. apply (hoare_bind _ _ _ (λ _, P)); [by intros s Hs|]. intros messages.
  apply (hoare_bind _ _ _ (λ _, P)).
  - destruct (c_beforeToolCall _ config) eqn:E; [apply K_race; good_op|by intros s Hs].
  - intros [[[] ?]|]; by intros s Hs.
Qed.

Lemma K_finalize p r b : K (finalizeExecutedToolCall config p r b).
Proof.
  unfold finalizeExecutedToolCall. destruct (c_afterToolCall _ config) eqn:E; [|kauto].
  apply keeps_catch; [|intros ?]; kauto.
Qed.

Lemma K_task_step t : ok_task t →
  hoare P (task_step config t) (λ t' s, P s ∧ ok_task t') (λ _, P).
Proof.
  destruct t as [p|p us out ee|p r b|f|f]; cbn [task_step ok_task]; intros Hok.
  - intros s Hs. destruct (aborted _ _); [done|].
    pose proof (mv_tool _ _ HR _ (tc_id (pc_toolCall p)) (pc_args p) (st_world s) Hok) as Hw.
    destruct (t_execute _ _ _ _) as [[us out] w]. split; [by apply HP|done].
  - destruct us as [|u us].
    + intros s Hs. by destruct (settle_execution _ _ _ _).
    + apply (hoare_bind _ _ _ (λ _, P)); [|intros ?; by intros s Hs]. intros s Hs. unfold publish_update.
      destruct (aborted _ _); [done|].
      match goal with |- context [emit ?c ?e s] => pose proof (K_emit e s Hs) as He; destruct (emit c e s) as [s' [a|x]] end; done.
  - apply (hoare_bind _ _ _ (λ _, P)); [apply K_finalize|intros ?; by intros s Hs].
  - apply (hoare_bind _ _ _ (λ _, P)); [apply K_emit|intros ?; by intros s Hs].
  - by intros s Hs.
Qed.

Lemma K_run_steps n : ∀ t, ok_task t → K (run_steps config n t).
Proof.
  induction n as [|n IH]; intros t Ht; cbn [run_steps]; [kauto|].
  eapply hoare_bind; [by apply K_task_step|]. intros t' s [Hs Ht']. by apply IH.
Qed.

Lemma K_run_task t : ok_task t → K (run_task config t).
Proof.
  intros Ht. eapply hoare_bind; [by apply K_task_step|]. intros t' s [Hs Ht']. by apply K_run_steps.
Qed.

Lemma K_announce f : K (announce_result config f).
Proof. unfold announce_result, emitToolResultMessage. kauto. Qed.

Lemma K_sequential tcs : K (executeToolCallsSequential config tcs).
Proof.
  induction tcs as [|tc tcs IH]; cbn [executeToolCallsSequential]; [kauto|].
  unfold emitToolExecutionStart, emitToolExecutionEnd.
  apply keeps_bind; [kauto|]. intros [|]; [kauto|]. apply keeps_bind; [kauto|]. intros ?.
  eapply hoare_bind; [apply K_prepare|]. intros prep s [Hs Hp]. revert s Hs.
  match goal with |- ∀ s, P s → match ?m s with _ => _ end => change (K m) end.
  apply keeps_bind.
  - destruct prep; [|kauto]. apply keeps_fmap. by apply K_run_task.
  - intros [f|]; [|kauto]. repeat first [apply K_announce | kstep].
Qed.

Lemma K_preflight tcs :
  hoare P (preflight config tcs) (λ ts s, P s ∧ Forall ok_task ts) (λ _, P).
Proof.
  induction tcs as [|tc tcs IH]; cbn [preflight]; [intros s Hs; by split|].
  unfold emitToolExecutionStart, emitToolExecutionEnd. apply (hoare_bind _ _ _ (λ _, P)); [apply K_emit|]. intros ?.
  eapply hoare_bind; [apply K_prepare|]. intros prep s [Hs Hp]. revert s Hs.
  match goal with |- ∀ s, P s → match ?m s with _ => _ end =>
    change (hoare P m (λ ts s, P s ∧ Forall ok_task ts) (λ _, P)) end.
  apply (hoare_bind _ _ _ (λ t s, P s ∧ ok_task t)).
  - destruct prep; [by intros s Hs|]. eapply (hoare_bind _ _ _ (λ _, P)); [apply K_emit|].
    intros ?. by intros s Hs.
  - intros t s [Hs Ht]. specialize (IH s Hs). unfold mbind, eff_bind.
    destruct (preflight config tcs s) as [s' [ts|e]]; [|done]. destruct IH as [IH Hts]. split; [done|by constructor].
Qed.

Lemma K_start_all ts : Forall ok_task ts →
  hoare P (start_all config ts) (λ ts s, P s ∧ Forall ok_task ts) (λ _, P).
Proof.
  induction 1 as [|t ts Ht _ IH]; cbn [start_all]; [intros s Hs; by split|].
  eapply hoare_bind; [by apply K_task_step|]. intros t' s [Hs Ht']. specialize (IH s Hs). unfold mbind, eff_bind.
  destruct (start_all config ts s) as [s' [ts'|e]]; [|done]. destruct IH. split; [done|by constructor].
Qed.

Lemma K_run_all fuel : ∀ ts, Forall ok_task ts → K (run_all config fuel ts).
Proof.
  induction fuel as [|fuel IH]; intros ts Hts; cbn [run_all]; destruct (unfinished ts); [kauto..|].
  apply keeps_bind; [kauto|]. intros k. cbn zeta.
  destruct (ts !! _) as [t|] eqn:Hi; [|kauto].
  eapply hoare_bind; [apply K_task_step; by eapply Forall_lookup_1|]. intros t' s [Hs Ht'].
  apply IH; [|done]. by apply Forall_insert.
Qed.

Lemma K_parallel tcs : K (executeToolCallsParallel config tcs).
Proof.
  unfold executeToolCallsParallel. eapply hoare_bind; [apply K_preflight|]. intros ts s [Hs Hts]. revert s Hs.
  match goal with |- ∀ s, P s → match ?m s with _ => _ end => change (K m) end.
  eapply hoare_bind; [by apply K_start_all|]. intros ts' s [Hs Hts']. revert s Hs.
  match goal with |- ∀ s, P s → match ?m s with _ => _ end => change (K m) end.
  apply keeps_bind; [by apply K_run_all|]. intros ts''. cbn zeta. apply keeps_bind; [|intros ?; kauto].
  induction (omap finalized_of ts'') as [|f fs IH]; cbn [announce_all]; repeat first [apply K_announce | kstep].
Qed.

Lemma K_inject pending : K (inject config pending).
Proof. induction pending; cbn [inject]; kauto. Qed.

Lemma K_end : K (end_agent config).
Proof. unfold end_agent. kauto. Qed.

Lemma K_before b : K (shouldStopBeforeTurn config b).
Proof.
  unfold shouldStopBeforeTurn, call_shouldStopBeforeTurn. destruct b; [kauto|].
  destruct (c_shouldStopBeforeTurn _ config) as [f|] eqn:E; [|kauto]. intros s Hs.
  pose proof (mv_before _ _ HR f (st_world s) E) as Hw. destruct (f (st_world s)) as [[r|e] w]; by apply HP.
Qed.

Ltac kstep' := first
  [ apply K_settle | apply K_poll; intros ? ?; good_op | apply K_stream | apply K_sequential | apply K_parallel
  | apply K_inject | apply K_end | apply K_before | kstep ].
Ltac kloop := repeat kstep'.

Lemma K_run_turn b pending : K (run_turn config b pending).
Proof. unfold run_turn, executeToolCalls, push_results. kloop. Qed.

Lemma K_runLoop_from fuel : ∀ b pending, K (runLoop_from config fuel b pending).
Proof.
  induction fuel as [|fuel IH]; intros b pending; cbn [runLoop_from]; [kauto|].
  unfold poll_more. repeat first [apply K_run_turn | apply IH | kstep'].
Qed.

Lemma K_runLoop fuel : K (runLoop config fuel).
Proof. unfold runLoop. kloop. apply K_runLoop_from. Qed.

(** A run keeps [P] from the moment its prompts are recorded. *)
Lemma K_runAgentLoop fuel prompts s :
  P (MkSt (st_messages s ++ prompts) prompts (st_partial s) (st_trace s) (st_world s)) →
  P (runAgentLoop config fuel prompts s).1.
Proof.
  intros Hs.
  enough (Hk : K (emit config AgentStart;; emit config TurnStart;; announce_prompts config prompts;;
    runLoop config fuel;; egets st_new)).
  { specialize (Hk _ Hs). match type of Hk with match ?x with _ => _ end =>
      change (P x.1); by destruct x as [s' [a|e]] end. }
  repeat first [apply K_runLoop | apply K_emit | apply keeps_gets | apply keeps_bind; [|intros ?]].
  unfold announce_prompts. apply keeps_for. intros p. by apply keeps_bind; [|intros ?]; apply K_emit.
Qed.

Lemma K_runAgentLoopContinue fuel s : P s →
  P (MkSt (st_messages s) [] (st_partial s) (st_trace s) (st_world s)) →
  P (runAgentLoopContinue config fuel s).1.
Proof.
  intros Hs Hs'.
  assert (Hk : K (emit config AgentStart;; emit config TurnStart;; runLoop config fuel;; egets st_new)).
  { repeat first [apply K_runLoop | apply K_emit | apply keeps_gets | apply keeps_bind; [|intros ?]]. }
  specialize (Hk _ Hs'). unfold runAgentLoopContinue, mbind at 1, eff_bind at 1, egets at 1.
  match type of Hk with match ?x with _ => _ end => assert (Hx : P x.1) by (by destruct x as [s' [a|e]]) end.
  destruct (last (st_messages s)) as [[]|]; try exact Hs; exact Hx.
Qed.
End stable.

Section spec.
Context {W : Type} (config : Config W) `{!Env config} (base : list AgentMessage).

Abbreviation L := (eff (St W) lerr).

(** The protocol is in state [q]; [xs] have been announced but not recorded in
    [newMessages], [ys] are in the context but not in [newMessages]. *)
Definition Inv (q : pstate) (xs ys : list AgentMessage) (s : St W) : Prop :=
  proto (st_trace s) = Some q ∧ message_ends (st_trace s) = st_new s ++ xs ∧
  st_messages s = base ++ st_new s ++ ys.

(** What holds wherever a run stops. *)
Definition Safe (s : St W) : Prop := ∃ q, proto (st_trace s) = Some q.

Lemma Inv_Safe q xs ys s : Inv q xs ys s → Safe s.
Proof. intros (Hp&_). by exists q. Qed.

Lemma emit_Inv q q' xs ys e : proto_step q e = Some q' →
  hoare (Inv q xs ys) (emit config e) (λ _, Inv q' (xs ++ ended e) ys)
    (λ err s, Safe s ∧ err_abort err = false).
Proof.
  intros Hq s (Hp&He&Hm). unfold emit. destruct (c_emit _ config e (st_world s)) as [[[]|err] w] eqn:E.
  - split_and!; cbn; [by rewrite proto_snoc, Hp|by rewrite message_ends_snoc, He, app_assoc|done].
  - split; [|by eapply env_emit]. exists q'. cbn. by rewrite proto_snoc, Hp.
Qed.

(** An event that ends no message. *)
Lemma emit_quiet q q' xs ys e : proto_step q e = Some q' → ended e = [] →
  hoare (Inv q xs ys) (emit config e) (λ _, Inv q' xs ys) (λ err s, Safe s ∧ err_abort err = false).
Proof.
  intros Hq He. pose proof (emit_Inv q q' xs ys e Hq) as Hh. rewrite He, app_nil_r in Hh. exact Hh.
Qed.

Lemma race_Inv {A} (op : Call W A) q xs ys :
  hoare (Inv q xs ys) (race config op) (λ _, Inv q xs ys) (λ _, Inv q xs ys).
Proof.
  intros s Hs. unfold race. destruct (op (st_world s)) as [o w].
  destruct (aborted config s); [exact Hs|]. destruct o; exact Hs.
Qed.

Lemma throwIfAborted_Inv q xs ys :
  hoare (Inv q xs ys) (throwIfAborted config) (λ _, Inv q xs ys) (λ _, Inv q xs ys).
Proof. intros s Hs. unfold throwIfAborted. by destruct (aborted config s). Qed.

Lemma take_pred_app {A} (l : list A) x : take (pred (length (l ++ [x]))) (l ++ [x]) = l.
Proof. rewrite length_app, Nat.add_1_r. cbn. by rewrite take_app_length. Qed.

(** *** Streaming *)

(** The two situations inside [streamAssistantResponse]: no partial message
    yet, or one that is the last message of the context. *)
Definition Streaming (s : St W) : Prop :=
  match st_partial s with
  | None => Inv (PTurn []) [] [] s
  | Some p => Inv (PMessage RAssistant) [] [MAssistant p] s
  end.

(** The error cases: an abort error leaves the streaming situation. *)
Definition Thrown (err : lerr) (s : St W) : Prop :=
  Safe s ∧ (err_abort err = true → Streaming s).

Lemma Streaming_Safe s : Streaming s → Safe s.
Proof. unfold Streaming. destruct (st_partial s); apply Inv_Safe. Qed.

Lemma race_Streaming {A} (op : Call W A) :
  hoare Streaming (race config op) (λ _, Streaming) Thrown.
Proof.
  intros s Hs. unfold race. destruct (op (st_world s)) as [o w].
  assert (HS : Streaming (set_w w s)) by exact Hs. pose proof (Streaming_Safe _ HS).
  destruct (aborted config s); [by split|]. destruct o; [done|by split|by split].
Qed.

Definition Done (m : AssistantMessage) (s : St W) : Prop := Inv (PTurn []) [MAssistant m] [MAssistant m] s.

Lemma finish_message_spec m :
  hoare Streaming (finish_message config m) (λ m' s, m' = m ∧ Done m s)
    (λ err s, Safe s ∧ err_abort err = false).
Proof.
  unfold finish_message. apply (hoare_bind _ _ _ (λ p s, Streaming s ∧ st_partial s = p)).
  { intros s Hs. by split. }
  intros p. apply (hoare_bind _ _ _ (λ _, Inv (PMessage RAssistant) [] [MAssistant m])).
  - destruct p as [p|].
    + intros s [Hs Hp]. unfold Streaming in Hs. rewrite Hp in Hs. destruct Hs as (H1&H2&H3).
      split_and!; cbn; [done|done|]. rewrite H3. rewrite (app_assoc base), take_pred_app. by rewrite <-app_assoc.
    + apply (hoare_bind _ _ _ (λ _, Inv (PTurn []) [] [MAssistant m])).
      * intros s [Hs Hp]. unfold Streaming in Hs. rewrite Hp in Hs. destruct Hs as (H1&H2&H3).
        split_and!; cbn; [done|done|]. by rewrite H3, app_nil_r, <-app_assoc.
      * intros _. by apply emit_quiet.
  - intros _. apply (hoare_bind _ _ _ (λ _, Done m)); [|intros _; by intros s Hs].
    unfold Done. by apply (emit_Inv _ _ [] _ (MessageEnd (MAssistant m))).
Qed.

Lemma not_abort_Thrown err s : Safe s ∧ err_abort err = false → Thrown err s.
Proof. intros [Hs He]. split; [done|]. by rewrite He. Qed.

(** The events still to come start the message at most once. *)
Definition ok_events (p : option AssistantMessage) (events : list StreamEvent) : bool :=
  match p with None => one_start events | Some _ => forallb (negb ∘ is_start) events end.

Lemma finish_Thrown m : hoare Streaming (finish_message config m) Done Thrown.
Proof.
  eapply hoare_conseq; [apply finish_message_spec|done|by intros m' s [-> ?]|].
  intros err s. apply not_abort_Thrown.
Qed.

Lemma terminal_result_spec r m :
  hoare Streaming (terminal_result config r m) (λ _, Streaming) Thrown.
Proof.
  eapply hoare_catch; [apply race_Streaming|]. intros e s [Hs Ha]. cbn.
  destruct (negb (aborted config s) || negb (err_abort e)) eqn:E; [by split|].
  apply Ha. rewrite orb_false_iff, !negb_false_iff in E. by destruct E.
Qed.

Lemma consume_next events :
  hoare (λ s, Streaming s ∧ ok_events (st_partial s) events = true) (race config (c_next _ config))
    (λ _ s, Streaming s ∧ ok_events (st_partial s) events = true) Thrown.
Proof.
  intros s [Hs Ho]. pose proof (race_Streaming (c_next _ config) s Hs) as Hr.
  unfold race in *. destruct (c_next _ config (st_world s)) as [o w].
  destruct (aborted config s); [done|]. by destruct o.
Qed.

Lemma consume_start p :
  hoare (λ s, Streaming s ∧ st_partial s = None)
    (emodify (set_partial (Some p));; emodify (push_message (MAssistant p));;
     emit config (MessageStart (MAssistant p)))
    (λ _ s, Streaming s ∧ st_partial s = Some p) Thrown.
Proof.
  intros s [Hs Hp]. unfold Streaming in Hs. rewrite Hp in Hs. destruct Hs as (H1&H2&H3).
  unfold mbind, eff_bind, emodify. cbn.
  set (s1 := push_message (MAssistant p) (set_partial (Some p) s)).
  assert (HI : Inv (PTurn []) [] [MAssistant p] s1).
  { split_and!; cbn; [done|done|]. by rewrite H3, app_nil_r, <-app_assoc. }
  pose proof (emit_quiet (PTurn []) (PMessage RAssistant) [] [MAssistant p]
    (MessageStart (MAssistant p)) eq_refl eq_refl s1 HI) as He.
  unfold emit in *. destruct (c_emit _ config _ _) as [[[]|err] w].
  - split; [exact He|done].
  - by apply not_abort_Thrown.
Qed.

Lemma consume_update p :
  hoare (λ s, Streaming s ∧ is_Some (st_partial s))
    (emodify (set_partial (Some p));; emodify (set_last_message (MAssistant p));;
     emit config (MessageUpdate p))
    (λ _ s, Streaming s ∧ st_partial s = Some p) Thrown.
Proof.
  intros s [Hs [q Hp]]. unfold Streaming in Hs. rewrite Hp in Hs. destruct Hs as (H1&H2&H3).
  unfold mbind, eff_bind, emodify. cbn.
  set (s1 := set_last_message (MAssistant p) (set_partial (Some p) s)).
  assert (HI : Inv (PMessage RAssistant) [] [MAssistant p] s1).
  { split_and!; cbn; [done|done|]. rewrite H3, (app_assoc base), take_pred_app. by rewrite <-app_assoc. }
  pose proof (emit_quiet (PMessage RAssistant) (PMessage RAssistant) [] [MAssistant p]
    (MessageUpdate p) eq_refl eq_refl s1 HI) as He.
  unfold emit in *. destruct (c_emit _ config _ _) as [[[]|err] w].
  - split; [exact He|done].
  - by apply not_abort_Thrown.
Qed.

Lemma consume_spec r events :
  hoare (λ s, Streaming s ∧ ok_events (st_partial s) events = true) (consume config r events) Done Thrown.
Proof.
  induction events as [|e events IH]; cbn [consume];
    (eapply hoare_bind; [apply consume_next|intros ?]).
  - eapply hoare_conseq; [|by intros s [Hs _]; exact Hs|done|done].
    eapply hoare_bind; [apply race_Streaming|]. intros m. apply finish_Thrown.
  - destruct e as [p|p|m|m].
    + assert (Hassoc : ∀ (k : L AssistantMessage),
        (emodify (set_partial (Some p));; emodify (push_message (MAssistant p));;
         emit config (MessageStart (MAssistant p));; k)
        = ((emodify (set_partial (Some p));; emodify (push_message (MAssistant p));;
            emit config (MessageStart (MAssistant p)));; k)) by done.
      rewrite Hassoc. apply (hoare_bind _ _ _ (λ _ s, (Streaming s ∧ st_partial s = Some p) ∧
        forallb (negb ∘ is_start) events = true)).
      * intros s [Hs Ho]. destruct (st_partial s) as [q|] eqn:Hp; [done|].
        pose proof (consume_start p s (conj Hs Hp)) as Hc.
        match goal with |- match ?x with _ => _ end => destruct x as [s' [[]|err]] end; [by split|done].
      * intros _. eapply hoare_conseq; [exact IH| |done|done].
        intros s [[Hs Hp] Ho]. split; [done|]. by rewrite Hp.
    + apply (hoare_bind _ _ _ (λ cur s, (Streaming s ∧ ok_events (st_partial s) events = true) ∧ st_partial s = cur)).
      { intros s [Hs Ho]. split; [split; [done|]|done]. by destruct (st_partial s). }
      intros [q|].
      * apply (hoare_bind _ _ _ (λ _ s, Streaming s ∧ ok_events (st_partial s) events = true)).
        -- intros s [[Hs Ho] Hp]. pose proof (consume_update p s (conj Hs (mk_is_Some _ _ Hp))) as Hc.
           rewrite Hp in Ho. match goal with |- match ?x with _ => _ end => destruct x as [s' [[]|err]] end; [|done].
           destruct Hc as [Hc Hp']. split; [done|]. by rewrite Hp'.
        -- intros _. exact IH.
      * apply (hoare_bind _ _ _ (λ _ s, Streaming s ∧ ok_events (st_partial s) events = true)).
        -- intros s [[Hs Ho] Hp]. done.
        -- intros _. exact IH.
    + eapply hoare_conseq; [|by intros s [Hs _]; exact Hs|done|done].
      eapply hoare_bind; [apply terminal_result_spec|]. intros m'. apply finish_Thrown.
    + eapply hoare_conseq; [|by intros s [Hs _]; exact Hs|done|done].
      eapply hoare_bind; [apply terminal_result_spec|]. intros m'. apply finish_Thrown.
Qed.

(** No partial message yet. *)
Definition Fresh (s : St W) : Prop := Streaming s ∧ st_partial s = None.

Lemma race_Fresh {A} (op : Call W A) (R : A → Prop) :
  (∀ w a w', op w = (Resolved a, w') → R a) →
  hoare Fresh (race config op) (λ a s, Fresh s ∧ R a) Thrown.
Proof.
  intros HR s [Hs Hp]. pose proof (race_Streaming op s Hs) as Hr. unfold race in *.
  destruct (op (st_world s)) as [o w] eqn:E. destruct (aborted config s); [done|].
  destruct o as [a|e|]; [|done|done]. split; [by split|]. by eapply HR.
Qed.

Lemma race_Fresh' {A} (op : Call W A) : hoare Fresh (race config op) (λ _, Fresh) Thrown.
Proof.
  eapply hoare_conseq; [apply (race_Fresh op (λ _, True)); done|done| |done]. by intros a s [Hs _].
Qed.

Lemma Fresh_Thrown err s : Fresh s → Thrown err s.
Proof. intros [Hs _]. split; [by apply Streaming_Safe|done]. Qed.

Lemma stream_try_spec : hoare Fresh (stream_try config) Done Thrown.
Proof.
  unfold stream_try. apply (hoare_bind _ _ _ (λ _, Fresh)).
  { intros s Hs. unfold throwIfAborted. destruct (aborted config s); [by apply Fresh_Thrown|done]. }
  intros ?. apply (hoare_bind _ _ _ (λ _, Fresh)); [by intros s Hs|]. intros messages.
  apply (hoare_bind _ _ _ (λ _, Fresh)); [destruct (c_transformContext _ config); [apply race_Fresh'|by intros s Hs]|].
  intros messages'. apply (hoare_bind _ _ _ (λ _, Fresh)); [apply race_Fresh'|]. intros llm.
  apply (hoare_bind _ _ _ (λ _, Fresh)); [destruct (c_getApiKey _ config); [apply race_Fresh'|by intros s Hs]|].
  intros key. apply (hoare_bind _ _ _ (λ _, Fresh)); [by intros s Hs|]. intros s0. cbn zeta.
  apply (hoare_bind _ _ _ (λ r s, Fresh s ∧ one_start (r_events r) = true)).
  - apply (race_Fresh _ (λ r, one_start (r_events r) = true)). intros w r w'. apply env_stream.
  - intros r. eapply hoare_conseq; [apply consume_spec| |done|done].
    intros s [[Hs Hp] Ho]. split; [done|]. by rewrite Hp.
Qed.

Lemma streamAssistantResponse_spec :
  hoare (Inv (PTurn []) [] []) (streamAssistantResponse config) Done (λ _, Safe).
Proof.
  unfold streamAssistantResponse. apply (hoare_bind _ _ _ (λ _, Fresh)); [by intros s Hs|]. intros ?.
  eapply hoare_catch; [apply stream_try_spec|]. intros e s [Hs Ha].
  destruct (aborted config s && err_abort e) eqn:E; [|done].
  apply andb_true_iff in E as [_ He]. specialize (Ha He).
  unfold finishAbortedMessage, mbind, eff_bind, eget. cbn.
  pose proof (finish_message_spec
    (createAbortedAssistantMessage config (st_partial s) (c_now _ config (st_world s))) s Ha) as Hf.
  destruct (finish_message _ _ s) as [s' [m|err]]; [by destruct Hf as [-> ?]|by destruct Hf].
Qed.

(** *** Tool executions *)

(** Inside a turn with the executions of [ids] open, in any order. *)
Definition Turn (ids : list jsstr) (xs : list AgentMessage) (s : St W) : Prop :=
  ∃ running, running ≡ₚ ids ∧ Inv (PTurn running) xs [] s.

Lemma Turn_Safe ids xs s : Turn ids xs s → Safe s.
Proof. intros (r&_&Hi). by eapply Inv_Safe. Qed.

Lemma Turn_nil xs s : Turn [] xs s ↔ Inv (PTurn []) xs [] s.
Proof.
  split; [|by exists []]. intros (r&Hr&Hi). symmetry in Hr. by apply Permutation_nil in Hr as ->.
Qed.

Lemma Turn_perm ids ids' xs s : ids ≡ₚ ids' → Turn ids xs s → Turn ids' xs s.
Proof. intros Hp (r&Hr&Hi). exists r. split; [by rewrite Hr|exact Hi]. Qed.

(** An event is recorded whether or not its sink rejects. *)
Lemma emit_always q q' xs ys e : proto_step q e = Some q' → ended e = [] →
  hoare (Inv q xs ys) (emit config e) (λ _, Inv q' xs ys) (λ _, Inv q' xs ys).
Proof.
  intros Hq He s (Hp&Hm&Hx). unfold emit. destruct (c_emit _ config e (st_world s)) as [[[]|err] w];
    (split_and!; cbn; [by rewrite proto_snoc, Hp|by rewrite message_ends_snoc, He, app_nil_r|done]).
Qed.

Lemma emit_start tc ids xs :
  hoare (Turn ids xs) (emitToolExecutionStart config tc) (λ _, Turn (tc_id tc :: ids) xs) (λ _, Safe).
Proof.
  intros s (r&Hr&Hi).
  pose proof (emit_quiet (PTurn r) (PTurn (tc_id tc :: r)) xs []
    (ToolExecutionStart (tc_id tc) (tc_name tc) (tc_arguments tc)) ltac:(by destruct r) eq_refl s Hi) as He.
  unfold emitToolExecutionStart. destruct (emit _ _ s) as [s' [[]|err]]; [|by destruct He].
  exists (tc_id tc :: r). split; [by rewrite Hr|exact He].
Qed.

Lemma emit_end f ids xs :
  hoare (Turn (tc_id (fc_toolCall f) :: ids) xs) (emitToolExecutionEnd config f) (λ _, Turn ids xs) (λ _, Safe).
Proof.
  intros s (r&Hr&Hi). destruct (remove1_perm _ _ _ Hr) as [Hin Hp].
  assert (Hq : proto_step (PTurn r) (ToolExecutionEnd (tc_id (fc_toolCall f)) (tc_name (fc_toolCall f))
    (fc_result f) (fc_isError f)) = Some (PTurn (remove1 (tc_id (fc_toolCall f)) r))).
  { cbn. destruct r; rewrite decide_True by done; done. }
  pose proof (emit_quiet _ _ xs [] _ Hq eq_refl s Hi) as He.
  unfold emitToolExecutionEnd. destruct (emit _ _ s) as [s' [[]|err]]; [|by destruct He].
  exists (remove1 (tc_id (fc_toolCall f)) r). by split.
Qed.

Lemma race_Turn {A} (op : Call W A) ids xs :
  hoare (Turn ids xs) (race config op) (λ _, Turn ids xs) (λ _, Turn ids xs).
Proof.
  intros s (r&Hr&Hi). pose proof (race_Inv op _ _ _ s Hi) as Hc.
  destruct (race config op s) as [s' [a|e]]; by exists r.
Qed.

Lemma prepareToolCall_spec tc ids xs :
  hoare (Turn ids xs) (prepareToolCall config tc)
    (λ p s, Turn ids xs s ∧ match p with Prepared pc => pc_toolCall pc = tc | Immediate _ _ => True end)
    (λ _ _, False).
Proof.
  unfold prepareToolCall. destruct (find_tool config (tc_name tc)) as [tool|]; [|by intros s Hs].
  eapply (hoare_catch _ _ _ _ _ (λ _, Turn ids xs)); [|by intros e s Hs].
  apply (hoare_bind _ _ _ (λ _, Turn ids xs)); [intros s Hs; by destruct (prepareToolCallArguments tool tc)|].
  intros prepared. apply (hoare_bind _ _ _ (λ _, Turn ids xs)); [intros s Hs; by destruct (t_validate tool prepared)|].
  intros args. apply (hoare_bind _ _ _ (λ _, Turn ids xs)); [by intros s Hs|]. intros messages.
  apply (hoare_bind _ _ _ (λ _, Turn ids xs)).
  - destruct (c_beforeToolCall _ config); [apply race_Turn|by intros s Hs].
  - intros [[[] reason]|]; by intros s Hs.
Qed.

Definition task_call (t : task (W:=W)) : ToolCall :=
  match t with
  | TStart p | TRunning p _ _ _ | TExecuted p _ _ => pc_toolCall p
  | TFinalized f | TDone f => fc_toolCall f
  end.

Definition is_done (t : task (W:=W)) : bool := match t with TDone _ => true | _ => false end.
Definition is_started (t : task (W:=W)) : bool := match t with TStart _ => false | _ => true end.

(** The id of a call that has not been announced as ended. *)
Definition open_ids (t : task (W:=W)) : list jsstr := if is_done t then [] else [tc_id (task_call t)].

Lemma publish_update_spec p u ee ids xs :
  hoare (Turn (tc_id (pc_toolCall p) :: ids) xs) (publish_update config p u ee)
    (λ _, Turn (tc_id (pc_toolCall p) :: ids) xs) (λ _ _, False).
Proof.
  intros s (r&Hr&Hi). unfold publish_update. destruct (aborted config s); [by exists r|].
  assert (Hq : proto_step (PTurn r) (ToolExecutionUpdate (tc_id (pc_toolCall p)) (tc_name (pc_toolCall p))
    (tc_arguments (pc_toolCall p)) u) = Some (PTurn r)).
  { assert (tc_id (pc_toolCall p) ∈ r) by (rewrite Hr; by left). cbn. destruct r; by rewrite decide_True. }
  pose proof (emit_always _ _ xs [] _ Hq eq_refl s Hi) as He.
  destruct (emit _ _ s) as [s' [[]|err]]; by exists r.
Qed.

Lemma finalize_spec p r b ids xs :
  hoare (Turn ids xs) (finalizeExecutedToolCall config p r b)
    (λ f s, Turn ids xs s ∧ fc_toolCall f = pc_toolCall p) (λ _ _, False).
Proof.
  unfold finalizeExecutedToolCall. destruct (c_afterToolCall _ config) as [h|]; [|by intros s Hs].
  eapply (hoare_catch _ _ _ _ _ (λ _, Turn ids xs)); [|by intros e s Hs].
  apply (hoare_bind _ _ _ (λ _, Turn ids xs)); [by intros s Hs|]. intros ms.
  apply (hoare_bind _ _ _ (λ _, Turn ids xs)); [apply race_Turn|]. intros [a|]; by intros s Hs.
Qed.

(** A step of an unfinished call keeps the call, takes one of its remaining
    steps, and closes its execution when it is the last. *)
Lemma task_step_spec t ids xs : is_done t = false →
  hoare (Turn (open_ids t ++ ids) xs) (task_step config t)
    (λ t' s, Turn (open_ids t' ++ ids) xs s ∧ task_call t' = task_call t ∧ is_started t' = true ∧
             (is_started t = true → task_size t = S (task_size t')))
    (λ _, Safe).
Proof.
  intros Hd. destruct t as [p|p [|u ups] out ee|p r b|f|f]; cbn; try done.
  - intros s Hs. destruct (aborted config s); [by split_and!|].
    destruct (t_execute _ _ _ _) as [[ups out] w]. by split_and!.
  - intros s Hs. destruct (settle_execution config out ee s) as [r b]. by split_and!.
  - apply (hoare_bind _ _ _ (λ _, Turn (tc_id (pc_toolCall p) :: ids) xs)); [|intros ee'; by intros s Hs].
    eapply hoare_conseq; [apply publish_update_spec|done|done|done].
  - apply (hoare_bind _ _ _ (λ f s, Turn (tc_id (pc_toolCall p) :: ids) xs s ∧ fc_toolCall f = pc_toolCall p)).
    + eapply hoare_conseq; [apply finalize_spec|done|done|done].
    + intros f s [Hs Hf]. cbn. rewrite Hf. by split_and!.
  - apply (hoare_bind _ _ _ (λ _, Turn ids xs)); [apply emit_end|]. intros ?. by intros s Hs.
Qed.

Lemma done_or_size t : is_started t = true → task_size t = 0%nat → ∃ f, t = TDone f.
Proof. destruct t; cbn; try done. by eexists. Qed.

Lemma run_steps_spec n t ids xs : is_started t = true → task_size t = n →
  hoare (Turn (open_ids t ++ ids) xs) (run_steps config n t)
    (λ t' s, ∃ f, t' = TDone f ∧ fc_toolCall f = task_call t ∧ Turn ids xs s) (λ _, Safe).
Proof.
  revert t. induction n as [|n IH]; intros t Hs Hn.
  - destruct (done_or_size t Hs Hn) as [f ->]. intros s HT. by exists f.
  - assert (Hd : is_done t = false) by (by destruct t). cbn.
    eapply hoare_bind; [by apply task_step_spec|]. intros t' s (HT&Hc&Hs'&Hsz).
    pose proof (IH t' Hs' ltac:(specialize (Hsz Hs); lia) s HT) as Hr.
    destruct (run_steps _ _ _ s) as [s' [t2|e]]; [|done]. destruct Hr as (f&?&?&?). exists f. by rewrite <-Hc.
Qed.

Lemma run_task_spec p ids xs :
  hoare (Turn (tc_id (pc_toolCall p) :: ids) xs) (run_task config (TStart p))
    (λ t s, ∃ f, t = TDone f ∧ fc_toolCall f = pc_toolCall p ∧ Turn ids xs s) (λ _, Safe).
Proof.
  unfold run_task. eapply hoare_bind; [by apply (task_step_spec (TStart p) ids xs)|].
  intros t' s (HT&Hc&Hs&_). pose proof (run_steps_spec _ t' ids xs Hs eq_refl s HT) as Hr.
  destruct (run_steps _ _ _ s) as [s' [t2|e]]; [|done]. destruct Hr as (f&?&Hf&?). exists f.
  by rewrite Hf, Hc.
Qed.

(** *** Batches *)

(** [m] is the result message of the finalized call [f]. *)
Definition result_of (f : FinalizedToolCall) (m : ToolResultMessage) : Prop :=
  ∃ t, m = createToolResultMessage f t.

Lemma announce_result_spec f xs :
  hoare (Turn [] xs) (announce_result config f)
    (λ m s, Turn [] (xs ++ [MToolResult m]) s ∧ result_of f m) (λ _, Safe).
Proof.
  unfold announce_result. apply (hoare_bind _ _ _ (λ _, Turn [] xs)); [by intros s Hs|]. intros now. cbn zeta.
  set (m := createToolResultMessage f now).
  apply (hoare_bind _ _ _ (λ _, Turn [] (xs ++ [MToolResult m]))); [|intros ? s Hs; split; [done|by exists now]].
  unfold emitToolResultMessage. apply (hoare_bind _ _ _ (λ _, Inv (PMessage RToolResult) xs [])).
  - eapply hoare_conseq; [apply (emit_quiet (PTurn []) (PMessage RToolResult) xs [] (MessageStart (MToolResult m))
      eq_refl eq_refl)| |done|by intros e s [? _]]. intros s. apply Turn_nil.
  - intros ?. eapply hoare_conseq; [apply (emit_Inv (PMessage RToolResult) (PTurn []) xs []
      (MessageEnd (MToolResult m)) eq_refl)|done| |by intros e s [? _]]. intros [] s. apply Turn_nil.
Qed.

(** The calls [fs] with their result messages [ms], in order. *)
Definition results (fs : list FinalizedToolCall) (ms : list ToolResultMessage) : Prop :=
  Forall2 result_of fs ms.

Lemma executeToolCallsSequential_spec tcs : ∀ xs,
  hoare (Turn [] xs) (executeToolCallsSequential config tcs)
    (λ r s, Turn [] (xs ++ (MToolResult <$> r.2)) s ∧ results r.1 r.2 ∧
       fc_toolCall <$> r.1 `prefix_of` tcs ∧
       ((∀ w, c_aborted _ config w = false) → fc_toolCall <$> r.1 = tcs))
    (λ _, Safe).
Proof.
  induction tcs as [|tc tcs IH]; intros xs; cbn [executeToolCallsSequential].
  { intros s Hs. cbn. rewrite app_nil_r. split_and!; [done|constructor|apply prefix_nil|done]. }
  apply (hoare_bind _ _ _ (λ b s, Turn [] xs s ∧ b = aborted config s)); [by intros s Hs|]. intros stop.
  destruct stop.
  { intros s [Hs Ha]. cbn. rewrite app_nil_r. split_and!; [done|constructor|apply prefix_nil|].
    intros Hno. unfold aborted in Ha. by rewrite Hno in Ha. }
  apply (hoare_bind _ _ _ (λ _, Turn [tc_id tc] xs)).
  { eapply hoare_conseq; [apply emit_start|by intros s [Hs _]|done|done]. }
  intros ?. eapply hoare_bind.
  { eapply hoare_conseq; [apply prepareToolCall_spec|done|intros p s Hs; exact Hs|done]. }
  intros p. apply (hoare_bind _ _ _ (λ o s, ∃ f, o = Some f ∧ fc_toolCall f = tc ∧ Turn [] xs s)).
  { destruct p as [p|r b]; cbn beta iota.
    - intros s [Hs Hp]. unfold fmap, eff_fmap. rewrite <-Hp in Hs.
      pose proof (run_task_spec p [] xs s Hs) as Hr.
      destruct (run_task config (TStart p) s) as [s' [t|e]]; [|done].
      destruct Hr as (f&->&Hf&HT). exists f. split_and!; [done|congruence|done].
    - apply (hoare_bind _ _ _ (λ _, Turn [] xs)).
      + eapply hoare_conseq; [apply (emit_end (MkFinalized tc r b))|by intros s [Hs _]|done|done].
      + intros ? s Hs. by exists (MkFinalized tc r b). }
  intros o. intros s (f&->&Hf&HT). revert s HT.
  change (hoare (Turn [] xs)
    (m ← announce_result config f; stop ← egets (aborted config);
     if stop : bool then mret ([f], [m])
     else rs ← executeToolCallsSequential config tcs; mret (f :: rs.1, m :: rs.2))
    (λ r s, Turn [] (xs ++ (MToolResult <$> r.2)) s ∧ results r.1 r.2 ∧
       fc_toolCall <$> r.1 `prefix_of` tc :: tcs ∧
       ((∀ w, c_aborted _ config w = false) → fc_toolCall <$> r.1 = tc :: tcs)) (λ _, Safe)).
  eapply hoare_bind; [apply announce_result_spec|]. intros m.
  apply (hoare_bind _ _ _ (λ b s, (Turn [] (xs ++ [MToolResult m]) s ∧ result_of f m) ∧ b = aborted config s));
    [by intros s Hs|]. intros [].
  - intros s [[Hs Hm] Ha]. split_and!; [done|by constructor| |].
    + cbn. rewrite Hf. apply prefix_cons, prefix_nil.
    + intros Hno. unfold aborted in Ha. by rewrite Hno in Ha.
  - intros s [[Hs Hm] _]. pose proof (IH (xs ++ [MToolResult m]) s Hs) as Hr.
    unfold mbind, eff_bind. destruct (executeToolCallsSequential config tcs s) as [s' [[fs ms]|e]]; [|done].
    destruct Hr as (HT&Hrs&Hpre&Hfull). cbn in *. split_and!.
    + by rewrite <-app_assoc in HT.
    + by constructor.
    + rewrite Hf. by apply prefix_cons.
    + intros Hno. by rewrite Hf, Hfull.
Qed.

Lemma announce_all_spec fs : ∀ xs,
  hoare (Turn [] xs) (announce_all config fs)
    (λ ms s, Turn [] (xs ++ (MToolResult <$> ms)) s ∧ results fs ms) (λ _, Safe).
Proof.
  induction fs as [|f fs IH]; intros xs; cbn [announce_all].
  { intros s Hs. cbn. rewrite app_nil_r. by split; [|constructor]. }
  eapply hoare_bind; [apply announce_result_spec|]. intros m s [Hs Hm].
  pose proof (IH (xs ++ [MToolResult m]) s Hs) as Hr. unfold mbind, eff_bind.
  destruct (announce_all config fs s) as [s' [ms|e]]; [|done]. destruct Hr as [HT Hrs].
  cbn. rewrite <-app_assoc in HT. split; [done|]. by constructor.
Qed.

Definition all_open (ts : list (task (W:=W))) : list jsstr := ts ≫= open_ids.

Lemma preflight_spec tcs : ∀ ids xs,
  hoare (Turn ids xs) (preflight config tcs)
    (λ ts s, Turn (all_open ts ++ ids) xs s ∧ task_call <$> ts = tcs) (λ _, Safe).
Proof.
  induction tcs as [|tc tcs IH]; intros ids xs; cbn [preflight]; [by intros s Hs|].
  apply (hoare_bind _ _ _ (λ _, Turn (tc_id tc :: ids) xs)); [apply emit_start|]. intros ?.
  eapply hoare_bind.
  { eapply hoare_conseq; [apply prepareToolCall_spec|done|intros p s Hs; exact Hs|done]. }
  intros p. apply (hoare_bind _ _ _ (λ t s, Turn (open_ids t ++ ids) xs s ∧ task_call t = tc)).
  { destruct p as [p|r b]; cbn beta iota.
    - intros s [Hs Hp]. cbn. by rewrite Hp.
    - apply (hoare_bind _ _ _ (λ _, Turn ids xs)); [|intros ? s Hs; by split].
      eapply hoare_conseq; [apply (emit_end (MkFinalized tc r b))|by intros s [Hs _]|done|done]. }
  intros t s [Hs Ht]. pose proof (IH (open_ids t ++ ids) xs s Hs) as Hr. unfold mbind, eff_bind.
  destruct (preflight config tcs s) as [s' [ts|e]]; [|done]. destruct Hr as [HT Hts]. cbn. split.
  - unfold all_open in *. cbn. eapply Turn_perm; [|exact HT]. by rewrite <-app_assoc, Permutation_app_swap_app.
  - by rewrite Ht, Hts.
Qed.

Lemma task_step_any t ids xs :
  hoare (Turn (open_ids t ++ ids) xs) (task_step config t)
    (λ t' s, Turn (open_ids t' ++ ids) xs s ∧ task_call t' = task_call t ∧ is_started t' = true) (λ _, Safe).
Proof.
  destruct (is_done t) eqn:Hd; [by destruct t; intros s Hs|].
  eapply hoare_conseq; [by apply task_step_spec|done|by intros t' s (?&?&?&_)|done].
Qed.

Lemma start_all_spec ts : ∀ ids xs,
  hoare (Turn (all_open ts ++ ids) xs) (start_all config ts)
    (λ ts' s, Turn (all_open ts' ++ ids) xs s ∧ task_call <$> ts' = task_call <$> ts ∧
              Forall (λ t, is_started t = true) ts') (λ _, Safe).
Proof.
  induction ts as [|t ts IH]; intros ids xs; cbn [start_all]; [intros s Hs; by split_and!|].
  eapply hoare_bind.
  { eapply hoare_conseq; [apply (task_step_any t (all_open ts ++ ids) xs)| |done|done].
    intros s Hs. unfold all_open in *. cbn in Hs. by rewrite <-app_assoc in Hs. }
  intros t' s (HT&Hc&Hst).
  pose proof (IH (open_ids t' ++ ids) xs s) as Hr. unfold mbind, eff_bind.
  assert (Turn (all_open ts ++ open_ids t' ++ ids) xs s) as HT2.
  { eapply Turn_perm; [|exact HT]. by rewrite Permutation_app_swap_app. }
  specialize (Hr HT2). destruct (start_all config ts s) as [s' [ts'|e]]; [|done].
  destruct Hr as (HT3&Hcs&Hall). cbn. split_and!; [|by rewrite Hc, Hcs|by constructor].
  unfold all_open in *. cbn. eapply Turn_perm; [|exact HT3]. by rewrite <-app_assoc, Permutation_app_swap_app.
Qed.

Lemma unfinished_elem ts i : i ∈ unfinished ts → ∃ t, ts !! i = Some t ∧ is_done t = false.
Proof.
  unfold unfinished. intros ([j t]&Hin&Hj)%list_elem_of_omap.
  apply list_elem_of_lookup in Hin as [k Hk]. rewrite list_lookup_imap in Hk.
  apply fmap_Some in Hk as (t'&Ht&[= -> ->]). cbn in Hj. destruct t' eqn:E; try done;
    injection Hj as <-; by eexists.
Qed.

Lemma unfinished_nil ts : unfinished ts = [] → ∀ t, t ∈ ts → is_done t = true.
Proof.
  intros Hu t Ht. destruct (is_done t) eqn:E; [done|]. apply list_elem_of_lookup in Ht as [i Hi].
  assert (i ∈ unfinished ts) as Hin; [|rewrite Hu in Hin; by apply elem_of_nil in Hin].
  unfold unfinished. apply list_elem_of_omap. exists (i, t). split; [|by destruct t].
  apply list_elem_of_lookup. exists i. by rewrite list_lookup_imap, Hi.
Qed.

Lemma all_open_done ts : (∀ t, t ∈ ts → is_done t = true) → all_open ts = [].
Proof.
  induction ts as [|t ts IH]; intros Hall; [done|]. unfold all_open in *. cbn.
  rewrite IH by (intros t' Ht; apply Hall; by right). unfold open_ids. by rewrite (Hall t) by (by left).
Qed.

Lemma run_all_spec fuel : ∀ ts xs,
  Forall (λ t, is_started t = true) ts → (total_size ts <= fuel)%nat →
  hoare (Turn (all_open ts) xs) (run_all config fuel ts)
    (λ ts' s, Turn [] xs s ∧ task_call <$> ts' = task_call <$> ts ∧ Forall (λ t, is_done t = true) ts')
    (λ _, Safe).
Proof.
  induction fuel as [|fuel IH]; intros ts xs Hst Hsz; cbn [run_all].
  - assert (Hd : ∀ t, t ∈ ts → is_done t = true).
    { intros t Ht. rewrite Forall_forall in Hst. specialize (Hst t Ht).
      assert (task_size t = 0%nat) as Hz.
      { unfold total_size in Hsz. clear Hst. induction ts as [|y ts IHt]; [by apply elem_of_nil in Ht|]. cbn in Hsz.
        apply elem_of_cons in Ht as [->|Ht]; [lia|]. apply IHt; [lia|done]. }
      by destruct (done_or_size t Hst Hz) as [f ->]. }
    destruct (unfinished ts); (intros s Hs; split_and!;
      [by rewrite all_open_done in Hs|done|by apply Forall_forall]).
  - destruct (unfinished ts) as [|i0 todo] eqn:Hu.
    { pose proof (unfinished_nil ts Hu) as Hd. intros s Hs. split_and!;
      [by rewrite all_open_done in Hs|done|by apply Forall_forall]. }
    apply (hoare_bind _ _ _ (λ _, Turn (all_open ts) xs)); [by intros s Hs|]. intros k. cbn zeta.
    set (i := default i0 ((i0 :: todo) !! (k mod length (i0 :: todo))%nat)).
    assert (i ∈ unfinished ts) as Hi.
    { rewrite Hu. unfold i. destruct (_ !! _) as [j|] eqn:Ej; [by eapply list_elem_of_lookup_2|by left]. }
    apply unfinished_elem in Hi as (t&Ht&Hd). rewrite Ht.
    pose proof (list_elem_of_split_length ts i t Ht) as (l1&l2&Hsplit&Hlen).
    assert (Hins : ∀ t', <[i := t']> ts = l1 ++ t' :: l2).
    { intros t'. rewrite Hsplit, Hlen. by rewrite insert_app_r_alt, Nat.sub_diag. }
    assert (Hopen : ∀ t', all_open (l1 ++ t' :: l2) ≡ₚ open_ids t' ++ all_open (l1 ++ l2)).
    { intros t'. unfold all_open. rewrite !bind_app. cbn. by rewrite Permutation_app_swap_app. }
    eapply hoare_bind.
    { eapply hoare_conseq; [by apply (task_step_spec t (all_open (l1 ++ l2)) xs)| |intros t' s Hs; exact Hs|done].
      intros s Hs. eapply Turn_perm; [|exact Hs]. by rewrite Hsplit, Hopen. }
    intros t' s (HT&Hc&Hst'&Hsize). rewrite Hins. rewrite Hsplit in Hst, Hsz.
    apply Forall_app in Hst as [Hst1 [Hstt Hst2]%Forall_cons]. specialize (Hsize Hstt).
    assert (Hsz' : (total_size (l1 ++ t' :: l2) <= fuel)%nat).
    { unfold total_size in *. rewrite !sum_list_with_app in *. cbn in *. lia. }
    pose proof (IH (l1 ++ t' :: l2) xs ltac:(by apply Forall_app; split; [|constructor]) Hsz' s) as Hr.
    assert (Turn (all_open (l1 ++ t' :: l2)) xs s) as HT2 by (eapply Turn_perm; [symmetry; apply Hopen|done]).
    specialize (Hr HT2). destruct (run_all _ _ _ s) as [s' [ts'|e]]; [|done].
    destruct Hr as (?&Hcs&?). split_and!; [done| |done]. rewrite Hcs, Hsplit, !fmap_app. cbn. by rewrite Hc.
Qed.

Lemma omap_finalized ts : Forall (λ t, is_done t = true) ts →
  fc_toolCall <$> omap finalized_of ts = task_call <$> ts.
Proof.
  induction 1 as [|t ts Ht _ IH]; [done|]. destruct t; try done. cbn. by rewrite <-IH.
Qed.

Lemma executeToolCallsParallel_spec tcs xs :
  hoare (Turn [] xs) (executeToolCallsParallel config tcs)
    (λ r s, Turn [] (xs ++ (MToolResult <$> r.2)) s ∧ results r.1 r.2 ∧ fc_toolCall <$> r.1 = tcs)
    (λ _, Safe).
Proof.
  unfold executeToolCallsParallel.
  eapply hoare_bind; [apply preflight_spec|]. intros ts0 s0 [H0 Hc0]. revert s0 H0.
  match goal with |- ∀ s, ?P s → match ?m s with _ => _ end => change (hoare P m (λ r s,
    Turn [] (xs ++ (MToolResult <$> r.2)) s ∧ results r.1 r.2 ∧ fc_toolCall <$> r.1 = tcs) (λ _, Safe)) end.
  eapply hoare_bind; [apply start_all_spec|]. intros ts1 s1 (H1&Hc1&Hst). revert s1 H1. rewrite app_nil_r.
  match goal with |- ∀ s, ?P s → match ?m s with _ => _ end => change (hoare P m (λ r s,
    Turn [] (xs ++ (MToolResult <$> r.2)) s ∧ results r.1 r.2 ∧ fc_toolCall <$> r.1 = tcs) (λ _, Safe)) end.
  eapply hoare_bind; [by apply run_all_spec|]. intros ts2 s2 (H2&Hc2&Hd). revert s2 H2. cbn zeta.
  match goal with |- ∀ s, ?P s → match ?m s with _ => _ end => change (hoare P m (λ r s,
    Turn [] (xs ++ (MToolResult <$> r.2)) s ∧ results r.1 r.2 ∧ fc_toolCall <$> r.1 = tcs) (λ _, Safe)) end.
  eapply hoare_bind; [apply announce_all_spec|]. intros ms s [Hs Hr]. split_and!; [done..|].
  cbn. by rewrite omap_finalized, Hc2, Hc1.
Qed.

(** The calls answered by a batch, its results, and whether it terminates. *)
Definition batch_ok (tcs : list ToolCall) (rs : list ToolResultMessage) (terminate : bool) : Prop :=
  ∃ fs, results fs rs ∧ fc_toolCall <$> fs `prefix_of` tcs ∧
    ((∀ w, c_aborted _ config w = false) → fc_toolCall <$> fs = tcs) ∧
    terminate = shouldTerminateToolBatch fs.

Lemma executeToolCalls_spec tcs xs :
  hoare (Turn [] xs) (executeToolCalls config tcs)
    (λ r s, Turn [] (xs ++ (MToolResult <$> r.1)) s ∧ batch_ok tcs r.1 r.2) (λ _, Safe).
Proof.
  unfold executeToolCalls. cbn zeta.
  apply (hoare_bind _ _ _ (λ r s, Turn [] (xs ++ (MToolResult <$> r.2)) s ∧ results r.1 r.2 ∧
    fc_toolCall <$> r.1 `prefix_of` tcs ∧ ((∀ w, c_aborted _ config w = false) → fc_toolCall <$> r.1 = tcs))).
  - destruct (_ || _); [apply executeToolCallsSequential_spec|].
    eapply hoare_conseq; [apply executeToolCallsParallel_spec|done| |done].
    intros r s (?&?&E). split_and!; [done|done|by rewrite E|done].
  - intros r s (HT&Hr&Hp&Hf). cbn. split; [done|]. by exists r.1.
Qed.

Lemma results_answers fs rs : results fs rs →
  answers rs = (λ c, (tc_id c, tc_name c)) <$> (fc_toolCall <$> fs).
Proof. induction 1 as [|f m fs rs [t ->] _ IH]; [done|]. unfold answers in *. cbn. by rewrite IH. Qed.

Lemma fmap_prefix {A B} (f : A → B) l k : l `prefix_of` k → f <$> l `prefix_of` f <$> k.
Proof. intros [r ->]. rewrite fmap_app. by eexists. Qed.

(** *** Turns *)

Definition Ended (s : St W) : Prop :=
  Inv PEnd [] [] s ∧ last (st_trace s) = Some (AgentEnd (st_new s)).

Lemma Ended_Safe s : Ended s → Safe s.
Proof. intros [Hi _]. by eapply Inv_Safe. Qed.

Lemma end_agent_spec : hoare (Inv PRun [] []) (end_agent config) (λ _, Ended) (λ _, Safe).
Proof.
  intros s Hs. unfold end_agent, mbind, eff_bind, egets. cbn.
  pose proof (emit_quiet PRun PEnd [] [] (AgentEnd (st_new s)) eq_refl eq_refl s Hs) as He.
  unfold emit in *. destruct (c_emit _ config _ _) as [[[]|err] w]; [|by destruct He].
  split; [done|]. cbn. apply last_snoc.
Qed.

Lemma stop_spec {A} (r : A) :
  hoare (Inv PRun [] []) (end_agent config;; mret r) (λ r' s, r' = r ∧ Ended s) (λ _, Safe).
Proof. eapply hoare_bind; [apply end_agent_spec|]. intros ?. by intros s Hs. Qed.

Lemma settle_spec {A} (m : L A) q xs ys :
  hoare (Inv q xs ys) m (λ _, Inv q xs ys) (λ _, Inv q xs ys) →
  hoare (Inv q xs ys) (settlePostTurn config m) (λ _, Inv q xs ys) (λ _, Safe).
Proof.
  intros Hm s Hs. unfold settlePostTurn, ecatch, fmap, eff_fmap. specialize (Hm s Hs).
  destruct (m s) as [s' [a|e]]; [done|]. destruct (aborted config s' && err_abort e); [done|]. by eapply Inv_Safe.
Qed.

Lemma poll_spec p q xs ys :
  hoare (Inv q xs ys) (pollMessagesUnlessAborted config p) (λ _, Inv q xs ys) (λ _, Inv q xs ys).
Proof.
  intros s Hs. unfold pollMessagesUnlessAborted. destruct p as [p|]; [|done].
  destruct (aborted config s); [done|]. by apply race_Inv.
Qed.

Lemma before_spec b q xs ys :
  hoare (Inv q xs ys) (shouldStopBeforeTurn config b) (λ _, Inv q xs ys) (λ _, Safe).
Proof.
  intros s Hs. unfold shouldStopBeforeTurn, call_shouldStopBeforeTurn. destruct b; [done|].
  destruct (c_shouldStopBeforeTurn _ config) as [f|]; [|done]. destruct (f (st_world s)) as [[r|e] w]; [done|].
  by eapply (Inv_Safe q xs ys).
Qed.

Lemma inject_spec pending :
  hoare (Inv (PTurn []) [] []) (inject config pending) (λ _, Inv (PTurn []) [] []) (λ _, Safe).
Proof.
  induction pending as [|m pending IH]; cbn [inject]; [by intros s Hs|].
  apply (hoare_bind _ _ _ (λ _, Inv (PMessage (role m)) [] [])).
  { eapply hoare_conseq; [by apply (emit_quiet (PTurn []) (PMessage (role m)) [] [] (MessageStart m))|done|done|by intros e s [? _]]. }
  intros ?. apply (hoare_bind _ _ _ (λ _, Inv (PTurn []) [m] [])).
  { eapply hoare_conseq; [apply (emit_Inv (PMessage (role m)) (PTurn []) [] [] (MessageEnd m))|done|done|by intros e s [? _]].
    cbn. destruct (role m); by rewrite decide_True. }
  intros ?. apply (hoare_bind _ _ _ (λ _, Inv (PTurn []) [m] [m])).
  { intros s (H1&H2&H3). split_and!; cbn; [done|done|]. by rewrite H3, app_nil_r, <-app_assoc. }
  intros ?. apply (hoare_bind _ _ _ (λ _, Inv (PTurn []) [] [])); [|intros ?; exact IH].
  intros s (H1&H2&H3). split_and!; cbn; [done|by rewrite H2, app_nil_r|by rewrite H3, app_nil_r].
Qed.

Lemma push_results_spec rs :
  hoare (Inv (PTurn []) (MToolResult <$> rs) []) (push_results (W:=W) rs) (λ _, Inv (PTurn []) [] []) (λ _, Safe).
Proof.
  unfold push_results. induction rs as [|r rs IH]; cbn [efor]; [by intros s Hs|].
  apply (hoare_bind _ _ _ (λ _, Inv (PTurn []) (MToolResult <$> rs) [])); [|intros ?; exact IH].
  intros s (H1&H2&H3). unfold mbind, eff_bind, emodify. split_and!; cbn; [done| |].
  - by rewrite H2, <-app_assoc.
  - by rewrite H3, !app_nil_r, <-app_assoc.
Qed.

(** The protocol state in which a turn starts: the first one was opened by the
    caller. *)
Definition turn_entry (firstTurn : bool) : pstate := if firstTurn then PTurn [] else PRun.

Definition after_turn (r : turn_end) (s : St W) : Prop :=
  match r with Stopped => Ended s | NextTurn _ _ _ => Inv PRun [] [] s end.

Lemma hoare_stop : hoare (Inv PRun [] []) (end_agent config;; mret Stopped) after_turn (λ _, Safe).
Proof. eapply hoare_conseq; [apply (stop_spec Stopped)|done|by intros r s [-> ?]|done]. Qed.

Lemma run_turn_start (firstTurn : bool) :
  hoare (Inv (turn_entry firstTurn) [] []) (ewhen (negb firstTurn) (emit config TurnStart))
    (λ _, Inv (PTurn []) [] []) (λ _, Safe).
Proof.
  destruct firstTurn; cbn; [by intros s Hs|].
  eapply hoare_conseq; [by apply (emit_quiet PRun (PTurn []) [] [] TurnStart)|done|done|by intros e s [? _]].
Qed.

Lemma turn_end_spec m rs : answers rs `prefix_of` requests m →
  hoare (Inv (PTurn []) [] []) (emit config (TurnEnd m rs)) (λ _, Inv PRun [] []) (λ _, Safe).
Proof.
  intros Hp. eapply hoare_conseq; [apply (emit_quiet (PTurn []) PRun [] [] (TurnEnd m rs))|done|done|by intros e s [? _]];
    [|done]. cbn. by rewrite decide_True.
Qed.

Lemma steering_spec (message : AssistantMessage) (batch : list ToolResultMessage * bool) info :
  hoare (Inv PRun [] [])
    (steering ← settlePostTurn config (pollMessagesUnlessAborted config (c_getSteeringMessages _ config));
     match steering with
     | None => end_agent config;; mret Stopped
     | Some pending =>
         b ← match pending with [] => shouldStopBeforeTurn config false | _ => mret false end;
         if b : bool then end_agent config;; mret Stopped
         else mret (NextTurn (negb batch.2) pending info)
     end) after_turn (λ _, Safe).
Proof.
  eapply hoare_bind; [apply settle_spec, poll_spec|]. intros [pending|]; [|apply hoare_stop].
  apply (hoare_bind _ _ _ (λ _, Inv PRun [] [])).
  - destruct pending; [apply before_spec|by intros s Hs].
  - intros [|]; [apply hoare_stop|by intros s Hs].
Qed.

Lemma post_turn_spec (message : AssistantMessage) (batch : list ToolResultMessage * bool) :
  hoare (Inv PRun [] [])
    (stop ← egets (aborted config);
     if stop : bool then end_agent config;; mret Stopped
     else
       info ← egets (λ s, MkTurnInfo message batch.1 (st_messages s) (st_new s));
       shouldStop ← settlePostTurn config
         (match c_shouldStopAfterTurn _ config with
          | Some f => race config (f info)
          | None => race config (λ w, (Resolved false, w))
          end);
       match shouldStop with
       | None => end_agent config;; mret Stopped
       | Some b =>
           b ← (if b : bool then mret true else shouldStopBeforeTurn config false);
           if b : bool then end_agent config;; mret Stopped
           else
             steering ← settlePostTurn config (pollMessagesUnlessAborted config (c_getSteeringMessages _ config));
             match steering with
             | None => end_agent config;; mret Stopped
             | Some pending =>
                 b ← match pending with [] => shouldStopBeforeTurn config false | _ => mret false end;
                 if b : bool then end_agent config;; mret Stopped
                 else mret (NextTurn (negb batch.2) pending info)
             end
       end) after_turn (λ _, Safe).
Proof.
  apply (hoare_bind _ _ _ (λ _, Inv PRun [] [])); [by intros s Hs|]. intros [|]; [apply hoare_stop|].
  apply (hoare_bind _ _ _ (λ _, Inv PRun [] [])); [by intros s Hs|]. intros info.
  eapply hoare_bind; [apply settle_spec; destruct (c_shouldStopAfterTurn _ config); apply race_Inv|].
  intros [b|]; [|apply hoare_stop].
  apply (hoare_bind _ _ _ (λ _, Inv PRun [] [])); [destruct b; [by intros s Hs|apply before_spec]|].
  intros [|]; [apply hoare_stop|]. by apply steering_spec.
Qed.

Lemma batch_spec m :
  hoare (Inv (PTurn []) [] [])
    (match tool_calls (am_content m) with
     | [] => mret ([], true)
     | _ => executeToolCalls config (tool_calls (am_content m))
     end)
    (λ r s, Inv (PTurn []) (MToolResult <$> r.1) [] s ∧ answers r.1 `prefix_of` requests m) (λ _, Safe).
Proof.
  assert (Hx : hoare (Inv (PTurn []) [] []) (executeToolCalls config (tool_calls (am_content m)))
    (λ r s, Inv (PTurn []) (MToolResult <$> r.1) [] s ∧ answers r.1 `prefix_of` requests m) (λ _, Safe)).
  { eapply hoare_conseq; [apply (executeToolCalls_spec (tool_calls (am_content m)) [])| | |done].
    - intros s Hs. by apply Turn_nil.
    - intros r s [HT (fs&Hr&Hp&_&_)]. split; [by apply Turn_nil in HT|].
      rewrite (results_answers _ _ Hr). by apply fmap_prefix. }
  destruct (tool_calls (am_content m)); [|exact Hx]. intros s Hs. split; [done|]. apply prefix_nil.
Qed.

Lemma run_turn_spec (firstTurn : bool) pending :
  hoare (Inv (turn_entry firstTurn) [] []) (run_turn config firstTurn pending) after_turn (λ _, Safe).
Proof.
  unfold run_turn. eapply hoare_bind.
  { eapply hoare_conseq; [apply throwIfAborted_Inv|done|intros ? s Hs; exact Hs|intros ? s; apply Inv_Safe]. }
  intros ?. eapply hoare_bind; [apply run_turn_start|]. intros ?.
  eapply hoare_bind; [apply inject_spec|]. intros ?. eapply hoare_bind; [apply streamAssistantResponse_spec|]. intros m.
  apply (hoare_bind _ _ _ (λ _, Inv (PTurn []) [] [])).
  { intros s (H1&H2&H3). split_and!; cbn; [done|by rewrite H2, app_nil_r|by rewrite H3, app_nil_r]. }
  intros ?. destruct (_ || _).
  { eapply hoare_bind; [apply turn_end_spec, prefix_nil|]. intros ?. apply hoare_stop. }
  cbn zeta. eapply hoare_bind; [apply batch_spec|]. intros batch s [Hs Ha]. revert s Hs.
  match goal with |- ∀ s, ?P s → match ?m s with _ => _ end => change (hoare P m after_turn (λ _, Safe)) end.
  eapply hoare_bind; [apply push_results_spec|]. intros ?.
  eapply hoare_bind; [by apply turn_end_spec|]. intros ?. apply post_turn_spec.
Qed.

Definition after_poll (r : option (list AgentMessage)) (s : St W) : Prop :=
  match r with None => Ended s | Some _ => Inv PRun [] [] s end.

Lemma hoare_no_more : hoare (Inv PRun [] []) (end_agent config;; mret None) after_poll (λ _, Safe).
Proof. eapply hoare_conseq; [apply (stop_spec None)|done|by intros r s [-> ?]|done]. Qed.

Lemma poll_more_spec info : hoare (Inv PRun [] []) (poll_more config info) after_poll (λ _, Safe).
Proof.
  unfold poll_more. eapply hoare_bind; [apply before_spec|]. intros [|]; [apply hoare_no_more|].
  eapply hoare_bind; [apply settle_spec, poll_spec|]. intros [[|m ms]|]; [|by intros s Hs|apply hoare_no_more].
  eapply hoare_bind; [apply before_spec|]. intros [|]; [apply hoare_no_more|].
  eapply hoare_bind; [apply settle_spec; destruct (c_getContinuationMessages _ config); apply race_Inv|].
  intros [[|m ms]|]; [apply hoare_no_more|by intros s Hs|apply hoare_no_more].
Qed.

Lemma runLoop_from_spec fuel : ∀ (firstTurn : bool) pending,
  hoare (Inv (turn_entry firstTurn) [] []) (runLoop_from config fuel firstTurn pending) (λ _, Ended) (λ _, Safe).
Proof.
  induction fuel as [|fuel IH]; intros firstTurn pending; cbn [runLoop_from].
  { intros s Hs. by eapply Inv_Safe. }
  eapply hoare_bind; [apply run_turn_spec|]. intros [|more pending' info]; [by intros s Hs|]. cbn [after_turn].
  destruct (_ || _); [apply (IH false)|].
  eapply hoare_bind; [apply poll_more_spec|]. intros [ms|]; [|by intros s Hs].
  eapply hoare_bind; [|intros ?; apply (IH false)].
  eapply hoare_conseq; [apply throwIfAborted_Inv|done|intros ? s Hs; exact Hs|intros ? s; apply Inv_Safe].
Qed.

Lemma runLoop_spec fuel :
  hoare (Inv (PTurn []) [] []) (runLoop config fuel) (λ _, Ended) (λ _, Safe).
Proof.
  unfold runLoop. eapply hoare_bind.
  { eapply hoare_conseq; [apply poll_spec|done|intros ? s Hs; exact Hs|intros ? s; apply Inv_Safe]. }
  intros pending. eapply hoare_bind; [|intros ?; apply (runLoop_from_spec _ true)].
  eapply hoare_conseq; [apply throwIfAborted_Inv|done|intros ? s Hs; exact Hs|intros ? s; apply Inv_Safe].
Qed.

(** While the prompts [rest] are still to be announced. *)
Definition Prompting (rest : list AgentMessage) (q : pstate) (s : St W) : Prop :=
  proto (st_trace s) = Some q ∧ message_ends (st_trace s) ++ rest = st_new s ∧ st_messages s = base ++ st_new s.

Lemma emit_Prompting q q' e rest rest' : proto_step q e = Some q' → rest = ended e ++ rest' →
  hoare (Prompting rest q) (emit config e) (λ _, Prompting rest' q') (λ _, Safe).
Proof.
  intros Hq -> s (Hp&He&Hm). unfold emit. destruct (c_emit _ config e (st_world s)) as [[[]|err] w] eqn:E.
  - split_and!; cbn; [by rewrite proto_snoc, Hp|by rewrite message_ends_snoc, <-app_assoc|done].
  - exists q'. cbn. by rewrite proto_snoc, Hp.
Qed.

Lemma announce_prompts_spec prompts :
  hoare (Prompting prompts (PTurn [])) (announce_prompts config prompts)
    (λ _, Inv (PTurn []) [] []) (λ _, Safe).
Proof.
  unfold announce_prompts. induction prompts as [|p ps IH]; cbn [efor].
  - intros s (H1&H2&H3). split_and!; [done| |]; rewrite ?app_nil_r in *; done.
  - eapply hoare_bind; [|intros ?; exact IH].
    eapply (hoare_bind _ _ _ (λ _, Prompting (p :: ps) (PMessage (role p)))).
    + by apply emit_Prompting.
    + intros ?. apply emit_Prompting; [|done]. cbn. destruct (role p); by rewrite decide_True.
Qed.

Lemma runAgentLoop_spec fuel prompts w :
  match runAgentLoop config fuel prompts (start_state base w) with
  | (s, Ok ms) => Ended s ∧ ms = st_new s
  | (s, Throw _) => Safe s
  end.
Proof.
  enough (hoare (λ s, s = start_state base w) (runAgentLoop config fuel prompts)
    (λ ms s, Ended s ∧ ms = st_new s) (λ _, Safe)) as H by apply (H _ eq_refl).
  unfold runAgentLoop. apply (hoare_bind _ _ _ (λ _, Prompting prompts PIdle)).
  { intros s ->. split_and!; done. }
  intros ?. apply (hoare_bind _ _ _ (λ _, Prompting prompts PRun)); [by apply emit_Prompting|].
  intros ?. apply (hoare_bind _ _ _ (λ _, Prompting prompts (PTurn []))); [by apply emit_Prompting|].
  intros ?. eapply hoare_bind; [apply announce_prompts_spec|].
  intros ?. eapply hoare_bind; [apply runLoop_spec|]. intros ?. by intros s Hs.
Qed.

Lemma runAgentLoopContinue_spec fuel w : base ≠ [] →
  match runAgentLoopContinue config fuel (start_state base w) with
  | (s, Ok ms) => Ended s ∧ ms = st_new s
  | (s, Throw _) => Safe s
  end.
Proof.
  intros Hne.
  assert (Hrun : hoare (λ s, s = start_state base w)
    (emodify (λ s, MkSt (st_messages s) [] (st_partial s) (st_trace s) (st_world s));;
     emit config AgentStart;; emit config TurnStart;; runLoop config fuel;; egets st_new)
    (λ ms s, Ended s ∧ ms = st_new s) (λ _, Safe)).
  { apply (hoare_bind _ _ _ (λ _, Prompting [] PIdle)).
    { intros s ->. split_and!; cbn; [done|done|by rewrite app_nil_r]. }
    intros ?. apply (hoare_bind _ _ _ (λ _, Prompting [] PRun)); [by apply emit_Prompting|].
    intros ?. apply (hoare_bind _ _ _ (λ _, Prompting [] (PTurn []))); [by apply emit_Prompting|].
    intros ?. eapply hoare_bind.
    - eapply hoare_conseq; [apply runLoop_spec| |done|done]. intros s (H1&H2&H3).
      rewrite app_nil_r in H2. split_and!; rewrite ?app_nil_r; done.
    - intros ?. by intros s Hs. }
  unfold runAgentLoopContinue, mbind at 1, eff_bind at 1, egets at 1. cbn [st_messages start_state].
  destruct (last base) as [m|] eqn:E; [|by apply last_None in E].
  destruct m; try (apply (Hrun _ eq_refl)); by exists PIdle.
Qed.
End spec.

(** The messages of a run start with its prompts. *)
Lemma runAgentLoop_keeps_prompts {W} (config : Config W) base fuel prompts w :
  prompts `prefix_of` st_new (runAgentLoop config fuel prompts (start_state base w)).1.
Proof.
  set (P := λ s : St W, prompts `prefix_of` st_new s).
  assert (HR : moves config (λ _ _, True)) by (split; try done; by intros ? ? ? w').
  assert (HP : stable config (λ _ _, True) P).
  { split; unfold P; cbn; try done. intros s m Hs. by apply prefix_app_r. }
  pose proof (K_runAgentLoop config _ HR P HP fuel prompts (start_state base w) (reflexivity _)) as Hk.
  by destruct (runAgentLoop _ _ _ _) as [s [a|e]].
Qed.

(** ** Fuel *)

(** More fuel does not change a run that did not run out of it. *)
Lemma runLoop_from_mono {W} (config : Config W) fuel : ∀ fuel' b pending s s' r,
  (fuel <= fuel')%nat → runLoop_from config fuel b pending s = (s', r) → r ≠ Throw out_of_fuel →
  runLoop_from config fuel' b pending s = (s', r).
Proof.
  induction fuel as [|fuel IH]; intros fuel' b pending s s' r Hle Hrun Hr.
  { cbn in Hrun. by injection Hrun as <- <-. }
  destruct fuel' as [|fuel']; [lia|]. cbn [runLoop_from] in *. unfold mbind, eff_bind in *.
  destruct (run_turn config b pending s) as [s1 [[|more pending' info]|e]]; [done| |done].
  destruct (_ || _); [by eapply IH; [lia| |]|].
  destruct (poll_more config info s1) as [s2 [[ms|]|e]]; [|done|done].
  destruct (throwIfAborted config s2) as [s3 [[]|e]]; [|done]. by eapply IH; [lia| |].
Qed.
