(* ===== verification/AgentLoopProps.v ===== *)
(** * Properties of the agent loop

    The theorems about [AgentLoop], each with a run of a concrete agent that
    satisfies its hypotheses. *)

From S2P Require Import Prelude.
From S2P Require Import Json.
From S2P Require Import Messages.
From S2P Require Import Eff.
From S2P Require Import AgentLoop.
From S2P Require Import AgentLoopSpec.

(** ** A concrete agent

    The world counts the operations performed.  The model asks for two tool
    calls, one of them of an unknown tool, while the count is small and then
    answers with a text. *)

Definition demo_assistant (content : list block) (r : StopReason) : AssistantMessage :=
  MkAssistantMessage content [] [] [] None r None None 0.
Definition demo_calls : AssistantMessage :=
  demo_assistant [TextBlock (js "hm"); ToolCallBlock (js "c1") (js "read") JNull;
                  ToolCallBlock (js "c2") (js "nope") JNull; ToolCallBlock (js "c3") (js "read") JNull] SrToolUse.
Definition demo_text : AssistantMessage := demo_assistant [TextBlock (js "done")] SrStop.

Definition tick {A} (a : A) : Call nat A := λ w, (Resolved a, S w).

Definition demo_response (m : AssistantMessage) : Response nat :=
  MkResponse [SStart (demo_assistant [] SrStop); SUpdate (demo_assistant [TextBlock (js "h")] SrStop); SDone m]
    (tick m).

Definition demo_read : AgentTool nat :=
  MkTool (js "read") false None (λ a, Ok a)
    (λ id _ w, (([MkToolResult [TextBlock (js "...")] None None],
                 Resolved (MkToolResult [TextBlock id] None None)), S w)).

Definition demo_config : Config nat :=
  MkConfig nat [] [] [] false (λ _, []) [demo_read] None (λ ms, tick ms) None None
    (λ _ ms _ w, (Resolved (demo_response (if (length ms <=? 2)%nat then demo_calls else demo_text)), S w))
    (tick tt) None None None None None None None (λ _, false) (λ e w, (Ok tt, S w)) Z.of_nat (λ w, w).

#[export] Instance demo_env : Env demo_config.
Proof.
  constructor; cbn; [done|]. intros sp ms key w r w' [= <- <-]. done.
Qed.

Definition demo_prompt : AgentMessage := MUser (MkUserMessage (CText (js "hi")) 0).

(** ** Whole runs *)

(** C2: A run that returns has followed the event protocol to its end, has
    announced as ended exactly the messages it returns and in that order, starts
    them with the prompts, has appended exactly them to the context, and its
    last event is the end of the agent with these messages. *)
Theorem runAgentLoop_transcript {W} (config : Config W) `{!Env config} base fuel prompts w s ms :
  runAgentLoop config fuel prompts (start_state base w) = (s, Ok ms) →
  proto (st_trace s) = Some PEnd ∧ message_ends (st_trace s) = ms ∧ prompts `prefix_of` ms ∧
  st_messages s = base ++ ms ∧ last (st_trace s) = Some (AgentEnd ms).
Proof.
  intros Hrun. pose proof (runAgentLoop_spec config base fuel prompts w) as Hspec.
  pose proof (runAgentLoop_keeps_prompts config base fuel prompts w) as Hpre.
  rewrite Hrun in Hspec, Hpre. destruct Hspec as [[(H1&H2&H3) H4] ->].
  rewrite app_nil_r in H2, H3. by split_and!.
Qed.

Definition demo_run : St nat * result lerr (list AgentMessage) :=
  Eval vm_compute in runAgentLoop demo_config 5 [demo_prompt] (start_state [] 0%nat).
Lemma demo_run_eq : runAgentLoop demo_config 5 [demo_prompt] (start_state [] 0%nat) = demo_run.
Proof. vm_compute. reflexivity. Qed.
Definition demo_messages : list AgentMessage :=
  Eval vm_compute in match demo_run.2 with Ok ms => ms | Throw _ => [] end.

Lemma runAgentLoop_transcript_witness :
  length demo_messages = 6%nat ∧ proto (st_trace demo_run.1) = Some PEnd ∧
  message_ends (st_trace demo_run.1) = demo_messages.
Proof.
  destruct (runAgentLoop_transcript demo_config [] 5 [demo_prompt] 0%nat demo_run.1 demo_messages
    ltac:(rewrite demo_run_eq; reflexivity)) as (H1&H2&_).
  split_and!; [reflexivity|exact H1|exact H2].
Defined.

(** Whatever happens in a run, including a hook, a provider or a listener
    that throws at any point, the events emitted so far follow the protocol: a
    client never sees overlapping messages, an update or an end of a tool that
    is not running, or a turn that ends before its tools. *)
Theorem runAgentLoop_protocol {W} (config : Config W) `{!Env config} base fuel prompts w :
  ∃ q, proto (st_trace (runAgentLoop config fuel prompts (start_state base w)).1) = Some q.
Proof.
  pose proof (runAgentLoop_spec config base fuel prompts w) as Hspec.
  destruct (runAgentLoop _ _ _ _) as [s [ms|e]]; [|exact Hspec].
  destruct Hspec as [Hend _]. by eapply Ended_Safe.
Qed.

(** The same agent with a listener that rejects from the tenth operation on. *)
Definition demo_failing : Config nat :=
  MkConfig nat [] [] [] false (λ _, []) [demo_read] None (λ ms, tick ms) None None
    (λ _ ms _ w, (Resolved (demo_response demo_calls), S w))
    (tick tt) None None None None None None None (λ _, false)
    (λ e w, (if (w <=? 10)%nat then Ok tt else Throw (MkErr [] false), S w)) Z.of_nat (λ w, w).

Lemma demo_failing_env : Env demo_failing.
Proof.
  constructor; cbn.
  - intros e w err w' H. destruct (w <=? 10)%nat; [discriminate H|]. injection H as <- _. reflexivity.
  - intros sp ms key w r w' [= <- <-]. reflexivity.
Qed.

Lemma runAgentLoop_protocol_witness :
  (runAgentLoop demo_failing 5 [demo_prompt] (start_state [] 0%nat)).2 = Throw (MkErr [] false) ∧
  ∃ q, proto (st_trace (runAgentLoop demo_failing 5 [demo_prompt] (start_state [] 0%nat)).1) = Some q.
Proof.
  split; [vm_compute; reflexivity|]. apply (@runAgentLoop_protocol nat demo_failing demo_failing_env).
Defined.

(** [runAgentLoopContinue] refuses an empty context and one that ends with
    an assistant message without emitting anything; otherwise, when it returns,
    the protocol has ended, and the returned messages are those announced and
    those appended to the context. *)
Theorem runAgentLoopContinue_transcript {W} (config : Config W) `{!Env config} base fuel w s r :
  runAgentLoopContinue config fuel (start_state base w) = (s, r) →
  (∃ q, proto (st_trace s) = Some q) ∧
  match last base with
  | None => s = start_state base w ∧ r = Throw no_messages
  | Some (MAssistant _) => s = start_state base w ∧ r = Throw from_assistant
  | Some _ => ∀ ms, r = Ok ms → proto (st_trace s) = Some PEnd ∧
      message_ends (st_trace s) = ms ∧ st_messages s = base ++ ms ∧ last (st_trace s) = Some (AgentEnd ms)
  end.
Proof.
  intros Hrun. destruct base as [|m0 base']; [cbn in Hrun; injection Hrun as <- <-; split; [by exists PIdle|done]|].
  set (base := m0 :: base') in *.
  pose proof (runAgentLoopContinue_spec config base fuel w ltac:(done)) as Hspec. rewrite Hrun in Hspec.
  assert (Hok : ∀ ms, r = Ok ms → proto (st_trace s) = Some PEnd ∧
    message_ends (st_trace s) = ms ∧ st_messages s = base ++ ms ∧ last (st_trace s) = Some (AgentEnd ms)).
  { intros ms ->. destruct Hspec as [[(H1&H2&H3) H4] ->]. rewrite app_nil_r in H2, H3. by split_and!. }
  split.
  { destruct r as [ms|e]; [|done]. exists PEnd. by eapply Hok. }
  destruct (last base) as [m|] eqn:E; [|by apply last_None in E].
  destruct m; try exact Hok. unfold runAgentLoopContinue, mbind, eff_bind, egets in Hrun.
  cbn [st_messages start_state] in Hrun. rewrite E in Hrun. cbn in Hrun. by injection Hrun as <- <-.
Qed.

Definition demo_continue : St nat * result lerr (list AgentMessage) :=
  Eval vm_compute in runAgentLoopContinue demo_config 5 (start_state [demo_prompt] 0%nat).
Lemma demo_continue_eq : runAgentLoopContinue demo_config 5 (start_state [demo_prompt] 0%nat) = demo_continue.
Proof. vm_compute. reflexivity. Qed.

Lemma runAgentLoopContinue_transcript_witness :
  ∃ ms, demo_continue.2 = Ok ms ∧ message_ends (st_trace demo_continue.1) = ms.
Proof.
  destruct (runAgentLoopContinue_transcript demo_config [demo_prompt] 5 0%nat demo_continue.1 demo_continue.2
    ltac:(rewrite demo_continue_eq; reflexivity)) as [_ H].
  destruct (H _ eq_refl) as (_&H2&_). eexists. split; [reflexivity|exact H2].
Defined.

(** ** Tool batches *)

(** C6: A batch of tool calls started between messages of a turn yields one
    result message per answered call, in the order of the calls, has announced
    exactly these messages since, leaves the context alone and no tool running.
    It answers a prefix of the calls, and all of them if the run is never
    aborted. *)
Theorem executeToolCalls_answers {W} (config : Config W) `{!Env config} base tcs s s' rs terminate :
  proto (st_trace s) = Some (PTurn []) → message_ends (st_trace s) = st_new s →
  st_messages s = base ++ st_new s →
  executeToolCalls config tcs s = (s', Ok (rs, terminate)) →
  proto (st_trace s') = Some (PTurn []) ∧
  message_ends (st_trace s') = st_new s' ++ (MToolResult <$> rs) ∧ st_messages s' = base ++ st_new s' ∧
  answers rs `prefix_of` (λ c, (tc_id c, tc_name c)) <$> tcs ∧
  ((∀ w, c_aborted _ config w = false) → length rs = length tcs) ∧
  (terminate = true → rs ≠ []).
Proof.
  intros Hp He Hm Hrun.
  assert (HT : Turn base [] [] s). { apply Turn_nil. split_and!; rewrite ?app_nil_r; done. }
  pose proof (executeToolCalls_spec config base tcs [] s HT) as Hspec. rewrite Hrun in Hspec.
  destruct Hspec as [HT' (fs&Hr&Hpre&Hall&Ht)]. cbn [fst snd app] in *. subst terminate.
  apply Turn_nil in HT' as (H1&H2&H3). rewrite app_nil_r in H3.
  assert (Hlen : length fs = length rs) by (by eapply Forall2_length).
  split_and!; [done..| | |].
  - rewrite (results_answers _ _ Hr). by apply fmap_prefix.
  - intros Hno. rewrite <-(Hall Hno), <-Hlen. by rewrite length_fmap.
  - unfold shouldTerminateToolBatch. intros [Hne _]%andb_true_iff ->. cbn in Hlen.
    by destruct fs.
Qed.

Definition demo_turn : St nat := MkSt [] [] None [AgentStart; TurnStart] 0%nat.
Definition demo_batch : St nat * result lerr (list ToolResultMessage * bool) :=
  Eval vm_compute in executeToolCalls demo_config (tool_calls (am_content demo_calls)) demo_turn.
Lemma demo_batch_eq : executeToolCalls demo_config (tool_calls (am_content demo_calls)) demo_turn = demo_batch.
Proof. vm_compute. reflexivity. Qed.

Lemma executeToolCalls_answers_witness :
  ∃ rs t, demo_batch.2 = Ok (rs, t) ∧ length rs = 3%nat ∧ proto (st_trace demo_batch.1) = Some (PTurn []).
Proof.
  eexists _, _. split; [reflexivity|]. split; [reflexivity|].
  eapply (executeToolCalls_answers demo_config [] (tool_calls (am_content demo_calls)) demo_turn);
    [reflexivity|reflexivity|reflexivity|].
  rewrite demo_batch_eq. reflexivity.
Defined.

(** C7: In parallel mode every call gets its result whatever happens in the
    meantime (an abort, a rejected update event, a failing hook) and whatever
    order the running tools make their steps in: the batch finishes, and the
    results come in the order of the calls. *)
Theorem parallel_every_schedule {W} (config : Config W) `{!Env config} base tcs s s' fs rs :
  proto (st_trace s) = Some (PTurn []) → message_ends (st_trace s) = st_new s →
  st_messages s = base ++ st_new s →
  executeToolCallsParallel config tcs s = (s', Ok (fs, rs)) →
  fc_toolCall <$> fs = tcs ∧ answers rs = (λ c, (tc_id c, tc_name c)) <$> tcs ∧
  Forall2 (λ f m, tm_content m = tr_content (fc_result f) ∧ tm_isError m = fc_isError f) fs rs.
Proof.
  intros Hp He Hm Hrun.
  assert (HT : Turn base [] [] s). { apply Turn_nil. split_and!; rewrite ?app_nil_r; done. }
  pose proof (executeToolCallsParallel_spec config base tcs [] s HT) as Hspec. rewrite Hrun in Hspec.
  destruct Hspec as (_&Hr&Hc). cbn [fst snd] in *.
  split_and!; [done|by rewrite (results_answers _ _ Hr), Hc|].
  eapply Forall2_impl; [exact Hr|]. by intros f m [t ->].
Qed.

Definition demo_parallel : St nat * result lerr (list FinalizedToolCall * list ToolResultMessage) :=
  Eval vm_compute in executeToolCallsParallel demo_config (tool_calls (am_content demo_calls)) demo_turn.
Lemma demo_parallel_eq :
  executeToolCallsParallel demo_config (tool_calls (am_content demo_calls)) demo_turn = demo_parallel.
Proof. vm_compute. reflexivity. Qed.

Lemma parallel_every_schedule_witness :
  ∃ fs rs, demo_parallel.2 = Ok (fs, rs) ∧ fc_toolCall <$> fs = tool_calls (am_content demo_calls).
Proof.
  eexists _, _. split; [reflexivity|].
  eapply (parallel_every_schedule demo_config [] (tool_calls (am_content demo_calls)) demo_turn);
    [reflexivity|reflexivity|reflexivity|].
  rewrite demo_parallel_eq. reflexivity.
Defined.

(** ** Termination *)

(** The fuel only bounds the number of turns: a run that ends within a
    bound ends in the same way, state and result, under every larger one. *)
Theorem runLoop_fuel {W} (config : Config W) fuel fuel' s s' r :
  runLoop config fuel s = (s', r) → r ≠ Throw out_of_fuel → (fuel <= fuel')%nat →
  runLoop config fuel' s = (s', r).
Proof.
  unfold runLoop, mbind, eff_bind. intros Hrun Hr Hle.
  destruct (pollMessagesUnlessAborted config _ s) as [s1 [pending|e]]; [|done].
  destruct (throwIfAborted config s1) as [s2 [[]|e]]; [|done].
  by eapply runLoop_from_mono.
Qed.

Definition demo_loop : St nat * result lerr unit := Eval vm_compute in runLoop demo_config 2 demo_turn.
Lemma demo_loop_eq : runLoop demo_config 2 demo_turn = demo_loop.
Proof. vm_compute. reflexivity. Qed.

Lemma runLoop_fuel_witness : runLoop demo_config 100 demo_turn = demo_loop ∧ demo_loop.2 = Ok tt.
Proof.
  split; [|reflexivity].
  apply (runLoop_fuel demo_config 2 100 demo_turn demo_loop.1 demo_loop.2);
    [rewrite demo_loop_eq; reflexivity|discriminate|lia].
Defined.

(** *** Runs of a single turn *)

Section one_turn.
Context {W : Type} (config : Config W).

(** The messages a response can end with. *)
Definition final_of (r : Response W) (m : AssistantMessage) : Prop :=
  SDone m ∈ r_events r ∨ SError m ∈ r_events r ∨ ∃ w w', r_result r w = (Resolved m, w').

(** The model never asks for a tool, and no message is ever queued. *)
Record chat_only : Prop := ChatOnly {
  chat_steering : c_getSteeringMessages _ config = None;
  chat_followUp : c_getFollowUpMessages _ config = None;
  chat_continuation : c_getContinuationMessages _ config = None;
  chat_stream : ∀ sp ms key w r w' m, c_stream _ config sp ms key w = (Resolved r, w') →
    final_of r m → tool_calls (am_content m) = []
}.
Context (Hchat : chat_only).

Abbreviation ends m Q := (hoare (E:=lerr) (λ _ : St W, True) m (λ a _, Q a) (λ _ _, True)).

(** A message after which the turn loop stops asking. *)
Definition calm (m : AssistantMessage) : Prop := tool_calls (am_content m) = [] ∨ am_stopReason m = SrAborted.

Lemma ends_bind {A B} (m : eff (St W) lerr A) (f : A → eff (St W) lerr B) (Q : A → Prop) Q' :
  ends m Q → (∀ a, Q a → ends (f a) Q') → ends (m ≫= f) Q'.
Proof. intros Hm Hf. eapply hoare_bind; [exact Hm|]. intros a s Ha. by apply Hf. Qed.

Lemma ends_any {A} (m : eff (St W) lerr A) : ends m (λ _, True).
Proof. apply hoare_any. Qed.

Lemma ends_race {A} (op : Call W A) (Q : A → Prop) :
  (∀ w a w', op w = (Resolved a, w') → Q a) → ends (race config op) Q.
Proof.
  intros HQ s _. unfold race. destruct (op (st_world s)) as [o w] eqn:E. destruct (aborted _ _); [done|].
  destruct o; [by eapply HQ|done|done].
Qed.

Lemma ends_finish m (Q : AssistantMessage → Prop) : Q m → ends (finish_message config m) Q.
Proof.
  intros HQ. unfold finish_message. repeat (eapply ends_bind; [apply ends_any|intros ? _]). by intros s _.
Qed.

Lemma ends_consume r : (∀ m, final_of r m → tool_calls (am_content m) = []) →
  ∀ events, (∀ e, e ∈ events → e ∈ r_events r) → ends (consume config r events) calm.
Proof.
  intros Hr. induction events as [|e events IH]; intros Hin; cbn [consume];
    (eapply ends_bind; [apply ends_any|intros ? _]).
  - eapply ends_bind; [apply (ends_race _ (λ m, tool_calls (am_content m) = []))|].
    + intros w m w' E. apply Hr. right. right. eauto.
    + intros m Hm. apply ends_finish. by left.
  - assert (Hrest : ends (consume config r events) calm) by (apply IH; intros; apply Hin; by right).
    assert (Hterm : ∀ m, final_of r m → ends (m ← terminal_result config r m; finish_message config m) calm).
    { intros m Hm. eapply (ends_bind _ _ (λ m, tool_calls (am_content m) = [])).
      - unfold terminal_result. intros s _. unfold ecatch, race. destruct (r_result r (st_world s)) as [o w] eqn:E.
        destruct (aborted _ s); [destruct (_ || _); [done|by apply Hr]|].
        destruct o as [m'|e'|]; [apply Hr; right; right; eauto|destruct (_ || _); [done|by apply Hr]..].
      - intros m' Hm'. apply ends_finish. by left. }
    pose proof (Hin e (list_elem_of_here _ _)) as He. destruct e as [p|p|m|m].
    + by repeat (eapply ends_bind; [apply ends_any|intros ? _]).
    + by repeat (eapply ends_bind; [apply ends_any|intros ? _]).
    + apply Hterm. by left.
    + apply Hterm. by right; left.
Qed.

Lemma ends_stream : ends (streamAssistantResponse config) calm.
Proof.
  unfold streamAssistantResponse. eapply ends_bind; [apply ends_any|intros ? _].
  eapply (hoare_catch _ _ _ _ _ (λ _ _, True)).
  - unfold stream_try. do 6 (eapply ends_bind; [apply ends_any|intros ? _]).
    cbn zeta. eapply (ends_bind _ _ (λ r, ∀ m, final_of r m → tool_calls (am_content m) = [])).
    + apply ends_race. intros w r w' E m. by eapply chat_stream.
    + intros r Hr. by apply ends_consume.
  - intros e s _. destruct (_ && _); [|done]. unfold finishAbortedMessage.
    assert (Hf : ends (s ← eget; finish_message config (createAbortedAssistantMessage config (st_partial s)
      (c_now _ config (st_world s)))) calm); [|by apply Hf].
    eapply ends_bind; [apply ends_any|intros s0 _]. apply ends_finish. right. by destruct (st_partial s0).
Qed.

(** The ways a turn of such an agent can end. *)
Definition last_turn (r : turn_end) : Prop :=
  match r with Stopped => True | NextTurn more pending _ => more = false ∧ pending = [] end.

Lemma ends_run_turn b pending : ends (run_turn config b pending) last_turn.
Proof.
  unfold run_turn. do 3 (eapply ends_bind; [apply ends_any|intros ? _]).
  eapply ends_bind; [apply ends_stream|]. intros m Hm. eapply ends_bind; [apply ends_any|intros ? _].
  assert (Hstop : ends (end_agent config;; mret Stopped) last_turn)
    by (eapply ends_bind; [apply ends_any|intros ? _; by intros s _]).
  destruct (bool_decide _ || _) eqn:E.
  { eapply ends_bind; [apply ends_any|intros ? _]. exact Hstop. }
  destruct Hm as [Hm|Hm]; [|by rewrite Hm, orb_true_r in E]. cbn zeta. rewrite Hm.
  eapply (ends_bind _ _ (λ batch, batch = ([], true))); [by intros s _|]. intros batch ->. cbn [fst snd].
  do 2 (eapply ends_bind; [apply ends_any|intros ? _]). eapply ends_bind; [apply ends_any|]. intros [|] _; [done|].
  eapply ends_bind; [apply ends_any|intros info _]. eapply ends_bind; [apply ends_any|]. intros [b'|] _; [|done].
  eapply ends_bind; [apply ends_any|]. intros [|] _; [done|].
  eapply (ends_bind _ _ (λ r, r = Some [] ∨ r = None)).
  { rewrite (chat_steering Hchat). intros s _. by left. }
  intros r [->| ->]; [|done]. eapply ends_bind; [apply ends_any|]. intros [|] _; [done|by intros s _].
Qed.

Lemma ends_poll_more info : ends (poll_more config info) (λ r, r = None).
Proof.
  assert (Hstop : ends (end_agent config;; mret (None : option (list AgentMessage))) (λ r, r = None))
    by (eapply ends_bind; [apply ends_any|intros ? _; by intros s _]).
  unfold poll_more. rewrite (chat_followUp Hchat), (chat_continuation Hchat).
  eapply ends_bind; [apply ends_any|]. intros [|] _; [done|].
  eapply (ends_bind _ _ (λ r, r = Some [] ∨ r = None)); [intros s _; by left|]. intros r [->| ->]; [|done].
  eapply ends_bind; [apply ends_any|]. intros [|] _; [done|].
  eapply (ends_bind _ _ (λ r, r = Some [] ∨ r = None)).
  - intros s _. unfold settlePostTurn, ecatch, fmap, eff_fmap, race. destruct (aborted _ s) eqn:E; cbn; [|by left].
    destruct (_ && _); [by right|done].
  - intros r [->| ->]; done.
Qed.
End one_turn.

(** When the model asks for no tools and no message is queued the loop runs
    a single turn: it ends in the same way whatever the bound on the number of
    turns, so it never runs out of fuel. *)
Theorem runLoop_one_turn {W} (config : Config W) n s : chat_only config →
  runLoop config (S n) s = runLoop config 1 s.
Proof.
  intros Hchat. unfold runLoop, mbind, eff_bind.
  destruct (pollMessagesUnlessAborted config _ s) as [s1 [pending|e]]; [|done].
  destruct (throwIfAborted config s1) as [s2 [[]|e]]; [|done]. cbn [runLoop_from].
  unfold mbind, eff_bind. pose proof (ends_run_turn config Hchat true pending s2 I) as Ht.
  destruct (run_turn config true pending s2) as [s3 [[|more pending' info]|e]]; [done| |done].
  destruct Ht as [-> ->]. pose proof (ends_poll_more config Hchat info s3 I) as Hp.
  cbn [orb negb]. rewrite bool_decide_true by done. cbn [negb].
  destruct (poll_more config info s3) as [s4 [r|e]]; [|done]. cbn in Hp. by subst r.
Qed.

Definition demo_chat : Config nat :=
  MkConfig nat [] [] [] false (λ _, []) [demo_read] None (λ ms, tick ms) None None
    (λ _ ms _ w, (Resolved (demo_response demo_text), S w))
    (tick tt) None None None None None None None (λ _, false) (λ e w, (Ok tt, S w)) Z.of_nat (λ w, w).

Lemma runLoop_one_turn_witness :
  (runLoop demo_chat 1 demo_turn).2 = Ok tt ∧ runLoop demo_chat 7 demo_turn = runLoop demo_chat 1 demo_turn.
Proof.
  split; [reflexivity|]. apply (runLoop_one_turn demo_chat 6 demo_turn). constructor; [done..|].
  intros sp ms key w r w' m [= <- <-] [H|[H|(w1&w2&[= <- _])]]; [| |reflexivity].
  - apply (bool_decide_unpack (tool_calls (am_content m) = [])).
    apply elem_of_cons in H as [H|H]; [discriminate H|]. apply elem_of_cons in H as [H|H]; [discriminate H|].
    apply list_elem_of_singleton in H. injection H as ->. exact I.
  - apply elem_of_cons in H as [H|H]; [discriminate H|]. apply elem_of_cons in H as [H|H]; [discriminate H|].
    apply list_elem_of_singleton in H. discriminate H.
Defined.
