(* ===== verification/Agent.v ===== *)
(** * The agent

    Models [packages/agent/src/agent.ts]: the message queues, the state an
    event is reduced into, the lifecycle of a run and the entry points that
    start one.  A run is [AgentLoop] over the world of the agent: its own
    state, the flag that skips the first steering poll, and an external state
    [E] of providers, tools, hooks and listeners.

    External code acts on the agent through its public methods: an external
    operation gives, besides its outcome, the list of [action]s it performs.
    [reset], assignments to [state.messages] and new subscriptions happen
    between runs, and the set of listeners of a run is fixed. *)

From stdpp Require Import gmap.
From S2P Require Import Prelude.
From S2P Require Import JsString.
From S2P Require Import Json.
From S2P Require Import Messages.
From S2P Require Import Eff.
From S2P Require Import AgentLoop.

(** ** Message queues *)

Inductive QueueMode := QAll | QOneAtATime.

Record PendingMessageQueue := MkQueue { q_mode : QueueMode; q_batches : list (list AgentMessage) }.

Definition enqueue (message : list AgentMessage) (q : PendingMessageQueue) : PendingMessageQueue :=
  match message with
  | [] => q
  | batch => MkQueue (q_mode q) (q_batches q ++ [batch])
  end.

Definition hasItems (q : PendingMessageQueue) : bool := match q_batches q with [] => false | _ => true end.

Definition drain (q : PendingMessageQueue) : list AgentMessage * PendingMessageQueue :=
  match q_mode q with
  | QAll => (concat (q_batches q), MkQueue QAll [])
  | QOneAtATime =>
      match q_batches q with
      | [] => ([], q)
      | first :: rest => (first, MkQueue QOneAtATime rest)
      end
  end.

Definition clear (q : PendingMessageQueue) : PendingMessageQueue := MkQueue (q_mode q) [].

Definition removeWhere (predicate : AgentMessage → bool) (q : PendingMessageQueue)
    : list AgentMessage * PendingMessageQueue :=
  (concat (filter (λ b, existsb predicate b = true) (q_batches q)),
   MkQueue (q_mode q) (filter (λ b, existsb predicate b = false) (q_batches q))).

(** ** State *)

Record Model := MkModel { m_api : jsstr; m_provider : jsstr; m_id : jsstr }.
Definition DEFAULT_MODEL : Model := MkModel (js "unknown") (js "unknown") (js "unknown").

Record AgentState := MkAgentState {
  as_systemPrompt : jsstr;
  as_model : Model;
  as_messages : list AgentMessage;
  as_isStreaming : bool;
  as_streamingMessage : option AgentMessage;
  as_pendingToolCalls : gset jsstr;
  as_errorMessage : option jsstr
}.

Definition createMutableAgentState (systemPrompt : option jsstr) (model : option Model)
    (messages : option (list AgentMessage)) : AgentState :=
  MkAgentState (default [] systemPrompt) (default DEFAULT_MODEL model) (default [] messages)
    false None ∅ None.

(** [a_run]: the active run and whether its signal is aborted. *)
Record Agent := MkAgent {
  a_state : AgentState;
  a_steering : PendingMessageQueue;
  a_followUp : PendingMessageQueue;
  a_run : option bool
}.

Definition set_state (f : AgentState → AgentState) (a : Agent) : Agent :=
  MkAgent (f (a_state a)) (a_steering a) (a_followUp a) (a_run a).
Definition set_steering (q : PendingMessageQueue) (a : Agent) : Agent :=
  MkAgent (a_state a) q (a_followUp a) (a_run a).
Definition set_followUp (q : PendingMessageQueue) (a : Agent) : Agent :=
  MkAgent (a_state a) (a_steering a) q (a_run a).
Definition set_run (r : option bool) (a : Agent) : Agent :=
  MkAgent (a_state a) (a_steering a) (a_followUp a) r.

Definition set_streaming (m : option AgentMessage) (s : AgentState) : AgentState :=
  MkAgentState (as_systemPrompt s) (as_model s) (as_messages s) (as_isStreaming s) m
    (as_pendingToolCalls s) (as_errorMessage s).
Definition set_pending (p : gset jsstr) (s : AgentState) : AgentState :=
  MkAgentState (as_systemPrompt s) (as_model s) (as_messages s) (as_isStreaming s)
    (as_streamingMessage s) p (as_errorMessage s).
Definition set_error (e : option jsstr) (s : AgentState) : AgentState :=
  MkAgentState (as_systemPrompt s) (as_model s) (as_messages s) (as_isStreaming s)
    (as_streamingMessage s) (as_pendingToolCalls s) e.
Definition set_isStreaming (b : bool) (s : AgentState) : AgentState :=
  MkAgentState (as_systemPrompt s) (as_model s) (as_messages s) b
    (as_streamingMessage s) (as_pendingToolCalls s) (as_errorMessage s).
Definition set_msgs (m : list AgentMessage) (s : AgentState) : AgentState :=
  MkAgentState (as_systemPrompt s) (as_model s) m (as_isStreaming s)
    (as_streamingMessage s) (as_pendingToolCalls s) (as_errorMessage s).
Definition set_prompt (p : jsstr) (s : AgentState) : AgentState :=
  MkAgentState p (as_model s) (as_messages s) (as_isStreaming s)
    (as_streamingMessage s) (as_pendingToolCalls s) (as_errorMessage s).

(** ** Public methods that need no run *)

Definition steer (message : list AgentMessage) (a : Agent) : Agent :=
  set_steering (enqueue message (a_steering a)) a.
Definition followUp (message : list AgentMessage) (a : Agent) : Agent :=
  set_followUp (enqueue message (a_followUp a)) a.
Definition clearSteeringQueue (a : Agent) : Agent := set_steering (clear (a_steering a)) a.
Definition clearFollowUpQueue (a : Agent) : Agent := set_followUp (clear (a_followUp a)) a.
Definition clearAllQueues (a : Agent) : Agent := clearFollowUpQueue (clearSteeringQueue a).
Definition removeQueuedMessages (predicate : AgentMessage → bool) (a : Agent) : list AgentMessage * Agent :=
  let '(r1, q1) := removeWhere predicate (a_steering a) in
  let '(r2, q2) := removeWhere predicate (a_followUp a) in
  (r1 ++ r2, set_followUp q2 (set_steering q1 a)).
Definition hasQueuedMessages (a : Agent) : bool := hasItems (a_steering a) || hasItems (a_followUp a).
Definition set_steeringMode (m : QueueMode) (a : Agent) : Agent :=
  set_steering (MkQueue m (q_batches (a_steering a))) a.
Definition set_followUpMode (m : QueueMode) (a : Agent) : Agent :=
  set_followUp (MkQueue m (q_batches (a_followUp a))) a.
Definition abort (a : Agent) : Agent :=
  match a_run a with Some _ => set_run (Some true) a | None => a end.

Definition reset (a : Agent) : Agent :=
  clearSteeringQueue (clearFollowUpQueue
    (set_state (λ s, set_error None (set_pending ∅ (set_streaming None (set_isStreaming false (set_msgs [] s))))) a)).

(** What external code does to the agent while a run is active. *)
Inductive action :=
| ASteer (message : list AgentMessage)
| AFollowUp (message : list AgentMessage)
| AClearSteering
| AClearFollowUp
| ARemove (predicate : AgentMessage → bool)
| ASteeringMode (m : QueueMode)
| AFollowUpMode (m : QueueMode)
| ASystemPrompt (p : jsstr)
| AAbort.

Definition act (x : action) (a : Agent) : Agent :=
  match x with
  | ASteer m => steer m a
  | AFollowUp m => followUp m a
  | AClearSteering => clearSteeringQueue a
  | AClearFollowUp => clearFollowUpQueue a
  | ARemove p => (removeQueuedMessages p a).2
  | ASteeringMode m => set_steeringMode m a
  | AFollowUpMode m => set_followUpMode m a
  | ASystemPrompt p => set_state (set_prompt p) a
  | AAbort => abort a
  end.

Definition acts (xs : list action) (a : Agent) : Agent := foldl (λ a x, act x a) a xs.

(** ** External code *)

Section agent.
Context {E : Type}.

Record World := MkWorld { w_agent : Agent; w_skip : bool; w_ext : E }.

(** An external operation reads the agent and its own state. *)
Definition Ext (A : Type) : Type := Agent → E → (A * list action) * E.

Definition perform {A} (x : Ext A) (w : World) : A * World :=
  let '((r, xs), e) := x (w_agent w) (w_ext w) in (r, MkWorld (acts xs (w_agent w)) (w_skip w) e).

Definition call {A} (x : Ext (outcome A)) : Call World A := perform x.

Record ExtTool := MkExtTool {
  x_name : jsstr;
  x_sequential : bool;
  x_prepareArguments : option (json → result lerr json);
  x_validate : json → result lerr json;
  x_execute : jsstr → json → Ext (list AgentToolResult * outcome AgentToolResult)
}.

Record ExtResponse := MkExtResponse { x_events : list StreamEvent; x_result : Ext (outcome AssistantMessage) }.

Record AgentOptions := MkAgentOptions {
  o_tools : list ExtTool;
  o_convertToLlm : option (list AgentMessage → Ext (outcome (list AgentMessage)));
  o_transformContext : option (list AgentMessage → Ext (outcome (list AgentMessage)));
  o_streamFn : jsstr → list AgentMessage → option jsstr → Ext (outcome ExtResponse);
  o_next : Ext (outcome unit);
  o_getApiKey : option (Ext (outcome (option jsstr)));
  o_beforeToolCall : option (ToolCall → json → list AgentMessage → Ext (outcome (option BeforeToolCallResult)));
  o_afterToolCall : option (ToolCall → json → AgentToolResult → bool → list AgentMessage →
                            Ext (outcome (option AfterToolCallResult)));
  o_shouldStopAfterTurn : option (TurnInfo → Ext (outcome bool));
  o_shouldStopBeforeTurn : option (Ext (result lerr bool));
  o_getContinuationMessages : option (TurnInfo → Ext (outcome (list AgentMessage)));
  o_sequential : bool;
  (** the subscribed listeners, in subscription order *)
  o_listeners : list (AgentEvent → Ext (result lerr unit));
  o_now : E → Z;
  o_pick : E → nat
}.
Context (options : AgentOptions).

(** ** Events *)

(** The state changes of [processEvents]. *)
Definition reduce (event : AgentEvent) (s : AgentState) : AgentState :=
  match event with
  | MessageStart m => set_streaming (Some m) s
  | MessageUpdate m => set_streaming (Some (MAssistant m)) s
  | MessageEnd m => set_msgs (as_messages s ++ [m]) (set_streaming None s)
  | ToolExecutionStart id _ _ => set_pending ({[id]} ∪ as_pendingToolCalls s) s
  | ToolExecutionEnd id _ _ _ => set_pending (as_pendingToolCalls s ∖ {[id]}) s
  | TurnEnd m _ => if truthy (am_errorMessage m) then set_error (am_errorMessage m) s else s
  | AgentEnd _ => set_streaming None s
  | _ => s
  end.

Fixpoint run_listeners (ls : list (AgentEvent → Ext (result lerr unit))) (event : AgentEvent) (w : World)
    : result lerr unit * World :=
  match ls with
  | [] => (Ok tt, w)
  | l :: ls =>
      let '(r, w) := perform (l event) w in
      match r with Ok _ => run_listeners ls event w | Throw e => (Throw e, w) end
  end.

Definition outside_run : lerr := MkErr (js "Agent listener invoked outside active run") false.

Definition on_agent (f : Agent → Agent) (w : World) : World :=
  MkWorld (f (w_agent w)) (w_skip w) (w_ext w).

Definition processEvents (event : AgentEvent) (w : World) : result lerr unit * World :=
  let w := on_agent (set_state (reduce event)) w in
  match a_run (w_agent w) with
  | None => (Throw outside_run, w)
  | Some _ => run_listeners (o_listeners options) event w
  end.

(** ** The configuration of a run *)

Definition defaultConvertToLlm (messages : list AgentMessage) : list AgentMessage :=
  filter (λ m, match m with MUser _ | MAssistant _ | MToolResult _ => true | _ => false end = true) messages.

Definition tool_of (t : ExtTool) : AgentTool World :=
  MkTool (x_name t) (x_sequential t) (x_prepareArguments t) (x_validate t)
    (λ id args, perform (x_execute t id args)).

Definition response_of (r : ExtResponse) : Response World := MkResponse (x_events r) (call (x_result r)).

Definition map_outcome {A B} (f : A → B) (o : outcome A) : outcome B :=
  match o with Resolved a => Resolved (f a) | Rejected e => Rejected e | AbortedFirst => AbortedFirst end.

Definition getSteeringMessages : Call World (list AgentMessage) := λ w,
  if w_skip w then (Resolved [], MkWorld (w_agent w) false (w_ext w))
  else
    let '(ms, q) := drain (a_steering (w_agent w)) in
    (Resolved ms, on_agent (set_steering q) w).

Definition getFollowUpMessages : Call World (list AgentMessage) := λ w,
  let '(ms, q) := drain (a_followUp (w_agent w)) in
  (Resolved ms, on_agent (set_followUp q) w).

Definition createLoopConfig (model : Model) : Config World :=
  MkConfig World (m_api model) (m_provider model) (m_id model) (o_sequential options)
    (λ w, as_systemPrompt (a_state (w_agent w)))
    (tool_of <$> o_tools options)
    ((λ f ms, call (f ms)) <$> o_transformContext options)
    (λ ms, match o_convertToLlm options with
           | Some f => call (f ms)
           | None => λ w, (Resolved (defaultConvertToLlm ms), w)
           end)
    (call <$> o_getApiKey options)
    None
    (λ sp ms key w, let '(o, w) := perform (o_streamFn options sp ms key) w in (map_outcome response_of o, w))
    (call (o_next options))
    (Some getSteeringMessages)
    (Some getFollowUpMessages)
    (Some (λ info, match o_getContinuationMessages options with
                   | Some f => call (f info)
                   | None => λ w, (Resolved [], w)
                   end))
    (Some (λ info, match o_shouldStopAfterTurn options with
                   | Some f => call (f info)
                   | None => λ w, (Resolved false, w)
                   end))
    (Some (match o_shouldStopBeforeTurn options with
           | Some f => perform f
           | None => λ w, (Ok false, w)
           end))
    ((λ f tc args ms, call (f tc args ms)) <$> o_beforeToolCall options)
    ((λ f tc args r b ms, call (f tc args r b ms)) <$> o_afterToolCall options)
    (λ w, default false (a_run (w_agent w)))
    processEvents
    (λ w, o_now options (w_ext w))
    (λ w, o_pick options (w_ext w)).

(** ** The lifecycle of a run *)

Inductive AgentContinueErrorCode := Busy | NothingToContinue.
Inductive agent_error :=
| PlainError (message : jsstr)
| AgentContinueError (code : AgentContinueErrorCode) (message : jsstr).

Abbreviation AM := (eff World agent_error).

(** [createAssistantMessageDiagnostic]; the name, stack and code of the error
    object are not part of the model. *)
Definition failure_diagnostic (e : lerr) (now : Z) : json :=
  JArr [JObj [(js "type", JStr (js "agent_lifecycle_failure")); (js "timestamp", JNum now);
              (js "error", JObj [(js "message", JStr (err_message e))]);
              (js "details", JObj [(js "source", JStr (js "run_with_lifecycle"))])]].

Definition failureMessage (model : Model) (e : lerr) (aborted : bool) (now : Z) : AssistantMessage :=
  MkAssistantMessage [TextBlock []] (m_api model) (m_provider model) (m_id model) (Some AgentLoop.EMPTY_USAGE)
    (if aborted then SrAborted else SrError) (Some (err_message e))
    (if aborted then None else Some (failure_diagnostic e now)) now.

Definition handleRunFailure (e : lerr) (aborted : bool) (w : World) : World :=
  let m := failureMessage (as_model (a_state (w_agent w))) e aborted (o_now options (w_ext w)) in
  let w := on_agent (set_state (set_error (am_errorMessage m))) w in
  let w := (processEvents (MessageStart (MAssistant m)) w).2 in
  let w := (processEvents (MessageEnd (MAssistant m)) w).2 in
  (processEvents (AgentEnd [MAssistant m]) w).2.

Definition finishRun (w : World) : World :=
  on_agent (λ a, set_run None (set_state (λ s, set_pending ∅ (set_streaming None (set_isStreaming false s))) a)) w.

Definition startRun (w : World) : World :=
  on_agent (λ a, set_state (λ s, set_error None (set_streaming None (set_isStreaming true s)))
                   (set_run (Some false) a)) w.

Definition runWithLifecycle (executor : World → World * result lerr unit) : AM unit := λ w,
  match a_run (w_agent w) with
  | Some _ => (w, Throw (PlainError (js "Agent is already processing.")))
  | None =>
      let w := startRun w in
      let '(w, r) := executor w in
      let w := match r with
               | Ok _ => w
               | Throw e => handleRunFailure e (default false (a_run (w_agent w))) w
               end in
      (finishRun w, Ok tt)
  end.

(** The loop over a snapshot of the context. *)
Definition loop_state (w : World) : St World := start_state (as_messages (a_state (w_agent w))) w.

Definition run_loop (m : eff (St World) lerr (list AgentMessage)) (w : World) : World * result lerr unit :=
  let '(s, r) := m (loop_state w) in (st_world s, (λ _, tt) <$> r).

Definition set_skip (b : bool) (w : World) : World := MkWorld (w_agent w) b (w_ext w).

Definition runPromptMessages (fuel : nat) (messages : list AgentMessage) (skipInitialSteeringPoll : bool) : AM unit :=
  runWithLifecycle (λ w,
    let w := set_skip skipInitialSteeringPoll w in
    run_loop (runAgentLoop (createLoopConfig (as_model (a_state (w_agent w)))) fuel messages) w).

Definition runContinuation (fuel : nat) : AM unit :=
  runWithLifecycle (λ w,
    let w := set_skip false w in
    run_loop (runAgentLoopContinue (createLoopConfig (as_model (a_state (w_agent w)))) fuel) w).

Inductive prompt_input := PText (text : jsstr) (images : list block) | PMsg (m : AgentMessage) | PMsgs (l : list AgentMessage).

Definition normalizePromptInput (input : prompt_input) (now : Z) : list AgentMessage :=
  match input with
  | PMsgs l => l
  | PMsg m => [m]
  | PText text images => [MUser (MkUserMessage (CBlocks (TextBlock text :: images)) now)]
  end.

Definition ALREADY_PROCESSING : jsstr :=
  js "Agent is already processing a prompt. Use steer() or followUp() to queue messages, or wait for completion.".

Definition prompt (fuel : nat) (input : prompt_input) : AM unit := λ w,
  match a_run (w_agent w) with
  | Some _ => (w, Throw (PlainError ALREADY_PROCESSING))
  | None => runPromptMessages fuel (normalizePromptInput input (o_now options (w_ext w))) false w
  end.

(** [runQueuedMessages]: [None] when both queues are empty. *)
Definition runQueuedMessages (fuel : nat) : AM (option unit) := λ w,
  let '(ms, q) := drain (a_steering (w_agent w)) in
  let w := on_agent (set_steering q) w in
  match ms with
  | _ :: _ => (Some <$> runPromptMessages fuel ms true) w
  | [] =>
      let '(ms, q) := drain (a_followUp (w_agent w)) in
      let w := on_agent (set_followUp q) w in
      match ms with
      | _ :: _ => (Some <$> runPromptMessages fuel ms false) w
      | [] => (w, Ok None)
      end
  end.

Definition continue_error (code : AgentContinueErrorCode) (m : jsstr) : agent_error := AgentContinueError code m.
Definition busy : agent_error :=
  continue_error Busy (js "Agent is already processing. Wait for completion before continuing.").
Definition no_last : agent_error := continue_error NothingToContinue (js "No messages to continue from").
Definition last_is_assistant : agent_error :=
  continue_error NothingToContinue (js "Cannot continue from message role: assistant").

Definition continue (fuel : nat) : AM unit := λ w,
  match a_run (w_agent w) with
  | Some _ => (w, Throw busy)
  | None =>
      match last (as_messages (a_state (w_agent w))) with
      | None => (q ← runQueuedMessages fuel; match q with Some _ => mret tt | None => ethrow no_last end) w
      | Some (MAssistant _) =>
          (q ← runQueuedMessages fuel; match q with Some _ => mret tt | None => ethrow last_is_assistant end) w
      | Some (MCustom _) =>
          (q ← runQueuedMessages fuel; match q with Some _ => mret tt | None => runContinuation fuel end) w
      | Some _ => runContinuation fuel w
      end
  end.
End agent.
