(* ===== verification/AgentSpec.v ===== *)
(** * What the agent guarantees

    The observable state of the agent is the reduction of the events emitted
    so far; a run, successful or not, extends the transcript by exactly what it
    announced and leaves the agent idle; queued messages leave the queue in
    order. *)

From stdpp Require Import gmap.
From S2P Require Import Prelude.
From S2P Require Import Json.
From S2P Require Import Messages.
From S2P Require Import Eff.
From S2P Require Import AgentLoop.
From S2P Require Import AgentLoopSpec.
From S2P Require Import AgentLoopProps.
From S2P Require Import Agent.

(** ** Frames *)

(** An abort stays, and a run neither starts nor ends, while external code
    runs. *)
Definition run_le (r r' : option bool) : Prop :=
  match r, r' with
  | None, None => True
  | Some b, Some b' => b = true → b' = true
  | _, _ => False
  end.

#[export] Instance run_le_preorder : PreOrder run_le.
Proof. split; [by intros [[]|]|]. intros [[]|] [[]|] [[]|]; cbn; naive_solver. Qed.

(** What external code leaves of the agent: the state up to the system prompt. *)
Definition frame (a a' : Agent) : Prop :=
  (∃ p, a_state a' = set_prompt p (a_state a)) ∧ run_le (a_run a) (a_run a').

#[export] Instance frame_preorder : PreOrder frame.
Proof.
  split.
  - intros [[] ? ? ?]. split; [by eexists|done].
  - intros a b c [[p Hp] Hr] [[q Hq] Hr']. split; [|by etrans]. exists q. by rewrite Hq, Hp.
Qed.

Lemma frame_act x a : frame a (act x a).
Proof.
  destruct a as [[sp mo ms st sm pc em] q1 q2 r]. split.
  - destruct x; try (by exists sp); try (by eexists).
    exists sp. unfold act, abort. cbn. by destruct r.
  - destruct x; try done.
    unfold act, abort. cbn. by destruct r as [[]|].
Qed.

Lemma frame_acts xs : ∀ a, frame a (acts xs a).
Proof.
  induction xs as [|x xs IH]; intros a; [done|]. cbn. etrans; [apply frame_act|apply IH].
Qed.

Section agent_spec.
Context {E : Type} (options : @AgentOptions E).

(** The frame of an external operation on the world. *)
Definition wframe (w w' : @World E) : Prop := frame (w_agent w) (w_agent w').

#[export] Instance wframe_preorder : PreOrder wframe.
Proof.
  split; [intros w; unfold wframe; reflexivity|]. intros a b c H1 H2. unfold wframe in *. by etrans.
Qed.

Lemma perform_frame {A} (x : Ext A) w : wframe w (perform x w).2.
Proof. unfold perform. destruct (x _ _) as [[r xs] e]. apply frame_acts. Qed.

(** Only the queues may differ. *)
Lemma wframe_queues w w' :
  a_state (w_agent w') = a_state (w_agent w) → a_run (w_agent w') = a_run (w_agent w) → wframe w w'.
Proof.
  unfold wframe, frame. intros -> ->. split; [|reflexivity].
  exists (as_systemPrompt (a_state (w_agent w))). by destruct (a_state (w_agent w)).
Qed.

Lemma loop_moves model : moves (createLoopConfig options model) wframe.
Proof.
  assert (Hp : ∀ A (x : Ext (outcome A)), good wframe (call x)) by (intros A x w; apply perform_frame).
  constructor; cbn.
  - intros f ms. destruct (o_transformContext options) as [g|]; [|done]. by intros [= <-].
  - intros ms. destruct (o_convertToLlm options); [done|]. intros w. by apply wframe_queues.
  - intros f. destruct (o_getApiKey options) as [g|]; [|done]. by intros [= <-].
  - intros sp ms key w. cbn. pose proof (perform_frame (o_streamFn options sp ms key) w) as Hw.
    by destruct (perform _ w) as [o w'].
  - intros sp ms key w r w'. destruct (perform (o_streamFn options sp ms key) w) as [[x| |] w2]; cbn; [|done..].
    intros [= <- <-]. apply Hp.
  - apply Hp.
  - intros f [= <-] w. unfold getSteeringMessages. destruct (w_skip w); [by apply wframe_queues|].
    destruct (drain _) as [ms q]. by apply wframe_queues.
  - intros f [= <-] w. unfold getFollowUpMessages.
    destruct (drain _) as [ms q]. by apply wframe_queues.
  - intros f i [= <-]. destruct (o_getContinuationMessages options); [apply Hp|]. intros w. by apply wframe_queues.
  - intros f i [= <-]. destruct (o_shouldStopAfterTurn options); [apply Hp|]. intros w. by apply wframe_queues.
  - intros f w [= <-]. destruct (o_shouldStopBeforeTurn options); [apply perform_frame|by apply wframe_queues].
  - intros f tc args ms. destruct (o_beforeToolCall options) as [g|]; [|done]. by intros [= <-].
  - intros f tc args r b ms. destruct (o_afterToolCall options) as [g|]; [|done]. by intros [= <-].
  - intros t id args w Ht. apply list_elem_of_fmap in Ht as (x&->&_). apply perform_frame.
  - intros w. by apply wframe_queues.
Qed.

(** ** Events *)

Lemma reduce_set_prompt e p s : reduce e (set_prompt p s) = set_prompt p (reduce e s).
Proof. destruct s, e; cbn; try done. by destruct (truthy _). Qed.

Lemma set_prompt_prompt p q s : set_prompt p (set_prompt q s) = set_prompt p s.
Proof. done. Qed.

Definition reduce_all (tr : list AgentEvent) (s : AgentState) : AgentState := foldl (λ s e, reduce e s) s tr.
#[local] Arguments reduce_all : simpl never.

Lemma reduce_all_snoc tr e s : reduce_all (tr ++ [e]) s = reduce e (reduce_all tr s).
Proof. unfold reduce_all. by rewrite foldl_app. Qed.

Lemma run_listeners_frame ls e : ∀ w, wframe w (run_listeners ls e w).2.
Proof.
  induction ls as [|l ls IH]; intros w; [by apply wframe_queues|]. cbn.
  pose proof (perform_frame (l e) w) as Hw. destruct (perform (l e) w) as [[[]|err] w']; [|done].
  cbn in Hw. etrans; [exact Hw|apply IH].
Qed.

(** During a run an event is reduced into the state and nothing else happens
    to it. *)
Lemma processEvents_spec e w r w' : is_Some (a_run (w_agent w)) → processEvents options e w = (r, w') →
  (∃ p, a_state (w_agent w') = set_prompt p (reduce e (a_state (w_agent w)))) ∧
  run_le (a_run (w_agent w)) (a_run (w_agent w')).
Proof.
  intros [b Hb]. unfold processEvents. cbn. rewrite Hb. intros Hrun.
  pose proof (run_listeners_frame (o_listeners options) e (on_agent (set_state (reduce e)) w)) as [Hp Hr].
  rewrite Hrun in Hp, Hr. cbn in *. rewrite Hb in Hr. done.
Qed.

(** What a run keeps: the state is the reduction of the trace, and the run is
    active. *)
Definition follows (s0 : AgentState) (s : St (@World E)) : Prop :=
  (∃ p, a_state (w_agent (st_world s)) = set_prompt p (reduce_all (st_trace s) s0)) ∧
  is_Some (a_run (w_agent (st_world s))).

Lemma run_le_Some r r' : run_le r r' → is_Some r → is_Some r'.
Proof. destruct r, r'; cbn; try done; by intros _ [? ?]. Qed.

Lemma follows_stable model s0 : stable (createLoopConfig options model) wframe (follows s0).
Proof.
  constructor; cbn; try done.
  - intros s e r w Hrun [[p Hp] Hr]. destruct (processEvents_spec e _ _ _ Hr Hrun) as [[q Hq] Hr'].
    split; cbn; [|by eapply run_le_Some]. exists q.
    change (st_trace (log e w s)) with (st_trace s ++ [e]). by rewrite Hq, Hp, reduce_set_prompt, reduce_all_snoc.
  - intros s w [[q Hq] Hr] [[p Hp] Hs]. split; cbn; [|by eapply run_le_Some]. exists q. by rewrite Hq, Hp.
Qed.

Lemma startRun_follows (w : @World E) : follows (a_state (w_agent (startRun w))) (loop_state (startRun w)).
Proof. split; [|by eexists]. cbn. by exists (as_systemPrompt (a_state (w_agent w))). Qed.

(** ** Runs *)

(** What a client sees of an agent that is not running. *)
Definition idle (w : @World E) : Prop :=
  a_run (w_agent w) = None ∧ as_isStreaming (a_state (w_agent w)) = false ∧
  as_streamingMessage (a_state (w_agent w)) = None ∧ as_pendingToolCalls (a_state (w_agent w)) = ∅.

Lemma finishRun_idle w : idle (finishRun w).
Proof. done. Qed.

Definition transcript (w : @World E) : list AgentMessage := as_messages (a_state (w_agent w)).

Lemma reduce_messages e s : as_messages (reduce e s) = as_messages s ++ ended e.
Proof. destruct e; cbn; rewrite ?app_nil_r; try done. by destruct (truthy _). Qed.

Lemma reduce_all_messages tr s : as_messages (reduce_all tr s) = as_messages s ++ message_ends tr.
Proof.
  induction tr as [|e tr IH] using rev_ind; [by rewrite app_nil_r|].
  by rewrite reduce_all_snoc, message_ends_snoc, reduce_messages, IH, app_assoc.
Qed.

Lemma follows_transcript s0 s : follows s0 s →
  transcript (st_world s) = as_messages s0 ++ message_ends (st_trace s).
Proof. intros [[p Hp] _]. unfold transcript. rewrite Hp, <-reduce_all_messages. done. Qed.

Lemma process_transcript e w r w' : is_Some (a_run (w_agent w)) → processEvents options e w = (r, w') →
  transcript w' = transcript w ++ ended e ∧ is_Some (a_run (w_agent w')).
Proof.
  intros Hr Hrun. destruct (processEvents_spec e w r w' Hr Hrun) as [[p Hp] Hle].
  split; [|by eapply run_le_Some]. unfold transcript. rewrite Hp. cbn. apply reduce_messages.
Qed.

(** A failed run records the failure as the last message. *)
Lemma handleRunFailure_spec e b w : is_Some (a_run (w_agent w)) →
  transcript (handleRunFailure options e b w) =
    transcript w ++ [MAssistant (failureMessage (as_model (a_state (w_agent w))) e b (o_now options (w_ext w)))].
Proof.
  intros Hr. unfold handleRunFailure.
  set (m := failureMessage _ e b _). set (w0 := on_agent _ w).
  assert (Hr0 : is_Some (a_run (w_agent w0))) by done.
  destruct (processEvents options (MessageStart (MAssistant m)) w0) as [r1 w1] eqn:E1.
  destruct (process_transcript _ _ _ _ Hr0 E1) as [H1 Hr1].
  cbn [snd]. destruct (processEvents options (MessageEnd (MAssistant m)) w1) as [r2 w2] eqn:E2.
  destruct (process_transcript _ _ _ _ Hr1 E2) as [H2 Hr2].
  cbn [snd]. destruct (processEvents options (AgentEnd [MAssistant m]) w2) as [r3 w3] eqn:E3.
  destruct (process_transcript _ _ _ _ Hr2 E3) as [H3 Hr3].
  cbn [snd]. rewrite H3, H2, H1. cbn [ended]. by rewrite !app_nil_r.
Qed.

(** The loop of a run, from its start to before [finishRun]. *)
Definition run_state (w : @World E) (skip : bool) : @World E := set_skip skip (startRun w).

Lemma run_prompt_follows fuel messages skip w :
  follows (a_state (w_agent (startRun w)))
    (runAgentLoop (createLoopConfig options (as_model (a_state (w_agent w)))) fuel messages
       (loop_state (run_state w skip))).1.
Proof.
  eapply (K_runAgentLoop _ wframe (loop_moves _)); [apply follows_stable|]. split; [|by eexists].
  cbn. by exists (as_systemPrompt (a_state (w_agent w))).
Qed.

Lemma runPromptMessages_spec fuel messages skip w s r :
  a_run (w_agent w) = None →
  runAgentLoop (createLoopConfig options (as_model (a_state (w_agent w)))) fuel messages
    (loop_state (run_state w skip)) = (s, r) →
  ∃ w', runPromptMessages options fuel messages skip w = (w', Ok tt) ∧ idle w' ∧
    transcript w' = transcript w ++ message_ends (st_trace s) ++
      match r with
      | Ok _ => []
      | Throw e => [MAssistant (failureMessage (as_model (a_state (w_agent (st_world s)))) e
                      (default false (a_run (w_agent (st_world s)))) (o_now options (w_ext (st_world s))))]
      end.
Proof.
  intros Hidle Hrun. pose proof (run_prompt_follows fuel messages skip w) as Hf. rewrite Hrun in Hf. cbn [fst] in Hf.
  eexists. split; [|split].
  - unfold runPromptMessages, runWithLifecycle. rewrite Hidle. unfold run_loop.
    change (as_model (a_state (w_agent (set_skip skip (startRun w))))) with (as_model (a_state (w_agent w))).
    unfold run_state in Hrun. rewrite Hrun. reflexivity.
  - apply finishRun_idle.
  - pose proof (follows_transcript _ _ Hf) as Ht. unfold finishRun, transcript at 1. cbn [on_agent w_agent].
    destruct r as [ms|e]; cbn [fmap result_fmap].
    + rewrite app_nil_r. exact Ht.
    + change (transcript (handleRunFailure options e (default false (a_run (w_agent (st_world s)))) (st_world s)) = 
        transcript w ++ message_ends (st_trace s) ++ [MAssistant (failureMessage (as_model (a_state (w_agent (st_world s)))) e
                      (default false (a_run (w_agent (st_world s)))) (o_now options (w_ext (st_world s))))]).
      rewrite handleRunFailure_spec by (by destruct Hf). rewrite Ht. by rewrite app_assoc.
Qed.
End agent_spec.

(** ** The laws of external code

    No listener rejects with an abort error, and a provider's stream announces
    the start of its message at most once. *)

Class ExtEnv {E} (options : @AgentOptions E) : Prop := {
  ext_listener : ∀ l e a x err xs x',
    l ∈ o_listeners options → l e a x = ((Throw err, xs), x') → err_abort err = false;
  ext_stream : ∀ sp ms key a x r xs x',
    o_streamFn options sp ms key a x = ((Resolved r, xs), x') → one_start (x_events r) = true
}.

#[export] Instance loop_env {E} (options : @AgentOptions E) `{!ExtEnv options} model :
  Env (createLoopConfig options model).
Proof.
  constructor; cbn.
  - intros e w err w'. unfold processEvents. destruct (a_run _); [|by intros [= <- _]].
    generalize (on_agent (set_state (reduce e)) w). 
    assert (Hin : ∀ l, l ∈ o_listeners options → l ∈ o_listeners options) by done.
    revert Hin. generalize (o_listeners options) at 1 3. intros ls.
    induction ls as [|l ls IH]; intros Hin w0; cbn; [done|]. unfold perform.
    destruct (l e (w_agent w0) (w_ext w0)) as [[[[]|x] xs] e'] eqn:E'.
    + apply IH. intros l' Hl'. apply Hin. by right.
    + intros [= -> _]. eapply ext_listener; [apply Hin; by left|exact E'].
  - intros sp ms key w r w'. unfold perform.
    destruct (o_streamFn options sp ms key (w_agent w) (w_ext w)) as [[[x| |] xs] e'] eqn:E'; cbn; [|done..].
    intros [= <- _]. cbn. by eapply ext_stream.
Qed.

(** ** What a client sees during a run *)

(** The calls running in a protocol state. *)
Definition running (q : pstate) : list jsstr := match q with PTurn ids => ids | _ => [] end.

(** The agent's state shows the protocol state [q]. *)
Definition view (q : pstate) (s : AgentState) : Prop :=
  NoDup (running q) ∧ as_pendingToolCalls s = list_to_set (running q) ∧
  match q with
  | PMessage r => role <$> as_streamingMessage s = Some r
  | _ => as_streamingMessage s = None
  end.

(** No call is started under the id of a running one. *)
Definition fresh_start (q : pstate) (e : AgentEvent) : Prop :=
  match e with ToolExecutionStart id _ _ => id ∉ running q | _ => True end.

Lemma remove1_set x l : NoDup l → NoDup (remove1 x l) ∧
  (list_to_set (remove1 x l) : gset jsstr) = list_to_set l ∖ {[x]}.
Proof.
  induction 1 as [|y l Hy Hl [IHn IHs]]; cbn; [split; [constructor|set_solver]|].
  destruct (decide (x = y)) as [->|Hne].
  - split; [done|]. assert (Hy' : y ∉ (list_to_set l : gset jsstr)) by by rewrite elem_of_list_to_set.
    apply set_eq. intros z. destruct (decide (z = y)) as [->|]; set_solver.
  - split.
    + constructor; [|done]. intros Hin. apply Hy.
      assert (y ∈ (list_to_set (remove1 x l) : gset jsstr)) as Hset by by apply elem_of_list_to_set.
      rewrite IHs in Hset. apply elem_of_difference in Hset as [Hset _]. by apply elem_of_list_to_set in Hset.
    + cbn. rewrite IHs. set_solver.
Qed.

Lemma reduce_view q q' e s : proto_step q e = Some q' → fresh_start q e → view q s → view q' (reduce e s).
Proof.
  intros Hstep Hfresh (Hn&Hp&Hs). destruct s as [sp mo ms st sm pc em]. cbn in *.
  destruct q as [| |ids|rl|], e; cbn in *; try done;
    repeat match goal with
      | H : (match ?x with _ => _ end) = Some _ |- _ => destruct x; try done
      end; simplify_eq/=; unfold view, running; cbn;
    try (split_and!; [done|done|by eauto]).
  all: try by (destruct (truthy _)).
  all: try by (split_and!; [by constructor|set_solver|done]).
  destruct (remove1_set toolCallId (l :: ids) Hn) as [Hn' Hs']. by split_and!.
Qed.

(** The state after each prefix of a legal trace shows the state of the
    protocol there. *)
Definition fresh_trace (tr : list AgentEvent) : Prop :=
  ∀ tr1 e tr2 q, tr = tr1 ++ e :: tr2 → proto tr1 = Some q → fresh_start q e.

Lemma reduce_all_view tr : ∀ q s, proto tr = Some q → fresh_trace tr → view PIdle s → view q (reduce_all tr s).
Proof.
  induction tr as [|e tr IH] using rev_ind; intros q s Hq Hf Hs; [by injection Hq as <-|].
  rewrite proto_snoc in Hq. destruct (proto tr) as [q0|] eqn:E; [|done]. cbn in Hq.
  rewrite reduce_all_snoc. eapply reduce_view; [exact Hq|by eapply (Hf tr e [])|].
  apply IH; [done| |done]. intros tr1 e' tr2 q' -> Hq'. eapply (Hf tr1 e' (tr2 ++ [e])); [|done].
  by rewrite <-app_assoc.
Qed.

(** ** Queues *)

(** The messages of [n] polls of a queue. *)
Fixpoint drains (n : nat) (q : PendingMessageQueue) : list AgentMessage :=
  match n with
  | O => []
  | S n => let '(ms, q) := drain q in ms ++ drains n q
  end.

(** No empty batch is ever queued. *)
Definition queue_ok (q : PendingMessageQueue) : Prop := Forall (λ b, b ≠ []) (q_batches q).

Lemma enqueue_ok b q : queue_ok q → queue_ok (enqueue b q).
Proof. intros Hq. destruct b; [done|]. apply Forall_app. by split; [|constructor]. Qed.

Lemma drain_ok q : queue_ok q → queue_ok (drain q).2 ∧ ((drain q).1 = [] ↔ hasItems q = false).
Proof.
  intros Hq. destruct q as [[] [|[|m b] bs]]; unfold queue_ok in *; cbn in *; split; try done; try by inversion Hq.
Qed.

Lemma drains_nil n m : drains n (MkQueue m []) = [].
Proof. induction n; [done|]. by destruct m. Qed.

Lemma drains_all n q : (length (q_batches q) <= n)%nat → drains (S n) q = concat (q_batches q).
Proof.
  destruct q as [[] bs]; cbn [drains drain q_mode q_batches].
  - intros _. by rewrite drains_nil, app_nil_r.
  - revert bs. induction n as [|n IH]; intros [|b bs] Hn; cbn in *; try done; try lia.
    + by rewrite drains_nil.
    + f_equal. rewrite <-(IH bs) by lia. done.
Qed.
