(* ===== verification/AgentProps.v ===== *)
(** * Properties of the agent

    The theorems about [Agent], with the concrete agent of their witnesses. *)

From stdpp Require Import gmap.
From S2P Require Import Prelude.
From S2P Require Import Json.
From S2P Require Import Messages.
From S2P Require Import Eff.
From S2P Require Import AgentLoop.
From S2P Require Import AgentLoopSpec.
From S2P Require Import AgentLoopProps.
From S2P Require Import Agent.
From S2P Require Import AgentSpec.

(** ** A concrete agent

    The external state counts the requests; the first one asks for tools, and
    a listener steers the agent once. *)

Definition ext_tick {A} (a : A) : Ext (E:=nat) (outcome A) := λ _ x, ((Resolved a, []), S x).

Definition demo_steer : AgentMessage := MUser (MkUserMessage (CText (js "also")) 1).

Definition demo_ext_tool : ExtTool (E:=nat) :=
  MkExtTool (js "read") false None (λ a, Ok a)
    (λ id _ _ x, (([MkToolResult [TextBlock (js "...")] None None],
                   Resolved (MkToolResult [TextBlock id] None None), []), x)).

Definition demo_options : AgentOptions (E:=nat) :=
  MkAgentOptions [demo_ext_tool] None None
    (λ _ ms _ _ x,
      ((Resolved (MkExtResponse (r_events (demo_response demo_text))
         (ext_tick (if (x =? 0)%nat then demo_calls else demo_text))), []), S x))
    (λ _ x, ((Resolved tt, []), x)) None None None None None None false
    [λ e a x, ((Ok tt, match e with ToolExecutionUpdate _ _ _ _ => [ASteer [demo_steer]] | _ => [] end), x)]
    Z.of_nat (λ x, x).

#[export] Instance demo_ext : ExtEnv demo_options.
Proof.
  constructor.
  - intros l e a x err xs x' Hl%list_elem_of_singleton. subst l. intros [=].
  - intros sp ms key a x r xs x' [= <- _ _]. reflexivity.
Qed.

Definition demo_agent : Agent :=
  MkAgent (createMutableAgentState None None None) (MkQueue QOneAtATime []) (MkQueue QOneAtATime []) None.
Definition demo_world : World (E:=nat) := MkWorld demo_agent false 0%nat.

(** ** Runs *)

(** A prompt to an idle agent leaves it idle again, whatever its providers,
    tools, hooks and listeners do, and extends its transcript by exactly the
    messages whose end the run announced: when the loop returns these are the
    messages it returns, starting with the prompts; when it throws they are
    followed by one assistant message that carries the error. *)
Theorem prompt_extends_transcript {E} (options : AgentOptions (E:=E)) `{!ExtEnv options} fuel messages skip w :
  a_run (w_agent w) = None →
  ∃ s r w',
    runAgentLoop (createLoopConfig options (as_model (a_state (w_agent w)))) fuel messages
      (loop_state (run_state w skip)) = (s, r) ∧
    runPromptMessages options fuel messages skip w = (w', Ok tt) ∧ idle w' ∧
    match r with
    | Ok ms => transcript w' = transcript w ++ ms ∧ message_ends (st_trace s) = ms ∧ messages `prefix_of` ms
    | Throw e => ∃ m, transcript w' = transcript w ++ message_ends (st_trace s) ++ [MAssistant m] ∧
        am_errorMessage m = Some (err_message e) ∧ (am_stopReason m = SrError ∨ am_stopReason m = SrAborted)
    end.
Proof.
  intros Hidle. destruct (runAgentLoop _ _ _ _) as [s r] eqn:Hrun. exists s, r.
  destruct (runPromptMessages_spec options fuel messages skip w s r Hidle Hrun) as (w'&Hw&Hi&Ht).
  exists w'. split_and!; [done|done|done|]. destruct r as [ms|e].
  - unfold loop_state in Hrun.
    pose proof (runAgentLoop_spec (createLoopConfig options (as_model (a_state (w_agent w))))
      (as_messages (a_state (w_agent (run_state w skip)))) fuel messages (run_state w skip)) as Hspec.
    pose proof (runAgentLoop_keeps_prompts (createLoopConfig options (as_model (a_state (w_agent w))))
      (as_messages (a_state (w_agent (run_state w skip)))) fuel messages (run_state w skip)) as Hpre.
    rewrite Hrun in Hspec, Hpre. destruct Hspec as [[(_&He&_) _] ->]. rewrite app_nil_r in He, Ht.
    split_and!; [by rewrite Ht, He|done|done].
  - eexists. split; [exact Ht|]. split; [done|]. unfold failureMessage. cbn. destruct (default _ _); auto.
Qed.

Definition demo_prompted : World (E:=nat) :=
  Eval vm_compute in (runPromptMessages demo_options 9 [demo_prompt] false demo_world).1.
Lemma demo_prompted_eq : runPromptMessages demo_options 9 [demo_prompt] false demo_world = (demo_prompted, Ok tt).
Proof. vm_compute. reflexivity. Qed.

Lemma prompt_extends_transcript_witness : length (transcript demo_prompted) = 9%nat ∧ idle demo_prompted.
Proof.
  split; [reflexivity|].
  destruct (prompt_extends_transcript demo_options 9 [demo_prompt] false demo_world eq_refl)
    as (s&r&w'&_&Hw&Hi&_).
  rewrite demo_prompted_eq in Hw. injection Hw as <-. exact Hi.
Defined.

(** C35: Throughout a run the state a client reads agrees with the events it has
    seen: after every prefix of the run's events the reduced state has a
    streaming message exactly while a message is open, of the role that was
    announced, and its pending tool calls are exactly the calls running then,
    provided no call starts under the id of a running one; and the state at the
    end of the run is that reduction up to the system prompt. *)
Theorem state_follows_trace {E} (options : AgentOptions (E:=E)) `{!ExtEnv options} fuel messages skip w s r :
  view PIdle (a_state (w_agent (startRun w))) →
  runAgentLoop (createLoopConfig options (as_model (a_state (w_agent w)))) fuel messages
    (loop_state (run_state w skip)) = (s, r) →
  (∃ p, a_state (w_agent (st_world s)) = set_prompt p (reduce_all (st_trace s) (a_state (w_agent (startRun w))))) ∧
  (fresh_trace (st_trace s) → ∀ tr, tr `prefix_of` st_trace s →
    ∃ q, proto tr = Some q ∧ view q (reduce_all tr (a_state (w_agent (startRun w))))).
Proof.
  intros Hv Hrun. pose proof (run_prompt_follows options fuel messages skip w) as Hf.
  pose proof (runAgentLoop_spec (createLoopConfig options (as_model (a_state (w_agent w))))
    (as_messages (a_state (w_agent (run_state w skip)))) fuel messages (run_state w skip)) as Hspec.
  unfold loop_state in *. rewrite Hrun in Hf, Hspec. split; [by destruct Hf|].
  intros Hfresh tr [rest Htr].
  assert (Hq : ∃ q, proto (tr ++ rest) = Some q).
  { rewrite <-Htr. destruct r; [|done]. destruct Hspec as [Hend _]. by eapply Ended_Safe. }
  assert (∃ q, proto tr = Some q) as [q Hp].
  { destruct Hq as [q Hq]. rewrite Htr in Hfresh. clear -Hq. revert q Hq. induction rest as [|e rest IH] using rev_ind; intros q.
    - rewrite app_nil_r. eauto.
    - rewrite app_assoc, proto_snoc. destruct (proto (tr ++ rest)) eqn:E'; [|done]. intros _. by eapply IH. }
  exists q. split; [done|]. apply reduce_all_view; [done| |done].
  intros tr1 e tr2 q' -> Hq'. eapply (Hfresh tr1 e (tr2 ++ rest)); [|done]. by rewrite Htr, <-app_assoc.
Qed.

(** A decision procedure for [fresh_trace] on a concrete trace. *)
Fixpoint fresh_from (q : pstate) (tr : list AgentEvent) : bool :=
  match tr with
  | [] => true
  | e :: tr =>
      match e with ToolExecutionStart id _ _ => bool_decide (id ∉ running q) | _ => true end &&
      match proto_step q e with Some q' => fresh_from q' tr | None => true end
  end.

Lemma proto_stuck tr1 tr2 : proto tr1 = None → proto (tr1 ++ tr2) = None.
Proof.
  intros H. induction tr2 as [|e tr2 IH] using rev_ind; [by rewrite app_nil_r|].
  by rewrite app_assoc, proto_snoc, IH.
Qed.

Lemma fresh_from_ok tr : ∀ pre q, proto pre = Some q → fresh_from q tr = true →
  ∀ tr1 e tr2 q', tr = tr1 ++ e :: tr2 → proto (pre ++ tr1) = Some q' → fresh_start q' e.
Proof.
  induction tr as [|x tr IH]; intros pre q Hq Hf tr1 e tr2 q' Htr Hq'; [by destruct tr1|].
  cbn in Hf. apply andb_true_iff in Hf as [Hx Hf]. destruct tr1 as [|y tr1]; injection Htr as -> Htr.
  - rewrite app_nil_r, Hq in Hq'. injection Hq' as <-. destruct e; try done. by apply bool_decide_eq_true in Hx.
  - assert (Hsnoc : proto (pre ++ [y]) = proto_step q y) by (by rewrite proto_snoc, Hq).
    destruct (proto_step q y) as [q1|] eqn:Ey.
    + eapply (IH (pre ++ [y]) q1 Hsnoc Hf tr1 e tr2); [done|]. by rewrite <-app_assoc.
    + replace (pre ++ y :: tr1) with ((pre ++ [y]) ++ tr1) in Hq' by by rewrite <-app_assoc.
      by rewrite proto_stuck in Hq'.
Qed.

Definition demo_agent_run : St (World (E:=nat)) * result lerr (list AgentMessage) :=
  Eval vm_compute in runAgentLoop (createLoopConfig demo_options (as_model (a_state demo_agent))) 9 [demo_prompt]
    (loop_state (run_state demo_world false)).
Lemma demo_agent_run_eq : runAgentLoop (createLoopConfig demo_options (as_model (a_state demo_agent))) 9 [demo_prompt]
    (loop_state (run_state demo_world false)) = demo_agent_run.
Proof. vm_compute. reflexivity. Qed.

Lemma state_follows_trace_witness :
  fresh_trace (st_trace demo_agent_run.1) ∧ ∀ tr, tr `prefix_of` st_trace demo_agent_run.1 →
    ∃ q, proto tr = Some q ∧ view q (reduce_all tr (a_state (w_agent (startRun demo_world)))).
Proof.
  assert (Hf : fresh_trace (st_trace demo_agent_run.1)).
  { intros tr1 e tr2 q H1 H2. eapply (fresh_from_ok (st_trace demo_agent_run.1) [] PIdle eq_refl); [|exact H1|exact H2].
    vm_compute. reflexivity. }
  split; [exact Hf|].
  destruct (state_follows_trace demo_options 9 [demo_prompt] false demo_world demo_agent_run.1 demo_agent_run.2) as [_ H].
  - split; [constructor|]. split; reflexivity.
  - etransitivity; [exact demo_agent_run_eq|]. reflexivity.
  - exact (H Hf).
Defined.

(** ** Queues *)

Lemma enqueue_all mode bs : ∀ pre,
  foldl (λ q b, enqueue b q) (MkQueue mode pre) bs = MkQueue mode (pre ++ filter (λ b, b ≠ []) bs).
Proof.
  induction bs as [|b bs IH]; intros pre; cbn; [by rewrite app_nil_r|]. destruct b; cbn; [apply IH|].
  unfold enqueue. cbn. rewrite IH, <-app_assoc. done.
Qed.

Lemma concat_filter_nonempty {A} (bs : list (list A)) : concat (filter (λ b, b ≠ []) bs) = concat bs.
Proof.
  induction bs as [|b bs IH]; [done|]. rewrite filter_cons. destruct (decide (b ≠ [])) as [|Hb]; cbn.
  - by rewrite IH.
  - destruct b; [done|]. by destruct Hb.
Qed.

(** Messages leave a queue in the order they entered it, in either mode,
    none lost and none twice, whatever the number of further polls; in
    one-at-a-time mode a poll yields exactly the oldest batch, and in the other
    mode everything. *)
Theorem queue_fifo mode bs n : (length bs <= n)%nat →
  let q := foldl (λ q b, enqueue b q) (MkQueue mode []) bs in
  drains (S n) q = concat bs ∧ hasItems q = negb (bool_decide (concat bs = [])) ∧
  (drain q).1 = match mode with QAll => concat bs | QOneAtATime => default [] (head (filter (λ b, b ≠ []) bs)) end.
Proof.
  intros Hn q. subst q. rewrite enqueue_all. cbn [app]. split_and!.
  - rewrite drains_all; cbn; [apply concat_filter_nonempty|]. etrans; [apply length_filter|done].
  - rewrite <-(concat_filter_nonempty bs). unfold hasItems. cbn.
    assert (Hall : Forall (λ b, b ≠ []) (filter (λ b, b ≠ []) bs)).
    { apply Forall_forall. by intros b [? _]%list_elem_of_filter. }
    destruct Hall as [|b rest Hb _]; [done|]. by destruct b.
  - destruct mode; cbn; [apply concat_filter_nonempty|]. by destruct (filter _ bs).
Qed.

Lemma queue_fifo_witness :
  drains 3 (foldl (λ q b, enqueue b q) (MkQueue QOneAtATime []) [[demo_prompt]; [demo_steer; demo_prompt]])
    = [demo_prompt; demo_steer; demo_prompt].
Proof.
  destruct (queue_fifo QOneAtATime [[demo_prompt]; [demo_steer; demo_prompt]] 2) as [H _]; [cbn; lia|]. exact H.
Defined.

(** ** Continuing *)

Lemma runWithLifecycle_idle {E} (options : AgentOptions (E:=E)) executor w :
  a_run (w_agent w) = None →
  ∃ w', runWithLifecycle options executor w = (w', Ok tt) ∧ idle w'.
Proof.
  intros Hidle. unfold runWithLifecycle. rewrite Hidle. destruct (executor (startRun w)) as [w1 r].
  eexists. split; [reflexivity|]. apply finishRun_idle.
Qed.

Definition queues_ok {E} (w : World (E:=E)) : Prop :=
  queue_ok (a_steering (w_agent w)) ∧ queue_ok (a_followUp (w_agent w)).

(** Queued messages are run if there are any. *)
Lemma runQueuedMessages_spec {E} (options : AgentOptions (E:=E)) fuel w :
  a_run (w_agent w) = None → queues_ok w →
  ∃ w' o, runQueuedMessages options fuel w = (w', Ok o) ∧
    if hasQueuedMessages (w_agent w) then o = Some tt ∧ idle w'
    else o = None ∧ a_state (w_agent w') = a_state (w_agent w) ∧ a_run (w_agent w') = None.
Proof.
  intros Hidle [Hs Hf]. unfold runQueuedMessages, hasQueuedMessages.
  destruct (drain_ok _ Hs) as [_ Hs']. destruct (drain (a_steering (w_agent w))) as [ms q] eqn:E1.
  cbn in Hs'. destruct ms as [|m ms].
  - rewrite (proj1 Hs') by done. cbn [orb on_agent w_agent].
    destruct (drain_ok _ Hf) as [_ Hf']. change (a_followUp (set_steering q (w_agent w))) with (a_followUp (w_agent w)).
    destruct (drain (a_followUp (w_agent w))) as [ms2 q2] eqn:E2. cbn in Hf'. destruct ms2 as [|m2 ms2].
    + rewrite (proj1 Hf') by done. eexists _, _. by split.
    + destruct (hasItems (a_followUp (w_agent w))); [|by destruct Hf' as [_ Hf']; specialize (Hf' eq_refl)].
      unfold fmap, eff_fmap, runPromptMessages.
      match goal with |- context [runWithLifecycle options ?x ?w0] =>
        destruct (runWithLifecycle_idle options x w0 Hidle) as (w'&->&Hi) end. eauto.
  - destruct (hasItems (a_steering (w_agent w))); [|by destruct Hs' as [_ Hs']; specialize (Hs' eq_refl)].
    unfold fmap, eff_fmap, runPromptMessages.
    match goal with |- context [runWithLifecycle options ?x ?w0] =>
      destruct (runWithLifecycle_idle options x w0 Hidle) as (w'&->&Hi) end. cbn. eauto.
Qed.

(** [continue] refuses a busy agent, changing nothing.  An idle agent
    always runs, and is idle again afterwards, except when nothing is queued
    and the transcript is empty or ends with an assistant message: then it
    refuses with the error for that case and keeps its state. *)
Theorem continue_spec {E} (options : AgentOptions (E:=E)) fuel w : queues_ok w →
  ∃ w' r, continue options fuel w = (w', r) ∧
  match a_run (w_agent w) with
  | Some _ => w' = w ∧ r = Throw busy
  | None =>
      if hasQueuedMessages (w_agent w) then
        idle w' ∧ r = Ok tt
      else
        match last (transcript w) with
        | None => a_state (w_agent w') = a_state (w_agent w) ∧ r = Throw no_last
        | Some (MAssistant _) => a_state (w_agent w') = a_state (w_agent w) ∧ r = Throw last_is_assistant
        | Some _ => idle w' ∧ r = Ok tt
        end
  end.
Proof.
  intros Hq. unfold continue. destruct (a_run (w_agent w)) as [b|] eqn:Hidle; [by eexists _, _|].
  assert (Hrun : ∀ w0, a_run (w_agent w0) = None → ∃ w', runContinuation options fuel w0 = (w', Ok tt) ∧ idle w').
  { intros w0 H0. by apply runWithLifecycle_idle. }
  destruct (runQueuedMessages_spec options fuel w Hidle Hq) as (w1&o&Hw1&Ho).
  fold (transcript w). destruct (hasQueuedMessages (w_agent w)) eqn:Hh.
  - destruct Ho as [-> Hi]. destruct (Hrun w Hidle) as (w2&Hw2&Hi2).
    destruct (last (transcript w)) as [[]|]; unfold mbind, eff_bind; rewrite ?Hw1, ?Hw2; eauto 6.
  - destruct Ho as (->&Hs1&Hr1). destruct (Hrun w Hidle) as (w2&Hw2&Hi2). destruct (Hrun w1 Hr1) as (w3&Hw3&Hi3).
    destruct (last (transcript w)) as [[]|]; unfold mbind, eff_bind; rewrite ?Hw1, ?Hw2, ?Hw3; eauto 6.
Qed.

Lemma continue_spec_witness :
  ∃ w' r, continue demo_options 9 demo_prompted = (w', r) ∧ r = Throw last_is_assistant.
Proof.
  destruct (continue_spec demo_options 9 demo_prompted) as (w'&r&Hc&H); [split; constructor|].
  exists w', r. split; [exact Hc|]. exact (proj2 H).
Defined.
