(* ===== verification/CronSchedule.v ===== *)
(** * Schedules of scheduled jobs

    Models the schedule part of [packages/coding-agent/src/core/cron-jobs.ts]:
    five-field cron expressions, intervals and one-shot times, and the search
    for the next run.  Times are milliseconds since the epoch; the zone is a
    pair of offsets, as ECMA-262 gives them to [LocalTime] and [UTC], and the
    text of a date is read by the platform. *)

From S2P Require Import Prelude.
From S2P Require Import JsString.

(** ** Dates of the language library *)

Definition msPerMinute : Z := 60000.
Definition msPerDay : Z := 86400000.

Class Clock := {
  (** [LocalTZA(t, true)] and [LocalTZA(t, false)]. *)
  tza_utc : Z → Z;
  tza_local : Z → Z;
  (** [new Date(text).getTime()]; [None] is [NaN]. *)
  parse_date : jsstr → option Z
}.

Definition MinFromTime (t : Z) : Z := (t / 60000) mod 60.
Definition HourFromTime (t : Z) : Z := (t / 3600000) mod 24.
Definition Day (t : Z) : Z := t / msPerDay.
Definition WeekDay (t : Z) : Z := (Day t + 4) mod 7.

(** Year, month (from 1) and day of the month of a day since the epoch; years
    are counted from March, in eras of 400 years. *)
Definition civil (day : Z) : Z * Z * Z :=
  let z := day + 719468 in
  let era := z / 146097 in
  let doe := z mod 146097 in
  let yoe := (doe - doe / 1460 + doe / 36524 - doe / 146096) / 365 in
  let doy := doe - (365 * yoe + yoe / 4 - yoe / 100) in
  let mp := (5 * doy + 2) / 153 in
  let d := doy - (153 * mp + 2) / 5 + 1 in
  let m := if mp <? 10 then mp + 3 else mp - 9 in
  ((if m <=? 2 then 1 else 0) + yoe + era * 400, m, d).

Section local.
Context `{Clock}.

Definition LocalTime (t : Z) : Z := t + tza_utc t.
Definition UTC (t : Z) : Z := t - tza_local t.

Definition getMinutes (date : Z) : Z := MinFromTime (LocalTime date).
Definition getHours (date : Z) : Z := HourFromTime (LocalTime date).
Definition getDay (date : Z) : Z := WeekDay (LocalTime date).
Definition getDate (date : Z) : Z := (civil (Day (LocalTime date))).2.
(** [getMonth() + 1] *)
Definition getMonth1 (date : Z) : Z := (civil (Day (LocalTime date))).1.2.

(** [setSeconds(0, 0)] and [setMinutes(getMinutes() + 1)] rebuild the local time
    and convert it back. *)
Definition clearSeconds (date : Z) : Z := UTC (LocalTime date - LocalTime date mod msPerMinute).
Definition addMinute (date : Z) : Z := UTC (LocalTime date + msPerMinute).
End local.

(** ** Text *)

(** [s] after a prefix that is a word up to case; regular expressions with the
    flag [i] and [toLowerCase] agree on these ASCII words. *)
Fixpoint after_word (w s : jsstr) : option jsstr :=
  match w, s with
  | [], s => Some s
  | c :: w, d :: s => if c =? lower d then after_word w s else None
  | _ :: _, [] => None
  end.

Fixpoint span_digits (s : jsstr) : jsstr * jsstr :=
  match s with
  | c :: s' => if is_digit c then let '(d, r) := span_digits s' in (c :: d, r) else ([], s)
  | [] => ([], [])
  end.

Definition QUOTE : Z := 34.

Definition stripMatchingQuotes (value : jsstr) : jsstr :=
  match value with
  | c :: ((_ :: _) as rest) =>
      if (bool_decide (last rest = Some c)) && ((c =? QUOTE) || (c =? 39)) then removelast rest else value
  | _ => value
  end.

(** ** Schedules *)

Inductive AgentCronScheduleKind := Once | Cron | Interval.
#[export] Instance AgentCronScheduleKind_eq_dec : EqDecision AgentCronScheduleKind.
Proof. solve_decision. Defined.

Record AgentCronSchedule := MkSchedule {
  sc_kind : AgentCronScheduleKind;
  sc_expression : jsstr;
  sc_intervalMs : option Z
}.
#[export] Instance AgentCronSchedule_eq_dec : EqDecision AgentCronSchedule.
Proof. solve_decision. Defined.

Record CronFields := MkFields {
  f_minute : gset Z;
  f_hour : gset Z;
  f_dayOfMonth : gset Z;
  f_month : gset Z;
  f_dayOfWeek : gset Z
}.

Definition parseCronNumber (value : option jsstr) (min max : Z) : result jsstr Z :=
  match value with
  | Some ((_ :: _) as value) =>
      if negb (forallb is_digit value) then Throw (js "Invalid cron number: " ++ value) else
      let parsed := digits_value value in
      if (parsed <? min) || (max <? parsed) then Throw (js "Cron number out of range: " ++ value) else Ok parsed
  | _ => Throw (js "Invalid cron number: ")
  end.

(** The start, the end and the step of a part of a field. *)
Definition parse_part (part : jsstr) (min max : Z) : result jsstr (Z * Z * Z) :=
  let pieces := js_split 47 part in
  let rangeText := default [] (pieces !! 0%nat) in
  step ← match pieces !! 1%nat with None => Ok 1 | stepText => parseCronNumber stepText 1 max end;
  if bool_decide (rangeText = js "*") then Ok (min, max, step) else
  if bool_decide (45 ∈ rangeText) then
    let ends := js_split 45 rangeText in
    start ← parseCronNumber (ends !! 0%nat) min max;
    end_ ← parseCronNumber (ends !! 1%nat) min max;
    if end_ <? start then Throw (js "Invalid cron range: " ++ rangeText) else Ok (start, end_, step)
  else
    start ← parseCronNumber (Some rangeText) min max;
    Ok (start, start, step).

(** [for (let value = start; value <= end; value += step) values.add(value)] *)
Fixpoint add_range (fuel : nat) (value end_ step : Z) (values : gset Z) : gset Z :=
  match fuel with
  | O => values
  | S fuel =>
      if value <=? end_ then add_range fuel (value + step) end_ step (values ∪ {[value]}) else values
  end.

Fixpoint parse_parts (field : jsstr) (min max : Z) (parts : list jsstr) (values : gset Z) : result jsstr (gset Z) :=
  match parts with
  | [] => Ok values
  | part :: parts =>
      if bool_decide (part = []) then Throw (js "Invalid cron field: " ++ field) else
      r ← parse_part part min max;
      let '(start, end_, step) := r in
      parse_parts field min max parts (add_range (Z.to_nat (end_ - start + 1)) start end_ step values)
  end.

Definition parseCronField (field : jsstr) (min max : Z) : result jsstr (gset Z) :=
  parse_parts field min max (js_split 44 field) ∅.

Definition unsupported : jsstr :=
  js "Unsupported cron schedule. Use 'in 10m', 'at <ISO date>', @hourly, or five fields: minute hour day month weekday".

Definition parseCronExpression (expression : jsstr) : result jsstr CronFields :=
  match split_ws false (trim expression) with
  | [p0; p1; p2; p3; p4] =>
      minute ← parseCronField p0 0 59;
      hour ← parseCronField p1 0 23;
      dayOfMonth ← parseCronField p2 1 31;
      month ← parseCronField p3 1 12;
      dayOfWeek ← parseCronField p4 0 7;
      Ok (MkFields minute hour dayOfMonth month dayOfWeek)
  | _ => Throw unsupported
  end.

Definition normalizeCronAlias (text : jsstr) : jsstr :=
  if bool_decide (text = js "@hourly") then js "0 * * * *" else
  if bool_decide (text = js "@daily") then js "0 0 * * *" else
  if bool_decide (text = js "@weekly") then js "0 0 * * 0" else
  if bool_decide (text = js "@monthly") then js "0 0 1 * *" else text.

Definition ONE_SECOND_MS : Z := 1000.
Definition ONE_MINUTE_MS : Z := 60000.

Section schedule.
Context `{Clock}.

Definition matchesCronFields (date : Z) (fields : CronFields) : bool :=
  let day := getDay date in
  let dayMatches := bool_decide (day ∈ f_dayOfWeek fields) ||
    ((day =? 0) && bool_decide (7 ∈ f_dayOfWeek fields)) in
  bool_decide (getMinutes date ∈ f_minute fields) && bool_decide (getHours date ∈ f_hour fields) &&
  bool_decide (getDate date ∈ f_dayOfMonth fields) && bool_decide (getMonth1 date ∈ f_month fields) && dayMatches.

(** The search; [None] when the fuel is spent. *)
Fixpoint cron_search (fuel : nat) (fields : CronFields) (deadline candidate : Z) : option (option Z) :=
  match fuel with
  | O => None
  | S fuel =>
      if deadline <? candidate then Some None else
      if matchesCronFields candidate fields then Some (Some candidate)
      else cron_search fuel fields deadline (addMinute candidate)
  end.

(** A step is at least a minute, so the minutes of 366 days and one more round
    are enough. *)
Definition search_minutes : Z := 366 * 24 * 60.
Definition search_fuel : nat := Z.to_nat (search_minutes + 2).

Definition noMatchError (expression : jsstr) : jsstr :=
  js "Cron schedule did not match within one year: " ++ expression.

Definition nextCronRunAfter (expression : jsstr) (after : Z) : result jsstr Z :=
  fields ← parseCronExpression expression;
  let candidate := addMinute (clearSeconds after) in
  let deadline := candidate + search_minutes * ONE_MINUTE_MS in
  match cron_search search_fuel fields deadline candidate with
  | Some (Some date) => Ok date
  | _ => Throw (noMatchError expression)
  end.

Definition nextRunAtForSchedule (schedule : AgentCronSchedule) (after : Z) : result jsstr (option Z) :=
  match sc_kind schedule with
  | Once => Ok None
  | Interval =>
      match sc_intervalMs schedule with
      | Some ms => if ms <=? 0 then Throw (js "Invalid interval schedule: " ++ sc_expression schedule)
                   else Ok (Some (after + ms))
      | None => Throw (js "Invalid interval schedule: " ++ sc_expression schedule)
      end
  | Cron => Some <$> nextCronRunAfter (sc_expression schedule) after
  end.

End schedule.

(** The text after the first of the words it starts with. *)
Fixpoint after_one_of (ws : list jsstr) (s : jsstr) : option jsstr :=
  match ws with
  | [] => None
  | w :: ws => match after_word w s with Some r => Some r | None => after_one_of ws s end
  end.

(** [^(?:<prefixes>)\s+(\d+)\s*(<units>)$]: the amount and the unit in lower case. *)
Definition match_amount (prefixes units : list jsstr) (text : jsstr) : option (Z * jsstr) :=
  rest ← after_one_of prefixes text;
  match rest with
  | c :: _ =>
      if js_space c then
        let '(amount, rest) := span_digits (trim_start rest) in
        let unit := lower <$> trim_start rest in
        if bool_decide (amount ≠ []) && bool_decide (unit ∈ units)
        then Some (digits_value amount, unit) else None
      else None
  | [] => None
  end.

Definition second_units : list jsstr := js <$> ["s"; "sec"; "secs"; "second"; "seconds"]%string.
Definition minute_units : list jsstr := js <$> ["m"; "min"; "mins"; "minute"; "minutes"]%string.
Definition hour_units : list jsstr := js <$> ["h"; "hr"; "hrs"; "hour"; "hours"]%string.
Definition day_units : list jsstr := js <$> ["d"; "day"; "days"]%string.

Definition starts_with (c : Z) (s : jsstr) : bool := bool_decide (head s = Some c).

Section parse.
Context `{Clock}.

Definition parseAgentCronSchedule (input : jsstr) (now : Z) : result jsstr (AgentCronSchedule * Z) :=
  let text := stripMatchingQuotes (trim input) in
  if bool_decide (text = []) then Throw (js "Cron schedule cannot be empty") else
  match match_amount [js "in"] (minute_units ++ hour_units ++ day_units) text with
  | Some (amount, unit) =>
      let multiplier :=
        if starts_with 109 unit then ONE_MINUTE_MS
        else if starts_with 104 unit then 60 * ONE_MINUTE_MS else 24 * 60 * ONE_MINUTE_MS in
      Ok (MkSchedule Once text None, now + amount * multiplier)
  | None =>
  match match_amount [js "every"; js "each"] (second_units ++ minute_units ++ hour_units) text with
  | Some (amount, unit) =>
      let multiplier :=
        if starts_with 115 unit then ONE_SECOND_MS
        else if starts_with 109 unit then ONE_MINUTE_MS else 60 * ONE_MINUTE_MS in
      let intervalMs := amount * multiplier in
      if intervalMs <? 10 * ONE_SECOND_MS then Throw (js "Recurring interval must be at least 10 seconds") else
      Ok (MkSchedule Interval text (Some intervalMs), now + intervalMs)
  | None =>
  match after_word (js "at ") text with
  | Some rest =>
      match parse_date (trim rest) with
      | None => Throw (js "Invalid one-shot schedule. Use: at <ISO date>")
      | Some when_ =>
          if when_ <=? now then Throw (js "One-shot schedule must be in the future")
          else Ok (MkSchedule Once text None, when_)
      end
  | None =>
      let expression := normalizeCronAlias text in
      nextRunAt ← nextCronRunAfter expression now;
      Ok (MkSchedule Cron expression None, nextRunAt)
  end
  end
  end.
End parse.

Definition DEFAULT_HEARTBEAT_SCHEDULE : jsstr := js "every 5m".

(** [^\d+\s*(<units>)$] *)
Definition is_amount (text : jsstr) : bool :=
  let '(amount, rest) := span_digits text in
  bool_decide (amount ≠ []) &&
  bool_decide ((lower <$> trim_start rest) ∈ second_units ++ minute_units ++ hour_units).

Definition normalizeHeartbeatSchedule (input : option jsstr) : jsstr :=
  match trim <$> input with
  | Some ((_ :: _) as text) => if is_amount text then js "every " ++ text else text
  | _ => DEFAULT_HEARTBEAT_SCHEDULE
  end.
