(* ===== verification/CronScheduleSpec.v ===== *)
(** * Theorems about schedules

    The calendar, the meaning of a cron field, and the search for the next run:
    complete in a zone with a fixed offset, and going backwards in the hour a
    zone repeats. *)

From S2P Require Import Prelude.
From S2P Require Import JsString.
From S2P Require Import CronSchedule.

(** ** The calendar *)

(** The day of the year, counted from March, of a day of an era. *)
Lemma day_of_year_bounds doe : 0 <= doe < 146097 →
  let yoe := (doe - doe / 1460 + doe / 36524 - doe / 146096) / 365 in
  0 <= doe - (365 * yoe + yoe / 4 - yoe / 100) <= 366.
Proof. intros H. cbv zeta. Z.to_euclidean_division_equations. lia. Qed.

Lemma civil_bounds day : 1 <= (civil day).1.2 <= 12 ∧ 1 <= (civil day).2 <= 31.
Proof.
  unfold civil. cbv zeta. cbn [fst snd].
  pose proof (day_of_year_bounds ((day + 719468) mod 146097) (Z.mod_pos_bound _ 146097 ltac:(lia))) as H.
  cbv zeta in H. set (doy := _ - _) in *. clearbody doy.
  split; [destruct (Z.ltb_spec ((5 * doy + 2) / 153) 10)|]; Z.to_euclidean_division_equations; lia.
Qed.

(** Around a leap day and a century that has none. *)
Lemma civil_samples :
  civil 0 = (1970, 1, 1) ∧ civil 19781 = (2024, 2, 28) ∧ civil 19782 = (2024, 2, 29) ∧ civil 19783 = (2024, 3, 1) ∧
  civil 47540 = (2100, 2, 28) ∧ civil 47541 = (2100, 3, 1) ∧ civil (-1) = (1969, 12, 31).
Proof. by vm_compute. Qed.

(** ** Fields *)

(** [v] is one of [start], [start + step], ... up to [end]. *)
Definition in_range (r : Z * Z * Z) (v : Z) : Prop :=
  let '(start, end_, step) := r in start <= v <= end_ ∧ (step | v - start).

Lemma add_range_spec fuel : ∀ start end_ step values, 1 <= step → end_ - start < Z.of_nat fuel →
  ∀ v, v ∈ add_range fuel start end_ step values ↔ v ∈ values ∨ in_range (start, end_, step) v.
Proof.
  induction fuel as [|fuel IH]; intros start end_ step values Hs Hf v; cbn [add_range].
  { split; [by left|]. intros [|[? _]]; [done|lia]. }
  destruct (Z.leb_spec start end_) as [Hle|Hgt]; [|split; [by left|]; intros [|[? _]]; [done|lia]].
  rewrite IH by lia. rewrite elem_of_union, elem_of_singleton. unfold in_range. split.
  - intros [[?| ->]|[? [k Hk]]]; [by left|right; split; [lia|]|right; split; [lia|]].
    + rewrite Z.sub_diag. apply Z.divide_0_r.
    + exists (k + 1). lia.
  - intros [?|[? [k Hk]]]; [by left; left|]. destruct (decide (v = start)) as [->|]; [by left; right|].
    right. split; [|exists (k - 1); lia]. assert (1 <= k) by nia. nia.
Qed.

Lemma parseCronNumber_bounds value min max n : parseCronNumber value min max = Ok n → min <= n <= max.
Proof.
  unfold parseCronNumber. destruct value as [[|c s]|]; [done| |done].
  destruct (negb _); [done|]. destruct (_ || _) eqn:E; [done|]. intros [= <-]. lia.
Qed.

Lemma parse_part_bounds part min max start end_ step : min <= max → 1 <= max →
  parse_part part min max = Ok (start, end_, step) → min <= start ∧ start <= end_ ∧ end_ <= max ∧ 1 <= step.
Proof.
  intros Hmm Hm1. unfold parse_part. cbv zeta. intros (st&Hst&H)%bind_Ok.
  assert (1 <= st) as Hst'.
  { destruct (js_split 47 part !! 1%nat); [apply parseCronNumber_bounds in Hst; lia|by injection Hst as <-]. }
  case_bool_decide; [injection H as <- <- <-; lia|]. case_bool_decide.
  - apply bind_Ok in H as (a&Ha%parseCronNumber_bounds&(b&Hb%parseCronNumber_bounds&H)%bind_Ok).
    destruct (Z.ltb_spec b a); [done|]. injection H as <- <- <-. lia.
  - apply bind_Ok in H as (a&Ha%parseCronNumber_bounds&H). injection H as <- <- <-. lia.
Qed.

(** A cron field that parses means the union of its parts: a value is in the
    set exactly when one of the comma-separated parts reads as a range with a
    step that contains it.  All values lie in the bounds of the field, and the
    set is not empty. *)
Theorem parseCronField_spec field min max values : 0 <= min <= max → 1 <= max →
  parseCronField field min max = Ok values →
  (∀ v, v ∈ values ↔ ∃ part r, part ∈ js_split 44 field ∧ parse_part part min max = Ok r ∧ in_range r v) ∧
  (∀ v, v ∈ values → min <= v <= max) ∧ values ≠ ∅.
Proof.
  intros Hmm Hm1. unfold parseCronField.
  assert (∀ parts acc, parse_parts field min max parts acc = Ok values →
    ∀ v, v ∈ values ↔ v ∈ acc ∨ ∃ part r, part ∈ parts ∧ parse_part part min max = Ok r ∧ in_range r v) as Hgen.
  { induction parts as [|p parts IH]; intros acc H v; cbn [parse_parts] in H.
    - injection H as <-. split; [by left|]. intros [|(?&?&[]%not_elem_of_nil&_)]; done.
    - case_bool_decide; [done|]. apply bind_Ok in H as ([[a b] st]&Hp&H).
      destruct (parse_part_bounds _ _ _ _ _ _ (proj2 Hmm) Hm1 Hp) as (?&?&?&?).
      rewrite (IH _ H), add_range_spec by lia. split.
      + intros [[?|?]|(q&r&?&?)]; [by left|right; exists p, (a, b, st)|right; exists q, r]; set_solver.
      + intros [?|(q&r&[-> |Hin]%elem_of_cons&Hq&?)]; [by left; left| |right; eauto].
        rewrite Hp in Hq. injection Hq as <-. by left; right. }
  intros H. assert (∀ v, v ∈ values ↔ ∃ part r, part ∈ js_split 44 field ∧ parse_part part min max = Ok r ∧ in_range r v) as Hv.
  { intros v. rewrite (Hgen _ _ H). set_solver. }
  split; [done|]. split.
  - intros v (p&[[a b] st]&_&Hp&Hr&_)%Hv. destruct (parse_part_bounds _ _ _ _ _ _ (proj2 Hmm) Hm1 Hp) as (?&?&?&?). lia.
  - pose proof (js_split_nonempty 44 field) as Hne. destruct (js_split 44 field) as [|p parts]; [done|].
    cbn [parse_parts] in H. case_bool_decide; [done|]. apply bind_Ok in H as ([[a b] st]&Hp&_).
    destruct (parse_part_bounds _ _ _ _ _ _ (proj2 Hmm) Hm1 Hp) as (?&?&?&?).
    intros ->. apply (not_elem_of_empty (C:=gset Z) a), Hv. exists p, (a, b, st). split; [by left|].
    split; [done|]. split; [lia|]. rewrite Z.sub_diag. apply Z.divide_0_r.
Qed.

(** ** The search *)

(** A zone with one offset, such as UTC. *)
Class FixedZone `{Clock} (offset : Z) := {
  fixed_utc t : tza_utc t = offset;
  fixed_local t : tza_local t = offset
}.

Section fixed.
Context `{FixedZone offset}.

(** A time whose local seconds and milliseconds are zero. *)
Definition on_minute (t : Z) : Prop := (t + offset) mod msPerMinute = 0.

Lemma addMinute_fixed c : addMinute c = c + msPerMinute.
Proof. unfold addMinute, UTC, LocalTime. rewrite fixed_utc, fixed_local. lia. Qed.

Lemma clearSeconds_fixed c : clearSeconds c = c - (c + offset) mod msPerMinute.
Proof. unfold clearSeconds, UTC, LocalTime. rewrite fixed_utc, fixed_local. lia. Qed.

Lemma cron_search_fixed fields deadline fuel : ∀ c, (0 < fuel)%nat →
  deadline - c < Z.of_nat fuel * msPerMinute - msPerMinute →
  (∃ t k, cron_search fuel fields deadline c = Some (Some t) ∧ 0 <= k ∧ t = c + k * msPerMinute ∧ t <= deadline ∧
     matchesCronFields t fields = true ∧
     ∀ j, 0 <= j < k → matchesCronFields (c + j * msPerMinute) fields = false) ∨
  (cron_search fuel fields deadline c = Some None ∧
     ∀ j, 0 <= j → c + j * msPerMinute <= deadline → matchesCronFields (c + j * msPerMinute) fields = false).
Proof.
  unfold msPerMinute. induction fuel as [|fuel IH]; intros c H0f Hf; [lia|]. cbn [cron_search].
  destruct (Z.ltb_spec deadline c) as [Hd|Hd]; [right; split; [done|lia]|].
  destruct (matchesCronFields c fields) eqn:Hm.
  { left. exists c, 0. split_and!; try done; lia. }
  rewrite addMinute_fixed. unfold msPerMinute.
  assert (∀ j, 0 <= j → (j = 0 → matchesCronFields (c + j * 60000) fields = false)) as Hz.
  { intros j _ ->. by rewrite Z.mul_0_l, Z.add_0_r. }
  destruct (IH (c + 60000)) as [(t&k&Ht&Hk&Et&?&?&Hno)|[Hn Hno]]; [lia|lia|left|right].
  - exists t, (k + 1). split_and!; try done; [lia..|]. intros j Hj. destruct (decide (j = 0)); [apply Hz; lia|].
    specialize (Hno (j - 1) ltac:(lia)). by replace (c + 60000 + (j - 1) * 60000) with (c + j * 60000) in Hno by lia.
  - split; [done|]. intros j Hj Hjd. destruct (decide (j = 0)); [apply Hz; lia|].
    specialize (Hno (j - 1) ltac:(lia) ltac:(lia)). by replace (c + 60000 + (j - 1) * 60000) with (c + j * 60000) in Hno by lia.
Qed.

(** In a zone with a fixed offset the next run of a cron expression is the
    least whole minute after the given time that matches all five fields; an
    error is thrown only when no minute of the following 366 days matches. *)
Theorem nextCronRunAfter_least expression fields after :
  parseCronExpression expression = Ok fields →
  match nextCronRunAfter expression after with
  | Ok t => after < t ∧ on_minute t ∧ matchesCronFields t fields = true ∧
      ∀ u, after < u < t → on_minute u → matchesCronFields u fields = false
  | Throw _ => ∀ u, after < u <= after + search_minutes * ONE_MINUTE_MS → on_minute u →
      matchesCronFields u fields = false
  end.
Proof.
  intros Hp. unfold nextCronRunAfter. rewrite Hp. cbn [mbind result_bind]. cbv zeta.
  rewrite clearSeconds_fixed, addMinute_fixed. unfold on_minute, msPerMinute, ONE_MINUTE_MS.
  set (r := (after + offset) mod 60000). set (c := after - r + 60000).
  assert (0 <= r < 60000) as Hr by (apply Z.mod_pos_bound; lia).
  assert ((c + offset) mod 60000 = 0) as Hc.
  { unfold c. replace (after - r + 60000 + offset) with ((after + offset - r) + 1 * 60000) by lia.
    rewrite Z.mod_add by lia. unfold r. rewrite Zminus_mod_idemp_r, Z.sub_diag. done. }
  assert (∀ u, after < u → (u + offset) mod 60000 = 0 → ∃ j, 0 <= j ∧ u = c + j * 60000) as Hu.
  { intros u Hau Hmu. exists ((u - c) / 60000).
    assert ((u - c) mod 60000 = 0) as Hd.
    { replace (u - c) with ((u + offset) - (c + offset)) by lia. by rewrite Zminus_mod, Hmu, Hc. }
    pose proof (Z.div_mod (u - c) 60000 ltac:(lia)) as E. rewrite Hd in E. split; [|lia].
    assert (-60000 < u - c) by (unfold c; lia). nia. }
  clearbody r.
  destruct (cron_search_fixed fields (c + search_minutes * 60000) search_fuel c)
    as [(t&k&->&Hk&->&Hd&Hm&Hno)|[-> Hno]].
  - unfold search_fuel, search_minutes. lia.
  - unfold search_fuel, search_minutes, msPerMinute. rewrite Z2Nat.id by lia. lia.
  - unfold msPerMinute in *. split_and!; [unfold c; lia| |done|].
    + replace (c + k * 60000 + offset) with (c + offset + k * 60000) by lia. by rewrite Z.mod_add.
    + intros u Hut Hmu. destruct (Hu u) as (j&Hj&->); [lia|done|]. apply Hno. lia.
  - intros u Hut Hmu. destruct (Hu u) as (j&Hj&->); [lia|done|]. apply Hno; [done|].
    unfold c, msPerMinute in *. lia.
Qed.
End fixed.

(** ** The repeated hour

    A zone that sets its clocks back by an hour at the instant [T].  A local
    time of the repeated hour means its first occurrence, as ECMA-262 says. *)

Definition set_back (T offset : Z) : Clock := {|
  tza_utc t := if t <? T then offset else offset - 3600000;
  tza_local l := if l <? T + offset then offset else offset - 3600000;
  parse_date _ := None
|}.

Definition star (min max : Z) : gset Z := add_range (Z.to_nat (max - min + 1)) min max 1 ∅.

Lemma star_field min max : parseCronField (js "*") min max = Ok (star min max).
Proof. done. Qed.

Lemma elem_of_star min max v : min <= max → min <= v <= max → v ∈ star min max.
Proof. intros ? Hv. apply add_range_spec; [lia|lia|]. right. split; [done|apply Z.divide_1_l]. Qed.

Definition all_fields : CronFields := MkFields (star 0 59) (star 0 23) (star 1 31) (star 1 12) (star 0 7).

Lemma every_minute_fields : parseCronExpression (js "* * * * *") = Ok all_fields.
Proof.
  unfold parseCronExpression.
  assert (split_ws false (trim (js "* * * * *")) = [js "*"; js "*"; js "*"; js "*"; js "*"]) as -> by by vm_compute.
  by rewrite !star_field.
Qed.

Lemma every_minute_matches `{Clock} t : matchesCronFields t all_fields = true.
Proof.
  unfold matchesCronFields, all_fields, getMinutes, getHours, getDate, getMonth1, getDay, MinFromTime, HourFromTime, WeekDay.
  cbn [f_minute f_hour f_dayOfMonth f_month f_dayOfWeek].
  destruct (civil_bounds (Day (LocalTime t))).
  pose proof (Z.mod_pos_bound (LocalTime t / 60000) 60). pose proof (Z.mod_pos_bound (LocalTime t / 3600000) 24).
  pose proof (Z.mod_pos_bound (Day (LocalTime t) + 4) 7).
  by rewrite !bool_decide_true by (apply elem_of_star; lia).
Qed.

(** ** A leap day

    The search looks 366 days ahead; from a leap day on, the next one is further
    away. *)

Definition leap_days : jsstr := js "0 0 29 2 *".
Definition leap_fields : CronFields := MkFields {[0]} {[0]} {[29]} {[2]} (star 0 7).

Lemma leap_days_fields : parseCronExpression leap_days = Ok leap_fields.
Proof.
  unfold parseCronExpression.
  assert (split_ws false (trim leap_days) = [js "0"; js "0"; js "29"; js "2"; js "*"]) as -> by by vm_compute.
  rewrite star_field. by vm_compute.
Qed.

(** 29 February 2028 and the 366 days after it. *)
Definition leap_2028 : Z := 21243.

Lemma no_leap_day_after : forallb (λ n, let c := civil (leap_2028 + Z.of_nat n) in
  negb ((c.2 =? 29) && (c.1.2 =? 2))) (seq 1 366) = true.
Proof. by vm_compute. Qed.

Lemma elem_singleton_Z (x y : Z) : bool_decide (x ∈ ({[y]} : gset Z)) = (x =? y).
Proof.
  destruct (Z.eqb_spec x y) as [->|Hne]; [apply bool_decide_eq_true; set_solver|apply bool_decide_eq_false; set_solver].
Qed.

Lemma leap_day_no_match `{FixedZone 0} t : t mod msPerMinute = 0 →
  leap_2028 * msPerDay < t <= (leap_2028 + 366) * msPerDay + msPerMinute → matchesCronFields t leap_fields = false.
Proof.
  unfold msPerDay, msPerMinute. intros Hm Ht.
  unfold matchesCronFields, leap_fields, getMinutes, getHours, getDate, getMonth1, LocalTime.
  cbn [f_minute f_hour f_dayOfMonth f_month f_dayOfWeek]. rewrite fixed_utc, Z.add_0_r, !elem_singleton_Z.
  assert (leap_2028 <= Day t <= leap_2028 + 366) as Hday.
  { unfold Day, msPerDay, leap_2028 in *. Z.to_euclidean_division_equations. lia. }
  destruct (decide (Day t = leap_2028)) as [Hd|Hd].
  - assert ((MinFromTime t =? 0) && (HourFromTime t =? 0) = false) as ->; [|done].
    apply andb_false_iff. destruct (Z.eqb_spec (MinFromTime t) 0) as [Hmin|]; [right|by left].
    apply Z.eqb_neq. intros Hh. unfold Day, MinFromTime, HourFromTime, leap_2028, msPerDay in *.
    Z.to_euclidean_division_equations. lia.
  - pose proof no_leap_day_after as Hno. rewrite forallb_forall in Hno. specialize (Hno (Z.to_nat (Day t - leap_2028))).
    rewrite Z2Nat.id in Hno by lia. replace (leap_2028 + (Day t - leap_2028)) with (Day t) in Hno by lia.
    assert (((civil (Day t)).2 =? 29) && ((civil (Day t)).1.2 =? 2) = false) as E.
    { apply negb_true_iff, Hno, in_seq. lia. }
    rewrite <-!andb_assoc. rewrite (andb_assoc (_ =? 29)), E. cbn [andb]. by rewrite !andb_false_r.
Qed.

(** On the leap day no next run is found. *)
Lemma leap_day_stuck `{FixedZone 0} : nextCronRunAfter leap_days (leap_2028 * msPerDay) = Throw (noMatchError leap_days).
Proof.
  unfold nextCronRunAfter. rewrite leap_days_fields. cbn [mbind result_bind]. cbv zeta.
  rewrite clearSeconds_fixed, addMinute_fixed. rewrite Z.add_0_r.
  assert (leap_2028 * msPerDay mod msPerMinute = 0) as -> by done. rewrite Z.sub_0_r.
  set (c := leap_2028 * msPerDay + msPerMinute).
  destruct (cron_search_fixed leap_fields (c + search_minutes * ONE_MINUTE_MS) search_fuel c)
    as [(t&k&_&Hk&->&Hd&Hm&_)|[-> _]]; [unfold search_fuel, search_minutes; lia| | |done].
  - unfold search_fuel, search_minutes, msPerMinute, ONE_MINUTE_MS. rewrite Z2Nat.id by lia. lia.
  - exfalso. rewrite leap_day_no_match in Hm; [done| |].
    + unfold c, leap_2028, msPerDay, msPerMinute. by rewrite Z.mod_add.
    + unfold c, search_minutes, ONE_MINUTE_MS, leap_2028, msPerDay, msPerMinute in *. lia.
Qed.

Lemma leap_day_unschedulable `{FixedZone 0} :
  nextRunAtForSchedule (MkSchedule Cron leap_days None) (leap_2028 * msPerDay) = Throw (noMatchError leap_days).
Proof. unfold nextRunAtForSchedule. cbn [sc_kind sc_expression]. rewrite leap_day_stuck. reflexivity. Qed.

(** In the hour that a zone repeats when its clocks go back, the next run of
    a job that runs every minute is computed to lie in the first pass of that
    hour, about an hour before the time it should follow. *)
Theorem repeated_hour_goes_back T offset after : T <= after < T + 3540000 →
  ∃ t, @nextCronRunAfter (set_back T offset) (js "* * * * *") after = Ok t ∧
    t < after ∧ after - 3600000 < t <= after - 3540000.
Proof.
  intros Ha. unfold nextCronRunAfter. rewrite every_minute_fields. cbn [mbind result_bind].
  set (r := (after + (offset - 3600000)) mod msPerMinute).
  assert (0 <= r < 60000) as Hr by (apply Z.mod_pos_bound; unfold msPerMinute; lia).
  assert (@clearSeconds (set_back T offset) after = after - 3600000 - r) as ->.
  { unfold clearSeconds, UTC, LocalTime. cbn [set_back tza_utc tza_local].
    destruct (Z.ltb_spec after T); [lia|]. fold r.
    destruct (Z.ltb_spec (after + (offset - 3600000) - r) (T + offset)); lia. }
  assert (@addMinute (set_back T offset) (after - 3600000 - r) = after - 3540000 - r) as ->.
  { unfold addMinute, UTC, LocalTime, msPerMinute. cbn [set_back tza_utc tza_local].
    destruct (Z.ltb_spec (after - 3600000 - r) T); [|lia].
    destruct (Z.ltb_spec (after - 3600000 - r + offset + 60000) (T + offset)); lia. }
  cbv zeta. exists (after - 3540000 - r). split; [|lia].
  unfold search_fuel. rewrite (Z2Nat.inj_add search_minutes 2), Nat.add_comm by (unfold search_minutes; lia).
  change (Z.to_nat 2) with 2%nat. cbn [Nat.add cron_search].
  destruct (Z.ltb_spec (after - 3540000 - r + search_minutes * ONE_MINUTE_MS) (after - 3540000 - r)) as [Hc|_].
  { unfold search_minutes, ONE_MINUTE_MS in Hc. lia. }
  by rewrite every_minute_matches.
Qed.

(** ** Stored schedules *)

(** A schedule that was accepted is stored in a form that computes the same
    first run again: nothing the parser lets through fails when the job is
    rescheduled, and recurring intervals are at least ten seconds. *)
Theorem accepted_schedule_recomputes `{Clock} input now schedule nextRunAt :
  parseAgentCronSchedule input now = Ok (schedule, nextRunAt) →
  nextRunAtForSchedule schedule now =
    Ok (match sc_kind schedule with Once => None | _ => Some nextRunAt end) ∧
  (sc_kind schedule = Interval → ∃ ms, sc_intervalMs schedule = Some ms ∧ 10000 <= ms ∧ nextRunAt = now + ms) ∧
  (sc_kind schedule = Cron → nextCronRunAfter (sc_expression schedule) now = Ok nextRunAt).
Proof.
  unfold parseAgentCronSchedule. cbv zeta. set (text := stripMatchingQuotes (trim input)). clearbody text.
  case_bool_decide; [done|].
  destruct (match_amount [js "in"] _ _) as [[n u]|]; [by intros [= <- <-]|].
  destruct (match_amount [js "every"; js "each"] _ _) as [[n u]|].
  { set (ms := n * _). clearbody ms. destruct (Z.ltb_spec ms (10 * ONE_SECOND_MS)) as [|Hms]; [done|].
    unfold ONE_SECOND_MS in Hms. intros [= <- <-]. unfold nextRunAtForSchedule. cbn.
    destruct (Z.leb_spec ms 0); [lia|]. split_and!; [done| |done]. intros _. exists ms. split_and!; [done|lia|done]. }
  destruct (after_word _ _) as [rest|].
  { destruct (parse_date _) as [w|]; [|done]. destruct (w <=? now); [done|]. by intros [= <- <-]. }
  intros (t&Ht&[= <- <-])%bind_Ok. unfold nextRunAtForSchedule. cbn. by rewrite Ht.
Qed.

(** ** Samples *)

Definition utc : Clock := {| tza_utc _ := 0; tza_local _ := 0; parse_date _ := None |}.
#[local] Instance utc_fixed : @FixedZone utc 0 := Build_FixedZone utc 0 (λ _, eq_refl) (λ _, eq_refl).

Lemma parseCronField_spec_witness :
  ∃ values, parseCronField (js "1-10/3,20") 0 59 = Ok values ∧ (20 ∈ values) ∧ values ≠ ∅.
Proof.
  destruct (parseCronField (js "1-10/3,20") 0 59) as [values|] eqn:E; [|by vm_compute in E].
  destruct (parseCronField_spec (js "1-10/3,20") 0 59 values ltac:(lia) ltac:(lia) E) as (Hv&_&Hne).
  exists values. split_and!; [done| |done]. apply Hv. exists (js "20"), (20, 20, 1). split_and!; [|done|].
  - by vm_compute; right; left.
  - split; [lia|]. by exists 0.
Defined.

(** 1 March 2024, 14:30 UTC, after the morning of 29 February. *)
Lemma nextCronRunAfter_least_witness :
  ∃ t, @nextCronRunAfter utc (js "30 6-8/2 * * 4,5") 1709186400000 = Ok t ∧ 1709186400000 < t ∧
    ∀ u, 1709186400000 < u < t → @on_minute 0 u →
      ∀ fields, parseCronExpression (js "30 6-8/2 * * 4,5") = Ok fields → @matchesCronFields utc u fields = false.
Proof.
  destruct (parseCronExpression (js "30 6-8/2 * * 4,5")) as [fields|] eqn:Ef; [|by vm_compute in Ef].
  pose proof (@nextCronRunAfter_least utc 0 utc_fixed _ fields 1709186400000 Ef) as Hx.
  destruct (@nextCronRunAfter utc (js "30 6-8/2 * * 4,5") 1709186400000) as [t|] eqn:E; [|by vm_compute in E].
  exists t. destruct Hx as (?&_&_&Hno). split_and!; [done..|]. intros u Hu Hm f [= <-]. by apply Hno.
Defined.

(** New York, 2 November 2025, 06:00 UTC; the job is asked for at 06:30. *)
Lemma repeated_hour_goes_back_witness :
  ∃ t, @nextCronRunAfter (set_back 1762063200000 (-14400000)) (js "* * * * *") 1762065000000 = Ok t ∧ t < 1762065000000.
Proof.
  destruct (repeated_hour_goes_back 1762063200000 (-14400000) 1762065000000 ltac:(lia)) as (t&Ht&Hlt&_).
  exists t. exact (conj Ht Hlt).
Defined.

Lemma accepted_schedule_recomputes_witness :
  ∃ s, @parseAgentCronSchedule utc (js " Every 90 Sec ") 5 = Ok (s, 90005) ∧
    @nextRunAtForSchedule utc s 5 = Ok (Some 90005).
Proof.
  exists (MkSchedule Interval (js "Every 90 Sec") (Some 90000)).
  assert (@parseAgentCronSchedule utc (js " Every 90 Sec ") 5 =
    Ok (MkSchedule Interval (js "Every 90 Sec") (Some 90000), 90005)) as E by by vm_compute.
  split; [done|]. apply (@accepted_schedule_recomputes utc _ _ _ _ E).
Defined.
