(* ===== verification/Autonomous.v ===== *)
(** * Autonomous turns

    Models [core/autonomous.ts]: the limits of an unattended run, the quality
    gates (commands that must succeed before the run may end), the decision to
    go on, and the snapshot of the work tree that keeps a failed gate from
    being run again while nothing changed.

    Processes, files, the hash and the clock are operations on an abstract
    world ([Machine]).  A child process is the sequence of events that
    [runChildProcess] listens to, up to its end; one that never ends is left
    out (the source kills it after a timeout).  An [AbortSignal] is aborted or not according to the
    world, so it may become aborted during any operation; [sig] says whether a
    signal was given.  [gateAttempts] is a plain object; commands named like a
    property of [Object.prototype] are left out. *)

From stdpp Require Import sorting.
From S2P Require Import Prelude.
From S2P Require Import Eff.
From S2P Require Import JsMap.
From S2P Require Import JsString.
From S2P Require Import Messages.
From S2P Require Import CronSchedule.

(** ** Configuration and state *)

Record Limits := MkLimits { maxContinuations : Z; maxTurns : Z; maxTokens : Z; timeoutMs : Z }.
Record Gates := MkGates { commands : list jsstr; maxRetries : Z; gateTimeoutMs : Z }.

Record AgentAutonomousGateConfig := MkGateConfig {
  gc_commands : option (list jsstr); gc_maxRetries : option Z; gc_timeoutMs : option Z
}.
Record AgentAutonomousConfig := MkConfig {
  c_enabled : option bool;
  c_maxContinuations : option Z;
  c_maxTurns : option Z;
  c_maxTokens : option Z;
  c_timeoutMs : option Z;
  c_continuationPrompt : option jsstr;
  c_gates : option AgentAutonomousGateConfig
}.

Record GateFailure := MkGateFailure {
  gf_command : jsstr; gf_attempt : Z; gf_exitText : jsstr; gf_output : jsstr
}.
Record GitWorktreeSnapshot := MkSnapshot { gw_status : jsstr; gw_diff : jsstr; gw_untrackedHash : jsstr }.

Record AutonomousRuntimeState := MkAutonomous {
  enabled : bool;
  continuationsUsed : Z;
  turnsUsed : Z;
  tokensUsed : Z;
  startedAt : option Z;
  limits : Limits;
  continuationPrompt : jsstr;
  gates : Gates;
  gateAttempts : list (jsstr * Z);
  lastGateFailure : option GateFailure;
  lastGateFailureSnapshot : option GitWorktreeSnapshot
}.

Inductive AutonomousLimitReason := LimitContinuations | LimitTurns | LimitTokens | LimitTimeout.
Inductive AutonomousGateResult := Passed | Failed | RetryExhausted.
Inductive AutonomousReason := MissingTerminalEvidence | GateFailed | NotNeeded | LimitReached.
Record AutonomousDecision := MkDecision { shouldContinue : bool; reason : AutonomousReason }.
#[export] Instance AutonomousGateResult_eq_dec : EqDecision AutonomousGateResult.
Proof. solve_decision. Defined.
#[export] Instance AutonomousReason_eq_dec : EqDecision AutonomousReason.
Proof. solve_decision. Defined.

Definition DEFAULT_AUTONOMOUS_CONTINUATION_PROMPT : jsstr :=
  js "No human input is available in autonomous mode. Continue working until the host evaluator, verifier, or configured autonomous limits stop the run. If you were asking the user a question, make a reasonable assumption and verify it. If you believe you are blocked, prove it with host-observable evidence, preserve that evidence, and keep looking for safe progress while budget remains. Do not end the session yourself; the verifier/evaluator decides completion when configured gates pass.".

Definition DEFAULT_AUTONOMOUS_LIMITS : Limits := MkLimits 3 12 80000 (30 * 60 * 1000).
Definition DEFAULT_AUTONOMOUS_GATES : Gates := MkGates [] 3 (5 * 60 * 1000).
Definition MAX_GATE_OUTPUT_CHARS : Z := 6000.
Definition MAX_CHILD_PROCESS_OUTPUT_CHARS : Z := 1024 * 1024.

Definition normalizeLimit (value : option Z) (fallback : Z) : Z :=
  match value with Some v => if v <=? 0 then fallback else v | None => fallback end.

Definition createAutonomousRuntimeState (config : option AgentAutonomousConfig) (now : Z) : AutonomousRuntimeState :=
  let on := bool_decide ((config ≫= c_enabled) = Some true) in
  let g := config ≫= c_gates in
  let D := DEFAULT_AUTONOMOUS_LIMITS in
  let prompt := match trim <$> (config ≫= c_continuationPrompt) with
    | Some ((_ :: _) as p) => p | _ => DEFAULT_AUTONOMOUS_CONTINUATION_PROMPT end in
  MkAutonomous on 0 0 0 (if on then Some now else None)
    (MkLimits (normalizeLimit (config ≫= c_maxContinuations) (maxContinuations D))
      (normalizeLimit (config ≫= c_maxTurns) (maxTurns D)) (normalizeLimit (config ≫= c_maxTokens) (maxTokens D))
      (normalizeLimit (config ≫= c_timeoutMs) (timeoutMs D)))
    prompt
    (MkGates (default (commands DEFAULT_AUTONOMOUS_GATES) (g ≫= gc_commands))
      (normalizeLimit (g ≫= gc_maxRetries) (maxRetries DEFAULT_AUTONOMOUS_GATES))
      (normalizeLimit (g ≫= gc_timeoutMs) (gateTimeoutMs DEFAULT_AUTONOMOUS_GATES)))
    [] None None.

(** *** Assignments *)

Definition with_counts (c t k : Z) (at_ : option Z) (s : AutonomousRuntimeState) : AutonomousRuntimeState :=
  MkAutonomous (enabled s) c t k at_ (limits s) (continuationPrompt s) (gates s) (gateAttempts s)
    (lastGateFailure s) (lastGateFailureSnapshot s).
Definition with_failure (attempts : list (jsstr * Z)) (f : option GateFailure) (w : option GitWorktreeSnapshot)
    (s : AutonomousRuntimeState) : AutonomousRuntimeState :=
  MkAutonomous (enabled s) (continuationsUsed s) (turnsUsed s) (tokensUsed s) (startedAt s) (limits s)
    (continuationPrompt s) (gates s) attempts f w.
Definition with_enabled (b : bool) (s : AutonomousRuntimeState) : AutonomousRuntimeState :=
  MkAutonomous b (continuationsUsed s) (turnsUsed s) (tokensUsed s) (startedAt s) (limits s)
    (continuationPrompt s) (gates s) (gateAttempts s) (lastGateFailure s) (lastGateFailureSnapshot s).

Definition setAutonomousEnabled (on : bool) (now : Z) (s : AutonomousRuntimeState) : AutonomousRuntimeState :=
  let s := with_enabled on s in
  with_failure [] None None
    (if on then with_counts 0 0 0 (Some now) s
     else with_counts (continuationsUsed s) (turnsUsed s) (tokensUsed s) None s).

Definition autonomousTokenDelta (usage : option Usage) : Z :=
  match usage with Some u => input u + output u + cacheWrite u | None => 0 end.

Definition addAutonomousUsage (usage : option Usage) (s : AutonomousRuntimeState) : AutonomousRuntimeState :=
  if negb (enabled s) then s else
  with_counts (continuationsUsed s) (turnsUsed s + 1) (tokensUsed s + autonomousTokenDelta usage) (startedAt s) s.

Definition addAutonomousContinuation (s : AutonomousRuntimeState) : AutonomousRuntimeState :=
  if negb (enabled s) then s else with_counts (continuationsUsed s + 1) (turnsUsed s) (tokensUsed s) (startedAt s) s.

Definition autonomousLimitReason (s : AutonomousRuntimeState) (now : Z) : option AutonomousLimitReason :=
  if maxContinuations (limits s) <=? continuationsUsed s then Some LimitContinuations else
  if maxTurns (limits s) <=? turnsUsed s then Some LimitTurns else
  if maxTokens (limits s) <=? tokensUsed s then Some LimitTokens else
  match startedAt s with
  | Some t => if timeoutMs (limits s) <=? now - t then Some LimitTimeout else None
  | None => None
  end.

(** ** Child processes *)

Inductive process_event :=
| Stdout (chunk : jsstr)
| Stderr (chunk : jsstr)
| TimedOut.

(** How [waitForChildProcess] settles. *)
Inductive process_end :=
| Ended (status : option Z) (signal : option jsstr)
| Errored (message : jsstr) (status : option Z) (signal : option jsstr).

Record ChildProcessResult := MkResult {
  cp_status : option Z;
  cp_signal : option jsstr;
  cp_stdout : jsstr;
  cp_stderr : jsstr;
  cp_error : option jsstr;
  cp_timedOut : bool;
  cp_outputTruncated : bool
}.

(** The variables of [runChildProcess] while the process runs. *)
Record collected := MkCollected { co_stdout : jsstr; co_stderr : jsstr; co_timedOut : bool; co_truncated : bool }.

(** [text] with what fits of [chunk], and whether something did not fit. *)
Definition add_chunk (maxOutputChars : Z) (text chunk : jsstr) : jsstr * bool :=
  let remaining := maxOutputChars - Z.of_nat (length text) in
  (if 0 <? remaining then text ++ take (Z.to_nat remaining) chunk else text, remaining <? Z.of_nat (length chunk)).

Definition on_event (maxOutputChars : Z) (c : collected) (e : process_event) : collected :=
  match e with
  | Stdout chunk =>
      let '(t, b) := add_chunk maxOutputChars (co_stdout c) chunk in
      MkCollected t (co_stderr c) (co_timedOut c) (co_truncated c || b)
  | Stderr chunk =>
      let '(t, b) := add_chunk maxOutputChars (co_stderr c) chunk in
      MkCollected (co_stdout c) t (co_timedOut c) (co_truncated c || b)
  | TimedOut => MkCollected (co_stdout c) (co_stderr c) true (co_truncated c)
  end.

(** The result of [runChildProcess] for what the process did. *)
Definition process_result (maxOutputChars : Z) (es : list process_event) (e : process_end) : ChildProcessResult :=
  let c := foldl (on_event maxOutputChars) (MkCollected [] [] false false) es in
  match e with
  | Ended status signal => MkResult status signal (co_stdout c) (co_stderr c) None (co_timedOut c) (co_truncated c)
  | Errored m status signal =>
      MkResult status signal (co_stdout c) (co_stderr c) (Some m) (co_timedOut c) (co_truncated c)
  end.

Definition formatProcessExit (r : ChildProcessResult) : jsstr :=
  if cp_timedOut r then js "timed out" else
  match cp_error r with
  | Some message => message
  | None =>
      match cp_signal r with
      | Some ((_ :: _) as signal) => js "terminated by " ++ signal
      | _ => js "exited " ++ match cp_status r with Some n => js_of_Z n | None => js "unknown" end
      end
  end.

Definition truncateGateOutput (output : jsstr) (outputAlreadyTruncated : bool) : jsstr :=
  if (Z.of_nat (length output) <=? MAX_GATE_OUTPUT_CHARS) && negb outputAlreadyTruncated then output
  else take (Z.to_nat MAX_GATE_OUTPUT_CHARS) output ++ [NL] ++ js "... [truncated]".

(** ** The machine *)

Inductive FileKind := SymbolicLink | RegularFile | OtherFile (mode size : Z) (mtimeMs : jsstr).

Class Machine (W : Type) := {
  (** the command, its arguments, the directory, [shell] and the timeout *)
  spawn : jsstr → list jsstr → jsstr → bool → Z → W → W * (list process_event * process_end);
  lstat : jsstr → W → W * result jsstr FileKind;
  readlink : jsstr → W → W * result jsstr jsstr;
  readFile : jsstr → W → W * result jsstr (list Z);
  (** [signal.aborted] *)
  aborted : W → bool;
  path_resolve : jsstr → jsstr → jsstr;
  (** the hexadecimal SHA-256 of bytes *)
  sha256 : list Z → jsstr
}.

Section machine.
Context {W : Type} `{Machine W}.

(** The runtime state and the world; errors are messages. *)
#[local] Abbreviation A := (eff (AutonomousRuntimeState * W) jsstr).

Definition in_world {B} (f : W → W * B) : A B := λ s, let '(w, b) := f s.2 in ((s.1, w), Ok b).
Definition try_world {B} (f : W → W * result jsstr B) : A B := λ s, let '(w, r) := f s.2 in ((s.1, w), r).
Definition update (f : AutonomousRuntimeState → AutonomousRuntimeState) : A unit := emodify (λ s, (f s.1, s.2)).

Definition abortMessage : jsstr := js "This operation was aborted".

(** [signal?.throwIfAborted()] *)
Definition throwIfAborted (sig : bool) : A unit :=
  s ← eget; if sig && aborted s.2 then ethrow abortMessage else mret tt.

Definition runChildProcess (command : jsstr) (args : list jsstr) (cwd : jsstr) (shell : bool) (timeout maxOutputChars : Z)
    (sig : bool) : A ChildProcessResult :=
  throwIfAborted sig;;
  p ← in_world (spawn command args cwd shell timeout);
  mret (process_result maxOutputChars p.1 p.2).

(** *** Snapshots of the work tree *)

Definition pathspec : list jsstr := js <$>
  ["--"; "."; ":(exclude)verification"; ":(exclude)target"; ":(exclude).vf-prime-agent"; ":(exclude)Cargo.lock";
   ":(exclude)submission.tar.gz"; ":(exclude)runner_args.log"]%string.

Definition git_status_args : list jsstr :=
  (js <$> ["--no-optional-locks"; "status"; "--porcelain=v1"; "-z"; "-uall"; "--no-renames"]%string) ++ pathspec.
Definition git_diff_args : list jsstr :=
  (js <$> ["--no-optional-locks"; "diff"; "--no-ext-diff"; "--binary"; "HEAD"]%string) ++ pathspec.

(** [Array.prototype.sort] of strings. *)
Definition js_sort (l : list jsstr) : list jsstr := merge_sort js_le l.

Definition untrackedPathsFromStatus (status : jsstr) : list jsstr :=
  js_sort (omap (strip_prefix (js "?? ")) (js_split 0 status)).

Definition hashUntrackedPath (path : jsstr) (sig : bool) : A jsstr :=
  ecatch (
    throwIfAborted sig;;
    stat ← try_world (lstat path);
    throwIfAborted sig;;
    match stat with
    | SymbolicLink =>
        target ← try_world (readlink path);
        throwIfAborted sig;;
        mret (js "symlink:" ++ target)
    | OtherFile mode size mtimeMs =>
        mret (js "other:" ++ js_of_Z mode ++ js ":" ++ js_of_Z size ++ js ":" ++ mtimeMs)
    | RegularFile =>
        content ← try_world (readFile path);
        throwIfAborted sig;;
        mret (js "file:" ++ sha256 content)
    end)
  (λ message, throwIfAborted sig;; mret (js "error:" ++ message)).

(** The bytes that the loop of [hashUntrackedFiles] feeds to the hash. *)
Fixpoint hash_paths (cwd : jsstr) (sig : bool) (paths : list jsstr) : A (list Z) :=
  match paths with
  | [] => mret []
  | path :: paths =>
      throwIfAborted sig;;
      h ← hashUntrackedPath (path_resolve cwd path) sig;
      rest ← hash_paths cwd sig paths;
      mret (utf8_encode path ++ [0] ++ utf8_encode h ++ [0] ++ rest)
  end.

Definition hashUntrackedFiles (cwd status : jsstr) (sig : bool) : A jsstr :=
  bytes ← hash_paths cwd sig (untrackedPathsFromStatus status);
  throwIfAborted sig;;
  mret (sha256 bytes).

(** A [git] command whose whole output can be used. *)
Definition usable (r : ChildProcessResult) : bool :=
  bool_decide (cp_status r = Some 0) && bool_decide (cp_error r = None) && negb (cp_timedOut r) && negb (cp_outputTruncated r).

Definition captureGitWorktreeSnapshot (cwd : jsstr) (sig : bool) : A (option GitWorktreeSnapshot) :=
  throwIfAborted sig;;
  if bool_decide (cwd = []) then mret None else
  status ← runChildProcess (js "git") git_status_args cwd false 10000 MAX_CHILD_PROCESS_OUTPUT_CHARS sig;
  throwIfAborted sig;;
  if negb (usable status) then mret None else
  diff ← runChildProcess (js "git") git_diff_args cwd false 10000 MAX_CHILD_PROCESS_OUTPUT_CHARS sig;
  throwIfAborted sig;;
  if negb (usable diff) then mret None else
  untrackedHash ← hashUntrackedFiles cwd (cp_stdout status) sig;
  mret (Some (MkSnapshot (cp_stdout status) (cp_stdout diff) untrackedHash)).

Definition gitWorktreeSnapshotsEqual (a b : option GitWorktreeSnapshot) : bool :=
  match a, b with
  | Some a, Some b => bool_decide (gw_status a = gw_status b) && bool_decide (gw_diff a = gw_diff b) &&
                      bool_decide (gw_untrackedHash a = gw_untrackedHash b)
  | _, _ => false
  end.

(** ** The gates *)

Definition unchangedText : jsstr := js "not rerun: workspace unchanged since previous failed gate".
Definition unchangedOutput : jsstr := js "The autonomous gate was not rerun because the workspace has not changed since this failure. Edit source files, tests, or a blocker artifact before attempting to finish again.".

(** The last failure, when it is of [command] and the work tree is as it left it. *)
Definition unchanged_failure (s : AutonomousRuntimeState) (command : jsstr) (current : option GitWorktreeSnapshot)
    : option GateFailure :=
  match lastGateFailure s with
  | Some f =>
      if bool_decide (gf_command f = command) && gitWorktreeSnapshotsEqual current (lastGateFailureSnapshot s)
      then Some f else None
  | None => None
  end.

Definition gate_verdict (s : AutonomousRuntimeState) (attempt : Z) : AutonomousGateResult :=
  if maxRetries (gates s) <? attempt then RetryExhausted else Failed.

(** [result.status === 0 && !result.error && !result.timedOut] *)
Definition gate_ok (r : ChildProcessResult) : bool :=
  bool_decide (cp_status r = Some 0) && match cp_error r with None => true | Some _ => false end && negb (cp_timedOut r).

(** The output of a failed gate: the non-empty streams, joined and trimmed. *)
Definition gate_output (r : ChildProcessResult) : jsstr :=
  truncateGateOutput
    (trim (js_join [NL] (filter (λ t, t ≠ []) [cp_stdout r; cp_stderr r]))) (cp_outputTruncated r).

(** A gate that failed, when it was run. *)
Definition record_failure (command : jsstr) (r : ChildProcessResult) (post : option GitWorktreeSnapshot)
    (s : AutonomousRuntimeState) : AutonomousRuntimeState :=
  let attempt := default 0 (jm_get (gateAttempts s) command) + 1 in
  with_failure (jm_set (gateAttempts s) command attempt)
    (Some (MkGateFailure command attempt (formatProcessExit r) (gate_output r))) post s.

(** One that was not run again. *)
Definition repeat_failure (command : jsstr) (f : GateFailure) (s : AutonomousRuntimeState) : AutonomousRuntimeState :=
  let attempt := default (gf_attempt f) (jm_get (gateAttempts s) command) + 1 in
  with_failure (jm_set (gateAttempts s) command attempt)
    (Some (MkGateFailure (gf_command f) attempt unchangedText unchangedOutput)) (lastGateFailureSnapshot s) s.

(** One that succeeded. *)
Definition record_success (command : jsstr) (s : AutonomousRuntimeState) : AutonomousRuntimeState :=
  let s := with_failure (jm_set (gateAttempts s) command 0) (lastGateFailure s) (lastGateFailureSnapshot s) s in
  if bool_decide ((gf_command <$> lastGateFailure s) = Some command) then with_failure (gateAttempts s) None None s else s.

(** The verdict for the attempt that the state holds. *)
Definition verdict_of (command : jsstr) (s : AutonomousRuntimeState) : AutonomousGateResult :=
  gate_verdict s (default 0 (jm_get (gateAttempts s) command)).

Fixpoint run_gates (cwd : jsstr) (sig : bool) (cmds : list jsstr) : A AutonomousGateResult :=
  match cmds with
  | [] => update (λ s, with_failure (gateAttempts s) None None s);; mret Passed
  | command :: cmds =>
      currentSnapshot ← captureGitWorktreeSnapshot cwd sig;
      throwIfAborted sig;;
      s ← egets fst;
      match unchanged_failure s command currentSnapshot with
      | Some f => update (repeat_failure command f);; egets (λ s, verdict_of command s.1)
      | None =>
          result ← runChildProcess command [] cwd true (gateTimeoutMs (gates s)) MAX_GATE_OUTPUT_CHARS sig;
          throwIfAborted sig;;
          postRunSnapshot ← captureGitWorktreeSnapshot cwd sig;
          throwIfAborted sig;;
          if gate_ok result then update (record_success command);; run_gates cwd sig cmds
          else update (record_failure command result postRunSnapshot);; egets (λ s, verdict_of command s.1)
      end
  end.

Definition runAutonomousQualityGates (cwd : option jsstr) (sig : bool) : A AutonomousGateResult :=
  throwIfAborted sig;;
  match cwd with
  | Some ((_ :: _) as cwd) => s ← egets fst; run_gates cwd sig (commands (gates s))
  | _ => mret Failed
  end.

Definition refreshAutonomousQualityGates (cwd : option jsstr) (sig : bool) : A (option AutonomousGateResult) :=
  throwIfAborted sig;;
  s ← egets fst;
  if negb (enabled s) || bool_decide (commands (gates s) = []) then mret None
  else Some <$> runAutonomousQualityGates cwd sig.

(** ** Going on *)

Definition shouldAutonomouslyContinue (message : AssistantMessage) (cwd : option jsstr) (sig : bool) (now : Z)
    : A AutonomousDecision :=
  throwIfAborted sig;;
  s ← egets fst;
  if negb (enabled s) || bool_decide (am_stopReason message = SrError) || bool_decide (am_stopReason message = SrAborted)
  then mret (MkDecision false NotNeeded) else
  gateResult ← refreshAutonomousQualityGates cwd sig;
  throwIfAborted sig;;
  s ← egets fst;
  let limited := bool_decide (is_Some (autonomousLimitReason s now)) in
  mret match gateResult with
       | Some Passed => MkDecision false NotNeeded
       | Some RetryExhausted => MkDecision false LimitReached
       | Some Failed => if limited then MkDecision false LimitReached else MkDecision true GateFailed
       | None => if limited then MkDecision false LimitReached else MkDecision true MissingTerminalEvidence
       end.

(** [n] with at least [k] digits. *)
Definition pad (k : nat) (n : Z) : jsstr := let t := js_of_Z n in replicate (k - length t) 48 ++ t.

(** [new Date(t).toISOString()], for years from 0 to 9999. *)
Definition toISOString (t : Z) : jsstr :=
  let '(y, m, d) := civil (Day t) in
  pad 4 y ++ js "-" ++ pad 2 m ++ js "-" ++ pad 2 d ++ js "T" ++ pad 2 (HourFromTime t) ++ js ":" ++
  pad 2 (MinFromTime t) ++ js ":" ++ pad 2 ((t / 1000) mod 60) ++ js "." ++ pad 3 (t mod 1000) ++ js "Z".

Definition buildAutonomousGateFailureContinuation (failure : GateFailure) (retries timestamp : Z) : jsstr :=
  js "Autonomous quality gate failed (attempt " ++ js_of_Z (gf_attempt failure) ++ js "/" ++ js_of_Z retries ++
  js "): `" ++ gf_command failure ++ js "` " ++ gf_exitText failure ++ js "." ++ [NL] ++
  match gf_output failure with [] => [NL] | out => [NL] ++ js "Output:" ++ [NL] ++ out ++ [NL] end ++
  [NL] ++ js "Continue working. Fix the failure, then produce terminal evidence. Timestamp: " ++ toISOString timestamp ++ js ".".

Definition buildGateFailureContinuation (s : AutonomousRuntimeState) (timestamp : Z) : option jsstr :=
  (λ f, buildAutonomousGateFailureContinuation f (maxRetries (gates s)) timestamp) <$> lastGateFailure s.

Definition nextAutonomousContinuation (message : AssistantMessage) (cwd : option jsstr) (sig : bool) (now : Z)
    : A (option UserMessage) :=
  throwIfAborted sig;;
  s ← egets fst;
  if negb (enabled s) then mret None else
  decision ← shouldAutonomouslyContinue message cwd sig now;
  throwIfAborted sig;;
  if negb (shouldContinue decision) then mret None else
  update (λ s, with_counts (continuationsUsed s + 1) (turnsUsed s) (tokensUsed s) (startedAt s) s);;
  s ← egets fst;
  let text := if bool_decide (reason decision = GateFailed)
    then default (continuationPrompt s) (buildGateFailureContinuation s now) else continuationPrompt s in
  mret (Some (MkUserMessage (CBlocks [TextBlock text]) now)).
End machine.
