(* ===== verification/AutonomousSpec.v ===== *)
(** * Autonomous turns: the theorems

    [continuations_bounded]: an unattended run ends.  [gates_refresh]: what a
    refresh of the gates decides and records.  [process_output]: the output
    kept of a child process. *)

From stdpp Require Import sorting.
From S2P Require Import Prelude.
From S2P Require Import Eff.
From S2P Require Import JsMap.
From S2P Require Import JsString.
From S2P Require Import Messages.
From S2P Require Import CronSchedule.
From S2P Require Import Autonomous.

(** ** Child processes *)

(** What a process wrote to its two streams. *)
Definition out_text (es : list process_event) : jsstr := es ≫= λ e, match e with Stdout c => c | _ => [] end.
Definition err_text (es : list process_event) : jsstr := es ≫= λ e, match e with Stderr c => c | _ => [] end.
Definition has_timeout (es : list process_event) : bool := existsb (λ e, match e with TimedOut => true | _ => false end) es.

(** [text] holds the first [max] code units of [all]. *)
Lemma add_chunk_spec max all chunk : 0 <= max →
  add_chunk max (take (Z.to_nat max) all) chunk =
  (take (Z.to_nat max) (all ++ chunk),
   max - Z.of_nat (length (take (Z.to_nat max) all)) <? Z.of_nat (length chunk)).
Proof.
  intros Hm. unfold add_chunk. f_equal. rewrite length_take.
  destruct (Z.ltb_spec 0 (max - Z.of_nat (Z.to_nat max `min` length all))) as [Hr|Hr].
  - rewrite (take_ge all) by lia. rewrite take_app_ge by lia. do 2 f_equal. lia.
  - rewrite take_app_le by lia. done.
Qed.

Lemma overflow_app max (all chunk : jsstr) : 0 <= max →
  (max <? Z.of_nat (length all)) || (max - Z.of_nat (length (take (Z.to_nat max) all)) <? Z.of_nat (length chunk)) =
  (max <? Z.of_nat (length (all ++ chunk))) || ((max <? Z.of_nat (length all)) && bool_decide (chunk = [])).
Proof.
  intros Hm. rewrite length_take, length_app. destruct chunk as [|c chunk]; cbn [length].
  - rewrite bool_decide_true by done.
    destruct (Z.ltb_spec max (Z.of_nat (length all))); cbn [orb andb]; [by rewrite orb_true_r|].
    rewrite orb_false_r. destruct (Z.ltb_spec (max - Z.of_nat (Z.to_nat max `min` length all)) (Z.of_nat 0)),
      (Z.ltb_spec max (Z.of_nat (length all + 0))); lia || done.
  - rewrite bool_decide_false by done. rewrite andb_false_r, orb_false_r.
    destruct (Z.ltb_spec max (Z.of_nat (length all))),
      (Z.ltb_spec (max - Z.of_nat (Z.to_nat max `min` length all)) (Z.of_nat (S (length chunk)))),
      (Z.ltb_spec max (Z.of_nat (length all + S (length chunk)))); cbn [orb]; lia || done.
Qed.

Lemma overflow_chunk max (all chunk : jsstr) : 0 <= max →
  (max <? Z.of_nat (length all)) || (max - Z.of_nat (length (take (Z.to_nat max) all)) <? Z.of_nat (length chunk)) =
  (max <? Z.of_nat (length (all ++ chunk))).
Proof.
  intros Hm. rewrite overflow_app by done. case_bool_decide as Hc; [subst; rewrite app_nil_r|].
  - by destruct (max <? _).
  - by rewrite andb_false_r, orb_false_r.
Qed.

Lemma out_text_snoc es e : out_text (es ++ [e]) = out_text es ++ match e with Stdout c => c | _ => [] end.
Proof. unfold out_text. rewrite bind_app. cbn. by rewrite app_nil_r. Qed.
Lemma err_text_snoc es e : err_text (es ++ [e]) = err_text es ++ match e with Stderr c => c | _ => [] end.
Proof. unfold err_text. rewrite bind_app. cbn. by rewrite app_nil_r. Qed.

Lemma collected_spec max es : 0 <= max →
  foldl (on_event max) (MkCollected [] [] false false) es =
  MkCollected (take (Z.to_nat max) (out_text es)) (take (Z.to_nat max) (err_text es)) (has_timeout es)
    ((max <? Z.of_nat (length (out_text es))) || (max <? Z.of_nat (length (err_text es)))).
Proof.
  intros Hm. induction es as [|e es IH] using rev_ind.
  - cbn [foldl out_text err_text mbind list_bind length has_timeout existsb]. change (Z.of_nat 0) with 0.
    rewrite !take_nil, (proj2 (Z.ltb_ge max 0)) by done. done.
  - rewrite foldl_app, IH. cbn [foldl]. rewrite out_text_snoc, err_text_snoc. unfold has_timeout at 2. rewrite existsb_app.
    fold (has_timeout es). cbn [existsb]. set (o := out_text es). set (r := err_text es).
    destruct e as [c|c|]; cbn [on_event co_stdout co_stderr co_timedOut co_truncated]; rewrite ?app_nil_r, ?orb_false_r;
      [| |by rewrite orb_true_r].
    + rewrite add_chunk_spec by done. f_equal. rewrite <-overflow_chunk by done.
      destruct (max <? Z.of_nat (length r)); rewrite ?orb_true_r, ?orb_false_r; done.
    + rewrite add_chunk_spec by done. f_equal. rewrite <-orb_assoc. by rewrite overflow_chunk.
Qed.

(** The output kept of a child process: of each stream the first
    [maxOutputChars] code units of what was written, however it arrived in
    pieces; the flag [outputTruncated] is set exactly when something of a
    stream was left out. *)
Theorem process_output max es e : 0 <= max →
  cp_stdout (process_result max es e) = take (Z.to_nat max) (out_text es) ∧
  cp_stderr (process_result max es e) = take (Z.to_nat max) (err_text es) ∧
  (cp_outputTruncated (process_result max es e) = false ↔
     cp_stdout (process_result max es e) = out_text es ∧ cp_stderr (process_result max es e) = err_text es) ∧
  cp_timedOut (process_result max es e) = has_timeout es.
Proof.
  intros Hm. unfold process_result. rewrite collected_spec by done.
  assert (∀ l : jsstr, take (Z.to_nat max) l = l ↔ (max <? Z.of_nat (length l)) = false) as Htake.
  { intros l. rewrite Z.ltb_ge. split; [|intros; apply take_ge; lia].
    intros E. apply (f_equal length) in E. rewrite length_take in E. lia. }
  destruct e; cbn; rewrite !Htake, orb_false_iff; done.
Qed.

Lemma process_output_witness :
  cp_stdout (process_result 5 [Stdout (js "abc"); Stderr (js "e"); Stdout (js "def")] (Ended (Some 0) None)) = js "abcde" ∧
  cp_outputTruncated (process_result 5 [Stdout (js "abc"); Stderr (js "e"); Stdout (js "def")] (Ended (Some 0) None)) = true.
Proof.
  destruct (process_output 5 [Stdout (js "abc"); Stderr (js "e"); Stdout (js "def")] (Ended (Some 0) None)) as (->&_&_&_);
    [lia|]. by split.
Defined.

(** ** What the gates leave alone *)

Section auto.
Context {W : Type} `{Machine W}.
#[local] Abbreviation A := (eff (AutonomousRuntimeState * W) jsstr).

(** Only the record of the gates differs. *)
Definition only_gates (s s' : AutonomousRuntimeState) : Prop := ∃ a f w, s' = with_failure a f w s.

Lemma only_gates_refl s : only_gates s s.
Proof. exists (gateAttempts s), (lastGateFailure s), (lastGateFailureSnapshot s). by destruct s. Qed.
Lemma only_gates_trans s1 s2 s3 : only_gates s1 s2 → only_gates s2 s3 → only_gates s1 s3.
Proof. intros (a&f&w&->) (a'&f'&w'&->). by exists a', f', w'. Qed.

(** [m] does not touch the state, or touches only the record of the gates. *)
Definition outside {B} (m : A B) : Prop := ∀ s, (m s).1.1 = s.1.
Definition mild {B} (m : A B) : Prop := ∀ s, only_gates s.1 (m s).1.1.

Lemma outside_mild {B} (m : A B) : outside m → mild m.
Proof. intros Hm s. rewrite (Hm s). apply only_gates_refl. Qed.

Lemma outside_ret {B} (b : B) : outside (mret b). Proof. done. Qed.
Lemma outside_throw {B} e : outside (ethrow (A:=B) e). Proof. done. Qed.
Lemma outside_get : outside eget. Proof. done. Qed.
Lemma outside_gets {B} (f : _ → B) : outside (egets f). Proof. done. Qed.
Lemma outside_world {B} (f : W → W * B) : outside (in_world f).
Proof. intros s. unfold in_world. by destruct (f s.2). Qed.
Lemma outside_try {B} (f : W → W * result jsstr B) : outside (try_world f).
Proof. intros s. unfold try_world. by destruct (f s.2). Qed.
Lemma outside_bind {B C} (m : A B) (k : B → A C) : outside m → (∀ b, outside (k b)) → outside (m ≫= k).
Proof.
  intros Hm Hk s. rewrite run_bind. specialize (Hm s). destruct (m s) as [s' [b|e]]; [|done].
  cbn in Hm. by rewrite (Hk b s').
Qed.
Lemma outside_catch {B} (m : A B) h : outside m → (∀ e, outside (h e)) → outside (ecatch m h).
Proof.
  intros Hm Hh s. unfold ecatch. specialize (Hm s). destruct (m s) as [s' [b|e]]; [done|].
  cbn in Hm. by rewrite (Hh e s').
Qed.
Lemma mild_bind {B C} (m : A B) (k : B → A C) : mild m → (∀ b, mild (k b)) → mild (m ≫= k).
Proof.
  intros Hm Hk s. rewrite run_bind. specialize (Hm s). destruct (m s) as [s' [b|e]]; [|done].
  eapply only_gates_trans; [exact Hm|apply Hk].
Qed.
Lemma mild_fmap {B C} (m : A B) (f : B → C) : mild m → mild (f <$> m).
Proof. intros Hm s. specialize (Hm s). unfold fmap, eff_fmap. by destruct (m s) as [s' [b|e]]. Qed.

Lemma outside_throwIfAborted sig : outside (throwIfAborted sig).
Proof. apply outside_bind; [apply outside_get|intros s]. by destruct (_ && _). Qed.

(** Splits an operation of the machine. *)
Ltac outside_tac :=
  repeat first
    [ apply outside_throwIfAborted | apply outside_bind; [|intros ?] | apply outside_catch; [|intros ?]
    | apply outside_ret | apply outside_throw | apply outside_world | apply outside_try | case_match ].

Lemma outside_runChildProcess c a d sh t m sig : outside (runChildProcess c a d sh t m sig).
Proof. unfold runChildProcess. outside_tac. Qed.

Lemma outside_hash_paths cwd sig paths : outside (hash_paths cwd sig paths).
Proof.
  induction paths as [|p paths IH]; cbn [hash_paths]; [apply outside_ret|].
  unfold hashUntrackedPath. apply outside_bind; [apply outside_throwIfAborted|intros ?].
  apply outside_bind; [outside_tac|intros h]. apply outside_bind; [exact IH|intros ?; apply outside_ret].
Qed.

Lemma outside_capture cwd sig : outside (captureGitWorktreeSnapshot cwd sig).
Proof.
  unfold captureGitWorktreeSnapshot, hashUntrackedFiles.
  repeat first [ apply outside_throwIfAborted | apply outside_runChildProcess | apply outside_hash_paths
    | apply outside_bind; [|intros ?] | apply outside_ret | case_match ].
Qed.

Lemma mild_update f : (∀ s, only_gates s (f s)) → mild (update f).
Proof. intros Hf s. apply Hf. Qed.

Lemma only_gates_success c s : only_gates s (record_success c s).
Proof. unfold record_success. case_bool_decide; eexists _, _, _; by destruct s. Qed.

Lemma mild_run_gates cwd sig cmds : mild (run_gates cwd sig cmds).
Proof.
  induction cmds as [|c cmds IH]; cbn [run_gates].
  { apply mild_bind; [apply mild_update; intros s; by eexists _, _, _|intros ?]. apply outside_mild, outside_ret. }
  apply mild_bind; [apply outside_mild, outside_capture|intros cur].
  apply mild_bind; [apply outside_mild, outside_throwIfAborted|intros _].
  apply mild_bind; [apply outside_mild, outside_gets|intros s0].
  destruct (unchanged_failure s0 c cur) as [f|].
  { apply mild_bind; [apply mild_update; intros s; by eexists _, _, _|intros ?]. apply outside_mild, outside_gets. }
  apply mild_bind; [apply outside_mild, outside_runChildProcess|intros r].
  apply mild_bind; [apply outside_mild, outside_throwIfAborted|intros _].
  apply mild_bind; [apply outside_mild, outside_capture|intros post].
  apply mild_bind; [apply outside_mild, outside_throwIfAborted|intros _].
  destruct (gate_ok r).
  - apply mild_bind; [apply mild_update, only_gates_success|intros ?; exact IH].
  - apply mild_bind; [apply mild_update; intros s; by eexists _, _, _|intros ?]. apply outside_mild, outside_gets.
Qed.

Lemma mild_refresh cwd sig : mild (refreshAutonomousQualityGates cwd sig).
Proof.
  unfold refreshAutonomousQualityGates, runAutonomousQualityGates.
  apply mild_bind; [apply outside_mild, outside_throwIfAborted|intros _].
  apply mild_bind; [apply outside_mild, outside_gets|intros s].
  destruct (_ || _); [apply outside_mild, outside_ret|]. apply mild_fmap.
  apply mild_bind; [apply outside_mild, outside_throwIfAborted|intros _].
  destruct cwd as [[|c d]|]; try apply outside_mild, outside_ret.
  apply mild_bind; [apply outside_mild, outside_gets|intros ?; apply mild_run_gates].
Qed.

(** A decision to go on: the state it was made in, up to the gates. *)
Lemma should_spec m cwd sig now s s' d : shouldAutonomouslyContinue m cwd sig now s = (s', Ok d) →
  only_gates s.1 s'.1 ∧ (shouldContinue d = true →
    enabled s.1 = true ∧ am_stopReason m ≠ SrError ∧ am_stopReason m ≠ SrAborted ∧ autonomousLimitReason s'.1 now = None).
Proof.
  unfold shouldAutonomouslyContinue. rewrite run_bind.
  pose proof (outside_throwIfAborted sig s) as Ho. destruct (throwIfAborted sig s) as [s1 [[]|e]]; [|done].
  cbn in Ho. rewrite run_gets, Ho.
  destruct (negb (enabled s.1) || _ || _) eqn:E.
  { intros [= <- <-]. rewrite Ho. split; [apply only_gates_refl|done]. }
  rewrite run_bind. pose proof (mild_refresh cwd sig s1) as Hm. rewrite Ho in Hm.
  destruct (refreshAutonomousQualityGates cwd sig s1) as [s2 [v|e]]; [|done]. cbn in Hm.
  rewrite run_bind. pose proof (outside_throwIfAborted sig s2) as Ho2. destruct (throwIfAborted sig s2) as [s3 [[]|e]]; [|done].
  cbn in Ho2. rewrite run_gets, Ho2. intros [= <- <-]. rewrite Ho2. split; [done|].
  apply orb_false_iff in E as [[E1%negb_false_iff E2%bool_decide_eq_false]%orb_false_iff E3%bool_decide_eq_false].
  intros Hc. split_and!; [done..|].
  destruct (autonomousLimitReason s2.1 now); [|done]. exfalso. revert Hc. by destruct v as [[]|].
Qed.

(** A continuation that is returned. *)
Lemma next_spec m cwd sig now s s' r : nextAutonomousContinuation m cwd sig now s = (s', r) →
  (∃ x, r = Ok (Some x) ∧ enabled s.1 = true ∧ autonomousLimitReason s.1 now = None ∧
     only_gates (with_counts (continuationsUsed s.1 + 1) (turnsUsed s.1) (tokensUsed s.1) (startedAt s.1) s.1) s'.1) ∨
  ((∀ x, r ≠ Ok (Some x)) ∧ only_gates s.1 s'.1).
Proof.
  unfold nextAutonomousContinuation. rewrite run_bind.
  pose proof (outside_throwIfAborted sig s) as Ho. destruct (throwIfAborted sig s) as [s1 [[]|e]]; cbn in Ho;
    [|intros [= <- <-]; right; rewrite Ho; split; [done|apply only_gates_refl]].
  rewrite run_gets, Ho. destruct (enabled s.1) eqn:En; cbn [negb];
    [|intros [= <- <-]; right; rewrite Ho; split; [done|apply only_gates_refl]].
  rewrite run_bind. destruct (shouldAutonomouslyContinue m cwd sig now s1) as [s2 [d|e]] eqn:Es.
  2:{ intros [= <- <-]. right. split; [done|]. rewrite <-Ho. 
      assert (mild (shouldAutonomouslyContinue m cwd sig now)) as Hm; [|specialize (Hm s1); by rewrite Es in Hm].
      unfold shouldAutonomouslyContinue. apply mild_bind; [apply outside_mild, outside_throwIfAborted|intros _].
      apply mild_bind; [apply outside_mild, outside_gets|intros x]. destruct (_ || _); [apply outside_mild, outside_ret|].
      apply mild_bind; [apply mild_refresh|intros v].
      apply mild_bind; [apply outside_mild, outside_throwIfAborted|intros _].
      apply mild_bind; [apply outside_mild, outside_gets|intros y]. apply outside_mild, outside_ret. }
  apply should_spec in Es as [Hg Hd]. rewrite Ho in Hg, Hd.
  rewrite run_bind. pose proof (outside_throwIfAborted sig s2) as Ho2.
  destruct (throwIfAborted sig s2) as [s3 [[]|e]]; cbn in Ho2; [|intros [= <- <-]; right; by rewrite Ho2].
  destruct (shouldContinue d); cbn [negb]; [|intros [= <- <-]; right; by rewrite Ho2].
  destruct (Hd eq_refl) as (_&_&_&Hl). unfold update. rewrite run_modify, run_gets. cbn zeta. intros [= <- <-]. left.
  eexists. split_and!; [done|done| |].
  - destruct Hg as (a&f&w&Hg). rewrite Hg in Hl. exact Hl.
  - cbn. rewrite Ho2. destruct Hg as (a&f&w&->). by exists a, f, w.
Qed.

(** ** Runs *)

(** What happens to an enabled session between two switches of the mode. *)
Inductive auto_op :=
| OpNext (message : AssistantMessage) (cwd : option jsstr) (sig : bool) (now : Z)
| OpRefresh (cwd : option jsstr) (sig : bool)
| OpUsage (usage : option Usage)
| OpHostContinuation
| OpWorld (w : W).

(** The state after an operation and the continuations it returned. *)
Definition run_auto (o : auto_op) (s : AutonomousRuntimeState * W) : AutonomousRuntimeState * W * list UserMessage :=
  match o with
  | OpNext message cwd sig now =>
      let '(s', r) := nextAutonomousContinuation message cwd sig now s in
      (s', match r with Ok (Some m) => [m] | _ => [] end)
  | OpRefresh cwd sig => ((refreshAutonomousQualityGates cwd sig s).1, [])
  | OpUsage usage => ((addAutonomousUsage usage s.1, s.2), [])
  | OpHostContinuation => ((addAutonomousContinuation s.1, s.2), [])
  | OpWorld w => ((s.1, w), [])
  end.

Fixpoint run_autos (ops : list auto_op) (s : AutonomousRuntimeState * W) : AutonomousRuntimeState * W * list UserMessage :=
  match ops with
  | [] => (s, [])
  | o :: ops =>
      let '(s1, m1) := run_auto o s in
      let '(s2, m2) := run_autos ops s1 in (s2, m1 ++ m2)
  end.

Lemma run_auto_step o s s' ms : run_auto o s = (s', ms) →
  limits s'.1 = limits s.1 ∧ continuationsUsed s.1 + Z.of_nat (length ms) <= continuationsUsed s'.1 ∧
  (ms ≠ [] → length ms = 1%nat ∧ autonomousLimitReason s.1 (match o with OpNext _ _ _ now => now | _ => 0 end) = None).
Proof.
  destruct o as [m cwd sig now|cwd sig|u| |w]; cbn [run_auto].
  - destruct (nextAutonomousContinuation m cwd sig now s) as [s1 r] eqn:E. intros [= <- <-].
    apply next_spec in E as [(x&->&_&Hl&a&f&w&->)|[Hr (a&f&w&->)]].
    + cbn. split_and!; [done|lia|by intros _].
    + assert ((match r with Ok (Some m) => [m] | _ => [] end) = []) as -> by (destruct r as [[x|]|]; try done; by destruct (Hr x)).
      cbn. split_and!; [done|lia|done].
  - intros [= <- <-]. destruct (mild_refresh cwd sig s) as (a&f&w&->). cbn. split_and!; [done|lia|done].
  - intros [= <- <-]. unfold addAutonomousUsage. destruct (enabled s.1); cbn; split_and!; try done; lia.
  - intros [= <- <-]. unfold addAutonomousContinuation. destruct (enabled s.1); cbn; split_and!; try done; lia.
  - intros [= <- <-]. cbn. split_and!; [done|lia|done].
Qed.

Lemma run_autos_bound ops : ∀ s, Z.of_nat (length (run_autos ops s).2) <=
  Z.max 0 (maxContinuations (limits s.1) - continuationsUsed s.1).
Proof.
  induction ops as [|o ops IH]; intros s; [cbn; lia|]. cbn [run_autos].
  destruct (run_auto o s) as [s1 m1] eqn:E. specialize (IH s1). destruct (run_autos ops s1) as [s2 m2]. cbn [snd] in *.
  apply run_auto_step in E as (Hl&Hc&Hm). rewrite Hl in IH. rewrite length_app.
  destruct m1 as [|x m1]; [cbn [length] in *; lia|]. destruct (Hm ltac:(done)) as [H1 Hlim].
  assert (continuationsUsed s.1 < maxContinuations (limits s.1)); [|lia].
  unfold autonomousLimitReason in Hlim. destruct (Z.leb_spec (maxContinuations (limits s.1)) (continuationsUsed s.1)); [done|lia].
Qed.

(** ** The verdict of the gates *)

(** The last failure is the last attempt recorded for its command. *)
Definition attempts_recorded (s : AutonomousRuntimeState) : Prop :=
  ∀ f, lastGateFailure s = Some f → jm_get (gateAttempts s) (gf_command f) = Some (gf_attempt f).

Definition attempts_of (s : AutonomousRuntimeState) (c : jsstr) : Z := default 0 (jm_get (gateAttempts s) c).

(** A refresh that stopped at the command [c] with a failure. *)
Record stopped_at (c : jsstr) (s s' : AutonomousRuntimeState) (v : AutonomousGateResult) : Prop := {
  sa_attempts : jm_get (gateAttempts s') c = Some (attempts_of s c + 1);
  sa_failure : ∃ f, lastGateFailure s' = Some f ∧ gf_command f = c ∧ gf_attempt f = attempts_of s c + 1;
  sa_verdict : v = if maxRetries (gates s) <? attempts_of s c + 1 then RetryExhausted else Failed;
  sa_others : ∀ c', c' ≠ c → jm_get (gateAttempts s') c' = jm_get (gateAttempts s) c'
}.

Lemma stopped_with c s text out w :
  let s' := with_failure (jm_set (gateAttempts s) c (attempts_of s c + 1))
    (Some (MkGateFailure c (attempts_of s c + 1) text out)) w s in
  stopped_at c s s' (verdict_of c s').
Proof.
  intros s'. split.
  - unfold s'. cbn [gateAttempts with_failure]. by rewrite jm_get_set_eq.
  - eexists. split_and!; [reflexivity..].
  - unfold verdict_of, gate_verdict, s'. cbn [gateAttempts gates with_failure]. by rewrite jm_get_set_eq.
  - intros c' Hc. unfold s'. cbn [gateAttempts with_failure]. by rewrite jm_get_set_ne.
Qed.

Lemma stopped_repeat c s f : attempts_recorded s → lastGateFailure s = Some f → gf_command f = c →
  stopped_at c s (repeat_failure c f s) (verdict_of c (repeat_failure c f s)).
Proof.
  intros Hrec Hf Hc. unfold repeat_failure. specialize (Hrec f Hf). rewrite Hc in Hrec |- *.
  assert (default (gf_attempt f) (jm_get (gateAttempts s) c) = attempts_of s c) as ->
    by (unfold attempts_of; by rewrite Hrec).
  apply stopped_with.
Qed.

Lemma stopped_record c s r post : stopped_at c s (record_failure c r post s) (verdict_of c (record_failure c r post s)).
Proof. apply stopped_with. Qed.

Lemma run_gates_cons cwd sig c cmds s s' v : run_gates cwd sig (c :: cmds) s = (s', Ok v) → attempts_recorded s.1 →
  stopped_at c s.1 s'.1 v ∨
  ∃ w, run_gates cwd sig cmds (record_success c s.1, w) = (s', Ok v).
Proof.
  cbn [run_gates]. intros E Hrec. rewrite run_bind in E.
  pose proof (outside_capture cwd sig s) as H1. destruct (captureGitWorktreeSnapshot cwd sig s) as [s1 [cur|e]]; [|done]. cbn in H1.
  rewrite run_bind in E. pose proof (outside_throwIfAborted sig s1) as H2. destruct (throwIfAborted sig s1) as [s2 [[]|e]]; [|done].
  cbn in H2. rewrite run_gets, H2, H1 in E.
  destruct (unchanged_failure s.1 c cur) as [f|] eqn:Eu.
  - left. unfold update in E. rewrite run_modify in E. injection E as <- <-. cbn [fst]. rewrite H2, H1.
    unfold unchanged_failure in Eu. destruct (lastGateFailure s.1) as [f'|] eqn:Ef; [|done].
    destruct (bool_decide (gf_command f' = c)) eqn:Ec; [|done]. apply bool_decide_eq_true in Ec.
    destruct (gitWorktreeSnapshotsEqual _ _); [|done]. injection Eu as ->. by apply stopped_repeat.
  - rewrite run_bind in E. pose proof (outside_runChildProcess c [] cwd true (gateTimeoutMs (gates s.1)) MAX_GATE_OUTPUT_CHARS sig s2) as H3.
    destruct (runChildProcess _ _ _ _ _ _ _ s2) as [s3 [r|e]]; [|done]. cbn in H3.
    rewrite run_bind in E. pose proof (outside_throwIfAborted sig s3) as H4. destruct (throwIfAborted sig s3) as [s4 [[]|e]]; [|done]. cbn in H4.
    rewrite run_bind in E. pose proof (outside_capture cwd sig s4) as H5. destruct (captureGitWorktreeSnapshot cwd sig s4) as [s5 [post|e]]; [|done]. cbn in H5.
    rewrite run_bind in E. pose proof (outside_throwIfAborted sig s5) as H6. destruct (throwIfAborted sig s5) as [s6 [[]|e]]; [|done]. cbn in H6.
    assert (s6.1 = s.1) as Hs by congruence. destruct (gate_ok r).
    + right. unfold update in E. rewrite run_modify, Hs in E. by exists s6.2.
    + left. unfold update in E. rewrite run_modify in E. injection E as <- <-. cbn [fst]. rewrite Hs. apply stopped_record.
Qed.

Lemma success_recorded c s : attempts_recorded s → attempts_recorded (record_success c s) ∧
  jm_get (gateAttempts (record_success c s)) c = Some 0 ∧
  (∀ c', c' ≠ c → jm_get (gateAttempts (record_success c s)) c' = jm_get (gateAttempts s) c') ∧
  gates (record_success c s) = gates s.
Proof.
  intros Hrec. unfold record_success. cbn. split_and!.
  - intros f. case_bool_decide as Hc; cbn; [done|]. intros Hf. rewrite Hf in Hc. cbn in Hc.
    rewrite jm_get_set_ne by congruence. by apply Hrec.
  - case_bool_decide; cbn; by rewrite jm_get_set_eq.
  - intros c' Hne. case_bool_decide; cbn; by rewrite jm_get_set_ne.
  - by case_bool_decide.
Qed.

Lemma run_gates_spec cwd sig cmds : ∀ s s' v, NoDup cmds → attempts_recorded s.1 →
  run_gates cwd sig cmds s = (s', Ok v) →
  (v = Passed ∧ lastGateFailure s'.1 = None ∧ ∀ c, c ∈ cmds → jm_get (gateAttempts s'.1) c = Some 0) ∨
  ∃ before c after, cmds = before ++ c :: after ∧ (∀ c', c' ∈ before → jm_get (gateAttempts s'.1) c' = Some 0) ∧
    jm_get (gateAttempts s'.1) c = Some (attempts_of s.1 c + 1) ∧
    (∃ f, lastGateFailure s'.1 = Some f ∧ gf_command f = c ∧ gf_attempt f = attempts_of s.1 c + 1) ∧
    v = (if maxRetries (gates s.1) <? attempts_of s.1 c + 1 then RetryExhausted else Failed).
Proof.
  assert (∀ cmds s s' v c, c ∉ cmds → attempts_recorded s.1 → run_gates cwd sig cmds s = (s', Ok v) →
    jm_get (gateAttempts s'.1) c = jm_get (gateAttempts s.1) c) as Hout.
  { clear. intros cmds. induction cmds as [|x cmds IH]; intros s s' v c Hc Hrec E.
    - cbn in E. by injection E as <- <-.
    - apply not_elem_of_cons in Hc as [Hne Hc]. apply run_gates_cons in E as [Hs|[w E]]; [by apply (sa_others _ _ _ _ Hs)| |done].
      destruct (success_recorded x s.1 Hrec) as (Hrec'&_&Hoth&_). rewrite (IH (record_success x s.1, w) _ _ _ Hc Hrec' E). cbn. by apply Hoth. }
  induction cmds as [|x cmds IH]; intros s s' v Hnd Hrec E.
  - cbn in E. injection E as <- <-. left. split_and!; [done|done|]. by intros c ?%not_elem_of_nil.
  - apply NoDup_cons in Hnd as [Hx Hnd]. apply run_gates_cons in E as [[A1 A2 A3 A4]|[w E]]; [| |done].
    + right. exists [], x, cmds. split_and!; [done|by intros ? ?%not_elem_of_nil|done..].
    + destruct (success_recorded x s.1 Hrec) as (Hrec'&Hz&Hoth&Hg).
      pose proof (Hout _ (record_success x s.1, w) _ _ x Hx Hrec' E) as Hx'. cbn in Hx'. rewrite Hz in Hx'.
      destruct (IH (record_success x s.1, w) _ _ Hnd Hrec' E) as [(->&?&Hall)|(before&c&after&->&Hb&Hc&Hf&Hv)].
      * left. split_and!; [done|done|]. intros c [->|Hc]%elem_of_cons; [done|by apply Hall].
      * right. assert (c ≠ x) as Hne by (intros ->; apply Hx; apply elem_of_app; right; by left).
        assert (attempts_of (record_success x s.1) c = attempts_of s.1 c) as Hat by (unfold attempts_of; by rewrite Hoth).
        cbn in Hc, Hf, Hv. rewrite Hat in Hc, Hf, Hv. rewrite Hg in Hv.
        exists (x :: before), c, after. split_and!; [done| |done..]. intros c' [->|Hc']%elem_of_cons; [done|by apply Hb].
Qed.

(** *** The record of attempts is kept *)

Definition keeps_recorded {B} (m : A B) : Prop := ∀ s, attempts_recorded s.1 → attempts_recorded (m s).1.1.

Lemma keeps_recorded_outside {B} (m : A B) : outside m → keeps_recorded m.
Proof. intros Hm s Hs. by rewrite (Hm s). Qed.
Lemma keeps_recorded_bind {B C} (m : A B) (k : B → A C) :
  keeps_recorded m → (∀ b, keeps_recorded (k b)) → keeps_recorded (m ≫= k).
Proof.
  intros Hm Hk s Hs. rewrite run_bind. specialize (Hm s Hs). destruct (m s) as [s' [b|e]]; [by apply Hk|done].
Qed.
Lemma keeps_recorded_fmap {B C} (m : A B) (f : B → C) : keeps_recorded m → keeps_recorded (f <$> m).
Proof. intros Hm s Hs. specialize (Hm s Hs). unfold fmap, eff_fmap. by destruct (m s) as [s' [b|e]]. Qed.

Lemma stopped_recorded c s s' v : stopped_at c s s' v → attempts_recorded s'.
Proof. intros [A1 (f&A2&A3&A4) _ _] f' Hf'. rewrite A2 in Hf'. injection Hf' as <-. by rewrite A3, A4, A1. Qed.

Lemma keeps_recorded_gates cwd sig cmds : keeps_recorded (run_gates cwd sig cmds).
Proof.
  induction cmds as [|c cmds IH]; cbn [run_gates]; intros s Hs; [by intros f|].
  rewrite run_bind. pose proof (outside_capture cwd sig s) as H1.
  destruct (captureGitWorktreeSnapshot cwd sig s) as [s1 [cur|e]]; cbn in H1; [|cbn; by rewrite H1].
  rewrite run_bind. pose proof (outside_throwIfAborted sig s1) as H2.
  destruct (throwIfAborted sig s1) as [s2 [[]|e]]; cbn in H2; [|cbn; by rewrite H2, H1].
  rewrite run_gets, H2, H1. destruct (unchanged_failure s.1 c cur) as [f|] eqn:Eu.
  - unfold update. rewrite run_modify. change (attempts_recorded (repeat_failure c f s2.1)). rewrite H2, H1.
    unfold unchanged_failure in Eu. destruct (lastGateFailure s.1) as [f'|] eqn:Ef; [|done].
    destruct (bool_decide (gf_command f' = c)) eqn:Ec; [|done]. apply bool_decide_eq_true in Ec.
    destruct (gitWorktreeSnapshotsEqual _ _); [|done]. injection Eu as ->. by eapply stopped_recorded, stopped_repeat.
  - assert (keeps_recorded (r ← runChildProcess c [] cwd true (gateTimeoutMs (gates s.1)) MAX_GATE_OUTPUT_CHARS sig;
      throwIfAborted sig;; post ← captureGitWorktreeSnapshot cwd sig; throwIfAborted sig;;
      if gate_ok r then update (record_success c);; run_gates cwd sig cmds
      else update (record_failure c r post);; egets (λ s, verdict_of c s.1))) as Hk; [|apply Hk; by rewrite H2, H1].
    apply keeps_recorded_bind; [apply keeps_recorded_outside, outside_runChildProcess|intros r].
    apply keeps_recorded_bind; [apply keeps_recorded_outside, outside_throwIfAborted|intros _].
    apply keeps_recorded_bind; [apply keeps_recorded_outside, outside_capture|intros post].
    apply keeps_recorded_bind; [apply keeps_recorded_outside, outside_throwIfAborted|intros _].
    destruct (gate_ok r); (apply keeps_recorded_bind; [|intros []]).
    + intros x Hx. by apply success_recorded.
    + exact IH.
    + intros x Hx. by eapply stopped_recorded, stopped_record.
    + by apply keeps_recorded_outside.
Qed.

Lemma keeps_recorded_refresh cwd sig : keeps_recorded (refreshAutonomousQualityGates cwd sig).
Proof.
  unfold refreshAutonomousQualityGates, runAutonomousQualityGates.
  apply keeps_recorded_bind; [apply keeps_recorded_outside, outside_throwIfAborted|intros _].
  apply keeps_recorded_bind; [by apply keeps_recorded_outside|intros s].
  destruct (_ || _); [by apply keeps_recorded_outside|]. apply keeps_recorded_fmap.
  apply keeps_recorded_bind; [apply keeps_recorded_outside, outside_throwIfAborted|intros _].
  destruct cwd as [[|c d]|]; try by apply keeps_recorded_outside.
  apply keeps_recorded_bind; [by apply keeps_recorded_outside|intros ?; apply keeps_recorded_gates].
Qed.

Lemma keeps_recorded_next m cwd sig now : keeps_recorded (nextAutonomousContinuation m cwd sig now).
Proof.
  unfold nextAutonomousContinuation, shouldAutonomouslyContinue.
  assert (keeps_recorded (throwIfAborted sig)) as Ht by apply keeps_recorded_outside, outside_throwIfAborted.
  apply keeps_recorded_bind; [done|intros _]. apply keeps_recorded_bind; [by apply keeps_recorded_outside|intros s].
  destruct (negb _); [by apply keeps_recorded_outside|]. apply keeps_recorded_bind.
  - apply keeps_recorded_bind; [done|intros _]. apply keeps_recorded_bind; [by apply keeps_recorded_outside|intros x].
    destruct (_ || _); [by apply keeps_recorded_outside|].
    apply keeps_recorded_bind; [apply keeps_recorded_refresh|intros v].
    apply keeps_recorded_bind; [done|intros _].
    apply keeps_recorded_bind; [by apply keeps_recorded_outside|intros y; by apply keeps_recorded_outside].
  - intros d. apply keeps_recorded_bind; [done|intros _]. destruct (negb _); [by apply keeps_recorded_outside|].
    apply keeps_recorded_bind; [|intros _]. { by intros x Hx. }
    apply keeps_recorded_bind; [by apply keeps_recorded_outside|intros x; by apply keeps_recorded_outside].
Qed.
End auto.

Lemma created_recorded config now : attempts_recorded (createAutonomousRuntimeState config now).
Proof. done. Qed.
Lemma enabled_recorded on now s : attempts_recorded (setAutonomousEnabled on now s).
Proof. done. Qed.


(** The verdict of a refresh of the gates.  It is [passed] when every
    command succeeded, and then no failure is remembered and all counts are
    zero.  Otherwise it stopped at the first command that failed: its failures
    since it last succeeded are counted, one more than before, also when it was
    not run again because nothing changed, and the verdict is [retry_exhausted]
    exactly when the count exceeds [maxRetries]. *)
Theorem gates_refresh {W} `{Machine W} c0 cwd sig s s' v :
  attempts_recorded s.1 → enabled s.1 = true → commands (gates s.1) ≠ [] → NoDup (commands (gates s.1)) →
  refreshAutonomousQualityGates (Some (c0 :: cwd)) sig s = (s' : AutonomousRuntimeState * W, Ok v) →
  (v = Some Passed ∧ lastGateFailure s'.1 = None ∧
     ∀ c, c ∈ commands (gates s.1) → jm_get (gateAttempts s'.1) c = Some 0) ∨
  ∃ before c after, commands (gates s.1) = before ++ c :: after ∧
    (∀ c', c' ∈ before → jm_get (gateAttempts s'.1) c' = Some 0) ∧
    jm_get (gateAttempts s'.1) c = Some (attempts_of s.1 c + 1) ∧
    (∃ f, lastGateFailure s'.1 = Some f ∧ gf_command f = c ∧ gf_attempt f = attempts_of s.1 c + 1) ∧
    v = Some (if maxRetries (gates s.1) <? attempts_of s.1 c + 1 then RetryExhausted else Failed).
Proof.
  intros Hrec Hen Hne Hnd. unfold refreshAutonomousQualityGates, runAutonomousQualityGates. rewrite run_bind.
  pose proof (outside_throwIfAborted sig s) as H1. destruct (throwIfAborted sig s) as [s1 [[]|e]]; [|done]. cbn in H1.
  rewrite run_gets, H1, Hen, bool_decide_false by done. cbn [negb orb]. unfold fmap, eff_fmap.
  rewrite run_bind. pose proof (outside_throwIfAborted sig s1) as H2. destruct (throwIfAborted sig s1) as [s2 [[]|e]]; [|done].
  cbn in H2. rewrite run_gets, H2, H1.
  destruct (run_gates (c0 :: cwd) sig (commands (gates s.1)) s2) as [s3 [v'|e]] eqn:E; [|done]. intros [= <- <-].
  assert (s2.1 = s.1) as Hs by congruence. rewrite <-Hs in Hrec, Hnd, E |- *.
  apply run_gates_spec in E; [|done..]. destruct E as [(->&?&?)|(b&c&a&?&?&?&?&->)]; [by left|right].
  by exists b, c, a.
Qed.

(** *** A machine whose commands exit with given codes, and without [git] *)

#[export] Instance demo_machine : Machine (list Z) := {|
  spawn c _ _ _ _ w :=
    if bool_decide (c = js "git") then (w, ([], Ended (Some 1) None)) else
    match w with
    | [] => (w, ([], Ended (Some 0) None))
    | n :: w => (w, ([Stderr (js "e")], Ended (Some n) None))
    end;
  lstat _ w := (w, Throw (js "ENOENT"));
  readlink _ w := (w, Throw (js "ENOENT"));
  readFile _ w := (w, Throw (js "ENOENT"));
  aborted _ := false;
  path_resolve _ p := p;
  sha256 _ := []
|}.

Definition demo_autonomous : AutonomousRuntimeState :=
  createAutonomousRuntimeState (Some (MkConfig (Some true) None None None None None
    (Some (MkGateConfig (Some [js "build"; js "test"]) (Some 1) None)))) 0.

Definition after_refreshes (n : nat) (w : list Z) : AutonomousRuntimeState * list Z :=
  Nat.iter n (λ s, (refreshAutonomousQualityGates (Some (js "/w")) true s).1) (demo_autonomous, w).

Lemma gates_refresh_witness :
  (refreshAutonomousQualityGates (Some (js "/w")) true (after_refreshes 1 [0; 1; 0; 1])).2 = Ok (Some RetryExhausted) ∧
  ∃ before c after, [js "build"; js "test"] = before ++ c :: after.
Proof.
  set (s := after_refreshes 1 [0; 1; 0; 1]). split; [by vm_compute|].
  destruct (gates_refresh 47 [119] true s (refreshAutonomousQualityGates (Some (js "/w")) true s).1 (Some RetryExhausted))
    as [(?&_)|(b&c&a&Hc&_)].
  - apply (keeps_recorded_refresh (Some (js "/w")) true (demo_autonomous, [0; 1; 0; 1])). done.
  - reflexivity.
  - discriminate.
  - apply (bool_decide_unpack _). by vm_compute.
  - vm_compute. reflexivity.
  - discriminate.
  - exists b, c, a. exact Hc.
Defined.
