(* ===== verification/Continuation.v ===== *)
(** * How a run goes on

    Models [_getContinuationMessages] of [AgentSession]
    ([core/agent-session.ts]), the hook that the agent loop calls when a run
    would end, the snapshots it takes back when other input arrives meanwhile,
    and the [/autonomous] command.  It puts the goal ([GoalSession]) and the
    autonomous mode ([Autonomous]) together; both act on one world.

    [continuation_counted]: a continuation is counted exactly when it is
    delivered. *)

From S2P Require Import Prelude.
From S2P Require Import Eff.
From S2P Require Import JsString.
From S2P Require Import Messages.
From S2P Require Import SlashCommands.
From S2P Require Import Autonomous.
From S2P Require Import AutonomousSpec.
From S2P Require Import Goals.
From S2P Require Import SessionManager.
From S2P Require Import SessionInvariant.
From S2P Require Import GoalSession.
From S2P Require Import GoalSpec.
From S2P Require Import GoalProps.

(** ** State *)

(** What else the hook reads of the session. *)
Class ContinuationHost (W : Type) := {
  queuedActionCount : W → Z;
  (** [_sessionInputArrivalEpoch] *)
  arrivalEpoch : W → Z;
  (** [_autonomousContinuationSuppressionDepth > 0], and whether one of the new
      messages of the run is in [_autonomousContinuationSuppressedMessages] *)
  suppressed : W → bool;
  suppressedMessage : list nat → W → bool;
  (** [_clearQueuedAutonomousContinuations()] and the two announcements of a
      status message with its entry in the session *)
  clearQueuedAutonomousContinuations : W → W;
  emitMessage : CustomMessage → W → W
}.

Record Session (W : Type) := MkSession { cs_goals : GoalSession W; cs_auto : AutonomousRuntimeState }.
Arguments MkSession {W}.
Arguments cs_goals {W}. Arguments cs_auto {W}.

Record AutonomousRuntimeSnapshot := MkRuntimeSnapshot {
  rs_continuationsUsed : Z;
  rs_gateAttempts : list (jsstr * Z);
  rs_lastGateFailure : option GateFailure;
  rs_lastGateFailureSnapshot : option GitWorktreeSnapshot
}.

Inductive AutonomousSlashCommand := AutoStatus | AutoOn | AutoOff.

Section methods.
Context {W : Type} `{GoalHost W} `{Machine W} `{ContinuationHost W} `{Platform}.
#[local] Abbreviation C := (eff (Session W) jsstr).

Definition in_goals {A} (m : eff (GoalSession W) jsstr A) : C A := λ s,
  let '(g, r) := m (cs_goals s) in (MkSession g (cs_auto s), r).
Definition in_auto {A} (m : eff (AutonomousRuntimeState * W) jsstr A) : C A := λ s,
  let '((a, w), r) := m (cs_auto s, gs_host (cs_goals s)) in (MkSession (set_host w (cs_goals s)) a, r).
Definition host_of (s : Session W) : W := gs_host (cs_goals s).

(** ** Snapshots *)

Definition _snapshotAutonomousRuntimeState (s : AutonomousRuntimeState) : AutonomousRuntimeSnapshot :=
  MkRuntimeSnapshot (Autonomous.continuationsUsed s) (gateAttempts s) (lastGateFailure s) (lastGateFailureSnapshot s).

Definition _restoreAutonomousRuntimeSnapshot (snapshot : AutonomousRuntimeSnapshot) (s : AutonomousRuntimeState)
    : AutonomousRuntimeState :=
  with_failure (rs_gateAttempts snapshot) (rs_lastGateFailure snapshot) (rs_lastGateFailureSnapshot snapshot)
    (with_counts (rs_continuationsUsed snapshot) (turnsUsed s) (Autonomous.tokensUsed s) (startedAt s) s).

(** ** The hook *)

Definition _getContinuationMessages (message : AssistantMessage) (newMessages : list nat) (tools : list jsstr)
    (cwd : option jsstr) (sig : bool) : C (list AgentMessage * list jsstr) :=
  s ← eget;
  if 0 <? queuedActionCount (host_of s) then mret ([], tools) else
  let epoch := arrivalEpoch (host_of s) in
  let goalSnapshot := gs_goal (cs_goals s) in
  let goalAccountingStartedAt := gs_startedAt (cs_goals s) in
  r ← in_goals (_getGoalContinuationMessages message tools (λ w, sig && aborted w));
  s ← eget;
  let goalMessages := fst r in
  if negb (bool_decide (length goalMessages = 0%nat)) || (sig && aborted (host_of s)) then
    if negb (bool_decide (length goalMessages = 0%nat)) && negb (arrivalEpoch (host_of s) =? epoch) then
      in_goals (_setGoalState goalSnapshot);;
      in_goals (emodify (set_startedAt goalAccountingStartedAt));;
      mret ([], snd r)
    else mret (MCustom <$> goalMessages, snd r)
  else
  if suppressed (host_of s) || suppressedMessage newMessages (host_of s) then mret ([], snd r) else
  let autonomousSnapshot := _snapshotAutonomousRuntimeState (cs_auto s) in
  now ← in_goals date_now;
  autonomousMessage ← in_auto (nextAutonomousContinuation message cwd sig now);
  s ← eget;
  match autonomousMessage with
  | Some m =>
      if negb (arrivalEpoch (host_of s) =? epoch) then
        emodify (λ s, MkSession (cs_goals s) (_restoreAutonomousRuntimeSnapshot autonomousSnapshot (cs_auto s)));;
        mret ([], snd r)
      else mret ([MUser m], snd r)
  | None => mret ([], snd r)
  end.

(** ** [/autonomous] *)

Definition autonomousUsage : jsstr := js "Usage: /autonomous [on|off|status]".

Definition _parseAutonomousSlashCommand (text : jsstr) : result jsstr (option AutonomousSlashCommand) :=
  match parseSessionSlashCommand text with
  | Some command =>
      if negb (bool_decide (sc_name command = js "autonomous")) then Ok None else
      let rest := lower <$> sc_args command in
      if bool_decide (rest = []) || bool_decide (rest = js "status") then Ok (Some AutoStatus) else
      if bool_decide (rest ∈ js <$> ["on"; "enable"; "enabled"]%string) then Ok (Some AutoOn) else
      if bool_decide (rest ∈ js <$> ["off"; "disable"; "disabled"]%string) then Ok (Some AutoOff) else
      Throw autonomousUsage
  | None => Ok None
  end.

Definition _formatAutonomousStatus (s : AutonomousRuntimeState) : jsstr :=
  js "Autonomous mode: " ++ (if enabled s then js "on" else js "off") ++ js ". Continuations: " ++
  js_of_Z (Autonomous.continuationsUsed s) ++ js "/" ++ js_of_Z (maxContinuations (limits s)) ++ js ". Turns: " ++
  js_of_Z (turnsUsed s) ++ js "/" ++ js_of_Z (maxTurns (limits s)) ++ js ". Tokens: " ++
  js_of_Z (Autonomous.tokensUsed s) ++ js "/" ++ js_of_Z (maxTokens (limits s)) ++ js ".".

(** The details of the message, the status as an object, are only displayed. *)
Definition _emitAutonomousStatus : C unit :=
  s ← eget;
  now ← in_goals date_now;
  let message := MkCustomMessage (js "autonomous_status") (CText (_formatAutonomousStatus (cs_auto s))) true None now in
  in_goals (in_session (appendCustomMessageEntry (cm_customType message) (cm_content message) (cm_display message) None));;
  in_goals (host_do (emitMessage message)).

Definition _handleAutonomousSlashCommand (text : jsstr) : C bool :=
  command ← elift (_parseAutonomousSlashCommand text);
  match command with
  | None => mret false
  | Some AutoOn =>
      now ← in_goals date_now;
      emodify (λ s, MkSession (cs_goals s) (setAutonomousEnabled true now (cs_auto s)));;
      _emitAutonomousStatus;; mret true
  | Some AutoOff =>
      emodify (λ s, MkSession (cs_goals s) (setAutonomousEnabled false 0 (cs_auto s)));;
      in_goals (host_do clearQueuedAutonomousContinuations);;
      _emitAutonomousStatus;; mret true
  | Some AutoStatus => _emitAutonomousStatus;; mret true
  end.
End methods.

(** ** What is counted *)

Section counts.
Context {W : Type} `{GoalHost W} `{UuidLaws}.

(** A property of the goal as a property of the state. *)
Definition At (P : GoalState → Prop) (s : GoalSession W) : Prop := P (gs_goal s).

#[local] Abbreviation used := Goals.continuationsUsed.

Lemma at_calm {A} P (m : eff (GoalSession W) jsstr A) : calm m → hoare (At P) m (λ _, At P) (λ _, At P).
Proof. intros Hm s Hs. destruct (Hm s) as (Hg&_). unfold At in *. destruct (m s) as [s' [a|e]]; cbn in Hg; by rewrite Hg. Qed.

Lemma at_set P next : hoare P (_setGoalState next)
  (λ _, At (λ g, ∃ t, g = normalizeGoalState (with_updatedAt t next)))
  (λ _, At (λ g, ∃ t, g = normalizeGoalState (with_updatedAt t next))).
Proof.
  intros s _. destruct (setGoalState_spec next s) as [Hg _ _ _ _ _ _].
  by destruct (_setGoalState next s) as [s' [[]|e]].
Qed.

Lemma at_clock g : hoare (At (eq g)) _goalWithAccountedWallClock
  (λ g' s, gs_goal s = g ∧ used g' = used g ∧ status g' = status g) (λ _ _, False).
Proof.
  intros s Hg. unfold At in Hg. subst g. unfold _goalWithAccountedWallClock, _goalWithCurrentWallClock, mbind, eff_bind.
  cbn [date_now in_session now_ms eget]. unfold ewhen. case_bool_decide; cbn; by case_match.
Qed.

(** The goal after an error: the count stays, and a goal that was at work failed. *)
Definition failed (g g' : GoalState) : Prop :=
  used g' = used g ∧ (has_objective g = true → status g = GActive → status g' = GError).

Lemma at_finishError e g : goal_ok g →
  hoare (At (eq g)) (_finishGoalWithError e) (λ _, At (failed g)) (λ _, At (failed g)).
Proof.
  intros Hok. unfold _finishGoalWithError.
  apply (hoare_bind _ _ _ (λ a, At (λ g', g' = g ∧ a = g))); [intros s Hs; by unfold At in *|].
  intros a. destruct (negb (has_objective a) || _) eqn:E.
  { intros s [Hs ->]. unfold At. cbn. rewrite Hs. split; [done|]. intros Ho Ha. by rewrite Ho, bool_decide_true in E. }
  eapply hoare_bind; [eapply hoare_conseq; [apply (at_clock g)|intros s [Hs _]; exact (eq_sym Hs)|intros x s Hx; exact Hx|done]|].
  intros x. intros s (Hs&Hu&Hst). pose proof (at_set (λ _, True) (with_status false GError (Some e) (Some e) x) s I) as Hset.
  destruct (ok_counts _ Hok) as (_&_&Hc).
  assert (∀ g', (∃ t, g' = normalizeGoalState (with_updatedAt t (with_status false GError (Some e) (Some e) x))) → failed g g') as Hf.
  { intros g' [t ->]. split; [|done]. cbn. rewrite Hu. lia. }
  destruct (_setGoalState _ s) as [s' [[]|y]]; apply Hf, Hset.
Qed.

Lemma at_stopTerminal m g : goal_ok g → hoare (At (eq g)) (_stopGoalContinuationForTerminalMessage m)
  (λ b, At (λ g', if b then used g' = used g else g = g')) (λ _ _, False).
Proof.
  intros Hok. unfold _stopGoalContinuationForTerminalMessage. destruct (is_terminal m); cbn [negb];
    [|by intros s Hs].
  eapply (hoare_bind _ _ _ (λ _, At (λ g', used g' = used g))); [|by intros [] s Hs].
  apply (hoare_catch _ _ _ _ _ (λ _, At (λ g', used g' = used g))); [|by intros e s Hs].
  unfold _finishGoalForTerminalAssistantMessage.
  apply (hoare_bind _ _ _ (λ _, At (eq g))); [by intros s Hs|]. intros a.
  assert (∀ s, At (eq g) s → At (λ g', used g' = used g) s) as Hw by (intros s; unfold At; by intros <-).
  case_bool_decide; cbn [negb]; [|intros s; apply Hw].
  destruct (am_stopReason m); try (intros s; apply Hw).
  apply (hoare_bind _ _ _ (λ _, At (eq g))); [by intros s Hs|]. intros [].
  - intros s Hs. by apply Hw.
  - eapply hoare_conseq; [by apply at_finishError|done|intros ? s [Hu _]; exact Hu..].
Qed.

(** A prompt to go on is returned exactly when it was counted; a goal that
    failed on the way keeps its count or has the prompt counted that it could not send. *)
Definition goal_counted (g : GoalState) (ms : list CustomMessage) (g' : GoalState) : Prop :=
  (ms = [] ∧ (used g' = used g ∨ status g' = GError)) ∨ (∃ x, ms = [x] ∧ status g = GActive ∧ used g' = used g + 1).

Lemma getGoalContinuation_counts m tools ab g : goal_ok g →
  hoare (At (eq g)) (_getGoalContinuationMessages m tools ab) (λ r, At (goal_counted g r.1)) (λ _ _, False).
Proof.
  intros Hok. unfold _getGoalContinuationMessages. destruct (ok_counts _ Hok) as (_&_&Hc).
  eapply hoare_bind; [by apply at_stopTerminal|]. intros []; [by intros s Hs; left; split; [|left]|].
  assert (∀ s, At (eq g) s → At (goal_counted g []) s) as Hw by (intros s; unfold At; intros <-; left; auto).
  apply (hoare_bind _ _ _ (λ a s, s = a ∧ gs_goal a = g)); [by intros s Hs|]. intros a.
  destruct (ab (gs_host a) || negb (bool_decide (status (gs_goal a) = GActive)) || _) eqn:E; [intros s [-> Hs]; apply Hw; by symmetry|].
  destruct (hasUnsettledRlmQuiescenceWork _); [intros s [-> Hs]; apply Hw; by symmetry|].
  apply (hoare_bind _ _ _ (λ _ s, gs_goal s = g ∧ has_objective g = true ∧ status g = GActive)).
  { intros s [-> Hs]. apply orb_false_iff in E as [[_ E1%negb_false_iff%bool_decide_eq_true]%orb_false_iff E2%negb_false_iff].
    rewrite Hs in E1, E2. by split_and!. }
  intros _.
  (* the goal when an exception reaches the handler: as before, or counted *)
  set (Mid := λ g' : GoalState, goal_ok g' ∧ has_objective g' = true ∧ status g' = GActive).
  apply (hoare_catch _ _ _ _ _ (λ _, At Mid)).
  - eapply (hoare_bind _ _ _ (λ _, At (λ g', g' = g ∧ has_objective g = true ∧ status g = GActive))).
    { eapply hoare_conseq; [apply (at_calm (λ g', g' = g ∧ has_objective g = true ∧ status g = GActive)), calm_ensure|done|done|].
      intros e s (E1&E2&E3). unfold Mid, At. rewrite E1. by split_and!. }
    intros tools'. apply (hoare_bind _ _ _ (λ a, At (λ g', a = g ∧ has_objective g = true ∧ status g = GActive)));
      [by intros s Hs|]. intros b.
    set (Counted := λ g' : GoalState, status g = GActive ∧ used g' = used g + 1 ∧ Mid g').
    assert (∀ g', has_objective g = true ∧ status g = GActive →
      (∃ t, g' = normalizeGoalState (with_updatedAt t (count_continuation g))) → Counted g') as Hcnt.
    { intros g' [Ho Ha] [t ->]. split; [done|]. split; [cbn; lia|]. split; [|by split].
      destruct (good_continuations emptyGoalState g (used g + 1) None None) as [Hg' _]; [split; [done|by intros []]|].
      apply goal_ok_updatedAt with (t := t) in Hg'. exact Hg'. }
    apply (hoare_bind _ _ _ (λ _, At Counted)).
    { intros s (->&Ho&Ha). pose proof (at_set (λ _, True) (count_continuation g) s I) as Hset.
      destruct (_setGoalState _ s) as [s' [[]|y]]; apply (Hcnt _ (conj Ho Ha)) in Hset; [done|apply Hset]. }
    intros []. apply (hoare_bind _ _ _ (λ _, At Counted)).
    { eapply hoare_conseq; [apply (at_calm Counted), calm_context_message|done|done|]. by intros e s (_&_&?). }
    intros x s (Ha&Hu&_). right. by exists x.
  - intros e. apply (hoare_bind _ _ _ (λ _, At (λ g', status g' = GError))); [|by intros [] s Hs; left; split; [|right]].
    apply (hoare_catch _ _ _ _ _ (λ _, At (λ g', status g' = GError))); [|by intros y s Hs].
    intros s Hs. destruct Hs as (Hok'&Ho&Ha). pose proof (at_finishError e _ Hok' s eq_refl) as Hf.
    destruct (_finishGoalWithError e s) as [s' [[]|y]]; by apply Hf.
Qed.
End counts.

Section hook.
Context {W : Type} `{GoalHost W} `{Machine W} `{ContinuationHost W} `{UuidLaws}.

#[local] Abbreviation goal s := (gs_goal (cs_goals s)).
#[local] Abbreviation goal_used s := (Goals.continuationsUsed (goal s)).
#[local] Abbreviation auto_used s := (Autonomous.continuationsUsed (cs_auto s)).
#[local] Abbreviation epoch s := (arrivalEpoch (host_of s)).

(** The messages that the loop gets: none when the hook throws. *)
Definition delivered (r : result jsstr (list AgentMessage * list jsstr)) : list AgentMessage :=
  match r with Ok (ms, _) => ms | Throw _ => [] end.

(** What a call of the hook did, by what it delivered. *)
Definition nothing_counted (s s' : Session W) : Prop :=
  auto_used s' = auto_used s ∧ (goal_used s' = goal_used s ∨ status (goal s') = GError).

Definition goal_continued (s s' : Session W) : Prop :=
  cs_auto s' = cs_auto s ∧ status (goal s) = GActive ∧ goal_used s' = goal_used s + 1.

Definition auto_continued (s s' : Session W) : Prop :=
  enabled (cs_auto s) = true ∧ (∃ now, autonomousLimitReason (cs_auto s) now = None) ∧
  (goal_used s' = goal_used s ∨ status (goal s') = GError) ∧ auto_used s' = auto_used s + 1 ∧
  limits (cs_auto s') = limits (cs_auto s).

Lemma in_goals_run {A} (m : eff (GoalSession W) jsstr A) (s : Session W) :
  in_goals m s = (MkSession (m (cs_goals s)).1 (cs_auto s), (m (cs_goals s)).2).
Proof. unfold in_goals. by destruct (m _). Qed.

Lemma rolled_back g at_ (s : Session W) : 0 <= Goals.continuationsUsed g →
  let s' := ((in_goals (_setGoalState g);; in_goals (emodify (set_startedAt at_)) : eff _ jsstr _) s).1 in
  goal_used s' = Goals.continuationsUsed g ∧ cs_auto s' = cs_auto s.
Proof.
  intros Hc. cbv zeta. unfold mbind, eff_bind. rewrite in_goals_run.
  destruct (setGoalState_spec g (cs_goals s)) as [[t Hg] _ _ _ _ _ _].
  destruct (_setGoalState g (cs_goals s)) as [x [[]|e]]; cbn in Hg |- *; rewrite Hg; cbn; split; try done; lia.
Qed.
(** A continuation is counted exactly when the run gets it.  Whatever
    happens meanwhile - input that arrives while the hook runs and makes it take
    its message back, a write that fails, an exception of the gates, a host that
    refuses - the hook delivers one message and counts one continuation, of the
    goal or of the autonomous mode, or it delivers none and counts none.  A
    message of the autonomous mode is only delivered while the mode is on and
    below its limits, and only when the goal has nothing to say; and no message
    is delivered when input arrived since the hook was called.  (A goal that
    fails in the hook is over; it may have counted the message that it could not
    record.) *)
Theorem continuation_counted message newMessages tools cwd sig (s : Session W) :
  GInv (cs_goals s) →
  let '(s', r) := _getContinuationMessages message newMessages tools cwd sig s in
  match delivered r with
  | [] => nothing_counted s s'
  | [MCustom _] => goal_continued s s' ∧ epoch s' = epoch s
  | [MUser _] => auto_continued s s' ∧ epoch s' = epoch s
  | _ => False
  end.
Proof.
  intros Hi. unfold _getContinuationMessages. rewrite run_get.
  destruct (0 <? _); [by split; [|left]|]. cbv zeta. rewrite run_bind, in_goals_run.
  pose proof (getGoalContinuation_counts message tools (λ w, sig && aborted w) _ (gi_goal _ Hi) (cs_goals s) eq_refl) as Hg.
  destruct (_getGoalContinuationMessages _ _ _ (cs_goals s)) as [g1 [[ms t1]|e]]; [|done]. cbn [fst snd] in *. rewrite run_get.
  unfold At, goal_counted in Hg. cbn [fst] in Hg.
  destruct Hg as [[-> Hg]|(x&->&Ha&Hg)]; cbn [length negb bool_decide].
  - rewrite bool_decide_true by done. cbn [negb orb andb].
    destruct (sig && _); [by split|]. destruct (_ || _); [by split|].
    rewrite run_bind, in_goals_run. cbn [cs_goals cs_auto]. destruct (calm_date_now g1) as (Hn&_). destruct (date_now g1) as [g2 [now|e]] eqn:En; [|done].
    cbn [fst snd] in *. rewrite <-Hn in Hg. rewrite run_bind. unfold in_auto at 1. cbn [cs_auto cs_goals].
    destruct (nextAutonomousContinuation message cwd sig now (cs_auto s, gs_host g2)) as [[a w] r] eqn:Ex.
    apply next_spec in Ex as [(x&->&He&Hl&a1&f1&w1&Ea)|[Hx (a1&f1&w1&Ea)]]; cbn [fst snd] in *; subst a.
    + rewrite run_get. match goal with |- context [if ?b then _ else _] => destruct b eqn:Ee end.
      * rewrite run_modify. by split.
      * apply negb_false_iff, Z.eqb_eq in Ee. cbn. split; [|done]. unfold auto_continued. split_and!; eauto.
    + destruct r as [[x|]|e]; [by destruct (Hx x)|..]; by split.
  - rewrite bool_decide_false by done. cbn [negb orb andb].
    match goal with |- context [if ?b then _ else _] => destruct b eqn:Ee end.
    + destruct (rolled_back (goal s) (gs_startedAt (cs_goals s)) (MkSession g1 (cs_auto s))) as [Hu Hs];
        [pose proof (ok_counts _ (gi_goal _ Hi)); lia|].
      revert Hu Hs. unfold mbind, eff_bind. rewrite !in_goals_run. cbn [cs_goals cs_auto].
      destruct (_setGoalState _ g1) as [g2 [[]|e]]; cbn; intros Hu Hs; (split; [by cbn|left; exact Hu]).
    + apply negb_false_iff, Z.eqb_eq in Ee. split; [|done]. by split.
Qed.

End hook.

(** ** Examples *)

#[export] Instance quiet_machine : Machine (list CustomMessage) := {|
  spawn _ _ _ _ _ w := (w, ([], Ended (Some 0) None));
  lstat _ w := (w, Throw (js "ENOENT"));
  readlink _ w := (w, Throw (js "ENOENT"));
  readFile _ w := (w, Throw (js "ENOENT"));
  aborted _ := false;
  Autonomous.path_resolve _ p := p;
  sha256 _ := []
|}.

(** Input arrives when the first message was admitted. *)
#[export] Instance demo_continuation : ContinuationHost (list CustomMessage) := {|
  queuedActionCount _ := 0;
  arrivalEpoch w := Z.of_nat (length w);
  suppressed _ := false;
  suppressedMessage _ _ := false;
  clearQueuedAutonomousContinuations w := w;
  emitMessage m w := m :: w
|}.

Definition demo_auto_state : AutonomousRuntimeState :=
  createAutonomousRuntimeState (Some (MkConfig (Some true) None None None None None None)) 0.

Definition demo_both : Session (list CustomMessage) := MkSession demo_active demo_auto_state.
Definition demo_auto : Session (list CustomMessage) := MkSession demo_seeded demo_auto_state.

Definition demo_hook (s : Session (list CustomMessage)) :
    Session (list CustomMessage) * result jsstr (list AgentMessage * list jsstr) :=
  _getContinuationMessages (demo_answer 1 1 SrStop) [] [] None false s.

(** The goal goes on in the first session, the autonomous mode in the second. *)
Lemma continuation_counted_witness :
  match delivered (demo_hook demo_both).2, delivered (demo_hook demo_auto).2 with
  | [MCustom _], [MUser _] => true
  | _, _ => false
  end = true ∧
  (let '(s', r) := demo_hook demo_both in
   match delivered r with
   | [] => nothing_counted demo_both s'
   | [MCustom _] => goal_continued demo_both s' ∧ arrivalEpoch (host_of s') = arrivalEpoch (host_of demo_both)
   | [MUser _] => auto_continued demo_both s' ∧ arrivalEpoch (host_of s') = arrivalEpoch (host_of demo_both)
   | _ => False
   end).
Proof.
  split; [by vm_compute|].
  exact (continuation_counted (demo_answer 1 1 SrStop) [] [] None false demo_both demo_active_inv).
Defined.
