(* ===== verification/CronStore.v ===== *)
(** * The store of scheduled jobs

    Models [AgentCronJobStore] of [packages/coding-agent/src/core/cron-jobs.ts].
    A state file is the state it parses to.  A timestamp is the time it parses
    to, or a text that is not a date.  [randomUUID], the comparison of
    identifiers and [path.resolve] are operations of the platform; file locks
    make each access of a file one step. *)

From S2P Require Import Prelude.
From S2P Require Import JsMap.
From S2P Require Import JsString.
From S2P Require Import Eff.
From S2P Require Import CronSchedule.

(** ** Data *)

Inductive AgentCronJobStatus := Active | Paused | Completed | Cancelled.
#[export] Instance AgentCronJobStatus_eq_dec : EqDecision AgentCronJobStatus.
Proof. solve_decision. Defined.

Inductive AgentCronJobSource := SourceCron | SourceHeartbeat | SourceRlmHeartbeat.
#[export] Instance AgentCronJobSource_eq_dec : EqDecision AgentCronJobSource.
Proof. solve_decision. Defined.

Inductive AgentCronJobRuntimeKind := TopLevel | Subagent.
#[export] Instance AgentCronJobRuntimeKind_eq_dec : EqDecision AgentCronJobRuntimeKind.
Proof. solve_decision. Defined.

Inductive AgentHeartbeatDeliveryMode := Steer | FollowUp.
#[export] Instance AgentHeartbeatDeliveryMode_eq_dec : EqDecision AgentHeartbeatDeliveryMode.
Proof. solve_decision. Defined.

Inductive Stamp := At (ms : Z) | NotADate (text : jsstr).
#[export] Instance Stamp_eq_dec : EqDecision Stamp.
Proof. solve_decision. Defined.

(** [Date.parse]; [None] is [NaN]. *)
Definition date_parse (s : Stamp) : option Z := match s with At ms => Some ms | NotADate _ => None end.

(** [toISOString] of a date computed from a schedule. *)
Definition toISOString (t : Z) : result jsstr Stamp :=
  if Z.abs t <=? 8640000000000000 then Ok (At t) else Throw (js "Invalid time value").

Record AgentCronJob := MkJob {
  id : jsstr;
  status : AgentCronJobStatus;
  source : option AgentCronJobSource;
  runtimeKind : option AgentCronJobRuntimeKind;
  deliveryMode : option AgentHeartbeatDeliveryMode;
  activeSessionId : jsstr;
  sessionId : jsstr;
  sessionFile : jsstr;
  cwd : jsstr;
  label : option jsstr;
  prompt : jsstr;
  schedule : AgentCronSchedule;
  createdAt : Stamp;
  updatedAt : Stamp;
  nextRunAt : option Stamp;
  lastRunAt : option Stamp;
  lastSkippedAt : option Stamp;
  lastError : option jsstr;
  runCount : Z
}.
#[export] Instance AgentCronJob_eq_dec : EqDecision AgentCronJob.
Proof. solve_decision. Defined.

Record CreateAgentCronJobInput := MkInput {
  in_activeSessionId : jsstr;
  in_sessionId : jsstr;
  in_sessionFile : jsstr;
  in_cwd : jsstr;
  in_label : option jsstr;
  in_prompt : jsstr;
  in_scheduleText : jsstr;
  in_source : option AgentCronJobSource;
  in_runtimeKind : option AgentCronJobRuntimeKind;
  in_deliveryMode : option AgentHeartbeatDeliveryMode
}.

Record AgentCronDispatchRecord := MkDispatchRecord {
  dr_id : jsstr;
  dr_jobId : jsstr;
  dr_claimedAt : Stamp;
  dr_scheduledFor : Stamp
}.
#[export] Instance AgentCronDispatchRecord_eq_dec : EqDecision AgentCronDispatchRecord.
Proof. solve_decision. Defined.

Record AgentCronDispatch := MkDispatch { d_id : jsstr; d_job : AgentCronJob }.

Record CronJobsState := MkState { jobs : list AgentCronJob; dispatches : list AgentCronDispatchRecord }.
#[export] Instance CronJobsState_eq_dec : EqDecision CronJobsState.
Proof. solve_decision. Defined.

Inductive AgentCronJobRunResult := Ran | Skipped.
#[export] Instance AgentCronJobRunResult_eq_dec : EqDecision AgentCronJobRunResult.
Proof. solve_decision. Defined.

(** ** Updates of a job *)

Definition with_status (st : AgentCronJobStatus) (j : AgentCronJob) : AgentCronJob :=
  MkJob (id j) st (source j) (runtimeKind j) (deliveryMode j) (activeSessionId j) (sessionId j) (sessionFile j)
    (cwd j) (label j) (prompt j) (schedule j) (createdAt j) (updatedAt j) (nextRunAt j) (lastRunAt j)
    (lastSkippedAt j) (lastError j) (runCount j).
Definition with_updatedAt (t : Stamp) (j : AgentCronJob) : AgentCronJob :=
  MkJob (id j) (status j) (source j) (runtimeKind j) (deliveryMode j) (activeSessionId j) (sessionId j) (sessionFile j)
    (cwd j) (label j) (prompt j) (schedule j) (createdAt j) t (nextRunAt j) (lastRunAt j)
    (lastSkippedAt j) (lastError j) (runCount j).
Definition with_nextRunAt (t : option Stamp) (j : AgentCronJob) : AgentCronJob :=
  MkJob (id j) (status j) (source j) (runtimeKind j) (deliveryMode j) (activeSessionId j) (sessionId j) (sessionFile j)
    (cwd j) (label j) (prompt j) (schedule j) (createdAt j) (updatedAt j) t (lastRunAt j)
    (lastSkippedAt j) (lastError j) (runCount j).
Definition withoutNextRunAt : AgentCronJob → AgentCronJob := with_nextRunAt None.
Definition with_lastSkippedAt (t : option Stamp) (j : AgentCronJob) : AgentCronJob :=
  MkJob (id j) (status j) (source j) (runtimeKind j) (deliveryMode j) (activeSessionId j) (sessionId j) (sessionFile j)
    (cwd j) (label j) (prompt j) (schedule j) (createdAt j) (updatedAt j) (nextRunAt j) (lastRunAt j)
    t (lastError j) (runCount j).
Definition with_lastError (e : option jsstr) (j : AgentCronJob) : AgentCronJob :=
  MkJob (id j) (status j) (source j) (runtimeKind j) (deliveryMode j) (activeSessionId j) (sessionId j) (sessionFile j)
    (cwd j) (label j) (prompt j) (schedule j) (createdAt j) (updatedAt j) (nextRunAt j) (lastRunAt j)
    (lastSkippedAt j) e (runCount j).
(** A run that is over: [lastRunAt], [lastError] and [runCount]. *)
Definition with_run (t : Stamp) (e : option jsstr) (j : AgentCronJob) : AgentCronJob :=
  MkJob (id j) (status j) (source j) (runtimeKind j) (deliveryMode j) (activeSessionId j) (sessionId j) (sessionFile j)
    (cwd j) (label j) (prompt j) (schedule j) (createdAt j) (updatedAt j) (nextRunAt j) (Some t)
    (lastSkippedAt j) e (runCount j + 1).
Definition with_session (asid sid file dir : jsstr) (j : AgentCronJob) : AgentCronJob :=
  MkJob (id j) (status j) (source j) (runtimeKind j) (deliveryMode j) asid sid file
    dir (label j) (prompt j) (schedule j) (createdAt j) (updatedAt j) (nextRunAt j) (lastRunAt j)
    (lastSkippedAt j) (lastError j) (runCount j).
Definition with_label (l : option jsstr) (j : AgentCronJob) : AgentCronJob :=
  MkJob (id j) (status j) (source j) (runtimeKind j) (deliveryMode j) (activeSessionId j) (sessionId j) (sessionFile j)
    (cwd j) l (prompt j) (schedule j) (createdAt j) (updatedAt j) (nextRunAt j) (lastRunAt j)
    (lastSkippedAt j) (lastError j) (runCount j).
Definition with_deliveryMode (d : AgentHeartbeatDeliveryMode) (j : AgentCronJob) : AgentCronJob :=
  MkJob (id j) (status j) (source j) (runtimeKind j) (Some d) (activeSessionId j) (sessionId j) (sessionFile j)
    (cwd j) (label j) (prompt j) (schedule j) (createdAt j) (updatedAt j) (nextRunAt j) (lastRunAt j)
    (lastSkippedAt j) (lastError j) (runCount j).
Definition with_prompt (p : jsstr) (j : AgentCronJob) : AgentCronJob :=
  MkJob (id j) (status j) (source j) (runtimeKind j) (deliveryMode j) (activeSessionId j) (sessionId j) (sessionFile j)
    (cwd j) (label j) p (schedule j) (createdAt j) (updatedAt j) (nextRunAt j) (lastRunAt j)
    (lastSkippedAt j) (lastError j) (runCount j).
Definition with_schedule (s : AgentCronSchedule) (j : AgentCronJob) : AgentCronJob :=
  MkJob (id j) (status j) (source j) (runtimeKind j) (deliveryMode j) (activeSessionId j) (sessionId j) (sessionFile j)
    (cwd j) (label j) (prompt j) s (createdAt j) (updatedAt j) (nextRunAt j) (lastRunAt j)
    (lastSkippedAt j) (lastError j) (runCount j).

Definition is_live (j : AgentCronJob) : bool := bool_decide (status j = Active) || bool_decide (status j = Paused).
Definition is_terminal (j : AgentCronJob) : bool := bool_decide (status j = Cancelled) || bool_decide (status j = Completed).

Definition isHeartbeatCronJob (j : AgentCronJob) : bool :=
  bool_decide (source j = Some SourceHeartbeat) || bool_decide (source j = Some SourceRlmHeartbeat).

Definition isDueJob (j : AgentCronJob) (now : Z) : bool :=
  bool_decide (status j = Active) &&
  match nextRunAt j with
  | Some t => match date_parse t with Some ms => ms <=? now | None => false end
  | None => false
  end.

Definition normalizeOptionalLabel (l : option jsstr) : option jsstr :=
  match trim <$> l with Some ((_ :: _) as trimmed) => Some trimmed | _ => None end.

(** ** Merging *)

Definition isAtLeastAsFresh (candidate current : AgentCronJob) : bool :=
  match date_parse (updatedAt current), date_parse (updatedAt candidate) with
  | None, _ => true
  | Some _, None => false
  | Some t, Some t' => t <=? t'
  end.

Definition merge_job (merged : list (jsstr * AgentCronJob)) (job : AgentCronJob) : list (jsstr * AgentCronJob) :=
  match jm_get merged (id job) with
  | Some current => if isAtLeastAsFresh job current then jm_set merged (id job) job else merged
  | None => jm_set merged (id job) job
  end.

Definition mergeFreshJobs (currentJobs nextJobs : list AgentCronJob) : list AgentCronJob :=
  jm_values (foldl merge_job (foldl (λ m j, jm_set m (id j) j) [] currentJobs) nextJobs).

(** [jobs.map] with a function that replaces some jobs: the new list, and the
    replacements in order. *)
Fixpoint edit_jobs (f : AgentCronJob → result jsstr (option AgentCronJob)) (js : list AgentCronJob)
    : result jsstr (list AgentCronJob * list AgentCronJob) :=
  match js with
  | [] => Ok ([], [])
  | j :: js =>
      o ← f j;
      r ← edit_jobs f js;
      Ok (match o with Some j' => (j' :: r.1, j' :: r.2) | None => (j :: r.1, r.2) end)
  end.

(** A stable sort by a comparison function. *)
Fixpoint insert_by (cmp : AgentCronJob → AgentCronJob → Z) (j : AgentCronJob) (js : list AgentCronJob) : list AgentCronJob :=
  match js with
  | [] => [j]
  | j' :: js' => if cmp j j' <=? 0 then j :: js else j' :: insert_by cmp j js'
  end.
Definition sort_by (cmp : AgentCronJob → AgentCronJob → Z) (js : list AgentCronJob) : list AgentCronJob :=
  foldr (insert_by cmp) [] js.

(** A comparison that gives [NaN] counts as equal. *)
Definition stamp_diff (left right : Stamp) : Z :=
  match date_parse left, date_parse right with Some a, Some b => a - b | _, _ => 0 end.

Definition compareOptionalIso (left right : option Stamp) : Z :=
  if bool_decide (left = right) then 0 else
  match left, right with
  | None, _ => 1
  | _, None => -1
  | Some l, Some r => stamp_diff l r
  end.

(** ** The store *)

Class Platform := {
  randomUUID : nat → jsstr;
  resolve : jsstr → jsstr;
  localeCompare : jsstr → jsstr → Z
}.

Record AgentCronJobStore := MkStore {
  filePath : option jsstr;
  sessionArtifactMode : bool;
  sessionArtifactFiles : list (jsstr * jsstr);
  files : gmap jsstr CronJobsState;
  uuids : nat;
  notifications : nat
}.

#[local] Abbreviation J := (eff AgentCronJobStore jsstr).

Definition set_files (fs : gmap jsstr CronJobsState) (s : AgentCronJobStore) : AgentCronJobStore :=
  MkStore (filePath s) (sessionArtifactMode s) (sessionArtifactFiles s) fs (uuids s) (notifications s).
Definition set_artifacts (m : list (jsstr * jsstr)) (s : AgentCronJobStore) : AgentCronJobStore :=
  MkStore (filePath s) (sessionArtifactMode s) m (files s) (uuids s) (notifications s).

Definition lift {A} (r : result jsstr A) : J A := λ s, (s, r).

Definition empty_state : CronJobsState := MkState [] [].

Definition readJobsState (path : jsstr) (s : AgentCronJobStore) : CronJobsState := default empty_state (files s !! path).
Definition writeJobsState (path : jsstr) (state : CronJobsState) : J unit :=
  emodify (λ s, set_files (<[path := state]> (files s)) s).

(** The state files of the store. *)
Definition state_paths (s : AgentCronJobStore) : list jsstr :=
  if sessionArtifactMode s then jm_values (sessionArtifactFiles s) else option_list (filePath s).

Definition readStates (s : AgentCronJobStore) : list CronJobsState := (λ p, readJobsState p s) <$> state_paths s.
Definition readJobs (s : AgentCronJobStore) : list AgentCronJob := readStates s ≫= jobs.

Section store.
Context `{Platform} `{Clock}.

Definition newId : J jsstr := λ s,
  (MkStore (filePath s) (sessionArtifactMode s) (sessionArtifactFiles s) (files s) (S (uuids s)) (notifications s),
   Ok (randomUUID (uuids s))).

(** A job with only the fields of the catalog. *)
Definition catalog_view (j : AgentCronJob) : AgentCronJob :=
  MkJob (id j) (status j) (source j) (runtimeKind j) (deliveryMode j) (activeSessionId j) (sessionId j) (sessionFile j)
    (cwd j) (label j) (prompt j) (schedule j) (createdAt j) (At 0) None None None None 0.

Definition heartbeatCatalogSignature (js : list AgentCronJob) : list AgentCronJob :=
  catalog_view <$> sort_by (λ l r, localeCompare (id l) (id r))
    (filter (λ j, isHeartbeatCronJob j && is_live j = true) js).

Definition notifyHeartbeatChange : J unit := emodify (λ s,
  MkStore (filePath s) (sessionArtifactMode s) (sessionArtifactFiles s) (files s) (uuids s) (S (notifications s))).

Definition notify_if_changed (previousHeartbeats : list AgentCronJob) : J unit :=
  now ← egets readJobs;
  ewhen (negb (bool_decide (heartbeatCatalogSignature now = previousHeartbeats))) notifyHeartbeatChange.

Definition registerSessionArtifact (sid path : jsstr) : J bool := λ s,
  if negb (sessionArtifactMode s) then (s, Ok false) else
  if bool_decide (jm_get (sessionArtifactFiles s) sid = Some path) then (s, Ok false) else
  (set_artifacts (jm_set (sessionArtifactFiles s) sid path) s, Ok true).

(** *** Writing jobs *)

Definition write_legacy (path : jsstr) (all : list AgentCronJob) : J unit :=
  current ← egets (readJobsState path);
  writeJobsState path (MkState (mergeFreshJobs (jobs current) all) (dispatches current)).

(** The jobs of one session after a write: its own jobs, but those that moved to
    another session, merged with the jobs written for it. *)
Definition merged_session (all : list AgentCronJob) (sid : jsstr) (current : CronJobsState) : list AgentCronJob :=
  let incomingById := foldl (λ m j, jm_set m (id j) j) [] all in
  let retained := filter (λ j, match jm_get incomingById (id j) with
    | None => true | Some incoming => bool_decide (sessionId incoming = sid) end = true) (jobs current) in
  mergeFreshJobs retained (filter (λ j, sessionId j = sid) all).

Definition session_states (s : AgentCronJobStore) : list (jsstr * CronJobsState) :=
  (λ p, (p.1, readJobsState p.2 s)) <$> sessionArtifactFiles s.

(** [sessionIdByJobId]: the session whose merged jobs hold an id. *)
Definition session_of (all : list AgentCronJob) (states : list (jsstr * CronJobsState)) (jobId : jsstr) : option jsstr :=
  jm_get (foldl (λ m p, jm_set m p.1 p.2) []
    (states ≫= λ p, (λ j, (id j, p.1)) <$> merged_session all p.1 p.2)) jobId.

(** The files are all read before the first is written. *)
Fixpoint write_sessions (all : list AgentCronJob) (states : list (jsstr * CronJobsState)) (todo : list (jsstr * jsstr)) : J unit :=
  match todo with
  | [] => mret tt
  | (sid, path) :: todo =>
      let current := default empty_state (jm_get states sid) in
      let nextState := MkState (merged_session all sid current)
        (filter (λ d, session_of all states (dr_jobId d) = Some sid) (states ≫= λ p, dispatches p.2)) in
      ewhen (negb (bool_decide (current = nextState))) (writeJobsState path nextState);;
      write_sessions all states todo
  end.

Definition writeJobs (all : list AgentCronJob) : J unit :=
  previousHeartbeats ← egets (λ s, heartbeatCatalogSignature (readJobs s));
  s ← eget;
  (if sessionArtifactMode s then
     match list_find (λ j, jm_has (sessionArtifactFiles s) (sessionId j) = false) all with
     | Some (_, unregistered) =>
         ethrow (js "Cron job " ++ id unregistered ++ js " targets an unregistered session artifact")
     | None => write_sessions all (session_states s) (sessionArtifactFiles s)
     end
   else
     match filePath s with
     | None => ethrow (js "Cron job store does not have a legacy file path")
     | Some path => write_legacy path all
     end);;
  notify_if_changed previousHeartbeats.

(** [readJobs().map(...)], and [writeJobs] when something was replaced; gives the
    replacements. *)
Definition update_jobs (f : AgentCronJob → result jsstr (option AgentCronJob)) : J (list AgentCronJob) :=
  all ← egets readJobs;
  r ← lift (edit_jobs f all);
  ewhen (negb (bool_decide (r.2 = []))) (writeJobs r.1);;
  mret r.2.

(** *** Creation *)

Definition new_job (jobId : jsstr) (src : AgentCronJobSource) (mode : option AgentHeartbeatDeliveryMode)
    (input : CreateAgentCronJobInput) (p : jsstr) (sch : AgentCronSchedule) (now : Z) (next : Stamp) : AgentCronJob :=
  MkJob jobId Active (Some src) (in_runtimeKind input) mode (in_activeSessionId input) (in_sessionId input)
    (in_sessionFile input) (in_cwd input) (normalizeOptionalLabel (in_label input)) p sch
    (At now) (At now) (Some next) None None None 0.

Definition create (input : CreateAgentCronJobInput) (now : Z) : J AgentCronJob :=
  let p := trim (in_prompt input) in
  if bool_decide (p = []) then ethrow (js "Cron job prompt cannot be empty") else
  parsed ← lift (parseAgentCronSchedule (in_scheduleText input) now);
  jobId ← newId;
  next ← lift (toISOString parsed.2);
  let job := new_job jobId (default SourceCron (in_source input)) None input p parsed.1 now next in
  all ← egets readJobs;
  writeJobs (all ++ [job]);;
  mret job.

Definition DEFAULT_HEARTBEAT_DELIVERY_MODE : AgentHeartbeatDeliveryMode := Steer.

Definition heartbeat_mode (input : CreateAgentCronJobInput) : option AgentHeartbeatDeliveryMode :=
  Some (default DEFAULT_HEARTBEAT_DELIVERY_MODE (in_deliveryMode input)).

Definition is_live_heartbeat (asid : jsstr) (j : AgentCronJob) : bool :=
  bool_decide (activeSessionId j = asid) && bool_decide (source j = Some SourceHeartbeat) && is_live j.

Definition cancelled_at (now : Z) (j : AgentCronJob) : AgentCronJob :=
  with_updatedAt (At now) (withoutNextRunAt (with_status Cancelled j)).

Definition createHeartbeat (input : CreateAgentCronJobInput) (now : Z) : J AgentCronJob :=
  parsed ← lift (parseAgentCronSchedule (in_scheduleText input) now);
  if bool_decide (sc_kind parsed.1 = Once) then ethrow (js "Heartbeat schedule must be recurring") else
  existing ← egets (λ s, (λ j, if is_live_heartbeat (in_activeSessionId input) j then cancelled_at now j else j) <$> readJobs s);
  let p := trim (in_prompt input) in
  if bool_decide (p = []) then ethrow (js "Heartbeat instruction cannot be empty") else
  jobId ← newId;
  next ← lift (toISOString parsed.2);
  let job := new_job jobId SourceHeartbeat (heartbeat_mode input) input p parsed.1 now next in
  writeJobs (existing ++ [job]);;
  mret job.

Definition createRlmHeartbeat (input : CreateAgentCronJobInput) (now : Z) : J AgentCronJob :=
  parsed ← lift (parseAgentCronSchedule (in_scheduleText input) now);
  if bool_decide (sc_kind parsed.1 = Once) then ethrow (js "RLM heartbeat schedule must be recurring") else
  let p := trim (in_prompt input) in
  if bool_decide (p = []) then ethrow (js "RLM heartbeat instruction cannot be empty") else
  jobId ← newId;
  next ← lift (toISOString parsed.2);
  let job := new_job jobId SourceRlmHeartbeat (heartbeat_mode input) input p parsed.1 now next in
  all ← egets readJobs;
  writeJobs (all ++ [job]);;
  mret job.

(** *** Sessions *)

Definition rebind_job (asid sid file dir : jsstr) (j : AgentCronJob) : result jsstr (option AgentCronJob) :=
  Ok (if negb (bool_decide (activeSessionId j = asid)) && negb (bool_decide (resolve (sessionFile j) = resolve file))
      then None
      else if bool_decide (activeSessionId j = asid) && bool_decide (sessionId j = sid) &&
              bool_decide (resolve (sessionFile j) = resolve file) && bool_decide (cwd j = dir)
      then None else Some (with_session asid sid file dir j)).

Definition rebindSessionJobs (asid sid file dir : jsstr) : J (list AgentCronJob) :=
  update_jobs (rebind_job asid sid file dir).

Definition cancelRlmHeartbeatsForSession (asid : jsstr) (now : Z) : J (list AgentCronJob) :=
  update_jobs (λ j, Ok (
    if negb (bool_decide (activeSessionId j = asid)) || negb (bool_decide (source j = Some SourceRlmHeartbeat)) ||
       negb (is_live j)
    then None else Some (cancelled_at now j))).

Definition cancelJobsForSession (asid sid file : option jsstr) (now : Z) : J (list AgentCronJob) :=
  let targetSessionFile := match file with Some ((_ :: _) as f) => Some (resolve f) | _ => None end in
  update_jobs (λ j, Ok (
    let matches :=
      match asid with Some a => bool_decide (activeSessionId j = a) | None => false end ||
      match sid with Some i => bool_decide (sessionId j = i) | None => false end ||
      match targetSessionFile with Some f => bool_decide (resolve (sessionFile j) = f) | None => false end in
    if negb matches || negb (is_live j) then None else Some (cancelled_at now j))).

(** *** Heartbeats *)

Definition by_latest (a b : AgentCronJob) : Z := stamp_diff (updatedAt b) (updatedAt a).

Definition getHeartbeat (asid : jsstr) (s : AgentCronJobStore) : option AgentCronJob :=
  head (sort_by by_latest (filter (λ j, is_live_heartbeat asid j = true) (readJobs s))).

Definition getLatestHeartbeat (asid : jsstr) (s : AgentCronJobStore) : option AgentCronJob :=
  head (sort_by by_latest
    (filter (λ j, activeSessionId j = asid ∧ source j = Some SourceHeartbeat) (readJobs s))).

(** Replaces the jobs with an identifier and writes in any case. *)
Definition replace_job (jobId : jsstr) (f : AgentCronJob → AgentCronJob) : J (option AgentCronJob) :=
  all ← egets readJobs;
  r ← lift (edit_jobs (λ j, Ok (if bool_decide (id j = jobId) then Some (f j) else None)) all);
  writeJobs r.1;;
  mret (last r.2).

Definition paused_at (now : Z) (j : AgentCronJob) : AgentCronJob :=
  with_updatedAt (At now) (withoutNextRunAt (with_status Paused j)).
Definition resumed_at (now : Z) (next : Stamp) (j : AgentCronJob) : AgentCronJob :=
  with_updatedAt (At now) (with_nextRunAt (Some next) (with_status Active j)).

Definition pauseHeartbeat (asid : jsstr) (now : Z) : J (option AgentCronJob) :=
  current ← egets (getHeartbeat asid);
  match current with None => mret None | Some c => replace_job (id c) (paused_at now) end.

(** The next run of a recurring schedule, as an ISO text. *)
Definition recurring_next (sch : AgentCronSchedule) (now : Z) (error : jsstr) : result jsstr Stamp :=
  n ← nextRunAtForSchedule sch now;
  match n with None => Throw error | Some t => toISOString t end.

Definition resumeHeartbeat (asid : jsstr) (now : Z) : J (option AgentCronJob) :=
  current ← egets (getHeartbeat asid);
  match current with
  | None => mret None
  | Some c =>
      next ← lift (recurring_next (schedule c) now (js "Heartbeat schedule must be recurring"));
      replace_job (id c) (resumed_at now next)
  end.

Definition clearHeartbeat (asid : jsstr) (now : Z) : J (option AgentCronJob) :=
  current ← egets (getHeartbeat asid);
  match current with None => mret None | Some c => replace_job (id c) (cancelled_at now) end.

Inductive AgentHeartbeatManagementAction := Pause | Resume | Stop.

Definition manageHeartbeat (asid jobId : jsstr) (action : AgentHeartbeatManagementAction) (now : Z)
    : J (option AgentCronJob) :=
  last <$> update_jobs (λ j,
    if negb (bool_decide (id j = jobId)) || negb (bool_decide (activeSessionId j = asid)) || negb (isHeartbeatCronJob j)
    then Ok None else
    if is_terminal j then Ok None else
    match action with
    | Pause => Ok (Some (paused_at now j))
    | Stop => Ok (Some (cancelled_at now j))
    | Resume =>
        next ← recurring_next (schedule j) now (js "Heartbeat schedule must be recurring");
        Ok (Some (resumed_at now next j))
    end).

Inductive AgentRlmHeartbeatStatusUpdate := RlmPause | RlmResume.

Record RlmHeartbeatUpdate := MkRlmUpdate {
  u_label : option jsstr;
  u_prompt : option jsstr;
  u_scheduleText : option jsstr;
  u_status : option AgentRlmHeartbeatStatusUpdate;
  u_deliveryMode : option AgentHeartbeatDeliveryMode
}.

Definition apply_rlm_update (update : RlmHeartbeatUpdate) (now : Z) (j : AgentCronJob) : result jsstr AgentCronJob :=
  let j := match u_label update with Some l => with_label (normalizeOptionalLabel (Some l)) j | None => j end in
  let j := match u_deliveryMode update with Some d => with_deliveryMode d j | None => j end in
  j ← match u_prompt update with
      | Some p => if bool_decide (trim p = []) then Throw (js "RLM heartbeat instruction cannot be empty")
                  else Ok (with_prompt (trim p) j)
      | None => Ok j
      end;
  j ← match u_scheduleText update with
      | Some text =>
          parsed ← parseAgentCronSchedule text now;
          if bool_decide (sc_kind parsed.1 = Once) then Throw (js "RLM heartbeat schedule must be recurring") else
          if bool_decide (status j = Paused) then Ok (withoutNextRunAt (with_schedule parsed.1 j)) else
          next ← toISOString parsed.2;
          Ok (with_nextRunAt (Some next) (with_schedule parsed.1 j))
      | None => Ok j
      end;
  j ← match u_status update with
      | Some RlmPause => Ok (withoutNextRunAt (with_status Paused j))
      | Some RlmResume =>
          next ← recurring_next (schedule j) now (js "RLM heartbeat schedule must be recurring");
          Ok (with_nextRunAt (Some next) (with_status Active j))
      | None => Ok j
      end;
  Ok (with_updatedAt (At now) j).

Definition is_rlm_heartbeat (asid jobId : jsstr) (j : AgentCronJob) : bool :=
  bool_decide (id j = jobId) && bool_decide (activeSessionId j = asid) && bool_decide (source j = Some SourceRlmHeartbeat).

Definition updateRlmHeartbeat (asid jobId : jsstr) (update : RlmHeartbeatUpdate) (now : Z) : J (option AgentCronJob) :=
  last <$> update_jobs (λ j,
    if negb (is_rlm_heartbeat asid jobId j) || is_terminal j then Ok None else Some <$> apply_rlm_update update now j).

Definition deleteRlmHeartbeat (asid jobId : jsstr) (now : Z) : J (option AgentCronJob) :=
  last <$> update_jobs (λ j, Ok (if is_rlm_heartbeat asid jobId j then Some (cancelled_at now j) else None)).

Definition listRlmHeartbeats (asid : jsstr) (includeInactive : bool) (s : AgentCronJobStore) : list AgentCronJob :=
  sort_by (λ a b, compareOptionalIso (nextRunAt a) (nextRunAt b))
    (filter (λ j, bool_decide (activeSessionId j = asid) && bool_decide (source j = Some SourceRlmHeartbeat) &&
      (includeInactive || is_live j) = true) (readJobs s)).

Definition list_jobs (s : AgentCronJobStore) : list AgentCronJob :=
  sort_by (λ a b, compareOptionalIso (nextRunAt a) (nextRunAt b)) (readJobs s).

Definition cancel (jobId : jsstr) (now : Z) : J (option AgentCronJob) :=
  last <$> update_jobs (λ j, Ok (
    if negb (bool_decide (id j = jobId)) || bool_decide (status j = Cancelled) then None else Some (cancelled_at now j))).

(** *** Results of runs recorded without a dispatch *)

Definition iso_option (t : option Z) : result jsstr (option Stamp) :=
  match t with None => Ok None | Some t => Some <$> toISOString t end.

Definition after_once (j : AgentCronJob) : AgentCronJobStatus :=
  if bool_decide (sc_kind (schedule j) = Once) then Completed else status j.

Definition recordRunResult (jobId : jsstr) (now : Z) (error : option jsstr) : J (option AgentCronJob) :=
  last <$> update_jobs (λ j,
    if negb (bool_decide (id j = jobId)) then Ok None else
    if negb (bool_decide (status j = Active)) then Ok (Some j) else
    n ← match sc_kind (schedule j) with
        | Cron => nextRunAtForSchedule (schedule j) (now + 1)
        | Interval => nextRunAtForSchedule (schedule j) now
        | Once => Ok None
        end;
    next ← iso_option n;
    Ok (Some (with_updatedAt (At now) (with_run (At now) error (with_nextRunAt next
      (with_status (if bool_decide (sc_kind (schedule j) = Once) then Completed else Active) j)))))).

Definition recordSkipResult (jobId : jsstr) (now : Z) : J (option AgentCronJob) :=
  last <$> update_jobs (λ j,
    if negb (bool_decide (id j = jobId)) then Ok None else
    if negb (bool_decide (status j = Active)) then Ok (Some j) else
    n ← nextRunAtForSchedule (schedule j) now;
    next ← iso_option n;
    Ok (Some (with_updatedAt (At now) (with_lastSkippedAt (Some (At now)) (with_nextRunAt next j))))).

Definition due (now : Z) (s : AgentCronJobStore) : list AgentCronJob :=
  filter (λ j, isDueJob j now = true) (readJobs s).

Definition getDueJob (jobId : jsstr) (now : Z) (s : AgentCronJobStore) : option AgentCronJob :=
  head (filter (λ j, id j = jobId ∧ isDueJob j now = true) (readJobs s)).

Definition earliest (ts : list Z) : option Z :=
  foldr (λ t o, Some (match o with Some t' => Z.min t t' | None => t end)) None ts.

Definition nextActiveRunAt (s : AgentCronJobStore) : option Z :=
  earliest (omap (λ j, if bool_decide (status j = Active) then nextRunAt j ≫= date_parse else None) (readJobs s)).

(** *** Dispatches *)

(** The outcome of [nextRunAt ? {...} : withoutNextRunAt(...)]. *)
Definition advanced_job (next : option Stamp) (claimedAt : Z) (j : AgentCronJob) : AgentCronJob :=
  with_updatedAt (At claimedAt) (with_nextRunAt next j).

(** The jobs of a state after a claim, with the new records and dispatches. *)
Fixpoint claim_jobs (claimedJobIds : list jsstr) (dueAt claimedAt : Z) (todo : list AgentCronJob)
    : J (list AgentCronJob * list AgentCronDispatchRecord * list AgentCronDispatch) :=
  match todo with
  | [] => mret ([], [], [])
  | j :: todo =>
      match isDueJob j dueAt, nextRunAt j with
      | true, Some scheduledFor =>
          n ← lift (nextRunAtForSchedule (schedule j) claimedAt);
          next ← lift (iso_option n);
          let advanced := advanced_job next claimedAt j in
          if bool_decide (id j ∈ claimedJobIds) then
            r ← claim_jobs claimedJobIds dueAt claimedAt todo;
            mret (with_lastSkippedAt (Some (At claimedAt)) advanced :: r.1.1, r.1.2, r.2)
          else
            dispatchId ← newId;
            r ← claim_jobs claimedJobIds dueAt claimedAt todo;
            mret (advanced :: r.1.1, MkDispatchRecord dispatchId (id j) (At claimedAt) scheduledFor :: r.1.2,
                  MkDispatch dispatchId advanced :: r.2)
      | _, _ =>
          r ← claim_jobs claimedJobIds dueAt claimedAt todo;
          mret (j :: r.1.1, r.1.2, r.2)
      end
  end.

Definition claimDueInState (dueAt claimedAt : Z) (state : CronJobsState) : J (CronJobsState * list AgentCronDispatch) :=
  r ← claim_jobs (dr_jobId <$> dispatches state) dueAt claimedAt (jobs state);
  mret (MkState r.1.1 (dispatches state ++ r.1.2), r.2).

(** The mutator of one state file: the new state, and what it adds to the
    result. *)
Fixpoint mutate_paths {A} (mutator : CronJobsState → J (CronJobsState * list A)) (paths : list jsstr) : J (list A * bool) :=
  match paths with
  | [] => mret ([], false)
  | path :: paths =>
      state ← egets (readJobsState path);
      r ← mutator state;
      let changed := negb (bool_decide (r.1 = state)) in
      ewhen changed (writeJobsState path r.1);;
      rest ← mutate_paths mutator paths;
      mret (r.2 ++ rest.1, changed || rest.2)
  end.

Definition mutateStates {A} (mutator : CronJobsState → J (CronJobsState * list A)) : J (list A) :=
  paths ← egets state_paths;
  previousHeartbeats ← egets (λ s, heartbeatCatalogSignature (readJobs s));
  r ← mutate_paths mutator paths;
  ewhen r.2 (notify_if_changed previousHeartbeats);;
  mret r.1.

Definition claimDue (dueAt claimedAt : Z) : J (list AgentCronDispatch) :=
  mutateStates (claimDueInState dueAt claimedAt).

Definition getClaimedJob (jobId : jsstr) (s : AgentCronJobStore) : option AgentCronJob :=
  match list_find (λ state, jobId ∈ dr_jobId <$> dispatches state) (readStates s) with
  | Some (_, state) => head (filter (λ j, id j = jobId ∧ status j = Active) (jobs state))
  | None => None
  end.

Definition finished_job (now : Z) (outcome : AgentCronJobRunResult) (error : option jsstr) (j : AgentCronJob)
    : result jsstr AgentCronJob :=
  match outcome, error with
  | Skipped, None =>
      n ← nextRunAtForSchedule (schedule j) now;
      next ← iso_option n;
      Ok (with_updatedAt (At now) (with_lastSkippedAt (Some (At now)) (with_nextRunAt next (with_status (after_once j) j))))
  | _, _ => Ok (with_updatedAt (At now) (with_run (At now) error (with_status (after_once j) j)))
  end.

Definition finish_dispatch (dispatchId : jsstr) (now : Z) (outcome : AgentCronJobRunResult) (error : option jsstr)
    (state : CronJobsState) : result jsstr (CronJobsState * list AgentCronJob) :=
  match list_find (λ d, dr_id d = dispatchId) (dispatches state) with
  | None => Ok (state, [])
  | Some (_, dispatch) =>
      r ← edit_jobs (λ j,
            if negb (bool_decide (id j = dr_jobId dispatch)) || negb (bool_decide (status j = Active)) then Ok None
            else Some <$> finished_job now outcome error j) (jobs state);
      Ok (MkState r.1 (filter (λ d, dr_id d ≠ dispatchId) (dispatches state)), r.2)
  end.

Definition recordDispatchResult (dispatchId : jsstr) (now : Z) (outcome : AgentCronJobRunResult) (error : option jsstr)
    : J (option AgentCronJob) :=
  last <$> mutateStates (λ state, lift (finish_dispatch dispatchId now outcome error state)).

(** *** Recovery *)

Definition interrupted_job (now : Z) (j : AgentCronJob) : AgentCronJob :=
  with_updatedAt (At now) (with_lastError (Some (js "Interrupted before scheduled operation completion"))
    (with_status (after_once j) j)).

(** [dispatchIds] is [None] for all dispatches. *)
Definition recoverInterruptedInState (now : Z) (dispatchIds : option (list jsstr)) (state : CronJobsState)
    : CronJobsState * list AgentCronJob :=
  let hit := λ d, match dispatchIds with Some ids => bool_decide (dr_id d ∈ ids) | None => true end in
  let interrupted := filter (λ d, hit d = true) (dispatches state) in
  if bool_decide (interrupted = []) then (state, []) else
  let is_hit := λ j, bool_decide (id j ∈ dr_jobId <$> interrupted) && bool_decide (status j = Active) in
  (MkState ((λ j, if is_hit j then interrupted_job now j else j) <$> jobs state)
     (filter (λ d, hit d = false) (dispatches state)),
   interrupted_job now <$> filter (λ j, is_hit j = true) (jobs state)).

Definition recoverInterruptedDispatches (now : Z) : J (list AgentCronJob) :=
  mutateStates (λ state, lift (Ok (recoverInterruptedInState now None state))).

Definition recoverInterruptedDispatchesById (dispatchIds : list jsstr) (now : Z) : J (list AgentCronJob) :=
  mutateStates (λ state, lift (Ok (recoverInterruptedInState now (Some dispatchIds) state))).

Definition recoverSessionArtifact (sid : jsstr) (now : Z) : J (list AgentCronJob) :=
  s ← eget;
  match jm_get (sessionArtifactFiles s) sid with
  | None => mret []
  | Some path =>
      let state := readJobsState path s in
      if bool_decide (dispatches state = []) then mret [] else
      let r := recoverInterruptedInState now None state in
      writeJobsState path r.1;;
      mret r.2
  end.

(** *** Migration of the file of all sessions to a file per session *)

Definition migrate_job (isSessionOwned : AgentCronJob → bool) (now : Z) (j : AgentCronJob) : AgentCronJob :=
  if isSessionOwned j || negb (is_live j) then j else cancelled_at now j.

(** The jobs per artifact path, in the order of their first job. *)
Definition group_by_artifact (artifactPath : AgentCronJob → jsstr) (js : list AgentCronJob) : list (jsstr * list AgentCronJob) :=
  foldl (λ m j, jm_set m (artifactPath j) (default [] (jm_get m (artifactPath j)) ++ [j])) [] js.

Definition migrateLegacyCronJobsToSessionArtifacts (path : jsstr) (artifactPath : AgentCronJob → jsstr)
    (isSessionOwned : AgentCronJob → bool) (now : Z) : J Z :=
  legacyState ← egets (readJobsState path);
  let js := migrate_job isSessionOwned now <$> jobs (recoverInterruptedInState now None legacyState).1 in
  if bool_decide (js = []) then mret 0 else
  efor (group_by_artifact artifactPath js) (λ g, write_legacy g.1 g.2);;
  emodify (λ s, set_files (delete path (files s)) s);;
  mret (Z.of_nat (length js)).
End store.
