(* ===== verification/CronStoreSpec.v ===== *)
(** * Theorems about the store of scheduled jobs

    Merging keeps the fresher version of every job; every operation keeps the
    identifiers of jobs unique and at most one outstanding dispatch per job, in
    the file of the job. *)

From S2P Require Import Prelude.
From S2P Require Import JsMap.
From S2P Require Import JsString.
From S2P Require Import Eff.
From S2P Require Import CronSchedule.
From S2P Require Import CronStore.

(** ** Merging *)

Definition ids (l : list AgentCronJob) : list jsstr := id <$> l.
Definition find_job (k : jsstr) (l : list AgentCronJob) : option AgentCronJob := head (filter (λ j, id j = k) l).

Lemma find_job_None k l : k ∉ ids l → find_job k l = None.
Proof.
  intros Hk. unfold find_job. rewrite filter_none; [done|]. intros j Hj <-. by apply Hk, list_elem_of_fmap_2.
Qed.

(** A map of jobs by their own identifiers. *)
Definition keyed (m : list (jsstr * AgentCronJob)) : Prop := Forall (λ p, p.1 = id p.2) m.

Lemma keyed_ids m : keyed m → ids (jm_values m) = jm_keys m.
Proof.
  induction 1 as [|[k j] m Hk _ IH]; [done|]. cbn in *. unfold ids, jm_keys, jm_values in *. cbn. by rewrite IH, Hk.
Qed.

Lemma keyed_set m j : keyed m → keyed (jm_set m (id j) j).
Proof.
  induction 1 as [|[k j'] m Hk Hm IH]; cbn; [by constructor|].
  case_decide; constructor; done.
Qed.

Lemma keyed_find m k : keyed m → keys_NoDup m → find_job k (jm_values m) = jm_get m k.
Proof.
  intros Hk Hnd. induction Hk as [|[k' j] m Hkj Hm IH]; [done|]. cbn in Hkj. subst k'.
  apply NoDup_cons in Hnd as [Hni Hnd]. unfold find_job, jm_values in *. cbn [fmap list_fmap snd jm_get].
  rewrite filter_cons. case_decide as H1; case_decide as H2; try congruence; [done|by apply IH].
Qed.

Lemma merge_job_keyed m j : keyed m → keyed (merge_job m j).
Proof. intros. unfold merge_job. repeat case_match; try done; by apply keyed_set. Qed.

Lemma merge_job_NoDup m j : keys_NoDup m → keys_NoDup (merge_job m j).
Proof. intros. unfold merge_job. repeat case_match; try done; by apply jm_set_NoDup. Qed.

Lemma merge_job_keys m j : jm_keys (merge_job m j) = if decide (id j ∈ jm_keys m) then jm_keys m else jm_keys m ++ [id j].
Proof.
  unfold merge_job. destruct (jm_get m (id j)) as [c|] eqn:E.
  - assert (id j ∈ jm_keys m) as Hin by (apply jm_get_is_Some; by rewrite E).
    rewrite decide_True by done. case_match; [by apply jm_keys_set_old|done].
  - apply jm_get_None in E. rewrite decide_False by done. rewrite jm_set_new by done.
    unfold jm_keys. by rewrite fmap_app.
Qed.

(** The version that wins. *)
Definition fresher (c n : option AgentCronJob) : option AgentCronJob :=
  match c, n with
  | Some c, Some n => if isAtLeastAsFresh n c then Some n else Some c
  | None, n => n
  | c, None => c
  end.

Lemma merge_job_get m j k : jm_get (merge_job m j) k =
  if decide (id j = k) then fresher (jm_get m k) (Some j) else jm_get m k.
Proof.
  unfold merge_job. case_decide as Hk.
  - subst k. destruct (jm_get m (id j)) as [c|] eqn:E; cbn; [|by rewrite jm_get_set_eq].
    case_match; [by rewrite jm_get_set_eq|done].
  - destruct (jm_get m (id j)) as [c|]; [case_match; [|done]|]; by rewrite jm_get_set_ne.
Qed.

Lemma merge_fold l : ∀ m, keyed m → keys_NoDup m →
  keyed (foldl merge_job m l) ∧ keys_NoDup (foldl merge_job m l) ∧
  (∀ k, k ∈ jm_keys (foldl merge_job m l) ↔ k ∈ jm_keys m ∨ k ∈ ids l) ∧
  (NoDup (ids l) → ∀ k, jm_get (foldl merge_job m l) k = fresher (jm_get m k) (find_job k l)).
Proof.
  induction l as [|j l IH]; intros m Hk Hnd; cbn [foldl].
  { split_and!; try done.
    - intros k. unfold ids. cbn. rewrite elem_of_nil. naive_solver.
    - intros _ k. unfold find_job. cbn. by destruct (jm_get m k). }
  destruct (IH (merge_job m j)) as (H1&H2&H3&H4); [by apply merge_job_keyed|by apply merge_job_NoDup|].
  split_and!; [done..| |].
  - intros k. rewrite H3, merge_job_keys. unfold ids. cbn. rewrite elem_of_cons.
    case_decide; [naive_solver|]. rewrite elem_of_app, list_elem_of_singleton. naive_solver.
  - unfold ids. cbn. intros [Hni Hl]%NoDup_cons k. rewrite (H4 Hl), merge_job_get. unfold find_job.
    rewrite filter_cons. case_decide as Hd; [|done]. subst k. cbn.
    assert (find_job (id j) l = None) as Hf by by apply find_job_None. unfold find_job in Hf. rewrite Hf.
    cbn. destruct (jm_get m (id j)); cbn; [by case_match|done].
Qed.

Lemma current_map l : NoDup (ids l) →
  foldl (λ m j, jm_set m (id j) j) [] l = (λ j, (id j, j)) <$> l.
Proof.
  intros Hnd. rewrite (jm_foldl_set_fresh id (λ j, j)); [done|done|]. intros j _. apply not_elem_of_nil.
Qed.

Lemma current_keyed l : keyed (foldl (λ m j, jm_set m (id j) j) [] l) ∧ keys_NoDup (foldl (λ m j, jm_set m (id j) j) [] l) ∧
  ∀ k, k ∈ jm_keys (foldl (λ m j, jm_set m (id j) j) [] l) ↔ k ∈ ids l.
Proof.
  assert (∀ m, keyed m → keys_NoDup m →
    keyed (foldl (λ m j, jm_set m (id j) j) m l) ∧ keys_NoDup (foldl (λ m j, jm_set m (id j) j) m l) ∧
    ∀ k, k ∈ jm_keys (foldl (λ m j, jm_set m (id j) j) m l) ↔ k ∈ jm_keys m ∨ k ∈ ids l) as Hgen.
  { induction l as [|j l IH]; intros m Hk Hnd; cbn [foldl].
    - split_and!; try done. intros k. unfold ids. cbn. rewrite elem_of_nil. naive_solver.
    - destruct (IH (jm_set m (id j) j)) as (H1&H2&H3); [by apply keyed_set|by apply jm_set_NoDup|].
      split_and!; [done..|]. intros k. rewrite H3, jm_keys_set. unfold ids. cbn. rewrite elem_of_cons. naive_solver. }
  destruct (Hgen [] ltac:(constructor) ltac:(constructor)) as (?&?&Hm). split_and!; [done..|].
  intros k. rewrite Hm. split; [intros [[]%not_elem_of_nil|?]; done|by right].
Qed.

Lemma merge_ids cur nxt : NoDup (ids (mergeFreshJobs cur nxt)) ∧
  ∀ k, k ∈ ids (mergeFreshJobs cur nxt) ↔ k ∈ ids cur ∨ k ∈ ids nxt.
Proof.
  destruct (current_keyed cur) as (H1&H2&H3). destruct (merge_fold nxt _ H1 H2) as (H4&H5&H6&_).
  unfold mergeFreshJobs. rewrite keyed_ids by done. split; [done|]. intros k. by rewrite H6, H3.
Qed.

Lemma incoming_get all k : NoDup (ids all) →
  jm_get (foldl (λ m j, jm_set m (id j) j) [] all) k = find_job k all.
Proof.
  intros Hnd. destruct (current_keyed all) as (H1&H2&_). rewrite <-keyed_find by done.
  rewrite current_map by done. unfold jm_values. rewrite <-list_fmap_compose. by rewrite list_fmap_id.
Qed.

Lemma find_job_Some k l j : find_job k l = Some j → j ∈ l ∧ id j = k.
Proof.
  unfold find_job. intros Hh. destruct (filter _ l) as [|x r] eqn:E; [done|]. injection Hh as <-.
  assert (x ∈ filter (λ j, id j = k) l) as Hx by (rewrite E; by left). apply list_elem_of_filter in Hx as [? ?]. done.
Qed.

Lemma find_job_elem l j : NoDup (ids l) → j ∈ l → find_job (id j) l = Some j.
Proof.
  intros Hnd Hj. destruct (find_job (id j) l) as [j'|] eqn:E.
  - apply find_job_Some in E as [Hj' Hid]. f_equal. by eapply (NoDup_fmap_eq id l).
  - exfalso. unfold find_job in E. destruct (filter _ l) eqn:Ef; [|done].
    assert (j ∈ filter (λ j', id j' = id j) l) as Hx by by apply list_elem_of_filter. rewrite Ef in Hx. by apply not_elem_of_nil in Hx.
Qed.

(** Writing jobs over a state file merges by identifier: no job of the file
    and no written job is lost, none is there twice, and of two versions the
    written one wins exactly when it is at least as fresh.  An update based on
    an old read thus never undoes a later one. *)
Lemma merge_keeps_fresher cur nxt : NoDup (ids cur) → NoDup (ids nxt) →
  NoDup (ids (mergeFreshJobs cur nxt)) ∧
  ∀ k, find_job k (mergeFreshJobs cur nxt) = fresher (find_job k cur) (find_job k nxt).
Proof.
  intros Hc Hn. split; [apply merge_ids|]. intros k.
  destruct (current_keyed cur) as (H1&H2&_). destruct (merge_fold nxt _ H1 H2) as (H3&H4&_&Hget).
  unfold mergeFreshJobs. rewrite keyed_find, Hget by done. f_equal. by apply incoming_get.
Qed.

(** ** The invariant *)

(** One state file: unique jobs, and at most one outstanding dispatch for a job,
    which is a job of the file. *)
Record file_ok (st : CronJobsState) : Prop := {
  ok_jobs : NoDup (ids (jobs st));
  ok_dispatches : NoDup (dr_jobId <$> dispatches st);
  ok_home d : d ∈ dispatches st → dr_jobId d ∈ ids (jobs st);
  ok_dispatch_ids : NoDup (dr_id <$> dispatches st)
}.

Section spec.
Context `{!Platform} `{!Clock}.

Definition generated (n : nat) (k : jsstr) : Prop := ∃ i, (i < n)%nat ∧ k = randomUUID i.

(** All files: no job and no dispatch is in two of them, and all identifiers
    were generated.  [n] counts the identifiers, [R] gives the files. *)
Record files_ok (n : nat) (R : jsstr → CronJobsState) : Prop := {
  fo_file p : file_ok (R p);
  fo_unique p q k : k ∈ ids (jobs (R p)) → k ∈ ids (jobs (R q)) → p = q;
  fo_dispatch p q k : k ∈ dr_id <$> dispatches (R p) → k ∈ dr_id <$> dispatches (R q) → p = q;
  fo_job_gen p k : k ∈ ids (jobs (R p)) → generated n k;
  fo_dispatch_gen p k : k ∈ dr_id <$> dispatches (R p) → generated n k
}.

Definition read (s : AgentCronJobStore) (p : jsstr) : CronJobsState := readJobsState p s.

Record Inv (s : AgentCronJobStore) : Prop := {
  inv_files : files_ok (uuids s) (read s);
  inv_sessions : keys_NoDup (sessionArtifactFiles s);
  inv_paths : NoDup (jm_values (sessionArtifactFiles s))
}.

Lemma file_ok_empty : file_ok empty_state.
Proof. constructor; cbn; try apply NoDup_nil_2. by intros d Hd%not_elem_of_nil. Qed.

Lemma generated_mono n m k : (n <= m)%nat → generated n k → generated m k.
Proof. intros Hnm (i&Hi&->). exists i. split; [lia|done]. Qed.

Lemma read_write p st s q : read (set_files (<[p := st]> (files s)) s) q = if decide (q = p) then st else read s q.
Proof.
  unfold read, readJobsState. cbn. case_decide as Hq; [subst; by rewrite lookup_insert_eq|by rewrite lookup_insert_ne].
Qed.

(** The jobs of a file are the ones another file does not have. *)
Lemma files_ok_ext n R R' : (∀ p, R p = R' p) → files_ok n R → files_ok n R'.
Proof. intros E [H1 H2 H3 H4 H5]. constructor; intros *; rewrite <-!E; eauto. Qed.

(** Rewriting one file: what is new in it is in no other file. *)
Lemma files_ok_write n m R p st : (n <= m)%nat → files_ok n R → file_ok st →
  (∀ k, k ∈ ids (jobs st) → k ∈ ids (jobs (R p)) ∨ generated m k ∧ ∀ q, k ∈ ids (jobs (R q)) → q = p) →
  (∀ k, k ∈ dr_id <$> dispatches st → k ∈ dr_id <$> dispatches (R p) ∨
     generated m k ∧ ∀ q, k ∈ dr_id <$> dispatches (R q) → q = p) →
  files_ok m (λ q, if decide (q = p) then st else R q).
Proof.
  intros Hnm [H1 H2 H3 H4 H5] Hst Hj Hd. constructor.
  - intros q. by case_decide.
  - intros q1 q2 k. repeat case_decide; subst; [done|..|apply H2].
    + intros [?|[_ Hk]]%Hj ?; [by eapply H2|by symmetry; apply Hk].
    + intros ? [?|[_ Hk]]%Hj; [by eapply H2|by apply Hk].
  - intros q1 q2 k. repeat case_decide; subst; [done|..|apply H3].
    + intros [?|[_ Hk]]%Hd ?; [by eapply H3|by symmetry; apply Hk].
    + intros ? [?|[_ Hk]]%Hd; [by eapply H3|by apply Hk].
  - intros q k. case_decide; [intros [Hk|[? _]]%Hj|intros Hk]; try done; eapply generated_mono, H4; eauto.
  - intros q k. case_decide; [intros [Hk|[? _]]%Hd|intros Hk]; try done; eapply generated_mono, H5; eauto.
Qed.

(** ** Writing jobs *)

(** Jobs that may be written: unique, generated, and of no file the store does
    not know. *)
Definition incoming_ok (s : AgentCronJobStore) (all : list AgentCronJob) : Prop :=
  NoDup (ids all) ∧ ∀ k, k ∈ ids all → generated (uuids s) k ∧
    ∀ p, k ∈ ids (jobs (read s p)) → p ∈ state_paths s.

Lemma write_legacy_Inv path all s : Inv s → sessionArtifactMode s = false → filePath s = Some path →
  incoming_ok s all → Inv (write_legacy path all s).1.
Proof.
  intros [Hf Hs Hp] Hmode Hpath [Hnd Hin].
  set (st := MkState (mergeFreshJobs (jobs (read s path)) all) (dispatches (read s path))).
  change (write_legacy path all s) with (set_files (<[path := st]> (files s)) s, @Ok jsstr unit tt). cbn [fst].
  destruct (merge_ids (jobs (read s path)) all) as [Hm1 Hm2]. constructor; [|done..].
  eapply files_ok_ext; [intros q; symmetry; apply read_write|]. apply (files_ok_write (uuids s)); [done|done| | |by left].
  - destruct (fo_file _ _ Hf path) as [H1 H2 H3 H4]. constructor; [done|done| |done].
    intros d Hd. apply Hm2. left. by apply H3.
  - intros k [?|Hk]%Hm2; [by left|right]. destruct (Hin k Hk) as [Hg Hq]. split; [done|].
    intros q Hq'. apply Hq in Hq'. unfold state_paths in Hq'. rewrite Hmode, Hpath in Hq'. cbn in Hq'.
    by apply list_elem_of_singleton in Hq'.
Qed.

(** *** A file per session *)

Section sessions.
Context (all : list AgentCronJob) (Hall : NoDup (ids all)).

Lemma merged_ids sid cur : file_ok cur → NoDup (ids (merged_session all sid cur)) ∧
  ∀ k, k ∈ ids (merged_session all sid cur) ↔
    (k ∈ ids (jobs cur) ∧ find_job k all = None) ∨ ∃ j, find_job k all = Some j ∧ sessionId j = sid.
Proof.
  intros Hcur. unfold merged_session. destruct (merge_ids
    (filter (λ j, match jm_get (foldl (λ m j, jm_set m (id j) j) [] all) (id j) with
       | None => true | Some incoming => bool_decide (sessionId incoming = sid) end = true) (jobs cur))
    (filter (λ j, sessionId j = sid) all)) as [Hnd Hm].
  split; [done|]. intros k. rewrite Hm. unfold ids. rewrite !list_elem_of_fmap. split.
  - intros [(j&->&[Hr Hj]%list_elem_of_filter)|(j&->&[Hs Hj]%list_elem_of_filter)].
    + rewrite incoming_get in Hr by done. destruct (find_job (id j) all) as [i|]; [right|left; split; eauto].
      exists i. split; [done|]. by apply bool_decide_eq_true in Hr.
    + right. exists j. split; [by apply find_job_elem|done].
  - intros [[(j&->&Hj) Hn]|(j&Hj&Hs)].
    + left. exists j. split; [done|]. apply list_elem_of_filter. split; [|done]. by rewrite incoming_get, Hn.
    + right. apply find_job_Some in Hj as [Hj <-]. exists j. split; [done|]. by apply list_elem_of_filter.
Qed.

(** The states of the sessions before the write: one per session, each a file
    with jobs of its own. *)
Context (states : list (jsstr * CronJobsState)).
Context (Hstates : keys_NoDup states) (Hok : ∀ sid st, (sid, st) ∈ states → file_ok st).
Context (Huniq : ∀ sid1 sid2 st1 st2 k, (sid1, st1) ∈ states → (sid2, st2) ∈ states →
  k ∈ ids (jobs st1) → k ∈ ids (jobs st2) → sid1 = sid2).

Lemma merged_unique sid1 sid2 st1 st2 k : (sid1, st1) ∈ states → (sid2, st2) ∈ states →
  k ∈ ids (merged_session all sid1 st1) → k ∈ ids (merged_session all sid2 st2) → sid1 = sid2.
Proof.
  intros H1 H2. rewrite (proj2 (merged_ids sid1 st1 (Hok _ _ H1))), (proj2 (merged_ids sid2 st2 (Hok _ _ H2))).
  intros [[Hk Hn]|(j&Hj&<-)] [[Hk' Hn']|(j'&Hj'&<-)]; try congruence. by eapply Huniq.
Qed.

Lemma session_of_spec k sid : session_of all states k = Some sid ↔
  ∃ st, (sid, st) ∈ states ∧ k ∈ ids (merged_session all sid st).
Proof.
  unfold session_of. rewrite (jm_foldl_set_get fst snd). cbn [jm_get].
  set (l := states ≫= λ p, (λ j, (id j, p.1)) <$> merged_session all p.1 p.2).
  assert (∀ x, x ∈ l ↔ ∃ st, (x.2, st) ∈ states ∧ x.1 ∈ ids (merged_session all x.2 st)) as Hl.
  { intros [k' sid']. unfold l. rewrite list_elem_of_bind. cbn. split.
    - intros ([sid1 st]&(j&[= -> ->]&Hj)%list_elem_of_fmap&Hp). exists st. split; [done|]. by apply list_elem_of_fmap_2.
    - intros (st&Hp&(j&->&Hj)%list_elem_of_fmap). exists (sid', st). split; [|done].
      cbn. apply list_elem_of_fmap. by exists j. }
  destruct (last (filter (λ a, a.1 = k) l)) as [x|] eqn:E.
  - assert (x ∈ filter (λ a, a.1 = k) l) as Hx by by eapply last_Some_elem_of.
    apply list_elem_of_filter in Hx as [<- (st&Hst&Hk)%Hl]. split; [intros [= <-]; eauto|].
    intros (st'&Hst'&Hk'). f_equal. by eapply merged_unique.
  - apply last_None in E. split; [done|]. intros (st&Hst&Hk). exfalso.
    assert ((k, sid) ∈ filter (λ a, a.1 = k) l) as Hx by (apply list_elem_of_filter; split; [done|]; apply Hl; eauto).
    rewrite E in Hx. by apply not_elem_of_nil in Hx.
Qed.

(** The next state of a session. *)
Definition next_state (sid : jsstr) (cur : CronJobsState) : CronJobsState :=
  MkState (merged_session all sid cur)
    (filter (λ d, session_of all states (dr_jobId d) = Some sid) (states ≫= λ p, dispatches p.2)).

Lemma in_dispatches d : d ∈ (states ≫= λ p, dispatches p.2) ↔ ∃ sid st, (sid, st) ∈ states ∧ d ∈ dispatches st.
Proof.
  rewrite list_elem_of_bind. split; [intros ([sid st]&?&?); eauto|]. intros (sid&st&?&?). by exists (sid, st).
Qed.

Lemma all_dispatches_NoDup (f : AgentCronDispatchRecord → jsstr) :
  (∀ sid st, (sid, st) ∈ states → NoDup (f <$> dispatches st)) →
  (∀ sid1 sid2 st1 st2 k, (sid1, st1) ∈ states → (sid2, st2) ∈ states →
     k ∈ f <$> dispatches st1 → k ∈ f <$> dispatches st2 → sid1 = sid2) →
  NoDup (f <$> (states ≫= λ p, dispatches p.2)).
Proof.
  clear Hok Huniq. intros H1 H2. induction states as [|[sid st] l IH]; [constructor|].
  apply NoDup_cons in Hstates as [Hni Hnd]. cbn. rewrite fmap_app. apply NoDup_app. split_and!.
  - apply (H1 sid). by left.
  - intros k Hk (d&->&(p&Hd&Hp)%list_elem_of_bind)%list_elem_of_fmap. apply Hni.
    assert (sid = p.1) as Hsid; [|change (sid ∈ jm_keys l); rewrite Hsid; by apply list_elem_of_fmap_2].
    apply (H2 _ _ st p.2 (f d)); [by left|right; by destruct p|done|by apply list_elem_of_fmap_2].
  - apply IH; [done|intros; eapply H1; by right|]. intros ????? Ha Hb. apply H2; by right.
Qed.
End sessions.

Lemma session_states_elem s sid st : (sid, st) ∈ session_states s ↔
  ∃ path, (sid, path) ∈ sessionArtifactFiles s ∧ st = read s path.
Proof.
  unfold session_states. rewrite list_elem_of_fmap. split.
  - intros ([sid' path]&[= -> ->]&Hin). eauto.
  - intros (path&Hin&->). by exists (sid, path).
Qed.

Lemma session_states_keys s : jm_keys (session_states s) = jm_keys (sessionArtifactFiles s).
Proof. unfold session_states, jm_keys. by rewrite <-list_fmap_compose. Qed.

(** What the files are after [write_sessions]. *)
Lemma write_sessions_reads all states todo : ∀ s, NoDup todo.*2 →
  (∀ sid path, (sid, path) ∈ todo → jm_get states sid = Some (read s path)) →
  ∃ fs, write_sessions all states todo s = (set_files fs s, Ok ()) ∧
    (∀ sid path, (sid, path) ∈ todo → read (set_files fs s) path = next_state all states sid (read s path)) ∧
    (∀ p, p ∉ todo.*2 → read (set_files fs s) p = read s p).
Proof.
  induction todo as [|[sid path] todo IH]; intros s Hnd Hst.
  { exists (files s). split_and!; [by destruct s|by intros ? ? ?%not_elem_of_nil|done]. }
  cbn in Hnd. apply NoDup_cons in Hnd as [Hni Hnd].
  pose proof (Hst sid path ltac:(by left)) as Hcur.
  assert (∃ f1, ewhen (negb (bool_decide (read s path = next_state all states sid (read s path))))
      (writeJobsState path (next_state all states sid (read s path))) s = (set_files f1 s, Ok ()) ∧
    ∀ p, read (set_files f1 s) p = if decide (p = path) then next_state all states sid (read s path) else read s p)
    as (f1&Hw&Hr1).
  { case_bool_decide as Heq; cbn.
    - exists (files s). split; [by destruct s|]. intros p. case_decide; [by subst; rewrite <-Heq|done].
    - eexists. split; [done|]. intros p. apply read_write. }
  destruct (IH (set_files f1 s)) as (fs&Hrun&Hin&Hout); [done| |].
  { intros sid' path' Hp. rewrite Hr1, decide_False; [by apply Hst; right|].
    intros ->. apply Hni. by apply (list_elem_of_fmap_2 snd) in Hp. }
  exists fs. split; [|split].
  - cbn [write_sessions]. rewrite Hcur. cbn [default from_option Datatypes.id].
    change (MkState _ _) with (next_state all states sid (read s path)).
    unfold mbind at 1, eff_bind at 1. rewrite Hw. exact Hrun.
  - intros sid' path' [[= -> ->]|Hp]%elem_of_cons.
    + change (read (set_files fs s) path) with (read (set_files fs (set_files f1 s)) path).
      rewrite Hout by done. by rewrite Hr1, decide_True.
    + change (read (set_files fs s) path') with (read (set_files fs (set_files f1 s)) path').
      rewrite (Hin sid' path' Hp), Hr1, decide_False; [done|].
      intros ->. apply Hni. by apply (list_elem_of_fmap_2 snd) in Hp.
  - intros p Hp. change (read (set_files fs s) p) with (read (set_files fs (set_files f1 s)) p).
    cbn in Hp. apply not_elem_of_cons in Hp as [Hne Hp]. by rewrite Hout, Hr1, decide_False.
Qed.

Lemma session_path_unique s sid1 sid2 path : Inv s →
  (sid1, path) ∈ sessionArtifactFiles s → (sid2, path) ∈ sessionArtifactFiles s → sid1 = sid2.
Proof.
  intros HI H1 H2. assert ((sid1, path) = (sid2, path)) as [= ->]; [|done].
  by eapply (NoDup_fmap_eq snd); [apply (inv_paths s HI)|..].
Qed.

(** The files after a write of the sessions. *)
Section next.
Context (s s' : AgentCronJobStore) (all : list AgentCronJob).
Context (HI : Inv s) (Hincoming : incoming_ok s all) (Hmode : sessionArtifactMode s = true).
Context (Hreg : ∀ sid path, (sid, path) ∈ sessionArtifactFiles s →
  read s' path = next_state all (session_states s) sid (read s path)).
Context (Hun : ∀ p, p ∉ jm_values (sessionArtifactFiles s) → read s' p = read s p).

Let sts := session_states s.
Let registered (p : jsstr) : Prop := p ∈ jm_values (sessionArtifactFiles s).
Let all_dispatches := sts ≫= λ p, dispatches p.2.

Lemma sts_keys : keys_NoDup sts.
Proof. unfold keys_NoDup, sts. rewrite session_states_keys. apply (inv_sessions s HI). Qed.

Lemma sts_ok sid st : (sid, st) ∈ sts → file_ok st.
Proof. intros (path&_&->)%session_states_elem. apply (fo_file _ _ (inv_files s HI)). Qed.

Lemma sts_of p sid : (sid, p) ∈ sessionArtifactFiles s → (sid, read s p) ∈ sts.
Proof. intros Hp. apply session_states_elem. eauto. Qed.

Lemma sts_unique (f : CronJobsState → list jsstr) sid1 sid2 st1 st2 k :
  (∀ p q, k ∈ f (read s p) → k ∈ f (read s q) → p = q) → (sid1, st1) ∈ sts → (sid2, st2) ∈ sts →
  k ∈ f st1 → k ∈ f st2 → sid1 = sid2.
Proof.
  intros Hpq (p1&Hp1&->)%session_states_elem (p2&Hp2&->)%session_states_elem Hk1 Hk2.
  specialize (Hpq _ _ Hk1 Hk2) as ->. by eapply session_path_unique.
Qed.

Lemma sts_jobs_unique sid1 sid2 st1 st2 k : (sid1, st1) ∈ sts → (sid2, st2) ∈ sts →
  k ∈ ids (jobs st1) → k ∈ ids (jobs st2) → sid1 = sid2.
Proof. apply (sts_unique (ids ∘ jobs)). intros p q. apply (fo_unique _ _ (inv_files s HI)). Qed.

Lemma sts_dispatch_jobs : NoDup (dr_jobId <$> all_dispatches).
Proof.
  apply all_dispatches_NoDup; [apply sts_keys|intros; by eapply ok_dispatches, sts_ok|].
  intros sid1 sid2 st1 st2 k H1 H2 (d1&->&Hd1)%list_elem_of_fmap (d2&Hd&Hd2)%list_elem_of_fmap.
  eapply sts_jobs_unique; [exact H1|exact H2|by eapply ok_home; [eapply sts_ok|]|].
  rewrite Hd. by eapply ok_home; [eapply sts_ok|].
Qed.

Lemma sts_dispatch_ids : NoDup (dr_id <$> all_dispatches).
Proof.
  apply all_dispatches_NoDup; [apply sts_keys|intros; by eapply ok_dispatch_ids, sts_ok|].
  intros sid1 sid2 st1 st2 k. apply (sts_unique (λ st, dr_id <$> dispatches st)).
  intros p q. apply (fo_dispatch _ _ (inv_files s HI)).
Qed.

(** Where the jobs and dispatches of a file come from. *)
Lemma next_job p k : k ∈ ids (jobs (read s' p)) →
  (¬ registered p ∧ k ∈ ids (jobs (read s p))) ∨
  ∃ sid, (sid, p) ∈ sessionArtifactFiles s ∧ k ∈ ids (merged_session all sid (read s p)).
Proof.
  intros Hk. destruct (decide (p ∈ jm_values (sessionArtifactFiles s))) as [Hp|Hp].
  - apply jm_values_elem in Hp as [sid Hp]. right. exists sid. by rewrite (Hreg sid p Hp) in Hk.
  - left. by rewrite Hun in Hk.
Qed.

Lemma next_dispatch p k : k ∈ dr_id <$> dispatches (read s' p) →
  (¬ registered p ∧ k ∈ dr_id <$> dispatches (read s p)) ∨
  ∃ sid d q, (sid, p) ∈ sessionArtifactFiles s ∧ d ∈ all_dispatches ∧ k = dr_id d ∧
    session_of all sts (dr_jobId d) = Some sid ∧ registered q ∧ k ∈ dr_id <$> dispatches (read s q).
Proof.
  intros Hk. destruct (decide (p ∈ jm_values (sessionArtifactFiles s))) as [Hp|Hp].
  - apply jm_values_elem in Hp as [sid Hp]. right. rewrite (Hreg sid p Hp) in Hk.
    apply list_elem_of_fmap in Hk as (d&->&[Hs Hd]%list_elem_of_filter).
    pose proof Hd as Hd'. apply in_dispatches in Hd' as (sid'&st&(q&Hq&->)%session_states_elem&Hdq).
    exists sid, d, q. split_and!; try done; [unfold registered; apply jm_values_elem; eauto|by apply list_elem_of_fmap_2].
  - left. by rewrite Hun in Hk.
Qed.

Lemma next_foreign p q sid k : ¬ registered p → k ∈ ids (jobs (read s p)) →
  (sid, q) ∈ sessionArtifactFiles s → k ∈ ids (merged_session all sid (read s q)) → False.
Proof.
  destruct Hincoming as [Hall Hin]. intros Hp Hk Hq Hm.
  apply (proj2 (merged_ids all Hall sid _ (sts_ok _ _ (sts_of _ _ Hq)))) in Hm as [[Hkq _]|(j&[Hj <-]%find_job_Some&_)].
  - apply Hp. rewrite (fo_unique _ _ (inv_files s HI) _ _ _ Hk Hkq). unfold registered. apply jm_values_elem. eauto.
  - destruct (Hin (id j)) as [_ Hpaths]; [by apply list_elem_of_fmap_2|]. apply Hpaths in Hk.
    unfold state_paths in Hk. by rewrite Hmode in Hk.
Qed.

Lemma next_file_ok p : file_ok (read s' p).
Proof.
  destruct Hincoming as [Hall _]. destruct (decide (p ∈ jm_values (sessionArtifactFiles s))) as [Hp|Hp].
  - apply jm_values_elem in Hp as [sid Hp]. rewrite (Hreg sid p Hp).
    pose proof (sts_of _ _ Hp) as Hst. constructor; cbn.
    + by apply merged_ids, (sts_ok _ _ Hst).
    + apply NoDup_fmap_filter, sts_dispatch_jobs.
    + intros d [Hs _]%list_elem_of_filter.
      apply (session_of_spec all Hall sts sts_ok sts_jobs_unique) in Hs as (st&Hst'&Hk).
      apply session_states_elem in Hst' as (p'&Hp'&->).
      assert ((sid, p) = (sid, p')) as [= <-]; [|done].
      by eapply (NoDup_fmap_eq fst); [apply (inv_sessions s HI)|..].
    + apply NoDup_fmap_filter, sts_dispatch_ids.
  - rewrite Hun by done. apply (fo_file _ _ (inv_files s HI)).
Qed.

Lemma next_files_ok : files_ok (uuids s) (read s').
Proof.
  pose proof (inv_files s HI) as Hf. constructor.
  - apply next_file_ok.
  - intros p q k [[Hp Hk]|(sid&Hp&Hk)]%next_job [[Hq Hk']|(sid'&Hq&Hk')]%next_job.
    + by eapply (fo_unique _ _ Hf).
    + by destruct (next_foreign p q sid' k).
    + by destruct (next_foreign q p sid k).
    + assert (sid = sid') as ->.
      { eapply (merged_unique all (proj1 Hincoming) sts sts_ok sts_jobs_unique); by eauto using sts_of. }
      assert ((sid', p) = (sid', q)) as [= <-]; [|done].
      by eapply (NoDup_fmap_eq fst); [apply (inv_sessions s HI)|..].
  - intros p q k [[Hp Hk]|(sid&d&p0&Hp&Hd&->&Hs&Hp0&Hk)]%next_dispatch [[Hq Hk']|(sid'&d'&q0&Hq&Hd'&Hdd&Hs'&Hq0&Hk')]%next_dispatch.
    + by eapply (fo_dispatch _ _ Hf).
    + exfalso. apply Hp. by rewrite (fo_dispatch _ _ Hf _ _ _ Hk Hk').
    + exfalso. apply Hq. by rewrite (fo_dispatch _ _ Hf _ _ _ Hk' Hk).
    + assert (d = d') as <- by by eapply (NoDup_fmap_eq dr_id); [apply sts_dispatch_ids|..].
      rewrite Hs in Hs'. injection Hs' as <-. assert ((sid, p) = (sid, q)) as [= <-]; [|done].
      by eapply (NoDup_fmap_eq fst); [apply (inv_sessions s HI)|..].
  - intros p k [[_ Hk]|(sid&Hp&Hk)]%next_job; [by eapply (fo_job_gen _ _ Hf)|].
    apply (proj2 (merged_ids all (proj1 Hincoming) sid _ (sts_ok _ _ (sts_of _ _ Hp)))) in Hk as [[Hk _]|(j&[Hj <-]%find_job_Some&_)].
    + by eapply (fo_job_gen _ _ Hf).
    + apply (proj2 Hincoming). by apply list_elem_of_fmap_2.
  - intros p k [[_ Hk]|(sid&d&q&_&_&_&_&_&Hk)]%next_dispatch; by eapply (fo_dispatch_gen _ _ Hf).
Qed.
End next.

Lemma keeps_run {A} (P : AgentCronJobStore → Prop) (m : eff AgentCronJobStore jsstr A) s : keeps P m → P s → P (m s).1.
Proof. intros Hm Hs. specialize (Hm s Hs). by destruct (m s) as [s' [a|e]]. Qed.

Lemma run_keeps {A} (P : AgentCronJobStore → Prop) (m : eff AgentCronJobStore jsstr A) : (∀ s, P s → P (m s).1) → keeps P m.
Proof. intros Hm s Hs. specialize (Hm s Hs). by destruct (m s) as [s' [a|e]]. Qed.

Lemma out_run_bind {A B} (P : AgentCronJobStore → Prop) (m : eff AgentCronJobStore jsstr A) (f : A → eff AgentCronJobStore jsstr B) s :
  P (m s).1 → (∀ a, (m s).2 = Ok a → P (f a (m s).1).1) → P ((m ≫= f) s).1.
Proof. unfold mbind, eff_bind. destruct (m s) as [s' [a|e]]; [|done]. intros _ Hf. by apply Hf. Qed.

Lemma run_seq {A B} (P : AgentCronJobStore → Prop) (m : eff AgentCronJobStore jsstr A) (f : A → eff AgentCronJobStore jsstr B) s :
  P (m s).1 → (∀ a, keeps P (f a)) → P ((m ≫= f) s).1.
Proof. intros Hm Hf. apply out_run_bind; [done|]. intros a _. by apply keeps_run. Qed.

(** The files, the sessions and the counter decide. *)
Lemma Inv_same s s' : files s' = files s → sessionArtifactFiles s' = sessionArtifactFiles s → uuids s' = uuids s →
  Inv s → Inv s'.
Proof.
  intros Hf Hs Hu [H1 H2 H3]. constructor; [|by rewrite Hs|by rewrite Hs]. rewrite Hu.
  eapply files_ok_ext; [|exact H1]. intros p. unfold read, readJobsState. by rewrite Hf.
Qed.

Lemma keeps_lift {A} (P : AgentCronJobStore → Prop) (r : result jsstr A) : keeps P (lift r).
Proof. apply run_keeps. done. Qed.

Lemma notify_Inv prev : keeps Inv (notify_if_changed prev).
Proof.
  unfold notify_if_changed. apply keeps_bind; [apply keeps_gets|]. intros now. apply keeps_when, keeps_modify.
  intros s. by apply Inv_same.
Qed.

(** [writeJobs] keeps the invariant, also when it throws. *)
Lemma writeJobs_Inv all s : Inv s → incoming_ok s all → Inv (writeJobs all s).1.
Proof.
  intros HI Hin. unfold writeJobs. apply (out_run_bind Inv); [done|]. intros prev [= <-]. cbn [fst egets].
  apply (out_run_bind Inv); [done|]. intros s1 [= <-]. cbn [fst eget].
  apply (run_seq Inv); [|intros _; apply notify_Inv]. destruct (sessionArtifactMode s) eqn:Hmode.
  2:{ destruct (filePath s) as [path|] eqn:Hp; [|done]. by apply write_legacy_Inv. }
  destruct (list_find _ all) as [[i j]|]; [done|].
  destruct (write_sessions_reads all (session_states s) (sessionArtifactFiles s) s) as (fs&->&Hreg&Hun);
    [apply (inv_paths s HI)|intros sid path Hin'; apply elem_jm_get;
       [unfold keys_NoDup; rewrite session_states_keys; apply (inv_sessions s HI)|apply session_states_elem; eauto]|].
  constructor; [by eapply (next_files_ok s)|apply (inv_sessions s HI)|apply (inv_paths s HI)].
Qed.

(** ** The operations *)

Lemma state_paths_NoDup s : Inv s → NoDup (state_paths s).
Proof.
  intros HI. unfold state_paths. destruct (sessionArtifactMode s); [apply (inv_paths s HI)|].
  destruct (filePath s); cbn; [apply NoDup_singleton|constructor].
Qed.

Lemma readJobs_elem s k : k ∈ ids (readJobs s) ↔ ∃ p, p ∈ state_paths s ∧ k ∈ ids (jobs (read s p)).
Proof.
  unfold readJobs, readStates, ids. rewrite list_elem_of_fmap. split.
  - intros (j&->&(st&Hj&(p&->&Hp)%list_elem_of_fmap)%list_elem_of_bind). exists p. split; [done|]. by apply list_elem_of_fmap_2.
  - intros (p&Hp&(j&->&Hj)%list_elem_of_fmap). exists j. split; [done|]. apply list_elem_of_bind.
    exists (read s p). split; [done|]. apply list_elem_of_fmap. by exists p.
Qed.

Lemma readJobs_NoDup s : Inv s → NoDup (ids (readJobs s)).
Proof.
  intros HI. unfold readJobs, readStates. pose proof (state_paths_NoDup s HI) as Hnd.
  induction (state_paths s) as [|p ps IH]; [constructor|]. apply NoDup_cons in Hnd as [Hni Hnd].
  cbn. unfold ids. rewrite fmap_app. apply NoDup_app. split_and!; [apply (fo_file _ _ (inv_files s HI))| |by apply IH].
  intros k Hk (j&->&(st&Hj&(q&->&Hq)%list_elem_of_fmap)%list_elem_of_bind)%list_elem_of_fmap.
  apply Hni. assert (p = q) as ->; [|done]. eapply (fo_unique _ _ (inv_files s HI)); [exact Hk|].
  by apply list_elem_of_fmap_2.
Qed.

Lemma incoming_own s : Inv s → incoming_ok s (readJobs s).
Proof.
  intros HI. split; [by apply readJobs_NoDup|]. intros k (p&Hp&Hk)%readJobs_elem.
  split; [by eapply (fo_job_gen _ _ (inv_files s HI))|]. intros q Hq.
  by rewrite (fo_unique _ _ (inv_files s HI) _ _ _ Hq Hk).
Qed.

(** Replacing jobs keeps their identifiers. *)
Lemma edit_jobs_ids f l l' c : (∀ j j', f j = Ok (Some j') → id j' = id j) → edit_jobs f l = Ok (l', c) → ids l' = ids l.
Proof.
  intros Hf. revert l' c. induction l as [|j l IH]; intros l' c; cbn [edit_jobs]; [by intros [= <- <-]|].
  intros (o&Ho&([l1 c1]&Hr&E)%bind_Ok)%bind_Ok. specialize (IH _ _ Hr).
  unfold ids in *. destruct o as [j'|]; injection E as <- <-; cbn; rewrite IH; [|done].
  by rewrite (Hf _ _ Ho).
Qed.

Lemma incoming_ids s l l' : ids l' = ids l → incoming_ok s l → incoming_ok s l'.
Proof. intros E. unfold incoming_ok. by rewrite E. Qed.

Lemma update_jobs_Inv f : (∀ j j', f j = Ok (Some j') → id j' = id j) → keeps Inv (update_jobs f).
Proof.
  intros Hf. apply run_keeps. intros s HI. unfold update_jobs.
  apply (out_run_bind Inv); [done|]. intros l [= <-]. cbn [fst egets].
  apply (out_run_bind Inv); [done|]. intros [l' c] Hl. cbn [snd lift] in Hl. cbn [fst lift].
  apply (run_seq Inv); [|intros _; apply keeps_ret]. cbn [fst snd]. destruct (negb _); [|done].
  apply writeJobs_Inv; [done|]. apply (incoming_ids _ (readJobs s)); [by eapply edit_jobs_ids|by apply incoming_own].
Qed.

Lemma replace_job_Inv jobId f : (∀ j, id (f j) = id j) → keeps Inv (replace_job jobId f).
Proof.
  intros Hf. apply run_keeps. intros s HI. unfold replace_job.
  apply (out_run_bind Inv); [done|]. intros l [= <-]. cbn [fst egets].
  apply (out_run_bind Inv); [done|]. intros [l' c] Hl. cbn [snd lift] in Hl. cbn [fst lift].
  apply (run_seq Inv); [|intros _; apply keeps_ret]. cbn [fst snd].
  apply writeJobs_Inv; [done|]. apply (incoming_ids _ (readJobs s)); [|by apply incoming_own].
  eapply edit_jobs_ids; [|exact Hl]. intros j j'. cbn. case_bool_decide; [|done]. by intros [= <-].
Qed.

(** *** New identifiers *)

Context `{!Inj (=) (=) randomUUID}.

Lemma newId_spec s : Inv s → Inv (newId s).1 ∧ ∃ k, (newId s).2 = Ok k ∧ generated (uuids (newId s).1) k ∧ ¬ generated (uuids s) k.
Proof.
  intros [[H1 H2 H3 H4 H5] H6 H7]. split.
  - constructor; [|done..]. constructor; try done; intros p k Hk;
      (apply (generated_mono (uuids s)); [cbn; lia|eauto]).
  - eexists. split; [done|]. split; [exists (uuids s); cbn; split; [lia|done]|].
    intros (i&Hi&E%(inj _)). lia.
Qed.

(** Writing the jobs that were read, unchanged but for their fields, and a new
    one. *)
Lemma write_new_Inv s k l job : Inv s → ids l = ids (readJobs s) → (newId s).2 = Ok k → id job = k →
  Inv (writeJobs (l ++ [job]) (newId s).1).1.
Proof.
  intros HI Hl Hk Hid. destruct (newId_spec s HI) as (HI'&k'&Hk'&Hg&Hn). rewrite Hk in Hk'. injection Hk' as <-.
  apply writeJobs_Inv; [done|]. destruct (incoming_own s HI) as [Hnd Hin]. split.
  - unfold ids in *. rewrite fmap_app, Hl. apply NoDup_app. split_and!; [done| |apply NoDup_singleton].
    intros x Hx ->%list_elem_of_singleton. rewrite Hid in Hx. by apply Hn, Hin.
  - unfold ids in *. rewrite fmap_app, Hl. intros x [Hx|Hx%list_elem_of_singleton]%elem_of_app.
    + destruct (Hin x Hx) as [Hgx Hpx]. split; [apply (generated_mono (uuids s)); [cbn; lia|done]|exact Hpx].
    + subst x. rewrite Hid. split; [done|]. intros p Hp. exfalso.
      by apply Hn, (fo_job_gen _ _ (inv_files s HI) p).
Qed.

Lemma lift_run {A B} (P : AgentCronJobStore → Prop) (r : result jsstr A) (f : A → eff AgentCronJobStore jsstr B) s :
  P s → (∀ a, r = Ok a → P (f a s).1) → P ((lift r ≫= f) s).1.
Proof. intros Hs Hf. by apply out_run_bind. Qed.

Lemma finish_create_Inv s l (mk : jsstr → Stamp → AgentCronJob) (next : result jsstr Stamp) :
  Inv s → ids l = ids (readJobs s) → (∀ k n, id (mk k n) = k) →
  Inv ((newId ≫= λ k, lift next ≫= λ n, writeJobs (l ++ [mk k n]);; mret (mk k n)) s).1.
Proof.
  intros HI Hl Hmk. apply (out_run_bind Inv); [by apply newId_spec|]. intros k Hk.
  apply lift_run; [by apply newId_spec|]. intros n _. apply (run_seq Inv); [|intros _; apply keeps_ret].
  by apply (write_new_Inv s k).
Qed.

Lemma create_Inv input now : keeps Inv (create input now).
Proof.
  apply run_keeps. intros s HI. unfold create. case_bool_decide; [done|].
  apply lift_run; [done|]. intros parsed _.
  apply (finish_create_Inv s (readJobs s) (λ k n, new_job k (default SourceCron (in_source input)) None input
    (trim (in_prompt input)) parsed.1 now n) (toISOString parsed.2) HI); done.
Qed.

Lemma createRlmHeartbeat_Inv input now : keeps Inv (createRlmHeartbeat input now).
Proof.
  apply run_keeps. intros s HI. unfold createRlmHeartbeat. apply lift_run; [done|]. intros parsed _.
  case_bool_decide; [done|]. case_bool_decide; [done|].
  apply (finish_create_Inv s (readJobs s) (λ k n, new_job k SourceRlmHeartbeat (heartbeat_mode input) input
    (trim (in_prompt input)) parsed.1 now n) (toISOString parsed.2) HI); done.
Qed.

Lemma createHeartbeat_Inv input now : keeps Inv (createHeartbeat input now).
Proof.
  apply run_keeps. intros s HI. unfold createHeartbeat. apply lift_run; [done|]. intros parsed _.
  case_bool_decide; [done|]. apply (out_run_bind Inv); [done|]. intros existing [= <-]. cbn [fst egets].
  case_bool_decide; [done|].
  eapply (finish_create_Inv s _ (λ k n, new_job k SourceHeartbeat (heartbeat_mode input) input
    (trim (in_prompt input)) parsed.1 now n) (toISOString parsed.2) HI); [|done].
  unfold ids. rewrite <-list_fmap_compose. apply list_fmap_ext. intros i j _. cbn. by destruct (is_live_heartbeat _ _).
Qed.

(** *** Changing the state files *)

(** A mutator draws identifiers and keeps one file in order. *)
Definition mutator_ok {A} (m : CronJobsState → eff AgentCronJobStore jsstr (CronJobsState * list A)) : Prop :=
  ∀ s st, file_ok st → (∀ k, k ∈ dr_id <$> dispatches st → generated (uuids s) k) →
    files (m st s).1 = files s ∧ sessionArtifactFiles (m st s).1 = sessionArtifactFiles s ∧
    (uuids s <= uuids (m st s).1)%nat ∧
    ∀ st' out, (m st s).2 = Ok (st', out) → file_ok st' ∧ ids (jobs st') = ids (jobs st) ∧
      ∀ k, k ∈ dr_id <$> dispatches st' → k ∈ dr_id <$> dispatches st ∨
        generated (uuids (m st s).1) k ∧ ¬ generated (uuids s) k.

Lemma Inv_more_uuids s s' : files s' = files s → sessionArtifactFiles s' = sessionArtifactFiles s →
  (uuids s <= uuids s')%nat → Inv s → Inv s'.
Proof.
  intros Hf Hs Hu [[H1 H2 H3 H4 H5] H6 H7].
  assert (∀ p, read s' p = read s p) as Hr by (intros p; unfold read, readJobsState; by rewrite Hf).
  constructor; [|by rewrite Hs|by rewrite Hs].
  constructor; intros *; rewrite ?Hr; eauto; intros Hk; (eapply generated_mono; [exact Hu|eauto]).
Qed.

Lemma mutate_paths_Inv {A} (m : CronJobsState → eff AgentCronJobStore jsstr (CronJobsState * list A)) paths :
  mutator_ok m → keeps Inv (mutate_paths m paths).
Proof.
  intros Hm. induction paths as [|p paths IH]; [apply keeps_ret|]. apply run_keeps. intros s HI. cbn [mutate_paths].
  apply (out_run_bind Inv); [done|]. intros st [= <-]. cbn [fst egets]. change (readJobsState p s) with (read s p).
  destruct (Hm s (read s p)) as (Hf&Hs&Hu&Hres);
    [apply (fo_file _ _ (inv_files s HI))|intros k; apply (fo_dispatch_gen _ _ (inv_files s HI))|].
  assert (Inv (m (read s p) s).1) as HI' by by eapply Inv_more_uuids.
  apply (out_run_bind Inv); [done|]. intros [st' out] Hst'. cbn [fst snd].
  apply (run_seq Inv); [|intros _; apply keeps_bind; [done|intros; apply keeps_ret]].
  case_bool_decide; [done|]. cbn. destruct (Hres _ _ Hst') as (Hok&Hids&Hd).
  constructor; [|apply (inv_sessions _ HI')|apply (inv_paths _ HI')].
  set (s1 := (m (read s p) s).1) in *.
  assert (∀ q, read s1 q = read s q) as Hr by (intros q; unfold read, readJobsState; by rewrite Hf).
  eapply files_ok_ext; [intros q; symmetry; apply (read_write p st' s1)|].
  apply (files_ok_write (uuids s1)); [done|apply (inv_files _ HI')|done| |].
  - intros k Hk. left. by rewrite Hr, <-Hids.
  - intros k [Hk|[Hg Hn]]%Hd; [left; by rewrite Hr|right]. split; [done|]. intros q. rewrite Hr. intros Hq. exfalso.
    by apply Hn, (fo_dispatch_gen _ _ (inv_files s HI) q).
Qed.

Lemma mutateStates_Inv {A} (m : CronJobsState → eff AgentCronJobStore jsstr (CronJobsState * list A)) :
  mutator_ok m → keeps Inv (mutateStates m).
Proof.
  intros Hm. unfold mutateStates. apply keeps_bind; [apply keeps_gets|]. intros paths.
  apply keeps_bind; [apply keeps_gets|]. intros prev. apply keeps_bind; [by apply mutate_paths_Inv|]. intros r.
  apply keeps_bind; [apply keeps_when, notify_Inv|intros; apply keeps_ret].
Qed.

(** *** Claims *)

(** What a claim makes of a job. *)
Definition claimed_version (claimed : list jsstr) (dueAt claimedAt : Z) (j j' : AgentCronJob) : Prop :=
  if isDueJob j dueAt then
    ∃ n next, nextRunAtForSchedule (schedule j) claimedAt = Ok n ∧ iso_option n = Ok next ∧
      j' = if bool_decide (id j ∈ claimed)
           then with_lastSkippedAt (Some (At claimedAt)) (advanced_job next claimedAt j)
           else advanced_job next claimedAt j
  else j' = j.

(** A job that is due and has no outstanding dispatch. *)
Definition claimable (claimed : list jsstr) (dueAt : Z) (j : AgentCronJob) : Prop :=
  isDueJob j dueAt = true ∧ id j ∉ claimed.
#[export] Instance claimable_dec claimed dueAt j : Decision (claimable claimed dueAt j).
Proof. unfold claimable. apply _. Defined.

Definition dispatch_of (r : AgentCronDispatchRecord) (d : AgentCronDispatch) : Prop :=
  d_id d = dr_id r ∧ id (d_job d) = dr_jobId r.

Definition claim_result (claimed : list jsstr) (dueAt claimedAt : Z) (todo : list AgentCronJob) (n n' : nat)
    (r : list AgentCronJob * list AgentCronDispatchRecord * list AgentCronDispatch) : Prop :=
  Forall2 (claimed_version claimed dueAt claimedAt) todo r.1.1 ∧
  dr_jobId <$> r.1.2 = ids (filter (claimable claimed dueAt) todo) ∧
  dr_id <$> r.1.2 = randomUUID <$> seq n (length r.1.2) ∧ n' = (n + length r.1.2)%nat ∧
  Forall2 dispatch_of r.1.2 r.2.

Lemma isDueJob_next j now : isDueJob j now = true → ∃ t, nextRunAt j = Some t.
Proof. unfold isDueJob. intros [_ E]%andb_true_iff. destruct (nextRunAt j); [eauto|done]. Qed.

Lemma claim_jobs_spec claimed dueAt claimedAt todo : ∀ s,
  let r := claim_jobs claimed dueAt claimedAt todo s in
  files r.1 = files s ∧ sessionArtifactFiles r.1 = sessionArtifactFiles s ∧ (uuids s <= uuids r.1)%nat ∧
  ∀ x, r.2 = Ok x → claim_result claimed dueAt claimedAt todo (uuids s) (uuids r.1) x.
Proof.
  induction todo as [|j todo IH]; intros s; cbn [claim_jobs].
  { cbn. split_and!; try done. intros x [= <-]. by split_and!; cbn. }
  unfold claim_result. rewrite filter_cons.
  destruct (isDueJob j dueAt) eqn:Hdue.
  2:{ unfold mbind, eff_bind. specialize (IH s). cbv zeta in *.
      destruct (claim_jobs claimed dueAt claimedAt todo s) as [s1 [x1|e]]; cbn in *; [|destruct IH as (?&?&?&_); by split_and!].
      destruct IH as (?&?&?&IH). split_and!; try done. intros x [= <-]. cbn.
      destruct (IH x1 eq_refl) as (Hv&Hj&Hi&Hn&Hd). rewrite decide_False by (intros [? ?]; congruence). split_and!; try done.
      constructor; [|done]. unfold claimed_version. by rewrite Hdue. }
  destruct (isDueJob_next j dueAt Hdue) as [t Ht]. rewrite Ht. unfold mbind, eff_bind, lift. cbv zeta.
  destruct (nextRunAtForSchedule (schedule j) claimedAt) as [n|e] eqn:Hn; [|done].
  destruct (iso_option n) as [next|e] eqn:Hnext; [|done].
  assert (∀ b, bool_decide (id j ∈ claimed) = b → claimed_version claimed dueAt claimedAt j
    (if b then with_lastSkippedAt (Some (At claimedAt)) (advanced_job next claimedAt j) else advanced_job next claimedAt j)) as Hjv.
  { intros b <-. unfold claimed_version. rewrite Hdue. eauto. }
  case_bool_decide as Hc.
  - specialize (IH s). cbv zeta in IH. destruct (claim_jobs claimed dueAt claimedAt todo s) as [s1 [x1|e]]; cbn in *; [|destruct IH as (?&?&?&_); by split_and!].
    destruct IH as (?&?&?&IH). split_and!; try done. intros x [= <-]. cbn.
    destruct (IH x1 eq_refl) as (Hv&Hj&Hi&Hnn&Hd). rewrite decide_False by (intros [? ?]; congruence). split_and!; try done.
    constructor; [|done]. by apply (Hjv true).
  - specialize (IH (newId s).1). cbv zeta in IH. cbn [newId fst] in *.
    destruct (claim_jobs claimed dueAt claimedAt todo _) as [s1 [x1|e]]; cbn in *;
      [|destruct IH as (?&?&?&_); split_and!; try done; lia].
    destruct IH as (?&?&?&IH). split_and!; try done; [lia|]. intros x [= <-]. cbn.
    destruct (IH x1 eq_refl) as (Hv&Hj&Hi&Hnn&Hd). rewrite decide_True by (by split). cbn.
    split_and!; [|by rewrite Hj|by rewrite Hi|lia|by constructor].
    constructor; [|done]. by apply (Hjv false).
Qed.

Lemma claimed_version_id claimed dueAt claimedAt l l' :
  Forall2 (claimed_version claimed dueAt claimedAt) l l' → ids l' = ids l.
Proof.
  unfold ids. induction 1 as [|j j' l l' Hj _ IH]; [done|]. cbn. f_equal; [|done].
  unfold claimed_version in Hj. destruct (isDueJob j dueAt); [|by subst].
  destruct Hj as (n&next&_&_&->). by case_bool_decide.
Qed.

(** The state after a claim that returned. *)
Lemma claimDueInState_run dueAt claimedAt st s s' st' ds :
  claimDueInState dueAt claimedAt st s = (s', Ok (st', ds)) →
  ∃ recs, dispatches st' = dispatches st ++ recs ∧
    claim_result (dr_jobId <$> dispatches st) dueAt claimedAt (jobs st) (uuids s) (uuids s') (jobs st', recs, ds).
Proof.
  unfold claimDueInState, mbind, eff_bind.
  pose proof (claim_jobs_spec (dr_jobId <$> dispatches st) dueAt claimedAt (jobs st) s) as Hc. cbv zeta in Hc.
  destruct (claim_jobs _ _ _ _ s) as [s1 [[[l recs] ds']|e]]; [|done]. cbn in *. intros [= <- <- <-].
  destruct Hc as (_&_&_&Hc). exists recs. split; [done|]. by apply Hc.
Qed.

Lemma claimDueInState_ok dueAt claimedAt : mutator_ok (claimDueInState dueAt claimedAt).
Proof.
  intros s st Hst Hgen. pose proof (claimDueInState_run dueAt claimedAt st s) as Hrun.
  pose proof (claim_jobs_spec (dr_jobId <$> dispatches st) dueAt claimedAt (jobs st) s) as Hc. cbv zeta in Hc.
  assert ((claimDueInState dueAt claimedAt st s).1 = (claim_jobs (dr_jobId <$> dispatches st) dueAt claimedAt (jobs st) s).1) as ->.
  { unfold claimDueInState, mbind, eff_bind. by destruct (claim_jobs _ _ _ _ s) as [s1 [x|e]]. }
  destruct Hc as (Hf&Hs&Hu&_). split_and!; [done..|]. intros st' ds Hres.
  destruct (claimDueInState dueAt claimedAt st s) as [s1 r] eqn:E. cbn in Hres. subst r.
  destruct (Hrun _ _ _ eq_refl) as (recs&Hd&Hv&Hj&Hi&Hn&_). cbn in *.
  pose proof (claimed_version_id _ _ _ _ _ Hv) as Hids.
  assert (uuids (claim_jobs (dr_jobId <$> dispatches st) dueAt claimedAt (jobs st) s).1 = (uuids s + length recs)%nat) as Hnu.
  { revert E Hn. unfold claimDueInState, mbind, eff_bind. destruct (claim_jobs _ _ _ _ s) as [s2 [x|e]]; [|done].
    cbn. by intros [= -> _]. }
  assert (∀ k, k ∈ dr_id <$> recs → generated (uuids s + length recs) k ∧ ¬ generated (uuids s) k) as Hnew.
  { intros k. rewrite Hi. intros (i&->&Hin)%list_elem_of_fmap. apply elem_of_seq in Hin. split; [exists i; split; [lia|done]|].
    intros (i'&Hi'&Ei%(inj _)). lia. }
  rewrite Hnu. split_and!; [|done|].
  - constructor; rewrite ?Hids.
    + apply Hst.
    + rewrite Hd, fmap_app, Hj. apply NoDup_app. split_and!; [apply Hst| |apply NoDup_fmap_filter, Hst].
      intros k Hk (j&->&[[_ Hnot] _]%list_elem_of_filter)%list_elem_of_fmap. done.
    + intros d. rewrite Hd. intros [Hin|Hin]%elem_of_app; [by apply Hst|].
      apply (list_elem_of_fmap_2 dr_jobId) in Hin. rewrite Hj in Hin.
      apply list_elem_of_fmap in Hin as (j&->&[_ Hin]%list_elem_of_filter). by apply list_elem_of_fmap_2.
    + rewrite Hd, fmap_app. apply NoDup_app. split_and!; [apply Hst| |rewrite Hi; apply NoDup_fmap; [done|apply NoDup_seq]].
      intros k Hk Hk'. apply Hnew in Hk' as [_ Hk']. by apply Hk', Hgen.
  - intros k. rewrite Hd, fmap_app. intros [?|?]%elem_of_app; [by left|right; by apply Hnew].
Qed.

(** A state with the same jobs, up to their fields, and fewer dispatches. *)
Lemma fewer_dispatches_ok st js' (P : AgentCronDispatchRecord → Prop) `{∀ d, Decision (P d)} :
  file_ok st → ids js' = ids (jobs st) → file_ok (MkState js' (filter P (dispatches st))).
Proof.
  intros [Hjobs Hds Hjob Hdids] Hids. constructor; cbn [jobs dispatches]; rewrite ?Hids.
  - done.
  - by apply NoDup_fmap_filter.
  - intros d [_ Hd]%list_elem_of_filter. by apply Hjob.
  - by apply NoDup_fmap_filter.
Qed.

Lemma finished_job_id now outcome error j j' : finished_job now outcome error j = Ok j' → id j' = id j.
Proof.
  unfold finished_job. destruct outcome, error; try (by intros [= <-]).
  by intros (n&_&(next&_&[= <-])%bind_Ok)%bind_Ok.
Qed.

Lemma finish_dispatch_run dispatchId now outcome error st st' out : file_ok st →
  finish_dispatch dispatchId now outcome error st = Ok (st', out) →
  file_ok st' ∧ ids (jobs st') = ids (jobs st) ∧ (∀ d, d ∈ dispatches st' ↔ d ∈ dispatches st ∧ dr_id d ≠ dispatchId).
Proof.
  intros Hst. unfold finish_dispatch. destruct (list_find _ _) as [[i d]|] eqn:E.
  - intros ([l c]&Hr&[= <- <-])%bind_Ok. apply edit_jobs_ids in Hr.
    2:{ intros j j'. destruct (_ || _); [done|]. destruct (finished_job _ _ _ j) as [x|] eqn:Ef; [|done].
        intros [= <-]. by eapply finished_job_id. }
    cbn. split_and!; [by apply fewer_dispatches_ok|done|]. intros d'. rewrite list_elem_of_filter. naive_solver.
  - intros [= <- <-]. split_and!; [done..|]. intros d. split; [|by intros [? _]]. intros Hd. split; [done|].
    apply list_find_None in E. rewrite Forall_forall in E. by apply E.
Qed.

Lemma interrupted_ids now (p : AgentCronJob → bool) l :
  ids ((λ j, if p j then interrupted_job now j else j) <$> l) = ids l.
Proof. unfold ids. rewrite <-list_fmap_compose. apply list_fmap_ext. intros i j _. cbn. by destruct (p j). Qed.

Lemma recover_ok now sel st : file_ok st → file_ok (recoverInterruptedInState now sel st).1 ∧
  ids (jobs (recoverInterruptedInState now sel st).1) = ids (jobs st) ∧
  ∀ k, k ∈ dr_id <$> dispatches (recoverInterruptedInState now sel st).1 → k ∈ dr_id <$> dispatches st.
Proof.
  intros Hst. unfold recoverInterruptedInState. case_bool_decide; [done|]. cbn. split_and!.
  - apply fewer_dispatches_ok; [done|apply interrupted_ids].
  - apply interrupted_ids.
  - intros k (d&->&[_ Hd]%list_elem_of_filter)%list_elem_of_fmap. by apply list_elem_of_fmap_2.
Qed.

Lemma finish_mutator dispatchId now outcome error :
  mutator_ok (λ st, lift (finish_dispatch dispatchId now outcome error st)).
Proof.
  intros s st Hst Hgen. split_and!; [done..|]. intros st' out Hr.
  destruct (finish_dispatch_run _ _ _ _ _ _ _ Hst Hr) as (?&?&Hd). split_and!; [done..|].
  intros k (d&->&[Hin _]%Hd)%list_elem_of_fmap. left. by apply list_elem_of_fmap_2.
Qed.

Lemma recover_mutator now sel : mutator_ok (λ st, lift (Ok (recoverInterruptedInState now sel st))).
Proof.
  intros s st Hst Hgen. split_and!; [done..|]. cbn. intros st' out [= E].
  destruct (recover_ok now sel st Hst) as (?&?&Hd). rewrite E in *. cbn in *. split_and!; [done..|].
  intros k Hk. left. by apply Hd.
Qed.
End spec.
