(* ===== verification/CronStoreProps.v ===== *)
(** * Properties of the store of scheduled jobs

    The operations of [CronStore.v] as one step relation, its reachable states,
    and what a claim, the result of a dispatch and the recovery of interrupted
    dispatches do to the jobs. *)

From S2P Require Import Prelude.
From S2P Require Import JsMap.
From S2P Require Import JsString.
From S2P Require Import Eff.
From S2P Require Import CronSchedule.
From S2P Require Import CronScheduleSpec.
From S2P Require Import CronStore.
From S2P Require Import CronStoreSpec.

Lemma Forall2_impl_elem {A B} (P Q : A → B → Prop) l l' :
  Forall2 P l l' → (∀ x y, x ∈ l → P x y → Q x y) → Forall2 Q l l'.
Proof. induction 1; intros Hi; constructor; [apply Hi; [by left|done]|]. apply IHForall2. intros. apply Hi; [by right|done]. Qed.

Section props.
Context `{!Platform} `{!Clock} `{!Inj (=) (=) randomUUID}.

Implicit Types (s : AgentCronJobStore) (j : AgentCronJob) (p q : jsstr) (k : jsstr).

(** ** Changing the state files *)

(** Only the files and the counters change. *)
Definition same_shape s s' : Prop :=
  sessionArtifactMode s' = sessionArtifactMode s ∧ filePath s' = filePath s ∧
  sessionArtifactFiles s' = sessionArtifactFiles s.

#[export] Instance same_shape_equiv : PreOrder same_shape.
Proof. unfold same_shape. split; [done|]. intros s1 s2 s3 (->&->&->) (->&->&->). done. Qed.

Lemma same_shape_paths s s' : same_shape s s' → state_paths s' = state_paths s.
Proof. unfold state_paths. by intros (->&->&->). Qed.

(** Notifying never throws. *)
Lemma notify_run prev s :
  ∃ s2, notify_if_changed prev s = (s2, Ok ()) ∧ same_shape s s2 ∧ files s2 = files s ∧ uuids s2 = uuids s.
Proof.
  unfold notify_if_changed, mbind, eff_bind, egets. case_bool_decide; eexists; (split; [reflexivity|done]).
Qed.

Lemma read_files s s' p : files s' = files s → read s' p = read s p.
Proof. unfold read, readJobsState. by intros ->. Qed.

(** A mutator leaves the store but for its counter. *)
Definition quiet {A} (m : CronJobsState → eff AgentCronJobStore jsstr (CronJobsState * list A)) : Prop :=
  ∀ st s, same_shape s (m st s).1 ∧ files (m st s).1 = files s ∧ (uuids s <= uuids (m st s).1)%nat.

Lemma mutate_paths_run {A} (m : CronJobsState → eff AgentCronJobStore jsstr (CronJobsState * list A))
    (R : CronJobsState → CronJobsState → list A → Prop) :
  quiet m → (∀ st s s' st' out, m st s = (s', Ok (st', out)) → R st st' out) →
  ∀ paths s s' out b, NoDup paths → mutate_paths m paths s = (s', Ok (out, b)) →
    same_shape s s' ∧ (∀ q, q ∉ paths → read s' q = read s q) ∧
    ∃ outs, out = concat outs ∧ Forall2 (λ p o, R (read s p) (read s' p) o) paths outs.
Proof.
  intros Hq HR. induction paths as [|p paths IH]; intros s s' out b Hnd.
  { cbn. intros [= <- <- <-]. split_and!; [done..|]. by exists []. }
  apply NoDup_cons in Hnd as [Hni Hnd]. cbn [mutate_paths]. unfold mbind at 1 2, eff_bind at 1 2, egets.
  change (readJobsState p s) with (read s p). destruct (Hq (read s p) s) as (Hs1&Hf1&_).
  destruct (m (read s p) s) as [s1 [[st' o]|e]] eqn:Em; [|done]. cbn [fst snd] in *. specialize (HR _ _ _ _ _ Em).
  unfold mbind at 1, eff_bind at 1.
  assert (∃ s2, ewhen (negb (bool_decide (st' = read s p))) (writeJobsState p st') s1 = (s2, Ok ()) ∧
    same_shape s1 s2 ∧ ∀ q, read s2 q = if decide (q = p) then st' else read s q) as (s2&->&Hs2&Hr2).
  { case_bool_decide as Hst; cbn.
    - exists s1. split_and!; [done..|]. intros q. rewrite (read_files s s1) by done. case_decide; by subst.
    - eexists. split_and!; [done..|]. intros q. rewrite (read_write p st' s1 q). by rewrite (read_files s s1). }
  unfold mbind, eff_bind. destruct (mutate_paths m paths s2) as [s3 [[outs b']|e]] eqn:Erest; [|done].
  cbn [fst snd]. intros [= <- <- _].
  destruct (IH _ _ _ _ Hnd Erest) as (Hs3&Hout&os&->&Hos). split_and!.
  - by do 2 (etrans; [eassumption|]).
  - intros q [Hqp Hqs]%not_elem_of_cons. by rewrite Hout, Hr2, decide_False.
  - exists (o :: os). split; [done|]. constructor; [by rewrite Hout, Hr2, decide_True|].
    eapply Forall2_impl_elem; [exact Hos|]. intros q o' Hq'. cbn beta. rewrite Hr2, decide_False; [done|].
    by intros ->.
Qed.

Lemma mutateStates_run {A} (m : CronJobsState → eff AgentCronJobStore jsstr (CronJobsState * list A))
    (R : CronJobsState → CronJobsState → list A → Prop) s s' out :
  quiet m → (∀ st t t' st' o, m st t = (t', Ok (st', o)) → R st st' o) → Inv s → mutateStates m s = (s', Ok out) →
  same_shape s s' ∧
  ∃ outs, out = concat outs ∧ Forall2 (λ p o, R (read s p) (read s' p) o) (state_paths s) outs.
Proof.
  intros Hq HR HI. unfold mutateStates, egets. unfold mbind at 1 2 3, eff_bind at 1 2 3.
  destruct (mutate_paths m (state_paths s) s) as [s1 [[o b]|e]] eqn:E; [|done].
  destruct (mutate_paths_run m R Hq HR _ _ _ _ _ (state_paths_NoDup s HI) E) as (Hs&_&outs&->&Ho). cbn [fst snd].
  unfold mbind, eff_bind.
  assert (∃ s2, ewhen b (notify_if_changed (heartbeatCatalogSignature (readJobs s))) s1 = (s2, Ok ()) ∧
    same_shape s1 s2 ∧ files s2 = files s1) as (s2&->&Hs2&Hf2).
  { destruct b; cbn [ewhen]; [|by exists s1]. destruct (notify_run (heartbeatCatalogSignature (readJobs s)) s1)
      as (s2&?&?&?&?). by exists s2. }
  intros [= <- <-]. split; [by etrans|]. exists outs. split; [done|].
  eapply Forall2_impl; [exact Ho|]. intros p o. cbn beta. by rewrite (read_files s1 s2).
Qed.

(** The jobs and the outstanding dispatches of the state files. *)
Lemma readJobs_paths s : readJobs s = state_paths s ≫= λ p, jobs (read s p).
Proof. unfold readJobs, readStates. by rewrite list_fmap_bind. Qed.

Definition outstanding s : list AgentCronDispatchRecord := state_paths s ≫= λ p, dispatches (read s p).

(** A relation between the jobs of each file is one between all jobs. *)
Lemma Forall2_bind_paths {A B C} (f : A → list B) (g : A → list C) (P : B → C → Prop) l :
  (∀ x, x ∈ l → Forall2 P (f x) (g x)) → Forall2 P (l ≫= f) (l ≫= g).
Proof.
  induction l as [|x l IH]; intros Hl; [constructor|]. cbn. apply Forall2_app; [by apply Hl; left|].
  apply IH. intros y Hy. by apply Hl; right.
Qed.

Lemma quiet_lift {A} (f : CronJobsState → result jsstr (CronJobsState * list A)) : quiet (λ st, lift (f st)).
Proof. intros st s. done. Qed.

(** What is outstanding for a job of a file is in that file. *)
Lemma outstanding_here s p j : Inv s → p ∈ state_paths s → j ∈ jobs (read s p) →
  id j ∈ dr_jobId <$> outstanding s ↔ id j ∈ dr_jobId <$> dispatches (read s p).
Proof.
  intros HI Hp Hj. unfold outstanding. rewrite !list_elem_of_fmap. split; intros (d&Hd&Hin); exists d; (split; [done|]).
  - apply list_elem_of_bind in Hin as (q&Hin&Hq). assert (p = q) as ->; [|done].
    apply (fo_unique _ _ (inv_files s HI) p q (id j)); [by apply list_elem_of_fmap_2|].
    rewrite Hd. apply (ok_home _ (fo_file _ _ (inv_files s HI) q) d Hin).
  - apply list_elem_of_bind. by exists p.
Qed.

(** ** Claims *)

(** What a claim makes of a job of the store, given the jobs with an outstanding
    dispatch. *)
Definition claimed_here (dueAt claimedAt : Z) s (j j' : AgentCronJob) : Prop :=
  claimed_version (dr_jobId <$> outstanding s) dueAt claimedAt j j'.

Definition claimable_jobs (dueAt : Z) s : list AgentCronJob :=
  filter (claimable (dr_jobId <$> outstanding s) dueAt) (readJobs s).

Definition claim_file (dueAt claimedAt : Z) (st st' : CronJobsState) (ds : list AgentCronDispatch) : Prop :=
  ∃ recs, dispatches st' = dispatches st ++ recs ∧
    Forall2 (claimed_version (dr_jobId <$> dispatches st) dueAt claimedAt) (jobs st) (jobs st') ∧
    dr_jobId <$> recs = ids (filter (claimable (dr_jobId <$> dispatches st) dueAt) (jobs st)) ∧
    Forall2 dispatch_of recs ds.

Lemma claim_quiet dueAt claimedAt : quiet (claimDueInState dueAt claimedAt).
Proof.
  intros st s. unfold claimDueInState, mbind, eff_bind.
  assert (∀ claimed todo s, same_shape s (claim_jobs claimed dueAt claimedAt todo s).1 ∧
    files (claim_jobs claimed dueAt claimedAt todo s).1 = files s) as Hq0.
  { clear. intros claimed todo. induction todo as [|j todo IH]; intros s; [done|]. cbn [claim_jobs].
    assert (∀ s, same_shape s (newId s).1 ∧ files (newId s).1 = files s) as Hn by done.
    destruct (isDueJob j dueAt); [destruct (nextRunAt j)|].
    2,3: unfold mbind, eff_bind; specialize (IH s); by destruct (claim_jobs claimed dueAt claimedAt todo s) as [s1 [x|e]].
    unfold mbind, eff_bind, lift. destruct (nextRunAtForSchedule _ _) as [n|e]; [|done].
    destruct (iso_option n) as [next|e]; [|done]. case_bool_decide.
    - specialize (IH s). by destruct (claim_jobs claimed dueAt claimedAt todo s) as [s1 [x|e]].
    - specialize (IH (newId s).1). cbn [newId] in *. cbn [fst] in IH.
      by destruct (claim_jobs claimed dueAt claimedAt todo _) as [s1 [x|e]]. }
  destruct (Hq0 (dr_jobId <$> dispatches st) (jobs st) s) as [Hshape Hf].
  destruct (claim_jobs_spec (dr_jobId <$> dispatches st) dueAt claimedAt (jobs st) s) as (_&_&Hu&_).
  by destruct (claim_jobs _ _ _ _ s) as [s1 [x|e]].
Qed.

(** The files after a claim. *)
Lemma claimDue_files dueAt claimedAt s s' ds : Inv s → claimDue dueAt claimedAt s = (s', Ok ds) →
  same_shape s s' ∧ ∃ outs, ds = concat outs ∧
    Forall2 (λ p o, claim_file dueAt claimedAt (read s p) (read s' p) o) (state_paths s) outs.
Proof.
  intros HI. apply mutateStates_run; [apply claim_quiet| |done].
  intros st t t' st' o (recs&Hd&Hv&Hj&_&_&Ho)%claimDueInState_run. by exists recs.
Qed.

Lemma claimed_version_ext (c c' : list jsstr) dueAt claimedAt j j' : (id j ∈ c ↔ id j ∈ c') →
  claimed_version c dueAt claimedAt j j' → claimed_version c' dueAt claimedAt j j'.
Proof.
  intros Hc. unfold claimed_version. destruct (isDueJob j dueAt); [|done].
  intros (n&next&?&?&->). exists n, next. split_and!; [done..|]. by rewrite (bool_decide_ext _ _ Hc).
Qed.

Lemma dispatch_of_jobs recs ds : Forall2 dispatch_of recs ds → (λ d, id (d_job d)) <$> ds = dr_jobId <$> recs.
Proof. induction 1 as [|r d recs ds [_ Hr] _ IH]; [done|]. cbn [fmap list_fmap]. by rewrite IH, Hr. Qed.

Lemma concat_map_fmap {A B C} (f : B → C) (l : list A) (outs : list (list B)) (g : A → list C) :
  Forall2 (λ x o, f <$> o = g x) l outs → f <$> concat outs = l ≫= g.
Proof. induction 1 as [|x o l outs Ho _ IH]; [done|]. cbn. by rewrite fmap_app, Ho, IH. Qed.

Lemma filter_bind {A B} (P : B → Prop) `{∀ x, Decision (P x)} (f : A → list B) (l : list A) :
  filter P (l ≫= f) = l ≫= λ x, filter P (f x).
Proof. induction l as [|x l IH]; [done|]. cbn. by rewrite filter_app, IH. Qed.

Lemma fmap_bind {A B C} (f : B → C) (g : A → list B) (l : list A) : f <$> (l ≫= g) = l ≫= λ x, f <$> g x.
Proof. induction l as [|x l IH]; [done|]. cbn. by rewrite fmap_app, IH. Qed.

Lemma filter_ext_elem {A} (P Q : A → Prop) `{∀ x, Decision (P x), ∀ x, Decision (Q x)} (l : list A) :
  (∀ x, x ∈ l → P x ↔ Q x) → filter P l = filter Q l.
Proof.
  induction l as [|x l IH]; intros Hl; [done|]. rewrite !filter_cons, IH by (intros y Hy; apply Hl; by right).
  rewrite (decide_ext (P x) (Q x)) by (apply Hl; by left). done.
Qed.

(** Per file, the claim sees what is outstanding in the whole store. *)
Lemma claim_file_store dueAt claimedAt s p st' o : Inv s → p ∈ state_paths s →
  claim_file dueAt claimedAt (read s p) st' o →
  Forall2 (claimed_here dueAt claimedAt s) (jobs (read s p)) (jobs st') ∧
  ∃ recs, dispatches st' = dispatches (read s p) ++ recs ∧ (λ d, id (d_job d)) <$> o = dr_jobId <$> recs ∧
    dr_jobId <$> recs = ids (filter (claimable (dr_jobId <$> outstanding s) dueAt) (jobs (read s p))).
Proof.
  intros HI Hp (recs&Hd&Hv&Hj&Ho). split.
  - eapply Forall2_impl_elem; [exact Hv|]. intros j j' Hin. apply claimed_version_ext.
    by rewrite (outstanding_here s p).
  - exists recs. split_and!; [done|by apply dispatch_of_jobs|]. rewrite Hj. f_equal. apply filter_ext_elem.
    intros j Hin. unfold claimable. by rewrite (outstanding_here s p).
Qed.

Lemma claim_dispatched dueAt claimedAt s s' ds : Inv s → claimDue dueAt claimedAt s = (s', Ok ds) →
  (λ d, id (d_job d)) <$> ds = ids (claimable_jobs dueAt s).
Proof.
  intros HI (Hs&outs&->&Ho)%claimDue_files; [|done]. unfold claimable_jobs, ids.
  rewrite readJobs_paths, filter_bind, fmap_bind. apply concat_map_fmap.
  eapply Forall2_impl_elem; [exact Ho|]. intros p o Hp Hc.
  by destruct (claim_file_store _ _ _ _ _ _ HI Hp Hc) as (_&recs&_&->&Hr).
Qed.

Lemma claim_jobs_versions dueAt claimedAt s s' ds : Inv s → claimDue dueAt claimedAt s = (s', Ok ds) →
  Forall2 (claimed_here dueAt claimedAt s) (readJobs s) (readJobs s').
Proof.
  intros HI (Hs&outs&_&Ho)%claimDue_files; [|done]. rewrite !readJobs_paths, (same_shape_paths _ _ Hs).
  apply Forall2_bind_paths. intros p Hp. apply list_elem_of_lookup in Hp as [i Hi].
  destruct (Forall2_lookup_l _ _ _ _ _ Ho Hi) as (o&_&Hc).
  by apply (claim_file_store _ _ _ _ _ _ HI (list_elem_of_lookup_2 _ _ _ Hi) Hc).
Qed.

Lemma claim_outstanding dueAt claimedAt s s' ds : Inv s → claimDue dueAt claimedAt s = (s', Ok ds) →
  ∀ k, k ∈ dr_jobId <$> outstanding s' ↔ k ∈ dr_jobId <$> outstanding s ∨ k ∈ ids (claimable_jobs dueAt s).
Proof.
  intros HI (Hs&outs&_&Ho)%claimDue_files k; [|done]. unfold outstanding at 1 2, claimable_jobs, ids.
  rewrite (same_shape_paths _ _ Hs), readJobs_paths, filter_bind, !fmap_bind, !list_elem_of_bind.
  assert (∀ p, p ∈ state_paths s → k ∈ dr_jobId <$> dispatches (read s' p) ↔
    k ∈ dr_jobId <$> dispatches (read s p) ∨
    k ∈ ids (filter (claimable (dr_jobId <$> outstanding s) dueAt) (jobs (read s p)))) as Hp.
  { intros p [i Hi]%list_elem_of_lookup. destruct (Forall2_lookup_l _ _ _ _ _ Ho Hi) as (o&_&Hc).
    destruct (claim_file_store _ _ _ _ _ _ HI (list_elem_of_lookup_2 _ _ _ Hi) Hc) as (_&recs&->&_&<-).
    by rewrite fmap_app, elem_of_app. }
  split.
  - intros (p&Hk&Hin). apply Hp in Hk; [|done]. destruct Hk as [Hk|Hk]; [left|right]; by exists p.
  - intros [(p&Hk&Hin)|(p&Hk&Hin)]; exists p; (split; [|done]); apply Hp; auto.
Qed.

(** Claiming the due jobs.  Exactly the due jobs without an outstanding
    dispatch are dispatched, in the order of the files, and each gets its next
    run; a due job whose last dispatch is still outstanding is marked as
    skipped; the others do not change.  After the claim every dispatched job has
    an outstanding dispatch, so that claiming again for the same time finds
    nothing to dispatch, also when the next run is not after that time. *)
Theorem claimDue_exact dueAt claimedAt s s' ds : Inv s → claimDue dueAt claimedAt s = (s', Ok ds) →
  (λ d, id (d_job d)) <$> ds = ids (claimable_jobs dueAt s) ∧
  Forall2 (claimed_here dueAt claimedAt s) (readJobs s) (readJobs s') ∧
  (∀ k, k ∈ dr_jobId <$> outstanding s' ↔ k ∈ dr_jobId <$> outstanding s ∨ k ∈ ids (claimable_jobs dueAt s)) ∧
  ∀ again t ds', claimDue dueAt again s' = (t, Ok ds') → ds' = [].
Proof.
  intros HI Hc. pose proof (claim_jobs_versions _ _ _ _ _ HI Hc) as Hv. pose proof (claim_outstanding _ _ _ _ _ HI Hc) as Hout.
  split_and!; [by eapply claim_dispatched|done..|]. intros again t ds' Hagain.
  assert (Inv s') as HI'.
  { pose proof (keeps_run Inv (claimDue dueAt claimedAt) s) as Hk. rewrite Hc in Hk. apply Hk; [|done].
    apply mutateStates_Inv, claimDueInState_ok. }
  apply claim_dispatched in Hagain; [|done]. unfold claimable_jobs in Hagain. rewrite filter_none in Hagain.
  { by destruct ds'. }
  intros j' [i Hi]%list_elem_of_lookup [Hdue Hno]. apply Hno, Hout.
  destruct (Forall2_lookup_r _ _ _ _ _ Hv Hi) as (j&Hj%list_elem_of_lookup_2&Hjv).
  unfold claimed_here, claimed_version in Hjv. destruct (isDueJob j dueAt) eqn:Hd; [|subst; congruence].
  destruct Hjv as (n&next&_&_&->). replace (id _) with (id j) by (by case_bool_decide).
  destruct (decide (id j ∈ dr_jobId <$> outstanding s)) as [|Hn]; [by left|right].
  apply list_elem_of_fmap_2, list_elem_of_filter. done.
Qed.

(** ** The result of a dispatch *)

Lemma edit_jobs_spec f l l' c : edit_jobs f l = Ok (l', c) →
  Forall2 (λ j j', f j = Ok (Some j') ∨ f j = Ok None ∧ j' = j) l l' ∧
  ∀ x, x ∈ c → x ∈ l' ∧ ∃ j, j ∈ l ∧ f j = Ok (Some x).
Proof.
  revert l' c. induction l as [|j l IH]; intros l' c; cbn [edit_jobs].
  { intros [= <- <-]. split; [constructor|]. by intros x ?%not_elem_of_nil. }
  intros (o&Ho&([l1 c1]&Hr&E)%bind_Ok)%bind_Ok. destruct (IH _ _ Hr) as [Hv Hc].
  destruct o as [j'|]; injection E as <- <-; cbn [fst snd]; (split; [constructor; auto|]).
  - intros x [->|Hx]%elem_of_cons; [split; [by left|exists j; split; [by left|done]]|].
    destruct (Hc x Hx) as (?&j0&?&?). split; [by right|]. exists j0. split; [by right|done].
  - intros x Hx. destruct (Hc x Hx) as (?&j0&?&?). split; [by right|]. exists j0. split; [by right|done].
Qed.

Definition dispatched (dispatchId : jsstr) s (k : jsstr) : Prop :=
  ∃ d, d ∈ outstanding s ∧ dr_id d = dispatchId ∧ dr_jobId d = k.

Lemma dispatched_here dispatchId s p j : Inv s → p ∈ state_paths s → j ∈ jobs (read s p) →
  dispatched dispatchId s (id j) ↔ ∃ d, d ∈ dispatches (read s p) ∧ dr_id d = dispatchId ∧ dr_jobId d = id j.
Proof.
  intros HI Hp Hj. split.
  - intros (d&(q&Hd&Hq)%list_elem_of_bind&Hid&Hjob). exists d. split; [|done]. assert (p = q) as ->; [|done].
    apply (fo_unique _ _ (inv_files s HI) p q (id j)); [by apply list_elem_of_fmap_2|].
    rewrite <-Hjob. apply (ok_home _ (fo_file _ _ (inv_files s HI) q) d Hd).
  - intros (d&Hd&?). exists d. split; [|done]. apply list_elem_of_bind. by exists p.
Qed.

(** What the result of a dispatch makes of a job. *)
Definition finished_version (dispatchId : jsstr) (now : Z) (outcome : AgentCronJobRunResult) (error : option jsstr)
    s (j j' : AgentCronJob) : Prop :=
  dispatched dispatchId s (id j) ∧ status j = Active ∧ finished_job now outcome error j = Ok j' ∨
  ¬ (dispatched dispatchId s (id j) ∧ status j = Active) ∧ j' = j.

Lemma finish_file dispatchId now outcome error s p st' o : Inv s → p ∈ state_paths s →
  finish_dispatch dispatchId now outcome error (read s p) = Ok (st', o) →
  (∀ d, d ∈ dispatches st' ↔ d ∈ dispatches (read s p) ∧ dr_id d ≠ dispatchId) ∧
  Forall2 (finished_version dispatchId now outcome error s) (jobs (read s p)) (jobs st') ∧
  ∀ x, x ∈ o → x ∈ jobs st' ∧ dispatched dispatchId s (id x).
Proof.
  intros HI Hp Hrun. pose proof (fo_file _ _ (inv_files s HI) p) as Hok.
  destruct (finish_dispatch_run _ _ _ _ _ _ _ Hok Hrun) as (_&_&Hd). split; [done|].
  unfold finish_dispatch in Hrun. destruct (list_find _ _) as [[i d]|] eqn:E.
  - apply list_find_Some in E as (Hi%list_elem_of_lookup_2&Hdid&_).
    apply bind_Ok in Hrun as ([l c]&He&[= <- <-]). apply edit_jobs_spec in He as [Hv Hc]. cbn [fst snd jobs] in *.
    assert (∀ j, j ∈ jobs (read s p) → dispatched dispatchId s (id j) ↔ id j = dr_jobId d) as Hdj.
    { intros j Hj. rewrite dispatched_here by done. split; [|intros E; by exists d].
      intros (d'&Hd'&Hid&<-). f_equal. eapply (NoDup_fmap_eq dr_id); [apply Hok|done..|congruence]. }
    split.
    + eapply Forall2_impl_elem; [exact Hv|]. intros j j' Hj. cbn beta. unfold finished_version. rewrite (Hdj j Hj).
      destruct (decide (id j = dr_jobId d)) as [Hid|Hid].
      * rewrite (bool_decide_eq_true_2 _ Hid). destruct (decide (status j = Active)) as [Ha|Ha].
        -- rewrite (bool_decide_eq_true_2 _ Ha). cbn [negb orb]. intros [E|[E _]]; left; (split_and!; [done..|]).
           ++ destruct (finished_job now outcome error j); [by injection E as ->|done].
           ++ by destruct (finished_job now outcome error j).
        -- rewrite (bool_decide_eq_false_2 _ Ha). cbn [negb orb]. intros [?|[_ ->]]; [done|right]. naive_solver.
      * rewrite (bool_decide_eq_false_2 _ Hid). cbn [negb orb]. intros [?|[_ ->]]; [done|right]. naive_solver.
    + intros x Hx. destruct (Hc x Hx) as (Hxl&j&Hj&Hf). split; [done|]. revert Hf.
      destruct (decide (id j = dr_jobId d)) as [Hid|Hid]; [rewrite (bool_decide_eq_true_2 _ Hid)|
        by rewrite (bool_decide_eq_false_2 _ Hid)]. cbn [negb orb].
      destruct (negb _); [done|]. destruct (finished_job now outcome error j) as [y|] eqn:Ef; [|done]. cbn. intros [= <-].
      rewrite (finished_job_id _ _ _ _ _ Ef). by apply Hdj.
  - injection Hrun as <- <-. split; [|by intros x ?%not_elem_of_nil].
    apply Forall2_same_length_lookup. split; [done|]. intros i j j' Hj Hj'. right.
    split; [|congruence]. intros [Hdis _]. apply list_elem_of_lookup_2 in Hj.
    apply (dispatched_here _ _ p) in Hdis as (d&Hd'&Hid&_); [|done..].
    apply list_find_None in E. rewrite Forall_forall in E. by apply (E d).
Qed.

Lemma record_files dispatchId now outcome error s s' r : Inv s →
  recordDispatchResult dispatchId now outcome error s = (s', Ok r) →
  same_shape s s' ∧ ∃ outs, r = last (concat outs) ∧
    Forall2 (λ p o, finish_dispatch dispatchId now outcome error (read s p) = Ok (read s' p, o)) (state_paths s) outs.
Proof.
  intros HI. unfold recordDispatchResult, fmap, eff_fmap. destruct (mutateStates _ s) as [s1 [o|e]] eqn:E; [|done].
  intros [= <- <-]. eapply (mutateStates_run _ (λ st st' o, finish_dispatch dispatchId now outcome error st = Ok (st', o)))
    in E as (?&outs&->&Ho); [|apply quiet_lift| |done].
  - split; [done|]. by exists outs.
  - intros st t t' st' o'. unfold lift. by intros [= _ ->].
Qed.

Lemma recordDispatchResult_Inv dispatchId now outcome error : keeps Inv (recordDispatchResult dispatchId now outcome error).
Proof. apply keeps_fmap, mutateStates_Inv, finish_mutator. Qed.

Lemma elem_of_concat {A} (x : A) ls : x ∈ concat ls ↔ ∃ l, x ∈ l ∧ l ∈ ls.
Proof.
  induction ls as [|l ls IH]; cbn [concat].
  - rewrite elem_of_nil. split; [done|]. by intros (l&_&?%not_elem_of_nil).
  - rewrite elem_of_app, IH. setoid_rewrite elem_of_cons. naive_solver.
Qed.

Lemma record_once dispatchId now outcome error s s' r : Inv s →
  recordDispatchResult dispatchId now outcome error s = (s', Ok r) →
  (∀ d, d ∈ outstanding s' ↔ d ∈ outstanding s ∧ dr_id d ≠ dispatchId) ∧
  Forall2 (finished_version dispatchId now outcome error s) (readJobs s) (readJobs s') ∧
  (∀ j, r = Some j → j ∈ readJobs s' ∧ dispatched dispatchId s (id j)).
Proof.
  intros HI (Hs&outs&->&Ho)%record_files; [|done].
  assert (∀ p, p ∈ state_paths s → ∃ o, finish_dispatch dispatchId now outcome error (read s p) = Ok (read s' p, o)) as Hp.
  { intros p [i Hi]%list_elem_of_lookup. destruct (Forall2_lookup_l _ _ _ _ _ Ho Hi) as (o&_&Hc). eauto. }
  rewrite !readJobs_paths. unfold outstanding. rewrite (same_shape_paths _ _ Hs). split_and!.
  - intros d. rewrite !list_elem_of_bind. split.
    + intros (p&Hd&Hin). destruct (Hp p Hin) as [o Hc]. apply finish_file in Hc as (Hdd&_&_); [|done..].
      apply Hdd in Hd as [Hd ?]. split; [by exists p|done].
    + intros [(p&Hd&Hin) Hne]. exists p. split; [|done]. destruct (Hp p Hin) as [o Hc].
      apply finish_file in Hc as (Hdd&_&_); [|done..]. by apply Hdd.
  - apply Forall2_bind_paths. intros p Hin. destruct (Hp p Hin) as [o Hc]. by apply finish_file in Hc as (_&?&_).
  - intros j (o&Hj&[i Hi]%list_elem_of_lookup)%last_Some_elem_of%elem_of_concat.
    destruct (Forall2_lookup_r _ _ _ _ _ Ho Hi) as (p&Hpi%list_elem_of_lookup_2&Hc).
    apply finish_file in Hc as (_&_&Hx); [|done..]. destruct (Hx j Hj) as [? ?]. split; [|done].
    apply list_elem_of_bind. by exists p.
Qed.

(** Recording the result of a dispatch removes that dispatch and no other,
    and changes its job alone, and only while the job is active: a run counts,
    a skip gets a new next run, and a once-job is completed by either.  What is
    returned is the changed job.  A result recorded a second time for the
    dispatch changes nothing and returns nothing. *)
Theorem recordDispatchResult_spec dispatchId now outcome error s s' r : Inv s →
  recordDispatchResult dispatchId now outcome error s = (s', Ok r) →
  (∀ d, d ∈ outstanding s' ↔ d ∈ outstanding s ∧ dr_id d ≠ dispatchId) ∧
  Forall2 (finished_version dispatchId now outcome error s) (readJobs s) (readJobs s') ∧
  (∀ j, r = Some j → j ∈ readJobs s' ∧ dispatched dispatchId s (id j)) ∧
  ∀ now' outcome' error' t r', recordDispatchResult dispatchId now' outcome' error' s' = (t, Ok r') →
    r' = None ∧ readJobs t = readJobs s'.
Proof.
  intros HI Hr. destruct (record_once _ _ _ _ _ _ _ HI Hr) as (Hd&Hv&Hj). split_and!; [done..|].
  intros now' outcome' error' t r' Hr'.
  assert (Inv s') as HI'.
  { pose proof (keeps_run Inv _ s (recordDispatchResult_Inv dispatchId now outcome error) HI) as Hk. by rewrite Hr in Hk. }
  assert (∀ k, ¬ dispatched dispatchId s' k) as Hno by (intros k (d&[_ Hne]%Hd&?&_); done).
  destruct (record_once _ _ _ _ _ _ _ HI' Hr') as (_&Hv'&Hj'). split.
  - destruct r' as [j|]; [|done]. by destruct (Hj' j eq_refl) as [_ ?%Hno].
  - symmetry. apply list_eq_Forall2. eapply Forall2_impl; [exact Hv'|]. by intros j j' [(?%Hno&_)|[_ ->]].
Qed.

(** ** Recovery *)

(** A mutator that cannot throw. *)
Lemma mutateStates_total {A} (f : CronJobsState → CronJobsState * list A) s :
  ∃ s' out, mutateStates (λ st, lift (Ok (f st))) s = (s', Ok out).
Proof.
  assert (∀ paths s, ∃ s' r, mutate_paths (λ st, lift (Ok (f st))) paths s = (s', Ok r)) as Hp.
  { clear. induction paths as [|p paths IH]; intros s; cbn [mutate_paths]; [by do 2 eexists|].
    unfold mbind, eff_bind, egets, lift. destruct (negb _); cbn [ewhen].
    - unfold writeJobsState, emodify. edestruct IH as (s1&r1&->). by do 2 eexists.
    - unfold mret, eff_ret. edestruct IH as (s1&r1&->). by do 2 eexists. }
  unfold mutateStates, mbind, eff_bind, egets. destruct (Hp (state_paths s) s) as (s1&[o b]&->). cbn [fst snd].
  destruct b; cbn [ewhen]; [|by do 2 eexists].
  destruct (notify_run (heartbeatCatalogSignature (readJobs s)) s1) as (s2&->&_). by do 2 eexists.
Qed.

(** The dispatches a recovery is for: [None] for all. *)
Definition selected (sel : option (list jsstr)) (d : AgentCronDispatchRecord) : bool :=
  match sel with Some ks => bool_decide (dr_id d ∈ ks) | None => true end.

Definition interrupted (sel : option (list jsstr)) s (j : AgentCronJob) : Prop :=
  status j = Active ∧ ∃ d, d ∈ outstanding s ∧ selected sel d = true ∧ dr_jobId d = id j.

Definition recovered_version (sel : option (list jsstr)) (now : Z) s (j j' : AgentCronJob) : Prop :=
  interrupted sel s j ∧ j' = interrupted_job now j ∨ ¬ interrupted sel s j ∧ j' = j.

Lemma recover_unfold sel now st : recoverInterruptedInState now sel st =
  let hit := filter (λ d, selected sel d = true) (dispatches st) in
  if bool_decide (hit = []) then (st, []) else
  let is_hit := λ j, bool_decide (id j ∈ dr_jobId <$> hit) && bool_decide (status j = Active) in
  (MkState ((λ j, if is_hit j then interrupted_job now j else j) <$> jobs st)
     (filter (λ d, selected sel d = false) (dispatches st)),
   interrupted_job now <$> filter (λ j, is_hit j = true) (jobs st)).
Proof. reflexivity. Qed.

Lemma recover_file sel now s p : Inv s → p ∈ state_paths s →
  (∀ d, d ∈ dispatches (recoverInterruptedInState now sel (read s p)).1 ↔
    d ∈ dispatches (read s p) ∧ selected sel d = false) ∧
  Forall2 (recovered_version sel now s) (jobs (read s p)) (jobs (recoverInterruptedInState now sel (read s p)).1).
Proof.
  intros HI Hp. rewrite recover_unfold. cbv zeta.
  assert (∀ j, j ∈ jobs (read s p) → (∃ d, d ∈ outstanding s ∧ selected sel d = true ∧ dr_jobId d = id j) ↔
    id j ∈ dr_jobId <$> filter (λ d, selected sel d = true) (dispatches (read s p))) as Hin.
  { intros j Hj. rewrite list_elem_of_fmap. split.
    - intros (d&Hd&Hsel&Hjob). destruct (proj1 (dispatched_here (dr_id d) s p j HI Hp Hj)) as (d'&Hd'&Hid&Hjob');
        [by exists d|]. exists d'. split; [done|]. apply list_elem_of_filter. split; [|done]. revert Hsel.
      unfold selected. by rewrite Hid.
    - intros (d&->&[Hsel Hd]%list_elem_of_filter). exists d. split; [|done]. apply list_elem_of_bind. by exists p. }
  case_bool_decide as Hnone; cbn [fst jobs dispatches].
  - rewrite Hnone in Hin. split.
    + intros d. split; [|by intros [? _]]. intros Hd. split; [done|]. apply not_true_is_false. intros Hsel.
      apply (not_elem_of_nil d). rewrite <-Hnone. by apply list_elem_of_filter.
    + apply Forall2_same_length_lookup. split; [done|]. intros i j j' Hj Hj'. right. split; [|congruence].
      intros [_ Hd]. apply list_elem_of_lookup_2 in Hj. apply Hin in Hd; [|done]. by apply not_elem_of_nil in Hd.
  - split; [intros d; rewrite list_elem_of_filter; tauto|].
    apply Forall2_fmap_r. apply Forall_Forall2_diag, Forall_forall. intros j Hj. unfold recovered_version, interrupted, compose.
    specialize (Hin j Hj). destruct (decide (id j ∈ dr_jobId <$> filter (λ d, selected sel d = true) (dispatches (read s p)))) as [Hi|Hi].
    + rewrite (bool_decide_eq_true_2 _ Hi). cbn [andb]. apply Hin in Hi. case_bool_decide; [by left|right]. tauto.
    + rewrite (bool_decide_eq_false_2 _ Hi). cbn [andb]. right. tauto.
Qed.

Definition recover (sel : option (list jsstr)) (now : Z) : eff AgentCronJobStore jsstr (list AgentCronJob) :=
  match sel with None => recoverInterruptedDispatches now | Some ks => recoverInterruptedDispatchesById ks now end.

Lemma recovery_run sel now s : Inv s →
  ∃ s' r, recover sel now s = (s', Ok r) ∧ Inv s' ∧
    (∀ d, d ∈ outstanding s' ↔ d ∈ outstanding s ∧ selected sel d = false) ∧
    Forall2 (recovered_version sel now s) (readJobs s) (readJobs s').
Proof.
  intros HI. destruct (mutateStates_total (recoverInterruptedInState now sel) s) as (s'&r&Hrun). exists s', r.
  split; [by destruct sel|]. pose proof (keeps_run Inv _ s (mutateStates_Inv _ (recover_mutator now sel)) HI) as HI'.
  rewrite Hrun in HI'. split; [done|].
  eapply (mutateStates_run _ (λ st st' _, st' = (recoverInterruptedInState now sel st).1)) in Hrun as (Hs&outs&_&Ho);
    [|apply quiet_lift|by intros st t t' st' o [= _ ->]|done].
  assert (∀ p, p ∈ state_paths s → read s' p = (recoverInterruptedInState now sel (read s p)).1) as Hp.
  { intros p [i Hi]%list_elem_of_lookup. by destruct (Forall2_lookup_l _ _ _ _ _ Ho Hi) as (o&_&Hc). }
  rewrite !readJobs_paths. unfold outstanding. rewrite (same_shape_paths _ _ Hs). split_and!.
  - intros d. rewrite !list_elem_of_bind. split.
    + intros (p&Hd&Hin). rewrite Hp in Hd by done. apply recover_file in Hd as [Hd ?]; [|done..]. split; [by exists p|done].
    + intros [(p&Hd&Hin) Hne]. exists p. split; [|done]. rewrite Hp by done. by apply recover_file.
  - apply Forall2_bind_paths. intros p Hin. rewrite Hp by done. by apply recover_file.
Qed.

(** Recovery after an interruption always succeeds.  It removes exactly the
    dispatches it is for (all of them when none are named); their active jobs
    get the interruption as their error, and a once-job is completed, so that it
    does not run again; every other job stays as it was. *)
Theorem recovery_spec sel now s : Inv s →
  ∃ s' r, recover sel now s = (s', Ok r) ∧ Inv s' ∧
    (∀ d, d ∈ outstanding s' ↔ d ∈ outstanding s ∧ selected sel d = false) ∧
    Forall2 (recovered_version sel now s) (readJobs s) (readJobs s') ∧
    (∀ j, sc_kind (schedule j) = Once → status (interrupted_job now j) = Completed).
Proof.
  intros HI. destruct (recovery_run sel now s HI) as (s'&r&Hrun&HI'&Hd&Hv). exists s', r. split_and!; [done..|].
  intros j Hj. cbn. unfold after_once. by rewrite bool_decide_eq_true_2.
Qed.

(** ** How jobs evolve *)

(** A later version of a job: a cancelled or completed job stays one. *)
Definition later (j j' : AgentCronJob) : Prop := id j' = id j ∧ (is_terminal j = true → is_terminal j' = true).

#[export] Instance later_preorder : PreOrder later.
Proof. unfold later. split; [done|]. intros j1 j2 j3 [-> ?] [-> ?]. auto. Qed.

(** Every job after is a version of a job before, or has a new identifier. *)
Record evolves s s' : Prop := {
  ev_uuids : (uuids s <= uuids s')%nat;
  ev_jobs p j' : j' ∈ jobs (read s' p) →
    (∃ q j, j ∈ jobs (read s q) ∧ later j j') ∨ ¬ generated (uuids s) (id j')
}.

#[export] Instance evolves_preorder : PreOrder evolves.
Proof.
  split.
  - intros s. split; [done|]. intros p j Hj. left. by exists p, j.
  - intros s1 s2 s3 [Hu12 H12] [Hu23 H23]. split; [lia|]. intros p j'' Hj''.
    destruct (H23 p j'' Hj'') as [(q&j'&Hj'&Hl)|Hn].
    + destruct (H12 q j' Hj') as [(q'&j&Hj&Hl')|Hn']; [left; exists q', j; split; [done|by etrans]|right].
      destruct Hl as [-> _]. done.
    + right. intros Hg. apply Hn. eapply generated_mono; [|exact Hg]. done.
Qed.

Lemma evolves_same_files s s' : files s' = files s → (uuids s <= uuids s')%nat → evolves s s'.
Proof.
  intros Hf Hu. split; [done|]. intros p j Hj. left. exists p, j. by rewrite <-(read_files s s').
Qed.

Lemma merge_from j cur nxt : j ∈ mergeFreshJobs cur nxt → j ∈ cur ∨ j ∈ nxt.
Proof.
  unfold mergeFreshJobs, jm_values.
  assert (∀ (m : list (jsstr * AgentCronJob)) k j0, j ∈ (jm_set m k j0).*2 → j ∈ m.*2 ∨ j = j0) as Hset.
  { clear. intros m k j0. induction m as [|[k' j'] m IH]; cbn.
    - intros ->%list_elem_of_singleton. by right.
    - case_decide; cbn; rewrite !elem_of_cons; naive_solver. }
  assert (∀ l m, j ∈ (foldl (λ m j, jm_set m (id j) j) m l).*2 → j ∈ m.*2 ∨ j ∈ l) as Hcur.
  { induction l as [|j0 l IH]; intros m; cbn [foldl]; [by left|]. rewrite elem_of_cons. intros [Hm|?]%IH; [|by right; right].
    apply Hset in Hm as [?| ->]; auto. }
  assert (∀ l m, j ∈ (foldl merge_job m l).*2 → j ∈ m.*2 ∨ j ∈ l) as Hnext.
  { induction l as [|j0 l IH]; intros m; cbn [foldl]; [by left|]. rewrite elem_of_cons. intros [Hm|?]%IH; [|by right; right].
    unfold merge_job in Hm. repeat case_match; try (apply Hset in Hm as [?| ->]); auto. }
  intros [Hm|?]%Hnext; [|by right]. apply Hcur in Hm as [?%not_elem_of_nil|?]; [done|by left].
Qed.

(** A write puts no job in a file that was in none and was not written. *)
Lemma writeJobs_from all s p j : Inv s → j ∈ jobs (read (writeJobs all s).1 p) →
  (∃ q, j ∈ jobs (read s q)) ∨ j ∈ all.
Proof.
  intros HI. unfold writeJobs, egets, eget. unfold mbind at 1 2 3, eff_bind at 1 2 3.
  assert (∀ s1 : AgentCronJobStore, j ∈ jobs (read s1 p) → j ∈ jobs (read s p) ∨ j ∈ all → (∃ q, j ∈ jobs (read s q)) ∨ j ∈ all) as Hsimple.
  { intros s1 _ [?|?]; eauto. }
  assert (∀ (m : eff AgentCronJobStore jsstr unit),
    (∀ q, j ∈ jobs (read (m s).1 q) → (∃ q, j ∈ jobs (read s q)) ∨ j ∈ all) →
    j ∈ jobs (read (match m s with (s', Ok a) => notify_if_changed (heartbeatCatalogSignature (readJobs s)) s'
                    | (s', Throw e) => (s', Throw e) end).1 p) → (∃ q, j ∈ jobs (read s q)) ∨ j ∈ all) as Hm.
  { intros m Hm. specialize (Hm p). destruct (m s) as [s1 [u|e]]; [|done].
    destruct (notify_run (heartbeatCatalogSignature (readJobs s)) s1) as (s2&->&_&Hf&_). cbn [fst] in *.
    by rewrite (read_files s1 s2). }
  apply Hm. clear Hm Hsimple. intros q. destruct (sessionArtifactMode s) eqn:Hmode.
  - destruct (list_find _ all) as [[i j0]|]; [cbn; eauto|].
    destruct (write_sessions_reads all (session_states s) (sessionArtifactFiles s) s) as (fs&->&Hreg&Hun);
      [apply (inv_paths s HI)|intros sid path Hin'; apply elem_jm_get;
         [unfold keys_NoDup; rewrite session_states_keys; apply (inv_sessions s HI)|apply session_states_elem; eauto]|].
    cbn [fst]. destruct (decide (q ∈ (sessionArtifactFiles s).*2)) as [([sid path]&->&Hin)%list_elem_of_fmap|Hq].
    + cbn [snd]. rewrite (Hreg sid path Hin). cbn [next_state jobs]. unfold merged_session.
      intros [[_ Hj]%list_elem_of_filter|[_ Hj]%list_elem_of_filter]%merge_from; eauto.
    + rewrite Hun by done. eauto.
  - destruct (filePath s) as [path|] eqn:Hpath; [|cbn; eauto].
    change (write_legacy path all s) with (set_files (<[path := MkState (mergeFreshJobs (jobs (read s path)) all)
      (dispatches (read s path))]> (files s)) s, @Ok jsstr unit tt). cbn [fst]. rewrite read_write.
    case_decide; cbn [jobs]; [|eauto]. intros [?|?]%merge_from; eauto.
Qed.

Lemma write_sessions_uuids all states todo : ∀ s, uuids (write_sessions all states todo s).1 = uuids s.
Proof.
  induction todo as [|[sid path] todo IH]; intros s; [done|]. cbn [write_sessions].
  unfold mbind, eff_bind. destruct (negb _); cbn [ewhen].
  - unfold writeJobsState, emodify. cbn beta iota. by rewrite IH.
  - unfold mret, eff_ret. cbn beta iota. by rewrite IH.
Qed.

Lemma writeJobs_uuids all s : uuids (writeJobs all s).1 = uuids s.
Proof.
  assert (∀ (m : eff AgentCronJobStore jsstr unit) prev, uuids (m s).1 = uuids s →
    uuids ((m ≫= λ _, notify_if_changed prev) s).1 = uuids s) as Hm.
  { intros m prev. unfold mbind, eff_bind. destruct (m s) as [s1 [u|e]]; [|done].
    destruct (notify_run prev s1) as (s2&->&_&_&Hu). cbn [fst] in *. congruence. }
  unfold writeJobs. unfold mbind at 1 2, eff_bind at 1 2, egets, eget. apply Hm.
  destruct (sessionArtifactMode s).
  - destruct (list_find _ all) as [[i j0]|]; [done|]. apply write_sessions_uuids.
  - by destruct (filePath s).
Qed.

(** Writing versions of the stored jobs, and jobs with new identifiers. *)
Lemma writeJobs_evolves all s0 s : Inv s → evolves s0 s →
  (∀ j', j' ∈ all → (∃ j, j ∈ readJobs s0 ∧ later j j') ∨ ¬ generated (uuids s0) (id j')) →
  evolves s0 (writeJobs all s).1.
Proof.
  intros HI [Hu Hev] Hall. split; [by rewrite writeJobs_uuids|].
  intros p j' [(q&Hj)|Hj]%writeJobs_from; [by eapply Hev| |done].
  destruct (Hall j' Hj) as [(j&Hin&Hl)|?]; [left|by right]. rewrite readJobs_paths in Hin.
  apply list_elem_of_bind in Hin as (q&Hin&_). by exists q, j.
Qed.

Lemma evolves_bind {A B} s0 s (m : eff AgentCronJobStore jsstr A) (f : A → eff AgentCronJobStore jsstr B) :
  evolves s0 (m s).1 → (∀ a, (m s).2 = Ok a → evolves s0 (f a (m s).1).1) → evolves s0 ((m ≫= f) s).1.
Proof. intros Hm Hf. by apply (out_run_bind (evolves s0)). Qed.

Lemma edit_evolves f s l c : Inv s → (∀ j j', j ∈ readJobs s → f j = Ok (Some j') → later j j') →
  edit_jobs f (readJobs s) = Ok (l, c) → evolves s (writeJobs l s).1.
Proof.
  intros HI Hf [Hv _]%edit_jobs_spec. apply writeJobs_evolves; [done..|]. intros j' [i Hi]%list_elem_of_lookup. left.
  destruct (Forall2_lookup_r _ _ _ _ _ Hv Hi) as (j&Hj%list_elem_of_lookup_2&[E|[_ ->]]); exists j; (split; [done|]); [by apply Hf|done].
Qed.

Lemma update_evolves f s : Inv s → (∀ j j', f j = Ok (Some j') → later j j') → evolves s (update_jobs f s).1.
Proof.
  intros HI Hf. unfold update_jobs. apply evolves_bind; [done|]. intros l [= <-]. cbn [fst egets].
  apply evolves_bind; [done|]. intros [l' c] Hl. cbn [snd lift] in Hl. cbn [fst lift snd].
  apply evolves_bind; [|intros [] _; cbn [mret eff_ret fst]].
  - destruct (negb _); [|done]. eapply edit_evolves; [done| |exact Hl]. intros j j' _. apply Hf.
  - destruct (negb _); [|done]. eapply edit_evolves; [done| |exact Hl]. intros j j' _. apply Hf.
Qed.

(** *** The operations *)

(** An operation that keeps the invariant and makes later versions of the jobs. *)
Definition good {A} (m : eff AgentCronJobStore jsstr A) : Prop :=
  ∀ s, Inv s → Inv (m s).1 ∧ evolves s (m s).1.

Lemma good_fmap {A B} (f : A → B) (m : eff AgentCronJobStore jsstr A) : good m → good (f <$> m).
Proof. intros Hm s HI. specialize (Hm s HI). unfold fmap, eff_fmap. by destruct (m s) as [s1 [a|e]]. Qed.

Lemma good_update f : (∀ j j', f j = Ok (Some j') → later j j') → good (update_jobs f).
Proof.
  intros Hf s HI. split; [|by apply update_evolves]. apply (keeps_run Inv); [|done].
  apply update_jobs_Inv. intros j j' E. by apply Hf in E as [? _].
Qed.

Lemma later_cancelled now j : later j (cancelled_at now j).
Proof. done. Qed.

Lemma later_live j j' : id j' = id j → is_terminal j = false → later j j'.
Proof. intros Hid Ht. split; [done|]. by rewrite Ht. Qed.

Lemma live_not_terminal j : is_live j = true → is_terminal j = false.
Proof. unfold is_live, is_terminal. by destruct (status j). Qed.

Lemma active_not_terminal j : status j = Active → is_terminal j = false.
Proof. unfold is_terminal. by intros ->. Qed.

(** Cancelling some jobs. *)
Lemma good_cancelling (skip : AgentCronJob → bool) now :
  good (update_jobs (λ j, Ok (if skip j then None else Some (cancelled_at now j)))).
Proof. apply good_update. intros j j'. destruct (skip j); [done|]. intros [= <-]. apply later_cancelled. Qed.

Lemma good_rebind asid sid file dir : good (rebindSessionJobs asid sid file dir).
Proof. apply good_update. intros j j'. unfold rebind_job. repeat case_match; by intros [= <-]. Qed.

Lemma good_cancelRlm asid now : good (cancelRlmHeartbeatsForSession asid now).
Proof. apply (good_cancelling (λ j, _)). Qed.

Lemma good_cancelJobs asid sid file now : good (cancelJobsForSession asid sid file now).
Proof. apply (good_cancelling (λ j, _)). Qed.

Lemma good_cancel jobId now : good (cancel jobId now).
Proof. apply good_fmap, (good_cancelling (λ j, _)). Qed.

Lemma good_deleteRlm asid jobId now : good (deleteRlmHeartbeat asid jobId now).
Proof. apply good_fmap, good_update. intros j j'. destruct (is_rlm_heartbeat _ _ _); [|done]. intros [= <-]. apply later_cancelled. Qed.

Lemma good_manage asid jobId action now : good (manageHeartbeat asid jobId action now).
Proof.
  apply good_fmap, good_update. intros j j'. destruct (_ || _); [done|]. destruct (is_terminal j) eqn:Ht; [done|].
  destruct action; [by intros [= <-]; apply later_live| |by intros [= <-]; apply later_live].
  intros (next&_&[= <-])%bind_Ok. by apply later_live.
Qed.

Lemma rlm_update_id update now j j' : apply_rlm_update update now j = Ok j' → id j' = id j.
Proof.
  unfold apply_rlm_update. intros (j1&H1&(j2&H2&(j3&H3&[= <-])%bind_Ok)%bind_Ok)%bind_Ok. cbn [id with_updatedAt].
  assert (id j3 = id j2) as ->.
  { destruct (u_status update) as [[]|]; [by injection H3 as <-| |by injection H3 as <-].
    by apply bind_Ok in H3 as (next&_&[= <-]). }
  assert (id j2 = id j1) as ->.
  { clear H1 H3. destruct (u_scheduleText update); [|by injection H2 as <-]. apply bind_Ok in H2 as (parsed&_&H2).
    case_bool_decide; [done|]. case_bool_decide; [by injection H2 as <-|].
    by apply bind_Ok in H2 as (next&_&[= <-]). }
  clear H2 H3. destruct (u_prompt update); [case_bool_decide; [done|]|]; injection H1 as <-;
    by destruct (u_deliveryMode update), (u_label update).
Qed.

Lemma good_updateRlm asid jobId update now : good (updateRlmHeartbeat asid jobId update now).
Proof.
  apply good_fmap, good_update. intros j j'. destruct (_ || _) eqn:E; [done|]. apply orb_false_iff in E as [_ Ht].
  destruct (apply_rlm_update update now j) as [x|] eqn:Eu; [|done]. cbn. intros [= <-].
  apply later_live; [by eapply rlm_update_id|done].
Qed.

Lemma good_recordRun jobId now error : good (recordRunResult jobId now error).
Proof.
  apply good_fmap, good_update. intros j j'. destruct (negb _); [done|].
  case_bool_decide as Ha; cbn [negb]; [|by intros [= <-]].
  intros (n&_&(next&_&[= <-])%bind_Ok)%bind_Ok. by apply later_live, active_not_terminal.
Qed.

Lemma good_recordSkip jobId now : good (recordSkipResult jobId now).
Proof.
  apply good_fmap, good_update. intros j j'. destruct (negb _); [done|].
  case_bool_decide as Ha; cbn [negb]; [|by intros [= <-]].
  intros (n&_&(next&_&[= <-])%bind_Ok)%bind_Ok. by apply later_live, active_not_terminal.
Qed.

(** Creating a job. *)
Lemma good_finish_create s l (mk : jsstr → Stamp → AgentCronJob) (next : result jsstr Stamp) :
  Inv s → (∀ j', j' ∈ l → ∃ j, j ∈ readJobs s ∧ later j j') → (∀ k n, id (mk k n) = k) →
  evolves s ((newId ≫= λ k, lift next ≫= λ n, writeJobs (l ++ [mk k n]);; mret (mk k n)) s).1.
Proof.
  intros HI Hl Hmk. destruct (newId_spec s HI) as (HI'&k&Hk&Hg&Hn).
  assert (evolves s (newId s).1) as Hev by (apply evolves_same_files; [done|cbn; lia]).
  apply evolves_bind; [done|]. intros k' Hk'. rewrite Hk in Hk'. injection Hk' as <-.
  apply evolves_bind; [done|]. intros n _. cbn [lift fst].
  assert (evolves s (writeJobs (l ++ [mk k n]) (newId s).1).1) as Hw; [|apply evolves_bind; [done|by intros []]].
  apply writeJobs_evolves; [done..|]. intros j' [Hj| ->%list_elem_of_singleton]%elem_of_app; [left; by apply Hl|right].
  by rewrite Hmk.
Qed.

Lemma own_later s j' : j' ∈ readJobs s → ∃ j, j ∈ readJobs s ∧ later j j'.
Proof. intros. by exists j'. Qed.

Lemma good_create input now : good (create input now).
Proof.
  intros s HI. split; [by apply (keeps_run Inv), HI; apply create_Inv|]. unfold create. case_bool_decide; [done|].
  apply evolves_bind; [done|]. intros parsed _.
  by apply (good_finish_create s (readJobs s) (λ k n, new_job k (default SourceCron (in_source input)) None input
    (trim (in_prompt input)) parsed.1 now n) (toISOString parsed.2) HI); [apply own_later|].
Qed.

Lemma good_createRlm input now : good (createRlmHeartbeat input now).
Proof.
  intros s HI. split; [by apply (keeps_run Inv), HI; apply createRlmHeartbeat_Inv|]. unfold createRlmHeartbeat.
  apply evolves_bind; [done|]. intros parsed _. case_bool_decide; [done|]. case_bool_decide; [done|].
  by apply (good_finish_create s (readJobs s) (λ k n, new_job k SourceRlmHeartbeat (heartbeat_mode input) input
    (trim (in_prompt input)) parsed.1 now n) (toISOString parsed.2) HI); [apply own_later|].
Qed.

Lemma good_createHeartbeat input now : good (createHeartbeat input now).
Proof.
  intros s HI. split; [by apply (keeps_run Inv), HI; apply createHeartbeat_Inv|]. unfold createHeartbeat.
  apply evolves_bind; [done|]. intros parsed _. case_bool_decide; [done|].
  apply evolves_bind; [done|]. intros existing [= <-]. cbn [fst egets]. case_bool_decide; [done|].
  apply (good_finish_create s _ (λ k n, new_job k SourceHeartbeat (heartbeat_mode input) input
    (trim (in_prompt input)) parsed.1 now n) (toISOString parsed.2) HI); [|done].
  intros j' (j&->&Hj)%list_elem_of_fmap. exists j. split; [done|]. by destruct (is_live_heartbeat _ _).
Qed.

(** Replacing the live heartbeat of a session. *)
Lemma sort_by_elem cmp l x : x ∈ sort_by cmp l ↔ x ∈ l.
Proof.
  assert (∀ j l, x ∈ insert_by cmp j l ↔ x = j ∨ x ∈ l) as Hins.
  { clear. intros j l. induction l as [|j' l IH]; cbn [insert_by]; [by rewrite list_elem_of_singleton, elem_of_nil; tauto|].
    case_match; rewrite !elem_of_cons; [tauto|rewrite IH; tauto]. }
  unfold sort_by. induction l as [|j l IH]; [done|]. cbn [foldr]. by rewrite Hins, IH, elem_of_cons.
Qed.

Lemma getHeartbeat_elem asid s c : getHeartbeat asid s = Some c → c ∈ readJobs s ∧ is_live c = true.
Proof.
  unfold getHeartbeat. intros E. assert (c ∈ sort_by by_latest (filter (λ j, is_live_heartbeat asid j = true) (readJobs s))) as Hc.
  { destruct (sort_by _ _); [done|]. injection E as ->. by left. }
  apply sort_by_elem, list_elem_of_filter in Hc as [Hl Hc]. split; [done|].
  unfold is_live_heartbeat in Hl. by apply andb_true_iff in Hl as [_ ?].
Qed.

Lemma good_replace s c f : Inv s → c ∈ readJobs s → is_live c = true → (∀ j, id (f j) = id j) →
  Inv (replace_job (id c) f s).1 ∧ evolves s (replace_job (id c) f s).1.
Proof.
  intros HI Hc Hlive Hf. split; [by apply (keeps_run Inv), HI; apply replace_job_Inv|]. unfold replace_job.
  apply evolves_bind; [done|]. intros l [= <-]. cbn [fst egets]. apply evolves_bind; [done|]. intros [l' ch] Hl.
  cbn [snd lift] in Hl. cbn [fst lift snd].
  assert (evolves s (writeJobs l' s).1) as Hw; [|apply evolves_bind; [done|by intros []]].
  eapply edit_evolves; [done| |exact Hl]. intros j j' Hj. cbn beta. case_bool_decide as Hid; [|done]. intros [= <-].
  apply later_live; [done|]. apply live_not_terminal.
  by rewrite (NoDup_fmap_eq id _ _ _ (readJobs_NoDup s HI) Hj Hc Hid).
Qed.

Lemma good_pause asid now : good (pauseHeartbeat asid now).
Proof.
  intros s HI. unfold pauseHeartbeat, mbind, eff_bind, egets. destruct (getHeartbeat asid s) as [c|] eqn:E; [|done].
  apply getHeartbeat_elem in E as [Hc Hl]. by apply good_replace.
Qed.

Lemma good_clear asid now : good (clearHeartbeat asid now).
Proof.
  intros s HI. unfold clearHeartbeat, mbind, eff_bind, egets. destruct (getHeartbeat asid s) as [c|] eqn:E; [|done].
  apply getHeartbeat_elem in E as [Hc Hl]. by apply good_replace.
Qed.

Lemma good_resume asid now : good (resumeHeartbeat asid now).
Proof.
  intros s HI. unfold resumeHeartbeat. apply (out_run_bind (λ t, Inv t ∧ evolves s t)); [by split|].
  intros o [= <-]. cbn [fst egets]. destruct (getHeartbeat asid s) as [c|] eqn:E; [|by split].
  apply getHeartbeat_elem in E as [Hc Hl]. apply (lift_run (λ t, Inv t ∧ evolves s t)); [by split|].
  intros next _. by apply good_replace.
Qed.

(** *** The operations on dispatches *)

Lemma mutate_paths_evolves {A} (m : CronJobsState → eff AgentCronJobStore jsstr (CronJobsState * list A)) s paths :
  quiet m → (∀ st t t' st' o, m st t = (t', Ok (st', o)) → ∀ j', j' ∈ jobs st' → ∃ j, j ∈ jobs st ∧ later j j') →
  ∀ t, evolves s t → evolves s (mutate_paths m paths t).1.
Proof.
  intros Hq Hm. induction paths as [|p paths IH]; intros t Ht; [done|]. cbn [mutate_paths].
  apply evolves_bind; [done|]. intros st [= <-]. cbn [fst egets]. change (readJobsState p t) with (read t p).
  destruct (Hq (read t p) t) as (_&Hf&Hu).
  assert (evolves s (m (read t p) t).1) as H1 by (etrans; [exact Ht|by apply evolves_same_files]).
  apply evolves_bind; [done|]. intros [st' o] E. cbn [fst snd].
  destruct (m (read t p) t) as [t1 r] eqn:Em. cbn [fst snd] in *. subst r.
  assert (evolves s (ewhen (negb (bool_decide (st' = read t p))) (writeJobsState p st') t1).1) as H2.
  { case_bool_decide; cbn [negb ewhen]; [done|]. etrans; [exact Ht|]. split; [exact Hu|].
    intros q j'. change (writeJobsState p st' t1).1 with (set_files (<[p := st']> (files t1)) t1). rewrite read_write.
    case_decide as Hqp; [|rewrite (read_files t t1) by done; intros Hj; left; by exists q, j'].
    intros Hj. left. destruct (Hm _ _ _ _ _ Em j' Hj) as (j&?&?). by exists p, j. }
  apply evolves_bind; [done|]. intros [] _. apply evolves_bind; [by apply IH|intros rest _; by apply IH].
Qed.

Lemma good_mutate {A} (m : CronJobsState → eff AgentCronJobStore jsstr (CronJobsState * list A)) :
  mutator_ok m → quiet m →
  (∀ st t t' st' o, m st t = (t', Ok (st', o)) → ∀ j', j' ∈ jobs st' → ∃ j, j ∈ jobs st ∧ later j j') →
  good (mutateStates m).
Proof.
  intros Hok Hq Hm s HI. split; [by apply (keeps_run Inv); [apply mutateStates_Inv|]|]. unfold mutateStates.
  apply evolves_bind; [done|]. intros paths [= <-]. cbn [fst egets]. apply evolves_bind; [done|]. intros prev [= <-].
  cbn [fst egets]. assert (evolves s (mutate_paths m (state_paths s) s).1) as H1 by by apply mutate_paths_evolves.
  apply evolves_bind; [done|]. intros [o b] _. cbn [fst snd].
  assert (evolves s (ewhen b (notify_if_changed (heartbeatCatalogSignature (readJobs s))) (mutate_paths m (state_paths s) s).1).1)
    as H2; [|by apply evolves_bind].
  destruct b; cbn [ewhen]; [|done]. destruct (notify_run (heartbeatCatalogSignature (readJobs s))
    (mutate_paths m (state_paths s) s).1) as (s2&->&_&Hf&Hu). etrans; [exact H1|]. apply evolves_same_files; [done|].
  cbn [fst]. by rewrite Hu.
Qed.

Lemma later_mapped (R : AgentCronJob → AgentCronJob → Prop) l l' : Forall2 R l l' → (∀ j j', R j j' → later j j') →
  ∀ j', j' ∈ l' → ∃ j, j ∈ l ∧ later j j'.
Proof.
  intros Hv HR j' [i Hi]%list_elem_of_lookup. destruct (Forall2_lookup_r _ _ _ _ _ Hv Hi) as (j&?%list_elem_of_lookup_2&?).
  eauto.
Qed.

Lemma good_claim dueAt claimedAt : good (claimDue dueAt claimedAt).
Proof.
  apply good_mutate; [apply claimDueInState_ok|apply claim_quiet|].
  intros st t t' st' o (recs&_&Hv&_)%claimDueInState_run. eapply later_mapped; [exact Hv|]. intros j j'.
  unfold claimed_version. destruct (isDueJob j dueAt); [|by intros ->]. intros (n&next&_&_&->). by case_bool_decide.
Qed.

Lemma good_record dispatchId now outcome error : good (recordDispatchResult dispatchId now outcome error).
Proof.
  apply good_fmap, good_mutate; [apply finish_mutator|apply quiet_lift|].
  intros st t t' st' o [= _ E]. unfold finish_dispatch in E. destruct (list_find _ _) as [[i d]|]; [|injection E as <- _; intros j' ?; by exists j'].
  apply bind_Ok in E as ([l c]&[Hv _]%edit_jobs_spec&[= <- _]). cbn [fst jobs]. eapply later_mapped; [exact Hv|].
  intros j j' [Hf|[_ ->]]; [|done]. revert Hf. destruct (negb (bool_decide (id j = _))); cbn [orb]; [done|].
  case_bool_decide as Ha; cbn [negb]; [|done]. destruct (finished_job now outcome error j) as [x|] eqn:Ef; [|done].
  cbn. intros [= <-]. apply later_live; [by eapply finished_job_id|by apply active_not_terminal].
Qed.

Lemma interrupted_later now sel st j' : j' ∈ jobs (recoverInterruptedInState now sel st).1 → ∃ j, j ∈ jobs st ∧ later j j'.
Proof.
  rewrite recover_unfold. cbv zeta. case_bool_decide; [by exists j'|]. cbn [fst jobs].
  intros (j&->&Hj)%list_elem_of_fmap. exists j. split; [done|]. destruct (_ && _) eqn:E; [|done].
  apply andb_true_iff in E as [_ E%bool_decide_eq_true]. by apply later_live, active_not_terminal.
Qed.

Lemma good_recover sel now : good (recover sel now).
Proof.
  assert (good (mutateStates (λ st, lift (Ok (recoverInterruptedInState now sel st))))) as Hg; [|by destruct sel].
  apply good_mutate; [apply recover_mutator|apply quiet_lift|]. intros st t t' st' o [= _ E] j' Hj.
  apply (interrupted_later now sel). by rewrite E.
Qed.

Lemma good_recoverSession sid now : good (recoverSessionArtifact sid now).
Proof.
  intros s HI. unfold recoverSessionArtifact. apply (out_run_bind (λ t, Inv t ∧ evolves s t)); [by split|].
  intros t [= <-]. cbn [fst eget]. destruct (jm_get _ sid) as [path|]; [|by split].
  case_bool_decide; [by split|]. change (readJobsState path s) with (read s path).
  set (st := (recoverInterruptedInState now None (read s path)).1).
  enough (Inv (set_files (<[path := st]> (files s)) s) ∧ evolves s (set_files (<[path := st]> (files s)) s)) as Hg by exact Hg.
  destruct (recover_ok now None (read s path) (fo_file _ _ (inv_files s HI) path)) as (Hok&Hids&Hd). split.
  - constructor; [|apply (inv_sessions s HI)|apply (inv_paths s HI)].
    eapply files_ok_ext; [intros q; symmetry; apply read_write|].
    apply (files_ok_write (uuids s)); [done|apply (inv_files s HI)|done|..]; intros k Hk; left; [by rewrite <-Hids|by apply Hd].
  - split; [done|]. intros q j'. rewrite read_write. case_decide; [|by left; exists q, j'].
    intros (j&?&?)%interrupted_later. left. by exists path, j.
Qed.

(** ** Reachable stores *)

(** The operations that change the store. *)
Inductive operation : ∀ A : Type, eff AgentCronJobStore jsstr A → Prop :=
  | op_create input now : operation _ (create input now)
  | op_createHeartbeat input now : operation _ (createHeartbeat input now)
  | op_createRlmHeartbeat input now : operation _ (createRlmHeartbeat input now)
  | op_rebind asid sid file dir : operation _ (rebindSessionJobs asid sid file dir)
  | op_cancelRlm asid now : operation _ (cancelRlmHeartbeatsForSession asid now)
  | op_cancelJobs asid sid file now : operation _ (cancelJobsForSession asid sid file now)
  | op_pause asid now : operation _ (pauseHeartbeat asid now)
  | op_resume asid now : operation _ (resumeHeartbeat asid now)
  | op_clear asid now : operation _ (clearHeartbeat asid now)
  | op_manage asid jobId action now : operation _ (manageHeartbeat asid jobId action now)
  | op_updateRlm asid jobId update now : operation _ (updateRlmHeartbeat asid jobId update now)
  | op_deleteRlm asid jobId now : operation _ (deleteRlmHeartbeat asid jobId now)
  | op_cancel jobId now : operation _ (cancel jobId now)
  | op_recordRun jobId now error : operation _ (recordRunResult jobId now error)
  | op_recordSkip jobId now : operation _ (recordSkipResult jobId now)
  | op_claim dueAt claimedAt : operation _ (claimDue dueAt claimedAt)
  | op_record dispatchId now outcome error : operation _ (recordDispatchResult dispatchId now outcome error)
  | op_recover now : operation _ (recoverInterruptedDispatches now)
  | op_recoverById ks now : operation _ (recoverInterruptedDispatchesById ks now)
  | op_recoverSession sid now : operation _ (recoverSessionArtifact sid now).

Lemma operation_good A m : operation A m → good m.
Proof.
  destruct 1; [apply good_create|apply good_createHeartbeat|apply good_createRlm|apply good_rebind|apply good_cancelRlm
    |apply good_cancelJobs|apply good_pause|apply good_resume|apply good_clear|apply good_manage|apply good_updateRlm
    |apply good_deleteRlm|apply good_cancel|apply good_recordRun|apply good_recordSkip|apply good_claim|apply good_record
    |apply (good_recover None)|apply (good_recover (Some ks))|apply good_recoverSession].
Qed.

(** A new process with the files of the old one. *)
Definition restarted s : AgentCronJobStore := MkStore (filePath s) (sessionArtifactMode s) [] (files s) (uuids s) 0.

(** An operation, which may throw; a session whose file is registered, and is
    not that of another session; a restart. *)
Inductive store_step s : AgentCronJobStore → Prop :=
  | step_operation A (m : eff AgentCronJobStore jsstr A) : operation A m → store_step s (m s).1
  | step_register sid path :
      (∀ sid', jm_get (sessionArtifactFiles s) sid' = Some path → sid' = sid) →
      store_step s (registerSessionArtifact sid path s).1
  | step_restart : store_step s (restarted s).

Definition empty_store (path : option jsstr) (mode : bool) : AgentCronJobStore := MkStore path mode [] ∅ 0 0.

Lemma empty_Inv path mode : Inv (empty_store path mode).
Proof.
  assert (∀ p, read (empty_store path mode) p = empty_state) as Hr.
  { intros p. unfold read, readJobsState. cbn. by rewrite lookup_empty. }
  constructor; [|constructor..]. constructor; intros *; rewrite ?Hr; try by intros ?%not_elem_of_nil.
  apply file_ok_empty.
Qed.

Lemma jm_set_values {A} (m : list (jsstr * A)) k v x : x ∈ jm_values (jm_set m k v) → x ∈ jm_values m ∨ x = v.
Proof.
  unfold jm_values. induction m as [|[k' v'] m IH]; cbn [jm_set].
  - intros ->%list_elem_of_singleton. by right.
  - case_decide; cbn; rewrite !elem_of_cons; naive_solver.
Qed.

Lemma register_paths (m : list (jsstr * jsstr)) sid path : keys_NoDup m → NoDup (jm_values m) →
  (∀ sid', jm_get m sid' = Some path → sid' = sid) → NoDup (jm_values (jm_set m sid path)).
Proof.
  unfold keys_NoDup, jm_keys, jm_values. induction m as [|[k p] m IH]; cbn [jm_set]; intros Hk Hv Hm; [apply NoDup_singleton|].
  cbn in Hk, Hv. apply NoDup_cons in Hk as [Hkn Hk]. apply NoDup_cons in Hv as [Hvn Hv].
  assert (∀ sid', (sid', path) ∈ m → sid' = sid) as Hin.
  { intros sid' Hin. apply Hm. cbn [jm_get]. rewrite decide_False; [by apply elem_jm_get|].
    intros ->. apply Hkn. by apply (list_elem_of_fmap_2 fst) in Hin. }
  case_decide as Hks; cbn; apply NoDup_cons; split.
  - intros ([sid' p']&->&Hin')%list_elem_of_fmap. pose proof (Hin sid' Hin') as ->. subst k.
    apply Hkn. by apply (list_elem_of_fmap_2 fst) in Hin'.
  - done.
  - intros [?| ->]%jm_set_values; [done|]. apply Hks. symmetry. apply Hm. cbn. by rewrite decide_True.
  - apply IH; [done..|]. intros sid' Hg. by apply Hin, jm_get_elem.
Qed.

Lemma step_good s s' : store_step s s' → Inv s → Inv s' ∧ evolves s s'.
Proof.
  intros [A m Hop|sid path Hfree|] HI; [by apply (operation_good A m Hop)|..].
  - unfold registerSessionArtifact. destruct (negb _); [by split|]. case_bool_decide; [by split|]. split; [|by apply evolves_same_files].
    constructor; [apply (inv_files s HI)|by apply jm_set_NoDup, (inv_sessions s HI)|].
    apply register_paths; [apply (inv_sessions s HI)|apply (inv_paths s HI)|done].
  - split; [|by apply evolves_same_files]. constructor; [apply (inv_files s HI)|constructor|constructor].
Qed.

Lemma steps_good s s' : rtc store_step s s' → Inv s → Inv s' ∧ evolves s s'.
Proof.
  induction 1 as [s|s s1 s2 Hstep _ IH]; intros HI; [by split|].
  destruct (step_good s s1 Hstep HI) as [HI1 H1]. destruct (IH HI1) as [HI2 H2]. split; [done|by etrans].
Qed.

(** The outstanding dispatches of a store. *)
Lemma outstanding_NoDup s (f : AgentCronDispatchRecord → jsstr) : Inv s →
  (∀ p, NoDup (f <$> dispatches (read s p))) →
  (∀ p q d d', d ∈ dispatches (read s p) → d' ∈ dispatches (read s q) → f d = f d' → p = q) →
  NoDup (f <$> outstanding s).
Proof.
  intros HI Hone Hpq. unfold outstanding. rewrite fmap_bind. apply NoDup_bind; [|by intros p _|by apply state_paths_NoDup].
  intros p q k _ _ (d&->&Hd)%list_elem_of_fmap (d'&Hid&Hd')%list_elem_of_fmap. by apply (Hpq p q d d').
Qed.

Lemma outstanding_jobs_NoDup s : Inv s → NoDup (dr_jobId <$> outstanding s).
Proof.
  intros HI. apply outstanding_NoDup; [done|intros p; apply (fo_file _ _ (inv_files s HI))|].
  intros p q d d' Hd Hd' Hid. apply (fo_unique _ _ (inv_files s HI) p q (dr_jobId d));
    [|rewrite Hid]; by apply (ok_home _ (fo_file _ _ (inv_files s HI) _)).
Qed.

Lemma outstanding_ids_NoDup s : Inv s → NoDup (dr_id <$> outstanding s).
Proof.
  intros HI. apply outstanding_NoDup; [done|intros p; apply (fo_file _ _ (inv_files s HI))|].
  intros p q d d' Hd Hd' Hid. apply (fo_dispatch _ _ (inv_files s HI) p q (dr_id d));
    [|rewrite Hid]; by apply list_elem_of_fmap_2.
Qed.


(** A job that was cancelled or completed stays so: no later operation and
    no restart makes it active again, so it is never due again. *)
Theorem terminal_forever s s' p q j j' : Inv s → rtc store_step s s' →
  j ∈ jobs (read s p) → is_terminal j = true → j' ∈ jobs (read s' q) → id j' = id j →
  is_terminal j' = true ∧ ∀ now, isDueJob j' now = false.
Proof.
  intros HI Hs Hj Ht Hj' Hid. assert (is_terminal j' = true) as Ht'.
  - destruct (steps_good _ _ Hs HI) as [_ [_ Hev]].
    destruct (Hev q j' Hj') as [(q0&j0&Hj0&Hid0&Hl)|Hn].
    + apply Hl. assert (q0 = p) as ->.
      { apply (fo_unique _ _ (inv_files s HI) q0 p (id j0)); apply list_elem_of_fmap; [by exists j0|exists j; split; congruence]. }
      assert (j0 = j) as ->; [|done]. eapply (NoDup_fmap_eq id); [apply (fo_file _ _ (inv_files s HI) p)|done..|congruence].
    + destruct Hn. rewrite Hid. apply (fo_job_gen _ _ (inv_files s HI) p). by apply list_elem_of_fmap_2.
  - split; [done|]. intros now. unfold isDueJob, is_terminal in *. by destruct (status j').
Qed.

(** ** A job that cannot be rescheduled *)

Lemma claim_jobs_throws claimed dueAt claimedAt j e todo : j ∈ todo → isDueJob j dueAt = true →
  nextRunAtForSchedule (schedule j) claimedAt = Throw e →
  ∀ s x, (claim_jobs claimed dueAt claimedAt todo s).2 ≠ Ok x.
Proof.
  intros Hin Hdue Hn. induction todo as [|j0 todo IH]; intros s x; [by apply not_elem_of_nil in Hin|].
  cbn [claim_jobs]. destruct (isDueJob_next j dueAt Hdue) as [t0 Ht0].
  apply elem_of_cons in Hin as [<-|Hin].
  - rewrite Hdue, Ht0. unfold mbind, eff_bind, lift. by rewrite Hn.
  - specialize (IH Hin). unfold mbind, eff_bind, lift.
    destruct (isDueJob j0 dueAt); [destruct (nextRunAt j0)|].
    2,3: specialize (IH s); by destruct (claim_jobs claimed dueAt claimedAt todo s) as [s1 [y|e1]]; [destruct (IH y)|].
    destruct (nextRunAtForSchedule (schedule j0) claimedAt) as [n|]; [|done]. destruct (iso_option n); [|done]. case_bool_decide.
    + specialize (IH s). by destruct (claim_jobs claimed dueAt claimedAt todo s) as [s1 [y|e1]]; [destruct (IH y)|].
    + specialize (IH (newId s).1). cbn [newId fst] in *.
      by destruct (claim_jobs claimed dueAt claimedAt todo _) as [s1 [y|e1]]; [destruct (IH y)|].
Qed.

Lemma mutate_paths_throws {A} (m : CronJobsState → eff AgentCronJobStore jsstr (CronJobsState * list A)) p paths :
  quiet m → NoDup paths → p ∈ paths → ∀ s, (∀ t x, (m (read s p) t).2 ≠ Ok x) →
  ∃ s' e, mutate_paths m paths s = (s', Throw e) ∧ read s' p = read s p.
Proof.
  intros Hq. induction paths as [|p0 paths IH]; intros Hnd Hin s Hm; [by apply not_elem_of_nil in Hin|].
  apply NoDup_cons in Hnd as [Hni Hnd]. cbn [mutate_paths].
  unfold mbind at 1 2, eff_bind at 1 2, egets. change (readJobsState p0 s) with (read s p0).
  destruct (Hq (read s p0) s) as (_&Hf&_). destruct (m (read s p0) s) as [s1 [[st' o]|e]] eqn:Em; cbn [fst snd] in *.
  2:{ exists s1, e. split; [done|]. by apply read_files. }
  apply elem_of_cons in Hin as [->|Hin]; [by destruct (Hm s (st', o)); rewrite Em|].
  assert (p ≠ p0) as Hne by by intros ->.
  assert (∃ s2, ewhen (negb (bool_decide (st' = read s p0))) (writeJobsState p0 st') s1 = (s2, Ok ()) ∧
    read s2 p = read s p) as (s2&Hw&Hr).
  { case_bool_decide; cbn [negb ewhen]; eexists; (split; [reflexivity|]); [by apply read_files|].
    rewrite (read_write p0 st' s1 p), decide_False by done. by apply read_files. }
  unfold mbind, eff_bind. rewrite Hw. destruct (IH Hnd Hin s2) as (s3&e&->&Hp); [by rewrite Hr|].
  exists s3, e. split; [done|congruence].
Qed.

(** One job that is due and whose next run cannot be computed blocks the
    claims of all jobs: the claim throws, nothing is dispatched, and the job is
    still there and still due, so that every later claim throws as well as long
    as the next run cannot be computed. *)
Theorem unschedulable_job_blocks dueAt claimedAt s j e : Inv s → j ∈ readJobs s → isDueJob j dueAt = true →
  nextRunAtForSchedule (schedule j) claimedAt = Throw e →
  (∃ e', (claimDue dueAt claimedAt s).2 = Throw e') ∧ j ∈ readJobs (claimDue dueAt claimedAt s).1.
Proof.
  intros HI Hj Hdue Hn. rewrite readJobs_paths in Hj. apply list_elem_of_bind in Hj as (p&Hj&Hp).
  destruct (mutate_paths_throws (claimDueInState dueAt claimedAt) p (state_paths s) (claim_quiet dueAt claimedAt)
    (state_paths_NoDup s HI) Hp s) as (s1&e'&He&Hr).
  { intros t [st' o]. unfold claimDueInState, mbind, eff_bind.
    pose proof (claim_jobs_throws (dr_jobId <$> dispatches (read s p)) dueAt claimedAt j e _ Hj Hdue Hn t) as Hc.
    destruct (claim_jobs _ _ _ _ t) as [t1 [y|e1]]; [|done]. by destruct (Hc y). }
  assert (claimDue dueAt claimedAt s = (s1, Throw e')) as ->.
  { unfold claimDue, mutateStates, mbind, eff_bind, egets. by rewrite He. }
  split; [by exists e'|]. cbn [fst]. rewrite readJobs_paths. apply list_elem_of_bind. exists p. rewrite Hr. split; [done|].
  assert (∀ paths t, same_shape t (mutate_paths (claimDueInState dueAt claimedAt) paths t).1) as Hs;
    [|specialize (Hs (state_paths s) s); rewrite He in Hs; by rewrite (same_shape_paths s)].
  clear. intros paths. induction paths as [|p paths IH]; intros t; [done|]. cbn [mutate_paths].
  apply (out_run_bind (same_shape t)); [done|]. intros st [= <-]. apply (out_run_bind (same_shape t)); [apply claim_quiet|].
  intros r _. destruct (claim_quiet dueAt claimedAt (readJobsState p t) t) as [Hs _].
  apply (out_run_bind (same_shape t)); [by destruct (negb _)|]. intros [] _.
  apply (run_seq (same_shape t)); [etrans; [|apply IH]; by destruct (negb _)|]. intros a. apply keeps_ret.
Qed.

(** ** Updates against an older clock *)

Lemma edit_total g l : edit_jobs (λ j, Ok (g j)) l = Ok ((λ j, default j (g j)) <$> l, omap g l).
Proof.
  induction l as [|j l IH]; [done|]. cbn [edit_jobs]. change (@Ok jsstr _ (g j) ≫= ?f) with (f (g j)). cbv beta.
  rewrite IH. cbn. by destruct (g j).
Qed.

Lemma omap_single (P : AgentCronJob → bool) (f : AgentCronJob → AgentCronJob) l j : NoDup (ids l) → j ∈ l → P j = false →
  omap (λ j', if negb (bool_decide (id j' = id j)) || P j' then None else Some (f j')) l = [f j].
Proof.
  induction l as [|j' l IH]; intros Hnd Hin HP; [by apply not_elem_of_nil in Hin|].
  unfold ids in *. cbn [fmap list_fmap] in Hnd. apply NoDup_cons in Hnd as [Hni Hnd]. cbn [omap list_omap].
  apply elem_of_cons in Hin as [->|Hin].
  - rewrite bool_decide_eq_true_2, HP by done. cbn [negb orb]. f_equal. clear IH.
    induction l as [|j'' l IH]; [done|]. cbn [omap list_omap fmap list_fmap] in *.
    apply not_elem_of_cons in Hni as [Hne Hni]. apply NoDup_cons in Hnd as [_ Hnd].
    rewrite bool_decide_eq_false_2 by done. by apply IH.
  - rewrite bool_decide_eq_false_2; [by apply IH|]. intros E. apply Hni. rewrite E. by apply list_elem_of_fmap_2.
Qed.

(** Cancelling a job in the file of all sessions returns the cancelled job;
    the file has it exactly when the clock is not behind the last update of the
    job.  Against an older clock the cancellation is dropped without an error:
    the caller is told that the job is cancelled, and it stays as it was. *)
Theorem cancel_needs_fresh_clock s path j now : Inv s → sessionArtifactMode s = false → filePath s = Some path →
  j ∈ readJobs s → status j ≠ Cancelled →
  ∃ s', cancel (id j) now s = (s', Ok (Some (cancelled_at now j))) ∧
    find_job (id j) (readJobs s') = Some (if isAtLeastAsFresh (cancelled_at now j) j then cancelled_at now j else j).
Proof.
  intros HI Hmode Hpath Hj Hst. pose proof (readJobs_NoDup s HI) as Hnd.
  assert (∀ t, sessionArtifactMode t = false → filePath t = Some path → readJobs t = jobs (read t path)) as Hread.
  { intros t Hm Hp. rewrite readJobs_paths. unfold state_paths. rewrite Hm, Hp. cbn. by rewrite app_nil_r. }
  set (g := λ j', if negb (bool_decide (id j' = id j)) || bool_decide (status j' = Cancelled) then None else Some (cancelled_at now j')).
  set (l := (λ j', default j' (g j')) <$> readJobs s).
  set (t := set_files (<[path := MkState (mergeFreshJobs (readJobs s) l) (dispatches (read s path))]> (files s)) s).
  destruct (notify_run (heartbeatCatalogSignature (readJobs s)) t) as (s'&Hn&(Hm'&Hp'&_)&Hf&_). exists s'. split.
  - unfold cancel, update_jobs, fmap, eff_fmap. unfold mbind at 1 2, eff_bind at 1 2, egets, lift.
    fold g. rewrite edit_total. cbn [fst snd].
    rewrite (omap_single (λ j', bool_decide (status j' = Cancelled))) by (try done; by apply bool_decide_eq_false_2).
    rewrite bool_decide_eq_false_2 by done. cbn [negb ewhen]. fold l.
    unfold writeJobs, egets, eget, mbind, eff_bind. rewrite Hmode, Hpath.
    match goal with |- context [write_legacy path ?x s] => change x with l end.
    assert (write_legacy path l s = (t, Ok ())) as ->; [|by rewrite Hn].
    unfold t. by rewrite (Hread s Hmode Hpath).
  - rewrite (Hread s') by (by rewrite ?Hm', ?Hp'). rewrite (read_files t s') by done. unfold t. rewrite read_write, decide_True by done.
    cbn [jobs]. assert (ids l = ids (readJobs s)) as Hids.
    { unfold l, ids. rewrite <-list_fmap_compose. apply list_fmap_ext. intros i j' _. unfold g, compose. by destruct (_ || _). }
    destruct (merge_keeps_fresher (readJobs s) l) as [_ Hget]; [done|by rewrite Hids|]. rewrite Hget.
    rewrite (find_job_elem _ j Hnd Hj).
    assert (find_job (id j) l = Some (cancelled_at now j)) as ->; [|cbn; by case_match].
    apply (find_job_elem l (cancelled_at now j)); [by rewrite Hids|]. apply list_elem_of_fmap. exists j. split; [|done].
    unfold g. rewrite bool_decide_eq_true_2 by done. by rewrite bool_decide_eq_false_2.
Qed.
End props.

(** ** Concrete stores *)

Definition plain : Platform :=
  {| randomUUID n := replicate n 97; resolve p := p; localeCompare _ _ := 0 |}.
#[local] Instance plain_inj : Inj (=) (=) (@randomUUID plain).
Proof. intros n m E. apply (f_equal length) in E. cbn in E. by rewrite !length_replicate in E. Qed.

Definition no_offset : Clock := {| tza_utc _ := 0; tza_local _ := 0; parse_date _ := None |}.
#[local] Existing Instance plain.
#[local] Existing Instance no_offset.

Definition every_90_sec : CreateAgentCronJobInput :=
  MkInput (js "a") (js "s") (js "s.jsonl") (js "/") None (js "check the build") (js "every 90 sec") None None None.

(** A store with a file per session and a job of one session. *)
Definition with_job : AgentCronJobStore :=
  (create every_90_sec 0 (registerSessionArtifact (js "s") (js "f") (empty_store None true)).1).1.

Lemma with_job_reachable : rtc store_step (empty_store None true) with_job.
Proof.
  eapply rtc_l; [apply step_register|eapply rtc_once, step_operation, op_create]. intros sid'. cbn. done.
Qed.

Lemma with_job_Inv : Inv with_job.
Proof. apply (steps_good _ _ with_job_reachable), empty_Inv. Qed.

Definition claimed_store : AgentCronJobStore := (claimDue 90000 100000 with_job).1.

Lemma claimed_Inv : Inv claimed_store.
Proof. apply (good_claim 90000 100000 with_job), with_job_Inv. Qed.


Lemma claimDue_exact_witness :
  ∃ ds, length ds = 1%nat ∧ claimDue 90000 100000 with_job = (claimed_store, Ok ds) ∧
    ∀ again t ds', claimDue 90000 again claimed_store = (t, Ok ds') → ds' = [].
Proof.
  destruct (claimDue 90000 100000 with_job) as [s' [ds|e]] eqn:E; [|by vm_compute in E].
  assert (claimed_store = s') as Hs by (unfold claimed_store; by rewrite E). rewrite Hs.
  exists ds. destruct (claimDue_exact 90000 100000 with_job s' ds with_job_Inv E) as (Hd&_&_&Hno). split; [|done].
  apply (f_equal length) in Hd. rewrite length_fmap in Hd. rewrite Hd. by vm_compute.
Defined.

Lemma recordDispatchResult_spec_witness :
  ∃ k s' j, recordDispatchResult k 110000 Ran None claimed_store = (s', Ok (Some j)) ∧ runCount j = 1 ∧
    outstanding s' = [] ∧ j ∈ readJobs s'.
Proof.
  set (k := default [] (head (dr_id <$> outstanding claimed_store))).
  destruct (recordDispatchResult k 110000 Ran None claimed_store) as [s' [[j|]|e]] eqn:E; [|by vm_compute in E..].
  destruct (recordDispatchResult_spec _ _ _ _ _ _ _ claimed_Inv E) as (Hd&_&Hj&_). exists k, s', j. split_and!; [done| | |].
  - vm_compute in E. by injection E as _ <-.
  - vm_compute in E. by injection E as <- _.
  - by apply Hj.
Defined.

Lemma recovery_spec_witness :
  ∃ s' r, recoverInterruptedDispatches 120000 claimed_store = (s', Ok r) ∧ Inv s' ∧ outstanding s' = [].
Proof.
  destruct (recovery_spec None 120000 claimed_store claimed_Inv) as (s'&r&E&HI&Hd&_&_). exists s', r.
  split_and!; [exact E|exact HI|]. destruct (outstanding s') as [|d ds]; [done|].
  by destruct (proj1 (Hd d) ltac:(by left)) as [_ ?].
Defined.

Definition cancelled_store : AgentCronJobStore := (cancel (randomUUID 0) 5 with_job).1.

Lemma cancelled_Inv : Inv cancelled_store.
Proof. apply (good_cancel (randomUUID 0) 5 with_job), with_job_Inv. Qed.

(** After a restart, registering the session again and claiming much later. *)
Lemma terminal_forever_witness :
  ∃ s' j', rtc store_step cancelled_store s' ∧ readJobs s' = [j'] ∧ isDueJob j' 1000000 = false.
Proof.
  set (s' := (claimDue 1000000 1000000 (registerSessionArtifact (js "s") (js "f") (restarted cancelled_store)).1).1).
  assert (rtc store_step cancelled_store s') as Hs.
  { eapply rtc_l; [apply step_restart|]. eapply rtc_l; [apply step_register; cbn; done|].
    eapply rtc_once, step_operation, op_claim. }
  destruct (readJobs s') as [|j' [|]] eqn:E; [by vm_compute in E| |by vm_compute in E].
  destruct (readJobs cancelled_store) as [|j [|]] eqn:E0; [by vm_compute in E0| |by vm_compute in E0].
  exists s', j'. split_and!; [exact Hs|done|].
  refine (proj2 (terminal_forever cancelled_store s' (js "f") (js "f") j j' cancelled_Inv Hs _ _ _ _) _).
  - vm_compute in E0. injection E0 as <-. vm_compute. by left.
  - vm_compute in E0. injection E0 as <-. done.
  - vm_compute in E. injection E as <-. vm_compute. by left.
  - vm_compute in E, E0. by injection E as <-; injection E0 as <-.
Defined.

(** The clock goes back a second between the creation and the cancellation. *)
Definition legacy_store : AgentCronJobStore := (create every_90_sec 2000 (empty_store (Some (js "f")) false)).1.

Lemma legacy_Inv : Inv legacy_store.
Proof. apply (good_create every_90_sec 2000 (empty_store (Some (js "f")) false)), empty_Inv. Qed.

Lemma cancel_needs_fresh_clock_witness :
  ∃ s' j j', cancel (id j) 1000 legacy_store = (s', Ok (Some j')) ∧ status j' = Cancelled ∧ readJobs legacy_store = [j] ∧
    find_job (id j) (readJobs s') = Some j ∧ status j = Active.
Proof.
  destruct (readJobs legacy_store) as [|j [|]] eqn:E; [by vm_compute in E| |by vm_compute in E].
  destruct (cancel_needs_fresh_clock legacy_store (js "f") j 1000 legacy_Inv) as (s'&Hc&Hf); [done|done|rewrite E; by left| |].
  - vm_compute in E. by injection E as <-.
  - exists s', j, (cancelled_at 1000 j). split_and!; [exact Hc|done|done| |].
    + rewrite Hf. vm_compute in E. by injection E as <-.
    + vm_compute in E. by injection E as <-.
Defined.

#[local] Instance no_offset_fixed : FixedZone 0 := Build_FixedZone no_offset 0 (λ _, eq_refl) (λ _, eq_refl).

(** A job for every leap day, accepted two minutes before one. *)
Definition leap_input : CreateAgentCronJobInput :=
  MkInput (js "a") (js "s") (js "s.jsonl") (js "/") None (js "check the calendar") leap_days None None None.

Definition leap_store : AgentCronJobStore :=
  (create leap_input (leap_2028 * msPerDay - 120000) (empty_store (Some (js "f")) false)).1.

Lemma leap_Inv : Inv leap_store.
Proof. apply (good_create leap_input (leap_2028 * msPerDay - 120000) (empty_store (Some (js "f")) false)), empty_Inv. Qed.

Lemma unschedulable_job_blocks_witness :
  ∃ j, readJobs leap_store = [j] ∧ nextRunAt j = Some (At (leap_2028 * msPerDay)) ∧
    ∃ e, (claimDue (leap_2028 * msPerDay) (leap_2028 * msPerDay) leap_store).2 = Throw e.
Proof.
  destruct (readJobs leap_store) as [|j [|]] eqn:E; [by vm_compute in E| |by vm_compute in E].
  assert (isDueJob j (leap_2028 * msPerDay) = true ∧ nextRunAt j = Some (At (leap_2028 * msPerDay)) ∧
    schedule j = MkSchedule Cron leap_days None) as (Hdue&Hnext&Hs) by (vm_compute in E; injection E as <-; done).
  exists j. split_and!; [done|exact Hnext|].
  refine (proj1 (unschedulable_job_blocks (leap_2028 * msPerDay) (leap_2028 * msPerDay) leap_store j
    (noMatchError leap_days) leap_Inv _ Hdue _)); [rewrite E; by left|].
  rewrite Hs. exact leap_day_unschedulable.
Defined.
