(* ===== verification/CronScheduler.v ===== *)
(** * The scheduler of jobs

    Models [AgentCronScheduler] of [packages/coding-agent/src/core/cron-jobs.ts],
    with [shouldDeferHeartbeatCronJob] and the delivery modes.  The dispatches of
    one active session wait in a lane, a chain of promises; a lane is the list of
    its tasks that are not over, and only its first task can run.  The code
    between two [await]s is one step.  The hooks are arguments of the steps. *)

From S2P Require Import Prelude.
From S2P Require Import JsMap.
From S2P Require Import JsString.
From S2P Require Import Eff.
From S2P Require Import CronSchedule.
From S2P Require Import CronStore.

(** ** Delivery of heartbeats *)

Record HeartbeatCronSessionActivity := MkActivity {
  isStreaming : bool;
  isCompacting : option bool;
  isRetrying : option bool;
  isBashRunning : bool;
  hasPendingSessionWork : bool;
  unfinishedActionCount : Z
}.

Inductive StreamingBehavior := StreamSteer | StreamFollowUp.
#[export] Instance StreamingBehavior_eq_dec : EqDecision StreamingBehavior.
Proof. solve_decision. Defined.

Definition resolveHeartbeatStreamingBehavior (deliveryMode : option AgentHeartbeatDeliveryMode) : StreamingBehavior :=
  match default DEFAULT_HEARTBEAT_DELIVERY_MODE deliveryMode with FollowUp => StreamFollowUp | Steer => StreamSteer end.

(** The argument is a string or no value. *)
Definition normalizeHeartbeatDeliveryMode (value : option jsstr) : result jsstr (option AgentHeartbeatDeliveryMode) :=
  match value with
  | None => Ok None
  | Some v =>
      if bool_decide (v = js "steer") then Ok (Some Steer) else
      if bool_decide (v = js "follow_up") then Ok (Some FollowUp) else
      Throw (js "Heartbeat delivery mode must be " ++ [QUOTE] ++ js "steer" ++ [QUOTE] ++ js " or " ++ [QUOTE] ++
        js "follow_up" ++ [QUOTE])
  end.

Definition shouldDeferHeartbeatCronJob (job : AgentCronJob) (activity : HeartbeatCronSessionActivity) : bool :=
  if negb (isHeartbeatCronJob job) then false else
  let busyBesidesStreaming :=
    bool_decide (isCompacting activity = Some true) || bool_decide (isRetrying activity = Some true) ||
    isBashRunning activity || hasPendingSessionWork activity ||
    (negb (isStreaming activity) && (0 <? unfinishedActionCount activity)) in
  if busyBesidesStreaming then true else
  if bool_decide (resolveHeartbeatStreamingBehavior (deliveryMode job) = StreamSteer) then false else
  isStreaming activity.

(** ** The scheduler *)

(** A dispatch in a lane: whether [beginDispatch] gave a function to call at its
    end, and the job it runs, once it does. *)
Record Task := MkTask {
  t_dispatch : AgentCronDispatch;
  t_end : bool;
  t_running : option AgentCronJob
}.

(** [open] lists the dispatches whose end function was given and not called. *)
Record AgentCronScheduler := MkScheduler {
  store : AgentCronJobStore;
  timer : option Z;
  running : bool;
  stopped : bool;
  hasStarted : bool;
  dispatchLanes : list (jsstr * list Task);
  open : list jsstr
}.

Definition new_scheduler (s : AgentCronJobStore) : AgentCronScheduler := MkScheduler s None false true false [] [].

Definition MAX_TIMEOUT_MS : Z := 2147483647.

Definition with_store (st : AgentCronJobStore) (s : AgentCronScheduler) : AgentCronScheduler :=
  MkScheduler st (timer s) (running s) (stopped s) (hasStarted s) (dispatchLanes s) (open s).
Definition with_timer (t : option Z) (s : AgentCronScheduler) : AgentCronScheduler :=
  MkScheduler (store s) t (running s) (stopped s) (hasStarted s) (dispatchLanes s) (open s).
Definition with_lanes (lanes : list (jsstr * list Task)) (s : AgentCronScheduler) : AgentCronScheduler :=
  MkScheduler (store s) (timer s) (running s) (stopped s) (hasStarted s) lanes (open s).
Definition with_open (ids : list jsstr) (s : AgentCronScheduler) : AgentCronScheduler :=
  MkScheduler (store s) (timer s) (running s) (stopped s) (hasStarted s) (dispatchLanes s) ids.

Section scheduler.
Context `{Platform} `{Clock}.

Definition scheduleNext (delayMs : option Z) (now : Z) (s : AgentCronScheduler) : AgentCronScheduler :=
  let nextDelay :=
    match delayMs with
    | Some d => Some d
    | None => match nextActiveRunAt (store s) with Some next => Some (Z.max 0 (next - now)) | None => None end
    end in
  with_timer (match nextDelay with Some d => Some (Z.min d MAX_TIMEOUT_MS) | None => None end) s.

Definition start (now : Z) (s : AgentCronScheduler) : AgentCronScheduler :=
  let st := if hasStarted s then store s else (recoverInterruptedDispatches now (store s)).1 in
  scheduleNext None now (MkScheduler st (timer s) (running s) false true (dispatchLanes s) (open s)).

Definition stop (s : AgentCronScheduler) : AgentCronScheduler :=
  MkScheduler (store s) None (running s) true (hasStarted s) (dispatchLanes s) (open s).

Definition wake (now : Z) (s : AgentCronScheduler) : AgentCronScheduler :=
  if stopped s then s else scheduleNext (Some 0) now s.

(** *** Lanes *)

Definition lane (key : jsstr) (s : AgentCronScheduler) : list Task := default [] (jm_get (dispatchLanes s) key).

Definition queueDispatch (t : Task) (s : AgentCronScheduler) : AgentCronScheduler :=
  let laneKey := activeSessionId (d_job (t_dispatch t)) in
  with_lanes (jm_set (dispatchLanes s) laneKey (lane laneKey s ++ [t])) s.

(** The first task of a lane is over: [endDispatch] is called, and the lane is
    removed with its last task. *)
Definition end_task (key : jsstr) (s : AgentCronScheduler) : AgentCronScheduler :=
  match lane key s with
  | [] => s
  | t :: rest =>
      with_open (if t_end t then filter (λ k, k ≠ d_id (t_dispatch t)) (open s) else open s)
        (with_lanes (match rest with [] => jm_delete (dispatchLanes s) key | _ => jm_set (dispatchLanes s) key rest end) s)
  end.

(** The first task of a lane starts: it runs its job, or it is over because the
    job is no longer active. *)
Definition start_task (key : jsstr) (now : Z) (s : AgentCronScheduler) : AgentCronScheduler :=
  match lane key s with
  | MkTask d e None :: rest =>
      match getClaimedJob (id (d_job d)) (store s) with
      | None => end_task key (with_store (recordDispatchResult (d_id d) now Skipped None (store s)).1 s)
      | Some job => with_lanes (jm_set (dispatchLanes s) key (MkTask d e (Some job) :: rest)) s
      end
  | _ => s
  end.

(** How [runJob] ended: with a result, or with an error, whose report to
    [onError] can throw in turn. *)
Inductive run_end := RunReturned (r : option AgentCronJobRunResult) | RunThrew (message : jsstr) (onError_throws : bool).

Definition record_end (d : AgentCronDispatch) (e : run_end) (now : Z) (st : AgentCronJobStore) : AgentCronJobStore :=
  match e with
  | RunReturned r =>
      (recordDispatchResult (d_id d) now (if bool_decide (r = Some Skipped) then Skipped else Ran) None st).1
  | RunThrew message false => (recordDispatchResult (d_id d) now Ran (Some message) st).1
  | RunThrew _ true => st
  end.

Definition finish_task (key : jsstr) (e : run_end) (now : Z) (s : AgentCronScheduler) : AgentCronScheduler :=
  match lane key s with
  | MkTask d _ (Some _) :: _ => end_task key (with_store (record_end d e now (store s)) s)
  | _ => s
  end.

(** *** Claiming what is due *)

(** [beginDispatch] for each claimed dispatch, in order, up to the first that
    throws. *)
Fixpoint begin_all (beginDispatch : AgentCronDispatch → result jsstr bool) (ds : list AgentCronDispatch)
    : result jsstr (list Task) :=
  match ds with
  | [] => Ok []
  | d :: ds =>
      e ← beginDispatch d;
      ts ← begin_all beginDispatch ds;
      Ok (MkTask d e None :: ts)
  end.

(** The part of [runDue] before its [await].  Dispatches begun before a throw are
    ended at once, so that they never are in [open] between two steps. *)
Definition runDue (beginDispatch : AgentCronDispatch → result jsstr bool) (now claimedAt : Z) (s : AgentCronScheduler)
    : AgentCronScheduler * result jsstr unit :=
  if running s || (stopped s && hasStarted s) then (s, Ok tt) else
  let finally := λ s, if stopped s then s else scheduleNext None claimedAt s in
  match claimDue now claimedAt (store s) with
  | (st, Throw e) => (finally (with_store st s), Throw e)
  | (st, Ok ds) =>
      match begin_all beginDispatch ds with
      | Throw e => (finally (with_store (recoverInterruptedDispatchesById (d_id <$> ds) claimedAt st).1 s), Throw e)
      | Ok tasks =>
          let s := with_open (open s ++ (d_id ∘ t_dispatch <$> filter (λ t, t_end t = true) tasks)) (finally (with_store st s)) in
          (foldl (λ s t, queueDispatch t s) s tasks, Ok tt)
      end
  end.
End scheduler.
