(* ===== verification/CronSchedulerSpec.v ===== *)
(** * Theorems about the scheduler of jobs

    The outstanding dispatches of the store under its operations; then the
    scheduler with any operations of the store in between: every task of a lane
    has an outstanding dispatch of its own, so that no job runs twice at the same
    time, and the lanes drain. *)

From S2P Require Import Prelude.
From S2P Require Import JsMap.
From S2P Require Import JsString.
From S2P Require Import Eff.
From S2P Require Import CronSchedule.
From S2P Require Import CronStore.
From S2P Require Import CronStoreSpec.
From S2P Require Import CronStoreProps.
From S2P Require Import CronScheduler.

Section writes.
Context `{!Platform} `{!Clock} `{!Inj (=) (=) randomUUID}.

Implicit Types (s : AgentCronJobStore) (j : AgentCronJob) (p q : jsstr) (k : jsstr) (d : AgentCronDispatchRecord).

(** ** Outstanding dispatches under writes *)

Lemma session_write_outstanding s s' all d : Inv s → incoming_ok s all → sessionArtifactMode s = true →
  Forall (λ j, jm_has (sessionArtifactFiles s) (sessionId j) = true) all →
  (∀ sid path, (sid, path) ∈ sessionArtifactFiles s →
     read s' path = next_state all (session_states s) sid (read s path)) → same_shape s s' →
  d ∈ outstanding s → d ∈ outstanding s'.
Proof.
  intros HI [Hall _] Hmode Hreg Hnext Hs Hd. unfold outstanding in *. rewrite (same_shape_paths _ _ Hs).
  assert (state_paths s = jm_values (sessionArtifactFiles s)) as Hpaths by (unfold state_paths; by rewrite Hmode).
  rewrite Hpaths in *. apply list_elem_of_bind in Hd as (p&Hd&[sid Hp]%jm_values_elem).
  pose proof (ok_home _ (fo_file _ _ (inv_files s HI) p) d Hd) as Hjob.
  assert (∃ sid' p', (sid', p') ∈ sessionArtifactFiles s ∧ dr_jobId d ∈ ids (merged_session all sid' (read s p')))
    as (sid'&p'&Hp'&Hm).
  { destruct (find_job (dr_jobId d) all) as [j|] eqn:Ef.
    - pose proof (find_job_Some _ _ _ Ef) as [Hj _]. rewrite Forall_forall in Hreg. specialize (Hreg j Hj).
      unfold jm_has in Hreg. destruct (jm_get (sessionArtifactFiles s) (sessionId j)) as [p'|] eqn:Eg; [|done].
      apply jm_get_elem in Eg. exists (sessionId j), p'. split; [done|].
      apply (merged_ids all Hall); [apply (fo_file _ _ (inv_files s HI))|]. right. by exists j.
    - exists sid, p. split; [done|]. apply (merged_ids all Hall); [apply (fo_file _ _ (inv_files s HI))|]. by left. }
  apply list_elem_of_bind. exists p'. split; [|apply jm_values_elem; eauto]. rewrite (Hnext _ _ Hp'). cbn [next_state dispatches].
  apply list_elem_of_filter. split.
  - eapply (session_of_spec all Hall (session_states s) (sts_ok s HI) (sts_jobs_unique s HI)).
    exists (read s p'). split; [apply session_states_elem; eauto|done].
  - apply in_dispatches. exists sid, (read s p). split; [apply session_states_elem; eauto|done].
Qed.

Lemma session_write_run s all : Inv s → ∃ s', write_sessions all (session_states s) (sessionArtifactFiles s) s = (s', Ok ()) ∧
  same_shape s s' ∧ ∀ sid path, (sid, path) ∈ sessionArtifactFiles s →
    read s' path = next_state all (session_states s) sid (read s path).
Proof.
  intros HI. destruct (write_sessions_reads all (session_states s) (sessionArtifactFiles s) s) as (fs&Hrun&Hreg&_);
    [apply (inv_paths s HI)|intros sid path Hin'; apply elem_jm_get;
       [unfold keys_NoDup; rewrite session_states_keys; apply (inv_sessions s HI)|apply session_states_elem; eauto]|].
  by exists (set_files fs s).
Qed.

(** A write keeps every outstanding dispatch, also when jobs move to another
    session. *)
Lemma writeJobs_outstanding all s : Inv s → incoming_ok s all →
  same_shape s (writeJobs all s).1 ∧ ∀ d, d ∈ outstanding s → d ∈ outstanding (writeJobs all s).1.
Proof.
  intros HI Hin. set (P := λ s', same_shape s s' ∧ ∀ d, d ∈ outstanding s → d ∈ outstanding s').
  change (P (writeJobs all s).1). assert (P s) as Hs by done.
  assert (∀ prev s1, P s1 → P (notify_if_changed prev s1).1) as Hn.
  { intros prev s1 [Hs1 Ho]. destruct (notify_run prev s1) as (s2&->&Hs2&Hf&_). split; [by etrans|]. intros d Hd%Ho.
    cbn [fst]. unfold outstanding in *. rewrite (same_shape_paths _ _ Hs2).
    apply list_elem_of_bind in Hd as (p&Hd&Hp). apply list_elem_of_bind. exists p. by rewrite (read_files s1 s2). }
  unfold writeJobs. apply (out_run_bind P); [done|]. intros prev [= <-]. cbn [fst egets].
  apply (out_run_bind P); [done|]. intros t [= <-]. cbn [fst eget].
  apply (run_seq P); [|intros _; apply run_keeps, Hn]. destruct (sessionArtifactMode s) eqn:Hmode.
  - destruct (list_find _ all) as [[i j0]|] eqn:E; [done|].
    destruct (session_write_run s all HI) as (s1&->&Hs1&Hnext). split; [done|].
    intros d. apply (session_write_outstanding s s1 all d HI Hin Hmode); [|done..].
    apply list_find_None in E. eapply Forall_impl; [exact E|]. intros j Hj. cbn in Hj. by destruct (jm_has _ _).
  - destruct (filePath s) as [path|] eqn:Hpath; [|done].
    set (s1 := set_files (<[path := MkState (mergeFreshJobs (jobs (read s path)) all) (dispatches (read s path))]> (files s)) s).
    change (write_legacy path all s) with (s1, @Ok jsstr unit tt). split; [done|].
    intros d. cbn [fst]. unfold outstanding. change (state_paths s1) with (state_paths s). rewrite !list_elem_of_bind.
    intros (p&Hd&Hp). exists p. split; [|done]. unfold s1. rewrite read_write. case_decide; [by subst|done].
Qed.

(** An operation that writes the jobs at most once, on a store that differs in
    its counters. *)
Definition one_write {A} (m : eff AgentCronJobStore jsstr A) : Prop := ∀ s, Inv s →
  ∃ s1, same_shape s s1 ∧ files s1 = files s ∧ Inv s1 ∧
    ((m s).1 = s1 ∨ ∃ all, incoming_ok s1 all ∧ (m s).1 = (writeJobs all s1).1).

Lemma one_write_outstanding {A} (m : eff AgentCronJobStore jsstr A) s : one_write m → Inv s →
  same_shape s (m s).1 ∧ ∀ d, d ∈ outstanding s → d ∈ outstanding (m s).1.
Proof.
  intros Hm HI. destruct (Hm s HI) as (s1&Hs&Hf&HI1&Hrun).
  assert (∀ d, d ∈ outstanding s → d ∈ outstanding s1) as Ho.
  { intros d. unfold outstanding. rewrite (same_shape_paths _ _ Hs), !list_elem_of_bind. intros (p&?&?). exists p.
    by rewrite (read_files s s1). }
  destruct Hrun as [->|(all&Hin&->)]; [done|]. destruct (writeJobs_outstanding all s1 HI1 Hin) as [Hs' Ho'].
  split; [by etrans|]. intros d Hd. by apply Ho', Ho.
Qed.

Lemma one_write_fmap {A B} (f : A → B) (m : eff AgentCronJobStore jsstr A) : one_write m → one_write (f <$> m).
Proof.
  intros Hm s HI. destruct (Hm s HI) as (s1&Hs&Hf&HI1&Hrun). exists s1. split_and!; [done..|].
  assert (((f <$> m) s).1 = (m s).1) as ->; [|done]. unfold fmap, eff_fmap. by destruct (m s) as [s' [a|e]].
Qed.

Lemma one_write_none {A} (m : eff AgentCronJobStore jsstr A) : (∀ s, (m s).1 = s) → one_write m.
Proof. intros Hm s HI. exists s. split_and!; [done..|]. by left. Qed.

(** Reading the jobs, editing them, and writing them or not. *)
Lemma edited_ok f s l c : Inv s → (∀ j j', f j = Ok (Some j') → id j' = id j) →
  edit_jobs f (readJobs s) = Ok (l, c) → incoming_ok s l.
Proof. intros HI Hf E. apply (incoming_ids _ (readJobs s)); [by eapply edit_jobs_ids|by apply incoming_own]. Qed.

Lemma write_then {A} (all : list AgentCronJob) (a : A) s : ((writeJobs all;; mret a) s).1 = (writeJobs all s).1.
Proof. unfold mbind, eff_bind. by destruct (writeJobs all s) as [s' [[]|e]]. Qed.

Lemma one_write_update f : (∀ j j', f j = Ok (Some j') → id j' = id j) → one_write (update_jobs f).
Proof.
  intros Hf s HI. exists s. split_and!; [done..|].
  set (P := λ t, t = s ∨ ∃ all, incoming_ok s all ∧ t = (writeJobs all s).1). change (P (update_jobs f s).1).
  unfold update_jobs. apply (out_run_bind P); [by left|]. intros l [= <-]. cbn [fst egets].
  apply (out_run_bind P); [by left|]. intros [l' c] Hl. cbn [snd lift] in Hl. cbn [fst lift snd].
  apply (run_seq P); [|intros _; apply keeps_ret]. case_bool_decide; [by left|]. right. exists l'.
  split; [by eapply edited_ok|done].
Qed.

Lemma one_write_cancelling (skip : AgentCronJob → bool) now :
  one_write (update_jobs (λ j, Ok (if skip j then None else Some (cancelled_at now j)))).
Proof. apply one_write_update. intros j j'. by destruct (skip j); [|intros [= <-]]. Qed.

Lemma one_write_replace jobId f : (∀ j, id (f j) = id j) → one_write (replace_job jobId f).
Proof.
  intros Hf s HI. exists s. split_and!; [done..|].
  set (P := λ t, t = s ∨ ∃ all, incoming_ok s all ∧ t = (writeJobs all s).1). change (P (replace_job jobId f s).1).
  unfold replace_job. apply (out_run_bind P); [by left|]. intros l [= <-]. cbn [fst egets].
  apply (out_run_bind P); [by left|]. intros [l' c] Hl. cbn [snd lift] in Hl. cbn [fst lift snd].
  apply (run_seq P); [|intros _; apply keeps_ret]. right. exists l'. split; [|done]. eapply edited_ok; [done| |exact Hl].
  intros j j'. cbn beta. case_bool_decide; [|done]. by intros [= <-].
Qed.

(** A new identifier, then the write. *)
Lemma one_write_create s l (mk : jsstr → Stamp → AgentCronJob) (next : result jsstr Stamp) :
  Inv s → ids l = ids (readJobs s) → (∀ k n, id (mk k n) = k) →
  let m := newId ≫= λ k, lift next ≫= λ n, writeJobs (l ++ [mk k n]);; mret (mk k n) in
  (m s).1 = (newId s).1 ∨ ∃ all, incoming_ok (newId s).1 all ∧ (m s).1 = (writeJobs all (newId s).1).1.
Proof.
  intros HI Hl Hmk m. destruct (newId_spec s HI) as (HI'&k&Hk&Hg&Hn).
  set (P := λ t, t = (newId s).1 ∨ ∃ all, incoming_ok (newId s).1 all ∧ t = (writeJobs all (newId s).1).1).
  change (P (m s).1). unfold m. apply (out_run_bind P); [by left|]. intros k' Hk'. rewrite Hk in Hk'. injection Hk' as <-.
  apply (out_run_bind P); [by left|]. intros n _. cbn [lift fst]. right. exists (l ++ [mk k n]). split; [|apply write_then].
  destruct (incoming_own s HI) as [Hnd Hin]. split; unfold ids in *; rewrite fmap_app, Hl.
  - apply NoDup_app. split_and!; [done| |apply NoDup_singleton]. intros x Hx ->%list_elem_of_singleton.
    rewrite Hmk in Hx. by apply Hn, Hin.
  - intros x [Hx|Hx%list_elem_of_singleton]%elem_of_app.
    + destruct (Hin x Hx) as [Hgx Hpx]. split; [apply (generated_mono (uuids s)); [cbn; lia|done]|exact Hpx].
    + subst x. rewrite Hmk. split; [done|]. intros p Hp. exfalso. by apply Hn, (fo_job_gen _ _ (inv_files s HI) p).
Qed.

(** The operations that do not deal with dispatches. *)
Inductive edit : ∀ A : Type, eff AgentCronJobStore jsstr A → Prop :=
  | edit_create input now : edit _ (create input now)
  | edit_createHeartbeat input now : edit _ (createHeartbeat input now)
  | edit_createRlmHeartbeat input now : edit _ (createRlmHeartbeat input now)
  | edit_rebind asid sid file dir : edit _ (rebindSessionJobs asid sid file dir)
  | edit_cancelRlm asid now : edit _ (cancelRlmHeartbeatsForSession asid now)
  | edit_cancelJobs asid sid file now : edit _ (cancelJobsForSession asid sid file now)
  | edit_pause asid now : edit _ (pauseHeartbeat asid now)
  | edit_resume asid now : edit _ (resumeHeartbeat asid now)
  | edit_clear asid now : edit _ (clearHeartbeat asid now)
  | edit_manage asid jobId action now : edit _ (manageHeartbeat asid jobId action now)
  | edit_updateRlm asid jobId update now : edit _ (updateRlmHeartbeat asid jobId update now)
  | edit_deleteRlm asid jobId now : edit _ (deleteRlmHeartbeat asid jobId now)
  | edit_cancel jobId now : edit _ (cancel jobId now)
  | edit_recordRun jobId now error : edit _ (recordRunResult jobId now error)
  | edit_recordSkip jobId now : edit _ (recordSkipResult jobId now).

Lemma edit_is_operation A m : edit A m → operation A m.
Proof. destruct 1; constructor. Qed.

Lemma no_write s {A} (m : eff AgentCronJobStore jsstr A) :
  Inv s → (m s).1 = s → ∃ s1, same_shape s s1 ∧ files s1 = files s ∧ Inv s1 ∧
    ((m s).1 = s1 ∨ ∃ all, incoming_ok s1 all ∧ (m s).1 = (writeJobs all s1).1).
Proof. intros HI ->. exists s. split_and!; [done..|]. by left. Qed.

(** Nothing is written before the store is as in [t]. *)
Lemma one_write_new s t {A} (m : eff AgentCronJobStore jsstr A) : Inv s → Inv t → same_shape s t → files t = files s →
  (m s).1 = t ∨ (∃ all, incoming_ok t all ∧ (m s).1 = (writeJobs all t).1) →
  ∃ s1, same_shape s s1 ∧ files s1 = files s ∧ Inv s1 ∧
    ((m s).1 = s1 ∨ ∃ all, incoming_ok s1 all ∧ (m s).1 = (writeJobs all s1).1).
Proof. intros. by exists t. Qed.

Lemma newId_shape s : same_shape s (newId s).1 ∧ files (newId s).1 = files s.
Proof. done. Qed.

Lemma create_write input now : one_write (create input now).
Proof.
  intros s HI. destruct (newId_spec s HI) as [HI' _]. destruct (newId_shape s) as [Hs Hf]. unfold create.
  case_bool_decide; [by apply no_write|].
  destruct (parseAgentCronSchedule (in_scheduleText input) now) as [parsed|e]; [|by apply no_write].
  apply (one_write_new s (newId s).1); try done.
  by apply (one_write_create s (readJobs s) (λ k n, new_job k (default SourceCron (in_source input)) None input
    (trim (in_prompt input)) parsed.1 now n) (toISOString parsed.2) HI).
Qed.

Lemma createRlm_write input now : one_write (createRlmHeartbeat input now).
Proof.
  intros s HI. destruct (newId_spec s HI) as [HI' _]. destruct (newId_shape s) as [Hs Hf]. unfold createRlmHeartbeat.
  destruct (parseAgentCronSchedule (in_scheduleText input) now) as [parsed|e]; [|by apply no_write].
  change (lift (Ok parsed) ≫= ?f) with (λ s, f parsed s). cbv beta.
  do 2 (case_bool_decide; [by apply no_write|]). apply (one_write_new s (newId s).1); try done.
  by apply (one_write_create s (readJobs s) (λ k n, new_job k SourceRlmHeartbeat (heartbeat_mode input) input
    (trim (in_prompt input)) parsed.1 now n) (toISOString parsed.2) HI).
Qed.

Lemma createHeartbeat_write input now : one_write (createHeartbeat input now).
Proof.
  intros s HI. destruct (newId_spec s HI) as [HI' _]. destruct (newId_shape s) as [Hs Hf]. unfold createHeartbeat.
  destruct (parseAgentCronSchedule (in_scheduleText input) now) as [parsed|e]; [|by apply no_write].
  change (lift (Ok parsed) ≫= ?f) with (λ s, f parsed s). cbv beta.
  case_bool_decide; [by apply no_write|]. change (egets ?g ≫= ?f) with (λ s : AgentCronJobStore, f (g s) s). cbv beta.
  case_bool_decide; [by apply no_write|]. apply (one_write_new s (newId s).1); try done.
  apply (one_write_create s _ (λ k n, new_job k SourceHeartbeat (heartbeat_mode input) input
    (trim (in_prompt input)) parsed.1 now n) (toISOString parsed.2) HI); [|done].
  unfold ids. rewrite <-list_fmap_compose. apply list_fmap_ext. intros i j _. cbn. by destruct (is_live_heartbeat _ _).
Qed.

Lemma one_write_heartbeat {A} asid (f : AgentCronJob → eff AgentCronJobStore jsstr (option A)) : (∀ c, one_write (f c)) →
  one_write (current ← egets (getHeartbeat asid); match current with None => mret None | Some c => f c end).
Proof.
  intros Hf s HI. change ((egets ?g ≫= ?h) s) with (h (g s) s). cbv beta.
  destruct (getHeartbeat asid s); [by apply Hf|by apply no_write].
Qed.

Lemma resume_write asid now : one_write (resumeHeartbeat asid now).
Proof.
  apply one_write_heartbeat. intros c s HI. destruct (recurring_next _ _ _); [|by apply no_write].
  by apply (one_write_replace (id c) (resumed_at now a)).
Qed.

Lemma edit_one_write A m : edit A m → one_write m.
Proof.
  destruct 1.
  - apply create_write.
  - apply createHeartbeat_write.
  - apply createRlm_write.
  - apply one_write_update. intros j j'. unfold rebind_job. repeat case_match; by intros [= <-].
  - apply (one_write_cancelling (λ j, _)).
  - apply (one_write_cancelling (λ j, _)).
  - apply one_write_heartbeat. intros c. by apply one_write_replace.
  - apply resume_write.
  - apply one_write_heartbeat. intros c. by apply one_write_replace.
  - apply one_write_fmap, one_write_update. intros j j'. destruct (_ || _); [done|]. destruct (is_terminal j); [done|].
    destruct action; [by intros [= <-]| |by intros [= <-]]. by intros (next&_&[= <-])%bind_Ok.
  - apply one_write_fmap, one_write_update. intros j j'. destruct (_ || _); [done|].
    destruct (apply_rlm_update update now j) as [x|] eqn:E; [|done]. cbn. intros [= <-]. by eapply rlm_update_id.
  - apply one_write_fmap, one_write_update. intros j j'. destruct (is_rlm_heartbeat _ _ _); [|done]. by intros [= <-].
  - apply one_write_fmap, (one_write_cancelling (λ j, _)).
  - apply one_write_fmap, one_write_update. intros j j'. destruct (negb (bool_decide (id j = _))); [done|].
    destruct (negb _); [by intros [= <-]|]. by intros (n&_&(next&_&[= <-])%bind_Ok)%bind_Ok.
  - apply one_write_fmap, one_write_update. intros j j'. destruct (negb (bool_decide (id j = _))); [done|].
    destruct (negb _); [by intros [= <-]|]. by intros (n&_&(next&_&[= <-])%bind_Ok)%bind_Ok.
Qed.

(** ** Outstanding dispatches under the operations on dispatches *)

Definition retains (K : AgentCronDispatchRecord → Prop) s t : Prop :=
  same_shape s t ∧ ∀ d, d ∈ outstanding s → K d → d ∈ outstanding t.

Lemma mutate_retains {A} (m : CronJobsState → eff AgentCronJobStore jsstr (CronJobsState * list A)) (K : AgentCronDispatchRecord → Prop) s :
  quiet m →
  (∀ st t t' st' o, m st t = (t', Ok (st', o)) → ∀ d, d ∈ dispatches st → K d → d ∈ dispatches st') →
  retains K s (mutateStates m s).1.
Proof.
  intros Hq Hm. set (P := λ t, same_shape s t ∧ ∀ p d, d ∈ dispatches (read s p) → K d → d ∈ dispatches (read t p)).
  assert (∀ t t', P t → same_shape t t' → files t' = files t → P t') as Hext.
  { intros t t' [Hs Hd] Ht Hf. split; [by etrans|]. intros p d. rewrite (read_files t t') by done. apply Hd. }
  assert (∀ paths, keeps P (mutate_paths m paths)) as Hpaths.
  { induction paths as [|p paths IH]; [apply keeps_ret|]. apply run_keeps. intros t Ht. cbn [mutate_paths].
    apply (out_run_bind P); [done|]. intros st [= <-]. cbn [fst egets]. change (readJobsState p t) with (read t p).
    destruct (Hq (read t p) t) as (Hs1&Hf1&_).
    apply (out_run_bind P); [by apply (Hext t)|]. intros [st' o] E. cbn [fst snd].
    destruct (m (read t p) t) as [t1 r] eqn:Em. cbn [fst snd] in *. subst r.
    apply (run_seq P); [|intros []; apply keeps_bind; [apply IH|intros; apply keeps_ret]].
    case_bool_decide; cbn [negb ewhen]; [by apply (Hext t)|].
    change (writeJobsState p st' t1).1 with (set_files (<[p := st']> (files t1)) t1). destruct Ht as [Hs Hd].
    split; [by do 2 (etrans; [eassumption|])|]. intros q d Hin HK. rewrite read_write. case_decide as Hqp.
    - subst q. eapply Hm; [exact Em| |done]. by apply Hd.
    - rewrite (read_files t t1) by done. by apply Hd. }
  assert (P (mutateStates m s).1) as [Hs Hd].
  { apply (keeps_run P); [|done]. unfold mutateStates. apply keeps_bind; [apply keeps_gets|]. intros paths.
    apply keeps_bind; [apply keeps_gets|]. intros prev. apply keeps_bind; [done|]. intros r.
    apply keeps_bind; [|intros; apply keeps_ret]. apply keeps_when, run_keeps. intros t Ht.
    destruct (notify_run prev t) as (t'&->&?&?&_). by apply (Hext t). }
  split; [done|]. intros d. unfold outstanding. rewrite (same_shape_paths _ _ Hs), !list_elem_of_bind.
  intros (p&?&?) ?. exists p. auto.
Qed.

Lemma claim_retains dueAt claimedAt s : retains (λ _, True) s (claimDue dueAt claimedAt s).1.
Proof.
  apply mutate_retains; [apply claim_quiet|].
  intros st t t' st' o (recs&->&_)%claimDueInState_run d Hd _. apply elem_of_app. by left.
Qed.

Lemma record_retains dispatchId now outcome error s :
  retains (λ d, dr_id d ≠ dispatchId) s (recordDispatchResult dispatchId now outcome error s).1.
Proof.
  assert (∀ {A B} (f : A → B) (m : eff AgentCronJobStore jsstr A), ((f <$> m) s).1 = (m s).1) as Hf.
  { intros A B f m. unfold fmap, eff_fmap. by destruct (m s) as [s1 [a|e]]. }
  unfold recordDispatchResult. rewrite Hf. apply mutate_retains; [apply quiet_lift|].
  intros st t t' st' o [= _ E] d Hd Hne. revert E. unfold finish_dispatch. destruct (list_find _ _) as [[i d0]|].
  - intros (r&_&[= <- _])%bind_Ok. by apply list_elem_of_filter.
  - by intros [= <- _].
Qed.

Lemma recover_retains sel now s : retains (λ d, selected sel d = false) s (recover sel now s).1.
Proof.
  assert (retains (λ d, selected sel d = false) s (mutateStates (λ st, lift (Ok (recoverInterruptedInState now sel st))) s).1)
    as Hr; [|by destruct sel].
  apply mutate_retains; [apply quiet_lift|]. intros st t t' st' o [= _ E] d Hd Hsel. rewrite recover_unfold in E.
  revert E. cbv zeta. case_bool_decide; [by intros [= <- _]|]. intros [= <- _]. by apply list_elem_of_filter.
Qed.

(** Every dispatch of a claim has an outstanding record, for a job that had
    none. *)
Lemma claim_new dueAt claimedAt s s' ds : Inv s → claimDue dueAt claimedAt s = (s', Ok ds) →
  NoDup ((λ x, id (d_job x)) <$> ds) ∧
  ∀ x, x ∈ ds → (∃ d, d ∈ outstanding s' ∧ dr_id d = d_id x ∧ dr_jobId d = id (d_job x)) ∧
    id (d_job x) ∉ dr_jobId <$> outstanding s.
Proof.
  intros HI Hc. pose proof (claim_dispatched _ _ _ _ _ HI Hc) as Hids. split.
  - rewrite Hids. apply (NoDup_fmap_filter id), readJobs_NoDup, HI.
  - intros x Hx. split.
    + apply claimDue_files in Hc as (Hs&outs&->&Ho); [|done].
      apply elem_of_concat in Hx as (o&Hx&[i Hi]%list_elem_of_lookup).
      destruct (Forall2_lookup_r _ _ _ _ _ Ho Hi) as (p&Hp%list_elem_of_lookup_2&recs&Hd&_&_&Hr).
      apply list_elem_of_lookup in Hx as [i' Hi']. destruct (Forall2_lookup_r _ _ _ _ _ Hr Hi') as (d&Hd'%list_elem_of_lookup_2&Hid&Hjob).
      exists d. split; [|done]. unfold outstanding. rewrite (same_shape_paths _ _ Hs). apply list_elem_of_bind.
      exists p. split; [|done]. rewrite Hd. apply elem_of_app. by right.
    + assert (id (d_job x) ∈ ids (claimable_jobs dueAt s)) as Hin by (rewrite <-Hids; by apply list_elem_of_fmap; exists x).
      by apply list_elem_of_fmap in Hin as (j&->&[[_ Hno] _]%list_elem_of_filter).
Qed.
End writes.

(** ** Lanes *)

Section lanes.
Context {V : Type}.
Implicit Types (m : list (jsstr * list V)).

(** Setting a key exchanges the old values of the key for the new. *)
Lemma jm_set_concat m k v : keys_NoDup m →
  concat (jm_values (jm_set m k v)) ++ default [] (jm_get m k) ≡ₚ concat (jm_values m) ++ v.
Proof.
  unfold keys_NoDup, jm_keys, jm_values. induction m as [|[k' v'] m IH]; intros Hnd.
  - cbn. by rewrite !app_nil_r.
  - cbn in Hnd. apply NoDup_cons in Hnd as [Hni Hnd]. cbn [jm_set jm_get].
    case_decide as Hkk; cbn.
    + solve_Permutation.
    + rewrite <-!(assoc_L (++)). by rewrite IH.
Qed.

Lemma jm_delete_concat m k : keys_NoDup m →
  concat (jm_values (jm_delete m k)) ++ default [] (jm_get m k) ≡ₚ concat (jm_values m).
Proof.
  unfold keys_NoDup, jm_keys, jm_values. induction m as [|[k' v'] m IH]; intros Hnd; [done|].
  cbn in Hnd. apply NoDup_cons in Hnd as [Hni Hnd]. unfold jm_delete. rewrite filter_cons. cbn [fst jm_get].
  destruct (decide (k = k')) as [<-|Hne]; [rewrite decide_False by auto|rewrite decide_True by done].
  2:{ cbn. rewrite <-!(assoc_L (++)). by rewrite <-IH. }
  - fold (jm_delete m k). rewrite jm_delete_absent by done. cbn. solve_Permutation.
Qed.
End lanes.

Section scheduler.
Context `{!Platform} `{!Clock} `{!Inj (=) (=) randomUUID}.

Implicit Types (s : AgentCronScheduler) (t : Task).

Definition task_id t : jsstr := d_id (t_dispatch t).
Definition task_job t : jsstr := id (d_job (t_dispatch t)).
Definition task_key t : jsstr := activeSessionId (d_job (t_dispatch t)).

(** The tasks that wait or run. *)
Definition all_tasks s : list Task := concat (jm_values (dispatchLanes s)).

(** A lane holds tasks of its session, and only the first can run. *)
Definition lane_ok (key : jsstr) (ts : list Task) : Prop :=
  ts ≠ [] ∧ Forall (λ t, task_key t = key) ts ∧ Forall (λ t, t_running t = None) (tail ts).

Record lanes_ok (lanes : list (jsstr * list Task)) : Prop := {
  lo_keys : keys_NoDup lanes;
  lo_lane key ts : (key, ts) ∈ lanes → lane_ok key ts
}.

(** The record of a task in the store. *)
Definition recorded (st : AgentCronJobStore) t : Prop :=
  ∃ d, d ∈ outstanding st ∧ dr_id d = task_id t ∧ dr_jobId d = task_job t.

(** The tasks [l] with the store [st] and the dispatches [op] that are open:
    distinct dispatches, each with its record, and each begun one open once. *)
Record tasks_ok (st : AgentCronJobStore) (op : list jsstr) (l : list Task) : Prop := {
  to_record t : t ∈ l → recorded st t;
  to_running t j : t ∈ l → t_running t = Some j → id j = task_job t;
  to_ids : NoDup (task_id <$> l);
  to_open : op ≡ₚ task_id <$> filter (λ t, t_end t = true) l
}.

Record SInv s : Prop := {
  si_store : Inv (store s);
  si_lanes : lanes_ok (dispatchLanes s);
  si_tasks : tasks_ok (store s) (open s) (all_tasks s)
}.

#[export] Instance tasks_ok_proper st op : Proper ((≡ₚ) ==> iff) (tasks_ok st op).
Proof.
  assert (∀ l l', l ≡ₚ l' → tasks_ok st op l → tasks_ok st op l') as Himp.
  { intros l l' Hp [H1 H2 H3 H4]. split.
    - intros t. rewrite <-Hp. apply H1.
    - intros t j. rewrite <-Hp. apply H2.
    - by rewrite <-Hp.
    - by rewrite <-Hp. }
  intros l l' Hp. split; by apply Himp.
Qed.

Lemma tasks_ok_nil st : tasks_ok st [] [].
Proof. split; [by intros t ?%not_elem_of_nil|by intros t j ?%not_elem_of_nil|constructor|done]. Qed.

Lemma recorded_retains (K : AgentCronDispatchRecord → Prop) st st' t : retains K st st' →
  (∀ d, dr_id d = task_id t → K d) → recorded st t → recorded st' t.
Proof. intros [_ Hr] HK (d&Hd&Hid&Hjob). exists d. split; [|done]. apply Hr; [done|by apply HK]. Qed.

(** The first task is over. *)
Lemma tasks_ok_end st st' op t l : tasks_ok st op (t :: l) → retains (λ d, dr_id d ≠ task_id t) st st' →
  tasks_ok st' (if t_end t then filter (λ k, k ≠ task_id t) op else op) l.
Proof.
  intros [H1 H2 H3 H4] Hr. cbn [fmap list_fmap] in H3. apply NoDup_cons in H3 as [Hni Hnd].
  assert (∀ u, u ∈ l → task_id u ≠ task_id t) as Hne.
  { intros u Hu E. apply Hni. rewrite <-E. by apply list_elem_of_fmap_2. }
  split; [|intros u j Hu; apply H2; by right|done|].
  - intros u Hu. eapply recorded_retains; [exact Hr| |apply H1; by right]. intros d Hd. cbn beta. rewrite Hd. by apply Hne.
  - rewrite filter_cons in H4. destruct (t_end t) eqn:Et; [|by rewrite decide_False in H4].
    rewrite decide_True in H4 by done. rewrite H4. cbn [fmap list_fmap]. rewrite filter_cons_False by auto.
    assert (∀ ks : list jsstr, (∀ k, k ∈ ks → k ≠ task_id t) → filter (λ k, k ≠ task_id t) ks = ks) as Hall.
    { induction ks as [|k ks IH]; intros Hks; [done|]. rewrite filter_cons_True by (apply Hks; by left).
      f_equal. apply IH. intros k' Hk'. apply Hks. by right. }
    rewrite Hall; [done|]. intros k (u&->&[_ Hu]%list_elem_of_filter)%list_elem_of_fmap. by apply Hne.
Qed.

(** A waiting task runs its job. *)
Lemma tasks_ok_run st op d e r j l : tasks_ok st op (MkTask d e r :: l) → id j = id (d_job d) →
  tasks_ok st op (MkTask d e (Some j) :: l).
Proof.
  intros [H1 H2 H3 H4] Hj. split.
  - intros t [->|Ht]%elem_of_cons; [apply (H1 (MkTask d e r)); by left|apply H1; by right].
  - intros t j' [->|Ht]%elem_of_cons; [by intros [= <-]|apply H2; by right].
  - done.
  - rewrite H4, !filter_cons. cbn [t_end]. by case_decide.
Qed.

(** New tasks, of dispatches that were just claimed. *)
Lemma tasks_ok_claim dueAt claimedAt st st' op l ds ts : Inv st → Inv st' → claimDue dueAt claimedAt st = (st', Ok ds) →
  t_dispatch <$> ts = ds → Forall (λ t, t_running t = None) ts → tasks_ok st op l →
  tasks_ok st' (op ++ (task_id <$> filter (λ t, t_end t = true) ts)) (l ++ ts).
Proof.
  intros HI HI' Hc Hts Hrun [H1 H2 H3 H4]. destruct (claim_new _ _ _ _ _ HI Hc) as [Hjobs Hnew].
  pose proof (claim_retains dueAt claimedAt st) as Hr. rewrite Hc in Hr. cbn [fst] in Hr.
  assert (∀ t, t ∈ l → recorded st' t) as Hold.
  { intros t Ht. eapply recorded_retains; [exact Hr|done|by apply H1]. }
  assert (∀ t, t ∈ ts → recorded st' t ∧ task_job t ∉ dr_jobId <$> outstanding st) as Hts'.
  { intros t Ht. destruct (Hnew (t_dispatch t)) as [Hd Hno]; [rewrite <-Hts; by apply list_elem_of_fmap_2|]. done. }
  (* tasks with the same dispatch have the same job *)
  assert (∀ t u, recorded st' t → recorded st' u → task_id t = task_id u → task_job t = task_job u) as Hsame.
  { intros t u (d&Hd&Hid&<-) (d'&Hd'&Hid'&<-) E. f_equal.
    eapply (NoDup_fmap_eq dr_id); [by apply outstanding_ids_NoDup|done..|congruence]. }
  split.
  - intros t [Ht|Ht]%elem_of_app; [by apply Hold|by apply Hts'].
  - intros t j [Ht|Ht]%elem_of_app; [by apply H2|]. rewrite Forall_forall in Hrun. by rewrite Hrun.
  - rewrite fmap_app. apply NoDup_app. split_and!; [done| |].
    + intros k (t&->&Ht)%list_elem_of_fmap (u&E&Hu)%list_elem_of_fmap. destruct (Hts' u Hu) as [Hru Hno].
      apply Hno. rewrite <-(Hsame t u (Hold t Ht) Hru E). destruct (H1 t Ht) as (d&Hd&_&<-). by apply list_elem_of_fmap_2.
    + assert (NoDup (task_job <$> ts)) as Hnd.
      { assert (task_job <$> ts = (λ x, id (d_job x)) <$> ds) as ->; [|done]. rewrite <-Hts, <-list_fmap_compose. done. }
      clear -Hnd Hts' Hsame. induction ts as [|t ts IH]; [constructor|]. cbn [fmap list_fmap] in *. apply NoDup_cons in Hnd as [Hni Hnd].
      apply NoDup_cons. split; [|apply IH; [|done]; intros u Hu; apply Hts'; by right].
      intros (u&E&Hu)%list_elem_of_fmap. apply Hni. rewrite (Hsame t u); [by apply list_elem_of_fmap_2|apply Hts'; by left|apply Hts'; by right|done].
  - by rewrite filter_app, fmap_app, H4.
Qed.

Lemma lanes_set lanes key ts : lanes_ok lanes → lane_ok key ts → lanes_ok (jm_set lanes key ts).
Proof.
  intros [Hk Hl] Hts. split; [by apply jm_set_NoDup|]. intros k ts' Hin.
  apply elem_jm_get in Hin; [|by apply jm_set_NoDup]. destruct (decide (key = k)) as [->|Hne].
  - rewrite jm_get_set_eq in Hin. by injection Hin as <-.
  - rewrite jm_get_set_ne in Hin by done. by apply Hl, jm_get_elem.
Qed.

Lemma lanes_delete lanes key : lanes_ok lanes → lanes_ok (jm_delete lanes key).
Proof.
  intros [Hk Hl]. split; [by apply jm_delete_NoDup|]. intros k ts [_ Hin]%list_elem_of_filter. by apply Hl.
Qed.

Lemma lane_get s key t ts : lane key s = t :: ts → jm_get (dispatchLanes s) key = Some (t :: ts).
Proof. unfold lane. destruct (jm_get _ key); cbn; [by intros ->|done]. Qed.

Lemma lane_lane_ok s key t ts : lanes_ok (dispatchLanes s) → lane key s = t :: ts → lane_ok key (t :: ts).
Proof. intros Hl E%lane_get. by apply Hl, jm_get_elem. Qed.

Lemma queue_spec s t : lanes_ok (dispatchLanes s) → t_running t = None →
  lanes_ok (dispatchLanes (queueDispatch t s)) ∧ all_tasks (queueDispatch t s) ≡ₚ all_tasks s ++ [t] ∧
  store (queueDispatch t s) = store s ∧ open (queueDispatch t s) = open s.
Proof.
  intros Hl Ht. unfold queueDispatch. fold (task_key t). split_and!; [| |done..]; cbn [dispatchLanes with_lanes].
  - apply lanes_set; [done|]. unfold lane. destruct (jm_get (dispatchLanes s) (task_key t)) as [ts|] eqn:E; cbn.
    + apply jm_get_elem in E. destruct (lo_lane _ Hl _ _ E) as (Hne&Hkey&Htail). destruct ts as [|t0 ts]; [done|].
      split; [done|]. rewrite Forall_app, Forall_singleton. split; [done|]. cbn. by rewrite Forall_app, Forall_singleton.
    + split; [done|]. by rewrite Forall_singleton.
  - unfold all_tasks. cbn. pose proof (jm_set_concat (dispatchLanes s) (task_key t) (lane (task_key t) s ++ [t]) (lo_keys _ Hl)) as Hp.
    fold (lane (task_key t) s) in Hp. apply (Permutation_app_inv_r (lane (task_key t) s)). rewrite Hp. solve_Permutation.
Qed.

Lemma queue_all s ts : lanes_ok (dispatchLanes s) → Forall (λ t, t_running t = None) ts →
  let s' := foldl (λ s t, queueDispatch t s) s ts in
  lanes_ok (dispatchLanes s') ∧ all_tasks s' ≡ₚ all_tasks s ++ ts ∧ store s' = store s ∧ open s' = open s.
Proof.
  revert s. induction ts as [|t ts IH]; intros s Hl Hts; cbn [foldl]; [by rewrite (right_id_L [] (++))|].
  apply Forall_cons in Hts as [Ht Hts]. destruct (queue_spec s t Hl Ht) as (Hl1&Hp1&Hs1&Ho1).
  destruct (IH (queueDispatch t s) Hl1 Hts) as (Hl2&Hp2&Hs2&Ho2). split_and!; [done| |congruence..].
  rewrite Hp2, Hp1. by rewrite <-(assoc_L (++)).
Qed.

(** ** Steps *)

Lemma all_tasks_end s key t rest : lanes_ok (dispatchLanes s) → lane key s = t :: rest →
  lanes_ok (dispatchLanes (end_task key s)) ∧ all_tasks s ≡ₚ t :: all_tasks (end_task key s).
Proof.
  intros Hl E. unfold end_task. rewrite E. unfold all_tasks. cbn [dispatchLanes with_open with_lanes].
  pose proof (lane_get s key t rest E) as Hg. destruct rest as [|t' rest].
  - split; [by apply lanes_delete|]. rewrite <-(jm_delete_concat (dispatchLanes s) key (lo_keys _ Hl)), Hg. cbn.
    by rewrite <-Permutation_cons_append.
  - destruct (lane_lane_ok s key t (t' :: rest) Hl E) as (_&Hkey&Htail). split.
    + apply lanes_set; [done|]. apply Forall_cons in Hkey as [_ Hkey]. cbn in Htail. apply Forall_cons in Htail as [_ Htail].
      by split.
    + pose proof (jm_set_concat (dispatchLanes s) key (t' :: rest) (lo_keys _ Hl)) as Hp. rewrite Hg in Hp. cbn [default from_option Datatypes.id] in Hp.
      apply (Permutation_app_inv_r (t' :: rest)). rewrite <-Hp. solve_Permutation.
Qed.

Lemma end_task_SInv s key t rest st : SInv s → lane key s = t :: rest → Inv st →
  retains (λ d, dr_id d ≠ task_id t) (store s) st → SInv (end_task key (with_store st s)).
Proof.
  intros [HI Hl Ht] E HI' Hr. destruct (all_tasks_end (with_store st s) key t rest Hl E) as [Hl' Hp].
  change (all_tasks (with_store st s)) with (all_tasks s) in Hp. rewrite Hp in Ht.
  pose proof (tasks_ok_end _ st _ _ _ Ht Hr) as Ht'.
  split; [|done|]; unfold end_task in *; change (lane key (with_store st s)) with (lane key s) in *; rewrite E in *; done.
Qed.

Lemma good_store {A} (m : eff AgentCronJobStore jsstr A) st : good m → Inv st → Inv (m st).1.
Proof. intros Hm HI. by apply Hm. Qed.

(** The store changes, and keeps the records of all tasks. *)
Lemma store_SInv s st : SInv s → Inv st → retains (λ _, True) (store s) st → SInv (with_store st s).
Proof.
  intros [HI Hl [H1 H2 H3 H4]] HI' Hr. split; [done..|]. split; [|done..]. intros t Ht.
  eapply recorded_retains; [exact Hr|done|by apply H1].
Qed.

(** Only the store, the lanes and the open dispatches matter. *)
Lemma SInv_same s s' : store s' = store s → dispatchLanes s' = dispatchLanes s → open s' = open s → SInv s → SInv s'.
Proof. intros Hs Hl Ho [H1 H2 H3]. split; unfold all_tasks in *; by rewrite ?Hs, ?Hl, ?Ho. Qed.

Lemma start_task_SInv s key now : SInv s → SInv (start_task key now s).
Proof.
  intros HS. unfold start_task. destruct (lane key s) as [|[d e [j|]] rest] eqn:E; [done..|].
  destruct (getClaimedJob (id (d_job d)) (store s)) as [job|] eqn:Ej.
  - destruct HS as [HI Hl Ht]. pose proof (lane_get _ _ _ _ E) as Hg. destruct (lane_lane_ok _ _ _ _ Hl E) as (_&Hkey&Htail).
    assert (id job = id (d_job d)) as Hid.
    { unfold getClaimedJob in Ej. destruct (list_find _ _) as [[i st]|]; [|done].
      assert (job ∈ filter (λ j, id j = id (d_job d) ∧ status j = Active) (jobs st)) as Hin.
      { destruct (filter _ _); [done|]. injection Ej as ->. by left. }
      by apply list_elem_of_filter in Hin as [[? _] _]. }
    pose proof (jm_set_concat (dispatchLanes s) key (MkTask d e (Some job) :: rest) (lo_keys _ Hl)) as Hp.
    rewrite Hg in Hp. cbn [default from_option Datatypes.id] in Hp.
    assert (∃ others, all_tasks s ≡ₚ MkTask d e None :: others ∧
      concat (jm_values (jm_set (dispatchLanes s) key (MkTask d e (Some job) :: rest))) ≡ₚ MkTask d e (Some job) :: others)
      as (others&Ho&Ho').
    { pose proof (jm_delete_concat (dispatchLanes s) key (lo_keys _ Hl)) as Hd. rewrite Hg in Hd.
      cbn [default from_option Datatypes.id] in Hd. exists (concat (jm_values (jm_delete (dispatchLanes s) key)) ++ rest).
      unfold all_tasks. split; [rewrite <-Hd; solve_Permutation|].
      apply (Permutation_app_inv_r (MkTask d e None :: rest)). rewrite Hp, <-Hd. solve_Permutation. }
    split; [done| |].
    + apply lanes_set; [done|]. split; [done|]. cbn [tail] in *. apply Forall_cons in Hkey as [? ?]. by split; [constructor|].
    + unfold all_tasks at 1. cbn [dispatchLanes with_lanes]. rewrite Ho'. rewrite Ho in Ht. by apply (tasks_ok_run _ _ d e None).
  - eapply end_task_SInv; [done|exact E| |apply record_retains].
    apply good_store; [apply good_record|apply (si_store _ HS)].
Qed.

Lemma finish_task_SInv s key e now : SInv s → SInv (finish_task key e now s).
Proof.
  intros HS. unfold finish_task. destruct (lane key s) as [|[d b [j|]] rest] eqn:E; [done| |done].
  eapply end_task_SInv; [done|exact E| |].
  - destruct e as [r|message []]; cbn [record_end]; [|apply (si_store _ HS)|];
      (apply good_store; [apply good_record|apply (si_store _ HS)]).
  - destruct e as [r|message []]; cbn [record_end]; [apply record_retains|done|apply record_retains].
Qed.

Lemma begin_all_spec begin ds ts : begin_all begin ds = Ok ts → t_dispatch <$> ts = ds ∧ Forall (λ t, t_running t = None) ts.
Proof.
  revert ts. induction ds as [|d ds IH]; intros ts; cbn [begin_all]; [by intros [= <-]|].
  intros (e&_&(ts'&Hts'&[= <-])%bind_Ok)%bind_Ok. destruct (IH _ Hts') as [<- ?]. split; [done|by constructor].
Qed.

(** A claim that is recovered at once. *)
Lemma claim_undone dueAt claimedAt now st st' op l ds : Inv st → Inv st' → claimDue dueAt claimedAt st = (st', Ok ds) →
  tasks_ok st op l →
  Inv (recoverInterruptedDispatchesById (d_id <$> ds) now st').1 ∧
  tasks_ok (recoverInterruptedDispatchesById (d_id <$> ds) now st').1 op l.
Proof.
  intros HI HI' Ec [H1 H2 H3 H4]. split; [by apply (good_store _ _ (good_recover (Some (d_id <$> ds)) now))|].
  pose proof (claim_retains dueAt claimedAt st) as Hr. rewrite Ec in Hr. cbn [fst] in Hr.
  pose proof (recover_retains (Some (d_id <$> ds)) now st') as Hrec. destruct (claim_new _ _ _ _ _ HI Ec) as [_ Hnew].
  split; [|done..]. intros t Hin. assert (recorded st' t) as Hst by (eapply recorded_retains; [exact Hr|done|by apply H1]).
  eapply recorded_retains; [exact Hrec| |exact Hst]. intros d Hd. cbn [selected]. apply bool_decide_eq_false. rewrite Hd.
  intros (x&Ex&Hx)%list_elem_of_fmap. destruct (Hnew x Hx) as [(d1&Hd1&Hid1&Hjob1) Hno]. apply Hno.
  destruct (H1 t Hin) as (d3&Hd3&Hid3&Hjob3). rewrite <-Hjob1. assert (d1 = d3) as ->; [|by apply list_elem_of_fmap_2].
  eapply (NoDup_fmap_eq dr_id); [by apply outstanding_ids_NoDup|exact Hd1|by apply (proj2 Hr)|]. by rewrite Hid1, Hid3.
Qed.

Lemma runDue_SInv s begin now claimedAt : SInv s → SInv (runDue begin now claimedAt s).1.
Proof.
  intros HS. pose proof HS as [HI Hl Ht]. unfold runDue. destruct (running s || _); [done|].
  set (finally := λ s, if stopped s then s else scheduleNext None claimedAt s).
  assert (∀ s, store (finally s) = store s ∧ dispatchLanes (finally s) = dispatchLanes s ∧ open (finally s) = open s) as Hfin.
  { intros s0. unfold finally. by destruct (stopped s0). }
  assert (∀ s, SInv s → SInv (finally s)) as Hfinally.
  { intros s0. destruct (Hfin s0) as (?&?&?). by apply SInv_same. }
  pose proof (claim_retains now claimedAt (store s)) as Hr. pose proof (good_store _ _ (good_claim now claimedAt) HI) as HI'.
  destruct (claimDue now claimedAt (store s)) as [st [ds|e]] eqn:Ec; cbn [fst] in *; [|by apply Hfinally, store_SInv].
  destruct (begin_all begin ds) as [ts|e] eqn:Eb.
  - apply begin_all_spec in Eb as [Hds Hrun].
    pose proof (tasks_ok_claim _ _ _ _ _ _ _ _ HI HI' Ec Hds Hrun Ht) as Hnew.
    set (s1 := with_open _ _). destruct (Hfin (with_store st s)) as (Hs1&Hl1&Ho1).
    assert (dispatchLanes s1 = dispatchLanes s) as Hls by exact Hl1.
    destruct (queue_all s1 ts) as (Hl2&Hp2&Hs2&Ho2); [by rewrite Hls|done|]. cbn [fst]. split; [|done|].
    + rewrite Hs2. assert (store s1 = st) as -> by exact Hs1. done.
    + rewrite Hs2, Ho2, Hp2. assert (store s1 = st) as -> by exact Hs1. unfold all_tasks. rewrite Hls. exact Hnew.
  - cbn [fst]. apply Hfinally. destruct (claim_undone _ _ claimedAt _ _ _ _ _ HI HI' Ec Ht). by split.
Qed.

(** One step of the scheduler, of a task, or of the store in between: any
    operation that does not deal with dispatches, or a new session with a file of
    its own.  The first start comes before the first claim. *)
Inductive sched_step s : AgentCronScheduler → Prop :=
  | ss_start now : hasStarted s = true ∨ dispatchLanes s = [] → sched_step s (start now s)
  | ss_stop : sched_step s (stop s)
  | ss_wake now : sched_step s (wake now s)
  | ss_runDue begin now claimedAt : sched_step s (runDue begin now claimedAt s).1
  | ss_task key now : sched_step s (start_task key now s)
  | ss_end key e now : sched_step s (finish_task key e now s)
  | ss_edit A m : edit A m → sched_step s (with_store (m (store s)).1 s)
  | ss_register sid path : jm_get (sessionArtifactFiles (store s)) sid = None →
      path ∉ jm_values (sessionArtifactFiles (store s)) →
      sched_step s (with_store (registerSessionArtifact sid path (store s)).1 s).

Lemma register_retains st sid path : jm_get (sessionArtifactFiles st) sid = None →
  ∀ d, d ∈ outstanding st → d ∈ outstanding (registerSessionArtifact sid path st).1.
Proof.
  intros Hnew d. unfold registerSessionArtifact. destruct (sessionArtifactMode st) eqn:Hm; cbn [negb]; [|done].
  case_bool_decide; [done|]. cbn [fst]. unfold outstanding, state_paths. cbn [sessionArtifactMode sessionArtifactFiles set_artifacts].
  rewrite Hm, !list_elem_of_bind. intros (p&Hd&Hp). exists p. split; [done|].
  rewrite jm_set_new by (by apply jm_get_None). unfold jm_values in *. rewrite fmap_app. apply elem_of_app. by left.
Qed.

Lemma sched_step_SInv s s' : sched_step s s' → SInv s → SInv s'.
Proof.
  destruct 1 as [now Hfirst| |now|begin now claimedAt|key now|key e now|A m Hm|sid path Hnew Hfree]; intros HS.
  - assert (SInv (with_store (if hasStarted s then store s else (recoverInterruptedDispatches now (store s)).1) s)) as Hst.
    { destruct (hasStarted s); [by apply (SInv_same s)|]. destruct Hfirst as [?|Hl]; [done|]. destruct HS as [HI Hlanes Ht].
      split; [by apply (good_store _ _ (good_recover None now))|done|]. unfold all_tasks in *. cbn [dispatchLanes with_store store open].
      destruct Ht as [_ _ _ Ho]. rewrite Hl in *. apply Permutation_nil_r in Ho. rewrite Ho. apply tasks_ok_nil. }
    refine (SInv_same _ (start now s) _ _ _ Hst); reflexivity.
  - by apply (SInv_same s).
  - unfold wake. destruct (stopped s); [done|]. by apply (SInv_same s).
  - by apply runDue_SInv.
  - by apply start_task_SInv.
  - by apply finish_task_SInv.
  - destruct (one_write_outstanding m (store s) (edit_one_write A m Hm) (si_store _ HS)) as [Hs Ho].
    apply store_SInv; [done| |split; [done|intros d Hd _; by apply Ho]].
    apply good_store; [|apply (si_store _ HS)]. by apply operation_good, edit_is_operation.
  - destruct HS as [HI Hl [H1 H2 H3 H4]]. split; [|done|split; [|done..]].
    + refine (proj1 (step_good (store s) _ (step_register _ sid path _) HI)). intros sid' Hg. exfalso. apply Hfree.
      apply jm_values_elem. exists sid'. by apply jm_get_elem.
    + intros t Ht. destruct (H1 t Ht) as (d&Hd&?). exists d. split; [|done]. by apply register_retains.
Qed.

Definition scheduler_over (st : AgentCronJobStore) s : Prop := Inv st ∧ rtc sched_step (new_scheduler st) s.

Lemma scheduler_SInv st s : scheduler_over st s → SInv s.
Proof.
  intros [HI Hs]. assert (SInv (new_scheduler st)) as H0'.
  { split; [done| |].
    - split; [constructor|]. by intros k ts ?%not_elem_of_nil.
    - apply tasks_ok_nil. }
  revert H0'. induction Hs as [s0|s0 s1 s2 Hstep _ IH]; [done|]. intros HS. apply IH. by eapply sched_step_SInv.
Qed.

(** C20: However claims, runs, edits of the jobs and stops interleave: the tasks
    that wait or run are for distinct jobs and every one has an outstanding
    dispatch of its own, so that no job runs twice at the same time, also when it
    moves to another session in between; two tasks of the same session never run
    at the same time; and [beginDispatch] is undone exactly once, for the tasks
    that are over. *)
Theorem runs_exclusive st s : scheduler_over st s →
  NoDup (task_job <$> all_tasks s) ∧
  (∀ t, t ∈ all_tasks s → recorded (store s) t) ∧
  (∀ t t' j j', t ∈ all_tasks s → t' ∈ all_tasks s → t_running t = Some j → t_running t' = Some j' →
     id j = id j' ∨ task_key t = task_key t' → t = t') ∧
  open s ≡ₚ task_id <$> filter (λ t, t_end t = true) (all_tasks s).
Proof.
  intros [HI [Hk Hl] [H1 H2 H3 H4]]%scheduler_SInv.
  assert (∀ t t', t ∈ all_tasks s → t' ∈ all_tasks s → task_job t = task_job t' → t = t') as Hinj.
  { intros t t' Ht Ht' E. destruct (H1 t Ht) as (d&Hd&Hid&Hjob), (H1 t' Ht') as (d'&Hd'&Hid'&Hjob').
    assert (d = d') as <- by (eapply (NoDup_fmap_eq dr_jobId); [by apply outstanding_jobs_NoDup|done..|congruence]).
    eapply (NoDup_fmap_eq task_id); [exact H3|done..|congruence]. }
  split_and!; [|done| |done].
  - apply NoDup_fmap_2_strong; [|by eapply NoDup_fmap_1]. intros t t' Ht Ht'. by apply Hinj.
  - intros t t' j j' Ht Ht' Hr Hr' [Hj|Hkey].
    + apply Hinj; [done..|]. by rewrite <-(H2 t j Ht Hr), <-(H2 t' j' Ht' Hr').
    + apply elem_of_concat in Ht as (ts&Ht&[key Hin]%jm_values_elem), Ht' as (ts'&Ht'&[key' Hin']%jm_values_elem).
      destruct (Hl _ _ Hin) as (_&Hts&Htail), (Hl _ _ Hin') as (_&Hts'&Htail').
      rewrite Forall_forall in Hts, Hts'. rewrite (Hts t Ht), (Hts' t' Ht') in Hkey. subst key'.
      assert (ts' = ts) as ->.
      { apply elem_jm_get in Hin, Hin'; [|done..]. congruence. }
      destruct ts as [|t0 ts]; [by apply not_elem_of_nil in Ht|]. cbn in Htail. rewrite Forall_forall in Htail.
      apply elem_of_cons in Ht as [->|Ht], Ht' as [->|Ht']; try done;
        [by rewrite (Htail _ Ht') in Hr'|by rewrite (Htail _ Ht) in Hr..].
Qed.

(** ** Draining *)

(** A step of a lane: its first task starts, or its run ends in any way. *)
Inductive lane_step s : AgentCronScheduler → Prop :=
  | ls_start key now t rest : lane key s = t :: rest → t_running t = None → lane_step s (start_task key now s)
  | ls_finish key e now t rest j : lane key s = t :: rest → t_running t = Some j → lane_step s (finish_task key e now s).

Lemma lane_step_sched s s' : lane_step s s' → sched_step s s'.
Proof. destruct 1; constructor. Qed.

Definition task_work t : nat := match t_running t with None => 2 | Some _ => 1 end.
Definition work (l : list Task) : nat := sum_list (task_work <$> l).

#[export] Instance work_proper : Proper ((≡ₚ) ==> (=)) work.
Proof. intros l l' Hp. unfold work. by rewrite Hp. Qed.

Lemma lane_step_work s s' : SInv s → lane_step s s' → (work (all_tasks s') < work (all_tasks s))%nat.
Proof.
  intros [_ Hl _]. assert (∀ st key t rest, lane key s = t :: rest →
    (work (all_tasks (end_task key (with_store st s))) < work (all_tasks s))%nat) as Hend.
  { intros st key t rest E. destruct (all_tasks_end (with_store st s) key t rest Hl E) as [_ Hp].
    change (all_tasks (with_store st s)) with (all_tasks s) in Hp. rewrite Hp. unfold work. cbn. unfold task_work at 2.
    destruct (t_running t); lia. }
  destruct 1 as [key now t rest E Hr|key e now t rest j E Hr]; destruct t as [d b r]; cbn in Hr; subst r.
  - unfold start_task. rewrite E. destruct (getClaimedJob _ _) as [job|]; [|by eapply Hend].
    pose proof (jm_set_concat (dispatchLanes s) key (MkTask d b (Some job) :: rest) (lo_keys _ Hl)) as Hp.
    rewrite (lane_get _ _ _ _ E) in Hp. cbn [default from_option Datatypes.id] in Hp.
    unfold all_tasks in *. cbn [dispatchLanes with_lanes]. pose proof (work_proper _ _ Hp) as Hw.
    unfold work in *. rewrite !fmap_app, !sum_list_with_app in Hw. cbn in *. lia.
  - unfold finish_task. rewrite E. by eapply Hend.
Qed.

Lemma lane_steps_SInv n s s' : nsteps lane_step n s s' → SInv s → SInv s' ∧ (n + work (all_tasks s') <= work (all_tasks s))%nat.
Proof.
  induction 1 as [s|n s s1 s' Hstep _ IH]; intros HS; [by split; [|lia]|].
  pose proof (lane_step_work s s1 HS Hstep) as Hw.
  destruct IH as [HS' Hn]; [by eapply sched_step_SInv; [apply lane_step_sched|]|]. split; [done|lia].
Qed.

Lemma work_length l : (work l <= 2 * length l)%nat.
Proof. induction l as [|t l IH]; [done|]. unfold work in *. cbn. unfold task_work at 1. destruct (t_running t); lia. Qed.

(** C21: With nothing claimed anew, every order of starts and ends of tasks is over
    after at most two steps per task, whether runs return, fail or fail to be
    reported; as long as there is a lane some task can go on, and when there is
    none, every begun dispatch was ended. *)
Theorem lanes_drain st s n s' : scheduler_over st s → nsteps lane_step n s s' →
  (n <= 2 * length (all_tasks s))%nat ∧
  (dispatchLanes s' ≠ [] → ∃ s'', lane_step s' s'') ∧
  (dispatchLanes s' = [] → open s' = []).
Proof.
  intros HS%scheduler_SInv Hn. destruct (lane_steps_SInv n s s' Hn HS) as [[_ [Hk Hl] Ht] Hw].
  pose proof (work_length (all_tasks s)). split_and!; [lia| |].
  - intros Hne. destruct (dispatchLanes s') as [|[key ts] lanes] eqn:E; [done|].
    destruct (Hl key ts ltac:(by left)) as (Hts&_&_). destruct ts as [|t ts]; [done|].
    assert (lane key s' = t :: ts) as Hlane by (unfold lane; rewrite E; cbn; by rewrite decide_True).
    destruct (t_running t) as [j|] eqn:Hr; eexists; [by eapply (ls_finish _ key (RunReturned None) 0)|by eapply (ls_start _ key 0)].
  - intros E. destruct Ht as [_ _ _ Ho]. unfold all_tasks in Ho. rewrite E in Ho. by apply Permutation_nil_r in Ho.
Qed.
End scheduler.

(** ** A concrete scheduler *)

#[local] Existing Instance plain.
#[local] Existing Instance no_offset.
#[local] Existing Instance plain_inj.

(** The job of [with_job] is due and runs. *)
Definition running_scheduler : AgentCronScheduler :=
  start_task (js "a") 100001 (runDue (λ _, Ok true) 100000 100000 (start 0 (new_scheduler with_job))).1.

Lemma running_over : scheduler_over with_job running_scheduler.
Proof.
  split; [apply with_job_Inv|]. eapply rtc_l; [apply (ss_start _ 0); by right|].
  eapply rtc_l; [apply (ss_runDue _ (λ _, Ok true) 100000 100000)|]. eapply rtc_once, (ss_task _ (js "a") 100001).
Qed.

Lemma runs_exclusive_witness :
  length (all_tasks running_scheduler) = 1%nat ∧ (∃ k, open running_scheduler = [k]) ∧
  ∀ t, t ∈ all_tasks running_scheduler → recorded (store running_scheduler) t.
Proof.
  split_and!; [by vm_compute|by eexists; vm_compute|]. exact (proj1 (proj2 (runs_exclusive with_job running_scheduler running_over))).
Defined.

Lemma lanes_drain_witness :
  ∃ s', lane_step running_scheduler s' ∧ dispatchLanes s' = [] ∧ open s' = [].
Proof.
  set (s' := finish_task (js "a") (RunThrew (js "timeout") false) 100002 running_scheduler).
  destruct (lane (js "a") running_scheduler) as [|t rest] eqn:E; [by vm_compute in E|].
  assert (∃ j, t_running t = Some j) as [j Hj] by (vm_compute in E; injection E as <- _; by eexists).
  assert (lane_step running_scheduler s') as Hstep by by eapply ls_finish.
  assert (dispatchLanes s' = []) as Hl by by vm_compute. exists s'. split_and!; [done..|].
  exact (proj2 (proj2 (lanes_drain with_job running_scheduler 1 s' running_over ltac:(by eapply nsteps_once))) Hl).
Defined.
