(* ===== verification/SummaryPrompts.v ===== *)
(** * The summarization prompts

    The prompt templates of [packages/coding-agent/src/core/compaction/], line by
    line. *)

From S2P Require Import Prelude.
From S2P Require Import JsString.

Definition SUMMARIZATION_PROMPT : jsstr :=
  js_join [NL] [
    js "The messages above are a conversation to summarize. Create a structured context checkpoint summary that another LLM will use to continue the work.";
    [];
    js "Use this EXACT format:";
    [];
    js "## Goal";
    js "[What is the user trying to accomplish? Can be multiple items if the session covers different tasks.]";
    [];
    js "## Constraints & Preferences";
    js "- [Any constraints, preferences, or requirements mentioned by user]";
    js "- [Or " ++ [34] ++ js "(none)" ++ [34] ++ js " if none were mentioned]";
    [];
    js "## Progress";
    js "### Done";
    js "- [x] [Completed tasks/changes]";
    [];
    js "### In Progress";
    js "- [ ] [Current work]";
    [];
    js "### Blocked";
    js "- [Issues preventing progress, if any]";
    [];
    js "## Key Decisions";
    js "- **[Decision]**: [Brief rationale]";
    [];
    js "## Next Steps";
    js "1. [Ordered list of what should happen next]";
    [];
    js "## Critical Context";
    js "- [Any data, examples, or references needed to continue]";
    js "- [Or " ++ [34] ++ js "(none)" ++ [34] ++ js " if not applicable]";
    [];
    js "Keep each section concise. Preserve exact file paths, function names, and error messages."
  ].

Definition KERNEL_PERSIST_SUMMARY_NOTE : jsstr :=
  js_join [NL] [
    js "Note: the Python kernel keeps running after this summary " ++ [8212] ++ js " every Python variable, import, and helper you defined stays available. The cells that defined them won't appear above, so record in the summary any names worth remembering so you reuse them instead of redefining them."
  ].

Definition UPDATE_SUMMARIZATION_PROMPT : jsstr :=
  js_join [NL] [
    js "The messages above are NEW conversation messages to incorporate into the existing summary provided in <previous-summary> tags.";
    [];
    js "Update the existing structured summary with new information. RULES:";
    js "- PRESERVE all existing information from the previous summary";
    js "- ADD new progress, decisions, and context from the new messages";
    js "- UPDATE the Progress section: move items from " ++ [34] ++ js "In Progress" ++ [34] ++ js " to " ++ [34] ++ js "Done" ++ [34] ++ js " when completed";
    js "- UPDATE " ++ [34] ++ js "Next Steps" ++ [34] ++ js " based on what was accomplished";
    js "- PRESERVE exact file paths, function names, and error messages";
    js "- If something is no longer relevant, you may remove it";
    [];
    js "Use this EXACT format:";
    [];
    js "## Goal";
    js "[Preserve existing goals, add new ones if the task expanded]";
    [];
    js "## Constraints & Preferences";
    js "- [Preserve existing, add new ones discovered]";
    [];
    js "## Progress";
    js "### Done";
    js "- [x] [Include previously done items AND newly completed items]";
    [];
    js "### In Progress";
    js "- [ ] [Current work - update based on progress]";
    [];
    js "### Blocked";
    js "- [Current blockers - remove if resolved]";
    [];
    js "## Key Decisions";
    js "- **[Decision]**: [Brief rationale] (preserve all previous, add new)";
    [];
    js "## Next Steps";
    js "1. [Update based on current state]";
    [];
    js "## Critical Context";
    js "- [Preserve important context, add new if needed]";
    [];
    js "Keep each section concise. Preserve exact file paths, function names, and error messages."
  ].

Definition TURN_PREFIX_SUMMARIZATION_PROMPT : jsstr :=
  js_join [NL] [
    js "This is the PREFIX of a turn that was too large to keep. The SUFFIX (recent work) is retained.";
    [];
    js "Summarize the prefix to provide context for the retained suffix:";
    [];
    js "## Original Request";
    js "[What did the user ask for in this turn?]";
    [];
    js "## Early Progress";
    js "- [Key decisions and work done in the prefix]";
    [];
    js "## Context for Suffix";
    js "- [Information needed to understand the retained recent work]";
    [];
    js "Be concise. Focus on what's needed to understand the kept suffix."
  ].

Definition SUMMARIZATION_SYSTEM_PROMPT : jsstr :=
  js_join [NL] [
    js "You are a context summarization assistant. Your task is to read a conversation between a user and an AI coding assistant, then produce a structured summary following the exact format specified.";
    [];
    js "Do NOT continue the conversation. Do NOT respond to any questions in the conversation. ONLY output the structured summary."
  ].

Definition BRANCH_SUMMARY_PREAMBLE : jsstr :=
  js_join [NL] [
    js "The user explored a different conversation branch before returning here.";
    js "Summary of that exploration:";
    [];
    []
  ].

Definition BRANCH_SUMMARY_PROMPT : jsstr :=
  js_join [NL] [
    js "Create a structured summary of this conversation branch for context when returning later.";
    [];
    js "Use this EXACT format:";
    [];
    js "## Goal";
    js "[What was the user trying to accomplish in this branch?]";
    [];
    js "## Constraints & Preferences";
    js "- [Any constraints, preferences, or requirements mentioned]";
    js "- [Or " ++ [34] ++ js "(none)" ++ [34] ++ js " if none were mentioned]";
    [];
    js "## Progress";
    js "### Done";
    js "- [x] [Completed tasks/changes]";
    [];
    js "### In Progress";
    js "- [ ] [Work that was started but not finished]";
    [];
    js "### Blocked";
    js "- [Issues preventing progress, if any]";
    [];
    js "## Key Decisions";
    js "- **[Decision]**: [Brief rationale]";
    [];
    js "## Next Steps";
    js "1. [What should happen next to continue this work]";
    [];
    js "Keep each section concise. Preserve exact file paths, function names, and error messages."
  ].

