(* ===== verification/Compaction.v ===== *)
(** * Context compaction and branch summaries

    Models [packages/coding-agent/src/core/compaction/]: [utils.ts] (file
    operations, serialization of a conversation), [compaction.ts] (token
    estimates, the cut point, preparation and summarization) and
    [branch-summarization.ts].

    A completion of the model is a parameter [complete]; of its options only
    the token limit is kept.  [Math.floor(0.8 * n)], [0.5 * n] and
    [n * 0.9] are computed on rationals. *)

From stdpp Require Import gmap sorting.
From S2P Require Import Prelude.
From S2P Require Import JsMap.
From S2P Require Import JsString.
From S2P Require Import Json.
From S2P Require Import Messages.
From S2P Require Import Eff.
From S2P Require Import SessionEntry.
From S2P Require Import SessionManager.
From S2P Require Import SummaryPrompts.

(** ** File operations ([utils.ts]) *)

Record FileOperations := MkFileOps { fo_read : gset jsstr; fo_written : gset jsstr; fo_edited : gset jsstr }.

Definition createFileOps : FileOperations := MkFileOps ∅ ∅ ∅.

Definition add_read (l : list jsstr) (o : FileOperations) : FileOperations :=
  MkFileOps (fo_read o ∪ list_to_set l) (fo_written o) (fo_edited o).
Definition add_edited (l : list jsstr) (o : FileOperations) : FileOperations :=
  MkFileOps (fo_read o) (fo_written o) (fo_edited o ∪ list_to_set l).

(** [j[key]] of a JSON object; the last of equal keys counts. *)
Definition json_get (key : jsstr) (j : json) : option json :=
  match j with JObj fs => last (omap (λ kv, if decide (kv.1 = key) then Some kv.2 else None) fs) | _ => None end.

(** The path an [edit] call names. *)
Definition edit_path (b : block) : option jsstr :=
  match b with
  | ToolCallBlock _ name arguments =>
      match json_get (js "path") arguments with
      | Some (JStr ((_ :: _) as path)) => if bool_decide (name = js "edit") then Some path else None
      | _ => None
      end
  | _ => None
  end.

Definition extractFileOpsFromMessage (message : AgentMessage) (fileOps : FileOperations) : FileOperations :=
  match message with
  | MAssistant m => add_edited (omap edit_path (am_content m)) fileOps
  | _ => fileOps
  end.

Definition js_sort (s : gset jsstr) : list jsstr := merge_sort js_le (elements s).

Definition computeFileLists (fileOps : FileOperations) : list jsstr * list jsstr :=
  let modified := fo_edited fileOps ∪ fo_written fileOps in
  (js_sort (fo_read fileOps ∖ modified), js_sort modified).

Definition formatFileOperations (readFiles modifiedFiles : list jsstr) : jsstr :=
  let sections :=
    (match readFiles with
     | [] => []
     | _ => [js "<read-files>" ++ [NL] ++ js_join [NL] readFiles ++ [NL] ++ js "</read-files>"]
     end) ++
    (match modifiedFiles with
     | [] => []
     | _ => [js "<modified-files>" ++ [NL] ++ js_join [NL] modifiedFiles ++ [NL] ++ js "</modified-files>"]
     end) in
  match sections with
  | [] => []
  | _ => [NL; NL] ++ js_join [NL; NL] sections
  end.

(** ** Serialization ([utils.ts]) *)

Definition TOOL_RESULT_MAX_CHARS : nat := 2000.

Definition truncateForSummary (text : jsstr) (maxChars : nat) : jsstr :=
  if (length text <=? maxChars)%nat then text
  else take maxChars text ++ [NL; NL] ++ js "[... " ++ js_of_Z (Z.of_nat (length text - maxChars))
       ++ js " more characters truncated]".

(** The text of a content value: a string, or its text blocks. *)
Definition content_text (c : msg_content) : jsstr :=
  match c with CText s => s | CBlocks l => concat (text_parts l) end.

Definition thinking_parts (l : list block) : list jsstr :=
  omap (λ b, match b with ThinkingBlock t => Some t | _ => None end) l.

(** The arguments of a tool call are an object. *)
Definition object_entries (j : json) : list (jsstr * json) := match j with JObj fs => fs | _ => [] end.

Definition serialize_call (b : block) : option jsstr :=
  match b with
  | ToolCallBlock _ name arguments =>
      Some (name ++ js "(" ++
            js_join (js ", ") ((λ kv, kv.1 ++ js "=" ++ stringify kv.2) <$> object_entries arguments) ++ js ")")
  | _ => None
  end.

(** [if (parts.length > 0) parts.push(label + parts.join(sep))] *)
Definition labelled (label sep : jsstr) (parts : list jsstr) : list jsstr :=
  match parts with [] => [] | _ => [label ++ js_join sep parts] end.

Definition serialize_message (msg : AgentMessage) : list jsstr :=
  match msg with
  | MUser m => match content_text (um_content m) with [] => [] | content => [js "[User]: " ++ content] end
  | MAssistant m =>
      labelled (js "[Assistant thinking]: ") [NL] (thinking_parts (am_content m)) ++
      labelled (js "[Assistant]: ") [NL] (text_parts (am_content m)) ++
      labelled (js "[Assistant tool calls]: ") (js "; ") (omap serialize_call (am_content m))
  | MToolResult m =>
      match concat (text_parts (tm_content m)) with
      | [] => []
      | content => [js "[Tool result]: " ++ truncateForSummary content TOOL_RESULT_MAX_CHARS]
      end
  | _ => []
  end.

Definition serializeConversation (messages : list AgentMessage) : jsstr :=
  js_join [NL; NL] (messages ≫= serialize_message).

(** ** Entries and messages *)

(** [getMessageFromEntry] of [compaction.ts]. *)
Definition getMessageFromEntry (entry : SessionEntry) : option AgentMessage :=
  match e_body entry with
  | BMessage m => Some m
  | BCustomMessage customType content details display =>
      Some (createCustomMessage customType content display details (e_timestamp entry))
  | BBranchSummary fromId summary _ _ _ => Some (createBranchSummaryMessage summary fromId (e_timestamp entry))
  | BCompaction c =>
      Some (createCompactionSummaryMessage (ce_summary c) (ce_tokensBefore c) (e_timestamp entry)
              (ce_customInstructions c) None)
  | _ => None
  end.

Definition getMessageFromEntryForCompaction (entry : SessionEntry) : option AgentMessage :=
  if is_compaction entry then None else getMessageFromEntry entry.

(** [if (Array.isArray(details[key])) ...]: the strings of the array. *)
Definition json_strings (key : jsstr) (details : json) : list jsstr :=
  match json_get key details with
  | Some (JArr l) => omap (λ j, match j with JStr s => Some s | _ => None end) l
  | _ => []
  end.

Definition details_ops (fromHook : option bool) (details : option json) (fileOps : FileOperations) : FileOperations :=
  match fromHook, details with
  | Some true, _ | _, None => fileOps
  | _, Some d =>
      add_edited (json_strings (js "modifiedFiles") d) (add_read (json_strings (js "readFiles") d) fileOps)
  end.

Definition extractFileOperations (messages : list AgentMessage) (prevCompaction : option CompactionEntry)
    : FileOperations :=
  let fileOps :=
    match prevCompaction with
    | Some c => details_ops (ce_fromHook c) (ce_details c) createFileOps
    | None => createFileOps
    end in
  foldl (λ o m, extractFileOpsFromMessage m o) fileOps messages.

(** ** Token estimates *)

Record CompactionSettings := MkCompactionSettings {
  cs_enabled : bool; cs_reserveTokens : Z; cs_keepRecentTokens : Z
}.
Definition DEFAULT_COMPACTION_SETTINGS : CompactionSettings := MkCompactionSettings true 16384 20000.

Definition calculateContextTokens (usage : Usage) : Z :=
  if totalTokens usage =? 0 then input usage + output usage + cacheRead usage + cacheWrite usage
  else totalTokens usage.

Definition getAssistantUsage (msg : AgentMessage) : option Usage :=
  match msg with
  | MAssistant m =>
      match am_stopReason m with
      | SrAborted | SrError => None
      | _ => am_usage m
      end
  | _ => None
  end.

Definition getLastAssistantUsage (entries : list SessionEntry) : option Usage :=
  last (omap (λ e, match e_body e with BMessage m => getAssistantUsage m | _ => None end) entries).

Definition chars (s : jsstr) : Z := Z.of_nat (length s).
Definition sum_Z (l : list Z) : Z := foldr Z.add 0 l.
(** [Math.ceil(chars / 4)] *)
Definition tokens_of_chars (n : Z) : Z := (n + 3) / 4.

Definition IMAGE_CHARS : Z := 4800.

(** Custom and tool-result content counts texts and images. *)
Definition rich_chars (l : list block) : Z :=
  sum_Z ((λ b, match b with TextBlock t => chars t | ImageBlock _ _ => IMAGE_CHARS | _ => 0 end) <$> l).

Definition assistant_chars (l : list block) : Z :=
  sum_Z ((λ b, match b with
               | TextBlock t => chars t
               | ThinkingBlock t => chars t
               | ToolCallBlock _ name arguments => chars name + chars (stringify arguments)
               | ImageBlock _ _ => 0
               end) <$> l).

Definition estimateTokens (message : AgentMessage) : Z :=
  match message with
  | MUser m =>
      tokens_of_chars (match um_content m with CText s => chars s | CBlocks l => sum_Z (chars <$> text_parts l) end)
  | MAssistant m => tokens_of_chars (assistant_chars (am_content m))
  | MCustom m =>
      tokens_of_chars (match cm_content m with CText s => chars s | CBlocks l => rich_chars l end)
  | MToolResult m => tokens_of_chars (rich_chars (tm_content m))
  | MBashExecution m => tokens_of_chars (chars (bm_command m) + chars (bm_output m))
  | MBranchSummary m => tokens_of_chars (chars (bs_summary m))
  | MCompactionSummary m => tokens_of_chars (chars (cs_summary m))
  | MHookMessage _ => 0
  end.

Record ContextUsageEstimate := MkEstimate {
  cu_tokens : Z; cu_usageTokens : Z; cu_trailingTokens : Z; cu_lastUsageIndex : option nat
}.

(** The last index whose message has a usage, searched from the end. *)
Fixpoint last_usage (i : nat) (messages : list AgentMessage) : option (Usage * nat) :=
  match messages with
  | [] => None
  | m :: messages =>
      match last_usage (S i) messages with
      | Some r => Some r
      | None => (λ u, (u, i)) <$> getAssistantUsage m
      end
  end.
Definition getLastAssistantUsageInfo (messages : list AgentMessage) : option (Usage * nat) := last_usage 0 messages.

Definition estimateContextTokens (messages : list AgentMessage) : ContextUsageEstimate :=
  match getLastAssistantUsageInfo messages with
  | None =>
      let estimated := sum_Z (estimateTokens <$> messages) in
      MkEstimate estimated 0 estimated None
  | Some (usage, index) =>
      let usageTokens := calculateContextTokens usage in
      let trailingTokens := sum_Z (estimateTokens <$> drop (S index) messages) in
      MkEstimate (usageTokens + trailingTokens) usageTokens trailingTokens (Some index)
  end.

Definition shouldCompact (contextTokens contextWindow : Z) (settings : CompactionSettings) : bool :=
  if negb (cs_enabled settings) then false
  else if contextWindow <=? 0 then false
  else contextWindow - cs_reserveTokens settings <? contextTokens.

(** ** The cut point *)

(** Whether [findValidCutPoints] records the index of an entry. *)
Definition is_cut_point (e : SessionEntry) : bool :=
  match e_body e with
  | BMessage m => match role m with RToolResult | RHookMessage => false | _ => true end
  | BBranchSummary _ _ _ _ _ | BCustomMessage _ _ _ _ => true
  | _ => false
  end.

Definition findValidCutPoints (entries : list SessionEntry) (startIndex endIndex : nat) : list nat :=
  filter (λ i, match entries !! i with Some e => is_cut_point e | None => false end = true)
    (seq startIndex (endIndex - startIndex)).

Definition is_turn_start (e : SessionEntry) : bool :=
  match e_body e with
  | BBranchSummary _ _ _ _ _ | BCustomMessage _ _ _ _ => true
  | BMessage m => match role m with RUser | RBashExecution => true | _ => false end
  | _ => false
  end.

(** The last turn start in [startIndex .. entryIndex]; [None] is -1. *)
Definition findTurnStartIndex (entries : list SessionEntry) (entryIndex startIndex : nat) : option nat :=
  last (filter (λ i, match entries !! i with Some e => is_turn_start e | None => false end = true)
    (seq startIndex (S entryIndex - startIndex))).

Record CutPointResult := MkCutPoint {
  cp_firstKeptEntryIndex : nat; cp_turnStartIndex : option nat; cp_isSplitTurn : bool
}.

(** The walk back from the newest entry: the index where the accumulated
    estimate of the messages reaches [keepRecentTokens].  [n] entries of
    [startIndex ..] are left. *)
Fixpoint budget_index (entries : list SessionEntry) (startIndex n : nat) (accumulated keepRecentTokens : Z)
    : option nat :=
  match n with
  | O => None
  | S n =>
      let i := (startIndex + n)%nat in
      match entries !! i with
      | Some (MkSessionEntry _ _ _ (BMessage m)) =>
          let accumulated := accumulated + estimateTokens m in
          if keepRecentTokens <=? accumulated then Some i
          else budget_index entries startIndex n accumulated keepRecentTokens
      | _ => budget_index entries startIndex n accumulated keepRecentTokens
      end
  end.

(** The last loop: back over entries that are neither messages nor
    compactions. *)
Fixpoint cut_back (entries : list SessionEntry) (startIndex n : nat) : nat :=
  match n with
  | O => startIndex
  | S n =>
      match entries !! (startIndex + n)%nat with
      | Some (MkSessionEntry _ _ _ (BMessage _)) | Some (MkSessionEntry _ _ _ (BCompaction _)) => (startIndex + S n)%nat
      | _ => cut_back entries startIndex n
      end
  end.

(** The entry the budget selects among the cut points, before [cut_back]. *)
Definition choose_cut (entries : list SessionEntry) (startIndex endIndex : nat) (keepRecentTokens : Z)
    (first : nat) (cutPoints : list nat) : nat :=
  match budget_index entries startIndex (endIndex - startIndex) 0 keepRecentTokens with
  | Some i => default first (head (filter (λ c, (i <= c)%nat) cutPoints))
  | None => first
  end.

Definition is_user_entry (e : SessionEntry) : bool :=
  match e_body e with BMessage (MUser _) => true | _ => false end.

Definition findCutPoint (entries : list SessionEntry) (startIndex endIndex : nat) (keepRecentTokens : Z)
    : CutPointResult :=
  match findValidCutPoints entries startIndex endIndex with
  | [] => MkCutPoint startIndex None false
  | (first :: _) as cutPoints =>
      let cutIndex := choose_cut entries startIndex endIndex keepRecentTokens first cutPoints in
      let cutIndex := cut_back entries startIndex (cutIndex - startIndex) in
      let isUserMessage := match entries !! cutIndex with Some e => is_user_entry e | None => false end in
      let turnStartIndex := if isUserMessage then None else findTurnStartIndex entries cutIndex startIndex in
      MkCutPoint cutIndex turnStartIndex (negb isUserMessage && bool_decide (is_Some turnStartIndex))
  end.

(** ** Preparation *)

Record CompactionPreparation := MkPreparation {
  pr_firstKeptEntryId : jsstr;
  pr_messagesToSummarize : list AgentMessage;
  pr_turnPrefixMessages : list AgentMessage;
  pr_isSplitTurn : bool;
  pr_tokensBefore : Z;
  pr_previousSummary : option jsstr;
  pr_fileOps : FileOperations;
  pr_settings : CompactionSettings
}.

Definition slice {A} (l : list A) (a b : nat) : list A := take (b - a) (drop a l).

(** The index and the content of the last compaction. *)
Fixpoint last_compaction (i : nat) (entries : list SessionEntry) : option (nat * CompactionEntry) :=
  match entries with
  | [] => None
  | e :: entries =>
      match last_compaction (S i) entries with
      | Some r => Some r
      | None => match e_body e with BCompaction c => Some (i, c) | _ => None end
      end
  end.

Definition boundary_start (pathEntries : list SessionEntry) : nat :=
  match last_compaction 0 pathEntries with
  | Some (prevCompactionIndex, c) =>
      default (S prevCompactionIndex)
        (find_index (λ e, bool_decide (e_id e = ce_firstKeptEntryId c)) pathEntries)
  | None => O
  end.

(** [prepareCompaction(pathEntries, settings)]; [tokensBefore] is
    [estimateContextTokens(buildSessionContext(pathEntries).messages).tokens]. *)
Definition prepare (pathEntries : list SessionEntry) (settings : CompactionSettings) (tokensBefore : Z)
    : option CompactionPreparation :=
  if match last pathEntries with Some e => is_compaction e | None => false end then None
  else
    let previous := snd <$> last_compaction 0 pathEntries in
    let previousSummary := ce_summary <$> previous in
    let boundaryStart := boundary_start pathEntries in
    let boundaryEnd := length pathEntries in
    let cutPoint := findCutPoint pathEntries boundaryStart boundaryEnd (cs_keepRecentTokens settings) in
    let firstKept := cp_firstKeptEntryIndex cutPoint in
    match pathEntries !! firstKept with
    | Some (MkSessionEntry ((_ :: _) as firstKeptEntryId) _ _ _) =>
        let turnStart := default O (cp_turnStartIndex cutPoint) in
        let historyEnd := if cp_isSplitTurn cutPoint then turnStart else firstKept in
        let messagesToSummarize :=
          omap getMessageFromEntryForCompaction (slice pathEntries boundaryStart historyEnd) in
        let turnPrefixMessages :=
          if cp_isSplitTurn cutPoint
          then omap getMessageFromEntryForCompaction (slice pathEntries turnStart firstKept) else [] in
        match messagesToSummarize, turnPrefixMessages, truthy previousSummary with
        | [], [], false => None
        | _, _, _ =>
            let fileOps := extractFileOperations messagesToSummarize previous in
            let fileOps :=
              if cp_isSplitTurn cutPoint
              then foldl (λ o m, extractFileOpsFromMessage m o) fileOps turnPrefixMessages else fileOps in
            Some (MkPreparation firstKeptEntryId messagesToSummarize turnPrefixMessages (cp_isSplitTurn cutPoint)
                    tokensBefore previousSummary fileOps settings)
        end
    | _ => None
    end.

(** The outer [option] is [None] when the walk to the root of the context does
    not end (cyclic parent links). *)
Definition prepareCompaction (pathEntries : list SessionEntry) (settings : CompactionSettings)
    : option (option CompactionPreparation) :=
  if match last pathEntries with Some e => is_compaction e | None => false end then Some None
  else
    (λ c, prepare pathEntries settings (cu_tokens (estimateContextTokens (sc_messages c))))
      <$> buildSessionContext (S (length pathEntries)) (FEntry <$> pathEntries) None None.

(** ** Summaries *)

Record Request := MkRequest { rq_systemPrompt : jsstr; rq_promptText : jsstr; rq_maxTokens : Z }.

Record SummarySlice := MkSlice { sl_summary : jsstr; sl_usage : option Usage }.

Record CompactionResult := MkCompactionResult {
  cr_summary : jsstr;
  cr_firstKeptEntryId : jsstr;
  cr_tokensBefore : Z;
  cr_readFiles : list jsstr;
  cr_modifiedFiles : list jsstr;
  cr_usage : option Usage
}.

Definition USER_INSTRUCTIONS : jsstr :=
  js "The user provided these instructions for this summary. Follow them with high priority while keeping the section format above: emphasize what they ask to focus on, and preserve verbatim anything they ask to remember.".

Definition buildSummarizationPrompt (customInstructions previousSummary : option jsstr) : jsstr :=
  let basePrompt := if truthy previousSummary then UPDATE_SUMMARIZATION_PROMPT else SUMMARIZATION_PROMPT in
  let basePrompt :=
    if truthy customInstructions
    then basePrompt ++ [NL; NL] ++ js "<user-instructions>" ++ [NL] ++ USER_INSTRUCTIONS ++ [NL]
         ++ default [] customInstructions ++ [NL] ++ js "</user-instructions>"
    else basePrompt in
  basePrompt ++ [NL; NL] ++ KERNEL_PERSIST_SUMMARY_NOTE.

Definition conversation_block (messages : list AgentMessage) : jsstr :=
  js "<conversation>" ++ [NL] ++ serializeConversation (convertToLlm messages) ++ [NL]
  ++ js "</conversation>" ++ [NL; NL].

(** [Math.floor(a / b * n)] *)
Definition fraction (a b n : Z) : Z := a * n / b.

Section summaries.
(** The model: the response to a request, or the error of the call. *)
Context (complete : Request → result jsstr AssistantMessage).

Definition response_text (response : AssistantMessage) : jsstr := js_join [NL] (text_parts (am_content response)).

Definition or_else (o : option jsstr) (d : jsstr) : jsstr := if truthy o then default [] o else d.

(** What both summary functions do with a request. *)
Definition run_summary (failed : jsstr) (request : Request) : result jsstr SummarySlice :=
  response ← complete request;
  match am_stopReason response with
  | SrError => Throw (failed ++ js ": " ++ or_else (am_errorMessage response) (js "Unknown error"))
  | _ => Ok (MkSlice (response_text response) (am_usage response))
  end.

Definition summary_request (currentMessages : list AgentMessage) (reserveTokens : Z)
    (customInstructions previousSummary : option jsstr) : Request :=
  MkRequest SUMMARIZATION_SYSTEM_PROMPT
    (conversation_block currentMessages ++
     (if truthy previousSummary
      then js "<previous-summary>" ++ [NL] ++ default [] previousSummary ++ [NL] ++ js "</previous-summary>" ++ [NL; NL]
      else []) ++
     buildSummarizationPrompt customInstructions previousSummary)
    (fraction 4 5 reserveTokens).

Definition generateSummary (currentMessages : list AgentMessage) (reserveTokens : Z)
    (customInstructions previousSummary : option jsstr) : result jsstr SummarySlice :=
  run_summary (js "Summarization failed")
    (summary_request currentMessages reserveTokens customInstructions previousSummary).

Definition turn_prefix_request (messages : list AgentMessage) (reserveTokens : Z) : Request :=
  MkRequest SUMMARIZATION_SYSTEM_PROMPT (conversation_block messages ++ TURN_PREFIX_SUMMARIZATION_PROMPT)
    (fraction 1 2 reserveTokens).

Definition generateTurnPrefixSummary (messages : list AgentMessage) (reserveTokens : Z) : result jsstr SummarySlice :=
  run_summary (js "Turn prefix summarization failed") (turn_prefix_request messages reserveTokens).

Definition SPLIT_TURN_SEPARATOR : jsstr :=
  [NL; NL] ++ js "---" ++ [NL; NL] ++ js "**Turn Context (split turn):**" ++ [NL; NL].

(** [Promise.all] of two calls: the first one to reject decides the error. *)
Definition both {A B} (prefixFirst : bool) (a : result jsstr A) (b : result jsstr B) : result jsstr (A * B) :=
  match a, b with
  | Ok a, Ok b => Ok (a, b)
  | Throw e, Ok _ => Throw e
  | Ok _, Throw e => Throw e
  | Throw e1, Throw e2 => Throw (if prefixFirst then e2 else e1)
  end.

(** The usage of the slices that report one. *)
Definition slices_usage (slices : list SummarySlice) : option Usage :=
  foldl (λ acc s, match sl_usage s with
                  | Some u => Some (addAssistantUsage (default emptyUsage acc) u)
                  | None => acc
                  end) None slices.

Definition no_first_kept : jsstr := js "First kept entry has no UUID - session may need migration".

(** The summary texts: of the history, or of the history and the prefix. *)
Definition compact_slices (prefixFirst : bool) (p : CompactionPreparation) (customInstructions : option jsstr)
    : result jsstr (jsstr * list SummarySlice) :=
  let history :=
    generateSummary (pr_messagesToSummarize p) (cs_reserveTokens (pr_settings p)) customInstructions (pr_previousSummary p) in
  match pr_isSplitTurn p, pr_turnPrefixMessages p with
  | true, (_ :: _) as turnPrefix =>
      r ← both prefixFirst
            (match pr_messagesToSummarize p with
             | [] => Ok (MkSlice (js "No prior history.") None)
             | _ => history
             end)
            (generateTurnPrefixSummary turnPrefix (cs_reserveTokens (pr_settings p)));
      Ok (sl_summary r.1 ++ SPLIT_TURN_SEPARATOR ++ sl_summary r.2, [r.1; r.2])
  | _, _ => s ← history; Ok (sl_summary s, [s])
  end.

Definition compact (prefixFirst : bool) (p : CompactionPreparation) (customInstructions : option jsstr)
    : result jsstr CompactionResult :=
  r ← compact_slices prefixFirst p customInstructions;
  let '(readFiles, modifiedFiles) := computeFileLists (pr_fileOps p) in
  let summary := r.1 ++ formatFileOperations readFiles modifiedFiles in
  match pr_firstKeptEntryId p with
  | [] => Throw no_first_kept
  | firstKeptEntryId =>
      Ok (MkCompactionResult summary firstKeptEntryId (pr_tokensBefore p) readFiles modifiedFiles (slices_usage r.2))
  end.

(** ** Branch summaries ([branch-summarization.ts]) *)

(** The walk from the old leaf to the common ancestor, newest first; [None] when
    [fuel] steps do not end it. *)
Fixpoint collect (getEntry : jsstr → option SessionEntry) (commonAncestorId : option jsstr) (fuel : nat)
    (current : option jsstr) : option (list SessionEntry) :=
  match current with
  | None | Some [] => Some []
  | Some id =>
      if bool_decide (current = commonAncestorId) then Some []
      else match getEntry id with
           | None => Some []
           | Some entry =>
               match fuel with
               | O => None
               | S fuel => cons entry <$> collect getEntry commonAncestorId fuel (e_parentId entry)
               end
           end
  end.

(** The last entry of the target path that is on the old path. *)
Definition common_ancestor (oldPath targetPath : list SessionEntry) : option jsstr :=
  e_id <$> last (filter (λ e, e_id e ∈ (e_id <$> oldPath)) targetPath).

Definition collectEntriesForBranchSummary (session : SM) (oldLeafId : option jsstr) (targetId : jsstr)
    : option (list SessionEntry * option jsstr) :=
  match oldLeafId with
  | None | Some [] => Some ([], None)
  | Some _ =>
      oldPath ← getBranch session oldLeafId;
      targetPath ← getBranch session (Some targetId);
      let commonAncestorId := common_ancestor oldPath targetPath in
      entries ← collect (getEntry session) commonAncestorId (walk_fuel session) oldLeafId;
      Some (reverse entries, commonAncestorId)
  end.

(** [getMessageFromEntry] of [branch-summarization.ts]. *)
Definition getMessageFromEntryForBranch (entry : SessionEntry) : option AgentMessage :=
  match e_body entry with
  | BMessage (MToolResult _) => None
  | _ => getMessageFromEntry entry
  end.

Record BranchPreparation := MkBranchPreparation {
  bp_messages : list AgentMessage; bp_fileOps : FileOperations; bp_totalTokens : Z
}.

Definition is_summary_entry (e : SessionEntry) : bool :=
  match e_body e with BCompaction _ | BBranchSummary _ _ _ _ _ => true | _ => false end.

(** The walk from the newest entry ([entries] is reversed). *)
Fixpoint take_budget (tokenBudget : Z) (entries : list SessionEntry) (acc : BranchPreparation) : BranchPreparation :=
  match entries with
  | [] => acc
  | entry :: entries =>
      match getMessageFromEntryForBranch entry with
      | None => take_budget tokenBudget entries acc
      | Some message =>
          let fileOps := extractFileOpsFromMessage message (bp_fileOps acc) in
          let tokens := estimateTokens message in
          let added := MkBranchPreparation (message :: bp_messages acc) fileOps (bp_totalTokens acc + tokens) in
          if (0 <? tokenBudget) && (tokenBudget <? bp_totalTokens acc + tokens) then
            if is_summary_entry entry && (10 * bp_totalTokens acc <? 9 * tokenBudget) then added
            else MkBranchPreparation (bp_messages acc) fileOps (bp_totalTokens acc)
          else take_budget tokenBudget entries added
      end
  end.

Definition summary_ops (fileOps : FileOperations) (e : SessionEntry) : FileOperations :=
  match e_body e with
  | BBranchSummary _ _ details fromHook _ => details_ops fromHook details fileOps
  | _ => fileOps
  end.

Definition prepareBranchEntries (entries : list SessionEntry) (tokenBudget : Z) : BranchPreparation :=
  take_budget tokenBudget (reverse entries)
    (MkBranchPreparation [] (foldl summary_ops createFileOps entries) 0).

Inductive BranchSummaryResult :=
| BranchSummary (summary : jsstr) (files : option (list jsstr * list jsstr)) (usage : option Usage)
| BranchAborted
| BranchError (error : jsstr).

Definition branch_request (messages : list AgentMessage) (customInstructions : option jsstr)
    (replaceInstructions : bool) : Request :=
  let instructions :=
    if truthy customInstructions then
      if replaceInstructions then default [] customInstructions
      else BRANCH_SUMMARY_PROMPT ++ [NL; NL] ++ js "Additional focus: " ++ default [] customInstructions
    else BRANCH_SUMMARY_PROMPT in
  MkRequest SUMMARIZATION_SYSTEM_PROMPT (conversation_block messages ++ instructions) 2048.

Definition generateBranchSummary (entries : list SessionEntry) (contextWindow reserveTokens : Z)
    (customInstructions : option jsstr) (replaceInstructions : bool) : result jsstr BranchSummaryResult :=
  let contextWindow := if contextWindow =? 0 then 128000 else contextWindow in
  let p := prepareBranchEntries entries (contextWindow - reserveTokens) in
  match bp_messages p with
  | [] => Ok (BranchSummary (js "No content to summarize") None None)
  | messages =>
      response ← complete (branch_request messages customInstructions replaceInstructions);
      match am_stopReason response with
      | SrAborted => Ok BranchAborted
      | SrError => Ok (BranchError (or_else (am_errorMessage response) (js "Summarization failed")))
      | _ =>
          let '(readFiles, modifiedFiles) := computeFileLists (bp_fileOps p) in
          let summary := BRANCH_SUMMARY_PREAMBLE ++ response_text response
                         ++ formatFileOperations readFiles modifiedFiles in
          Ok (BranchSummary (or_else (Some summary) (js "No summary generated"))
                (Some (readFiles, modifiedFiles)) (am_usage response))
      end
  end.
End summaries.
