(* ===== verification/Recovery.v ===== *)
(** * Recovery of failed runs

    Models how [AgentSession] ([coding-agent/src/core/agent-session.ts]) goes on
    after a run that ended badly: the retries of a failed request, the
    compaction when the context was too large, and the continuation after it.

    Messages are objects that the transcript, the events and the session share;
    [heap] holds them and a message is its index, so that the login guidance put
    into one is seen everywhere.  Calls of other parts of the session, and the
    events it emits, are recorded in [rs_effects]; what these parts answer is an
    argument ([Outcome], [Around], the registry of credentials). *)

From S2P Require Import Prelude.
From S2P Require Import JsString.
From S2P Require Import Json.
From S2P Require Import Messages.
From S2P Require Import Overflow.
From S2P Require Import Compaction.

(** ** Data *)

Record RetrySettings := MkRetrySettings { rt_enabled : bool; rt_maxRetries : Z; rt_baseDelayMs : Z }.

Record Model := MkModel { mo_provider : jsstr; mo_id : jsstr; mo_contextWindow : Z }.

Record AuthSourceToken := MkToken {
  tk_provider : jsstr; tk_source : jsstr; tk_identityFingerprint : jsstr; tk_valueFingerprint : jsstr
}.
#[export] Instance AuthSourceToken_eq_dec : EqDecision AuthSourceToken.
Proof. solve_decision. Defined.

Inductive OverflowRecovery := Idle | Attempted | Reported.
#[export] Instance OverflowRecovery_eq_dec : EqDecision OverflowRecovery.
Proof. solve_decision. Defined.

Inductive CompactionReason := ByThreshold | ByOverflow | ByRequest.
#[export] Instance CompactionReason_eq_dec : EqDecision CompactionReason.
Proof. solve_decision. Defined.

Inductive CompactionOutcome := Skipped | Cancelled | Failed.

(** The events of the agent that matter here; a message is its index. *)
Inductive AgentEvent :=
  | MessageStart (message : nat)
  | MessageEnd (message : nat)
  | AgentEnd (messages : list nat)
  | OtherEvent.

Inductive Effect :=
  (** [_emit] of an event of the agent *)
  | Forwarded (event : AgentEvent)
  (** an assistant message, when it has been appended to the session *)
  | Recorded (stopReason : StopReason)
  (** a message that starts a run has been seen *)
  | RunStarted
  | AuthStale (provider : jsstr) (tokens : option (list AuthSourceToken))
  | AutoRetryStart (attempt maxAttempts delayMs : Z) (errorMessage : jsstr)
  | AutoRetryEnd (success : bool) (attempt : Z) (finalError : option jsstr)
  (** the calls of [_semanticEdges] *)
  | PrepareTurnRetry
  | ClearTurnRetry
  (** the retry promise resolves *)
  | RetryResolved
  | CompactionStart (reason : CompactionReason) (customInstructions : option jsstr)
  | CompactionEnd (reason : CompactionReason) (ok aborted willRetry : bool) (errorMessage : option jsstr)
  | PlanAborted
  (** [_autoCompactionAbortController?.abort()] *)
  | CompactionAborted
  | QueuedContinuationsCleared
  | GoalContinuationCleared
  | AutoRefineScheduled (afterCompaction : bool)
  | GoalFinished (message : nat)
  (** [agent.continue()] was called; when it was refused, nothing else happens *)
  | Continued
  | ContinueRefused.

(** Where a scheduled continuation waits: for the agent, for the retry promise,
    for the agent again, for what else the session does, for its input, or for
    the run it started. *)
Inductive RunnerPc := PcIdle | PcRetry | PcIdleAgain | PcRest | PcInput | PcRun.
#[export] Instance RunnerPc_eq_dec : EqDecision RunnerPc.
Proof. solve_decision. Defined.

(** [_postCompactionContinuationSettlement] *)
Record Settlement := MkSettlement { st_id : nat; st_continueAfterSessionInput : bool }.

Record Recovery (W : Type) := MkRecovery {
  heap : list AgentMessage;
  (** [agent.state.messages] *)
  rs_messages : list nat;
  rs_lastAssistant : option nat;
  rs_overflow : OverflowRecovery;
  rs_attempt : Z;
  (** whether there is a retry promise *)
  rs_retrying : bool;
  (** [_retryAbortController], and whether it is aborted *)
  rs_abort : option bool;
  rs_authSources : list AuthSourceToken;
  (** [_modelRegistry] *)
  rs_registry : W;
  rs_requested : option (option jsstr);
  rs_requestedRefine : bool;
  rs_planInFlight : bool;
  rs_continueAfterThreshold : bool;
  rs_unpersisted : list nat;
  rs_settlement : option Settlement;
  rs_settlements : nat;
  rs_scheduled : bool;
  (** the calls of [_runScheduledPostCompactionContinue], with their settlements *)
  rs_runners : list (nat * RunnerPc);
  (** the timers that call [agent.continue()] *)
  rs_timers : nat;
  rs_effects : list Effect
}.
Arguments MkRecovery {_}.
Arguments heap {_}. Arguments rs_messages {_}. Arguments rs_lastAssistant {_}. Arguments rs_overflow {_}.
Arguments rs_attempt {_}. Arguments rs_retrying {_}. Arguments rs_abort {_}. Arguments rs_authSources {_}.
Arguments rs_registry {_}. Arguments rs_requested {_}. Arguments rs_requestedRefine {_}. Arguments rs_planInFlight {_}.
Arguments rs_continueAfterThreshold {_}. Arguments rs_unpersisted {_}. Arguments rs_settlement {_}.
Arguments rs_settlements {_}. Arguments rs_scheduled {_}. Arguments rs_runners {_}. Arguments rs_timers {_}. Arguments rs_effects {_}.

(** The registry of models, as far as credentials go. *)
Class Registry (W : Type) := {
  getCurrentProviderAuthSourceToken : jsstr → W → option AuthSourceToken;
  markProviderAuthSourceStale : AuthSourceToken → W → W * bool;
  markProviderAuthStale : jsstr → W → W * bool
}.

Section recovery.
Context {W : Type} `{!Registry W}.
Context (retry : RetrySettings) (compaction : CompactionSettings) (model : option Model).
(** [_extensionRunner.hasHandlers("before_provider_request")] *)
Context (hooked : bool).

Abbreviation R := (Recovery W).

(** ** Assignments *)

Definition effect (e : Effect) (s : R) : R :=
  MkRecovery (heap s) (rs_messages s) (rs_lastAssistant s) (rs_overflow s) (rs_attempt s) (rs_retrying s) (rs_abort s)
    (rs_authSources s) (rs_registry s) (rs_requested s) (rs_requestedRefine s) (rs_planInFlight s)
    (rs_continueAfterThreshold s) (rs_unpersisted s) (rs_settlement s) (rs_settlements s) (rs_scheduled s) (rs_runners s) (rs_timers s) (rs_effects s ++ [e]).

Definition set_heap (h : list AgentMessage) (s : R) : R :=
  MkRecovery h (rs_messages s) (rs_lastAssistant s) (rs_overflow s) (rs_attempt s) (rs_retrying s) (rs_abort s)
    (rs_authSources s) (rs_registry s) (rs_requested s) (rs_requestedRefine s) (rs_planInFlight s)
    (rs_continueAfterThreshold s) (rs_unpersisted s) (rs_settlement s) (rs_settlements s) (rs_scheduled s) (rs_runners s) (rs_timers s) (rs_effects s).

Definition set_messages (l : list nat) (s : R) : R :=
  MkRecovery (heap s) l (rs_lastAssistant s) (rs_overflow s) (rs_attempt s) (rs_retrying s) (rs_abort s)
    (rs_authSources s) (rs_registry s) (rs_requested s) (rs_requestedRefine s) (rs_planInFlight s)
    (rs_continueAfterThreshold s) (rs_unpersisted s) (rs_settlement s) (rs_settlements s) (rs_scheduled s) (rs_runners s) (rs_timers s) (rs_effects s).

Definition set_last (m : option nat) (s : R) : R :=
  MkRecovery (heap s) (rs_messages s) m (rs_overflow s) (rs_attempt s) (rs_retrying s) (rs_abort s)
    (rs_authSources s) (rs_registry s) (rs_requested s) (rs_requestedRefine s) (rs_planInFlight s)
    (rs_continueAfterThreshold s) (rs_unpersisted s) (rs_settlement s) (rs_settlements s) (rs_scheduled s) (rs_runners s) (rs_timers s) (rs_effects s).

Definition set_overflow (o : OverflowRecovery) (s : R) : R :=
  MkRecovery (heap s) (rs_messages s) (rs_lastAssistant s) o (rs_attempt s) (rs_retrying s) (rs_abort s)
    (rs_authSources s) (rs_registry s) (rs_requested s) (rs_requestedRefine s) (rs_planInFlight s)
    (rs_continueAfterThreshold s) (rs_unpersisted s) (rs_settlement s) (rs_settlements s) (rs_scheduled s) (rs_runners s) (rs_timers s) (rs_effects s).

Definition set_attempt (n : Z) (s : R) : R :=
  MkRecovery (heap s) (rs_messages s) (rs_lastAssistant s) (rs_overflow s) n (rs_retrying s) (rs_abort s)
    (rs_authSources s) (rs_registry s) (rs_requested s) (rs_requestedRefine s) (rs_planInFlight s)
    (rs_continueAfterThreshold s) (rs_unpersisted s) (rs_settlement s) (rs_settlements s) (rs_scheduled s) (rs_runners s) (rs_timers s) (rs_effects s).

Definition set_retrying (b : bool) (s : R) : R :=
  MkRecovery (heap s) (rs_messages s) (rs_lastAssistant s) (rs_overflow s) (rs_attempt s) b (rs_abort s)
    (rs_authSources s) (rs_registry s) (rs_requested s) (rs_requestedRefine s) (rs_planInFlight s)
    (rs_continueAfterThreshold s) (rs_unpersisted s) (rs_settlement s) (rs_settlements s) (rs_scheduled s) (rs_runners s) (rs_timers s) (rs_effects s).

Definition set_abort (b : option bool) (s : R) : R :=
  MkRecovery (heap s) (rs_messages s) (rs_lastAssistant s) (rs_overflow s) (rs_attempt s) (rs_retrying s) b
    (rs_authSources s) (rs_registry s) (rs_requested s) (rs_requestedRefine s) (rs_planInFlight s)
    (rs_continueAfterThreshold s) (rs_unpersisted s) (rs_settlement s) (rs_settlements s) (rs_scheduled s) (rs_runners s) (rs_timers s) (rs_effects s).

Definition set_authSources (l : list AuthSourceToken) (s : R) : R :=
  MkRecovery (heap s) (rs_messages s) (rs_lastAssistant s) (rs_overflow s) (rs_attempt s) (rs_retrying s) (rs_abort s)
    l (rs_registry s) (rs_requested s) (rs_requestedRefine s) (rs_planInFlight s)
    (rs_continueAfterThreshold s) (rs_unpersisted s) (rs_settlement s) (rs_settlements s) (rs_scheduled s) (rs_runners s) (rs_timers s) (rs_effects s).

Definition set_registry (w : W) (s : R) : R :=
  MkRecovery (heap s) (rs_messages s) (rs_lastAssistant s) (rs_overflow s) (rs_attempt s) (rs_retrying s) (rs_abort s)
    (rs_authSources s) w (rs_requested s) (rs_requestedRefine s) (rs_planInFlight s)
    (rs_continueAfterThreshold s) (rs_unpersisted s) (rs_settlement s) (rs_settlements s) (rs_scheduled s) (rs_runners s) (rs_timers s) (rs_effects s).

Definition set_requested (r : option (option jsstr)) (s : R) : R :=
  MkRecovery (heap s) (rs_messages s) (rs_lastAssistant s) (rs_overflow s) (rs_attempt s) (rs_retrying s) (rs_abort s)
    (rs_authSources s) (rs_registry s) r (rs_requestedRefine s) (rs_planInFlight s)
    (rs_continueAfterThreshold s) (rs_unpersisted s) (rs_settlement s) (rs_settlements s) (rs_scheduled s) (rs_runners s) (rs_timers s) (rs_effects s).

Definition set_refine (requested plan : bool) (s : R) : R :=
  MkRecovery (heap s) (rs_messages s) (rs_lastAssistant s) (rs_overflow s) (rs_attempt s) (rs_retrying s) (rs_abort s)
    (rs_authSources s) (rs_registry s) (rs_requested s) requested plan
    (rs_continueAfterThreshold s) (rs_unpersisted s) (rs_settlement s) (rs_settlements s) (rs_scheduled s) (rs_runners s) (rs_timers s) (rs_effects s).

Definition set_continueAfter (b : bool) (s : R) : R :=
  MkRecovery (heap s) (rs_messages s) (rs_lastAssistant s) (rs_overflow s) (rs_attempt s) (rs_retrying s) (rs_abort s)
    (rs_authSources s) (rs_registry s) (rs_requested s) (rs_requestedRefine s) (rs_planInFlight s)
    b (rs_unpersisted s) (rs_settlement s) (rs_settlements s) (rs_scheduled s) (rs_runners s) (rs_timers s) (rs_effects s).

Definition set_unpersisted (l : list nat) (s : R) : R :=
  MkRecovery (heap s) (rs_messages s) (rs_lastAssistant s) (rs_overflow s) (rs_attempt s) (rs_retrying s) (rs_abort s)
    (rs_authSources s) (rs_registry s) (rs_requested s) (rs_requestedRefine s) (rs_planInFlight s)
    (rs_continueAfterThreshold s) l (rs_settlement s) (rs_settlements s) (rs_scheduled s) (rs_runners s) (rs_timers s) (rs_effects s).

Definition set_settlement (o : option Settlement) (n : nat) (scheduled : bool) (s : R) : R :=
  MkRecovery (heap s) (rs_messages s) (rs_lastAssistant s) (rs_overflow s) (rs_attempt s) (rs_retrying s) (rs_abort s)
    (rs_authSources s) (rs_registry s) (rs_requested s) (rs_requestedRefine s) (rs_planInFlight s)
    (rs_continueAfterThreshold s) (rs_unpersisted s) o n scheduled (rs_runners s) (rs_timers s) (rs_effects s).

Definition set_runners (l : list (nat * RunnerPc)) (s : R) : R :=
  MkRecovery (heap s) (rs_messages s) (rs_lastAssistant s) (rs_overflow s) (rs_attempt s) (rs_retrying s) (rs_abort s)
    (rs_authSources s) (rs_registry s) (rs_requested s) (rs_requestedRefine s) (rs_planInFlight s)
    (rs_continueAfterThreshold s) (rs_unpersisted s) (rs_settlement s) (rs_settlements s) (rs_scheduled s) l (rs_timers s) (rs_effects s).

Definition set_timers (n : nat) (s : R) : R :=
  MkRecovery (heap s) (rs_messages s) (rs_lastAssistant s) (rs_overflow s) (rs_attempt s) (rs_retrying s) (rs_abort s)
    (rs_authSources s) (rs_registry s) (rs_requested s) (rs_requestedRefine s) (rs_planInFlight s)
    (rs_continueAfterThreshold s) (rs_unpersisted s) (rs_settlement s) (rs_settlements s) (rs_scheduled s) (rs_runners s) n (rs_effects s).

(** ** Messages *)

Definition assistant (s : R) (ref : nat) : option AssistantMessage :=
  match heap s !! ref with Some (MAssistant m) => Some m | _ => None end.

(** [message.errorMessage = e] *)
Definition set_error (ref : nat) (e : jsstr) (s : R) : R :=
  set_heap (alter (λ m, match m with
    | MAssistant m => MAssistant (MkAssistantMessage (am_content m) (am_api m) (am_provider m) (am_model m) (am_usage m)
        (am_stopReason m) (Some e) (am_diagnostics m) (am_timestamp m))
    | _ => m
    end) ref (heap s)) s.

Definition error_message (s : R) (ref : nat) : option jsstr := m ← assistant s ref; am_errorMessage m.

Definition transcript (s : R) : list AgentMessage := omap (λ ref, heap s !! ref) (rs_messages s).

Definition _findLastAssistantInMessages (messages : list nat) (s : R) : option nat :=
  last (filter (λ ref, is_Some (assistant s ref)) messages).

(** The last message of the transcript goes if it is an assistant message. *)
Definition strip_assistant (s : R) : R :=
  match last (rs_messages s) with
  | Some ref => if bool_decide (is_Some (assistant s ref)) then set_messages (removelast (rs_messages s)) s else s
  | None => s
  end.

Definition forget (captured : list nat) (s : R) : R := set_messages (filter (λ ref, ref ∉ captured) (rs_messages s)) s.

Definition AGENT_MESSAGE_CUSTOM_TYPE : jsstr := js "agent_message".
Definition HEARTBEAT_PROMPT_CUSTOM_TYPE : jsstr := js "heartbeat_prompt".

Definition isAgentSessionMessage (message : AgentMessage) : bool :=
  match message with
  | MCustom m =>
      bool_decide (cm_customType m = AGENT_MESSAGE_CUSTOM_TYPE) &&
      match cm_details m with
      | Some details =>
          match field details "id", field details "message" with Some (JStr _), Some (JStr _) => true | _, _ => false end
      | None => false
      end
  | _ => false
  end.

Definition startsAgentRun (message : AgentMessage) : bool :=
  match message with
  | MUser _ => true
  | MCustom m => isAgentSessionMessage message || bool_decide (cm_customType m = HEARTBEAT_PROMPT_CUSTOM_TYPE)
  | _ => false
  end.

(** ** Credentials *)

Definition _isStructuredPermanentProviderRetryExhausted (s : R) (message : AssistantMessage) : bool :=
  (0 <? rs_attempt s) && _isStructuredPermanentProviderFailure message.

Definition contextWindow : Z := match model with Some m => mo_contextWindow m | None => 0 end.

Definition _isRetryableError (s : R) (message : AssistantMessage) : bool :=
  match error_of message with
  | None => false
  | Some _ =>
      if isContextOverflow message contextWindow then false
      else if _isFauxProviderQueueExhausted message then false
      else if _isAgentLifecycleFailure message then false
      else negb (_isStructuredPermanentProviderRetryExhausted s message)
  end.

Definition _captureRetryAuthFailureSource (message : AssistantMessage) (s : R) : R :=
  match getCurrentProviderAuthSourceToken (am_provider message) (rs_registry s) with
  | Some token =>
      if bool_decide (token ∈ rs_authSources s) then s else set_authSources (rs_authSources s ++ [token]) s
  | None => s
  end.

(** The loop over the tokens: whether any of them was marked. *)
Definition mark_sources (tokens : list AuthSourceToken) (w : W) : W * bool :=
  foldl (λ '(w, marked) token, let '(w, m) := markProviderAuthSourceStale token w in (w, m || marked)) (w, false) tokens.

Definition _markProviderAuthStale (message : AssistantMessage) (tokens : option (list AuthSourceToken)) (s : R) : R * bool :=
  match tokens with
  | Some ((_ :: _) as tokens) =>
      let '(w, marked) := mark_sources tokens (rs_registry s) in
      let s := set_registry w s in
      (if marked then effect (AuthStale (am_provider message) (Some tokens)) s else s, marked)
  | _ =>
      let '(w, marked) := markProviderAuthStale (am_provider message) (rs_registry s) in
      let s := set_registry w s in
      (if marked then effect (AuthStale (am_provider message) None) s else s, marked)
  end.

(** [options]: [markAuthStaleOnFailure] and [authSourceTokens]. *)
Record FailureOptions := MkFailureOptions { fo_mark : bool; fo_tokens : option (list AuthSourceToken) }.
Definition no_options : FailureOptions := MkFailureOptions false None.

Definition nonempty {A} (l : option (list A)) : bool := match l with Some (_ :: _) => true | _ => false end.

Definition _markProviderAuthStaleForRetryFailure (ref : nat) (options : FailureOptions) (s : R) : R :=
  match assistant s ref with
  | None => s
  | Some message =>
      let tokens := match rs_authSources s with [] => fo_tokens options | l => Some l end in
      if nonempty tokens || fo_mark options then
        let '(s, marked) := _markProviderAuthStale message tokens s in
        match am_errorMessage message with
        | Some ((_ :: _) as e) => if marked then set_error ref (addLoginGuidanceToAuthError e) s else s
        | _ => s
        end
      else s
  end.

(** ** Retries *)

Definition _resolveRetry (s : R) : R :=
  let s := effect ClearTurnRetry s in
  if rs_retrying s then set_retrying false (effect RetryResolved s) else s.

Definition _finishActiveRetryWithFailure (ref : nat) (s : R) : R :=
  if rs_attempt s =? 0 then s else
  let s := _markProviderAuthStaleForRetryFailure ref no_options s in
  let s := effect (AutoRetryEnd false (rs_attempt s) (error_message s ref)) s in
  set_authSources [] (set_attempt 0 s).

(** [_createRetryPromiseForAgentEnd] of an [agent_end] with these messages. *)
Definition _createRetryPromiseForAgentEnd (messages : list nat) (s : R) : R :=
  if rs_retrying s || negb (rt_enabled retry) then s else
  match _findLastAssistantInMessages messages s ≫= assistant s with
  | None => s
  | Some lastAssistant =>
      let concreteAuthFailure := _isConcreteProviderAuthFailure lastAssistant in
      if negb (_isRetryableError s lastAssistant) && negb concreteAuthFailure then s else
      let s := if concreteAuthFailure then _captureRetryAuthFailureSource lastAssistant s else s in
      set_retrying true s
  end.

(** What a call of [_handleRetryableError] awaits; [None]: it returned [false]. *)
Definition _handleRetryableError (ref : nat) (options : FailureOptions) (s : R) : R * bool :=
  if negb (rt_enabled retry) then
    let s := _markProviderAuthStaleForRetryFailure ref options s in
    (_resolveRetry (set_authSources [] s), false)
  else
  let s := set_attempt (rs_attempt s + 1) (set_retrying true s) in
  if rt_maxRetries retry <? rs_attempt s then
    let s := _markProviderAuthStaleForRetryFailure ref options s in
    let s := effect (AutoRetryEnd false (rs_attempt s - 1) (error_message s ref)) s in
    (_resolveRetry (set_authSources [] (set_attempt 0 s)), false)
  else
  let delayMs := rt_baseDelayMs retry * 2 ^ (rs_attempt s - 1) in
  let s := if hooked then s else effect PrepareTurnRetry s in
  let s := effect (AutoRetryStart (rs_attempt s) (rt_maxRetries retry) delayMs
    (match error_message s ref with Some ((_ :: _) as e) => e | _ => js "Unknown error" end)) s in
  let s := strip_assistant s in
  (set_abort (Some false) s, true).

(** The sleep was over: [setTimeout(() => this.agent.continue())]. *)
Definition retry_slept (s : R) : R := set_timers (S (rs_timers s)) (set_abort None s).

(** The sleep was aborted: the [catch] block. *)
Definition retry_cancelled (ref : nat) (options : FailureOptions) (s : R) : R :=
  let attempt := rs_attempt s in
  let s := _markProviderAuthStaleForRetryFailure ref options s in
  let s := set_abort None (set_attempt 0 s) in
  let s := effect (AutoRetryEnd false attempt (Some (js "Retry cancelled"))) s in
  set_authSources [] (_resolveRetry s).

(** ** The continuation after a compaction *)

(** [_settlePostCompactionContinue]; [error]: with an error. *)
Definition _settlePostCompactionContinue (error : bool) (s : R) : R :=
  if negb error && rs_scheduled s then s else set_settlement None (rs_settlements s) (rs_scheduled s) s.

Definition _cancelPostCompactionContinue (s : R) : R :=
  _settlePostCompactionContinue false (set_settlement (rs_settlement s) (rs_settlements s) false s).

Definition _schedulePostCompactionContinue (continueAfterSessionInput : bool) (s : R) : R :=
  let '(st, n) := match rs_settlement s with
    | Some st => (st, rs_settlements s)
    | None => (MkSettlement (rs_settlements s) false, S (rs_settlements s))
    end in
  let st := MkSettlement (st_id st) (st_continueAfterSessionInput st || continueAfterSessionInput) in
  if rs_scheduled s then set_settlement (Some st) n true s
  else let s := set_settlement (Some st) n true s in set_runners (rs_runners s ++ [(st_id st, PcIdle)]) s.

(** [abortRetry] *)
Definition abortRetry (s : R) : R :=
  match rs_abort s with
  | Some _ => set_abort (Some true) s
  | None =>
      let s := if 0 <? rs_attempt s then
        let s := _cancelPostCompactionContinue (effect CompactionAborted s) in
        set_attempt 0 (effect (AutoRetryEnd false (rs_attempt s) (Some (js "Retry cancelled"))) s) else s in
      _resolveRetry (set_authSources [] s)
  end.

(** ** Compaction *)

(** [createCompactionOutcomeMessage] *)
Definition reason_text (r : CompactionReason) : jsstr :=
  match r with ByThreshold => js "threshold" | ByOverflow => js "overflow" | ByRequest => js "requested" end.
Definition outcome_text (o : CompactionOutcome) : jsstr :=
  match o with Skipped => js "skipped" | Cancelled => js "cancelled" | Failed => js "failed" end.

Definition createCompactionOutcomeMessage (content : jsstr) (reason : CompactionReason) (outcome : CompactionOutcome)
    (timestamp : Z) : AgentMessage :=
  MCustom (MkCustomMessage COMPACTION_OUTCOME_CUSTOM_TYPE (CText content) true
    (Some (JObj [(js "reason", JStr (reason_text reason)); (js "outcome", JStr (outcome_text outcome))])) timestamp).

(** What the rest of the session answers while a compaction or an event is
    handled: whether the outcome could be saved ([Some e]: not), the time, and
    whether the queues hold anything. *)
Record Around := MkAround { ar_saveError : option jsstr; ar_now : Z; ar_queued : bool }.

Definition _persistCompactionOutcome (reason : CompactionReason) (outcome : CompactionOutcome) (message : jsstr)
    (a : Around) (s : R) : R :=
  let text := match ar_saveError a with
    | None => message
    | Some e => message ++ [NL; NL] ++ js "This compaction outcome could not be saved to session history: " ++ e
    end in
  let ref := length (heap s) in
  let s := set_heap (heap s ++ [createCompactionOutcomeMessage text reason outcome (ar_now a)]) s in
  let s := match ar_saveError a with None => s | Some _ => set_unpersisted (rs_unpersisted s ++ [ref]) s end in
  let s := set_messages (rs_messages s ++ [ref]) s in
  effect (Forwarded (MessageEnd ref)) (effect (Forwarded (MessageStart ref)) s).

Definition _endCompactionUnsuccessfully (reason : CompactionReason) (outcome : CompactionOutcome) (message : jsstr)
    (aborted : bool) (a : Around) (s : R) : R :=
  let s := _persistCompactionOutcome reason outcome message a s in
  effect (CompactionEnd reason false aborted false (if aborted then None else Some message)) s.

(** A compaction that is under way. *)
Record CompactionRun := MkRun {
  cr_reason : CompactionReason; cr_willRetry : bool; cr_shouldContinue : bool
}.

(** [_runAutoCompaction] up to its first [await]. *)
Definition _runAutoCompaction (reason : CompactionReason) (willRetry : bool) (s : R) : R * CompactionRun :=
  let customInstructions := mjoin (rs_requested s) in
  let shouldContinue := (bool_decide (reason = ByThreshold) || bool_decide (reason = ByRequest)) && rs_continueAfterThreshold s in
  let s := set_continueAfter false (set_requested None s) in
  (effect (CompactionStart reason customInstructions) s, MkRun reason willRetry shouldContinue).

(** How it ends: without credentials ([detail] says why), with a new transcript,
    of which some messages are new objects, or with an error. *)
Inductive CompactionResult :=
  | NoAuth (detail : jsstr)
  | Compacted (fresh : list AgentMessage) (messages : list nat)
  | Thrown (errorMessage : jsstr) (isAbortError isSkipped : bool).

Definition resumeAfterFailure (run : CompactionRun) (a : Around) (s : R) : R :=
  if (bool_decide (cr_reason run = ByRequest) || bool_decide (cr_reason run = ByThreshold)) && (cr_shouldContinue run || ar_queued a)
  then _schedulePostCompactionContinue (cr_shouldContinue run) s else s.

(** [_clearQueuedAutonomousContinuationsAfterSkippedThresholdCompaction] *)
Definition clear_continuations (run : CompactionRun) (s : R) : R :=
  if bool_decide (cr_reason run = ByThreshold) && cr_shouldContinue run then effect QueuedContinuationsCleared s else s.

(** [_runAutoCompaction] after its [await]s. *)
Definition compaction_done (run : CompactionRun) (result : CompactionResult) (a : Around) (s : R) : R * bool :=
  let reason := cr_reason run in
  match result with
  | NoAuth detail =>
      let s := _endCompactionUnsuccessfully reason Failed (js "Compaction failed: " ++ detail) false a s in
      (resumeAfterFailure run a (clear_continuations run s), false)
  | Compacted fresh messages =>
      let s := set_messages messages (set_heap (heap s ++ fresh) s) in
      let s := effect (CompactionEnd reason true false (cr_willRetry run) None) s in
      if cr_willRetry run then
        let s := match last (rs_messages s) ≫= assistant s with
          | Some m => if bool_decide (am_stopReason m = SrError) then set_messages (removelast (rs_messages s)) s else s
          | None => s
          end in
        (effect (AutoRefineScheduled true) (_schedulePostCompactionContinue true s), true)
      else if cr_shouldContinue run || ar_queued a then
        (effect (AutoRefineScheduled true) (_schedulePostCompactionContinue (cr_shouldContinue run) s), false)
      else (effect (AutoRefineScheduled true) s, false)
  | Thrown errorMessage isAbortError isSkipped =>
      let s := clear_continuations run s in
      if bool_decide (errorMessage = js "Compaction cancelled") || isAbortError then
        let s := effect GoalContinuationCleared s in
        (_endCompactionUnsuccessfully reason Cancelled
          ((if bool_decide (reason = ByRequest) then js "Requested c" else js "C") ++ js "ompaction cancelled") true a s, false)
      else if isSkipped then
        let s := _endCompactionUnsuccessfully reason Skipped
          ((if bool_decide (reason = ByRequest) then js "Requested compaction skipped: " else js "Auto-compaction skipped: ")
            ++ errorMessage) false a s in
        (resumeAfterFailure run a s, false)
      else
        let s := _endCompactionUnsuccessfully reason Failed
          (match reason with
           | ByOverflow => js "Context overflow recovery failed: "
           | ByRequest => js "Requested compaction failed: "
           | ByThreshold => js "Auto-compaction failed: "
           end ++ errorMessage) false a s in
        (resumeAfterFailure run a s, false)
  end.

Definition _getThresholdContextTokens (message : AssistantMessage) (compactionTimestamp : option Z) (s : R) : option Z :=
  let messages := transcript s in
  let estimate := estimateContextTokens messages in
  match cu_lastUsageIndex estimate with
  | Some i =>
      match messages !! i, compactionTimestamp with
      | Some (MAssistant usageMsg), Some t => if am_timestamp usageMsg <=? t then None else Some (cu_tokens estimate)
      | _, _ => Some (cu_tokens estimate)
      end
  | None => if bool_decide (am_stopReason message = SrError) then None else Some (calculateContextTokens (usage_of message))
  end.

Definition sameModel (message : AssistantMessage) : bool :=
  match model with
  | Some m => bool_decide (am_provider message = mo_provider m) && bool_decide (am_model message = mo_id m)
  | None => false
  end.

Definition OVERFLOW_FAILED : jsstr := js "Context overflow recovery failed after one compact-and-retry attempt. Try reducing context or switching to a larger-context model.".

(** [_checkCompaction] up to the compaction it starts, if any; [continuation]:
    whether a goal or an autonomous continuation was queued. *)
Definition _checkCompaction (message : AssistantMessage) (compactionTimestamp : option Z) (continuation : bool) (a : Around)
    (skipAbortedCheck queueAutonomousContinuation : bool) (s : R) : R * option CompactionRun :=
  let aborted := bool_decide (am_stopReason message = SrAborted) in
  let s := if aborted then
      let s := set_refine false (rs_planInFlight s) (set_requested None s) in
      if rs_planInFlight s then set_refine false false (effect PlanAborted s) else s
    else s in
  if aborted && skipAbortedCheck then (s, None) else
  let fromBefore := match compactionTimestamp with Some t => am_timestamp message <=? t | None => false end in
  if negb fromBefore && (cs_enabled compaction || bool_decide (is_Some (rs_requested s))) && sameModel message &&
     isContextOverflow message contextWindow then
    match rs_overflow s with
    | Idle =>
        let s := strip_assistant (set_overflow Attempted s) in
        let '(s, run) := _runAutoCompaction ByOverflow true s in (s, Some run)
    | Attempted =>
        (_endCompactionUnsuccessfully ByOverflow Failed OVERFLOW_FAILED false a (set_overflow Reported s), None)
    | Reported => (s, None)
    end
  else if bool_decide (is_Some (rs_requested s)) then
    let '(s, run) := _runAutoCompaction ByRequest false s in (s, Some run)
  else if negb (cs_enabled compaction) || fromBefore then (s, None)
  else match _getThresholdContextTokens message compactionTimestamp s with
  | None => (s, None)
  | Some contextTokens =>
      if shouldCompact contextTokens contextWindow compaction then
        let s := if queueAutonomousContinuation && continuation then set_continueAfter true s else s in
        let '(s, run) := _runAutoCompaction ByThreshold false s in (s, Some run)
      else (s, None)
  end.

(** ** Events of the agent *)

Definition _addLoginGuidanceToAuthError (event : AgentEvent) (s : R) : R :=
  let ref := match event with
    | MessageEnd ref => Some ref
    | AgentEnd messages => _findLastAssistantInMessages messages s
    | _ => None
    end in
  match ref with
  | None => s
  | Some ref =>
      match assistant s ref ≫= error_of with
      | Some e => if isLikelyAuthenticationError e then set_error ref (addLoginGuidanceToAuthError e) s else s
      | None => s
      end
  end.

(** What the session says about an event: the messages that a cancelled action
    captured, when the event is taken up and after the extensions have seen it; the
    message that an extension puts in the place of one that ended; whether the message could be appended to the session; the time of the last
    compaction; whether a continuation was queued; whether refinement is
    serialized or was requested. *)
Record Answers := MkAnswers {
  an_captured : option (list nat);
  an_replacement : option AgentMessage;
  an_capturedLater : option (list nat);
  an_saved : bool;
  an_compactionTimestamp : option Z;
  an_continuation : bool;
  an_serializedRefine : bool;
  an_refineConsumed : bool;
  an_around : Around
}.

(** [_processAgentEvent] of a message that starts or has ended.  Goals, usage and
    the review of turns are other parts. *)
Definition process_message (event : AgentEvent) (ref : nat) (a : Answers) (s : R) : R :=
  match an_captured a with
  | Some captured => forget captured s
  | None =>
      let s := match event, heap s !! ref with
        | MessageStart _, Some m => if startsAgentRun m then effect RunStarted (set_overflow Idle s) else s
        | _, _ => s
        end in
      let s := match event, an_replacement a with
        | MessageEnd _, Some m => set_heap (<[ref := m]> (heap s)) s
        | _, _ => s
        end in
      match an_capturedLater a with
      | Some captured => forget captured s
      | None =>
          let s := effect (Forwarded event) (_addLoginGuidanceToAuthError event s) in
          match event, assistant s ref with
          | MessageEnd _, Some assistantMsg =>
              if an_saved a then
                let ok := negb (bool_decide (am_stopReason assistantMsg = SrError)) in
                let s := set_last (Some ref) (effect (Recorded (am_stopReason assistantMsg)) s) in
                let s := if ok then set_overflow Idle s else s in
                let s := if _isConcreteProviderAuthFailure assistantMsg
                  then _captureRetryAuthFailureSource assistantMsg s else s in
                if ok && (0 <? rs_attempt s) then
                  set_authSources [] (set_attempt 0 (effect (AutoRetryEnd true (rs_attempt s) None) s))
                else s
              else s
          | _, _ => s
          end
      end
  end.

(** What the handling of an [agent_end] awaits. *)
Inductive Waiting :=
  | WaitSleep (ref : nat) (options : FailureOptions)
  | WaitCompaction (ref : nat) (run : CompactionRun).

(** The end of the handler, once the compaction has been decided. *)
Definition finish_agent_end (ref : nat) (compactionWillRetry : bool) (a : Answers) (s : R) : R :=
  if compactionWillRetry && (0 <? rs_attempt s) then s else
  let s := _resolveRetry (_finishActiveRetryWithFailure ref s) in
  if compactionWillRetry then s else
  let s := effect (GoalFinished ref) s in
  if an_serializedRefine a || an_refineConsumed a then s else effect (AutoRefineScheduled false) s.

Definition check_agent_end (ref : nat) (a : Answers) (s : R) : R * option Waiting :=
  match assistant s ref with
  | None => (finish_agent_end ref false a s, None)
  | Some message =>
      match _checkCompaction message (an_compactionTimestamp a) (an_continuation a) (an_around a) true true s with
      | (s, Some run) => (s, Some (WaitCompaction ref run))
      | (s, None) => (finish_agent_end ref false a s, None)
      end
  end.

(** [_processAgentEvent] of an [agent_end]. *)
Definition process_agent_end (messages : list nat) (a : Answers) (s : R) : R * option Waiting :=
  let event := AgentEnd messages in
  let s := match an_captured a with
    | Some removed => _resolveRetry (set_last None (forget removed s))
    | None => s
    end in
  let s := effect (Forwarded event) (_addLoginGuidanceToAuthError event s) in
  if bool_decide (is_Some (an_captured a)) then (s, None) else
  let msg := match rs_lastAssistant s with
    | Some ref => Some ref
    | None => if rs_retrying s then _findLastAssistantInMessages messages s else None
    end in
  let s := set_last None s in
  match msg ≫= λ ref, (ref,.) <$> assistant s ref with
  | None => (_resolveRetry s, None)
  | Some (ref, message) =>
      let retryConcreteAuthFailure :=
        _isConcreteProviderAuthFailure message && negb (_isStructuredPermanentProviderRetryExhausted s message) in
      if _isRetryableError s message || retryConcreteAuthFailure then
        let s := if retryConcreteAuthFailure then _captureRetryAuthFailureSource message s else s in
        let options := MkFailureOptions retryConcreteAuthFailure
          (if retryConcreteAuthFailure then Some (rs_authSources s) else None) in
        let '(s, slept) := _handleRetryableError ref options s in
        if slept then (s, Some (WaitSleep ref options)) else check_agent_end ref a s
      else check_agent_end ref a s
  end.

Definition _processAgentEvent (event : AgentEvent) (a : Answers) (s : R) : R * option Waiting :=
  match event with
  | MessageStart ref | MessageEnd ref => (process_message event ref a s, None)
  | AgentEnd messages => process_agent_end messages a s
  | OtherEvent => (effect (Forwarded OtherEvent) s, None)
  end.

(** ** The session and its agent *)

(** [_agentEventQueue] with what its first event waits for, and whether the agent
    runs. *)
Record Session := MkSession { sn : R; queue : list AgentEvent; waiting : option Waiting; running : bool }.

(** [agent.continue()]: it needs something to continue from; [queued]: a message
    waits in the queues of the agent. *)
Definition can_continue (queued : bool) (s : R) : bool :=
  queued || match last (rs_messages s) with Some ref => negb (bool_decide (is_Some (assistant s ref))) | None => false end.

(** [_handleAgentEvent]. *)
Definition _handleAgentEvent (event : AgentEvent) (n : Session) : Session :=
  let s := match event with AgentEnd messages => _createRetryPromiseForAgentEnd messages (sn n) | _ => sn n end in
  MkSession s (queue n ++ [event]) (waiting n) (running n).

(** What the rest of the session answers a scheduled continuation: whether work is
    paused, compacted or refined, whether inputs wait, whether the queued
    continuation messages are there and its own, whether the agent has queued
    messages, whether the run it started was rejected. *)
Record RunnerAnswers := MkRunnerAnswers {
  ra_paused : bool; ra_otherWork : bool; ra_hasMessages : bool; ra_ownsMessages : bool; ra_queued : bool;
  ra_failed : bool
}.

Definition is_current (id : nat) (s : R) : bool :=
  match rs_settlement s with Some st => bool_decide (st_id st = id) | None => false end.

(** The end of a call: the [finally] of its caller. *)
Definition runner_ends (i id : nat) (s : R) : R :=
  let s := set_runners (take i (rs_runners s) ++ drop (S i) (rs_runners s)) s in
  if is_current id s then _settlePostCompactionContinue false s else s.

Definition runner_at (i id : nat) (pc : RunnerPc) (s : R) : R := set_runners (<[i := (id, pc)]> (rs_runners s)) s.

(** The head of the loop. *)
Definition runner_loop (i id : nat) (s : R) : R :=
  if rs_scheduled s && is_current id s then runner_at i id PcIdle s else runner_ends i id s.

(** One step of [_runScheduledPostCompactionContinue]; [None]: it waits. *)
Definition runner_step (i : nat) (a : RunnerAnswers) (n : Session) : option Session :=
  let s := sn n in
  let to := λ s running, Some (MkSession s (queue n) (waiting n) running) in
  match rs_runners s !! i with
  | None => None
  | Some (id, PcIdle) => if running n then None else to (runner_at i id PcRetry s) false
  | Some (id, PcRetry) => if rs_retrying s then None else to (runner_at i id PcIdleAgain s) (running n)
  | Some (id, PcIdleAgain) => if running n then None else to (runner_at i id PcRest s) false
  | Some (id, PcRest) =>
      if running n then None else
      if negb (rs_scheduled s && is_current id s) then to (runner_ends i id s) false
      else if ra_paused a || bool_decide (is_Some (waiting n)) then to (runner_loop i id s) false
      else if ra_hasMessages a && negb (ra_ownsMessages a) then
        to (runner_ends i id (effect (AutoRefineScheduled false) (_cancelPostCompactionContinue s))) false
      else if ra_otherWork a then to (runner_at i id PcInput s) false
      else
        let s := set_settlement (rs_settlement s) (rs_settlements s) false s in
        if can_continue (ra_queued a) s then to (runner_at i id PcRun (effect Continued s)) true
        else to (runner_ends i id (effect ContinueRefused s)) false
  | Some (id, PcInput) =>
      if negb (is_current id s) then to (runner_ends i id s) (running n)
      else
        let continueAfter := match rs_settlement s with Some st => st_continueAfterSessionInput st | None => false end in
        if (continueAfter && negb (ra_hasMessages a)) || ra_ownsMessages a then to (runner_loop i id s) (running n)
        else to (runner_ends i id (effect (AutoRefineScheduled false)
               (set_settlement (rs_settlement s) (rs_settlements s) false s))) (running n)
  | Some (id, PcRun) =>
      if running n then None else
      to (runner_ends i id (if ra_failed a && is_current id s then _settlePostCompactionContinue true s else s)) false
  end.

(** Steps that the program takes by itself. *)
Inductive step : Session → Session → Prop :=
  (** the agent announces an event; [agent_end] ends the run *)
  | step_event n event : running n = true →
      step n (let n := _handleAgentEvent event n in
              MkSession (sn n) (queue n) (waiting n) (match event with AgentEnd _ => false | _ => true end))
  (** the agent adds a message to its transcript *)
  | step_message n m : running n = true →
      step n (MkSession (set_messages (rs_messages (sn n) ++ [length (heap (sn n))]) (set_heap (heap (sn n) ++ [m]) (sn n)))
                (queue n) (waiting n) true)
  | step_process n event rest a s w : queue n = event :: rest → waiting n = None →
      _processAgentEvent event a (sn n) = (s, w) → step n (MkSession s rest w (running n))
  | step_slept n ref options : waiting n = Some (WaitSleep ref options) → rs_abort (sn n) = Some false →
      step n (MkSession (retry_slept (sn n)) (queue n) None (running n))
  | step_cancelled n ref options a s w : waiting n = Some (WaitSleep ref options) → rs_abort (sn n) = Some true →
      check_agent_end ref a (retry_cancelled ref options (sn n)) = (s, w) → step n (MkSession s (queue n) w (running n))
  | step_compacted n ref run result a s willRetry : waiting n = Some (WaitCompaction ref run) →
      compaction_done run result (an_around a) (sn n) = (s, willRetry) →
      step n (MkSession (finish_agent_end ref willRetry a s) (queue n) None (running n))
  (** the timer of a retry; its errors are swallowed *)
  | step_timer n k queued : rs_timers (sn n) = S k →
      step n (let s := set_timers k (sn n) in
              if running n then MkSession (effect ContinueRefused s) (queue n) (waiting n) true
              else if can_continue queued s then MkSession (effect Continued s) (queue n) (waiting n) true
              else MkSession (effect ContinueRefused s) (queue n) (waiting n) false)
  | step_runner n i a n' : runner_step i a n = Some n' → step n n'.

(** Steps of the user and of tools: a prompt is taken up when the session is not
    busy, retries are aborted, a continuation is cancelled, the model asks for a
    compaction or a refinement. *)
Inductive user_step : Session → Session → Prop :=
  | user_prompt n : running n = false → rs_retrying (sn n) = false → waiting n = None →
      user_step n (MkSession (sn n) (queue n) (waiting n) true)
  | user_abortRetry n : user_step n (MkSession (abortRetry (sn n)) (queue n) (waiting n) (running n))
  | user_cancel n : user_step n (MkSession (_cancelPostCompactionContinue (sn n)) (queue n) (waiting n) (running n))
  | user_request n r : user_step n (MkSession (set_requested (Some r) (sn n)) (queue n) (waiting n) (running n))
  | user_refine n r p : user_step n (MkSession (set_refine r p (sn n)) (queue n) (waiting n) (running n))
  | user_continueAfter n b : user_step n (MkSession (set_continueAfter b (sn n)) (queue n) (waiting n) (running n)).

Definition initial (w : W) : Session :=
  MkSession (MkRecovery [] [] None Idle 0 false None [] w None false false false [] None 0 false [] 0 []) [] None false.

Inductive reachable (w : W) : Session → Prop :=
  | reachable_initial : reachable w (initial w)
  | reachable_step n n' : reachable w n → step n n' → reachable w n'
  | reachable_user n n' : reachable w n → user_step n n' → reachable w n'.
End recovery.
