(* ===== verification/RecoverySpec.v ===== *)
(** * Recovery of failed runs: what holds

    The retries come in bursts that are numbered, delayed and ended properly; an
    overflow is answered by one compaction; a retry promise is pending only while
    something goes on that settles it, but for two cases that the trace shows,
    of which one is a deadlock ([overflow_in_retry_deadlocks]). *)

From S2P Require Import Prelude.
From S2P Require Import JsString.
From S2P Require Import Json.
From S2P Require Import Messages.
From S2P Require Import Overflow.
From S2P Require Import Compaction.
From S2P Require Import Recovery.

Section spec.
Context {W : Type} `{!Registry W}.
Context (retry : RetrySettings) (compaction : CompactionSettings) (model : option Model) (hooked : bool).

Abbreviation R := (Recovery W).

(** ** Reading the trace *)

(** The number of the current retry; [None]: the trace is not a sequence of
    bursts. *)
Definition burst (o : option Z) (e : Effect) : option Z :=
  n ← o;
  match e with
  | AutoRetryStart attempt maxAttempts delayMs _ =>
      if (attempt =? n + 1) && (attempt <=? maxAttempts) && (maxAttempts =? rt_maxRetries retry) &&
         (delayMs =? rt_baseDelayMs retry * 2 ^ n) then Some attempt else None
  | AutoRetryEnd true attempt _ => if (0 <? n) && (attempt =? n) then Some 0 else None
  | AutoRetryEnd false attempt _ => if attempt =? n then Some 0 else None
  | _ => Some n
  end.
Definition bursts (trace : list Effect) : option Z := foldl burst (Some 0) trace.

(** The report that ends the recovery of an overflow. *)
Definition is_report (e : Effect) : bool :=
  match e with CompactionEnd ByOverflow false _ _ (Some m) => bool_decide (m = OVERFLOW_FAILED) | _ => false end.

(** How far the recovery of an overflow is: a run that starts or a response that
    is no error begins anew. *)
Definition recover (o : option OverflowRecovery) (e : Effect) : option OverflowRecovery :=
  r ← o;
  match e with
  | RunStarted => Some Idle
  | Recorded SrError => Some r
  | Recorded _ => Some Idle
  | CompactionStart ByOverflow _ => if bool_decide (r = Idle) then Some Attempted else None
  | _ => if is_report e then if bool_decide (r = Attempted) then Some Reported else None else Some r
  end.
Definition recovery (trace : list Effect) : option OverflowRecovery := foldl recover (Some Idle) trace.

(** Since the last promise was settled, a continuation was refused, or one was
    left to the compaction of an overflow. *)
Definition left_alone (e : Effect) : Prop := e = ContinueRefused ∨ e = CompactionEnd ByOverflow true false true None.
Definition stalled (trace : list Effect) : Prop :=
  ∃ before e after, trace = before ++ e :: after ∧ left_alone e ∧ RetryResolved ∉ after.

(** ** Steps that do not touch a recovery *)

Definition neutral (e : Effect) : bool :=
  match e with
  | Recorded _ | RunStarted | AutoRetryStart _ _ _ _ | AutoRetryEnd _ _ _ | RetryResolved | CompactionStart ByOverflow _ => false
  | _ => negb (is_report e)
  end.

Record quiet (s s' : R) : Prop := {
  qu_attempt : rs_attempt s' = rs_attempt s;
  qu_overflow : rs_overflow s' = rs_overflow s;
  qu_retrying : rs_retrying s' = rs_retrying s;
  qu_abort : rs_abort s' = rs_abort s;
  qu_timers : rs_timers s' = rs_timers s;
  qu_effects : ∃ es, rs_effects s' = rs_effects s ++ es ∧ forallb neutral es = true
}.

#[export] Instance quiet_po : PreOrder quiet.
Proof.
  split.
  - intros s. split; try done. exists []. by rewrite app_nil_r.
  - intros s1 s2 s3 [A1 A2 A3 A4 A5 (e1&E1&N1)] [B1 B2 B3 B4 B5 (e2&E2&N2)]. split; try congruence.
    exists (e1 ++ e2). by rewrite E2, E1, app_assoc, forallb_app, N1, N2.
Qed.

Lemma quiet_effect e s : neutral e = true → quiet s (effect e s).
Proof. intros He. split; try done. exists [e]. cbn. by rewrite He. Qed.

(** An assignment of a field that no recovery reads. *)
Ltac quiet_assign := split; try done; exists []; by rewrite app_nil_r.

Lemma quiet_heap h (s : R) : quiet s (set_heap h s). Proof. quiet_assign. Qed.
Lemma quiet_messages l (s : R) : quiet s (set_messages l s). Proof. quiet_assign. Qed.
Lemma quiet_last m (s : R) : quiet s (set_last m s). Proof. quiet_assign. Qed.
Lemma quiet_authSources l (s : R) : quiet s (set_authSources l s). Proof. quiet_assign. Qed.
Lemma quiet_registry w (s : R) : quiet s (set_registry w s). Proof. quiet_assign. Qed.
Lemma quiet_requested r (s : R) : quiet s (set_requested r s). Proof. quiet_assign. Qed.
Lemma quiet_refine r p (s : R) : quiet s (set_refine r p s). Proof. quiet_assign. Qed.
Lemma quiet_continueAfter b (s : R) : quiet s (set_continueAfter b s). Proof. quiet_assign. Qed.
Lemma quiet_unpersisted l (s : R) : quiet s (set_unpersisted l s). Proof. quiet_assign. Qed.
Lemma quiet_settlement o n b (s : R) : quiet s (set_settlement o n b s). Proof. quiet_assign. Qed.
Lemma quiet_runners l (s : R) : quiet s (set_runners l s). Proof. quiet_assign. Qed.

Create HintDb quiet.
#[local] Hint Resolve quiet_heap quiet_messages quiet_last quiet_authSources quiet_registry quiet_requested quiet_refine
  quiet_continueAfter quiet_unpersisted quiet_settlement quiet_runners : quiet.

(** Peels the last assignment. *)
Ltac quiet_step :=
  match goal with
  | |- quiet ?s ?s => reflexivity
  | |- quiet ?s (if ?b then _ else _) => destruct b eqn:?
  | |- quiet ?s (match ?x with _ => _ end) => destruct x eqn:?
  | |- quiet ?s (effect _ ?t) => transitivity t; [|apply quiet_effect; try done]
  | |- quiet ?s (?f ?x ?t) => transitivity t; [|solve [auto with quiet]]
  | |- quiet ?s (?f ?x ?y ?t) => transitivity t; [|solve [auto with quiet]]
  | |- quiet ?s (?f ?x ?y ?z ?t) => transitivity t; [|solve [auto with quiet]]
  end.
Ltac quiet := repeat quiet_step.

Lemma quiet_set_error ref e (s : R) : quiet s (set_error ref e s). Proof. apply quiet_heap. Qed.
Lemma quiet_strip (s : R) : quiet s (strip_assistant s). Proof. unfold strip_assistant. quiet. Qed.
Lemma quiet_forget l (s : R) : quiet s (forget l s). Proof. apply quiet_messages. Qed.
Lemma quiet_capture m (s : R) : quiet s (_captureRetryAuthFailureSource m s).
Proof. unfold _captureRetryAuthFailureSource. quiet. Qed.
#[local] Hint Resolve quiet_set_error quiet_strip quiet_forget quiet_capture : quiet.

Lemma quiet_markStale m tokens (s : R) : quiet s (_markProviderAuthStale m tokens s).1.
Proof.
  unfold _markProviderAuthStale. destruct tokens as [[|t l]|];
    [destruct (markProviderAuthStale _ _) as [w b]|destruct (mark_sources _ _) as [w b]|destruct (markProviderAuthStale _ _) as [w b]];
    cbn [fst]; quiet.
Qed.

Lemma quiet_markFailure ref options (s : R) : quiet s (_markProviderAuthStaleForRetryFailure ref options s).
Proof.
  unfold _markProviderAuthStaleForRetryFailure. destruct (assistant s ref) as [m|]; [|reflexivity].
  destruct (_ || _); [|reflexivity].
  pose proof (quiet_markStale m (match rs_authSources s with [] => fo_tokens options | l => Some l end) s) as H.
  destruct (_markProviderAuthStale m _ s) as [s' b]. cbn [fst] in H. quiet; exact H.
Qed.
#[local] Hint Resolve quiet_markFailure : quiet.

Lemma quiet_settle b (s : R) : quiet s (_settlePostCompactionContinue b s).
Proof. unfold _settlePostCompactionContinue. quiet. Qed.
#[local] Hint Resolve quiet_settle : quiet.
Lemma quiet_cancel (s : R) : quiet s (_cancelPostCompactionContinue s).
Proof. unfold _cancelPostCompactionContinue. quiet. Qed.
Lemma quiet_schedule b (s : R) : quiet s (_schedulePostCompactionContinue b s).
Proof.
  unfold _schedulePostCompactionContinue. destruct (rs_settlement s) as [st|]; destruct (rs_scheduled s); quiet.
Qed.
#[local] Hint Resolve quiet_cancel quiet_schedule : quiet.
Lemma quiet_resume run a (s : R) : quiet s (resumeAfterFailure run a s).
Proof. unfold resumeAfterFailure. quiet. Qed.
Lemma quiet_clear run (s : R) : quiet s (clear_continuations run s).
Proof. unfold clear_continuations. quiet. Qed.
Lemma quiet_persist reason outcome m a (s : R) : quiet s (_persistCompactionOutcome reason outcome m a s).
Proof. unfold _persistCompactionOutcome. destruct (ar_saveError a); quiet. Qed.
Lemma quiet_guidance ev (s : R) : quiet s (_addLoginGuidanceToAuthError ev s).
Proof. unfold _addLoginGuidanceToAuthError. quiet. Qed.
Lemma quiet_runner_ends i id (s : R) : quiet s (runner_ends i id s).
Proof. unfold runner_ends. quiet. Qed.
#[local] Hint Resolve quiet_resume quiet_clear quiet_persist quiet_guidance quiet_runner_ends : quiet.

Lemma quiet_end reason outcome m aborted a (s : R) : reason ≠ ByOverflow ∨ aborted = true ∨ m ≠ OVERFLOW_FAILED →
  quiet s (_endCompactionUnsuccessfully reason outcome m aborted a s).
Proof.
  intros Hm. unfold _endCompactionUnsuccessfully. cbv zeta. etransitivity; [apply quiet_persist|]. apply quiet_effect.
  unfold neutral, is_report. destruct reason; try done. destruct aborted; [done|].
  destruct Hm as [?|[?|Hm]]; [done..|]. by rewrite bool_decide_false.
Qed.

(** No other text of an unsuccessful compaction is that report. *)
Lemma not_report_overflow e : js "Context overflow recovery failed: " ++ e ≠ OVERFLOW_FAILED.
Proof. intros H. apply (f_equal (lookup 33%nat)) in H. vm_compute in H. done. Qed.
Lemma not_report_noauth e : js "Compaction failed: " ++ e ≠ OVERFLOW_FAILED.
Proof. intros H. apply (f_equal (lookup 3%nat)) in H. vm_compute in H. done. Qed.
Lemma not_report_skipped e : js "Auto-compaction skipped: " ++ e ≠ OVERFLOW_FAILED.
Proof. intros H. apply (f_equal (lookup 0%nat)) in H. vm_compute in H. done. Qed.

Lemma quiet_done run result a (s : R) : quiet s (compaction_done run result a s).1.
Proof.
  unfold compaction_done. destruct run as [reason w c], result as [d|fresh l|e ab sk]; cbn [cr_reason cr_willRetry cr_shouldContinue].
  - cbn [fst]. do 2 quiet_step. apply quiet_end. right; right. apply not_report_noauth.
  - cbv zeta. destruct w; [|destruct (_ || _)]; cbn [fst]; quiet; by destruct reason.
  - cbv zeta. destruct (_ || ab); [|destruct sk]; cbn [fst].
    + etransitivity; [apply quiet_clear|]. etransitivity; [by apply (quiet_effect GoalContinuationCleared)|]. apply quiet_end. by right; left.
    + quiet_step. etransitivity; [apply quiet_clear|]. apply quiet_end. destruct reason; [by left| |by left].
      right; right. rewrite bool_decide_false by done. apply not_report_skipped.
    + quiet_step. etransitivity; [apply quiet_clear|]. apply quiet_end. destruct reason; [by left| |by left].
      right; right. apply not_report_overflow.
Qed.

(** ** The trace tells the state *)

(** The trace ends in the burst of the [n]-th retry, and in the recovery that the
    state says. *)
Record told_at (n : Z) (s : R) : Prop := {
  told_bursts : bursts (rs_effects s) = Some n;
  told_recovery : recovery (rs_effects s) = Some (rs_overflow s);
  told_bound : n = 0 ∨ 0 < n <= rt_maxRetries retry
}.
Definition told (s : R) : Prop := told_at (rs_attempt s) s.

Lemma neutral_fold es n o : forallb neutral es = true →
  foldl burst (Some n) es = Some n ∧ foldl recover (Some o) es = Some o.
Proof.
  induction es as [|e es IH]; cbn [forallb foldl]; [done|]. intros [He Hes]%andb_true_iff.
  assert (burst (Some n) e = Some n) as -> by (destruct e; done).
  assert (recover (Some o) e = Some o) as ->; [|by apply IH].
  unfold recover. cbn. destruct e as [| | | | | | | | |[]|[] [] ? ? [m|]| | | | | | | |]; try done; cbn in He; try (by cbn).
  apply negb_true_iff in He. cbn. by rewrite He.
Qed.

Lemma told_at_quiet n s s' : quiet s s' → told_at n s → told_at n s'.
Proof.
  intros [A1 A2 A3 A4 A5 (es&E&N)] [B1 B2 B3]. destruct (neutral_fold es n (rs_overflow s) N) as [F1 F2].
  split; [| |done].
  - unfold bursts in *. by rewrite E, foldl_app, B1, F1.
  - unfold recovery in *. by rewrite E, foldl_app, B2, F2, A2.
Qed.

Lemma told_quiet s s' : quiet s s' → told s → told s'.
Proof. intros H. unfold told. rewrite (qu_attempt _ _ H). by apply told_at_quiet. Qed.

(** One effect, and the assignments that go with it. *)
Lemma told_effect e n n' (s s' : R) : told_at n s → rs_effects s' = rs_effects s ++ [e] →
  burst (Some n) e = Some n' → recover (Some (rs_overflow s)) e = Some (rs_overflow s') →
  (n' = 0 ∨ 0 < n' <= rt_maxRetries retry) → told_at n' s'.
Proof.
  intros [B1 B2 B3] E H1 H2 H3. split; [| |done].
  - unfold bursts in *. by rewrite E, foldl_app, B1.
  - unfold recovery in *. by rewrite E, foldl_app, B2.
Qed.

Lemma resolve_spec n s : told_at n s → told_at n (_resolveRetry s) ∧ rs_retrying (_resolveRetry s) = false ∧
  rs_attempt (_resolveRetry s) = rs_attempt s ∧ rs_abort (_resolveRetry s) = rs_abort s ∧ rs_timers (_resolveRetry s) = rs_timers s.
Proof.
  intros Hs. assert (told_at n (effect ClearTurnRetry s)) as H1 by (eapply told_at_quiet; [by apply quiet_effect|done]).
  unfold _resolveRetry. cbv zeta. destruct (rs_retrying _) eqn:Er; [|done]. split; [|done].
  eapply (told_effect RetryResolved); [exact H1|done..|]. apply H1.
Qed.

(** The end of a burst, successful or not. *)
Lemma told_end ok n e (s s' : R) : told_at n s → rs_effects s' = rs_effects s ++ [AutoRetryEnd ok n e] →
  rs_attempt s' = 0 → rs_overflow s' = rs_overflow s → (ok = true → 0 < n) → told s'.
Proof.
  intros Hs E H0 Ho Hok. unfold told. rewrite H0. eapply told_effect; [done|exact E| | |by left]; cbn; [|by rewrite Ho].
  rewrite Z.eqb_refl. destruct ok; [|done]. by replace (0 <? n) with true by (symmetry; apply Z.ltb_lt; auto).
Qed.

(** ** What the parts of a recovery do *)

(** Same timers and sleep. *)
Record same_waits (s s' : R) : Prop := { sw_abort : rs_abort s' = rs_abort s; sw_timers : rs_timers s' = rs_timers s }.
#[export] Instance same_waits_po : PreOrder same_waits.
Proof. split; [done|]. intros ??? [??] [??]. split; congruence. Qed.
Lemma quiet_waits s s' : quiet s s' → same_waits s s'.
Proof. by intros [???? ? _]. Qed.

Lemma resolve_told s : told s → told (_resolveRetry s) ∧ rs_retrying (_resolveRetry s) = false ∧ same_waits s (_resolveRetry s).
Proof. intros Hs. destruct (resolve_spec _ s Hs) as (H1&H2&H3&H4&H5). unfold told. by rewrite H3. Qed.

Lemma finish_failure_told ref s : told s → told (_finishActiveRetryWithFailure ref s) ∧
  rs_retrying (_finishActiveRetryWithFailure ref s) = rs_retrying s ∧ same_waits s (_finishActiveRetryWithFailure ref s).
Proof.
  intros Hs. unfold _finishActiveRetryWithFailure. destruct (rs_attempt s =? 0); [done|]. cbv zeta.
  pose proof (quiet_markFailure ref no_options s) as Hq. split; [|split; [apply Hq|by apply quiet_waits in Hq as [??]]].
  eapply (told_end false); [exact (told_quiet _ _ Hq Hs)|done..].
Qed.

Lemma handle_told ref options s s' slept : _handleRetryableError retry hooked ref options s = (s', slept) → told s →
  told s' ∧ rs_timers s' = rs_timers s ∧
  (if slept then rs_abort s' = Some false else rs_retrying s' = false ∧ rs_abort s' = rs_abort s).
Proof.
  intros H Hs. unfold _handleRetryableError in H. destruct (rt_enabled retry); cbn [negb] in H.
  - set (s1 := set_attempt (rs_attempt s + 1) (set_retrying true s)) in H.
    assert (told_at (rs_attempt s) s1) as H1 by (destruct Hs; by split).
    destruct (rt_maxRetries retry <? rs_attempt s1) eqn:E.
    + injection H as <- <-. pose proof (quiet_markFailure ref options s1) as Hq.
      set (s2 := _markProviderAuthStaleForRetryFailure ref options s1) in *.
      set (s3 := set_authSources _ _) .
      assert (told s3) as H3.
      { eapply (told_end false (rs_attempt s)); [exact (told_at_quiet _ _ _ Hq H1)| |done..]. cbn.
        rewrite (qu_attempt _ _ Hq). cbn. do 2 f_equal. f_equal. lia. }
      destruct (resolve_told s3 H3) as (T1&T2&[T3 T4]). split; [done|]. split; [rewrite T4; apply Hq|]. split; [done|]. rewrite T3. apply Hq.
    + injection H as <- <-. apply Z.ltb_ge in E. cbn in E.
      assert (∃ s2, quiet s1 s2 ∧ (if hooked then s1 else effect PrepareTurnRetry s1) = s2) as (s2&Hq&Hs2).
      { eexists; split; [|done]. destruct hooked; [done|]. by apply quiet_effect. }
      rewrite Hs2. set (e := AutoRetryStart _ _ _ _). set (s3 := effect e s2).
      assert (told s3) as H3.
      { unfold told. eapply (told_effect e (rs_attempt s)); [exact (told_at_quiet _ _ _ Hq H1)|done| |done|].
        - unfold e. cbn. rewrite (qu_attempt _ _ Hq). cbn. rewrite !Z.eqb_refl.
          replace (rs_attempt s + 1 - 1) with (rs_attempt s) by lia. rewrite Z.eqb_refl.
          by replace (rs_attempt s + 1 <=? rt_maxRetries retry) with true by (symmetry; apply Z.leb_le; lia).
        - cbn. rewrite (qu_attempt _ _ Hq). cbn. destruct Hs as [_ _ [?|?]]; lia. }
      pose proof (quiet_strip s3) as Hq3. split; [|split; [|done]].
      * apply (told_quiet _ _ Hq3) in H3. destruct H3. by split.
      * cbn. rewrite (qu_timers _ _ Hq3). cbn. apply Hq.
  - injection H as <- <-. pose proof (quiet_markFailure ref options s) as Hq.
    set (s1 := set_authSources [] _). assert (quiet s s1) as Hq1 by (etransitivity; [exact Hq|apply quiet_authSources]).
    destruct (resolve_told s1 (told_quiet _ _ Hq1 Hs)) as (T1&T2&[T3 T4]).
    split; [done|]. split; [rewrite T4; apply Hq1|]. split; [done|]. rewrite T3. apply Hq1.
Qed.

Lemma cancelled_told ref options s : told s → told (retry_cancelled ref options s) ∧
  rs_retrying (retry_cancelled ref options s) = false ∧ rs_abort (retry_cancelled ref options s) = None ∧
  rs_timers (retry_cancelled ref options s) = rs_timers s.
Proof.
  intros Hs. unfold retry_cancelled. cbv zeta. pose proof (quiet_markFailure ref options s) as Hq.
  set (s1 := _markProviderAuthStaleForRetryFailure ref options s) in *. set (s2 := effect _ _).
  assert (told s2) as H2.
  { eapply (told_end false (rs_attempt s)); [|done..]. destruct (told_at_quiet _ _ _ Hq Hs). by split. }
  destruct (resolve_told s2 H2) as (T1&T2&[T3 T4]).
  split; [eapply told_quiet; [apply quiet_authSources|done]|]. split; [done|]. split; [done|]. cbn. rewrite T4. apply Hq.
Qed.

Lemma abortRetry_told s : told s → told (abortRetry s) ∧ rs_timers (abortRetry s) = rs_timers s ∧
  match rs_abort s with
  | Some _ => rs_abort (abortRetry s) = Some true ∧ rs_retrying (abortRetry s) = rs_retrying s ∧ rs_effects (abortRetry s) = rs_effects s
  | None => rs_abort (abortRetry s) = None ∧ rs_retrying (abortRetry s) = false
  end.
Proof.
  intros Hs. unfold abortRetry. destruct (rs_abort s) eqn:Ea; [by destruct Hs|]. cbv zeta.
  set (s1 := if 0 <? rs_attempt s then _ else s).
  assert (told s1 ∧ same_waits s s1) as [H1 [H2 H3]].
  { unfold s1. destruct (0 <? rs_attempt s); [|done].
    assert (quiet s (_cancelPostCompactionContinue (effect CompactionAborted s))) as Hq
      by (etransitivity; [by apply (quiet_effect CompactionAborted)|apply quiet_cancel]).
    split; [|by apply quiet_waits in Hq as [??]]. eapply (told_end false); [exact (told_quiet _ _ Hq Hs)|done..]. }
  destruct (resolve_told (set_authSources [] s1)) as (T1&T2&[T3 T4]); [eapply told_quiet; [apply quiet_authSources|done]|].
  split; [done|]. rewrite T4, T3. cbn. by rewrite H3, H2, Ea.
Qed.

(** A compaction begins; that of an overflow when none was tried. *)
Lemma run_told reason willRetry s s' run : _runAutoCompaction reason willRetry s = (s', run) →
  told_at (rs_attempt s) (set_overflow (if bool_decide (reason = ByOverflow) then Idle else rs_overflow s) s) →
  (reason = ByOverflow → rs_overflow s = Attempted) →
  told s' ∧ same_waits s s' ∧ rs_retrying s' = rs_retrying s ∧ cr_reason run = reason ∧ cr_willRetry run = willRetry.
Proof.
  intros H Hs Ho. unfold _runAutoCompaction in H. injection H as <- <-. split; [|done]. unfold told. cbn [rs_attempt effect set_continueAfter set_requested].
  destruct reason; cbn [bool_decide] in *; (eapply told_effect; [exact Hs|done|done| |apply Hs]).
  - done.
  - cbn. rewrite Ho by done. done.
  - done.
Qed.

(** The compaction of an overflow begins. *)
Lemma overflow_begins s s' run : told s → rs_overflow s = Idle →
  _runAutoCompaction ByOverflow true (strip_assistant (set_overflow Attempted s)) = (s', run) →
  told s' ∧ same_waits s s' ∧ rs_retrying s' = rs_retrying s ∧ cr_reason run = ByOverflow.
Proof.
  intros Hs Eo E. pose proof (quiet_strip (set_overflow Attempted s)) as Hq.
  destruct (run_told _ _ _ _ _ E) as (T1&[T2 T3]&T4&T5&T6).
  - cbn. rewrite (qu_attempt _ _ Hq). destruct Hq as [Q1 _ _ _ _ (es&E2&N)]. cbn in E2.
    destruct (neutral_fold es (rs_attempt s) (rs_overflow s) N) as [F1 F2]. destruct Hs as [B1 B2 B3].
    split; cbn; [| |done]; unfold bursts, recovery in *; rewrite E2, foldl_app; [by rewrite B1|by rewrite B2, F2, Eo].
  - intros _. by rewrite (qu_overflow _ _ Hq).
  - split; [done|]. split; [split; [rewrite T2; apply Hq|rewrite T3; apply Hq]|]. split; [by rewrite T4, (qu_retrying _ _ Hq)|done].
Qed.

(** The recovery from an overflow is given up. *)
Lemma overflow_reported a s : told s → rs_overflow s = Attempted →
  let s' := _endCompactionUnsuccessfully ByOverflow Failed OVERFLOW_FAILED false a (set_overflow Reported s) in
  told s' ∧ same_waits s s' ∧ rs_retrying s' = rs_retrying s.
Proof.
  intros Hs Eo. unfold _endCompactionUnsuccessfully. cbv zeta.
  pose proof (quiet_persist ByOverflow Failed OVERFLOW_FAILED a (set_overflow Reported s)) as Hq.
  set (s2 := _persistCompactionOutcome _ _ _ _ _) in *. clearbody s2.
  split; [|split; [split; apply Hq|change (rs_retrying s2 = rs_retrying s); by rewrite (qu_retrying _ _ Hq)]].
  unfold told. cbn [rs_attempt effect]. rewrite (qu_attempt _ _ Hq). destruct Hq as [Q1 Q2 _ _ _ (es&E2&N)]. cbn in E2.
  destruct (neutral_fold es (rs_attempt s) (rs_overflow s) N) as [F1 F2]. destruct Hs as [B1 B2 B3].
  split; cbn [rs_effects rs_overflow effect]; [| |done]; unfold bursts, recovery in *; rewrite E2, !foldl_app.
  - by rewrite B1, F1.
  - rewrite B2, F2, Eo, Q2. cbn. by rewrite bool_decide_true.
Qed.

Lemma check_told message t continuation a skip q s s' o :
  _checkCompaction compaction model message t continuation a skip q s = (s', o) → told s →
  told s' ∧ same_waits s s' ∧ rs_retrying s' = rs_retrying s ∧ (∀ run, o = Some run → cr_willRetry run = true → cr_reason run = ByOverflow).
Proof.
  intros H Hs. unfold _checkCompaction in H. cbv zeta in H.
  set (s1 := if bool_decide (am_stopReason message = SrAborted) then _ else s) in H.
  assert (quiet s s1) as Hq by (unfold s1; quiet).
  apply (told_quiet _ _ Hq) in Hs. pose proof (quiet_waits _ _ Hq) as Hw. pose proof (qu_retrying _ _ Hq) as Hr. clearbody s1.
  assert (Hdone : ∀ s2, quiet s1 s2 → told s2 ∧ same_waits s s2 ∧ rs_retrying s2 = rs_retrying s).
  { intros s2 Hq2. split; [by eapply told_quiet|]. split; [etransitivity; [done|by apply quiet_waits]|]. by rewrite (qu_retrying _ _ Hq2). }
  assert (Hrun : ∀ reason s2 s3 run, _runAutoCompaction reason false s2 = (s3, run) → quiet s1 s2 → reason ≠ ByOverflow →
    told s3 ∧ same_waits s s3 ∧ rs_retrying s3 = rs_retrying s ∧ (∀ r, Some run = Some r → cr_willRetry r = true → cr_reason r = ByOverflow)).
  { intros reason s2 s3 run E Hq2 Hne. destruct (Hdone s2 Hq2) as (D1&D2&D3).
    destruct (run_told _ _ _ _ _ E) as (T1&T2&T3&_&T5).
    - rewrite bool_decide_false by done. by destruct D1.
    - done.
    - split; [done|]. split; [by etransitivity|]. split; [congruence|]. intros r [= ->]. by rewrite T5. }
  assert (Hnone : ∀ s2, quiet s1 s2 → told s2 ∧ same_waits s s2 ∧ rs_retrying s2 = rs_retrying s ∧
    (∀ r, @None CompactionRun = Some r → cr_willRetry r = true → cr_reason r = ByOverflow)) by naive_solver.
  destruct (_ && skip); [injection H as <- <-; by apply Hnone|].
  destruct (_ && isContextOverflow _ _); [|destruct (bool_decide (is_Some _)); [|destruct (_ || _)]].
  - destruct (rs_overflow s1) eqn:Eo.
    + destruct (_runAutoCompaction _ _ _) as [s2 run] eqn:E. injection H as <- <-.
      destruct (overflow_begins s1 s2 run Hs Eo E) as (T1&T2&T3&T4).
      split; [done|]. split; [by etransitivity|]. split; [congruence|]. by intros r [= <-].
    + injection H as <- <-. destruct (overflow_reported a s1 Hs Eo) as (T1&T2&T3).
      split; [done|]. split; [by etransitivity|]. split; [congruence|done].
    + injection H as <- <-. by apply Hnone.
  - destruct (_runAutoCompaction _ _ _) as [s2 run] eqn:E. injection H as <- <-. by apply (Hrun ByRequest s1).
  - injection H as <- <-. by apply Hnone.
  - destruct (_getThresholdContextTokens _ _ _) as [n|]; [|injection H as <- <-; by apply Hnone].
    destruct (shouldCompact _ _ _); [|injection H as <- <-; by apply Hnone].
    destruct (_runAutoCompaction _ _ _) as [s2 run] eqn:E. injection H as <- <-. apply (Hrun _ _ _ _ E); [|done].
    destruct (_ && _); [apply quiet_continueAfter|done].
Qed.

Lemma finish_told ref willRetry a s : told s → told (finish_agent_end ref willRetry a s) ∧ same_waits s (finish_agent_end ref willRetry a s) ∧
  (rs_retrying (finish_agent_end ref willRetry a s) = false ∨ willRetry = true ∧ finish_agent_end ref willRetry a s = s).
Proof.
  intros Hs. unfold finish_agent_end. destruct (willRetry && (0 <? rs_attempt s)) eqn:E.
  { apply andb_true_iff in E as [-> _]. split; [done|]. split; [done|]. by right. }
  destruct (finish_failure_told ref s Hs) as (A1&A2&A3). destruct (resolve_told _ A1) as (B1&B2&B3). cbv zeta.
  set (s1 := _resolveRetry _) in *. destruct willRetry; [split; [done|]; split; [by etransitivity|by left]|].
  set (s2 := if an_serializedRefine a || an_refineConsumed a then _ else _).
  assert (quiet s1 s2) as Hq by (unfold s2; quiet).
  split; [by eapply told_quiet|]. split; [etransitivity; [done|]; etransitivity; [done|by apply quiet_waits]|]. left. by rewrite (qu_retrying _ _ Hq).
Qed.

(** What the handler of an [agent_end] may wait for. *)
Definition waits_well (w : option Waiting) (s : R) : Prop :=
  match w with
  | None => rs_abort s = None
  | Some (WaitSleep _ _) => is_Some (rs_abort s)
  | Some (WaitCompaction _ run) => rs_abort s = None ∧ (cr_willRetry run = true → cr_reason run = ByOverflow)
  end.

Lemma check_end_told ref a s s' w : check_agent_end compaction model ref a s = (s', w) → told s → rs_abort s = None →
  told s' ∧ rs_timers s' = rs_timers s ∧ waits_well w s' ∧ (w = None → rs_retrying s' = false).
Proof.
  intros H Hs Ha. unfold check_agent_end in H. destruct (assistant s ref) as [m|].
  - destruct (_checkCompaction _ _ _ _ _ _ _ _) as [s1 o] eqn:E. destruct (check_told _ _ _ _ _ _ _ _ _ E Hs) as (T1&[T2 T3]&T4&T5).
    destruct o as [run|]; injection H as <- <-.
    + split; [done|]. split; [done|]. split; [|done]. split; [congruence|]. by apply T5.
    + destruct (finish_told ref false a s1 T1) as (F1&[F2 F3]&[F4|[? _]]); [|done]. split; [done|]. split; [congruence|]. split; [unfold waits_well; congruence|done].
  - injection H as <- <-. destruct (finish_told ref false a s Hs) as (F1&[F2 F3]&[F4|[? _]]); [|done].
    split; [done|]. split; [done|]. split; [unfold waits_well; congruence|done].
Qed.

(** The trace goes on, and no promise is settled. *)
Definition goes_on (s s' : R) : Prop := ∃ es, rs_effects s' = rs_effects s ++ es ∧ RetryResolved ∉ es.
Definition told_still (s s' : R) : Prop := told s' ∧ same_waits s s' ∧ rs_retrying s' = rs_retrying s ∧ goes_on s s'.

Lemma quiet_goes_on s s' : quiet s s' → goes_on s s'.
Proof.
  intros Hq. destruct (qu_effects _ _ Hq) as (es&E&N). exists es. split; [done|]. intros Hin.
  apply forallb_Forall in N. rewrite Forall_forall in N. by apply N in Hin.
Qed.

Lemma goes_on_one e (s s' : R) : rs_effects s' = rs_effects s ++ [e] → e ≠ RetryResolved → goes_on s s'.
Proof. intros E He. exists [e]. split; [done|]. rewrite list_elem_of_singleton. congruence. Qed.

Lemma goes_on_trans s s' s'' : goes_on s s' → goes_on s' s'' → goes_on s s''.
Proof.
  intros (e1&E1&N1) (e2&E2&N2). exists (e1 ++ e2). rewrite E2, E1, app_assoc. split; [done|]. rewrite elem_of_app. tauto.
Qed.

Lemma stalled_goes_on s s' : goes_on s s' → stalled (rs_effects s) → stalled (rs_effects s').
Proof.
  intros (es&E&N) (b&e&a&E1&L&N1). exists b, e, (a ++ es). rewrite E, E1, <-app_assoc. split; [done|]. split; [done|].
  rewrite elem_of_app. tauto.
Qed.

Lemma quiet_still s s' : quiet s s' → told s → told_still s s'.
Proof. intros Hq Hs. split; [by eapply told_quiet|]. split; [by apply quiet_waits|]. split; [apply Hq|by apply quiet_goes_on]. Qed.

Lemma told_still_trans s s' s'' : told_still s s' → told_still s' s'' → told_still s s''.
Proof.
  intros (A1&A2&A3&A4) (B1&B2&B3&B4). split; [done|]. split; [by etransitivity|]. split; [congruence|by eapply goes_on_trans].
Qed.

Lemma recorded_still ref (m : AssistantMessage) s : told s →
  told_still s (let s := set_last (Some ref) (effect (Recorded (am_stopReason m)) s) in
                if negb (bool_decide (am_stopReason m = SrError)) then set_overflow Idle s else s).
Proof.
  intros Hs. cbv zeta.
  split; [|split; [by destruct (negb _)|split; [by destruct (negb _)|eapply goes_on_one; [by destruct (negb _)|done]]]]. unfold told.
  eapply (told_effect (Recorded (am_stopReason m)) (rs_attempt s)); [exact Hs|by destruct (negb _)|by destruct (negb _)| |].
  - by destruct (am_stopReason m).
  - replace (rs_attempt _) with (rs_attempt s) by (by destruct (negb _)). apply Hs.
Qed.

Lemma process_message_still event ref a s : told s → told_still s (process_message event ref a s).
Proof.
  intros Hs. unfold process_message. destruct (an_captured a) as [l|]; [apply quiet_still; [apply quiet_forget|done]|].
  cbv zeta. set (s1 := match event with MessageStart _ => _ | _ => s end).
  assert (told_still s s1) as H1.
  { unfold s1. destruct event as [i|i|l|]; try (by apply quiet_still). destruct (heap s !! ref) as [m|]; [|by apply quiet_still].
    destruct (startsAgentRun m); [|by apply quiet_still].
    split; [|split; [done|split; [done|by eapply goes_on_one]]]. unfold told.
    eapply (told_effect RunStarted); [exact Hs|done..|]. apply Hs. }
  eapply told_still_trans; [exact H1|]. destruct H1 as [H1 _]. clearbody s1.
  set (s0 := match event with MessageEnd _ => _ | _ => s1 end).
  assert (quiet s1 s0) as Hq0 by (unfold s0; quiet). eapply told_still_trans; [by apply (quiet_still _ _ Hq0)|].
  apply (told_quiet _ _ Hq0) in H1. clearbody s0. clear Hq0 s1. rename s0 into s1.
  destruct (an_capturedLater a) as [l|]; [apply quiet_still; [apply quiet_forget|done]|].
  set (s2 := effect (Forwarded event) _).
  assert (quiet s1 s2) as Hq by (unfold s2; etransitivity; [apply quiet_guidance|by apply quiet_effect]).
  eapply told_still_trans; [by apply (quiet_still _ _ Hq)|]. apply (told_quiet _ _ Hq) in H1. clearbody s2. clear Hq.
  destruct event as [i|i|l|]; try (by apply quiet_still).
  destruct (assistant s2 ref) as [m|]; [|by apply quiet_still]. destruct (an_saved a); [|by apply quiet_still].
  pose proof (recorded_still ref m s2 H1) as H3. cbv zeta in H3. eapply told_still_trans; [exact H3|]. destruct H3 as [H3 _].
  set (s3 := if negb _ then set_overflow Idle _ else _) in *. clearbody s3.
  set (s4 := if _isConcreteProviderAuthFailure m then _ else s3).
  assert (quiet s3 s4) as Hq by (unfold s4; quiet). eapply told_still_trans; [by apply (quiet_still _ _ Hq)|].
  apply (told_quiet _ _ Hq) in H3. clearbody s4. destruct (negb _ && _) eqn:E; [|by apply quiet_still].
  apply andb_true_iff in E as [_ E%Z.ltb_lt].
  split; [by eapply (told_end true)|]. split; [done|]. split; [done|by eapply goes_on_one].
Qed.

Lemma process_end_told messages a s s' w : process_agent_end retry compaction model hooked messages a s = (s', w) → told s → rs_abort s = None →
  told s' ∧ rs_timers s' = rs_timers s ∧ waits_well w s' ∧ (w = None → rs_retrying s' = false).
Proof.
  intros H Hs Ha. unfold process_agent_end in H. cbv zeta in H.
  set (s1 := match an_captured a with Some removed => _ | None => s end) in H.
  assert (told s1 ∧ same_waits s s1 ∧ (is_Some (an_captured a) → rs_retrying s1 = false)) as (H1&H2&H3).
  { unfold s1. destruct (an_captured a) as [l|]; [|by split; [|split; [|intros []]]].
    destruct (resolve_told (set_last None (forget l s))) as (T1&T2&T3).
    - eapply told_quiet; [|exact Hs]. etransitivity; [apply quiet_forget|apply quiet_last].
    - split; [done|]. split; [by destruct T3|done]. }
  clearbody s1. set (s2 := effect (Forwarded (AgentEnd messages)) _) in H.
  assert (quiet s1 s2) as Hq by (unfold s2; etransitivity; [apply quiet_guidance|by apply quiet_effect]).
  apply (told_quiet _ _ Hq) in H1. assert (rs_abort s2 = None) as Ha2 by (rewrite (qu_abort _ _ Hq), (sw_abort _ _ H2); done).
  assert (rs_timers s2 = rs_timers s) as Ht2 by (rewrite (qu_timers _ _ Hq), (sw_timers _ _ H2); done).
  assert (is_Some (an_captured a) → rs_retrying s2 = false) as Hr2 by (rewrite (qu_retrying _ _ Hq); done).
  clearbody s2. clear Hq H2 H3 s1. destruct (bool_decide (is_Some (an_captured a))) eqn:Ec.
  { apply bool_decide_eq_true in Ec. injection H as <- <-. by split; [|split; [|split; [|intros _; apply Hr2]]]. }
  set (found := _ ≫= _) in H. pose proof (quiet_last None s2) as Hq. set (s3 := set_last None s2) in *.
  apply (told_quiet _ _ Hq) in H1. assert (rs_abort s3 = None ∧ rs_timers s3 = rs_timers s) as [Ha3 Ht3] by done.
  clearbody s3 found. destruct found as [[ref m]|].
  2: { injection H as <- <-. destruct (resolve_told s3 H1) as (T1&T2&[T3 T4]).
       split; [done|]. split; [congruence|]. split; [unfold waits_well; congruence|done]. }
  destruct (_ || _) eqn:Er.
  - set (s4 := if _ && _ then _captureRetryAuthFailureSource m s3 else s3) in H.
    assert (quiet s3 s4) as Hq4 by (unfold s4; quiet). apply (told_quiet _ _ Hq4) in H1.
    destruct (_handleRetryableError _ _ _ _ _) as [s5 slept] eqn:E.
    destruct (handle_told _ _ _ _ _ E H1) as (T1&T2&T3). rewrite (qu_timers _ _ Hq4) in T2. destruct slept.
    + injection H as <- <-. split; [done|]. split; [congruence|]. split; [|done]. unfold waits_well. rewrite T3. by eexists.
    + destruct T3 as [T3 T4]. rewrite (qu_abort _ _ Hq4) in T4.
      assert (rs_abort s5 = None) as Ha5 by (transitivity (rs_abort s3); done).
      destruct (check_end_told _ _ _ _ _ H T1 Ha5) as (C1&C2&C3&C4). split; [done|]. by split; [congruence|].
  - destruct (check_end_told _ _ _ _ _ H H1 Ha3) as (C1&C2&C3&C4). split; [done|]. by split; [congruence|].
Qed.

(** A compaction that promises a retry leaves it to the continuation. *)
Lemma done_left_alone run result a (s s' : R) : compaction_done run result a s = (s', true) → cr_reason run = ByOverflow →
  stalled (rs_effects s').
Proof.
  intros H Hr. unfold compaction_done in H. destruct run as [reason w c]. cbn in Hr. subst reason. cbv zeta in H.
  destruct result as [d|fresh l|e ab sk]; cbn [cr_reason cr_willRetry cr_shouldContinue] in H; [done| |by destruct (_ || ab); [|destruct sk]].
  destruct w; [|by destruct (_ || _)]. injection H as <-.
  set (e := CompactionEnd ByOverflow true false true None). set (s1 := set_messages l _).
  set (s2 := match last _ ≫= _ with Some _ => _ | None => _ end).
  assert (quiet (effect e s1) s2) as Hq1 by (unfold s2; quiet).
  pose proof (quiet_schedule true s2) as Hq2. assert (quiet (effect e s1) (effect (AutoRefineScheduled true) (_schedulePostCompactionContinue true s2))) as Hq.
  { etransitivity; [exact Hq1|]. etransitivity; [exact Hq2|]. by apply quiet_effect. }
  destruct (qu_effects _ _ Hq) as (es&E&N). exists (rs_effects s1), e, es. split; [by rewrite E; cbn; rewrite <-app_assoc|].
  split; [by right|]. intros Hin. apply forallb_Forall in N. rewrite Forall_forall in N. by apply N in Hin.
Qed.

(** ** Every step *)

Abbreviation S_ := (Session (W:=W)).

(** Something that the session does by itself is under way. *)
Definition active (n : S_) : Prop :=
  running n = true ∨ waiting n ≠ None ∨ (0 < rs_timers (sn n))%nat ∨ ∃ messages, AgentEnd messages ∈ queue n.

Record Inv (n : S_) : Prop := {
  inv_told : told (sn n);
  inv_waits : waits_well (waiting n) (sn n);
  inv_retrying : rs_retrying (sn n) = true → active n ∨ stalled (rs_effects (sn n))
}.

Lemma waits_well_same w s s' : rs_abort s' = rs_abort s → waits_well w s → waits_well w s'.
Proof. unfold waits_well. by intros ->. Qed.

(** A step that neither ends what is under way nor settles a promise. *)
Lemma Inv_still n (s : R) q r : Inv n → told_still (sn n) s →
  (running n = true → r = true) → (∀ l, AgentEnd l ∈ queue n → AgentEnd l ∈ q) → Inv (MkSession s q (waiting n) r).
Proof.
  intros [I1 I2 I3] (T1&[T2 T3]&T4&T5) Hr Hq. split; cbn; [done|by eapply waits_well_same|]. rewrite T4. intros [H|H]%I3.
  - left. destruct H as [H|[H|[H|[l H]]]]; [left; by apply Hr|by right; left|do 2 right; left; by rewrite <-T3 in H|do 3 right; eauto].
  - right. by eapply stalled_goes_on.
Qed.

Lemma Inv_quiet n (s : R) r : Inv n → quiet (sn n) s → (running n = true → r = true) → Inv (MkSession s (queue n) (waiting n) r).
Proof. intros HI Hq Hr. apply Inv_still; [done|apply quiet_still; [done|apply HI]|done|done]. Qed.

Lemma Inv_event n event : running n = true → Inv n →
  Inv (let n := _handleAgentEvent retry model event n in
       MkSession (sn n) (queue n) (waiting n) (match event with AgentEnd _ => false | _ => true end)).
Proof.
  intros Hr HI. pose proof HI as [I1 I2 I3]. cbn [_handleAgentEvent sn queue waiting].
  destruct event as [i|i|l|]; try (apply Inv_still; [done|by apply quiet_still|done|intros; apply elem_of_app; by left]).
  assert (∃ s1 b, _createRetryPromiseForAgentEnd retry model l (sn n) = set_retrying b s1 ∧ quiet (sn n) s1) as (s1&b&->&Hq).
  { unfold _createRetryPromiseForAgentEnd. assert (∃ s1 b, sn n = set_retrying b s1 ∧ quiet (sn n) s1) as H0.
    { exists (sn n), (rs_retrying (sn n)). by destruct (sn n). }
    destruct (_ || _); [done|]. destruct (_ ≫= _) as [m|]; [|done]. cbv zeta. destruct (_ && _); [done|].
    eexists _, true. split; [done|]. destruct (_isConcreteProviderAuthFailure m); [apply quiet_capture|done]. }
  apply (told_quiet _ _ Hq) in I1. split; cbn; [by destruct I1|eapply waits_well_same; [|done]; apply Hq|].
  intros _. left. do 3 right. exists l. apply elem_of_app. right. by left.
Qed.

Lemma Inv_process n event rest a s w : queue n = event :: rest → waiting n = None → Inv n →
  _processAgentEvent retry compaction model hooked event a (sn n) = (s, w) → Inv (MkSession s rest w (running n)).
Proof.
  intros Hq Hw HI H. pose proof HI as [I1 I2 I3]. rewrite Hw in I2.
  assert (Hstill : (∀ l, event ≠ AgentEnd l) → told_still (sn n) s → w = None → Inv (MkSession s rest w (running n))).
  { intros He Hs ->. rewrite <-Hw. apply Inv_still; [done..|]. intros l. rewrite Hq. intros [E|?]%elem_of_cons; [by destruct (He l)|done]. }
  unfold _processAgentEvent in H. destruct event as [i|i|l|].
  - injection H as <- <-. apply Hstill; [done|by apply process_message_still|done].
  - injection H as <- <-. apply Hstill; [done|by apply process_message_still|done].
  - destruct (process_end_told _ _ _ _ _ H I1 I2) as (T1&T2&T3&T4). split; cbn; [done|done|]. destruct w as [w|].
    + intros _. left. by right; left.
    + by rewrite T4.
  - injection H as <- <-. apply Hstill; [done|by apply quiet_still; [apply quiet_effect|]|done].
Qed.

Lemma runner_quiet i a (n n' : S_) : runner_step i a n = Some n' →
  quiet (sn n) (sn n') ∧ queue n' = queue n ∧ waiting n' = waiting n ∧ (running n = true → running n' = true).
Proof.
  unfold runner_step. destruct (rs_runners (sn n) !! i) as [[id pc]|]; [|done]. cbv zeta.
  destruct pc; repeat match goal with |- context [if ?b then _ else _] => destruct b eqn:? end;
    intros [= <-]; cbn [sn queue waiting running]; (split; [|done]); unfold runner_loop, runner_at; quiet.
Qed.

Lemma Inv_step n n' : step retry compaction model hooked n n' → Inv n → Inv n'.
Proof.
  intros H HI. pose proof HI as [I1 I2 I3]. destruct H as [n event Hr|n m Hr|n event rest a s w Hq Hw H|n ref o Hw Ha|n ref o a s w Hw Ha H|n ref run result a s b Hw H|n k queued Ht|n i a n' H].
  - by apply Inv_event.
  - apply Inv_quiet; [done| |done]. etransitivity; [apply quiet_heap|apply quiet_messages].
  - by eapply Inv_process.
  - destruct I1. split; cbn; [by split|done|]. intros _. left. right; right; left. cbn. lia.
  - destruct (cancelled_told ref o _ I1) as (C1&C2&C3&C4). destruct (check_end_told _ _ _ _ _ H C1 C3) as (T1&T2&T3&T4).
    split; cbn; [done|done|]. destruct w; [intros _; left; by right; left|by rewrite T4].
  - pose proof (quiet_done run result (an_around a) (sn n)) as Hq. rewrite H in Hq. cbn [fst] in Hq.
    rewrite Hw in I2. destruct I2 as [I2 I4]. apply (told_quiet _ _ Hq) in I1.
    destruct (finish_told ref b a s I1) as (F1&[F2 F3]&F4). split; cbn; [done|rewrite F2; unfold waits_well; by rewrite (qu_abort _ _ Hq)|].
    intros Hp. destruct F4 as [F4|[-> ->]]; [congruence|]. right. eapply done_left_alone; [exact H|]. apply I4.
    clear -H. unfold compaction_done in H. destruct run as [r w c], result as [d|f l|e x y]; cbv zeta in H; cbn in *.
    + done.
    + destruct w; [done|]. by destruct (_ || _).
    + by destruct (_ || x); [|destruct y].
  - cbv zeta. assert (Hq : ∀ e, neutral e = true → told (effect e (set_timers k (sn n)))).
    { intros e He. eapply told_quiet; [by apply quiet_effect|]. destruct I1. by split. }
    destruct (running n) eqn:Er; [|destruct (can_continue queued _)].
    + split; cbn; [by apply Hq|done|]. intros _. left. by left.
    + split; cbn; [by apply Hq|done|]. intros _. left. by left.
    + split; cbn; [by apply Hq|done|]. intros _. right. exists (rs_effects (sn n)), ContinueRefused, []. split; [done|].
      split; [by left|]. apply not_elem_of_nil.
  - destruct (runner_quiet _ _ _ _ H) as (H1&H2&H3&H4). destruct n' as [s q w r]. cbn in *. subst q w. by apply Inv_quiet.
Qed.

Lemma Inv_user n n' : user_step n n' → Inv n → Inv n'.
Proof.
  intros H HI. pose proof HI as [I1 I2 I3].
  destruct H as [n Hr Ha Hw|n|n|n r|n r p|n b].
  - by apply Inv_quiet.
  - destruct (abortRetry_told (sn n) I1) as (A1&A2&A3). split; cbn [sn waiting]; [done| |].
    + unfold waits_well in *. destruct (rs_abort (sn n)) eqn:Ea; destruct A3 as (A3&A4); rewrite A3;
        destruct (waiting n) as [[]|]; try done; try (by destruct I2).
    + destruct (rs_abort (sn n)) eqn:Ea; [|by destruct A3 as (_&->)]. destruct A3 as (A3&A4&A5). rewrite A4. intros [H|H]%I3.
      * left. unfold active in *. cbn [sn waiting running queue]. by rewrite A2.
      * right. by rewrite A5.
  - apply Inv_quiet; [done|apply quiet_cancel|done].
  - apply Inv_quiet; [done|apply quiet_requested|done].
  - apply Inv_quiet; [done|apply quiet_refine|done].
  - apply Inv_quiet; [done|apply quiet_continueAfter|done].
Qed.

Lemma Inv_reachable w n : reachable retry compaction model hooked w n → Inv n.
Proof.
  induction 1 as [|n n' _ IH H|n n' _ IH H]; [|by eapply Inv_step|by eapply Inv_user].
  split; cbn; [|done|done]. split; cbn; [done|done|by left].
Qed.

(** What is under way goes on. *)
Lemma active_steps n : Inv n → active n → ∃ n', step retry compaction model hooked n n'.
Proof.
  intros [_ I2 _] H. destruct (running n) eqn:Er; [by eexists; apply (step_event _ _ _ _ n OtherEvent)|].
  pose (a := MkAnswers None None None true None false false false (MkAround None 0 false)).
  destruct (waiting n) as [[ref o|ref run]|] eqn:Ew.
  - destruct I2 as [[] Hb].
    + destruct (check_agent_end compaction model ref a (retry_cancelled ref o (sn n))) as [s w] eqn:E. eexists. by eapply step_cancelled.
    + eexists. by eapply step_slept.
  - destruct (compaction_done run (NoAuth []) (an_around a) (sn n)) as [s b] eqn:E. eexists. by eapply step_compacted.
  - destruct H as [?|[?|[H|[l H]]]]; [congruence|done| |].
    + destruct (rs_timers (sn n)) as [|k] eqn:Et; [lia|]. eexists. by apply (step_timer _ _ _ _ n k false).
    + destruct (queue n) as [|ev rest] eqn:Eq; [by apply elem_of_nil in H|].
      destruct (_processAgentEvent retry compaction model hooked ev a (sn n)) as [s w] eqn:E. eexists. by eapply step_process.
Qed.

(** ** Reading the bursts and the recoveries *)

Definition start_ok (e : Effect) : Prop :=
  match e with
  | AutoRetryStart attempt _ delayMs _ =>
      1 <= attempt <= rt_maxRetries retry ∧ delayMs = rt_baseDelayMs retry * 2 ^ (attempt - 1)
  | _ => True
  end.

Lemma burst_None tr : foldl burst None tr = None.
Proof. by induction tr. Qed.

Lemma burst_starts tr n n' : 0 <= n → foldl burst (Some n) tr = Some n' → Forall start_ok tr.
Proof.
  revert n. induction tr as [|e tr IH]; intros n Hn H; [constructor|]. cbn [foldl] in H.
  destruct (burst (Some n) e) as [n1|] eqn:E; [|by rewrite burst_None in H].
  assert (0 <= n1 ∧ start_ok e) as [H1 He]; [|constructor; [done|by eapply IH]].
  destruct e as [| | | |a m d t|ok a t| | | | | | | | | | | | |]; try (by injection E as <-).
  - cbn in E. destruct (_ && _ && _ && _) eqn:Eb; [|done]. injection E as <-. unfold start_ok.
    rewrite !andb_true_iff, !Z.eqb_eq, Z.leb_le in Eb. destruct Eb as [[[-> Hm] ->] ->]. replace (n + 1 - 1) with n by lia. lia.
  - cbn in E. destruct ok; [destruct (_ && _)|destruct (_ =? _)]; first [done|by injection E as <-].
Qed.

Definition begins (e : Effect) : bool :=
  match e with RunStarted => true | Recorded SrError => false | Recorded _ => true | _ => false end.

Lemma recover_None tr : foldl recover None tr = None.
Proof. by induction tr. Qed.

Lemma recover_stays r e r' : r ≠ Idle → begins e = false → recover (Some r) e = Some r' → r' ≠ Idle.
Proof.
  intros Hr He H. unfold recover in H. cbn in H. destruct e as [|[]| | | | | | | |[]|[] [] ? ? [m|]| | | | | | | |]; try done; try (by injection H as <-).
  - destruct (bool_decide _); [|done]. by injection H as <-.
  - destruct (is_report (CompactionEnd _ _ _ _ _)); [destruct (bool_decide (r = _)); [|done]|]; by injection H as <-.
Qed.

Lemma recover_started r mid r' : r ≠ Idle → foldl recover (Some r) mid = Some r' → Forall (λ e, begins e = false) mid → r' ≠ Idle.
Proof.
  revert r. induction mid as [|e mid IH]; intros r Hr H Hm; [by injection H as <-|]. cbn [foldl] in H. apply Forall_cons in Hm as [He Hm].
  destruct (recover (Some r) e) as [r1|] eqn:E; [|by rewrite recover_None in H]. eapply IH; [by eapply recover_stays|done|done].
Qed.

Lemma recover_start r i : recover (Some r) (CompactionStart ByOverflow i) = if bool_decide (r = Idle) then Some Attempted else None.
Proof. done. Qed.

Lemma recover_report r e : is_report e = true → recover (Some r) e = if bool_decide (r = Attempted) then Some Reported else None.
Proof. intros He. destruct e as [| | | | | | | | | |[] [] ? ? [m|]| | | | | | | |]; try done. unfold recover. cbn in *. by rewrite He. Qed.

(** A recovery that was attempted began with a compaction. *)
Lemma attempted_from tr : recovery tr = Some Attempted →
  ∃ before i after, tr = before ++ CompactionStart ByOverflow i :: after ∧ Forall (λ e, begins e = false ∧ is_report e = false) after.
Proof.
  induction tr as [|e tr IH] using rev_ind; intros H; [done|]. unfold recovery in H. rewrite foldl_app in H. cbn [foldl] in H.
  fold (recovery tr) in H. destruct (recovery tr) as [r|] eqn:Er; [|done].
  assert (Hrest : begins e = false → is_report e = false → r = Attempted →
    ∃ before i after, tr ++ [e] = before ++ CompactionStart ByOverflow i :: after ∧ Forall (λ e, begins e = false ∧ is_report e = false) after).
  { intros Hb Hp ->. destruct (IH eq_refl) as (b&i&a&->&Ha). exists b, i, (a ++ [e]). rewrite <-app_assoc. split; [done|].
    apply Forall_app. split; [done|]. by repeat constructor. }
  destruct (is_report e) eqn:Ep; [rewrite recover_report in H by done; by destruct (bool_decide _)|].
  unfold recover in H. cbn in H. destruct e as [|[]| | | | | | | |[]|[] [] ? ? [m|]| | | | | | | |]; try done;
    try (rewrite Ep in H); try (by injection H as ->; apply Hrest).
  by exists tr, customInstructions, [].
Qed.

(** ** Theorems *)

(** C11: [bounds] Whatever the agent answers, whoever aborts and however the steps
    interleave, the retries come in bursts.  The retries of a burst are numbered
    1, 2, ... up to at most the configured number, the [n]-th waits for the base
    delay times 2^(n-1), and the burst ends by one report, which names its last
    retry, before another begins; the counter of the session is the number of the
    current retry. *)
Theorem retry_bursts w n : reachable retry compaction model hooked w n →
  bursts (rs_effects (sn n)) = Some (rs_attempt (sn n)) ∧
  (rs_attempt (sn n) = 0 ∨ 0 < rs_attempt (sn n) <= rt_maxRetries retry) ∧
  Forall start_ok (rs_effects (sn n)).
Proof.
  intros [[H1 H2 H3] _ _]%Inv_reachable. split; [done|]. split; [done|]. by eapply (burst_starts _ 0).
Qed.

(** C12: [safety] An overflow of the context is answered by one compaction: a
    second one comes only after a new run has started or a response arrived that
    is no error.  The report that the recovery failed comes only after such a
    compaction, and once. *)
Theorem overflow_once w n : reachable retry compaction model hooked w n →
  (∀ before i between j after,
    rs_effects (sn n) = before ++ CompactionStart ByOverflow i :: between ++ CompactionStart ByOverflow j :: after →
    ∃ e, e ∈ between ∧ begins e = true) ∧
  (∀ before e after, rs_effects (sn n) = before ++ e :: after → is_report e = true →
    ∃ b i a, before = b ++ CompactionStart ByOverflow i :: a ∧ Forall (λ e, begins e = false ∧ is_report e = false) a).
Proof.
  intros [[_ H _] _ _]%Inv_reachable. unfold recovery in H. split.
  - intros before i mid j after E. rewrite E in H. rewrite foldl_app in H. cbn [foldl] in H. rewrite foldl_app in H. cbn [foldl] in H.
    destruct (foldl recover (Some Idle) before) as [r|]; [|by rewrite recover_None, recover_None in H].
    rewrite recover_start in H. destruct (bool_decide _); [|by rewrite recover_None, recover_None in H].
    destruct (foldl recover (Some Attempted) mid) as [r1|] eqn:Em; [|by rewrite recover_None in H].
    destruct (decide (Forall (λ e, begins e = false) mid)) as [Hf|Hf].
    + assert (r1 ≠ Idle) by by eapply (recover_started Attempted). rewrite recover_start, bool_decide_false in H by done. by rewrite recover_None in H.
    + apply not_Forall_Exists, Exists_exists in Hf; [|apply _]. destruct Hf as (e&?&?%not_false_is_true). by exists e.
  - intros before e after E He. rewrite E in H. rewrite foldl_app in H. cbn [foldl] in H. fold (recovery before) in H.
    destruct (recovery before) as [r|] eqn:Er; [|by rewrite recover_None in H].
    rewrite (recover_report r e He) in H. case_bool_decide as Hr; [|by rewrite recover_None in H]. subst r. by apply attempted_from.
Qed.

(** C13: [liveness] A retry promise does not hang by itself: while it is pending, a
    run goes on, its end is being handled, or the timer of the retry is set, and
    the session has a step of its own to take - unless since the last settled
    promise [agent.continue()] was refused or the compaction of an overflow left
    the retry to its continuation. *)
Theorem retry_goes_on w n : reachable retry compaction model hooked w n → rs_retrying (sn n) = true →
  (active n ∧ ∃ n', step retry compaction model hooked n n') ∨ stalled (rs_effects (sn n)).
Proof.
  intros HI%Inv_reachable Hr. destruct (inv_retrying _ HI Hr) as [H|H]; [left|by right]. split; [done|by apply active_steps].
Qed.

Definition left_aloneb (e : Effect) : bool :=
  match e with ContinueRefused | CompactionEnd ByOverflow true _ true _ => true | _ => false end.

Lemma not_stalled tr : forallb (λ e, negb (left_aloneb e)) tr = true → ¬ stalled tr.
Proof.
  intros H (b&e&a&->&He&_). rewrite forallb_app in H. cbn in H. apply andb_true_iff in H as [_ [H _]%andb_true_iff].
  destruct He as [-> | ->]; done.
Qed.

(** Nothing happens any more while continuations wait for the promise. *)
Lemma stuck n : running n = false → queue n = [] → waiting n = None → rs_timers (sn n) = 0%nat → rs_retrying (sn n) = true →
  Forall (λ r, r.2 = PcRetry) (rs_runners (sn n)) → ∀ n', ¬ step retry compaction model hooked n n'.
Proof.
  intros Hr Hq Hw Ht Hp Hf n' H. destruct H as [n event ?|n m ?|n event rest a s w ?|n ref o ?|n ref o a s w ?|n ref run result a s b ?|n k queued ?|n i a n' H]; try congruence.
  unfold runner_step in H. destruct (rs_runners (sn n) !! i) as [[id pc]|] eqn:E; [|done].
  apply (Forall_lookup_1 _ _ _ _ Hf) in E. cbn in E. subst pc. by rewrite Hp in H.
Qed.
End spec.

(** ** A run of the session *)

Section sample.

#[local] Instance no_registry : Registry unit :=
  {| getCurrentProviderAuthSourceToken _ _ := None;
     markProviderAuthSourceStale _ w := (w, false);
     markProviderAuthStale _ w := (w, false) |}.

Definition sample_retry : RetrySettings := MkRetrySettings true 3 2000.
Definition sample_model : option Model := Some (MkModel (js "p") (js "m") 200000).
Definition sample_answers : Answers := MkAnswers None None None true None false false false (MkAround None 7 false).

#[local] Abbreviation reached := (reachable sample_retry DEFAULT_COMPACTION_SETTINGS sample_model false tt).

(** The steps, as functions. *)
Definition announces (event : AgentEvent) (n : Session) : Session :=
  let n := _handleAgentEvent sample_retry sample_model event n in
  MkSession (sn n) (queue n) (waiting n) (match event with AgentEnd _ => false | _ => true end).
Definition says (m : AgentMessage) (n : Session (W:=unit)) : Session :=
  MkSession (set_messages (rs_messages (sn n) ++ [length (heap (sn n))]) (set_heap (heap (sn n) ++ [m]) (sn n))) (queue n) (waiting n) true.
Definition processed (n : Session) : Session :=
  let '(s, w) := _processAgentEvent sample_retry DEFAULT_COMPACTION_SETTINGS sample_model false
    (default OtherEvent (head (queue n))) sample_answers (sn n) in
  MkSession s (tail (queue n)) w (running n).
Definition slept (n : Session (W:=unit)) : Session := MkSession (retry_slept (sn n)) (queue n) None (running n).
Definition fired (n : Session (W:=unit)) : Session :=
  let s := set_timers 0 (sn n) in
  if running n then MkSession (effect ContinueRefused s) (queue n) (waiting n) true
  else if can_continue false s then MkSession (effect Continued s) (queue n) (waiting n) true
  else MkSession (effect ContinueRefused s) (queue n) (waiting n) false.
Definition compacts (result : CompactionResult) (n : Session) : Session :=
  match waiting n with
  | Some (WaitCompaction ref run) =>
      let '(s, willRetry) := compaction_done run result (an_around sample_answers) (sn n) in
      MkSession (finish_agent_end ref willRetry sample_answers s) (queue n) None (running n)
  | _ => n
  end.
Definition ran (n : Session (W:=unit)) : Session := default n (runner_step 0 (MkRunnerAnswers false false false false false false) n).

Lemma reached_announces event n : reached n → running n = true → reached (announces event n).
Proof. intros H Hr. eapply reachable_step; [exact H|by apply step_event]. Qed.
Lemma reached_says m n : reached n → running n = true → reached (says m n).
Proof. intros H Hr. eapply reachable_step; [exact H|by apply step_message]. Qed.
Lemma reached_processed n : reached n → waiting n = None → queue n ≠ [] → reached (processed n).
Proof.
  intros H Hw Hq. eapply reachable_step; [exact H|]. unfold processed. destruct (queue n) as [|ev rest] eqn:Eq; [done|]. cbn [head default from_option tail id].
  destruct (_processAgentEvent _ _ _ _ _ _ _) as [s w] eqn:E. by eapply step_process.
Qed.
Lemma reached_slept n : reached n → (∃ ref o, waiting n = Some (WaitSleep ref o)) → rs_abort (sn n) = Some false → reached (slept n).
Proof. intros H (ref&o&Hw) Ha. eapply reachable_step; [exact H|by eapply step_slept]. Qed.
Lemma reached_fired n : reached n → rs_timers (sn n) = 1%nat → reached (fired n).
Proof. intros H Ht. eapply reachable_step; [exact H|by apply step_timer]. Qed.
Lemma reached_compacts result n : reached n → (∃ ref run, waiting n = Some (WaitCompaction ref run)) → reached (compacts result n).
Proof.
  intros H (ref&run&Hw). unfold compacts. rewrite Hw. destruct (compaction_done _ _ _ _) as [s b] eqn:E.
  eapply reachable_step; [exact H|by eapply step_compacted].
Qed.
Lemma reached_ran n : reached n → reached (ran n).
Proof.
  intros H. unfold ran. destruct (runner_step _ _ _) as [n'|] eqn:E; [|done]. eapply reachable_step; [exact H|]. by eapply step_runner.
Qed.

Definition sample_error (e : string) : AgentMessage :=
  MAssistant (MkAssistantMessage [] (js "a") (js "p") (js "m") (Some emptyUsage) SrError (Some (js e)) None 5).

(** A prompt, a request that fails, its retry, and that one's error. *)
Definition sample_prompted : Session :=
  says (MUser (MkUserMessage (CText (js "hi")) 1)) (let n := initial tt in MkSession (sn n) (queue n) (waiting n) true).
Definition sample_failed : Session :=
  processed (processed (announces (AgentEnd [0; 1]%nat) (announces (MessageEnd 1) (says (sample_error "503 busy") sample_prompted)))).
Definition sample_retried : Session := fired (slept sample_failed).
Definition sample_overflowed : Session :=
  processed (processed (announces (AgentEnd [2]%nat) (announces (MessageEnd 2) (says (sample_error "prompt is too long") sample_retried)))).
Definition sample_summary : AgentMessage := MCompactionSummary (MkCompactionSummaryMessage (js "so far") 9 None None 6).
Definition sample_stuck : Session := ran (compacts (Compacted [sample_summary] [3; 0]%nat) sample_overflowed).

Lemma reached_prompted : reached sample_prompted.
Proof. apply reached_says; [|done]. eapply reachable_user; [apply reachable_initial|]. by apply user_prompt. Qed.

Lemma reached_failed : reached sample_failed.
Proof.
  do 2 (apply reached_processed; [|by vm_compute|by vm_compute]). do 2 (apply reached_announces; [|by vm_compute]).
  apply reached_says; [apply reached_prompted|by vm_compute].
Qed.

Lemma reached_retried : reached sample_retried.
Proof.
  apply reached_fired; [|by vm_compute]. apply reached_slept; [apply reached_failed| |by vm_compute]. by vm_compute; do 2 eexists.
Qed.

Lemma reached_overflowed : reached sample_overflowed.
Proof.
  do 2 (apply reached_processed; [|by vm_compute|by vm_compute]). do 2 (apply reached_announces; [|by vm_compute]).
  apply reached_says; [apply reached_retried|by vm_compute].
Qed.

Lemma reached_stuck : reached sample_stuck.
Proof. apply reached_ran, reached_compacts; [apply reached_overflowed|]. by vm_compute; do 2 eexists. Qed.


Lemma retry_bursts_witness : reached sample_retried ∧ rs_attempt (sn sample_retried) = 1 ∧
  In (AutoRetryStart 1 3 2000 (js "503 busy")) (rs_effects (sn sample_retried)) ∧ Forall (start_ok sample_retry) (rs_effects (sn sample_retried)).
Proof.
  split; [exact reached_retried|]. split; [vm_compute; reflexivity|]. split; [vm_compute; tauto|].
  exact (proj2 (proj2 (retry_bursts _ _ _ _ _ _ reached_retried))).
Defined.

Lemma overflow_once_witness : reached sample_stuck ∧ In (CompactionStart ByOverflow None) (rs_effects (sn sample_stuck)) ∧
  (∀ before e after, rs_effects (sn sample_stuck) = before ++ e :: after → is_report e = true →
    ∃ b i a, before = b ++ CompactionStart ByOverflow i :: a ∧ Forall (λ e, begins e = false ∧ is_report e = false) a).
Proof.
  split; [exact reached_stuck|]. split; [vm_compute; tauto|]. exact (proj2 (overflow_once _ _ _ _ _ _ reached_stuck)).
Defined.

Lemma retry_goes_on_witness : reached sample_failed ∧ rs_retrying (sn sample_failed) = true ∧ active sample_failed.
Proof.
  split; [exact reached_failed|]. split; [vm_compute; reflexivity|].
  destruct (retry_goes_on _ _ _ _ _ _ reached_failed ltac:(vm_compute; reflexivity)) as [[H _]|H]; [exact H|].
  destruct (not_stalled (rs_effects (sn sample_failed)) ltac:(vm_compute; reflexivity) H).
Defined.
End sample.
