(* ===== verification/CompactionSpec.v ===== *)
(** * What compaction guarantees

    The cut point never leaves a tool result first and respects the token
    budget; preparation splits the messages since the last compaction into
    summarized, prefix and kept ones without losing any; the model context
    after the compaction is the summary and exactly the kept entries. *)

From stdpp Require Import gmap sorting.
From S2P Require Import Prelude.
From S2P Require Import JsMap.
From S2P Require Import JsString.
From S2P Require Import Json.
From S2P Require Import Messages.
From S2P Require Import Eff.
From S2P Require Import SessionEntry.
From S2P Require Import SessionManager.
From S2P Require Import SessionInvariant.
From S2P Require Import SessionContext.
From S2P Require Import SummaryPrompts.
From S2P Require Import Compaction.

(** ** Slices *)

Lemma slice_app {A} (l : list A) a b c : (a <= b)%nat → (b <= c)%nat → slice l a c = slice l a b ++ slice l b c.
Proof.
  intros Hab Hbc. unfold slice. replace (c - a)%nat with ((b - a) + (c - b))%nat by lia.
  rewrite <-take_take_drop. f_equal. rewrite drop_drop. f_equal. f_equal. lia.
Qed.

Lemma slice_all {A} (l : list A) a : (a <= length l)%nat → slice l a (length l) = drop a l.
Proof. intros Ha. unfold slice. rewrite take_ge; [done|]. rewrite length_drop. lia. Qed.

Lemma slice_cons {A} (l : list A) a b x : (a < b)%nat → l !! a = Some x → slice l a b = x :: slice l (S a) b.
Proof.
  intros Hab Hx. unfold slice. rewrite (drop_S _ _ _ Hx). replace (b - a)%nat with (S (b - S a)) by lia. done.
Qed.

Lemma slice_nil {A} (l : list A) a b : (b <= a)%nat → slice l a b = [].
Proof. intros. unfold slice. by replace (b - a)%nat with O by lia. Qed.

(** ** The cut point *)

(** The estimate of an entry in the walk of [findCutPoint]. *)
Definition entry_tokens (e : SessionEntry) : Z :=
  match e_body e with BMessage m => estimateTokens m | _ => 0 end.
Definition msg_tokens (l : list SessionEntry) : Z := sum_Z (entry_tokens <$> l).

Lemma tokens_of_chars_nonneg n : 0 <= n → 0 <= tokens_of_chars n.
Proof. intros. unfold tokens_of_chars. apply Z.div_pos; lia. Qed.

Lemma sum_Z_app l k : sum_Z (l ++ k) = sum_Z l + sum_Z k.
Proof. unfold sum_Z. induction l as [|x l IH]; cbn; lia. Qed.

Lemma sum_Z_nonneg {A} (f : A → Z) l : (∀ x, 0 <= f x) → 0 <= sum_Z (f <$> l).
Proof. intros Hf. unfold sum_Z. induction l as [|x l IH]; cbn; [lia|]. specialize (Hf x). lia. Qed.

Lemma chars_nonneg s : 0 <= chars s.
Proof. unfold chars. lia. Qed.

Lemma rich_chars_nonneg l : 0 <= rich_chars l.
Proof. apply sum_Z_nonneg. intros []; try apply chars_nonneg; unfold IMAGE_CHARS; lia. Qed.

Lemma assistant_chars_nonneg l : 0 <= assistant_chars l.
Proof.
  apply sum_Z_nonneg. intros []; try apply chars_nonneg; [lia|].
  pose proof (chars_nonneg name). pose proof (chars_nonneg (stringify arguments)). lia.
Qed.

Lemma estimateTokens_nonneg m : 0 <= estimateTokens m.
Proof.
  destruct m as [[[]]| | | |[? []]| | |]; cbn; try apply tokens_of_chars_nonneg; try apply chars_nonneg;
    try apply rich_chars_nonneg; try apply assistant_chars_nonneg; try lia.
  - apply sum_Z_nonneg, chars_nonneg.
  - pose proof (chars_nonneg (bm_command m)). pose proof (chars_nonneg (bm_output m)). lia.
Qed.

Lemma entry_tokens_nonneg e : 0 <= entry_tokens e.
Proof. unfold entry_tokens. destruct (e_body e); try lia. apply estimateTokens_nonneg. Qed.

Lemma msg_tokens_nonneg l : 0 <= msg_tokens l.
Proof. apply sum_Z_nonneg, entry_tokens_nonneg. Qed.

Lemma msg_tokens_app l k : msg_tokens (l ++ k) = msg_tokens l + msg_tokens k.
Proof. unfold msg_tokens. by rewrite fmap_app, sum_Z_app. Qed.

Lemma msg_tokens_cons e l : msg_tokens (e :: l) = entry_tokens e + msg_tokens l.
Proof. done. Qed.

Section cut.
Context (entries : list SessionEntry).
Implicit Types (startIndex endIndex : nat).

Lemma findValidCutPoints_spec startIndex endIndex c :
  c ∈ findValidCutPoints entries startIndex endIndex ↔
  (startIndex <= c < endIndex)%nat ∧ ∃ e, entries !! c = Some e ∧ is_cut_point e = true.
Proof.
  unfold findValidCutPoints. rewrite list_elem_of_filter, elem_of_seq. split.
  - intros [He Hc]. split; [lia|]. destruct (entries !! c); [by eexists|done].
  - intros [Hc (e&->&He)]. split; [done|lia].
Qed.

Lemma findValidCutPoints_sorted startIndex endIndex : StronglySorted lt (findValidCutPoints entries startIndex endIndex).
Proof.
  unfold findValidCutPoints. generalize (endIndex - startIndex)%nat as n. intros n. revert startIndex.
  induction n as [|n IH]; intros i; [constructor|]. cbn [seq]. rewrite filter_cons.
  case_decide; [|apply IH]. constructor; [apply IH|]. apply Forall_forall. intros j Hj.
  apply list_elem_of_filter in Hj as [_ Hj%elem_of_seq]. lia.
Qed.

(** The index the budget selects: everything after it fits, it does not. *)
Lemma budget_index_spec startIndex keep n : ∀ endIndex acc,
  endIndex = (startIndex + n)%nat → (endIndex <= length entries)%nat → acc < keep →
  match budget_index entries startIndex n acc keep with
  | Some i => (startIndex <= i < endIndex)%nat ∧ acc + msg_tokens (slice entries (S i) endIndex) < keep ∧
      keep <= acc + msg_tokens (slice entries i endIndex)
  | None => acc + msg_tokens (slice entries startIndex endIndex) < keep
  end.
Proof.
  induction n as [|n IH]; intros endIndex acc -> Hlen Hacc; cbn [budget_index].
  { rewrite slice_nil by lia. cbn. lia. }
  destruct (entries !! (startIndex + n)%nat) as [e|] eqn:He; [|apply lookup_ge_None in He; lia].
  assert (Hend : ∀ j, (j <= startIndex + n)%nat →
    slice entries j (startIndex + S n) = slice entries j (startIndex + n) ++ [e]).
  { intros j Hj. rewrite (slice_app _ j (startIndex + n)) by lia. f_equal.
    rewrite (slice_cons _ _ _ e) by (done || lia). by rewrite slice_nil by lia. }
  assert (Hstep : acc + entry_tokens e < keep →
    match budget_index entries startIndex n (acc + entry_tokens e) keep with
    | Some i => (startIndex <= i < startIndex + S n)%nat ∧
        acc + msg_tokens (slice entries (S i) (startIndex + S n)) < keep ∧
        keep <= acc + msg_tokens (slice entries i (startIndex + S n))
    | None => acc + msg_tokens (slice entries startIndex (startIndex + S n)) < keep
    end).
  { intros Hlt. specialize (IH (startIndex + n)%nat (acc + entry_tokens e) eq_refl ltac:(lia) Hlt).
    destruct (budget_index _ _ _ _ _) as [i|].
    - destruct IH as (H1&H2&H3). rewrite !Hend, !msg_tokens_app, !msg_tokens_cons by lia. cbn. lia.
    - rewrite Hend, msg_tokens_app, msg_tokens_cons by lia. cbn. lia. }
  unfold entry_tokens in Hstep. destruct e as [id p t []]; cbn [e_body] in Hstep;
    try (rewrite Z.add_0_r in Hstep; by apply Hstep).
  destruct (Z.leb_spec keep (acc + estimateTokens message)) as [Hle|Hlt]; [|by apply Hstep].
  split; [lia|]. rewrite slice_nil by lia. rewrite Hend, msg_tokens_app, slice_nil by lia. cbn. unfold entry_tokens. cbn. lia.
Qed.

(** Entries [cut_back] walks over. *)
Definition is_plain_entry (e : SessionEntry) : bool :=
  match e_body e with BMessage _ | BCompaction _ => false | _ => true end.

Lemma cut_back_spec startIndex n :
  (startIndex + n <= length entries)%nat →
  (startIndex <= cut_back entries startIndex n <= startIndex + n)%nat ∧
  ∀ j e, (cut_back entries startIndex n <= j < startIndex + n)%nat → entries !! j = Some e → is_plain_entry e = true.
Proof.
  induction n as [|n IH]; intros Hlen; cbn [cut_back]; [split; [lia|intros; lia]|].
  destruct (entries !! (startIndex + n)%nat) as [[id p t b]|] eqn:He; [|apply lookup_ge_None in He; lia].
  destruct (IH ltac:(lia)) as [IH1 IH2].
  assert (Hmove : is_plain_entry (MkSessionEntry id p t b) = true →
    (startIndex <= cut_back entries startIndex n <= startIndex + S n)%nat ∧
    ∀ j e, (cut_back entries startIndex n <= j < startIndex + S n)%nat → entries !! j = Some e → is_plain_entry e = true).
  { intros Hp. split; [lia|]. intros j e Hj Hje. destruct (decide (j = startIndex + n)%nat) as [->|];
      [by simplify_eq|]. apply (IH2 j); [lia|done]. }
  destruct b; try (by apply Hmove); split; try lia; intros; lia.
Qed.

Lemma plain_tokens a b : (a <= b)%nat →
  (∀ j e, (a <= j < b)%nat → entries !! j = Some e → is_plain_entry e = true) →
  msg_tokens (slice entries a b) = 0.
Proof.
  intros Hab. revert a Hab. induction b as [|b IH]; intros a Hab Hp; [by rewrite slice_nil by lia|].
  destruct (decide (a = S b)) as [->|]; [by rewrite slice_nil by lia|].
  rewrite (slice_app _ a b) by lia. rewrite msg_tokens_app, IH by (lia || (intros; apply (Hp j); [lia|done])).
  destruct (entries !! b) as [e|] eqn:He.
  - rewrite (slice_cons _ _ _ e) by (done || lia). rewrite slice_nil by lia. rewrite msg_tokens_cons.
    specialize (Hp b e ltac:(lia) He). unfold is_plain_entry, entry_tokens in *. by destruct (e_body e).
  - unfold slice. rewrite drop_ge by (by apply lookup_ge_None). by rewrite take_nil.
Qed.

Lemma msg_tokens_slice_le a b c : (a <= b)%nat → (b <= c)%nat →
  msg_tokens (slice entries b c) <= msg_tokens (slice entries a c).
Proof.
  intros Hab Hbc. rewrite (slice_app _ a b c) by done. rewrite msg_tokens_app.
  pose proof (msg_tokens_nonneg (slice entries a b)). lia.
Qed.

Lemma choose_cut_elem startIndex endIndex keep first cutPoints :
  first ∈ cutPoints → choose_cut entries startIndex endIndex keep first cutPoints ∈ cutPoints.
Proof.
  intros Hf. unfold choose_cut. destruct (budget_index _ _ _ _ _) as [i|]; [|done].
  destruct (head _) as [c|] eqn:Hh; [|done]. cbn. apply head_Some in Hh as [l Hl].
  assert (c ∈ filter (λ c, (i <= c)%nat) cutPoints) as Hc by (rewrite Hl; by left).
  by apply list_elem_of_filter in Hc as [_ ?].
Qed.

(** Without the first kept message, what is kept fits in the budget, if any
    cut can do that. *)
Lemma choose_cut_budget startIndex endIndex keep first cutPoints l :
  (startIndex < endIndex <= length entries)%nat → 0 < keep →
  first ∈ cutPoints → Forall (λ c, (startIndex <= c < endIndex)%nat) cutPoints →
  l ∈ cutPoints → msg_tokens (slice entries (S l) endIndex) < keep →
  msg_tokens (slice entries (S (choose_cut entries startIndex endIndex keep first cutPoints)) endIndex) < keep.
Proof.
  intros Hend Hk Hf Hall Hl Hlt. rewrite Forall_forall in Hall. unfold choose_cut.
  pose proof (budget_index_spec startIndex keep (endIndex - startIndex) endIndex 0
    ltac:(lia) ltac:(lia) Hk) as Hb.
  destruct (budget_index _ _ _ _ _) as [i|].
  - destruct Hb as (Hi&H1&H2). assert (Hil : (i <= l)%nat).
    { destruct (decide (i <= l)%nat); [done|]. pose proof (msg_tokens_slice_le (S l) i endIndex ltac:(lia) ltac:(lia)). lia. }
    assert (l ∈ filter (λ c, (i <= c)%nat) cutPoints) as Hin by (by apply list_elem_of_filter).
    destruct (filter _ _) as [|c cs] eqn:Ef; [by apply elem_of_nil in Hin|]. cbn.
    assert (c ∈ filter (λ c, (i <= c)%nat) cutPoints) as Hc by (rewrite Ef; by left).
    apply list_elem_of_filter in Hc as [Hic Hc]. specialize (Hall c Hc).
    pose proof (msg_tokens_slice_le (S i) (S c) endIndex ltac:(lia) ltac:(lia)). lia.
  - specialize (Hall first Hf). pose proof (msg_tokens_slice_le startIndex (S first) endIndex ltac:(lia) ltac:(lia)). lia.
Qed.

Definition is_tool_result (e : SessionEntry) : bool :=
  match e_body e with BMessage (MToolResult _) => true | _ => false end.

Lemma cut_point_not_result e : is_cut_point e = true → is_tool_result e = false.
Proof. unfold is_cut_point, is_tool_result. by destruct (e_body e) as [[]| | | | | | | | | | | | |]. Qed.
Lemma plain_not_result e : is_plain_entry e = true → is_tool_result e = false.
Proof. unfold is_plain_entry, is_tool_result. by destruct (e_body e). Qed.

Lemma findTurnStartIndex_spec entryIndex startIndex t :
  findTurnStartIndex entries entryIndex startIndex = Some t →
  (startIndex <= t <= entryIndex)%nat ∧ (∃ e, entries !! t = Some e ∧ is_turn_start e = true) ∧
  ∀ j e, (t < j <= entryIndex)%nat → entries !! j = Some e → is_turn_start e = false.
Proof.
  unfold findTurnStartIndex. intros Hl. apply last_Some in Hl as [l Hl].
  assert (Hsub : ∀ j, j ∈ l ++ [t] ↔ (match entries !! j with Some e => is_turn_start e | None => false end = true) ∧
    (startIndex <= j <= entryIndex)%nat).
  { intros j. rewrite <-Hl, list_elem_of_filter, elem_of_seq. split; intros [? ?]; (split; [done|lia]). }
  assert (Ht : t ∈ l ++ [t]) by (apply elem_of_app; right; by left).
  apply Hsub in Ht as [Hts Ht]. split; [done|]. split.
  { destruct (entries !! t); [by eexists|done]. }
  intros j e Hj Hje. destruct (is_turn_start e) eqn:E; [|done].
  assert (Hjl : j ∈ l ++ [t]). { apply Hsub. rewrite Hje. split; [done|lia]. }
  apply elem_of_app in Hjl as [Hjl|Hjl%list_elem_of_singleton]; [|lia].
  assert (Hs : StronglySorted lt (l ++ [t])).
  { rewrite <-Hl. generalize (S entryIndex - startIndex)%nat as n. clear. intros n. revert startIndex.
    induction n as [|n IH]; intros i; [constructor|]. cbn [seq]. rewrite filter_cons.
    case_decide; [|apply IH]. constructor; [apply IH|]. apply Forall_forall. intros j Hj.
    apply list_elem_of_filter in Hj as [_ Hj%elem_of_seq]. lia. }
  clear -Hs Hjl Hj. induction l as [|x l IH]; [by apply elem_of_nil in Hjl|].
  cbn in Hs. apply StronglySorted_inv in Hs as [Hs Hx]. apply elem_of_cons in Hjl as [->|Hjl]; [|by apply IH].
  rewrite Forall_forall in Hx. specialize (Hx t ltac:(apply elem_of_app; right; by left)). lia.
Qed.

(** The entry [findCutPoint] selects before walking back, and the walk. *)
Lemma findCutPoint_cut startIndex endIndex keep : (startIndex < endIndex <= length entries)%nat →
  findValidCutPoints entries startIndex endIndex ≠ [] →
  ∃ first c, first ∈ findValidCutPoints entries startIndex endIndex ∧
    c = choose_cut entries startIndex endIndex keep first (findValidCutPoints entries startIndex endIndex) ∧
    c ∈ findValidCutPoints entries startIndex endIndex ∧
    let f := cp_firstKeptEntryIndex (findCutPoint entries startIndex endIndex keep) in
    (startIndex <= f <= c)%nat ∧ ∀ j e, (f <= j < c)%nat → entries !! j = Some e → is_plain_entry e = true.
Proof.
  intros Hend Hne. unfold findCutPoint.
  destruct (findValidCutPoints entries startIndex endIndex) as [|first rest] eqn:Ec; [done|].
  set (c := choose_cut entries startIndex endIndex keep first (first :: rest)).
  assert (Hc : c ∈ first :: rest) by (apply choose_cut_elem; by left).
  exists first, c. split; [by left|]. split; [done|]. split; [done|].
  rewrite <-Ec in Hc. apply findValidCutPoints_spec in Hc as [Hc _].
  pose proof (cut_back_spec startIndex (c - startIndex) ltac:(lia)) as Hb.
  replace (startIndex + (c - startIndex))%nat with c in Hb by lia. exact Hb.
Qed.

Lemma findCutPoint_range startIndex endIndex keep : (startIndex < endIndex <= length entries)%nat →
  (startIndex <= cp_firstKeptEntryIndex (findCutPoint entries startIndex endIndex keep) < endIndex)%nat.
Proof.
  intros Hend. destruct (decide (findValidCutPoints entries startIndex endIndex = [])) as [He|Hne].
  - unfold findCutPoint. rewrite He. cbn. lia.
  - destruct (findCutPoint_cut startIndex endIndex keep Hend Hne) as (first&c&_&_&Hc&Hf&_).
    apply findValidCutPoints_spec in Hc as [Hc _]. cbn zeta in *. lia.
Qed.

Lemma findCutPoint_split startIndex endIndex keep t :
  cp_turnStartIndex (findCutPoint entries startIndex endIndex keep) = Some t →
  findTurnStartIndex entries (cp_firstKeptEntryIndex (findCutPoint entries startIndex endIndex keep)) startIndex = Some t.
Proof.
  unfold findCutPoint. destruct (findValidCutPoints _ _ _); [done|].
  cbn zeta. cbn [cp_turnStartIndex cp_firstKeptEntryIndex].
  match goal with |- (if ?b then _ else _) = _ → _ => by destruct b end.
Qed.

Lemma findCutPoint_isSplit startIndex endIndex keep :
  cp_isSplitTurn (findCutPoint entries startIndex endIndex keep) = true ↔
  ∃ t, cp_turnStartIndex (findCutPoint entries startIndex endIndex keep) = Some t.
Proof.
  unfold findCutPoint. destruct (findValidCutPoints _ _ _); [by split; [|intros [? ?]]|].
  cbn zeta. cbn [cp_turnStartIndex cp_isSplitTurn].
  match goal with |- negb ?b && _ = _ ↔ _ => destruct b end; cbn [negb andb].
  - by split; [|intros [? ?]].
  - by rewrite bool_decide_eq_true.
Qed.
End cut.

(** The cut point lies in the searched range.  If the range has any place
    to cut, the first kept entry is not a tool result; and if keeping the
    messages after the last possible cut alone meets the budget, then all the
    kept messages but the first one fit in it.  A split turn names the latest
    start of a turn at or before the cut. *)
Theorem findCutPoint_spec entries startIndex endIndex keep :
  (startIndex < endIndex <= length entries)%nat → 0 < keep →
  let r := findCutPoint entries startIndex endIndex keep in
  let f := cp_firstKeptEntryIndex r in
  let cutPoints := findValidCutPoints entries startIndex endIndex in
  (startIndex <= f < endIndex)%nat ∧
  (cutPoints ≠ [] → ∃ e, entries !! f = Some e ∧ is_tool_result e = false) ∧
  (∀ l, last cutPoints = Some l → msg_tokens (slice entries (S l) endIndex) < keep →
    ∃ c, (f <= c < endIndex)%nat ∧ msg_tokens (slice entries f c) = 0 ∧ msg_tokens (slice entries (S c) endIndex) < keep) ∧
  (cp_isSplitTurn r = true ↔ ∃ t, cp_turnStartIndex r = Some t) ∧
  (∀ t, cp_turnStartIndex r = Some t → (startIndex <= t <= f)%nat ∧
    (∃ e, entries !! t = Some e ∧ is_turn_start e = true) ∧
    ∀ j e, (t < j <= f)%nat → entries !! j = Some e → is_turn_start e = false).
Proof.
  intros Hend Hk. cbn zeta. split_and!.
  - by apply findCutPoint_range.
  - by apply findCutPoint_range.
  - intros Hne. destruct (findCutPoint_cut entries startIndex endIndex keep Hend Hne) as (first&c&_&_&Hc&Hf&Hp).
    apply findValidCutPoints_spec in Hc as [Hc (e&He&Hce)]. cbn zeta in *.
    set (f := cp_firstKeptEntryIndex _) in *. destruct (decide (f = c)) as [->|].
    + exists e. split; [done|]. by apply cut_point_not_result.
    + destruct (entries !! f) as [e'|] eqn:He'; [|apply lookup_ge_None in He'; lia].
      exists e'. split; [done|]. apply plain_not_result. apply (Hp f); [lia|done].
  - intros l Hl Hlt.
    assert (Hlc : l ∈ findValidCutPoints entries startIndex endIndex).
    { apply last_Some in Hl as [k ->]. apply elem_of_app. right. by left. }
    assert (Hne : findValidCutPoints entries startIndex endIndex ≠ []) by (intros E; by rewrite E in Hl).
    destruct (findCutPoint_cut entries startIndex endIndex keep Hend Hne) as (first&c&Hfirst&Hcc&Hc&Hf&Hp).
    cbn zeta in *. exists c. apply findValidCutPoints_spec in Hc as [Hc _]. split; [lia|]. split.
    + eapply (plain_tokens entries); [lia|exact Hp].
    + rewrite Hcc. eapply choose_cut_budget; [done|done|done| |exact Hlc|done].
      apply Forall_forall. intros x [? _]%findValidCutPoints_spec. done.
  - apply findCutPoint_isSplit.
  - intros t Ht. apply findCutPoint_split in Ht. by apply findTurnStartIndex_spec.
Qed.

(** ** Preparation *)

Lemma find_index_Some {A} (f : A → bool) l i : find_index f l = Some i →
  (∃ x, l !! i = Some x ∧ f x = true) ∧ Forall (λ x, f x = false) (take i l).
Proof.
  revert i. induction l as [|x l IH]; intros i; cbn; [done|]. destruct (f x) eqn:E.
  - intros [= <-]. split; [by eexists|constructor].
  - destruct (find_index f l) as [j|]; [|done]. intros [= <-]. destruct (IH j eq_refl) as [? ?].
    split; [done|by constructor].
Qed.

Lemma find_index_None {A} (f : A → bool) l : find_index f l = None → Forall (λ x, f x = false) l.
Proof.
  induction l as [|x l IH]; cbn; [constructor|]. destruct (f x) eqn:E; [done|].
  destruct (find_index f l); [done|]. constructor; [done|]. by apply IH.
Qed.

Lemma find_index_first {A} (f : A → bool) l i x :
  l !! i = Some x → f x = true → Forall (λ x, f x = false) (take i l) → find_index f l = Some i.
Proof.
  revert i. induction l as [|y l IH]; intros i; [done|]. destruct i as [|i]; cbn.
  - by intros [= ->] ->.
  - intros Hi Hx [Hy Hl]%Forall_cons. rewrite Hy. by erewrite IH.
Qed.

(** The previous compaction. *)
Lemma last_compaction_spec path : ∀ i,
  match last_compaction i path with
  | Some (j, c) => ∃ e, (i <= j)%nat ∧ path !! (j - i)%nat = Some e ∧ e_body e = BCompaction c ∧
      Forall (λ e, is_compaction e = false) (drop (S (j - i)) path)
  | None => Forall (λ e, is_compaction e = false) path
  end.
Proof.
  induction path as [|e path IH]; intros i; cbn [last_compaction]; [constructor|].
  specialize (IH (S i)). destruct (last_compaction (S i) path) as [[j c]|].
  - destruct IH as (e'&Hij&He&Hc&Hf). exists e'. replace (j - i)%nat with (S (j - S i)) by lia.
    split_and!; [lia|done|done|done].
  - destruct (e_body e) eqn:Eb; try (constructor; [unfold is_compaction; by rewrite Eb|done]).
    exists e. rewrite Nat.sub_diag. by split_and!.
Qed.

Lemma boundary_start_lt path e : last path = Some e → is_compaction e = false → (boundary_start path < length path)%nat.
Proof.
  intros Hl He. pose proof (last_compaction_spec path 0) as Hc. unfold boundary_start.
  assert (Hlen : (0 < length path)%nat) by (destruct path; [done|cbn; lia]).
  destruct (last_compaction 0 path) as [[j c]|]; [|done]. destruct Hc as (e'&_&Hj&Hb&_). rewrite Nat.sub_0_r in Hj.
  destruct (find_index _ path) as [k|] eqn:Ek; cbn.
  - apply find_index_Some in Ek as [(x&Hx&_) _]. by eapply lookup_lt_Some.
  - apply lookup_lt_Some in Hj as Hj'. destruct (decide (S j = length path)) as [Heq|]; [|lia].
    rewrite last_lookup, <-Heq in Hl. cbn in Hl. rewrite Hl in Hj. injection Hj as ->.
    unfold is_compaction in He. by rewrite Hb in He.
Qed.

(** What a preparation covers. *)
Lemma prepare_spec path settings tokensBefore p : prepare path settings tokensBefore = Some p →
  let f := cp_firstKeptEntryIndex (findCutPoint path (boundary_start path) (length path) (cs_keepRecentTokens settings)) in
  (boundary_start path <= f < length path)%nat ∧
  (∃ e, path !! f = Some e ∧ e_id e = pr_firstKeptEntryId p) ∧
  pr_messagesToSummarize p ++ pr_turnPrefixMessages p =
    omap getMessageFromEntryForCompaction (slice path (boundary_start path) f).
Proof.
  unfold prepare. destruct (last path) as [le|] eqn:El; [|by apply last_None in El as ->].
  destruct (is_compaction le) eqn:Ec; [done|]. pose proof (boundary_start_lt path le El Ec) as Hb.
  pose proof (findCutPoint_range path (boundary_start path) (length path) (cs_keepRecentTokens settings) ltac:(lia)) as Hf.
  pose proof (findCutPoint_isSplit path (boundary_start path) (length path) (cs_keepRecentTokens settings)) as Hsplit.
  set (cp := findCutPoint _ _ _ _) in *. cbn zeta. set (f := cp_firstKeptEntryIndex cp) in *.
  destruct (path !! f) as [[[|c i] pa ts b]|] eqn:Hlook; [done| |done].
  set (turnStart := default O (cp_turnStartIndex cp)).
  set (summarize := omap _ (slice path (boundary_start path) _)). set (prefix := if cp_isSplitTurn cp then _ else _).
  assert (Hsum : summarize ++ prefix = omap getMessageFromEntryForCompaction (slice path (boundary_start path) f)).
  { unfold summarize, prefix. destruct (cp_isSplitTurn cp) eqn:Es; [|by rewrite app_nil_r].
    destruct (proj1 Hsplit eq_refl) as [t Ht]. unfold turnStart. rewrite Ht. cbn [default from_option].
    apply findCutPoint_split in Ht. apply findTurnStartIndex_spec in Ht as [Ht _].
    change (boundary_start path <= t <= f)%nat in Ht. rewrite <-omap_app. f_equal. symmetry. apply slice_app; unfold id; lia. }
  intros Hp.
  assert (pr_firstKeptEntryId p = c :: i ∧
    pr_messagesToSummarize p ++ pr_turnPrefixMessages p = summarize ++ prefix) as [-> ->].
  { clear -Hp. destruct (truthy (ce_summary <$> (snd <$> last_compaction 0 path)));
      destruct summarize, prefix; simplify_eq/=; done. }
  split; [done|]. split; [by eexists|exact Hsum].
Qed.

(** ** The context after a compaction *)

Lemma entry_messages_sublist l : l ≫= entry_messages `sublist_of` omap getMessageFromEntryForCompaction l.
Proof.
  induction l as [|e l IH]; [constructor|]. cbn [mbind list_bind omap list_omap].
  unfold getMessageFromEntryForCompaction at 1, is_compaction, getMessageFromEntry, entry_messages at 1.
  destruct (e_body e); cbn [app]; try done; try by constructor.
  destruct summary; cbn [app]; by constructor.
Qed.

Lemma retained_found fk l : retained_messages fk true l = l ≫= entry_messages.
Proof. induction l as [|e l IH]; [done|]. cbn. by rewrite IH. Qed.

Lemma retained_from fk l i e : l !! i = Some e → e_id e = fk →
  Forall (λ e, bool_decide (e_id e = fk) = false) (take i l) → retained_messages fk false l = drop i l ≫= entry_messages.
Proof.
  revert i. induction l as [|x l IH]; intros i; [done|]. destruct i as [|i]; cbn.
  - intros [= ->] -> _. rewrite bool_decide_true by done. cbn. by rewrite retained_found.
  - intros Hi He [Hx Hl]%Forall_cons. rewrite Hx. cbn. by apply IH.
Qed.

Lemma retained_none fk l : Forall (λ e, bool_decide (e_id e = fk) = false) l → retained_messages fk false l = [].
Proof. induction 1 as [|x l Hx _ IH]; [done|]. cbn. by rewrite Hx. Qed.

Lemma compaction_messages e : is_compaction e = true → entry_messages e = [].
Proof. unfold is_compaction, entry_messages. by destruct (e_body e). Qed.

Lemma getLatest_spec path :
  match last_compaction 0 path with
  | Some (j, c) => ∃ e, path !! j = Some e ∧ e_body e = BCompaction c ∧ getLatestCompactionEntry path = Some e
  | None => getLatestCompactionEntry path = None
  end.
Proof.
  pose proof (last_compaction_spec path 0) as Hc. destruct (last_compaction 0 path) as [[j c]|]; unfold getLatestCompactionEntry.
  - destruct Hc as (e&_&Hj&Hb&Hf). rewrite Nat.sub_0_r in *. exists e. split_and!; [done|done|].
    rewrite <-(take_drop j path), (drop_S path e j Hj), filter_app, filter_cons.
    rewrite decide_True by (unfold is_compaction; by rewrite Hb).
    replace (filter (λ e, is_compaction e = true) (drop (S j) path)) with (@nil SessionEntry); [by rewrite last_snoc|].
    symmetry. induction Hf as [|x l Hx _ IH]; [done|]. rewrite filter_cons, decide_False by (by rewrite Hx). done.
  - induction Hc as [|x l Hx _ IH]; [done|]. rewrite filter_cons, decide_False by (by rewrite Hx). done.
Qed.

(** The entry the last compaction keeps first, if it is on the path, is before
    that compaction. *)
Definition kept_before (path : list SessionEntry) : Prop :=
  ∀ j c k, last_compaction 0 path = Some (j, c) →
    find_index (λ e, bool_decide (e_id e = ce_firstKeptEntryId c)) path = Some k → (k < j)%nat.

(** The context is the last summary, if there is one, and the messages since the
    boundary of the last compaction. *)
Lemma context_since_boundary path : NoDup (e_id <$> path) → kept_before path →
  ∃ s, context_messages path = s ++ (drop (boundary_start path) path ≫= entry_messages) ∧
  match last_compaction 0 path with
  | None => s = []
  | Some (_, c) => ∃ ts n, s = [createCompactionSummaryMessage (ce_summary c) (ce_tokensBefore c) ts
                                 (ce_customInstructions c) (Some n)]
  end.
Proof.
  intros Hnd Hkb. unfold kept_before in Hkb. pose proof (getLatest_spec path) as Hl. pose proof (last_compaction_spec path 0) as Hc.
  unfold context_messages, boundary_start.
  destruct (last_compaction 0 path) as [[j c]|]; [|rewrite Hl; by exists []].
  destruct Hl as (e&Hj&Hb&->). rewrite Hb. destruct Hc as (e'&_&Hj'&_&_). rewrite Nat.sub_0_r in *.
  simplify_eq.
  assert (Hidx : find_index (λ e', is_compaction e' && bool_decide (e_id e' = e_id e)) path = Some j).
  { apply (find_index_first _ _ _ e); [done| |].
    - unfold is_compaction. by rewrite Hb, bool_decide_true.
    - apply Forall_forall. intros x (k&Hk)%list_elem_of_lookup. apply lookup_take_Some in Hk as [Hk Hlt].
      apply andb_false_iff. right. apply bool_decide_eq_false. intros Heq.
      assert (k = j); [|lia]. eapply (NoDup_lookup _ k j (e_id e) Hnd); rewrite list_lookup_fmap.
      + rewrite Hk. cbn. by rewrite Heq.
      + by rewrite Hj. }
  rewrite Hidx. cbn [default from_option].
  set (ret := retained_messages _ _ _).
  exists [createCompactionSummaryMessage (ce_summary c) (ce_tokensBefore c) (e_timestamp e)
           (ce_customInstructions c) (Some (Z.of_nat (length ret)))].
  split; [|by eexists _, _]. f_equal. f_equal.
  destruct (find_index (λ e0, bool_decide (e_id e0 = ce_firstKeptEntryId c)) path) as [k|] eqn:Ek; cbn [default from_option].
  - specialize (Hkb j c k eq_refl Ek).
    apply find_index_Some in Ek as [(x&Hx&Hid%bool_decide_eq_true) Hbefore].
    unfold id in *. assert (ret = drop k (take j path) ≫= entry_messages) as ->.
    { eapply retained_from; [rewrite lookup_take_lt by lia; exact Hx|done|]. rewrite take_take. by rewrite Nat.min_l by lia. }
    apply lookup_lt_Some in Hj as Hlt.
    rewrite <-bind_app. rewrite <-(take_drop j path) at 3.
    rewrite drop_app_le by (rewrite length_take; lia). rewrite (drop_S path e j Hj), !bind_app. f_equal. cbn.
    rewrite compaction_messages; [done|]. unfold is_compaction. by rewrite Hb.
  - assert (ret = []) as ->; [|done]. apply retained_none. apply Forall_take. by apply find_index_None.
Qed.

