(* ===== verification/CompactionProps.v ===== *)
(** * Properties of compaction and branch summaries

    File lists, budgets and the entries a branch summary covers; two cases in
    which the code loses or refuses what it should not. *)

From stdpp Require Import gmap sorting.
From S2P Require Import Prelude.
From S2P Require Import JsMap.
From S2P Require Import JsString.
From S2P Require Import Json.
From S2P Require Import Messages.
From S2P Require Import Eff.
From S2P Require Import SessionEntry.
From S2P Require Import SessionManager.
From S2P Require Import SessionInvariant.
From S2P Require Import SessionContext.
From S2P Require Import SummaryPrompts.
From S2P Require Import Compaction.
From S2P Require Import CompactionSpec.

(** ** File lists *)

#[export] Instance js_le_total : Total js_le.
Proof.
  unfold js_le. intros a. induction a as [|x a IH]; intros [|y b]; cbn; auto.
  destruct (IH b) as [H|H]; rewrite H; destruct (Z.ltb_spec x y), (Z.ltb_spec y x), (Z.eqb_spec x y), (Z.eqb_spec y x);
    cbn; auto; try lia.
Qed.

#[export] Instance js_le_trans : Transitive js_le.
Proof.
  unfold js_le. intros a. induction a as [|x a IH]; intros [|y b] [|z c]; cbn; auto; try done.
  rewrite !orb_true_iff, !andb_true_iff, !Z.ltb_lt, !Z.eqb_eq.
  intros [?|[-> H1]] [?|[-> H2]]; [left; lia..|]. right. split; [done|]. by eapply IH.
Qed.

(** The file lists of a summary are the files of the operations: the
    modified files are those edited or written, the read files are those read
    and not modified; each list is sorted and free of duplicates. *)
Theorem computeFileLists_spec ops :
  let '(readFiles, modifiedFiles) := computeFileLists ops in
  (∀ f, f ∈ modifiedFiles ↔ f ∈ fo_edited ops ∨ f ∈ fo_written ops) ∧
  (∀ f, f ∈ readFiles ↔ f ∈ fo_read ops ∧ f ∉ modifiedFiles) ∧
  NoDup readFiles ∧ NoDup modifiedFiles ∧ Sorted js_le readFiles ∧ Sorted js_le modifiedFiles.
Proof.
  unfold computeFileLists, js_sort.
  assert (Hin : ∀ f (s : gset jsstr), f ∈ merge_sort js_le (elements s) ↔ f ∈ s).
  { intros f s. rewrite merge_sort_Permutation. apply elem_of_elements. }
  assert (Hnd : ∀ s : gset jsstr, NoDup (merge_sort js_le (elements s))).
  { intros s. rewrite merge_sort_Permutation. apply NoDup_elements. }
  split_and!; auto; try (apply Sorted_merge_sort, _).
  - intros f. rewrite Hin. set_solver.
  - intros f. rewrite !Hin. set_solver.
Qed.

(** ** Branch summaries *)

Lemma last_filter {A} (P : A → Prop) `{!∀ x, Decision (P x)} l :
  match last (filter P l) with
  | Some a => ∃ l1 l2, l = l1 ++ a :: l2 ∧ P a ∧ Forall (λ x, ¬ P x) l2
  | None => Forall (λ x, ¬ P x) l
  end.
Proof.
  induction l as [|x l IH] using rev_ind; [constructor|]. rewrite filter_app, filter_cons, filter_nil.
  destruct (decide (P x)) as [Hx|Hx].
  - rewrite last_snoc. exists l, []. by split_and!.
  - rewrite app_nil_r. destruct (last (filter P l)) as [a|].
    + destruct IH as (l1&l2&->&Ha&Hl). exists l1, (l2 ++ [x]). rewrite <-app_assoc. split_and!; [done|done|].
      apply Forall_app. by split; [|constructor].
    + apply Forall_app. by split; [|constructor].
Qed.

Section collect.
Context `{UuidLaws}.

(** Stored entries with the same id are the same. *)
Lemma entries_inj s x y : inv s → FEntry x ∈ sm_fileEntries s → FEntry y ∈ sm_fileEntries s → e_id x = e_id y → x = y.
Proof.
  intros Hs (i&Hi)%list_elem_of_lookup (j&Hj)%list_elem_of_lookup Hid.
  assert (i = j) as -> by (apply (entry_at_inj (sm_fileEntries s) _ _ (e_id x)); [apply Hs|by exists x|by exists y]).
  congruence.
Qed.

(** Two paths from a root agree up to an entry they share. *)
Lemma chain_agree s p1 p2 : inv s → chain p1 → chain p2 →
  Forall (λ x, FEntry x ∈ sm_fileEntries s) p1 → Forall (λ x, FEntry x ∈ sm_fileEntries s) p2 →
  ∀ i j x y, p1 !! i = Some x → p2 !! j = Some y → e_id x = e_id y → i = j ∧ take (S i) p1 = take (S j) p2.
Proof.
  intros Hs H1 H2 F1 F2 i. rewrite Forall_forall in F1, F2.
  induction i as [|i IH]; intros j x y Hx Hy Hid;
    assert (x = y) as <- by (eapply entries_inj; [done|eapply F1, list_elem_of_lookup_2; done|
      eapply F2, list_elem_of_lookup_2; done|done]); pose proof (H1 _ _ Hx) as C1; pose proof (H2 _ _ Hy) as C2; cbn in C1.
  - destruct j as [|j]; [|destruct C2 as (?&_&?); congruence]. split; [done|].
    by rewrite (take_S_r p1 0 x), (take_S_r p2 0 x).
  - destruct C1 as (x'&Hx'&Hp). destruct j as [|j]; [congruence|]. destruct C2 as (y'&Hy'&Hp').
    destruct (IH j x' y' Hx' Hy' ltac:(congruence)) as [-> Ht]. split; [done|].
    rewrite (take_S_r p1 (S j) x), (take_S_r p2 (S j) x) by done. by rewrite Ht.
Qed.

Lemma getEntry_stored s x : inv s → FEntry x ∈ sm_fileEntries s → getEntry s (e_id x) = Some x ∧ e_id x ≠ [].
Proof.
  intros Hs (i&Hi)%list_elem_of_lookup. split; [apply getEntry_spec; [done|]; by exists i|].
  pose proof (wf_nonempty _ _ (wf_store _ (proj1 Hs))) as Hne. rewrite Forall_forall in Hne.
  apply Hne. eapply entry_at_ids. by exists x.
Qed.

(** The walk up a path stops below the ancestor at index [k - 1]. *)
Lemma collect_path s p anc k : inv s → chain p → Forall (λ x, FEntry x ∈ sm_fileEntries s) p →
  match k with O => ∀ x, x ∈ p → anc ≠ Some (e_id x) | S j => ∃ a, p !! j = Some a ∧ anc = Some (e_id a) ∧ NoDup (e_id <$> p) end →
  ∀ i x fuel, p !! i = Some x → (k <= i)%nat → (i < fuel + k)%nat →
    collect (getEntry s) anc fuel (Some (e_id x)) = Some (reverse (slice p k (S i))).
Proof.
  intros Hs Hc HF Hk. rewrite Forall_forall in HF.
  assert (Hne : ∀ i x, p !! i = Some x → (k <= i)%nat → Some (e_id x) ≠ anc).
  { intros i x Hx Hki. destruct k as [|j].
    - intros Heq. apply (Hk x); [by eapply list_elem_of_lookup_2|done].
    - destruct Hk as (a&Ha&->&Hnd). intros [= Heq].
      assert (i = j); [|lia]. eapply (NoDup_lookup _ i j (e_id x) Hnd); rewrite list_lookup_fmap; [by rewrite Hx|by rewrite Ha, Heq]. }
  induction i as [|i IH]; intros x fuel Hx Hki Hfuel;
    destruct (getEntry_stored s x Hs (HF x ltac:(by eapply list_elem_of_lookup_2))) as [Hge Hid];
    pose proof (Hne _ _ Hx Hki) as Hna; destruct (e_id x) as [|c l] eqn:Ex; try done;
    (destruct fuel as [|fuel]; [lia|]); cbn [collect]; rewrite bool_decide_false, Hge by done.
  - assert (k = O) as -> by lia. pose proof (Hc _ _ Hx) as ->. cbn [collect].
    destruct fuel; cbn [collect fmap option_fmap option_map]; (rewrite (slice_cons p 0 1 x) by (done || lia));
      by rewrite slice_nil by lia.
  - destruct (Hc _ _ Hx) as (x'&Hx'&Hp). rewrite Hp.
    destruct (decide (k = S i)) as [->|].
    + destruct Hk as (a&Ha&->&_). simplify_eq.
      destruct (getEntry_stored s a Hs (HF a ltac:(by eapply list_elem_of_lookup_2))) as [_ Hida].
      assert (collect (getEntry s) (Some (e_id a)) fuel (Some (e_id a)) = Some []) as ->.
      { destruct (e_id a) as [|c' l'] eqn:Ea; [done|]. destruct fuel; cbn [collect]; by rewrite bool_decide_true. }
      cbn [fmap option_fmap option_map]. rewrite (slice_cons p (S i) (S (S i)) x) by (done || lia). by rewrite slice_nil by lia.
    + rewrite (IH x' fuel Hx' ltac:(lia) ltac:(lia)). cbn [fmap option_fmap option_map]. f_equal.
      rewrite (slice_app p k (S i) (S (S i))) by lia.
      rewrite (slice_cons p (S i) (S (S i)) x) by (done || lia). rewrite (slice_nil p (S (S i))) by lia. by rewrite reverse_snoc.
Qed.

Lemma path_length s p : NoDup (e_id <$> p) → Forall (λ x, FEntry x ∈ sm_fileEntries s) p → (length p <= walk_fuel s)%nat.
Proof.
  intros Hnd HF. unfold walk_fuel. rewrite <-(length_fmap FEntry p). apply submseteq_length, NoDup_submseteq.
  - apply (NoDup_fmap_1 (λ f, match f with FEntry e => e_id e | _ => [] end)).
    by rewrite <-list_fmap_compose.
  - rewrite Forall_forall in HF. intros x (e&->&He)%list_elem_of_fmap. by apply HF.
Qed.
End collect.

(** Navigating from one entry of a session to another collects for the
    branch summary exactly the part of the old branch that the target's branch
    does not share: the old branch is a common part followed by the collected
    entries, the common part starts the target's branch and ends with the common
    ancestor, and no collected entry is on the target's branch. *)
Theorem collectEntries_spec `{UuidLaws} s eo et : inv s →
  FEntry eo ∈ sm_fileEntries s → FEntry et ∈ sm_fileEntries s →
  ∃ p1 p2 common entries,
    getBranch s (Some (e_id eo)) = Some p1 ∧ getBranch s (Some (e_id et)) = Some p2 ∧
    collectEntriesForBranchSummary s (Some (e_id eo)) (e_id et) = Some (entries, e_id <$> last common) ∧
    p1 = common ++ entries ∧ common `prefix_of` p2 ∧ ∀ x, x ∈ entries → x ∉ p2.
Proof.
  intros Hs Ho Ht. apply list_elem_of_lookup in Ho as [io Hio], Ht as [it Hit].
  destruct (branch_of_entry s eo io Hs Hio) as (p1&Hb1&Hl1&Hc1&HF1&Hn1).
  destruct (branch_of_entry s et it Hs Hit) as (p2&Hb2&Hl2&Hc2&HF2&Hn2).
  destruct (getEntry_stored s eo Hs ltac:(by eapply list_elem_of_lookup_2)) as [_ Hide].
  pose proof (path_length s p1 Hn1 HF1) as Hlen.
  assert (Hcol : ∀ anc k, match k with O => ∀ x, x ∈ p1 → anc ≠ Some (e_id x) | S j => ∃ a, p1 !! j = Some a ∧ anc = Some (e_id a) ∧ NoDup (e_id <$> p1) end →
    (k <= length p1)%nat → collect (getEntry s) anc (walk_fuel s) (Some (e_id eo)) = Some (reverse (drop k p1))).
  { intros anc k Hk Hkl. rewrite last_lookup in Hl1. destruct p1 as [|x1 p1']; [done|]. cbn [length pred] in *.
    destruct (decide (k = S (length p1'))) as [->|].
    - rewrite drop_ge by (cbn; lia). destruct Hk as (a&Ha&->&_). rewrite Hl1 in Ha. injection Ha as ->.
      destruct (e_id a) as [|c l] eqn:Ea; [done|]. destruct (walk_fuel s); cbn [collect]; by rewrite bool_decide_true.
    - rewrite (collect_path s (x1 :: p1') anc k Hs Hc1 HF1 Hk (length p1') eo) by (done || lia).
      f_equal. f_equal. apply (slice_all (x1 :: p1') k). cbn. lia. }
  unfold collectEntriesForBranchSummary. destruct (e_id eo) as [|c0 l0] eqn:Eo; [done|]. rewrite <-Eo in *.
  rewrite Hb1, Hb2. cbn [mbind option_bind]. unfold common_ancestor.
  pose proof (last_filter (λ e, e_id e ∈ (e_id <$> p1)) p2) as Hlf.
  destruct (last (filter _ p2)) as [a|].
  - destruct Hlf as (q1&q2&->&Ha&Hq2). apply list_elem_of_fmap in Ha as (a1&Hida&(k&Hk)%list_elem_of_lookup).
    destruct (chain_agree s p1 (q1 ++ a :: q2) Hs Hc1 Hc2 HF1 HF2 k (length q1) a1 a Hk
      ltac:(by rewrite lookup_app_r, Nat.sub_diag by lia) ltac:(done)) as [-> Htake].
    assert (a1 = a) as ->.
    { rewrite Forall_forall in HF1, HF2. eapply entries_inj; [done|eapply HF1, list_elem_of_lookup_2; done|
        apply HF2, elem_of_app; right; by left|done]. }
    exists p1, (q1 ++ a :: q2), (take (S (length q1)) p1), (drop (S (length q1)) p1).
    cbn [fmap option_fmap option_map]. rewrite (Hcol (Some (e_id a)) (S (length q1))); [|by exists a|apply lookup_lt_Some in Hk; lia].
    cbn [mbind option_bind]. rewrite reverse_involutive. split_and!; [done|done| |by rewrite take_drop| |].
    + rewrite (take_S_r p1 (length q1) a Hk), last_snoc. done.
    + rewrite Htake. apply prefix_take.
    + intros x (m&Hm)%list_elem_of_lookup Hx2. rewrite lookup_drop in Hm. apply list_elem_of_lookup in Hx2 as [m2 Hm2].
      destruct (chain_agree s p1 (q1 ++ a :: q2) Hs Hc1 Hc2 HF1 HF2 _ _ x x Hm Hm2 eq_refl) as [<- _].
      rewrite Forall_forall in Hq2. apply (Hq2 x).
      * rewrite lookup_app_r in Hm2 by lia. replace (S (length q1) + m - length q1)%nat with (S m) in Hm2 by lia.
        by eapply list_elem_of_lookup_2.
      * apply list_elem_of_fmap. exists x. split; [done|]. by eapply list_elem_of_lookup_2.
  - exists p1, p2, [], p1. cbn [fmap option_fmap option_map]. rewrite (Hcol None O); [|done|lia]. cbn. rewrite reverse_involutive.
    split_and!; [done|done|done|done|apply prefix_nil|]. intros x Hx Hx2. rewrite Forall_forall in Hlf.
    apply (Hlf x Hx2). apply list_elem_of_fmap. by exists x.
Qed.

Definition demo_branches : SM := Eval vm_compute in
  run_ops [OpMessage (demo_user (js "a")); OpMessage (demo_user (js "b"));
           OpBranch (replicate 8 0); OpMessage (demo_user (js "c"))] (demo_start []).

Lemma collectEntries_spec_witness :
  ∃ eo et p1 p2 common entries,
    getBranch demo_branches (Some (e_id eo)) = Some p1 ∧ getBranch demo_branches (Some (e_id et)) = Some p2 ∧
    collectEntriesForBranchSummary demo_branches (Some (e_id eo)) (e_id et) = Some (entries, e_id <$> last common) ∧
    p1 = common ++ entries ∧ common `prefix_of` p2.
Proof.
  assert (Hs : inv demo_branches).
  { assert (demo_branches = run_ops [OpMessage (demo_user (js "a")); OpMessage (demo_user (js "b"));
      OpBranch (replicate 8 0); OpMessage (demo_user (js "c"))] (demo_start [])) as -> by (vm_compute; reflexivity).
    apply inv_run_ops. split; [split|]; cbn; [by apply wf_entries_header|done|intros m _; apply not_elem_of_nil]. }
  destruct (sm_fileEntries demo_branches !! 2%nat) as [[h|eo]|] eqn:E2; [discriminate E2| |discriminate E2].
  destruct (sm_fileEntries demo_branches !! 3%nat) as [[h|et]|] eqn:E3; [discriminate E3| |discriminate E3].
  exists eo, et.
  destruct (collectEntries_spec demo_branches eo et Hs (list_elem_of_lookup_2 _ _ _ E2) (list_elem_of_lookup_2 _ _ _ E3))
    as (p1&p2&common&entries&H1&H2&H3&H4&H5&_).
  exists p1, p2, common, entries. split_and!; [exact H1|exact H2|exact H3|exact H4|exact H5].
Defined.

(** *** The budget of a branch summary *)

Definition total_tokens (l : list AgentMessage) : Z := sum_Z (estimateTokens <$> l).

#[local] Arguments total_tokens : simpl never.
Lemma total_tokens_cons m l : total_tokens (m :: l) = estimateTokens m + total_tokens l.
Proof. done. Qed.

Lemma take_budget_spec budget es : ∀ acc, bp_totalTokens acc = total_tokens (bp_messages acc) →
  (0 < budget → bp_totalTokens acc <= budget) →
  let r := take_budget budget es acc in
  bp_totalTokens r = total_tokens (bp_messages r) ∧
  (∃ k, bp_messages r = k ++ bp_messages acc ∧ k `suffix_of` reverse (omap getMessageFromEntryForBranch es)) ∧
  (budget <= 0 → bp_messages r = reverse (omap getMessageFromEntryForBranch es) ++ bp_messages acc) ∧
  (0 < budget → bp_totalTokens r <= budget ∨
    ∃ m rest, bp_messages r = m :: rest ∧ 10 * total_tokens rest < 9 * budget).
Proof.
  induction es as [|e es IH]; intros acc Hacc Hle; cbn [take_budget].
  { split_and!; [done|by exists []|done|auto]. }
  cbn [omap list_omap]. destruct (getMessageFromEntryForBranch e) as [m|]; [|by apply IH].
  destruct ((0 <? budget) && _) eqn:E.
  - apply andb_true_iff in E as [Hb%Z.ltb_lt Hover%Z.ltb_lt].
    destruct (is_summary_entry e && (10 * bp_totalTokens acc <? 9 * budget)) eqn:Es;
      cbn [bp_messages bp_totalTokens].
    + apply andb_true_iff in Es as [_ Hs%Z.ltb_lt]. split_and!; [|exists [m]; split; [done|]|lia|].
      * rewrite Hacc, total_tokens_cons. lia.
      * rewrite reverse_cons. by apply suffix_app_r.
      * intros _. right. exists m, (bp_messages acc). split; [done|]. by rewrite <-Hacc.
    + split_and!; [done|exists []; split; [done|apply suffix_nil]|lia|]. intros _. left. by apply Hle.
  - set (added := MkBranchPreparation _ _ _).
    destruct (IH added) as (H1&(k&H2&H3)&H4&H5).
    + cbn. rewrite Hacc, total_tokens_cons. lia.
    + cbn. intros Hb. apply andb_false_iff in E as [E|E]; [apply Z.ltb_ge in E; lia|by apply Z.ltb_ge in E].
    + split_and!; [done| | |done].
      * exists (k ++ [m]). rewrite H2, <-app_assoc. split; [done|]. rewrite reverse_cons. by apply suffix_app.
      * intros Hb. rewrite (H4 Hb), reverse_cons, <-app_assoc. done.
Qed.

(** The messages prepared for a branch summary are the newest messages of
    the branch, in order and without gaps, and their estimate is reported.
    Without a budget all are included; with one the estimate stays within it,
    except that an oldest message that is itself a summary may exceed it when
    the others use less than nine tenths. *)
Theorem prepareBranchEntries_budget entries budget :
  let p := prepareBranchEntries entries budget in
  bp_totalTokens p = total_tokens (bp_messages p) ∧
  bp_messages p `suffix_of` omap getMessageFromEntryForBranch entries ∧
  (budget <= 0 → bp_messages p = omap getMessageFromEntryForBranch entries) ∧
  (0 < budget → bp_totalTokens p <= budget ∨
    ∃ m rest, bp_messages p = m :: rest ∧ 10 * total_tokens rest < 9 * budget).
Proof.
  assert (Hrev : reverse (omap getMessageFromEntryForBranch (reverse entries)) = omap getMessageFromEntryForBranch entries).
  { induction entries as [|e l IH]; [done|]. rewrite reverse_cons, omap_app, reverse_app, IH. cbn.
    by destruct (getMessageFromEntryForBranch e). }
  unfold prepareBranchEntries.
  destruct (take_budget_spec budget (reverse entries) (MkBranchPreparation [] (foldl summary_ops createFileOps entries) 0))
    as (H1&(k&H2&H3)&H4&H5); [done|cbn; intros; lia|].
  rewrite Hrev in *. cbn [bp_messages] in *. rewrite app_nil_r in *.
  split_and!; [done|by rewrite H2|done|done].
Qed.

(** ** Estimates *)

(** The context estimate is the reported usage of the last assistant
    message that was neither aborted nor failed, plus the estimates of exactly
    the messages after it; without such a message it is the estimate of all. *)
Theorem estimateContextTokens_spec messages :
  let r := estimateContextTokens messages in
  cu_tokens r = cu_usageTokens r + cu_trailingTokens r ∧ 0 <= cu_trailingTokens r ∧
  match cu_lastUsageIndex r with
  | None => Forall (λ m, getAssistantUsage m = None) messages ∧ cu_usageTokens r = 0 ∧
      cu_trailingTokens r = total_tokens messages
  | Some i => ∃ m u, messages !! i = Some m ∧ getAssistantUsage m = Some u ∧
      cu_usageTokens r = calculateContextTokens u ∧
      Forall (λ m, getAssistantUsage m = None) (drop (S i) messages) ∧
      cu_trailingTokens r = total_tokens (drop (S i) messages)
  end.
Proof.
  assert (Hlast : ∀ l i, match last_usage i l with
    | None => Forall (λ m, getAssistantUsage m = None) l
    | Some (u, j) => ∃ m, (i <= j)%nat ∧ l !! (j - i)%nat = Some m ∧ getAssistantUsage m = Some u ∧
        Forall (λ m, getAssistantUsage m = None) (drop (S (j - i)) l)
    end).
  { induction l as [|m l IH]; intros i; cbn [last_usage]; [constructor|]. specialize (IH (S i)).
    destruct (last_usage (S i) l) as [[u j]|].
    - destruct IH as (m'&Hij&Hm&Hu&Hf). exists m'. replace (j - i)%nat with (S (j - S i)) by lia.
      split_and!; [lia|done|done|done].
    - destruct (getAssistantUsage m) as [u|] eqn:Eu; [|by constructor]. exists m. rewrite Nat.sub_diag. by split_and!. }
  assert (Hn : ∀ l, 0 <= total_tokens l) by (intros l; apply sum_Z_nonneg, estimateTokens_nonneg).
  unfold estimateContextTokens, getLastAssistantUsageInfo. specialize (Hlast messages 0%nat).
  destruct (last_usage 0 messages) as [[u j]|]; cbn.
  - destruct Hlast as (m&_&Hm&Hu&Hf). rewrite Nat.sub_0_r in *. split_and!; [done|apply Hn|]. exists m, u. by split_and!.
  - split_and!; [lia|apply Hn|done|done|done].
Qed.

(** ** Two defects *)

Definition with_previous (s : option jsstr) (p : CompactionPreparation) : CompactionPreparation :=
  MkPreparation (pr_firstKeptEntryId p) (pr_messagesToSummarize p) (pr_turnPrefixMessages p) (pr_isSplitTurn p)
    (pr_tokensBefore p) s (pr_fileOps p) (pr_settings p).

Definition text_entry (id : string) (parent : option jsstr) (m : AgentMessage) : SessionEntry :=
  MkSessionEntry (js id) parent 0 (BMessage m).

Definition long_text : jsstr := js "twelve chars".

(** A compaction whose first kept entry starts a turn, and that turn goes on. *)
Definition second_in_turn : list SessionEntry :=
  [text_entry "u1" None (demo_user (js "goal"));
   text_entry "a1" (Some (js "u1")) (demo_assistant long_text);
   text_entry "u2" (Some (js "a1")) (demo_user (js "go on"));
   text_entry "a2" (Some (js "u2")) (demo_assistant long_text);
   MkSessionEntry (js "c1") (Some (js "a2")) 0
     (BCompaction (MkCompactionEntry (js "SUMMARY") (js "u2") 100 None None None None None));
   text_entry "a3" (Some (js "c1")) (demo_assistant long_text)].

(** A second compaction within the turn that the first one kept from its
    start forgets the first summary: the preparation carries the previous
    summary, but neither the requests to the model nor the new summary depend
    on it, so everything before that turn disappears from the context. *)
Theorem split_turn_drops_previous_summary :
  ∃ p, prepareCompaction second_in_turn (MkCompactionSettings true 100 2) = Some (Some p) ∧
    pr_previousSummary p = Some (js "SUMMARY") ∧
    ∀ complete prefixFirst customInstructions s,
      compact complete prefixFirst p customInstructions = compact complete prefixFirst (with_previous s p) customInstructions.
Proof.
  eexists. split; [vm_compute; reflexivity|]. split; [reflexivity|]. intros. reflexivity.
Qed.

(** Two finished turns, then one that ends with a large tool result. *)
Definition large_result : list SessionEntry :=
  [text_entry "u1" None (demo_user (js "goal"));
   text_entry "a1" (Some (js "u1")) (demo_assistant long_text);
   text_entry "u2" (Some (js "a1")) (demo_user (js "go on"));
   text_entry "a2" (Some (js "u2")) (demo_assistant long_text);
   text_entry "r2" (Some (js "a2"))
     (MToolResult (MkToolResultMessage (js "c") (js "read") [TextBlock long_text] None false 0))].

(** When the tool results after the last possible cut alone reach the
    number of tokens to keep, no cut is found near the budget and the cut falls
    back to the very beginning: the transcript keeps all of its messages and
    preparation refuses, although it exceeds the budget several times. *)
Theorem large_result_prevents_compaction :
  prepareCompaction large_result (MkCompactionSettings true 100 3) = Some None ∧
  cp_firstKeptEntryIndex (findCutPoint large_result 0 5 3) = 0%nat ∧ 3 * 3 < msg_tokens large_result ∧
  ∃ p, prepareCompaction large_result (MkCompactionSettings true 100 4) = Some (Some p) ∧
    pr_firstKeptEntryId p = js "a2".
Proof.
  split; [vm_compute; reflexivity|]. split; [vm_compute; reflexivity|]. split; [vm_compute; reflexivity|].
  eexists. split; vm_compute; reflexivity.
Qed.

(** ** Witnesses *)

Lemma findCutPoint_spec_witness :
  (0 < 5 <= length large_result)%nat ∧
  ∃ e, large_result !! cp_firstKeptEntryIndex (findCutPoint large_result 0 5 4) = Some e ∧ is_tool_result e = false.
Proof.
  split; [split; [lia|cbn; lia]|].
  destruct (findCutPoint_spec large_result 0 5 4) as (_&H&_); [split; [lia|cbn; lia]|lia|].
  apply H. vm_compute. discriminate.
Defined.

Definition demo_preparation : CompactionPreparation := Eval vm_compute in
  match prepare second_in_turn (MkCompactionSettings true 100 2) 7 with
  | Some p => p
  | None => MkPreparation [] [] [] false 0 None createFileOps DEFAULT_COMPACTION_SETTINGS
  end.
Definition demo_compaction : CompactionEntry :=
  MkCompactionEntry (js "NEW") (pr_firstKeptEntryId demo_preparation) 7 None None None None None.
Definition demo_compaction_entry : SessionEntry :=
  MkSessionEntry (js "c2") (Some (js "a3")) 1 (BCompaction demo_compaction).

