(* ===== verification/StdinBuffer.v ===== *)
(** * Input sequences of the terminal

    Models [tui/src/stdin-buffer.ts]: the buffer that cuts what the terminal
    sends into keys and escape sequences, however the operating system cut it
    into chunks, and that keeps pasted text together.

    A call returns the new state and the events it emitted, in order.  The timer
    is a flag: [onTimeout] is what runs when it fires.  [process] calls itself on
    what follows a paste, so it takes fuel; [nothing_stuck] in [StdinBufferSpec]
    shows that the fuel it starts with is enough. *)

From S2P Require Import Prelude.
From S2P Require Import JsString.
From S2P Require Import JsSearch.
From S2P Require Import JsRegex.

Definition ESC : Z := 27.
Definition BRACKETED_PASTE_START : jsstr := ESC :: js "[200~".
Definition BRACKETED_PASTE_END : jsstr := ESC :: js "[201~".

(** ** Complete sequences *)

Inductive Status := complete | incomplete | not_escape.

#[export] Instance Status_eq_dec : EqDecision Status.
Proof. solve_decision. Defined.

(** [/^<\d+;\d+;\d+[Mm]$/] *)
Definition mouse_re : re :=
  seqs [lit (js "<"); plus digit; lit (js ";"); plus digit; lit (js ";"); plus digit; one_of (js "Mm")].

(** [/^\d+$/] *)
Definition digits_re : re := plus digit.

Definition isCompleteCsiSequence (data : jsstr) : Status :=
  if negb (is_prefix (ESC :: js "[") data) then complete else
  if (length data <? 3)%nat then incomplete else
  let payload := drop 2 data in
  let lastChar := default 0 (last payload) in
  if (0x40 <=? lastChar) && (lastChar <=? 0x7e) then
    if is_prefix (js "<") payload then
      if matches mouse_re payload then complete
      else if bool_decide (lastChar ∈ js "Mm") then
        let parts := js_split 59 (removelast (drop 1 payload)) in
        if (length parts =? 3)%nat && forallb (matches digits_re) parts then complete else incomplete
      else incomplete
    else complete
  else incomplete.

Definition isCompleteOscSequence (data : jsstr) : Status :=
  if negb (is_prefix (ESC :: js "]") data) then complete else
  if ends_with [ESC; 92] data || ends_with [7] data then complete else incomplete.

Definition isCompleteDcsSequence (data : jsstr) : Status :=
  if negb (is_prefix (ESC :: js "P") data) then complete else
  if ends_with [ESC; 92] data then complete else incomplete.

Definition isCompleteApcSequence (data : jsstr) : Status :=
  if negb (is_prefix (ESC :: js "_") data) then complete else
  if ends_with [ESC; 92] data then complete else incomplete.

Definition isCompleteSequence (data : jsstr) : Status :=
  if negb (is_prefix [ESC] data) then not_escape else
  if (length data =? 1)%nat then incomplete else
  let afterEsc := drop 1 data in
  if is_prefix (js "[") afterEsc then
    if is_prefix (js "[M") afterEsc then if (6 <=? length data)%nat then complete else incomplete
    else isCompleteCsiSequence data
  else if is_prefix (js "]") afterEsc then isCompleteOscSequence data
  else if is_prefix (js "P") afterEsc then isCompleteDcsSequence data
  else if is_prefix (js "_") afterEsc then isCompleteApcSequence data
  else if is_prefix (js "O") afterEsc then if (2 <=? length afterEsc)%nat then complete else incomplete
  else complete.

(** An escape, a bracket, digits (the group), a colon with any digits or none,
    a colon with digits or none, and [u] *)
Definition kitty_re : re :=
  seqs [lit (ESC :: js "["); plus digit; opt (Seq (chr 58) (Star digit)); opt (Seq (chr 58) (plus digit)); chr 117].

Fixpoint leading_digits (s : jsstr) : jsstr :=
  match s with c :: s => if is_digit c then c :: leading_digits s else [] | [] => [] end.

(** The group of a match is the digits after the bracket. *)
Definition parseUnmodifiedKittyPrintableCodepoint (sequence : jsstr) : option Z :=
  if matches kitty_re sequence then
    let codepoint := digits_value (leading_digits (drop 2 sequence)) in
    if 32 <=? codepoint then Some codepoint else None
  else None.

(** The loop over [seqEnd]; [None] is running past the end. *)
Fixpoint seq_end (steps : nat) (remaining : jsstr) (seqEnd : nat) : option nat :=
  match steps with
  | O => None
  | S steps =>
      match isCompleteSequence (take seqEnd remaining) with
      | incomplete => seq_end steps remaining (S seqEnd)
      | complete | not_escape => Some seqEnd
      end
  end.

(** The loop over [pos], [remaining] from it; the fuel is the length of the text. *)
Fixpoint extract_loop (fuel : nat) (remaining : jsstr) : list jsstr * jsstr :=
  match fuel, remaining with
  | _, [] => ([], [])
  | O, _ => ([], remaining)
  | S fuel, c :: rest =>
      if c =? ESC then
        match seq_end (length remaining) remaining 1 with
        | Some n => let '(sequences, remainder) := extract_loop fuel (drop n remaining) in (take n remaining :: sequences, remainder)
        | None => ([], remaining)
        end
      else let '(sequences, remainder) := extract_loop fuel rest in ([c] :: sequences, remainder)
  end.

Definition extractCompleteSequences (buffer : jsstr) : list jsstr * jsstr := extract_loop (length buffer) buffer.

(** ** The buffer *)

Record StdinBuffer := MkBuffer {
  buffer : jsstr;
  timeout : bool;
  pasteMode : bool;
  pasteBuffer : jsstr;
  pendingKittyPrintableCodepoint : option Z }.

Definition newStdinBuffer : StdinBuffer := MkBuffer [] false false [] None.

Inductive Event := Data (sequence : jsstr) | Paste (content : jsstr).

Definition set_timeout (t : bool) (s : StdinBuffer) : StdinBuffer :=
  MkBuffer (buffer s) t (pasteMode s) (pasteBuffer s) (pendingKittyPrintableCodepoint s).
Definition set_buffer (b : jsstr) (s : StdinBuffer) : StdinBuffer :=
  MkBuffer b (timeout s) (pasteMode s) (pasteBuffer s) (pendingKittyPrintableCodepoint s).
Definition set_paste (m : bool) (p : jsstr) (s : StdinBuffer) : StdinBuffer :=
  MkBuffer (buffer s) (timeout s) m p (pendingKittyPrintableCodepoint s).
Definition set_pending (k : option Z) (s : StdinBuffer) : StdinBuffer :=
  MkBuffer (buffer s) (timeout s) (pasteMode s) (pasteBuffer s) k.

(** [sequence.length === 1 ? sequence.codePointAt(0) : undefined] *)
Definition rawCodepoint (sequence : jsstr) : option Z := match sequence with [c] => Some c | _ => None end.

Definition emitDataSequence (sequence : jsstr) (s : StdinBuffer) : StdinBuffer * list Event :=
  if bool_decide (is_Some (rawCodepoint sequence) ∧ rawCodepoint sequence = pendingKittyPrintableCodepoint s)
  then (set_pending None s, [])
  else (set_pending (parseUnmodifiedKittyPrintableCodepoint sequence) s, [Data sequence]).

(** [for (const sequence of sequences) this.emitDataSequence(sequence)] *)
Fixpoint emit_all (sequences : list jsstr) (s : StdinBuffer) : StdinBuffer * list Event :=
  match sequences with
  | [] => (s, [])
  | q :: sequences =>
      let '(s, e1) := emitDataSequence q s in
      let '(s, e2) := emit_all sequences s in
      (s, e1 ++ e2)
  end.

(** What was read from the terminal *)
Inductive Input := Text (text : jsstr) | Bytes (bytes : list Z).

Definition input_text (data : Input) : jsstr :=
  match data with
  | Text text => text
  | Bytes bytes => match bytes with [b] => if 127 <? b then [ESC; b - 128] else utf8_decode bytes | _ => utf8_decode bytes end
  end.

(** The marker that closes a paste is searched in what was pasted so far. *)
Definition paste_end (process : jsstr → StdinBuffer → option (StdinBuffer * list Event)) (s : StdinBuffer) : option (StdinBuffer * list Event) :=
  match index_of BRACKETED_PASTE_END (pasteBuffer s) with
  | Some endIndex =>
      let pastedContent := take endIndex (pasteBuffer s) in
      let remaining := drop (endIndex + length BRACKETED_PASTE_END) (pasteBuffer s) in
      let s := set_pending None (set_paste false [] s) in
      match remaining with
      | [] => Some (s, [Paste pastedContent])
      | _ => '(s, events) ← process remaining s; Some (s, Paste pastedContent :: events)
      end
  | None => Some (s, [])
  end.

Definition process_body (process : jsstr → StdinBuffer → option (StdinBuffer * list Event)) (str : jsstr) (s : StdinBuffer) : option (StdinBuffer * list Event) :=
  let s := set_timeout false s in
  if (length str =? 0)%nat && (length (buffer s) =? 0)%nat then Some (emitDataSequence [] s) else
  let s := set_buffer (buffer s ++ str) s in
  if pasteMode s then
    let s := set_buffer [] (set_paste true (pasteBuffer s ++ buffer s) s) in
    paste_end process s
  else
  match index_of BRACKETED_PASTE_START (buffer s) with
  | Some startIndex =>
      let '(s, before) :=
        if (0 <? startIndex)%nat then emit_all (extractCompleteSequences (take startIndex (buffer s))).1 s else (s, []) in
      let s := set_pending None s in
      let s := set_buffer (drop (startIndex + length BRACKETED_PASTE_START) (buffer s)) s in
      let s := set_buffer [] (set_paste true (buffer s) s) in
      '(s, events) ← paste_end process s; Some (s, before ++ events)
  | None =>
      let '(sequences, remainder) := extractCompleteSequences (buffer s) in
      let '(s, events) := emit_all sequences (set_buffer remainder s) in
      Some (if (0 <? length (buffer s))%nat then set_timeout true s else s, events)
  end.

Fixpoint process_text (fuel : nat) (str : jsstr) (s : StdinBuffer) : option (StdinBuffer * list Event) :=
  match fuel with
  | O => None
  | S fuel => process_body (process_text fuel) str s
  end.

(** The text a call has before it *)
Definition size (str : jsstr) (s : StdinBuffer) : nat := length (pasteBuffer s) + length (buffer s) + length str.

Definition process (data : Input) (s : StdinBuffer) : option (StdinBuffer * list Event) :=
  let str := input_text data in process_text (S (size str s)) str s.

Definition flush (s : StdinBuffer) : StdinBuffer * list jsstr :=
  let s := set_timeout false s in
  if (length (buffer s) =? 0)%nat then (s, []) else
  (set_pending None (set_buffer [] s), [buffer s]).

(** The timer fires. *)
Definition onTimeout (s : StdinBuffer) : StdinBuffer * list Event :=
  let '(s, flushed) := flush s in emit_all flushed s.

Definition clear (s : StdinBuffer) : StdinBuffer := MkBuffer [] false false [] None.

Definition getBuffer (s : StdinBuffer) : jsstr := buffer s.

Definition destroy (s : StdinBuffer) : StdinBuffer := clear s.

(** The chunks of a stream, one after the other, before any timer fires *)
Fixpoint process_all (chunks : list Input) (s : StdinBuffer) : option (StdinBuffer * list Event) :=
  match chunks with
  | [] => Some (s, [])
  | data :: chunks =>
      '(s, e1) ← process data s;
      '(s, e2) ← process_all chunks s;
      Some (s, e1 ++ e2)
  end.

Example mouse_in_chunks :
  snd <$> process_all (Text <$> [[ESC]; js "[<35"; js ";20;5m"]) newStdinBuffer = Some [Data (ESC :: js "[<35;20;5m")].
Proof. vm_compute. reflexivity. Qed.

Example kitty_duplicate :
  snd <$> process_all (Text <$> [ESC :: js "[97u"; js "ab"]) newStdinBuffer = Some [Data (ESC :: js "[97u"); Data (js "b")].
Proof. vm_compute. reflexivity. Qed.

Example paste_between :
  snd <$> process_all (Text <$> [js "a" ++ BRACKETED_PASTE_START ++ js "x"; js "y" ++ BRACKETED_PASTE_END ++ js "b"]) newStdinBuffer =
  Some [Data (js "a"); Paste (js "xy"); Data (js "b")].
Proof. vm_compute. reflexivity. Qed.
