(* ===== verification/StdinBufferSpec.v ===== *)
(** * Theorems about the input of the terminal

    However the terminal's input is cut into chunks, the same keys, sequences
    and pastes come out ([chunks_of_input]), as [stream] describes them: the
    shortest complete sequences one after the other, pasted text whole.  A
    buffer never holds text without a timer that will release it, but for a
    paste that goes on ([nothing_stuck]). *)

From S2P Require Import Prelude.
From S2P Require Import JsString.
From S2P Require Import JsSearch.
From S2P Require Import StdinBuffer.

(** ** Cutting a text into sequences *)

(** A sequence that ends where it is first complete *)
Definition whole (a : jsstr) : Prop :=
  head a = Some ESC ∧ isCompleteSequence a = complete ∧
  ∀ n, (1 <= n < length a)%nat → isCompleteSequence (take n a) = incomplete.

(** The beginning of a sequence that is not complete *)
Definition held (a : jsstr) : Prop :=
  head a = Some ESC ∧ ∀ n, (1 <= n <= length a)%nat → isCompleteSequence (take n a) = incomplete.

(** [splits text sequences remainder] *)
Inductive splits : jsstr → list jsstr → jsstr → Prop :=
  | splits_nil : splits [] [] []
  | splits_char c text q r : c ≠ ESC → splits text q r → splits (c :: text) ([c] :: q) r
  | splits_whole a text q r : whole a → splits text q r → splits (a ++ text) (a :: q) r
  | splits_held a : held a → splits a [] a.

Lemma escape_status c s : isCompleteSequence (c :: s) = not_escape → c ≠ ESC.
Proof.
  intros H ->. revert H. unfold isCompleteSequence, isCompleteCsiSequence, isCompleteOscSequence, isCompleteDcsSequence, isCompleteApcSequence.
  cbn [is_prefix negb andb]. rewrite Z.eqb_refl. cbn [negb andb]. intros H. repeat case_match; done.
Qed.

Lemma seq_end_spec steps s n m :
  seq_end steps s n = m → (length s = n + steps - 1)%nat → (1 <= n)%nat →
  match m with
  | Some k => (n <= k <= length s)%nat ∧ isCompleteSequence (take k s) ≠ incomplete ∧ ∀ i, (n <= i < k)%nat → isCompleteSequence (take i s) = incomplete
  | None => ∀ i, (n <= i <= length s)%nat → isCompleteSequence (take i s) = incomplete
  end.
Proof.
  revert n. induction steps as [|steps IH]; intros n; cbn; [intros <-; intros; lia|].
  assert (∀ k, (n <= length s)%nat → isCompleteSequence (take n s) ≠ incomplete → k = n →
    (n <= k <= length s)%nat ∧ isCompleteSequence (take k s) ≠ incomplete ∧ ∀ i, (n <= i < k)%nat → isCompleteSequence (take i s) = incomplete) as Hhere.
  { intros k Hn Hc ->. split_and!; [lia|lia|done|intros; lia]. }
  intros Hm Hl Hn. destruct (isCompleteSequence (take n s)) eqn:E; [subst; apply Hhere; [lia|congruence|done]| |subst; apply Hhere; [lia|congruence|done]].
  specialize (IH (S n) Hm). destruct m as [k|].
  - destruct IH as (?&?&Hi); [lia..|]. split_and!; [lia|lia|done|]. intros i Hi'.
    destruct (decide (i = n)) as [->|]; [done|apply Hi; lia].
  - intros i Hi. destruct (decide (i = n)) as [->|]; [done|apply IH; lia].
Qed.

Lemma extract_loop_splits fuel s q r : (length s <= fuel)%nat → extract_loop fuel s = (q, r) → splits s q r.
Proof.
  revert s q. induction fuel as [|fuel IH]; intros [|c s] q Hl; cbn [extract_loop]; try (by intros [= <- <-]; constructor); [cbn in Hl; lia|].
  destruct (Z.eqb_spec c ESC) as [->|Hc].
  - pose proof (seq_end_spec (length (ESC :: s)) (ESC :: s) 1 _ eq_refl) as Hs.
    destruct (seq_end _ _ 1) as [n|].
    + destruct Hs as (Hn&Hc&Hi); [cbn; lia..|]. destruct (extract_loop fuel (drop n (ESC :: s))) as [q' r'] eqn:E.
      intros [= <- <-]. apply IH in E; [|rewrite length_drop; cbn in *; lia].
      rewrite <-(take_drop n (ESC :: s)) at 1. constructor; [|done]. destruct n as [|n]; [lia|]. split_and!; [done| |].
      * cbn [take] in *. destruct (isCompleteSequence (ESC :: take n s)) eqn:Es; [done..|].
        by apply escape_status in Es.
      * intros m Hm. rewrite take_take. rewrite length_take in Hm. rewrite Nat.min_l by lia. apply Hi. lia.
    + intros [= <- <-]. constructor. split; [done|]. intros n Hn. apply Hs; cbn in *; lia.
  - destruct (extract_loop fuel s) as [q' r'] eqn:E. intros [= <- <-]. constructor; [done|]. apply IH; [cbn in *; lia|done].
Qed.

Lemma extract_splits s : splits s (extractCompleteSequences s).1 (extractCompleteSequences s).2.
Proof. eapply extract_loop_splits; [done|apply surjective_pairing]. Qed.

Lemma whole_cons a : whole a → ∃ b, a = ESC :: b.
Proof. intros [Hh _]. destruct a as [|c b]; [done|]. injection Hh as ->. by exists b. Qed.

Lemma held_cons a : held a → ∃ b, a = ESC :: b.
Proof. intros [Hh _]. destruct a as [|c b]; [done|]. injection Hh as ->. by exists b. Qed.

Lemma take_of_prefix (a s b t : jsstr) : a ++ s = b ++ t → (length a <= length b)%nat → take (length a) b = a.
Proof.
  intros Ht Hl. apply (f_equal (λ l, take (length a) l)) in Ht; cbv beta in Ht. rewrite take_app_length in Ht.
  rewrite take_app_le in Ht; [by symmetry|done].
Qed.

Lemma whole_first a s b t : whole a → whole b → a ++ s = b ++ t → a = b ∧ s = t.
Proof.
  intros Ha Hb Ht. assert (length a = length b) as Hl.
  { destruct (Nat.lt_trichotomy (length a) (length b)) as [Hl|[Hl|Hl]]; [exfalso|done|exfalso].
    - pose proof (take_of_prefix _ _ _ _ Ht ltac:(lia)) as Hp. destruct Hb as (_&_&Hi).
      destruct Ha as (Hh&Hc&_). specialize (Hi (length a)). rewrite Hp in Hi.
      destruct a; [done|]. rewrite Hi in Hc; [done|cbn in *; lia].
    - pose proof (take_of_prefix _ _ _ _ (eq_sym Ht) ltac:(lia)) as Hp. destruct Ha as (_&_&Hi).
      destruct Hb as (Hh&Hc&_). specialize (Hi (length b)). rewrite Hp in Hi.
      destruct b; [done|]. rewrite Hi in Hc; [done|cbn in *; lia]. }
  by apply app_inj_1 in Ht.
Qed.

Lemma whole_not_held a s : whole a → held (a ++ s) → False.
Proof.
  intros (Hh&Hc&_) [_ Hi]. specialize (Hi (length a)). rewrite take_app_length, Hc in Hi.
  destruct a; [done|]. rewrite length_app in Hi. cbn in Hi. discriminate Hi. lia.
Qed.

(** A text is cut in one way. *)
Lemma splits_det s q r q' r' : splits s q r → splits s q' r' → q = q' ∧ r = r'.
Proof.
  intros H. revert q' r'. induction H as [|c s q r Hc _ IH|a s q r Ha _ IH|a Ha]; intros q' r' H'.
  - inversion H' as [| |a s q r Ha|]; [done| |done].
    destruct (whole_cons _ Ha) as [b ->]. done.
  - inversion H' as [|c' s' q1 r1 ? H1|a s' q1 r1 Ha ? Hs|a Ha]; subst.
    + by destruct (IH _ _ H1) as [-> ->].
    + destruct (whole_cons _ Ha) as [b ->]. injection Hs as <- _. done.
    + by destruct (held_cons _ Ha) as [b [= ->]].
  - destruct (whole_cons _ Ha) as [b Hb]. inversion H' as [Hs|c' s' q1 r1 ? H1 Hs|a' s' q1 r1 Ha' H1 Hs|a' Ha' Hs]; subst.
    + done.
    + injection Hs as ->. done.
    + destruct (whole_first _ _ _ _ Ha' Ha Hs) as [-> ->]. by destruct (IH _ _ H1) as [-> ->].
    + by destruct (whole_not_held _ _ Ha Ha').
  - destruct (held_cons _ Ha) as [b Hb]. inversion H' as [Hs|c' s' q1 r1 ? H1 Hs|a' s' q1 r1 Ha' H1 Hs|]; subst.
    + done.
    + injection Hs as ->. done.
    + rewrite <-Hs in Ha. by destruct (whole_not_held _ _ Ha' Ha).
    + done.
Qed.

(** The text goes on. *)
Lemma splits_app s t q r q' r' : splits s q r → splits (r ++ t) q' r' → splits (s ++ t) (q ++ q') r'.
Proof.
  intros H. revert q' r'. induction H as [|c s q r Hc _ IH|a s q r Ha _ IH|a Ha]; intros q' r' H'; [done|..|done].
  - cbn. constructor; auto.
  - rewrite <-(assoc_L _). cbn. constructor; auto.
Qed.

Lemma splits_held_inv s q r : splits s q r → r = [] ∨ held r.
Proof. induction 1; auto. Qed.

Lemma splits_concat s q r : splits s q r → s = concat q ++ r.
Proof. induction 1; cbn; rewrite <-?(assoc_L _); congruence. Qed.

Lemma splits_rest s q r : splits s q r → splits r [] r.
Proof. intros [-> | H]%splits_held_inv; by constructor. Qed.

Lemma extract_det s q r : splits s q r → extractCompleteSequences s = (q, r).
Proof.
  intros H. destruct (splits_det _ _ _ _ _ H (extract_splits s)) as [-> ->]. apply surjective_pairing.
Qed.

(** ** The events of a text

    A printable key that the terminal reported as a sequence is followed by its
    character, if the terminal sends that as well; the character is left out. *)

Definition repeats (k : option Z) (q : jsstr) : bool := bool_decide (is_Some (rawCodepoint q) ∧ rawCodepoint q = k).

Fixpoint keys (k : option Z) (qs : list jsstr) : list Event :=
  match qs with
  | [] => []
  | q :: qs => if repeats k q then keys None qs else Data q :: keys (parseUnmodifiedKittyPrintableCodepoint q) qs
  end.

Fixpoint after (k : option Z) (qs : list jsstr) : option Z :=
  match qs with
  | [] => k
  | q :: qs => after (if repeats k q then None else parseUnmodifiedKittyPrintableCodepoint q) qs
  end.

Lemma keys_app k q q' : keys k (q ++ q') = keys k q ++ keys (after k q) q'.
Proof. revert k. induction q as [|a q IH]; intros k; cbn; [done|]. case_match; cbn; by rewrite IH. Qed.

Lemma after_app k q q' : after k (q ++ q') = after (after k q) q'.
Proof. revert k. induction q as [|a q IH]; intros k; cbn; [done|]. by rewrite IH. Qed.

Lemma emit_all_keys q s :
  emit_all q s = (set_pending (after (pendingKittyPrintableCodepoint s) q) s, keys (pendingKittyPrintableCodepoint s) q).
Proof.
  revert s. induction q as [|a q IH]; intros s; cbn; [by destruct s|].
  unfold emitDataSequence, repeats. destruct (bool_decide _); rewrite IH; by destruct s.
Qed.

(** The states of the buffer: text that is held back with its timer, or a paste
    that goes on. *)
Definition typing (r : jsstr) (k : option Z) : StdinBuffer := MkBuffer r (0 <? length r)%nat false [] k.
Definition pasting (p : jsstr) : StdinBuffer := MkBuffer [] false true p None.

(** [stream k text events s]: the events of a text that follows the pending
    code point [k] and the state it leaves. *)
Inductive stream : option Z → jsstr → list Event → StdinBuffer → Prop :=
  | stream_typed k t q r : ¬ occurs BRACKETED_PASTE_START t → splits t q r → stream k t (keys k q) (typing r (after k q))
  | stream_paste k t q p events s :
      ¬ occurs BRACKETED_PASTE_START t → splits t q [] → pasted p events s →
      stream k (t ++ BRACKETED_PASTE_START ++ p) (keys k q ++ events) s
with pasted : jsstr → list Event → StdinBuffer → Prop :=
  | pasted_open p : ¬ occurs BRACKETED_PASTE_END p → pasted p [] (pasting p)
  | pasted_closed p u events s :
      ¬ occurs BRACKETED_PASTE_END p → stream None u events s →
      pasted (p ++ BRACKETED_PASTE_END ++ u) (Paste p :: events) s.

(** What a state makes of the rest of the input *)
Inductive expects : StdinBuffer → jsstr → list Event → StdinBuffer → Prop :=
  | expects_typing r k rest events s :
      splits r [] r → stream k (r ++ rest) events s → expects (typing r k) rest events s
  | expects_pasting p rest events s : ¬ occurs BRACKETED_PASTE_END p → pasted (p ++ rest) events s → expects (pasting p) rest events s.

Lemma stream_inv k T events s : stream k T events s →
  (∃ q r, ¬ occurs BRACKETED_PASTE_START T ∧ splits T q r ∧ events = keys k q ∧ s = typing r (after k q)) ∨
  (∃ t q p ev, T = t ++ BRACKETED_PASTE_START ++ p ∧ ¬ occurs BRACKETED_PASTE_START t ∧ splits t q [] ∧ pasted p ev s ∧ events = keys k q ++ ev).
Proof. destruct 1; [left|right]; naive_solver. Qed.

Lemma pasted_inv P events s : pasted P events s →
  (¬ occurs BRACKETED_PASTE_END P ∧ events = [] ∧ s = pasting P) ∨
  (∃ p u ev, P = p ++ BRACKETED_PASTE_END ++ u ∧ ¬ occurs BRACKETED_PASTE_END p ∧ stream None u ev s ∧ events = Paste p :: ev).
Proof. destruct 1; [left|right]; naive_solver. Qed.

Lemma START_first a b : ¬ occurs BRACKETED_PASTE_START a → index_of BRACKETED_PASTE_START (a ++ BRACKETED_PASTE_START ++ b) = Some (length a).
Proof. intros Ha. apply index_of_first; [|done]. apply (bool_decide_unpack _). vm_compute. done. Qed.

Lemma END_first a b : ¬ occurs BRACKETED_PASTE_END a → index_of BRACKETED_PASTE_END (a ++ BRACKETED_PASTE_END ++ b) = Some (length a).
Proof. intros Ha. apply index_of_first; [|done]. apply (bool_decide_unpack _). vm_compute. done. Qed.

Definition heldb (a : jsstr) : bool :=
  bool_decide (head a = Some ESC) && forallb (λ n, bool_decide (isCompleteSequence (take n a) = incomplete)) (seq 1 (length a)).

Lemma heldb_held a : heldb a = true → held a.
Proof.
  intros [Hh Hf]%andb_true_iff. split; [by apply bool_decide_eq_true in Hh|]. intros n Hn.
  rewrite forallb_forall in Hf. specialize (Hf n). rewrite in_seq, bool_decide_eq_true in Hf. apply Hf. lia.
Qed.

(** The beginning of an opening marker is held back. *)
Lemma START_held (x y : jsstr) : BRACKETED_PASTE_START = x ++ y → x ≠ [] → y ≠ [] → held x.
Proof.
  intros H Hx Hy. assert (x = take (length x) BRACKETED_PASTE_START) as -> by (by rewrite H, take_app_length).
  assert (length x < 6)%nat as Hlt.
  { apply (f_equal length) in H. rewrite length_app in H. destruct y; [done|]. cbn in *. lia. }
  assert (length x ≠ 0)%nat as Hn by (by destruct x). apply heldb_held. clear H Hx Hy.
  generalize dependent (length x). intros n Hlt Hn.
  do 6 (destruct n as [|n]; [done || (vm_compute; reflexivity)|]). lia.
Qed.

(** ** One step *)

(** Where the text goes on after a first part that is cut into [q] and held back
    as [r], if an opening marker follows. *)
Lemma cut_before_paste t q s u q1 r :
  ¬ occurs BRACKETED_PASTE_START t → splits t q [] → splits s q1 r → s ++ u = t ++ BRACKETED_PASTE_START →
  u ≠ [] →
  ∃ t' q2, r ++ u = t' ++ BRACKETED_PASTE_START ∧ t = concat q1 ++ t' ∧ splits t' q2 [] ∧ q = q1 ++ q2.
Proof.
  intros Ht Hq Hs Hu Hne. apply app_eq_inv in Hu as [(k&->&Hk)|(k&->&Hk)].
  - destruct k as [|c k].
    + rewrite app_nil_r in Hs. destruct (splits_det _ _ _ _ _ Hq Hs) as [-> <-]. exists [], []. cbn in *. subst u.
      split_and!; [done| |constructor|by rewrite app_nil_r].
      rewrite app_nil_r. apply splits_concat in Hs. by rewrite Hs, app_nil_r at 1.
    + assert (held (c :: k)) as Hh by (by eapply START_held).
      pose proof (splits_app _ (c :: k) _ _ [] (c :: k) Hq (splits_held _ Hh)) as H. rewrite app_nil_r in H.
      destruct (splits_det _ _ _ _ _ H Hs) as [-> <-]. exists [], [].
      split_and!; [by rewrite Hk| |constructor|by rewrite app_nil_r]. apply splits_concat in Hq. by rewrite Hq, !app_nil_r at 1.
  - subst u. exists (r ++ k), (extractCompleteSequences (r ++ k)).1.
    pose proof (extract_splits (r ++ k)) as He. pose proof (splits_app _ _ _ _ _ _ Hs He) as H.
    destruct (splits_det _ _ _ _ _ Hq H) as [-> Hr]. rewrite <-Hr in He.
    split_and!; [by rewrite (assoc_L _)| |done|done]. apply splits_concat in Hs. rewrite Hs at 1. by rewrite <-(assoc_L _).
Qed.

(** [proc] does what is expected of it for a text [x]. *)
Definition delivers (proc : jsstr → StdinBuffer → option (StdinBuffer * list Event)) (x : jsstr) (s : StdinBuffer) : Prop :=
  ∀ rest events fin, expects s (x ++ rest) events fin →
  ∃ s1 e1 e2, proc x s = Some (s1, e1) ∧ events = e1 ++ e2 ∧ expects s1 rest e2 fin.

Lemma index_of_between p a b i : index_of p (a ++ b) = Some i → (i + length p <= length a)%nat → index_of p a = Some i.
Proof.
  intros Hi Hl. pose proof (index_of_Some _ _ _ Hi) as (a'&b'&Hs&<-). rewrite (assoc_L _) in Hs.
  assert (occurs p a) as Ho.
  { apply app_eq_inv in Hs as [(k&->&_)|(k&Hk&_)]; [exists a', k; by rewrite (assoc_L _)|].
    exists a', []. apply (f_equal length) in Hk as Hlk. rewrite !length_app in Hlk. destruct k; [|cbn in *; lia].
    by rewrite app_nil_r in *. }
  apply index_of_is_Some in Ho as [j Hj]. by rewrite (index_of_app _ _ b _ Hj) in Hi; simplify_eq.
Qed.

(** A marker that is found once more text is there is found in the text so far,
    or not at all. *)
Lemma index_of_now p a b i : index_of p (a ++ b) = Some i →
  if decide (i + length p <= length a)%nat then index_of p a = Some i else index_of p a = None.
Proof.
  intros Hi. case_decide as Hl; [by eapply index_of_between|]. destruct (index_of p a) as [j|] eqn:Hj; [|done].
  exfalso. rewrite (index_of_app _ _ b _ Hj) in Hi. injection Hi as ->.
  destruct (index_of_Some _ _ _ Hj) as (a'&b'&->&<-). rewrite !length_app in Hl. lia.
Qed.

Lemma paste_step proc p :
  (∀ u, (length u < length p)%nat → u ≠ [] → delivers proc u (typing [] None)) →
  ∀ rest events fin, pasted (p ++ rest) events fin →
  ∃ s1 e1 e2, paste_end proc (pasting p) = Some (s1, e1) ∧ events = e1 ++ e2 ∧ expects s1 rest e2 fin.
Proof.
  intros IH rest events fin Hp. destruct (pasted_inv _ _ _ Hp) as [(Ho&->&->)|(q&u&ev&Hq&Ho&Hu&->)].
  - exists (pasting p), [], []. unfold paste_end. cbn [pasteBuffer pasting].
    assert (¬ occurs BRACKETED_PASTE_END p) as Hp' by (intros H; by apply Ho, occurs_app_l).
    rewrite (proj2 (index_of_None _ _) Hp'). split_and!; [done|done|]. by constructor.
  - pose proof (END_first q u Ho) as Hi. rewrite <-Hq in Hi. pose proof (index_of_now _ _ _ _ Hi) as Hn.
    unfold paste_end. cbn [pasteBuffer pasting]. case_decide as Hl; rewrite Hn.
    + rewrite (assoc_L _ q) in Hq. assert (∃ u0, p = q ++ BRACKETED_PASTE_END ++ u0 ∧ u = u0 ++ rest) as (u0&->&->).
      { apply app_eq_inv in Hq as [(k&->&->)|(k&Hk&->)]; [exists k; by rewrite (assoc_L _)|].
        exists []. apply (f_equal length) in Hk as Hlk. rewrite !length_app in Hlk.
        destruct k; [|cbn in *; lia]. rewrite app_nil_r in *. by rewrite Hk. }
      rewrite take_app_length, <-drop_drop, drop_app_length, drop_app_length.
      destruct u0 as [|c u0].
      * exists (typing [] None), [Paste q], ev. split_and!; [done|done|]. constructor; [constructor|done].
      * destruct (IH (c :: u0) ltac:(rewrite !length_app; cbn; lia) ltac:(done) rest ev fin) as (s1&e1&e2&Hr&->&He).
        { constructor; [constructor|done]. }
        exists s1, (Paste q :: e1), e2. split_and!; [|done|done].
        change (set_pending None _) with (typing [] None). by rewrite Hr.
    + exists (pasting p), [], (Paste q :: ev). split_and!; [done|done|]. constructor; [by apply index_of_None|done].
Qed.

Lemma process_body_typing proc x r k : x ≠ [] ∨ r ≠ [] →
  process_body proc x (typing r k) =
  match index_of BRACKETED_PASTE_START (r ++ x) with
  | Some i =>
      '(s, events) ← paste_end proc (pasting (drop (i + length BRACKETED_PASTE_START) (r ++ x)));
      Some (s, keys k (extractCompleteSequences (take i (r ++ x))).1 ++ events)
  | None =>
      let '(q, r') := extractCompleteSequences (r ++ x) in Some (typing r' (after k q), keys k q)
  end.
Proof.
  intros Hx. unfold process_body. replace (_ && _) with false by (destruct x, r; naive_solver).
  cbn [typing set_timeout set_buffer buffer pasteMode].
  destruct (index_of _ _) as [i|].
  - destruct i as [|i]; cbn [Nat.ltb Nat.leb]; [done|]. rewrite emit_all_keys. done.
  - destruct (extractCompleteSequences _) as [q r']. rewrite emit_all_keys.
    unfold typing. cbn [buffer set_pending set_buffer]. destruct (0 <? length r')%nat eqn:E; cbn; rewrite ?E; done.
Qed.

Lemma process_body_pasting proc x p : x ≠ [] → process_body proc x (pasting p) = paste_end proc (pasting (p ++ x)).
Proof. intros Hx. by destruct x. Qed.

Lemma typed_step proc x r k q rest r' :
  x ≠ [] → splits r [] r → ¬ occurs BRACKETED_PASTE_START (r ++ x ++ rest) → splits (r ++ x ++ rest) q r' →
  ∃ s1 e1 e2, process_body proc x (typing r k) = Some (s1, e1) ∧ keys k q = e1 ++ e2 ∧ expects s1 rest e2 (typing r' (after k q)).
Proof.
  intros Hx Hr Ho Hq. rewrite process_body_typing by auto. rewrite (assoc_L _) in Ho, Hq.
  assert (index_of BRACKETED_PASTE_START (r ++ x) = None) as -> by (apply index_of_None; intros H; by apply Ho, occurs_app_l).
  pose proof (extract_splits (r ++ x)) as He. destruct (extractCompleteSequences (r ++ x)) as [q1 r1]. cbn in He.
  pose proof (extract_splits (r1 ++ rest)) as He2. destruct (extractCompleteSequences (r1 ++ rest)) as [q2 r2]. cbn in He2.
  destruct (splits_det _ _ _ _ _ Hq (splits_app _ _ _ _ _ _ He He2)) as [-> ->].
  eexists _, _, (keys (after k q1) q2). split_and!; [done|apply keys_app|]. rewrite after_app.
  constructor; [by eapply splits_rest|]. constructor; [|done]. intros H. apply Ho.
  rewrite (splits_concat _ _ _ He), <-(assoc_L _). by apply occurs_app_r.
Qed.

Lemma process_step fuel x s : (size x s < fuel)%nat → x ≠ [] → delivers (process_text fuel) x s.
Proof.
  revert x s. induction fuel as [|fuel IH]; intros x s Hs Hx rest events fin He; [lia|].
  assert (∀ p, (length p <= size x s)%nat → ∀ rest events fin, pasted (p ++ rest) events fin →
    ∃ s1 e1 e2, paste_end (process_text fuel) (pasting p) = Some (s1, e1) ∧ events = e1 ++ e2 ∧ expects s1 rest e2 fin) as Hpaste.
  { intros p Hp. apply paste_step. intros u Hu Hne. apply IH; [unfold size in *; cbn; lia|done]. }
  cbn [process_text]. inversion He as [r k rest' ev s' Hr Hst|p rest' ev s' _ Hp]; subst.
  - destruct (stream_inv _ _ _ _ Hst) as [(q&r'&Ho&Hq&->&->)|(t&q&p&ev&HT&Ho&Hq&Hp&->)]; [by apply typed_step|].
    pose proof (START_first t p Ho) as Hi. rewrite <-HT, (assoc_L _) in Hi. pose proof (index_of_now _ _ _ _ Hi) as Hn.
    rewrite process_body_typing by auto. case_decide as Hl; rewrite Hn.
    + rewrite (assoc_L _ r), (assoc_L _ t) in HT.
      assert (∃ p0, r ++ x = t ++ BRACKETED_PASTE_START ++ p0 ∧ p = p0 ++ rest) as (p0&Hrx&->).
      { apply app_eq_inv in HT as [(k'&->&->)|(k'&Hk&->)]; [exists k'; by rewrite (assoc_L _)|].
        exists []. apply (f_equal length) in Hk as Hlk. rewrite !length_app in Hl. rewrite length_app, (length_app _ k'), (length_app r) in Hlk.
        destruct k'; [|cbn [length] in *; lia]. rewrite app_nil_r in *. by rewrite Hk. }
      rewrite Hrx, take_app_length, <-drop_drop, drop_app_length, drop_app_length, (extract_det _ _ _ Hq).
      destruct (Hpaste p0) with (rest := rest) (events := ev) (fin := fin) as (s1&e1&e2&Hr1&->&He2); [|done|].
      { apply (f_equal length) in Hrx. rewrite !length_app in Hrx. unfold size. cbn. lia. }
      rewrite Hr1. eexists _, _, e2. split_and!; [done|by rewrite (assoc_L _)|done].
    + pose proof (extract_splits (r ++ x)) as Hx1. destruct (extractCompleteSequences (r ++ x)) as [q1 r1]. cbn in Hx1.
      rewrite (assoc_L _ r), (assoc_L _ t) in HT.
      assert (∃ u, (r ++ x) ++ u = t ++ BRACKETED_PASTE_START ∧ u ≠ [] ∧ rest = u ++ p) as (u&Hu&Hne&->).
      { apply app_eq_inv in HT as [(k'&Hk&->)|(k'&Hk&->)].
        - rewrite Hk, !length_app in Hl. lia.
        - exists k'. split_and!; [done| |done]. intros ->. rewrite app_nil_r in Hk. rewrite <-Hk, length_app in Hl. lia. }
      destruct (cut_before_paste _ _ _ _ _ _ Ho Hq Hx1 Hu Hne) as (t'&q2&Ht'&->&Hq2&->).
      eexists _, _, (keys (after k q1) q2 ++ ev). split_and!; [done|by rewrite keys_app, <-(assoc_L _)|].
      constructor; [by eapply splits_rest|]. rewrite (assoc_L _), Ht', <-(assoc_L _). constructor; [|done..].
      intros H. by apply Ho, occurs_app_r.
  - rewrite process_body_pasting by done. rewrite (assoc_L _) in Hp. eapply Hpaste; [|done]. rewrite length_app. unfold size. cbn. lia.
Qed.

(** ** All of the input *)

Lemma START_whole : whole BRACKETED_PASTE_START.
Proof.
  split_and!; [done|vm_compute; reflexivity|]. intros n Hn.
  do 6 (destruct n as [|n]; [lia || (vm_compute; reflexivity)|]). cbn in Hn. lia.
Qed.

Lemma expects_end s events fin : expects s [] events fin → events = [] ∧ fin = s.
Proof.
  inversion 1 as [r k rest ev s' Hr Hst|p rest ev s' Ho Hp]; subst; rewrite app_nil_r in *.
  - destruct (stream_inv _ _ _ _ Hst) as [(q&r'&_&Hq&->&->)|(t&q&p&ev&->&_&Hq&_)].
    + by destruct (splits_det _ _ _ _ _ Hq Hr) as [-> ->].
    + exfalso. pose proof (splits_whole _ _ _ _ START_whole (extract_splits p)) as Hs.
      pose proof (splits_app _ _ _ _ _ _ Hq Hs) as Hs'. destruct (splits_det _ _ _ _ _ Hr Hs') as [Hn _].
      by destruct q.
  - destruct (pasted_inv _ _ _ Hp) as [(_&->&->)|(q&u&ev&->&_)]; [done|]. destruct Ho. by exists q, u.
Qed.

Lemma process_all_expects inputs s events fin :
  Forall (λ d, input_text d ≠ []) inputs → expects s (concat (input_text <$> inputs)) events fin →
  process_all inputs s = Some (fin, events).
Proof.
  intros Hne. revert s events. induction Hne as [|d inputs Hd _ IH]; intros s events He.
  - by apply expects_end in He as [-> ->].
  - cbn in He. destruct (process_step (S (size (input_text d) s)) _ s (Nat.lt_succ_diag_r _) Hd _ _ _ He) as (s1&e1&e2&Hp&->&He').
    cbn [process_all]. unfold process. rewrite Hp. cbn. by rewrite (IH _ _ He').
Qed.

(** C29: [equivalence] However the input is cut into chunks, the buffer emits the
    events of the whole text: the shortest complete sequences one after the
    other, without the character that repeats a key, and every paste whole and
    once; and it is left with what the end of the text leaves open.  The chunks
    are not empty, no timer fires between them, and the sequences before a
    paste are complete, as [stream] says. *)
Theorem chunks_of_input inputs events s :
  Forall (λ d, input_text d ≠ []) inputs → stream None (concat (input_text <$> inputs)) events s →
  process_all inputs newStdinBuffer = Some (s, events).
Proof.
  intros Hne Hs. apply process_all_expects; [done|].
  change newStdinBuffer with (typing [] None). constructor; [constructor|done].
Qed.

(** ** Nothing is stuck *)

(** A state holds an incomplete sequence back with its timer set, or a paste that
    is not closed, or nothing. *)
Inductive releasable : StdinBuffer → Prop :=
  | releasable_typing r k :
      r = [] ∨ held r → ¬ occurs BRACKETED_PASTE_START r → releasable (typing r k)
  | releasable_pasting p : ¬ occurs BRACKETED_PASTE_END p → releasable (pasting p).

Inductive Op := OpProcess (data : Input) | OpTimer | OpFlush | OpClear.

Definition run_op (op : Op) (s : StdinBuffer) : option (StdinBuffer * list Event) :=
  match op with
  | OpProcess data => process data s
  | OpTimer => Some (if timeout s then onTimeout s else (s, []))
  | OpFlush => Some ((flush s).1, [])
  | OpClear => Some (clear s, [])
  end.

Fixpoint run_ops (ops : list Op) (s : StdinBuffer) : option (StdinBuffer * list Event) :=
  match ops with
  | [] => Some (s, [])
  | op :: ops => '(s, e1) ← run_op op s; '(s, e2) ← run_ops ops s; Some (s, e1 ++ e2)
  end.

Definition keeps (proc : jsstr → StdinBuffer → option (StdinBuffer * list Event)) (x : jsstr) (s : StdinBuffer) : Prop :=
  releasable s → ∃ s' e, proc x s = Some (s', e) ∧ releasable s'.

Lemma releasable_new k : releasable (typing [] k).
Proof. constructor; [by left|]. by intros ([|]&?&?). Qed.

Lemma paste_end_keeps proc p :
  (∀ u, (length u < length p)%nat → keeps proc u (typing [] None)) →
  ∃ s e, paste_end proc (pasting p) = Some (s, e) ∧ releasable s.
Proof.
  intros IH. unfold paste_end. cbn [pasteBuffer pasting]. destruct (index_of BRACKETED_PASTE_END p) as [i|] eqn:Hi.
  - change (set_pending None _) with (typing [] None).
    destruct (drop _ p) as [|c u] eqn:Hu; [eexists _, _; split; [done|apply releasable_new]|].
    destruct (IH (c :: u)) as (s&e&->&Hs); [|apply releasable_new|by eexists _, _].
    rewrite <-Hu, length_drop. apply index_of_cut, (f_equal length) in Hi.
    rewrite !length_app, length_take, length_drop in Hi. cbn in *. lia.
  - eexists _, _. split; [done|]. constructor. by apply index_of_None.
Qed.

Lemma process_text_keeps fuel x s : (size x s < fuel)%nat → keeps (process_text fuel) x s.
Proof.
  revert x s. induction fuel as [|fuel IH]; intros x s Hs Hr; [lia|]. cbn [process_text].
  assert (∀ p, (length p <= size x s)%nat → ∃ s e, paste_end (process_text fuel) (pasting p) = Some (s, e) ∧ releasable s) as Hpaste.
  { intros p Hp. apply paste_end_keeps. intros u Hu. apply IH. unfold size in *. cbn. lia. }
  destruct Hr as [r k Hr Ho|p Ho].
  - destruct (decide (x = [] ∧ r = [])) as [[-> ->]|Hne]; [eexists _, _; split; [done|apply releasable_new]|].
    rewrite process_body_typing by (destruct x, r; naive_solver).
    destruct (index_of BRACKETED_PASTE_START (r ++ x)) as [i|] eqn:Hi.
    + destruct (Hpaste (drop (i + length BRACKETED_PASTE_START) (r ++ x))) as (s&e&->&Hs'); [|by eexists _, _].
      rewrite length_drop, length_app. unfold size. cbn. lia.
    + pose proof (extract_splits (r ++ x)) as He. destruct (extractCompleteSequences (r ++ x)) as [q r']. cbn in He.
      eexists _, _. split; [done|]. constructor; [by eapply splits_held_inv|]. intros H.
      apply index_of_None in Hi. apply Hi. rewrite (splits_concat _ _ _ He). by apply occurs_app_r.
  - destruct (decide (x = [])) as [->|Hne]; [eexists _, _; split; [done|by constructor]|].
    rewrite process_body_pasting by done. apply Hpaste. rewrite length_app. unfold size. cbn. lia.
Qed.

Lemma run_op_keeps op s : releasable s → ∃ s' e, run_op op s = Some (s', e) ∧ releasable s'.
Proof.
  intros Hs. destruct op as [d| | |]; cbn [run_op].
  - apply process_text_keeps; [lia|done].
  - destruct Hs as [r k Hr Ho|p Ho]; [|eexists _, _; split; [done|by constructor]].
    eexists _, _. split; [f_equal; apply surjective_pairing|]. destruct r as [|c r]; cbn [timeout typing length Nat.ltb Nat.leb]; [apply releasable_new|].
    unfold onTimeout, flush. cbn [buffer typing set_timeout length Nat.eqb]. rewrite emit_all_keys. cbn [fst]. apply releasable_new.
  - eexists _, _. split; [done|]. destruct Hs as [r k Hr Ho|p Ho]; [|by constructor].
    destruct r; cbn; apply releasable_new.
  - eexists _, _. split; [done|]. apply releasable_new.
Qed.

(** C30: [invariant] After any reads, timers, flushes and clears the buffer has
    returned and holds text in one of two ways: the beginning of a sequence, with
    the timer set that will release it, or a paste whose end has not come. *)
Theorem nothing_stuck ops : ∃ s events, run_ops ops newStdinBuffer = Some (s, events) ∧ releasable s.
Proof.
  assert (∀ s, releasable s → ∃ s' events, run_ops ops s = Some (s', events) ∧ releasable s') as H.
  { induction ops as [|op ops IH]; intros s Hs; [by eexists _, _|]. cbn [run_ops].
    destruct (run_op_keeps op s Hs) as (s1&e1&->&Hs1). destruct (IH _ Hs1) as (s2&e2&Hr&Hs2).
    cbn. rewrite Hr. by eexists _, _. }
  apply H, releasable_new.
Qed.

Lemma splits_of s q r : extractCompleteSequences s = (q, r) → splits s q r.
Proof. intros H. pose proof (extract_splits s) as Hs. by rewrite H in Hs. Qed.

Lemma not_in p s : index_of p s = None → ¬ occurs p s.
Proof. apply index_of_None. Qed.

Definition sample_inputs : list Input :=
  [Text (js "a" ++ [ESC]); Text (js "[97u"); Text (js "a" ++ [ESC]); Text (js "[20"); Text (js "0~x" ++ [ESC]);
   Bytes (js "[201~" ++ [ESC])].

Lemma chunks_of_input_witness :
  ∃ events s, process_all sample_inputs newStdinBuffer = Some (s, events) ∧
  events = [Data (js "a"); Data (ESC :: js "[97u"); Paste (js "x")] ∧ timeout s = true.
Proof.
  eexists _, _. split; [|split; [reflexivity|]].
  - apply (chunks_of_input sample_inputs).
    + repeat constructor; vm_compute; discriminate.
    + change (concat _) with ((js "a" ++ ESC :: js "[97u" ++ js "a") ++ BRACKETED_PASTE_START ++ js "x" ++ BRACKETED_PASTE_END ++ [ESC]).
      apply (stream_paste None _ [js "a"; ESC :: js "[97u"; js "a"] _ [Paste (js "x")]);
        [apply not_in; vm_compute; reflexivity|apply splits_of; vm_compute; reflexivity|].
      apply (pasted_closed _ _ []); [apply not_in; vm_compute; reflexivity|].
      apply (stream_typed None _ [] [ESC]); [apply not_in; vm_compute; reflexivity|apply splits_of; vm_compute; reflexivity].
  - reflexivity.
Defined.

(** A sequence that is incomplete when a paste begins is neither emitted nor
    kept: an escape key pressed right before a paste is lost. *)
Lemma held_before_paste_lost r k :
  held r → ¬ occurs BRACKETED_PASTE_START r →
  process (Text BRACKETED_PASTE_START) (typing r k) = Some (pasting [], []).
Proof.
  intros Hr Ho. unfold process. cbn [process_text]. rewrite process_body_typing by auto.
  pose proof (START_first r [] Ho) as Hi. rewrite app_nil_r in Hi. cbn [input_text]. rewrite Hi.
  rewrite take_app_length, <-drop_drop, drop_app_length, drop_all, (extract_det _ [] r) by (by constructor).
  reflexivity.
Qed.
