(* ===== verification/SemanticEdges.v ===== *)
(** * Semantic edges

    Models [coding-agent/src/core/semantic-edges.ts]: the recorder of one
    agent's model requests, down to the bytes of its ledger, and the fold that
    derives the edges between requests from one or more ledgers.

    The identifiers that [mintId] draws and the hashes of the bodies are
    arguments of the operations.  Any write may fail after any number of bytes;
    other writers of the same file are not modelled.  The source reads a line of
    a ledger without checking its fields: [event_of] gives the lines whose type
    is known and whose fields are texts, as the recorder writes them, their
    event, and passes over the others. *)

From S2P Require Import Prelude.
From S2P Require Import JsMap.
From S2P Require Import JsString.
From S2P Require Import Json.
From S2P Require Import JsonParse.
From S2P Require Import JsonlFile.

Definition SEMANTIC_EDGES_LEDGER_FILENAME : jsstr := js "semantic-edges.jsonl".
Definition MODEL_REQUEST_ID_HEADER : jsstr := js "X-ACP-Model-Request-ID".
Definition IDEMPOTENCY_KEY_HEADER : jsstr := js "Idempotency-Key".

(** [rlmSessionDir ?? sessionArtifactDir] *)
Definition semanticEdgeLedgerPath (join : jsstr → jsstr → jsstr) (rlmSessionDir sessionArtifactDir : option jsstr) : option jsstr :=
  match (match rlmSessionDir with Some dir => Some dir | None => sessionArtifactDir end) with
  | Some dir => if bool_decide (dir = []) then None else Some (join dir SEMANTIC_EDGES_LEDGER_FILENAME)
  | None => None
  end.

Definition modelRequestHeaders (requestId : jsstr) : list (jsstr * jsstr) :=
  [(MODEL_REQUEST_ID_HEADER, requestId); (IDEMPOTENCY_KEY_HEADER, requestId)].

(** The body of a turn, the fields without a value left out; [sha256_hex] is the
    hash of the library. *)
Definition hashTurnBody (sha256_hex : jsstr → jsstr) (provider model : jsstr) (systemPrompt : option jsstr) (messages : list json)
    (tools reasoning thinkingBudgets temperature maxTokens serviceTier : option json) : jsstr :=
  let given name (v : option json) : list (jsstr * json) := match v with Some v => [(js name, v)] | None => [] end in
  sha256_hex (stringify (JObj (
    [(js "provider", JStr provider); (js "model", JStr model)] ++ given "systemPrompt" (JStr <$> systemPrompt) ++
    [(js "messages", JArr messages)] ++ given "tools" tools ++ given "reasoning" reasoning ++
    given "thinkingBudgets" thinkingBudgets ++ given "temperature" temperature ++ given "maxTokens" maxTokens ++
    given "serviceTier" serviceTier))).

(** ** Events *)

Inductive CompactionStatus := Completed | Failed | Cancelled.

Inductive SemanticEdgeLedgerEvent :=
  | SessionRegistered (session_id : jsstr) (parent_session_id spawned_by_request_id : option jsstr)
  | RequestStarted (request_id session_id : jsstr) (compaction_id : option jsstr)
  | RequestFinished (request_id : jsstr)
  | RequestFailed (request_id : jsstr)
  | CompactionBegun (compaction_id session_id : jsstr)
  | CompactionFinished (compaction_id : jsstr) (status : CompactionStatus)
  | ChildReturned (session_id child_session_id request_id : jsstr).

Definition status_str (s : CompactionStatus) : jsstr :=
  match s with Completed => js "completed" | Failed => js "failed" | Cancelled => js "cancelled" end.

Definition field (name : string) (v : jsstr) : jsstr * json := (js name, JStr v).
Definition opt_field (name : string) (v : option jsstr) : list (jsstr * json) :=
  match v with Some v => [field name v] | None => [] end.

(** The object that is written, its fields in their order. *)
Definition event_json (e : SemanticEdgeLedgerEvent) : json :=
  JObj match e with
  | SessionRegistered s p r =>
      [field "type" (js "session_registered"); field "session_id" s] ++ opt_field "parent_session_id" p ++ opt_field "spawned_by_request_id" r
  | RequestStarted r s c => [field "type" (js "request_started"); field "request_id" r; field "session_id" s] ++ opt_field "compaction_id" c
  | RequestFinished r => [field "type" (js "request_finished"); field "request_id" r]
  | RequestFailed r => [field "type" (js "request_failed"); field "request_id" r]
  | CompactionBegun c s => [field "type" (js "compaction_begun"); field "compaction_id" c; field "session_id" s]
  | CompactionFinished c st => [field "type" (js "compaction_finished"); field "compaction_id" c; field "status" (status_str st)]
  | ChildReturned s c r =>
      [field "type" (js "child_returned"); field "session_id" s; field "child_session_id" c; field "request_id" r]
  end.

Definition text_field (fs : list (jsstr * json)) (name : string) : option jsstr :=
  match jm_get fs (js name) with Some (JStr v) => Some v | _ => None end.

Definition status_of (s : jsstr) : option CompactionStatus :=
  if bool_decide (s = js "completed") then Some Completed
  else if bool_decide (s = js "failed") then Some Failed
  else if bool_decide (s = js "cancelled") then Some Cancelled else None.

Definition event_of (j : json) : option SemanticEdgeLedgerEvent :=
  match j with
  | JObj fs =>
      let get := text_field fs in
      type ← get "type";
      if bool_decide (type = js "session_registered") then
        s ← get "session_id"; Some (SessionRegistered s (get "parent_session_id") (get "spawned_by_request_id"))
      else if bool_decide (type = js "request_started") then
        r ← get "request_id"; s ← get "session_id"; Some (RequestStarted r s (get "compaction_id"))
      else if bool_decide (type = js "request_finished") then r ← get "request_id"; Some (RequestFinished r)
      else if bool_decide (type = js "request_failed") then r ← get "request_id"; Some (RequestFailed r)
      else if bool_decide (type = js "compaction_begun") then
        c ← get "compaction_id"; s ← get "session_id"; Some (CompactionBegun c s)
      else if bool_decide (type = js "compaction_finished") then
        c ← get "compaction_id"; st ← get "status"; st ← status_of st; Some (CompactionFinished c st)
      else if bool_decide (type = js "child_returned") then
        s ← get "session_id"; c ← get "child_session_id"; r ← get "request_id"; Some (ChildReturned s c r)
      else None
  | _ => None
  end.

(** ** The fold *)

Inductive SemanticEdgeType := continuation | subagent_call | subagent_return | compaction.
#[export] Instance SemanticEdgeType_eq_dec : EqDecision SemanticEdgeType.
Proof. solve_decision. Defined.

Record SemanticEdge := MkEdge { source_request_id : jsstr; target_request_id : jsstr; edge_type : SemanticEdgeType }.

(** An edge without its target *)
Definition Inbound : Type := jsstr * SemanticEdgeType.

Record FoldSession := MkSession {
  spawnedByRequestId : option jsstr;
  spawnClaimed : bool;
  lastRequestId : option jsstr;
  pending : list Inbound }.

Record InFlight := MkInFlight { fl_sessionId : jsstr; fl_summary : bool; fl_inbound : list Inbound }.

Record FoldCompaction := MkCompaction { cp_sessionId : jsstr; summaryRequestIds : list jsstr }.

Record Fold := MkFold {
  sessions : list (jsstr * FoldSession);
  inFlight : list (jsstr * InFlight);
  compactions : list (jsstr * FoldCompaction);
  returnedChildren : list jsstr;
  edges : list SemanticEdge }.

Definition newFold : Fold := MkFold [] [] [] [] [].

Definition newSession : FoldSession := MkSession None false None [].

(** What [session(sessionId)] finds or creates; every caller stores it. *)
Definition session (sessionId : jsstr) (f : Fold) : FoldSession := default newSession (jm_get (sessions f) sessionId).

Definition set_session (sessionId : jsstr) (s : FoldSession) (f : Fold) : Fold :=
  MkFold (jm_set (sessions f) sessionId s) (inFlight f) (compactions f) (returnedChildren f) (edges f).
Definition set_inFlight (m : list (jsstr * InFlight)) (f : Fold) : Fold :=
  MkFold (sessions f) m (compactions f) (returnedChildren f) (edges f).
Definition set_compactions (m : list (jsstr * FoldCompaction)) (f : Fold) : Fold :=
  MkFold (sessions f) (inFlight f) m (returnedChildren f) (edges f).
Definition set_edges (es : list SemanticEdge) (f : Fold) : Fold :=
  MkFold (sessions f) (inFlight f) (compactions f) (returnedChildren f) es.

Definition set_pending (p : list Inbound) (s : FoldSession) : FoldSession :=
  MkSession (spawnedByRequestId s) (spawnClaimed s) (lastRequestId s) p.
Definition set_lastRequestId (r : jsstr) (s : FoldSession) : FoldSession :=
  MkSession (spawnedByRequestId s) (spawnClaimed s) (Some r) (pending s).

Definition edge_to (target : jsstr) (i : Inbound) : SemanticEdge := MkEdge i.1 target i.2.

(** A turn claims what is pending, and the spawn of its session once. *)
Definition claim (isSummary : bool) (s : FoldSession) : FoldSession * list Inbound :=
  if isSummary then (s, []) else
  match spawnClaimed s, spawnedByRequestId s with
  | false, Some r => (MkSession (spawnedByRequestId s) true (lastRequestId s) [], pending s ++ [(r, subagent_call)])
  | _, _ => (set_pending [] s, pending s)
  end.

(** It continues the last request, if nothing comes from there already. *)
Definition continue_last (s : FoldSession) (inbound : list Inbound) : list Inbound :=
  match lastRequestId s with
  | Some r => if existsb (λ i, bool_decide (i.1 = r)) inbound then inbound else inbound ++ [(r, continuation)]
  | None => inbound
  end.

Definition add_once (r : jsstr) (rs : list jsstr) : list jsstr := if bool_decide (r ∈ rs) then rs else rs ++ [r].

Definition request_started (request_id session_id : jsstr) (compaction_id : option jsstr) (f : Fold) : Fold :=
  let isSummary := bool_decide (is_Some compaction_id) in
  let '(state, inbound) := claim isSummary (session session_id f) in
  let inbound := continue_last state inbound in
  let f := set_session session_id state f in
  let f := set_inFlight (jm_set (inFlight f) request_id (MkInFlight session_id isSummary inbound)) f in
  match compaction_id with
  | Some c =>
      match jm_get (compactions f) c with
      | Some cp =>
          if bool_decide (cp_sessionId cp = session_id)
          then set_compactions (jm_set (compactions f) c (MkCompaction (cp_sessionId cp) (add_once request_id (summaryRequestIds cp)))) f
          else f
      | None => f
      end
  | None => f
  end.

Definition request_finished (request_id : jsstr) (f : Fold) : Fold :=
  match jm_get (inFlight f) request_id with
  | None => f
  | Some request =>
      let f := set_inFlight (jm_delete (inFlight f) request_id) f in
      let f := set_edges (edges f ++ (edge_to request_id <$> fl_inbound request)) f in
      set_session (fl_sessionId request) (set_lastRequestId request_id (session (fl_sessionId request) f)) f
  end.

Definition request_failed (request_id : jsstr) (f : Fold) : Fold :=
  match jm_get (inFlight f) request_id with
  | None => f
  | Some request =>
      let f := set_inFlight (jm_delete (inFlight f) request_id) f in
      if fl_summary request then f else
      let state := session (fl_sessionId request) f in
      set_session (fl_sessionId request) (set_pending (fl_inbound request ++ pending state) state) f
  end.

(** [findIndex] and [splice] of one element *)
Fixpoint remove_first {A} (P : A → bool) (l : list A) : list A :=
  match l with [] => [] | x :: l => if P x then l else x :: remove_first P l end.

Definition generated (source slice : jsstr) (e : SemanticEdge) : bool :=
  bool_decide (source_request_id e = source ∧ target_request_id e = slice ∧ edge_type e = continuation).

(** The values of [new Set(list)] *)
Definition set_of (l : list jsstr) : list jsstr := foldl (λ rs r, add_once r rs) [] l.

(** What is pending goes to the slice that was committed last. *)
Definition flush_pending (slice : jsstr) (pending : list Inbound) (es : list SemanticEdge) : list SemanticEdge :=
  foldl (λ es source, remove_first (generated source slice) es) es (set_of pending.*1) ++ (edge_to slice <$> pending).

Definition compaction_finished (compaction_id : jsstr) (status : CompactionStatus) (f : Fold) : Fold :=
  let found := jm_get (compactions f) compaction_id in
  let f := set_compactions (jm_delete (compactions f) compaction_id) f in
  match status, found with
  | Completed, Some cp =>
      let state := session (cp_sessionId cp) f in
      let f := set_session (cp_sessionId cp) state f in
      match lastRequestId state with
      | Some slice =>
          if bool_decide (slice ∈ summaryRequestIds cp) then
            let f := set_edges (flush_pending slice (pending state) (edges f)) f in
            set_session (cp_sessionId cp) (set_pending [(slice, compaction)] state) f
          else f
      | None => f
      end
  | _, _ => f
  end.

Definition child_returned (session_id child_session_id request_id : jsstr) (f : Fold) : Fold :=
  if bool_decide (child_session_id ∈ returnedChildren f) then f else
  let state := session session_id f in
  let f := set_session session_id (set_pending (pending state ++ [(request_id, subagent_return)]) state) f in
  MkFold (sessions f) (inFlight f) (compactions f) (returnedChildren f ++ [child_session_id]) (edges f).

Definition fold_event (f : Fold) (event : SemanticEdgeLedgerEvent) : Fold :=
  match event with
  | SessionRegistered s _ r => if jm_has (sessions f) s then f else set_session s (MkSession r false None []) f
  | RequestStarted r s c => request_started r s c f
  | RequestFinished r => request_finished r f
  | RequestFailed r => request_failed r f
  | CompactionBegun c s => set_compactions (jm_set (compactions f) c (MkCompaction s [])) f
  | CompactionFinished c st => compaction_finished c st f
  | ChildReturned s c r => child_returned s c r f
  end.

Definition deriveSemanticEdges (ledgers : list (list SemanticEdgeLedgerEvent)) : list SemanticEdge :=
  edges (foldl fold_event newFold (concat ledgers)).

(** ** The ledger *)

(** A line with its line feed, what follows, and whether it had one *)
Fixpoint cut_line (s : jsstr) : jsstr * jsstr * bool :=
  match s with
  | [] => ([], [], false)
  | c :: s => if c =? NL then ([c], s, true) else let '(line, rest, terminated) := cut_line s in (c :: line, rest, terminated)
  end.

(** Without the words of the parser *)
Definition corrupt (lineNumber : Z) : jsstr := js "corrupt semantic-edge ledger line " ++ js_of_Z lineNumber.

(** The loop from [offset], [rest] from there; the fuel is the length of the text. *)
Fixpoint parse_loop (fuel : nat) (rest : jsstr) (offset : nat) (lineNumber : Z) (events : list json) : result jsstr (list json * nat) :=
  match fuel, rest with
  | _, [] => Ok (events, offset)
  | O, _ => Ok (events, offset)
  | S fuel, _ =>
      let '(line, rest', terminated) := cut_line rest in
      if bool_decide (trim line = []) then parse_loop fuel rest' (offset + length line) (lineNumber + 1) events else
      match parse line with
      | Some event => parse_loop fuel rest' (offset + length line) (lineNumber + 1) (events ++ [event])
      | None => if negb terminated then Ok (events, offset) else Throw (corrupt (lineNumber + 1))
      end
  end.

(** The events and [validLength] *)
Definition parseLedgerContent (raw : jsstr) : result jsstr (list json * nat) := parse_loop (length raw) raw 0 0 [].

Definition readSemanticEdgeLedger (file : list Z) : result jsstr (list SemanticEdgeLedgerEvent) :=
  match parseLedgerContent (utf8_decode file) with Ok (events, _) => Ok (omap event_of events) | Throw e => Throw e end.

(** ** The recorder *)

Record Turn := MkTurn { t_requestId : jsstr; t_epoch : Z; t_bodyHash : option jsstr }.

Inductive Repair := TruncateTo (bytes : nat) | TerminateLine.

(** [hasLedger] is whether there is a path, [file] what is there. *)
Record SemanticEdgeRecorder := MkRecorder {
  sessionId : jsstr;
  hasLedger : bool;
  file : option (list Z);
  pendingRepair : option Repair;
  disabled : bool;
  epoch : Z;
  lastTurn : option Turn;
  parkedRetry : option Turn;
  lastCommittedRequestId : option jsstr;
  openCompactions : list jsstr }.

Definition set_file (x : option (list Z)) (s : SemanticEdgeRecorder) : SemanticEdgeRecorder :=
  MkRecorder (sessionId s) (hasLedger s) x (pendingRepair s) (disabled s) (epoch s) (lastTurn s) (parkedRetry s) (lastCommittedRequestId s) (openCompactions s).
Definition set_repair (x : option Repair) (s : SemanticEdgeRecorder) : SemanticEdgeRecorder :=
  MkRecorder (sessionId s) (hasLedger s) (file s) x (disabled s) (epoch s) (lastTurn s) (parkedRetry s) (lastCommittedRequestId s) (openCompactions s).
Definition _disable (s : SemanticEdgeRecorder) : SemanticEdgeRecorder :=
  MkRecorder (sessionId s) (hasLedger s) (file s) (pendingRepair s) true (epoch s) (lastTurn s) (parkedRetry s) (lastCommittedRequestId s) (openCompactions s).
Definition set_epoch (x : Z) (s : SemanticEdgeRecorder) : SemanticEdgeRecorder :=
  MkRecorder (sessionId s) (hasLedger s) (file s) (pendingRepair s) (disabled s) x (lastTurn s) (parkedRetry s) (lastCommittedRequestId s) (openCompactions s).
Definition set_lastTurn (x : option Turn) (s : SemanticEdgeRecorder) : SemanticEdgeRecorder :=
  MkRecorder (sessionId s) (hasLedger s) (file s) (pendingRepair s) (disabled s) (epoch s) x (parkedRetry s) (lastCommittedRequestId s) (openCompactions s).
Definition set_parkedRetry (x : option Turn) (s : SemanticEdgeRecorder) : SemanticEdgeRecorder :=
  MkRecorder (sessionId s) (hasLedger s) (file s) (pendingRepair s) (disabled s) (epoch s) (lastTurn s) x (lastCommittedRequestId s) (openCompactions s).
Definition set_lastCommitted (x : option jsstr) (s : SemanticEdgeRecorder) : SemanticEdgeRecorder :=
  MkRecorder (sessionId s) (hasLedger s) (file s) (pendingRepair s) (disabled s) (epoch s) (lastTurn s) (parkedRetry s) x (openCompactions s).
Definition set_openCompactions (x : list jsstr) (s : SemanticEdgeRecorder) : SemanticEdgeRecorder :=
  MkRecorder (sessionId s) (hasLedger s) (file s) (pendingRepair s) (disabled s) (epoch s) (lastTurn s) (parkedRetry s) (lastCommittedRequestId s) x.

Definition _replay (event : SemanticEdgeLedgerEvent) (s : SemanticEdgeRecorder) : SemanticEdgeRecorder :=
  match event with
  | RequestStarted r sid c =>
      if bool_decide (sid = sessionId s ∧ c = None) then set_lastTurn (Some (MkTurn r (epoch s) None)) s else s
  | RequestFinished r => set_lastCommitted (Some r) s
  | CompactionBegun c sid => if bool_decide (sid = sessionId s) then set_openCompactions (add_once c (openCompactions s)) s else s
  | CompactionFinished c status =>
      if bool_decide (c ∈ openCompactions s) then
        let s := set_openCompactions (filter (λ x, x ≠ c) (openCompactions s)) s in
        match status with Completed => set_epoch (epoch s + 1) s | _ => s end
      else s
  | _ => s
  end.

(** What becomes of an append: whether the directory could be made, whether the
    repair worked (a line feed that was to be appended may have been written all
    the same), and the number of bytes after which the write failed. *)
Record Outcome := MkOutcome { mkdir_ok : bool; repair_ok : bool; repair_wrote : bool; write_failed : option nat }.
Definition fine : Outcome := MkOutcome true true true None.

Definition repair_file (w : Outcome) (r : Repair) (bytes : list Z) : list Z :=
  match r with
  | TruncateTo n => if repair_ok w then take n bytes else bytes
  | TerminateLine => if repair_ok w || repair_wrote w then bytes ++ [NL] else bytes
  end.

(** The part that may throw: the state, and whether it came to its end. *)
Definition write_event (w : Outcome) (event : SemanticEdgeLedgerEvent) (s : SemanticEdgeRecorder) : SemanticEdgeRecorder * bool :=
  if negb (mkdir_ok w) then (s, false) else
  let repaired :=
    match pendingRepair s with
    | None => (s, true)
    | Some r =>
        let s := set_file (repair_file w r <$> file s) s in
        if repair_ok w then (set_repair None s, true) else (s, false)
    end in
  let s := repaired.1 in
  if negb repaired.2 then (s, false) else
  let payload := line_bytes (event_json event) in
  match write_failed w with
  | None => (set_file (Some (default [] (file s) ++ payload)) s, true)
  | Some n => (set_file (Some (default [] (file s) ++ take n payload)) s, false)
  end.

Definition _append (w : Outcome) (event : SemanticEdgeLedgerEvent) (s : SemanticEdgeRecorder) : SemanticEdgeRecorder * bool :=
  if disabled s then (s, false) else
  if hasLedger s then
    let '(s, written) := write_event w event s in
    if written then (_replay event s, true) else (_disable s, false)
  else (_replay event s, true).

(** The events and the repair that is put off *)
Definition _loadExisting (file : option (list Z)) : result jsstr (list SemanticEdgeLedgerEvent * option Repair) :=
  match file with
  | None => Ok ([], None)
  | Some bytes =>
      let raw := utf8_decode bytes in
      match parseLedgerContent raw with
      | Throw e => Throw e
      | Ok (events, validLength) =>
          let repair :=
            if (validLength <? length raw)%nat then Some (TruncateTo (Z.to_nat (byteLength (take validLength raw))))
            else if bool_decide (raw ≠ [] ∧ last raw ≠ Some NL) then Some TerminateLine else None in
          Ok (omap event_of events, repair)
      end
  end.

Definition registers (sid : jsstr) (e : SemanticEdgeLedgerEvent) : bool :=
  match e with SessionRegistered s _ _ => bool_decide (s = sid) | _ => false end.

Definition replay_all (events : list SemanticEdgeLedgerEvent) (s : SemanticEdgeRecorder) : SemanticEdgeRecorder :=
  foldl (λ s e, _replay e s) s events.

(** The constructor, over the file at the path *)
Definition newRecorder (w : Outcome) (sid : jsstr) (hasPath : bool) (existing : option (list Z)) (parent spawnedBy : option jsstr) : SemanticEdgeRecorder :=
  let s := MkRecorder sid hasPath existing None false 0 None None None [] in
  match (if hasPath then _loadExisting existing else Ok ([], None)) with
  | Throw _ => _disable s
  | Ok (events, repair) =>
      let s := set_repair repair s in
      if existsb (registers sid) events then replay_all events s
      else (_append w (SessionRegistered sid parent spawnedBy) s).1
  end.

Definition lastTurnRequestId (s : SemanticEdgeRecorder) : option jsstr := t_requestId <$> lastTurn s.

(** The identifier of the next turn; [minted] is what [mintId] returns. *)
Definition turnRequestId (minted : jsstr) (bodyHash : option jsstr) (s : SemanticEdgeRecorder) : jsstr :=
  match parkedRetry s with
  | Some p => if bool_decide (t_epoch p = epoch s ∧ is_Some (t_bodyHash p) ∧ t_bodyHash p = bodyHash) then t_requestId p else minted
  | None => minted
  end.

Definition startTurnRequest (w : Outcome) (minted : jsstr) (bodyHash : option jsstr) (s : SemanticEdgeRecorder) : SemanticEdgeRecorder * option jsstr :=
  let requestId := turnRequestId minted bodyHash s in
  let s := if bool_decide (Some requestId = t_requestId <$> parkedRetry s) then set_parkedRetry None s else s in
  let '(s, recorded) := _append w (RequestStarted requestId (sessionId s) None) s in
  if recorded then (set_lastTurn (Some (MkTurn requestId (epoch s) bodyHash)) s, Some requestId) else (s, None).

Definition prepareTurnRetry (s : SemanticEdgeRecorder) : SemanticEdgeRecorder := set_parkedRetry (lastTurn s) s.
Definition clearTurnRetry (s : SemanticEdgeRecorder) : SemanticEdgeRecorder := set_parkedRetry None s.

Definition finishRequest (w : Outcome) (requestId : option jsstr) (s : SemanticEdgeRecorder) : SemanticEdgeRecorder :=
  match requestId with Some r => (_append w (RequestFinished r) s).1 | None => s end.

Definition failRequest (w : Outcome) (requestId : option jsstr) (s : SemanticEdgeRecorder) : SemanticEdgeRecorder :=
  match requestId with Some r => (_append w (RequestFailed r) s).1 | None => s end.

Definition beginCompaction (w : Outcome) (minted : jsstr) (s : SemanticEdgeRecorder) : SemanticEdgeRecorder * jsstr :=
  ((_append w (CompactionBegun minted (sessionId s)) s).1, minted).

Definition startCompactionRequest (w : Outcome) (minted compactionId : jsstr) (s : SemanticEdgeRecorder) : SemanticEdgeRecorder * option jsstr :=
  let '(s, recorded) := _append w (RequestStarted minted (sessionId s) (Some compactionId)) s in
  (s, if recorded then Some minted else None).

Definition finishCompaction (w : Outcome) (compactionId : jsstr) (status : CompactionStatus) (s : SemanticEdgeRecorder) : SemanticEdgeRecorder * result jsstr unit :=
  if disabled s then (s, Ok tt) else
  if negb (bool_decide (compactionId ∈ openCompactions s)) then (s, Throw (js "unknown semantic-edge compaction: " ++ compactionId)) else
  ((_append w (CompactionFinished compactionId status) s).1, Ok tt).

Definition recordChildReturned (w : Outcome) (childSessionId : jsstr) (childLastCommittedRequestId : option jsstr) (s : SemanticEdgeRecorder) : SemanticEdgeRecorder :=
  match childLastCommittedRequestId with
  | Some r => (_append w (ChildReturned (sessionId s) childSessionId r) s).1
  | None => s
  end.

(** What becomes of the call of a wrapped stream function: its last message with
    or without a failure, or an error of the stream, of the call, or of its
    promise *)
Inductive StreamEnd := EndedWith (failed : bool) | Rejected | Threw.

Definition settleRequest (w : Outcome) (requestId : jsstr) (e : StreamEnd) (s : SemanticEdgeRecorder) : SemanticEdgeRecorder :=
  match e with
  | EndedWith false => finishRequest w (Some requestId) s
  | EndedWith true | Rejected | Threw => failRequest w (Some requestId) s
  end.
