(* ===== verification/SemanticEdgesSpec.v ===== *)
(** * Theorems about the derivation of semantic edges

    Ledgers that speak of different sessions, requests, compactions and children
    do not disturb each other: their edges are the edges of each one, so the
    order in which they are folded is free ([ledgers_in_any_order]).  Every edge
    goes back to the events that justify it ([edges_justified]). *)

From S2P Require Import Prelude.
From S2P Require Import JsMap.
From S2P Require Import JsString.
From S2P Require Import SemanticEdges.

(** ** What an event speaks of *)

Inductive Name := NSession (s : jsstr) | NRequest (r : jsstr) | NCompaction (c : jsstr) | NChild (c : jsstr).

Definition names (e : SemanticEdgeLedgerEvent) : list Name :=
  match e with
  | SessionRegistered s _ _ => [NSession s]
  | RequestStarted r s c => [NRequest r; NSession s] ++ match c with Some c => [NCompaction c] | None => [] end
  | RequestFinished r | RequestFailed r => [NRequest r]
  | CompactionBegun c s => [NCompaction c; NSession s]
  | CompactionFinished c _ => [NCompaction c]
  | ChildReturned s c _ => [NSession s; NChild c]
  end.

Definition names_of (l : list SemanticEdgeLedgerEvent) : list Name := l ≫= names.

(** No two ledgers speak of the same. *)
Fixpoint independent (ledgers : list (list SemanticEdgeLedgerEvent)) : Prop :=
  match ledgers with
  | [] => True
  | l :: ledgers => Forall (λ l', names_of l ## names_of l') ledgers ∧ independent ledgers
  end.

Inductive View :=
  | VSession (s : option FoldSession) | VRequest (r : option InFlight) | VCompaction (c : option FoldCompaction) | VChild (b : bool).

(** What a state knows under a name *)
Definition view (f : Fold) (n : Name) : View :=
  match n with
  | NSession s => VSession (jm_get (sessions f) s)
  | NRequest r => VRequest (jm_get (inFlight f) r)
  | NCompaction c => VCompaction (jm_get (compactions f) c)
  | NChild c => VChild (bool_decide (c ∈ returnedChildren f))
  end.

(** A state that speaks of the names in [N] only *)
Record closed (N : list Name) (f : Fold) : Prop := {
  closed_session sid s r : jm_get (sessions f) sid = Some s → lastRequestId s = Some r → NRequest r ∈ N;
  closed_request r fl : jm_get (inFlight f) r = Some fl → NSession (fl_sessionId fl) ∈ N;
  closed_compaction c cp : jm_get (compactions f) c = Some cp → NSession (cp_sessionId cp) ∈ N;
  closed_edge e : e ∈ edges f → NRequest (target_request_id e) ∈ N }.

Definition avoids (N : list Name) (f : Fold) : Prop :=
  (∀ n, n ∈ N → view f n = view newFold n) ∧ ∀ e, e ∈ edges f → NRequest (target_request_id e) ∉ N.

(** [st] is [st0] and, under the names in [N], [loc]. *)
Record extends (N : list Name) (st0 loc st : Fold) : Prop := {
  ext_in n : n ∈ N → view st n = view loc n;
  ext_out n : n ∉ N → view st n = view st0 n;
  ext_edges : edges st = edges st0 ++ edges loc;
  ext_others e : e ∈ edges st0 → NRequest (target_request_id e) ∉ N;
  ext_closed : closed N loc }.

Lemma extends_new N st : avoids N st → extends N st newFold st.
Proof.
  intros [Hv He]. split; [done|done|by rewrite app_nil_r|done|]. split; [done..|]. intros e Hin. by apply not_elem_of_nil in Hin.
Qed.

(** ** Steps of the fold keep this *)

Lemma bool_decide_iff P Q `{Decision P, Decision Q} : bool_decide P = bool_decide Q → (P ↔ Q).
Proof. intros H'. by rewrite <-(bool_decide_eq_true P), H', bool_decide_eq_true. Qed.

Section steps.
Context (N : list Name) (st0 : Fold).
Abbreviation ext := (extends N st0).

Lemma ext_session loc st sid : ext loc st → NSession sid ∈ N → session sid st = session sid loc.
Proof. intros He Hn. apply (ext_in _ _ _ _ He) in Hn. injection Hn as Hn. unfold session. by rewrite Hn. Qed.

Lemma ext_has loc st sid : ext loc st → NSession sid ∈ N → jm_has (sessions st) sid = jm_has (sessions loc) sid.
Proof. intros He Hn. apply (ext_in _ _ _ _ He) in Hn. injection Hn as Hn. unfold jm_has. by rewrite Hn. Qed.

Lemma ext_inFlight loc st r : ext loc st → NRequest r ∈ N → jm_get (inFlight st) r = jm_get (inFlight loc) r.
Proof. intros He Hn. apply (ext_in _ _ _ _ He) in Hn. by injection Hn. Qed.

Lemma ext_compaction loc st c : ext loc st → NCompaction c ∈ N → jm_get (compactions st) c = jm_get (compactions loc) c.
Proof. intros He Hn. apply (ext_in _ _ _ _ He) in Hn. by injection Hn. Qed.

Lemma ext_returned loc st c : ext loc st → NChild c ∈ N →
  bool_decide (c ∈ returnedChildren st) = bool_decide (c ∈ returnedChildren loc).
Proof. intros He Hn. apply (ext_in _ _ _ _ He) in Hn. by injection Hn. Qed.

Lemma ext_set_session loc st sid s : ext loc st → NSession sid ∈ N →
  (∀ r, lastRequestId s = Some r → NRequest r ∈ N) → ext (set_session sid s loc) (set_session sid s st).
Proof.
  intros He Hn Hr. split.
  - intros [x| | |] Hx; try apply (ext_in _ _ _ _ He _ Hx). pose proof (ext_in _ _ _ _ He _ Hx) as [= Hv].
    cbn. rewrite !jm_get_set. by case_decide; rewrite ?Hv.
  - intros [x| | |] Hx; try apply (ext_out _ _ _ _ He _ Hx). pose proof (ext_out _ _ _ _ He _ Hx) as [= Hv].
    cbn. rewrite jm_get_set, decide_False; [by rewrite Hv|]. by intros ->.
  - apply (ext_edges _ _ _ _ He).
  - apply (ext_others _ _ _ _ He).
  - destruct (ext_closed _ _ _ _ He) as [H1 H2 H3 H4]. split; [|done..]. intros x s' r. cbn. rewrite jm_get_set.
    case_decide; [intros [= <-]; apply Hr|apply H1].
Qed.

Lemma ext_set_inFlight loc st r x : ext loc st → NRequest r ∈ N →
  (∀ fl, x = Some fl → NSession (fl_sessionId fl) ∈ N) →
  let upd m := match x with Some fl => jm_set m r fl | None => jm_delete m r end in
  ext (set_inFlight (upd (inFlight loc)) loc) (set_inFlight (upd (inFlight st)) st).
Proof.
  intros He Hn Hx upd. assert (∀ m k, jm_get (upd m) k = if decide (r = k) then x else jm_get m k) as Hu.
  { intros m k. subst upd. destruct x; [apply jm_get_set|apply jm_get_delete]. }
  clearbody upd. split.
  - intros [|y| |] Hy; try apply (ext_in _ _ _ _ He _ Hy). pose proof (ext_in _ _ _ _ He _ Hy) as [= Hv].
    cbn. rewrite !Hu. by case_decide; rewrite ?Hv.
  - intros [|y| |] Hy; try apply (ext_out _ _ _ _ He _ Hy). pose proof (ext_out _ _ _ _ He _ Hy) as [= Hv].
    cbn. rewrite Hu, decide_False; [by rewrite Hv|]. by intros ->.
  - apply (ext_edges _ _ _ _ He).
  - apply (ext_others _ _ _ _ He).
  - destruct (ext_closed _ _ _ _ He) as [H1 H2 H3 H4]. split; [done| |done..]. intros y fl. cbn. rewrite Hu.
    case_decide; [apply Hx|apply H2].
Qed.

Lemma ext_set_compaction loc st c x : ext loc st → NCompaction c ∈ N →
  (∀ cp, x = Some cp → NSession (cp_sessionId cp) ∈ N) →
  let upd m := match x with Some cp => jm_set m c cp | None => jm_delete m c end in
  ext (set_compactions (upd (compactions loc)) loc) (set_compactions (upd (compactions st)) st).
Proof.
  intros He Hn Hx upd. assert (∀ m k, jm_get (upd m) k = if decide (c = k) then x else jm_get m k) as Hu.
  { intros m k. subst upd. destruct x; [apply jm_get_set|apply jm_get_delete]. }
  clearbody upd. split.
  - intros [| |y|] Hy; try apply (ext_in _ _ _ _ He _ Hy). pose proof (ext_in _ _ _ _ He _ Hy) as [= Hv].
    cbn. rewrite !Hu. by case_decide; rewrite ?Hv.
  - intros [| |y|] Hy; try apply (ext_out _ _ _ _ He _ Hy). pose proof (ext_out _ _ _ _ He _ Hy) as [= Hv].
    cbn. rewrite Hu, decide_False; [by rewrite Hv|]. by intros ->.
  - apply (ext_edges _ _ _ _ He).
  - apply (ext_others _ _ _ _ He).
  - destruct (ext_closed _ _ _ _ He) as [H1 H2 H3 H4]. split; [done..| |done]. intros y cp. cbn. rewrite Hu.
    case_decide; [apply Hx|apply H3].
Qed.

Lemma ext_set_edges loc st es : ext loc st → (∀ e, e ∈ es → NRequest (target_request_id e) ∈ N) →
  ext (set_edges es loc) (set_edges (edges st0 ++ es) st).
Proof.
  intros He Hes. split; [apply (ext_in _ _ _ _ He)|apply (ext_out _ _ _ _ He)|done|apply (ext_others _ _ _ _ He)|].
  destruct (ext_closed _ _ _ _ He) as [H1 H2 H3 H4]. by split.
Qed.

(** A removal that concerns a target of [loc] passes over the other edges. *)
Lemma remove_first_others source slice es : NRequest slice ∈ N → (∀ e, e ∈ edges st0 → NRequest (target_request_id e) ∉ N) →
  remove_first (generated source slice) (edges st0 ++ es) = edges st0 ++ remove_first (generated source slice) es.
Proof.
  intros Hs. induction (edges st0) as [|e l IH]; intros Ho; [done|]. cbn [app remove_first].
  unfold generated at 1. rewrite bool_decide_false.
  - f_equal. apply IH. intros e' He'. apply Ho. by right.
  - intros (_&Ht&_). apply (Ho e); [by left|]. by rewrite Ht.
Qed.

Lemma flush_others slice p es : NRequest slice ∈ N → (∀ e, e ∈ edges st0 → NRequest (target_request_id e) ∉ N) →
  flush_pending slice p (edges st0 ++ es) = edges st0 ++ flush_pending slice p es.
Proof.
  intros Hs Ho. unfold flush_pending. rewrite (assoc_L (++)). f_equal. revert es.
  induction (set_of p.*1) as [|x l IH]; intros es; [done|]. cbn [foldl]. by rewrite remove_first_others, IH.
Qed.

Lemma elem_of_remove_first {A} (P : A → bool) l x : x ∈ remove_first P l → x ∈ l.
Proof. induction l as [|y l IH]; cbn; [done|]. case_match; rewrite !elem_of_cons; naive_solver. Qed.

Lemma elem_of_flush slice p es e : e ∈ flush_pending slice p es → e ∈ es ∨ ∃ i, i ∈ p ∧ e = edge_to slice i.
Proof.
  unfold flush_pending. rewrite elem_of_app, list_elem_of_fmap. intros [He|(i&->&Hi)]; [left|right; eauto].
  revert es He. induction (set_of p.*1) as [|x l IH]; intros es; [done|]. cbn [foldl]. intros H%IH.
  by eapply elem_of_remove_first.
Qed.

Lemma claim_last b s : lastRequestId (claim b s).1 = lastRequestId s.
Proof. destruct b; [done|]. unfold claim. by destruct (spawnClaimed s), (spawnedByRequestId s). Qed.

Lemma session_last loc st sid r : ext loc st → NSession sid ∈ N → lastRequestId (session sid loc) = Some r → NRequest r ∈ N.
Proof.
  intros He Hn. unfold session. destruct (jm_get (sessions loc) sid) as [s|] eqn:E; [|done].
  apply (closed_session _ _ (ext_closed _ _ _ _ He) _ _ _ E).
Qed.

Lemma ext_started loc st r sid c : ext loc st → names (RequestStarted r sid c) ⊆ N →
  ext (request_started r sid c loc) (request_started r sid c st).
Proof.
  intros He Hn. assert (NRequest r ∈ N) as Hr by (apply Hn; set_solver). assert (NSession sid ∈ N) as Hs by (apply Hn; set_solver).
  unfold request_started. rewrite (ext_session _ _ _ He Hs). pose proof (claim_last (bool_decide (is_Some c)) (session sid loc)) as Hl.
  destruct (claim _ _) as [state inbound]. cbn [fst] in Hl.
  assert (ext (set_session sid state loc) (set_session sid state st)) as H1.
  { apply ext_set_session; [done..|]. intros x. rewrite Hl. by apply (session_last _ _ _ _ He). }
  pose proof (ext_set_inFlight _ _ r (Some (MkInFlight sid (bool_decide (is_Some c)) (continue_last state inbound))) H1 Hr ltac:(by intros ? [= <-])) as H2.
  cbv beta iota zeta in H2. destruct c as [c|]; [|done].
  assert (NCompaction c ∈ N) as Hc by (apply Hn; set_solver).
  rewrite (ext_compaction _ _ _ H2 Hc). destruct (jm_get _ c) as [cp|] eqn:Ecp; [|done]. destruct (bool_decide (cp_sessionId cp = sid)); [|done].
  apply (ext_set_compaction _ _ c (Some _) H2 Hc). intros ? [= <-]. cbn [cp_sessionId].
  apply (closed_compaction _ _ (ext_closed _ _ _ _ H2) _ _ Ecp).
Qed.

Lemma ext_deleted loc st r : ext loc st → NRequest r ∈ N →
  ext (set_inFlight (jm_delete (inFlight loc) r) loc) (set_inFlight (jm_delete (inFlight st) r) st).
Proof. intros He Hr. by apply (ext_set_inFlight _ _ r None He Hr). Qed.

Lemma ext_finished loc st r : ext loc st → NRequest r ∈ N → ext (request_finished r loc) (request_finished r st).
Proof.
  intros He Hr. unfold request_finished. rewrite (ext_inFlight _ _ _ He Hr). destruct (jm_get (inFlight loc) r) as [fl|] eqn:E; [|done].
  pose proof (closed_request _ _ (ext_closed _ _ _ _ He) _ _ E) as Hs. pose proof (ext_deleted _ _ _ He Hr) as H1.
  assert (∀ e, e ∈ edges loc ++ (edge_to r <$> fl_inbound fl) → NRequest (target_request_id e) ∈ N) as Hes.
  { intros e [Hin|(i&->&_)%list_elem_of_fmap]%elem_of_app; [|done].
    by apply (closed_edge _ _ (ext_closed _ _ _ _ He)). }
  pose proof (ext_set_edges _ _ _ H1 Hes) as H2. rewrite (assoc_L (++)), <-(ext_edges _ _ _ _ He) in H2.
  cbn [edges set_inFlight] in *. rewrite (ext_session _ _ _ H2 Hs). apply ext_set_session; [done..|]. intros x [= <-]. done.
Qed.

Lemma ext_failed loc st r : ext loc st → NRequest r ∈ N → ext (request_failed r loc) (request_failed r st).
Proof.
  intros He Hr. unfold request_failed. rewrite (ext_inFlight _ _ _ He Hr). destruct (jm_get (inFlight loc) r) as [fl|] eqn:E; [|done].
  pose proof (closed_request _ _ (ext_closed _ _ _ _ He) _ _ E) as Hs. pose proof (ext_deleted _ _ _ He Hr) as H1.
  cbv zeta. destruct (fl_summary fl); [done|]. rewrite (ext_session _ _ _ H1 Hs). apply ext_set_session; [done..|].
  intros x. apply (session_last _ _ _ _ H1 Hs).
Qed.

Lemma ext_compacted loc st c status : ext loc st → NCompaction c ∈ N →
  ext (compaction_finished c status loc) (compaction_finished c status st).
Proof.
  intros He Hc. unfold compaction_finished. rewrite (ext_compaction _ _ _ He Hc).
  assert (ext (set_compactions (jm_delete (compactions loc) c) loc) (set_compactions (jm_delete (compactions st) c) st)) as H1
    by by apply (ext_set_compaction _ _ c None He Hc).
  cbv zeta. destruct status; [|done..]. destruct (jm_get (compactions loc) c) as [cp|] eqn:E; [|done].
  pose proof (closed_compaction _ _ (ext_closed _ _ _ _ He) _ _ E) as Hs. rewrite (ext_session _ _ _ H1 Hs).
  set (state := session _ _).
  assert (∀ x, lastRequestId state = Some x → NRequest x ∈ N) as Hlast by (intros x; apply (session_last _ _ _ _ H1 Hs)).
  assert (ext (set_session (cp_sessionId cp) state (set_compactions (jm_delete (compactions loc) c) loc))
    (set_session (cp_sessionId cp) state (set_compactions (jm_delete (compactions st) c) st))) as H2 by by apply ext_set_session.
  destruct (lastRequestId state) as [slice|] eqn:El; [|done]. case_bool_decide; [|done].
  apply ext_set_session; [|done|intros x Hx; apply Hlast; rewrite <-Hx; by rewrite <-El].
  assert (edges (set_session (cp_sessionId cp) state (set_compactions (jm_delete (compactions st) c) st)) = edges st0 ++ edges loc) as ->
    by apply (ext_edges _ _ _ _ He).
  rewrite flush_others; [|by apply Hlast|apply (ext_others _ _ _ _ He)].
  apply ext_set_edges; [done|]. intros e [Hin|(i&_&->)]%elem_of_flush; [|by apply Hlast].
  by apply (closed_edge _ _ (ext_closed _ _ _ _ He)).
Qed.

Lemma ext_child loc st sid ch r : ext loc st → NSession sid ∈ N → NChild ch ∈ N →
  ext (child_returned sid ch r loc) (child_returned sid ch r st).
Proof.
  intros He Hs Hc. unfold child_returned. rewrite (ext_returned _ _ _ He Hc). case_bool_decide as Hin; [done|].
  rewrite (ext_session _ _ _ He Hs). set (s := set_pending _ _).
  assert (ext (set_session sid s loc) (set_session sid s st)) as H1.
  { apply ext_set_session; [done..|]. intros x. apply (session_last _ _ _ _ He Hs). }
  destruct H1 as [Hi Ho Hed Hot Hcl]. split; [| |done|done|by destruct Hcl].
  - intros [| | |x] Hx; try apply (Hi _ Hx). pose proof (Hi _ Hx) as [= Hv]. cbn in *. f_equal.
    apply bool_decide_ext. rewrite !elem_of_app. apply bool_decide_iff in Hv. naive_solver.
  - intros [| | |x] Hx; try apply (Ho _ Hx). pose proof (Ho _ Hx) as [= Hv]. cbn in *. f_equal.
    apply bool_decide_ext. rewrite elem_of_app, list_elem_of_singleton. apply bool_decide_iff in Hv.
    assert (x ≠ ch) by by intros ->. naive_solver.
Qed.

Lemma ext_step loc st e : ext loc st → names e ⊆ N → ext (fold_event loc e) (fold_event st e).
Proof.
  intros He Hn. destruct e; cbn [fold_event].
  - assert (NSession session_id ∈ N) as Hs by (apply Hn; set_solver). rewrite (ext_has _ _ _ He Hs).
    destruct (jm_has _ _); [done|]. by apply ext_set_session.
  - by apply ext_started.
  - apply ext_finished; [done|]. apply Hn; set_solver.
  - apply ext_failed; [done|]. apply Hn; set_solver.
  - apply (ext_set_compaction _ _ compaction_id (Some _)); [done|apply Hn; set_solver|]. intros ? [= <-]. apply Hn; set_solver.
  - apply ext_compacted; [done|]. apply Hn; set_solver.
  - apply ext_child; [done|apply Hn; set_solver..].
Qed.
End steps.

(** ** Ledgers in any order *)

Lemma fold_extends N l : ∀ st0 loc st, extends N st0 loc st → names_of l ⊆ N →
  extends N st0 (foldl fold_event loc l) (foldl fold_event st l).
Proof.
  induction l as [|e l IH]; intros st0 loc st He Hn; [done|]. cbn in *. apply IH.
  - apply ext_step; [done|]. intros n Hin. apply Hn. apply elem_of_app. by left.
  - intros n Hin. apply Hn. apply elem_of_app. by right.
Qed.

Lemma fold_ledger l st : avoids (names_of l) st →
  extends (names_of l) st (foldl fold_event newFold l) (foldl fold_event st l).
Proof. intros H%extends_new. by apply fold_extends. Qed.

Lemma avoids_after l N st : avoids (names_of l) st → names_of l ## N → avoids N st → avoids N (foldl fold_event st l).
Proof.
  intros Hl Hd [Hv He]. pose proof (fold_ledger l st Hl) as Hx. split.
  - intros n Hn. rewrite (ext_out _ _ _ _ Hx); [by apply Hv|]. intros H. by apply (Hd n).
  - intros e. rewrite (ext_edges _ _ _ _ Hx). intros [Hin|Hin]%elem_of_app; [by apply He|]. intros Hn.
    by apply (Hd (NRequest (target_request_id e))); [apply (closed_edge _ _ (ext_closed _ _ _ _ Hx))|].
Qed.

Lemma derive_from ledgers : independent ledgers → ∀ st, Forall (λ l, avoids (names_of l) st) ledgers →
  edges (foldl fold_event st (concat ledgers)) = edges st ++ (ledgers ≫= λ l, deriveSemanticEdges [l]).
Proof.
  induction ledgers as [|l ledgers IH]; intros Hi st Ha; cbn; [by rewrite app_nil_r|].
  destruct Hi as [Hd Hi]. apply Forall_cons in Ha as [Hl Ha]. rewrite foldl_app, IH; [|done|].
  - rewrite (ext_edges _ _ _ _ (fold_ledger l st Hl)), <-(assoc_L (++)). unfold deriveSemanticEdges. cbn. by rewrite app_nil_r.
  - rewrite Forall_forall in *. intros l' Hl'. by apply avoids_after; [|apply Hd|apply Ha].
Qed.

Lemma independent_perm ledgers ledgers' : ledgers ≡ₚ ledgers' → independent ledgers → independent ledgers'.
Proof.
  induction 1 as [|l a b Hab IH|l l' a|a b c _ IH1 _ IH2]; cbn; [done|..|auto].
  - intros [Hd Hi]. split; [|auto]. rewrite Forall_forall in *. intros x Hx. apply Hd. by rewrite Hab.
  - rewrite !Forall_cons. intros ([H1 H2]&H3&H4). split_and!; [|done..]. intros x Hx Hy. by apply (H1 x).
Qed.

(** C33: [equivalence] Ledgers that speak of different sessions, requests,
    compactions and children can be folded together in any order: the edges are
    those of each ledger alone. *)
Theorem ledgers_in_any_order ledgers ledgers' : independent ledgers → ledgers ≡ₚ ledgers' →
  deriveSemanticEdges ledgers' = (ledgers' ≫= λ l, deriveSemanticEdges [l]) ∧
  deriveSemanticEdges ledgers ≡ₚ deriveSemanticEdges ledgers'.
Proof.
  intros Hi Hp. assert (∀ ls, independent ls → deriveSemanticEdges ls = (ls ≫= λ l, deriveSemanticEdges [l])) as Hd.
  { intros ls Hls. apply (derive_from ls Hls newFold). apply Forall_forall. intros l _. split; [done|].
    intros e He. by apply not_elem_of_nil in He. }
  rewrite (Hd ledgers), (Hd ledgers') by (done || by eapply independent_perm). split; [done|]. by apply bind_Permutation.
Qed.

(** ** Edges are justified *)

Section justified.
Context (events : list SemanticEdgeLedgerEvent).

Definition started (r sid : jsstr) : Prop := ∃ c, RequestStarted r sid c ∈ events.

(** A source in the session [sid], by the kind of the edge *)
Definition justified (sid : jsstr) (i : Inbound) : Prop :=
  match i.2 with
  | continuation => started i.1 sid ∧ RequestFinished i.1 ∈ events
  | subagent_call => ∃ parent, SessionRegistered sid parent (Some i.1) ∈ events
  | subagent_return => ∃ child, ChildReturned sid child i.1 ∈ events
  | compaction => ∃ c, CompactionBegun c sid ∈ events ∧ RequestStarted i.1 sid (Some c) ∈ events ∧
      RequestFinished i.1 ∈ events ∧ CompactionFinished c Completed ∈ events
  end.

Record JustSession (sid : jsstr) (s : FoldSession) : Prop := {
  js_spawn r : spawnedByRequestId s = Some r → justified sid (r, subagent_call);
  js_last r : lastRequestId s = Some r → justified sid (r, continuation);
  js_pending : Forall (justified sid) (pending s) }.

Definition JustEdge (e : SemanticEdge) : Prop :=
  ∃ sid, started (target_request_id e) sid ∧ RequestFinished (target_request_id e) ∈ events ∧
    justified sid (source_request_id e, edge_type e).

Record JustFold (f : Fold) : Prop := {
  jf_session sid s : jm_get (sessions f) sid = Some s → JustSession sid s;
  jf_request r fl : jm_get (inFlight f) r = Some fl → started r (fl_sessionId fl) ∧ Forall (justified (fl_sessionId fl)) (fl_inbound fl);
  jf_compaction c cp : jm_get (compactions f) c = Some cp →
    CompactionBegun c (cp_sessionId cp) ∈ events ∧ Forall (λ r, RequestStarted r (cp_sessionId cp) (Some c) ∈ events) (summaryRequestIds cp);
  jf_edges : Forall JustEdge (edges f) }.

Lemma just_new sid : JustSession sid newSession.
Proof. by split. Qed.

Lemma just_session f sid : JustFold f → JustSession sid (session sid f).
Proof. intros Hf. unfold session. destruct (jm_get _ _) eqn:E; [by eapply jf_session|apply just_new]. Qed.

Lemma just_set_session f sid s : JustFold f → JustSession sid s → JustFold (set_session sid s f).
Proof.
  intros [H1 H2 H3 H4] Hs. split; [|done..]. intros x s'. cbn. rewrite jm_get_set. case_decide; [intros [= <-]; congruence|apply H1].
Qed.

Lemma just_set_inFlight f r fl : JustFold f → started r (fl_sessionId fl) → Forall (justified (fl_sessionId fl)) (fl_inbound fl) →
  JustFold (set_inFlight (jm_set (inFlight f) r fl) f).
Proof.
  intros [H1 H2 H3 H4] Hs Hi. split; [done| |done..]. intros x y. cbn. rewrite jm_get_set. case_decide; [intros [= <-]; by subst|apply H2].
Qed.

Lemma just_del_inFlight f r : JustFold f → JustFold (set_inFlight (jm_delete (inFlight f) r) f).
Proof. intros [H1 H2 H3 H4]. split; [done| |done..]. intros x y. cbn. rewrite jm_get_delete. case_decide; [done|apply H2]. Qed.

Lemma just_del_compaction f c : JustFold f → JustFold (set_compactions (jm_delete (compactions f) c) f).
Proof. intros [H1 H2 H3 H4]. split; [done|done| |done]. intros x y. cbn. rewrite jm_get_delete. case_decide; [done|apply H3]. Qed.

Lemma just_set_compaction f c cp : JustFold f → CompactionBegun c (cp_sessionId cp) ∈ events →
  Forall (λ r, RequestStarted r (cp_sessionId cp) (Some c) ∈ events) (summaryRequestIds cp) →
  JustFold (set_compactions (jm_set (compactions f) c cp) f).
Proof.
  intros [H1 H2 H3 H4] Hb Hr. split; [done|done| |done]. intros x y. cbn. rewrite jm_get_set. case_decide; [intros [= <-]; by subst|apply H3].
Qed.

Lemma just_set_edges f es : JustFold f → Forall JustEdge es → JustFold (set_edges es f).
Proof. intros [H1 H2 H3 H4] He. by split. Qed.

Lemma just_claim sid b s : JustSession sid s → JustSession sid (claim b s).1 ∧ Forall (justified sid) (claim b s).2.
Proof.
  intros [H1 H2 H3]. destruct b; [by split|]. unfold claim.
  destruct (spawnClaimed s), (spawnedByRequestId s) as [r|] eqn:E; (split; [split; cbn; rewrite ?E; try done; constructor|]); try done.
  apply Forall_app. split; [done|]. constructor; [by apply H1|constructor].
Qed.

Lemma just_continue sid s i : JustSession sid s → Forall (justified sid) i → Forall (justified sid) (continue_last s i).
Proof.
  intros [_ H2 _] Hi. unfold continue_last. destruct (lastRequestId s) as [r|]; [|done]. destruct (existsb _ _); [done|].
  apply Forall_app. split; [done|]. constructor; [by apply H2|constructor].
Qed.

Lemma just_edges r sid l : started r sid → RequestFinished r ∈ events → Forall (justified sid) l → Forall JustEdge (edge_to r <$> l).
Proof.
  intros Hr Hf Hi. apply Forall_fmap. eapply Forall_impl; [done|]. intros [i ty] Hj. exists sid. by split_and!.
Qed.

Lemma elem_add_once x r rs : x ∈ add_once r rs → x ∈ rs ∨ x = r.
Proof. unfold add_once. case_bool_decide; [by left|]. rewrite elem_of_app, list_elem_of_singleton. done. Qed.

Lemma just_step f e : JustFold f → e ∈ events → JustFold (fold_event f e).
Proof.
  intros Hf He. destruct e as [sid p r|r sid c|r|r|c sid|c status|sid ch r]; cbn [fold_event].
  - destruct (jm_has _ _); [done|]. apply just_set_session; [done|]. split; [|done|constructor]. cbn. intros x [= ->]. by exists p.
  - unfold request_started. pose proof (just_claim sid (bool_decide (is_Some c)) _ (just_session f sid Hf)) as [Hs Hi].
    destruct (claim _ _) as [state inbound]. cbn [fst snd] in Hs, Hi.
    assert (JustFold (set_session sid state f)) as H1 by by apply just_set_session.
    apply (just_set_inFlight _ r (MkInFlight sid (bool_decide (is_Some c)) (continue_last state inbound))) in H1;
      [|by exists c|by apply just_continue].
    destruct c as [c|]; [|done]. destruct (jm_get _ c) as [cp|] eqn:Ec; [|done]. destruct (bool_decide (cp_sessionId cp = sid)) eqn:Es; [|done].
    apply bool_decide_eq_true in Es. destruct (jf_compaction _ H1 _ _ Ec) as [Hb Hr].
    apply just_set_compaction; [done|done|]. cbn. apply Forall_forall. rewrite Forall_forall in Hr.
    intros x [Hx| ->]%elem_add_once; [by apply Hr|by rewrite Es].
  - unfold request_finished. destruct (jm_get _ r) as [fl|] eqn:E; [|done]. destruct (jf_request _ Hf _ _ E) as [Hr Hi].
    assert (JustFold (set_edges (edges (set_inFlight (jm_delete (inFlight f) r) f) ++ (edge_to r <$> fl_inbound fl)) (set_inFlight (jm_delete (inFlight f) r) f))) as H1.
    { apply just_set_edges; [by apply just_del_inFlight|]. apply Forall_app. split; [apply Hf|by eapply just_edges]. }
    apply just_set_session; [done|]. destruct (just_session _ (fl_sessionId fl) H1) as [Ha Hb Hc]. split; [done| |done].
    intros x [= <-]. by split.
  - unfold request_failed. destruct (jm_get _ r) as [fl|] eqn:E; [|done]. destruct (jf_request _ Hf _ _ E) as [Hr Hi].
    pose proof (just_del_inFlight f r Hf) as H1. cbv zeta. destruct (fl_summary fl); [done|]. apply just_set_session; [done|].
    destruct (just_session _ (fl_sessionId fl) H1) as [Ha Hb Hc]. split; [done|done|]. by apply Forall_app.
  - by apply just_set_compaction.
  - unfold compaction_finished. pose proof (just_del_compaction f c Hf) as H1. cbv zeta. destruct status; [|done..].
    destruct (jm_get _ c) as [cp|] eqn:Ec; [|done]. destruct (jf_compaction _ Hf _ _ Ec) as [Hb Hr].
    set (state := session _ _). pose proof (just_session _ (cp_sessionId cp) H1 : JustSession _ state) as Hs.
    assert (JustFold (set_session (cp_sessionId cp) state (set_compactions (jm_delete (compactions f) c) f))) as H2 by by apply just_set_session.
    destruct (lastRequestId state) as [slice|] eqn:El; [|done]. case_bool_decide as Hin; [|done].
    rewrite Forall_forall in Hr. pose proof (Hr _ Hin) as Hst. destruct (js_last _ _ Hs _ El) as [_ Hfin].
    apply just_set_session.
    + apply just_set_edges; [done|]. apply Forall_forall. intros x [Hx|(i&Hi&->)]%elem_of_flush.
      * pose proof (jf_edges _ Hf) as Hed. rewrite Forall_forall in Hed. by apply Hed.
      * pose proof (js_pending _ _ Hs) as Hp. rewrite Forall_forall in Hp. exists (cp_sessionId cp).
        split_and!; [by exists (Some c)|done|]. destruct i. by apply Hp.
    + destruct Hs as [Ha Hl Hp]. split; [done|done|]. constructor; [|constructor]. exists c. by split_and!.
  - unfold child_returned. case_bool_decide; [done|]. destruct (just_session f sid Hf) as [Ha Hb Hc].
    destruct (just_set_session f sid (set_pending (pending (session sid f) ++ [(r, subagent_return)]) (session sid f)) Hf) as [H1 H2 H3 H4]; [|by split].
    split; [done|done|]. apply Forall_app. split; [done|]. constructor; [by exists ch|constructor].
Qed.
End justified.

(** [safety] Every edge goes to a request that was started and finished, and
    comes from what its kind says, in the same session: a finished request of
    it, the request that spawned it, a child that returned to it, or a finished
    summary of a completed compaction of it. *)
Theorem edges_justified ledgers e : e ∈ deriveSemanticEdges ledgers → JustEdge (concat ledgers) e.
Proof.
  assert (∀ evs f, evs ⊆ concat ledgers → JustFold (concat ledgers) f → JustFold (concat ledgers) (foldl fold_event f evs)) as H.
  { intros evs. induction evs as [|x evs IH]; intros f Hs Hf; [done|]. cbn. apply IH; [set_solver|]. apply just_step; [done|set_solver]. }
  intros He. pose proof (jf_edges _ _ (H _ newFold (reflexivity _) ltac:(by split))) as Hf. rewrite Forall_forall in Hf. by apply Hf.
Qed.

(** ** Examples *)

Definition parent_ledger : list SemanticEdgeLedgerEvent :=
  [SessionRegistered (js "P") None None; RequestStarted (js "p1") (js "P") None; RequestFinished (js "p1");
   ChildReturned (js "P") (js "C") (js "c1"); CompactionBegun (js "k") (js "P"); RequestStarted (js "p2") (js "P") (Some (js "k"));
   RequestFinished (js "p2"); CompactionFinished (js "k") Completed; RequestStarted (js "p3") (js "P") None; RequestFinished (js "p3")].

Definition child_ledger : list SemanticEdgeLedgerEvent :=
  [SessionRegistered (js "C") (Some (js "P")) (Some (js "p1")); RequestStarted (js "c1") (js "C") None; RequestFinished (js "c1")].

Example parent_edges : deriveSemanticEdges [parent_ledger] =
  [MkEdge (js "p1") (js "p2") continuation; MkEdge (js "c1") (js "p2") subagent_return; MkEdge (js "p2") (js "p3") compaction].
Proof. vm_compute. reflexivity. Qed.

Lemma ledgers_in_any_order_witness :
  deriveSemanticEdges [parent_ledger; child_ledger] ≡ₚ deriveSemanticEdges [child_ledger; parent_ledger].
Proof.
  apply (ledgers_in_any_order [parent_ledger; child_ledger] [child_ledger; parent_ledger]).
  - repeat constructor. intros n H1 H2. apply list_elem_of_In in H1, H2. cbn in H1, H2. naive_solver.
  - apply Permutation_swap.
Defined.

Lemma edges_justified_witness : JustEdge (concat [child_ledger]) (MkEdge (js "p1") (js "c1") subagent_call).
Proof. apply edges_justified. vm_compute. left. Defined.
