(* ===== verification/SemanticLedgerSpec.v ===== *)
(** * Theorems about the recorder of semantic edges

    The ledger of a recorder keeps every event whose append returned, in order,
    whatever becomes of other writes, and a recorder over it has the memory of
    the one that wrote it ([ledger_survives]).  An identifier that goes out
    twice goes out with bodies of the same hash ([retries_are_identical]). *)

From S2P Require Import Prelude.
From S2P Require Import JsMap.
From S2P Require Import JsString.
From S2P Require Import Json.
From S2P Require Import JsonParse.
From S2P Require Import JsonlFile.
From S2P Require Import EventLog.
From S2P Require Import EventLogSpec.
From S2P Require Import SemanticEdges.

(** ** Events as records *)

(** The texts of an event are texts of 16-bit units. *)
Definition event_ok (e : SemanticEdgeLedgerEvent) : Prop :=
  let opt (o : option jsstr) := match o with Some s => units s | None => True end in
  match e with
  | SessionRegistered s p r => units s ∧ opt p ∧ opt r
  | RequestStarted r s c => units r ∧ units s ∧ opt c
  | RequestFinished r | RequestFailed r => units r
  | CompactionBegun c s => units c ∧ units s
  | CompactionFinished c _ => units c
  | ChildReturned s c r => units s ∧ units c ∧ units r
  end.

Ltac event_fields :=
  split; [apply json_ok_obj; split;
    [apply (bool_decide_unpack (NoDup _)); vm_compute; exact I|
     repeat (apply Forall_cons; split; [split; [by apply unitsb_spec|]|]); try apply Forall_nil;
     try done; split; cbn; try done; try by apply unitsb_spec]
    |by eexists].

Lemma event_json_ok e : event_ok e → record_ok (event_json e).
Proof.
  destruct e as [s [p|] [r|]|r s [c|]|r|r|c s|c []|s c r]; cbn [event_ok]; intros; destruct_and?; event_fields.
Qed.

Lemma event_of_json e : event_of (event_json e) = Some e.
Proof. by destruct e as [s [p|] [r|]|r s [c|]|r|r|c s|c []|s c r]. Qed.

Lemma events_of_json (es : list SemanticEdgeLedgerEvent) : omap event_of (event_json <$> es) = es.
Proof. induction es as [|e es IH]; [done|]. cbn [fmap list_fmap omap list_omap]. by rewrite event_of_json, IH. Qed.

Definition ledger_event (r : json) : Prop := ∃ e, event_ok e ∧ r = event_json e.

Lemma ledger_event_ok r : ledger_event r → record_ok r.
Proof. intros (e&He&->). by apply event_json_ok. Qed.

(** The parser of a line, as the library of logs has it *)
Definition read_line (line : jsstr) (_ : Z) : result jsstr (option json) :=
  match parse line with Some j => Ok (Some j) | None => Throw [] end.
#[local] Instance line_parser : LineParser ledger_event read_line Some.
Proof.
  split; [apply ledger_event_ok| |].
  - intros r i Hr. unfold read_line. by rewrite parse_stringify by apply (ledger_event_ok r Hr).
  - intros line i Hl. unfold read_line. rewrite Hl. by eexists.
Qed.

Lemma events_accepted (es : list SemanticEdgeLedgerEvent) : Forall event_ok es → Forall ledger_event (event_json <$> es).
Proof. intros H. apply Forall_fmap. eapply Forall_impl; [done|]. intros e He. by exists e. Qed.

(** ** Reading *)

Lemma parse_line_feed j : json_ok j → parse (stringify j ++ [NL]) = Some j.
Proof.
  intros Hok. destruct (read_stringify j Hok [NL] eq_refl) as [k Hk]. unfold parse.
  rewrite <-(parse_value_fuel (k + parse_fuel (stringify j ++ [NL]))) by (unfold parse_fuel; lia).
  by rewrite Hk by lia.
Qed.

Lemma cut_line_full l r : NL ∉ l → cut_line (l ++ NL :: r) = (l ++ [NL], r, true).
Proof.
  induction l as [|c l IH]; cbn; [done|]. rewrite not_elem_of_cons. intros [Hc Hl].
  destruct (Z.eqb_spec c NL); [congruence|]. by rewrite IH.
Qed.

Lemma cut_line_last l : NL ∉ l → cut_line l = (l, [], false).
Proof.
  induction l as [|c l IH]; cbn; [done|]. rewrite not_elem_of_cons. intros [Hc Hl].
  destruct (Z.eqb_spec c NL); [congruence|]. by rewrite IH.
Qed.

Lemma trim_line r : record_ok r → trim (stringify r ++ [NL]) ≠ [].
Proof.
  intros [_ (fs&->)]. rewrite stringify_obj, <-app_comm_cons. by destruct (trim_brace (js_join [44] (field_text <$> fs) ++ [125] ++ [NL])) as (p&Hp&_); rewrite <-(assoc_L (++)), Hp.
Qed.

Definition texts (rs : list json) : jsstr := concat (serializeLine <$> rs).

(** The loop reads whole records, and goes on behind them. *)
Lemma parse_loop_records rs rest : Forall ledger_event rs → ∀ fuel offset line events,
  (length (texts rs ++ rest) <= fuel)%nat →
  ∃ fuel' line', (length rest <= fuel')%nat ∧
    parse_loop fuel (texts rs ++ rest) offset line events = parse_loop fuel' rest (offset + length (texts rs)) line' (events ++ rs).
Proof.
  induction 1 as [|r rs Hr Hrs IH]; intros fuel offset line events Hf.
  - exists fuel, line. split; [done|]. cbn [texts fmap list_fmap concat length]. by rewrite Nat.add_0_r, app_nil_r.
  - pose proof (ledger_event_ok r Hr) as Hok. destruct fuel as [|fuel]; [cbn in Hf; unfold serializeLine in Hf; rewrite !length_app in Hf; cbn in Hf; lia|].
    assert (texts (r :: rs) ++ rest = stringify r ++ NL :: (texts rs ++ rest)) as E.
    { unfold texts. cbn. unfold serializeLine. by rewrite <-!(assoc_L (++)). }
    assert (length (texts (r :: rs)) = length (stringify r ++ [NL]) + length (texts rs))%nat as El.
    { unfold texts. cbn. by rewrite length_app. }
    rewrite E in *. destruct (IH fuel (offset + length (stringify r ++ [NL]))%nat (line + 1) (events ++ [r])) as (fuel'&line'&Hf'&Hp).
    { rewrite length_app in Hf. cbn in Hf. lia. }
    exists fuel', line'. split; [done|]. rewrite El, Nat.add_assoc. rewrite <-(assoc_L (++)) in Hp. cbn [app] in Hp. rewrite <-Hp.
    pose proof (cut_line_full (stringify r) (texts rs ++ rest) ltac:(apply stringify_no_NL, Hok)) as Hcut.
    cbn [parse_loop]. destruct (stringify r ++ NL :: texts rs ++ rest) as [|c s] eqn:Es; [by destruct (stringify r)|].
    rewrite Hcut. rewrite bool_decide_false by by apply trim_line. by rewrite parse_line_feed by apply Hok.
Qed.

(** ** What a ledger holds

    [holds es bytes repair]: the bytes read as the events [es], and before the
    next append the end of the file needs [repair]: a cut record is discarded,
    one that lacks only its line feed is given it. *)

Abbreviation records es := (event_json <$> (es : list SemanticEdgeLedgerEvent)).
Definition event_bytes (e : SemanticEdgeLedgerEvent) : list Z := utf8_encode (stringify (event_json e)).

Inductive holds : list SemanticEdgeLedgerEvent → list Z → option Repair → Prop :=
  | holds_clean es : Forall event_ok es → holds es (log_bytes (records es)) None
  | holds_torn es e tail t :
      Forall event_ok es → event_ok e → event_bytes e = tail ++ t → tail ≠ [] → t ≠ [] →
      holds es (log_bytes (records es) ++ tail) (Some (TruncateTo (length (log_bytes (records es)))))
  | holds_open es e : Forall event_ok es → event_ok e →
      holds (es ++ [e]) (log_bytes (records es) ++ event_bytes e) (Some TerminateLine).

Lemma event_bytes_ne e : event_ok e → event_bytes e ≠ [].
Proof.
  intros He H. unfold event_bytes in H. pose proof (event_json_ok e He) as [[Hu _] _].
  pose proof (utf8_stringify _ Hu) as E. rewrite H in E. cbn in E. by apply (stringify_nonempty (event_json e)).
Qed.

Lemma event_torn e tail t : event_ok e → event_bytes e = tail ++ t → torn ledger_event tail.
Proof. intros He E. right. exists (event_json e), t. split; [by exists e|done]. Qed.

Lemma decode_events es tail : Forall event_ok es →
  utf8_decode (log_bytes (records es) ++ tail) = texts (records es) ++ utf8_decode tail.
Proof. intros H%events_accepted. by rewrite (decode_log ledger_event read_line Some). Qed.

Lemma parse_content es tail : Forall event_ok es →
  ∃ fuel line, (length (utf8_decode tail) <= fuel)%nat ∧
  parseLedgerContent (utf8_decode (log_bytes (records es) ++ tail)) =
  parse_loop fuel (utf8_decode tail) (length (texts (records es))) line (records es).
Proof.
  intros H. rewrite decode_events by done. unfold parseLedgerContent.
  by apply (parse_loop_records (records es) (utf8_decode tail) (events_accepted _ H) _ 0%nat 0 []).
Qed.

(** A last line without a line feed *)
Lemma parse_loop_last fuel line offset n events :
  NL ∉ line → (length line <= fuel)%nat → trim line ≠ [] →
  parse_loop fuel line offset n events =
  match parse line with Some j => Ok (events ++ [j], (offset + length line)%nat) | None => Ok (events, offset) end.
Proof.
  intros Hl Hf Ht. destruct line as [|c line]; [done|]. destruct fuel as [|fuel]; [cbn in Hf; lia|].
  cbn [parse_loop]. rewrite cut_line_last by done. rewrite bool_decide_false by done.
  destruct (parse (c :: line)); [|done]. by destruct fuel.
Qed.

Lemma texts_bytes es : Forall event_ok es → Z.to_nat (byteLength (texts (records es))) = length (log_bytes (records es)).
Proof.
  intros H. unfold byteLength. rewrite Nat2Z.id. f_equal. apply encode_lines.
  eapply accepted_all; [apply ledger_event_ok|by apply events_accepted].
Qed.

Lemma last_texts es : texts (records es) = [] ∨ last (texts (records es)) = Some NL.
Proof.
  destruct es as [|e es _] using rev_ind; [by left|right]. unfold texts.
  rewrite !fmap_app, concat_app. cbn. unfold serializeLine. by rewrite app_nil_r, (assoc_L (++)), last_snoc.
Qed.

Lemma load_holds es bytes repair : holds es bytes repair → _loadExisting (Some bytes) = Ok (es, repair).
Proof.
  destruct 1 as [es Hes|es e tail t Hes He E Htail Ht|es e Hes He]; unfold _loadExisting.
  - destruct (parse_content es [] Hes) as (fuel&n&_&Hp). rewrite app_nil_r in Hp. rewrite Hp.
    assert (∀ off evs, parse_loop fuel (utf8_decode []) off n evs = Ok (evs, off)) as -> by (intros; by destruct fuel).
    pose proof (decode_events es [] Hes) as Hd. rewrite app_nil_r in Hd. rewrite events_of_json, Hd.
    change (utf8_decode []) with ([] : jsstr). rewrite app_nil_r, Nat.ltb_irrefl.
    rewrite bool_decide_false; [done|]. destruct (last_texts es) as [-> | ->]; tauto.
  - pose proof (event_torn _ _ _ He E) as Htorn. destruct (parse_content es tail Hes) as (fuel&n&Hf&->).
    destruct (torn_line _ tail t (event_json_ok e He) E Ht) as [Hnl Hnone].
    rewrite parse_loop_last; [|done|done|by apply (torn_trimmed ledger_event read_line Some tail Htorn)].
    rewrite Hnone, events_of_json, decode_events by done.
    destruct (torn_decoded ledger_event read_line Some tail Htorn Htail) as [_ Hne].
    replace (_ <? _)%nat with true; [|symmetry; apply Nat.ltb_lt; rewrite length_app; destruct (utf8_decode tail); cbn; [done|lia]].
    by rewrite take_app_length, texts_bytes.
  - pose proof (event_json_ok e He) as Hok. destruct (parse_content es (event_bytes e) Hes) as (fuel&n&Hf&->).
    rewrite decode_events by done. unfold event_bytes in *. rewrite utf8_stringify in * by apply Hok.
    pose proof (stringify_no_NL _ (proj1 (proj1 Hok))) as Hnl.
    rewrite parse_loop_last; [|done|done|rewrite trim_record by done; apply stringify_nonempty].
    rewrite parse_stringify by apply Hok. rewrite omap_app, events_of_json. cbn [omap list_omap]. rewrite event_of_json.
    rewrite length_app, Nat.ltb_irrefl. rewrite bool_decide_true; [done|].
    destruct (stringify (event_json e)) as [|c s _] eqn:Es using rev_ind; [by destruct (stringify_nonempty (event_json e))|].
    split; [by rewrite (assoc_L (++)); destruct (texts _ ++ s)|]. rewrite (assoc_L (++)), last_snoc. intros [= ->]. set_solver.
Qed.

Lemma read_holds es bytes repair : holds es bytes repair → readSemanticEdgeLedger bytes = Ok es.
Proof.
  intros H%load_holds. revert H. unfold _loadExisting, readSemanticEdgeLedger. destruct (parseLedgerContent _) as [[evs n]|]; [|done].
  by intros [= -> _].
Qed.

(** ** Writing *)

Definition holds_file (es : list SemanticEdgeLedgerEvent) (f : option (list Z)) (repair : option Repair) : Prop :=
  match f with None => es = [] ∧ repair = None | Some bytes => holds es bytes repair end.

Lemma event_line e : event_ok e → line_bytes (event_json e) = event_bytes e ++ [NL].
Proof. intros He. by apply line_bytes_eq, event_json_ok. Qed.

Lemma records_snoc es e : log_bytes (records (es ++ [e])) = log_bytes (records es) ++ line_bytes (event_json e).
Proof. rewrite fmap_app, log_bytes_app. cbn. by rewrite app_nil_r. Qed.

Lemma holds_events es bytes repair : holds es bytes repair → Forall event_ok es.
Proof. destruct 1; [done..|]. apply Forall_app. by split; [|constructor]. Qed.

Lemma holds_clean_inv es bytes : holds es bytes None → bytes = log_bytes (records es).
Proof. by inversion 1. Qed.

Lemma repair_holds w es bytes r : holds es bytes (Some r) →
  if repair_ok w then holds es (repair_file w r bytes) None else ∃ rep, holds es (repair_file w r bytes) rep.
Proof.
  inversion 1 as [|es' e tail t Hes He E Htail Ht|es' e Hes He]; subst; unfold repair_file; destruct (repair_ok w); cbn [orb].
  - rewrite take_app_length. by constructor.
  - eexists. done.
  - rewrite <-(assoc_L (++)), <-event_line, <-records_snoc by done. constructor. apply Forall_app. by split; [|constructor].
  - destruct (repair_wrote w); [|by eexists]. exists None.
    rewrite <-(assoc_L (++)), <-event_line, <-records_snoc by done. constructor. apply Forall_app. by split; [|constructor].
Qed.

Lemma write_holds es bytes e : holds es bytes None → event_ok e →
  holds (es ++ [e]) (bytes ++ line_bytes (event_json e)) None.
Proof.
  intros H He. pose proof (holds_events _ _ _ H) as Hes. rewrite (holds_clean_inv _ _ H), <-records_snoc. constructor.
  apply Forall_app. by split; [|constructor].
Qed.

(** A failed write leaves the event out, or all of it in. *)
Lemma cut_holds es bytes e n : holds es bytes None → event_ok e →
  ∃ es' rep, holds es' (bytes ++ take n (line_bytes (event_json e))) rep ∧ (es' = es ∨ es' = es ++ [e]).
Proof.
  intros H He. pose proof (holds_events _ _ _ H) as Hes. pose proof (holds_clean_inv _ _ H) as Hb. rewrite event_line by done.
  destruct (Nat.lt_trichotomy n (length (event_bytes e))) as [Hn|[->|Hn]].
  - rewrite take_app_le by lia. destruct n as [|n]; [exists es, None; rewrite app_nil_r; auto|].
    exists es, (Some (TruncateTo (length bytes))). split; [|by left]. rewrite Hb.
    apply (holds_torn es e _ (drop (S n) (event_bytes e))); [done|done|by rewrite take_drop| |].
    + destruct (event_bytes e) eqn:E; [by apply event_bytes_ne in E|done].
    + intros E. apply (f_equal length) in E. rewrite length_drop in E. cbn in E. lia.
  - exists (es ++ [e]), (Some TerminateLine). split; [|by right]. rewrite take_app_length, Hb. by constructor.
  - exists (es ++ [e]), None. split; [|by right]. rewrite take_ge by (rewrite length_app; cbn; lia).
    rewrite <-event_line by done. by apply write_holds.
Qed.

Lemma write_event_holds w e s es : holds_file es (file s) (pendingRepair s) → event_ok e →
  let r := write_event w e s in
  if r.2 then holds_file (es ++ [e]) (file r.1) (pendingRepair r.1)
  else ∃ es' rep, holds_file es' (file r.1) rep ∧ (es' = es ∨ es' = es ++ [e]).
Proof.
  intros H He. unfold write_event. destruct (mkdir_ok w); cbn [negb]; [|exists es; eauto].
  assert (∀ s', holds_file es (file s') None → pendingRepair s' = None →
    let r := match write_failed w with
      | None => (set_file (Some (default [] (file s') ++ line_bytes (event_json e))) s', true)
      | Some n => (set_file (Some (default [] (file s') ++ take n (line_bytes (event_json e)))) s', false) end in
    if r.2 then holds_file (es ++ [e]) (file r.1) (pendingRepair r.1)
    else ∃ es' rep, holds_file es' (file r.1) rep ∧ (es' = es ∨ es' = es ++ [e])) as Hw.
  { intros s' Hs Hr. assert (holds es (default [] (file s')) None) as Hh.
    { destruct (file s'); [done|]. destruct Hs as [-> _]. apply (holds_clean []). constructor. }
    destruct (write_failed w); cbn; [by apply cut_holds|]. rewrite Hr. by apply write_holds. }
  destruct (pendingRepair s) as [r|] eqn:Er; cbn [fst snd negb].
  - destruct (file s) as [bytes|] eqn:Ef; [|by destruct H]. pose proof (repair_holds w es bytes r H) as Hr.
    destruct (repair_ok w) eqn:Eok; cbn [fst snd negb].
    + apply Hw; done.
    + destruct Hr as [rep Hr]. exists es, rep. split; [done|by left].
  - by apply Hw.
Qed.

(** ** The memory of a recorder *)

(** What a recorder knows from its events; the hash of a body is not recorded. *)
Definition memory (s : SemanticEdgeRecorder) : Z * option (jsstr * Z) * option jsstr * list jsstr :=
  (epoch s, (λ t, (t_requestId t, t_epoch t)) <$> lastTurn s, lastCommittedRequestId s, openCompactions s).

Definition blank (sid : jsstr) : SemanticEdgeRecorder := MkRecorder sid true None None false 0 None None None [].

(** Two recorders that differ in their parked turn and in hashes only *)
Record same (s s' : SemanticEdgeRecorder) : Prop := {
  same_session : sessionId s = sessionId s';
  same_ledger : hasLedger s = hasLedger s';
  same_file : file s = file s';
  same_repair : pendingRepair s = pendingRepair s';
  same_disabled : disabled s = disabled s';
  same_memory : memory s = memory s' }.

Lemma same_refl s : same s s.
Proof. by split. Qed.

Lemma replay_memory e s s' : sessionId s = sessionId s' → memory s = memory s' → memory (_replay e s) = memory (_replay e s').
Proof.
  intros Hs [= H1 H2 H3 H4]. destruct e as [| r sid c | | | c sid | c [] |]; cbn; rewrite <-?Hs, <-?H4; repeat case_bool_decide; unfold memory; cbn; by rewrite ?H1, ?H2, ?H3, ?H4.
Qed.

Lemma replay_same e s :
  sessionId (_replay e s) = sessionId s ∧ hasLedger (_replay e s) = hasLedger s ∧ file (_replay e s) = file s ∧
  pendingRepair (_replay e s) = pendingRepair s ∧ disabled (_replay e s) = disabled s ∧ parkedRetry (_replay e s) = parkedRetry s.
Proof. destruct e as [| r sid c | | | c sid | c [] |]; cbn; repeat case_bool_decide; by split_and!. Qed.

Lemma replay_all_same es s :
  sessionId (replay_all es s) = sessionId s ∧ hasLedger (replay_all es s) = hasLedger s ∧ file (replay_all es s) = file s ∧
  pendingRepair (replay_all es s) = pendingRepair s ∧ disabled (replay_all es s) = disabled s ∧ parkedRetry (replay_all es s) = parkedRetry s.
Proof.
  revert s. induction es as [|e es IH]; intros s; [by split_and!|]. destruct (IH (_replay e s)) as (?&?&?&?&?&?).
  destruct (replay_same e s) as (?&?&?&?&?&?).
  change (replay_all (e :: es) s) with (replay_all es (_replay e s)). split_and!; congruence.
Qed.

Lemma replay_all_snoc es e s : replay_all (es ++ [e]) s = _replay e (replay_all es s).
Proof. unfold replay_all. by rewrite foldl_snoc. Qed.

Lemma replay_all_memory es s s' : sessionId s = sessionId s' → memory s = memory s' → memory (replay_all es s) = memory (replay_all es s').
Proof.
  revert s s'. induction es as [|e es IH]; intros s s' Hs Hm; [done|]. cbn. apply IH; [|by apply replay_memory].
  by rewrite (proj1 (replay_same e s)), (proj1 (replay_same e s')).
Qed.

Lemma write_event_same w e s :
  sessionId (write_event w e s).1 = sessionId s ∧ hasLedger (write_event w e s).1 = hasLedger s ∧
  disabled (write_event w e s).1 = disabled s ∧ memory (write_event w e s).1 = memory s ∧
  parkedRetry (write_event w e s).1 = parkedRetry s ∧ lastTurn (write_event w e s).1 = lastTurn s.
Proof.
  unfold write_event. destruct (mkdir_ok w); [|by split_and!]. cbn [negb].
  destruct (pendingRepair s) as [r|]; [destruct (repair_ok w)|]; cbn [fst snd negb]; [destruct (write_failed w)| |destruct (write_failed w)]; by split_and!.
Qed.

Lemma append_parked w e x s : _append w e (set_parkedRetry x s) = (set_parkedRetry x (_append w e s).1, (_append w e s).2).
Proof.
  assert (∀ e s, _replay e (set_parkedRetry x s) = set_parkedRetry x (_replay e s)) as Hr.
  { intros e' s'. destruct e' as [| r sid c | | | c sid | c [] |]; cbn; repeat case_bool_decide; done. }
  unfold _append. cbn [disabled set_parkedRetry]. destruct (disabled s); [done|]. cbn [hasLedger set_parkedRetry].
  destruct (hasLedger s); [|by rewrite Hr].
  assert (write_event w e (set_parkedRetry x s) = (set_parkedRetry x (write_event w e s).1, (write_event w e s).2)) as ->.
  { unfold write_event. destruct (mkdir_ok w); [|done]. cbn [negb pendingRepair set_parkedRetry].
    destruct (pendingRepair s) as [r|]; [destruct (repair_ok w)|]; cbn [fst snd negb]; [destruct (write_failed w)| |destruct (write_failed w)]; done. }
  destruct (write_event w e s) as [s' []]; cbn; [by rewrite Hr|done].
Qed.

(** ** Operations and the events they append *)

Inductive Op :=
  | OpStart (minted : jsstr) (bodyHash : option jsstr)
  | OpPrepareRetry | OpClearRetry
  | OpFinish (r : option jsstr) | OpFail (r : option jsstr) | OpSettle (r : jsstr) (e : StreamEnd)
  | OpBegin (minted : jsstr) | OpSummary (minted c : jsstr) | OpFinishCompaction (c : jsstr) (status : CompactionStatus)
  | OpChild (child : jsstr) (r : option jsstr).

Definition run_op (w : Outcome) (op : Op) (s : SemanticEdgeRecorder) : SemanticEdgeRecorder :=
  match op with
  | OpStart minted h => (startTurnRequest w minted h s).1
  | OpPrepareRetry => prepareTurnRetry s
  | OpClearRetry => clearTurnRetry s
  | OpFinish r => finishRequest w r s
  | OpFail r => failRequest w r s
  | OpSettle r e => settleRequest w r e s
  | OpBegin minted => (beginCompaction w minted s).1
  | OpSummary minted c => (startCompactionRequest w minted c s).1
  | OpFinishCompaction c status => (finishCompaction w c status s).1
  | OpChild child r => recordChildReturned w child r s
  end.

Definition op_event (op : Op) (s : SemanticEdgeRecorder) : option SemanticEdgeLedgerEvent :=
  match op with
  | OpStart minted h => Some (RequestStarted (turnRequestId minted h s) (sessionId s) None)
  | OpPrepareRetry | OpClearRetry => None
  | OpFinish r => RequestFinished <$> r
  | OpFail r => RequestFailed <$> r
  | OpSettle r e => Some (match e with EndedWith false => RequestFinished r | _ => RequestFailed r end)
  | OpBegin minted => Some (CompactionBegun minted (sessionId s))
  | OpSummary minted c => Some (RequestStarted minted (sessionId s) (Some c))
  | OpFinishCompaction c status => if bool_decide (c ∈ openCompactions s) then Some (CompactionFinished c status) else None
  | OpChild child r => ChildReturned (sessionId s) child <$> r
  end.

(** The event that reached the ledger, by the result of the append *)
Definition recorded_by (w : Outcome) (e : option SemanticEdgeLedgerEvent) (s : SemanticEdgeRecorder) : list SemanticEdgeLedgerEvent :=
  match e with Some e => if (_append w e s).2 then [e] else [] | None => [] end.

Definition appended (w : Outcome) (e : option SemanticEdgeLedgerEvent) (s : SemanticEdgeRecorder) : SemanticEdgeRecorder :=
  match e with Some e => (_append w e s).1 | None => s end.

(** Turns whose identifiers are texts *)
Definition turn_ok (t : option Turn) : Prop := match t with Some t => units (t_requestId t) | None => True end.
Definition turns_ok (s : SemanticEdgeRecorder) : Prop := turn_ok (lastTurn s) ∧ turn_ok (parkedRetry s).

Definition op_ok (op : Op) : Prop :=
  let opt (o : option jsstr) := match o with Some s => units s | None => True end in
  match op with
  | OpStart minted _ | OpBegin minted => units minted
  | OpPrepareRetry | OpClearRetry => True
  | OpFinish r | OpFail r => opt r
  | OpSettle r _ => units r
  | OpSummary minted c => units minted ∧ units c
  | OpFinishCompaction c _ => units c
  | OpChild child r => units child ∧ opt r
  end.

Lemma append_recorded w e s : (_append w e s).2 = true →
  ∃ s', (_append w e s).1 = _replay e s' ∧ sessionId s' = sessionId s ∧ memory s' = memory s ∧ lastTurn s' = lastTurn s ∧ parkedRetry s' = parkedRetry s.
Proof.
  unfold _append. destruct (disabled s); [done|]. destruct (hasLedger s); [|intros _; by exists s].
  pose proof (write_event_same w e s) as Hw. destruct (write_event w e s) as [s' []]; [|done]. intros _. exists s'. cbn [fst snd] in *. destruct Hw as (?&?&?&?&?&?). by split_and!.
Qed.

(** A turn is recorded before its hash is kept. *)
Lemma start_same w minted h s : same (startTurnRequest w minted h s).1 (appended w (op_event (OpStart minted h) s) s).
Proof.
  unfold startTurnRequest. cbn [op_event appended]. set (r := turnRequestId minted h s). set (e := RequestStarted r (sessionId s) None).
  assert (∀ s', s' = s ∨ s' = set_parkedRetry None s → same (let '(s2, ok) := _append w (RequestStarted r (sessionId s') None) s' in
    if ok then (set_lastTurn (Some (MkTurn r (epoch s2) h)) s2, Some r) else (s2, None)).1 (_append w e s).1) as H.
  { intros s' Hs'. assert (sessionId s' = sessionId s) as -> by (by destruct Hs' as [-> | ->]). fold e.
    assert (same (_append w e s').1 (_append w e s).1 ∧ (_append w e s').2 = (_append w e s).2) as [H1 H2].
    { destruct Hs' as [-> | ->]; [by split; [apply same_refl|]|]. rewrite append_parked. split; [by split|done]. }
    destruct (_append w e s') as [s2 ok] eqn:E. cbn in H1, H2. subst ok. destruct (_append w e s).2 eqn:Eok; [|done].
    destruct (append_recorded w e s Eok) as (s0&E0&Hsid&Hm&_). rewrite E0 in *. cbn in *.
    rewrite bool_decide_true in * by by rewrite Hsid. destruct H1 as [? ? ? ? ? [= He Ht Hc Ho]]. split; [done..|].
    unfold memory. cbn in *. by rewrite He, Hc, Ho. }
  apply H. destruct (bool_decide _); auto.
Qed.

Lemma run_op_same w op s : same (run_op w op s) (appended w (op_event op s) s).
Proof.
  destruct op; cbn [run_op op_event]; try (by split).
  - apply start_same.
  - destruct r; by split.
  - destruct r; by split.
  - destruct e as [[]| |]; by split.
  - unfold startCompactionRequest. cbn. by destruct (_append _ _ _).
  - unfold finishCompaction, appended, _append. destruct (disabled s) eqn:E.
    + by case_bool_decide.
    + by case_bool_decide.
  - destruct r; by split.
Qed.

(** ** A recorder and its ledger *)

Section recorder.
Context (sid : jsstr) (sid_ok : units sid).

Definition registered (es : list SemanticEdgeLedgerEvent) : Prop := existsb (registers sid) es = true.

(** What is at the path between the lifetimes of recorders *)
Definition kept_file (es : list SemanticEdgeLedgerEvent) (f : option (list Z)) : Prop :=
  (∃ rep, holds_file es f rep) ∧ (es = [] ∨ registered es).

(** The ledger holds [es], and the recorder, unless a write has failed, knows
    them. *)
Record Synced (es : list SemanticEdgeLedgerEvent) (s : SemanticEdgeRecorder) : Prop := {
  sy_session : sessionId s = sid;
  sy_ledger : hasLedger s = true;
  sy_file : kept_file es (file s);
  sy_live : disabled s = false →
    holds_file es (file s) (pendingRepair s) ∧ memory s = memory (replay_all es (blank sid)) ∧ registered es }.

Lemma registered_app es x : registered es → registered (es ++ x).
Proof. unfold registered. rewrite existsb_app. by intros ->. Qed.

Lemma synced_same es s s' : same s s' → Synced es s' → Synced es s.
Proof.
  intros [Hs Hl Hf Hr Hd Hm] [H1 H2 H3 H4]. split; [congruence|congruence|by rewrite Hf|].
  rewrite Hd, Hf, Hr, Hm. done.
Qed.

(** An append: the event is recorded, or the recorder is off, with the event in
    the ledger or not. *)
Lemma append_live w e s es : sessionId s = sid → hasLedger s = true → disabled s = false →
  holds_file es (file s) (pendingRepair s) → memory s = memory (replay_all es (blank sid)) →
  registered (es ++ [e]) → es = [] ∨ registered es → event_ok e →
  let a := _append w e s in
  if a.2 then Synced (es ++ [e]) a.1 ∧ disabled a.1 = false
  else disabled a.1 = true ∧ ∃ x, (length x <= 1)%nat ∧ Synced (es ++ x) a.1.
Proof.
  intros Hs Hl Hd Hf Hm Hreg Hes He. unfold _append. rewrite Hd, Hl.
  pose proof (write_event_holds w e s es Hf He) as Hw. destruct (write_event_same w e s) as (Ws&Wl&Wd&Wm&_).
  destruct (write_event w e s) as [s' ok]. cbn [fst snd] in *. destruct ok; cbn [fst snd].
  - destruct (replay_same e s') as (Rs&Rl&Rf&Rr&Rd&_). split; [|by rewrite Rd, Wd].
    split; [congruence|congruence| |intros _; split_and!].
    + rewrite Rf. split; [by eexists|by right].
    + by rewrite Rf, Rr.
    + rewrite replay_all_snoc. apply replay_memory; [|by rewrite Wm].
      rewrite (proj1 (replay_all_same es (blank sid))). cbn. congruence.
    + done.
  - split; [done|]. destruct Hw as (es'&rep&Hh&[-> | ->]).
    + exists []. rewrite app_nil_r. split; [cbn; lia|]. split; [cbn; congruence|cbn; congruence| |done]. split; [by eexists|done].
    + exists [e]. split; [done|]. split; [cbn; congruence|cbn; congruence| |done]. split; [by eexists|by right].
Qed.

(** Events beyond those recorded: at most one, whose write failed *)
Definition beyond (was : bool) (x : list SemanticEdgeLedgerEvent) (s : SemanticEdgeRecorder) : Prop :=
  x = [] ∨ was = false ∧ disabled s = true ∧ (length x <= 1)%nat.

Lemma appended_synced w e s es : Synced es s → (∀ e', e = Some e' → event_ok e') →
  ∃ x, Synced (es ++ recorded_by w e s ++ x) (appended w e s) ∧ beyond (disabled s) x (appended w e s) ∧
    (x ≠ [] → recorded_by w e s = []) ∧ (disabled s = true → disabled (appended w e s) = true).
Proof.
  intros Hsy He. destruct e as [e|]; cbn [recorded_by appended]; [|exists []; rewrite !app_nil_r; split_and!; [done|by left|done..]].
  destruct (disabled s) eqn:Hd.
  - unfold _append. rewrite Hd. exists []. rewrite !app_nil_r. split_and!; [done|by left|done..].
  - pose proof Hsy as [H1 H2 [_ H3] H4]. destruct (H4 Hd) as (Hf&Hm&Hr).
    pose proof (append_live w e s es H1 H2 Hd Hf Hm (registered_app es [e] Hr) H3 (He e eq_refl)) as Ha. cbv zeta in Ha.
    destruct (_append w e s).2.
    + exists []. rewrite app_nil_r. destruct Ha as [Ha _]. split_and!; [done|by left|done..].
    + destruct Ha as (Hdis&x&Hx&Ha). exists x. split_and!; [done|by right|done..].
Qed.

(** ** Turns are texts *)

Lemma append_turns w e s : turns_ok s → event_ok e → turns_ok (_append w e s).1.
Proof.
  intros [Hl Hp] He. destruct (_append w e s).2 eqn:E.
  - destruct (append_recorded w e s E) as (s'&->&_&_&El&Ep). assert (turns_ok s') as [Hl' Hp'] by (unfold turns_ok; by rewrite El, Ep).
    destruct e as [| r x c | | | c x | c [] |]; cbn; repeat case_bool_decide; try done. split; [apply He|done].
  - unfold _append in *. destruct (disabled s); [done|]. destruct (hasLedger s); [|done].
    destruct (write_event_same w e s) as (_&_&_&_&Ep&El). destruct (write_event w e s) as [s' []]; [done|].
    unfold turns_ok. cbn in *. by rewrite Ep, El.
Qed.

Lemma turn_id_ok minted h s : turns_ok s → units minted → units (turnRequestId minted h s).
Proof. intros [_ Hp] Hm. unfold turnRequestId. destruct (parkedRetry s); [|done]. by case_bool_decide. Qed.

Lemma op_event_ok op s e : turns_ok s → sessionId s = sid → op_ok op → op_event op s = Some e → event_ok e.
Proof using sid_ok.
  intros Ht Hs Ho. destruct op as [m h| | |[]|[]|r [[]| |]|m|m c|c st|ch []]; cbn; try done; try (by intros [= <-]); rewrite ?Hs.
  - intros [= <-]. split_and!; [by apply turn_id_ok|done|done].
  - intros [= <-]. by split.
  - intros [= <-]. by destruct Ho.
  - case_bool_decide; [|done]. by intros [= <-].
  - intros [= <-]. by destruct Ho.
Qed.

Lemma start_turns w minted h s : turns_ok s → sessionId s = sid → units minted → turns_ok (startTurnRequest w minted h s).1.
Proof using sid_ok.
  intros Ht Hs Hm. unfold startTurnRequest. set (s0 := if bool_decide _ then _ else s).
  assert (turns_ok s0 ∧ sessionId s0 = sid) as [Ht0 Hs0] by (subst s0; destruct (bool_decide _), Ht; done).
  pose proof (turn_id_ok minted h s Ht Hm) as Hr.
  pose proof (append_turns w (RequestStarted (turnRequestId minted h s) (sessionId s0) None) s0 Ht0) as Ha.
  destruct (_append w _ s0) as [s' ok]. rewrite Hs0 in Ha. destruct ok; cbn in *; [split; [done|]|]; by apply Ha.
Qed.

Lemma run_op_turns w op s : turns_ok s → sessionId s = sid → op_ok op → turns_ok (run_op w op s).
Proof using sid_ok.
  intros Ht Hs Ho. pose proof (op_event_ok op s) as He.
  assert (∀ e, op_event op s = Some e → turns_ok (_append w e s).1) as Ha by (intros e H; apply append_turns; [done|by apply He]).
  destruct op as [m h| | |[]|[]|r [[]| |]|m|m c|c st|ch []]; cbn [run_op op_event] in *; try done; try (by apply (Ha _ eq_refl)).
  - by apply start_turns.
  - by destruct Ht.
  - by destruct Ht.
  - unfold startCompactionRequest. specialize (Ha _ eq_refl). by destruct (_append _ _ _).
  - unfold finishCompaction. destruct (disabled s); [done|]. case_bool_decide; [|done]. by apply (Ha _ eq_refl).
Qed.

(** ** Lifetimes *)

Fixpoint run_ops (ops : list (Outcome * Op)) (s : SemanticEdgeRecorder) : SemanticEdgeRecorder * list SemanticEdgeLedgerEvent :=
  match ops with
  | [] => (s, [])
  | (w, op) :: ops => let '(s', es) := run_ops ops (run_op w op s) in (s', recorded_by w (op_event op s) s ++ es)
  end.

Lemma run_ops_synced ops : Forall (λ o, op_ok o.2) ops → ∀ es s, Synced es s → turns_ok s →
  let r := run_ops ops s in
  ∃ x, Synced (es ++ r.2 ++ x) r.1 ∧ beyond (disabled s) x r.1 ∧ (disabled s = true → r.2 = [] ∧ disabled r.1 = true).
Proof using sid_ok.
  induction 1 as [|[w op] ops Ho _ IH]; intros es s Hs Ht; cbn [run_ops].
  { exists []. rewrite !app_nil_r. split_and!; [done|by left|done]. }
  pose proof (run_op_same w op s) as Hsame. pose proof (same_disabled _ _ Hsame) as Hdis.
  destruct (appended_synced w (op_event op s) s es Hs) as (x&Hx&Hb&Hnr&Hoff).
  { intros e He. by apply (op_event_ok op s); [|apply (sy_session _ _ Hs)| |]. }
  apply (synced_same _ _ _ Hsame) in Hx. rewrite <-Hdis in Hoff.
  destruct (IH _ _ Hx) as (y&Hy&Hby&Hoffy); [apply run_op_turns; [done|apply (sy_session _ _ Hs)|done]|].
  destruct (run_ops ops (run_op w op s)) as [s' rec]. cbn [fst snd] in *. destruct Hb as [-> | (Hlive&Hoff2&Hx1)].
  - exists y. rewrite app_nil_r, <-!(assoc_L (++)) in *. split; [done|]. split.
    + destruct Hby as [-> | (Hd&?&?)]; [by left|right]. split_and!; [|done..]. destruct (disabled s); [by rewrite Hoff in Hd|done].
    + intros Hd. destruct (Hoffy (Hoff Hd)) as [-> ?]. split; [|done]. rewrite app_nil_r.
      destruct (op_event op s); [|done]. cbn. unfold _append. by rewrite Hd.
  - rewrite <-Hdis in Hoff2. destruct (Hoffy Hoff2) as [-> Hoff3]. destruct Hby as [-> | [? _]]; [|congruence].
    exists x. rewrite !app_nil_r in *. split; [done|]. split; [by right|]. by rewrite Hlive.
Qed.

Record Lifetime := MkLifetime { l_outcome : Outcome; l_parent : option jsstr; l_spawned : option jsstr; l_ops : list (Outcome * Op) }.

Definition lifetime_ok (l : Lifetime) : Prop :=
  let opt (o : option jsstr) := match o with Some s => units s | None => True end in
  opt (l_parent l) ∧ opt (l_spawned l) ∧ Forall (λ o, op_ok o.2) (l_ops l).

(** The event that the constructor records *)
Definition registration (l : Lifetime) (f : option (list Z)) : list SemanticEdgeLedgerEvent :=
  match _loadExisting f with
  | Ok (events, repair) =>
      if existsb (registers sid) events then [] else
      recorded_by (l_outcome l) (Some (SessionRegistered sid (l_parent l) (l_spawned l)))
        (set_repair repair (MkRecorder sid true f None false 0 None None None []))
  | Throw _ => []
  end.

Definition construct (l : Lifetime) (f : option (list Z)) : SemanticEdgeRecorder :=
  newRecorder (l_outcome l) sid true f (l_parent l) (l_spawned l).

Lemma load_file es f rep : holds_file es f rep → _loadExisting f = Ok (es, rep).
Proof. destruct f as [bytes|]; [apply load_holds|]. by intros [-> ->]. Qed.

Lemma replay_turns es s : Forall event_ok es → turns_ok s → turns_ok (replay_all es s).
Proof.
  intros He. revert s. induction He as [|e es He _ IH]; intros s Hs; [done|]. apply IH. destruct Hs as [Hl Hp].
  destruct e as [| r x c | | | c x | c [] |]; cbn; repeat case_bool_decide; try done. split; [apply He|done].
Qed.

Lemma construct_synced l es f : lifetime_ok l → kept_file es f →
  ∃ x, Synced (es ++ registration l f ++ x) (construct l f) ∧ beyond false x (construct l f) ∧ turns_ok (construct l f) ∧
    (registration l f ≠ [] → disabled (construct l f) = false).
Proof using sid_ok.
  intros (Hp&Hsp&_) [[rep Hf] Hreg]. unfold construct, newRecorder, registration. rewrite (load_file _ _ _ Hf).
  set (s0 := set_repair rep _). destruct (existsb (registers sid) es) eqn:E.
  - exists []. rewrite !app_nil_r. destruct (replay_all_same es s0) as (Hs&Hl&Hfi&Hr&Hd&Hpk).
    assert (Forall event_ok es) as Hok by (destruct f; [by eapply holds_events|by destruct Hf as [-> _]]).
    split_and!; [|by left|by apply replay_turns|done].
    split; [by rewrite Hs|by rewrite Hl|rewrite Hfi; split; [by eexists|by right]|]. intros _. rewrite Hfi, Hr.
    split_and!; [done|by apply replay_all_memory|done].
  - destruct Hreg as [-> | Hreg]; [|unfold registered in Hreg; congruence]. set (e := SessionRegistered _ _ _).
    assert (event_ok e) as He by by split_and!.
    assert (registered [e]) as Hreg by (unfold registered; cbn; by rewrite bool_decide_true).
    pose proof (append_live (l_outcome l) e s0 [] eq_refl eq_refl eq_refl Hf eq_refl Hreg ltac:(by left) He) as Ha. cbv zeta in Ha.
    pose proof (append_turns (l_outcome l) e s0) as Ht. cbn [recorded_by]. destruct (_append (l_outcome l) e s0).2; cbn [app].
    + exists []. destruct Ha as [Ha Hd]. split_and!; [done|by left|by apply Ht|done].
    + destruct Ha as (Hd&x&Hx&Ha). exists x. split_and!; [done|by right|by apply Ht|done].
Qed.
End recorder.

(** ** What survives *)

(** The lifetimes of recorders over one path, each ended at any moment: what
    each recorded, and what is left at the path *)
Fixpoint run_lives (sid : jsstr) (lives : list Lifetime) (f : option (list Z)) : list (list SemanticEdgeLedgerEvent) * option (list Z) :=
  match lives with
  | [] => ([], f)
  | l :: lives =>
      let '(s, es) := run_ops (l_ops l) (construct sid l f) in
      let '(recs, f') := run_lives sid lives (file s) in
      ((registration sid l f ++ es) :: recs, f')
  end.

(** The events of the lifetimes in order, after those of each perhaps one more,
    whose write failed when it was complete *)
Inductive kept : list (list SemanticEdgeLedgerEvent) → list SemanticEdgeLedgerEvent → Prop :=
  | kept_nil : kept [] []
  | kept_cons es x recs rest : (length x <= 1)%nat → kept recs rest → kept (es :: recs) (es ++ x ++ rest).

Lemma lifetime_synced sid l es f : units sid → lifetime_ok l → kept_file sid es f →
  let r := run_ops (l_ops l) (construct sid l f) in
  ∃ x, Synced sid (es ++ (registration sid l f ++ r.2) ++ x) r.1 ∧ (length x <= 1)%nat.
Proof.
  intros Hsid Hl Hf. destruct (construct_synced sid Hsid l es f Hl Hf) as (x&Hx&Hb&Ht&Hreg).
  destruct (run_ops_synced sid Hsid (l_ops l)) with (es := es ++ registration sid l f ++ x) (s := construct sid l f) as (y&Hy&Hby&Hoff);
    [by destruct Hl as (_&_&?)|done..|]. cbv zeta in *.
  destruct (run_ops _ _) as [s rec]. cbn [fst snd] in *. destruct Hb as [-> | (_&Hd&Hx1)].
  - exists y. rewrite app_nil_r, <-!(assoc_L (++)) in *. split; [done|]. destruct Hby as [-> | (_&_&?)]; cbn; [lia|done].
  - destruct (Hoff Hd) as [-> _]. destruct Hby as [-> | [? _]]; [|congruence]. exists x. rewrite !app_nil_r in *. by rewrite <-?(assoc_L (++)).
Qed.

Lemma run_lives_kept sid lives : units sid → Forall lifetime_ok lives → ∀ es f, kept_file sid es f →
  ∃ es', kept (run_lives sid lives f).1 es' ∧ kept_file sid (es ++ es') (run_lives sid lives f).2.
Proof.
  intros Hsid. induction 1 as [|l lives Hl _ IH]; intros es f Hf; cbn [run_lives].
  { exists []. rewrite app_nil_r. split; [constructor|done]. }
  destruct (lifetime_synced sid l es f Hsid Hl Hf) as (x&Hx&Hlen). cbv zeta in Hx.
  destruct (run_ops _ _) as [s rec]. cbn [fst snd] in Hx. destruct (IH _ _ (sy_file _ _ _ Hx)) as (es'&Hk&Hf').
  destruct (run_lives sid lives (file s)) as [recs f']. cbn [fst snd] in *.
  exists ((registration sid l f ++ rec) ++ x ++ es'). split; [by constructor|]. by rewrite <-!(assoc_L (++)) in *.
Qed.

(** C31: [safety] Whatever writes fail at whatever byte, and however often the
    process is ended and started again, the ledger can be read and gives every
    event whose append returned, in order, with at most one more for each
    lifetime, that of the write that failed; and a recorder that was not turned off by a failure is
    remembered by the next: its turn, its last committed request, its open
    compactions and its epoch. *)
Theorem ledger_survives sid lives : units sid → Forall lifetime_ok lives →
  let f := (run_lives sid lives None).2 in
  (∃ es, kept (run_lives sid lives None).1 es ∧
    match f with Some bytes => readSemanticEdgeLedger bytes = Ok es | None => es = [] end) ∧
  ∀ l w parent spawned, lifetime_ok l →
  let s := (run_ops (l_ops l) (construct sid l f)).1 in
  disabled s = false →
  let s' := newRecorder w sid true (file s) parent spawned in
  disabled s' = false ∧ memory s' = memory s.
Proof.
  intros Hsid Hl f. destruct (run_lives_kept sid lives Hsid Hl [] None) as (es&Hk&Hf); [split; [by exists None|by left]|].
  fold f in Hf. cbn [app] in Hf. split.
  - exists es. split; [done|]. destruct Hf as [[rep Hf] _]. destruct f; [by eapply read_holds|]. by destruct Hf.
  - intros l w parent spawned Hlife. destruct (lifetime_synced sid l es f Hsid Hlife Hf) as (x&Hx&_). cbv zeta in *.
    intros Hd. destruct (sy_live _ _ _ Hx Hd) as (Hh&Hm&Hr). unfold newRecorder. rewrite (load_file _ _ _ Hh), Hr.
    set (s0 := set_repair _ _). destruct (replay_all_same (es ++ (registration sid l f ++ (run_ops (l_ops l) (construct sid l f)).2) ++ x) s0) as (_&_&_&_&Hd0&_).
    split; [by rewrite Hd0|]. rewrite Hm. by apply replay_all_memory.
Qed.

(** ** Identifiers and bodies *)

(** The requests that went out: their identifiers and the hashes of their bodies *)
Definition sent (w : Outcome) (op : Op) (s : SemanticEdgeRecorder) : list (jsstr * option jsstr) :=
  match op with
  | OpStart minted h => match (startTurnRequest w minted h s).2 with Some r => [(r, h)] | None => [] end
  | OpSummary minted c => match (startCompactionRequest w minted c s).2 with Some r => [(r, None)] | None => [] end
  | _ => []
  end.

Fixpoint all_sent (ops : list (Outcome * Op)) (s : SemanticEdgeRecorder) : list (jsstr * option jsstr) :=
  match ops with [] => [] | (w, op) :: ops => sent w op s ++ all_sent ops (run_op w op s) end.

Definition minted_by (op : Op) : list jsstr :=
  match op with OpStart m _ | OpBegin m | OpSummary m _ => [m] | _ => [] end.

(** Two requests with one identifier have bodies of one hash. *)
Definition identical (l : list (jsstr * option jsstr)) : Prop :=
  ∀ i j r h h', i ≠ j → l !! i = Some (r, h) → l !! j = Some (r, h') → is_Some h ∧ h = h'.

Lemma identical_snoc l r h : identical l → (∀ h', (r, h') ∈ l → is_Some h ∧ h = h') → identical (l ++ [(r, h)]).
Proof.
  intros Hl Hr i j r' h1 h2 Hij Hi Hj.
  apply lookup_app_Some in Hi as [Hi|[Hi1 Hi]], Hj as [Hj|[Hj1 Hj]].
  - by apply (Hl i j r').
  - apply list_lookup_singleton_Some in Hj as [_ [= <- <-]]. apply list_elem_of_lookup_2, Hr in Hi as [? ->]. done.
  - apply list_lookup_singleton_Some in Hi as [_ [= <- <-]]. by apply list_elem_of_lookup_2, Hr in Hj.
  - apply list_lookup_singleton_Some in Hi as [Hi _], Hj as [Hj _]. lia.
Qed.

(** The turns that a recorder may use again are among the requests sent. *)
Definition remembered (l : list (jsstr * option jsstr)) (s : SemanticEdgeRecorder) : Prop :=
  ∀ t h, lastTurn s = Some t ∨ parkedRetry s = Some t → t_bodyHash t = Some h → (t_requestId t, Some h) ∈ l.

Lemma replay_turn e s : lastTurn (_replay e s) = lastTurn s ∨ ∃ t, lastTurn (_replay e s) = Some t ∧ t_bodyHash t = None.
Proof. destruct e as [| r x c | | | c x | c [] |]; cbn; repeat case_bool_decide; auto. right. by eexists. Qed.

Lemma remembered_append l w e s : remembered l s → remembered l (_append w e s).1.
Proof.
  intros Hl. destruct (_append w e s).2 eqn:E.
  - destruct (append_recorded w e s E) as (s'&->&_&_&El&Ep). destruct (replay_same e s') as (_&_&_&_&_&Hp).
    intros t h [Ht|Ht] Hh; [|apply (Hl t h); [right; congruence|done]].
    destruct (replay_turn e s') as [Hr|(t'&Hr&Hn)]; [apply (Hl t h); [left; congruence|done]|congruence].
  - unfold _append in *. destruct (disabled s); [done|]. destruct (hasLedger s); [|done].
    destruct (write_event_same w e s) as (_&_&_&_&Ep&El). destruct (write_event w e s) as [s' []]; [done|].
    intros t h. cbn in *. rewrite Ep, El. apply Hl.
Qed.

Lemma remembered_more l l' s : remembered l s → remembered (l ++ l') s.
Proof. intros Hl t h Ht Hh. apply elem_of_app. left. by apply Hl. Qed.

Lemma step_sent l w op s : remembered l s → identical l → (∀ m, m ∈ minted_by op → m ∉ l.*1) →
  remembered (l ++ sent w op s) (run_op w op s) ∧ identical (l ++ sent w op s) ∧
  ∀ r, r ∈ (sent w op s).*1 → r ∈ l.*1 ∨ r ∈ minted_by op.
Proof.
  intros Hr Hi Hm.
  assert (∀ s', remembered l s' → sent w op s = [] → remembered (l ++ sent w op s) s' ∧ identical (l ++ sent w op s) ∧
    ∀ r, r ∈ (sent w op s).*1 → r ∈ l.*1 ∨ r ∈ minted_by op) as Hnone.
  { intros s' Hs' ->. rewrite app_nil_r. split_and!; [done..|]. intros r H. by apply not_elem_of_nil in H. }
  destruct op as [m h| | |[]|[]|r [[]| |]|m|m c|c st|ch []]; cbn [run_op];
    try (apply Hnone; [done || apply remembered_append; done|done]).
  - cbn [sent]. unfold startTurnRequest. set (id := turnRequestId m h s). set (s0 := if bool_decide _ then _ else s).
    assert (remembered l s0) as H0.
    { subst s0. destruct (bool_decide _); [|done]. intros t b [Ht|Ht] Hb; [|done]. apply (Hr t b); [by left|done]. }
    pose proof (remembered_append l w (RequestStarted id (sessionId s0) None) s0 H0) as Ha.
    destruct (_append w _ s0) as [s' ok]. cbn [fst] in Ha. destruct ok; cbn [fst snd];
      [|rewrite app_nil_r; split_and!; [done|done|intros x Hx; by apply not_elem_of_nil in Hx]].
    assert (id = m ∨ is_Some h ∧ (id, h) ∈ l) as Hid.
    { subst id. unfold turnRequestId. destruct (parkedRetry s) as [p|] eqn:Ep; [|by left].
      case_bool_decide as Hc; [right|by left]. destruct Hc as (_&[b Hb]&Hbh). rewrite <-Hbh, Hb. split; [done|].
      apply (Hr p b); [by right|done]. }
    split_and!.
    + intros t b [[= <-]|Ht] Hb; [cbn in *; subst; apply elem_of_app; right; by apply list_elem_of_singleton|].
      apply elem_of_app. left. apply (Ha t b); [by right|done].
    + apply identical_snoc; [done|]. intros h' Hin. destruct Hid as [-> | [Hh Hl]].
      * exfalso. apply (Hm m); [by left|]. apply list_elem_of_fmap. by exists (m, h').
      * split; [done|]. apply list_elem_of_lookup_1 in Hl as [i Hl], Hin as [j Hin].
        destruct (decide (i = j)) as [->|Hij]; [congruence|]. by apply (Hi i j id).
    + intros r [= ->]%list_elem_of_singleton. destruct Hid as [-> | [_ Hl]]; [right; by left|left].
      apply list_elem_of_fmap. by exists (id, h).
  - apply Hnone; [|done]. intros t b Ht. apply Hr. cbn in Ht. by destruct Ht; left.
  - apply Hnone; [|done]. intros t b [Ht|Ht]; [apply Hr; by left|done].
  - cbn [sent]. unfold startCompactionRequest. set (e := RequestStarted _ _ _).
    pose proof (remembered_append l w e s Hr) as Ha. destruct (_append w e s) as [s' ok]. cbn [fst snd] in *.
    destruct ok; [|rewrite app_nil_r; split_and!; [done|done|intros x Hx; by apply not_elem_of_nil in Hx]].
    split_and!; [by apply remembered_more| |intros r [= ->]%list_elem_of_singleton; right; by left].
    apply identical_snoc; [done|]. intros h' Hin. exfalso. apply (Hm m); [by left|]. apply list_elem_of_fmap. by exists (m, h').
  - apply Hnone; [|done]. unfold finishCompaction. destruct (disabled s); [done|]. case_bool_decide; [|done].
    cbn. by apply remembered_append.
Qed.

Lemma all_sent_identical ops l s : remembered l s → identical l → NoDup (ops ≫= λ o, minted_by o.2) →
  (∀ m, m ∈ (ops ≫= λ o, minted_by o.2) → m ∉ l.*1) → identical (l ++ all_sent ops s).
Proof.
  revert l s. induction ops as [|[w op] ops IH]; intros l s Hr Hi Hnd Hm; cbn in *; [by rewrite app_nil_r|].
  apply NoDup_app in Hnd as (_&Hd&Hnd).
  destruct (step_sent l w op s Hr Hi) as (Hr'&Hi'&Hs); [intros m Hin; apply Hm, elem_of_app; by left|].
  rewrite (assoc_L (++)). apply IH; [done..|]. intros m Hin. rewrite fmap_app. intros [Hl|Hsent]%elem_of_app.
  - apply (Hm m); [apply elem_of_app; by right|done].
  - destruct (Hs m Hsent) as [Hl|Hop]; [apply (Hm m); [apply elem_of_app; by right|done]|by apply (Hd m)].
Qed.

(** C32: [safety] Two requests of a recorder that go out under one identifier have
    bodies of the same hash, whatever operations come between them and whatever
    writes fail: an identifier is used again for the retry of a turn only. *)
Theorem retries_are_identical w sid hasPath existing parent spawned ops :
  NoDup (ops ≫= λ o, minted_by o.2) → identical (all_sent ops (newRecorder w sid hasPath existing parent spawned)).
Proof.
  intros Hnd. apply (all_sent_identical ops [] _); [|by intros i j r h h' _ ?|done|by intros m _ ?%elem_of_nil].
  assert (∀ es s, remembered [] s → remembered [] (replay_all es s)) as Hrep.
  { intros es. induction es as [|e es IH]; intros s Hs; [done|]. apply IH. intros t h [Ht|Ht] Hh.
    - destruct (replay_turn e s) as [E|(t'&E&Hn)]; [apply (Hs t h); [left; congruence|done]|congruence].
    - destruct (replay_same e s) as (_&_&_&_&_&E). apply (Hs t h); [right; congruence|done]. }
  unfold newRecorder. destruct (if hasPath then _ else _) as [[es rep]|err]; [|by intros t h [] ?].
  destruct (existsb _ es); [apply Hrep; by intros t h [] ?|]. apply remembered_append. by intros t h [] ?.
Qed.

(** ** Examples *)

(** A turn fails and is tried again; the next process loses the record of a
    compaction after ten bytes. *)
Definition sample_turns : list (Outcome * Op) :=
  [(fine, OpStart (js "r1") (Some (js "h"))); (fine, OpFail (Some (js "r1"))); (fine, OpPrepareRetry);
   (fine, OpStart (js "r2") (Some (js "h"))); (fine, OpSettle (js "r1") (EndedWith false))].

Definition sample_lives : list Lifetime :=
  [MkLifetime fine None None sample_turns;
   MkLifetime fine None None [(MkOutcome true true true (Some 10%nat), OpBegin (js "k")); (fine, OpStart (js "r3") None)]].

Example sample_ledger :
  match (run_lives (js "S") sample_lives None).2 with Some bytes => readSemanticEdgeLedger bytes | None => Throw [] end =
  Ok [SessionRegistered (js "S") None None; RequestStarted (js "r1") (js "S") None; RequestFailed (js "r1");
      RequestStarted (js "r1") (js "S") None; RequestFinished (js "r1")].
Proof. vm_compute. reflexivity. Qed.

Lemma ledger_survives_witness :
  (∃ es, kept (run_lives (js "S") sample_lives None).1 es ∧
    match (run_lives (js "S") sample_lives None).2 with Some bytes => readSemanticEdgeLedger bytes = Ok es | None => es = [] end) ∧
  memory (newRecorder fine (js "S") true
    (file (run_ops sample_turns (construct (js "S") (MkLifetime fine None None sample_turns) (run_lives (js "S") sample_lives None).2)).1) None None) =
  (0, Some (js "r1", 0), Some (js "r1"), []).
Proof.
  assert (Forall lifetime_ok sample_lives) as Hok.
  { apply Forall_cons; split; [|apply Forall_cons; split; [|done]]; split_and!; try done;
      repeat (apply Forall_cons; split); try apply Forall_nil; try done; by apply unitsb_spec. }
  destruct (ledger_survives (js "S") sample_lives ltac:(by apply unitsb_spec) Hok) as [H1 H2]. split; [exact H1|].
  etransitivity; [apply (H2 (MkLifetime fine None None sample_turns) fine None None); [by apply Forall_cons in Hok as [? _]|vm_compute; reflexivity]|].
  vm_compute. reflexivity.
Defined.

Lemma retries_are_identical_witness :
  identical (all_sent sample_turns (newRecorder fine (js "S") true None None None)) ∧
  all_sent sample_turns (newRecorder fine (js "S") true None None None) = [(js "r1", Some (js "h")); (js "r1", Some (js "h"))].
Proof.
  split; [|vm_compute; reflexivity]. apply retries_are_identical. apply (bool_decide_unpack _). vm_compute. exact I.
Defined.
